(* ===== verification/_CoqProject ===== *)
-Q . S2P
Prelude.v
Errors.v
CheckpointApi.v
Strs.v
Bytes.v
Json.v
Offsets.v
Progress.v
Glob.v
GtidSet.v
Event.v
Barrier.v
Monad.v
Driver.v
DriverDelivery.v
DriverChunk.v
Fs.v
OwnerLease.v
FileCheckpoint.v
Idempotency.v
Runtime.v
RuntimeDelivery.v
SchemaHistory.v
Text.v
DdlParse.v
DdlRoundtrip.v
PgDecoder.v
PgParser.v
PgAuth.v
PgWire.v
PgStream.v
PgRuntime.v
Sinks.v
FileSink.v
Transforms.v
TransformFilter.v
TransformMask.v
TransformFields.v
Lifecycle.v
LifecycleLaws.v
Reconnect.v
LifecycleDemo.v
MysqlRows.v
MysqlGtid.v
Mysql.v
MysqlStart.v
MysqlStream.v
MysqlRestart.v
MysqlSnapshot.v
MysqlPages.v
MysqlIncremental.v
MysqlDemo.v
SqlServer.v
SqlServerWindow.v
SqlServerSnapshot.v
SqlServerIncremental.v
SqlServerDemo.v
Snowflake.v
SnowflakeSync.v
SnowflakeDemo.v
