(* ===== verification/Prelude.v ===== *)
(** * rustcdc: a verification development of the change-data-capture core

    rustcdc reads the change log of a database, turns it into events, hands them to a
    consumer in batches and records how far the consumer got, so that a restart resumes
    where it stopped.  This library models that path in Rocq, from the bytes of a
    replication connection to the checkpoint file, and proves what makes it correct.

    ** The program and the files that model it

    Paths are relative to [src/src/].  A file that models a component has a [Module] of
    the same name; operations keep the names of the Rust functions, prefixed where two
    types share one.

    Foundations.
    - [Prelude]: machine integers and build profiles, the tactics and the hint database.
    - [Errors]: [core/error.rs], the error sum, its classification and aggregation;
      [Res] is [Result] with a third outcome, the panic.
    - [Monad]: stateful computations [M S A], loops, and a Hoare logic for them.
    - [Strs], [Bytes], [Json]: the parts of Rust's [str], of byte slices and of
      [serde_json::Value] the sources use.
    - [Fs]: files, descriptors and directories with a volatile and a durable content,
      failing calls, process death and power loss; [core/durability.rs].

    Positions and checkpoints.
    - [CheckpointApi]: the [Offset] and [Checkpoint] traits and the in-memory store.
    - [Offsets]: the offset types of the connectors and their encodings
      ([checkpoint/mod.rs]) and the snapshot state they carry
      ([source/incremental_snapshot.rs]).
    - [Progress]: the guard against rewinding a checkpoint ([checkpoint/mod.rs]).
    - [Barrier]: [checkpoint/barrier.rs], which events may be committed.
    - [OwnerLease]: [checkpoint/owner_lease.rs], one writer per directory.
    - [FileCheckpoint]: the file store of [checkpoint/mod.rs] on [Fs].

    Events and the runtime.
    - [Event]: [core/event.rs], validation, keys and the row write of an event.
    - [Idempotency]: [core/idempotency.rs], fingerprints and the duplicate window.
    - [Runtime], [RuntimeDelivery]: [core/runtime.rs] with [core/runtime/runtime_poll.rs]
      and [core/runtime/runtime_commit.rs]: queues, batches, ack tokens, confirmation;
      the first has the definitions, the second sessions of polls and acknowledgements.
    - [Lifecycle]: the rest of the runtime ([core/runtime.rs], [runtime_lifecycle.rs],
      [runtime_poll.rs], [runtime_admin.rs], [control.rs] under [core/runtime/]):
      construction, starting and resuming, a whole poll with its stages, its snapshot phase
      and its reconnect loop, the control queue, stopping and draining, driving a sink,
      health.  [LifecycleLaws] has what holds over any source, [Reconnect] what holds over
      a source with a log, [LifecycleDemo] a scripted server and the runs over it.
    - [SchemaHistory]: [schema_history/mod.rs] and the data of [ddl_capture/mod.rs].
    - [Text]: strings as lists of characters with their width in bytes, case and slices that
      panic off a character boundary; [DdlParse]: the DDL parsers of [ddl_capture/mod.rs] and
      [ddl_capture/parsing.rs] on such text; [DdlRoundtrip]: printed statements and what the
      parsers read back.

    Sources.
    - [Glob]: table patterns ([core/glob.rs], [source/mod.rs]).
    - [GtidSet]: [source/mysql/gtid.rs].
    - [Driver], [DriverDelivery], [DriverChunk]: the incremental snapshot driver of
      [source/incremental_snapshot/driver.rs]; the definitions, delivery over any
      session, and what one chunk does to its table.
    - [PgDecoder]: the pgoutput decoder ([source/postgres/decoder.rs]).
    - [PgParser]: names and positions as text ([source/postgres/parser.rs]).
    - [PgAuth]: SCRAM and MD5 ([source/postgres/wire/auth.rs]).
    - [PgWire]: framing, handshake and the receive loop
      ([source/postgres/wire/framing.rs], [stream.rs], [mod.rs]).
    - [PgStream]: the change stream: [source/postgres.rs], [stream_messages.rs],
      [streaming.rs] and the providers of [decoder.rs].
    - [PgRuntime]: the runtime over that stream.
    - [MysqlRows]: values, rows and GTID sets of MySQL ([source/mysql/query.rs]); [MysqlGtid]:
      what the sets mean.
    - [Mysql]: names and positions ([source/mysql/parser.rs], [state.rs]), the decoding of
      binlog events of MySQL and MariaDB servers ([source/mysql.rs]) and the change stream
      ([stream_messages.rs]); [MysqlStart]: validation, start, resume and handoff
      ([stream_start.rs], [handoff.rs]); [MysqlStream] and [MysqlRestart]: the delivery of a
      binlog by one session and across a restart.
    - [MysqlSnapshot]: the bulk snapshot ([snapshot_start.rs], [snapshot_chunk.rs] and
      [source/mysql.rs]), [MysqlPages]: its paging by key; [MysqlIncremental]: the backend of
      the incremental driver ([incremental_snapshot.rs]); [MysqlDemo]: a concrete server.
    - [SqlServer]: the SQL Server change stream: [source/sqlserver.rs] with [parser.rs],
      [stream_window.rs], [stream_start.rs], [stream_schema.rs], [query.rs], [state.rs] and
      [prereq.rs] under [source/sqlserver/]; [SqlServerWindow] has the delivery of a log
      through its windows, pages and cursors.
    - [SqlServerSnapshot]: the bulk snapshot ([snapshot_start.rs], [snapshot_chunk.rs],
      [snapshot_fetch.rs], [snapshot_finalize.rs]); [SqlServerIncremental]: its backend of
      the incremental driver ([incremental_snapshot.rs]); [SqlServerDemo]: a concrete
      server and the runs over it.
    - [Snowflake]: the Snowflake source ([source/snowflake.rs] with [sql.rs], [mapping.rs],
      [stream.rs] and [snapshot.rs]); [SnowflakeSync]: a sink that follows an account;
      [SnowflakeDemo]: a small account and the runs over it.

    From the source to the sinks.
    - [Transforms]: the stage trait and the pipeline ([transform/mod.rs]) with the
      runtime's [apply_transforms]; [TransformFilter], [TransformMask] and
      [TransformFields] model the built-in stages of [transform/filter_projection.rs],
      [mask_hash.rs], [field_mapping.rs], [unwrap.rs], [route.rs] and [outbox.rs].
    - [Sinks]: the sink trait, the memory, standard-output and fan-out sinks
      ([sink/mod.rs], [sink/stdout.rs], [sink/fan_out.rs]) and the table router
      ([pipeline/router.rs]).
    - [FileSink]: the JSON-lines file sink ([sink/file_jsonl.rs]) on [Fs].

    ** How the parts meet

    Interfaces are type classes named after the Rust traits, and a client is verified
    against the class: [Checkpoint] (the barrier and the runtime over any store; the
    in-memory and the file store are instances), [Driver.StreamHandle] and
    [Driver.Backend] (the snapshot driver and the runtime over any live stream and
    database, under the laws [DriverDelivery.StreamLaws], [BackendLaws] and
    [RuntimeDelivery.ConfirmLaws]; [PgStream.postgres_stream], [MysqlStream_StreamHandle]
    with [MysqlSnapshotBackend] and [SqlServerStreamHandle] with
    [SqlServerSnapshotBackend] are instances),
    [Lifecycle.Source] and [Lifecycle.History] with the laws [Reconnect.LogSource],
    [LifecycleLaws.Recovering], [Reconnect.StoreLaws] and [Reconnect.SinkLaws],
    [PgStream.PgOutputMessageProvider] with both providers, [Sinks.SinkAdapter] (the
    fan-out and the router are sinks over any sinks), [Transforms.Transform] with the laws
    [Transforms.StageLaws] its stages satisfy, and [PgAuth.Crypto] with the
    laws of its hash functions.  [JsonCodec] and the digest of [FileCheckpoint] stand for
    [serde_json] and SHA-256.  Witnesses instantiate every class with concrete functions.

    Time is a script: a clock is a list of increments or readings, a socket a list of
    arrivals that may be split anywhere, a file system a list of faults; theorems
    quantify over all of them, which covers every interleaving of the environment with
    the code.  A [BuildProfile] decides whether an overflow panics or wraps.

    ** What the theorems show

    - Delivery: a session of polls and acknowledgements neither loses, repeats nor
      reorders an event ([RuntimeDelivery]); an ack token commits once; the barrier
      refines a ledger of acknowledged events; the driver hands over every live event
      beside its snapshot rows, terminates, and its chunk windows converge to the table.
    - The whole runtime: over any store, source and sink, and however connections, reads,
      saves, sends and flushes fail, every event the saved position has passed was
      delivered and acknowledged and is in the sink; stopping accounts for the rest; a poll
      ends within its retry budget and rides out an outage the budget covers.
    - Durability: a save is atomic under power loss and process death, a load trusts only
      complete records and returns the furthest, nothing rewinds, the checksum covers the
      record, and at most one lease holder writes.
    - The PostgreSQL path: decoding is exactly the pgoutput grammar; framing does not
      depend on how bytes arrive; SCRAM authenticates both sides; transactions leave the
      decoder whole; acknowledgements never run ahead of confirmations.
    - The SQL Server path: polling hands out the change tables exactly once and in the
      order of their positions however pages and windows cut them, a restart goes on at
      the saved position, and the bulk snapshot emits every row once across chunks and
      restarts.
    - The MySQL path: a session of polls hands out every row change of the transactions
      committed in the binlog once and in order, however it is cut into polls; a restart at
      the saved position goes on after the last transaction; a merged GTID set names what
      either set named; brackets by GTID sets ask what the chunk read saw; a table with a
      text key is read once, page by page, and its progress is saved with the position.
    - The Snowflake path: the initial load and the windows after it add up to the account,
      whatever queries fail on the way.
    - DDL: a printed CREATE TABLE is read back with its names, columns and keys in every
      dialect, and no ASCII statement makes a parser panic.
    - Decisions: globs, the rewind guard, fingerprints and the duplicate
      window each equal a declarative definition; a sink that applies [row_write] follows
      the source; schema history recognises replayed statements.
    - Transforms: driving a batch and driving single events agree; filters compare
      decimals as rationals; masking does not depend on what it takes out, and encrypted
      fields decrypt to what they were; flattening is the map of the leaves.
    - Sinks: the router hands every event to the first matching sink and nothing else, a
      checkpoint barrier begins in every sink or in none, and what the file sink accepted
      and closed is on disk, in order, across rotations.
    - Defects, each stated as a theorem of the code: a partial acknowledgement passes its
      transaction, an idle advance passes unconfirmed events, a handshake completes
      without the server's proof, a failed schema write is not retried, truncations repeat
      an index, held-back events are overtaken, a batch policy splits transactions, a zero
      acknowledgement accepts everything, a restart drops a request filter, a failed flush
      forgets its batch, a wildcard mask misses nested fields, the outbox stage loses the
      key, a copy of an absent field clears an unavailable mark, a batch that fails in a
      transform is lost, a runtime that gave up its stream is silent for good, a snapshot
      checkpoint blocks every reconnect, a reconnect before the first commit skips events,
      a failing drain loses what it committed, a quiet source is reported as a stall, an
      incremental snapshot over SQL Server persists no progress, its row filter binds to
      one alternative of the seek predicate, a MySQL commit overwrites the executed GTID
      set, rows committed by a statement are dropped, a binary key is read for ever, a
      Snowflake stream cannot be resumed from the runtime's checkpoint and loses a key that
      moves to another row, and DDL parsers take a modifier for a name or panic inside a
      character.

    ** Bounds and fuel

    Loops that are not structural run on fuel that their callers compute, and running out
    is a panic, so a theorem that excludes panics also proves the fuel is enough:
    [glob_match] gets the product of the lengths, the PostgreSQL loops the bytes and
    arrivals that can still come ([PgWire.work]), [PgStream.pg_next_events] the timeout in
    milliseconds (a turn sleeps at least one), the driver five iterations more than its
    tables and chunk need, eviction the size of the window.  The retry loop of a poll is
    unbounded when the configuration says so: its fuel is an argument, running out is the
    answer [None], and [LifecycleLaws] proves that one turn more than the configured number
    of retries is enough.  Integers are [Z] with ranges
    and wrap-around written out; [usize] counters of in-memory collections are [nat].

    ** Not modelled

    Opening connections and TLS; the bulk snapshot of the PostgreSQL connector and its
    handoff; the trackers of initial snapshots; codecs and WASM; the JSON and Prometheus text
    of the admin snapshot; logging, metrics and configuration.  The warnings and metrics inside
    modelled functions are left out.  The envelope's serialization is modelled only where a
    component depends on it. *)

From Stdlib Require Export ZArith Lia Strings.Byte Strings.Ascii Strings.String.
From stdpp Require Export base tactics numbers option strings fin_maps gmap list.

Open Scope Z_scope.

(** ** Machine integers

    Rust's fixed-width integers are modelled as [Z] kept in range, with the
    wrap-around written out where the source can overflow. *)

Definition u64_modulus : Z := 2 ^ 64.
Definition u64_max : Z := u64_modulus - 1.
Definition u32_max : Z := 2 ^ 32 - 1.
Definition u64_range (z : Z) : Prop := 0 <= z < u64_modulus.

(** [a.saturating_add(b)] and [a.saturating_sub(b)] on [u64]. *)
Definition saturating_add (a b : Z) : Z := Z.min (a + b) u64_max.
Definition saturating_sub (a b : Z) : Z := Z.max (a - b) 0.

(** The build profile.  An arithmetic overflow panics when the crate is compiled
    with overflow checks (the dev profile) and wraps around otherwise (the release
    profile); [Cargo.toml] overrides neither. *)
Class BuildProfile := overflow_checks : bool.

Definition u64_add `{BuildProfile} (a b : Z) : option Z :=
  if a + b <? u64_modulus then Some (a + b)
  else if overflow_checks then None else Some ((a + b) mod u64_modulus).

Definition u64_sub `{BuildProfile} (a b : Z) : option Z :=
  if b <=? a then Some (a - b)
  else if overflow_checks then None else Some ((a - b) mod u64_modulus).

Lemma filter_all {A} (p : A -> bool) l : Forall (fun x => p x = true) l -> List.filter p l = l.
Proof. induction 1 as [|x l Hx _ IH]; simpl; [done|]. by rewrite Hx, IH. Qed.

Lemma filter_none {A} (p : A -> bool) l :
  Forall (fun x => p x = false) l -> List.filter p l = [].
Proof. induction 1 as [|x l Hx _ IH]; simpl; [done|]. by rewrite Hx, IH. Qed.

Lemma filter_forall {B} (P : B -> Prop) (p : B -> bool) l : Forall P l -> Forall P (List.filter p l).
Proof.
  rewrite !Forall_forall. intros H x. rewrite list_elem_of_In, filter_In, <-list_elem_of_In. naive_solver.
Qed.

(** A property of the numbers below a bound, by cases. *)
Lemma below_cases (P : Z -> Prop) n : Forall P (seqZ 0 n) -> forall d, 0 <= d < n -> P d.
Proof. intros H d Hd. rewrite Forall_forall in H. apply H, elem_of_seqZ. lia. Qed.

(** ** Tactics of the development *)

Ltac below := match goal with
  | H : 0 <= ?d < ?n |- ?G =>
      pattern d; apply (below_cases _ n); [vm_compute; repeat constructor; try done|exact H]
  end.

(** Case analysis on every [match]/[if] of the goal or of a hypothesis, then
    simplification of the equations it produces. *)
Ltac cases_in H :=
  repeat (simplify_eq/=; case_match; simplify_eq/=); simplify_eq/=.

Ltac zbool :=
  repeat match goal with
    | H : negb _ = false |- _ => apply negb_false_iff in H
    | H : negb _ = true |- _ => apply negb_true_iff in H
    | H : (_ <? _) = true |- _ => apply Z.ltb_lt in H
    | H : (_ <? _) = false |- _ => apply Z.ltb_ge in H
    | H : (_ <=? _) = true |- _ => apply Z.leb_le in H
    | H : (_ <=? _) = false |- _ => apply Z.leb_gt in H
    | H : (_ =? _) = true |- _ => apply Z.eqb_eq in H
    | H : (_ =? _) = false |- _ => apply Z.eqb_neq in H
    | H : (_ && _)%bool = true |- _ => apply andb_true_iff in H as [? ?]
    | H : (_ || _)%bool = false |- _ => apply orb_false_iff in H as [? ?]
    | H : (_ =? _)%nat = true |- _ => apply Nat.eqb_eq in H
    | H : (_ =? _)%nat = false |- _ => apply Nat.eqb_neq in H
    | H : (_ <? _)%nat = true |- _ => apply Nat.ltb_lt in H
    | H : (_ <? _)%nat = false |- _ => apply Nat.ltb_ge in H
    | H : (_ <=? _)%nat = true |- _ => apply Nat.leb_le in H
    | H : (_ <=? _)%nat = false |- _ => apply Nat.leb_gt in H
    end.

Ltac zlia := zbool; lia.
