(* ===== verification/Errors.v ===== *)
(** * Errors: the crate's error type and its retry classification

    Models [src/src/core/error.rs]: the error enums, [Error::kind] and the other
    classification methods, and [Error::aggregate].  The [Res] type is Rust's
    [Result<T, Error>] with a third case for a panic.

    Message texts keep the fixed part of the source's text; interpolated values are
    left out, since nothing in the program branches on them. *)

From S2P Require Import Prelude.

(** ** Data *)

Inductive SourceErrorKind :=
| NetworkTransient
| AuthFailed
| SchemaMismatch
| SlotNotFound
| QuotaExceeded
| Unknown.

Inductive ErrorKind :=
| Transient
| Terminal
| Configuration
| Backpressure_kind.

Inductive Error :=
| SourceError (msg : string)
| ClassifiedSourceError (kind : SourceErrorKind) (msg : string)
| Context (context : string) (source : Error)
| CheckpointError (msg : string)
| SchemaError (msg : string)
| ValidationError (msgs : list string)
| ConfigError (msg : string)
| IoError (msg : string)
| SerializationError (msg : string)
| TimeoutError (msg : string)
| Unrecoverable (msg : string)
| Backpressure (msg : string)
| Aggregate (kind : ErrorKind) (detail : string)
| StateError (msg : string)
| TransformError (msg : string)
| NotImplemented (msg : string)
| PostCommitConfirmFailed (checkpoint_safe : bool) (detail : string).

(** Rust's [Result<A, Error>]; [Panic] is an aborted computation. *)
Inductive Res (A : Type) :=
| Ok (a : A)
| Err (e : Error)
| Panic.
Arguments Ok {A} a.
Arguments Err {A} e.
Arguments Panic {A}.

Declare Scope res_scope.
Delimit Scope res_scope with res.

(** The [?] operator. *)
Definition res_bind {A B} (m : Res A) (k : A -> Res B) : Res B :=
  match m with Ok a => k a | Err e => Err e | Panic => Panic end.

Notation "x <-? m ; k" := (res_bind m (fun x => k))
  (at level 60, m at next level, right associativity) : res_scope.

Open Scope res_scope.

(** [iter.map(f).collect::<Result<Vec<_>>>()] *)
Fixpoint map_res {A B} (f : A -> Res B) (l : list A) : Res (list B) :=
  match l with
  | [] => Ok []
  | x :: l' => y <-? f x; ys <-? map_res f l'; Ok (y :: ys)
  end.

#[global] Instance SourceErrorKind_eq_dec : EqDecision SourceErrorKind.
Proof. solve_decision. Defined.
#[global] Instance ErrorKind_eq_dec : EqDecision ErrorKind.
Proof. solve_decision. Defined.
#[global] Instance Error_eq_dec : EqDecision Error.
Proof. unfold EqDecision, Decision. fix go 1. intros x y; decide equality; solve_decision. Defined.

Definition is_ok {A} (r : Res A) : bool := match r with Ok _ => true | _ => false end.

(** ** Classification *)

Module ErrorsModel.

(** [SourceErrorKind::is_recoverable] *)
Definition kind_is_recoverable (k : SourceErrorKind) : bool :=
  match k with
  | NetworkTransient | QuotaExceeded | Unknown => true
  | _ => false
  end.

(** [ErrorKind::severity] *)
Definition severity (k : ErrorKind) : nat :=
  match k with
  | Transient => 0
  | Backpressure_kind => 1
  | Configuration => 2
  | Terminal => 3
  end.

(** [Error::source_kind] *)
Fixpoint source_kind (e : Error) : option SourceErrorKind :=
  match e with
  | ClassifiedSourceError k _ => Some k
  | Context _ source => source_kind source
  | _ => None
  end.

(** [Error::root_cause] *)
Fixpoint root_cause (e : Error) : Error :=
  match e with
  | Context _ source => root_cause source
  | other => other
  end.

(** [Error::chain], collected. *)
Fixpoint chain (e : Error) : list Error :=
  match e with
  | Context _ source => e :: chain source
  | other => [other]
  end.

(** [Error::kind] *)
Fixpoint kind (e : Error) : ErrorKind :=
  match e with
  | Context _ source => kind source
  | SourceError _ | TimeoutError _ => Transient
  | ClassifiedSourceError k _ => if kind_is_recoverable k then Transient else Terminal
  | Backpressure _ => Backpressure_kind
  | Aggregate k _ => k
  | ConfigError _ | NotImplemented _ => Configuration
  | Unrecoverable _ | CheckpointError _ | SchemaError _ | StateError _
  | TransformError _ | SerializationError _ | IoError _ | ValidationError _
  | PostCommitConfirmFailed _ _ => Terminal
  end.

(** [Error::is_recoverable] *)
Definition is_recoverable (e : Error) : bool := bool_decide (kind e = Transient).

(** [Iterator::max_by_key]: the last of the elements whose key is maximal. *)
Fixpoint max_by_severity (ks : list ErrorKind) : option ErrorKind :=
  match ks with
  | [] => None
  | k :: ks' =>
      match max_by_severity ks' with
      | Some m => if (severity k <=? severity m)%nat then Some m else Some k
      | None => Some k
      end
  end.

(** [Error::aggregate]; [render] is the [Display] rendering of the failures. *)
Definition aggregate (render : list (string * Error) -> string)
    (failures : list (string * Error)) : Res unit :=
  match max_by_severity (map (fun f => kind (snd f)) failures) with
  | None => Ok tt
  | Some k => Err (Aggregate k (render failures))
  end.

(** ** Properties *)

Lemma severity_inj k1 k2 : severity k1 = severity k2 -> k1 = k2.
Proof. by destruct k1, k2. Qed.

Lemma max_by_severity_spec ks m :
  max_by_severity ks = Some m <->
  m ∈ ks /\ (forall k, k ∈ ks -> (severity k <= severity m)%nat).
Proof.
  revert m. induction ks as [|k ks IH]; intros m; simpl.
  { split; [done|]. intros [H _]. by apply elem_of_nil in H. }
  destruct (max_by_severity ks) as [m'|] eqn:E.
  - destruct (IH m') as [[Hin Hmax] _]; [done|].
    destruct (Nat.leb_spec (severity k) (severity m')) as [Hle|Hgt]; split.
    + intros [= <-]. split; [by right|].
      intros x [->|Hx]%elem_of_cons; auto.
    + intros [Hm Hb]. f_equal. apply severity_inj.
      assert (severity m' <= severity m)%nat by (apply Hb; by right).
      assert (severity m <= severity m')%nat; [|lia].
      apply elem_of_cons in Hm as [->|Hm]; auto.
    + intros [= <-]. split; [by left|].
      intros x [->|Hx]%elem_of_cons; [lia|]. specialize (Hmax x Hx). lia.
    + intros [[->|Hm]%elem_of_cons Hb]; [done|].
      specialize (Hmax m Hm). specialize (Hb k (list_elem_of_here _ _)). lia.
  - destruct ks as [|k' ks'].
    + split.
      * intros [= <-]. split; [by left|]. intros x Hx%list_elem_of_singleton. by subst.
      * intros [Hm%list_elem_of_singleton _]. by subst.
    + simpl in E. repeat case_match; done.
Qed.

End ErrorsModel.
