(* ===== verification/CheckpointApi.v ===== *)
(** * The checkpoint interface between the runtime and the stores

    Models the [Offset] trait object of [src/src/core/mod.rs], the [Checkpoint]
    trait of [src/src/checkpoint/mod.rs] as a type class, and the in-memory store.
    The commit barrier is verified against the class alone; [InMemory] and the file
    store of [FileCheckpoint.v] are its instances. *)

From S2P Require Import Prelude Errors.

(** ** Trait objects *)

(** A [Box<dyn Offset>] is what its two methods answer. *)
Record DynOffset := {
  source_type : string;
  encode : Res (list byte);
}.

(** The [Checkpoint] trait.  Every method may change the store: [load] and
    [get_committed_count] take the owner lease of the file store. *)
Class Checkpoint (C : Type) := {
  save : DynOffset -> Z -> C -> Res unit * C;
  load : C -> Res (option DynOffset) * C;
  get_committed_count : C -> Res Z * C;
}.

(** ** The in-memory store *)

Module InMemory.

Record StoredCheckpoint := {
  offset : DynOffset;
  committed_event_count : Z;
}.

(** [poisoned] is the state of the mutex around the entries. *)
Record InMemoryCheckpoint := {
  entries : list StoredCheckpoint;
  poisoned : bool;
}.

Definition mem_save (o : DynOffset) (n : Z) (c : InMemoryCheckpoint)
    : Res unit * InMemoryCheckpoint :=
  if poisoned c then (Err (CheckpointError "checkpoint lock poisoned during save"), c)
  else (Ok tt,
        {| entries := entries c ++ [{| offset := o; committed_event_count := n |}];
           poisoned := false |}).

Definition mem_load (c : InMemoryCheckpoint)
    : Res (option DynOffset) * InMemoryCheckpoint :=
  if poisoned c then (Err (CheckpointError "checkpoint lock poisoned during load"), c)
  else (Ok (offset <$> last (entries c)), c).

Definition mem_get_committed_count (c : InMemoryCheckpoint) : Res Z * InMemoryCheckpoint :=
  if poisoned c then
    (Err (CheckpointError "checkpoint lock poisoned during committed count lookup"), c)
  else (Ok (default 0 (committed_event_count <$> last (entries c))), c).

#[global] Instance InMemoryCheckpoint_Checkpoint : Checkpoint InMemoryCheckpoint := {
  save := mem_save;
  load := mem_load;
  get_committed_count := mem_get_committed_count;
}.

Definition mem_new : InMemoryCheckpoint := {| entries := []; poisoned := false |}.

End InMemory.

(** ** A journalling wrapper

    [Journal C] is a store that behaves as [C] and also remembers the saves that
    succeeded, in order.  It is how statements about "what became durable" are made
    for an arbitrary store. *)

Record Journal (C : Type) := {
  store : C;
  log : list (DynOffset * Z);
}.
Arguments store {C}.
Arguments log {C}.

Definition journal_save {C} `{Checkpoint C} (o : DynOffset) (n : Z) (j : Journal C)
    : Res unit * Journal C :=
  let '(r, s) := save o n (store j) in
  (r, {| store := s; log := if is_ok r then log j ++ [(o, n)] else log j |}).

#[global] Instance Journal_Checkpoint {C} `{Checkpoint C} : Checkpoint (Journal C) := {
  save := journal_save;
  load j := let '(r, s) := load (store j) in (r, {| store := s; log := log j |});
  get_committed_count j :=
    let '(r, s) := get_committed_count (store j) in (r, {| store := s; log := log j |});
}.
