(* ===== verification/Strs.v ===== *)
(** * Strs: the [str] methods the program uses

    Rust strings are modelled as [String.string], one [ascii] per byte.  Methods that
    depend on Unicode ([trim], [char::is_whitespace]) follow their definition on the
    ASCII characters; bytes above 127 are never whitespace and have no case. *)

From S2P Require Import Prelude.

Local Open Scope string_scope.
Local Open Scope Z_scope.

(** ** Characters *)

Definition code (a : ascii) : Z := Z.of_nat (nat_of_ascii a).

(** [char::is_whitespace] on ASCII. *)
Definition is_whitespace (a : ascii) : bool :=
  ((9 <=? code a) && (code a <=? 13)) || (code a =? 32).

(** [u8::to_ascii_lowercase] *)
Definition lower_ascii (a : ascii) : ascii :=
  if (65 <=? code a) && (code a <=? 90) then ascii_of_nat (nat_of_ascii a + 32) else a.

(** [u8::eq_ignore_ascii_case] *)
Definition ascii_eq_nocase (a b : ascii) : bool :=
  Ascii.eqb (lower_ascii a) (lower_ascii b).

(** ** Strings *)

(** [str::to_ascii_lowercase] *)
Fixpoint lower (s : string) : string :=
  match s with
  | "" => ""
  | String a s' => String (lower_ascii a) (lower s')
  end.

(** [str::eq_ignore_ascii_case] *)
Definition eq_nocase (s t : string) : bool := String.eqb (lower s) (lower t).

(** [s.contains(c)] for a character. *)
Fixpoint contains_char (c : ascii) (s : string) : bool :=
  match s with
  | "" => false
  | String a s' => Ascii.eqb a c || contains_char c s'
  end.

(** [s.split_once(c)]: around the first [c]. *)
Fixpoint split_once (c : ascii) (s : string) : option (string * string) :=
  match s with
  | "" => None
  | String a s' =>
      if Ascii.eqb a c then Some ("", s')
      else match split_once c s' with
           | Some (l, r) => Some (String a l, r)
           | None => None
           end
  end.

(** [s.rsplit_once(c)]: around the last [c]. *)
Fixpoint rsplit_once (c : ascii) (s : string) : option (string * string) :=
  match s with
  | "" => None
  | String a s' =>
      match rsplit_once c s' with
      | Some (l, r) => Some (String a l, r)
      | None => if Ascii.eqb a c then Some ("", s') else None
      end
  end.

(** [s.split(c)]: never empty, [""] splits to [""]. *)
Fixpoint split (c : ascii) (s : string) : list string :=
  match s with
  | "" => [""]
  | String a s' =>
      if Ascii.eqb a c then "" :: split c s'
      else match split c s' with
           | w :: ws => String a w :: ws
           | [] => [String a ""]
           end
  end.

(** [s.trim_start()], [s.trim_end()] and [s.trim()] *)
Fixpoint trim_start (s : string) : string :=
  match s with
  | "" => ""
  | String a s' => if is_whitespace a then trim_start s' else s
  end.

Fixpoint trim_end (s : string) : string :=
  match s with
  | "" => ""
  | String a s' =>
      match trim_end s' with
      | "" => if is_whitespace a then "" else String a ""
      | t => String a t
      end
  end.

Definition trim (s : string) : string := trim_end (trim_start s).

(** [s.chars().filter(|c| !c.is_whitespace()).collect()] *)
Fixpoint strip_whitespace (s : string) : string :=
  match s with
  | "" => ""
  | String a s' =>
      if is_whitespace a then strip_whitespace s' else String a (strip_whitespace s')
  end.

Definition is_empty (s : string) : bool := String.eqb s "".

(** [s.starts_with(p)], [s.ends_with(p)], [s.strip_suffix(p)] *)
Definition starts_with (p s : string) : bool := String.prefix p s.

(** [s.contains(p)] for a string [p]. *)
Fixpoint contains_str (p s : string) : bool :=
  starts_with p s || match s with "" => false | String _ s' => contains_str p s' end.

(** [s.strip_prefix(p)] *)
Fixpoint strip_prefix (p s : string) : option string :=
  match p, s with
  | "", _ => Some s
  | String a p', String b s' => if Ascii.eqb a b then strip_prefix p' s' else None
  | String _ _, "" => None
  end.

Fixpoint strip_suffix (p s : string) : option string :=
  if String.eqb s p then Some ""
  else match s with
       | "" => None
       | String a s' =>
           match strip_suffix p s' with
           | Some t => Some (String a t)
           | None => None
           end
       end.

Definition ends_with (p s : string) : bool :=
  match strip_suffix p s with Some _ => true | None => false end.

(** ** Decimal numbers *)

Definition digit_of (a : ascii) : option Z :=
  if (48 <=? code a) && (code a <=? 57) then Some (code a - 48) else None.

Fixpoint parse_digits (max acc : Z) (s : string) : option Z :=
  match s with
  | "" => Some acc
  | String a s' =>
      match digit_of a with
      | Some d => if acc * 10 + d <=? max then parse_digits max (acc * 10 + d) s' else None
      | None => None
      end
  end.

(** [s.parse::<u64>()] and [s.parse::<u32>()]: an optional [+], then at least one
    digit, and no overflow of the type. *)
Definition parse_uint (max : Z) (s : string) : option Z :=
  match s with
  | "" => None
  | String a s' =>
      if Ascii.eqb a "+" then (if is_empty s' then None else parse_digits max 0 s')
      else parse_digits max 0 s
  end.

Definition parse_u64 := parse_uint u64_max.
Definition parse_u32 := parse_uint u32_max.

(** The decimal rendering of a non-negative number; [fuel] bounds the digits. *)
Definition digit_char (d : Z) : ascii := ascii_of_nat (Z.to_nat (48 + d)).

Fixpoint show_fuel (fuel : nat) (n : Z) : string :=
  match fuel with
  | O => ""
  | S fuel' =>
      if n <? 10 then String (digit_char n) ""
      else show_fuel fuel' (n / 10) +:+ String (digit_char (n mod 10)) ""
  end.

Definition show (n : Z) : string := show_fuel (S (Z.to_nat (Z.log2 n))) n.

(** ** Hexadecimal *)

Definition hex_value (a : ascii) : option Z :=
  let c := code a in
  if (48 <=? c) && (c <=? 57) then Some (c - 48)
  else if (65 <=? c) && (c <=? 70) then Some (c - 55)
  else if (97 <=? c) && (c <=? 102) then Some (c - 87)
  else None.

Fixpoint parse_hex_digits (acc : Z) (s : string) : option Z :=
  match s with
  | "" => Some acc
  | String a s' =>
      d ← hex_value a;
      if acc * 16 + d <=? u64_max then parse_hex_digits (acc * 16 + d) s' else None
  end.

(** [u64::from_str_radix(s, 16)] *)
Definition parse_hex_u64 (s : string) : option Z :=
  match s with
  | "" => None
  | String a s' =>
      if Ascii.eqb a "+" then (if is_empty s' then None else parse_hex_digits 0 s')
      else parse_hex_digits 0 s
  end.

(** [{n:X}] and [{n:08X}] *)
Definition hex_upper (n : Z) : ascii := ascii_of_nat (Z.to_nat (if n <? 10 then 48 + n else 55 + n)).

Fixpoint show_hex_fuel (fuel : nat) (n : Z) : string :=
  match fuel with
  | O => ""
  | S f =>
      if n <? 16 then String (hex_upper n) ""
      else show_hex_fuel f (n / 16) +:+ String (hex_upper (n mod 16)) ""
  end.

Definition show_hex (n : Z) : string := show_hex_fuel (S (Z.to_nat (Z.log2 n))) n.

Fixpoint zeros (n : nat) : string := match n with O => "" | S n' => String "0" (zeros n') end.
Definition pad_left (width : nat) (s : string) : string := zeros (width - String.length s) +:+ s.

(** ** UTF-8 *)

Definition byte_code (b : byte) : Z := Z.of_N (Byte.to_N b).

(** [{byte:02x}] over a digest. *)
Definition hex_digit (n : Z) : ascii :=
  ascii_of_nat (Z.to_nat (if n <? 10 then 48 + n else 87 + n)).
Definition hex (b : list byte) : string :=
  fold_right (fun x s => String (hex_digit (byte_code x / 16))
                           (String (hex_digit (byte_code x mod 16)) s)) "" b.

(** [to_le_bytes] of an integer of [w] bytes. *)
Fixpoint le_bytes (w : nat) (n : Z) : list byte :=
  match w with
  | O => []
  | S w' => default Byte.x00 (Byte.of_N (Z.to_N (n mod 256))) :: le_bytes w' (n / 256)
  end.
Definition between (lo hi c : Z) : bool := (lo <=? c) && (c <=? hi).

(** The well-formed sequences of [core::str::from_utf8]. *)
Fixpoint utf8_valid (l : list byte) : bool :=
  match l with
  | [] => true
  | b :: l1 =>
      let c := byte_code b in
      if c <? 128 then utf8_valid l1
      else if between 194 223 c then
        match l1 with
        | b1 :: l2 => between 128 191 (byte_code b1) && utf8_valid l2
        | _ => false
        end
      else if between 224 239 c then
        match l1 with
        | b1 :: b2 :: l3 =>
            between (if c =? 224 then 160 else 128) (if c =? 237 then 159 else 191)
              (byte_code b1)
            && between 128 191 (byte_code b2) && utf8_valid l3
        | _ => false
        end
      else if between 240 244 c then
        match l1 with
        | b1 :: b2 :: b3 :: l4 =>
            between (if c =? 240 then 144 else 128) (if c =? 244 then 143 else 191)
              (byte_code b1)
            && between 128 191 (byte_code b2) && between 128 191 (byte_code b3)
            && utf8_valid l4
        | _ => false
        end
      else false
  end.

(** The next piece of [Utf8Chunks]: whether it is well-formed, and its length. *)
Definition utf8_piece (l : list byte) : bool * nat :=
  match l with
  | [] => (true, 0%nat)
  | b :: l1 =>
      let c := byte_code b in
      let cont lo hi (o : option byte) := from_option (fun x => between lo hi (byte_code x)) false o in
      if c <? 128 then (true, 1%nat)
      else if between 194 223 c then
        if cont 128 191 (l1 !! 0%nat) then (true, 2%nat) else (false, 1%nat)
      else if between 224 239 c then
        if cont (if c =? 224 then 160 else 128) (if c =? 237 then 159 else 191) (l1 !! 0%nat)
        then if cont 128 191 (l1 !! 1%nat) then (true, 3%nat) else (false, 2%nat)
        else (false, 1%nat)
      else if between 240 244 c then
        if cont (if c =? 240 then 144 else 128) (if c =? 244 then 143 else 191) (l1 !! 0%nat)
        then if cont 128 191 (l1 !! 1%nat)
             then if cont 128 191 (l1 !! 2%nat) then (true, 4%nat) else (false, 3%nat)
             else (false, 2%nat)
        else (false, 1%nat)
      else (false, 1%nat)
  end.

(** [String::from_utf8_lossy]: every ill-formed piece becomes U+FFFD. *)
Fixpoint utf8_lossy_fuel (fuel : nat) (l : list byte) : list byte :=
  match fuel, l with
  | O, _ | _, [] => []
  | S f, _ =>
      let '(ok, n) := utf8_piece l in
      ((if ok then take n l else [Byte.xef; Byte.xbf; Byte.xbd])
        ++ utf8_lossy_fuel f (drop n l))%list
  end.

Definition from_utf8_lossy (l : list byte) : string :=
  string_of_list_byte (utf8_lossy_fuel (length l) l).

(** ** Lemmas *)

#[global] Arguments String.append !_ _ /.

Lemma lower_ascii_idem a : lower_ascii (lower_ascii a) = lower_ascii a.
Proof. destruct a as [[] [] [] [] [] [] [] []]; reflexivity. Qed.

Lemma lower_idem s : lower (lower s) = lower s.
Proof. induction s as [|a s IH]; simpl; [done|]. by rewrite lower_ascii_idem, IH. Qed.

Lemma eq_nocase_spec s t : eq_nocase s t = true <-> lower s = lower t.
Proof. apply String.eqb_eq. Qed.

Lemma append_nil_r s : s +:+ "" = s.
Proof. induction s as [|a s IH]; simpl; [done|]. by rewrite IH. Qed.

Lemma append_assoc_r s t u : (s +:+ t) +:+ u = s +:+ (t +:+ u).
Proof. induction s as [|a s IH]; simpl; [done|]. by rewrite IH. Qed.

Lemma split_once_spec c s l r :
  split_once c s = Some (l, r) <-> s = l +:+ String c r /\ contains_char c l = false.
Proof.
  revert l r. induction s as [|a s IH]; intros l r; simpl.
  { split; [done|]. intros [H _]. by destruct l. }
  destruct (Ascii.eqb_spec a c) as [->|Hne].
  - split.
    + intros [= <- <-]. done.
    + intros [H Hc]. destruct l as [|b l]; simpl in *; [by simplify_eq|].
      simplify_eq. by rewrite Ascii.eqb_refl in Hc.
  - destruct (split_once c s) as [[l' r']|] eqn:E.
    + split.
      * intros [= <- <-]. destruct (IH l' r') as [[-> Hc] _]; [done|]. simpl.
        split; [done|]. rewrite Hc. by destruct (Ascii.eqb_spec a c).
      * intros [H Hc]. destruct l as [|b l]; simpl in *; [by simplify_eq|].
        simplify_eq. apply orb_false_iff in Hc as [_ Hc].
        pose proof (proj2 (IH l r) (conj eq_refl Hc)). by simplify_eq.
    + split; [done|]. intros [H Hc]. destruct l as [|b l]; simpl in *; [by simplify_eq|].
      simplify_eq. apply orb_false_iff in Hc as [_ Hc].
      by pose proof (proj2 (IH l r) (conj eq_refl Hc)).
Qed.

Lemma split_once_here c s t :
  contains_char c s = false -> split_once c (s +:+ String c t) = Some (s, t).
Proof.
  induction s as [|a s IH]; simpl; intros Hc.
  - by rewrite Ascii.eqb_refl.
  - destruct (Ascii.eqb a c); [done|]. simpl in Hc. by rewrite IH.
Qed.

Lemma contains_char_app c s t :
  contains_char c (s +:+ t) = contains_char c s || contains_char c t.
Proof. induction s as [|a s IH]; simpl; [done|]. by rewrite IH, orb_assoc. Qed.

Lemma contains_char_mid c l r : contains_char c (l +:+ String c r) = true.
Proof. rewrite contains_char_app. simpl. by rewrite Ascii.eqb_refl, orb_true_r. Qed.

Lemma rsplit_once_none c s : rsplit_once c s = None <-> contains_char c s = false.
Proof.
  induction s as [|a s IH]; simpl; [done|].
  destruct (rsplit_once c s) as [[l r]|]; simpl.
  - split; [done|]. intros [_ H]%orb_false_iff. by apply IH in H.
  - destruct IH as [IH _]. rewrite IH by done.
    by destruct (Ascii.eqb_spec a c); simpl.
Qed.

Lemma rsplit_once_spec c s l r :
  rsplit_once c s = Some (l, r) <-> s = l +:+ String c r /\ contains_char c r = false.
Proof.
  revert l r. induction s as [|a s IH]; intros l r; simpl.
  { split; [done|]. intros [H _]. by destruct l. }
  destruct (rsplit_once c s) as [[l' r']|] eqn:E.
  - destruct (IH l' r') as [[-> Hc] _]; [done|]. split.
    + intros [= <- <-]. done.
    + intros [H Hr]. destruct l as [|b l]; simpl in *; simplify_eq.
      * apply rsplit_once_none in Hr. by rewrite Hr in E.
      * match goal with Hs : _ = l +:+ _ |- _ =>
          pose proof (proj2 (IH l r) (conj Hs Hr)) end.
        by simplify_eq.
  - apply rsplit_once_none in E. destruct (Ascii.eqb_spec a c) as [->|Hne]; split.
    + intros [= <- <-]. done.
    + intros [H Hr]. destruct l as [|b l]; simpl in *; simplify_eq; [done|].
      by rewrite contains_char_mid in E.
    + done.
    + intros [H Hr]. destruct l as [|b l]; simpl in *; simplify_eq.
      by rewrite contains_char_mid in E.
Qed.

Lemma string_length_app s t :
  String.length (s +:+ t) = (String.length s + String.length t)%nat.
Proof. induction s as [|a s IH]; simpl; [done|]. by rewrite IH. Qed.

Lemma strip_suffix_app t p : strip_suffix p (t +:+ p) = Some t.
Proof.
  induction t as [|a t IH].
  - destruct p; cbn [String.append strip_suffix]; by rewrite String.eqb_refl.
  - cbn [String.append strip_suffix].
    destruct (String.eqb_spec (String a (t +:+ p)) p) as [H|_]; [|by rewrite IH].
    apply (f_equal String.length) in H. simpl in H. rewrite string_length_app in H. lia.
Qed.

Lemma ends_with_app t p : ends_with p (t +:+ p) = true.
Proof. unfold ends_with. by rewrite strip_suffix_app. Qed.

Lemma starts_with_app p t : starts_with p (p +:+ t) = true.
Proof.
  unfold starts_with. induction p as [|a p IH]; simpl; [by destruct t|].
  destruct (ascii_dec a a); [done|congruence].
Qed.

Lemma append_inj_l p s t : p +:+ s = p +:+ t -> s = t.
Proof. induction p as [|a p IH]; simpl; [done|]. intros [= H]. auto. Qed.

Lemma append_inj_r p s t : s +:+ p = t +:+ p -> s = t.
Proof.
  revert t. induction s as [|a s IH]; intros [|b t] H; simpl in *; try done.
  - apply (f_equal String.length) in H. simpl in H. rewrite string_length_app in H. lia.
  - apply (f_equal String.length) in H. simpl in H. rewrite string_length_app in H. lia.
  - simplify_eq. f_equal. auto.
Qed.

(** *** Decimal round trip *)

Lemma digit_of_char d : 0 <= d < 10 -> digit_of (digit_char d) = Some d.
Proof.
  intros Hd. below.
Qed.

Lemma parse_digits_app max acc s t :
  parse_digits max acc (s +:+ t) =
    match parse_digits max acc s with Some acc' => parse_digits max acc' t | None => None end.
Proof.
  revert acc. induction s as [|a s IH]; intros acc; simpl; [done|].
  destruct (digit_of a); [|done]. destruct (_ <=? max); [|done]. apply IH.
Qed.

Lemma parse_show_fuel max fuel n :
  0 <= n <= max -> n < 2 ^ Z.of_nat fuel -> parse_digits max 0 (show_fuel fuel n) = Some n.
Proof.
  revert n. induction fuel as [|fuel IH]; intros n Hn Hf.
  { simpl in *. f_equal. lia. }
  cbn [show_fuel]. destruct (Z.ltb_spec n 10) as [Hlt|Hge].
  - cbn [parse_digits]. rewrite digit_of_char by lia. rewrite Z.mul_0_l, Z.add_0_l.
    destruct (Z.leb_spec n max); [done|lia].
  - rewrite parse_digits_app, IH.
    + cbn [parse_digits]. rewrite digit_of_char by (apply Z.mod_pos_bound; lia).
      rewrite Z.mul_comm, <- Z.div_mod by lia. destruct (Z.leb_spec n max); [done|lia].
    + split; [apply Z.div_pos; lia|]. etrans; [apply Z.div_le_upper_bound with (q := n); lia|lia].
    + rewrite Nat2Z.inj_succ, Z.pow_succ_r in Hf by lia.
      apply Z.div_lt_upper_bound; lia.
Qed.

Lemma show_fuel_head fuel n : (0 < fuel)%nat -> 0 <= n ->
  exists a s, show_fuel fuel n = String a s /\ a <> "+"%char /\ is_whitespace a = false.
Proof.
  intros Hf Hn. assert (Hd : forall d, 0 <= d < 10 ->
    digit_char d <> "+"%char /\ is_whitespace (digit_char d) = false).
  { intros d Hd. below. }
  revert n Hn. induction fuel as [|fuel IH]; intros n Hn; [lia|].
  cbn [show_fuel]. destruct (Z.ltb_spec n 10) as [Hlt|Hge].
  { eexists _, _. split; [done|]. apply Hd. lia. }
  destruct fuel as [|fuel].
  { eexists _, _. split; [done|]. apply Hd. apply Z.mod_pos_bound. lia. }
  destruct (IH ltac:(lia) (n / 10)) as (a & s & -> & Ha); [apply Z.div_pos; lia|].
  eexists a, _. split; [done|]. done.
Qed.

(** Rendering a number and parsing it back is the identity, at any width. *)
Lemma parse_show max n : 0 <= n <= max -> parse_uint max (show n) = Some n.
Proof.
  intros Hn. unfold show. set (fuel := S (Z.to_nat (Z.log2 n))).
  assert (Hf : n < 2 ^ Z.of_nat fuel).
  { unfold fuel. rewrite Nat2Z.inj_succ, Z2Nat.id by apply Z.log2_nonneg.
    destruct (decide (n = 0)) as [->|]; [done|]. apply Z.log2_spec. lia. }
  pose proof (parse_show_fuel max fuel n Hn Hf) as Hp.
  destruct (show_fuel_head fuel n) as (a & s & E & Ha & _); [lia|lia|].
  rewrite E in *. unfold parse_uint. by destruct (Ascii.eqb_spec a "+").
Qed.

Lemma digit_no_char c a d : digit_of a = Some d -> digit_of c = None -> Ascii.eqb a c = false.
Proof. intros Ha Hc. destruct (Ascii.eqb_spec a c) as [->|]; congruence. Qed.

Lemma parse_digits_no_char c max acc s n :
  digit_of c = None -> parse_digits max acc s = Some n -> contains_char c s = false.
Proof.
  intros Hc. revert acc. induction s as [|a s IH]; intros acc; simpl; [done|].
  destruct (digit_of a) eqn:E; [|done]. destruct (_ <=? max); [|done].
  intros H. by rewrite (digit_no_char c a _ E Hc), (IH _ H).
Qed.

(** ** Trimming *)

Fixpoint no_whitespace (s : string) : bool :=
  match s with
  | "" => true
  | String a s' => negb (is_whitespace a) && no_whitespace s'
  end.

Lemma trim_end_no_whitespace s : no_whitespace s = true -> trim_end s = s.
Proof.
  induction s as [|a s IH]; simpl; [done|]. intros [Ha Hs]%andb_true_iff.
  rewrite (IH Hs). apply negb_true_iff in Ha. rewrite Ha. by destruct s.
Qed.

Lemma trim_end_app s t : t <> "" -> trim_end t = t -> trim_end (s +:+ t) = s +:+ t.
Proof.
  intros Hne Ht. induction s as [|a s IH]; simpl; [done|]. rewrite IH.
  destruct s; simpl; [|done]. by destruct t.
Qed.

Lemma digit_char_no_whitespace d : 0 <= d < 10 -> is_whitespace (digit_char d) = false.
Proof.
  intros H. below.
Qed.

Lemma no_whitespace_app s t : no_whitespace (s +:+ t) = no_whitespace s && no_whitespace t.
Proof. induction s as [|a s IH]; simpl; [done|]. by rewrite IH, andb_assoc. Qed.

Lemma show_fuel_no_whitespace fuel n : 0 <= n -> no_whitespace (show_fuel fuel n) = true.
Proof.
  revert n. induction fuel as [|fuel IH]; intros n Hn; simpl; [done|].
  destruct (Z.ltb_spec n 10); simpl.
  - by rewrite digit_char_no_whitespace by lia.
  - rewrite no_whitespace_app, IH by (apply Z.div_pos; lia). simpl.
    by rewrite digit_char_no_whitespace by (apply Z.mod_pos_bound; lia).
Qed.

Lemma show_not_empty n : show n <> "".
Proof.
  unfold show. simpl. destruct (n <? 10); [done|].
  destruct (show_fuel _ _); done.
Qed.

Lemma trim_start_idem s : trim_start (trim_start s) = trim_start s.
Proof. induction s as [|a s IH]; simpl; [done|]. destruct (is_whitespace a) eqn:E; [done|]. simpl. by rewrite E. Qed.

Lemma trim_start_length t : (String.length (trim_start t) <= String.length t)%nat.
Proof. induction t as [|b t IH]; simpl; [lia|]. destruct (is_whitespace b); simpl; lia. Qed.

Lemma trim_start_fixed a s : trim_start (String a s) = String a s -> is_whitespace a = false.
Proof.
  simpl. destruct (is_whitespace a); [|done]. intros H.
  pose proof (trim_start_length s) as Hl. rewrite H in Hl. simpl in Hl. lia.
Qed.

Lemma trim_end_head s : trim_start s = s -> trim_start (trim_end s) = trim_end s.
Proof.
  destruct s as [|a s]; [done|]. intros E%trim_start_fixed. simpl.
  destruct (trim_end s) as [|b t]; repeat (simpl; rewrite ?E); done.
Qed.

Lemma trim_trimmed s : trim_start (trim s) = trim s.
Proof. apply trim_end_head, trim_start_idem. Qed.

Lemma trim_start_app s t : s <> "" -> trim_start s = s -> trim_start (s +:+ t) = s +:+ t.
Proof. destruct s as [|a s]; [done|]. intros _ H%trim_start_fixed. simpl. by rewrite H. Qed.

Lemma show_no_char c n : digit_of c = None -> 0 <= n -> contains_char c (show n) = false.
Proof.
  intros Hc. unfold show. generalize (S (Z.to_nat (Z.log2 n))) as fuel. intros fuel.
  revert n. induction fuel as [|fuel IH]; intros n Hn; simpl; [done|].
  assert (Hd : forall d, 0 <= d < 10 -> Ascii.eqb (digit_char d) c = false)
    by (intros d Hd; apply (digit_no_char c _ d); [by apply digit_of_char|done]).
  destruct (Z.ltb_spec n 10); simpl; [by rewrite Hd by lia|].
  rewrite contains_char_app, IH by (apply Z.div_pos; lia). simpl.
  by rewrite Hd by (apply Z.mod_pos_bound; lia).
Qed.

(** ** UTF-8 sequences can be concatenated *)

Lemma utf8_valid_app_len n l l' :
  (length l <= n)%nat -> utf8_valid l = true -> utf8_valid (l ++ l') = utf8_valid l'.
Proof.
  revert l. induction n as [|n IH]; intros [|b l] Hn; try done; simpl in Hn; [lia|].
  cbn [utf8_valid app]. destruct (byte_code b <? 128); [apply IH; lia|].
  destruct (between 194 223 (byte_code b)).
  { destruct l as [|b1 l]; [done|]. simpl in *. intros [-> H]%andb_true_iff. apply IH; [lia|done]. }
  destruct (between 224 239 (byte_code b)).
  { destruct l as [|b1 [|b2 l]]; try done. cbn [app length] in *.
    intros [[-> ->]%andb_true_iff H]%andb_true_iff. apply IH; [lia|done]. }
  destruct (between 240 244 (byte_code b)); [|done].
  destruct l as [|b1 [|b2 [|b3 l]]]; try done. cbn [app length] in *.
  intros [[[-> ->]%andb_true_iff ->]%andb_true_iff H]%andb_true_iff. apply IH; [lia|done].
Qed.

Lemma utf8_valid_app l l' : utf8_valid l = true -> utf8_valid (l ++ l') = utf8_valid l'.
Proof. by apply (utf8_valid_app_len (length l)). Qed.

Lemma list_byte_app s t :
  list_byte_of_string (s +:+ t) = (list_byte_of_string s ++ list_byte_of_string t)%list.
Proof.
  unfold list_byte_of_string.
  assert (H : list_ascii_of_string (s +:+ t) = (list_ascii_of_string s ++ list_ascii_of_string t)%list)
    by (induction s; simpl; congruence).
  by rewrite H, map_app.
Qed.

Lemma digit_char_utf8 d : 0 <= d < 10 ->
  utf8_valid (list_byte_of_string (String (digit_char d) "")) = true.
Proof.
  intros H. below.
Qed.

Lemma show_utf8 n : 0 <= n -> utf8_valid (list_byte_of_string (show n)) = true.
Proof.
  unfold show. generalize (S (Z.to_nat (Z.log2 n))) as fuel. intros fuel.
  revert n. induction fuel as [|fuel IH]; intros n Hn; cbn [show_fuel]; [done|].
  destruct (Z.ltb_spec n 10); [by apply digit_char_utf8|].
  rewrite list_byte_app, utf8_valid_app by (apply IH, Z.div_pos; lia).
  apply digit_char_utf8, Z.mod_pos_bound. lia.
Qed.

(** ** Suffixes *)

Lemma strip_suffix_spec p s t : strip_suffix p s = Some t <-> s = t +:+ p.
Proof.
  split; [|intros ->; apply strip_suffix_app].
  revert t. induction s as [|a s IH]; intros t; cbn [strip_suffix].
  - destruct (String.eqb_spec "" p) as [<-|]; [|done]. by intros [= <-].
  - destruct (String.eqb_spec (String a s) p) as [<-|]; [by intros [= <-]|].
    destruct (strip_suffix p s) as [u|]; [|done]. intros [= <-]. simpl. by rewrite (IH u).
Qed.

Lemma ends_with_spec p s : ends_with p s = true <-> exists t, s = t +:+ p.
Proof.
  unfold ends_with. destruct (strip_suffix p s) as [t|] eqn:E.
  - apply strip_suffix_spec in E. split; [eauto|done].
  - split; [done|]. intros [t ->]. by rewrite strip_suffix_app in E.
Qed.

Fixpoint last_char (s : string) : option ascii :=
  match s with
  | "" => None
  | String a "" => Some a
  | String _ s' => last_char s'
  end.

Lemma last_char_app s t : t <> "" -> last_char (s +:+ t) = last_char t.
Proof.
  intros Ht. induction s as [|a s IH]; [done|]. simpl. rewrite IH.
  destruct (s +:+ t) eqn:E; [|done]. by destruct s, t.
Qed.

(** Two suffixes of one string end in the same character. *)
Lemma ends_with_last p s :
  p <> "" -> last_char s <> last_char p -> ends_with p s = false.
Proof.
  intros Hp Hl. apply not_true_is_false. intros [t ->]%ends_with_spec.
  by rewrite last_char_app in Hl.
Qed.

Lemma ends_with_last_inv p s : p <> "" -> ends_with p s = true -> last_char s = last_char p.
Proof. intros Hp [t ->]%ends_with_spec. by apply last_char_app. Qed.

Lemma parse_digits_range max acc s n :
  0 <= acc <= max -> parse_digits max acc s = Some n -> 0 <= n <= max.
Proof.
  revert acc. induction s as [|a s IH]; intros acc Ha; simpl; [by intros [= <-]|].
  destruct (digit_of a) as [d|] eqn:E; [|done].
  destruct (Z.leb_spec (acc * 10 + d) max); [|done]. apply IH.
  unfold digit_of in E. destruct (_ && _) eqn:Ed; [|done]. injection E as <-. zlia.
Qed.

Lemma parse_uint_range max s n : 0 <= max -> parse_uint max s = Some n -> 0 <= n <= max.
Proof.
  intros Hm. unfold parse_uint. destruct s as [|a s]; [done|].
  destruct (Ascii.eqb a "+"); [destruct (is_empty s); [done|]|]; apply parse_digits_range; lia.
Qed.

(** ** Bytes *)

Lemma hex_digit_inj a b : 0 <= a < 16 -> 0 <= b < 16 -> hex_digit a = hex_digit b -> a = b.
Proof.
  intros Ha Hb E. unfold hex_digit in E.
  apply (f_equal nat_of_ascii) in E.
  rewrite !nat_ascii_embedding in E by (repeat case_match; zlia).
  repeat case_match; zlia.
Qed.

Lemma byte_code_range b : 0 <= byte_code b < 256.
Proof. unfold byte_code. pose proof (Byte.to_N_bounded b). lia. Qed.

Lemma byte_code_inj a b : byte_code a = byte_code b -> a = b.
Proof.
  unfold byte_code. intros E%N2Z.inj. apply (f_equal Byte.of_N) in E.
  rewrite !Byte.of_to_N in E. by injection E.
Qed.

Lemma hex_inj x y : hex x = hex y -> x = y.
Proof.
  revert y. induction x as [|a x IH]; intros [|b y]; simpl; try done.
  intros [= E1 E2 E3]. f_equal; [|by apply IH]. apply byte_code_inj.
  pose proof (byte_code_range a). pose proof (byte_code_range b).
  apply hex_digit_inj in E1; [|split; [apply Z.div_pos|apply Z.div_lt_upper_bound]; lia..].
  apply hex_digit_inj in E2; [|apply Z.mod_pos_bound; lia..].
  rewrite (Z.div_mod (byte_code a) 16), (Z.div_mod (byte_code b) 16) by lia. congruence.
Qed.

Lemma length_le_bytes w n : length (le_bytes w n) = w.
Proof. revert n. induction w; intros n; simpl; auto. Qed.

Lemma le_bytes_inj w m n :
  0 <= m < 256 ^ Z.of_nat w -> 0 <= n < 256 ^ Z.of_nat w -> le_bytes w m = le_bytes w n -> m = n.
Proof.
  assert (Hlow : forall x, byte_code (default Byte.x00 (Byte.of_N (Z.to_N (x mod 256)))) = x mod 256).
  { intros x. pose proof (Z.mod_pos_bound x 256 ltac:(lia)).
    destruct (Byte.of_N (Z.to_N (x mod 256))) as [b|] eqn:E; simpl.
    - apply Byte.to_of_N in E. unfold byte_code. rewrite E. lia.
    - apply Byte.of_N_None_iff in E. lia. }
  revert m n. induction w as [|w IH]; intros m n Hm Hn; [simpl in *; lia|].
  rewrite Nat2Z.inj_succ, Z.pow_succ_r in Hm, Hn by lia.
  intros [= E1 E2]. apply (f_equal byte_code) in E1. rewrite !Hlow in E1.
  apply IH in E2; [|split; [apply Z.div_pos|apply Z.div_lt_upper_bound]; lia..].
  rewrite (Z.div_mod m 256), (Z.div_mod n 256) by lia. congruence.
Qed.

(** *** Hexadecimal *)

Lemma hex_value_upper n : 0 <= n < 16 -> hex_value (hex_upper n) = Some n.
Proof.
  intros H. below.
Qed.

Lemma parse_hex_digits_app acc s t :
  parse_hex_digits acc (s +:+ t) = parse_hex_digits acc s ≫= fun a => parse_hex_digits a t.
Proof.
  revert acc. induction s as [|a s IH]; intros acc; simpl; [done|].
  destruct (hex_value a) as [d|]; simpl; [|done]. case_match; [apply IH|done].
Qed.

Lemma parse_show_hex_fuel fuel n :
  0 <= n <= u64_max -> n < 2 ^ Z.of_nat fuel -> parse_hex_digits 0 (show_hex_fuel fuel n) = Some n.
Proof.
  revert n. induction fuel as [|f IH]; intros n Hr Hf; [simpl in *; assert (n = 0) by lia; by subst|].
  simpl. destruct (Z.ltb_spec n 16).
  - simpl. rewrite hex_value_upper by lia. simpl. by rewrite (proj2 (Z.leb_le _ _)) by lia.
  - pose proof (Z.div_mod n 16 ltac:(lia)). pose proof (Z.mod_pos_bound n 16 ltac:(lia)).
    rewrite parse_hex_digits_app, IH.
    + simpl. rewrite hex_value_upper by lia. simpl.
      replace (n / 16 * 16 + n mod 16) with n by lia. by rewrite (proj2 (Z.leb_le _ _)) by lia.
    + split; [apply Z.div_pos; lia|]. apply Z.le_trans with n; [|lia]. apply Z.div_le_upper_bound; lia.
    + apply Z.div_lt_upper_bound; [lia|]. rewrite Nat2Z.inj_succ, Z.pow_succ_r in Hf by lia. lia.
Qed.

Lemma hex_upper_plain n : 0 <= n < 16 ->
  Ascii.eqb (hex_upper n) "+" = false /\ Ascii.eqb (hex_upper n) "/" = false.
Proof.
  intros H. below.
Qed.

(** The text starts with a digit, and holds no separator. *)
Lemma show_hex_head fuel n : (0 < fuel)%nat -> 0 <= n ->
  exists d s, show_hex_fuel fuel n = String (hex_upper d) s /\ 0 <= d < 16.
Proof.
  revert n. induction fuel as [|f IH]; intros n Hf Hn; [lia|]. simpl.
  destruct (Z.ltb_spec n 16); [by exists n, ""|].
  destruct f as [|f].
  - exists (n mod 16), "". split; [done|]. apply Z.mod_pos_bound. lia.
  - destruct (IH (n / 16)) as (d & s & -> & Hd); [lia|apply Z.div_pos; lia|].
    by exists d, (s +:+ String (hex_upper (n mod 16)) "").
Qed.

Lemma show_hex_no_slash fuel n : 0 <= n -> contains_char "/" (show_hex_fuel fuel n) = false.
Proof.
  revert n. induction fuel as [|f IH]; intros n Hn; simpl; [done|].
  destruct (Z.ltb_spec n 16); simpl.
  - by rewrite (proj2 (hex_upper_plain n ltac:(lia))).
  - rewrite contains_char_app, IH by (apply Z.div_pos; lia). simpl.
    by rewrite (proj2 (hex_upper_plain (n mod 16) (Z.mod_pos_bound n 16 ltac:(lia)))).
Qed.

Lemma log2_fuel n : 0 <= n -> n < 2 ^ Z.of_nat (S (Z.to_nat (Z.log2 n))).
Proof.
  intros Hn. rewrite Nat2Z.inj_succ, Z2Nat.id by apply Z.log2_nonneg.
  destruct (Z.eq_dec n 0) as [->|]; [by vm_compute|]. apply Z.log2_spec. lia.
Qed.

Lemma parse_hex_zeros k s : parse_hex_digits 0 (zeros k +:+ s) = parse_hex_digits 0 s.
Proof. induction k as [|k IH]; [done|]. simpl. apply IH. Qed.

Lemma parse_show_hex k n : 0 <= n <= u64_max ->
  parse_hex_u64 (pad_left k (show_hex n)) = Some n.
Proof.
  intros Hn. unfold pad_left. set (m := (k - String.length (show_hex n))%nat). clearbody m.
  unfold show_hex. destruct (show_hex_head (S (Z.to_nat (Z.log2 n))) n) as (d & s & Hs & Hd); [lia..|].
  assert (Hp : parse_hex_digits 0 (zeros m +:+ show_hex_fuel (S (Z.to_nat (Z.log2 n))) n) = Some n).
  { rewrite parse_hex_zeros. apply parse_show_hex_fuel; [done|]. apply log2_fuel. lia. }
  rewrite Hs in *. unfold parse_hex_u64. destruct m as [|m]; cbn [zeros String.append] in *.
  - rewrite (proj1 (hex_upper_plain d Hd)). exact Hp.
  - exact Hp.
Qed.

Lemma parse_show_hex_plain n : 0 <= n <= u64_max -> parse_hex_u64 (show_hex n) = Some n.
Proof. apply (parse_show_hex 0). Qed.

Lemma strip_prefix_app p s : strip_prefix p (p +:+ s) = Some s.
Proof. induction p as [|a p IH]; simpl; [by destruct s|]. by rewrite Ascii.eqb_refl. Qed.

Lemma split_here c s t :
  contains_char c s = false -> split c (s +:+ String c t) = s :: split c t.
Proof.
  induction s as [|a s IH]; simpl; intros Hc; [by rewrite Ascii.eqb_refl|].
  destruct (Ascii.eqb a c); [done|]. simpl in Hc. by rewrite IH.
Qed.

Lemma split_whole c s : contains_char c s = false -> split c s = [s].
Proof.
  induction s as [|a s IH]; simpl; intros Hc; [done|].
  destruct (Ascii.eqb a c); [done|]. simpl in Hc. by rewrite IH.
Qed.
