(* ===== verification/Bytes.v ===== *)
(** * Bytes: big-endian integers and byte slices

    The pieces of [std] the PostgreSQL wire code is written with: [uN::from_be_bytes],
    [iN::from_be_bytes], [to_be_bytes], checked slicing and indexing, and the casts
    between [i64] and [u64].  [usize] is 64 bits wide. *)

From S2P Require Import Prelude Errors Strs.

Local Open Scope Z_scope.

Abbreviation bytes := (list byte).

#[global] Instance byte_eq_dec : EqDecision byte := Byte.byte_eq_dec.

(** ** Operations *)

(** [(n mod 256) as u8] *)
Definition byte_of (n : Z) : byte := default Byte.x00 (Byte.of_N (Z.to_N (n mod 256))).

(** [n.to_be_bytes()] of a [w]-byte integer; a negative [n] is its two's complement. *)
Definition be_bytes (w : nat) (n : Z) : bytes := rev (le_bytes w n).

#[global] Arguments be_bytes : simpl never.

(** [uN::from_be_bytes] *)
Definition from_be (l : bytes) : Z := fold_left (fun acc b => acc * 256 + byte_code b) l 0.

Definition modulus (w : nat) : Z := 2 ^ (8 * Z.of_nat w).

(** [u as iN] and [i as uN], on [w] bytes. *)
Definition to_signed (w : nat) (n : Z) : Z := if 2 * n <? modulus w then n else n - modulus w.
Definition to_unsigned (w : nat) (n : Z) : Z := n mod modulus w.

(** [iN::from_be_bytes] *)
Definition from_be_signed (l : bytes) : Z := to_signed (length l) (from_be l).

Definition unsigned_range (w : nat) (n : Z) : Prop := 0 <= n < modulus w.
Definition signed_range (w : nat) (n : Z) : Prop := - modulus w <= 2 * n < modulus w.

(** [&data[from..to]]; an inverted or overlong range panics. *)
Definition slice (data : bytes) (from to : nat) : Res bytes :=
  if (Nat.leb from to && Nat.leb to (length data))%bool
  then Ok (take (to - from) (drop from data)) else Panic.

(** [[b[0], .., b[w - 1]]]: indexing panics out of bounds. *)
Definition array (w : nat) (b : bytes) : Res bytes :=
  if Nat.leb w (length b) then Ok (take w b) else Panic.

(** [a ^ b] on bytes. *)
Definition byte_xor (a b : byte) : byte := byte_of (Z.lxor (byte_code a) (byte_code b)).
Definition byte_lor (a b : byte) : byte := byte_of (Z.lor (byte_code a) (byte_code b)).

(** ** Lemmas *)

Lemma byte_eqb_spec a b : Byte.eqb a b = true <-> a = b.
Proof. destruct (Byte.eqb a b) eqn:H; [by apply Byte.byte_dec_bl in H|].
  split; [done|]. intros ->. by rewrite Byte.byte_dec_lb in H. Qed.

Lemma byte_of_code b : byte_of (byte_code b) = b.
Proof. by destruct b. Qed.

Lemma byte_of_code_mod n : byte_code (byte_of n) = n mod 256.
Proof.
  unfold byte_of, byte_code. pose proof (Z.mod_pos_bound n 256 eq_refl) as Hr.
  set (m := n mod 256) in *. clearbody m.
  destruct (Byte.of_N (Z.to_N m)) as [b|] eqn:Hb; simpl.
  - apply Byte.to_of_N in Hb. lia.
  - apply Byte.of_N_None_iff in Hb. lia.
Qed.

Lemma modulus_S w : modulus (S w) = 256 * modulus w.
Proof. unfold modulus. rewrite <- (Z.pow_add_r 2 8) by lia. f_equal. lia. Qed.

Lemma modulus_pos w : 0 < modulus w.
Proof. unfold modulus. apply Z.pow_pos_nonneg; lia. Qed.

Lemma be_bytes_S w n : be_bytes (S w) n = be_bytes w (n / 256) ++ [byte_of n].
Proof. done. Qed.

Lemma length_be_bytes w n : length (be_bytes w n) = w.
Proof. unfold be_bytes. by rewrite length_rev, length_le_bytes. Qed.

Lemma from_be_snoc l b : from_be (l ++ [b]) = from_be l * 256 + byte_code b.
Proof. unfold from_be. by rewrite fold_left_app. Qed.

Lemma from_be_range l : 0 <= from_be l < modulus (length l).
Proof.
  induction l as [|b l IH] using rev_ind; [by vm_compute|].
  rewrite from_be_snoc, length_app, Nat.add_1_r, modulus_S.
  pose proof (byte_code_range b). lia.
Qed.

Lemma from_be_bytes w n : from_be (be_bytes w n) = n mod modulus w.
Proof.
  revert n. induction w as [|w IH]; intros n.
  { unfold from_be, be_bytes, modulus. simpl. by rewrite Z.mod_1_r. }
  rewrite be_bytes_S, from_be_snoc, IH, byte_of_code_mod, modulus_S.
  pose proof (modulus_pos w). rewrite (Z.rem_mul_r n 256 (modulus w)) by lia. lia.
Qed.

Lemma be_bytes_mod w n : be_bytes w (n mod modulus w) = be_bytes w n.
Proof.
  revert n. induction w as [|w IH]; intros n; [done|].
  rewrite !be_bytes_S, modulus_S. pose proof (modulus_pos w).
  rewrite (Z.rem_mul_r n 256 (modulus w)) by lia.
  assert (Hq : (n mod 256 + 256 * ((n / 256) mod modulus w)) / 256 = (n / 256) mod modulus w).
  { rewrite Z.mul_comm, Z.div_add by lia.
    rewrite (Z.div_small (n mod 256)) by (apply Z.mod_pos_bound; lia). lia. }
  rewrite Hq, IH. f_equal. unfold byte_of.
  rewrite (Z.mul_comm 256), Z_mod_plus_full, Z.mod_mod by lia. done.
Qed.

Lemma be_from_be l : be_bytes (length l) (from_be l) = l.
Proof.
  induction l as [|b l IH] using rev_ind; [done|].
  rewrite length_app, Nat.add_1_r, be_bytes_S, from_be_snoc.
  pose proof (byte_code_range b).
  rewrite Z.add_comm, Z.div_add, (Z.div_small (byte_code b)), Z.add_0_l, IH by lia.
  f_equal. unfold byte_of. rewrite Z_mod_plus_full.
  fold (byte_of (byte_code b)). by rewrite byte_of_code.
Qed.

Lemma from_be_unsigned w n : unsigned_range w n -> from_be (be_bytes w n) = n.
Proof. intros H. by rewrite from_be_bytes, Z.mod_small. Qed.

Lemma to_signed_mod w n : signed_range w n -> to_signed w (n mod modulus w) = n.
Proof.
  unfold signed_range, to_signed. intros H. pose proof (modulus_pos w).
  destruct (Z.ltb_spec n 0).
  - rewrite <- (Z_mod_plus_full n 1), Z.mod_small by lia.
    destruct (Z.ltb_spec (2 * (n + 1 * modulus w)) (modulus w)); lia.
  - rewrite Z.mod_small by lia. destruct (Z.ltb_spec (2 * n) (modulus w)); lia.
Qed.

Lemma from_be_signed_bytes w n : signed_range w n -> from_be_signed (be_bytes w n) = n.
Proof.
  intros H. unfold from_be_signed. rewrite length_be_bytes, from_be_bytes.
  by apply to_signed_mod.
Qed.

Lemma to_signed_range w n : unsigned_range w n -> signed_range w (to_signed w n).
Proof.
  unfold unsigned_range, signed_range, to_signed. intros H.
  destruct (Z.ltb_spec (2 * n) (modulus w)); lia.
Qed.

Lemma to_signed_unsigned w n : unsigned_range w n -> to_unsigned w (to_signed w n) = n.
Proof.
  unfold unsigned_range, to_unsigned, to_signed. intros H.
  destruct (Z.ltb_spec (2 * n) (modulus w)); [by rewrite Z.mod_small|].
  rewrite <- (Z_mod_plus_full _ 1), Z.mod_small; lia.
Qed.

Lemma be_from_be_signed l : be_bytes (length l) (from_be_signed l) = l.
Proof.
  unfold from_be_signed. rewrite <- (be_bytes_mod _ (to_signed _ _)).
  pose proof (from_be_range l) as Hr.
  change (to_signed (length l) (from_be l) mod modulus (length l))
    with (to_unsigned (length l) (to_signed (length l) (from_be l))).
  rewrite (to_signed_unsigned _ _ Hr). apply be_from_be.
Qed.

Lemma from_be_signed_range w l : length l = w -> signed_range w (from_be_signed l).
Proof. intros <-. apply to_signed_range, from_be_range. Qed.

Lemma from_be_unsigned_range w l : length l = w -> unsigned_range w (from_be l).
Proof. intros <-. apply from_be_range. Qed.

Lemma log2_byte b : Z.log2 (byte_code b) < 8.
Proof.
  pose proof (byte_code_range b). destruct (Z.eq_dec (byte_code b) 0) as [->|]; [by vm_compute|].
  apply (Z.log2_lt_pow2 _ 8); lia.
Qed.

Lemma byte_sized n : 0 <= n -> Z.log2 n < 8 -> n mod 256 = n.
Proof.
  intros Hn Hl. apply Z.mod_small. split; [done|].
  destruct (Z.eq_dec n 0) as [->|]; [lia|]. apply (Z.log2_lt_pow2 _ 8); lia.
Qed.

Lemma byte_code_xor a b : byte_code (byte_xor a b) = Z.lxor (byte_code a) (byte_code b).
Proof.
  pose proof (byte_code_range a). pose proof (byte_code_range b).
  unfold byte_xor. rewrite byte_of_code_mod. apply byte_sized; [apply Z.lxor_nonneg; lia|].
  eapply Z.le_lt_trans; [apply Z.log2_lxor; lia|]. apply Z.max_lub_lt; apply log2_byte.
Qed.

Lemma byte_code_lor a b : byte_code (byte_lor a b) = Z.lor (byte_code a) (byte_code b).
Proof.
  pose proof (byte_code_range a). pose proof (byte_code_range b).
  unfold byte_lor. rewrite byte_of_code_mod. apply byte_sized; [apply Z.lor_nonneg; lia|].
  rewrite Z.log2_lor by lia. apply Z.max_lub_lt; apply log2_byte.
Qed.

Lemma byte_xor_involutive a b : byte_xor (byte_xor a b) b = a.
Proof.
  apply byte_code_inj. by rewrite !byte_code_xor, Z.lxor_assoc, Z.lxor_nilpotent, Z.lxor_0_r.
Qed.

Lemma byte_xor_zero a b : byte_xor a b = Byte.x00 <-> a = b.
Proof.
  split.
  - intros H%(f_equal byte_code). rewrite byte_code_xor in H. change (byte_code Byte.x00) with 0 in H.
    apply Z.lxor_eq in H. by apply byte_code_inj.
  - intros ->. apply byte_code_inj. by rewrite byte_code_xor, Z.lxor_nilpotent.
Qed.

Lemma byte_lor_zero a b : byte_lor a b = Byte.x00 <-> a = Byte.x00 /\ b = Byte.x00.
Proof.
  split.
  - intros H%(f_equal byte_code). rewrite byte_code_lor in H. change (byte_code Byte.x00) with 0 in H.
    apply Z.lor_eq_0_iff in H as [Ha Hb].
    split; apply byte_code_inj; [by rewrite Ha|by rewrite Hb].
  - by intros [-> ->].
Qed.
