(* ===== verification/Json.v ===== *)
(** * Json: the [serde_json::Value] data model

    [serde_json::Map] is a [BTreeMap] (the crate does not enable [preserve_order]), so
    an object is an association list kept sorted by key; [obj_insert] is the map's
    [insert].  Parsing and printing JSON text is third-party code: the components that
    need it take a parser and a printer as parameters. *)

From Stdlib Require Import Sorting.Sorted.
From S2P Require Import Prelude.

Set Warnings "-register-all".

(** [serde_json::Number]; a float is represented by an integer code of its value. *)
Inductive number :=
| PosInt (n : N)
| NegInt (n : Z)
| Float (f : Z).

Inductive json :=
| JNull
| JBool (b : bool)
| JNum (n : number)
| JStr (s : string)
| JArr (l : list json)
| JObj (m : list (string * json)).

#[global] Instance number_eq_dec : EqDecision number.
Proof. solve_decision. Defined.

Definition json_eq_dec : forall x y : json, {x = y} + {x <> y}.
Proof.
  fix go 1. intros x y. destruct x as [|b|n|s|l|m], y as [|b'|n'|s'|l'|m'];
    try (right; discriminate).
  - left. reflexivity.
  - destruct (Bool.bool_dec b b'); [left|right]; congruence.
  - destruct (number_eq_dec n n'); [left|right]; congruence.
  - destruct (String.string_dec s s'); [left|right]; congruence.
  - destruct (List.list_eq_dec go l l'); [left|right]; congruence.
  - refine (match List.list_eq_dec _ m m' with
            | left E => left _ | right N => right _ end); [|congruence|congruence].
    intros [k v] [k' v']. destruct (String.string_dec k k'); [|right; congruence].
    destruct (go v v'); [left|right]; congruence.
Defined.

#[global] Instance json_eq_decision : EqDecision json := json_eq_dec.

(** ** Objects *)

Abbreviation object := (list (string * json)).

(** [Map::get] *)
Fixpoint obj_get (k : string) (m : object) : option json :=
  match m with
  | [] => None
  | (k', v) :: m' => if String.eqb k k' then Some v else obj_get k m'
  end.

Definition contains_key (k : string) (m : object) : bool :=
  match obj_get k m with Some _ => true | None => false end.

(** [Map::insert] *)
Fixpoint obj_insert (k : string) (v : json) (m : object) : object :=
  match m with
  | [] => [(k, v)]
  | (k', v') :: m' =>
      match String.compare k k' with
      | Lt => (k, v) :: m
      | Eq => (k, v) :: m'
      | Gt => (k', v') :: obj_insert k v m'
      end
  end.

(** An object built by inserting the pairs in order. *)
Definition obj_of (l : list (string * json)) : object :=
  fold_left (fun m kv => obj_insert (fst kv) (snd kv) m) l [].

(** ** [Value] accessors *)

Definition as_object (v : json) : option object :=
  match v with JObj m => Some m | _ => None end.

(** [value.get("key")]: [None] unless the value is an object. *)
Definition get (k : string) (v : json) : option json :=
  match v with JObj m => obj_get k m | _ => None end.

Definition as_str (v : json) : option string :=
  match v with JStr s => Some s | _ => None end.

Definition as_u64 (v : json) : option Z :=
  match v with JNum (PosInt n) => Some (Z.of_N n) | _ => None end.

(** ** Text

    [serde_json]'s printer and parser are third-party code, a parameter of the
    development.  A struct is printed as an object whose members follow the declaration
    order; the parser collects the members of an object in a [BTreeMap], which is what
    [normalize] does to a value.  The laws are stated for the values the text
    represents exactly: integers of 64 bits, and no float, since [serde_json] rounds
    floats unless its [float_roundtrip] feature is enabled. *)

Fixpoint normalize (v : json) : json :=
  match v with
  | JArr l => JArr (map normalize l)
  | JObj m => JObj (obj_of (map (fun kv => (fst kv, normalize (snd kv))) m))
  | v => v
  end.

Fixpoint exact (v : json) : bool :=
  match v with
  | JNum (PosInt n) => Z.of_N n <=? u64_max
  | JNum (NegInt z) => (- 2 ^ 63 <=? z) && (z <? 0)
  | JNum (Float _) => false
  | JArr l => forallb exact l
  | JObj m => forallb (fun kv => exact (snd kv)) m
  | _ => true
  end.

Class JsonCodec := {
  print_json : json -> list byte;     (* serde_json::to_vec *)
  print_pretty : json -> list byte;   (* serde_json::to_vec_pretty *)
  parse_json : list byte -> option json;  (* serde_json::from_slice *)
}.

Class JsonLaws `{JsonCodec} : Prop := {
  parse_print : forall v, exact v = true -> parse_json (print_json v) = Some (normalize v);
  parse_pretty : forall v, exact v = true -> parse_json (print_pretty v) = Some (normalize v);
  parse_normal : forall b v, parse_json b = Some v -> normalize v = v;
}.

(** ** Lemmas *)

Lemma compare_refl a : String.compare a a = Eq.
Proof.
  induction a as [|c a IH]; simpl; [done|].
  unfold Ascii.compare. by rewrite N.compare_refl.
Qed.

Lemma compare_eq_iff a b : String.compare a b = Eq <-> a = b.
Proof. split; [apply String.compare_eq_iff|]. intros ->. apply compare_refl. Qed.

Lemma obj_get_insert_eq k v m : obj_get k (obj_insert k v m) = Some v.
Proof.
  induction m as [|[k' v'] m IH]; simpl; [by rewrite String.eqb_refl|].
  destruct (String.compare k k') eqn:E; simpl; rewrite ?String.eqb_refl; [done..|].
  destruct (String.eqb_spec k k') as [->|_]; [|done]. by rewrite compare_refl in E.
Qed.

Lemma obj_get_insert_ne k k' v m : k <> k' -> obj_get k (obj_insert k' v m) = obj_get k m.
Proof.
  intros Hne. induction m as [|[k2 v2] m IH]; simpl.
  - by destruct (String.eqb_spec k k').
  - destruct (String.compare k' k2) eqn:E; simpl.
    + apply compare_eq_iff in E. subst. by destruct (String.eqb_spec k k2).
    + by destruct (String.eqb_spec k k').
    + by rewrite IH.
Qed.

Lemma obj_get_insert k k' v m :
  obj_get k (obj_insert k' v m) = if decide (k = k') then Some v else obj_get k m.
Proof.
  destruct (decide (k = k')) as [->|]; [apply obj_get_insert_eq|by apply obj_get_insert_ne].
Qed.

Lemma contains_key_spec k m : contains_key k m = true <-> is_Some (obj_get k m).
Proof. unfold contains_key. by destruct (obj_get k m). Qed.

(** Objects built by insertion are sorted, and sorted objects are fixed points. *)

Definition key_lt (a b : string * json) : Prop := String.compare (fst a) (fst b) = Lt.

Lemma compare_lt_trans a b c :
  String.compare a b = Lt -> String.compare b c = Lt -> String.compare a c = Lt.
Proof.
  revert b c. induction a as [|x a IH]; intros [|y b] [|z c]; simpl; try done.
  unfold Ascii.compare.
  destruct (N.compare_spec (N_of_ascii x) (N_of_ascii y)),
           (N.compare_spec (N_of_ascii y) (N_of_ascii z)),
           (N.compare_spec (N_of_ascii x) (N_of_ascii z)); try done; try lia; eauto.
Qed.

#[global] Instance key_lt_trans : Transitive key_lt.
Proof. intros [a ?] [b ?] [c ?]. apply compare_lt_trans. Qed.

Lemma obj_insert_in k v m kv : kv ∈ obj_insert k v m -> kv = (k, v) \/ kv ∈ m.
Proof.
  induction m as [|[k' v'] m IH]; simpl; [by intros ->%list_elem_of_singleton; left|].
  destruct (String.compare k k'); rewrite !elem_of_cons; [tauto|tauto|].
  intros [->|[->|]%IH]; tauto.
Qed.

Lemma obj_of_in l kv : kv ∈ obj_of l -> kv ∈ l.
Proof.
  unfold obj_of. cut (forall m, kv ∈ fold_left (fun m kv => obj_insert (fst kv) (snd kv) m) l m ->
    kv ∈ l \/ kv ∈ m).
  { intros H Hin. destruct (H [] Hin) as [?|?%elem_of_nil]; done. }
  induction l as [|[k v] l IH]; simpl; intros m Hin; [by right|].
  apply IH in Hin as [|Hin]; [left; by right|].
  apply obj_insert_in in Hin as [->|]; [left; left|by right].
Qed.

Lemma obj_insert_sorted k v m :
  StronglySorted key_lt m -> StronglySorted key_lt (obj_insert k v m).
Proof.
  induction 1 as [|[k' v'] m Hs IH Hf]; simpl; [repeat constructor|].
  destruct (String.compare k k') eqn:E.
  - apply compare_eq_iff in E as ->. by constructor.
  - constructor; [by constructor|]. constructor; [done|].
    eapply Forall_impl; [exact Hf|]. intros x. by apply (transitivity (y := (k', v'))).
  - constructor; [done|]. apply Forall_forall. intros x [->|Hx]%obj_insert_in.
    + unfold key_lt. simpl. rewrite String.compare_antisym, E. done.
    + by apply (proj1 (Forall_forall _ _) Hf).
Qed.

Lemma obj_of_sorted l : StronglySorted key_lt (obj_of l).
Proof.
  unfold obj_of. generalize (SSorted_nil key_lt). generalize (@nil (string * json)) as m.
  induction l as [|[k v] l IH]; simpl; intros m Hm; [done|].
  by apply IH, obj_insert_sorted.
Qed.

Lemma obj_insert_last k v m :
  Forall (fun kv => String.compare (fst kv) k = Lt) m -> obj_insert k v m = m ++ [(k, v)].
Proof.
  induction 1 as [|[k' v'] m Hk _ IH]; simpl in *; [done|].
  by rewrite String.compare_antisym, Hk, IH.
Qed.

Lemma obj_of_id m : StronglySorted key_lt m -> obj_of m = m.
Proof.
  unfold obj_of. intros Hs.
  cut (forall acc, Forall (fun a => Forall (key_lt a) m) acc ->
    fold_left (fun m kv => obj_insert (fst kv) (snd kv) m) m acc = acc ++ m).
  { intros H. apply (H []). constructor. }
  induction Hs as [|[k v] m Hs IH Hf]; intros acc Ha; simpl; [by rewrite app_nil_r|].
  rewrite obj_insert_last.
  - rewrite IH; [by rewrite <-app_assoc|]. apply Forall_app. split; [|by repeat constructor].
    eapply Forall_impl; [exact Ha|]. by intros x [_ ?]%Forall_cons.
  - eapply Forall_impl; [exact Ha|]. by intros x [? _]%Forall_cons.
Qed.

Lemma normalize_idem : forall v, normalize (normalize v) = normalize v.
Proof.
  fix IH 1. intros [|b|n|s|l|m]; simpl; try done; f_equal.
  - induction l as [|x l IHl]; simpl; [done|]. f_equal; [apply IH|exact IHl].
  - set (m' := map (fun kv => (fst kv, normalize (snd kv))) m).
    assert (Hm : Forall (fun kv => (fst kv, normalize (snd kv)) = kv) m').
    { unfold m'. clear m'. induction m as [|[k x] m IHm]; simpl; constructor; [|exact IHm].
      simpl. by rewrite IH. }
    transitivity (obj_of (obj_of m')); [|apply obj_of_id, obj_of_sorted].
    f_equal. rewrite <-(map_id (obj_of m')) at 2. apply map_ext_in.
    intros kv Hin%list_elem_of_In%obj_of_in. by apply (proj1 (Forall_forall _ _) Hm).
Qed.

Lemma exact_normalize : forall v, exact v = true -> exact (normalize v) = true.
Proof.
  fix IH 1. intros [|b|n|s|l|m]; simpl; try done.
  - induction l as [|x l IHl]; simpl; [done|]. intros [Hx Hl]%andb_true_iff.
    apply andb_true_iff. split; [by apply IH|by apply IHl].
  - intros Hm. apply forallb_forall. intros kv Hin%list_elem_of_In%obj_of_in.
    revert Hm Hin. induction m as [|[k x] m IHm]; simpl.
    + intros _ []%elem_of_nil.
    + intros [Hx Hm]%andb_true_iff [->|Hin]%elem_of_cons; [by apply IH|by apply IHm].
Qed.

(** ** A reference codec

    The laws assumed of the JSON printer and parser are satisfiable: a value is
    encoded through a numbering of the values, one byte per bit. *)

Module RefCodec.

Definition leaf : Type := bool + number + string.

#[global] Instance number_countable : Countable number.
Proof.
  refine (inj_countable'
    (fun n => match n with PosInt z => inl (inl z) | NegInt z => inl (inr z) | Float z => inr z end)
    (fun s => match s with inl (inl z) => PosInt z | inl (inr z) => NegInt z | inr z => Float z end) _).
  by intros [].
Defined.

Fixpoint to_tree (v : json) : gen_tree leaf :=
  match v with
  | JNull => GenNode 0 []
  | JBool b => GenLeaf (inl (inl b))
  | JNum n => GenLeaf (inl (inr n))
  | JStr s => GenLeaf (inr s)
  | JArr l => GenNode 1 (map to_tree l)
  | JObj m => GenNode 2 (map (fun kv => GenNode 3 [GenLeaf (inr (fst kv)); to_tree (snd kv)]) m)
  end.

Fixpoint of_tree (t : gen_tree leaf) : json :=
  match t with
  | GenLeaf (inl (inl b)) => JBool b
  | GenLeaf (inl (inr n)) => JNum n
  | GenLeaf (inr s) => JStr s
  | GenNode 1 l => JArr (map of_tree l)
  | GenNode 2 l =>
      JObj (map (fun t => match t with
                          | GenNode _ [GenLeaf (inr k); v] => (k, of_tree v)
                          | _ => (""%string, JNull)
                          end) l)
  | GenNode _ _ => JNull
  end.

Lemma of_to_tree : forall v, of_tree (to_tree v) = v.
Proof.
  fix IH 1. intros v. destruct v as [|b|n|s|l|m]; simpl; try done; f_equal.
  - induction l as [|x l IHl]; simpl; [done|]. f_equal; [apply IH|exact IHl].
  - induction m as [|[k x] m IHm]; simpl; [done|].
    f_equal; [f_equal; apply IH|exact IHm].
Qed.

Fixpoint bits (p : positive) : list byte :=
  match p with xH => [] | xO p' => x00 :: bits p' | xI p' => x01 :: bits p' end.

Fixpoint unbits (l : list byte) : option positive :=
  match l with
  | [] => Some xH
  | x00 :: l' => xO <$> unbits l'
  | x01 :: l' => xI <$> unbits l'
  | _ => None
  end.

Lemma unbits_bits p : unbits (bits p) = Some p.
Proof. induction p as [p IH|p IH|]; simpl; by rewrite ?IH. Qed.

Definition print (v : json) : list byte := bits (encode (to_tree v)).
Definition parse (l : list byte) : option json :=
  p ← unbits l; t ← decode p; Some (normalize (of_tree t)).

Lemma parse_print_ref v : parse (print v) = Some (normalize v).
Proof.
  unfold parse, print. rewrite unbits_bits. simpl.
  rewrite decode_encode. simpl. by rewrite of_to_tree.
Qed.

Definition codec : JsonCodec :=
  {| print_json := print; print_pretty := print; parse_json := parse |}.

Lemma laws : @JsonLaws codec.
Proof.
  constructor; simpl; intros; [apply parse_print_ref|apply parse_print_ref|].
  unfold parse in H. apply bind_Some in H as (? & _ & (? & _ & [= <-])%bind_Some).
  apply normalize_idem.
Qed.

End RefCodec.
