(* ===== verification/Offsets.v ===== *)
(** * Offsets: connector-native checkpoint positions

    Models the offset structs of [src/src/checkpoint/mod.rs] and the snapshot progress
    of [src/src/source/incremental_snapshot.rs], with the serde encoding their derives
    produce.  A struct is written as an object with its fields in declaration order and
    read from an object by field name; a field marked [#[serde(default)]] may be absent.
    (serde's positional array form, which the program never writes, is not modelled.)  *)

From S2P Require Import Prelude Errors CheckpointApi Strs Json.

Local Open Scope string_scope.
Local Open Scope Z_scope.

(** ** Snapshot progress *)

Record IncrementalSnapshotTableState := {
  table : string;
  pk_cursor : option (list json);
  is_complete : bool;
  chunks_emitted : Z;
  rows_emitted : Z;
  condition : option string;
}.

Record IncrementalSnapshotState := {
  snapshot_id : string;
  tables : list IncrementalSnapshotTableState;
  paused : bool;
  stopped : bool;
  generation : Z;
}.

(** [IncrementalSnapshotState::table] *)
Definition state_table (t : string) (s : IncrementalSnapshotState)
    : option IncrementalSnapshotTableState :=
  List.find (fun entry => eq_nocase (table entry) t) (tables s).

(** [IncrementalSnapshotState::is_complete] *)
Definition state_is_complete (s : IncrementalSnapshotState) : bool :=
  negb (match tables s with [] => true | _ => false end) &&
  forallb is_complete (tables s).

(** [IncrementalSnapshotState::rows_emitted] and [tables_remaining] *)
Definition state_rows_emitted (s : IncrementalSnapshotState) : Z :=
  fold_right Z.add 0 (map rows_emitted (tables s)).

Definition state_tables_remaining (s : IncrementalSnapshotState) : nat :=
  length (List.filter (fun t => negb (is_complete t)) (tables s)).

(** ** Serialization of the derives *)

Definition jnat (n : Z) : json := JNum (PosInt (Z.to_N n)).

Definition jopt {A} (f : A -> json) (o : option A) : json :=
  match o with Some a => f a | None => JNull end.

(** A field with [skip_serializing_if = "Option::is_none"]. *)
Definition skip_none {A} (k : string) (f : A -> json) (o : option A)
    : list (string * json) :=
  match o with Some a => [(k, f a)] | None => [] end.

Definition table_state_json (t : IncrementalSnapshotTableState) : json :=
  JObj
    ([("table", JStr (table t)); ("pk_cursor", jopt JArr (pk_cursor t));
      ("is_complete", JBool (is_complete t)); ("chunks_emitted", jnat (chunks_emitted t));
      ("rows_emitted", jnat (rows_emitted t))]
     ++ skip_none "condition" JStr (condition t)).

Definition state_json (s : IncrementalSnapshotState) : json :=
  JObj
    [("snapshot_id", JStr (snapshot_id s)); ("tables", JArr (map table_state_json (tables s)));
     ("paused", JBool (paused s)); ("stopped", JBool (stopped s));
     ("generation", jnat (generation s))].

(** Readers for one field. *)
Definition as_bool (v : json) : option bool := match v with JBool b => Some b | _ => None end.
Definition as_uint (max : Z) (v : json) : option Z :=
  match as_u64 v with Some n => if n <=? max then Some n else None | None => None end.
Definition as_array (v : json) : option (list json) :=
  match v with JArr l => Some l | _ => None end.

(** An [Option] field: [null] is [None]. *)
Definition as_opt {A} (f : json -> option A) (v : json) : option (option A) :=
  match v with
  | JNull => Some None
  | _ => match f v with Some a => Some (Some a) | None => None end
  end.

(** A required field, and one with a default. *)
Definition field {A} (k : string) (f : json -> option A) (m : object) : option A :=
  match obj_get k m with Some v => f v | None => None end.
Definition field_or {A} (k : string) (d : A) (f : json -> option A) (m : object) : option A :=
  match obj_get k m with Some v => f v | None => Some d end.

Fixpoint traverse {A B} (f : A -> option B) (l : list A) : option (list B) :=
  match l with
  | [] => Some []
  | a :: l' =>
      match f a, traverse f l' with
      | Some b, Some bs => Some (b :: bs)
      | _, _ => None
      end
  end.

Definition table_state_from_json (v : json) : option IncrementalSnapshotTableState :=
  m ← as_object v;
  t ← field "table" as_str m;
  c ← field_or "pk_cursor" None (as_opt as_array) m;
  done ← field "is_complete" as_bool m;
  ch ← field "chunks_emitted" (as_uint u32_max) m;
  rw ← field "rows_emitted" (as_uint u64_max) m;
  cond ← field_or "condition" None (as_opt as_str) m;
  Some {| table := t; pk_cursor := c; is_complete := done; chunks_emitted := ch;
          rows_emitted := rw; condition := cond |}.

Definition state_from_json (v : json) : option IncrementalSnapshotState :=
  m ← as_object v;
  i ← field "snapshot_id" as_str m;
  arr ← field "tables" as_array m;
  ts ← traverse table_state_from_json arr;
  p ← field_or "paused" false as_bool m;
  st ← field_or "stopped" false as_bool m;
  g ← field_or "generation" 0 (as_uint u32_max) m;
  Some {| snapshot_id := i; tables := ts; paused := p; stopped := st; generation := g |}.

(** ** The offset structs *)

Record PostgresOffset := {
  lsn : Z;
  slot_name : string;
  pg_incremental_snapshot : option IncrementalSnapshotState;
}.

Record MysqlOffset := {
  gtid : string;
  binlog_file : string;
  binlog_pos : Z;
  source_flavor : string;
  my_incremental_snapshot : option IncrementalSnapshotState;
}.

Record SqlServerOffset := {
  cursor : string;
  ms_incremental_snapshot : option IncrementalSnapshotState;
}.

Record SnowflakeOffset := {
  window_end_nanos : Z;
  database : string;
  schema : string;
}.

Record GenericOffset := {
  source : string;
  bytes : list byte;
}.

Definition postgres_json (o : PostgresOffset) : json :=
  JObj ([("lsn", jnat (lsn o)); ("slot_name", JStr (slot_name o))]
    ++ skip_none "incremental_snapshot" state_json (pg_incremental_snapshot o)).

Definition postgres_from_json (v : json) : option PostgresOffset :=
  m ← as_object v;
  l ← field "lsn" (as_uint u64_max) m;
  s ← field "slot_name" as_str m;
  i ← field_or "incremental_snapshot" None (as_opt state_from_json) m;
  Some {| lsn := l; slot_name := s; pg_incremental_snapshot := i |}.

Definition mysql_json (o : MysqlOffset) : json :=
  JObj ([("gtid", JStr (gtid o)); ("binlog_file", JStr (binlog_file o));
    ("binlog_pos", jnat (binlog_pos o)); ("source_flavor", JStr (source_flavor o))]
    ++ skip_none "incremental_snapshot" state_json (my_incremental_snapshot o)).

Definition mysql_from_json (v : json) : option MysqlOffset :=
  m ← as_object v;
  g ← field "gtid" as_str m;
  f ← field "binlog_file" as_str m;
  p ← field "binlog_pos" (as_uint u32_max) m;
  fl ← field_or "source_flavor" "mysql" as_str m;
  i ← field_or "incremental_snapshot" None (as_opt state_from_json) m;
  Some {| gtid := g; binlog_file := f; binlog_pos := p; source_flavor := fl;
          my_incremental_snapshot := i |}.

Definition sqlserver_json (o : SqlServerOffset) : json :=
  JObj ([("cursor", JStr (cursor o))]
    ++ skip_none "incremental_snapshot" state_json (ms_incremental_snapshot o)).

Definition sqlserver_new (c : string) : SqlServerOffset :=
  {| cursor := c; ms_incremental_snapshot := None |}.

(** [SqlServerOffset::from_bytes]: the object form, or the bare string of 0.7. *)
Definition sqlserver_from_json (v : json) : option SqlServerOffset :=
  match
    m ← as_object v;
    c ← field "cursor" as_str m;
    i ← field_or "incremental_snapshot" None (as_opt state_from_json) m;
    Some {| cursor := c; ms_incremental_snapshot := i |}
  with
  | Some o => Some o
  | None => match as_str v with Some c => Some (sqlserver_new c) | None => None end
  end.

Definition snowflake_json (o : SnowflakeOffset) : json :=
  JObj [("window_end_nanos", jnat (window_end_nanos o));
    ("database", JStr (database o)); ("schema", JStr (schema o))].

Definition snowflake_from_json (v : json) : option SnowflakeOffset :=
  m ← as_object v;
  w ← field "window_end_nanos" (as_uint u64_max) m;
  d ← field "database" as_str m;
  s ← field "schema" as_str m;
  Some {| window_end_nanos := w; database := d; schema := s |}.

Definition postgres_with_incremental_snapshot (s : option IncrementalSnapshotState)
    (o : PostgresOffset) : PostgresOffset :=
  {| lsn := lsn o; slot_name := slot_name o; pg_incremental_snapshot := s |}.

Definition mysql_with_incremental_snapshot (s : option IncrementalSnapshotState)
    (o : MysqlOffset) : MysqlOffset :=
  {| gtid := gtid o; binlog_file := binlog_file o; binlog_pos := binlog_pos o;
     source_flavor := source_flavor o; my_incremental_snapshot := s |}.

Definition sqlserver_with_incremental_snapshot (s : option IncrementalSnapshotState)
    (o : SqlServerOffset) : SqlServerOffset :=
  {| cursor := cursor o; ms_incremental_snapshot := s |}.

(** ** Trait objects

    [encode] is [serde_json::to_vec] of the struct. *)

Section Dyn.
Context `{JsonCodec}.

Definition postgres_dyn (o : PostgresOffset) : DynOffset :=
  {| source_type := "postgres"; encode := Ok (print_json (postgres_json o)) |}.
Definition mysql_dyn (o : MysqlOffset) : DynOffset :=
  {| source_type := source_flavor o; encode := Ok (print_json (mysql_json o)) |}.
Definition sqlserver_dyn (o : SqlServerOffset) : DynOffset :=
  {| source_type := "sqlserver"; encode := Ok (print_json (sqlserver_json o)) |}.
Definition snowflake_dyn (o : SnowflakeOffset) : DynOffset :=
  {| source_type := "snowflake"; encode := Ok (print_json (snowflake_json o)) |}.
Definition generic_dyn (o : GenericOffset) : DynOffset :=
  {| source_type := source o; encode := Ok (bytes o) |}.

(** [state_from_offset]: every failure on the way is [None]. *)
Definition state_from_offset (o : option DynOffset) : option IncrementalSnapshotState :=
  o ← o;
  encoded ← (match encode o with Ok b => Some b | _ => None end);
  value ← parse_json encoded;
  st ← get "incremental_snapshot" value;
  state_from_json st.

End Dyn.

(** ** Round trips *)

(** Evaluate field lookups in an object with literal keys, leaving the readers of the
    values alone. *)
Ltac obj_red :=
  lazy -[Z.to_N as_uint as_opt as_array jopt u32_max u64_max traverse map
         table_state_json table_state_from_json state_json state_from_json normalize].

(** The integer fields fit their Rust types and the key cursor is a parsed value. *)
Definition wf_table_state (t : IncrementalSnapshotTableState) : Prop :=
  0 <= chunks_emitted t <= u32_max /\ 0 <= rows_emitted t <= u64_max /\
  Forall (fun v => normalize v = v /\ exact v = true) (default [] (pk_cursor t)).

Definition wf_state (s : IncrementalSnapshotState) : Prop :=
  Forall wf_table_state (tables s) /\ 0 <= generation s <= u32_max.

Lemma as_uint_jnat max n :
  0 <= n <= max -> as_uint max (JNum (PosInt (Z.to_N n))) = Some n.
Proof.
  intros H. unfold as_uint. simpl. rewrite Z2N.id by lia.
  destruct (Z.leb_spec n max); [done|lia].
Qed.

Lemma exact_jnat n : n <= u64_max -> (Z.of_N (Z.to_N n) <=? u64_max) = true.
Proof. intros H. apply Z.leb_le. unfold u64_max, u64_modulus in *. lia. Qed.

Lemma map_normalize l : Forall (fun v => normalize v = v) l -> map normalize l = l.
Proof. induction 1; simpl; congruence. Qed.

Lemma traverse_map {A B C} (f : B -> option C) (g : A -> B) (h : A -> C) l :
  Forall (fun a => f (g a) = Some (h a)) l -> traverse f (map g l) = Some (map h l).
Proof. induction 1 as [|a l Ha _ IH]; simpl; [done|]. by rewrite Ha, IH. Qed.

Lemma cursor_roundtrip t :
  wf_table_state t -> normalize (jopt JArr (pk_cursor t)) = jopt JArr (pk_cursor t).
Proof.
  intros (_ & _ & Hc). destruct (pk_cursor t) as [c|]; simpl in *; [|done].
  f_equal. apply map_normalize. eapply Forall_impl; [exact Hc|]. by intros ? [].
Qed.

Lemma table_state_roundtrip t :
  wf_table_state t -> table_state_from_json (normalize (table_state_json t)) = Some t.
Proof.
  intros Hwf. pose proof (cursor_roundtrip t Hwf) as Hcur. destruct Hwf as (Hc & Hr & _).
  destruct t as [tb c d ch rw cond]; simpl in *.
  unfold table_state_from_json, table_state_json.
  destruct cond as [cd|]; cbn [normalize map app skip_none fst snd table pk_cursor is_complete
    chunks_emitted rows_emitted condition]; rewrite Hcur; obj_red; rewrite !as_uint_jnat by lia;
    by destruct c.
Qed.

Lemma state_roundtrip s :
  wf_state s -> state_from_json (normalize (state_json s)) = Some s.
Proof.
  intros [Ht Hg]. destruct s as [i ts p st g]; simpl in *.
  unfold state_from_json, state_json.
  cbn [normalize map fst snd snapshot_id tables paused stopped generation].
  obj_red. rewrite as_uint_jnat by lia. cbn [as_array]. rewrite map_map.
  rewrite (traverse_map _ _ id); [by rewrite map_id|].
  eapply Forall_impl; [exact Ht|]. intros t. apply table_state_roundtrip.
Qed.

Lemma table_state_exact t : wf_table_state t -> exact (table_state_json t) = true.
Proof.
  intros (Hc & Hr & Hk). unfold table_state_json, jnat.
  cbn [exact forallb snd app].
  rewrite !exact_jnat by (unfold u32_max, u64_max, u64_modulus in *; lia).
  replace (exact (jopt JArr (pk_cursor t))) with true.
  - by destruct (condition t).
  - symmetry. destruct (pk_cursor t); simpl in *; [|done]. apply forallb_forall.
    intros v Hv%list_elem_of_In. by apply (proj1 (Forall_forall _ _) Hk).
Qed.

Lemma state_exact s : wf_state s -> exact (state_json s) = true.
Proof.
  intros [Ht Hg]. unfold state_json, jnat. cbn [exact forallb snd].
  rewrite exact_jnat by (unfold u32_max, u64_max, u64_modulus in *; lia).
  rewrite !andb_true_r. apply forallb_forall. intros v (t & <- & Hin)%in_map_iff.
  apply table_state_exact. apply (proj1 (Forall_forall _ _) Ht). by apply list_elem_of_In.
Qed.

Lemma exact_skip_none k s :
  (forall st, s = Some st -> wf_state st) ->
  forallb (fun kv => exact (snd kv)) (skip_none k state_json s) = true.
Proof.
  intros Hs. destruct s as [st|]; [|done].
  change (exact (state_json st) && true = true). by rewrite state_exact by auto.
Qed.

(** What is read back for the optional progress field of an offset. *)
Lemma as_opt_state s :
  wf_state s -> as_opt state_from_json (normalize (state_json s)) = Some (Some s).
Proof.
  intros Hs. pose proof (state_roundtrip s Hs) as Hr. unfold as_opt.
  unfold state_json in *. cbn [normalize] in *. by rewrite Hr.
Qed.

Lemma normalize_obj m :
  normalize (JObj m) = JObj (obj_of (map (fun kv => (fst kv, normalize (snd kv))) m)).
Proof. done. Qed.

(** Read an offset back, keeping the progress it carries abstract. *)
Ltac read_offset Hs :=
  rewrite normalize_obj, map_app;
  cbn [map fst snd skip_none lsn slot_name pg_incremental_snapshot gtid binlog_file binlog_pos
       source_flavor my_incremental_snapshot cursor ms_incremental_snapshot];
  first
    [ match goal with |- context [normalize (state_json ?s)] =>
        pose proof (as_opt_state s (Hs s eq_refl)) as Hst; revert Hst;
        generalize (normalize (state_json s))
      end; intros ? Hst; cbn [normalize jnat app]; obj_red; rewrite ?as_uint_jnat by lia;
      obj_red; by rewrite Hst
    | cbn [normalize jnat app]; obj_red; rewrite ?as_uint_jnat by lia; done ].

Lemma postgres_roundtrip o :
  0 <= lsn o <= u64_max -> (forall s, pg_incremental_snapshot o = Some s -> wf_state s) ->
  postgres_from_json (normalize (postgres_json o)) = Some o.
Proof.
  intros Hl Hs. destruct o as [l sn [s|]]; simpl in Hl, Hs; unfold postgres_from_json, postgres_json;
    read_offset Hs.
Qed.

Lemma mysql_roundtrip o :
  0 <= binlog_pos o <= u32_max ->
  (forall s, my_incremental_snapshot o = Some s -> wf_state s) ->
  mysql_from_json (normalize (mysql_json o)) = Some o.
Proof.
  intros Hl Hs. destruct o as [g f p fl [s|]]; simpl in Hl, Hs; unfold mysql_from_json, mysql_json;
    read_offset Hs.
Qed.

Lemma sqlserver_roundtrip o :
  (forall s, ms_incremental_snapshot o = Some s -> wf_state s) ->
  sqlserver_from_json (normalize (sqlserver_json o)) = Some o.
Proof.
  intros Hs. destruct o as [c [s|]]; simpl in Hs; unfold sqlserver_from_json, sqlserver_json;
    read_offset Hs.
Qed.

Lemma snowflake_roundtrip o :
  0 <= window_end_nanos o <= u64_max ->
  snowflake_from_json (normalize (snowflake_json o)) = Some o.
Proof.
  intros Hl. destruct o as [w d s]; simpl in *. unfold snowflake_from_json, snowflake_json.
  cbn [normalize map fst snd window_end_nanos database schema].
  obj_red. by rewrite as_uint_jnat by lia.
Qed.

(** ** Progress travels with the offset *)

Section Travel.
Context `{JsonLaws}.

Lemma state_from_printed o (v : json) (s : option IncrementalSnapshotState) :
  encode o = Ok (print_json v) -> exact v = true ->
  get "incremental_snapshot" (normalize v) = (normalize ∘ state_json <$> s) ->
  (forall st, s = Some st -> wf_state st) -> state_from_offset (Some o) = s.
Proof.
  intros He Hx Hg Hs. unfold state_from_offset. cbn. rewrite He. cbn.
  rewrite parse_print by done. cbn. rewrite Hg.
  destruct s as [st|]; cbn; [by apply state_roundtrip; auto|done].
Qed.

(** Snapshot progress attached to a PostgreSQL, MySQL/MariaDB or SQL Server offset
    is recovered unchanged from the encoded offset, and an offset without progress
    yields none. *)
Theorem snapshot_progress_survives_offset
    (s : option IncrementalSnapshotState) (s_wf : forall st, s = Some st -> wf_state st) :
  (forall o, lsn o <= u64_max ->
     state_from_offset (Some (postgres_dyn (postgres_with_incremental_snapshot s o))) = s) /\
  (forall o, binlog_pos o <= u32_max ->
     state_from_offset (Some (mysql_dyn (mysql_with_incremental_snapshot s o))) = s) /\
  (forall o,
     state_from_offset (Some (sqlserver_dyn (sqlserver_with_incremental_snapshot s o))) = s).
Proof.
  split_and!; intros o; [intros Ho|intros Ho|];
    (eapply state_from_printed; [done| |by destruct s as [st|]|done]);
    unfold postgres_json, mysql_json, sqlserver_json, jnat; cbn [exact];
    rewrite forallb_app, exact_skip_none by auto; cbn [forallb snd exact];
    by rewrite ?exact_jnat by (unfold u32_max, u64_max, u64_modulus in *; simpl; lia).
Qed.

End Travel.

Definition sample_state : IncrementalSnapshotState :=
  {| snapshot_id := "incremental-42";
     tables := [{| table := "public.users"; pk_cursor := Some [JStr "500"];
                   is_complete := false; chunks_emitted := 3; rows_emitted := 1500;
                   condition := None |}];
     paused := true; stopped := false; generation := 2 |}.

Lemma sample_state_wf : wf_state sample_state.
Proof.
  split; [|vm_compute; split; discriminate].
  constructor; [|constructor].
  split; [vm_compute; split; discriminate|]. split; [vm_compute; split; discriminate|].
  constructor; [by split|constructor].
Qed.

Lemma snapshot_progress_survives_offset_witness :
  @state_from_offset RefCodec.codec
    (Some (@postgres_dyn RefCodec.codec
       {| lsn := 9001; slot_name := "slot"; pg_incremental_snapshot := Some sample_state |}))
  = Some sample_state.
Proof.
  refine (proj1 (@snapshot_progress_survives_offset RefCodec.codec RefCodec.laws
    (Some sample_state) _)
    {| lsn := 9001; slot_name := "slot"; pg_incremental_snapshot := None |} _).
  - intros st [= <-]. apply sample_state_wf.
  - vm_compute. discriminate.
Defined.
