(* ===== verification/Progress.v ===== *)
(** * Progress: the rewind guard of the checkpoint stores

    Models [validate_checkpoint_progress], [stream_position_regression] and
    [StoredCheckpointRecord] of [src/src/checkpoint/mod.rs].  The specification assigns
    each record the coordinate its source compares, and says which records belong to
    the same stream. *)

From Stdlib Require Import Sorting.Sorted.
From S2P Require Import Prelude Errors CheckpointApi Strs Json.

Module Progress.

Local Open Scope string_scope.
Local Open Scope Z_scope.

(** ** The code *)

Record StoredCheckpointRecord := {
  source_type : string;
  committed_event_count : Z;
  offset : json;
}.

Definition POSITION_COMPARED_SOURCE_TYPES : list string :=
  ["postgres"; "mysql"; "mariadb"; "sqlserver"; "snowflake"].

Definition compares_stream_position (st : string) : bool :=
  existsb (String.eqb st) POSITION_COMPARED_SOURCE_TYPES.

(** [StoredCheckpointRecord::from_offset] *)
Definition from_offset `{JsonCodec} (o : DynOffset) (n : Z)
    : Res StoredCheckpointRecord :=
  encoded <-? encode o;
  match parse_json encoded with
  | Some value =>
      Ok {| source_type := CheckpointApi.source_type o; committed_event_count := n;
            offset := value |}
  | None =>
      if compares_stream_position (CheckpointApi.source_type o) then
        Err (SerializationError "checkpoint offset for source type is not JSON")
      else
        Ok {| source_type := CheckpointApi.source_type o; committed_event_count := n;
              offset := JNull |}
  end.

Definition cdc_cursor_lsn (v : json) : option string :=
  c ← (v ← get "cursor" v; as_str v);
  Some (match split_once ":" c with Some (lsn, _) => lsn | None => c end).

Definition binlog_coordinate (v : json) : option (Z * Z) :=
  file ← (f ← get "binlog_file" v; as_str f);
  tail ← rsplit_once "." file;
  sequence ← parse_u64 (snd tail);
  pos ← (p ← get "binlog_pos" v; as_u64 p);
  if pos <=? u32_max then Some (sequence, pos) else None.

(** Tuple and string comparison, as Rust's [<] on them. *)
Definition pair_ltb (a b : Z * Z) : bool :=
  (fst a <? fst b) || ((fst a =? fst b) && (snd a <? snd b)).

Definition str_ltb (a b : string) : bool :=
  match String.compare a b with Lt => true | _ => false end.

(** [stream_position_regression]; the text of the message is its leading words. *)
Definition stream_position_regression (st : string) (existing next : json)
    : option string :=
  if String.eqb st "postgres" then
    if negb (bool_decide (get "slot_name" existing = get "slot_name" next)) then None
    else
      before ← (v ← get "lsn" existing; as_u64 v);
      after ← (v ← get "lsn" next; as_u64 v);
      if (after =? 0) && (0 <? before) then Some "postgres LSN" else None
  else if String.eqb st "mysql" || String.eqb st "mariadb" then
    let gtid := v ← get "gtid" next; as_str v in
    if match gtid with Some g => negb (is_empty g) | None => false end then None
    else if negb (bool_decide (get "source_flavor" existing = get "source_flavor" next))
    then None
    else
      before ← binlog_coordinate existing;
      after ← binlog_coordinate next;
      if pair_ltb after before then Some "mysql binlog position" else None
  else if String.eqb st "sqlserver" then
    before ← cdc_cursor_lsn existing;
    after ← cdc_cursor_lsn next;
    if str_ltb after before then Some "sqlserver CDC commit LSN" else None
  else if String.eqb st "snowflake" then
    if negb (bool_decide (get "database" existing = get "database" next))
       || negb (bool_decide (get "schema" existing = get "schema" next)) then None
    else
      before ← (v ← get "window_end_nanos" existing; as_u64 v);
      after ← (v ← get "window_end_nanos" next; as_u64 v);
      if after <? before then Some "snowflake window end" else None
  else None.

Definition validate_checkpoint_progress (existing : option StoredCheckpointRecord)
    (next : StoredCheckpointRecord) : Res unit :=
  match existing with
  | None => Ok tt
  | Some existing =>
      if committed_event_count next <? committed_event_count existing then
        Err (CheckpointError "refusing non-monotonic checkpoint write for source")
      else if (committed_event_count existing =? committed_event_count next)
              && negb (bool_decide (offset existing = offset next)) then
        Err (CheckpointError "refusing conflicting checkpoint write for source")
      else
        match stream_position_regression (source_type next) (offset existing) (offset next)
        with
        | Some _ =>
            Err (CheckpointError
                   "refusing checkpoint write for source: the stream position moved backwards")
        | None => Ok tt
        end
  end.

(** ** Specification *)

(** The coordinate a source compares.  PostgreSQL only distinguishes zero from a
    position the stream can reach. *)
Inductive Coordinate :=
| Reached (nonzero : bool)
| Binlog (sequence position : Z)
| CommitLsn (lsn : string)
| WindowEnd (nanos : Z).

Definition coordinate (st : string) (v : json) : option Coordinate :=
  if String.eqb st "postgres" then
    n ← (x ← get "lsn" v; as_u64 x); Some (Reached (0 <? n))
  else if String.eqb st "mysql" || String.eqb st "mariadb" then
    c ← binlog_coordinate v; Some (Binlog (fst c) (snd c))
  else if String.eqb st "sqlserver" then
    l ← cdc_cursor_lsn v; Some (CommitLsn l)
  else if String.eqb st "snowflake" then
    n ← (x ← get "window_end_nanos" v; as_u64 x); Some (WindowEnd n)
  else None.

(** The order of coordinates of one kind. *)
Definition coord_le (a b : Coordinate) : Prop :=
  match a, b with
  | Reached x, Reached y => x = true -> y = true
  | Binlog s p, Binlog s' p' => s < s' \/ (s = s' /\ p <= p')
  | CommitLsn x, CommitLsn y => String.compare x y <> Gt
  | WindowEnd x, WindowEnd y => x <= y
  | _, _ => False
  end.

(** [next] continues the stream of [existing], so their coordinates are comparable:
    the same slot, the same server flavor with no GTID to defer to, or the same
    database and schema. *)
Definition same_stream (st : string) (existing next : json) : Prop :=
  (st = "postgres" -> get "slot_name" existing = get "slot_name" next) /\
  (st = "mysql" \/ st = "mariadb" ->
     get "source_flavor" existing = get "source_flavor" next /\
     forall g, get "gtid" next = Some (JStr g) -> g = "") /\
  (st = "snowflake" ->
     get "database" existing = get "database" next /\
     get "schema" existing = get "schema" next).

(** Records accepted one after another by the guard. *)
Definition accepted_next (a b : StoredCheckpointRecord) : Prop :=
  validate_checkpoint_progress (Some a) b = Ok tt.

(** ** Order lemmas *)

Lemma ascii_compare_spec a b : Ascii.compare a b = N.compare (N_of_ascii a) (N_of_ascii b).
Proof. done. Qed.

Lemma str_compare_trans a b c :
  String.compare a b <> Gt -> String.compare b c <> Gt -> String.compare a c <> Gt.
Proof.
  revert b c. induction a as [|x a IH]; intros [|y b] [|z c]; simpl; try done.
  rewrite !ascii_compare_spec.
  destruct (N.compare_spec (N_of_ascii x) (N_of_ascii y)),
           (N.compare_spec (N_of_ascii y) (N_of_ascii z)),
           (N.compare_spec (N_of_ascii x) (N_of_ascii z)); try done; try lia; eauto.
Qed.

Lemma coord_le_trans a b c : coord_le a b -> coord_le b c -> coord_le a c.
Proof.
  destruct a, b, c; simpl; try done; try (intros; tauto || lia).
  apply str_compare_trans.
Qed.

Lemma pair_ltb_coord a b : pair_ltb a b = false <->
  coord_le (Binlog (fst b) (snd b)) (Binlog (fst a) (snd a)).
Proof.
  unfold pair_ltb. simpl. rewrite orb_false_iff, andb_false_iff, Z.ltb_ge, Z.ltb_ge, Z.eqb_neq.
  lia.
Qed.

Lemma str_compare_antisym a b : String.compare a b = CompOpp (String.compare b a).
Proof. apply String.compare_antisym. Qed.

Lemma str_ltb_coord a b : str_ltb a b = false <-> coord_le (CommitLsn b) (CommitLsn a).
Proof.
  unfold str_ltb. simpl. rewrite (str_compare_antisym b a).
  by destruct (String.compare a b); simpl.
Qed.

(** ** The guard decides exactly the specification *)

(** The four comparisons, one per kind of source. *)
Lemma reached_spec before after :
  0 <= before -> 0 <= after ->
  ((after =? 0) && (0 <? before) = false <->
   coord_le (Reached (0 <? before)) (Reached (0 <? after))).
Proof.
  intros. simpl. rewrite andb_false_iff, Z.eqb_neq, Z.ltb_ge, !Z.ltb_lt. lia.
Qed.

Lemma as_u64_nonneg v n : as_u64 v = Some n -> 0 <= n.
Proof. destruct v as [| | [m| |]| | |]; simpl; try done. intros [= <-]. lia. Qed.

Lemma gtid_guard v :
  match (x ← get "gtid" v; as_str x) with Some g => negb (is_empty g) | None => false end = false
  <-> (forall g, get "gtid" v = Some (JStr g) -> g = "").
Proof.
  destruct (get "gtid" v) as [[| | |g| |]|]; simpl; try (split; [done|done]).
  split.
  - intros H g' [= ->]. by destruct g'.
  - intros H. by rewrite (H g eq_refl).
Qed.

(** The shape all four arms share: compare two optional coordinates with a test. *)
Lemma guarded_compare {A} (f : A -> Coordinate) (bad : A -> A -> bool) (m : string)
    (oa ob : option A) :
  (forall a b, oa = Some a -> ob = Some b -> bad b a = false <-> coord_le (f a) (f b)) ->
  (before ← oa; after ← ob; if bad after before then Some m else None) = None <->
  (forall ca cb, (x ← oa; Some (f x)) = Some ca -> (x ← ob; Some (f x)) = Some cb ->
     coord_le ca cb).
Proof.
  intros H. destruct oa as [a|], ob as [b|]; simpl; try (split; [by intros|done]).
  specialize (H a b eq_refl eq_refl). destruct (bad b a).
  - split; [done|]. intros Hc. discriminate (proj2 H (Hc _ _ eq_refl eq_refl)).
  - split; [|done]. intros _ ca cb [= <-] [= <-]. by apply H.
Qed.

Lemma regression_spec st a b :
  stream_position_regression st a b = None <->
  (same_stream st a b -> forall ca cb, coordinate st a = Some ca -> coordinate st b = Some cb ->
     coord_le ca cb).
Proof.
  unfold stream_position_regression, coordinate, same_stream.
  destruct (String.eqb_spec st "postgres") as [->|Hp].
  { case_bool_decide as Hs; simpl; [|split; [intros _ [H _]; by destruct Hs; apply H|done]].
    rewrite (guarded_compare (fun n => Reached (0 <? n)) (fun y x => (y =? 0) && (0 <? x))).
    - split; [auto|]. intros H. apply H. split_and!; [done|intros [|]; done|done].
    - intros x y Hx Hy. apply bind_Some in Hx as (? & _ & ?%as_u64_nonneg).
      apply bind_Some in Hy as (? & _ & ?%as_u64_nonneg). by apply reached_spec. }
  destruct (String.eqb st "mysql" || String.eqb st "mariadb") eqn:Hm.
  { assert (Hst : st = "mysql" \/ st = "mariadb")
      by (apply orb_true_iff in Hm as [?%String.eqb_eq|?%String.eqb_eq]; auto).
    pose proof (gtid_guard b) as Hg.
    destruct (match (x ← get "gtid" b; as_str x) with
              | Some g => negb (is_empty g) | None => false end).
    { split; [|done]. intros _ (_ & Hmy & _).
      destruct (Hmy Hst) as [_ H]. by apply Hg in H. }
    destruct Hg as [Hg _]. specialize (Hg eq_refl).
    case_bool_decide as Hs; simpl;
      [|split; [intros _ (_ & Hmy & _); by destruct (Hmy Hst)|done]].
    rewrite (guarded_compare (fun c => Binlog (fst c) (snd c)) pair_ltb)
      by (intros; apply pair_ltb_coord).
    split; [auto|]. intros H. apply H. split_and!; [done|done|].
    intros ->. by destruct Hst. }
  apply orb_false_iff in Hm as [Hm1%String.eqb_neq Hm2%String.eqb_neq].
  destruct (String.eqb_spec st "sqlserver") as [->|Hq].
  { rewrite (guarded_compare CommitLsn str_ltb) by (intros; apply str_ltb_coord).
    split; [auto|]. intros H. apply H. split_and!; [done|intros [|]; done|done]. }
  destruct (String.eqb_spec st "snowflake") as [->|Hw]; [|done].
  do 2 (case_bool_decide; simpl; [|split; [intros _ (_ & _ & H'); by destruct (H' eq_refl)|done]]).
  rewrite (guarded_compare WindowEnd (fun y x => y <? x))
    by (intros; simpl; apply Z.ltb_ge).
  split; [auto|]. intros H'. apply H'. split_and!; [done|intros [|]; done|done].
Qed.

(** The guard accepts a record exactly when the event count does not decrease, an
    unchanged count comes with an unchanged offset, and a record of the same stream
    does not carry an earlier coordinate. *)
Theorem validate_checkpoint_progress_spec existing next :
  validate_checkpoint_progress (Some existing) next = Ok tt <->
  committed_event_count existing <= committed_event_count next /\
  (committed_event_count existing = committed_event_count next ->
     offset existing = offset next) /\
  (same_stream (source_type next) (offset existing) (offset next) ->
     forall c c', coordinate (source_type next) (offset existing) = Some c ->
       coordinate (source_type next) (offset next) = Some c' -> coord_le c c').
Proof.
  rewrite <-regression_spec. unfold validate_checkpoint_progress.
  destruct (Z.ltb_spec (committed_event_count next) (committed_event_count existing));
    [split; [done|lia]|].
  destruct (Z.eqb_spec (committed_event_count existing) (committed_event_count next));
    case_bool_decide; simpl; try (destruct (stream_position_regression _ _ _));
    split; try done; try tauto; intros (? & ? & ?); done.
Qed.

(** ** Accepted histories *)

(** A history of one stream: every record names [st], any later record continues the
    stream of any earlier one, and every record carries a coordinate. *)
Definition one_stream (st : string) (h : list StoredCheckpointRecord) : Prop :=
  Forall (fun r => source_type r = st /\ is_Some (coordinate st (offset r))) h /\
  (forall i j a b, (i < j)%nat -> h !! i = Some a -> h !! j = Some b ->
     same_stream st (offset a) (offset b)).

Definition record_le (st : string) (a b : StoredCheckpointRecord) : Prop :=
  committed_event_count a <= committed_event_count b /\
  forall c c', coordinate st (offset a) = Some c -> coordinate st (offset b) = Some c' ->
    coord_le c c'.

Lemma accepted_record_le st a b :
  source_type b = st -> same_stream st (offset a) (offset b) -> accepted_next a b ->
  record_le st a b.
Proof.
  intros Hst Hs H. unfold accepted_next, validate_checkpoint_progress in H.
  destruct (Z.ltb_spec (committed_event_count b) (committed_event_count a)); [done|].
  destruct (_ && _); [done|].
  destruct (stream_position_regression _ _ _) eqn:E; [done|].
  split; [lia|]. rewrite Hst in E. intros c c' Hc Hc'.
  by apply (proj1 (regression_spec st (offset a) (offset b)) E).
Qed.

Lemma record_le_chain st a b c :
  is_Some (coordinate st (offset b)) -> record_le st a b -> record_le st b c ->
  record_le st a c.
Proof.
  intros [x Hx] [H1 H2] [H3 H4]. split; [lia|].
  intros ca cc Ha Hc. apply coord_le_trans with x; auto.
Qed.

Lemma one_stream_tail st a h : one_stream st (a :: h) -> one_stream st h.
Proof.
  intros [Hf Hs]. apply Forall_cons in Hf as [_ Hf]. split; [done|].
  intros i j x y Hij Hi Hj. apply (Hs (S i) (S j)); [lia|done|done].
Qed.

Lemma accepted_history_le st a h :
  one_stream st (a :: h) -> Sorted accepted_next (a :: h) -> Forall (record_le st a) h.
Proof.
  revert a. induction h as [|b h IH]; intros a Ho Hs; [constructor|].
  apply Sorted_inv in Hs as [Hs Hab]. inversion_clear Hab.
  pose proof (one_stream_tail _ _ _ Ho) as Hb. destruct Ho as [Hf Hst].
  apply Forall_cons in Hf as [_ [[Hsb Hcb] _]%Forall_cons].
  assert (record_le st a b) by (apply accepted_record_le; [done| |done];
    by apply (Hst 0%nat 1%nat); [lia| |]).
  constructor; [done|]. eapply Forall_impl; [apply IH; done|].
  intros c Hc. by apply record_le_chain with b.
Qed.

(** However many saves the guard accepts one after another for one stream, the
    event counts and the stream coordinates of the whole history never go backwards,
    not only between neighbours. *)
Theorem accepted_history_never_rewinds st h
    (stream : one_stream st h) (accepted : Sorted accepted_next h) :
  StronglySorted (record_le st) h.
Proof.
  induction h as [|a h IH]; constructor.
  - apply IH; [by apply one_stream_tail in stream|by apply Sorted_inv in accepted as []].
  - by apply accepted_history_le.
Qed.

Definition sample_record (file : string) (pos n : Z) : StoredCheckpointRecord :=
  {| source_type := "mysql"; committed_event_count := n;
     offset := JObj [("binlog_file", JStr file); ("binlog_pos", JNum (PosInt (Z.to_N pos)));
                     ("source_flavor", JStr "mysql")] |}.

(** The binlog rotates past the six-digit file names. *)
Lemma accepted_history_never_rewinds_witness :
  StronglySorted (record_le "mysql")
    [sample_record "binlog.999999" 9000 10; sample_record "binlog.1000000" 4 11;
     sample_record "binlog.1000000" 700 12].
Proof.
  apply accepted_history_never_rewinds.
  - split.
    + repeat constructor; eexists; vm_compute; reflexivity.
    + intros i j a b _ Hi Hj.
      assert (Hr : forall k r, [sample_record "binlog.999999" 9000 10;
        sample_record "binlog.1000000" 4 11; sample_record "binlog.1000000" 700 12] !! k = Some r ->
        get "source_flavor" (offset r) = Some (JStr "mysql") /\ get "gtid" (offset r) = None).
      { intros [|[|[|]]] r; simpl; intros [= <-]; split; vm_compute; reflexivity. }
      apply Hr in Hi as [Hi _]. apply Hr in Hj as [Hj Hg].
      split_and!; [done| |done]. intros _. rewrite Hi, Hj, Hg. done.
  - repeat constructor; vm_compute; reflexivity.
Defined.

End Progress.
