(* ===== verification/Glob.v ===== *)
(** * Glob: table-name patterns

    Models [src/src/core/glob.rs] and the include/exclude filter [table_is_allowed] of
    [src/src/source/mod.rs].  [glob_match] is the loop of the source over byte positions
    with one backtrack point; it is proved to terminate within [glob_fuel] iterations and
    to decide the relation [Glob], which says what the wildcards mean. *)

From S2P Require Import Prelude Strs.

Module Glob.

Local Open Scope string_scope.
Local Open Scope nat_scope.

(** ** The code *)

(** One iteration of the loop of [glob_match]: go on with new positions, or return. *)
Inductive Next :=
| Continue (p s : nat) (star : option (nat * nat))
| Return (b : bool).

Definition backtrack (subject : list ascii) (star : option (nat * nat)) : Next :=
  match star with
  | Some (star_p, star_s) =>
      if star_s <? length subject then
        Continue star_p (star_s + 1) (Some (star_p, star_s + 1))
      else Return false
  | None => Return false
  end.

Definition glob_step (pattern subject : list ascii) (p s : nat) (star : option (nat * nat))
    : Next :=
  match pattern !! p with
  | Some byte =>
      if Ascii.eqb byte "*" then Continue (p + 1) s (Some (p + 1, s))
      else if Ascii.eqb byte "?" && (s <? length subject) then Continue (p + 1) (s + 1) star
      else
        match subject !! s with
        | Some c =>
            if ascii_eq_nocase byte c then Continue (p + 1) (s + 1) star
            else backtrack subject star
        | None => backtrack subject star
        end
  | None =>
      if s =? length subject then Return true else backtrack subject star
  end.

Fixpoint glob_loop (fuel : nat) (pattern subject : list ascii) (p s : nat)
    (star : option (nat * nat)) : option bool :=
  match fuel with
  | O => None
  | S fuel' =>
      match glob_step pattern subject p s star with
      | Return b => Some b
      | Continue p' s' star' => glob_loop fuel' pattern subject p' s' star'
      end
  end.

(** Iterations the loop may need: one pass over the pattern per backtrack. *)
Definition glob_fuel (pattern subject : list ascii) : nat :=
  S ((length subject + 2) * (length pattern + 1)).

Definition glob_match (pattern subject : list ascii) : option bool :=
  glob_loop (glob_fuel pattern subject) pattern subject 0 0 None.

Definition glob_segment_matches (pattern subject : string) : bool :=
  if String.eqb pattern "*" then true
  else if negb (contains_char "*" pattern || contains_char "?" pattern) then
    eq_nocase pattern subject
  else
    default false (glob_match (list_ascii_of_string pattern) (list_ascii_of_string subject)).

(** [find('.')] and the slices around it are [split_once]. *)
Definition table_matches (pattern table_key : string) : bool :=
  if String.eqb pattern "*" then true
  else
    match split_once "." pattern, split_once "." table_key with
    | Some (pattern_schema, pattern_table), Some (key_schema, key_table) =>
        glob_segment_matches pattern_schema key_schema
        && glob_segment_matches pattern_table key_table
    | Some _, None => false
    | None, Some (_, key_table) => glob_segment_matches pattern key_table
    | None, None => glob_segment_matches pattern table_key
    end.

Definition is_schema_agnostic (pattern : string) : bool :=
  negb (String.eqb pattern "*") && negb (contains_char "." pattern).

(** [table_is_allowed] *)
Definition table_key (schema : option string) (table : string) : string :=
  match schema with
  | Some sc => if negb (is_empty sc) then sc +:+ "." +:+ table else table
  | None => table
  end.

Definition list_matches (key : string) (l : list string) : bool :=
  existsb (fun entry => negb (is_empty (trim entry)) && table_matches (trim entry) key) l.

Definition table_is_allowed (schema : option string) (table : string)
    (include_list exclude_list : list string) : bool :=
  match include_list, exclude_list with
  | [], [] => true
  | _ :: _, _ => list_matches (table_key schema table) include_list
  | [], _ => negb (list_matches (table_key schema table) exclude_list)
  end.

(** ** What a pattern means *)

Inductive Glob : list ascii -> list ascii -> Prop :=
| Glob_nil : Glob [] []
| Glob_star pat u v : Glob pat v -> Glob ("*"%char :: pat) (u ++ v)
| Glob_any pat c v : Glob pat v -> Glob ("?"%char :: pat) (c :: v)
| Glob_lit pat b c v :
    b <> "*"%char -> ascii_eq_nocase b c = true -> Glob pat v -> Glob (b :: pat) (c :: v).

(** ** Correctness of the loop *)

Section Loop.
Context (pattern subject : list ascii).
Abbreviation m := (length pattern).
Abbreviation n := (length subject).

(** The rest of the pattern matches the rest of the subject. *)
Abbreviation at_ p s := (Glob (drop p pattern) (drop s subject)).

(** What remains to be tried: the current positions, or giving the remembered star
    more. *)
Definition open (p s : nat) (star : option (nat * nat)) : Prop :=
  at_ p s \/
  match star with
  | Some (sp, ss) => exists j, ss < j <= n /\ at_ sp j
  | None => False
  end.

(** Since the remembered star, pattern and subject advanced together, over no star. *)
Definition loop_inv (p s : nat) (star : option (nat * nat)) : Prop :=
  p <= m /\ s <= n /\
  match star with
  | Some (sp, ss) =>
      sp <= p /\ ss <= s /\ p - sp = s - ss /\
      forall k, sp <= k < p -> pattern !! k <> Some "*"%char
  | None => True
  end.

Lemma drop_cons {A} (l : list A) i x : l !! i = Some x -> drop i l = x :: drop (i + 1) l.
Proof. intros H. rewrite Nat.add_1_r. by rewrite <-(drop_S _ _ _ H). Qed.

Lemma at_star p s : pattern !! p = Some "*"%char -> s <= n ->
  (at_ p s <-> exists j, s <= j <= n /\ at_ (p + 1) j).
Proof.
  intros Hp Hs. rewrite (drop_cons _ _ _ Hp). split.
  - inversion 1 as [|pat u v Hv Hpat Huv| |]; simplify_eq.
    exists (s + length u). assert (Hd : drop (length u) (drop s subject) = v)
      by (rewrite <-Huv; apply drop_app_length).
    rewrite drop_drop in Hd. rewrite Hd. split; [|done].
    apply (f_equal length) in Huv. rewrite length_app, length_drop in Huv. lia.
  - intros (j & Hj & Hm). rewrite <-(take_drop (j - s) (drop s subject)).
    constructor. rewrite drop_drop. by replace (s + (j - s)) with j by lia.
Qed.

Lemma drop_cons_inv {A} (l : list A) i x v :
  drop i l = x :: v -> l !! i = Some x /\ drop (i + 1) l = v.
Proof.
  intros H. assert (Hx : l !! i = Some x).
  { rewrite <-(Nat.add_0_r i), <-lookup_drop, H. done. }
  split; [done|]. rewrite (drop_cons _ _ _ Hx) in H. by injection H.
Qed.

(** Where the pattern has no star, a match consumes one byte. *)
Lemma at_byte p s b : pattern !! p = Some b -> b <> "*"%char ->
  (at_ p s <-> exists c, subject !! s = Some c /\ (b = "?"%char \/ ascii_eq_nocase b c = true) /\
     at_ (p + 1) (s + 1)).
Proof.
  intros Hp Hb. rewrite (drop_cons _ _ _ Hp). split.
  - inversion 1 as [|? ? ? ? Heq|? c v Hv Heq Hd|? ? c v ? ? Hv Heq Hd]; simplify_eq;
      symmetry in Hd; apply drop_cons_inv in Hd as [Hc <-]; eauto.
  - intros (c & Hc & Hbc & Hm). rewrite (drop_cons _ _ _ Hc).
    destruct Hbc as [->|Hbc]; [by constructor|by apply Glob_lit].
Qed.

Lemma at_end s : s <= n -> (at_ m s <-> s = n).
Proof.
  intros Hs. rewrite drop_all. split.
  - intros H. destruct (drop s subject) eqn:E; [|by inversion H].
    apply (f_equal length) in E. rewrite length_drop in E. simpl in E. lia.
  - intros ->. rewrite drop_all. constructor.
Qed.

(** Over a star-free stretch, a match advances pattern and subject together. *)
Lemma at_stretch sp j d :
  (forall k, sp <= k < sp + d -> k < m /\ pattern !! k <> Some "*"%char) ->
  at_ sp j -> j + d <= n /\ at_ (sp + d) (j + d) \/ n < j.
Proof.
  intros H Hat. destruct (decide (n < j)) as [|Hj]; [by right|]. left.
  induction d as [|d IH]; [rewrite !Nat.add_0_r; split; [lia|done]|].
  destruct IH as [H1 H2]; [intros k Hk; apply H; lia|].
  destruct (H (sp + d)) as [Hlt Hns]; [lia|].
  destruct (lookup_lt_is_Some_2 pattern (sp + d) Hlt) as [b Hb].
  apply (at_byte _ _ b) in H2 as (c & Hc & _ & H2); [|done|congruence].
  apply lookup_lt_Some in Hc. split; [lia|].
  by replace (sp + S d) with (sp + d + 1) by lia; replace (j + S d) with (j + d + 1) by lia.
Qed.

Lemma backtrack_spec p s star :
  loop_inv p s star -> ~ at_ p s ->
  match backtrack subject star with
  | Return b => b = false /\ ~ open p s star
  | Continue p' s' star' =>
      loop_inv p' s' star' /\ (open p' s' star' <-> open p s star)
  end.
Proof.
  intros (Hp & Hs & Hstar) Hno. unfold backtrack, open, loop_inv.
  destruct star as [[sp ss]|]; [|tauto].
  destruct (Nat.ltb_spec ss n) as [Hlt|Hge].
  - split.
    + split_and!; try lia.
    + split.
      * intros [H|(j & Hj & H)]; right; [exists (ss + 1)|exists j]; (split; [lia|done]).
      * intros [H|(j & Hj & H)]; [done|]. destruct (decide (j = ss + 1)) as [->|]; [by left|].
        right. exists j. split; [lia|done].
  - split; [done|]. intros [H|(j & Hj & _)]; [done|lia].
Qed.

(** Seeing a new star, the old one can be forgotten. *)
Lemma star_spec p s star :
  loop_inv p s star -> pattern !! p = Some "*"%char ->
  loop_inv (p + 1) s (Some (p + 1, s)) /\ (open (p + 1) s (Some (p + 1, s)) <-> open p s star).
Proof.
  intros (Hp & Hs & Hstar) Hc. pose proof (lookup_lt_Some _ _ _ Hc) as Hlt. split.
  { split_and!; try lia. }
  unfold open. rewrite (at_star p s Hc Hs).
  assert (Hnew : at_ (p + 1) s \/ (exists j, s < j <= n /\ at_ (p + 1) j) <->
    exists j, s <= j <= n /\ at_ (p + 1) j).
  { split.
    - intros [H|(j & Hj & H)]; [exists s|exists j]; (split; [lia|done]).
    - intros (j & Hj & H). destruct (decide (j = s)) as [->|]; [by left|].
      right. exists j. split; [lia|done]. }
  rewrite Hnew. split; [by left|]. intros [H|H]; [done|].
  destruct star as [[sp ss]|]; [|done]. destruct H as (j & Hj & H).
  destruct Hstar as (? & ? & Heq & Hfree).
  destruct (at_stretch sp j (p - sp)) as [[Hle Hat]|]; [|done| |lia].
  { intros k Hk. split; [lia|]. apply Hfree. lia. }
  replace (sp + (p - sp)) with p in Hat by lia.
  apply (at_star p _ Hc Hle) in Hat as (j' & Hj' & Hat'). exists j'. split; [lia|done].
Qed.

(** One iteration keeps the invariant and what remains to be tried. *)
Lemma glob_step_spec p s star :
  loop_inv p s star ->
  match glob_step pattern subject p s star with
  | Return b => b = true <-> open p s star
  | Continue p' s' star' => loop_inv p' s' star' /\ (open p' s' star' <-> open p s star)
  end.
Proof.
  intros Hinv. unfold glob_step.
  assert (Hback : ~ at_ p s -> match backtrack subject star with
    | Return b => b = true <-> open p s star
    | Continue p' s' star' => loop_inv p' s' star' /\ (open p' s' star' <-> open p s star) end).
  { intros Hno. pose proof (backtrack_spec p s star Hinv Hno) as H.
    destruct (backtrack subject star); [done|]. destruct H as [-> H]. split; done. }
  assert (Hadvance : forall b c, pattern !! p = Some b -> b <> "*"%char -> subject !! s = Some c ->
    b = "?"%char \/ ascii_eq_nocase b c = true ->
    loop_inv (p + 1) (s + 1) star /\ (open (p + 1) (s + 1) star <-> open p s star)).
  { intros b c Hb Hns Hc Hbc. destruct Hinv as (Hp & Hs & Hstar).
    apply lookup_lt_Some in Hc as Hcl. apply lookup_lt_Some in Hb as Hbl. split.
    - split_and!; [lia..|]. destruct star as [[sp ss]|]; [|done].
      destruct Hstar as (? & ? & ? & Hfree). split_and!; [lia..|].
      intros k Hk. destruct (decide (k = p)) as [->|]; [congruence|]. apply Hfree. lia.
    - unfold open. rewrite (at_byte p s b Hb Hns). split.
      + intros [H|H]; [left; eauto|by right].
      + intros [(c' & Hc' & _ & H)|H]; [by left|by right]. }
  destruct (pattern !! p) as [b|] eqn:Hb.
  - destruct (Ascii.eqb_spec b "*") as [->|Hns]; [by apply star_spec|].
    destruct (Ascii.eqb b "?" && (s <? n)) eqn:Hq.
    + apply andb_true_iff in Hq as [->%Ascii.eqb_eq Hlt%Nat.ltb_lt].
      destruct (lookup_lt_is_Some_2 subject s Hlt) as [c Hc]. eapply Hadvance; eauto.
    + destruct (subject !! s) as [c|] eqn:Hc.
      * destruct (ascii_eq_nocase b c) eqn:Hbc; [eapply Hadvance; eauto|].
        apply Hback. rewrite (at_byte p s b Hb Hns). intros (c' & Hc' & [->|Hbc'] & _); [|congruence].
        apply lookup_lt_Some in Hc. apply andb_false_iff in Hq as [Hq|Hq]; [done|].
        apply Nat.ltb_ge in Hq. lia.
      * apply Hback. rewrite (at_byte p s b Hb Hns). intros (c' & Hc' & _). congruence.
  - assert (p = m) as -> by (apply lookup_ge_None in Hb; destruct Hinv; lia).
    pose proof (at_end s (proj1 (proj2 Hinv))) as He.
    destruct (Nat.eqb_spec s n) as [->|Hne].
    + split; [|done]. intros _. left. by apply He.
    + apply Hback. by rewrite He.
Qed.

(** Iterations left before the loop must return. *)
Definition measure (p : nat) (star : option (nat * nat)) : nat :=
  match star with Some (_, ss) => n - ss | None => n + 1 end * (m + 1) + (m - p).

Lemma glob_step_measure p s star p' s' star' :
  loop_inv p s star -> glob_step pattern subject p s star = Continue p' s' star' ->
  measure p' star' < measure p star.
Proof.
  intros (Hp & Hs & Hstar) E. unfold glob_step, backtrack in E. unfold measure.
  destruct (pattern !! p) as [b|] eqn:Hb.
  - apply lookup_lt_Some in Hb. repeat case_match; simplify_eq; try nia.
    all: zbool; nia.
  - repeat case_match; simplify_eq; zbool; nia.
Qed.

Lemma glob_loop_spec fuel p s star :
  loop_inv p s star -> measure p star < fuel ->
  exists b, glob_loop fuel pattern subject p s star = Some b /\ (b = true <-> open p s star).
Proof.
  revert p s star. induction fuel as [|fuel IH]; intros p s star Hinv Hf; [lia|]. simpl.
  pose proof (glob_step_spec p s star Hinv) as Hstep.
  destruct (glob_step pattern subject p s star) as [p' s' star'|b] eqn:E; [|eauto].
  destruct Hstep as [Hinv' Hopen]. pose proof (glob_step_measure _ _ _ _ _ _ Hinv E).
  destruct (IH p' s' star' Hinv') as (b & Hb & Hbo); [lia|].
  exists b. split; [done|]. by rewrite Hbo, Hopen.
Qed.

End Loop.

(** C20: the matching loop terminates within its bound and decides the wildcard
    semantics, for every pattern and subject: keeping only the most recent star as a
    backtrack point loses no match. *)
Theorem glob_match_decides_Glob pattern subject :
  exists b, glob_match pattern subject = Some b /\ (b = true <-> Glob pattern subject).
Proof.
  destruct (glob_loop_spec pattern subject (glob_fuel pattern subject) 0 0 None)
    as (b & Hb & Hopen).
  - split_and!; [lia..|done].
  - unfold measure, glob_fuel. nia.
  - exists b. split; [done|]. rewrite Hopen. unfold open. rewrite !drop_0. tauto.
Qed.

(** ** Segments and tables *)

Abbreviation bytes := list_ascii_of_string.

Lemma bytes_lower s : bytes (lower s) = map lower_ascii (bytes s).
Proof. induction s; simpl; congruence. Qed.

Lemma bytes_inj s t : bytes s = bytes t -> s = t.
Proof.
  intros H. by rewrite <-(string_of_list_ascii_of_string s), H, string_of_list_ascii_of_string.
Qed.

Lemma ascii_eq_nocase_spec a b : ascii_eq_nocase a b = true <-> lower_ascii a = lower_ascii b.
Proof. apply Ascii.eqb_eq. Qed.

Lemma literal_glob pat sub :
  contains_char "*" pat = false -> contains_char "?" pat = false ->
  (Glob (bytes pat) (bytes sub) <-> lower pat = lower sub).
Proof.
  revert sub. induction pat as [|b pat IH]; intros sub Hs Hq; simpl.
  - split; [|by destruct sub; [constructor|]]. destruct sub; [done|]. by inversion 1.
  - simpl in Hs, Hq. apply orb_false_iff in Hs as [Hb1 Hs], Hq as [Hb2 Hq].
    destruct sub as [|c sub]; simpl; [split; [by inversion 1; simplify_eq|done]|].
    split.
    + inversion 1; simplify_eq. f_equal; [by apply ascii_eq_nocase_spec|by apply IH].
    + intros [= Hbc Hrest]. apply Glob_lit; [by intros ->| |by apply IH].
      by apply ascii_eq_nocase_spec.
Qed.

(** The fast paths agree with the loop. *)
Lemma segment_spec pat sub :
  glob_segment_matches pat sub = true <-> Glob (bytes pat) (bytes sub).
Proof.
  unfold glob_segment_matches. destruct (String.eqb_spec pat "*") as [->|_].
  - split; [|done]. intros _. simpl. rewrite <-(app_nil_r (bytes sub)). by repeat constructor.
  - destruct (contains_char "*" pat || contains_char "?" pat) eqn:E; simpl.
    + destruct (glob_loop_spec (bytes pat) (bytes sub) (glob_fuel (bytes pat) (bytes sub)) 0 0 None)
        as (b & Hb & Hopen); [split_and!; [lia..|done]|unfold measure, glob_fuel; nia|].
      unfold glob_match. rewrite Hb. simpl. rewrite Hopen. unfold open. rewrite !drop_0. tauto.
    + apply orb_false_iff in E as [Hs Hq]. by rewrite eq_nocase_spec, literal_glob.
Qed.

Lemma lower_star a : lower_ascii a = "*"%char <-> a = "*"%char.
Proof. destruct a as [[] [] [] [] [] [] [] []]; vm_compute; split; intros [=]; done. Qed.

Lemma lower_question a : lower_ascii a = "?"%char <-> a = "?"%char.
Proof. destruct a as [[] [] [] [] [] [] [] []]; vm_compute; split; intros [=]; done. Qed.

Lemma Glob_fold pat sub pat' sub' :
  map lower_ascii pat = map lower_ascii pat' -> map lower_ascii sub = map lower_ascii sub' ->
  Glob pat sub -> Glob pat' sub'.
Proof.
  intros Hp Hs H. revert pat' sub' Hp Hs.
  induction H as [|pat u v H IH|pat c v H IH|pat b c v Hb Hc H IH]; intros pat' sub' Hp Hs.
  - destruct pat', sub'; try done. constructor.
  - destruct pat' as [|a pat']; [done|]. injection Hp as Ha Hp.
    symmetry in Ha. change (lower_ascii "*") with "*"%char in Ha. apply lower_star in Ha as ->.
    rewrite <-(take_drop (length u) sub'). constructor. apply IH; [done|].
    change (map lower_ascii) with (fmap (M := list) lower_ascii) in *.
    rewrite fmap_drop, <-Hs, fmap_app. rewrite drop_app_length'; [done|]. by rewrite length_fmap.
  - destruct pat' as [|a pat'], sub' as [|d sub']; try done. injection Hp as Ha Hp.
    injection Hs as _ Hs. symmetry in Ha. change (lower_ascii "?") with "?"%char in Ha.
    apply lower_question in Ha as ->. constructor. by apply IH.
  - destruct pat' as [|a pat'], sub' as [|d sub']; try done. injection Hp as Ha Hp.
    injection Hs as Hd Hs. apply Glob_lit; [|by apply ascii_eq_nocase_spec;
      rewrite <-Ha, <-Hd; apply ascii_eq_nocase_spec|by apply IH].
    intros ->. apply Hb. by apply lower_star.
Qed.

Lemma segment_fold pat sub pat' sub' :
  lower pat = lower pat' -> lower sub = lower sub' ->
  glob_segment_matches pat sub = glob_segment_matches pat' sub'.
Proof.
  intros Hp Hs. apply (f_equal bytes) in Hp, Hs. rewrite !bytes_lower in Hp, Hs.
  apply eq_iff_eq_true. rewrite !segment_spec. split; by apply Glob_fold.
Qed.

(** [split_once] at a character without case commutes with folding. *)
Lemma split_once_fold c s s' :
  (forall a, lower_ascii a = c <-> a = c) -> lower s = lower s' ->
  match split_once c s, split_once c s' with
  | Some (l, r), Some (l', r') => lower l = lower l' /\ lower r = lower r'
  | None, None => True
  | _, _ => False
  end.
Proof.
  intros Hc. revert s'. induction s as [|a s IH]; intros [|a' s']; simpl; try done.
  intros [= Ha Hs]. specialize (IH s' Hs).
  destruct (Ascii.eqb_spec a c) as [->|Hn], (Ascii.eqb_spec a' c) as [->|Hn']; try done.
  - exfalso. apply Hn'. apply Hc. rewrite <-Ha. by apply Hc.
  - exfalso. apply Hn. apply Hc. rewrite Ha. by apply Hc.
  - destruct (split_once c s) as [[l r]|], (split_once c s') as [[l' r']|]; try done.
    destruct IH as [IH1 IH2]. simpl. split; congruence.
Qed.

Lemma lower_dot a : lower_ascii a = "."%char <-> a = "."%char.
Proof. destruct a as [[] [] [] [] [] [] [] []]; vm_compute; split; intros [=]; done. Qed.

Lemma lower_is_star s : lower s = "*" <-> s = "*".
Proof.
  destruct s as [|a [|b s]]; simpl; [done| |done].
  split; intros [= H]; [by rewrite (proj1 (lower_star a) H)|by rewrite H].
Qed.

Lemma table_matches_fold pat key pat' key' :
  lower pat = lower pat' -> lower key = lower key' ->
  table_matches pat key = table_matches pat' key'.
Proof.
  intros Hp Hk. unfold table_matches.
  destruct (String.eqb_spec pat "*") as [->|Hn], (String.eqb_spec pat' "*") as [->|Hn']; try done.
  - destruct Hn'. by apply lower_is_star.
  - destruct Hn. by apply lower_is_star.
  - pose proof (split_once_fold "." pat pat' lower_dot Hp) as H1.
    pose proof (split_once_fold "." key key' lower_dot Hk) as H2.
    destruct (split_once "." pat) as [[ps pt]|], (split_once "." pat') as [[ps' pt']|]; try done;
      destruct (split_once "." key) as [[ks kt]|], (split_once "." key') as [[ks' kt']|]; try done;
      try (by destruct H1, H2; f_equal; apply segment_fold);
      [by destruct H2; apply segment_fold|by apply segment_fold].
Qed.

Lemma whitespace_fold a : is_whitespace (lower_ascii a) = is_whitespace a.
Proof. destruct a as [[] [] [] [] [] [] [] []]; reflexivity. Qed.

Lemma trim_fold s : lower (trim s) = trim (lower s).
Proof.
  unfold trim. assert (H1 : forall s, lower (trim_start s) = trim_start (lower s)).
  { induction s0 as [|a s0 IH]; simpl; [done|]. rewrite whitespace_fold.
    by destruct (is_whitespace a). }
  assert (H2 : forall s, lower (trim_end s) = trim_end (lower s)).
  { induction s0 as [|a s0 IH]; simpl; [done|]. rewrite <-IH, whitespace_fold.
    destruct (trim_end s0); simpl; [by destruct (is_whitespace a)|done]. }
  by rewrite H2, H1.
Qed.

Lemma is_empty_fold s s' : lower s = lower s' -> is_empty s = is_empty s'.
Proof. by destruct s, s'. Qed.

Lemma lower_app s t : lower (s +:+ t) = lower s +:+ lower t.
Proof. induction s as [|a s IH]; simpl; [done|]. by rewrite IH. Qed.

Lemma list_matches_fold key key' l l' :
  lower key = lower key' -> map lower l = map lower l' -> list_matches key l = list_matches key' l'.
Proof.
  intros Hk. revert l'. induction l as [|e l IH]; intros [|e' l'] Hl; try done.
  injection Hl as He Hl. unfold list_matches in *. simpl.
  assert (Ht : lower (trim e) = lower (trim e')) by (rewrite !trim_fold; congruence).
  by rewrite (is_empty_fold _ _ Ht), (table_matches_fold _ _ _ _ Ht Hk), (IH l' Hl).
Qed.

(** Table filtering ignores ASCII case throughout: changing the case of the
    schema, the table or any entry of the lists never changes the decision, whichever
    of the exact, wildcard and qualified paths it takes. *)
Theorem table_is_allowed_ignores_case sc tb inc exc sc' tb' inc' exc'
    (same_schema : lower <$> sc = lower <$> sc') (same_table : lower tb = lower tb')
    (same_include : map lower inc = map lower inc')
    (same_exclude : map lower exc = map lower exc') :
  table_is_allowed sc tb inc exc = table_is_allowed sc' tb' inc' exc'.
Proof.
  assert (Hk : lower (table_key sc tb) = lower (table_key sc' tb')).
  { destruct sc as [x|], sc' as [x'|]; simpl in *; try done.
    assert (Hx : lower x = lower x') by congruence. rewrite (is_empty_fold x x' Hx).
    destruct (is_empty x'); simpl; [done|]. rewrite !lower_app, Hx. simpl. congruence. }
  unfold table_is_allowed. destruct inc, inc'; try done; [|by apply list_matches_fold].
  destruct exc, exc'; try done. f_equal. by apply list_matches_fold.
Qed.

Lemma table_is_allowed_ignores_case_witness :
  table_is_allowed (Some "PUBLIC") "Audit_Log" ["public.audit_*"] []
  = table_is_allowed (Some "public") "AUDIT_LOG" ["Public.AUDIT_*"] [].
Proof. apply table_is_allowed_ignores_case; reflexivity. Defined.

End Glob.
