(* ===== verification/GtidSet.v ===== *)
(** * GtidSet: MySQL GTID sets

    Models [src/src/source/mysql/gtid.rs].  A set maps each lowercased source uuid to
    its coalesced intervals; it is proved to contain exactly the transactions its text
    names, and to be canonical: two texts that name the same transactions parse to equal
    sets. *)

From Stdlib Require Import Sorting.Sorted.
From S2P Require Import Prelude Strs.

Module GtidSet.

Local Open Scope string_scope.
Local Open Scope Z_scope.

(** ** The code *)

Abbreviation intervals := (list (Z * Z)).

(** [GtidSet]: the [sources] map. *)
Abbreviation GtidSet := (gmap string (list (Z * Z))).

(** [sort_unstable] on pairs, in lexicographic order. *)
Definition pair_leb (a b : Z * Z) : bool :=
  (fst a <? fst b) || ((fst a =? fst b) && (snd a <=? snd b)).

Fixpoint insert_pair (a : Z * Z) (l : intervals) : intervals :=
  match l with
  | [] => [a]
  | b :: l' => if pair_leb a b then a :: l else b :: insert_pair a l'
  end.
Definition sort_pairs (l : intervals) : intervals := fold_right insert_pair [] l.

(** The loop body of [coalesce]; [merged] is kept with its last element first. *)
Definition merge_step (merged : intervals) (x : Z * Z) : intervals :=
  match merged with
  | (ps, previous_end) :: rest =>
      if fst x <=? saturating_add previous_end 1 then (ps, Z.max previous_end (snd x)) :: rest
      else x :: merged
  | [] => [x]
  end.

Definition coalesce (l : intervals) : intervals :=
  rev (fold_left merge_step (sort_pairs l) []).

Definition parse_interval (raw : string) : option (Z * Z) :=
  match split_once "-" raw with
  | Some (start, end_) =>
      match parse_u64 start, parse_u64 end_ with
      | Some s, Some e => if e <? s then None else Some (s, e)
      | _, _ => None
      end
  | None => match parse_u64 raw with Some n => Some (n, n) | None => None end
  end.

Fixpoint parse_intervals (parts : list string) : option intervals :=
  match parts with
  | [] => Some []
  | x :: parts' =>
      match parse_interval x, parse_intervals parts' with
      | Some i, Some l => Some (i :: l)
      | _, _ => None
      end
  end.

(** One comma-separated entry: [None] is an error, [Some None] an empty entry. *)
Definition parse_entry (entry : string) : option (option (string * intervals)) :=
  let entry := strip_whitespace entry in
  if is_empty entry then Some None
  else
    match split ":" entry with
    | uuid :: parts =>
        if is_empty uuid then None
        else match parse_intervals parts with
             | Some [] => None
             | Some l => Some (Some (lower uuid, l))
             | None => None
             end
    | [] => None
    end.

Fixpoint parse_entries (entries : list string) (sources : GtidSet) : option GtidSet :=
  match entries with
  | [] => Some sources
  | e :: entries' =>
      match parse_entry e with
      | None => None
      | Some None => parse_entries entries' sources
      | Some (Some (uuid, l)) =>
          parse_entries entries' (<[uuid := (default [] (sources !! uuid) ++ l)%list]> sources)
      end
  end.

Definition parse (raw : string) : option GtidSet :=
  match parse_entries (split "," raw) ∅ with
  | Some sources => Some (coalesce <$> sources)
  | None => None
  end.

(** [slice::binary_search_by] on distinct sorted starts: the index of the match, or the
    index at which one would be inserted. *)
Fixpoint binary_search (l : intervals) (n : Z) : nat + nat :=
  match l with
  | [] => inr 0%nat
  | (s, _) :: l' =>
      if s =? n then inl 0%nat
      else if n <? s then inr 0%nat
      else match binary_search l' n with inl i => inl (S i) | inr i => inr (S i) end
  end.

Definition contains (set : GtidSet) (uuid : string) (seqno : Z) : bool :=
  match set !! lower uuid with
  | None => false
  | Some l =>
      match binary_search l seqno with
      | inl _ => true
      | inr O => false
      | inr (S index) =>
          match l !! index with Some (_, end_) => seqno <=? end_ | None => false end
      end
  end.

Definition split_single_gtid (gtid : string) : option (string * Z) :=
  x ← rsplit_once ":" (trim gtid);
  if is_empty (fst x) then None
  else n ← parse_u64 (snd x); Some (lower (fst x), n).

Definition contains_gtid (set : GtidSet) (gtid : string) : bool :=
  match split_single_gtid gtid with
  | Some (uuid, seqno) => contains set uuid seqno
  | None => false
  end.

(** [GtidSet::is_empty] *)
Definition set_is_empty (set : GtidSet) : bool :=
  forallb (fun kv => match snd kv with [] => true | _ => false end) (map_to_list set).

(** ** Intervals *)

(** The transaction numbers a list of intervals names. *)
Definition mem (l : intervals) (n : Z) : Prop := exists s e, (s, e) ∈ l /\ s <= n <= e.

Definition wf_interval (x : Z * Z) : Prop := 0 <= fst x <= snd x /\ snd x <= u64_max.

(** [a] ends at least two before [b] begins: disjoint and not adjacent. *)
Definition apart (a b : Z * Z) : Prop := snd a + 1 < fst b.

Definition canonical (l : intervals) : Prop := Forall wf_interval l /\ StronglySorted apart l.

Lemma mem_cons s e l n : mem ((s, e) :: l) n <-> s <= n <= e \/ mem l n.
Proof.
  unfold mem. split.
  - intros (s' & e' & [[= -> ->]|Hin]%elem_of_cons & Hn); [by left|right; eauto].
  - intros [Hn|(s' & e' & Hin & Hn)]; [exists s, e|exists s', e']; split; try done; [left|by right].
Qed.

Lemma mem_nil n : ~ mem [] n.
Proof. intros (s & e & []%elem_of_nil & _). Qed.

Lemma mem_perm l l' n : l ≡ₚ l' -> mem l n <-> mem l' n.
Proof. intros Hp. unfold mem. by setoid_rewrite Hp. Qed.

Lemma mem_app l l' n : mem (l ++ l')%list n <-> mem l n \/ mem l' n.
Proof.
  induction l as [|[s e] l IH]; simpl.
  - split; [by right|]. intros [[]%mem_nil|]; done.
  - rewrite !mem_cons, IH. tauto.
Qed.

Lemma insert_pair_perm a l : insert_pair a l ≡ₚ a :: l.
Proof.
  induction l as [|b l IH]; simpl; [done|]. destruct (pair_leb a b); [done|].
  rewrite IH. apply Permutation_swap.
Qed.

Lemma sort_pairs_perm l : sort_pairs l ≡ₚ l.
Proof. induction l as [|a l IH]; simpl; [done|]. by rewrite insert_pair_perm, IH. Qed.

Definition start_le (a b : Z * Z) : Prop := fst a <= fst b.

Lemma sort_pairs_sorted l : StronglySorted start_le (sort_pairs l).
Proof.
  induction l as [|a l IH]; simpl; [constructor|].
  induction IH as [|b l' Hs IHs Hf]; simpl; [by repeat constructor|].
  destruct (pair_leb a b) eqn:E; unfold pair_leb in E.
  - apply orb_true_iff in E. constructor; [by constructor|].
    assert (start_le a b) by (unfold start_le; destruct E; zbool; lia).
    constructor; [done|]. eapply Forall_impl; [exact Hf|]. unfold start_le in *. lia.
  - zbool. constructor; [done|].
    rewrite insert_pair_perm. constructor; [|done]. unfold start_le.
    apply andb_false_iff in H0 as [?|?]; zbool; lia.
Qed.

(** ** Coalescing *)

(** A canonical list under construction, last interval first. *)
Definition building (acc : intervals) : Prop :=
  Forall wf_interval acc /\ StronglySorted (fun a b => apart b a) acc.

Lemma merge_step_spec acc x :
  building acc -> wf_interval x -> (forall h, head acc = Some h -> start_le h x) ->
  building (merge_step acc x) /\ (forall h, head (merge_step acc x) = Some h -> fst h <= fst x) /\
  forall n, mem (merge_step acc x) n <-> mem acc n \/ fst x <= n <= snd x.
Proof.
  intros [Hw Hs] Hx Hh. destruct x as [xs xe], acc as [|[ps pe] rest]; simpl.
  - split; [split; [by apply Forall_singleton|repeat constructor]|]. split; [by intros h [= <-]|].
    intros n. rewrite mem_cons. tauto.
  - specialize (Hh _ eq_refl). unfold start_le in Hh. simpl in Hh.
    apply Forall_cons in Hw as [Hp Hw]. apply StronglySorted_inv in Hs as [Hs Hf].
    unfold wf_interval in *. simpl in *.
    destruct (Z.leb_spec xs (saturating_add pe 1)) as [Hle|Hgt];
      unfold saturating_add in *.
    + split; [|split].
      * split; [constructor; [unfold wf_interval; simpl; lia|done]|constructor; [done|exact Hf]].
      * intros h [= <-]. simpl. lia.
      * intros n. rewrite !mem_cons.
        assert (ps <= n <= Z.max pe xe <-> ps <= n <= pe \/ xs <= n <= xe) by lia. tauto.
    + assert (pe + 1 < xs) by lia. split; [|split].
      * split; [by repeat (constructor; [done|])|].
        constructor; [by constructor|]. constructor; [done|]. eapply Forall_impl; [exact Hf|].
        intros b Hb. unfold apart in *. simpl in *. lia.
      * intros h [= <-]. simpl. lia.
      * intros n. rewrite !mem_cons. tauto.
Qed.

Lemma merge_fold l acc :
  building acc -> Forall wf_interval l -> StronglySorted start_le l ->
  (forall h, head acc = Some h -> Forall (start_le h) l) ->
  building (fold_left merge_step l acc) /\
  forall n, mem (fold_left merge_step l acc) n <-> mem acc n \/ mem l n.
Proof.
  revert acc. induction l as [|[xs xe] l IH]; intros acc Hb Hw Hs Hh; simpl.
  - split; [done|]. intros n. split; [by left|]. intros [|[]%mem_nil]; done.
  - apply Forall_cons in Hw as [Hx Hw]. apply StronglySorted_inv in Hs as [Hs Hf].
    destruct (merge_step_spec acc (xs, xe)) as (Hb' & Hh' & Hm); [done..| |].
    { intros h Hhd. specialize (Hh h Hhd). by apply Forall_cons in Hh as [? _]. }
    destruct (IH (merge_step acc (xs, xe))) as [H1 H2]; [done..| |].
    { intros h Hhd. specialize (Hh' h Hhd). eapply Forall_impl; [exact Hf|].
      intros y Hy. unfold start_le in *. simpl in *. lia. }
    split; [done|]. intros n. rewrite H2, Hm, mem_cons. simpl. tauto.
Qed.

Lemma sorted_snoc {A} (R : A -> A -> Prop) l x :
  StronglySorted R l -> Forall (fun a => R a x) l -> StronglySorted R (l ++ [x])%list.
Proof.
  induction 1 as [|a l Hs IH Hf]; intros Hx; simpl; [by repeat constructor|].
  apply Forall_cons in Hx as [Ha Hx]. constructor; [by apply IH|].
  apply Forall_app. split; [done|by constructor].
Qed.

Lemma building_rev acc : building acc -> canonical (rev acc).
Proof.
  intros [Hw Hs]. split; [by apply Forall_rev|].
  induction Hs as [|a l Hs IH Hf]; simpl; [constructor|].
  apply Forall_cons in Hw as [_ Hw]. apply sorted_snoc; [by apply IH|by apply Forall_rev].
Qed.

Lemma coalesce_spec l :
  Forall wf_interval l -> canonical (coalesce l) /\ forall n, mem (coalesce l) n <-> mem l n.
Proof.
  intros Hw. destruct (merge_fold (sort_pairs l) []) as [Hb Hm].
  - by split; constructor.
  - by rewrite sort_pairs_perm.
  - apply sort_pairs_sorted.
  - done.
  - split; [by apply building_rev|]. intros n. unfold coalesce.
    rewrite (mem_perm _ _ n (Permutation_sym (Permutation_rev _))), Hm.
    rewrite (mem_perm _ _ n (sort_pairs_perm l)). split; [|by right].
    intros [[]%mem_nil|]; done.
Qed.

(** Every member of the rest of a canonical list is past the head. *)
Lemma canonical_inv s e l :
  canonical ((s, e) :: l) -> 0 <= s <= e /\ e <= u64_max /\ canonical l /\
    forall n, mem l n -> e + 1 < n.
Proof.
  intros [[[Hx Hm] Hw]%Forall_cons [Hs Hf]%StronglySorted_inv]. simpl in *.
  split_and!; try lia; [by split|]. intros n (s' & e' & Hin & Hn).
  rewrite Forall_forall in Hf. specialize (Hf _ Hin). unfold apart in Hf. simpl in Hf. lia.
Qed.

Lemma canonical_unique l k :
  canonical l -> canonical k -> (forall n, 0 <= n <= u64_max -> mem l n <-> mem k n) -> l = k.
Proof.
  revert k. induction l as [|[s e] l IH]; intros [|[s' e'] k] Hl Hk Heq; try done.
  - apply canonical_inv in Hk as (? & ? & _). exfalso. apply (mem_nil s').
    apply (Heq s'); [lia|]. apply mem_cons. lia.
  - apply canonical_inv in Hl as (? & ? & _). exfalso. apply (mem_nil s).
    apply (Heq s); [lia|]. apply mem_cons. lia.
  - apply canonical_inv in Hl as (? & ? & Hl & Hpast).
    apply canonical_inv in Hk as (? & ? & Hk & Hpast').
    assert (Hq : forall n, 0 <= n <= u64_max ->
      (s <= n <= e \/ mem l n) <-> (s' <= n <= e' \/ mem k n))
      by (intros n Hn; rewrite <-!mem_cons; by apply Heq).
    assert (s = s').
    { destruct (proj1 (Hq s ltac:(lia))) as [?|?%Hpast']; [lia|..];
      destruct (proj2 (Hq s' ltac:(lia))) as [?|?%Hpast]; lia. }
    assert (e = e').
    { destruct (Z.lt_trichotomy e e') as [?|[?|?]]; [|done|].
      - destruct (proj2 (Hq (e + 1) ltac:(lia))) as [?|?%Hpast]; lia.
      - destruct (proj1 (Hq (e' + 1) ltac:(lia))) as [?|?%Hpast']; lia. }
    subst. f_equal. apply IH; [done..|]. intros n Hn. specialize (Hq n Hn). split.
    + intros Hm. destruct (proj1 Hq) as [?|?]; [by right| |done]. apply Hpast in Hm. lia.
    + intros Hm. destruct (proj2 Hq) as [?|?]; [by right| |done]. apply Hpast' in Hm. lia.
Qed.

(** ** Membership *)

Definition search_contains (l : intervals) (n : Z) : bool :=
  match binary_search l n with
  | inl _ => true
  | inr O => false
  | inr (S index) => match l !! index with Some (_, e) => n <=? e | None => false end
  end.

Lemma search_spec l n : canonical l -> (search_contains l n = true <-> mem l n).
Proof.
  unfold search_contains. induction l as [|[s e] l IH]; intros Hl.
  - split; [done|]. by intros []%mem_nil.
  - apply canonical_inv in Hl as (? & ? & Hl & Hpast). specialize (IH Hl).
    rewrite mem_cons. simpl. destruct (Z.eqb_spec s n) as [->|Hne]; [split; [|done]; left; lia|].
    destruct (Z.ltb_spec n s).
    { split; [done|]. intros [?|?%Hpast]; lia. }
    destruct (binary_search l n) as [i|[|i]] eqn:E; simpl.
    + split; [|done]. intros _. right. by apply IH.
    + rewrite Z.leb_le. split; [lia|]. intros [?|Hm]; [lia|]. by apply IH in Hm.
    + rewrite IH. split; [by right|]. intros [?|Hm]; [|done].
      exfalso. destruct l as [|[s2 e2] l2]; [done|]. simpl in E.
      destruct (s2 =? n); [done|]. destruct (Z.ltb_spec n s2); [done|].
      assert (e + 1 < s2); [|lia]. apply Hpast. exists s2, e2. split; [left|].
      apply canonical_inv in Hl. lia.
Qed.

(** ** Parsing *)

Lemma parse_interval_wf raw x : parse_interval raw = Some x -> wf_interval x.
Proof.
  assert (Hr : forall v n, parse_u64 v = Some n -> 0 <= n <= u64_max)
    by (intros v n Hv; by apply (parse_uint_range u64_max) in Hv).
  unfold parse_interval, wf_interval. destruct (split_once "-" raw) as [[a b]|].
  - destruct (parse_u64 a) as [s|] eqn:Ea; [|done]. destruct (parse_u64 b) as [e|] eqn:Eb; [|done].
    destruct (Z.ltb_spec e s); [done|]. intros [= <-]. apply Hr in Ea, Eb. simpl. lia.
  - destruct (parse_u64 raw) as [n|] eqn:E; [|done]. intros [= <-]. apply Hr in E. simpl. lia.
Qed.

Lemma parse_intervals_spec parts l :
  parse_intervals parts = Some l ->
  Forall wf_interval l /\
  forall n, mem l n <-> exists x s e, x ∈ parts /\ parse_interval x = Some (s, e) /\ s <= n <= e.
Proof.
  revert l. induction parts as [|x parts IH]; intros l; simpl.
  - intros [= <-]. split; [constructor|]. intros n. split; [by intros []%mem_nil|].
    intros (x & s & e & []%elem_of_nil & _).
  - destruct (parse_interval x) as [[s e]|] eqn:Ex; [|done].
    destruct (parse_intervals parts) as [l'|]; [|done]. intros [= <-].
    destruct (IH l' eq_refl) as [Hw Hm].
    split; [constructor; [by apply (parse_interval_wf x)|done]|].
    intros n. rewrite mem_cons, Hm. split.
    + intros [Hn|(y & s' & e' & Hy & ?)]; [exists x, s, e|exists y, s', e'];
        (split; [|done]); [left|by right].
    + intros (y & s' & e' & [->|Hy]%elem_of_cons & Hp & Hn).
      * rewrite Ex in Hp. injection Hp as <- <-. by left.
      * right. eauto 6.
Qed.

(** The text names transaction [n] of source [u]. *)
Definition names (raw u : string) (n : Z) : Prop :=
  exists entry uuid parts x s e,
    entry ∈ split "," raw /\ split ":" (strip_whitespace entry) = uuid :: parts /\
    strip_whitespace entry <> "" /\ lower uuid = lower u /\
    x ∈ parts /\ parse_interval x = Some (s, e) /\ s <= n <= e.

(** What an entry contributes to a source. *)
Definition entry_names (entry k : string) (n : Z) : Prop :=
  exists l, parse_entry entry = Some (Some (k, l)) /\ mem l n.

Lemma parse_entry_wf entry k l :
  parse_entry entry = Some (Some (k, l)) ->
  Forall wf_interval l /\ l <> [] /\ lower k = k /\
  exists uuid parts, split ":" (strip_whitespace entry) = uuid :: parts /\
    strip_whitespace entry <> "" /\ k = lower uuid /\ parse_intervals parts = Some l.
Proof.
  unfold parse_entry. cbv zeta. unfold is_empty at 1.
  destruct (String.eqb_spec (strip_whitespace entry) ""); [done|].
  destruct (split ":" (strip_whitespace entry)) as [|uuid parts]; [done|].
  destruct (is_empty uuid); [done|].
  destruct (parse_intervals parts) as [[|i l']|] eqn:E; [done| |done].
  intros [= <- <-]. split; [by apply (parse_intervals_spec parts)|].
  split; [done|]. split; [apply lower_idem|]. eauto 6.
Qed.

(** Sources being collected: well-formed intervals, at least one each, lowercase keys. *)
Definition wf_sources (src : GtidSet) : Prop :=
  map_Forall (fun k l => Forall wf_interval l /\ l <> [] /\ lower k = k) src.

Lemma parse_entries_spec es src src' :
  parse_entries es src = Some src' -> wf_sources src ->
  wf_sources src' /\
  forall k n, mem (default [] (src' !! k)) n <->
    mem (default [] (src !! k)) n \/ exists e, e ∈ es /\ entry_names e k n.
Proof.
  revert src. induction es as [|e es IH]; intros src; simpl.
  - intros [= <-] Hw. split; [done|]. intros k n. split; [by left|].
    intros [|(e & []%elem_of_nil & _)]; done.
  - destruct (parse_entry e) as [[[u l]|]|] eqn:Ee; [| |done].
    + intros Hp Hw. pose proof (parse_entry_wf _ _ _ Ee) as (Hl & Hne & Hlow & _).
      destruct (IH _ Hp) as [Hw' Hm].
      { apply map_Forall_insert_2; [|done]. split_and!; [|by destruct (default [] (src !! u))|done].
        apply Forall_app. split; [|done].
        destruct (src !! u) as [l0|] eqn:Eu; [|constructor]. by apply (Hw u l0 Eu). }
      split; [done|]. intros k n. rewrite Hm.
      destruct (decide (k = u)) as [->|Hk].
      * rewrite lookup_insert_eq. simpl. rewrite mem_app. split.
        -- intros [[?|?]|(e' & ? & ?)]; [by left|right|right; exists e'; split; [by right|done]].
           exists e. split; [left|]. by exists l.
        -- intros [?|(e' & [->|He']%elem_of_cons & Hn)]; [by left; left| |right; eauto].
           destruct Hn as (l' & El' & Hn). left. right. by simplify_eq.
      * rewrite lookup_insert_ne by done. split.
        -- intros [?|(e' & ? & ?)]; [by left|right; exists e'; split; [by right|done]].
        -- intros [?|(e' & [->|He']%elem_of_cons & Hn)]; [by left| |right; eauto].
           destruct Hn as (l' & El' & Hn). by simplify_eq.
    + intros Hp Hw. destruct (IH _ Hp Hw) as [Hw' Hm]. split; [done|]. intros k n. rewrite Hm.
      split.
      * intros [?|(e' & ? & ?)]; [by left|right; exists e'; split; [by right|done]].
      * intros [?|(e' & [->|He']%elem_of_cons & Hn)]; [by left| |right; eauto].
        destruct Hn as (l' & El' & Hn). by simplify_eq.
Qed.

Lemma parse_entries_ok es src src' :
  parse_entries es src = Some src' -> Forall (fun e => is_Some (parse_entry e)) es.
Proof.
  revert src. induction es as [|e es IH]; intros src; simpl; [by constructor|].
  destruct (parse_entry e) as [[[u l]|]|] eqn:E; [| |done]; intros H; constructor; eauto.
Qed.

Lemma entry_names_intro e uuid parts x s n e' :
  is_Some (parse_entry e) -> split ":" (strip_whitespace e) = uuid :: parts ->
  strip_whitespace e <> "" -> x ∈ parts -> parse_interval x = Some (s, e') -> s <= n <= e' ->
  entry_names e (lower uuid) n.
Proof.
  intros [r Hr] Hs Hne Hx Hi Hn. unfold entry_names. revert Hr. unfold parse_entry. cbv zeta.
  assert (Hemp : is_empty (strip_whitespace e) = false) by (by apply String.eqb_neq).
  rewrite Hemp, Hs. destruct (is_empty uuid); [done|].
  destruct (parse_intervals parts) as [l|] eqn:E; [|done].
  assert (Hm : mem l n) by (apply (parse_intervals_spec parts l E); eauto 6).
  destruct l as [|i l]; [by apply mem_nil in Hm|]. intros _. by exists (i :: l).
Qed.

Lemma parse_wf raw set :
  parse raw = Some set ->
  map_Forall (fun k l => canonical l /\ l <> [] /\ lower k = k) set /\
  forall u n, mem (default [] (set !! lower u)) n <-> names raw u n.
Proof.
  unfold parse. destruct (parse_entries (split "," raw) ∅) as [src|] eqn:E; [|done].
  intros [= <-]. pose proof (parse_entries_ok _ _ _ E) as Hok. rewrite Forall_forall in Hok.
  apply parse_entries_spec in E as [Hw Hm]; [|apply map_Forall_empty]. split.
  - intros k l Hk. rewrite lookup_fmap in Hk.
    destruct (src !! k) as [l0|] eqn:Es; [|done]. injection Hk as <-.
    destruct (Hw k l0 Es) as (Hf & Hne & Hlow). destruct (coalesce_spec l0 Hf) as [Hc Hmem].
    split_and!; [done| |done]. intros Hnil. rewrite Hnil in Hmem.
    destruct l0 as [|[s e] l0]; [done|]. apply Forall_cons in Hf as [Hse _].
    apply (mem_nil s), Hmem, mem_cons. left. unfold wf_interval in Hse. simpl in Hse. lia.
  - intros u n. rewrite lookup_fmap.
    transitivity (mem (default [] (src !! lower u)) n).
    + destruct (src !! lower u) as [l0|] eqn:Es; simpl; [|done].
      apply coalesce_spec, (Hw _ _ Es).
    + rewrite Hm. rewrite lookup_empty. simpl. split.
      * intros [[]%mem_nil|(e & He & l & El & Hn)].
        apply parse_entry_wf in El as (_ & _ & _ & uuid & parts & Hs & Hne & Hk & Hp).
        apply (parse_intervals_spec parts l Hp) in Hn as (x & s & e' & Hx & Hi & Hn).
        exists e, uuid, parts, x, s, e'. split_and!; try done; lia.
      * intros (e & uuid & parts & x & s & e' & He & Hs & Hne & Hu & Hx & Hi & Hn). right.
        exists e. split; [done|]. rewrite <-Hu. by apply (entry_names_intro e uuid parts x s n e'); auto.
Qed.

(** A parsed GTID set contains exactly the transactions its text names: intervals
    are inclusive, sources are compared without case, and sorting, coalescing and the
    search lose and add nothing. *)
Theorem gtid_contains_exactly raw set (parsed : parse raw = Some set) (u : string) (n : Z) :
  contains set u n = true <-> names raw u n.
Proof.
  destruct (parse_wf raw set parsed) as [Hw Hm]. rewrite <-Hm. unfold contains.
  destruct (set !! lower u) as [l|] eqn:E; simpl.
  - apply search_spec, (Hw _ _ E).
  - split; [done|]. by intros []%mem_nil.
Qed.

Lemma gtid_contains_exactly_witness :
  contains (default ∅ (parse "AB:1-5:7:6,ab:20-21")) "Ab" 7 = true <->
  names "AB:1-5:7:6,ab:20-21" "Ab" 7.
Proof.
  apply (gtid_contains_exactly "AB:1-5:7:6,ab:20-21"). vm_compute. reflexivity.
Defined.

Lemma contains_mem set u n :
  map_Forall (fun k l => canonical l /\ l <> [] /\ lower k = k) set ->
  (contains set u n = true <-> mem (default [] (set !! lower u)) n).
Proof.
  intros Hw. unfold contains. destruct (set !! lower u) as [l|] eqn:E; simpl.
  - apply search_spec, (Hw _ _ E).
  - split; [done|]. by intros []%mem_nil.
Qed.

(** The representation is canonical: two texts whose sets answer every membership
    question alike parse to equal sets, however the server grouped, ordered or cased
    them. *)
Theorem gtid_set_canonical raw raw' set set'
    (parsed : parse raw = Some set) (parsed' : parse raw' = Some set')
    (same : forall u n, 0 <= n <= u64_max -> contains set u n = contains set' u n) :
  set = set'.
Proof.
  destruct (parse_wf raw set parsed) as [Hw _], (parse_wf raw' set' parsed') as [Hw' _].
  assert (Hmem : forall k n, lower k = k -> 0 <= n <= u64_max ->
    mem (default [] (set !! k)) n <-> mem (default [] (set' !! k)) n).
  { intros k n Hk Hn. rewrite <-Hk, <-!contains_mem by done. by rewrite same. }
  apply map_eq. intros k.
  destruct (set !! k) as [l|] eqn:E, (set' !! k) as [l'|] eqn:E'; try done.
  - destruct (Hw k l E) as (Hc & _ & Hk), (Hw' k l' E') as (Hc' & _ & _). f_equal.
    apply canonical_unique; [done..|]. intros n Hn. specialize (Hmem k n Hk Hn).
    by rewrite E, E' in Hmem.
  - exfalso. destruct (Hw k l E) as (Hc & Hne & Hk). destruct l as [|[s e] l]; [done|].
    apply canonical_inv in Hc as (? & ? & _). specialize (Hmem k s Hk ltac:(lia)).
    rewrite E, E' in Hmem. apply (mem_nil s), Hmem, mem_cons. lia.
  - exfalso. destruct (Hw' k l' E') as (Hc & Hne & Hk). destruct l' as [|[s e] l']; [done|].
    apply canonical_inv in Hc as (? & ? & _). specialize (Hmem k s Hk ltac:(lia)).
    rewrite E, E' in Hmem. apply (mem_nil s), Hmem, mem_cons. lia.
Qed.

Lemma gtid_set_canonical_witness :
  default ∅ (parse "a:1-5:6-9") = default ∅ (parse "A:3-9,a:1-4").
Proof.
  apply (gtid_set_canonical "a:1-5:6-9" "A:3-9,a:1-4"); [vm_compute; reflexivity..|].
  intros u n _. replace (default ∅ (parse "a:1-5:6-9")) with (default ∅ (parse "A:3-9,a:1-4"));
    [done|vm_compute; reflexivity].
Defined.

End GtidSet.
