(* ===== verification/Event.v ===== *)
(** * Event: the canonical event envelope

    Models [src/src/core/event.rs]: operations, the [Event] struct with its defaults,
    validation, the primary key of an event, and [row_write], the write a sink performs
    for it.  The specification is a table of rows: a write is correct when it turns the
    target into what the source's change made of the source table. *)

From S2P Require Import Prelude Errors Strs Json.

Module Event.

Local Open Scope string_scope.
Local Open Scope Z_scope.

(** ** Data *)

Definition EVENT_ENVELOPE_VERSION : Z := 1.

Inductive Operation := Insert | Update | Delete | Read | SchemaChange | Truncate.

#[global] Instance Operation_eq_dec : EqDecision Operation.
Proof. solve_decision. Defined.

(** [Operation::to_str] and [FromStr] *)
Definition to_str (op : Operation) : string :=
  match op with
  | Insert => "insert"
  | Update => "update"
  | Delete => "delete"
  | Read => "read"
  | SchemaChange => "schema_change"
  | Truncate => "truncate"
  end.

Definition from_str (s : string) : Res Operation :=
  if String.eqb s "insert" then Ok Insert
  else if String.eqb s "update" then Ok Update
  else if String.eqb s "delete" then Ok Delete
  else if String.eqb s "read" then Ok Read
  else if String.eqb s "schema_change" then Ok SchemaChange
  else if String.eqb s "truncate" then Ok Truncate
  else Err (ValidationError ["unknown operation"]).

Definition is_data_change (op : Operation) : bool :=
  match op with Insert | Update | Delete => true | _ => false end.

Record SourceMetadata := {
  source_name : string;
  offset : string;
  timestamp : Z;
}.

Record SnapshotMetadata := {
  snapshot_id : string;
  chunk_index : Z;
  is_last_chunk : bool;
}.

Record TransactionMetadata := {
  tx_id : Z;
  total_events : option Z;
  event_index : Z;
}.

Record Event := {
  before : option json;
  after : option json;
  op : Operation;
  source : SourceMetadata;
  ts : Z;
  schema : option string;
  table : string;
  primary_key : option (list string);
  snapshot : option SnapshotMetadata;
  transaction : option TransactionMetadata;
  envelope_version : Z;
  before_is_key_only : bool;
  unavailable_columns : list string;
  before_unavailable_columns : list string;
}.

(** [#[derive(PartialEq)]] *)
#[global] Instance SourceMetadata_eq_dec : EqDecision SourceMetadata.
Proof. solve_decision. Defined.
#[global] Instance SnapshotMetadata_eq_dec : EqDecision SnapshotMetadata.
Proof. solve_decision. Defined.
#[global] Instance TransactionMetadata_eq_dec : EqDecision TransactionMetadata.
Proof. solve_decision. Defined.
#[global] Instance Event_eq_dec : EqDecision Event.
Proof. solve_decision. Defined.

(** [Event::builder(table, op)], the event before any of the setters. *)
Definition builder (t : string) (o : Operation) : Event :=
  {| before := None; after := None; op := o;
     source := {| source_name := ""; offset := ""; timestamp := 0 |}; ts := 0; schema := None;
     table := t; primary_key := None; snapshot := None; transaction := None;
     envelope_version := EVENT_ENVELOPE_VERSION; before_is_key_only := false;
     unavailable_columns := []; before_unavailable_columns := [] |}.

(** [Event::default] *)
Definition default_event : Event := builder "" Insert.

Inductive NoRowWrite := NoSchemaChange | MissingPayload | MissingPrimaryKey.

Inductive RowWrite :=
| Replace (key : option json) (row : json)
| Merge (key columns : json) (unavailable : list string)
| DeleteRow (key : json)
| TruncateTable
| NoWrite (reason : NoRowWrite).

(** [RowWrite::is_partial] *)
Definition is_partial (w : RowWrite) : bool := match w with Merge _ _ _ => true | _ => false end.

(** ** Operations *)

(** The row image the key is read from. *)
Definition key_row (e : Event) : option json :=
  match op e with
  | Delete => before e
  | _ => match after e with Some a => Some a | None => before e end
  end.

(** The loop of [primary_key_values]. *)
Fixpoint collect_key (keys : list string) (obj : object) (result : object) : option object :=
  match keys with
  | [] => Some result
  | k :: keys' =>
      v ← obj_get k obj;
      collect_key keys' obj (obj_insert k v result)
  end.

Definition primary_key_values (e : Event) : option json :=
  keys ← primary_key e;
  match keys with
  | [] => None
  | _ =>
      row ← key_row e;
      obj ← as_object row;
      result ← collect_key keys obj [];
      Some (JObj result)
  end.

Definition has_resolvable_key (e : Event) : bool :=
  match primary_key e with
  | None => false
  | Some [] => false
  | Some keys =>
      match row ← key_row e; as_object row with
      | None => false
      | Some obj => forallb (fun k => contains_key k obj) keys
      end
  end.

Definition declares_key (e : Event) : bool :=
  match primary_key e with Some (_ :: _) => true | _ => false end.

Definition row_write (e : Event) : RowWrite :=
  match op e with
  | Truncate => TruncateTable
  | SchemaChange => NoWrite NoSchemaChange
  | Delete =>
      match primary_key_values e with
      | Some key => DeleteRow key
      | None => NoWrite MissingPrimaryKey
      end
  | Insert | Update | Read =>
      match after e with
      | None => NoWrite MissingPayload
      | Some row =>
          match unavailable_columns e with
          | [] => Replace (primary_key_values e) row
          | _ =>
              match primary_key_values e with
              | Some key => Merge key row (unavailable_columns e)
              | None => NoWrite MissingPrimaryKey
              end
          end
      end
  end.

Definition has_complete_after_image (e : Event) : bool :=
  match unavailable_columns e with [] => true | _ => false end.

Definition qualified_table_name (e : Event) : string :=
  match schema e with
  | Some sc => if negb (is_empty sc) then sc +:+ "." +:+ table e else table e
  | None => table e
  end.

Definition has_full_before (e : Event) : bool :=
  match before e with Some _ => negb (before_is_key_only e) | None => false end.

(** *** Validation *)

Definition is_some {A} (o : option A) : bool := match o with Some _ => true | None => false end.
Definition when (b : bool) (f : string) : list string := if b then [f] else [].

Definition contradicts (columns : list string) (row : option json) : bool :=
  match r ← row; as_object r with
  | None => false
  | Some obj => existsb (fun c => contains_key c obj) columns
  end.

Definition no_columns (l : list string) : bool := match l with [] => true | _ => false end.

(** The fields of the violated constraints, in the order [validate] reports them. *)
Definition validate (e : Event) : list string :=
  when (is_empty (trim (table e))) "table" ++
  when (ts e =? 0) "ts" ++
  when (negb (envelope_version e =? EVENT_ENVELOPE_VERSION)) "envelope_version" ++
  when (is_empty (trim (source_name (source e)))) "source.source_name" ++
  (match op e with
   | Insert => when (negb (is_some (after e))) "after" ++ when (is_some (before e)) "before"
   | Update =>
       when (negb (is_some (after e))) "after" ++ when (negb (is_some (before e))) "before"
   | Delete => when (negb (is_some (before e))) "before" ++ when (is_some (after e)) "after"
   | Read | SchemaChange => when (negb (is_some (after e))) "after"
   | Truncate => when (is_some (before e)) "before" ++ when (is_some (after e)) "after"
   end) ++
  (match transaction e with
   | Some t =>
       match total_events t with
       | Some total =>
           when (total =? 0) "transaction.total_events" ++
           when (total <=? event_index t) "transaction.event_index"
       | None => []
       end
   | None => []
   end) ++
  when (before_is_key_only e && negb (bool_decide (op e = Update))
        && negb (bool_decide (op e = Delete))) "before_is_key_only" ++
  when (before_is_key_only e && negb (is_some (before e))) "before_is_key_only" ++
  when (contradicts (unavailable_columns e) (after e)) "unavailable_columns" ++
  when (contradicts (before_unavailable_columns e) (before e)) "before_unavailable_columns" ++
  when (before_is_key_only e && negb (no_columns (before_unavailable_columns e)))
    "before_unavailable_columns" ++
  when (match op e with Truncate | SchemaChange => true | _ => false end
        && negb (no_columns (unavailable_columns e)
                 && no_columns (before_unavailable_columns e))) "unavailable_columns".

(** [validate_or_error] *)
Definition validate_or_error (e : Event) : Res unit :=
  match validate e with [] => Ok tt | errors => Err (ValidationError errors) end.

(** [EventBuilder::build_validated] *)
Definition build_validated (e : Event) : Res Event :=
  match validate e with [] => Ok e | errors => Err (ValidationError errors) end.

(** ** Keys *)

Lemma to_str_from_str o : from_str (to_str o) = Ok o.
Proof. by destruct o. Qed.

Lemma collect_key_some keys obj acc :
  is_Some (collect_key keys obj acc) <-> forallb (fun k => contains_key k obj) keys = true.
Proof.
  revert acc. induction keys as [|k keys IH]; intros acc; simpl; [by split|].
  unfold contains_key at 1. destruct (obj_get k obj) as [v|]; simpl; [apply IH|].
  split; [by intros []|done].
Qed.

Lemma collect_key_get keys obj acc res k :
  collect_key keys obj acc = Some res ->
  obj_get k res = if bool_decide (k ∈ keys) then obj_get k obj else obj_get k acc.
Proof.
  revert acc. induction keys as [|x keys IH]; intros acc; simpl; [by intros [= <-]|].
  destruct (obj_get x obj) as [v|] eqn:E; [|done]. simpl. intros H.
  rewrite (IH _ H), obj_get_insert.
  destruct (decide (k = x)) as [->|Hne].
  - rewrite (bool_decide_eq_true_2 (x ∈ x :: keys)) by left. by case_bool_decide.
  - repeat case_bool_decide; try done; exfalso.
    + apply H1. by right.
    + apply H0. by apply elem_of_cons in H1 as [?|?].
Qed.

(** The allocation-free key test answers exactly whether a key would be built. *)
Theorem has_resolvable_key_iff e :
  has_resolvable_key e = true <-> is_Some (primary_key_values e).
Proof.
  unfold has_resolvable_key, primary_key_values.
  destruct (primary_key e) as [[|k keys]|]; simpl; try (by split; [|intros []]).
  destruct (key_row e) as [row|]; simpl; [|by split; [|intros []]].
  destruct (as_object row) as [obj|]; simpl; [|by split; [|intros []]].
  pose proof (collect_key_some (k :: keys) obj []) as H. simpl in H. rewrite <-H.
  destruct (obj_get k obj); simpl; [|by split; intros []].
  destruct (collect_key keys obj _); simpl; [by split; eauto|by split; intros []].
Qed.

(** A built key has every declared column with its value, and nothing else. *)
Lemma primary_key_values_get e res :
  primary_key_values e = Some (JObj res) ->
  exists keys row obj, primary_key e = Some keys /\ key_row e = Some row /\
    as_object row = Some obj /\
    forall k, obj_get k res = if bool_decide (k ∈ keys) then obj_get k obj else None.
Proof.
  unfold primary_key_values. destruct (primary_key e) as [[|k keys]|]; try done. simpl.
  destruct (key_row e) as [row|]; [|done]. simpl.
  destruct (as_object row) as [obj|] eqn:Eo; [|done]. simpl.
  destruct (obj_get k obj) as [v|] eqn:E; [|done]. simpl.
  destruct (collect_key keys obj _) as [r|] eqn:Ec; [|done]. intros [= <-].
  exists (k :: keys), row, obj. split_and!; try done. intros c.
  apply (collect_key_get (k :: keys) obj [] r c). simpl. by rewrite E.
Qed.

(** ** Tables

    A table maps a key (the object of its key columns) to a row.  Rows are compared
    column by column. *)

Definition Table : Type := json -> option object.

Definition row_eq (a b : object) : Prop := forall c, obj_get c a = obj_get c b.
Definition table_eq (s t : Table) : Prop := forall k,
  match s k, t k with
  | Some a, Some b => row_eq a b
  | None, None => True
  | _, _ => False
  end.

Definition put (k : json) (r : option object) (t : Table) : Table :=
  fun k' => if decide (k' = k) then r else t k'.

(** [UPDATE ... SET columns]: the listed columns win, the others keep their value. *)
Definition merge_row (columns row : object) : object :=
  fold_right (fun kv acc => obj_insert (fst kv) (snd kv) acc) row columns.

(** What a sink does with a keyed write. *)
Definition apply_write (w : RowWrite) (t : Table) : Table :=
  match w with
  | Replace (Some key) (JObj row) => put key (Some row) t
  | Merge key (JObj columns) _ =>
      match t key with
      | Some row => put key (Some (merge_row columns row)) t
      | None => t
      end
  | DeleteRow key => put key None t
  | TruncateTable => fun _ => None
  | _ => t
  end.

(** The key of a row, over the key columns. *)
Definition key_of (keys : list string) (row : object) : option json :=
  match keys with [] => None | _ => JObj <$> collect_key keys row [] end.

(** ** What an event says about the source

    A change of the source table, and the event that reports it.  An update may leave
    columns out of [after] when it did not modify them. *)
Inductive reports (keys : list string) : Event -> Table -> Table -> Prop :=
| reports_insert e t row k :
    op e = Insert \/ op e = Read -> primary_key e = Some keys ->
    after e = Some (JObj row) -> unavailable_columns e = [] -> key_of keys row = Some k ->
    reports keys e t (put k (Some row) t)
| reports_update e t old new shown k :
    op e = Update -> primary_key e = Some keys -> after e = Some (JObj shown) ->
    t k = Some old -> key_of keys new = Some k ->
    (forall c, c ∈ keys -> ~ c ∈ unavailable_columns e) ->
    (forall c, is_Some (obj_get c old) <-> is_Some (obj_get c new)) ->
    (forall c, c ∈ unavailable_columns e ->
       obj_get c shown = None /\ obj_get c new = obj_get c old) ->
    (forall c, ~ c ∈ unavailable_columns e -> obj_get c shown = obj_get c new) ->
    reports keys e t (put k (Some new) t)
| reports_delete e t row k :
    op e = Delete -> primary_key e = Some keys -> before e = Some (JObj row) ->
    key_of keys row = Some k -> reports keys e t (put k None t)
| reports_truncate e t :
    op e = Truncate -> reports keys e t (fun _ => None)
| reports_ddl e t :
    op e = SchemaChange -> reports keys e t t.

Lemma merge_row_get columns row c :
  obj_get c (merge_row columns row)
  = match obj_get c columns with Some v => Some v | None => obj_get c row end.
Proof.
  unfold merge_row. induction columns as [|[k v] columns IH]; simpl; [done|].
  rewrite obj_get_insert, IH. destruct (decide (c = k)) as [->|Hne].
  - by rewrite String.eqb_refl.
  - by destruct (String.eqb_spec c k).
Qed.

Lemma collect_key_ext keys a b acc :
  (forall c, c ∈ keys -> obj_get c a = obj_get c b) ->
  collect_key keys a acc = collect_key keys b acc.
Proof.
  revert acc. induction keys as [|k keys IH]; intros acc H; simpl; [done|].
  rewrite (H k) by left. destruct (obj_get k b); simpl; [|done].
  apply IH. intros c Hc. apply H. by right.
Qed.

Lemma primary_key_values_key_of e keys row :
  primary_key e = Some keys -> key_row e = Some (JObj row) ->
  primary_key_values e = key_of keys row.
Proof.
  intros Hk Hr. unfold primary_key_values, key_of. rewrite Hk. simpl. destruct keys; [done|].
  rewrite Hr. simpl. destruct (obj_get s row); simpl; [|done].
  by destruct (collect_key keys row _).
Qed.

Lemma row_eq_refl a : row_eq a a.
Proof. done. Qed.

Lemma table_eq_refl t : table_eq t t.
Proof. intros k. by destruct (t k). Qed.

Lemma put_eq k a b t : row_eq a b -> table_eq (put k (Some a) t) (put k (Some b) t).
Proof.
  intros H k'. unfold put. destruct (decide (k' = k)); [done|]. by destruct (t k').
Qed.

(** A sink that applies [row_write] reproduces the source.  From a target equal to
    the source table, the write of an event that reports a change which keeps the key
    of the row turns the target into the source table after the change; columns the
    event could not supply keep their value. *)
Theorem row_write_reproduces_source keys e t t' (reported : reports keys e t t') :
  table_eq (apply_write (row_write e) t) t'.
Proof.
  destruct reported as [e t row k Hop Hk Ha Hu Hkey
    |e t old new shown k Hop Hk Ha Ht Hkey Hav Hcols Hun Hsh
    |e t row k Hop Hk Hb Hkey|e t Hop|e t Hop]; unfold row_write.
  - assert (Hrow : key_row e = Some (JObj row))
      by (unfold key_row; rewrite Ha; by destruct Hop as [-> | ->]).
    assert (Hpk : primary_key_values e = Some k)
      by (by rewrite (primary_key_values_key_of e keys row)).
    rewrite Ha, Hu, Hpk. destruct Hop as [-> | ->]; apply table_eq_refl.
  - assert (Hrow : key_row e = Some (JObj shown)) by (unfold key_row; by rewrite Hop, Ha).
    assert (Hpk : primary_key_values e = Some k).
    { rewrite (primary_key_values_key_of e keys shown) by done. rewrite <-Hkey. unfold key_of.
      destruct keys; [done|]. f_equal. apply collect_key_ext. intros c Hc. by apply Hsh, Hav. }
    rewrite Hop, Ha, Hpk. destruct (unavailable_columns e) as [|u us] eqn:Eu.
    + simpl. apply put_eq. intros c. apply Hsh. intros []%elem_of_nil.
    + simpl. rewrite Ht. apply put_eq. intros c. rewrite merge_row_get.
      destruct (decide (c ∈ u :: us)) as [Hin|Hout].
      * destruct (Hun c Hin) as [-> ->]. done.
      * rewrite (Hsh c Hout). destruct (obj_get c new) eqn:En; [done|].
        destruct (obj_get c old) eqn:Eo; [|done].
        destruct (proj1 (Hcols c)); [by rewrite Eo|congruence].
  - rewrite Hop, (primary_key_values_key_of e keys row); [|done|unfold key_row; by rewrite Hop].
    rewrite Hkey. simpl. apply table_eq_refl.
  - rewrite Hop. simpl. intros k. done.
  - rewrite Hop. simpl. apply table_eq_refl.
Qed.

(** An update that changes the key leaves the old row behind.  The write is addressed
    by the new key only, so a target that held the row under the old key still holds it
    there afterwards, next to the new one. *)
Theorem key_change_leaves_old_row e t keys new old_row old_key new_key
    (is_update : op e = Update) (declared : primary_key e = Some keys)
    (complete : after e = Some (JObj new) /\ unavailable_columns e = [])
    (new_has_key : key_of keys new = Some new_key) (key_changed : old_key <> new_key)
    (held : t old_key = Some old_row) :
  apply_write (row_write e) t old_key = Some old_row /\
  apply_write (row_write e) t new_key = Some new.
Proof.
  destruct complete as [Ha Hu]. unfold row_write. rewrite is_update, Ha, Hu.
  rewrite (primary_key_values_key_of e keys new), new_has_key;
    [|done|unfold key_row; by rewrite is_update, Ha].
  simpl. unfold put. by rewrite decide_False, decide_True by done.
Qed.

(** ** Validated events *)

Lemma when_nil b f : when b f = [] <-> b = false.
Proof. by destruct b. Qed.

Lemma no_contradiction columns row c :
  contradicts columns (Some (JObj row)) = false -> c ∈ columns -> obj_get c row = None.
Proof.
  unfold contradicts. simpl. intros H Hc. destruct (obj_get c row) eqn:E; [|done].
  exfalso. apply not_true_iff_false in H. apply H. apply existsb_exists. exists c.
  split; [by apply list_elem_of_In|]. apply contains_key_spec. by rewrite E.
Qed.

(** For a validated event the write is never undefined for lack of a payload, and a
    partial write never mentions a column the source could not supply. *)
Theorem validated_write_is_safe e (valid : validate e = []) :
  row_write e <> NoWrite MissingPayload /\
  forall key columns un c,
    row_write e = Merge key (JObj columns) un -> c ∈ un -> obj_get c columns = None.
Proof.
  unfold validate in valid.
  repeat match type of valid with
    | (_ ++ _)%list = [] => let H := fresh "V" in apply app_eq_nil in valid as [H valid]
    end.
  rewrite !when_nil in *. split.
  - unfold row_write. destruct (op e); simpl in *;
      try (apply app_eq_nil in V3 as [V3 _]); try rewrite when_nil in V3;
      destruct (after e); simpl in *; try done; repeat case_match; done.
  - intros key columns un c. unfold row_write.
    destruct (op e) eqn:Eop; try (by repeat case_match);
      destruct (after e) as [a|] eqn:Ea; try done;
      destruct (unavailable_columns e) as [|u us] eqn:Eu; try done;
      destruct (primary_key_values e); try done; intros [= <- -> <-] Hc;
      by apply (no_contradiction (u :: us)).
Qed.

(** ** Examples *)

Definition sample_update (shown : object) (un : list string) : Event :=
  {| before := None; after := Some (JObj shown); op := Update;
     source := {| source_name := "pg"; offset := "0/1"; timestamp := 5 |}; ts := 5;
     schema := Some "public"; table := "docs"; primary_key := Some ["id"]; snapshot := None;
     transaction := None; envelope_version := 1; before_is_key_only := false;
     unavailable_columns := un; before_unavailable_columns := [] |}.

Definition doc_row (id body title : string) : object :=
  [("body", JStr body); ("id", JStr id); ("title", JStr title)].
Definition doc_key (id : string) : json := JObj [("id", JStr id)].
Definition doc_table : Table := fun k => if decide (k = doc_key "1") then Some (doc_row "1" "long" "a") else None.

(** The unchanged [body] is left out of the event and kept in the target. *)
Lemma row_write_reproduces_source_witness :
  table_eq
    (apply_write (row_write (sample_update [("id", JStr "1"); ("title", JStr "b")] ["body"]))
       doc_table)
    (put (doc_key "1") (Some (doc_row "1" "long" "b")) doc_table).
Proof.
  apply (row_write_reproduces_source ["id"]).
  apply (reports_update _ _ _ (doc_row "1" "long" "a") _ [("id", JStr "1"); ("title", JStr "b")]);
    try reflexivity.
  - intros c ->%list_elem_of_singleton. simpl. intros H%list_elem_of_singleton. discriminate.
  - intros c. simpl. by repeat case_match.
  - intros c ->%list_elem_of_singleton. by split.
  - intros c Hc. simpl in *. destruct (String.eqb_spec c "body") as [->|]; [|done].
    destruct Hc. left.
Defined.

Lemma key_change_leaves_old_row_witness :
  apply_write (row_write (sample_update (doc_row "2" "long" "a") [])) doc_table (doc_key "1")
  = Some (doc_row "1" "long" "a").
Proof.
  apply (key_change_leaves_old_row (sample_update (doc_row "2" "long" "a") []) doc_table ["id"]
    (doc_row "2" "long" "a") (doc_row "1" "long" "a") (doc_key "1") (doc_key "2")); try done.
Defined.

Lemma validated_write_is_safe_witness :
  row_write {| before := Some (doc_key "1"); after := Some (JObj [("id", JStr "1")]); op := Update;
     source := {| source_name := "pg"; offset := "0/1"; timestamp := 5 |}; ts := 5;
     schema := None; table := "docs"; primary_key := Some ["id"]; snapshot := None;
     transaction := None; envelope_version := 1; before_is_key_only := true;
     unavailable_columns := ["body"]; before_unavailable_columns := [] |}
  <> NoWrite MissingPayload.
Proof. apply validated_write_is_safe. vm_compute. reflexivity. Defined.

End Event.
