(* ===== verification/Barrier.v ===== *)
(** * The commit barrier

    Models [src/src/checkpoint/barrier.rs].  [CommitBarrier] holds one record per
    delivered event; only the contiguous accepted prefix is ever committed.  The
    durable store is any instance of the [Checkpoint] class.

    The abstract specification is a ledger of everything delivered, with the number of
    events acknowledged and the number committed; [ledger_refines] relates it to the
    barrier and to the journal of successful saves. *)

From S2P Require Import Prelude Errors CheckpointApi.

Module Barrier.

(** ** Data *)

Inductive BarrierState := Open | Flushing | Committed.

#[global] Instance BarrierState_eq_dec : EqDecision BarrierState.
Proof. solve_decision. Defined.

Record PendingRecord := {
  offset : option DynOffset;
  accepted : bool;
}.

Record CommitBarrier := {
  pending_records : list PendingRecord;
  barrier_state : BarrierState;
  max_buffer_size : nat;
  committed_event_count : Z;
}.

Definition set_state (s : BarrierState) (b : CommitBarrier) : CommitBarrier :=
  {| pending_records := pending_records b; barrier_state := s;
     max_buffer_size := max_buffer_size b;
     committed_event_count := committed_event_count b |}.

Definition set_pending (rs : list PendingRecord) (b : CommitBarrier) : CommitBarrier :=
  {| pending_records := rs; barrier_state := barrier_state b;
     max_buffer_size := max_buffer_size b;
     committed_event_count := committed_event_count b |}.

Definition set_count (n : Z) (b : CommitBarrier) : CommitBarrier :=
  {| pending_records := pending_records b; barrier_state := barrier_state b;
     max_buffer_size := max_buffer_size b; committed_event_count := n |}.

Definition mark (v : bool) (r : PendingRecord) : PendingRecord :=
  {| offset := offset r; accepted := v |}.

(** ** Operations *)

Definition new (max_buffer_size : nat) : CommitBarrier :=
  {| pending_records := []; barrier_state := Open;
     max_buffer_size := max_buffer_size; committed_event_count := 0 |}.

Definition hydrate_committed_event_count (n : Z) (b : CommitBarrier)
    : Res unit * CommitBarrier :=
  match pending_records b with
  | _ :: _ =>
      (Err (CheckpointError "cannot hydrate committed count while pending records exist"), b)
  | [] => (Ok tt, set_count n b)
  end.

Definition push_record (o : option DynOffset) (b : CommitBarrier)
    : Res unit * CommitBarrier :=
  if bool_decide (barrier_state b = Flushing) then
    (Err (CheckpointError "cannot add events while barrier is flushing"), b)
  else if (max_buffer_size b <=? length (pending_records b))%nat then
    (Err (CheckpointError "commit barrier buffer is full"), b)
  else
    (Ok tt,
     set_pending (pending_records b ++ [{| offset := o; accepted := false |}])
       (set_state Open b)).

Definition add_event (o : DynOffset) := push_record (Some o).
Definition add_boxed_event (o : DynOffset) := push_record (Some o).
Definition add_non_persistent_event := push_record None.

Section Ops.
Context `{BuildProfile}.

(** The marking loop of [notify_consumer_accepted].  The flag says that
    [remaining -= 1] overflowed in a build with overflow checks. *)
Fixpoint notify_loop (remaining : Z) (rs : list PendingRecord)
    : list PendingRecord * bool :=
  match rs with
  | [] => ([], false)
  | r :: rs' =>
      if accepted r then
        let '(rs'', p) := notify_loop remaining rs' in (r :: rs'', p)
      else
        match u64_sub remaining 1 with
        | None => (mark true r :: rs', true)
        | Some remaining' =>
            if remaining' =? 0 then (mark true r :: rs', false)
            else let '(rs'', p) := notify_loop remaining' rs' in (mark true r :: rs'', p)
        end
  end.

Definition count_accepted (v : bool) (rs : list PendingRecord) : nat :=
  length (List.filter (fun r => Bool.eqb (accepted r) v) rs).

Definition notify_consumer_accepted (event_count : Z) (b : CommitBarrier)
    : Res unit * CommitBarrier :=
  let available := Z.of_nat (count_accepted false (pending_records b)) in
  if available <? event_count then
    (Err (CheckpointError "acceptance notification exceeds pending records"), b)
  else
    let '(rs, panicked) := notify_loop event_count (pending_records b) in
    (if panicked then Panic else Ok tt, set_pending rs b).

(** [iter().take_while(|record| record.accepted).count()] *)
Fixpoint accepted_prefix_len (rs : list PendingRecord) : nat :=
  match rs with
  | r :: rs' => if accepted r then S (accepted_prefix_len rs') else 0%nat
  | [] => 0%nat
  end.

(** [.rev().find_map(|record| record.offset.as_ref())] *)
Fixpoint last_some {A} (l : list (option A)) : option A :=
  match l with
  | [] => None
  | o :: l' => match last_some l' with Some a => Some a | None => o end
  end.

Context {C : Type} `{Checkpoint C}.

Definition commit (b : CommitBarrier) (c : C) : Res unit * CommitBarrier * C :=
  match pending_records b with
  | [] => (Ok tt, set_state Committed b, c)
  | _ :: _ =>
      let commit_len := accepted_prefix_len (pending_records b) in
      if (commit_len =? 0)%nat then
        (Err (CheckpointError "cannot commit with no accepted prefix"), b, c)
      else
        let restore_state := barrier_state b in
        let b1 := set_state Flushing b in
        match u64_add (committed_event_count b) (Z.of_nat commit_len) with
        | None => (Panic, b1, c)
        | Some new_committed_count =>
            let '(saved, c') :=
              match last_some (map offset (take commit_len (pending_records b))) with
              | Some last_committable => save last_committable new_committed_count c
              | None => (Ok tt, c)
              end in
            match saved with
            | Err error => (Err error, set_state restore_state b1, c')
            | Panic => (Panic, b1, c')
            | Ok _ =>
                let rs := drop commit_len (pending_records b) in
                (Ok tt,
                 set_state (match rs with [] => Committed | _ => Open end)
                   (set_pending rs (set_count new_committed_count b1)),
                 c')
            end
        end
  end.

(** Undo the marks: [.iter_mut().skip(k).take(n)], each [accepted = false]. *)
Definition unmark_range (k n : nat) (rs : list PendingRecord) : list PendingRecord :=
  take k rs ++ map (mark false) (take n (drop k rs)) ++ drop n (drop k rs).

Definition accept_and_commit (event_count : Z) (b : CommitBarrier) (c : C)
    : Res unit * CommitBarrier * C :=
  let previously_accepted := count_accepted true (pending_records b) in
  let restore_state := barrier_state b in
  let '(notified, b1) := notify_consumer_accepted event_count b in
  match notified with
  | Err e => (Err e, b1, c)
  | Panic => (Panic, b1, c)
  | Ok _ =>
      let '(r, b2, c') := commit b1 c in
      match r with
      | Ok _ => (Ok tt, b2, c')
      | Panic => (Panic, b2, c')
      | Err error =>
          (Err error,
           set_state restore_state
             (set_pending
                (unmark_range previously_accepted (Z.to_nat event_count)
                   (pending_records b2)) b2),
           c')
      end
  end.

Definition clear_pending (b : CommitBarrier) : CommitBarrier :=
  set_state Open (set_pending [] b).

End Ops.

(** ** The abstract ledger *)

(** Everything delivered so far (an offset, or none for a non-persistent event), how
    many of those events the consumer acknowledged, and how many are committed. *)
Record Ledger := {
  delivered : list (option DynOffset);
  acked : nat;
  committed : nat;
}.

Inductive Op :=
| Deliver (o : option DynOffset)
| Notify (n : Z)
| Commit
| Ack (n : Z)
| Clear.

(** What an operation does to the ledger when it succeeds; one that fails does
    nothing. *)
Definition ledger_step (L : Ledger) (step : Op * bool) : Ledger :=
  match step with
  | (_, false) => L
  | (Deliver o, true) =>
      {| delivered := delivered L ++ [o]; acked := acked L; committed := committed L |}
  | (Notify n, true) =>
      {| delivered := delivered L; acked := acked L + Z.to_nat n; committed := committed L |}
  | (Commit, true) =>
      {| delivered := delivered L; acked := acked L; committed := acked L |}
  | (Ack n, true) =>
      {| delivered := delivered L; acked := acked L + Z.to_nat n;
         committed := acked L + Z.to_nat n |}
  | (Clear, true) =>
      {| delivered := take (committed L) (delivered L);
         acked := committed L; committed := committed L |}
  end.

Definition ledger_init : Ledger := {| delivered := []; acked := 0; committed := 0 |}.

(** An acknowledgement names at least one event (the runtime filters out zero, see
    [commit_prefix]) and fits a [u64]. *)
Definition valid_op (op : Op) : Prop :=
  match op with
  | Notify n | Ack n => 0 < n < u64_modulus
  | _ => True
  end.

(** The records of [os] with the first [k] of them accepted. *)
Definition recs (k : nat) (os : list (option DynOffset)) : list PendingRecord :=
  map (fun o => {| offset := o; accepted := true |}) (take k os) ++
  map (fun o => {| offset := o; accepted := false |}) (drop k os).

(** The representation invariant: marks form a prefix, the buffer bound holds, no
    operation leaves the barrier flushing, and [Committed] means drained. *)
Definition barrier_inv (b : CommitBarrier) : Prop :=
  (exists k os, (k <= length os)%nat /\ pending_records b = recs k os) /\
  (length (pending_records b) <= max_buffer_size b)%nat /\
  barrier_state b <> Flushing /\
  (barrier_state b = Committed -> pending_records b = []).

Section Exec.
Context `{BuildProfile} {C : Type} `{Checkpoint C}.

Definition exec (op : Op) (b : CommitBarrier) (c : C) : Res unit * CommitBarrier * C :=
  match op with
  | Deliver o => let '(r, b') := push_record o b in (r, b', c)
  | Notify n => let '(r, b') := notify_consumer_accepted n b in (r, b', c)
  | Commit => commit b c
  | Ack n => accept_and_commit n b c
  | Clear => (Ok tt, clear_pending b, c)
  end.

Fixpoint run (ops : list Op) (b : CommitBarrier) (c : C)
    : list bool * CommitBarrier * C :=
  match ops with
  | [] => ([], b, c)
  | op :: ops' =>
      let '(r, b', c') := exec op b c in
      let '(rs, b'', c'') := run ops' b' c' in
      (is_ok r :: rs, b'', c'')
  end.

End Exec.

(** The ledger [L] explains the barrier [b] and the journal [j] of successful saves,
    [base] being the count the barrier was hydrated with. *)
Record ledger_refines {C} (base : Z) (L : Ledger) (b : CommitBarrier) (j : Journal C)
    : Prop := {
  lr_order : (committed L <= acked L <= length (delivered L))%nat;
  lr_pending :
    pending_records b = recs (acked L - committed L) (drop (committed L) (delivered L));
  lr_count : committed_event_count b = base + Z.of_nat (committed L);
  lr_bound : (length (pending_records b) <= max_buffer_size b)%nat;
  lr_flushing : barrier_state b <> Flushing;
  lr_drained : barrier_state b = Committed -> pending_records b = [];
  lr_durable : fst <$> last (log j) = last_some (take (committed L) (delivered L));
  lr_saves : forall o n, (o, n) ∈ log j ->
    exists k, (k <= committed L)%nat /\ n = base + Z.of_nat k /\
              last_some (take k (delivered L)) = Some o;
}.

(** ** Lemmas about marked records *)

Arguments recs : simpl never.

Lemma length_recs k os : length (recs k os) = length os.
Proof. unfold recs. rewrite length_app, !length_map, length_take, length_drop. lia. Qed.

Lemma recs_S k o os :
  recs (S k) (o :: os) = {| offset := o; accepted := true |} :: recs k os.
Proof. done. Qed.

Lemma recs_0_cons o os :
  recs 0 (o :: os) = {| offset := o; accepted := false |} :: recs 0 os.
Proof. done. Qed.

Lemma recs_snoc k os o :
  (k <= length os)%nat -> recs k os ++ [{| offset := o; accepted := false |}] = recs k (os ++ [o]).
Proof.
  intros Hk. unfold recs. rewrite take_app_le, drop_app_le by done.
  by rewrite map_app, app_assoc.
Qed.

Lemma accepted_prefix_len_recs k os :
  (k <= length os)%nat -> accepted_prefix_len (recs k os) = k.
Proof.
  revert k. induction os as [|o os IH]; intros [|k] Hk; simpl in Hk; try lia; [done..|].
  rewrite recs_S. cbn. by rewrite IH by lia.
Qed.

Lemma map_offset_recs k os : map offset (recs k os) = os.
Proof.
  unfold recs. rewrite map_app, !map_map, !map_id. apply take_drop.
Qed.

Lemma drop_recs j k os :
  (j <= k)%nat -> drop j (recs k os) = recs (k - j) (drop j os).
Proof.
  revert k os. induction j as [|j IH]; intros k os Hk; [by rewrite Nat.sub_0_r|].
  destruct k as [|k]; [lia|]. destruct os as [|o os].
  { unfold recs. cbn [drop]. by rewrite !take_nil, !drop_nil. }
  rewrite recs_S. cbn [drop]. rewrite IH by lia. f_equal.
Qed.

Lemma drop_recs_ge j k os : (k <= j)%nat -> drop j (recs k os) = recs 0 (drop j os).
Proof.
  revert j os. induction k as [|k IH]; intros j os Hj.
  - unfold recs. simpl. by rewrite skipn_map.
  - destruct j as [|j]; [lia|]. destruct os as [|o os]; [done|].
    rewrite recs_S. cbn [drop]. apply IH. lia.
Qed.

Lemma count_accepted_true_recs k os :
  (k <= length os)%nat -> count_accepted true (recs k os) = k.
Proof.
  unfold count_accepted. revert k. induction os as [|o os IH]; intros [|k] Hk; simpl in Hk.
  - done.
  - lia.
  - rewrite recs_0_cons. simpl. apply (IH 0%nat). lia.
  - rewrite recs_S. simpl. rewrite IH by lia. done.
Qed.

Lemma count_accepted_false_recs k os :
  (k <= length os)%nat -> count_accepted false (recs k os) = (length os - k)%nat.
Proof.
  unfold count_accepted. revert k. induction os as [|o os IH]; intros [|k] Hk; simpl in Hk.
  - done.
  - lia.
  - rewrite recs_0_cons. simpl. rewrite (IH 0%nat) by lia. lia.
  - rewrite recs_S. simpl. rewrite IH by lia. done.
Qed.

Lemma unmark_recs k n os :
  (k + n <= length os)%nat -> unmark_range k n (recs (k + n) os) = recs k os.
Proof.
  intros Hk. unfold unmark_range, recs.
  assert (Ht : length (take k os) = k) by (rewrite length_take; lia).
  rewrite <- (take_drop k os) at 1 2 3 4 5 6.
  rewrite take_app_add' by done. rewrite !map_app.
  rewrite drop_app_add' by done.
  rewrite <- !app_assoc.
  rewrite take_app_length' by (by rewrite length_map).
  rewrite drop_app_length' by (by rewrite length_map).
  rewrite take_app_length' by (rewrite length_map, length_take, length_drop; lia).
  rewrite drop_app_length' by (rewrite length_map, length_take, length_drop; lia).
  f_equal. rewrite map_map. simpl.
  rewrite <- (take_drop n (drop k os)) at 3. by rewrite map_app.
Qed.

Lemma last_some_app {A} (l1 l2 : list (option A)) :
  last_some (l1 ++ l2) =
    match last_some l2 with Some a => Some a | None => last_some l1 end.
Proof.
  induction l1 as [|o l1 IH]; simpl; [by destruct (last_some l2)|].
  rewrite IH. by destruct (last_some l2).
Qed.

Section Proofs.
Context `{BuildProfile}.

Lemma u64_sub_1 n : 0 < n -> u64_sub n 1 = Some (n - 1).
Proof. intros Hn. unfold u64_sub. destruct (Z.leb_spec 1 n); [done|lia]. Qed.

Lemma u64_add_small a b : a + b < u64_modulus -> u64_add a b = Some (a + b).
Proof. intros Hn. unfold u64_add. destruct (Z.ltb_spec (a + b) u64_modulus); [done|lia]. Qed.

Lemma notify_loop_recs n k os :
  (0 < n)%nat -> (k + n <= length os)%nat ->
  notify_loop (Z.of_nat n) (recs k os) = (recs (k + n) os, false).
Proof.
  revert n k. induction os as [|o os IH]; intros n [|k] Hn Hle; simpl in Hle; try lia.
  - rewrite recs_0_cons. destruct n as [|n]; [lia|]. simpl.
    rewrite u64_sub_1 by lia. replace (Z.of_nat (S n) - 1) with (Z.of_nat n) by lia.
    rewrite recs_S. destruct n as [|n]; [done|].
    destruct (Z.eqb_spec (Z.of_nat (S n)) 0) as [?|_]; [lia|].
    rewrite (IH (S n) 0%nat) by lia. done.
  - rewrite recs_S. simpl. rewrite IH by lia. done.
Qed.

Lemma notify_recs n k os b :
  0 < n < u64_modulus -> (k <= length os)%nat -> pending_records b = recs k os ->
  notify_consumer_accepted n b =
    if Z.of_nat (length os - k) <? n
    then (Err (CheckpointError "acceptance notification exceeds pending records"), b)
    else (Ok tt, set_pending (recs (k + Z.to_nat n) os) b).
Proof.
  intros Hn Hk Hp. unfold notify_consumer_accepted.
  rewrite Hp, count_accepted_false_recs by done.
  destruct (Z.ltb_spec (Z.of_nat (length os - k)) n) as [|Hle]; [done|].
  rewrite <- (Z2Nat.id n) at 1 by lia. rewrite notify_loop_recs by lia. done.
Qed.

(** *** The commit step *)

Section Store.
Context {C : Type} `{Checkpoint C}.

Lemma set_state_restore s b : set_state (barrier_state b) (set_state s b) = b.
Proof. by destruct b. Qed.

Lemma commit_err b (c : C) e b' c' : commit b c = (Err e, b', c') -> b' = b.
Proof.
  unfold commit. intros Hc. repeat case_match; simplify_eq; try done.
  all: by destruct b.
Qed.

(** The request [commit] makes of the store. *)
Definition commit_request (k : nat) (os : list (option DynOffset)) (n : Z) (c : C)
    : Res unit * C :=
  match last_some (take k os) with
  | Some o => save o n c
  | None => (Ok tt, c)
  end.

Lemma commit_recs k os b (c : C) :
  (0 < k <= length os)%nat -> pending_records b = recs k os ->
  committed_event_count b + Z.of_nat k < u64_modulus ->
  commit b c =
    match commit_request k os (committed_event_count b + Z.of_nat k) c with
    | (Ok _, c') =>
        (Ok tt,
         set_state (match drop k os with [] => Committed | _ => Open end)
           (set_pending (recs 0 (drop k os))
              (set_count (committed_event_count b + Z.of_nat k) b)), c')
    | (Err e, c') => (Err e, b, c')
    | (Panic, c') => (Panic, set_state Flushing b, c')
    end.
Proof.
  intros Hk Hp Hlt. unfold commit, commit_request. rewrite Hp.
  destruct os as [|o os]; [simpl in Hk; lia|].
  destruct (recs k (o :: os)) as [|r rs] eqn:Er.
  { apply (f_equal length) in Er. rewrite length_recs in Er. done. }
  rewrite <- Er. rewrite accepted_prefix_len_recs by lia.
  destruct (Nat.eqb_spec k 0) as [|_]; [lia|].
  rewrite u64_add_small by done.
  rewrite <- (map_offset_recs k (o :: os)) at 2. rewrite <- firstn_map.
  rewrite drop_recs, Nat.sub_diag by done.
  destruct (last_some _) as [lp|]; [destruct (save lp _ c) as [[] c']|];
    rewrite ?set_state_restore; try done.
  all: by destruct (drop k (o :: os)).
Qed.

End Store.

Lemma journal_err_log {C} `{Checkpoint C} k os n (j : Journal C) e j' :
  commit_request k os n j = (Err e, j') -> log j' = log j.
Proof.
  unfold commit_request. destruct (last_some _); [|done].
  simpl. unfold journal_save. destruct (save _ _ _) as [[] ?]; intros; by simplify_eq.
Qed.

Lemma journal_ok_log {C} `{Checkpoint C} k os n (j : Journal C) u j' :
  commit_request k os n j = (Ok u, j') ->
  log j' = log j ++ match last_some (take k os) with Some o => [(o, n)] | None => [] end.
Proof.
  unfold commit_request. destruct (last_some _); simpl.
  - unfold journal_save. destruct (save _ _ _) as [[] ?]; intros; by simplify_eq.
  - intros; simplify_eq. by rewrite app_nil_r.
Qed.

(** *** Simulation of the ledger *)

Section Simulation.
Context {C : Type} `{Checkpoint C}.

(** A store answers with success or an error. *)
Hypothesis save_no_panic : forall o n (c : C), fst (save o n c) <> Panic.

Lemma commit_request_no_panic k os n (j : Journal C) j' :
  commit_request k os n j <> (Panic, j').
Proof.
  unfold commit_request. destruct (last_some _) as [o|]; [|done].
  simpl. unfold journal_save. pose proof (save_no_panic o n (store j)) as Hs.
  by destruct (save o n (store j)) as [[] ?]; simpl in *; intros ?; simplify_eq.
Qed.

Lemma refines_log base L b (j j' : Journal C) :
  log j' = log j -> ledger_refines base L b j -> ledger_refines base L b j'.
Proof. intros E []; split; rewrite ?E; auto. Qed.

Lemma push_refines base L b (j : Journal C) o r b' :
  ledger_refines base L b j -> push_record o b = (r, b') ->
  ledger_refines base (ledger_step L (Deliver o, is_ok r)) b' j.
Proof.
  intros R Hp. unfold push_record in Hp. destruct (bool_decide _); [by simplify_eq/=|].
  destruct (Nat.leb_spec (max_buffer_size b) (length (pending_records b))) as [|Hlt];
    [by simplify_eq/=|].
  simplify_eq/=. destruct R as [Ho Hpd Hc Hb Hf Hd Hdu Hs]. split; simpl in *; try done.
  - rewrite length_app. simpl. lia.
  - rewrite Hpd, drop_app_le by lia. apply recs_snoc. rewrite length_drop. lia.
  - rewrite length_app. simpl. lia.
  - rewrite take_app_le by lia. done.
  - intros o' n' Hin. destruct (Hs o' n' Hin) as (k & Hk & -> & Hl).
    exists k. rewrite take_app_le by lia. done.
Qed.

Lemma notify_refines base L b (j : Journal C) n r b' :
  0 < n < u64_modulus -> ledger_refines base L b j ->
  notify_consumer_accepted n b = (r, b') ->
  r <> Panic /\ ledger_refines base (ledger_step L (Notify n, is_ok r)) b' j.
Proof.
  intros Hn R. pose proof R as [Ho Hpd Hc Hb Hf Hd Hdu Hs].
  erewrite notify_recs; [|done| |exact Hpd]; [|rewrite length_drop; lia].
  rewrite length_drop.
  destruct (Z.ltb_spec (Z.of_nat (length (delivered L) - committed L -
    (acked L - committed L))) n) as [Hlt|Hge]; intros ?; simplify_eq/=; [done|].
  split; [done|]. split; simpl; auto.
  - lia.
  - f_equal. lia.
  - rewrite length_recs. by rewrite Hpd, length_recs in Hb.
  - intros Hcm. specialize (Hd Hcm). rewrite Hpd in Hd.
    apply (f_equal length) in Hd. rewrite length_recs, length_drop in Hd. simpl in Hd. lia.
Qed.

Lemma commit_refines base L b (j : Journal C) r b' j' :
  0 <= base -> base + Z.of_nat (length (delivered L)) < u64_modulus ->
  ledger_refines base L b j -> commit b j = (r, b', j') ->
  r <> Panic /\ ledger_refines base (ledger_step L (Commit, is_ok r)) b' j' /\
  (is_ok r = false -> b' = b /\ log j' = log j).
Proof.
  intros Hb0 Hlt R. pose proof R as [Ho Hpd Hc Hb Hf Hd Hdu Hs].
  destruct (pending_records b) as [|p ps] eqn:Ep.
  { unfold commit. rewrite Ep. intros ?; simplify_eq/=. split; [done|]. split; [|done].
    assert (acked L = committed L).
    { apply (f_equal length) in Hpd. rewrite length_recs, length_drop in Hpd.
      simpl in Hpd. lia. }
    destruct L as [d a cm]; simpl in *; subst a. split; simpl; rewrite ?Ep; auto. }
  destruct (decide (acked L = committed L)) as [Heq|Hne].
  { unfold commit. rewrite Ep. rewrite Hpd, Heq, Nat.sub_diag.
    rewrite accepted_prefix_len_recs by lia. simpl. intros ?; simplify_eq/=. done. }
  rewrite <- Ep in Hpd. set (k := (acked L - committed L)%nat) in *.
  rewrite (commit_recs k (drop (committed L) (delivered L))) by
    (done || rewrite ?length_drop, ?Hc; lia).
  destruct (commit_request _ _ _ j) as [[u|e|] j1] eqn:Ereq; intros ?; simplify_eq/=.
  2: { split; [done|]. apply journal_err_log in Ereq. split; [|done].
       by apply (refines_log _ _ _ j). }
  2: by apply commit_request_no_panic in Ereq.
  split; [done|]. split; [|done].
  apply journal_ok_log in Ereq. rewrite drop_drop in *.
  replace (committed L + k)%nat with (acked L) in * by lia.
  assert (Htk : take (acked L) (delivered L) =
    take (committed L) (delivered L) ++ take k (drop (committed L) (delivered L))).
  { rewrite take_take_drop. f_equal. lia. }
  split; simpl; rewrite ?Nat.sub_diag, ?length_recs; try done.
  - lia.
  - lia.
  - apply (f_equal length) in Hpd. rewrite Ep, length_recs in Hpd. simpl in *.
    rewrite length_drop in *. lia.
  - by destruct (drop (acked L) (delivered L)).
  - by destruct (drop (acked L) (delivered L)).
  - rewrite Ereq, Htk, last_some_app.
    destruct (last_some (take k _)) as [o|]; [by rewrite last_snoc|].
    by rewrite app_nil_r.
  - intros o n. rewrite Ereq, elem_of_app. intros [Hin|Hin].
    + destruct (Hs o n Hin) as (k' & ? & ? & ?). exists k'. split_and!; auto; lia.
    + destruct (last_some (take k _)) as [o'|] eqn:El; [|by apply elem_of_nil in Hin].
      apply list_elem_of_singleton in Hin. simplify_eq. exists (acked L).
      split_and!; [lia| |by rewrite Htk, last_some_app, El]. rewrite Hc. lia.
Qed.

Lemma ack_refines base L b (j : Journal C) n r b' j' :
  0 < n < u64_modulus -> 0 <= base ->
  base + Z.of_nat (length (delivered L)) < u64_modulus ->
  ledger_refines base L b j -> accept_and_commit n b j = (r, b', j') ->
  r <> Panic /\ ledger_refines base (ledger_step L (Ack n, is_ok r)) b' j' /\
  (is_ok r = false -> b' = b).
Proof.
  intros Hn Hb0 Hlt R. pose proof R as [Ho Hpd _ _ _ _ _ _]. unfold accept_and_commit.
  destruct (notify_consumer_accepted n b) as [nr b1] eqn:En.
  pose proof En as En'. erewrite notify_recs in En'; [|done| |exact Hpd];
    [|rewrite length_drop; lia].
  destruct (notify_refines _ _ _ _ _ _ _ Hn R En) as [Hnp R1].
  destruct nr as [u|e|]; simpl in *; [|by case_match; intros; simplify_eq|done].
  rewrite length_drop in En'.
  destruct (Z.ltb_spec (Z.of_nat (length (delivered L) - committed L -
    (acked L - committed L))) n) as [|Hle]; simplify_eq.
  destruct (commit _ j) as [[cr b2] j2] eqn:Ec.
  destruct (commit_refines base (ledger_step L (Notify n, true)) _ j cr b2 j2
    Hb0 Hlt R1 Ec) as (Hcp & R2 & Hcf).
  destruct cr as [[]|e|]; simpl in *; intros ?; simplify_eq/=; [done|].
  destruct (Hcf eq_refl) as [-> Hlog]. split; [done|]. simpl.
  assert (Hback : set_state (barrier_state b) (set_pending (unmark_range
    (count_accepted true (pending_records b)) (Z.to_nat n)
    (recs (acked L - committed L + Z.to_nat n) (drop (committed L) (delivered L))))
    (set_pending (recs (acked L - committed L + Z.to_nat n)
       (drop (committed L) (delivered L))) b)) = b).
  { rewrite Hpd at 1. rewrite count_accepted_true_recs by (rewrite length_drop; lia).
    rewrite unmark_recs by (rewrite length_drop; lia). rewrite <- Hpd. by destruct b. }
  rewrite Hback. split; [|done]. by apply (refines_log _ _ _ j).
Qed.

Lemma exec_refines base L b (j : Journal C) op r b' j' :
  valid_op op -> 0 <= base -> base + Z.of_nat (length (delivered L)) < u64_modulus ->
  ledger_refines base L b j -> exec op b j = (r, b', j') ->
  ledger_refines base (ledger_step L (op, is_ok r)) b' j'.
Proof.
  intros Hv Hb0 Hlt R. destruct op as [o|n| |n|]; simpl in *.
  - destruct (push_record o b) eqn:E. intros ?; simplify_eq. by eapply push_refines.
  - destruct (notify_consumer_accepted n b) eqn:E. intros ?; simplify_eq.
    by eapply notify_refines.
  - intros E. by eapply commit_refines in E as (_ & ? & _).
  - intros E. by eapply ack_refines in E as (_ & ? & _).
  - intros ?; simplify_eq/=. destruct R as [Ho Hpd Hc Hb Hf Hd Hdu Hs].
    split; simpl; try done.
    + rewrite length_take. lia.
    + by rewrite Nat.sub_diag, drop_ge by (rewrite length_take; lia).
    + lia.
    + by rewrite take_take, Nat.min_id.
    + intros o n Hin. destruct (Hs o n Hin) as (k & Hk & -> & Hl). exists k.
      by rewrite take_take, Nat.min_l.
Qed.

Lemma ledger_step_length L st :
  (length (delivered (ledger_step L st)) <= S (length (delivered L)))%nat.
Proof.
  destruct st as [[] []]; simpl; rewrite ?length_app, ?length_take; simpl; lia.
Qed.

Lemma run_refines ops base L b (j : Journal C) rs b' j' :
  Forall valid_op ops -> 0 <= base ->
  base + Z.of_nat (length (delivered L)) + Z.of_nat (length ops) < u64_modulus ->
  ledger_refines base L b j -> run ops b j = (rs, b', j') ->
  ledger_refines base (foldl ledger_step L (zip ops rs)) b' j'.
Proof.
  revert L b j rs b' j'. induction ops as [|op ops IH]; intros L b j rs b' j' Hv Hb0 Hlt R;
    simpl; [by intros; simplify_eq|].
  apply Forall_cons in Hv as [Hv1 Hv2]. simpl in Hlt.
  destruct (exec op b j) as [[r b1] j1] eqn:Ex.
  destruct (run ops b1 j1) as [[rs1 b2] j2] eqn:Er. intros [= <- <- <-].
  cbn [zip_with foldl].
  pose proof (ledger_step_length L (op, is_ok r)).
  eapply IH; [done|done| |eapply exec_refines; eauto|done]; lia.
Qed.

End Simulation.

End Proofs.

(** ** Main theorems *)

Lemma hydrated_refines {C} cap base (c : C) :
  ledger_refines base ledger_init
    (snd (hydrate_committed_event_count base (new cap))) {| store := c; log := [] |}.
Proof.
  split; simpl; try done; try lia. intros o n Hin. by apply elem_of_nil in Hin.
Qed.


(** A failed [accept_and_commit] of at least one event leaves the barrier exactly
    as it was - acceptance marks, state and committed count - so the identical call can
    be retried. *)
Theorem failed_ack_restores_barrier `{BuildProfile} {C} `{Checkpoint C} n b b' (c c' : C) e
    (inv : barrier_inv b) (n_u64 : 0 < n < u64_modulus)
    (failed : accept_and_commit n b c = (Err e, b', c')) :
  b' = b.
Proof.
  destruct inv as ((k & os & Hk & Hp) & _). revert failed. unfold accept_and_commit.
  rewrite (notify_recs n k os b n_u64 Hk Hp).
  destruct (Z.ltb_spec (Z.of_nat (length os - k)) n) as [|Hle]; [by intros; simplify_eq|].
  destruct (commit _ c) as [[[] b2] c2] eqn:Ec; intros ?; simplify_eq.
  apply commit_err in Ec as ->. simpl. rewrite Hp, count_accepted_true_recs by done.
  rewrite unmark_recs by lia. rewrite <- Hp. by destruct b.
Qed.

Lemma ack_accepted `{BuildProfile} {C} `{Checkpoint C} n b (c : C)
    (inv : barrier_inv b)
    (in_range : 0 < n <= Z.of_nat (count_accepted false (pending_records b)))
    (fits : committed_event_count b + Z.of_nat (length (pending_records b)) < u64_modulus
            /\ 0 <= committed_event_count b)
    (accepts : forall o m, fst (save o m c) = Ok tt) :
  let k := (accepted_prefix_len (pending_records b) + Z.to_nat n)%nat in
  exists c', accept_and_commit n b c =
    (Ok tt,
     {| pending_records := drop k (pending_records b);
        barrier_state :=
          match drop k (pending_records b) with [] => Committed | _ => Open end;
        max_buffer_size := max_buffer_size b;
        committed_event_count := committed_event_count b + Z.of_nat k |}, c').
Proof.
  destruct inv as ((p & os & Hp & Hrec) & _). rewrite Hrec in *.
  rewrite count_accepted_false_recs in in_range by done.
  rewrite length_recs in fits. rewrite accepted_prefix_len_recs by done. simpl.
  unfold accept_and_commit. rewrite (notify_recs n p os) by (done || lia).
  destruct (Z.ltb_spec (Z.of_nat (length os - p)) n) as [|Hle]; [lia|].
  rewrite (commit_recs (p + Z.to_nat n) os) by (simpl; (done || lia)). simpl.
  unfold commit_request. destruct (last_some _) as [o|].
  - pose proof (accepts o (committed_event_count b + Z.of_nat (p + Z.to_nat n))) as Hs.
    destruct (save o _ c) as [r c']. simpl in Hs. subst r. exists c'. rewrite drop_recs_ge by lia.
    by destruct (drop _ os).
  - exists c. rewrite drop_recs_ge by lia. by destruct (drop _ os).
Qed.

(** An acknowledgement of [n] outstanding events against a store that accepts the
    write succeeds, commits everything acknowledged so far, and leaves exactly the
    unacknowledged records pending. *)
Theorem ack_commits_accepted_prefix `{BuildProfile} {C} `{Checkpoint C} n b (c : C)
    (inv : barrier_inv b)
    (in_range : 0 < n <= Z.of_nat (count_accepted false (pending_records b)))
    (fits : committed_event_count b + Z.of_nat (length (pending_records b)) < u64_modulus
            /\ 0 <= committed_event_count b)
    (accepts : forall o m, fst (save o m c) = Ok tt) :
  let k := (accepted_prefix_len (pending_records b) + Z.to_nat n)%nat in
  exists c', accept_and_commit n b c =
    (Ok tt,
     {| pending_records := drop k (pending_records b);
        barrier_state :=
          match drop k (pending_records b) with [] => Committed | _ => Open end;
        max_buffer_size := max_buffer_size b;
        committed_event_count := committed_event_count b + Z.of_nat k |}, c').
Proof. by apply ack_accepted. Qed.

Lemma refines_barrier_inv {C} base L b (j : Journal C) :
  ledger_refines base L b j -> barrier_inv b.
Proof.
  intros []. split; [|done].
  exists (acked L - committed L)%nat, (drop (committed L) (delivered L)). rewrite length_drop.
  split; [lia|done].
Qed.

Lemma notify_loop_all `{BuildProfile} m rs :
  Z.of_nat (length rs) < m < u64_modulus ->
  notify_loop m rs = (map (mark true) rs, false).
Proof.
  revert m. induction rs as [|r rs IH]; intros m Hm; simpl in *; [done|].
  destruct r as [o []]; simpl.
  - rewrite IH by lia. done.
  - rewrite u64_sub_1 by lia. destruct (Z.eqb_spec (m - 1) 0); [lia|].
    rewrite IH by lia. done.
Qed.

Lemma u64_sub_0_1 `{BuildProfile} :
  u64_sub 0 1 = if overflow_checks then None else Some u64_max.
Proof. reflexivity. Qed.

Lemma notify_loop_zero `{BuildProfile} rs :
  (0 < count_accepted false rs)%nat -> Z.of_nat (length rs) < u64_max ->
  if overflow_checks then snd (notify_loop 0 rs) = true
  else notify_loop 0 rs = (map (mark true) rs, false).
Proof.
  unfold count_accepted. induction rs as [|[o []] rs IH]; simpl; intros Hc Hl; [lia| |].
  - specialize (IH Hc ltac:(lia)). destruct (notify_loop 0 rs) as [rs' p].
    destruct overflow_checks; simpl in *; by simplify_eq.
  - rewrite u64_sub_0_1. destruct overflow_checks; simpl; [done|].
    change (u64_max =? 0) with false. cbn match.
    rewrite notify_loop_all; [done|]. unfold u64_max in *. lia.
Qed.

(** Acknowledging zero events while one is outstanding is not a no-op.  The
    countdown underflows: a build with overflow checks panics, and a release build
    marks every pending record accepted, so the next commit advances past events the
    consumer never acknowledged. *)
Theorem zero_ack_accepts_everything `{BuildProfile} b
    (outstanding : (0 < count_accepted false (pending_records b))%nat)
    (buffered : Z.of_nat (length (pending_records b)) < u64_max) :
  if overflow_checks then fst (notify_consumer_accepted 0 b) = Panic
  else notify_consumer_accepted 0 b =
         (Ok tt, set_pending (map (mark true) (pending_records b)) b).
Proof.
  pose proof (notify_loop_zero _ outstanding buffered) as Hz.
  unfold notify_consumer_accepted.
  destruct (Z.ltb_spec (Z.of_nat (count_accepted false (pending_records b))) 0); [lia|].
  destruct (notify_loop 0 (pending_records b)) as [rs p].
  destruct overflow_checks; simpl in *; by simplify_eq.
Qed.

(** ** Witnesses *)

Definition o1 : DynOffset := {| source_type := "postgres"; encode := Ok [x01] |}.
Definition o2 : DynOffset := {| source_type := "postgres"; encode := Ok [x02] |}.

Definition sample_ops : list Op :=
  [Deliver (Some o1); Deliver None; Deliver (Some o2); Ack 2; Notify 1; Commit; Clear].

Definition sample_barrier : CommitBarrier :=
  {| pending_records := recs 1 [Some o1; Some o2; None]; barrier_state := Open;
     max_buffer_size := 4; committed_event_count := 7 |}.

Lemma sample_barrier_inv : barrier_inv sample_barrier.
Proof.
  split; [exists 1%nat, [Some o1; Some o2; None]; split; [simpl; lia|done]|].
  split; [simpl; lia|done].
Qed.

Lemma mem_save_no_panic o n (s : InMemory.InMemoryCheckpoint) : fst (save o n s) <> Panic.
Proof. simpl. unfold InMemory.mem_save. by destruct (InMemory.poisoned s). Qed.


(** A store whose lock is poisoned refuses every write. *)
Definition poisoned_store : InMemory.InMemoryCheckpoint :=
  {| InMemory.entries := []; InMemory.poisoned := true |}.

Lemma failed_ack_restores_barrier_witness :
  snd (fst (accept_and_commit (H:=false) 2 sample_barrier poisoned_store)) = sample_barrier.
Proof.
  refine (failed_ack_restores_barrier (H:=false) 2 sample_barrier _ poisoned_store _ _
    sample_barrier_inv _ _); [split; reflexivity|].
  vm_compute; reflexivity.
Defined.

Lemma ack_commits_accepted_prefix_witness :
  exists c', accept_and_commit (H:=true) 1 sample_barrier InMemory.mem_new =
    (Ok tt, {| pending_records := recs 0 [None]; barrier_state := Open;
               max_buffer_size := 4; committed_event_count := 9 |}, c').
Proof.
  apply (ack_commits_accepted_prefix (H:=true) 1 sample_barrier InMemory.mem_new).
  - exact sample_barrier_inv.
  - vm_compute. split; [reflexivity|discriminate].
  - vm_compute. split; [reflexivity|discriminate].
  - reflexivity.
Defined.

Lemma zero_ack_accepts_everything_witness :
  notify_consumer_accepted (H:=false) 0 sample_barrier =
    (Ok tt, set_pending (recs 3 [Some o1; Some o2; None]) sample_barrier).
Proof.
  apply (zero_ack_accepts_everything (H:=false) sample_barrier).
  - vm_compute. lia.
  - reflexivity.
Defined.

End Barrier.
