(* ===== verification/Monad.v ===== *)
(** * Monad: stateful computations that may fail

    The [async fn ... -> Result<T>] methods of the program thread a mutable state, may
    return early with an error, and may be cut short.  [M S A] is their type; [hoare]
    and [keeps] are the program logic the stores and the snapshot driver are verified
    in. *)

From S2P Require Import Prelude Errors.

(** ** State and errors *)

(** A stateful computation that may return an error or abort. *)
Definition M (S A : Type) : Type := S -> Res A * S.

#[global] Instance M_ret S : MRet (M S) := fun _ a s => (Ok a, s).
#[global] Instance M_bind S : MBind (M S) := fun _ _ k m s =>
  match m s with
  | (Ok a, s') => k a s'
  | (Err e, s') => (Err e, s')
  | (Panic, s') => (Panic, s')
  end.

Definition throw {S A} (e : Error) : M S A := fun s => (Err e, s).
Definition of_res {S A} (r : Res A) : M S A := fun s => (r, s).
Definition gets {S A} (f : S -> A) : M S A := fun s => (Ok (f s), s).
Definition modify {S} (f : S -> S) : M S unit := fun s => (Ok tt, f s).

(** [m.map_err(f)] *)
Definition map_err {S A} (f : Error -> Error) (m : M S A) : M S A := fun s =>
  match m s with (Err e, s') => (Err (f e), s') | other => other end.

(** [match m { Ok(a) => Ok(a), Err(e) => h(e) }] *)
Definition catch {S A} (m : M S A) (h : Error -> M S A) : M S A := fun s =>
  match m s with (Err e, s') => h e s' | other => other end.

(** Loops over a list. *)
Fixpoint for_each {S A} (l : list A) (f : A -> M S unit) : M S unit :=
  match l with
  | [] => mret tt
  | a :: l' => f a ;; for_each l' f
  end.

Fixpoint collect {S A B} (l : list A) (f : A -> M S B) : M S (list B) :=
  match l with
  | [] => mret []
  | a :: l' => b ← f a; bs ← collect l' f; mret (b :: bs)
  end.

Lemma bind_eq {S A B} (m : M S A) (k : A -> M S B) s :
  (m ≫= k) s = match m s with
               | (Ok a, s') => k a s'
               | (Err e, s') => (Err e, s')
               | (Panic, s') => (Panic, s')
               end.
Proof. done. Qed.

Lemma bind_ok {S A B} (m : M S A) (k : A -> M S B) s a s1 :
  m s = (Ok a, s1) -> (m ≫= k) s = k a s1.
Proof. intros H. unfold mbind, M_bind. by rewrite H. Qed.

Lemma bind_inv {S A B} (m : M S A) (k : A -> M S B) s b s' :
  (m ≫= k) s = (Ok b, s') -> exists a s1, m s = (Ok a, s1) /\ k a s1 = (Ok b, s').
Proof.
  unfold mbind, M_bind. destruct (m s) as [[a|e|] s1]; [|done..]. eauto.
Qed.

Lemma bind_gets {S A B} (f : S -> A) (k : A -> M S B) s : (gets f ≫= k) s = k (f s) s.
Proof. done. Qed.

Lemma bind_of_res {S A B} (r : Res A) (k : A -> M S B) s :
  (of_res r ≫= k) s = match r with Ok a => k a s | Err e => (Err e, s) | Panic => (Panic, s) end.
Proof. done. Qed.

(** ** Hoare triples

    [hoare P m Q]: from a state in [P], every outcome of [m] (a value, an error or the
    death of the process) satisfies [Q]. *)

Definition hoare {S A} (P : S -> Prop) (m : M S A) (Q : Res A -> S -> Prop) : Prop :=
  forall s, P s -> Q (fst (m s)) (snd (m s)).

(** [keeps I m]: whatever the outcome of [m], [I] still holds. *)
Definition keeps {S A} (I : S -> Prop) (m : M S A) : Prop := hoare I m (fun _ => I).

Section Rules.
Context {S : Type}.
Implicit Types (I P : S -> Prop).

Lemma hoare_bind {A B} P (m : M S A) (k : A -> M S B) (R : A -> S -> Prop) Q :
  hoare P m (fun r s => match r with
                        | Ok a => R a s | Err e => Q (Err e) s | Panic => Q Panic s end) ->
  (forall a, hoare (R a) (k a) Q) -> hoare P (m ≫= k) Q.
Proof.
  intros Hm Hk s Hs. specialize (Hm s Hs). unfold mbind, M_bind.
  destruct (m s) as [[a|e|] s']; simpl in *; [|done..]. by apply Hk.
Qed.

Lemma hoare_weaken {A} P P' (m : M S A) (Q Q' : Res A -> S -> Prop) :
  hoare P m Q -> (forall s, P' s -> P s) -> (forall r s, Q r s -> Q' r s) -> hoare P' m Q'.
Proof. intros H HP HQ s Hs. by apply HQ, H, HP. Qed.

Lemma keeps_bind {A B} I (m : M S A) (k : A -> M S B) :
  keeps I m -> (forall a, keeps I (k a)) -> keeps I (m ≫= k).
Proof.
  intros Hm Hk. apply hoare_bind with (R := fun _ => I); [|done].
  intros s Hs. specialize (Hm s Hs). by destruct (m s) as [[] ?].
Qed.

Lemma keeps_ret {A} I (a : A) : keeps I (mret a).
Proof. by intros s Hs. Qed.

Lemma keeps_throw {A} I e : keeps I (throw e : M S A).
Proof. by intros s Hs. Qed.

Lemma keeps_of_res {A} I (r : Res A) : keeps I (of_res r).
Proof. by intros s Hs. Qed.

Lemma keeps_gets {A} I (f : S -> A) : keeps I (gets f).
Proof. by intros s Hs. Qed.

Lemma keeps_map_err {A} I f (m : M S A) : keeps I m -> keeps I (map_err f m).
Proof.
  intros Hm s Hs. specialize (Hm s Hs). unfold map_err.
  by destruct (m s) as [[] ?].
Qed.

Lemma keeps_catch {A} I (m : M S A) h :
  keeps I m -> (forall e, keeps I (h e)) -> keeps I (catch m h).
Proof.
  intros Hm Hh s Hs. specialize (Hm s Hs). unfold catch.
  destruct (m s) as [[] ?]; [done|by apply Hh|done].
Qed.

End Rules.

Create HintDb io.
#[export] Hint Resolve keeps_ret keeps_throw keeps_of_res keeps_gets keeps_map_err : io.

(** Decompose binds and close each call with the database. *)
Ltac monad_auto := repeat first [solve [eauto with io] | apply keeps_bind; [|intros ?]].

Lemma keeps_for_each {S A} (I : S -> Prop) (l : list A) (f : A -> M S unit) :
  (forall a, keeps I (f a)) -> keeps I (for_each l f).
Proof. intros Hf. induction l as [|a l IH]; simpl; monad_auto. Qed.

Lemma keeps_collect {S A B} (I : S -> Prop) (l : list A) (f : A -> M S B) :
  (forall a, keeps I (f a)) -> keeps I (collect l f).
Proof. intros Hf. induction l as [|a l IH]; simpl; monad_auto. Qed.

Lemma keeps_and {S A} (I J : S -> Prop) (c : M S A) :
  keeps I c -> keeps J c -> keeps (fun s => I s /\ J s) c.
Proof. intros HI HJ s [Hs1 Hs2]. split; [by apply HI|by apply HJ]. Qed.

(** A completed [collect] ran its body on every element. *)
Lemma collect_inv {S A B} (J : S -> Prop) (f : A -> M S B) l s bs s' :
  (forall a, keeps J (f a)) -> J s -> collect l f s = (Ok bs, s') ->
  Forall2 (fun a b => exists s1 s2, J s1 /\ f a s1 = (Ok b, s2)) l bs /\ J s'.
Proof.
  intros Hf. revert s bs. induction l as [|a l IH]; intros s bs Hs; simpl.
  - intros [= <- <-]. by split.
  - intros (b & s1 & Hb & (bs' & s2 & Hbs & [= <- <-])%bind_inv)%bind_inv.
    pose proof (Hf a s Hs) as H1. rewrite Hb in H1. destruct (IH s1 bs' H1 Hbs).
    split; [constructor; eauto 6|done].
Qed.

Lemma collect_fine {S A B} (Q : B -> Prop) (f : A -> M S B) l s :
  (forall a, a ∈ l -> exists b, f a s = (Ok b, s) /\ Q b) ->
  exists bs, collect l f s = (Ok bs, s) /\ Forall Q bs.
Proof.
  induction l as [|a l IH]; simpl; intros Hl; [by eexists|].
  destruct (Hl a) as (b & Hb & HQ); [left|].
  destruct IH as (bs & Hbs & HQs); [intros; apply Hl; by right|].
  exists (b :: bs). rewrite (bind_ok _ _ _ _ _ Hb), (bind_ok _ _ _ _ _ Hbs). auto.
Qed.
