(* ===== verification/Driver.v ===== *)
(** * Driver: the DBLog incremental snapshot

    Models [src/src/source/incremental_snapshot/driver.rs].  The database half
    ([IncrementalSnapshotBackend]) and the live stream ([StreamHandle]) are type classes,
    as they are traits in the source; the driver is verified against them.  [drive_step]
    is one iteration of the loop of [drive]; [drive] runs it up to a number of
    iterations.

    A hash map of row filters is the list of its entries in the order an iteration
    visits them, which is unspecified; log output is left out. *)

From S2P Require Import Prelude Errors CheckpointApi Strs Json Offsets Event Monad.

Module Driver.

Local Open Scope string_scope.
Local Open Scope Z_scope.

Abbreviation Event := Event.Event.

(** ** The backend and the stream *)

Inductive BracketPosition := Before | Inside | After.

#[global] Instance BracketPosition_eq_dec : EqDecision BracketPosition.
Proof. solve_decision. Defined.

Record SnapshotTable := {
  tbl_schema : string;
  tbl_name : string;
  qualified : string;
  pk_columns : list string;
  pk_types : list string;
  columns : list string;
  tbl_condition : option string;
}.

Record ChunkRow := {
  row_cursor : list json;
  row : json;
}.

(** [IncrementalSnapshotBackend]; [now_millis] is the wall clock. *)
Class Backend (B P : Type) := {
  pos_ltb : P -> P -> bool;
  describe_table : string -> M B SnapshotTable;
  current_position : M B P;
  fetch_chunk : SnapshotTable -> option (list json) -> nat -> M B (list ChunkRow);
  position_of_event : B -> Event -> option P;
  event_in_bracket : B -> Event -> P -> P -> P -> BracketPosition;
  offset_with_snapshot_state : B -> DynOffset -> IncrementalSnapshotState -> option DynOffset;
  now_millis : M B Z;
}.

(** The default of [event_in_bracket]. *)
Definition ordinal_bracket {P} (ltb : P -> P -> bool) (position low high : P) : BracketPosition :=
  if ltb high position then After else if ltb low position then Inside else Before.

(** The methods of [StreamHandle] the driver uses of the inner stream. *)
Class StreamHandle (I : Type) := {
  next_events : Z -> M I (list Event);
  position_offset : I -> option DynOffset;
  incremental_snapshot_state : I -> option IncrementalSnapshotState;
  resume_offset_for : I -> Event -> option string;
  requeue_events : list Event -> M I unit;
  confirm_lsn : Z -> M I unit;
}.

(** ** Driver state *)

Record TableProgress := {
  spec : SnapshotTable;
  pk_cursor : option (list json);
  is_complete : bool;
  chunks_emitted : Z;
  rows_emitted : Z;
}.

(** [TableProgress::key] *)
Definition tbl_key (s : SnapshotTable) : string := tbl_schema s +:+ "." +:+ tbl_name s.
Definition key (t : TableProgress) : string := tbl_key (spec t).

Inductive Phase (P : Type) :=
| ChunkPrepare (table_idx : nat)
| ChunkCollect (table_idx : nat) (low_watermark high_watermark : P)
    (chunk_rows : list (string * Event)) (chunk_index_by_key : gmap string nat)
    (override_pks : gset string) (next_cursor : list json)
| ChunkEmit (table_idx : nat) (events : list Event) (next_cursor : list json) (row_count : Z)
| Done.
Arguments ChunkPrepare {P}.
Arguments ChunkCollect {P}.
Arguments ChunkEmit {P}.
Arguments Done {P}.

Record Driver (B I P : Type) := {
  backend : B;
  inner : I;
  tables : list TableProgress;
  phase : Phase P;
  chunk_size : nat;
  table_conditions : list (string * string);
  source_name : string;
  snapshot_id : string;
  events_emitted : Z;
  paused : bool;
  generation : Z;
  stopped : bool;
  deferred : list Event;
}.
Arguments backend {B I P}. Arguments inner {B I P}. Arguments tables {B I P}.
Arguments phase {B I P}. Arguments chunk_size {B I P}. Arguments table_conditions {B I P}.
Arguments source_name {B I P}. Arguments snapshot_id {B I P}. Arguments events_emitted {B I P}.
Arguments paused {B I P}. Arguments generation {B I P}. Arguments stopped {B I P}.
Arguments deferred {B I P}.

Definition EMIT_BATCH_SIZE : nat := 1000.
Definition COLLECT_POLL_CEILING_MS : Z := 100.

(** [u32] addition that stops at the maximum. *)
Definition saturating_add_u32 (a b : Z) : Z := Z.min (a + b) u32_max.

(** ** Row filters *)

Definition lookup_condition (conditions : list (string * string)) (table_ref : string)
    (s : SnapshotTable) : option string :=
  snd <$> List.find (fun kv => eq_nocase (fst kv) table_ref || eq_nocase (fst kv) (tbl_key s))
            conditions.

Definition with_condition (c : option string) (s : SnapshotTable) : SnapshotTable :=
  {| tbl_schema := tbl_schema s; tbl_name := tbl_name s; qualified := qualified s;
     pk_columns := pk_columns s; pk_types := pk_types s; columns := columns s;
     tbl_condition := c |}.

(** [HashMap::extend] with one entry: an existing key keeps its slot. *)
Fixpoint map_insert (k v : string) (m : list (string * string)) : list (string * string) :=
  match m with
  | [] => [(k, v)]
  | (k', v') :: m' => if String.eqb k k' then (k, v) :: m' else (k', v') :: map_insert k v m'
  end.

(** ** Fingerprints *)

Section Fingerprints.
Context `{JsonCodec}.

Definition pk_fingerprint (t : string) (values : list json) : string :=
  t +:+ "|" +:+ string_of_list_byte (print_json (JArr values)).

Definition fingerprint_from_payload (t : string) (pks : list string) (payload : json) : string :=
  pk_fingerprint t (map (fun c => default JNull (get c payload)) pks).

Definition event_fingerprint (e : Event) : option string :=
  pks ← Event.primary_key e;
  match pks with
  | [] => None
  | _ =>
      payload ← match Event.after e with Some a => Some a | None => Event.before e end;
      Some (fingerprint_from_payload (Event.table e) pks payload)
  end.

End Fingerprints.

(** ** Pure steps of the state machine *)

Section Steps.
Context {B I P : Type}.
Abbreviation D := (Driver B I P).

Definition set_phase (p : Phase P) (d : D) : D :=
  {| backend := backend d; inner := inner d; tables := tables d; phase := p;
     chunk_size := chunk_size d; table_conditions := table_conditions d;
     source_name := source_name d; snapshot_id := snapshot_id d;
     events_emitted := events_emitted d; paused := paused d; generation := generation d;
     stopped := stopped d; deferred := deferred d |}.
Definition set_tables (ts : list TableProgress) (d : D) : D :=
  {| backend := backend d; inner := inner d; tables := ts; phase := phase d;
     chunk_size := chunk_size d; table_conditions := table_conditions d;
     source_name := source_name d; snapshot_id := snapshot_id d;
     events_emitted := events_emitted d; paused := paused d; generation := generation d;
     stopped := stopped d; deferred := deferred d |}.
Definition set_deferred (es : list Event) (d : D) : D :=
  {| backend := backend d; inner := inner d; tables := tables d; phase := phase d;
     chunk_size := chunk_size d; table_conditions := table_conditions d;
     source_name := source_name d; snapshot_id := snapshot_id d;
     events_emitted := events_emitted d; paused := paused d; generation := generation d;
     stopped := stopped d; deferred := es |}.
Definition set_inner (i : I) (d : D) : D :=
  {| backend := backend d; inner := i; tables := tables d; phase := phase d;
     chunk_size := chunk_size d; table_conditions := table_conditions d;
     source_name := source_name d; snapshot_id := snapshot_id d;
     events_emitted := events_emitted d; paused := paused d; generation := generation d;
     stopped := stopped d; deferred := deferred d |}.
Definition set_backend (b : B) (d : D) : D :=
  {| backend := b; inner := inner d; tables := tables d; phase := phase d;
     chunk_size := chunk_size d; table_conditions := table_conditions d;
     source_name := source_name d; snapshot_id := snapshot_id d;
     events_emitted := events_emitted d; paused := paused d; generation := generation d;
     stopped := stopped d; deferred := deferred d |}.
Definition set_control (p s : bool) (g : Z) (d : D) : D :=
  {| backend := backend d; inner := inner d; tables := tables d; phase := phase d;
     chunk_size := chunk_size d; table_conditions := table_conditions d;
     source_name := source_name d; snapshot_id := snapshot_id d;
     events_emitted := events_emitted d; paused := p; generation := g;
     stopped := s; deferred := deferred d |}.
Definition set_emitted (n : Z) (d : D) : D :=
  {| backend := backend d; inner := inner d; tables := tables d; phase := phase d;
     chunk_size := chunk_size d; table_conditions := table_conditions d;
     source_name := source_name d; snapshot_id := snapshot_id d;
     events_emitted := n; paused := paused d; generation := generation d;
     stopped := stopped d; deferred := deferred d |}.

(** Calls on the backend and on the inner stream. *)
Definition on_backend {A} (m : M B A) : M D A := fun d =>
  let '(r, b) := m (backend d) in (r, set_backend b d).
Definition on_inner {A} (m : M I A) : M D A := fun d =>
  let '(r, i) := m (inner d) in (r, set_inner i d).

Fixpoint position_of_incomplete (ts : list TableProgress) : option nat :=
  match ts with
  | [] => None
  | t :: ts' => if negb (is_complete t) then Some O else S <$> position_of_incomplete ts'
  end.
Definition next_incomplete_table (d : D) : option nat := position_of_incomplete (tables d).

Definition emit_batch_size (d : D) : nat :=
  if (chunk_size d =? 0)%nat then EMIT_BATCH_SIZE else chunk_size d.

(** [drain_deferred] *)
Definition drain_deferred (d : D) : list Event * D :=
  let n := Nat.min (length (deferred d)) (emit_batch_size d) in
  (take n (deferred d), set_deferred (drop n (deferred d)) d).

Definition commit_chunk_progress (table_idx : nat) (next_cursor : list json) (row_count : Z)
    (d : D) : D :=
  set_tables (alter (fun t =>
    {| spec := spec t;
       pk_cursor := match next_cursor with [] => pk_cursor t | _ => Some next_cursor end;
       is_complete := is_complete t;
       chunks_emitted := saturating_add_u32 (chunks_emitted t) 1;
       rows_emitted := saturating_add (rows_emitted t) row_count |}) table_idx (tables d)) d.

(** [finalize_collect] *)
Definition finalize_collect (d : D) : D :=
  match phase d with
  | ChunkCollect table_idx _ _ chunk_rows _ override_pks next_cursor =>
      let merged := map snd
        (List.filter (fun x => negb (bool_decide (fst x ∈ override_pks))) chunk_rows) in
      set_phase (ChunkEmit table_idx merged next_cursor (Z.of_nat (length merged))) d
  | _ => d
  end.

(** [set_paused] *)
Definition set_paused (p : bool) (d : D) : bool * D :=
  let d1 := set_control p (stopped d) (generation d) d in
  (paused d,
   match phase d1 with
   | Done =>
       if p then d1
       else match next_incomplete_table d1 with
            | Some table_idx => set_phase (ChunkPrepare table_idx) d1
            | None => d1
            end
   | _ => d1
   end).

(** [stop_snapshot] *)
Definition stop_snapshot (d : D) : nat * D :=
  (length (List.filter (fun t => negb (is_complete t)) (tables d)),
   set_control false true (saturating_add_u32 (generation d) 1)
     (set_phase Done (set_tables [] d))).

(** [snapshot_state] *)
Definition table_state (t : TableProgress) : IncrementalSnapshotTableState :=
  {| Offsets.table := key t; Offsets.pk_cursor := pk_cursor t;
     Offsets.is_complete := is_complete t; Offsets.chunks_emitted := chunks_emitted t;
     Offsets.rows_emitted := rows_emitted t; Offsets.condition := tbl_condition (spec t) |}.

Definition snapshot_state (d : D) : IncrementalSnapshotState :=
  {| Offsets.snapshot_id := snapshot_id d; Offsets.tables := map table_state (tables d);
     Offsets.paused := paused d; Offsets.stopped := stopped d;
     Offsets.generation := generation d |}.

End Steps.

(** ** Repairing partial payloads *)

(** The closure [fill]: columns found in the shadow are copied into the image and
    dropped from the list; the result is the list, the image and the columns left. *)
Fixpoint fill_columns (shadow : object) (cols : list string) (image : object)
    : list string * object :=
  match cols with
  | [] => ([], image)
  | c :: cols' =>
      match obj_get c shadow with
      | Some v => fill_columns shadow cols' (obj_insert c v image)
      | None => let '(rest, im) := fill_columns shadow cols' image in (c :: rest, im)
      end
  end.

Definition fill (shadow : object) (cols : list string) (image : option json)
    : list string * option json * list string :=
  match cols with
  | [] => ([], image, [])
  | _ =>
      match image with
      | Some (JObj m) =>
          let '(rest, m') := fill_columns shadow cols m in (rest, Some (JObj m'), rest)
      | _ => (cols, image, [])
      end
  end.

Definition with_images (e : Event) (b a : option json) (bu au : list string) : Event :=
  {| Event.before := b; Event.after := a; Event.op := Event.op e; Event.source := Event.source e;
     Event.ts := Event.ts e; Event.schema := Event.schema e; Event.table := Event.table e;
     Event.primary_key := Event.primary_key e; Event.snapshot := Event.snapshot e;
     Event.transaction := Event.transaction e;
     Event.envelope_version := Event.envelope_version e;
     Event.before_is_key_only := Event.before_is_key_only e;
     Event.unavailable_columns := au; Event.before_unavailable_columns := bu |}.

(** Folding the event's values into the shadow. *)
Definition fold_into (after : option json) (shadow : object) : object :=
  match after with
  | Some (JObj m) => fold_left (fun s kv => obj_insert (fst kv) (snd kv) s) m shadow
  | _ => shadow
  end.

(** The repair of one event from the shadow of its row. *)
Definition repair_event (shadow : object) (e : Event) : Event * object * list string :=
  let '(bu, b, u1) := fill shadow (Event.before_unavailable_columns e) (Event.before e) in
  let '(au, a, u2) := fill shadow (Event.unavailable_columns e) (Event.after e) in
  (with_images e b a bu au, fold_into a shadow, (u1 ++ u2)%list).

Definition set_after (e : Event) (a : option json) : Event :=
  with_images e (Event.before e) a (Event.before_unavailable_columns e)
    (Event.unavailable_columns e).

(** [repair_partial_payload] on the buffered chunk. *)
Definition repair_partial_payload (chunk_rows : list (string * Event)) (index : gmap string nat)
    (fp : string) (e : Event) : Event * list (string * Event) * list string :=
  match index !! fp with
  | None => (e, chunk_rows, [])
  | Some i =>
      match chunk_rows !! i with
      | Some (k, r) =>
          match Event.after r with
          | Some (JObj shadow) =>
              let '(e', shadow', unfilled) := repair_event shadow e in
              (e', <[i := (k, set_after r (Some (JObj shadow')))]> chunk_rows, unfilled)
          | _ => (e, chunk_rows, Event.unavailable_columns e)
          end
      | None => (e, chunk_rows, Event.unavailable_columns e)
      end
  end.

(** ** The state machine *)

Section Drive.
Context `{JsonCodec} {B I P : Type} `{Backend B P} `{StreamHandle I}.
Abbreviation D := (Driver B I P).

Definition describe_with_condition (table_ref : string) (conditions : list (string * string))
    : M B SnapshotTable :=
  s ← describe_table table_ref;
  mret (with_condition (lookup_condition conditions table_ref s) s).

(** [enqueue_tables]; [hash_order] is the iteration order of the merged map. *)
Definition enqueue_spec (acc : list TableProgress * nat) (s : SnapshotTable)
    : list TableProgress * nat :=
  let '(ts, n) := acc in
  let fresh := {| spec := s; pk_cursor := None; is_complete := false; chunks_emitted := 0;
                  rows_emitted := 0 |} in
  match list_find (fun t => key t = tbl_key s) ts with
  | Some (i, existing) =>
      if is_complete existing then (<[i := fresh]> ts, S n) else (ts, n)
  | None => ((ts ++ [fresh])%list, S n)
  end.

Definition enqueue_tables (hash_order : list (string * string) -> list (string * string))
    (refs : list string) (request_conditions : list (string * string)) : M D nat :=
  d ← gets id;
  let conditions := hash_order
    (fold_left (fun m kv => map_insert (fst kv) (snd kv) m) request_conditions
       (table_conditions d)) in
  resolved ← collect refs (fun r =>
    s ← on_backend (describe_with_condition r conditions);
    match pk_columns s with
    | [] => throw (ConfigError "incremental snapshot: table must have a primary key")
    | _ => mret s
    end);
  d ← gets id;
  let '(ts, enqueued) := fold_left enqueue_spec resolved (tables d, O) in
  modify (set_tables ts) ;;
  if (0 <? enqueued)%nat then
    modify (fun d => set_control (paused d) false (saturating_add_u32 (generation d) 1) d) ;;
    d ← gets id;
    match next_incomplete_table d, phase d with
    | Some table_idx, Done => modify (set_phase (ChunkPrepare table_idx)) ;; mret enqueued
    | _, _ => mret enqueued
    end
  else mret enqueued.

(** The first loop of [new]: one entry per configured table, resumed from its persisted
    progress. *)
Definition seed_table (conditions : list (string * string))
    (resume : option IncrementalSnapshotState) (table_ref : string) : M B TableProgress :=
  s ← describe_with_condition table_ref conditions;
  match pk_columns s with
  | [] => throw (ConfigError "incremental snapshot: table must have a primary key")
  | _ =>
      let persisted := st ← resume; state_table (tbl_key s) st in
      let entry := mret
        {| spec := s; pk_cursor := p ← persisted; Offsets.pk_cursor p;
           is_complete := default false (Offsets.is_complete <$> persisted);
           chunks_emitted := default 0 (Offsets.chunks_emitted <$> persisted);
           rows_emitted := default 0 (Offsets.rows_emitted <$> persisted) |} in
      match p ← persisted; Offsets.pk_cursor p with
      | Some cursor =>
          if (length cursor =? length (pk_columns s))%nat then entry
          else throw (CheckpointError
                 "incremental snapshot: persisted keyset cursor has a different arity")
      | None => entry
      end
  end.

(** The second loop: an unfinished persisted table the configuration does not name is
    adopted, unless it can no longer be described. *)
Definition adopt_table (conditions : list (string * string)) (ts : list TableProgress)
    (p : IncrementalSnapshotTableState) : M B (list TableProgress) := fun b =>
  if Offsets.is_complete p then (Ok ts, b)
  else if existsb (fun t => String.eqb (key t) (Offsets.table p)) ts then (Ok ts, b)
  else
    match describe_with_condition (Offsets.table p) conditions b with
    | (Ok s, b') =>
        match pk_columns s with
        | [] => (Ok ts, b')
        | _ => (Ok (ts ++ [{| spec := s; pk_cursor := Offsets.pk_cursor p; is_complete := false;
                              chunks_emitted := Offsets.chunks_emitted p;
                              rows_emitted := Offsets.rows_emitted p |}])%list, b')
        end
    | (Err _, b') => (Ok ts, b')
    | (Panic, b') => (Panic, b')
    end.

Fixpoint adopt_tables (conditions : list (string * string)) (ps : list IncrementalSnapshotTableState)
    (ts : list TableProgress) : M B (list TableProgress) :=
  match ps with
  | [] => mret ts
  | p :: ps' => ts' ← adopt_table conditions ts p; adopt_tables conditions ps' ts'
  end.

(** [IncrementalSnapshotDriver::new], in the state of the backend; [conditions] is the
    configured filter map in its iteration order. *)
Definition new_driver (inn : I) (cfg_tables : list string) (cfg_chunk_size : nat)
    (conditions : list (string * string)) (source : string)
    (resume : option IncrementalSnapshotState) : M B D :=
  let was_stopped := default false (Offsets.stopped <$> resume) in
  let configured := if was_stopped then [] else cfg_tables in
  seeded ← collect configured (seed_table conditions resume);
  ts ← match resume with
       | Some st => if was_stopped then mret seeded
                    else adopt_tables conditions (Offsets.tables st) seeded
       | None => mret seeded
       end;
  sid ← match (st ← resume; if is_empty (Offsets.snapshot_id st) then None
                            else Some (Offsets.snapshot_id st)) with
        | Some i => mret i
        | None => now ← now_millis; mret ("incremental-" +:+ show now)
        end;
  b ← gets id;
  mret {| backend := b; inner := inn; tables := ts;
          phase := match position_of_incomplete ts with
                   | Some i => ChunkPrepare i | None => Done end;
          chunk_size := Nat.max cfg_chunk_size 1; table_conditions := conditions;
          source_name := source; snapshot_id := sid; events_emitted := 0;
          paused := default false (Offsets.paused <$> resume);
          generation := default 0 (Offsets.generation <$> resume);
          stopped := was_stopped; deferred := [] |}.

Definition build_snapshot_event (d : D) (t : SnapshotTable) (fp : string) (r : json)
    (chunk_index now : Z) : Event :=
  {| Event.before := None; Event.after := Some r; Event.op := Event.Read;
     Event.source := {| Event.source_name := source_name d;
                        Event.offset := "incremental:" +:+ show (generation d) +:+ ":"
                                        +:+ qualified t +:+ ":" +:+ fp;
                        Event.timestamp := now |};
     Event.ts := now; Event.schema := Some (tbl_schema t); Event.table := tbl_name t;
     Event.primary_key := Some (pk_columns t);
     Event.snapshot := Some {| Event.snapshot_id := snapshot_id d;
                               Event.chunk_index := chunk_index; Event.is_last_chunk := false |};
     Event.transaction := None; Event.envelope_version := Event.EVENT_ENVELOPE_VERSION;
     Event.before_is_key_only := false; Event.unavailable_columns := [];
     Event.before_unavailable_columns := [] |}.

(** [chunk_rows.iter().enumerate().map(..).collect()]: a later duplicate wins. *)
Definition index_by_key (chunk_rows : list (string * Event)) : gmap string nat :=
  fold_left (fun m x => <[fst (snd x) := fst x]> m)
    (zip (seq 0 (length chunk_rows)) chunk_rows) ∅.

Definition goto_next_table (d : D) : Phase P :=
  match next_incomplete_table d with Some i => ChunkPrepare i | None => Done end.

(** [drive_chunk_prepare] *)
Definition drive_chunk_prepare : M D unit :=
  d ← gets id;
  match phase d with
  | ChunkPrepare idx =>
      if paused d then mret tt
      else
        let target :=
          match tables d !! idx with
          | Some t => if negb (is_complete t) then Some idx else next_incomplete_table d
          | None => next_incomplete_table d
          end in
        match target with
        | None => modify (set_phase Done)
        | Some table_idx =>
            match tables d !! table_idx with
            | None => of_res Panic
            | Some t =>
                low ← on_backend current_position;
                rows ← on_backend (fetch_chunk (spec t) (pk_cursor t) (chunk_size d));
                high ← on_backend current_position;
                match rows with
                | [] =>
                    modify (fun d => set_tables (alter (fun t =>
                      {| spec := spec t; pk_cursor := pk_cursor t; is_complete := true;
                         chunks_emitted := chunks_emitted t; rows_emitted := rows_emitted t |})
                      table_idx (tables d)) d) ;;
                    modify (fun d => set_phase (goto_next_table d) d)
                | _ =>
                    let next_cursor := default [] (row_cursor <$> last rows) in
                    chunk_rows ← collect rows (fun r =>
                      let fp := fingerprint_from_payload (tbl_name (spec t))
                                  (pk_columns (spec t)) (row r) in
                      now ← on_backend now_millis;
                      mret (fp, build_snapshot_event d (spec t) fp (row r)
                                  (chunks_emitted t) now));
                    modify (set_phase (ChunkCollect table_idx low high chunk_rows
                      (index_by_key chunk_rows) ∅ next_cursor))
                end
            end
        end
  | _ => mret tt
  end.

(** The scan of a polled batch: the largest position, the index of the first event past
    the high watermark, and the indices of same-table events inside the bracket. *)
Record Scan := {
  max_position : option P;
  split_at : option nat;
  in_bracket : list nat;
}.

Definition same_table (t : SnapshotTable) (e : Event) : bool :=
  String.eqb (Event.table e) (tbl_name t)
  && String.eqb (default (tbl_schema t) (Event.schema e)) (tbl_schema t).

Definition scan_event (b : B) (t : SnapshotTable) (low high : P) (acc : Scan)
    (x : nat * Event) : Scan :=
  let '(index, e) := x in
  match position_of_event b e with
  | None => acc
  | Some position =>
      let membership := event_in_bracket b e position low high in
      {| max_position :=
           match max_position acc with
           | Some m => if pos_ltb m position then Some position else Some m
           | None => Some position
           end;
         split_at :=
           match split_at acc with
           | None => if decide (membership = After) then Some index else None
           | s => s
           end;
         in_bracket :=
           if same_table t e && bool_decide (membership = Inside)
           then (in_bracket acc ++ [index])%list else in_bracket acc |}
  end.

Definition scan (b : B) (t : SnapshotTable) (low high : P) (events : list Event) : Scan :=
  fold_left (scan_event b t low high) (zip (seq 0 (length events)) events)
    {| max_position := None; split_at := None; in_bracket := [] |}.

(** Repair and record one event inside the bracket. *)
Definition absorb (index : gmap string nat)
    (acc : list Event * list (string * Event) * gset string) (i : nat)
    : list Event * list (string * Event) * gset string :=
  let '(events, chunk_rows, override_pks) := acc in
  match e ← events !! i; fp ← event_fingerprint e; Some (e, fp) with
  | Some (e, fp) =>
      let '(e', chunk_rows', _) := repair_partial_payload chunk_rows index fp e in
      (<[i := e']> events, chunk_rows', {[fp]} ∪ override_pks)
  | None => acc
  end.

(** The [ChunkCollect] arm of [drive]. *)
Definition drive_collect (timeout_ms : Z) : M D (option (list Event)) :=
  polled ← on_inner (next_events (Z.min timeout_ms COLLECT_POLL_CEILING_MS));
  d ← gets id;
  match phase d with
  | ChunkCollect table_idx low high chunk_rows index override_pks next_cursor =>
      match tables d !! table_idx with
      | None => of_res Panic
      | Some t =>
          let s := scan (backend d) (spec t) low high polled in
          let '(events, chunk_rows', override') :=
            fold_left (absorb index) (in_bracket s) (polled, chunk_rows, override_pks) in
          modify (set_phase (ChunkCollect table_idx low high chunk_rows' index override'
                               next_cursor)) ;;
          watermark_passed ←
            (match max_position s with
             | Some m =>
                 if negb (pos_ltb m high) then mret true
                 else match events with
                      | [] => now ← on_backend current_position; mret (negb (pos_ltb now high))
                      | _ => mret false
                      end
             | None => match events with
                       | [] => now ← on_backend current_position;
                               mret (negb (pos_ltb now high))
                       | _ => mret false
                       end
             end);
          let n := default (length events) (split_at s) in
          modify (fun d => set_deferred (deferred d ++ drop n events)%list d) ;;
          (if watermark_passed : bool then modify finalize_collect else mret tt) ;;
          match take n events with
          | [] => if watermark_passed : bool then mret None else mret (Some [])
          | head => mret (Some head)
          end
      end
  | _ => of_res Panic
  end.

(** Take the held-back events, or poll the stream. *)
Definition deferred_or_stream (timeout_ms : Z) : M D (list Event) :=
  d ← gets id;
  match deferred d with
  | [] => on_inner (next_events timeout_ms)
  | _ => let '(es, d') := drain_deferred d in modify (fun _ => d') ;; mret es
  end.

(** One iteration of the loop: [Some] returns a batch, [None] goes round again. *)
Definition drive_step (timeout_ms : Z) : M D (option (list Event)) :=
  d ← gets id;
  match phase d with
  | Done => es ← deferred_or_stream timeout_ms; mret (Some es)
  | ChunkEmit table_idx events next_cursor row_count =>
      let n := Nat.min (length events) (emit_batch_size d) in
      if (0 <? n)%nat then
        modify (set_phase (ChunkEmit table_idx (drop n events) next_cursor row_count)) ;;
        mret (Some (take n events))
      else
        match tables d !! table_idx with
        | None => of_res Panic
        | Some _ =>
            modify (commit_chunk_progress table_idx next_cursor row_count) ;;
            modify (set_phase (ChunkPrepare table_idx)) ;;
            d ← gets id;
            match deferred d with
            | [] => mret None
            | _ => let '(es, d') := drain_deferred d in modify (fun _ => d') ;; mret (Some es)
            end
        end
  | ChunkPrepare _ =>
      if paused d then es ← deferred_or_stream timeout_ms; mret (Some es)
      else drive_chunk_prepare ;; mret None
  | ChunkCollect _ _ _ _ _ _ _ => drive_collect timeout_ms
  end.

(** [drive], cut off after [fuel] iterations. *)
Fixpoint drive (fuel : nat) (timeout_ms : Z) : M D (option (list Event)) :=
  match fuel with
  | O => mret None
  | S fuel' =>
      r ← drive_step timeout_ms;
      match r with Some es => mret (Some es) | None => drive fuel' timeout_ms end
  end.

(** [StreamHandle::next_events] of the driver. *)
Definition driver_next_events (fuel : nat) (timeout_ms : Z) : M D (option (list Event)) :=
  r ← drive fuel timeout_ms;
  match r with
  | Some es =>
      modify (fun d => set_emitted
        (saturating_add (events_emitted d) (Z.of_nat (length es))) d) ;; mret (Some es)
  | None => mret None
  end.

(** [StreamHandle::position_offset] of the driver. *)
Definition driver_position_offset (d : D) : option DynOffset :=
  match deferred d with
  | [] =>
      o ← position_offset (inner d);
      offset_with_snapshot_state (backend d) o (snapshot_state d)
  | _ => None
  end.

(** [StreamHandle::save_position] of the driver; [inner_save] is the inner stream's. *)
Definition driver_save_position {C} `{Checkpoint C} (inner_save : D -> C -> Res unit * C)
    (d : D) (c : C) : Res unit * C :=
  match deferred d with
  | _ :: _ => (Ok tt, c)
  | [] =>
      match driver_position_offset d with
      | Some o => save o (events_emitted d) c
      | None => inner_save d c
      end
  end.

(** The methods that delegate: the snapshot's state, requeuing and confirmation. *)
Definition driver_incremental_snapshot_state (d : D) : option IncrementalSnapshotState :=
  Some (snapshot_state d).
Definition driver_requeue_events (es : list Event) : M D unit := on_inner (requeue_events es).
Definition driver_confirm_lsn (lsn : Z) : M D unit := on_inner (confirm_lsn lsn).

(** [resume_offset_for] is not among the methods the driver implements: the trait's
    default answers. *)
Definition driver_resume_offset_for (d : D) (e : Event) : option string := None.

(** The driver is itself a stream; one poll runs the loop for five iterations more than
    the tables it has left to read, which is always enough. *)
#[export] Instance driver_stream : StreamHandle D := {|
  next_events t := fun d =>
    (r ← driver_next_events (5 + length (List.filter (fun t => negb (is_complete t)) (tables d))) t;
     mret (default [] r)) d;
  position_offset := driver_position_offset;
  incremental_snapshot_state := driver_incremental_snapshot_state;
  resume_offset_for := driver_resume_offset_for;
  requeue_events := driver_requeue_events;
  confirm_lsn := driver_confirm_lsn;
|}.

End Drive.

End Driver.
