(* ===== verification/DriverDelivery.v ===== *)
(** * DriverDelivery: what the incremental snapshot driver delivers

    Theorems about [Driver]: across any sequence of polls, pauses, stops and snapshot
    requests every event of the live stream is delivered or still held back, exactly
    once; a position is only offered for checkpointing when nothing is held back; log
    order is kept while a polled batch fits in one delivery, and not beyond that; every
    poll returns. *)

From S2P Require Import Prelude Errors CheckpointApi Strs Json Offsets Event Monad Driver.

Module DriverDelivery.
Import Driver.

Local Open Scope Z_scope.

(** ** Interfaces *)

(** What the driver relies on: a call on the database or on the stream returns, and a
    stream that reports an error has not consumed events.  [handed] is the log of the
    events the stream has given out. *)
Class BackendCalm (B P : Type) `{Backend B P} := {
  describe_calm r b : fst (describe_table r b) <> Panic;
  position_calm b : fst (current_position b) <> Panic;
  fetch_calm t c n b : fst (fetch_chunk t c n b) <> Panic;
  clock_calm b : fst (now_millis b) <> Panic;
}.

Class StreamLaws (I : Type) `{StreamHandle I} := {
  handed : I -> list Event;
  next_calm t i : fst (next_events t i) <> Panic;
  next_ok t i es i' : next_events t i = (Ok es, i') -> handed i' = (handed i ++ es)%list;
  next_err t i e i' : next_events t i = (Err e, i') -> handed i' = handed i;
}.

(** The watermark order: [Position] is totally ordered, and an event past the bracket is
    not below the high watermark. *)
Class BracketLaws (B P : Type) `{Backend B P} := {
  pos_cotrans a b c : pos_ltb a c = true -> pos_ltb a b = true \/ pos_ltb b c = true;
  pos_asym a b : pos_ltb a b = true -> pos_ltb b a = false;
  after_past_high b e p low high :
    event_in_bracket b e p low high = After -> pos_ltb p high = false;
}.

(** ** Specification vocabulary *)

(** Column [c] of an image. *)
Definition column (c : string) (image : option json) : option json :=
  im ← image; get c im.

(** [e'] is [e] with some of the columns it lists as unavailable filled in. *)
Record repaired (e e' : Event) : Prop := {
  rep_op : Event.op e' = Event.op e;
  rep_source : Event.source e' = Event.source e;
  rep_table : Event.table e' = Event.table e;
  rep_schema : Event.schema e' = Event.schema e;
  rep_key : Event.primary_key e' = Event.primary_key e;
  rep_tx : Event.transaction e' = Event.transaction e;
  rep_snapshot : Event.snapshot e' = Event.snapshot e;
  rep_after c : c ∉ Event.unavailable_columns e ->
    column c (Event.after e') = column c (Event.after e);
  rep_before c : c ∉ Event.before_unavailable_columns e ->
    column c (Event.before e') = column c (Event.before e);
  rep_unavailable : Event.unavailable_columns e' ⊆ Event.unavailable_columns e;
  rep_before_unavailable :
    Event.before_unavailable_columns e' ⊆ Event.before_unavailable_columns e;
}.

(** A row of a snapshot chunk. *)
Definition snapshot_row (e : Event) : Prop :=
  Event.op e = Event.Read /\ is_Some (Event.snapshot e).

(** Go to the arm of [drive_step] that handles the phase. *)
Ltac enter Hp :=
  unfold drive_step; rewrite bind_eq; unfold gets at 1, id; cbv beta iota; rewrite Hp;
  cbv beta iota.

Section Delivery.
Context `{JsonCodec} {B I P : Type} `{Backend B P} `{StreamHandle I}.
Abbreviation D := (Driver B I P).
Implicit Types d : D.

(** The calls a runtime makes on the driver. *)
Inductive Call :=
| Poll (fuel : nat) (timeout_ms : Z)
| Pause (p : bool)
| Stop
| Request (hash_order : list (string * string) -> list (string * string))
    (refs : list string) (conditions : list (string * string)).

Definition exec (c : Call) : M D (list Event) :=
  match c with
  | Poll fuel t => r ← driver_next_events fuel t; mret (default [] r)
  | Pause p => modify (fun d => snd (set_paused p d)) ;; mret []
  | Stop => modify (fun d => snd (stop_snapshot d)) ;; mret []
  | Request order refs cs => _ ← enqueue_tables order refs cs; mret []
  end.

(** A sequence of calls: the events delivered and the final state; a call that fails
    delivers nothing and the caller goes on. *)
Fixpoint run (cs : list Call) (d : D) : option (list Event * D) :=
  match cs with
  | [] => Some ([], d)
  | c :: cs' =>
      match exec c d with
      | (Ok es, d') => '(out, d'') ← run cs' d'; Some ((es ++ out)%list, d'')
      | (Err _, d') => run cs' d'
      | (Panic, _) => None
      end
  end.

(** The driver's invariant: the chunk being processed belongs to a known table and holds
    snapshot rows only. *)
Definition wf (d : D) : Prop :=
  match phase d with
  | ChunkCollect i _ _ rows _ _ _ =>
      (i < length (tables d))%nat /\ Forall (fun x => snapshot_row (snd x)) rows
  | ChunkEmit i es _ _ => (i < length (tables d))%nat /\ Forall snapshot_row es
  | _ => True
  end.

(** ** Repairs *)

#[local] Instance repaired_preorder : PreOrder repaired.
Proof.
  split; [by constructor|]. intros e1 e2 e3 H12 H23.
  constructor; lazymatch goal with
    | |- forall _, _ => idtac | |- _ => etrans; [apply H23|apply H12] end.
  - intros c Hc. rewrite <-(rep_after _ _ H12 c) by done. apply H23.
    intros ?. by apply Hc, (rep_unavailable _ _ H12).
  - intros c Hc. rewrite <-(rep_before _ _ H12 c) by done. apply H23.
    intros ?. by apply Hc, (rep_before_unavailable _ _ H12).
Qed.

Lemma fill_columns_other shadow cols m c :
  c ∉ cols -> obj_get c (snd (fill_columns shadow cols m)) = obj_get c m.
Proof.
  revert m. induction cols as [|x cols IH]; intros m Hc; simpl; [done|].
  apply not_elem_of_cons in Hc as [Hx Hc].
  destruct (obj_get x shadow) as [v|].
  - rewrite IH by done. by apply obj_get_insert_ne.
  - specialize (IH m Hc). by destruct (fill_columns shadow cols m).
Qed.

Lemma fill_columns_rest shadow cols m :
  fst (fill_columns shadow cols m) = filter (fun c => obj_get c shadow = None) cols.
Proof.
  revert m. induction cols as [|x cols IH]; intros m; simpl; [done|].
  rewrite filter_cons. destruct (obj_get x shadow) as [v|] eqn:E.
  - rewrite decide_False by done. apply IH.
  - rewrite decide_True by done. specialize (IH m).
    destruct (fill_columns shadow cols m). simpl in *. by f_equal.
Qed.

Lemma fill_other shadow cols im c :
  c ∉ cols -> column c (snd (fst (fill shadow cols im))) = column c im.
Proof.
  intros Hc. unfold fill. destruct cols as [|x cols]; [done|].
  destruct im as [[]|]; try done. pose proof (fill_columns_other shadow _ m c Hc) as E.
  destruct (fill_columns shadow (x :: cols) m). exact E.
Qed.

Lemma fill_subset shadow cols im : fst (fst (fill shadow cols im)) ⊆ cols.
Proof.
  unfold fill. destruct cols as [|x cols]; [done|]. destruct im as [[]|]; try done.
  pose proof (fill_columns_rest shadow (x :: cols) m) as E.
  destruct (fill_columns shadow (x :: cols) m). simpl in *. subst.
  intros c [_ Hc]%list_elem_of_filter. done.
Qed.

Lemma repair_event_repaired shadow e :
  repaired e (fst (fst (repair_event shadow e))).
Proof.
  unfold repair_event.
  pose proof (fill_other shadow (Event.before_unavailable_columns e) (Event.before e)).
  pose proof (fill_other shadow (Event.unavailable_columns e) (Event.after e)).
  pose proof (fill_subset shadow (Event.before_unavailable_columns e) (Event.before e)).
  pose proof (fill_subset shadow (Event.unavailable_columns e) (Event.after e)).
  destruct (fill shadow (Event.before_unavailable_columns e) _) as [[bu b] u1].
  destruct (fill shadow (Event.unavailable_columns e) _) as [[au a] u2].
  by constructor.
Qed.

Definition snapshot_rows (rows : list (string * Event)) : Prop :=
  Forall (fun x => snapshot_row (snd x)) rows.

Lemma repair_partial_payload_ok rows index fp e :
  snapshot_rows rows ->
  repaired e (fst (fst (repair_partial_payload rows index fp e))) /\
  snapshot_rows (snd (fst (repair_partial_payload rows index fp e))).
Proof.
  intros Hr. unfold repair_partial_payload.
  destruct (index !! fp) as [i|]; [|by split].
  destruct (rows !! i) as [[k r]|] eqn:Ei; [|by split].
  destruct (Event.after r) as [[]|]; try by split.
  pose proof (repair_event_repaired m e) as He.
  destruct (repair_event m e) as [[e' shadow'] u]. split; [done|].
  apply Forall_insert; [done|]. by apply (Forall_lookup_1 _ _ _ _ Hr Ei).
Qed.

Lemma absorb_ok index idxs es rows ov :
  snapshot_rows rows ->
  exists es' rows' ov', fold_left (absorb index) idxs (es, rows, ov) = (es', rows', ov') /\
    Forall2 repaired es es' /\ snapshot_rows rows'.
Proof.
  revert es rows ov. induction idxs as [|i idxs IH]; intros es rows ov Hr; simpl.
  { exists es, rows, ov. split_and!; [done| |done]. reflexivity. }
  destruct (es !! i) as [e|] eqn:Ei; simpl; [|by apply IH].
  destruct (event_fingerprint e) as [fp|]; simpl; [|by apply IH].
  destruct (repair_partial_payload_ok rows index fp e Hr) as [He Hr'].
  destruct (repair_partial_payload rows index fp e) as [[e' rows'] u]. simpl in *.
  destruct (IH (<[i:=e']> es) rows' ({[fp]} ∪ ov) Hr') as (es2 & rows2 & ov2 & E & Hes & Hrows).
  exists es2, rows2, ov2. split_and!; [done| |done].
  trans (<[i:=e']> es); [|done].
  rewrite <-(list_insert_id es i e) at 1 by done.
  apply Forall2_insert; [|done]. reflexivity.
Qed.

(** ** Deliveries *)

Context `{!StreamLaws I, !BackendCalm B P}.

(** [delivers R d es d']: going from [d] to [d'] the driver took [new] events from the
    stream and handed [es] to the consumer; [es] interleaves live events with snapshot
    rows; the live events and those still held back are, up to [R], the events held back
    before and the new ones. *)
Definition delivers (R : relation (list Event)) (d : D) (es : list Event) (d' : D) : Prop :=
  exists new new' live rows,
    handed (inner d') = (handed (inner d) ++ new)%list /\
    Forall2 repaired new new' /\
    Forall snapshot_row rows /\ live `sublist_of` es /\ es ≡ₚ (live ++ rows)%list /\
    R (live ++ deferred d')%list (deferred d ++ new')%list.

(** The relations deliveries are stated up to: order-preserving and not. *)
Class Append (R : relation (list Event)) := {
  append_pre : PreOrder R;
  append_proper : Proper (R ==> R ==> R) app;
}.
#[local] Existing Instances append_pre append_proper.
#[global] Instance append_eq : Append eq.
Proof. split; apply _. Qed.
#[global] Instance append_perm : Append Permutation.
Proof. split; apply _. Qed.

Lemma delivers_quiet R `{!Append R} d d' :
  inner d' = inner d -> deferred d' = deferred d -> delivers R d [] d'.
Proof.
  intros Hi Hd. exists [], [], [], []. rewrite Hi, Hd, !app_nil_r. by split_and!.
Qed.

Lemma delivers_trans R `{!Append R} d1 d2 d3 es1 es2 :
  delivers R d1 es1 d2 -> delivers R d2 es2 d3 -> delivers R d1 (es1 ++ es2)%list d3.
Proof.
  intros (n1 & n1' & l1 & r1 & Hh1 & Hn1 & Hr1 & Hs1 & Hp1 & HR1)
    (n2 & n2' & l2 & r2 & Hh2 & Hn2 & Hr2 & Hs2 & Hp2 & HR2).
  exists (n1 ++ n2)%list, (n1' ++ n2')%list, (l1 ++ l2)%list, (r1 ++ r2)%list. split_and!.
  - by rewrite Hh2, Hh1, (assoc_L _).
  - by apply Forall2_app.
  - by apply Forall_app.
  - by apply sublist_app.
  - rewrite Hp1, Hp2. solve_Permutation.
  - rewrite <-(assoc_L _ l1), HR2, (assoc_L _ l1), HR1, (assoc_L _). reflexivity.
Qed.

Definition out (r : Res (list Event)) : list Event := match r with Ok es => es | _ => [] end.
Definition out_opt (r : Res (option (list Event))) : list Event :=
  match r with Ok (Some es) => es | _ => [] end.

Lemma delivers_live R `{!Append R} d d' new :
  handed (inner d') = (handed (inner d) ++ new)%list -> deferred d = [] -> deferred d' = [] ->
  delivers R d new d'.
Proof.
  intros Hh Hd Hd'. exists new, new, new, []. rewrite Hd, Hd', !app_nil_r.
  split_and!; try done; reflexivity.
Qed.

Lemma next_outcome t i : exists r i',
  next_events t i = (r, i') /\ r <> Panic /\ handed i' = (handed i ++ out r)%list.
Proof.
  pose proof (next_calm t i) as Hc. destruct (next_events t i) as [[es|e|] i'] eqn:E; [| |done].
  - exists (Ok es), i'. split_and!; [done..|]. by apply (next_ok t).
  - exists (Err e), i'. split_and!; [done..|]. simpl. rewrite app_nil_r. by apply (next_err t _ e).
Qed.

(** The parts of the state a delivery does not touch. *)
Definition same_work (d d' : D) : Prop :=
  phase d' = phase d /\ tables d' = tables d /\ chunk_size d' = chunk_size d /\
  paused d' = paused d.

Lemma drain_deferred_delivers R `{!Append R} d :
  delivers R d (fst (drain_deferred d)) (snd (drain_deferred d)).
Proof.
  exists [], [], (fst (drain_deferred d)), []. simpl. rewrite !app_nil_r.
  split_and!; try done. rewrite take_drop. reflexivity.
Qed.

Lemma drain_deferred_all d :
  (length (deferred d) <= emit_batch_size d)%nat -> deferred (snd (drain_deferred d)) = [].
Proof.
  intros Hl. unfold drain_deferred. simpl deferred. rewrite Nat.min_l by done. apply drop_all.
Qed.

Lemma deferred_or_stream_ok R `{!Append R} t d : exists r d',
  deferred_or_stream t d = (r, d') /\ r <> Panic /\ same_work d d' /\ delivers R d (out r) d' /\
  (deferred d = [] -> deferred d' = []).
Proof.
  unfold deferred_or_stream. rewrite bind_eq. unfold gets, id. cbv beta iota.
  destruct (deferred d) as [|e es] eqn:Ed.
  - destruct (next_outcome t (inner d)) as (r & i' & E & Hr & Hh). unfold on_inner. rewrite E.
    exists r, (set_inner i' d). split_and!; try done. by apply delivers_live.
  - pose proof (drain_deferred_delivers R d) as Hd. destruct (drain_deferred d) as [es' d'] eqn:E.
    exists (Ok es'), d'. unfold drain_deferred in E. simplify_eq/=. by split_and!.
Qed.

Lemma wf_same_work d d' : same_work d d' -> wf d -> wf d'.
Proof. intros (Hp & Ht & _). unfold wf. by rewrite Hp, Ht. Qed.

(** *** Reading a chunk *)

(** The parts reading a chunk leaves alone. *)
Definition same_stream (d d' : D) : Prop :=
  inner d' = inner d /\ deferred d' = deferred d /\ chunk_size d' = chunk_size d /\
  paused d' = paused d /\ generation d' = generation d.

Lemma on_backend_outcome {A} (m : M B A) d : fst (m (backend d)) <> Panic -> exists r b,
  m (backend d) = (r, b) /\ on_backend m d = (r, set_backend b d) /\ r <> Panic.
Proof.
  unfold on_backend. destruct (m (backend d)) as [r b]. simpl. intros Hr. by exists r, b.
Qed.

Lemma collect_rows_ok {A} (rows : list A) (f : A -> Z -> string * Event) d :
  exists r b, collect rows (fun a => now ← on_backend now_millis; mret (f a now)) d
              = (r, set_backend b d) /\
    r <> Panic /\
    forall l, r = Ok l -> Forall2 (fun a x => exists now, x = f a now) rows l.
Proof.
  revert d. induction rows as [|a rows IH]; intros d.
  { exists (Ok []), (backend d). destruct d. split_and!; try done.
    intros l [= <-]. constructor. }
  simpl. destruct (on_backend_outcome now_millis d (clock_calm _)) as (r & b & _ & E & Hr).
  rewrite bind_eq, bind_eq, E.
  destruct r as [now|e|]; [|by exists (Err e), b; split_and!|done].
  simpl. rewrite bind_eq. destruct (IH (set_backend b d)) as (r2 & b2 & E2 & Hr2 & Hl).
  rewrite E2. destruct r2 as [l|e|]; [|by exists (Err e), b2; split_and!|done].
  exists (Ok (f a now :: l)), b2. split_and!; [done..|]. intros ? [= <-].
  constructor; [by eexists|by apply Hl].
Qed.

Definition mark_complete (t : TableProgress) : TableProgress :=
  {| spec := spec t; pk_cursor := pk_cursor t; is_complete := true;
     chunks_emitted := chunks_emitted t; rows_emitted := rows_emitted t |}.

(** A row of table [t] as the chunk buffers it. *)
Definition chunk_entry (d : D) (t : TableProgress) (r : ChunkRow) (now : Z) : string * Event :=
  let fp := fingerprint_from_payload (tbl_name (spec t)) (pk_columns (spec t)) (row r) in
  (fp, build_snapshot_event d (spec t) fp (row r) (chunks_emitted t) now).

(** What [drive_chunk_prepare] can do: fail, find no table left, complete a table, or
    buffer the rows of a chunk. *)
Inductive prepare_outcome (d : D) : Res unit -> D -> Prop :=
| prepare_failed e d' : same_stream d d' -> same_work d d' -> prepare_outcome d (Err e) d'
| prepare_done : position_of_incomplete (tables d) = None ->
    prepare_outcome d (Ok tt) (set_phase Done d)
| prepare_completed d' i t : same_stream d d' ->
    tables d !! i = Some t -> is_complete t = false ->
    tables d' = alter mark_complete i (tables d) ->
    phase d' = goto_next_table d' -> prepare_outcome d (Ok tt) d'
| prepare_chunk d' i t low high r0 (rs : list ChunkRow) rows :
    same_stream d d' ->
    tables d !! i = Some t -> is_complete t = false -> tables d' = tables d ->
    Forall2 (fun r x => exists now, x = chunk_entry d t r now) (r0 :: rs) rows ->
    phase d' = ChunkCollect i low high rows (index_by_key rows) ∅
                 (default [] (row_cursor <$> last (r0 :: rs))) ->
    prepare_outcome d (Ok tt) d'.

Lemma position_of_incomplete_spec ts i :
  position_of_incomplete ts = Some i -> exists t, ts !! i = Some t /\ is_complete t = false.
Proof.
  revert i. induction ts as [|t ts IH]; intros i; simpl; [done|].
  destruct (is_complete t) eqn:Et; simpl; [|intros [= <-]; by exists t].
  destruct (position_of_incomplete ts) as [k|]; simpl; [|done]. intros [= <-]. by apply IH.
Qed.

Lemma drive_chunk_prepare_ok d idx :
  phase d = ChunkPrepare idx -> paused d = false ->
  exists r d', drive_chunk_prepare d = (r, d') /\ prepare_outcome d r d'.
Proof.
  intros Hp Hpa. unfold drive_chunk_prepare. rewrite bind_eq. unfold gets, id. cbv beta iota.
  rewrite Hp, Hpa. cbv beta iota zeta.
  set (target := match tables d !! idx with
    | Some t => if negb (is_complete t) then Some idx else next_incomplete_table d
    | None => next_incomplete_table d end).
  assert (Ht : match target with
               | Some i => exists t, tables d !! i = Some t /\ is_complete t = false
               | None => position_of_incomplete (tables d) = None end).
  { unfold target, next_incomplete_table.
    pose proof (position_of_incomplete_spec (tables d)) as Hs.
    destruct (tables d !! idx) as [t|] eqn:Ei; [destruct (is_complete t) eqn:Ec|]; simpl;
      try (destruct (position_of_incomplete (tables d)) as [k|] eqn:?; [by apply Hs|done]).
    by exists t. }
  destruct target as [i|].
  2:{ eexists _, _. split; [reflexivity|]. by constructor. }
  destruct Ht as (t & Hi & Hc). rewrite Hi.
  destruct (on_backend_outcome current_position d (position_calm _)) as (r1 & b1 & _ & E1 & Hr1).
  rewrite bind_eq, E1. destruct r1 as [low|e|]; [| |done].
  2:{ eexists _, _. split; [reflexivity|]. by constructor. }
  destruct (on_backend_outcome (fetch_chunk (spec t) (pk_cursor t) (chunk_size d))
              (set_backend b1 d) (fetch_calm _ _ _ _)) as (r2 & b2 & _ & E2 & Hr2).
  rewrite bind_eq, E2. destruct r2 as [rows|e|]; [| |done].
  2:{ eexists _, _. split; [reflexivity|]. by constructor. }
  destruct (on_backend_outcome current_position (set_backend b2 (set_backend b1 d))
              (position_calm _)) as (r3 & b3 & _ & E3 & Hr3).
  rewrite bind_eq, E3. destruct r3 as [high|e|]; [| |done].
  2:{ eexists _, _. split; [reflexivity|]. by constructor. }
  destruct rows as [|r0 rs].
  { eexists _, _. split; [reflexivity|]. by apply (prepare_completed _ _ i t). }
  rewrite bind_eq.
  destruct (collect_rows_ok (r0 :: rs) (chunk_entry d t)
              (set_backend b3 (set_backend b2 (set_backend b1 d)))) as (r4 & b4 & E4 & Hr4 & Hl).
  unfold chunk_entry in E4 at 1. rewrite E4. destruct r4 as [l|e|]; [| |done].
  2:{ eexists _, _. split; [reflexivity|]. by constructor. }
  eexists _, _. split; [reflexivity|].
  eapply (prepare_chunk _ _ i t low high r0 rs l); try done. by apply Hl.
Qed.

(** *** Collecting *)

(** What one round of collecting does with the events [polled]: they are repaired into
    [events], cut at the first one past the high watermark, and the chunk moves on once
    the watermark is passed. *)
Inductive collect_outcome (d : D) (i : nat) (low high : P) (rows : list (string * Event))
    (index : gmap string nat) (ov : gset string) (nc : list json)
    : Res (option (list Event)) -> D -> Prop :=
| collect_failed e d' : same_work d d' -> deferred d' = deferred d ->
    handed (inner d') = handed (inner d) ->
    collect_outcome d i low high rows index ov nc (Err e) d'
| collect_round t0 i' t polled events rows' ov' (passed : bool) d' :
    next_events t0 (inner d) = (Ok polled, i') ->
    tables d !! i = Some t ->
    fold_left (absorb index) (in_bracket (scan (backend d) (spec t) low high polled))
      (polled, rows, ov) = (events, rows', ov') ->
    Forall2 repaired polled events -> snapshot_rows rows' ->
    handed (inner d') = (handed (inner d) ++ polled)%list ->
    tables d' = tables d -> chunk_size d' = chunk_size d -> paused d' = paused d ->
    let s := scan (backend d) (spec t) low high polled in
    let n := default (length events) (split_at s) in
    deferred d' = (deferred d ++ drop n events)%list ->
    (forall m, max_position s = Some m -> pos_ltb m high = false -> passed = true) ->
    phase d' = (if passed
                then phase (finalize_collect
                       (set_phase (ChunkCollect i low high rows' index ov' nc) d))
                else ChunkCollect i low high rows' index ov' nc) ->
    collect_outcome d i low high rows index ov nc
      (Ok (match take n events with
           | [] => if passed then None else Some []
           | head => Some head
           end)) d'.

Lemma drive_collect_ok t0 d i low high rows index ov nc :
  phase d = ChunkCollect i low high rows index ov nc -> wf d ->
  exists r d', drive_collect t0 d = (r, d') /\
    collect_outcome d i low high rows index ov nc r d'.
Proof.
  intros Hp Hwf. unfold wf in Hwf. rewrite Hp in Hwf. destruct Hwf as [Hi Hrows].
  destruct (lookup_lt_is_Some_2 _ _ Hi) as [t Ht].
  unfold drive_collect. rewrite bind_eq. unfold on_inner at 1.
  destruct (next_outcome (Z.min t0 COLLECT_POLL_CEILING_MS) (inner d)) as (r & i' & E & Hr & Hh).
  rewrite E. destruct r as [polled|e|]; [| |done].
  2:{ simpl in Hh. rewrite app_nil_r in Hh. eexists _, _. split; [reflexivity|]. by constructor. }
  rewrite bind_eq. unfold gets, id. cbv beta iota.
  change (phase (set_inner i' d)) with (phase d). rewrite Hp. cbv iota beta.
  change (tables (set_inner i' d)) with (tables d).
  change (backend (set_inner i' d)) with (backend d). rewrite Ht. cbv zeta.
  destruct (absorb_ok index (in_bracket (scan (backend d) (spec t) low high polled))
              polled rows ov Hrows) as (events & rows' & ov' & Eabs & Hev & Hrows').
  rewrite Eabs. rewrite bind_eq. unfold modify at 1. cbv beta iota. rewrite bind_eq.
  set (d1 := set_phase _ (set_inner i' d)).
  set (s := scan (backend d) (spec t) low high polled) in *.
  match goal with |- context [match ?w d1 with _ => _ end] => set (watermark := w) end.
  assert (Hw : exists r b, watermark d1 = (r, set_backend b d1) /\ r <> Panic /\
    match r with
    | Ok passed => forall m, max_position s = Some m -> pos_ltb m high = false -> passed = true
    | _ => events = []
    end).
  { destruct (on_backend_outcome current_position d1 (position_calm _)) as (r & b & _ & E1 & Hr1).
    assert (Hid : d1 = set_backend (backend d1) d1) by by destruct d1.
    unfold watermark. destruct (max_position s) as [m|]; [destruct (pos_ltb m high) eqn:Em|];
      simpl; [| |].
    2:{ exists (Ok true), (backend d1). by split_and!. }
    all: destruct events as [|e0 es0];
      [|exists (Ok false), (backend d1); split_and!; [done|done|intros m' Hm' ?; simplify_eq/=; congruence]].
    all: rewrite bind_eq, E1; destruct r as [now|e|]; [| |done].
    all: (eexists (Ok _), b; split_and!; [reflexivity|done|intros m' Hm' ?; simplify_eq/=; congruence])
      || (exists (Err e), b; by split_and!). }
  destruct Hw as (r & b & Ew & Hr' & Hpass). rewrite Ew. destruct r as [passed|e|]; [| |done].
  2:{ subst events. inversion Hev; subst polled. simpl in Eabs. simplify_eq.
      eexists _, _. split; [reflexivity|]. rewrite app_nil_r in Hh.
      by constructor. }
  set (n := default (length events) (split_at s)).
  set (d2 := set_deferred (deferred d ++ drop n events)%list (set_backend b d1)).
  exists (Ok (match take n events with [] => if passed then None else Some [] | h => Some h end)),
    (if passed then finalize_collect d2 else d2).
  split.
  { unfold mbind, M_bind, modify. cbv beta iota.
    change (from_option (fun x : nat => x) (length events) (split_at s)) with n.
    destruct passed; destruct (take n events); reflexivity. }
  eapply (collect_round _ _ _ _ _ _ _ _ _ _ t polled events rows' ov' passed); try done;
    by destruct passed.
Qed.


(** *** One iteration *)

(** Nothing is held back while a chunk is being collected. *)
Definition settled (d : D) : Prop :=
  match phase d with ChunkCollect _ _ _ _ _ _ _ => deferred d = [] | _ => True end.

Lemma prepare_outcome_wf d r d' :
  prepare_outcome d r d' -> wf d -> r <> Panic /\ wf d' /\ same_stream d d'.
Proof.
  intros Ho Hwf. destruct Ho as [e d' Hs Hw| |d' i t Hs Hi Hc Ht Hp|
    d' i t low high r0 rs rows Hs Hi Hc Ht Hrows Hp]; split_and!; try done.
  - by apply (wf_same_work d).
  - unfold wf. rewrite Hp. unfold goto_next_table. by destruct (next_incomplete_table d').
  - unfold wf. rewrite Hp, Ht. split; [by eapply lookup_lt_Some|].
    apply Forall_forall. intros x Hx. destruct (list_elem_of_lookup_1 _ _ Hx) as [k Hk].
    destruct (Forall2_lookup_r _ _ _ _ _ Hrows Hk) as (r & _ & now & ->). by split.
Qed.

Lemma collect_outcome_wf d i low high rows index ov nc r d' :
  collect_outcome d i low high rows index ov nc r d' -> wf d -> (i < length (tables d))%nat ->
  r <> Panic /\ wf d' /\ chunk_size d' = chunk_size d.
Proof.
  intros Ho Hwf Hi. destruct Ho as [e d' Hw|t0 i' t polled events rows' ov' passed d' Hpoll Ht Hf Hev Hr Hh
    Htabs Hcs Hpa s n Hd Hm Hp]; split_and!; try done; [|by apply Hw|].
  - by apply (wf_same_work d).
  - unfold wf. rewrite Hp, Htabs. destruct passed; [|by split].
    split; [done|]. apply List.Forall_map, (List.incl_Forall (List.incl_filter _ _) Hr).
Qed.

Lemma collect_outcome_delivers R `{!Append R} d i low high rows index ov nc r d' :
  collect_outcome d i low high rows index ov nc r d' ->
  deferred d = [] \/ R = Permutation -> delivers R d (out_opt r) d'.
Proof.
  intros Ho HR. destruct Ho as [e d' Hw Hd Hh|t0 i' t polled events rows' ov' passed d' Hpoll Ht Hf Hev Hr Hh
    Htabs Hcs Hpa s n Hd Hm Hp].
  { exists [], [], [], []. simpl. rewrite Hd, Hh, !app_nil_r. by split_and!. }
  assert (Hout : out_opt (Ok (match take n events with
            | [] => if passed then None else Some [] | h => Some h end)) = take n events).
  { destruct (take n events); [by destruct passed|done]. }
  rewrite Hout. exists polled, events, (take n events), []. rewrite app_nil_r.
  split_and!; try done. rewrite Hd. rewrite <-(take_drop n events) at 3.
  destruct HR as [->| ->]; [reflexivity|]. solve_Permutation.
Qed.

(** The end of a chunk: its progress is committed, then what was held back goes out. *)
Definition emitted (i : nat) (nc : list json) (rc : Z) (d : D) : D :=
  set_phase (ChunkPrepare i) (commit_chunk_progress i nc rc d).

Lemma drive_step_emitted t d i es nc rc :
  phase d = ChunkEmit i es nc rc -> (i < length (tables d))%nat ->
  Nat.min (length es) (emit_batch_size d) = O ->
  drive_step t d =
    match deferred d with
    | [] => (Ok None, emitted i nc rc d)
    | _ => (Ok (Some (fst (drain_deferred (emitted i nc rc d)))),
            snd (drain_deferred (emitted i nc rc d)))
    end.
Proof.
  intros Hp Hi Hn. enter Hp. rewrite Hn. simpl Nat.ltb. cbv iota. destruct (lookup_lt_is_Some_2 _ _ Hi) as [tb Ht].
  rewrite Ht. trans (match deferred d with
    | [] => mret None
    | _ => let '(es, d') := drain_deferred (emitted i nc rc d) in
           modify (fun _ => d') ;; mret (Some es)
    end (emitted i nc rc d)); [reflexivity|]. by destruct (deferred d).
Qed.

Lemma drive_step_ok R `{!Append R} t d : wf d -> settled d \/ R = Permutation ->
  exists r d', drive_step t d = (r, d') /\ r <> Panic /\ wf d' /\
    chunk_size d' = chunk_size d /\ delivers R d (out_opt r) d'.
Proof.
  intros Hwf Hset.
  destruct (deferred_or_stream_ok R t d) as (rs & ds & Es & Hrs & Hws & Hds & _).
  assert (Hstream : exists r d', (es ← deferred_or_stream t; mret (Some es)) d = (r, d') /\
    r <> Panic /\ wf d' /\ chunk_size d' = chunk_size d /\ delivers R d (out_opt r) d').
  { rewrite bind_eq, Es. destruct rs as [es|e|]; [| |done]; eexists _, _;
      (split; [reflexivity|]); split_and!; try done; first [by apply (wf_same_work d)|apply Hws]. }
  destruct (phase d) as [idx|i low high rows index ov nc|i es nc rc|] eqn:Hp; [| | |by enter Hp].
  - enter Hp. destruct (paused d) eqn:Hpa; [done|].
    destruct (drive_chunk_prepare_ok d idx Hp Hpa) as (r & d' & E & Ho).
    destruct (prepare_outcome_wf d r d' Ho Hwf) as (Hr & Hwf' & Hs).
    assert (delivers R d [] d') by (apply delivers_quiet; [done|apply Hs..]).
    rewrite bind_eq, E. destruct r as [[]|e|]; [| |done]; eexists _, _; (split; [reflexivity|]);
      split_and!; try done; apply Hs.
  - enter Hp.
    destruct (drive_collect_ok t d i low high rows index ov nc Hp Hwf) as (r & d' & E & Ho).
    assert (Hi : (i < length (tables d))%nat) by (unfold wf in Hwf; rewrite Hp in Hwf; by destruct Hwf).
    destruct (collect_outcome_wf d i low high rows index ov nc r d' Ho Hwf Hi) as (Hr & Hwf' & Hcs).
    exists r, d'. split_and!; try done. eapply collect_outcome_delivers; [done|exact Ho|].
    destruct Hset as [Hset|]; [left|by right]. unfold settled in Hset. by rewrite Hp in Hset.
  - unfold wf in Hwf. rewrite Hp in Hwf. destruct Hwf as [Hi Hes].
    destruct (0 <? Nat.min (length es) (emit_batch_size d))%nat eqn:En.
    + enter Hp. rewrite En. eexists _, _. split; [reflexivity|]. split_and!; try done.
      { split; [done|]. by apply Forall_drop. }
      exists [], [], [], (take (Nat.min (length es) (emit_batch_size d)) es). simpl.
      rewrite !app_nil_r. split_and!; try done; first [by apply Forall_take|apply sublist_nil_l|reflexivity].
    + rewrite (drive_step_emitted t d i es nc rc Hp Hi) by (zbool; lia).
      pose proof (drain_deferred_delivers R (emitted i nc rc d)) as Hd1.
      destruct (deferred d) as [|e0 es0] eqn:Ed; eexists _, _; (split; [reflexivity|]);
        split_and!; try done. by apply delivers_quiet.
Qed.

(** *** Sequences of calls *)

(** Computations that only consult the database. *)
Definition backend_only {A} (m : M D A) : Prop :=
  forall d, exists r b, m d = (r, set_backend b d) /\ r <> Panic.

Lemma backend_only_ret {A} (r : Res A) : r <> Panic -> backend_only (of_res r).
Proof. intros Hr d. exists r, (backend d). split; [by destruct d|done]. Qed.

Lemma backend_only_bind {A A'} (m : M D A) (k : A -> M D A') :
  backend_only m -> (forall a, backend_only (k a)) -> backend_only (m ≫= k).
Proof.
  intros Hm Hk d. destruct (Hm d) as (r & b & E & Hr). rewrite bind_eq, E.
  destruct r as [a|e|]; [|by exists (Err e), b|done]. apply (Hk a (set_backend b d)).
Qed.

Lemma backend_only_collect {A A'} (l : list A) (f : A -> M D A') :
  (forall a, backend_only (f a)) -> backend_only (collect l f).
Proof.
  intros Hf. induction l as [|a l IH]; simpl; [by apply backend_only_ret|].
  repeat (apply backend_only_bind; [done|intros ?]). by apply backend_only_ret.
Qed.

Lemma describe_only r cs : backend_only (on_backend (describe_with_condition r cs)).
Proof.
  intros d. destruct (on_backend_outcome (describe_with_condition r cs) d) as (x & b & _ & E & Hx).
  - unfold describe_with_condition. rewrite bind_eq. pose proof (describe_calm r (backend d)).
    by destruct (describe_table r (backend d)) as [[] ?].
  - by exists x, b.
Qed.

(** A snapshot request leaves the stream alone; it may add tables and wake the driver. *)
Definition requested (d d' : D) : Prop :=
  inner d' = inner d /\ deferred d' = deferred d /\ chunk_size d' = chunk_size d /\
  paused d' = paused d /\ (length (tables d) <= length (tables d'))%nat /\
  (phase d' = phase d \/ phase d = Done /\ exists i, phase d' = ChunkPrepare i).

Lemma enqueue_spec_length s ts n :
  (length ts <= length (fst (enqueue_spec (ts, n) s)))%nat.
Proof.
  unfold enqueue_spec. destruct (list_find _ ts) as [[i t]|]; simpl.
  - destruct (is_complete t); simpl; [by rewrite length_insert|done].
  - rewrite length_app. lia.
Qed.

Lemma enqueue_specs_length specs ts n :
  (length ts <= length (fst (fold_left enqueue_spec specs (ts, n))))%nat.
Proof.
  revert ts n. induction specs as [|s specs IH]; intros ts n; [done|].
  change (fold_left enqueue_spec (s :: specs) (ts, n))
    with (fold_left enqueue_spec specs (enqueue_spec (ts, n) s)).
  pose proof (enqueue_spec_length s ts n). destruct (enqueue_spec (ts, n) s) as [ts' n'].
  etrans; [done|]. apply IH.
Qed.

Lemma enqueue_tables_ok order refs cs d : exists r d',
  enqueue_tables order refs cs d = (r, d') /\ r <> Panic /\ requested d d'.
Proof.
  unfold enqueue_tables. rewrite bind_eq. unfold gets at 1. cbv beta iota zeta. rewrite bind_eq.
  match goal with |- context [collect refs ?f d] =>
    destruct (backend_only_collect refs f) with (d := d) as (r & b & E & Hr) end.
  { intros a. apply backend_only_bind; [apply describe_only|]. intros s.
    by destruct (pk_columns s); apply backend_only_ret. }
  rewrite E. destruct r as [specs|e|]; [| |done].
  2:{ eexists _, _. split; [reflexivity|]. unfold requested. split_and!; try done. by left. }
  rewrite bind_eq. unfold gets at 1. cbv beta iota. unfold id at 1.
  change (tables (set_backend b d)) with (tables d).
  pose proof (enqueue_specs_length specs (tables d) O) as Hlen.
  destruct (fold_left enqueue_spec specs (tables d, O)) as [ts n]. rewrite bind_eq.
  unfold modify at 1. cbv beta iota. destruct (0 <? n)%nat.
  2:{ eexists _, _. split; [reflexivity|]. unfold requested. split_and!; try done. by left. }
  rewrite bind_eq. unfold modify at 1. cbv beta iota. rewrite bind_eq. unfold gets, id.
  cbv beta iota.
  match goal with |- context [next_incomplete_table ?x] => set (d1 := x) end.
  change (phase d1) with (phase d).
  destruct (next_incomplete_table d1) as [i|], (phase d) eqn:Hp;
    eexists _, _; (split; [reflexivity|]); unfold requested; split_and!; try done;
    first [by left|right; split; [done|by eexists]].
Qed.

Section Runs.
Variables (R : relation (list Event)) (Inv : D -> Prop) (allowed : Call -> Prop).
Context `{!Append R}.
Hypothesis Inv_wf : forall d, Inv d -> wf d.
Hypothesis Inv_settled : forall d, Inv d -> settled d \/ R = Permutation.
Hypothesis Inv_step : forall t d, Inv d -> Inv (snd (drive_step t d)).
Hypothesis Inv_emitted : forall n d, Inv d -> Inv (set_emitted n d).
Hypothesis Inv_call : forall c d, allowed c -> Inv d ->
  match c with Poll _ _ => True | _ => Inv (snd (exec c d)) end.

Lemma drive_ok fuel t d : Inv d -> exists r d',
  drive fuel t d = (r, d') /\ r <> Panic /\ Inv d' /\ delivers R d (out_opt r) d'.
Proof.
  revert d. induction fuel as [|fuel IH]; intros d Hd; simpl.
  { eexists _, _. split; [reflexivity|]. split_and!; try done. by apply delivers_quiet. }
  destruct (drive_step_ok R t d (Inv_wf d Hd) (Inv_settled d Hd))
    as (r & d1 & E & Hr & _ & _ & Hdel).
  pose proof (Inv_step t d Hd) as Hd1. rewrite E in Hd1. simpl in Hd1.
  rewrite bind_eq, E. destruct r as [[es|]|e|]; [| | |done].
  - by eexists _, _.
  - destruct (IH d1 Hd1) as (r2 & d2 & E2 & Hr2 & Hd2 & Hdel2).
    exists r2, d2. split_and!; [done..|]. by apply (delivers_trans R d d1 d2 []).
  - by eexists _, _.
Qed.

Lemma set_emitted_delivers d es d' n :
  delivers R d es d' -> delivers R d es (set_emitted n d').
Proof. done. Qed.

Lemma call_ok c d : allowed c -> Inv d -> exists r d',
  exec c d = (r, d') /\ r <> Panic /\ Inv d' /\ delivers R d (out r) d'.
Proof.
  intros Hc Hd. pose proof (Inv_call c d Hc Hd) as HI.
  destruct c as [fuel t|p| |order refs cs]; unfold exec in *.
  - destruct (drive_ok fuel t d Hd) as (r & d' & E & Hr & Hd' & Hdel).
    unfold driver_next_events. rewrite bind_eq, bind_eq, E.
    destruct r as [[es|]|e|]; [| | |done]; eexists _, _; (split; [reflexivity|]);
      split_and!; try done. by apply Inv_emitted.
  - eexists _, _. split; [reflexivity|]. split_and!; try done.
    apply delivers_quiet; [done|..]; simpl; by repeat case_match.
  - eexists _, _. split; [reflexivity|]. split_and!; try done. by apply delivers_quiet.
  - destruct (enqueue_tables_ok order refs cs d) as (r & d' & E & Hr & Hq).
    rewrite bind_eq, E in HI |- *. simpl in HI.
    assert (delivers R d [] d') by (apply delivers_quiet; [done|apply Hq..]).
    destruct r as [n|e|]; [| |done]; eexists _, _; (split; [reflexivity|]); by split_and!.
Qed.

Lemma run_ok cs d : Forall allowed cs -> Inv d -> exists es d',
  run cs d = Some (es, d') /\ Inv d' /\ delivers R d es d'.
Proof.
  revert d. induction cs as [|c cs IH]; intros d Hcs Hd; simpl.
  { eexists _, _. split; [reflexivity|]. split; [done|]. by apply delivers_quiet. }
  apply Forall_cons in Hcs as [Hc Hcs].
  destruct (call_ok c d Hc Hd) as (r & d1 & E & Hr & Hd1 & Hdel1). rewrite E.
  destruct (IH d1 Hcs Hd1) as (es2 & d2 & E2 & Hd2 & Hdel2).
  destruct r as [es1|e|]; [| |done]; rewrite E2; eexists _, _; (split; [reflexivity|]);
    (split; [done|]); [|apply (delivers_trans R d d1 d2 [])]; try done.
  by eapply delivers_trans.
Qed.

End Runs.

(** ** Exactly-once hand-over *)

Lemma wf_step t d : wf d -> wf (snd (drive_step t d)).
Proof.
  intros Hd. destruct (drive_step_ok Permutation t d Hd (or_intror eq_refl))
    as (r & d' & -> & _ & Hwf & _). done.
Qed.

Lemma wf_requested d d' : requested d d' -> wf d -> wf d'.
Proof.
  intros (_ & _ & _ & _ & Hl & [Hp|[_ [i Hp]]]); unfold wf; rewrite Hp; [|done].
  destruct (phase d); try done; intros [? ?]; split; (done || lia).
Qed.

Lemma request_snd order refs cs d :
  requested d (snd (exec (Request order refs cs) d)).
Proof.
  destruct (enqueue_tables_ok order refs cs d) as (r & d' & E & _ & Hq).
  simpl. rewrite bind_eq, E. by destruct r.
Qed.

Lemma wf_call c d : wf d -> match c with Poll _ _ => True | _ => wf (snd (exec c d)) end.
Proof.
  intros Hd. destruct c as [fuel t|p| |order refs cs]; [done| |done|].
  - unfold exec. rewrite bind_eq. simpl. unfold wf in *. simpl.
    destruct (phase d) eqn:Hp, p; try (destruct (next_incomplete_table _)); simpl;
      by rewrite ?Hp.
  - eapply wf_requested; [apply request_snd|done].
Qed.

Lemma run_delivers cs d : wf d ->
  exists es d', run cs d = Some (es, d') /\ wf d' /\ delivers Permutation d es d'.
Proof.
  intros Hd. apply (run_ok Permutation wf (fun _ => True)); try done.
  - by right.
  - apply wf_step.
  - intros c d0 _. apply wf_call.
  - by apply Forall_true.
Qed.

Lemma new_driver_fresh inn tabs n conds src resume b d b' :
  new_driver inn tabs n conds src resume b = (Ok d, b') ->
  inner d = inn /\ deferred d = [] /\ chunk_size d = Nat.max n 1 /\ wf d /\
  (phase d = Done \/ exists i, phase d = ChunkPrepare i).
Proof.
  unfold new_driver. intros (ts1 & b1 & _ & H1')%bind_inv. 
  apply bind_inv in H1' as (ts & b2 & _ & (sid & b3 & _ & (b4 & b5 & _ & [= <- <-])%bind_inv)%bind_inv).
  simpl. split_and!; try done; unfold wf; simpl; destruct (position_of_incomplete ts); eauto.
Qed.

(** ** Log order *)

Section Order.
Context `{!BracketLaws B P}.
Variable cap : nat.
Hypothesis polls_bounded : forall t i es i',
  next_events t i = (Ok es, i') -> (length es <= cap)%nat.

(** Events are held back only behind a chunk being emitted, and fit in one delivery. *)
Definition in_order (d : D) : Prop :=
  (cap <= emit_batch_size d)%nat /\
  match phase d with
  | ChunkEmit _ _ _ _ => (length (deferred d) <= cap)%nat
  | _ => deferred d = []
  end.

Definition inv (d : D) : Prop := wf d /\ in_order d.

(** A batch that is cut reaches the high watermark. *)
Lemma scan_cut b t low high l acc :
  (is_Some (split_at acc) ->
     exists m, max_position acc = Some m /\ pos_ltb m high = false) ->
  is_Some (split_at (fold_left (scan_event b t low high) l acc)) ->
  exists m, max_position (fold_left (scan_event b t low high) l acc) = Some m /\
    pos_ltb m high = false.
Proof.
  revert acc. induction l as [|[k e] l IH]; intros acc Hacc; [done|]. simpl fold_left.
  apply IH. clear IH. unfold scan_event. destruct (position_of_event b e) as [p|]; [|done]. simpl.
  pose proof (after_past_high b e p low high) as Hafter. intros Hs.
  assert (Hcase : (exists m, max_position acc = Some m /\ pos_ltb m high = false) \/
                  pos_ltb p high = false).
  { destruct (split_at acc); [left; by apply Hacc|]. right.
    destruct (decide (event_in_bracket b e p low high = After)); [by apply Hafter|].
    by destruct Hs. }
  destruct (max_position acc) as [m|].
  - assert (Hcase' : pos_ltb m high = false \/ pos_ltb p high = false).
    { destruct Hcase as [(m' & [= <-] & Hm)|]; auto. }
    destruct (pos_ltb m p) eqn:Emp; eexists; (split; [reflexivity|]); apply not_true_is_false.
    + intros Eph. destruct (pos_cotrans m high p Emp) as [|Hx]; [intuition congruence|].
      by rewrite (pos_asym _ _ Eph) in Hx.
    + intros Emh. destruct (pos_cotrans m p high Emh) as [|]; intuition congruence.
  - eexists. split; [reflexivity|]. destruct Hcase as [(m' & ? & _)|]; done.
Qed.

Lemma collect_outcome_in_order d i low high rows index ov nc r d' :
  collect_outcome d i low high rows index ov nc r d' ->
  phase d = ChunkCollect i low high rows index ov nc -> in_order d -> in_order d'.
Proof.
  intros Ho Hpd [Hcap Hd0]. rewrite Hpd in Hd0.
  destruct Ho as [e d' (Hp & _ & Hcs & _) Hd _|t0 i' t polled events rows' ov' passed d' Hpoll Ht Hf Hev Hr Hh
    Htabs Hcs Hpa s n Hd Hm Hp].
  { split; [unfold emit_batch_size in *; by rewrite Hcs|]. by rewrite Hp, Hpd, Hd. }
  split; [unfold emit_batch_size in *; by rewrite Hcs|].
  rewrite Hd, Hd0. simpl. rewrite Hp. destruct passed; simpl.
  - rewrite length_drop, <-(Forall2_length _ _ _ Hev). specialize (polls_bounded _ _ _ _ Hpoll). lia.
  - apply nil_length_inv. rewrite length_drop.
    destruct (split_at s) as [k|] eqn:Ek; [exfalso|unfold n; simpl; lia].
    destruct (scan_cut (backend d) (spec t) low high
      (zip (seq 0 (length polled)) polled)
      {| max_position := None; split_at := None; in_bracket := [] |}) as (m & Em & Hhigh).
    { by intros []. }
    { unfold s, scan in Ek. by rewrite Ek. }
    by specialize (Hm m Em Hhigh).
Qed.

Lemma in_order_work d d' :
  same_work d d' -> deferred d' = deferred d -> in_order d -> in_order d'.
Proof.
  intros (Hp & _ & Hcs & _) Hd [Hc Ho]. unfold in_order, emit_batch_size in *.
  by rewrite Hp, Hd, Hcs.
Qed.

Lemma in_order_step t d : wf d -> in_order d -> in_order (snd (drive_step t d)).
Proof.
  intros Hwf Hord. pose proof Hord as [Hcap Hd].
  assert (Hstream : deferred d = [] ->
    in_order (snd ((es ← deferred_or_stream t; mret (Some es)) d))).
  { intros Hn. destruct (deferred_or_stream_ok eq t d) as (r & d' & E & Hr & Hw & _ & Hd').
    rewrite bind_eq, E. assert (in_order d') by (apply (in_order_work d); naive_solver congruence).
    by destruct r. }
  destruct (phase d) as [idx|i low high rows index ov nc|i es nc rc|] eqn:Hp.
  - enter Hp. destruct (paused d) eqn:Hpa; [auto|].
    destruct (drive_chunk_prepare_ok d idx Hp Hpa) as (r & d' & E & Ho).
    destruct (prepare_outcome_wf d r d' Ho Hwf) as (Hr & Hwf' & Hs & Hs' & Hcs & _).
    rewrite bind_eq, E. cut (in_order d'); [by destruct r|].
    split; [unfold emit_batch_size in *; by rewrite Hcs|]. rewrite Hs', Hd.
    destruct Ho as [? ? ? [Hp' _]| |? ? ? ? ? ? ? Hp'|? ? ? ? ? ? ? ? ? ? ? ? ? Hp'];
      simpl; rewrite ?Hp', ?Hp; try done.
    unfold goto_next_table. by destruct (next_incomplete_table _).
  - enter Hp.
    destruct (drive_collect_ok t d i low high rows index ov nc Hp Hwf) as (r & d' & E & Ho).
    rewrite E. by eapply collect_outcome_in_order.
  - unfold wf in Hwf. rewrite Hp in Hwf. destruct Hwf as [Hi _].
    destruct (0 <? Nat.min (length es) (emit_batch_size d))%nat eqn:En.
    + enter Hp. rewrite En. by split.
    + rewrite (drive_step_emitted t d i es nc rc Hp Hi) by (zbool; lia).
      destruct (deferred d) as [|e0 es0] eqn:Ed; [by split|]. split; [done|].
      apply (drain_deferred_all (emitted i nc rc d)).
      change (deferred (emitted i nc rc d)) with (deferred d). rewrite Ed. by etrans.
  - enter Hp. auto.
Qed.

Lemma inv_step t d : inv d -> inv (snd (drive_step t d)).
Proof. intros [Hw Ho]. split; [by apply wf_step|by apply in_order_step]. Qed.

Definition not_stop (c : Call) : Prop := match c with Stop => False | _ => True end.

Lemma inv_call c d : not_stop c -> inv d ->
  match c with Poll _ _ => True | _ => inv (snd (exec c d)) end.
Proof.
  intros Hc [Hw [Hcap Ho]]. pose proof (wf_call c d Hw) as Hw'.
  destruct c as [fuel t|p| |order refs cs]; [done| |done|]; (split; [done|]).
  - clear Hw'. unfold exec. rewrite bind_eq. unfold in_order in *. simpl.
    destruct (phase d) eqn:Hp, p; try (destruct (next_incomplete_table _)); simpl;
      by rewrite ?Hp.
  - destruct (request_snd order refs cs d) as (_ & Hd & Hcs & _ & _ & Hp).
    unfold in_order, emit_batch_size in *. rewrite Hd, Hcs. split; [done|].
    destruct Hp as [->|[Hp [i ->]]]; [done|]. by rewrite Hp in Ho.
Qed.

End Order.

(** ** Every poll returns *)

(** [drive] delivers or fails within [n] iterations. *)
Definition returns (n : nat) (t : Z) (d : D) : Prop := fst (drive n t d) <> Ok None.

Lemma returns_step n t d :
  (fst (drive_step t d) = Ok None -> returns n t (snd (drive_step t d))) -> returns (S n) t d.
Proof.
  intros Hs. unfold returns. simpl. rewrite bind_eq.
  destruct (drive_step t d) as [[[es|]|e|] d']; try done. by apply Hs.
Qed.

Lemma returns_le n m t d : (n <= m)%nat -> returns n t d -> returns m t d.
Proof.
  revert m d. induction n as [|n IH]; intros m d Hle Hn; [done|].
  destruct m as [|m]; [lia|]. apply returns_step. unfold returns in Hn. simpl in Hn.
  rewrite bind_eq in Hn. destruct (drive_step t d) as [[[es|]|e|] d']; try done.
  intros _. apply IH; [lia|done].
Qed.

(** Tables still to be read. *)
Definition remaining (ts : list TableProgress) : nat :=
  length (List.filter (fun t => negb (is_complete t)) ts).

Lemma remaining_mark ts i t :
  ts !! i = Some t -> is_complete t = false ->
  remaining ts = S (remaining (alter mark_complete i ts)).
Proof.
  unfold remaining. revert i. induction ts as [|t' ts IH]; intros [|i]; simpl; [done..| |].
  - intros [= ->] ->. done.
  - intros Hi Ht. specialize (IH i Hi Ht). destruct (negb (is_complete t')); [simpl; f_equal|]; exact IH.
Qed.

Lemma remaining_commit i nc rc d : remaining (tables (commit_chunk_progress i nc rc d)) =
  remaining (tables d).
Proof.
  unfold remaining. simpl. revert i. induction (tables d) as [|t ts IH]; intros [|i]; simpl;
    [done|done| |]; destruct (negb (is_complete t)); try done; [simpl; f_equal|]; apply IH.
Qed.

Lemma stream_returns t d :
  fst ((es ← deferred_or_stream t; mret (Some es)) d : Res _ * D) <> Ok None.
Proof. rewrite bind_eq. by destruct (deferred_or_stream t d) as [[] ?]. Qed.

Lemma done_returns t d : phase d = Done -> returns 1 t d.
Proof. intros Hp. apply returns_step. enter Hp. intros []%stream_returns. Qed.

(** A chunk with rows left, or with events behind it, delivers at once. *)
Lemma loaded_emit_returns t d i es nc rc :
  phase d = ChunkEmit i es nc rc -> (i < length (tables d))%nat ->
  es <> [] \/ deferred d <> [] -> returns 1 t d.
Proof.
  intros Hp Hi Hl. apply returns_step.
  destruct (0 <? Nat.min (length es) (emit_batch_size d))%nat eqn:En.
  { enter Hp. by rewrite En. }
  rewrite (drive_step_emitted t d i es nc rc Hp Hi) by (zbool; lia).
  destruct Hl as [Hl|Hl]; [|by destruct (deferred d)]. exfalso. zbool.
  unfold emit_batch_size, EMIT_BATCH_SIZE in En. destruct es; [done|]. simpl length in En.
  destruct (Nat.eqb_spec (chunk_size d) 0); lia.
Qed.

Lemma absorb_override index idxs es rows ov es' rows' ov' :
  fold_left (absorb index) idxs (es, rows, ov) = (es', rows', ov') -> es = [] ->
  rows' = rows /\ ov' = ov.
Proof.
  intros Hf ->. revert Hf. induction idxs as [|i idxs IH]; simpl; [by intros [= <- <- <-]|]. done.
Qed.

(** A chunk just read delivers its rows, or the events that replace them. *)
Lemma fresh_collect_returns t d i low high rows nc :
  phase d = ChunkCollect i low high rows (index_by_key rows) ∅ nc -> wf d -> rows <> [] ->
  returns 2 t d.
Proof.
  intros Hp Hwf Hr. apply returns_step.
  assert (Hi : (i < length (tables d))%nat) by (unfold wf in Hwf; rewrite Hp in Hwf; by destruct Hwf).
  destruct (drive_collect_ok t d _ _ _ _ _ _ _ Hp Hwf) as (r & d' & E & Ho).
  assert (E' : drive_step t d = (r, d')) by (by enter Hp). rewrite E'. simpl.
  destruct Ho as [e d' Hw Hd _|t0 i' tb polled events rows' ov' passed d' Hpoll Ht Hf Hev Hrw Hh
    Htabs Hcs Hpa s n Hd Hm Hp']; [done|].
  destruct (take n events) eqn:Etk; [destruct passed; [intros _|done]|done].
  unfold finalize_collect in Hp'. simpl in Hp'.
  eapply loaded_emit_returns; [exact Hp'|by rewrite Htabs|].
  destruct polled as [|e0 polled].
  - left. destruct (absorb_override _ _ _ _ _ _ _ _ Hf eq_refl) as [-> ->].
    destruct rows as [|[k e] rows]; [done|]. simpl. by rewrite bool_decide_false by set_solver.
  - right. rewrite Hd. destruct events as [|e1 events]; [by inversion Hev|].
    rewrite <-(take_drop n (e1 :: events)) in Etk at 1.
    intros [_ Hdr]%app_eq_nil. pose proof (take_drop n (e1 :: events)) as Ht'.
    rewrite Hdr, app_nil_r in Ht'. rewrite take_drop in Etk. congruence.
Qed.

Lemma prepare_returns t d idx :
  phase d = ChunkPrepare idx -> wf d -> returns (3 + remaining (tables d)) t d.
Proof.
  remember (remaining (tables d)) as k eqn:Hk. revert d idx Hk.
  induction k as [k IH] using lt_wf_ind. intros d idx Hk Hp Hwf. apply returns_step.
  destruct (paused d) eqn:Hpa.
  { intros E. exfalso. revert E. enter Hp. rewrite Hpa. apply stream_returns. }
  destruct (drive_chunk_prepare_ok d idx Hp Hpa) as (r & d' & E & Ho).
  destruct (prepare_outcome_wf d r d' Ho Hwf) as (Hr & Hwf' & Hs).
  assert (E' : drive_step t d = match r with Ok _ => (Ok None, d') | Err e => (Err e, d')
                                | Panic => (Panic, d') end).
  { enter Hp. rewrite Hpa, bind_eq, E. by destruct r. }
  rewrite E'. clear E'. destruct Ho as [e d' _ _| |d' i tb _ Hi Hc Ht Hp'|
    d' i tb low high r0 rs rows _ Hi Hc Ht Hrows Hp']; [done| | |]; intros _; simpl.
  - eapply returns_le; [|by apply done_returns]. lia.
  - unfold goto_next_table in Hp'. destruct (next_incomplete_table d') as [i'|].
    + eapply returns_le; [|eapply (IH (remaining (tables d'))); [|done|exact Hp'|done]].
      all: rewrite Ht in *; pose proof (remaining_mark _ _ _ Hi Hc); lia.
    + eapply returns_le; [|by apply done_returns]. lia.
  - eapply returns_le; [|eapply fresh_collect_returns; [exact Hp'|done|]]; [lia|].
    intros ->. inversion Hrows.
Qed.

Lemma emit_returns t d i es nc rc :
  phase d = ChunkEmit i es nc rc -> (i < length (tables d))%nat ->
  returns (4 + remaining (tables d)) t d.
Proof.
  intros Hp Hi.
  destruct (0 <? Nat.min (length es) (emit_batch_size d))%nat eqn:En.
  { eapply returns_le; [|eapply loaded_emit_returns; [exact Hp|done|]]; [lia|].
    left. intros ->. done. }
  apply returns_step. rewrite (drive_step_emitted t d i es nc rc Hp Hi) by (zbool; lia).
  destruct (deferred d); [|done]. intros _. simpl.
  rewrite <-(remaining_commit i nc rc d).
  by apply (prepare_returns t (emitted i nc rc d) i).
Qed.

Lemma drive_returns t d : wf d -> returns (5 + remaining (tables d)) t d.
Proof.
  intros Hwf. destruct (phase d) as [idx|i low high rows index ov nc|i es nc rc|] eqn:Hp.
  - eapply returns_le; [|by eapply prepare_returns]. lia.
  - apply returns_step.
    destruct (drive_collect_ok t d i low high rows index ov nc Hp Hwf) as (r & d' & E & Ho).
    assert (Hi : (i < length (tables d))%nat) by (unfold wf in Hwf; rewrite Hp in Hwf; by destruct Hwf).
    assert (E' : drive_step t d = (r, d')) by (by enter Hp). rewrite E'. simpl.
    destruct Ho as [e d' Hw Hd _|t0 i' tb polled events rows' ov' passed d' Hpoll Ht Hf Hev Hrw Hh
      Htabs Hcs Hpa s n Hd Hm Hp']; [done|].
    destruct (take n events); [destruct passed; [intros _|done]|done].
    rewrite <-Htabs in Hi |- *. unfold finalize_collect in Hp'. simpl in Hp'.
    eapply emit_returns; [exact Hp'|done].
  - unfold wf in Hwf. rewrite Hp in Hwf. destruct Hwf as [Hi _].
    eapply returns_le; [|by eapply emit_returns]. lia.
  - eapply returns_le; [|by apply done_returns]. lia.
Qed.

(** ** Claims *)

(** C6: from a freshly built driver, any sequence of polls, pauses, stops and snapshot
    requests runs without panicking, failed calls included, and every event the live
    stream has handed to the driver has been delivered exactly once or is still held
    back: the delivered events are snapshot rows and live events, and the live ones with
    the held-back ones are the stream's events, changed at most in columns they listed as
    unavailable. *)
Theorem every_event_handed_over inn tabs n conds src resume b d b' cs :
  new_driver inn tabs n conds src resume b = (Ok d, b') ->
  exists es d' new new' live rows,
    run cs d = Some (es, d') /\
    handed (inner d') = (handed inn ++ new)%list /\ Forall2 repaired new new' /\
    Forall snapshot_row rows /\ live `sublist_of` es /\ es ≡ₚ (live ++ rows)%list /\
    (live ++ deferred d')%list ≡ₚ new'.
Proof.
  intros (Hi & Hd & _ & Hwf & _)%new_driver_fresh.
  destruct (run_delivers cs d Hwf) as (es & d' & E & _ & new & new' & live & rows & Hdel).
  rewrite Hd, Hi in Hdel. by exists es, d', new, new', live, rows.
Qed.

(** C34: whenever [save_position] reaches the checkpoint, or fails, every event the live
    stream has handed out has been delivered, so the position it writes covers no event
    the consumer has not been given. *)
Theorem saved_position_covers_delivered {C} `{!Checkpoint C} inner_save (c : C)
    inn tabs n conds src resume b d b' cs es d' :
  new_driver inn tabs n conds src resume b = (Ok d, b') ->
  run cs d = Some (es, d') ->
  driver_save_position inner_save d' c <> (Ok tt, c) ->
  exists new new' live rows,
    handed (inner d') = (handed inn ++ new)%list /\ Forall2 repaired new new' /\
    Forall snapshot_row rows /\ es ≡ₚ (live ++ rows)%list /\ live ≡ₚ new'.
Proof.
  intros (Hi & Hd & _ & Hwf & _)%new_driver_fresh Hrun Hsave.
  destruct (run_delivers cs d Hwf) as (es1 & d1 & E & _ & new & new' & live & rows & Hh & Hn &
    Hr & _ & Hp & Hperm). simplify_eq.
  exists new, new', live, rows. split_and!; try done.
  unfold driver_save_position in Hsave. destruct (deferred d'); [|done].
  by rewrite app_nil_r, Hd in Hperm.
Qed.

(** When no poll of the live stream returns more events than one delivery of the
    driver holds, and the snapshot is not stopped, the live events are delivered in log
    order around the snapshot rows, and the held-back ones are the most recent. *)
Theorem log_order_kept `{!BracketLaws B P} inn tabs n conds src resume b d b' cs :
  new_driver inn tabs n conds src resume b = (Ok d, b') ->
  (forall t i es i', next_events t i = (Ok es, i') -> (length es <= Nat.max n 1)%nat) ->
  Forall not_stop cs ->
  exists es d' new new' live rows,
    run cs d = Some (es, d') /\
    handed (inner d') = (handed inn ++ new)%list /\ Forall2 repaired new new' /\
    Forall snapshot_row rows /\ live `sublist_of` es /\ es ≡ₚ (live ++ rows)%list /\
    (live ++ deferred d')%list = new'.
Proof.
  intros (Hi & Hd & Hcs & Hwf & Hp)%new_driver_fresh Hcap Hnostop.
  assert (Hinv : inv (Nat.max n 1) d).
  { split; [done|]. unfold in_order, emit_batch_size. rewrite Hcs, Hd. split.
    - destruct (Nat.eqb_spec (Nat.max n 1) 0); lia.
    - by destruct Hp as [->|[i ->]]. }
  destruct (run_ok eq (inv (Nat.max n 1)) not_stop) with (cs := cs) (d := d)
    as (es & d' & E & _ & new & new' & live & rows & Hdel); try done.
  - by intros d0 [].
  - intros d0 [_ [_ Ho]]. left. unfold settled. by destruct (phase d0).
  - intros t d0. by apply inv_step.
  - intros c d0. apply inv_call.
  - rewrite Hd, Hi in Hdel. by exists es, d', new, new', live, rows.
Qed.

(** Every poll of the driver terminates: with five iterations more than the tables
    left to read, the loop has delivered a batch or reported an error, whatever the
    database and the stream answer. *)
Theorem poll_terminates inn tabs n conds src resume b d b' cs es d' fuel t :
  new_driver inn tabs n conds src resume b = (Ok d, b') ->
  run cs d = Some (es, d') ->
  (5 + remaining (tables d') <= fuel)%nat ->
  fst (driver_next_events fuel t d') <> Ok None.
Proof.
  intros (_ & _ & _ & Hwf & _)%new_driver_fresh Hrun Hfuel.
  destruct (run_delivers cs d Hwf) as (es1 & d1 & E & Hwf1 & _). simplify_eq.
  pose proof (returns_le _ _ t d' Hfuel (drive_returns t d' Hwf1)) as Hret.
  unfold returns in Hret. unfold driver_next_events. rewrite bind_eq.
  by destruct (drive fuel t d') as [[[]|e|] ?].
Qed.

End Delivery.

(** ** A concrete database and stream *)

Module Demo.

Local Open Scope string_scope.

(** Compact JSON text, for keys that need no escaping. *)
Fixpoint compact (v : json) : string :=
  match v with
  | JNull => "null"
  | JBool b => if b then "true" else "false"
  | JNum (PosInt n) => show (Z.of_N n)
  | JNum _ => "0.0"
  | JStr s => String.String "034"%char (s +:+ String.String "034"%char EmptyString)
  | JArr l => "[" +:+ fold_right (fun x acc => compact x +:+ "," +:+ acc) "]" l
  | JObj m => "{" +:+ fold_right (fun kv acc => fst kv +:+ ":" +:+ compact (snd kv) +:+ "," +:+ acc)
                       "}" m
  end.

#[export] Instance codec : JsonCodec :=
  {| print_json v := list_byte_of_string (compact v);
     print_pretty v := list_byte_of_string (compact v);
     parse_json _ := None |}.

(** The database answers [current_position] from a script; its one table has two rows. *)
Definition user_row (id : Z) : json :=
  JObj [("id", JNum (PosInt (Z.to_N id))); ("v", JStr "chunk")].

Definition users : SnapshotTable :=
  {| tbl_schema := "public"; tbl_name := "users"; qualified := "public.users";
     pk_columns := ["id"]; pk_types := ["int8"]; columns := ["id"; "v"]; tbl_condition := None |}.

Definition id_of (cursor : option (list json)) : Z :=
  match cursor with Some (JNum (PosInt n) :: _) => Z.of_N n | _ => 0 end.

#[export] Instance database : Backend (list Z) Z := {|
  pos_ltb := Z.ltb;
  describe_table _ := mret users;
  current_position b :=
    match b with [] => (Ok 0, []) | p :: b' => (Ok p, b') end;
  fetch_chunk _ cursor n :=
    mret (take n (map (fun i => {| row_cursor := [JNum (PosInt (Z.to_N i))]; row := user_row i |})
                    (List.filter (fun i => Z.ltb (id_of cursor) i) [1; 2])));
  position_of_event _ e := Some (Event.ts e);
  event_in_bracket _ _ p low high := ordinal_bracket Z.ltb p low high;
  offset_with_snapshot_state _ o _ := Some o;
  now_millis := mret 7;
|}.

(** The stream hands out its log, up to three events a poll, and records them. *)
Record Script := { pending : list Event; given : list Event }.

#[export] Instance stream : StreamHandle Script := {|
  next_events _ s :=
    (Ok (take 3 (pending s)),
     {| pending := drop 3 (pending s); given := (given s ++ take 3 (pending s))%list |});
  position_offset s := Some {| source_type := "pg"; encode := Ok [] |};
  incremental_snapshot_state _ := None;
  resume_offset_for _ _ := None;
  requeue_events _ := mret tt;
  confirm_lsn _ := mret tt;
|}.

#[export] Instance database_calm : BackendCalm (list Z) Z.
Proof. split; try done. by intros []. Qed.

#[export] Instance database_bracket : BracketLaws (list Z) Z.
Proof.
  split; simpl; unfold ordinal_bracket.
  - intros a b c ?. destruct (Z.ltb_spec a b); [by left|right]. zlia.
  - intros a b ?. zlia.
  - intros _ _ p low high. destruct (Z.ltb_spec high p); [lia|]. by destruct (Z.ltb low p).
Qed.

#[export] Instance stream_laws : StreamLaws Script.
Proof.
  apply (Build_StreamLaws _ _ given); [done| |done].
  by intros t [p g] es i' [= <- <-].
Defined.

(** An update of user [id] at log position [pos]. *)
Definition update (id pos : Z) : Event :=
  {| Event.before := None;
     Event.after := Some (JObj [("id", JNum (PosInt (Z.to_N id))); ("v", JStr (show pos))]);
     Event.op := Event.Update;
     Event.source := {| Event.source_name := "pg"; Event.offset := show pos;
                        Event.timestamp := pos |};
     Event.ts := pos; Event.schema := Some "public"; Event.table := "users";
     Event.primary_key := Some ["id"]; Event.snapshot := None; Event.transaction := None;
     Event.envelope_version := 1; Event.before_is_key_only := false;
     Event.unavailable_columns := []; Event.before_unavailable_columns := [] |}.

Definition start (chunk : nat) (positions : list Z) (log : list Event)
    : Res (Driver (list Z) Script Z) * list Z :=
  new_driver (H0 := database) {| pending := log; given := [] |} ["public.users"] chunk [] "pg"
    None positions.

End Demo.

Import Demo.

(** A batch that overflows one delivery is delivered out of log order: with one event
    per delivery, three updates held back behind the first chunk are overtaken by a newer
    one, which the driver polls while it collects the next chunk.  The consumer ends on
    the value of position 13; the row's last value was written at 14. *)
Theorem held_back_events_overtaken :
  let log := [update 1 11; update 1 12; update 1 13; update 1 14] in
  exists d b es d',
    start 1 [10; 10; 13; 14] log = (Ok d, b) /\
    run (replicate 6 (Poll 7 0)) d = Some (es, d') /\
    handed (inner d') = log /\ deferred d' = [] /\
    List.filter (fun e => negb (bool_decide (Event.op e = Event.Read))) es =
      [update 1 11; update 1 14; update 1 12; update 1 13].
Proof. do 4 eexists. split_and!; [vm_compute; reflexivity..]. Qed.

(** The driver the witnesses run: one chunk of two rows, then two updates past it. *)
Definition demo_driver : Driver (list Z) Script Z :=
  {| backend := [10; 10]; inner := {| pending := [update 1 11; update 2 12]; given := [] |};
     tables := [{| spec := users; pk_cursor := None; is_complete := false;
                   chunks_emitted := 0; rows_emitted := 0 |}];
     phase := ChunkPrepare 0; chunk_size := 3; table_conditions := []; source_name := "pg";
     snapshot_id := "incremental-7"; events_emitted := 0; paused := false; generation := 0;
     stopped := false; deferred := [] |}.

Lemma demo_new : start 3 [10; 10] [update 1 11; update 2 12] = (Ok demo_driver, [10; 10]).
Proof. vm_compute. reflexivity. Qed.

Definition demo_calls : list Call :=
  [Poll 7 0; Pause true; Poll 7 0; Pause false; Stop; Request id ["users"] []].

Lemma every_event_handed_over_witness :
  exists es d' new new' live rows,
    run demo_calls demo_driver = Some (es, d') /\
    handed (inner d') = ([] ++ new)%list /\ Forall2 repaired new new' /\
    Forall snapshot_row rows /\ live `sublist_of` es /\ es ≡ₚ (live ++ rows)%list /\
    (live ++ deferred d')%list ≡ₚ new'.
Proof. exact (every_event_handed_over _ _ _ _ _ _ _ _ _ demo_calls demo_new). Defined.

(** The states of the runs below. *)
Definition after_run (cs : list Call) : list Event * Driver (list Z) Script Z :=
  default ([], demo_driver) (run cs demo_driver).

Definition polled_twice := after_run [Poll 7 0; Poll 7 0].

Lemma polled_twice_run :
  run [Poll 7 0; Poll 7 0] demo_driver = Some (fst polled_twice, snd polled_twice).
Proof. vm_compute. reflexivity. Qed.

Lemma saved_position_covers_delivered_witness :
  driver_save_position (fun _ c => (Ok tt, c)) (snd polled_twice) InMemory.mem_new
    <> (Ok tt, InMemory.mem_new) /\
  exists new new' live rows,
    handed (inner (snd polled_twice)) = ([] ++ new)%list /\ Forall2 repaired new new' /\
    Forall snapshot_row rows /\ fst polled_twice ≡ₚ (live ++ rows)%list /\ live ≡ₚ new'.
Proof.
  assert (Hs : driver_save_position (fun _ c => (Ok tt, c)) (snd polled_twice)
    InMemory.mem_new <> (Ok tt, InMemory.mem_new)) by (vm_compute; discriminate).
  split; [exact Hs|].
  exact (saved_position_covers_delivered _ _ _ _ _ _ _ _ _ _ _ _ _ _ demo_new
    polled_twice_run Hs).
Defined.

Lemma log_order_kept_witness :
  exists es d' new new' live rows,
    run [Poll 7 0; Pause true; Poll 7 0; Request id ["users"] []; Pause false; Poll 7 0]
      demo_driver = Some (es, d') /\
    handed (inner d') = ([] ++ new)%list /\ Forall2 repaired new new' /\
    Forall snapshot_row rows /\ live `sublist_of` es /\ es ≡ₚ (live ++ rows)%list /\
    (live ++ deferred d')%list = new'.
Proof.
  refine (log_order_kept _ _ _ _ _ _ _ _ _ _ demo_new _ _).
  - intros t [p g] es i' [= <- <-]. rewrite length_take. lia.
  - repeat constructor.
Defined.

Lemma poll_terminates_witness :
  (5 + remaining (tables (snd polled_twice)) <= 6)%nat /\
  fst (driver_next_events 6 0 (snd polled_twice)) <> Ok None.
Proof.
  assert (Hf : (5 + remaining (tables (snd polled_twice)) <= 6)%nat) by (vm_compute; lia).
  split; [exact Hf|].
  exact (poll_terminates _ _ _ _ _ _ _ _ _ _ _ _ _ _ demo_new polled_twice_run Hf).
Defined.

End DriverDelivery.
