(* ===== verification/DriverChunk.v ===== *)
(** * DriverChunk: what one snapshot chunk does to the consumer

    Theorems about one chunk of [Driver]: a live event with missing columns is repaired
    to the row the source has; a consumer that applies the live events of the window and
    then the chunk rows that survive it has the source's rows; a keyset cursor moves only
    when its chunk has been delivered; a truncation inside the window, and the filter of
    a request across a restart, are not handled. *)

From Stdlib Require Import Sorted.
From S2P Require Import Prelude Errors CheckpointApi Strs Json Offsets Event Monad Driver.
From S2P Require Import DriverDelivery.

Module DriverChunk.
Import Driver DriverDelivery.

Local Open Scope Z_scope.

(** ** Repair *)

Section Repair.

Lemma fill_columns_hit shadow cols m c v :
  c ∈ cols -> obj_get c shadow = Some v -> obj_get c (snd (fill_columns shadow cols m)) = Some v.
Proof.
  revert m. induction cols as [|x cols IH]; intros m; [by intros ?%elem_of_nil|].
  intros Hc Hv. simpl. destruct (decide (c ∈ cols)) as [Hin|Hout].
  - destruct (obj_get x shadow); [by apply IH|]. specialize (IH m Hin Hv).
    by destruct (fill_columns shadow cols m).
  - apply elem_of_cons in Hc as [<-|]; [|done]. rewrite Hv.
    rewrite fill_columns_other by done. apply obj_get_insert_eq.
Qed.

Lemma fill_columns_get shadow cols m c :
  (forall x, x ∈ cols -> is_Some (obj_get x shadow)) ->
  obj_get c (snd (fill_columns shadow cols m)) =
    if decide (c ∈ cols) then obj_get c shadow else obj_get c m.
Proof.
  intros Hs. destruct (decide (c ∈ cols)) as [Hc|Hc]; [|by apply fill_columns_other].
  destruct (Hs c Hc) as [v Hv]. rewrite Hv. by apply fill_columns_hit.
Qed.

Lemma fill_columns_all shadow cols m :
  (forall x, x ∈ cols -> is_Some (obj_get x shadow)) -> fst (fill_columns shadow cols m) = [].
Proof.
  intros Hs. rewrite fill_columns_rest. induction cols as [|x cols IH]; [done|].
  rewrite filter_cons, decide_False by (destruct (Hs x) as [v ->]; [left|done]).
  apply IH. intros y Hy. apply Hs. by right.
Qed.

Lemma obj_get_in c v m : obj_get c m = Some v -> c ∈ map fst m.
Proof.
  induction m as [|[k x] m IH]; simpl; [done|].
  destruct (String.eqb_spec c k) as [->|]; [by left|]. intros ?. right. by apply IH.
Qed.

Lemma fold_insert_get (m shadow : object) c :
  NoDup (map fst m) ->
  obj_get c (fold_left (fun s kv => obj_insert (fst kv) (snd kv) s) m shadow) =
    match obj_get c m with Some v => Some v | None => obj_get c shadow end.
Proof.
  revert shadow. induction m as [|[k v] m IH]; intros shadow Hnd; simpl; [done|].
  apply NoDup_cons in Hnd as [Hk Hnd]. rewrite IH by done.
  destruct (String.eqb_spec c k) as [->|Hne]; [|by rewrite obj_get_insert_ne].
  rewrite obj_get_insert_eq. destruct (obj_get k m) eqn:E; [|done].
  by apply obj_get_in in E.
Qed.

Lemma sorted_keys m : StronglySorted key_lt m -> NoDup (map fst m).
Proof.
  induction 1 as [|[k v] m Hm IH Hlt]; simpl; constructor; [|done].
  intros (x & Hx & Hin)%list_elem_of_fmap.
  rewrite Forall_forall in Hlt. specialize (Hlt x Hin). unfold key_lt in Hlt. simpl in *.
  rewrite Hx, compare_refl in Hlt. done.
Qed.

Lemma fill_columns_sorted shadow cols m :
  StronglySorted key_lt m -> StronglySorted key_lt (snd (fill_columns shadow cols m)).
Proof.
  revert m. induction cols as [|x cols IH]; intros m Hm; simpl; [done|].
  destruct (obj_get x shadow).
  - by apply IH, obj_insert_sorted.
  - specialize (IH m Hm). by destruct (fill_columns shadow cols m).
Qed.

(** Rows are compared by the value of each column. *)
Definition same_row (a b : object) : Prop := forall c, obj_get c a = obj_get c b.

#[local] Instance same_row_equiv : Equivalence same_row.
Proof. split; [done|by intros a b E c|intros a b c E1 E2 x; by rewrite E1]. Qed.

#[local] Instance obj_get_same_row c : Proper (same_row ==> eq) (obj_get c).
Proof. by intros a b E. Qed.

(** [e] reports the change of a row from [old] to [new], leaving out columns the change did
    not touch. *)
Record partial_update (old new : object) (e : Event) : Prop := {
  upd_after : exists a, Event.after e = Some (JObj a) /\ StronglySorted key_lt a /\
    forall c, c ∉ Event.unavailable_columns e -> obj_get c a = obj_get c new;
  upd_unchanged c : c ∈ Event.unavailable_columns e ->
    is_Some (obj_get c old) /\ obj_get c new = obj_get c old;
  upd_before b : Event.before e = Some (JObj b) ->
    forall c, c ∉ Event.before_unavailable_columns e -> obj_get c b = obj_get c old;
  upd_before_known c : c ∈ Event.before_unavailable_columns e -> is_Some (obj_get c old);
  upd_columns c : obj_get c new = None -> obj_get c old = None;
}.

(** [e] carries the whole of the row it left and of the row it made. *)
Definition whole_images (old new : object) (e : Event) : Prop :=
  Event.unavailable_columns e = [] /\
  (exists a, Event.after e = Some (JObj a) /\ same_row a new /\
     (Event.op e = Event.Update -> exists k, Event.row_write e = Event.Replace k (JObj a))) /\
  forall b, Event.before e = Some (JObj b) -> same_row b old.

Lemma fill_object shadow cols m :
  (forall x, x ∈ cols -> is_Some (obj_get x shadow)) ->
  fill shadow cols (Some (JObj m)) = ([], Some (JObj (snd (fill_columns shadow cols m))), []).
Proof.
  intros Hs. unfold fill. pose proof (fill_columns_all shadow cols m Hs) as E.
  destruct cols as [|x cols]; [done|].
  destruct (fill_columns shadow (x :: cols) m) as [rest m']. simpl in *. by subst.
Qed.

Lemma repair_event_whole old new shadow e :
  same_row shadow old -> partial_update old new e ->
  exists e' shadow', repair_event shadow e = (e', shadow', []) /\
    whole_images old new e' /\ same_row shadow' new.
Proof.
  intros Hsh [(a & Ha & Hsort & Hcols) Hun Hb Hbk Hdom].
  assert (Hs : forall x, x ∈ Event.unavailable_columns e -> is_Some (obj_get x shadow)).
  { intros x Hx. rewrite Hsh. by apply Hun. }
  assert (Hsb : forall x, x ∈ Event.before_unavailable_columns e -> is_Some (obj_get x shadow)).
  { intros x Hx. rewrite Hsh. by apply Hbk. }
  unfold repair_event. rewrite Ha, (fill_object _ _ _ Hs).
  assert (Hnew : same_row (snd (fill_columns shadow (Event.unavailable_columns e) a)) new).
  { intros c. rewrite fill_columns_get by done. case_decide as Hc; [|by apply Hcols].
    rewrite Hsh. symmetry. by apply Hun. }
  assert (Hfold : same_row (fold_left (fun s kv => obj_insert (fst kv) (snd kv) s)
            (snd (fill_columns shadow (Event.unavailable_columns e) a)) shadow) new).
  { intros c. rewrite fold_insert_get by (by apply sorted_keys, fill_columns_sorted).
    rewrite (Hnew c), Hsh. destruct (obj_get c new) eqn:E; [done|]. by apply Hdom. }
  assert (Hbefore : exists bu b u,
    fill shadow (Event.before_unavailable_columns e) (Event.before e) = (bu, b, []) /\
    u = @nil string /\ forall bo, b = Some (JObj bo) -> same_row bo old).
  { destruct (Event.before e) as [[]|] eqn:Eb.
    6:{ rewrite (fill_object _ _ _ Hsb). do 3 eexists. split_and!; [done..|].
        intros ? [= <-] c. rewrite fill_columns_get by done. case_decide; [by rewrite Hsh|].
        by apply (Hb m). }
    all: unfold fill; destruct (Event.before_unavailable_columns e); by do 3 eexists. }
  destruct Hbefore as (bu & b & _ & -> & _ & Hbo).
  do 2 eexists. split; [reflexivity|]. split; [|done]. split_and!; simpl; [done| |done].
  eexists. split_and!; [done..|]. simpl. intros Hop. unfold Event.row_write. simpl.
  rewrite Hop. by eexists.
Qed.

(** The successive changes of one row, each event with the row it made. *)
Fixpoint history (old : object) (l : list (Event * object)) : Prop :=
  match l with
  | [] => True
  | (e, new) :: l' => partial_update old new e /\ history new l'
  end.

Fixpoint whole_history (old : object) (l : list (Event * object)) (es : list Event) : Prop :=
  match l, es with
  | [], [] => True
  | (_, new) :: l', e' :: es' => whole_images old new e' /\ whole_history new l' es'
  | _, _ => False
  end.

(** [repair_partial_payload] on the events of one key, in the order they are polled. *)
Fixpoint repair_all (rows : list (string * Event)) (index : gmap string nat) (fp : string)
    (es : list Event) : list Event * list string :=
  match es with
  | [] => ([], [])
  | e :: es' =>
      let '(e', rows', unfilled) := repair_partial_payload rows index fp e in
      let '(out, u) := repair_all rows' index fp es' in (e' :: out, (unfilled ++ u)%list)
  end.

Lemma repair_all_whole index fp i l : index !! fp = Some i ->
  forall old rows k r shadow,
  rows !! i = Some (k, r) -> Event.after r = Some (JObj shadow) -> same_row shadow old ->
  history old l ->
  exists es, repair_all rows index fp (map fst l) = (es, []) /\ whole_history old l es.
Proof.
  intros Hi. induction l as [|[e new] l IH]; intros old rows k r shadow Hr Hsh Hold Hh.
  { by exists []. }
  destruct Hh as [Hu Hh].
  destruct (repair_event_whole old new shadow e Hold Hu) as (e' & shadow' & E & Hw & Hnew).
  simpl. unfold repair_partial_payload. rewrite Hi, Hr, Hsh, E.
  destruct (IH new (<[i:=(k, set_after r (Some (JObj shadow')))]> rows) k
              (set_after r (Some (JObj shadow'))) shadow') as (es & Ees & Hes); try done.
  { apply list_lookup_insert_eq. by eapply lookup_lt_Some. }
  rewrite Ees. by exists (e' :: es).
Qed.

(** The repair of partial events is sound and complete.  When the chunk's image of a
    row is the row before the first of its events, and every column an event leaves out
    was not changed by it, then every event comes out with no column missing: its image
    after is the row it made, its image before the row it found, and an update is a full
    [Replace].  Later events see the values the earlier ones wrote. *)
Theorem repairs_make_whole_rows index fp i old rows k r shadow l :
  index !! fp = Some i -> rows !! i = Some (k, r) -> Event.after r = Some (JObj shadow) ->
  same_row shadow old -> history old l ->
  exists es, repair_all rows index fp (map fst l) = (es, []) /\ whole_history old l es.
Proof. intros Hi. by apply repair_all_whole. Qed.

Local Open Scope string_scope.

(** A row with a large column [doc]; the first update writes it, the second leaves it out. *)
Definition doc_row (v doc : string) : object := [("doc", JStr doc); ("v", JStr v)].
Definition doc_update (after : object) (missing : list string) : Event :=
  with_images (Demo.update 1 5) None (Some (JObj after)) [] missing.

Lemma repairs_make_whole_rows_witness :
  let rows := [("k", doc_update (doc_row "0" "old") [])] in
  let l := [(doc_update (doc_row "1" "new") [], doc_row "1" "new");
            (doc_update [("v", JStr "2")] ["doc"], doc_row "2" "new")] in
  exists es, repair_all rows {["k" := 0%nat]} "k" (map fst l) = (es, []) /\
    whole_history (doc_row "0" "old") l es.
Proof.
  apply (repairs_make_whole_rows {["k" := 0%nat]} "k" 0 (doc_row "0" "old") _ "k"
    (doc_update (doc_row "0" "old") []) (doc_row "0" "old")); try done.
  assert (Hsort : forall v doc, StronglySorted key_lt (doc_row v doc)).
  { intros v doc. repeat constructor. }
  split; [|split; [|done]]; constructor; simpl; try done.
  - by exists (doc_row "1" "new").
  - by intros c ?%elem_of_nil.
  - by intros c ?%elem_of_nil.
  - intros c. destruct (String.eqb c "doc"), (String.eqb c "v"); done.
  - exists [("v", JStr "2")]. split_and!; [done|by repeat constructor|].
    intros c Hc. simpl. destruct (String.eqb_spec c "doc") as [->|]; [|done].
    exfalso. apply Hc. by left.
  - intros c [->|?%elem_of_nil]%elem_of_cons; [|done]. by split; [eexists|].
  - by intros c ?%elem_of_nil.
  - intros c. destruct (String.eqb c "doc"), (String.eqb c "v"); done.
Defined.

End Repair.
(** ** The window of a chunk *)

Section Window.
Context `{JsonCodec} {B I P : Type} `{Backend B P} `{StreamHandle I}.
Context `{!StreamLaws I, !BackendCalm B P}.
Abbreviation D := (Driver B I P).
Implicit Types d : D.

(** Where an event stands does not depend on the state of the connection. *)
Class BracketStable := {
  position_stable (b b' : B) e : position_of_event b e = position_of_event b' e;
  bracket_stable (b b' : B) e (p low high : P) :
    event_in_bracket b e p low high = event_in_bracket b' e p low high;
}.

(** *** The consumer

    A consumer keeps the rows of one table by key and applies the events it is given. *)
Definition apply (e : Event) (m : gmap string json) : gmap string json :=
  match Event.op e, event_fingerprint e with
  | Event.Truncate, _ => ∅
  | Event.SchemaChange, _ | _, None => m
  | Event.Delete, Some fp => delete fp m
  | _, Some fp => match Event.after e with Some a => <[fp := a]> m | None => m end
  end.

Definition consume (t : SnapshotTable) (es : list Event) (m : gmap string json)
    : gmap string json :=
  fold_left (fun m e => if same_table t e then apply e m else m) es m.

(** A change of a row, carried whole, or a change of another kind that touches no row. *)
Definition plain_change (e : Event) : Prop :=
  Event.unavailable_columns e = [] /\ Event.before_unavailable_columns e = [] /\
  Event.op e <> Event.Truncate /\
  (is_Some (event_fingerprint e) ->
   match Event.op e with
   | Event.Delete => True
   | Event.SchemaChange => False
   | _ => is_Some (Event.after e)
   end).

(** The chunk's read did not see the event. *)
Definition inside (b : B) (low high : P) (e : Event) : bool :=
  match position_of_event b e with
  | Some p => bool_decide (event_in_bracket b e p low high = Inside)
  | None => false
  end.

Definition touches (t : SnapshotTable) (k : string) (e : Event) : bool :=
  same_table t e && bool_decide (event_fingerprint e = Some k).

Definition effect (e : Event) : option json :=
  match Event.op e with Event.Delete => None | _ => Event.after e end.

Lemma apply_lookup e k m : plain_change e ->
  apply e m !! k = if decide (event_fingerprint e = Some k) then effect e else m !! k.
Proof.
  intros (_ & _ & Hop & Hfp). unfold apply, effect.
  destruct (event_fingerprint e) as [fp|]; [|by destruct (Event.op e)].
  specialize (Hfp ltac:(by eexists)).
  destruct (decide (Some fp = Some k)) as [[= ->]|Hne];
    destruct (Event.op e); try done;
    lazymatch type of Hfp with is_Some _ => destruct Hfp as [a ->] | _ => idtac end;
    rewrite ?lookup_insert_eq, ?lookup_delete_eq, ?lookup_insert_ne, ?lookup_delete_ne;
    congruence.
Qed.

(** The last event that touches a key decides its row. *)
Lemma consume_lookup t k es m : Forall plain_change es ->
  consume t es m !! k =
    match last (List.filter (touches t k) es) with Some e => effect e | None => m !! k end.
Proof.
  intros Hes. induction es as [|e es IH] using rev_ind; [done|].
  apply Forall_app in Hes as [Hes [He _]%Forall_cons]. specialize (IH Hes).
  unfold consume in *. rewrite fold_left_app, List.filter_app. simpl.
  unfold touches at 2. destruct (same_table t e); simpl; [|by rewrite app_nil_r].
  rewrite apply_lookup by done. case_bool_decide; case_decide; try done; simpl.
  - by rewrite last_snoc.
  - by rewrite app_nil_r.
Qed.

(** *** The override set *)

Lemma index_by_key_spec rows fp i :
  index_by_key rows !! fp = Some i -> exists e, rows !! i = Some (fp, e).
Proof.
  unfold index_by_key.
  cut (forall l (m : gmap string nat),
    (forall j x, (j, x) ∈ l -> rows !! j = Some x) ->
    (forall k j, m !! k = Some j -> exists e, rows !! j = Some (k, e)) ->
    fold_left (fun m x => <[fst (snd x) := fst x]> m) l m !! fp = Some i ->
    exists e, rows !! i = Some (fp, e)).
  { intros Hcut. apply Hcut; [|by intros k j; rewrite lookup_empty].
    intros j x (n & Hn)%list_elem_of_lookup. apply lookup_zip_Some in Hn as [Hj Hx].
    apply lookup_seq in Hj as [-> _]. done. }
  induction l as [|[j [k e]] l IH]; intros m Hl Hm; simpl; [apply Hm|].
  apply IH; [intros ???; apply Hl; by right|]. intros k' j'.
  destruct (decide (k = k')) as [->|Hne]; [rewrite lookup_insert_eq|rewrite lookup_insert_ne by done].
  - intros [= <-]. exists e. apply Hl. left.
  - apply Hm.
Qed.

(** The buffered rows are the ones read, but for the ones in the override set. *)
Definition kept_rows (ov : gset string) : relation (list (string * Event)) :=
  Forall2 (fun x0 x => fst x = fst x0 /\ (fst x0 ∉ ov -> x = x0)).

Lemma repair_plain shadow e : plain_change e -> exists shadow',
  repair_event shadow e = (e, shadow', []).
Proof.
  intros (Hu & Hb & _). unfold repair_event, fill. rewrite Hu, Hb.
  destruct e. simpl in *. subst. by eexists.
Qed.

Lemma absorb_plain rows0 idxs es rows ov : Forall plain_change es -> kept_rows ov rows0 rows ->
  exists rows' ov',
    fold_left (absorb (index_by_key rows0)) idxs (es, rows, ov) = (es, rows', ov') /\
    kept_rows ov' rows0 rows' /\
    forall k, k ∈ ov' <-> k ∈ ov \/ exists i e, i ∈ idxs /\ es !! i = Some e /\
      event_fingerprint e = Some k.
Proof.
  intros Hes. revert rows ov. induction idxs as [|i idxs IH]; intros rows ov Hk; simpl.
  { exists rows, ov. split_and!; [done..|]. intros k. split; [by left|].
    intros [|(? & ? & ?%elem_of_nil & _)]; done. }
  assert (Hskip : (forall e, es !! i = Some e -> event_fingerprint e = None) ->
    exists rows' ov',
      fold_left (absorb (index_by_key rows0)) idxs (es, rows, ov) = (es, rows', ov') /\
      kept_rows ov' rows0 rows' /\
      forall k, k ∈ ov' <-> k ∈ ov \/ exists j e, j ∈ i :: idxs /\ es !! j = Some e /\
        event_fingerprint e = Some k).
  { intros Hnone. destruct (IH rows ov Hk) as (rows' & ov' & E & Hk' & Hov).
    exists rows', ov'. split_and!; [done..|]. intros k. rewrite Hov. f_equiv. split.
    - intros (j & e & Hj & He). exists j, e. split; [by right|done].
    - intros (j & e & [->|Hj]%elem_of_cons & He & Hfp); [|by exists j, e].
      by rewrite (Hnone e He) in Hfp. }
  destruct (es !! i) as [e|] eqn:Ei; simpl; [|apply Hskip; by intros].
  destruct (event_fingerprint e) as [fp|] eqn:Efp; simpl; [|apply Hskip; by intros ? [= <-]].
  clear Hskip.
  assert (Hrep : exists rows1 u, repair_partial_payload rows (index_by_key rows0) fp e
                                 = (e, rows1, u) /\ kept_rows ({[fp]} ∪ ov) rows0 rows1).
  { assert (Hk1 : kept_rows ({[fp]} ∪ ov) rows0 rows).
    { eapply Forall2_impl; [done|]. intros x0 x [Hf Hx]. split; [done|]. set_solver. }
    unfold repair_partial_payload. destruct (index_by_key rows0 !! fp) as [j|] eqn:Ej; [|by eauto].
    destruct (rows !! j) as [[k r]|] eqn:Erj; [|by eauto].
    destruct (Event.after r) as [[]|]; try by eauto.
    destruct (repair_plain m e) as [shadow' ->]; [by eapply Forall_lookup_1|].
    eexists _, _. split; [reflexivity|].
    apply index_by_key_spec in Ej as [e0 Ej].
    rewrite <-(list_insert_id rows0 j (fp, e0)) by done.
    apply Forall2_insert; [done|].
    destruct (Forall2_lookup_lr _ _ _ _ _ _ Hk1 Ej Erj) as [Hf _]. simpl in *. split; [done|].
    set_solver. }
  destruct Hrep as (rows1 & u & -> & Hk1).
  rewrite list_insert_id by done.
  destruct (IH rows1 ({[fp]} ∪ ov) Hk1) as (rows' & ov' & E & Hk' & Hov).
  exists rows', ov'. split_and!; [done..|]. intros k. rewrite Hov. split.
  - intros [[->%elem_of_singleton|]%elem_of_union|(j & e' & Hj & He)]; [|by left|].
    + right. exists i, e. split; [left|done].
    + right. exists j, e'. split; [by right|done].
  - intros [|(j & e' & [->|Hj]%elem_of_cons & He & Hfp)]; [left; set_solver| |right; by exists j, e'].
    left. simplify_eq. set_solver.
Qed.

Lemma scan_in_bracket b t low high es i :
  i ∈ in_bracket (scan b t low high es) <->
  exists e, es !! i = Some e /\ same_table t e = true /\ inside b low high e = true.
Proof.
  unfold scan.
  cut (forall k acc,
    i ∈ in_bracket (fold_left (scan_event b t low high) (zip (seq k (length es)) es) acc) <->
    i ∈ in_bracket acc \/ exists j e, i = (k + j)%nat /\ es !! j = Some e /\
      same_table t e = true /\ inside b low high e = true).
  { intros ->. simpl. split.
    - intros [?%elem_of_nil|(j & e & -> & He)]; [done|]. by exists e.
    - intros (e & He). right. by exists i, e. }
  induction es as [|e es IH]; intros k acc.
  { simpl. split; [by left|]. intros [|(? & ? & _ & ? & _)]; done. }
  simpl length. simpl zip. cbn [fold_left]. rewrite IH.
  assert (Hstep : i ∈ in_bracket (scan_event b t low high acc (k, e)) <->
    i ∈ in_bracket acc \/ i = k /\ same_table t e = true /\ inside b low high e = true).
  { unfold scan_event, inside. destruct (position_of_event b e) as [p|]; simpl;
      [|naive_solver].
    destruct (same_table t e); simpl; [|naive_solver].
    case_bool_decide; [|naive_solver]. rewrite elem_of_app, list_elem_of_singleton. naive_solver. }
  rewrite Hstep. split.
  - intros [[|(-> & He)]|(j & e' & -> & He)]; [by left| |].
    + right. exists O, e. by rewrite Nat.add_0_r.
    + right. exists (S j), e'. split; [lia|done].
  - intros [|([|j] & e' & -> & He & Hst)]; [by left; left| |].
    + left. right. rewrite Nat.add_0_r. naive_solver.
    + right. exists j, e'. split; [lia|done].
Qed.

Lemma kept_rows_merged ov rows0 rows : kept_rows ov rows0 rows ->
  map snd (List.filter (fun x => negb (bool_decide (fst x ∈ ov))) rows) =
  map snd (List.filter (fun x => negb (bool_decide (fst x ∈ ov))) rows0).
Proof.
  induction 1 as [|x0 x rows0 rows [Hf Hx] _ IH]; simpl; [done|]. rewrite Hf.
  case_bool_decide as Hin; simpl; [done|]. by rewrite Hx, IH.
Qed.

(** *** Rounds of collecting *)

Definition collecting (d : D) : Prop :=
  match phase d with ChunkCollect _ _ _ _ _ _ _ => True | _ => False end.

(** The iterations from a chunk's read to the end of its window, with what they deliver. *)
Inductive rounds (t : Z) : D -> list Event -> D -> Prop :=
| rounds_end d r d' : collecting d -> drive_step t d = (Ok r, d') -> ~ collecting d' ->
    rounds t d (default [] r) d'
| rounds_next d r d1 es d' : collecting d -> drive_step t d = (Ok r, d1) -> rounds t d1 es d' ->
    rounds t d (default [] r ++ es)%list d'
| rounds_retry d e d1 es d' : collecting d -> drive_step t d = (Err e, d1) ->
    rounds t d1 es d' -> rounds t d es d'.

Context `{!BracketStable}.

Lemma inside_stable b b' low high e : inside b low high e = inside b' low high e.
Proof.
  unfold inside. rewrite (position_stable b b'). destruct (position_of_event b' e); [|done].
  by rewrite (bracket_stable b b').
Qed.

(** What is known while the window of a chunk with rows [rows0] is open. *)
Definition open_window (i : nat) (low high : P) (rows0 : list (string * Event)) (nc : list json)
    (tb : TableProgress) (ov : gset string) (d : D) : Prop :=
  wf d /\ tables d !! i = Some tb /\
  exists rows, phase d = ChunkCollect i low high rows (index_by_key rows0) ov nc /\
    kept_rows ov rows0 rows.

(** The keys the events of [es] write inside the window. *)
Definition written (b : B) (low high : P) (t : SnapshotTable) (es : list Event) (k : string)
    : Prop :=
  exists e, e ∈ es /\ same_table t e = true /\ inside b low high e = true /\
    event_fingerprint e = Some k.

(** One successful iteration inside the window. *)
Lemma window_step t d i low high rows0 nc tb ov r d' polled :
  open_window i low high rows0 nc tb ov d -> drive_step t d = (Ok r, d') ->
  handed (inner d') = (handed (inner d) ++ polled)%list -> Forall plain_change polled ->
  exists tail ov', polled = (default [] r ++ tail)%list /\
    deferred d' = (deferred d ++ tail)%list /\
    (forall k, k ∈ ov' <-> k ∈ ov \/ written (backend d) low high (spec tb) polled k) /\
    (open_window i low high rows0 nc tb ov' d' \/
     exists rc, phase d' = ChunkEmit i (map snd
       (List.filter (fun x => negb (bool_decide (fst x ∈ ov'))) rows0)) nc rc).
Proof.
  intros (Hwf & Htb & rows & Hp & Hk) Hs Hh Hpl.
  destruct (drive_collect_ok t d _ _ _ _ _ _ _ Hp Hwf) as (r' & d2 & E & Ho).
  assert (E' : drive_step t d = (r', d2)) by (by enter Hp). rewrite Hs in E'. simplify_eq.
  assert (Hwf' : wf d2) by (pose proof (wf_step t d Hwf) as Hw; by rewrite Hs in Hw).
  inversion Ho as [|t0 i' t1 polled1 events rows' ov' passed d'' Hpoll Ht1 Hf Hev Hr Hh1
    Htabs Hcs Hpa s n Hd Hm Hp']; subst d''. simplify_eq.
  rewrite Hh1 in Hh. apply app_inv_head in Hh as <-.
  destruct (absorb_plain rows0 (in_bracket s) polled1 rows ov Hpl Hk)
    as (rows2 & ov2 & Ef & Hk2 & Hov). unfold s in Ef. rewrite Hf in Ef. injection Ef as -> -> ->.
  assert (Hout : default [] (match take n polled1 with
            | [] => if passed then None else Some [] | h => Some h end) = take n polled1).
  { destruct (take n polled1); [by destruct passed|done]. }
  exists (drop n polled1), ov2. rewrite Hout. split_and!; [by rewrite take_drop|done| |].
  - intros k. rewrite Hov. f_equiv. unfold s. split.
    + intros (j & e & (e' & He' & Hin)%scan_in_bracket & He & Hfp).
      rewrite He in He'. injection He' as <-. exists e. split; [by eapply list_elem_of_lookup_2|naive_solver].
    + intros (e & [j Hj]%list_elem_of_lookup & Hst & Hin & Hfp). exists j, e.
      split; [|done]. apply scan_in_bracket. naive_solver.
  - destruct passed; [right|left].
    + unfold finalize_collect in Hp'. simpl in Hp'. rewrite (kept_rows_merged _ _ _ Hk2) in Hp'.
      by eexists.
    + split_and!; [done|by rewrite Htabs|by exists rows2].
Qed.

Lemma step_handed t d : wf d -> exists new,
  handed (inner (snd (drive_step t d))) = (handed (inner d) ++ new)%list /\
  wf (snd (drive_step t d)).
Proof.
  intros Hwf. destruct (drive_step_ok Permutation t d Hwf (or_intror eq_refl))
    as (r & d' & E & _ & Hwf' & _ & new & _ & _ & _ & Hh & _). rewrite E. by exists new.
Qed.

Lemma rounds_handed t d es d' : rounds t d es d' -> wf d ->
  exists new, handed (inner d') = (handed (inner d) ++ new)%list.
Proof.
  induction 1 as [d r d' _ E _|d r d1 es d' _ E _ IH|d e d1 es d' _ E _ IH]; intros Hwf;
    destruct (step_handed t d Hwf) as (n1 & Hh & Hwf1); rewrite E in Hh, Hwf1; simpl in *;
    [by exists n1|..]; destruct (IH Hwf1) as [n2 ->]; rewrite Hh, <-(assoc_L _); by eexists.
Qed.

Lemma window_retry t d i low high rows0 nc tb ov e d' :
  open_window i low high rows0 nc tb ov d -> drive_step t d = (Err e, d') ->
  open_window i low high rows0 nc tb ov d' /\ deferred d' = deferred d /\
  handed (inner d') = handed (inner d).
Proof.
  intros (Hwf & Htb & rows & Hp & Hk) Hs.
  destruct (drive_collect_ok t d _ _ _ _ _ _ _ Hp Hwf) as (r' & d2 & E & Ho).
  assert (E' : drive_step t d = (r', d2)) by (by enter Hp). rewrite Hs in E'. simplify_eq.
  inversion Ho as [e' d'' Hw Hd Hh|]; subst. split_and!; [|done..].
  split_and!; [by eapply wf_same_work| |exists rows; split; [|done]]; destruct Hw as (Hp' & Ht' & _).
  - by rewrite Ht'.
  - by rewrite Hp'.
Qed.

Lemma written_app b low high t es1 es2 k :
  written b low high t (es1 ++ es2) k <->
  written b low high t es1 k \/ written b low high t es2 k.
Proof. unfold written. set_solver. Qed.

Lemma written_stable b b' low high t es k :
  written b low high t es k <-> written b' low high t es k.
Proof. unfold written. by setoid_rewrite (inside_stable b b'). Qed.

(** The rounds of a window leave the rows whose key no event of the window wrote. *)
Lemma window_rounds b t d es d' i low high rows0 nc tb ov polled :
  rounds t d es d' -> open_window i low high rows0 nc tb ov d ->
  handed (inner d') = (handed (inner d) ++ polled)%list -> Forall plain_change polled ->
  exists tail (ov' : gset string) rc, deferred d' = (deferred d ++ tail)%list /\
    polled ≡ₚ (es ++ tail)%list /\
    (forall k, k ∈ ov' <-> k ∈ ov \/ written b low high (spec tb) polled k) /\
    phase d' = ChunkEmit i (map snd
       (List.filter (fun x => negb (bool_decide (fst x ∈ ov'))) rows0)) nc rc.
Proof.
  intros Hr. revert ov polled.
  induction Hr as [d r d' Hc E Hnc|d r d1 es d' Hc E Hr IH|d e d1 es d' Hc E Hr IH];
    intros ov polled Ho Hh Hpl.
  - destruct (window_step t d i low high rows0 nc tb ov r d' polled) as
      (tail & ov' & Hpo & Hd & Hov & Hnext); try done.
    destruct Hnext as [(_ & _ & rows & Hp & _)|[rc Hp]].
    { unfold collecting in Hnc. by rewrite Hp in Hnc. }
    exists tail, ov', rc. split_and!; [done|by rewrite Hpo| |done].
    intros k. by rewrite Hov, (written_stable b (backend d)).
  - destruct (step_handed t d (proj1 Ho)) as (p1 & Hh1 & Hwf1). rewrite E in Hh1, Hwf1.
    simpl in *. destruct (rounds_handed _ _ _ _ Hr Hwf1) as [p2 Hh2].
    rewrite Hh2, Hh1, <-(assoc_L _) in Hh. apply app_inv_head in Hh as <-.
    apply Forall_app in Hpl as [Hpl1 Hpl2].
    destruct (window_step t d i low high rows0 nc tb ov r d1 p1) as
      (tail & ov1 & Hpo & Hd & Hov & Hnext); try done.
    destruct Hnext as [Ho1|[rc Hp]].
    2:{ exfalso. assert (Hcol : collecting d1) by (by inversion Hr).
        unfold collecting in Hcol. by rewrite Hp in Hcol. }
    destruct (IH ov1 p2 Ho1 Hh2 Hpl2) as (tail2 & ov' & rc & Hd2 & Hpo2 & Hov2 & Hp2).
    exists (tail ++ tail2)%list, ov', rc. split_and!; [by rewrite Hd2, Hd, (assoc_L _)| | |done].
    + rewrite Hpo2, Hpo. solve_Permutation.
    + intros k. rewrite Hov2, Hov, (written_stable (backend d) b), written_app. tauto.
  - destruct (window_retry t d i low high rows0 nc tb ov e d1 Ho E) as (Ho1 & Hd & Hh1).
    destruct (IH ov polled Ho1) as (tail & ov' & rc & Hd2 & Hrest); [congruence|done|].
    exists tail, ov', rc. by rewrite Hd2, Hd.
Qed.

(** *** Convergence *)

Lemma last_filter_suffix (p : Event -> bool) l :
  StronglySorted (fun e e' => p e = true -> p e' = true) l ->
  (exists e, e ∈ l /\ p e = true) -> last (List.filter p l) = last l.
Proof.
  induction 1 as [|e l Hs IH Hall]; intros (x & Hx & Hpx); [by apply elem_of_nil in Hx|].
  simpl. destruct (p e) eqn:Ep.
  - rewrite filter_all; [done|]. eapply Forall_impl; [done|]. auto.
  - apply elem_of_cons in Hx as [->|Hx]; [congruence|].
    rewrite IH by (by exists x). destruct l; [by apply elem_of_nil in Hx|done].
Qed.

Lemma chunk_entry_touches d tb r now k : pk_columns (spec tb) <> [] ->
  touches (spec tb) k (snd (chunk_entry d tb r now)) = bool_decide (fst (chunk_entry d tb r now) = k)
  /\ plain_change (snd (chunk_entry d tb r now)).
Proof.
  intros Hpk.
  assert (Hfp : event_fingerprint (snd (chunk_entry d tb r now))
                = Some (fst (chunk_entry d tb r now))).
  { unfold event_fingerprint. simpl. by destruct (pk_columns (spec tb)). }
  split.
  - unfold touches. rewrite Hfp. unfold same_table. simpl. rewrite !String.eqb_refl. simpl.
    apply bool_decide_ext. naive_solver.
  - split_and!; try done. by eexists.
Qed.

(** The rows of a chunk as the theorem sees them. *)
Definition snapshot_entry (t : SnapshotTable) (x : string * Event) : Prop :=
  plain_change (snd x) /\ effect (snd x) = Event.after (snd x) /\
  forall k, touches t k (snd x) = bool_decide (fst x = k).

Lemma merged_touches t (ov : gset string) rows k :
  Forall (snapshot_entry t) rows -> NoDup (map fst rows) ->
  List.filter (touches t k)
    (map snd (List.filter (fun x => negb (bool_decide (fst x ∈ ov))) rows)) =
  if bool_decide (k ∈ ov) then [] else map snd (List.filter (fun x => bool_decide (fst x = k)) rows).
Proof.
  intros Hr _. induction Hr as [|[k' e] rows (_ & _ & Ht) _ IH]; simpl in *; [by case_match|].
  destruct (bool_decide (k' ∈ ov)) eqn:E1; simpl; rewrite ?Ht, IH.
  - destruct (bool_decide (k ∈ ov)) eqn:E2; [done|].
    rewrite (bool_decide_false (k' = k)); [done|]. intros ->. by rewrite E1 in E2.
  - destruct (bool_decide_reflect (k' = k)) as [->|]; [|done]. by rewrite E1.
Qed.

Lemma filter_key_unique (rows : list (string * Event)) x :
  NoDup (map fst rows) -> x ∈ rows ->
  List.filter (fun y => bool_decide (fst y = fst x)) rows = [x].
Proof.
  induction rows as [|y rows IH]; intros Hnd Hx; [by apply elem_of_nil in Hx|].
  simpl in *. apply NoDup_cons in Hnd as [Hy Hnd].
  apply elem_of_cons in Hx as [->|Hx].
  - rewrite bool_decide_true by done. f_equal. apply filter_none, Forall_forall.
    intros z Hz. apply bool_decide_eq_false. intros E. apply Hy. rewrite <-E.
    apply list_elem_of_fmap. by exists z.
  - rewrite bool_decide_false; [by apply IH|]. intros E. apply Hy. rewrite E.
    apply list_elem_of_fmap. by exists x.
Qed.

Lemma chunk_read_entries t d0 idx d i low high rows index ov nc tb :
  wf d0 -> phase d0 = ChunkPrepare idx -> paused d0 = false ->
  drive_step t d0 = (Ok None, d) ->
  phase d = ChunkCollect i low high rows index ov nc -> tables d !! i = Some tb ->
  pk_columns (spec tb) <> [] ->
  Forall (snapshot_entry (spec tb)) rows /\ index = index_by_key rows /\ ov = ∅ /\ wf d.
Proof.
  intros Hwf Hp0 Hpa Hs Hp Htb Hpk.
  destruct (drive_chunk_prepare_ok d0 idx Hp0 Hpa) as (r & d2 & E & Ho).
  destruct (prepare_outcome_wf d0 r d2 Ho Hwf) as (Hr & Hwf' & _).
  assert (E' : drive_step t d0 = match r with Ok _ => (Ok None, d2) | Err e => (Err e, d2)
                                | Panic => (Panic, d2) end).
  { enter Hp0. rewrite Hpa, bind_eq, E. by destruct r. }
  rewrite Hs in E'. destruct r as [[]|e|]; simplify_eq.
  inversion Ho as [| |? ? ? ? ? ? ? Hp2|? i2 t2 low2 high2 r0 rs rows2 Hst Hi2 Hc2 Ht2 Hrows Hp2];
    subst; [done|rewrite Hp in Hp2..].
  { exfalso. revert Hp2. unfold goto_next_table. by destruct (next_incomplete_table d2). }
  injection Hp2 as -> -> -> -> -> -> ->. rewrite Ht2, Hi2 in Htb. injection Htb as ->.
  split_and!; try done. apply Forall_forall. intros x [j Hj]%list_elem_of_lookup.
  destruct (Forall2_lookup_r _ _ _ _ _ Hrows Hj) as (r & _ & now & ->).
  split_and!; [by eapply (chunk_entry_touches d0 tb r now EmptyString)|done|].
  intros k. by apply chunk_entry_touches.
Qed.

Lemma merge_converges b low high t es tail (ov : gset string) rows x src m :
  Forall (snapshot_entry t) rows -> NoDup (map fst rows) -> x ∈ rows ->
  src !! fst x = Event.after (snd x) ->
  Forall plain_change es ->
  (forall k, k ∈ ov <-> written b low high t (es ++ tail) k) ->
  Forall (fun e => inside b low high e = false) tail ->
  StronglySorted (fun e e' => inside b low high e = true -> inside b low high e' = true)
    (List.filter (touches t (fst x)) es) ->
  consume t (es ++ map snd (List.filter (fun x => negb (bool_decide (fst x ∈ ov))) rows))%list m
    !! fst x =
  consume t (List.filter (inside b low high) es) src !! fst x.
Proof.
  intros Hent Hnd Hx Hsrc Hes Hov Htail Hord.
  rewrite !consume_lookup.
  2:{ apply (List.incl_Forall (List.incl_filter _ _) Hes). }
  2:{ apply Forall_app. split; [done|]. apply List.Forall_map.
      eapply (List.incl_Forall (List.incl_filter _ _)). eapply Forall_impl; [exact Hent|].
      by intros y []. }
  rewrite List.filter_app, (merged_touches t ov rows (fst x) Hent Hnd).
  rewrite (filter_key_unique rows x Hnd Hx). simpl.
  assert (Hcomm : List.filter (touches t (fst x)) (List.filter (inside b low high) es) =
                  List.filter (inside b low high) (List.filter (touches t (fst x)) es)).
  { clear. induction es as [|e es IH]; simpl; [done|].
    destruct (inside b low high e) eqn:E1, (touches t (fst x) e) eqn:E2; simpl;
      rewrite ?E1, ?E2; simpl; congruence. }
  rewrite Hcomm. destruct (bool_decide_reflect (fst x ∈ ov)) as [Hin|Hout].
  - assert (Hex : exists e, e ∈ List.filter (touches t (fst x)) es /\ inside b low high e = true).
    { apply Hov in Hin as (e & [He|He]%elem_of_app & Hst & Hins & Hfp).
      - exists e. split; [|done]. rewrite list_elem_of_In, filter_In, <-list_elem_of_In.
        split; [done|]. unfold touches. by rewrite Hst, bool_decide_true.
      - rewrite Forall_forall in Htail. by rewrite (Htail e He) in Hins. }
    rewrite app_nil_r, (last_filter_suffix (inside b low high)) by done.
    destruct (last _) eqn:El; [done|]. apply last_None in El. rewrite El in Hex.
    destruct Hex as (? & ?%elem_of_nil & _). done.
  - rewrite last_snoc, (filter_none (inside b low high)); simpl.
    { rewrite Hsrc. by apply (proj1 (Forall_forall _ _) Hent x Hx). }
    apply Forall_forall. intros e He. rewrite list_elem_of_In, filter_In, <-list_elem_of_In in He.
    destruct He as [He [Hst Hfp%bool_decide_eq_true]%andb_true_iff].
    apply not_true_is_false. intros Hins. apply Hout, Hov. exists e. rewrite elem_of_app. auto.
Qed.


(** ** Cursors *)

Definition cursor_at (i : nat) (d : D) : option (option (list json)) :=
  pk_cursor <$> tables d !! i.

Lemma prepare_cursor d r d' i : prepare_outcome d r d' -> cursor_at i d' = cursor_at i d.
Proof.
  unfold cursor_at.
  destruct 1 as [e d' _ (_ & -> & _)| |d' j t _ _ _ -> _|d' j t ? ? ? ? ? _ _ _ -> _ _]; try done.
  destruct (decide (i = j)) as [->|Hne].
  - rewrite list_lookup_alter_eq. by destruct (tables d !! j).
  - by rewrite list_lookup_alter_ne.
Qed.

(** An iteration of the driver moves the keyset cursor of a table only when the chunk
    being emitted is that table's and its queue is empty, so every row up to the cursor
    that becomes durable has been delivered; the cursor it installs is the chunk's. *)
Theorem cursor_moves_after_delivery t d r d' i :
  wf d -> drive_step t d = (r, d') -> cursor_at i d' <> cursor_at i d ->
  exists nc rc, phase d = ChunkEmit i [] nc rc /\ cursor_at i d' = Some (Some nc).
Proof.
  intros Hwf Hs Hc.
  assert (Hsame : tables d' = tables d -> False) by (intros E; apply Hc; unfold cursor_at; by rewrite E).
  destruct (deferred_or_stream_ok Permutation t d) as (rs & ds & Es & _ & Hws & _).
  assert (Hstream : (es ← deferred_or_stream t; mret (Some es)) d = (r, d') -> tables d' = tables d).
  { rewrite bind_eq, Es. destruct Hws as (_ & <- & _). by destruct rs; intros [= _ <-]. }
  destruct (phase d) as [idx|j low high rows index ov nc|j es nc rc|] eqn:Hp.
  - revert Hs. enter Hp. destruct (paused d) eqn:Hpa; [intros ?; exfalso; auto|]. intros Hs.
    destruct (drive_chunk_prepare_ok d idx Hp Hpa) as (r1 & d1 & E & Ho).
    rewrite bind_eq, E in Hs. apply (prepare_cursor _ _ _ i) in Ho.
    destruct r1; injection Hs as _ <-; congruence.
  - exfalso. apply Hsame.
    destruct (drive_collect_ok t d j low high rows index ov nc Hp Hwf) as (r1 & d1 & E & Ho).
    revert Hs. enter Hp. rewrite E. intros [= <- <-]. destruct Ho; [|done].
    match goal with Hw : same_work _ _ |- _ => apply Hw end.
  - unfold wf in Hwf. rewrite Hp in Hwf. destruct Hwf as [Hj _].
    destruct (0 <? Nat.min (length es) (emit_batch_size d))%nat eqn:En.
    { exfalso. apply Hsame. revert Hs. enter Hp. rewrite En. by intros [= <- <-]. }
    assert (Ht : tables d' = tables (commit_chunk_progress j nc rc d)).
    { rewrite (drive_step_emitted t d j es nc rc Hp Hj) in Hs by (zbool; lia).
      by destruct (deferred d); simplify_eq/=. }
    unfold cursor_at in *. rewrite Ht in *. simpl in *.
    destruct (decide (i = j)) as [->|Hne]; [|by rewrite list_lookup_alter_ne in Hc].
    rewrite list_lookup_alter_eq in *.
    destruct (lookup_lt_is_Some_2 _ _ Hj) as [tb Htb]. rewrite Htb in *. simpl in *.
    destruct nc as [|v nc]; [done|].
    assert (es = []) as ->.
    { apply nil_length_inv. zbool. unfold emit_batch_size, EMIT_BATCH_SIZE in En.
      destruct (Nat.eqb_spec (chunk_size d) 0); lia. }
    by eexists _, _.
  - exfalso. apply Hsame, Hstream. revert Hs. by enter Hp.
Qed.

End Window.

(** ** Row filters across a restart *)

Section Restart.
Context {B I P : Type} `{Backend B P}.

Definition unfiltered (tp : TableProgress) : Prop := tbl_condition (spec tp) = None.

Lemma describe_unfiltered r b s b' :
  describe_with_condition r [] b = (Ok s, b') -> tbl_condition s = None.
Proof. unfold describe_with_condition. by intros (s0 & b1 & _ & [= <- <-])%bind_inv. Qed.

Lemma seed_unfiltered resume r b tp b' :
  seed_table [] resume r b = (Ok tp, b') -> unfiltered tp.
Proof.
  unfold seed_table. intros (s & b1 & Hs%describe_unfiltered & Hk)%bind_inv.
  destruct (pk_columns s); [done|]. cbv zeta in Hk. unfold unfiltered.
  repeat case_match; try done; injection Hk as <- _; exact Hs.
Qed.

Lemma adopt_unfiltered ps ts b ts' b' :
  adopt_tables [] ps ts b = (Ok ts', b') -> Forall unfiltered ts -> Forall unfiltered ts'.
Proof.
  revert ts b. induction ps as [|p ps IH]; intros ts b; simpl; [by intros [= <- <-]|].
  intros (ts1 & b1 & H1 & H2)%bind_inv Hts. eapply IH; [exact H2|]. clear IH H2.
  unfold adopt_table in H1. destruct (Offsets.is_complete p); [by simplify_eq|].
  destruct (existsb _ ts); [by simplify_eq|].
  destruct (describe_with_condition (Offsets.table p) [] b) as [[s|e|] b2] eqn:Ed; simplify_eq;
    [|done]. apply describe_unfiltered in Ed.
  destruct (pk_columns s); simplify_eq; [done|].
  apply Forall_app. split; [done|]. by repeat constructor.
Qed.

(** A restart forgets the row filter of a snapshot request.  A driver resumed from a
    checkpoint re-reads every table, those requested at run time included, under the
    configured filters alone: with none configured it reads them unfiltered, whatever
    filter the checkpoint records for them. *)
Theorem restart_drops_request_filter (inn : I) tabs n src resume b (d : Driver B I P) b' tp :
  new_driver inn tabs n [] src resume b = (Ok d, b') -> tp ∈ tables d ->
  unfiltered tp.
Proof.
  unfold new_driver.
  intros (ts1 & b1 & Hseed & (ts & b2 & Hadopt & (sid & b3 & _ &
    (b4 & b5 & _ & [= <- <-])%bind_inv)%bind_inv)%bind_inv)%bind_inv Htp. simpl in Htp.
  assert (Hts1 : Forall unfiltered ts1).
  { destruct (collect_inv (fun _ : B => True) (seed_table [] resume) _ _ _ _
      ltac:(by intros ? ? ?) Logic.I Hseed) as [Hf _].
    clear -Hf. induction Hf as [|r tp ? ? (s1 & s2 & _ & Hs) _ IH]; constructor; [|done].
    by eapply seed_unfiltered. }
  assert (Hts : Forall unfiltered ts).
  { destruct resume as [st|]; [|by injection Hadopt as <- _].
    destruct (default false (Offsets.stopped <$> Some st)); [by injection Hadopt as <- _|].
    by eapply adopt_unfiltered. }
  by apply (proj1 (Forall_forall _ _) Hts).
Qed.

End Restart.

(** ** Concrete windows *)

Import Demo.

#[local] Instance database_stable : BracketStable (B := list Z) (P := Z).
Proof. by split. Qed.

(** A driver about to read the two users between positions 10 and 12. *)
Definition window_driver (log : list Event) : Driver (list Z) Script Z :=
  {| backend := [10; 12; 12]; inner := {| pending := log; given := [] |};
     tables := [{| spec := users; pk_cursor := None; is_complete := false;
                   chunks_emitted := 0; rows_emitted := 0 |}];
     phase := ChunkPrepare 0; chunk_size := 3; table_conditions := []; source_name := "pg";
     snapshot_id := "incremental-7"; events_emitted := 0; paused := false; generation := 0;
     stopped := false; deferred := [] |}.

Definition window_log : list Event := [update 1 11; update 2 13].
Definition window_read := snd (drive_step 0 (window_driver window_log)).
Definition window_closed := snd (drive_step 0 window_read).
Definition window_rows : list (string * Event) :=
  match phase window_read with ChunkCollect _ _ _ rows _ _ _ => rows | _ => [] end.
Definition window_source : gmap string json :=
  list_to_map (map (fun x => (fst x, default JNull (Event.after (snd x)))) window_rows).

Lemma update_plain id pos : plain_change (update id pos).
Proof. split_and!; try done. by eexists. Qed.


(** A driver that has handed out its whole chunk. *)
Definition drained_driver : Driver (list Z) Script Z :=
  set_phase (ChunkEmit 0 [] [JNum (PosInt 2)] 2) (window_driver []).

Lemma cursor_moves_after_delivery_witness :
  exists nc rc, phase drained_driver = ChunkEmit 0 [] nc rc /\
    cursor_at 0 (snd (drive_step 0 drained_driver)) = Some (Some nc).
Proof.
  apply (cursor_moves_after_delivery 0 drained_driver (Ok None)
    (snd (drive_step 0 drained_driver)) 0).
  - vm_compute. split; [lia|constructor].
  - vm_compute. reflexivity.
  - vm_compute. discriminate.
Defined.

Definition truncate (pos : Z) : Event :=
  {| Event.before := None; Event.after := None; Event.op := Event.Truncate;
     Event.source := {| Event.source_name := "pg"; Event.offset := show pos;
                        Event.timestamp := pos |};
     Event.ts := pos; Event.schema := Some "public"; Event.table := "users";
     Event.primary_key := None; Event.snapshot := None; Event.transaction := None;
     Event.envelope_version := 1; Event.before_is_key_only := false;
     Event.unavailable_columns := []; Event.before_unavailable_columns := [] |}.

(** A truncation inside the window of a chunk is undone for the consumer: the driver
    delivers it first and the chunk rows read before it afterwards, so the consumer ends
    with both rows while the source's table is empty. *)
Theorem truncate_in_window_resurrects_rows :
  exists es d',
    run (replicate 3 (Poll 7 0)) (window_driver [truncate 11]) = Some (es, d') /\
    deferred d' = [] /\ phase d' = Done /\
    inside [] 10 12 (truncate 11) = true /\
    consume users [truncate 11] window_source = ∅ /\
    map snd (map_to_list (consume users es ∅)) = [user_row 1; user_row 2].
Proof. do 2 eexists. split_and!; [vm_compute; reflexivity..]. Qed.

(** A request for the users of one tenant, on a driver with no configured filter. *)
Definition tenant_driver : Driver (list Z) Script Z :=
  snd (enqueue_tables id ["public.users"] [("public.users", "tenant_id = 42")]
    (set_phase Done (set_tables [] (window_driver [])))).

Definition resumed_driver : Driver (list Z) Script Z :=
  match fst (new_driver {| pending := []; given := [] |} [] 3 [] "pg"
               (Some (snapshot_state tenant_driver)) []) with
  | Ok d => d
  | _ => tenant_driver
  end.

Lemma restart_drops_request_filter_witness :
  map Offsets.condition (Offsets.tables (snapshot_state tenant_driver))
    = [Some "tenant_id = 42"] /\
  map key (tables resumed_driver) = ["public.users"] /\
  Forall unfiltered (tables resumed_driver).
Proof.
  split_and!; [vm_compute; reflexivity..|]. apply Forall_forall. intros tp.
  apply (restart_drops_request_filter {| pending := []; given := [] |} [] 3 "pg"
    (Some (snapshot_state tenant_driver)) [] resumed_driver []).
  vm_compute. reflexivity.
Defined.

End DriverChunk.
