(* ===== verification/Fs.v ===== *)
(** * Fs: one directory of a POSIX file system

    The file-backed stores keep everything in one directory.  The model has the
    directory entries, the inodes they point to, which file contents and which
    directory updates have reached the disk, and a schedule of I/O outcomes: every call
    takes the next entry of [faults] and succeeds, fails, or the process dies in it.  A
    failed or interrupted write leaves a prefix of the data.

    [disk_after_power_loss] says what a restart may find: the directory as it was at
    some moment since the last [fsync] of the directory, and arbitrary contents in
    files that were never synced. *)

From S2P Require Import Prelude Errors Monad.

Local Open Scope Z_scope.

(** ** The directory *)

Record Inode := {
  content : list byte;
  mode : Z;
  mtime : Z;
  synced : bool;
}.

Inductive DirState := Missing | NotADirectory | Directory.

(** The outcome of one I/O call; [k] is how much of a write took effect. *)
Inductive Fault := Fine | Fails (k : nat) | Dies (k : nat).

(** [std::io::ErrorKind], as far as the code distinguishes it. *)
Inductive IoErrorKind := NotFound | AlreadyExists | OtherIo.

Abbreviation Entries := (gmap string nat).

Record World := {
  dir_state : DirState;
  entries : Entries;
  past_entries : list Entries;
  inodes : gmap nat Inode;
  faults : list Fault;
  times : list Z;
  umask : Z;
  lease_refs : gmap string nat;
  lease_refs_poisoned : bool;
}.

Definition set_faults (fs : list Fault) (w : World) : World :=
  {| dir_state := dir_state w; entries := entries w; past_entries := past_entries w;
     inodes := inodes w; faults := fs; times := times w; umask := umask w;
     lease_refs := lease_refs w; lease_refs_poisoned := lease_refs_poisoned w |}.
Definition set_times (ts : list Z) (w : World) : World :=
  {| dir_state := dir_state w; entries := entries w; past_entries := past_entries w;
     inodes := inodes w; faults := faults w; times := ts; umask := umask w;
     lease_refs := lease_refs w; lease_refs_poisoned := lease_refs_poisoned w |}.
Definition set_inodes (im : gmap nat Inode) (w : World) : World :=
  {| dir_state := dir_state w; entries := entries w; past_entries := past_entries w;
     inodes := im; faults := faults w; times := times w; umask := umask w;
     lease_refs := lease_refs w; lease_refs_poisoned := lease_refs_poisoned w |}.
Definition set_lease_refs (m : gmap string nat) (w : World) : World :=
  {| dir_state := dir_state w; entries := entries w; past_entries := past_entries w;
     inodes := inodes w; faults := faults w; times := times w; umask := umask w;
     lease_refs := m; lease_refs_poisoned := lease_refs_poisoned w |}.

(** A directory update is not on disk until the directory is synced. *)
Definition set_entries (es : Entries) (w : World) : World :=
  {| dir_state := dir_state w; entries := es; past_entries := entries w :: past_entries w;
     inodes := inodes w; faults := faults w; times := times w; umask := umask w;
     lease_refs := lease_refs w; lease_refs_poisoned := lease_refs_poisoned w |}.
Definition sync_entries (w : World) : World :=
  {| dir_state := dir_state w; entries := entries w; past_entries := [];
     inodes := inodes w; faults := faults w; times := times w; umask := umask w;
     lease_refs := lease_refs w; lease_refs_poisoned := lease_refs_poisoned w |}.

(** ** System calls *)

(** [std::io::Result<A>]; [partial] is the effect of a call that does not complete. *)
Definition IoResult (A : Type) : Type := A + IoErrorKind.

Definition syscall {A} (partial : nat -> World -> World)
    (run : World -> IoResult A * World) : M World (IoResult A) := fun w =>
  match faults w with
  | [] => let '(r, w') := run w in (Ok r, w')
  | Fine :: fs => let '(r, w') := run (set_faults fs w) in (Ok r, w')
  | Fails k :: fs => (Ok (inr OtherIo), partial k (set_faults fs w))
  | Dies k :: fs => (Panic, partial k (set_faults fs w))
  end.

Definition nothing (k : nat) (w : World) : World := w.

(** [SystemTime::now().duration_since(UNIX_EPOCH)], [0] when the clock has no answer. *)
Definition now : M World Z := fun w =>
  match times w with
  | [] => (Ok 0, w)
  | t :: ts => (Ok t, set_times ts w)
  end.

Definition touch (w : World) : Z := List.hd 0 (times w).

Definition lookup_inode (name : string) (w : World) : option Inode :=
  i ← entries w !! name; inodes w !! i.

(** [OpenOptions::new().create_new(true).write(true).open(name)]: the new inode is the
    file handle. *)
Definition create_new (name : string) : M World (IoResult nat) :=
  syscall nothing (fun w =>
    match dir_state w with
    | Directory =>
        match entries w !! name with
        | Some _ => (inr AlreadyExists, w)
        | None =>
            let i := fresh (dom (inodes w)) in
            let ino := {| content := []; mode := Z.land 438 (Z.lnot (umask w));
                          mtime := touch w; synced := false |} in
            (inl i, set_entries (<[name := i]> (entries w))
                      (set_inodes (<[i := ino]> (inodes w)) w))
        end
    | _ => (inr NotFound, w)
    end).

Definition update_inode (i : nat) (f : Inode -> Inode) (w : World) : World :=
  set_inodes (alter f i (inodes w)) w.

Definition append (data : list byte) (t : Z) (n : Inode) : Inode :=
  {| content := content n ++ data; mode := mode n; mtime := t; synced := false |}.

(** [file.write_all(data)] *)
Definition write_all (i : nat) (data : list byte) : M World (IoResult unit) :=
  syscall (fun k w => update_inode i (append (take k data) (touch w)) w)
    (fun w => (inl tt, update_inode i (append data (touch w)) w)).

(** [file.set_permissions(Permissions::from_mode(m))] *)
Definition set_permissions (i : nat) (m : Z) : M World (IoResult unit) :=
  syscall nothing (fun w => (inl tt, update_inode i (fun n =>
    {| content := content n; mode := Z.land m 4095; mtime := mtime n; synced := false |}) w)).

(** [file.sync_all()] *)
Definition sync_all (i : nat) : M World (IoResult unit) :=
  syscall nothing (fun w => (inl tt, update_inode i (fun n =>
    {| content := content n; mode := mode n; mtime := mtime n; synced := true |}) w)).

(** [fs::rename(from, to)] *)
Definition rename (from to : string) : M World (IoResult unit) :=
  syscall nothing (fun w =>
    match entries w !! from with
    | Some i => (inl tt, set_entries (<[to := i]> (delete from (entries w))) w)
    | None => (inr NotFound, w)
    end).

(** [fs::remove_file(name)] *)
Definition remove_file (name : string) : M World (IoResult unit) :=
  syscall nothing (fun w =>
    match entries w !! name with
    | Some _ => (inl tt, set_entries (delete name (entries w)) w)
    | None => (inr NotFound, w)
    end).

(** [fs::metadata(name)] and [fs::read(name)]. *)
Definition metadata (name : string) : M World (IoResult Inode) :=
  syscall nothing (fun w =>
    match lookup_inode name w with Some n => (inl n, w) | None => (inr NotFound, w) end).

Definition read (name : string) : M World (IoResult (list byte)) :=
  syscall nothing (fun w =>
    match lookup_inode name w with
    | Some n => (inl (content n), w)
    | None => (inr NotFound, w)
    end).

(** [Path::exists] answers [false] when the metadata cannot be read. *)
Definition exists_ (name : string) : M World bool :=
  r ← metadata name; mret (match r with inl _ => true | inr _ => false end).

(** [fs::read_dir], the names of the directory in an unspecified order. *)
Definition read_dir : M World (IoResult (list string)) :=
  syscall nothing (fun w =>
    match dir_state w with
    | Directory => (inl (map fst (map_to_list (entries w))), w)
    | _ => (inr NotFound, w)
    end).

(** The next entry of a directory iteration. *)
Definition next_entry : M World (IoResult unit) := syscall nothing (fun w => (inl tt, w)).

(** [dir.exists()] and [dir.is_dir()] *)
Definition dir_exists : M World bool :=
  r ← syscall nothing (fun w =>
        match dir_state w with Missing => (inr NotFound, w) | _ => (inl tt, w) end);
  mret (match r with inl _ => true | inr _ => false end).
Definition dir_is_dir : M World bool :=
  r ← syscall nothing (fun w =>
        match dir_state w with Directory => (inl tt, w) | _ => (inr NotFound, w) end);
  mret (match r with inl _ => true | inr _ => false end).

(** Opening the parent directory and [sync_all] on it. *)
Definition open_dir : M World (IoResult unit) :=
  syscall nothing (fun w =>
    match dir_state w with Missing => (inr NotFound, w) | _ => (inl tt, w) end).
Definition sync_dir : M World (IoResult unit) :=
  syscall nothing (fun w => (inl tt, sync_entries w)).

(** [.map_err(Error::from)?] *)
Definition io_try {A} (m : M World (IoResult A)) : M World A :=
  r ← m;
  match r with inl a => mret a | inr _ => throw (IoError "i/o error") end.

(** [fsync_parent_directory] of [src/src/core/durability.rs]; every path the stores use
    has a parent. *)
Definition fsync_parent_directory : M World unit :=
  io_try open_dir ;; io_try sync_dir.

(** ** Power loss *)

Definition possible_entries (w : World) : list Entries := entries w :: past_entries w.

(** What a restart may find under [name]: the inode, unless its content was lost. *)
Definition disk_after_power_loss (w : World) (es : Entries) (name : string) (n : Inode) : Prop :=
  es ∈ possible_entries w /\
  exists i n', es !! name = Some i /\ inodes w !! i = Some n' /\ (synced n' = true -> n = n').

(** Every entry a restart may find points to an inode. *)
Definition wf_world (w : World) : Prop :=
  forall es name i, es ∈ possible_entries w -> es !! name = Some i -> is_Some (inodes w !! i).

(** ** System calls and invariants *)

(** A system call keeps an invariant that does not mention the schedule. *)
Lemma keeps_syscall {A} (I : World -> Prop) partial (run : World -> IoResult A * World) :
  (forall w fs, I w -> I (set_faults fs w)) -> (forall k w, I w -> I (partial k w)) ->
  (forall w, I w -> I (snd (run w))) -> keeps I (syscall partial run).
Proof.
  intros Hf Hp Hr w Hw. unfold syscall. destruct (faults w) as [|[|k|k] fs]; simpl; eauto.
  - specialize (Hr w Hw). by destruct (run w).
  - specialize (Hr (set_faults fs w) (Hf _ _ Hw)). by destruct (run (set_faults fs w)).
Qed.

(** ** Successful runs *)

Lemma io_try_ok {A} (m : M World (IoResult A)) w a w1 :
  m w = (Ok (inl a), w1) -> io_try m w = (Ok a, w1).
Proof. intros H. unfold io_try. by rewrite (bind_ok _ _ _ _ _ H). Qed.

Lemma io_try_inv {A} (m : M World (IoResult A)) w a w' :
  io_try m w = (Ok a, w') -> m w = (Ok (inl a), w').
Proof.
  intros ([x|e] & w1 & Hm & Hk)%bind_inv; [|done]. by injection Hk as <- <-.
Qed.

Lemma set_faults_same w : set_faults (faults w) w = w.
Proof. by destruct w. Qed.

(** A completed call ran, whatever is left of the schedule. *)
Lemma syscall_inv {A} partial (run : World -> IoResult A * World) w r w' :
  syscall partial run w = (Ok r, w') ->
  r = inr OtherIo \/ exists fs, run (set_faults fs w) = (r, w').
Proof.
  unfold syscall. destruct (faults w) as [|[|k|k] fs] eqn:E; try (intros [= <- <-]; by left).
  - intros H. right. exists []. rewrite <-E, set_faults_same.
    destruct (run w). by injection H as <- <-.
  - intros H. right. exists fs. destruct (run (set_faults fs w)). by injection H as <- <-.
Qed.

Lemma create_new_inv name w i w' :
  create_new name w = (Ok (inl i), w') ->
  entries w' !! name = Some i /\
  exists n, inodes w' !! i = Some n /\ content n = [] /\ synced n = false.
Proof.
  intros [?|[fs H]]%syscall_inv; [done|]. simpl in H.
  destruct (dir_state w), (entries w !! name); try done. injection H as <- <-. simpl.
  rewrite !lookup_insert_eq. eauto.
Qed.

Lemma write_all_inv i data w w' :
  write_all i data w = (Ok (inl tt), w') ->
  entries w' = entries w /\ exists t, inodes w' !! i = append data t <$> inodes w !! i.
Proof.
  intros [?|[fs H]]%syscall_inv; [done|]. injection H as <-. simpl.
  rewrite lookup_alter_eq. eauto.
Qed.

Lemma sync_all_inv i w w' :
  sync_all i w = (Ok (inl tt), w') ->
  entries w' = entries w /\
  inodes w' !! i = (fun n => {| content := content n; mode := mode n; mtime := mtime n;
                               synced := true |}) <$> inodes w !! i.
Proof.
  intros [?|[fs H]]%syscall_inv; [done|]. injection H as <-. simpl. by rewrite lookup_alter_eq.
Qed.

(** The registry of leases is not part of the file system. *)
Definition registry (m : gmap string nat) (b : bool) (w : World) : Prop :=
  lease_refs w = m /\ lease_refs_poisoned w = b.

Lemma registry_syscall m b {A} partial (run : World -> IoResult A * World) :
  (forall k w, registry m b w -> registry m b (partial k w)) ->
  (forall w, registry m b w -> registry m b (snd (run w))) ->
  keeps (registry m b) (syscall partial run).
Proof. intros. by apply keeps_syscall. Qed.

Ltac registry_call :=
  apply registry_syscall; [done|]; intros ? ?; repeat case_match; done.

Section Registry.
Context (m : gmap string nat) (b : bool).
Abbreviation R := (registry m b).

Lemma registry_now : keeps R now.
Proof. intros w Hw. unfold now. by destruct (times w). Qed.
Lemma registry_create_new n : keeps R (create_new n).
Proof. registry_call. Qed.
Lemma registry_write_all i d : keeps R (write_all i d).
Proof. registry_call. Qed.
Lemma registry_sync_all i : keeps R (sync_all i).
Proof. registry_call. Qed.
Lemma registry_rename x y : keeps R (rename x y).
Proof. registry_call. Qed.
Lemma registry_remove_file n : keeps R (remove_file n).
Proof. registry_call. Qed.
Lemma registry_read n : keeps R (read n).
Proof. registry_call. Qed.
Lemma registry_io_try {A} (c : M World (IoResult A)) : keeps R c -> keeps R (io_try c).
Proof. intros Hm. apply keeps_bind; [done|]. intros [a|e]; auto with io. Qed.

End Registry.

#[export] Hint Resolve registry_now registry_create_new registry_write_all registry_sync_all
  registry_rename registry_remove_file registry_read registry_io_try : io.

Lemma syscall_fine {A} partial (run : World -> IoResult A * World) w :
  faults w = [] -> syscall partial run w = (Ok (fst (run w)), snd (run w)).
Proof. intros E. unfold syscall. rewrite E. by destruct (run w). Qed.

(** ** What a program leaves alone

    [since w0 safe w]: compared with [w0], no file that existed was written to, and the
    names in [safe] have not been touched, in the directory as it is and in every
    directory a power loss may bring back. *)

Record since (w0 : World) (safe : string -> bool) (w : World) : Prop := {
  since_inodes : inodes w0 ⊆ inodes w;
  since_dir : dir_state w = dir_state w0;
  since_entries : forall n, safe n = true -> entries w !! n = entries w0 !! n;
  since_past : forall es, es ∈ possible_entries w ->
    exists es0, es0 ∈ possible_entries w0 /\
      forall n, safe n = true -> es !! n = es0 !! n;
  since_wf : wf_world w;
}.

Section Since.
Context (w0 : World) (safe : string -> bool).
Abbreviation I := (since w0 safe).

Lemma since_refl : wf_world w0 -> I w0.
Proof. intros Hwf. split; eauto. Qed.

(** Bookkeeping that touches neither files nor entries. *)
Lemma since_same w w' :
  I w -> inodes w' = inodes w -> dir_state w' = dir_state w -> entries w' = entries w ->
  past_entries w' = past_entries w -> I w'.
Proof.
  intros [H1 H2 H3 H4 H5] Ei Ed Ee Ep. split; unfold wf_world, possible_entries in *;
    rewrite ?Ei, ?Ed, ?Ee, ?Ep; auto.
Qed.

Lemma since_set_faults w fs : I w -> I (set_faults fs w).
Proof. intros H. by apply (since_same w). Qed.

(** A directory update that respects the safe names. *)
Lemma since_set_entries w es :
  I w -> (forall n, safe n = true -> es !! n = entries w !! n) ->
  (forall n i, es !! n = Some i -> is_Some (inodes w !! i)) -> I (set_entries es w).
Proof.
  intros [H1 H2 H3 H4 H5] Hes Hwf. split; simpl; auto.
  - intros n Hn. by rewrite Hes, H3.
  - intros es' [->|Hin]%elem_of_cons; [|by apply H4].
    destruct (H4 (entries w)) as (es0 & Hin & Heq); [by left|].
    exists es0. split; [done|]. intros n Hn. by rewrite Hes, Heq.
  - intros es' n i [->|Hin]%elem_of_cons; [apply Hwf|by apply H5].
Qed.

Lemma since_sync_entries w : I w -> I (sync_entries w).
Proof.
  intros [H1 H2 H3 H4 H5]. split; simpl; auto.
  - intros es ->%list_elem_of_singleton. apply H4. by left.
  - intros es n i ->%list_elem_of_singleton. apply (H5 (entries w) n i). by left.
Qed.

Lemma since_update_inode w i f :
  i ∉ dom (inodes w0) -> I w -> I (update_inode i f w).
Proof.
  intros Hi [H1 H2 H3 H4 H5]. split; simpl; auto.
  - apply map_subseteq_spec. intros j n Hj. rewrite lookup_alter_ne.
    + by apply (lookup_weaken _ _ _ _ Hj).
    + intros ->. apply Hi. by apply elem_of_dom.
  - intros es n j Hin Hj. simpl. apply lookup_alter_is_Some. by apply (H5 es n j).
Qed.

Lemma since_add_inode w n :
  I w -> I (set_inodes (<[fresh (dom (inodes w)) := n]> (inodes w)) w).
Proof.
  intros [H1 H2 H3 H4 H5]. split; simpl; auto.
  - etrans; [exact H1|]. apply insert_subseteq, not_elem_of_dom, is_fresh.
  - intros es m j Hin Hj. simpl. apply lookup_insert_is_Some'. right. by apply (H5 es m j).
Qed.

Lemma keeps_syscall_nothing {A} (run : World -> IoResult A * World) :
  (forall w, I w -> I (snd (run w))) -> keeps I (syscall nothing run).
Proof. intros Hr. apply keeps_syscall; auto using since_set_faults. Qed.

Lemma keeps_now : keeps I now.
Proof.
  intros w Hw. unfold now. destruct (times w); simpl; [done|]. by apply (since_same w).
Qed.

Lemma keeps_metadata n : keeps I (metadata n).
Proof. apply keeps_syscall_nothing. intros w Hw. by case_match. Qed.

Lemma keeps_read n : keeps I (read n).
Proof. apply keeps_syscall_nothing. intros w Hw. by case_match. Qed.

Lemma keeps_exists n : keeps I (exists_ n).
Proof. apply keeps_bind; [apply keeps_metadata|]. intros. apply keeps_ret. Qed.

Lemma keeps_read_dir : keeps I read_dir.
Proof. apply keeps_syscall_nothing. intros w Hw. by case_match. Qed.

Lemma keeps_next_entry : keeps I next_entry.
Proof. by apply keeps_syscall_nothing. Qed.

Lemma keeps_dir_exists : keeps I dir_exists.
Proof.
  apply keeps_bind; [|intros; apply keeps_ret]. apply keeps_syscall_nothing.
  intros w Hw. by case_match.
Qed.

Lemma keeps_dir_is_dir : keeps I dir_is_dir.
Proof.
  apply keeps_bind; [|intros; apply keeps_ret]. apply keeps_syscall_nothing.
  intros w Hw. by case_match.
Qed.

Lemma keeps_open_dir : keeps I open_dir.
Proof. apply keeps_syscall_nothing. intros w Hw. by case_match. Qed.

Lemma keeps_sync_dir : keeps I sync_dir.
Proof. apply keeps_syscall_nothing. intros w Hw. by apply since_sync_entries. Qed.

Lemma keeps_remove_file n : safe n = false -> keeps I (remove_file n).
Proof.
  intros Hn. apply keeps_syscall_nothing. intros w Hw.
  destruct (entries w !! n) as [i|] eqn:E; [|done]. apply since_set_entries; [done|..].
  - intros m Hm. apply lookup_delete_ne. intros ->. congruence.
  - intros m j Hj. apply lookup_delete_Some in Hj as [_ Hj].
    apply (since_wf _ _ _ Hw (entries w) m j); [by left|done].
Qed.

(** Renaming within the unprotected names. *)
Lemma keeps_rename a b : safe a = false -> safe b = false -> keeps I (rename a b).
Proof.
  intros Ha Hb. apply keeps_syscall_nothing. intros w Hw.
  destruct (entries w !! a) as [i|] eqn:E; [|done]. apply since_set_entries; [done|..].
  - intros m Hm. rewrite lookup_insert_ne, lookup_delete_ne by congruence. done.
  - intros m j Hj. apply lookup_insert_Some in Hj as [[_ <-]|[_ [_ Hj]%lookup_delete_Some]].
    + apply (since_wf _ _ _ Hw (entries w) a i); [by left|done].
    + apply (since_wf _ _ _ Hw (entries w) m j); [by left|done].
Qed.

(** A new file: the handle is none of the files that existed. *)
Lemma hoare_create_new n :
  safe n = false ->
  hoare I (create_new n) (fun r w => I w /\
    forall i, r = Ok (inl i) -> (i ∉ dom (inodes w0)) /\ entries w !! n = Some i /\
      is_Some (inodes w !! i)).
Proof.
  intros Hn w Hw. unfold create_new, syscall.
  assert (Hmain : forall v, I v -> entries v !! n = None ->
    I (set_entries (<[n := fresh (dom (inodes v))]> (entries v))
        (set_inodes (<[fresh (dom (inodes v)) :=
           {| content := []; mode := Z.land 438 (Z.lnot (umask v));
              mtime := touch v; synced := false |}]> (inodes v)) v)) /\
    (fresh (dom (inodes v)) ∉ dom (inodes w0))).
  { intros v Hv Hnone. split.
    - apply since_set_entries; [by apply since_add_inode| |]; simpl.
      + intros m Hm. by rewrite lookup_insert_ne by congruence.
      + intros m j [[_ <-]|[_ Hj]]%lookup_insert_Some; [by rewrite lookup_insert_eq|].
        apply lookup_insert_is_Some'. right.
        apply (since_wf _ _ _ Hv (entries v) m j); [by left|done].
    - intros Hin. apply (is_fresh (dom (inodes v))).
      apply (subseteq_dom _ _ (since_inodes _ _ _ Hv)). done. }
  destruct (faults w) as [|[|k|k] fs] eqn:Ef; simpl.
  - destruct (dir_state w), (entries w !! n) eqn:E; simpl; try (split; [done|by intros]).
    destruct (Hmain w Hw E) as [H1 H2]. split; [done|]. intros i [= <-].
    rewrite !lookup_insert_eq. eauto.
  - pose proof (since_set_faults w fs Hw) as Hw'.
    destruct (dir_state w), (entries w !! n) eqn:E; simpl; try (split; [done|by intros]).
    destruct (Hmain (set_faults fs w) Hw' E) as [H1 H2]. split; [done|]. intros i [= <-].
    simpl. rewrite !lookup_insert_eq. eauto.
  - split; [by apply since_set_faults|by intros].
  - split; [by apply since_set_faults|by intros].
Qed.

Lemma keeps_write_all i data : i ∉ dom (inodes w0) -> keeps I (write_all i data).
Proof.
  intros Hi. apply keeps_syscall; intros;
    [by apply since_set_faults|by apply since_update_inode..].
Qed.

Lemma keeps_set_permissions i m : i ∉ dom (inodes w0) -> keeps I (set_permissions i m).
Proof. intros Hi. apply keeps_syscall_nothing. intros. by apply since_update_inode. Qed.

Lemma keeps_sync_all i : i ∉ dom (inodes w0) -> keeps I (sync_all i).
Proof. intros Hi. apply keeps_syscall_nothing. intros. by apply since_update_inode. Qed.

Lemma keeps_io_try {A} (m : M World (IoResult A)) : keeps I m -> keeps I (io_try m).
Proof. intros Hm. apply keeps_bind; [done|]. intros [a|e]; auto with io. Qed.

Lemma keeps_create_new n : safe n = false -> keeps I (create_new n).
Proof. intros Hn w Hw. by apply hoare_create_new. Qed.

Lemma keeps_fsync_parent : keeps I fsync_parent_directory.
Proof.
  apply keeps_bind; [|intros _]; apply keeps_io_try; [apply keeps_open_dir|apply keeps_sync_dir].
Qed.

(** A program that goes on with the handle of a new file. *)
Lemma keeps_new_file {A} n (k : IoResult nat -> M World A) :
  safe n = false -> (forall i, i ∉ dom (inodes w0) -> keeps I (k (inl i))) ->
  (forall e, keeps I (k (inr e))) -> keeps I (create_new n ≫= k).
Proof.
  intros Hn Hi He. apply hoare_bind with (R := fun r w => I w /\
    match r with inl i => i ∉ dom (inodes w0) | inr _ => True end).
  - eapply hoare_weaken; [by apply (hoare_create_new n)|done|]. intros r w [Hw Hr].
    destruct r as [[i|e]|e|]; [|done..]. by split; [|apply (Hr i)].
  - intros [i|e] w [Hw Hr]; [by apply Hi|by apply He].
Qed.

Lemma keeps_new_file_try {A} n (k : nat -> M World A) :
  safe n = false -> (forall i, i ∉ dom (inodes w0) -> keeps I (k i)) ->
  keeps I (io_try (create_new n) ≫= k).
Proof.
  intros Hn Hk w Hw. unfold io_try. rewrite !bind_eq.
  pose proof (hoare_create_new n Hn w Hw) as [H1 H2].
  destruct (create_new n w) as [[[i|e]|e|] w']; simpl in *; try done.
  apply Hk; [by apply (H2 i)|done].
Qed.

(** A file being prepared under [tmp]. *)
Definition preparing (tmp : string) (i : nat) (Q : Inode -> Prop) (w : World) : Prop :=
  I w /\ (i ∉ dom (inodes w0)) /\ entries w !! tmp = Some i /\
  exists n, inodes w !! i = Some n /\ Q n.

Definition or_since {A} (R : World -> Prop) (r : Res A) (w : World) : Prop :=
  match r with Ok _ => R w | _ => I w end.

Lemma hoare_prepare tmp :
  safe tmp = false ->
  hoare I (io_try (create_new tmp)) (fun r w => match r with
    | Ok i => preparing tmp i (fun n => content n = []) w | _ => I w end).
Proof.
  intros Ht w Hw. unfold io_try. rewrite bind_eq.
  pose proof (hoare_create_new tmp Ht w Hw) as [H1 H2].
  destruct (create_new tmp w) as [[[i|e]|e|] w'] eqn:E; simpl in *; try done.
  destruct (H2 i eq_refl) as (? & ? & ?). apply create_new_inv in E as (_ & n & ? & ? & _).
  split_and!; eauto.
Qed.

(** One step of the preparation: a call that updates the file. *)
Lemma hoare_prepare_step tmp i (Q Q' : Inode -> Prop) partial (f : World -> Inode -> Inode) :
  (forall k w, I w -> (i ∉ dom (inodes w0)) -> I (partial k w)) ->
  (forall w n, Q n -> Q' (f w n)) ->
  hoare (preparing tmp i Q) (io_try (syscall partial (fun w => (inl tt, update_inode i (f w) w))))
    (or_since (preparing tmp i Q')).
Proof.
  intros Hp HQ w (Hw & Hi & He & n & Hn & Hq).
  assert (Hmain : forall fs, preparing tmp i Q'
    (update_inode i (f (set_faults fs w)) (set_faults fs w))).
  { intros fs. split_and!; [|done|done|].
    - apply since_update_inode; [done|]. by apply since_set_faults.
    - eexists. simpl. rewrite lookup_alter_eq, Hn. split; [done|]. by apply HQ. }
  unfold io_try, mbind, M_bind, syscall.
  destruct (faults w) as [|[|k|k] fs] eqn:E; simpl.
  - rewrite <-(set_faults_same w). apply Hmain.
  - apply Hmain.
  - apply Hp; [by apply since_set_faults|done].
  - apply Hp; [by apply since_set_faults|done].
Qed.

End Since.

#[export] Hint Resolve keeps_now keeps_metadata keeps_read keeps_exists keeps_read_dir
  keeps_next_entry keeps_dir_exists keeps_dir_is_dir keeps_open_dir keeps_sync_dir
  keeps_remove_file keeps_rename keeps_write_all keeps_set_permissions keeps_sync_all
  keeps_io_try keeps_create_new keeps_fsync_parent : io.

(** ** Programs that only read *)

(** [w] is [w0] with some of the schedule used up. *)
Definition same_files (w0 w : World) : Prop := set_faults [] w = set_faults [] w0.

Section Reads.
Context (w0 : World).
Abbreviation J := (same_files w0).

Lemma reads_syscall {A} (run : World -> IoResult A * World) :
  (forall w, snd (run w) = w) -> keeps J (syscall nothing run).
Proof.
  intros Hr. apply keeps_syscall; [by intros [] ? ?|done|]. intros w Hw. by rewrite Hr.
Qed.

Lemma reads_metadata n : keeps J (metadata n).
Proof. apply reads_syscall. intros w. by case_match. Qed.
Lemma reads_read n : keeps J (read n).
Proof. apply reads_syscall. intros w. by case_match. Qed.
Lemma reads_read_dir : keeps J read_dir.
Proof. apply reads_syscall. intros w. by case_match. Qed.
Lemma reads_next_entry : keeps J next_entry.
Proof. by apply reads_syscall. Qed.
Lemma reads_dir_exists : keeps J dir_exists.
Proof.
  apply keeps_bind; [|intros; apply keeps_ret]. apply reads_syscall. intros w. by case_match.
Qed.
Lemma reads_dir_is_dir : keeps J dir_is_dir.
Proof.
  apply keeps_bind; [|intros; apply keeps_ret]. apply reads_syscall. intros w. by case_match.
Qed.
Lemma reads_io_try {A} (c : M World (IoResult A)) : keeps J c -> keeps J (io_try c).
Proof. intros Hc. apply keeps_bind; [done|]. intros [a|e]; auto with io. Qed.

Lemma same_files_lookup n w : J w -> lookup_inode n w = lookup_inode n w0.
Proof. destruct w, w0. by intros [= -> -> -> -> -> -> -> ->]. Qed.

Lemma same_files_entries w : J w -> entries w = entries w0.
Proof. destruct w, w0. by intros [= -> -> -> -> -> -> -> ->]. Qed.

End Reads.

#[export] Hint Resolve reads_metadata reads_read reads_read_dir reads_next_entry
  reads_dir_exists reads_dir_is_dir reads_io_try : io.

(** A completed read found the file. *)
Lemma metadata_inv n w x w' : metadata n w = (Ok (inl x), w') -> lookup_inode n w = Some x.
Proof.
  intros [?|[fs H]]%syscall_inv; [done|].
  change (lookup_inode n (set_faults fs w)) with (lookup_inode n w) in H.
  by destruct (lookup_inode n w); simplify_eq.
Qed.

Lemma read_inv n w b w' :
  read n w = (Ok (inl b), w') -> exists x, lookup_inode n w = Some x /\ content x = b.
Proof.
  intros [?|[fs H]]%syscall_inv; [done|].
  change (lookup_inode n (set_faults fs w)) with (lookup_inode n w) in H.
  destruct (lookup_inode n w); simplify_eq; eauto.
Qed.

Lemma read_dir_inv w l w' :
  read_dir w = (Ok (inl l), w') -> l = map fst (map_to_list (entries w)).
Proof. intros [?|[fs H]]%syscall_inv; [done|]. simpl in H. by case_match; simplify_eq. Qed.

(** ** The schedule is used up from the front *)

Definition used (w0 w : World) : Prop := exists pre, faults w0 = pre ++ faults w.

Lemma used_syscall w0 {A} partial (run : World -> IoResult A * World) :
  (forall k w, faults (partial k w) = faults w) -> (forall w, faults (snd (run w)) = faults w) ->
  keeps (used w0) (syscall partial run).
Proof.
  intros Hp Hr w [pre Hw]. unfold syscall. destruct (faults w) as [|f fs] eqn:E.
  - specialize (Hr w). destruct (run w) as [r w']. simpl in *. exists pre. by rewrite Hr, E.
  - assert (Hpre : faults w0 = (pre ++ [f]) ++ fs) by (by rewrite <-app_assoc).
    destruct f as [|k|k]; simpl; [|by exists (pre ++ [Fails k]); rewrite Hp
                                  |by exists (pre ++ [Dies k]); rewrite Hp].
    specialize (Hr (set_faults fs w)). destruct (run (set_faults fs w)) as [r w'].
    simpl in *. exists (pre ++ [Fine]). by rewrite Hr.
Qed.

Ltac used_call := apply used_syscall; [done|]; intros ?; repeat case_match; done.

Section Used.
Context (w0 : World).
Abbreviation U := (used w0).

Lemma used_now : keeps U now.
Proof. intros w Hw. unfold now. by destruct (times w). Qed.
Lemma used_create_new n : keeps U (create_new n).
Proof. used_call. Qed.
Lemma used_write_all i d : keeps U (write_all i d).
Proof. used_call. Qed.
Lemma used_sync_all i : keeps U (sync_all i).
Proof. used_call. Qed.
Lemma used_rename x y : keeps U (rename x y).
Proof. used_call. Qed.
Lemma used_remove_file n : keeps U (remove_file n).
Proof. used_call. Qed.
Lemma used_read n : keeps U (read n).
Proof. used_call. Qed.
Lemma used_read_dir : keeps U read_dir.
Proof. used_call. Qed.
Lemma used_next_entry : keeps U next_entry.
Proof. used_call. Qed.
Lemma used_dir_exists : keeps U dir_exists.
Proof. apply keeps_bind; [|intros; apply keeps_ret]. used_call. Qed.
Lemma used_dir_is_dir : keeps U dir_is_dir.
Proof. apply keeps_bind; [|intros; apply keeps_ret]. used_call. Qed.
Lemma used_io_try {A} (c : M World (IoResult A)) : keeps U c -> keeps U (io_try c).
Proof. intros Hc. apply keeps_bind; [done|]. intros [a|e]; auto with io. Qed.

End Used.

#[export] Hint Resolve used_now used_create_new used_write_all used_sync_all used_rename
  used_remove_file used_read used_read_dir used_next_entry used_dir_exists used_dir_is_dir
  used_io_try : io.

(** Decompose a program into its calls and close each with the database. *)
Ltac keeps_step :=
  lazymatch goal with
  | |- keeps (since _ _) (create_new _ ≫= _) => apply keeps_new_file; [|intros ? ?|intros ?]
  | |- keeps (since _ _) (io_try (create_new _) ≫= _) =>
      apply keeps_new_file_try; [|intros ? ?]
  | |- keeps _ (_ ≫= _) => apply keeps_bind; [|intros ?]
  | |- keeps _ (match ?x with _ => _ end) => destruct x
  | |- keeps _ (map_err _ _) => apply keeps_map_err
  | |- keeps _ (catch _ _) => apply keeps_catch; [|intros ?]
  end.
Ltac keeps_auto := repeat first [solve [eauto with io] | keeps_step].
