(* ===== verification/OwnerLease.v ===== *)
(** * OwnerLease: the single-writer lease of the file stores

    Models [src/src/checkpoint/owner_lease.rs].  The lease is a sentinel file holding
    [HOSTNAME:PID] in the store's directory, plus a reference count per path inside the
    process ([LEASE_REFS], the [lease_refs] of the world).  Log output is left out. *)

From S2P Require Import Prelude Errors Strs Monad Fs.

Module OwnerLease.

Local Open Scope string_scope.
Local Open Scope Z_scope.

(** The process that runs the code.  [is_pid_alive] is what [ps -p] reports, [true] when
    it cannot be run. *)
Record Process := {
  hostname : string;
  process_id : Z;
  is_pid_alive : Z -> bool;
}.

Record OwnerLease := {
  lock_path : string;
  token : string;
}.

(** [current_hostname], from the [HOSTNAME] variable and the output of [hostname]. *)
Definition current_hostname (env cmd : option string) : string :=
  match env with
  | Some h => if negb (is_empty (trim h)) then trim h else
      match cmd with
      | Some s => if negb (is_empty (trim s)) then trim s else "unknown"
      | None => "unknown"
      end
  | None =>
      match cmd with
      | Some s => if negb (is_empty (trim s)) then trim s else "unknown"
      | None => "unknown"
      end
  end.

Definition format_lease (hostname : string) (pid : Z) : string :=
  hostname +:+ ":" +:+ show pid.

Definition parse_lease (contents : string) : option (string * Z) :=
  match rsplit_once ":" (trim contents) with
  | Some (host, pid_str) =>
      if negb (is_empty host) then
        match parse_u32 pid_str with Some pid => Some (host, pid) | None => None end
      else None
  | None => None
  end.

(** [fs::read_to_string] fails on bytes that are not UTF-8. *)
Definition read_to_string (name : string) : M World (IoResult string) :=
  r ← read name;
  mret (match r with
        | inl b => if utf8_valid b then inl (string_of_list_byte b) else inr OtherIo
        | inr e => inr e
        end).

(** ** The in-process registry *)

Definition decrement_lease_ref (path : string) : M World nat := fun w =>
  if lease_refs_poisoned w then (Ok 0%nat, w)
  else match lease_refs w !! path with
       | None => (Ok 0%nat, w)
       | Some n =>
           if (1 <? n)%nat then
             (Ok (n - 1)%nat, set_lease_refs (<[path := (n - 1)%nat]> (lease_refs w)) w)
           else (Ok 0%nat, set_lease_refs (delete path (lease_refs w)) w)
       end.

Definition reserve_in_process (path : string) : M World unit := fun w =>
  if lease_refs_poisoned w then
    (Err (StateError "owner lease registry lock poisoned"), w)
  else if (0 <? default 0 (lease_refs w !! path))%nat then
    (Err (StateError "owner lease is already held by another instance in this process"), w)
  else (Ok tt, set_lease_refs (<[path := 1%nat]> (lease_refs w)) w).

(** ** The lease file *)

Definition lease_tmp (stamp : Z) : string := ".owner_lease_" +:+ show stamp +:+ ".tmp".

Definition atomic_write_lease (path content : string) : M World unit :=
  stamp ← now;
  let tmp_path := lease_tmp stamp in
  file ← io_try (create_new tmp_path);
  io_try (write_all file (list_byte_of_string content));;
  io_try (sync_all file);;
  r ← rename tmp_path path;
  match r with
  | inl _ => mret tt
  | inr _ => remove_file tmp_path ;; throw (IoError "i/o error")
  end.

Definition acquire_on_disk (p : Process) (path : string) : M World OwnerLease :=
  let owner_pid := process_id p in
  let hostname := hostname p in
  let lease_content := format_lease hostname owner_pid in
  create_result ← create_new path;
  (match create_result with
   | inl lock_file =>
       io_try (write_all lock_file (list_byte_of_string lease_content));;
       io_try (sync_all lock_file)
   | inr AlreadyExists =>
       raw ← read_to_string path;
       match parse_lease (match raw with inl s => s | inr _ => "" end) with
       | Some (host, pid) =>
           if String.eqb host hostname && (pid =? owner_pid) then mret tt
           else if String.eqb host hostname && negb (is_pid_alive p pid) then
             atomic_write_lease path lease_content ;;
             winner ← read_to_string path;
             if bool_decide
                  (parse_lease (match winner with inl s => s | inr _ => "" end)
                   = Some (hostname, owner_pid))
             then mret tt
             else throw (StateError "owner lease conflict: lost stale-lease takeover race")
           else if negb (String.eqb host hostname) then
             throw (StateError "owner lease conflict: held by another host")
           else throw (StateError "owner lease conflict: lock is held by another process")
       | None => throw (StateError "owner lease conflict: lock is held by another process")
       end
   | inr _ => throw (IoError "i/o error")
   end);;
  mret {| lock_path := path; token := lease_content |}.

Definition acquire (p : Process) (path : string) : M World OwnerLease :=
  reserve_in_process path ;;
  catch (acquire_on_disk p path) (fun e => decrement_lease_ref path ;; throw e).

(** [OwnerLease::verify_still_held] *)
Definition verify_still_held (l : OwnerLease) : M World unit :=
  r ← read_to_string (lock_path l);
  match r with
  | inr NotFound => throw (StateError "owner lease file has disappeared")
  | inr _ => throw (IoError "i/o error")
  | inl raw =>
      if String.eqb (trim raw) (token l) then mret tt
      else throw (StateError "owner lease is no longer held by this process")
  end.

(** [Drop for OwnerLease] *)
Definition drop_lease (l : OwnerLease) : M World unit :=
  remaining ← decrement_lease_ref (lock_path l);
  if (remaining =? 0)%nat then (remove_file (lock_path l) ;; mret tt) else mret tt.

(** ** Tokens *)

(** What [current_hostname] guarantees of a host name. *)
Definition wf_host (h : string) : Prop := h <> "" /\ trim_start h = h.

Definition wf_process (p : Process) : Prop :=
  wf_host (hostname p) /\ 0 <= process_id p <= u32_max /\
  utf8_valid (list_byte_of_string (hostname p)) = true.

Lemma current_hostname_wf env cmd : wf_host (current_hostname env cmd).
Proof.
  unfold current_hostname.
  assert (Ht : forall s, is_empty (trim s) = false -> wf_host (trim s)).
  { intros s H. split; [|apply trim_trimmed]. by intros E; rewrite E in H. }
  assert (Hu : wf_host "unknown") by done.
  destruct env as [h|], cmd as [s|]; simpl;
    try (destruct (is_empty (trim h)) eqn:Eh; simpl; [|by apply Ht]);
    try (destruct (is_empty (trim s)) eqn:Es; simpl; [|by apply Ht]); done.
Qed.

Lemma trim_format_lease h p : wf_host h -> 0 <= p -> trim (format_lease h p) = format_lease h p.
Proof.
  intros [Hne Hh] Hp. unfold trim, format_lease. rewrite trim_start_app by done.
  apply trim_end_app; [done|]. apply trim_end_no_whitespace.
  simpl. by apply show_fuel_no_whitespace.
Qed.

Lemma parse_format_lease h p :
  wf_host h -> 0 <= p <= u32_max -> parse_lease (format_lease h p) = Some (h, p).
Proof.
  intros Hh Hp. unfold parse_lease. rewrite trim_format_lease by (done || lia).
  rewrite (proj2 (rsplit_once_spec ":" (format_lease h p) h (show p))).
  - destruct Hh as [Hne _]. unfold is_empty. destruct (String.eqb_spec h ""); [done|].
    simpl. unfold parse_u32. by rewrite parse_show.
  - split; [done|]. by apply show_no_char; [|lia].
Qed.

Lemma format_lease_inj h p h' p' :
  wf_host h -> wf_host h' -> 0 <= p <= u32_max -> 0 <= p' <= u32_max ->
  format_lease h p = format_lease h' p' -> h = h' /\ p = p'.
Proof.
  intros Hh Hh' Hp Hp' E. pose proof (parse_format_lease h p Hh Hp) as H.
  rewrite E, parse_format_lease in H by done. by simplify_eq.
Qed.

(** ** Ownership *)

(** The text of the lease file, [None] when there is no file. *)
Definition lease_text (path : string) (w : World) : option string :=
  n ← lookup_inode path w;
  Some (if utf8_valid (content n) then string_of_list_byte (content n) else "").

(** The lease file names this process. *)
Definition owned_by (p : Process) (path : string) (w : World) : Prop :=
  exists s, lease_text path w = Some s /\ parse_lease s = Some (hostname p, process_id p).

Lemma read_to_string_inv path w s w' :
  read_to_string path w = (Ok (inl s), w') ->
  lease_text path w = Some s /\ lease_text path w' = Some s.
Proof.
  intros (r & w1 & Hr & Hk)%bind_inv. injection Hk as Hk <-.
  apply syscall_inv in Hr as [->|[fs Hr]]; [done|]. unfold lease_text.
  change (lookup_inode path (set_faults fs w)) with (lookup_inode path w) in Hr.
  destruct (lookup_inode path w) as [n|] eqn:E; [|by destruct r; simplify_eq].
  injection Hr as <- <-. change (lookup_inode path (set_faults fs w)) with (lookup_inode path w).
  rewrite E. simpl. destruct (utf8_valid (content n)); by simplify_eq.
Qed.

(** The parse of an unreadable lease is [None], so a successful parse was a read. *)
Lemma parse_read_inv path w r w' h n :
  read_to_string path w = (Ok r, w') ->
  parse_lease (match r with inl s => s | inr _ => "" end) = Some (h, n) ->
  exists s, lease_text path w = Some s /\ lease_text path w' = Some s /\
    parse_lease s = Some (h, n).
Proof.
  destruct r as [s|e]; [|done]. intros [H1 H2]%read_to_string_inv H. eauto.
Qed.

Lemma parse_token p :
  wf_process p -> parse_lease (format_lease (hostname p) (process_id p))
                  = Some (hostname p, process_id p).
Proof. intros (? & ? & _). by apply parse_format_lease. Qed.

Lemma token_utf8 p :
  wf_process p -> utf8_valid (list_byte_of_string (format_lease (hostname p) (process_id p))) = true.
Proof.
  intros (_ & Hp & Hu). unfold format_lease.
  rewrite list_byte_app, utf8_valid_app by done.
  rewrite list_byte_app, utf8_valid_app by done. apply show_utf8. lia.
Qed.

(** The fence: a lease that verifies names its process in the file. *)
Lemma verify_owned p l w w' :
  wf_process p -> token l = format_lease (hostname p) (process_id p) ->
  verify_still_held l w = (Ok tt, w') -> owned_by p (lock_path l) w.
Proof.
  intros Hp Ht (r & w1 & Hr & Hk)%bind_inv.
  destruct r as [s|[]]; try done. destruct (String.eqb_spec (trim s) (token l)); [|done].
  apply read_to_string_inv in Hr as [Hr _]. exists s. split; [done|].
  rewrite <-parse_token by done. unfold parse_lease. rewrite trim_format_lease.
  - by rewrite e, Ht.
  - by destruct Hp.
  - destruct Hp as (_ & ? & _). lia.
Qed.

(** Whatever processes believe they hold the lease, at most one of them passes the
    check made before a durable write: two leases on one file that verify against the
    same file content belong to the same host and process. *)
Theorem verify_still_held_exclusive p p' l l' w w1 w' w1'
    (p_wf : wf_process p) (p'_wf : wf_process p')
    (l_of_p : token l = format_lease (hostname p) (process_id p))
    (l'_of_p' : token l' = format_lease (hostname p') (process_id p'))
    (same_file : lock_path l = lock_path l')
    (same_content : lease_text (lock_path l) w = lease_text (lock_path l) w')
    (verifies : verify_still_held l w = (Ok tt, w1))
    (verifies' : verify_still_held l' w' = (Ok tt, w1')) :
  hostname p = hostname p' /\ process_id p = process_id p'.
Proof.
  destruct (verify_owned p l w w1) as (s & Hs & H); [done..|].
  destruct (verify_owned p' l' w' w1') as (s' & Hs' & H'); [done..|].
  rewrite <-same_file, <-same_content, Hs in Hs'. by simplify_eq.
Qed.

(** ** Acquiring *)

Lemma registry_read_to_string m b n : keeps (registry m b) (read_to_string n).
Proof. unfold read_to_string. keeps_auto. Qed.
#[local] Hint Resolve registry_read_to_string : io.

Lemma registry_acquire_on_disk m b p path : keeps (registry m b) (acquire_on_disk p path).
Proof.
  unfold acquire_on_disk, atomic_write_lease. keeps_auto.
Qed.

Lemma write_token_owned p path i w1 w2 w3 n :
  wf_process p -> entries w1 !! path = Some i -> inodes w1 !! i = Some n -> content n = [] ->
  write_all i (list_byte_of_string (format_lease (hostname p) (process_id p))) w1
    = (Ok (inl tt), w2) ->
  sync_all i w2 = (Ok (inl tt), w3) -> owned_by p path w3.
Proof.
  intros Hp He Hi Hc (E2 & t & H2)%write_all_inv [E3 H3]%sync_all_inv.
  exists (format_lease (hostname p) (process_id p)). split; [|by apply parse_token].
  unfold lease_text, lookup_inode. rewrite E3, E2, He. cbn -[string_of_list_byte utf8_valid list_byte_of_string].
  rewrite H3, H2, Hi. cbn -[string_of_list_byte utf8_valid list_byte_of_string].
  rewrite Hc, app_nil_l. rewrite token_utf8 by done. by rewrite string_of_list_byte_of_string.
Qed.

Lemma acquire_on_disk_owned p path w l w' :
  wf_process p -> acquire_on_disk p path w = (Ok l, w') ->
  owned_by p path w' /\
  l = {| lock_path := path; token := format_lease (hostname p) (process_id p) |}.
Proof.
  intros Hp (r & w1 & Hc & ([] & w2 & Hk & Hl)%bind_inv)%bind_inv.
  injection Hl as <- <-. split; [|done]. destruct r as [i|[]]; try done.
  - apply create_new_inv in Hc as (He & n & Hi & Hn & _).
    apply bind_inv in Hk as ([] & w3 & Hw%io_try_inv & Hs%io_try_inv).
    by apply (write_token_owned p path i w1 w3 w2 n).
  - apply bind_inv in Hk as (raw & w3 & Hr & Hk).
    destruct (parse_lease _) as [[h n]|] eqn:Ep; [|done].
    destruct (parse_read_inv _ _ _ _ _ _ Hr Ep) as (s & _ & Hs & Hps).
    destruct (_ && (n =? _)) eqn:Eown; zbool.
    { injection Hk as <-. exists s. split; [done|]. by apply String.eqb_eq in H as ->; subst. }
    destruct (_ && negb _); [|by destruct (negb _)].
    apply bind_inv in Hk as ([] & w4 & _ & (win & w5 & Hwin & Hk)%bind_inv).
    case_bool_decide as Ew; [|done]. injection Hk as <-.
    destruct (parse_read_inv _ _ _ _ _ _ Hwin Ew) as (s' & _ & ? & ?). by exists s'.
Qed.

Lemma reserve_inv path w w' :
  reserve_in_process path w = (Ok tt, w') ->
  lease_refs_poisoned w = false /\ default 0%nat (lease_refs w !! path) = 0%nat /\
  w' = set_lease_refs (<[path := 1%nat]> (lease_refs w)) w.
Proof.
  unfold reserve_in_process. destruct (lease_refs_poisoned w); [done|].
  destruct (Nat.ltb_spec 0 (default 0%nat (lease_refs w !! path))); [done|].
  intros [= <-]. split_and!; [done|lia|done].
Qed.

Lemma acquire_inv p path w l w' :
  acquire p path w = (Ok l, w') -> exists w1,
    reserve_in_process path w = (Ok tt, w1) /\ acquire_on_disk p path w1 = (Ok l, w').
Proof.
  intros ([] & w1 & Hr & Hk)%bind_inv. exists w1. split; [done|].
  unfold catch in Hk. destruct (acquire_on_disk p path w1) as [[l'|e|] w2]; try done.
  apply bind_inv in Hk as (? & ? & _ & Hk). done.
Qed.

(** Whatever I/O failures happen on the way, an acquire that succeeds leaves the
    lease file naming this process, returns the token that later verifies, and holds
    the path for the process: another acquire of the same path in this process is
    refused and changes nothing. *)
Theorem acquire_ok_is_owner p path w l w'
    (p_wf : wf_process p) (acquired : acquire p path w = (Ok l, w')) :
  owned_by p path w' /\
  l = {| lock_path := path; token := format_lease (hostname p) (process_id p) |} /\
  forall q, exists e, acquire q path w' = (Err e, w').
Proof.
  apply acquire_inv in acquired as (w1 & (Hb & _ & ->)%reserve_inv & Hd).
  destruct (acquire_on_disk_owned _ _ _ _ _ p_wf Hd) as [Ho Hl]. split_and!; [done..|].
  pose proof (registry_acquire_on_disk (<[path := 1%nat]> (lease_refs w)) false p path
    (set_lease_refs (<[path := 1%nat]> (lease_refs w)) w)) as Hr.
  rewrite Hd in Hr. destruct Hr as [Hm Hp]; [done|]. simpl in Hm, Hp.
  intros q. unfold acquire, reserve_in_process, mbind, M_bind.
  rewrite Hp, Hm, lookup_insert_eq. simpl. eauto.
Qed.

(** An acquire that fails gives its reservation back: the registry counts what it
    counted before, so the path is not blocked for the rest of the process. *)
Theorem failed_acquire_releases p path w e w'
    (failed : acquire p path w = (Err e, w')) :
  lease_refs_poisoned w' = lease_refs_poisoned w /\
  forall k, default 0%nat (lease_refs w' !! k) = default 0%nat (lease_refs w !! k).
Proof.
  unfold acquire, mbind, M_bind in failed.
  destruct (reserve_in_process path w) as [[[]|e'|] w1] eqn:Er.
  - apply reserve_inv in Er as (Hb & H0 & ->). unfold catch in failed.
    pose proof (registry_acquire_on_disk (<[path := 1%nat]> (lease_refs w)) false p path
      (set_lease_refs (<[path := 1%nat]> (lease_refs w)) w)) as Hr.
    destruct (acquire_on_disk p path _) as [[l|e'|] w2]; try done.
    destruct Hr as [Hm Hp]; [done|]. simpl in Hm, Hp.
    unfold decrement_lease_ref, mbind, M_bind in failed.
    rewrite Hp, Hm, lookup_insert_eq in failed. injection failed as <- <-. simpl.
    rewrite Hp, Hb. split; [done|]. intros k. rewrite delete_insert_eq.
    destruct (decide (k = path)) as [->|]; [by rewrite lookup_delete_eq, H0|].
    by rewrite lookup_delete_ne.
  - unfold reserve_in_process in Er. injection failed as -> ->.
    destruct (lease_refs_poisoned w) eqn:E; [by injection Er as _ <-|].
    destruct (0 <? _)%nat; [by injection Er as _ <-|done].
  - done.
Qed.

(** ** The decision table *)

(** Who may take a lease file with this text, or no file at all. *)
Definition may_own (p : Process) (existing : option string) : bool :=
  match existing with
  | None => true
  | Some s =>
      match parse_lease s with
      | Some (h, n) =>
          String.eqb h (hostname p) && ((n =? process_id p) || negb (is_pid_alive p n))
      | None => false
      end
  end.

Lemma read_to_string_fine path w :
  faults w = [] -> exists r, read_to_string path w = (Ok r, w) /\
    match r with inl s => s | inr _ => "" end = default "" (lease_text path w).
Proof.
  intros Hf. unfold read_to_string, read, lease_text, mbind at 1, M_bind.
  rewrite syscall_fine by done.
  destruct (lookup_inode path w) as [n|]; cbn -[string_of_list_byte utf8_valid]; [|eauto].
  destruct (utf8_valid (content n)); eauto.
Qed.

Lemma create_new_fine n w :
  faults w = [] -> dir_state w = Directory -> entries w !! n = None ->
  exists i w', create_new n w = (Ok (inl i), w') /\ faults w' = [].
Proof.
  intros Hf Hd Hn. unfold create_new. rewrite syscall_fine, Hd, Hn by done. simpl. eauto.
Qed.

Lemma write_sync_fine i d w :
  faults w = [] -> exists w1 w2, write_all i d w = (Ok (inl tt), w1) /\
    sync_all i w1 = (Ok (inl tt), w2) /\ faults w2 = [].
Proof.
  intros Hf. unfold write_all, sync_all. rewrite syscall_fine by done. eexists _, _.
  split; [done|]. rewrite syscall_fine by done. done.
Qed.

Lemma atomic_write_lease_fine path c w :
  faults w = [] -> dir_state w = Directory -> entries w !! lease_tmp (touch w) = None ->
  path <> lease_tmp (touch w) -> utf8_valid (list_byte_of_string c) = true ->
  exists w', atomic_write_lease path c w = (Ok tt, w') /\ faults w' = [] /\
    lease_text path w' = Some c.
Proof.
  intros Hf Hd Hn Hp Hu. unfold atomic_write_lease.
  assert (exists v, now w = (Ok (touch w), v) /\ faults v = [] /\ dir_state v = Directory /\
    entries v = entries w) as (v & Hv & Hfv & Hdv & Hev).
  { unfold now, touch. destruct (times w); simpl; eauto 6. }
  rewrite (bind_ok _ _ _ _ _ Hv). cbv zeta.
  destruct (create_new_fine (lease_tmp (touch w)) v) as (i & w1 & Hc & Hf1); [done..|by rewrite Hev|].
  rewrite (bind_ok _ _ _ _ _ (io_try_ok _ _ _ _ Hc)).
  destruct (write_sync_fine i (list_byte_of_string c) w1 Hf1) as (w2 & w3 & Hw & Hs & Hf3).
  rewrite (bind_ok _ _ _ _ _ (io_try_ok _ _ _ _ Hw)).
  rewrite (bind_ok _ _ _ _ _ (io_try_ok _ _ _ _ Hs)).
  apply create_new_inv in Hc as (He & n & Hi & Hcn & _).
  apply write_all_inv in Hw as (E2 & t & H2). apply sync_all_inv in Hs as [E3 H3].
  unfold rename, mbind, M_bind. rewrite syscall_fine, E3, E2, He by done. simpl.
  eexists. split_and!; [done|done|]. unfold lease_text, lookup_inode. simpl.
  rewrite lookup_insert_eq. cbn -[string_of_list_byte utf8_valid list_byte_of_string].
  rewrite H3, H2, Hi. cbn -[string_of_list_byte utf8_valid list_byte_of_string].
  rewrite Hcn, app_nil_l, Hu. by rewrite string_of_list_byte_of_string.
Qed.

(** The file system an acquire runs on. *)
Record quiet_world (path : string) (w : World) : Prop := {
  quiet_faults : faults w = [];
  quiet_dir : dir_state w = Directory;
  quiet_wf : wf_world w;
  quiet_tmp : entries w !! lease_tmp (touch w) = None;
  quiet_path : path <> lease_tmp (touch w);
}.

Lemma acquire_on_disk_table p path w :
  wf_process p -> quiet_world path w ->
  is_ok (fst (acquire_on_disk p path w)) = may_own p (lease_text path w) /\
  (may_own p (lease_text path w) = false -> snd (acquire_on_disk p path w) = w).
Proof.
  intros Hp [Hf Hd Hwf Ht Hpt]. unfold acquire_on_disk. cbv zeta.
  destruct (entries w !! path) as [i|] eqn:E.
  - assert (Hc : create_new path w = (Ok (inr AlreadyExists), w))
      by (unfold create_new; by rewrite syscall_fine, Hd, E by done).
    rewrite (bind_ok _ _ _ _ _ Hc).
    destruct (read_to_string_fine path w Hf) as (r & Hr & Hd').
    destruct (lease_text path w) as [s|] eqn:Es; simpl in Hd'.
    2:{ unfold lease_text, lookup_inode in Es. rewrite E in Es. simpl in Es.
        destruct (Hwf (entries w) path i) as [n Hn]; [by left|done|]. by rewrite Hn in Es. }
    rewrite !bind_eq, Hr, Hd'. unfold may_own.
    destruct (parse_lease s) as [[h n]|]; [|done].
    destruct (String.eqb h (hostname p)); simpl; [|done].
    destruct (n =? process_id p); simpl; [done|].
    destruct (is_pid_alive p n); simpl; [done|]. split; [|done].
    destruct (atomic_write_lease_fine path (format_lease (hostname p) (process_id p)) w)
      as (w' & Hw & Hf' & Hl); [done..|by apply token_utf8|].
    rewrite (bind_ok _ _ _ _ _ Hw).
    destruct (read_to_string_fine path w' Hf') as (r' & Hr' & Hd'').
    rewrite (bind_ok _ _ _ _ _ Hr'), Hd'', Hl. simpl. rewrite parse_token by done.
    by rewrite bool_decide_eq_true_2.
  - destruct (create_new_fine path w) as (i & w1 & Hc & Hf1); [done..|].
    rewrite (bind_ok _ _ _ _ _ Hc).
    destruct (write_sync_fine i (list_byte_of_string (format_lease (hostname p) (process_id p)))
      w1 Hf1) as (w2 & w3 & Hw & Hs & Hf3).
    unfold lease_text, lookup_inode. rewrite E. simpl. split; [|done].
    by rewrite !bind_eq, (io_try_ok _ _ _ _ Hw), (io_try_ok _ _ _ _ Hs).
Qed.

(** The decision table of [acquire].  With no other holder in this process and no
    I/O failure, the lease is taken exactly when the file is absent, names this
    process, or names a dead process of this host; a lease that names another host, a
    live process or no process at all is refused, and the file stays as it was. *)
Theorem acquire_decision_table p path w
    (p_wf : wf_process p) (w_quiet : quiet_world path w)
    (not_poisoned : lease_refs_poisoned w = false)
    (not_reserved : default 0%nat (lease_refs w !! path) = 0%nat) :
  is_ok (fst (acquire p path w)) = may_own p (lease_text path w) /\
  (may_own p (lease_text path w) = false ->
     lease_text path (snd (acquire p path w)) = lease_text path w).
Proof.
  set (w1 := set_lease_refs (<[path := 1%nat]> (lease_refs w)) w).
  assert (Hr : reserve_in_process path w = (Ok tt, w1))
    by (unfold reserve_in_process; by rewrite not_poisoned, not_reserved).
  assert (Hq : quiet_world path w1) by (destruct w_quiet; by split).
  destruct (acquire_on_disk_table p path w1 p_wf Hq) as [H1 H2].
  change (lease_text path w1) with (lease_text path w) in *.
  unfold acquire. rewrite (bind_ok _ _ _ _ _ Hr). unfold catch.
  destruct (acquire_on_disk p path w1) as [[l|e|] w2]; simpl in H1, H2; rewrite <-H1 in *;
    [by split| |split; [done|]; intros H; by rewrite H2].
  rewrite H2 by done. unfold decrement_lease_ref, mbind, M_bind. simpl.
  by rewrite not_poisoned, lookup_insert_eq.
Qed.

(** ** What the lease code leaves alone *)

Section Frame.
Context (w0 : World) (safe : string -> bool) (path : string).
Hypothesis path_free : safe path = false.
Hypothesis tmp_free : forall t, safe (lease_tmp t) = false.
Abbreviation I := (since w0 safe).

Lemma keeps_read_to_string n : keeps I (read_to_string n).
Proof. unfold read_to_string. keeps_auto. Qed.
#[local] Hint Resolve keeps_read_to_string : io.

Lemma keeps_decrement k : keeps I (decrement_lease_ref k).
Proof.
  intros w Hw. unfold decrement_lease_ref.
  repeat case_match; simpl; try done; by apply (since_same w0 safe w).
Qed.

Lemma keeps_reserve k : keeps I (reserve_in_process k).
Proof.
  intros w Hw. unfold reserve_in_process.
  repeat case_match; simpl; try done; by apply (since_same w0 safe w).
Qed.
#[local] Hint Resolve keeps_decrement keeps_reserve : io.

Lemma keeps_acquire p : keeps I (acquire p path).
Proof. unfold acquire, acquire_on_disk, atomic_write_lease. keeps_auto. Qed.

Lemma keeps_verify l : keeps I (verify_still_held l).
Proof. unfold verify_still_held. keeps_auto. Qed.

End Frame.

Section UsedFaults.
Context (w0 : World).

Lemma used_read_to_string n : keeps (used w0) (read_to_string n).
Proof. unfold read_to_string. keeps_auto. Qed.
Lemma used_decrement k : keeps (used w0) (decrement_lease_ref k).
Proof. intros w Hw. unfold decrement_lease_ref. by repeat case_match. Qed.
Lemma used_reserve k : keeps (used w0) (reserve_in_process k).
Proof. intros w Hw. unfold reserve_in_process. by repeat case_match. Qed.
#[local] Hint Resolve used_read_to_string used_decrement used_reserve : io.

Lemma used_acquire p path : keeps (used w0) (acquire p path).
Proof. unfold acquire, acquire_on_disk, atomic_write_lease. keeps_auto. Qed.
Lemma used_verify l : keeps (used w0) (verify_still_held l).
Proof. unfold verify_still_held. keeps_auto. Qed.

End UsedFaults.

(** ** Examples *)

Definition sample_process (alive : Z -> bool) : Process :=
  {| hostname := "db-1"; process_id := 77; is_pid_alive := alive |}.

(** A directory whose only file is a lease with the given text. *)
Definition sample_world (lease : string) (fs : list Fault) : World :=
  {| dir_state := Directory; entries := {[ ".owner" := 0%nat ]}; past_entries := [];
     inodes := {[ 0%nat := {| content := list_byte_of_string lease; mode := 384;
                              mtime := 5; synced := true |} ]};
     faults := fs; times := [1000]; umask := 18; lease_refs := ∅;
     lease_refs_poisoned := false |}.

Lemma sample_process_wf alive : wf_process (sample_process alive).
Proof. by split_and!. Qed.

Lemma sample_world_wf lease fs : wf_world (sample_world lease fs).
Proof.
  intros es name i ->%list_elem_of_singleton H. simpl in H.
  apply lookup_singleton_Some in H as [_ <-]. by eexists.
Qed.

Definition sample_lease : OwnerLease := {| lock_path := ".owner"; token := "db-1:77" |}.

(** The process seen by itself and by an observer that takes every pid for dead. *)
Lemma verify_still_held_exclusive_witness :
  hostname (sample_process (fun _ => true)) = hostname (sample_process (fun _ => false)) /\
  process_id (sample_process (fun _ => true)) = process_id (sample_process (fun _ => false)).
Proof.
  apply (verify_still_held_exclusive _ _ sample_lease sample_lease
    (sample_world "db-1:77" []) (sample_world "db-1:77" []) (sample_world "db-1:77" [Fine])
    (sample_world "db-1:77" []));
    try apply sample_process_wf; try reflexivity; vm_compute; reflexivity.
Defined.

(** Taking over the lease of a dead process, one call at a time. *)
Lemma acquire_ok_is_owner_witness :
  exists w', acquire (sample_process (fun n => negb (n =? 12))) ".owner"
               (sample_world "db-1:12" [Fine; Fine]) = (Ok sample_lease, w') /\
    owned_by (sample_process (fun n => negb (n =? 12))) ".owner" w'.
Proof.
  eexists. split; [vm_compute; reflexivity|].
  eapply (acquire_ok_is_owner _ ".owner" (sample_world "db-1:12" [Fine; Fine]) sample_lease);
    [apply sample_process_wf|vm_compute; reflexivity].
Defined.

(** A live owner: refused, and the registry is empty again. *)
Lemma failed_acquire_releases_witness :
  exists e w', acquire (sample_process (fun _ => true)) ".owner"
                 (sample_world "db-1:12" []) = (Err e, w') /\
    default 0%nat (lease_refs w' !! ".owner") = 0%nat.
Proof.
  eexists _, _. split; [vm_compute; reflexivity|].
  apply (failed_acquire_releases (sample_process (fun _ => true)) ".owner"
    (sample_world "db-1:12" []) _ _ ltac:(vm_compute; reflexivity)).
Defined.

Lemma sample_world_quiet lease : quiet_world ".owner" (sample_world lease []).
Proof. split; try done. apply sample_world_wf. Qed.

(** A lease of another host is refused although its pid is dead here. *)
Lemma acquire_decision_table_witness :
  is_ok (fst (acquire (sample_process (fun _ => false)) ".owner" (sample_world "db-2:12" [])))
  = false.
Proof.
  rewrite (proj1 (acquire_decision_table _ ".owner" (sample_world "db-2:12" [])
    (sample_process_wf _) (sample_world_quiet _) eq_refl eq_refl)).
  vm_compute. reflexivity.
Defined.

End OwnerLease.
