(* ===== verification/FileCheckpoint.v ===== *)
(** * FileCheckpoint: the file-backed checkpoint store

    Models [FileCheckpoint] of [src/src/checkpoint/mod.rs] on the directory of [Fs.v],
    with its owner lease of [OwnerLease.v], its rewind guard of [Progress.v] and the
    offsets of [Offsets.v], as an instance of the [Checkpoint] interface.  SHA-256 and
    the JSON text are third-party code and parameters.

    File names are the model's paths: everything the store touches is in its own
    directory, and source types are taken to be free of path separators.  Log output is
    left out, as is the hand-off of a call to a blocking worker thread, which returns
    what the call returns. *)

From Stdlib Require Import Sorting.Sorted.
From S2P Require Import Prelude Errors CheckpointApi Strs Json Offsets.
From S2P Require Import Progress Monad Fs OwnerLease.

Module FileCheckpoint.

Local Open Scope string_scope.
Local Open Scope Z_scope.

Definition FILE_CHECKPOINT_FORMAT_VERSION : Z := 1.
Definition FILE_CHECKPOINT_DEFAULT_FILE_MODE : Z := 384.  (* 0o600 *)
Definition OWNER_LEASE_FILENAME : string := ".rustcdc_checkpoint.owner".

(** ** Records *)

Record FileCheckpointRecord := {
  checkpoint_format_version : Z;
  source_type : string;
  committed_event_count : Z;
  offset : json;
  content_checksum : string;
}.

Definition record_json (r : FileCheckpointRecord) : json :=
  JObj [("checkpoint_format_version", jnat (checkpoint_format_version r));
        ("source_type", JStr (source_type r));
        ("committed_event_count", jnat (committed_event_count r));
        ("offset", offset r);
        ("content_checksum", JStr (content_checksum r))].

Definition record_from_json (v : json) : option FileCheckpointRecord :=
  m ← as_object v;
  ver ← field "checkpoint_format_version" (as_uint 65535) m;
  st ← field "source_type" as_str m;
  n ← field "committed_event_count" (as_uint u64_max) m;
  o ← field "offset" Some m;
  c ← field_or "content_checksum" "" as_str m;
  Some {| checkpoint_format_version := ver; source_type := st; committed_event_count := n;
          offset := o; content_checksum := c |}.

(** ** The store *)

(** [FileCheckpointInner]; [lease_poisoned] is the state of the mutex around the lease. *)
Record FileCheckpointInner := {
  file_mode : Z;
  lease : option OwnerLease.OwnerLease;
  lease_poisoned : bool;
  read_only : bool;
}.

Record Store := {
  inner : FileCheckpointInner;
  world : World;
}.

Definition new : FileCheckpointInner :=
  {| file_mode := FILE_CHECKPOINT_DEFAULT_FILE_MODE; lease := None; lease_poisoned := false;
     read_only := false |}.
Definition read_only_handle : FileCheckpointInner :=
  {| file_mode := FILE_CHECKPOINT_DEFAULT_FILE_MODE; lease := None; lease_poisoned := false;
     read_only := true |}.

(** [with_file_mode], on the sole handle of a store. *)
Definition with_file_mode (m : Z) (h : FileCheckpointInner) : FileCheckpointInner :=
  {| file_mode := m; lease := lease h; lease_poisoned := lease_poisoned h;
     read_only := read_only h |}.

Definition set_lease (l : option OwnerLease.OwnerLease) (s : Store) : Store :=
  {| inner := {| file_mode := file_mode (inner s); lease := l;
                 lease_poisoned := lease_poisoned (inner s); read_only := read_only (inner s) |};
     world := world s |}.

(** Run file-system code on the store's world. *)
Definition on_world {A} (m : M World A) : M Store A := fun s =>
  let '(r, w) := m (world s) in (r, {| inner := inner s; world := w |}).

(** A stable sort by a comparison, as [slice::sort_by]. *)
Fixpoint insert_by {A} (cmp : A -> A -> comparison) (a : A) (l : list A) : list A :=
  match l with
  | [] => [a]
  | b :: l' => match cmp a b with Gt => b :: insert_by cmp a l' | _ => a :: l end
  end.
Definition sort_by {A} (cmp : A -> A -> comparison) (l : list A) : list A :=
  fold_right (insert_by cmp) [] l.

Definition source_family (st : string) : string :=
  match strip_suffix "_snapshot" st with Some f => f | None => st end.

Definition checkpoint_path (st : string) : string := "checkpoint_" +:+ st +:+ ".json".
Definition temp_path (st : string) (stamp : Z) : string :=
  "checkpoint_" +:+ st +:+ "." +:+ show stamp +:+ ".tmp".

Definition is_temp (name : string) : bool :=
  starts_with "checkpoint_" name && ends_with ".tmp" name.
Definition is_checkpoint (name : string) : bool :=
  starts_with "checkpoint_" name && ends_with ".json" name.

Definition then_with (a b : comparison) : comparison := match a with Eq => b | c => c end.

(** The order of [load_latest_record]: count, modification time, path. *)
Definition compare_records (a b : Z * string * FileCheckpointRecord) : comparison :=
  let '(ta, pa, ra) := a in
  let '(tb, pb, rb) := b in
  then_with (committed_event_count ra ?= committed_event_count rb)
    (then_with (ta ?= tb) (String.compare pa pb)).

Section Store.
Context `{JsonCodec} (sha256 : list byte -> list byte) (p : OwnerLease.Process).

(** *** Integrity *)

Definition preimage (r : FileCheckpointRecord) : list byte :=
  print_json (JObj [("checkpoint_format_version", jnat (checkpoint_format_version r));
                    ("source_type", JStr (source_type r));
                    ("committed_event_count", jnat (committed_event_count r));
                    ("offset", offset r)]).

Definition compute_checksum (r : FileCheckpointRecord) : string := hex (sha256 (preimage r)).

(** [FileCheckpointRecord::new] *)
Definition record_new (st : string) (n : Z) (o : json) : FileCheckpointRecord :=
  let record := {| checkpoint_format_version := FILE_CHECKPOINT_FORMAT_VERSION;
                   source_type := st; committed_event_count := n; offset := o;
                   content_checksum := "" |} in
  {| checkpoint_format_version := FILE_CHECKPOINT_FORMAT_VERSION;
     source_type := st; committed_event_count := n; offset := o;
     content_checksum := compute_checksum record |}.

Definition verify_checksum (r : FileCheckpointRecord) : Res unit :=
  if String.eqb (content_checksum r) (compute_checksum r) then Ok tt
  else Err (CheckpointError "checkpoint file failed its integrity check").

Definition validate_record_version (r : FileCheckpointRecord) : Res unit :=
  if checkpoint_format_version r =? FILE_CHECKPOINT_FORMAT_VERSION then Ok tt
  else Err (CheckpointError "unsupported checkpoint file format version").

(** [check_file_permissions] on Unix. *)
Definition check_file_permissions (path : string) : M World unit :=
  meta ← io_try (metadata path);
  let mode := Z.land (mode meta) 511 in
  if Z.land mode 63 =? 0 then mret tt
  else throw (CheckpointError "checkpoint file has insecure permissions").

Definition read_record (path : string) : M World FileCheckpointRecord :=
  check_file_permissions path ;;
  bytes ← io_try (read path);
  match v ← parse_json bytes; record_from_json v with
  | Some record =>
      of_res (validate_record_version record) ;;
      of_res (verify_checksum record) ;;
      mret record
  | None => throw (SerializationError "checkpoint record")
  end.

(** *** Directory and lease *)

Definition ensure_directory : M World unit :=
  e ← dir_exists;
  if negb e then throw (CheckpointError "checkpoint directory does not exist")
  else
    d ← dir_is_dir;
    if negb d then throw (CheckpointError "checkpoint path is not a directory") else mret tt.

(** Failures to list or remove are ignored. *)
Definition discard_orphaned_temp_files : M World unit :=
  r ← read_dir;
  match r with
  | inr _ => mret tt
  | inl names =>
      for_each names (fun name =>
        e ← next_entry;
        match e with
        | inr _ => mret tt
        | inl _ => if is_temp name then (remove_file name ;; mret tt) else mret tt
        end)
  end.

(** The listing of existing checkpoints before the lease is stored only feeds the log. *)
Definition ensure_owner_lease : M Store unit :=
  s ← gets id;
  if read_only (inner s) then mret tt
  else if lease_poisoned (inner s) then
    throw (CheckpointError "checkpoint owner lease lock poisoned during acquisition")
  else
    match lease (inner s) with
    | Some _ => mret tt
    | None =>
        on_world ensure_directory ;;
        acquired ← map_err (fun _ => CheckpointError "owner lease")
                     (on_world (OwnerLease.acquire p OWNER_LEASE_FILENAME));
        on_world read_dir ;;
        modify (set_lease (Some acquired)) ;;
        on_world discard_orphaned_temp_files
    end.

Definition verify_lease_still_held : M Store unit :=
  s ← gets id;
  if read_only (inner s) then throw (CheckpointError "this FileCheckpoint handle is read-only")
  else if lease_poisoned (inner s) then
    throw (CheckpointError "checkpoint owner lease lock poisoned during verification")
  else
    match lease (inner s) with
    | Some l => map_err (fun _ => CheckpointError "owner lease")
                  (on_world (OwnerLease.verify_still_held l))
    | None => throw (CheckpointError "checkpoint owner lease is not held; refusing to write")
    end.

(** *** Reading *)

Definition checkpoint_files : M World (list (Z * string)) :=
  ensure_directory ;;
  names ← io_try read_dir;
  found ← collect names (fun name =>
    io_try next_entry ;;
    if is_checkpoint name then
      meta ← metadata name;
      mret [(match meta with inl n => mtime n | inr _ => 0 end, name)]
    else mret []);
  mret (concat found).

Definition load_latest_record : M World (option FileCheckpointRecord) :=
  files ← checkpoint_files;
  match files with
  | [] => mret None
  | _ =>
      records ← collect files (fun f =>
        record ← read_record (snd f); mret (fst f, snd f, record));
      let families :=
        list_to_set (map (fun x => source_family (source_type (snd x))) records) : gset string in
      if (1 <? size families)%nat then
        throw (CheckpointError "mixed checkpoint source families found in directory")
      else mret (snd <$> last (sort_by compare_records records))
  end.

(** *** Writing *)

Definition validate_monotonic_progress (st : string) (next : FileCheckpointRecord)
    : M World unit :=
  e ← exists_ (checkpoint_path st);
  if negb e then mret tt
  else
    existing ← read_record (checkpoint_path st);
    of_res (Progress.validate_checkpoint_progress
      (Some {| Progress.source_type := source_type existing;
               Progress.committed_event_count := committed_event_count existing;
               Progress.offset := offset existing |})
      {| Progress.source_type := source_type next;
         Progress.committed_event_count := committed_event_count next;
         Progress.offset := offset next |}).

(** Write a record under a temporary name, sync it, rename it into place, sync the
    directory: the common part of [save_blocking] and [restore_from_record_with_mode]. *)
Definition write_record (st : string) (mode : Z) (record : FileCheckpointRecord) : M World unit :=
  stamp ← now;
  file ← io_try (create_new (temp_path st stamp));
  io_try (set_permissions file mode) ;;
  io_try (write_all file (print_pretty (record_json record))) ;;
  io_try (sync_all file) ;;
  io_try (rename (temp_path st stamp) (checkpoint_path st)) ;;
  fsync_parent_directory.

Definition save_blocking (st : string) (record : FileCheckpointRecord) : M Store unit :=
  ensure_owner_lease ;;
  verify_lease_still_held ;;
  on_world ensure_directory ;;
  on_world (validate_monotonic_progress st record) ;;
  s ← gets id;
  on_world (write_record st (file_mode (inner s)) record).

(** The typed offset of a loaded record.  [XOffset::from_bytes(&encoded)]. *)
Definition typed_offset (record : FileCheckpointRecord) : Res DynOffset :=
  let encoded := print_json (offset record) in
  let of_bytes {T} (f : json -> option T) (k : T -> DynOffset) : Res DynOffset :=
    match v ← parse_json encoded; f v with
    | Some t => Ok (k t)
    | None => Err (SerializationError "offset")
    end in
  let st := source_type record in
  if String.eqb st "postgres" then of_bytes postgres_from_json postgres_dyn
  else if String.eqb st "mysql" then of_bytes mysql_from_json mysql_dyn
  else if String.eqb st "mariadb" then
    of_bytes mysql_from_json
      (fun _ => generic_dyn {| Offsets.source := "mariadb"; Offsets.bytes := encoded |})
  else if String.eqb st "sqlserver" then of_bytes sqlserver_from_json sqlserver_dyn
  else Ok (generic_dyn {| Offsets.source := st; Offsets.bytes := encoded |}).

Definition load_blocking : M Store (option DynOffset) :=
  ensure_owner_lease ;;
  latest ← on_world load_latest_record;
  match latest with
  | None => mret None
  | Some record => o ← of_res (typed_offset record); mret (Some o)
  end.

Definition committed_count_blocking : M Store Z :=
  ensure_owner_lease ;;
  latest ← on_world load_latest_record;
  mret (match latest with None => 0 | Some record => committed_event_count record end).

(** [Checkpoint::save] *)
Definition file_save (o : DynOffset) (n : Z) : M Store unit :=
  encoded ← of_res (encode o);
  match parse_json encoded with
  | None => throw (SerializationError "offset")
  | Some value =>
      save_blocking (CheckpointApi.source_type o)
        (record_new (CheckpointApi.source_type o) n value)
  end.

#[global] Instance FileCheckpoint_Checkpoint : Checkpoint Store := {
  save o n := file_save o n;
  load := load_blocking;
  get_committed_count := committed_count_blocking;
}.

(** [restore_from_record_with_mode] and [restore_from_record] *)
Definition restore_from_record_with_mode (st : string) (offset_bytes : list byte) (n : Z)
    (mode : Z) : M World unit :=
  ensure_directory ;;
  match parse_json offset_bytes with
  | None => throw (CheckpointError "restore_from_record: offset_bytes are not valid JSON")
  | Some value => write_record st mode (record_new st n value)
  end.

Definition restore_from_record (st : string) (offset_bytes : list byte) (n : Z) : M World unit :=
  restore_from_record_with_mode st offset_bytes n FILE_CHECKPOINT_DEFAULT_FILE_MODE.

(** [Drop for FileCheckpointInner]: the lease is dropped here, or with the mutex that
    holds it when the mutex is poisoned. *)
Definition drop_store : M Store unit :=
  s ← gets id;
  match lease (inner s) with
  | None => mret tt
  | Some l => modify (set_lease None) ;; on_world (OwnerLease.drop_lease l)
  end.

End Store.

(** ** File names *)

Lemma last_not_checkpoint n c :
  last_char n = Some c -> c <> "n"%char -> is_checkpoint n = false.
Proof.
  intros Hl Hc. unfold is_checkpoint. rewrite (ends_with_last ".json" n); [|done|].
  - apply andb_false_r.
  - rewrite Hl. simpl. congruence.
Qed.

Lemma temp_not_checkpoint n : is_temp n = true -> is_checkpoint n = false.
Proof.
  intros [_ Ht]%andb_true_iff. apply (last_not_checkpoint n "p"); [|done].
  by apply ends_with_last_inv in Ht.
Qed.

Lemma temp_path_is_temp st t : is_temp (temp_path st t) = true.
Proof.
  unfold is_temp, temp_path. rewrite starts_with_app. simpl.
  apply ends_with_spec. exists ("checkpoint_" +:+ st +:+ "." +:+ show t).
  by rewrite !append_assoc_r.
Qed.

Lemma checkpoint_path_is_checkpoint st : is_checkpoint (checkpoint_path st) = true.
Proof.
  unfold is_checkpoint, checkpoint_path. rewrite starts_with_app. simpl.
  apply ends_with_spec. exists ("checkpoint_" +:+ st). by rewrite append_assoc_r.
Qed.

Lemma temp_path_free st t : is_checkpoint (temp_path st t) = false.
Proof. apply temp_not_checkpoint, temp_path_is_temp. Qed.

Lemma lease_path_free : is_checkpoint OWNER_LEASE_FILENAME = false.
Proof. done. Qed.

Lemma lease_tmp_free t : is_checkpoint (OwnerLease.lease_tmp t) = false.
Proof. done. Qed.

#[local] Hint Resolve temp_path_free lease_path_free lease_tmp_free temp_not_checkpoint : io.

(** ** What each operation leaves alone *)

Lemma keeps_on_world {A} (I : World -> Prop) (m : M World A) :
  keeps I m -> keeps (fun s => I (world s)) (on_world m).
Proof.
  intros Hm s Hs. specialize (Hm _ Hs). unfold on_world. by destruct (m (world s)).
Qed.

#[local] Hint Resolve keeps_on_world keeps_for_each keeps_collect : io.

Section Frame.
Context `{JsonCodec} (sha256 : list byte -> list byte) (p : OwnerLease.Process).
Context (w0 : World).
Abbreviation I := (since w0 is_checkpoint).

Lemma keeps_check_file_permissions n : keeps I (check_file_permissions n).
Proof. unfold check_file_permissions. keeps_auto. Qed.
#[local] Hint Resolve keeps_check_file_permissions : io.

Lemma keeps_read_record n : keeps I (read_record sha256 n).
Proof. unfold read_record. keeps_auto. Qed.

Lemma keeps_ensure_directory : keeps I ensure_directory.
Proof. unfold ensure_directory. keeps_auto. Qed.
#[local] Hint Resolve keeps_read_record keeps_ensure_directory : io.

Lemma keeps_validate st r : keeps I (validate_monotonic_progress sha256 st r).
Proof. unfold validate_monotonic_progress. keeps_auto. Qed.

Lemma keeps_discard : keeps I discard_orphaned_temp_files.
Proof.
  unfold discard_orphaned_temp_files. keeps_step; [auto with io|]. destruct a as [names|e]; [|auto with io].
  apply keeps_for_each. intros name. keeps_step; [auto with io|].
  destruct a; [|auto with io]. destruct (is_temp name) eqn:E; keeps_auto.
Qed.

Lemma keeps_acquire_lease : keeps I (OwnerLease.acquire p OWNER_LEASE_FILENAME).
Proof. by apply OwnerLease.keeps_acquire. Qed.

Lemma keeps_verify_lease l : keeps I (OwnerLease.verify_still_held l).
Proof. apply OwnerLease.keeps_verify. Qed.
#[local] Hint Resolve keeps_validate keeps_discard keeps_acquire_lease keeps_verify_lease : io.

Lemma keeps_modify_lease l : keeps (fun s => I (world s)) (modify (set_lease l)).
Proof. by intros s Hs. Qed.
#[local] Hint Resolve keeps_modify_lease : io.

Lemma keeps_ensure_owner_lease : keeps (fun s => I (world s)) (ensure_owner_lease p).
Proof. unfold ensure_owner_lease. keeps_auto. Qed.

Lemma keeps_verify_lease_still_held : keeps (fun s => I (world s)) verify_lease_still_held.
Proof. unfold verify_lease_still_held. keeps_auto. Qed.

End Frame.

(** ** Writing a record *)

Section Write.
Context `{JsonCodec} (w0 : World) (st : string) (m : Z) (record : FileCheckpointRecord).
Abbreviation I := (since w0 is_checkpoint).

(** The file a completed write leaves: the whole record, on disk. *)
Definition new_file (n : Inode) : Prop :=
  content n = print_pretty (record_json record) /\ mode n = Z.land m 4095 /\ synced n = true.

(** Every directory a restart may find agrees with one it might have found before, except
    that the checkpoint may be the complete new file. *)
Definition old_or_new (w : World) : Prop :=
  inodes w0 ⊆ inodes w /\ wf_world w /\
  forall es, es ∈ possible_entries w -> exists es0, es0 ∈ possible_entries w0 /\
    forall name, is_checkpoint name = true -> es !! name = es0 !! name \/
      (name = checkpoint_path st /\
       exists i n, es !! name = Some i /\ inodes w !! i = Some n /\ new_file n).

Definition installed (w : World) : Prop :=
  exists i n, entries w !! checkpoint_path st = Some i /\ inodes w !! i = Some n /\ new_file n.

Lemma since_old_or_new w : I w -> old_or_new w.
Proof.
  intros [H1 _ _ H4 H5]. split_and!; [done..|]. intros es Hes.
  destruct (H4 es Hes) as (es0 & Hin & Heq). exists es0. split; [done|]. eauto.
Qed.

Lemma rename_installs tmp i w :
  is_checkpoint tmp = false -> preparing w0 is_checkpoint tmp i new_file w ->
  let w' := set_entries (<[checkpoint_path st := i]> (delete tmp (entries w))) w in
  old_or_new w' /\ installed w'.
Proof.
  intros Ht (Hw & Hi & He & n & Hn & Hnew) w'.
  assert (Hin : installed w') by (exists i, n; split; [apply lookup_insert_eq|done]).
  destruct Hw as [H1 _ H3 H4 H5]. split; [|done]. split_and!; [done|..].
  - intros es name j [->|Hes]%elem_of_cons Hj; [|by apply (H5 es name j)].
    simpl in Hj. apply lookup_insert_Some in Hj as [[_ <-]|[_ [_ Hj]%lookup_delete_Some]];
      [by exists n|].
    apply (H5 (entries w) name j); [by left|done].
  - intros es [->|Hes]%elem_of_cons.
    + destruct (H4 (entries w)) as (es0 & Hin0 & Heq); [by left|].
      exists es0. split; [done|]. intros name Hname.
      destruct (decide (name = checkpoint_path st)) as [->|Hne]; [right; split; [done|exact Hin]|].
      left. rewrite <-Heq by done. simpl. rewrite lookup_insert_ne, lookup_delete_ne by congruence.
      done.
    + destruct (H4 es Hes) as (es0 & Hin0 & Heq). exists es0. split; [done|]. eauto.
Qed.

Lemma hoare_rename tmp i :
  is_checkpoint tmp = false ->
  hoare (preparing w0 is_checkpoint tmp i new_file) (io_try (rename tmp (checkpoint_path st)))
    (fun r w => match r with Ok _ => old_or_new w /\ installed w | _ => I w end).
Proof.
  intros Ht w Hp.
  assert (Hf : forall fs, preparing w0 is_checkpoint tmp i new_file (set_faults fs w)).
  { intros fs. destruct Hp as (? & ? & ? & ?). split_and!; try done. by apply since_set_faults. }
  assert (He : entries w !! tmp = Some i) by apply Hp.
  unfold io_try, mbind, M_bind, rename, syscall.
  destruct (faults w) as [|[|k|k] fs]; simpl; rewrite ?He; simpl.
  - by apply (rename_installs tmp i w).
  - by apply (rename_installs tmp i (set_faults fs w)).
  - apply Hf.
  - apply Hf.
Qed.

(** Syncing the directory, once the file is installed. *)
Lemma hoare_sync_installed :
  hoare (fun w => old_or_new w /\ installed w) fsync_parent_directory
    (fun r w => old_or_new w /\ (r = Ok tt -> past_entries w = [] /\ installed w)).
Proof.
  apply hoare_bind with (R := fun _ w => old_or_new w /\ installed w).
  - intros w Hw. unfold io_try, mbind, M_bind, open_dir, syscall.
    destruct (faults w) as [|[|k|k] fs]; simpl; try (destruct (dir_state w); simpl);
      try done; (split; [apply Hw|done]).
  - intros [] w [Hw Hin]. unfold io_try, mbind, M_bind, sync_dir, syscall.
    assert (Hs : old_or_new (sync_entries w)).
    { destruct Hw as (H1 & H2 & H3). split_and!; [done|..].
      - intros es name j ->%list_elem_of_singleton. apply (H2 (entries w)). by left.
      - intros es ->%list_elem_of_singleton. apply (H3 (entries w)). by left. }
    destruct (faults w) as [|[|k|k] fs]; simpl; split; try done.
Qed.

Lemma hoare_write_record :
  hoare I (write_record st m record)
    (fun r w => old_or_new w /\ (r = Ok tt -> past_entries w = [] /\ installed w)).
Proof.
  assert (Herr : forall (r : Res unit) w, r <> Ok tt -> I w ->
    old_or_new w /\ (r = Ok tt -> past_entries w = [] /\ installed w))
    by (intros r w Hr Hw; split; [by apply since_old_or_new|done]).
  apply hoare_bind with (R := fun _ => I).
  { intros w Hw. pose proof (keeps_now w0 is_checkpoint w Hw).
    destruct (now w) as [[a|e|]]; [done|by apply Herr..]. }
  intros stamp. set (tmp := temp_path st stamp).
  assert (Ht : is_checkpoint tmp = false) by apply temp_path_free.
  apply hoare_bind with (R := fun i => preparing w0 is_checkpoint tmp i (fun n => content n = [])).
  { eapply hoare_weaken; [by apply (hoare_prepare w0 is_checkpoint tmp)|done|].
    intros [a|e|] w Hw; [exact Hw|by apply Herr..]. }
  intros i.
  apply hoare_bind with (R := fun _ => preparing w0 is_checkpoint tmp i (fun n =>
    content n = [] /\ mode n = Z.land m 4095)).
  { eapply hoare_weaken; [apply (hoare_prepare_step w0 is_checkpoint tmp i (fun n => content n = []))
      with (Q' := fun n => content n = [] /\ mode n = Z.land m 4095); [done|by intros w n Hn]|done|].
    intros [a|e|] w Hw; [exact Hw|by apply Herr..]. }
  intros _.
  apply hoare_bind with (R := fun _ => preparing w0 is_checkpoint tmp i (fun n =>
    content n = print_pretty (record_json record) /\ mode n = Z.land m 4095)).
  { eapply hoare_weaken; [apply (hoare_prepare_step w0 is_checkpoint tmp i
      (fun n => content n = [] /\ mode n = Z.land m 4095))
      with (Q' := fun n => content n = print_pretty (record_json record) /\
                           mode n = Z.land m 4095)|done|].
    - intros k w Hw Hi. by apply since_update_inode.
    - intros w n [Hc Hm]. simpl. by rewrite Hc.
    - intros [a|e|] w Hw; [exact Hw|by apply Herr..]. }
  intros _.
  apply hoare_bind with (R := fun _ => preparing w0 is_checkpoint tmp i new_file).
  { eapply hoare_weaken; [apply (hoare_prepare_step w0 is_checkpoint tmp i
      (fun n => content n = print_pretty (record_json record) /\ mode n = Z.land m 4095))
      with (Q' := new_file); [done|by intros w n [Hc Hm]]|done|].
    intros [a|e|] w Hw; [exact Hw|by apply Herr..]. }
  intros _.
  apply hoare_bind with (R := fun _ w => old_or_new w /\ installed w).
  { eapply hoare_weaken; [by apply (hoare_rename tmp i)|done|]. intros [a|e|] w Hw; [exact Hw|by apply Herr..]. }
  intros _. apply hoare_sync_installed.
Qed.

End Write.

(** ** Saving *)

Definition has_mode (m : Z) (s : Store) : Prop := file_mode (inner s) = m.

Lemma has_mode_on_world {A} m (c : M World A) : keeps (has_mode m) (on_world c).
Proof. intros s Hs. unfold on_world. by destruct (c (world s)). Qed.

Lemma has_mode_set_lease m l : keeps (has_mode m) (modify (set_lease l)).
Proof. by intros s Hs. Qed.

#[local] Hint Resolve has_mode_on_world has_mode_set_lease : io.

Section Save.
Context `{JsonCodec} (sha256 : list byte -> list byte) (p : OwnerLease.Process).

Lemma hoare_save w0 st m record :
  hoare (fun s => since w0 is_checkpoint (world s) /\ has_mode m s)
    (save_blocking sha256 p st record)
    (fun r s => old_or_new w0 st m record (world s) /\
       (r = Ok tt -> past_entries (world s) = [] /\ installed st m record (world s))).
Proof.
  set (P := fun s => since w0 is_checkpoint (world s) /\ has_mode m s).
  assert (Hbind : forall A (c : M Store A) k Q, keeps P c ->
    (forall (r : Res unit) s, r <> Ok tt -> P s -> Q r s) ->
    (forall a, hoare P (k a) Q) -> hoare P (c ≫= k) Q).
  { intros A c k Q Hc HQ Hk. apply hoare_bind with (R := fun _ => P); [|done].
    intros s Hs. specialize (Hc s Hs). destruct (c s) as [[a|e|] s']; [done|by apply HQ..]. }
  assert (Herr : forall (r : Res unit) s, r <> Ok tt -> P s ->
    old_or_new w0 st m record (world s) /\
    (r = Ok tt -> past_entries (world s) = [] /\ installed st m record (world s)))
    by (intros r s Hr [Hs _]; split; [by apply since_old_or_new|done]).
  apply Hbind; [|done|intros []].
  { apply keeps_and; [apply keeps_ensure_owner_lease|unfold ensure_owner_lease; keeps_auto]. }
  apply Hbind; [|done|intros []].
  { apply keeps_and;
      [apply keeps_verify_lease_still_held|unfold verify_lease_still_held; keeps_auto]. }
  apply Hbind; [|done|intros []].
  { apply keeps_and; [|auto with io]. apply keeps_on_world, keeps_ensure_directory. }
  apply Hbind; [|done|intros []].
  { apply keeps_and; [|auto with io]. apply keeps_on_world, keeps_validate. }
  intros s [Hs Hm]. unfold has_mode in Hm.
  pose proof (hoare_write_record w0 st m record (world s) Hs) as Hw.
  unfold gets, mbind, M_bind, on_world. simpl. rewrite Hm.
  by destruct (write_record st m record (world s)).
Qed.

(** C5: saving is atomic and durable.  Whatever I/O calls fail and wherever the process
    dies during a save, a machine that loses power then finds under every checkpoint
    name either a file it could have found before the save or, for the saved source,
    the complete new record; it never finds a torn record and never loses a checkpoint
    that was there.  When the save reported success it finds the new record. *)
Theorem save_survives_power_loss st record s r s' es name
    (s_wf : wf_world (world s))
    (saved : save_blocking sha256 p st record s = (r, s'))
    (restart : es ∈ possible_entries (world s')) (is_ckpt : is_checkpoint name = true) :
  (forall n, disk_after_power_loss (world s') es name n ->
     (exists es0, disk_after_power_loss (world s) es0 name n) \/
     (name = checkpoint_path st /\ content n = print_pretty (record_json record) /\
      mode n = Z.land (file_mode (inner s)) 4095)) /\
  (es !! name = None -> exists es0, es0 ∈ possible_entries (world s) /\ es0 !! name = None) /\
  (r = Ok tt -> name = checkpoint_path st ->
     (exists n, disk_after_power_loss (world s') es name n) /\
     forall n, disk_after_power_loss (world s') es name n ->
       content n = print_pretty (record_json record)).
Proof.
  pose proof (hoare_save (world s) st (file_mode (inner s)) record s) as Hs.
  rewrite saved in Hs. destruct Hs as [(Hsub & Hwf & Hold) Hok].
  { split; [by apply since_refl|done]. }
  simpl in *. destruct (Hold es restart) as (es0 & Hin0 & Heq). split_and!.
  - intros n (_ & i & n' & He & Hi & Hn).
    destruct (Heq name is_ckpt) as [E|(-> & i' & n2 & He' & Hi' & Hc & Hm & Hsy)].
    + left. exists es0. split; [done|]. rewrite E in He. exists i, n'.
      split_and!; [done| |done]. destruct (s_wf es0 name i Hin0 He) as [n3 Hn3].
      by rewrite Hn3, <-Hi, (lookup_weaken _ _ _ _ Hn3 Hsub).
    + right. simplify_eq. specialize (Hn Hsy) as ->. done.
  - intros Hnone. exists es0. split; [done|].
    destruct (Heq name is_ckpt) as [E|(-> & i' & n2 & He' & _)]; congruence.
  - intros -> ->. destruct (Hok eq_refl) as (Hpast & i & n & He & Hi & Hc & Hm & Hsy).
    unfold possible_entries in *. rewrite Hpast in *.
    apply list_elem_of_singleton in restart as ->. split.
    + exists n. split; [left|]. by exists i, n.
    + intros n' (_ & i' & n2 & He' & Hi' & Hn'). simplify_eq. by rewrite (Hn' Hsy).
Qed.

End Save.

(** ** Loading *)

Section Load.
Context `{JsonCodec} (sha256 : list byte -> list byte).

(** The record a checkpoint file holds, if the store accepts it. *)
Definition stored (w : World) (name : string) (r : FileCheckpointRecord) : Prop :=
  exists n, lookup_inode name w = Some n /\ Z.land (Z.land (mode n) 511) 63 = 0 /\
    (v ← parse_json (content n); record_from_json v) = Some r /\
    checkpoint_format_version r = FILE_CHECKPOINT_FORMAT_VERSION /\
    content_checksum r = compute_checksum sha256 r.

Lemma reads_check_file_permissions w0 n : keeps (same_files w0) (check_file_permissions n).
Proof. unfold check_file_permissions. keeps_auto. Qed.
#[local] Hint Resolve reads_check_file_permissions : io.
Lemma reads_read_record w0 n : keeps (same_files w0) (read_record sha256 n).
Proof. unfold read_record. keeps_auto. Qed.
#[local] Hint Resolve reads_read_record : io.
Lemma reads_ensure_directory w0 : keeps (same_files w0) ensure_directory.
Proof. unfold ensure_directory. keeps_auto. Qed.
#[local] Hint Resolve reads_ensure_directory : io.
Lemma reads_checkpoint_files w0 : keeps (same_files w0) checkpoint_files.
Proof.
  unfold checkpoint_files. do 2 (keeps_step; [auto with io|]). keeps_step; [|auto with io].
  apply keeps_collect. intros name. keeps_auto.
Qed.
Lemma reads_load_latest w0 : keeps (same_files w0) (load_latest_record sha256).
Proof.
  unfold load_latest_record. keeps_step; [apply reads_checkpoint_files|].
  destruct a; [auto with io|]. keeps_step; [|keeps_auto].
  apply keeps_collect. intros f. keeps_auto.
Qed.

Lemma read_record_stored name w r w' :
  read_record sha256 name w = (Ok r, w') -> stored w name r.
Proof.
  intros ([] & w1 & Hp & (b & w2 & Hb & Hk)%bind_inv)%bind_inv.
  pose proof (reads_check_file_permissions w name w eq_refl) as Hs. rewrite Hp in Hs. simpl in Hs.
  apply bind_inv in Hp as (n & w3 & Hn%io_try_inv%metadata_inv & Hm).
  apply io_try_inv, read_inv in Hb as (n' & Hn' & Hc).
  rewrite (same_files_lookup w name w1 Hs) in Hn'. simplify_eq.
  exists n. split; [done|]. cbv zeta in Hm.
  destruct (Z.eqb_spec (Z.land (Z.land (mode n) 511) 63) 0); [|done]. split; [done|].
  destruct (v ← parse_json (content n); record_from_json v) as [r'|]; [|done].
  apply bind_inv in Hk as ([] & w4 & Hv & ([] & w5 & Hx & [= <- <-])%bind_inv).
  split; [done|]. unfold of_res, validate_record_version, verify_checksum in *.
  destruct (Z.eqb_spec (checkpoint_format_version r') FILE_CHECKPOINT_FORMAT_VERSION); [|done].
  destruct (String.eqb_spec (content_checksum r') (compute_checksum sha256 r')); [|done]. done.
Qed.

(** A file holds at most one record. *)
Lemma stored_inj w name r r' : stored w name r -> stored w name r' -> r = r'.
Proof. intros (n & ? & _ & ? & _) (n' & ? & _ & ? & _). by simplify_eq. Qed.

(** The listing is complete: exactly the checkpoint files, once each. *)
Lemma checkpoint_files_inv w fs w' :
  checkpoint_files w = (Ok fs, w') ->
  forall name, name ∈ map snd fs <-> is_checkpoint name = true /\ is_Some (entries w !! name).
Proof.
  intros ([] & w1 & He & (names & w2 & Hn & (found & w3 & Hf & [= <- <-])%bind_inv)%bind_inv)%bind_inv.
  pose proof (reads_ensure_directory w w eq_refl) as H1. rewrite He in H1. simpl in H1.
  apply io_try_inv in Hn. pose proof (reads_read_dir w w1 H1) as H2. rewrite Hn in H2. simpl in H2.
  apply read_dir_inv in Hn as ->. rewrite (same_files_entries w w1 H1) in Hf.
  eapply (collect_inv (same_files w)) in Hf as [Hf _]; [|intros; keeps_auto|done].
  intros name.
  assert (Hone : forall nm (b : list (Z * string)),
    (exists s1 s2, same_files w s1 /\
       (io_try next_entry ;;
        if is_checkpoint nm then
          meta ← metadata nm;
          mret [(match meta with inl n => mtime n | inr _ => 0 end, nm)]
        else mret []) s1 = (Ok b, s2)) ->
    map snd b = if is_checkpoint nm then [nm] else []).
  { intros nm b (s1 & s2 & _ & ([] & s3 & _ & Hb)%bind_inv).
    destruct (is_checkpoint nm); [|by injection Hb as <- _].
    apply bind_inv in Hb as (? & ? & _ & [= <- _]). done. }
  transitivity (name ∈ List.filter is_checkpoint (map fst (map_to_list (entries w)))).
  - assert (Hc : map snd (concat found)
      = List.filter is_checkpoint (map fst (map_to_list (entries w)))).
    { rewrite concat_map. induction Hf as [|nm b l bs Hb _ IH]; simpl; [done|].
      rewrite IH, (Hone nm b Hb). by destruct (is_checkpoint nm). }
    by rewrite Hc.
  - rewrite !list_elem_of_In, filter_In, in_map_iff. split.
    + intros [((k & v) & <- & Hin%list_elem_of_In%elem_of_map_to_list) Hk]. split; [done|eauto].
    + intros [Hk [v Hv]]. split; [|done]. exists (name, v). split; [done|].
      by apply list_elem_of_In, elem_of_map_to_list.
Qed.

(** *** The furthest record *)

Abbreviation Entry := (Z * string * FileCheckpointRecord)%type.
Definition entry_count (x : Entry) : Z := committed_event_count (snd x).
Definition count_le (x y : Entry) : Prop := entry_count x <= entry_count y.

Lemma compare_records_count x y :
  (compare_records x y = Gt -> count_le y x) /\ (compare_records x y <> Gt -> count_le x y).
Proof.
  destruct x as [[tx px] rx], y as [[ty py] ry].
  unfold compare_records, then_with, count_le, entry_count. simpl.
  destruct (Z.compare_spec (committed_event_count rx) (committed_event_count ry)); split;
    try done; lia.
Qed.

Lemma insert_by_perm {A} (cmp : A -> A -> comparison) a l : insert_by cmp a l ≡ₚ a :: l.
Proof.
  induction l as [|b l IH]; simpl; [done|]. destruct (cmp a b); [done..|].
  rewrite IH. apply Permutation_swap.
Qed.

Lemma sort_by_perm {A} (cmp : A -> A -> comparison) l : sort_by cmp l ≡ₚ l.
Proof. induction l as [|a l IH]; simpl; [done|]. by rewrite insert_by_perm, IH. Qed.

Lemma sort_by_count l : StronglySorted count_le (sort_by compare_records l).
Proof.
  induction l as [|a l IH]; simpl; [constructor|].
  induction IH as [|b l' Hs IHs Hf]; simpl; [by repeat constructor|].
  pose proof (compare_records_count a b) as [H1 H2].
  destruct (compare_records a b) eqn:E.
  3:{ constructor; [done|]. rewrite insert_by_perm. constructor; [by apply H1|done]. }
  all: constructor; [by constructor|]; assert (Hab : count_le a b) by (by apply H2);
    constructor; [done|]; eapply Forall_impl; [exact Hf|]; unfold count_le in *; lia.
Qed.

Lemma last_maximal l x : StronglySorted count_le l -> last l = Some x -> Forall (fun y => count_le y x) l.
Proof.
  induction 1 as [|a l Hs IH Hf]; [done|]. destruct l as [|b l].
  - intros [= ->]. repeat constructor. unfold count_le. lia.
  - change (last (a :: b :: l)) with (last (b :: l)). intros Hl. constructor; [|by apply IH].
    apply last_Some in Hl as [l' Hl]. rewrite Hl in Hf. by apply Forall_app in Hf as [_ [? _]%Forall_cons].
Qed.

Lemma families_single (records : list Entry) x y :
  (1 <? size (list_to_set (map (fun x => source_family (source_type (snd x))) records)
              : gset string))%nat = false ->
  x ∈ records -> y ∈ records ->
  source_family (source_type (snd x)) = source_family (source_type (snd y)).
Proof.
  intros Hsz%Nat.ltb_ge Hx Hy.
  set (X := list_to_set _ : gset string) in Hsz.
  assert (Hin : forall z, z ∈ records -> source_family (source_type (snd z)) ∈ X).
  { intros z Hz. apply elem_of_list_to_set, list_elem_of_fmap. by exists z. }
  destruct (decide (size X = 0%nat)) as [H0|H0].
  - apply size_empty_inv in H0. specialize (Hin x Hx). rewrite H0 in Hin.
    by apply not_elem_of_empty in Hin.
  - destruct (size_1_elem_of X) as [f Hf]; [lia|].
    pose proof (Hin x Hx) as E1. pose proof (Hin y Hy) as E2.
    rewrite Hf in E1, E2. apply elem_of_singleton in E1, E2. congruence.
Qed.

Lemma load_latest_inv w r w' :
  load_latest_record sha256 w = (Ok r, w') ->
  (r = None /\ forall name, is_checkpoint name = true -> entries w !! name = None) \/
  exists records : list Entry,
    (forall name, is_checkpoint name = true -> is_Some (entries w !! name) ->
       exists t rec, (t, name, rec) ∈ records) /\
    Forall (fun x => stored w (snd (fst x)) (snd x) /\ is_checkpoint (snd (fst x)) = true) records /\
    (forall x y, x ∈ records -> y ∈ records ->
       source_family (source_type (snd x)) = source_family (source_type (snd y))) /\
    r = snd <$> last (sort_by compare_records records).
Proof.
  intros (fs & w1 & Hfs & Hk)%bind_inv.
  pose proof (reads_checkpoint_files w w eq_refl) as H1. rewrite Hfs in H1. simpl in H1.
  pose proof (checkpoint_files_inv _ _ _ Hfs) as Hspec.
  destruct fs as [|f fs]; [left|right].
  { injection Hk as <- _. split; [done|]. intros name Hn.
    destruct (entries w !! name) eqn:E; [|done].
    assert (Hbad : name ∈ map snd (@nil (Z * string))) by (apply Hspec; eauto).
    by apply elem_of_nil in Hbad. }
  apply bind_inv in Hk as (records & w2 & Hr & Hk).
  cbv zeta in Hk. destruct (Nat.ltb _ _) eqn:Esz in Hk; [done|]. injection Hk as <- _.
  eapply (collect_inv (same_files w)) in Hr as [Hr _]; [|intros; keeps_auto|done].
  assert (Hf2 : Forall2 (fun (a : Z * string) (b : Entry) =>
    fst b = a /\ stored w (snd a) (snd b)) (f :: fs) records).
  { eapply Forall2_impl; [exact Hr|]. intros [t n] b (s1 & s2 & Hs1 & (rec & s3 & Hrec & [= <- _])%bind_inv).
    split; [done|]. apply read_record_stored in Hrec as (x & Hx & Hrest). exists x.
    split; [|done]. simpl in *. by rewrite <-(same_files_lookup w n s1 Hs1). }
  exists records. split_and!.
  - intros name Hn He. assert (Hin : name ∈ map snd (f :: fs)) by (apply Hspec; done).
    apply list_elem_of_fmap in Hin as ([t n] & -> & Hin).
    apply list_elem_of_lookup in Hin as [i Hi].
    destruct (Forall2_lookup_l _ _ _ _ _ Hf2 Hi) as ([a rec] & Hj & Ha & _). cbn [fst snd] in *. subst.
    exists t, rec. by apply list_elem_of_lookup_2 with i.
  - apply Forall_forall. intros [a rec] Hin. apply list_elem_of_lookup in Hin as [i Hi].
    destruct (Forall2_lookup_r _ _ _ _ _ Hf2 Hi) as ([t n] & Hj & Ha & Hst). cbn [fst snd] in *. subst.
    split; [done|]. apply (Hspec n). apply list_elem_of_fmap. exists (t, n).
    split; [done|]. by apply list_elem_of_lookup_2 with i.
  - intros x y. by apply families_single.
  - done.
Qed.

(** C15: loading trusts nothing it cannot read and resumes from the furthest position.
    Whatever I/O failures happen, a load that returns a record has read every
    checkpoint file of the directory, each with safe permissions, a supported version
    and a matching checksum; all belong to one source family, and the returned record
    is one of them with the highest event count.  A load returns nothing only when
    there is no checkpoint file. *)
Theorem load_returns_furthest w r w'
    (loaded : load_latest_record sha256 w = (Ok r, w')) :
  match r with
  | None => forall name, is_checkpoint name = true -> entries w !! name = None
  | Some rec =>
      (exists name, is_checkpoint name = true /\ stored w name rec) /\
      forall name, is_checkpoint name = true -> is_Some (entries w !! name) ->
        exists rec', stored w name rec' /\
          committed_event_count rec' <= committed_event_count rec /\
          source_family (source_type rec') = source_family (source_type rec)
  end.
Proof.
  apply load_latest_inv in loaded as [[-> H']|(records & Hall & Hst & Hfam & ->)]; [done|].
  rewrite Forall_forall in Hst.
  destruct (last (sort_by compare_records records)) as [x|] eqn:El; simpl.
  - pose proof (last_maximal _ _ (sort_by_count records) El) as Hmax.
    rewrite sort_by_perm, Forall_forall in Hmax.
    assert (Hx : x ∈ records).
    { rewrite <-(sort_by_perm compare_records). apply last_Some in El as [l' ->].
      apply elem_of_app. right. left. }
    split; [destruct (Hst x Hx); eauto|]. intros name Hn He.
    destruct (Hall name Hn He) as (t & rec & Hin). exists rec.
    split; [by apply (Hst _ Hin)|]. split; [apply (Hmax _ Hin)|by apply (Hfam _ x Hin Hx)].
  - apply last_None in El. assert (records = []) as ->.
    { apply Permutation_nil_r. by rewrite <-(sort_by_perm compare_records), El. }
    intros name Hn. destruct (entries w !! name) eqn:E; [|done].
    destruct (Hall name Hn) as (t & rec & []%elem_of_nil). eauto.
Qed.

(** *** Runs without I/O failures *)

Lemma metadata_fine n w x :
  faults w = [] -> lookup_inode n w = Some x -> metadata n w = (Ok (inl x), w).
Proof. intros Hf Hx. unfold metadata. by rewrite syscall_fine, Hx by done. Qed.

Lemma read_record_fine name w r :
  faults w = [] -> stored w name r -> read_record sha256 name w = (Ok r, w).
Proof.
  intros Hf (n & Hn & Hm & Hp & Hv & Hc). unfold read_record, check_file_permissions.
  rewrite bind_eq, (bind_ok _ _ _ _ _ (io_try_ok _ _ _ _ (metadata_fine _ _ _ Hf Hn))).
  cbv zeta. rewrite Hm. cbn [Z.eqb mret M_ret].
  assert (Hr : read name w = (Ok (inl (content n)), w))
    by (unfold read; by rewrite syscall_fine, Hn by done).
  rewrite (bind_ok _ _ _ _ _ (io_try_ok _ _ _ _ Hr)), Hp.
  unfold validate_record_version, verify_checksum. rewrite Hv, Hc, String.eqb_refl. done.
Qed.

Lemma ensure_directory_fine w :
  faults w = [] -> dir_state w = Directory -> ensure_directory w = (Ok tt, w).
Proof.
  intros Hf Hd. unfold ensure_directory, dir_exists, dir_is_dir.
  rewrite !bind_eq, syscall_fine, Hd by done. simpl.
  by rewrite !bind_eq, syscall_fine, Hd by done.
Qed.

Lemma checkpoint_files_fine w :
  faults w = [] -> dir_state w = Directory -> exists fs, checkpoint_files w = (Ok fs, w).
Proof.
  intros Hf Hd. unfold checkpoint_files.
  rewrite (bind_ok _ _ _ _ _ (ensure_directory_fine w Hf Hd)).
  assert (Hr : read_dir w = (Ok (inl (map fst (map_to_list (entries w)))), w))
    by (unfold read_dir; by rewrite syscall_fine, Hd by done).
  rewrite (bind_ok _ _ _ _ _ (io_try_ok _ _ _ _ Hr)).
  match goal with |- context [collect ?l ?f] =>
    destruct (collect_fine (fun _ => True) f l w) as (bs & Hbs & _) end;
    [|rewrite (bind_ok _ _ _ _ _ Hbs); by eexists].
  intros name _. assert (Hn : next_entry w = (Ok (inl tt), w))
    by (unfold next_entry; by rewrite syscall_fine by done).
  rewrite (bind_ok _ _ _ _ _ (io_try_ok _ _ _ _ Hn)).
  destruct (is_checkpoint name); [|by eexists].
  unfold metadata. rewrite bind_eq, syscall_fine by done.
  by destruct (lookup_inode name w); eexists.
Qed.

(** With every file readable and one family, loading succeeds. *)
Lemma load_latest_fine w fam :
  faults w = [] -> dir_state w = Directory ->
  (forall name, is_checkpoint name = true -> is_Some (entries w !! name) ->
     exists r, stored w name r /\ source_family (source_type r) = fam) ->
  exists r, load_latest_record sha256 w = (Ok r, w).
Proof.
  intros Hf Hd Hall. unfold load_latest_record.
  destruct (checkpoint_files_fine w Hf Hd) as [fs Hfs]. rewrite (bind_ok _ _ _ _ _ Hfs).
  pose proof (checkpoint_files_inv _ _ _ Hfs) as Hspec.
  destruct fs as [|f fs]; [by eexists|].
  set (body := fun f : Z * string => record ← read_record sha256 (snd f); mret (fst f, snd f, record)).
  destruct (collect_fine (fun x : Entry => source_family (source_type (snd x)) = fam)
    body (f :: fs) w) as (records & Hrec & Hfam).
  { intros [t n] Hin. destruct (Hall n) as (r & Hr & Hfam);
      [apply (Hspec n), list_elem_of_fmap; by exists (t, n)..|].
    exists (t, n, r). split; [|done]. unfold body.
    by rewrite (bind_ok _ _ _ _ _ (read_record_fine _ _ _ Hf Hr)). }
  rewrite (bind_ok _ _ _ _ _ Hrec). cbv zeta.
  rewrite (proj2 (Nat.ltb_ge _ _)); [by eexists|].
  transitivity (size ({[fam]} : gset string)); [|by rewrite size_singleton].
  apply subseteq_size. intros x (y & -> & Hy)%elem_of_list_to_set%list_elem_of_fmap.
  rewrite (proj1 (Forall_forall _ _) Hfam y Hy). by apply elem_of_singleton.
Qed.

End Load.

(** ** Round trip *)

Section RoundTrip.
Context `{JsonLaws} (sha256 : list byte -> list byte) (p : OwnerLease.Process).

(** A record whose text is exact. *)
Definition wf_record (r : FileCheckpointRecord) : Prop :=
  0 <= checkpoint_format_version r <= 65535 /\ 0 <= committed_event_count r <= u64_max /\
  normalize (offset r) = offset r /\ exact (offset r) = true.

Lemma record_roundtrip r :
  wf_record r -> (v ← parse_json (print_pretty (record_json r)); record_from_json v) = Some r.
Proof.
  intros (Hv & Hn & Ho & He). rewrite parse_pretty.
  - destruct r as [ver st n o c]; simpl in Hv, Hn, Ho, He.
    change (record_from_json (normalize (record_json {| checkpoint_format_version := ver;
      source_type := st; committed_event_count := n; offset := o; content_checksum := c |}))
      = Some {| checkpoint_format_version := ver; source_type := st; committed_event_count := n;
                offset := o; content_checksum := c |}).
    unfold record_json, jnat. rewrite normalize_obj.
    cbn [map fst snd checkpoint_format_version source_type committed_event_count offset
         content_checksum]. rewrite Ho. cbn [normalize].
    unfold record_from_json. obj_red. by rewrite !as_uint_jnat by lia.
  - unfold record_json, jnat. cbn [exact forallb snd].
    rewrite !exact_jnat, He by (unfold u64_max, u64_modulus in *; lia). done.
Qed.

(** A secure mode hides the file from group and other. *)
Lemma secure_mode m : Z.land m 63 = 0 -> Z.land (Z.land (Z.land m 4095) 511) 63 = 0.
Proof. intros Hm. by rewrite <-!Z.land_assoc. Qed.

Lemma installed_stored st m r w :
  wf_record r -> Z.land m 63 = 0 ->
  checkpoint_format_version r = FILE_CHECKPOINT_FORMAT_VERSION ->
  content_checksum r = compute_checksum sha256 r ->
  installed st m r w -> stored sha256 w (checkpoint_path st) r.
Proof.
  intros Hr Hm Hv Hc (i & n & He & Hi & Hcn & Hmn & _). exists n. split_and!; try done.
  - unfold lookup_inode. by rewrite He.
  - rewrite Hmn. by apply secure_mode.
  - rewrite Hcn. by apply record_roundtrip.
Qed.

Lemma record_new_checksum st n o :
  content_checksum (record_new sha256 st n o) = compute_checksum sha256 (record_new sha256 st n o).
Proof. done. Qed.

(** The directory a restart finds, on a disk that works. *)
Definition recovered (w : World) : World := set_faults [] w.

(** The other checkpoints of the directory: same family, and behind. *)
Definition others_behind (w : World) (st : string) (n : Z) : Prop :=
  forall name, is_checkpoint name = true -> is_Some (entries w !! name) ->
    name <> checkpoint_path st ->
    exists r, stored sha256 w name r /\
      source_family (source_type r) = source_family st /\ committed_event_count r < n.

Lemma load_after_install st m n o w :
  0 <= n <= u64_max -> normalize o = o -> exact o = true -> Z.land m 63 = 0 ->
  faults w = [] -> dir_state w = Directory ->
  installed st m (record_new sha256 st n o) w -> others_behind w st n ->
  load_latest_record sha256 w = (Ok (Some (record_new sha256 st n o)), w).
Proof.
  intros Hn Ho He Hm Hf Hd Hin Hoth.
  assert (Hst : stored sha256 w (checkpoint_path st) (record_new sha256 st n o))
    by (apply (installed_stored st m); done).
  destruct (load_latest_fine sha256 w (source_family st) Hf Hd) as [r Hr].
  { intros name Hname Hs. destruct (decide (name = checkpoint_path st)) as [->|Hne]; [eauto|].
    destruct (Hoth name Hname Hs Hne) as (r & ? & ? & _). eauto. }
  rewrite Hr. do 2 f_equal. pose proof (checkpoint_path_is_checkpoint st) as Hp.
  assert (Hsome : is_Some (entries w !! checkpoint_path st))
    by (destruct Hin as (i & ? & -> & _); eauto).
  apply load_latest_inv in Hr as [[-> Hnone]|(records & Hall & Hrs & _ & ->)].
  { rewrite (Hnone _ Hp) in Hsome. by destruct Hsome. }
  rewrite Forall_forall in Hrs.
  destruct (Hall _ Hp Hsome) as (t & rec & Hrec).
  assert (Hrec_eq : rec = record_new sha256 st n o)
    by (apply (stored_inj sha256 w (checkpoint_path st)); [apply (Hrs _ Hrec)|done]).
  destruct (last (sort_by compare_records records)) as [x|] eqn:El; simpl.
  2:{ apply last_None in El. assert (Hnil : records = []) by
        (apply Permutation_nil_r; by rewrite <-(sort_by_perm compare_records), El).
      rewrite Hnil in Hrec. by apply elem_of_nil in Hrec. }
  pose proof (last_maximal _ _ (sort_by_count records) El) as Hmax.
  rewrite sort_by_perm, Forall_forall in Hmax. specialize (Hmax _ Hrec).
  assert (Hx : x ∈ records).
  { rewrite <-(sort_by_perm compare_records). apply last_Some in El as [l' ->].
    apply elem_of_app. right. left. }
  f_equal. destruct x as [[tx nx] rx], (Hrs _ Hx) as [Hsx Hcx]. simpl in *.
  destruct (decide (nx = checkpoint_path st)) as [->|Hne]; [by apply (stored_inj sha256 w (checkpoint_path st))|].
  destruct (Hoth nx) as (r & Hr & _ & Hlt); [done| |done|].
  { destruct Hsx as (nn & Hnn & _). unfold lookup_inode in Hnn.
    by destruct (entries w !! nx). }
  rewrite (stored_inj sha256 w nx rx r Hsx Hr) in Hmax. unfold count_le, entry_count in Hmax.
  simpl in Hmax. rewrite Hrec_eq in Hmax. simpl in Hmax. lia.
Qed.

(** The offsets of the connectors, with the value they encode. *)
Inductive native : DynOffset -> json -> Prop :=
| native_postgres o :
    0 <= lsn o <= u64_max -> (forall s, pg_incremental_snapshot o = Some s -> wf_state s) ->
    native (postgres_dyn o) (postgres_json o)
| native_mysql o :
    source_flavor o = "mysql" -> 0 <= binlog_pos o <= u32_max ->
    (forall s, my_incremental_snapshot o = Some s -> wf_state s) ->
    native (mysql_dyn o) (mysql_json o)
| native_sqlserver o :
    (forall s, ms_incremental_snapshot o = Some s -> wf_state s) ->
    native (sqlserver_dyn o) (sqlserver_json o).

Lemma native_exact d v : native d v -> exact v = true.
Proof.
  destruct 1 as [o Hl Hs|o Hf Hl Hs|o Hs];
    unfold postgres_json, mysql_json, sqlserver_json, jnat; cbn [exact];
    rewrite forallb_app, exact_skip_none by done; cbn [forallb snd exact];
    by rewrite ?exact_jnat by (unfold u32_max, u64_max, u64_modulus in *; lia).
Qed.

Lemma native_encode d v : native d v -> encode d = Ok (print_json v).
Proof. by destruct 1. Qed.

Lemma native_typed d v n :
  native d v ->
  typed_offset (record_new sha256 (CheckpointApi.source_type d) n (normalize v)) = Ok d.
Proof.
  intros Hd. unfold typed_offset. cbn [record_new offset source_type].
  rewrite parse_print, normalize_idem by (by apply exact_normalize, (native_exact d)).
  destruct Hd as [o Hl Hs|o Hf Hl Hs|o Hs].
  - change (CheckpointApi.source_type (postgres_dyn o)) with "postgres".
    cbn -[postgres_from_json normalize postgres_json]. by rewrite postgres_roundtrip.
  - change (CheckpointApi.source_type (mysql_dyn o)) with (source_flavor o). rewrite Hf.
    cbn -[mysql_from_json normalize mysql_json]. by rewrite mysql_roundtrip.
  - change (CheckpointApi.source_type (sqlserver_dyn o)) with "sqlserver".
    cbn -[sqlserver_from_json normalize sqlserver_json]. by rewrite sqlserver_roundtrip.
Qed.

(** C35: what was saved is what is loaded.  After a successful save of a PostgreSQL,
    MySQL or SQL Server offset, with the store's mode hiding the files from others and
    the directory's other checkpoints behind, a fresh handle on the directory loads
    that offset with its snapshot progress, and its event count. *)
Theorem load_returns_saved d v n s s'
    (d_native : native d v) (n_range : 0 <= n <= u64_max)
    (s_wf : wf_world (world s)) (mode_safe : Z.land (file_mode (inner s)) 63 = 0)
    (saved : file_save sha256 p d n s = (Ok tt, s'))
    (is_dir : dir_state (world s') = Directory)
    (behind : others_behind (recovered (world s')) (CheckpointApi.source_type d) n) :
  let fresh := {| inner := read_only_handle; world := recovered (world s') |} in
  load_blocking sha256 p fresh = (Ok (Some d), fresh) /\
  committed_count_blocking sha256 p fresh = (Ok n, fresh).
Proof.
  unfold file_save, of_res in saved. rewrite bind_eq, (native_encode d v) in saved by done.
  rewrite parse_print in saved by (by apply (native_exact d)).
  pose proof (hoare_save sha256 p (world s) (CheckpointApi.source_type d)
    (file_mode (inner s)) (record_new sha256 (CheckpointApi.source_type d) n (normalize v)) s) as Hs.
  rewrite saved in Hs. destruct Hs as [_ Hok]; [by split; [apply since_refl|]|].
  destruct (Hok eq_refl) as [_ Hin].
  assert (Hload : load_latest_record sha256 (recovered (world s')) =
    (Ok (Some (record_new sha256 (CheckpointApi.source_type d) n (normalize v))),
     recovered (world s'))).
  { apply (load_after_install _ (file_mode (inner s))); try done.
    - apply normalize_idem.
    - by apply exact_normalize, (native_exact d). }
  intros fresh. unfold load_blocking, committed_count_blocking, ensure_owner_lease, on_world,
    mbind, M_bind, gets, of_res. cbn -[load_latest_record typed_offset recovered record_new].
  rewrite Hload. split; [|done]. cbn -[typed_offset recovered record_new].
  by rewrite (native_typed d v n d_native).
Qed.

End RoundTrip.

(** ** The guard on the write path *)

Section Guard.
Context `{JsonCodec} (sha256 : list byte -> list byte) (p : OwnerLease.Process).

Abbreviation W I := (fun s => I (world s)).

Lemma used_discard w0 : keeps (used w0) discard_orphaned_temp_files.
Proof.
  unfold discard_orphaned_temp_files. keeps_step; [auto with io|].
  destruct a; [|auto with io]. apply keeps_for_each. intros name. keeps_auto.
Qed.

Lemma used_ensure_directory w0 : keeps (used w0) ensure_directory.
Proof. unfold ensure_directory. keeps_auto. Qed.

#[local] Hint Resolve used_discard used_ensure_directory OwnerLease.used_acquire
  OwnerLease.used_verify : io.

Lemma used_set_lease w0 l : keeps (W (used w0)) (modify (set_lease l)).
Proof. by intros s Hs. Qed.
#[local] Hint Resolve used_set_lease : io.

Lemma used_ensure_owner_lease w0 : keeps (W (used w0)) (ensure_owner_lease p).
Proof. unfold ensure_owner_lease. keeps_auto. Qed.

Lemma used_verify_lease w0 : keeps (W (used w0)) verify_lease_still_held.
Proof. unfold verify_lease_still_held. keeps_auto. Qed.

(** The file of a safe name survives whatever leaves safe names alone. *)
Lemma since_stored w0 w name r :
  since w0 is_checkpoint w -> is_checkpoint name = true -> stored sha256 w0 name r ->
  stored sha256 w name r.
Proof.
  intros [Hsub _ He _ _] Hn (n & Hl & Hrest). exists n. split; [|done].
  unfold lookup_inode in *. rewrite He by done.
  destruct (entries w0 !! name) as [i|]; [|done]. simpl in *. by apply (lookup_weaken _ _ _ _ Hl).
Qed.

Definition progress_record (r : FileCheckpointRecord) : Progress.StoredCheckpointRecord :=
  {| Progress.source_type := source_type r;
     Progress.committed_event_count := committed_event_count r;
     Progress.offset := offset r |}.

Lemma validate_accepts st next w w' existing :
  Forall (eq Fine) (faults w) -> stored sha256 w (checkpoint_path st) existing ->
  validate_monotonic_progress sha256 st next w = (Ok tt, w') ->
  Progress.accepted_next (progress_record existing) (progress_record next).
Proof.
  intros Hf Hst (e & w1 & He & Hk)%bind_inv.
  assert (e = true /\ same_files w w1) as [-> Hw1].
  { destruct Hst as (n & Hn & _). apply bind_inv in He as (m & w2 & Hm & [= <- <-]).
    pose proof (reads_metadata w (checkpoint_path st) w eq_refl) as Hr. rewrite Hm in Hr.
    split; [|done]. unfold metadata, syscall in Hm.
    destruct (faults w) as [|f fs] eqn:E; [by rewrite Hn in Hm; injection Hm as <- _|].
    apply Forall_cons in Hf as [<- _].
    change (lookup_inode (checkpoint_path st) (set_faults fs w))
      with (lookup_inode (checkpoint_path st) w) in Hm.
    rewrite Hn in Hm. by injection Hm as <- _. }
  apply bind_inv in Hk as (r & w3 & Hr%read_record_stored & Hv).
  assert (r = existing) as ->.
  { apply (stored_inj sha256 w (checkpoint_path st)); [|done].
    destruct Hr as (n & Hn & Hrest). exists n. split; [|done].
    by rewrite <-(same_files_lookup w (checkpoint_path st) w1 Hw1). }
  unfold of_res in Hv. by injection Hv.
Qed.

(** No rewind is written.  When no I/O call fails, a save that succeeds over an
    existing checkpoint of the source has passed the rewind guard against the record
    on disk, so neither the event count nor the stream coordinate went backwards. *)
Theorem save_never_rewinds st record s s' existing
    (s_wf : wf_world (world s)) (no_failures : Forall (eq Fine) (faults (world s)))
    (on_disk : stored sha256 (world s) (checkpoint_path st) existing)
    (saved : save_blocking sha256 p st record s = (Ok tt, s')) :
  Progress.accepted_next (progress_record existing) (progress_record record).
Proof.
  apply bind_inv in saved as ([] & s1 & H1 & ([] & s2 & H2 &
    ([] & s3 & H3 & ([] & s4 & H4 & _)%bind_inv)%bind_inv)%bind_inv).
  set (P := fun t => since (world s) is_checkpoint (world t) /\ used (world s) (world t)).
  assert (Hstep : forall A (c : M Store A) t a t', keeps P c -> P t -> c t = (Ok a, t') -> P t').
  { intros A c t a t' Hc Ht E. specialize (Hc t Ht). by rewrite E in Hc. }
  assert (P3 : P s3).
  { eapply Hstep; [|eapply Hstep; [|eapply Hstep; [| |exact H1]|exact H2]|exact H3].
    - apply keeps_and; apply keeps_on_world; [apply keeps_ensure_directory|auto with io].
    - apply keeps_and; [apply keeps_verify_lease_still_held|apply used_verify_lease].
    - apply keeps_and; [apply keeps_ensure_owner_lease|apply used_ensure_owner_lease].
    - split; [by apply since_refl|by exists []]. }
  destruct P3 as [Hsince [pre Hpre]]. unfold on_world in H4.
  destruct (validate_monotonic_progress sha256 st record (world s3)) as [r w4] eqn:Ev.
  injection H4 as -> _. apply (validate_accepts st record (world s3) w4); [|..|done].
  - rewrite Hpre in no_failures. by apply Forall_app in no_failures as [_ ?].
  - apply (since_stored (world s)); [done|apply checkpoint_path_is_checkpoint|done].
Qed.

(** The guard depends on a stat that may fail.  [Path::exists] answers [false] when
    the metadata of the checkpoint cannot be read, and the guard then lets any record
    through without comparing it. *)
Theorem stat_failure_skips_guard st next w k fs
    (stat_fails : faults w = Fails k :: fs) :
  validate_monotonic_progress sha256 st next w = (Ok tt, set_faults fs w).
Proof.
  unfold validate_monotonic_progress, exists_, metadata, syscall, mbind, M_bind.
  by rewrite stat_fails.
Qed.

(** ** Read-only handles *)

(** A read-only handle refuses to save and never changes the directory, the lease
    or the registry, whatever it is asked and whatever fails; a load or a count leaves
    the files as they were. *)
Theorem read_only_never_writes d n s
    (is_read_only : read_only (inner s) = true) :
  is_ok (fst (file_save sha256 p d n s)) = false /\
  snd (file_save sha256 p d n s) = s /\
  same_files (world s) (world (snd (load_blocking sha256 p s))) /\
  same_files (world s) (world (snd (committed_count_blocking sha256 p s))).
Proof.
  assert (Hl : ensure_owner_lease p s = (Ok tt, s))
    by (unfold ensure_owner_lease, mbind, M_bind, gets; simpl; by rewrite is_read_only).
  assert (Hr : same_files (world s) (world (snd (on_world (load_latest_record sha256) s)))).
  { apply (keeps_on_world (same_files (world s))); [apply reads_load_latest|done]. }
  split_and!.
  - unfold file_save, of_res. rewrite bind_eq. destruct (encode d) as [b|e|]; simpl; try done.
    destruct (parse_json b); simpl; [|done]. unfold save_blocking. rewrite (bind_ok _ _ _ _ _ Hl).
    unfold verify_lease_still_held, mbind, M_bind, gets. simpl. by rewrite is_read_only.
  - unfold file_save, of_res. rewrite bind_eq. destruct (encode d) as [b|e|]; simpl; try done.
    destruct (parse_json b); simpl; [|done]. unfold save_blocking. rewrite (bind_ok _ _ _ _ _ Hl).
    unfold verify_lease_still_held, mbind, M_bind, gets. simpl. by rewrite is_read_only.
  - unfold load_blocking. rewrite (bind_ok _ _ _ _ _ Hl), bind_eq.
    destruct (on_world (load_latest_record sha256) s) as [[[rec|]|e|] s']; try done.
    simpl in *. unfold of_res. rewrite bind_eq. by destruct (typed_offset rec).
  - unfold committed_count_blocking. rewrite (bind_ok _ _ _ _ _ Hl), bind_eq.
    by destruct (on_world (load_latest_record sha256) s) as [[[rec|]|e|] s'].
Qed.

(** ** File modes *)

(** A store configured with a mode that lets group or other in locks itself out:
    once such a checkpoint is saved, no load of the directory succeeds, whatever the
    schedule. *)
Theorem widened_mode_blocks_load st record s s' fs
    (s_wf : wf_world (world s))
    (widened : Z.land (file_mode (inner s)) 63 <> 0)
    (saved : save_blocking sha256 p st record s = (Ok tt, s')) :
  is_ok (fst (load_latest_record sha256 (set_faults fs (world s')))) = false.
Proof.
  pose proof (hoare_save sha256 p (world s) st (file_mode (inner s)) record s) as Hs.
  rewrite saved in Hs. destruct Hs as [_ Hok]; [by split; [apply since_refl|]|].
  destruct (Hok eq_refl) as (_ & i & n & He & Hi & _ & Hm & _). simpl in *.
  destruct (load_latest_record sha256 (set_faults fs (world s'))) as [[r|e|] w'] eqn:E; try done.
  exfalso. apply load_latest_inv in E as [[_ Hnone]|(records & Hall & Hst & _)].
  - specialize (Hnone _ (checkpoint_path_is_checkpoint st)). simpl in Hnone. congruence.
  - destruct (Hall _ (checkpoint_path_is_checkpoint st)) as (t & rec & Hin); [simpl; rewrite He; by eexists|].
    rewrite Forall_forall in Hst. destruct (Hst _ Hin) as [(n' & Hn' & Hmode & _) _].
    unfold lookup_inode in Hn'. simpl in Hn'. rewrite He in Hn'. simpl in Hn'. simplify_eq.
    apply widened. rewrite Hm in Hmode. by rewrite <-!Z.land_assoc in Hmode.
Qed.

End Guard.

(** ** Integrity *)

Section Integrity.
Context `{JsonLaws} (sha256 : list byte -> list byte).

(** The value the checksum is computed over, as a reader sees it. *)
Lemma preimage_parse r :
  wf_record r -> parse_json (preimage r) = Some (JObj
    [("checkpoint_format_version", jnat (checkpoint_format_version r));
     ("committed_event_count", jnat (committed_event_count r));
     ("offset", offset r); ("source_type", JStr (source_type r))]).
Proof.
  intros (Hv & Hn & Ho & He). unfold preimage, jnat. rewrite parse_print.
  - f_equal. rewrite normalize_obj. cbn [map fst snd]. rewrite Ho. cbn [normalize].
    generalize (offset r). intros o. lazy -[Z.to_N]. done.
  - cbn [exact forallb snd].
    by rewrite !exact_jnat, He by (unfold u64_max, u64_modulus in *; lia).
Qed.

(** The checksum covers the whole record.  Two well-formed records with the same
    checksum whose preimages do not collide under SHA-256 agree in every field the
    checksum protects, so a file whose position or count was altered is rejected unless
    its checksum was recomputed. *)
Theorem checksum_covers_record r r'
    (r_wf : wf_record r) (r'_wf : wf_record r')
    (no_collision : sha256 (preimage r) = sha256 (preimage r') -> preimage r = preimage r')
    (same_checksum : compute_checksum sha256 r = compute_checksum sha256 r') :
  checkpoint_format_version r = checkpoint_format_version r' /\
  source_type r = source_type r' /\
  committed_event_count r = committed_event_count r' /\ offset r = offset r'.
Proof.
  apply hex_inj, no_collision, (f_equal parse_json) in same_checksum.
  rewrite !preimage_parse in same_checksum by done.
  destruct r_wf as (? & ? & _), r'_wf as (? & ? & _). unfold jnat in same_checksum.
  injection same_checksum as E1 E2 E3 E4. split_and!; [lia|done|lia|done].
Qed.

End Integrity.

(** ** Examples *)

Section Examples.
#[local] Existing Instance RefCodec.codec.
#[local] Existing Instance RefCodec.laws.

Definition sample_sha (b : list byte) : list byte := b.
Definition sample_proc : OwnerLease.Process := OwnerLease.sample_process (fun _ => true).

Definition empty_world (fs : list Fault) : World :=
  {| dir_state := Directory; entries := ∅; past_entries := []; inodes := ∅; faults := fs;
     times := [1700; 1701; 1702]; umask := 18; lease_refs := ∅; lease_refs_poisoned := false |}.

Definition sample_store (h : FileCheckpointInner) (fs : list Fault) : Store :=
  {| inner := h; world := empty_world fs |}.

Definition sample_offset : DynOffset :=
  postgres_dyn {| lsn := 4711; slot_name := "s"; pg_incremental_snapshot := None |}.

Definition sample_saved (h : FileCheckpointInner) (fs : list Fault) : Res unit * Store :=
  file_save sample_sha sample_proc sample_offset 10 (sample_store h fs).

Lemma empty_world_wf fs : wf_world (empty_world fs).
Proof.
  intros es name i ->%list_elem_of_singleton Hn. simpl in Hn. by rewrite lookup_empty in Hn.
Qed.

Lemma sample_saved_ok : fst (sample_saved new []) = Ok tt.
Proof. vm_compute. reflexivity. Qed.

Definition sample_record (n : Z) : FileCheckpointRecord :=
  record_new sample_sha "postgres" n
    (normalize (postgres_json
       {| lsn := 4711; slot_name := "s"; pg_incremental_snapshot := None |})).

Lemma pair_ok {S} (x : Res unit * S) : fst x = Ok tt -> x = (Ok tt, snd x).
Proof. destruct x. by intros [= ->]. Qed.

Lemma sample_saved_dir : dir_state (world (snd (sample_saved new []))) = Directory.
Proof. vm_compute. reflexivity. Qed.

Lemma sample_saved_entries : entries (world (snd (sample_saved new [])))
  = <[checkpoint_path "postgres" := 1%nat]> {[OWNER_LEASE_FILENAME := 0%nat]}.
Proof. vm_compute. reflexivity. Qed.

Lemma sample_saved_behind :
  others_behind sample_sha (recovered (world (snd (sample_saved new [])))) "postgres" 10.
Proof.
  intros name Hn [i Hi] Hne. exfalso. revert Hi.
  change (entries (recovered (world (snd (sample_saved new [])))))
    with (entries (world (snd (sample_saved new [])))).
  rewrite sample_saved_entries.
  rewrite lookup_insert_ne, lookup_singleton_ne; [done| |done]. by intros <-.
Qed.

Lemma sample_native : native sample_offset
  (postgres_json {| lsn := 4711; slot_name := "s"; pg_incremental_snapshot := None |}).
Proof. constructor; [vm_compute; split; discriminate|done]. Qed.

Lemma load_returns_saved_witness :
  load_blocking sample_sha sample_proc
    {| inner := read_only_handle; world := recovered (world (snd (sample_saved new []))) |}
  = (Ok (Some sample_offset),
     {| inner := read_only_handle; world := recovered (world (snd (sample_saved new []))) |}).
Proof.
  apply (load_returns_saved sample_sha sample_proc sample_offset _ 10 (sample_store new [])
    (snd (sample_saved new [])) sample_native).
  - vm_compute. split; discriminate.
  - apply empty_world_wf.
  - reflexivity.
  - apply (pair_ok (sample_saved new [])), sample_saved_ok.
  - apply sample_saved_dir.
  - apply sample_saved_behind.
Defined.

(** The process dies three bytes into the write of the record. *)
Definition dies_in_write : list Fault := repeat Fine 14 ++ [Dies 3].

Lemma dies_in_write_dies :
  fst (save_blocking sample_sha sample_proc "postgres" (sample_record 10)
         (sample_store new dies_in_write)) = Panic.
Proof. vm_compute. reflexivity. Qed.

Definition died : Store :=
  snd (save_blocking sample_sha sample_proc "postgres" (sample_record 10)
         (sample_store new dies_in_write)).

Lemma died_run :
  save_blocking sample_sha sample_proc "postgres" (sample_record 10)
    (sample_store new dies_in_write) = (Panic, died).
Proof. rewrite <-dies_in_write_dies. apply surjective_pairing. Qed.

Lemma save_survives_power_loss_witness :
  save_blocking sample_sha sample_proc "postgres" (sample_record 10)
    (sample_store new dies_in_write) = (Panic, died) /\
  forall n, disk_after_power_loss (world died) (entries (world died)) (checkpoint_path "postgres") n ->
    (exists es0, disk_after_power_loss (empty_world dies_in_write) es0
                   (checkpoint_path "postgres") n) \/
    (checkpoint_path "postgres" = checkpoint_path "postgres" /\
     content n = print_pretty (record_json (sample_record 10)) /\ mode n = Z.land 384 4095).
Proof.
  split; [exact died_run|].
  apply (save_survives_power_loss sample_sha sample_proc "postgres" (sample_record 10)
    (sample_store new dies_in_write) Panic died (entries (world died)) (checkpoint_path "postgres")).
  - apply empty_world_wf.
  - exact died_run.
  - left.
  - reflexivity.
Defined.

Definition sample_json : json :=
  normalize (postgres_json {| lsn := 4711; slot_name := "s"; pg_incremental_snapshot := None |}).

Lemma sample_json_exact : exact sample_json = true.
Proof. vm_compute. reflexivity. Qed.

Lemma sample_wf n : 0 <= n <= u64_max -> wf_record (sample_record n).
Proof.
  intros Hn. split; [change (0 <= 1 <= 65535); lia|]. split; [exact Hn|].
  split; [apply normalize_idem|apply sample_json_exact].
Qed.

Lemma sample_installed :
  installed "postgres" 384 (sample_record 10) (world (snd (sample_saved new []))).
Proof.
  pose proof (hoare_save sample_sha sample_proc (empty_world []) "postgres" 384
    (sample_record 10) (sample_store new [])) as Hs.
  destruct Hs as [_ Hok]; [split; [apply since_refl, empty_world_wf|reflexivity]|].
  assert (E : sample_saved new [] = save_blocking sample_sha sample_proc "postgres"
    (sample_record 10) (sample_store new [])).
  { unfold sample_saved, file_save, sample_offset, postgres_dyn, of_res.
    rewrite bind_eq. cbn [encode CheckpointApi.source_type].
    rewrite parse_print by (vm_compute; reflexivity). reflexivity. }
  rewrite E. apply Hok. rewrite <-E. apply sample_saved_ok.
Qed.

Lemma ten_in_range : 0 <= 10 <= u64_max.
Proof. vm_compute. split; discriminate. Qed.

Lemma sample_stored :
  stored sample_sha (world (snd (sample_saved new []))) (checkpoint_path "postgres")
    (sample_record 10).
Proof.
  apply (installed_stored sample_sha "postgres" 384); [|reflexivity..|apply sample_installed].
  apply sample_wf, ten_in_range.
Qed.

Lemma sample_saved_again :
  fst (save_blocking sample_sha sample_proc "postgres" (sample_record 11)
         (snd (sample_saved new []))) = Ok tt.
Proof. vm_compute. reflexivity. Qed.

Lemma sample_saved_calm : faults (world (snd (sample_saved new []))) = [].
Proof. vm_compute. reflexivity. Qed.

Lemma sample_saved_wf : wf_world (world (snd (sample_saved new []))).
Proof.
  assert (Hi : is_Some (inodes (world (snd (sample_saved new []))) !! 0%nat) /\
    is_Some (inodes (world (snd (sample_saved new []))) !! 1%nat))
    by (split; apply (bool_decide_unpack _); vm_compute; exact I).
  assert (Hp : past_entries (world (snd (sample_saved new []))) = []) by (vm_compute; reflexivity).
  intros es name i Hes Hn. unfold possible_entries in Hes. rewrite Hp in Hes.
  apply list_elem_of_singleton in Hes as ->. rewrite sample_saved_entries in Hn.
  apply lookup_insert_Some in Hn as [[_ <-]|[_ [_ <-]%lookup_singleton_Some]]; apply Hi.
Qed.

Lemma save_never_rewinds_witness :
  Progress.accepted_next (progress_record (sample_record 10)) (progress_record (sample_record 11)).
Proof.
  apply (save_never_rewinds sample_sha sample_proc "postgres" (sample_record 11)
    (snd (sample_saved new []))
    (snd (save_blocking sample_sha sample_proc "postgres" (sample_record 11)
            (snd (sample_saved new []))))).
  - apply sample_saved_wf.
  - rewrite sample_saved_calm. constructor.
  - apply sample_stored.
  - apply (pair_ok (save_blocking _ _ _ _ _)), sample_saved_again.
Defined.

Lemma sample_loaded :
  load_latest_record sample_sha (recovered (world (snd (sample_saved new []))))
  = (Ok (Some (sample_record 10)), recovered (world (snd (sample_saved new [])))).
Proof.
  apply (load_after_install sample_sha "postgres" 384);
    [apply ten_in_range|apply normalize_idem|apply sample_json_exact|reflexivity..| | |].
  - apply sample_saved_dir.
  - apply sample_installed.
  - apply sample_saved_behind.
Qed.

Lemma load_returns_furthest_witness :
  load_latest_record sample_sha (recovered (world (snd (sample_saved new []))))
  = (Ok (Some (sample_record 10)), recovered (world (snd (sample_saved new [])))) /\
  forall name, is_checkpoint name = true ->
    is_Some (entries (recovered (world (snd (sample_saved new [])))) !! name) ->
    exists rec', stored sample_sha (recovered (world (snd (sample_saved new [])))) name rec' /\
      committed_event_count rec' <= 10 /\ source_family (source_type rec') = "postgres".
Proof.
  split; [exact sample_loaded|].
  apply (load_returns_furthest sample_sha (recovered (world (snd (sample_saved new []))))
    (Some (sample_record 10)) (recovered (world (snd (sample_saved new []))))).
  exact sample_loaded.
Defined.

Lemma stat_failure_skips_guard_witness :
  validate_monotonic_progress sample_sha "postgres" (sample_record 3) (empty_world [Fails 0])
  = (Ok tt, empty_world []).
Proof.
  apply (stat_failure_skips_guard sample_sha "postgres" (sample_record 3)
    (empty_world [Fails 0]) 0 []). reflexivity.
Defined.

Lemma read_only_never_writes_witness :
  snd (file_save sample_sha sample_proc sample_offset 10 (sample_store read_only_handle []))
  = sample_store read_only_handle [].
Proof.
  apply (read_only_never_writes sample_sha sample_proc sample_offset 10
    (sample_store read_only_handle [])). reflexivity.
Defined.

(** Mode 0o640. *)
Lemma sample_widened_ok :
  fst (save_blocking sample_sha sample_proc "postgres" (sample_record 10)
         (sample_store (with_file_mode 416 new) [])) = Ok tt.
Proof. vm_compute. reflexivity. Qed.

Lemma widened_mode_blocks_load_witness :
  is_ok (fst (load_latest_record sample_sha (set_faults []
    (world (snd (save_blocking sample_sha sample_proc "postgres" (sample_record 10)
                   (sample_store (with_file_mode 416 new) []))))))) = false.
Proof.
  apply (widened_mode_blocks_load sample_sha sample_proc "postgres" (sample_record 10)
    (sample_store (with_file_mode 416 new) [])).
  - apply empty_world_wf.
  - vm_compute. discriminate.
  - apply (pair_ok (save_blocking _ _ _ _ _)), sample_widened_ok.
Defined.

Lemma checksum_covers_record_witness :
  offset (sample_record 10) = offset
    {| checkpoint_format_version := 1; source_type := "postgres"; committed_event_count := 10;
       offset := sample_json; content_checksum := "edited" |}.
Proof.
  apply (checksum_covers_record sample_sha (sample_record 10)
    {| checkpoint_format_version := 1; source_type := "postgres"; committed_event_count := 10;
       offset := sample_json; content_checksum := "edited" |}).
  - apply sample_wf, ten_in_range.
  - split; [change (0 <= 1 <= 65535); lia|]. split; [apply ten_in_range|].
    split; [apply normalize_idem|apply sample_json_exact].
  - intros E. exact E.
  - reflexivity.
Defined.

End Examples.

End FileCheckpoint.
