(* ===== verification/Idempotency.v ===== *)
(** * Idempotency: duplicate suppression

    Models [src/src/core/idempotency.rs]: the sliding-window guard, the identity test,
    and the two fingerprints.  The in-process hasher and SHA-256 are parameters; the
    transient fingerprint is the hash of the sequence of values fed to the hasher, the
    stable one the digest of the bytes fed to it.  The specification of the guard is a
    bounded list of recent fingerprints; that of the stable fingerprint is the tuple of
    fields it is documented to cover, shown to be encoded without ambiguity. *)

From S2P Require Import Prelude Errors Strs Json Event.

Module Idempotency.

Local Open Scope string_scope.
Local Open Scope Z_scope.

Abbreviation Event := Event.Event.

(** ** Fingerprints *)

(** A value fed to the in-process hasher. *)
Inductive Token :=
| TStr (s : string)
| TLen (n : nat)
| TVariant (n : nat)
| TBool (b : bool)
| TU8 (n : Z)
| TU32 (n : Z)
| TU64 (n : Z)
| TI64 (n : Z).

Definition op_index (o : Event.Operation) : nat :=
  match o with
  | Event.Insert => 0 | Event.Update => 1 | Event.Delete => 2 | Event.Read => 3
  | Event.SchemaChange => 4 | Event.Truncate => 5
  end.

Definition i64_max : Z := 2 ^ 63 - 1.

(** [hash_json_value] *)
Fixpoint hash_json_value (v : json) : list Token :=
  match v with
  | JNull => [TU8 0]
  | JBool b => [TU8 1; TBool b]
  | JNum n =>
      TU8 2 :: match n with
               | PosInt z => if Z.of_N z <=? i64_max then [TI64 (Z.of_N z)] else [TU64 (Z.of_N z)]
               | NegInt z => [TI64 z]
               | Float bits => [TU64 bits]
               end
  | JStr s => [TU8 3; TStr s]
  | JArr l =>
      TU8 4 :: TLen (length l) :: flat_map hash_json_value l
  | JObj m =>
      TU8 5 :: TLen (length m) :: flat_map (fun kv => TStr (fst kv) :: hash_json_value (snd kv)) m
  end.

(** Why an event has no fingerprint. *)
Inductive FingerprintError :=
| EmptySourceName
| EmptyOffset
| SerializationFailed (message : string).

(** [From<FingerprintError> for Error] *)
Definition of_fingerprint_error (e : FingerprintError) : Error :=
  ValidationError [match e with
                   | EmptySourceName => "cannot fingerprint event with empty source.source_name"
                   | EmptyOffset => "cannot fingerprint event with empty source.offset"
                   | SerializationFailed m => "fingerprint serialisation failed: " +:+ m
                   end].

Definition fingerprint_guard (e : Event) : option FingerprintError :=
  if is_empty (trim (Event.source_name (Event.source e))) then Some EmptySourceName
  else if is_empty (trim (Event.offset (Event.source e))) then Some EmptyOffset
  else None.

(** The sequence of values [fingerprint_event_transient] hashes. *)
Definition transient_tokens (e : Event) : list Token :=
  ([TStr (Event.source_name (Event.source e)); TStr (Event.offset (Event.source e));
    TStr (Event.table e); TVariant (op_index (Event.op e))] ++
   (match Event.primary_key e with
    | None => [TVariant 0]
    | Some ks => TVariant 1 :: TLen (length ks) :: map TStr ks
    end) ++
   (match Event.transaction e with
    | Some tx => [TU64 (Event.tx_id tx); TU32 (Event.event_index tx);
                  TU32 (default 0 (Event.total_events tx))]
    | None => []
    end) ++
   (match Event.before e with Some b => hash_json_value b | None => [] end) ++
   (match Event.after e with Some a => hash_json_value a | None => [] end))%list.

Definition fingerprint_event_transient (ahash : list Token -> Z) (e : Event)
    : FingerprintError + Z :=
  match fingerprint_guard e with
  | Some err => inl err
  | None => inr (ahash (transient_tokens e))
  end.

(** What [fingerprint_event_stable] feeds to the digest: fixed-width integers, and
    strings and payloads behind their length. *)
Definition update_str (s : string) : list byte :=
  (le_bytes 8 (Z.of_nat (String.length s)) ++ list_byte_of_string s)%list.

Definition update_payload `{JsonCodec} (v : option json) : list byte :=
  match v with
  | Some v =>
      let bytes := print_json v in
      (le_bytes 1 1 ++ le_bytes 8 (Z.of_nat (length bytes)) ++ bytes)%list
  | None => le_bytes 1 0
  end.

Definition stable_preimage `{JsonCodec} (e : Event) : list byte :=
  (list_byte_of_string "rustcdc/v1/fingerprint" ++ [Byte.x00] ++
   update_str (Event.source_name (Event.source e)) ++
   update_str (Event.offset (Event.source e)) ++
   update_str (Event.table e) ++
   update_str (Event.to_str (Event.op e)) ++
   (match Event.primary_key e with
    | Some pks => le_bytes 8 (Z.of_nat (length pks)) ++ flat_map update_str pks
    | None => le_bytes 8 0
    end) ++
   (match Event.transaction e with
    | Some tx =>
        le_bytes 1 1 ++ le_bytes 8 (Event.tx_id tx) ++ le_bytes 4 (Event.event_index tx) ++
        le_bytes 4 (default 0 (Event.total_events tx))
    | None => le_bytes 1 0
    end) ++
   update_payload (Event.before e) ++
   update_payload (Event.after e))%list.

(** [fingerprint_event_stable]; printing a JSON value does not fail. *)
Definition fingerprint_event_stable `{JsonCodec} (sha256 : list byte -> list byte) (e : Event)
    : FingerprintError + string :=
  match fingerprint_guard e with
  | Some err => inl err
  | None => inr (hex (sha256 (stable_preimage e)))
  end.

Definition event_is_identifiable (e : Event) : bool :=
  match Event.transaction e with Some _ => true | None => false end
  || match Event.op e with Event.Truncate | Event.SchemaChange => true | _ => false end
  || Event.has_resolvable_key e.

(** ** The guard *)

Record EventIdempotencyGuard := {
  capacity : nat;
  ttl_ms : option Z;
  seen : gmap Z Z;
  order : list (Z * Z);
  evictions : Z;
  unidentifiable_passthrough : Z;
}.

Definition guard_new (cap : nat) : Res EventIdempotencyGuard :=
  if (cap =? 0)%nat then
    Err (ConfigError "idempotency guard capacity must be greater than zero")
  else Ok {| capacity := cap; ttl_ms := None; seen := ∅; order := []; evictions := 0;
             unidentifiable_passthrough := 0 |}.

Definition with_ttl_ms (ttl : Z) (g : EventIdempotencyGuard) : Res EventIdempotencyGuard :=
  if ttl =? 0 then Err (ConfigError "idempotency guard ttl_ms must be greater than zero")
  else Ok {| capacity := capacity g; ttl_ms := Some ttl; seen := seen g; order := order g;
             evictions := evictions g;
             unidentifiable_passthrough := unidentifiable_passthrough g |}.

Definition set_window (s : gmap Z Z) (o : list (Z * Z)) (ev : Z) (g : EventIdempotencyGuard)
    : EventIdempotencyGuard :=
  {| capacity := capacity g; ttl_ms := ttl_ms g; seen := s; order := o; evictions := ev;
     unidentifiable_passthrough := unidentifiable_passthrough g |}.

(** The loop of [insert]; with an empty queue it would spin, which is running out of
    fuel. *)
Fixpoint evict (fuel : nat) (g : EventIdempotencyGuard) : option EventIdempotencyGuard :=
  if (size (seen g) <=? capacity g)%nat then Some g
  else
    match fuel with
    | O => None
    | S fuel' =>
        match order g with
        | (expired_key, _) :: rest =>
            evict fuel' (set_window (delete expired_key (seen g)) rest
                           (saturating_add (evictions g) 1) g)
        | [] => evict fuel' g
        end
    end.

Definition insert_fingerprint (fuel : nat) (fingerprint seen_at_ms : Z)
    (g : EventIdempotencyGuard) : option EventIdempotencyGuard :=
  evict fuel (set_window (<[fingerprint := seen_at_ms]> (seen g))
                (order g ++ [(fingerprint, seen_at_ms)])%list (evictions g) g).

(** The loop of [prune_expired]: pop while the front of the queue has expired. *)
Fixpoint prune_queue (now ttl : Z) (s : gmap Z Z) (o : list (Z * Z)) : gmap Z Z * list (Z * Z) :=
  match o with
  | (fingerprint, seen_at_ms) :: rest =>
      if saturating_sub now seen_at_ms <? ttl then (s, o)
      else prune_queue now ttl (delete fingerprint s) rest
  | [] => (s, o)
  end.

Definition prune_expired (now : Z) (g : EventIdempotencyGuard) : EventIdempotencyGuard :=
  match ttl_ms g with
  | None => g
  | Some ttl =>
      let '(s, o) := prune_queue now ttl (seen g) (order g) in set_window s o (evictions g) g
  end.

(** [should_process]; [now] is the clock, [None] a loop that does not end. *)
Definition should_process (ahash : list Token -> Z) (fuel : nat) (now : Z) (e : Event)
    (g0 : EventIdempotencyGuard) : option (Res bool * EventIdempotencyGuard) :=
  let g := prune_expired now g0 in
  if negb (event_is_identifiable e) then
    Some (Ok true,
          {| capacity := capacity g; ttl_ms := ttl_ms g; seen := seen g; order := order g;
             evictions := evictions g;
             unidentifiable_passthrough := saturating_add (unidentifiable_passthrough g) 1 |})
  else
    match fingerprint_event_transient ahash e with
    | inl err => Some (Err (of_fingerprint_error err), g)
    | inr fingerprint =>
        match seen g !! fingerprint with
        | Some _ => Some (Ok false, g)
        | None => g' ← insert_fingerprint fuel fingerprint now g; Some (Ok true, g')
        end
    end.

(** ** The window *)

(** The specification: the guard is a list of recent fingerprints with the time they were
    let through, at most [cap] of them. *)
Fixpoint drop_expired (now ttl : Z) (w : list (Z * Z)) : list (Z * Z) :=
  match w with
  | (f, t) :: rest => if saturating_sub now t <? ttl then w else drop_expired now ttl rest
  | [] => []
  end.

Definition expire (now : Z) (ttl : option Z) (w : list (Z * Z)) : list (Z * Z) :=
  match ttl with Some t => drop_expired now t w | None => w end.

(** Keep the last [n] entries. *)
Definition keep_last {A} (n : nat) (l : list A) : list A := drop (length l - n) l.

Section Window.
Variables (ahash : list Token -> Z) (cap : nat) (ttl : option Z).

Definition window_step (now : Z) (e : Event) (w : list (Z * Z)) : Res bool * list (Z * Z) :=
  let w := expire now ttl w in
  if negb (event_is_identifiable e) then (Ok true, w)
  else
    match fingerprint_event_transient ahash e with
    | inl err => (Err (of_fingerprint_error err), w)
    | inr f =>
        if bool_decide (f ∈ map fst w) then (Ok false, w)
        else (Ok true, keep_last cap (w ++ [(f, now)]))
    end.

(** The answers over a sequence of events and the times they arrive. *)
Fixpoint window_run (l : list (Z * Event)) (w : list (Z * Z)) : list (Res bool) * list (Z * Z) :=
  match l with
  | [] => ([], w)
  | (now, e) :: l' =>
      let '(r, w1) := window_step now e w in
      let '(rs, w2) := window_run l' w1 in (r :: rs, w2)
  end.

Fixpoint guard_run (fuel : nat) (l : list (Z * Event)) (g : EventIdempotencyGuard)
    : option (list (Res bool) * EventIdempotencyGuard) :=
  match l with
  | [] => Some ([], g)
  | (now, e) :: l' =>
      '(r, g1) ← should_process ahash fuel now e g;
      '(rs, g2) ← guard_run fuel l' g1; Some (r :: rs, g2)
  end.

(** The guard's map and queue agree with the window. *)
Definition represents (g : EventIdempotencyGuard) (w : list (Z * Z)) : Prop :=
  capacity g = cap /\ ttl_ms g = ttl /\ order g = w /\
  NoDup (map fst w) /\ (length w <= cap)%nat /\
  seen g = list_to_map w.

Lemma seen_lookup (w : list (Z * Z)) f :
  is_Some ((list_to_map w : gmap Z Z) !! f) <-> f ∈ map fst w.
Proof.
  rewrite <-not_eq_None_Some, <-not_elem_of_list_to_map. 
  split; [intros H; destruct (decide (f ∈ map fst w)); [done|]; by exfalso; apply H|by intros H H'].
Qed.

Lemma size_seen (w : list (Z * Z)) :
  NoDup (map fst w) -> size (list_to_map w : gmap Z Z) = length w.
Proof.
  intros Hnd. rewrite <-(length_map_to_list (list_to_map w : gmap Z Z)).
  by rewrite map_to_list_to_map.
Qed.

Lemma prune_queue_spec now t w s :
  NoDup (map fst w) -> s = (list_to_map w : gmap Z Z) ->
  prune_queue now t s w = (list_to_map (drop_expired now t w), drop_expired now t w).
Proof.
  revert s. induction w as [|[f u] w IH]; intros s Hnd ->; simpl; [done|].
  destruct (saturating_sub now u <? t); [done|]. apply NoDup_cons in Hnd as [Hf Hnd].
  apply IH; [done|]. apply delete_insert_id. by apply not_elem_of_list_to_map.
Qed.

Lemma drop_expired_suffix now t w : drop_expired now t w `suffix_of` w.
Proof.
  induction w as [|[f u] w IH]; simpl; [done|]. destruct (_ <? t); [done|].
  by apply suffix_cons_r.
Qed.

Lemma suffix_window (w w' : list (Z * Z)) :
  w' `suffix_of` w -> NoDup (map fst w) -> (length w <= cap)%nat ->
  NoDup (map fst w') /\ (length w' <= cap)%nat.
Proof.
  intros [k ->]. rewrite map_app, length_app. intros [_ [_ ?]]%NoDup_app ?. split; [done|lia].
Qed.

Lemma prune_represents now g w :
  represents g w -> represents (prune_expired now g) (expire now ttl w).
Proof.
  intros (Hc & Ht & Ho & Hnd & Hl & Hs). unfold prune_expired, expire.
  rewrite <-Ht. destruct (ttl_ms g) as [t|] eqn:Eg; [|rewrite <-Eg in Ht; by split_and!].
  rewrite Ho, (prune_queue_spec now t w (seen g) Hnd Hs).
  destruct (suffix_window w (drop_expired now t w)) as [??]; [apply drop_expired_suffix|done..|].
  split_and!; try done. simpl. by rewrite Eg.
Qed.

Lemma keep_last_snoc (w : list (Z * Z)) x : (length w <= cap)%nat -> (0 < cap)%nat ->
  keep_last cap (w ++ [x]) =
    if (length w <? cap)%nat then (w ++ [x])%list else (tail w ++ [x])%list.
Proof.
  intros Hl Hc. unfold keep_last. rewrite length_app. simpl.
  destruct (Nat.ltb_spec (length w) cap) as [|].
  - by replace (length w + 1 - cap)%nat with 0%nat by lia.
  - replace (length w + 1 - cap)%nat with 1%nat by lia.
    destruct w as [|y w]; [simpl in *; lia|done].
Qed.

Lemma insert_represents fuel f now g w :
  represents g w -> f ∉ map fst w -> (0 < cap)%nat -> (1 <= fuel)%nat ->
  exists g', insert_fingerprint fuel f now g = Some g' /\
    represents g' (keep_last cap (w ++ [(f, now)])).
Proof.
  intros (Hcap & Ht & Ho & Hnd & Hl & Hs) Hf Hc Hfuel.
  assert (Hnd' : NoDup (map fst (w ++ [(f, now)]))).
  { rewrite map_app. apply NoDup_app. split_and!; [done| |by apply NoDup_singleton].
    intros x Hx ->%list_elem_of_singleton. done. }
  assert (Hseen : <[f := now]> (seen g) = list_to_map (w ++ [(f, now)])%list).
  { rewrite list_to_map_snoc, Hs by done. done. }
  unfold insert_fingerprint. rewrite Hseen, Ho, (keep_last_snoc w (f, now) Hl Hc).
  destruct fuel as [|fuel]; [lia|]. simpl evict. rewrite (size_seen _ Hnd'), Hcap, length_app. simpl.
  destruct (Nat.ltb_spec (length w) cap) as [Hlt|Hge].
  - rewrite (proj2 (Nat.leb_le _ _)) by lia. eexists. split; [reflexivity|].
    split_and!; simpl; try done. rewrite length_app. simpl. lia.
  - rewrite (proj2 (Nat.leb_gt _ _)) by lia. destruct w as [|[k u] w]; [simpl in *; lia|]. simpl in *.
    apply NoDup_cons in Hnd' as [Hk Hnd'].
    assert (Hdel : delete k (<[k:=u]> (list_to_map (w ++ [(f, now)]))) =
                   (list_to_map (w ++ [(f, now)]) : gmap Z Z)).
    { apply delete_insert_id. by apply not_elem_of_list_to_map. }
    assert (Hsz : size (delete k (<[k:=u]> (list_to_map (w ++ [(f, now)])) : gmap Z Z))
                  = length (w ++ [(f, now)])).
    { rewrite Hdel. by apply size_seen. }
    rewrite length_app in Hsz. simpl in Hsz.
    assert (Hev : forall n g', size (seen g') = (length w + 1)%nat -> capacity g' = cap ->
              evict n g' = Some g').
    { intros n g' Hg Hg'. destruct n; simpl; rewrite Hg, Hg', (proj2 (Nat.leb_le _ _)) by lia; done. }
    rewrite Hev by done. eexists. split; [reflexivity|].
    split_and!; simpl; try done. rewrite length_app. simpl. lia.
Qed.

Lemma should_process_refines fuel now e g w :
  represents g w -> (0 < cap)%nat -> (1 <= fuel)%nat ->
  exists g', should_process ahash fuel now e g = Some (fst (window_step now e w), g') /\
    represents g' (snd (window_step now e w)).
Proof.
  intros Hg Hc Hfuel. apply (prune_represents now) in Hg.
  unfold should_process, window_step. cbv zeta.
  destruct (event_is_identifiable e); simpl; [|by eexists].
  destruct (fingerprint_event_transient ahash e) as [err|f]; [by eexists|].
  assert (Hseen : is_Some (seen (prune_expired now g) !! f) <-> f ∈ map fst (expire now ttl w)).
  { destruct Hg as (_ & _ & _ & _ & _ & ->). apply seen_lookup. }
  case_bool_decide as Hin.
  - apply Hseen in Hin as [x ->]. by eexists.
  - destruct (seen (prune_expired now g) !! f) eqn:E; [exfalso; by apply Hin, Hseen|].
    destruct (insert_represents fuel f now _ _ Hg Hin Hc Hfuel) as (g' & -> & Hg').
    by eexists.
Qed.

Lemma guard_run_refines fuel l g w :
  represents g w -> (0 < cap)%nat -> (1 <= fuel)%nat ->
  exists g', guard_run fuel l g = Some (fst (window_run l w), g') /\
    represents g' (snd (window_run l w)).
Proof.
  intros Hg Hc Hfuel. revert g w Hg. induction l as [|[now e] l IH]; intros g w Hg; simpl.
  { by eexists. }
  destruct (should_process_refines fuel now e g w Hg Hc Hfuel) as (g1 & -> & Hg1). simpl.
  destruct (window_step now e w) as [r w1]. simpl in *.
  destruct (IH g1 w1 Hg1) as (g2 & -> & Hg2). simpl.
  destruct (window_run l w1) as [rs w2]. by eexists.
Qed.

Lemma keep_last_in {A} n (l : list A) x : x ∈ keep_last n l -> x ∈ l.
Proof. unfold keep_last. intros H. rewrite <-(take_drop (length l - n) l). apply elem_of_app. auto. Qed.

Lemma expire_in now (w : list (Z * Z)) x : x ∈ expire now ttl w -> x ∈ w.
Proof.
  unfold expire. destruct ttl as [t|]; [|done].
  destruct (drop_expired_suffix now t w) as [k Hk]. rewrite Hk at 2. intros ?.
  apply elem_of_app. auto.
Qed.

(** A fingerprint enters the window with the event that is let through. *)
Lemma window_step_in now e w f :
  f ∈ map fst (snd (window_step now e w)) ->
  f ∈ map fst w \/ fst (window_step now e w) = Ok true /\
    fingerprint_event_transient ahash e = inr f.
Proof.
  assert (Hw : forall f, f ∈ map fst (expire now ttl w) -> f ∈ map fst w).
  { intros x ([a b] & -> & Hin)%list_elem_of_fmap. apply list_elem_of_fmap.
    exists (a, b). split; [done|]. by apply expire_in in Hin. }
  unfold window_step. cbv zeta. destruct (event_is_identifiable e); simpl; [|auto].
  destruct (fingerprint_event_transient ahash e) as [err|x]; simpl; [auto|].
  case_bool_decide; simpl; [auto|].
  intros ([a b] & -> & Hin)%list_elem_of_fmap.
  apply keep_last_in, elem_of_app in Hin as [Hin|[= -> ->]%list_elem_of_singleton]; [left|by right].
  apply Hw, list_elem_of_fmap. by exists (a, b).
Qed.

Lemma window_run_suppresses l w i now e :
  l !! i = Some (now, e) -> fst (window_run l w) !! i = Some (Ok false) ->
  exists f, fingerprint_event_transient ahash e = inr f /\
    (f ∈ map fst w \/ exists j now' e', (j < i)%nat /\ l !! j = Some (now', e') /\
       fst (window_run l w) !! j = Some (Ok true) /\
       fingerprint_event_transient ahash e' = inr f).
Proof.
  revert w i. induction l as [|[t0 e0] l IH]; intros w i; [done|]. simpl window_run.
  pose proof (window_step_in t0 e0 w) as Hin.
  destruct (window_step t0 e0 w) as [r w1] eqn:Es. destruct (window_run l w1) as [rs w2] eqn:Er.
  destruct i as [|i]; simpl.
  - intros [= -> ->] [= ->]. unfold window_step in Es. cbv zeta in Es.
    destruct (event_is_identifiable e); simpl in Es; [|done].
    destruct (fingerprint_event_transient ahash e) as [err|f]; [done|].
    case_bool_decide as Hf; simplify_eq. exists f. split; [done|]. left.
    apply list_elem_of_fmap in Hf as ([a b] & -> & Hf). apply list_elem_of_fmap.
    exists (a, b). split; [done|]. by apply expire_in in Hf.
  - intros Hi Hr. destruct (IH w1 i Hi) as (f & Hfp & Hcase); [by rewrite Er|].
    exists f. split; [done|]. rewrite Er in Hcase. destruct Hcase as [Hf|(j & now' & e' & Hj & Hrest)].
    + destruct (Hin f Hf) as [|[Ht He]]; [by left|]. right. exists 0%nat, t0, e0.
      simpl in *. split_and!; [lia|done|by rewrite Ht|done].
    + right. exists (S j), now', e'. split; [lia|done].
Qed.

End Window.

(** A guard as the constructors build it. *)
Definition configured (cap : nat) (ttl : option Z) (g : EventIdempotencyGuard) : Prop :=
  match ttl with
  | None => guard_new cap = Ok g
  | Some t => exists g0, guard_new cap = Ok g0 /\ with_ttl_ms t g0 = Ok g
  end.

Lemma configured_represents cap ttl g :
  configured cap ttl g -> represents cap ttl g [] /\ (0 < cap)%nat.
Proof.
  assert (Hnew : forall g0, guard_new cap = Ok g0 -> represents cap None g0 [] /\ (0 < cap)%nat).
  { unfold guard_new. destruct (Nat.eqb_spec cap 0); intros ? [= <-].
    split; [|lia]. split_and!; simpl; try done; [constructor|lia]. }
  destruct ttl as [t|]; simpl; [|apply Hnew].
  intros (g0 & ((Hc & _ & Ho & Hr) & Hcap)%Hnew & Ht). split; [|done].
  unfold with_ttl_ms in Ht. destruct (t =? 0); simplify_eq.
  destruct Hr as (? & ? & ?). split_and!; simpl; done.
Qed.

(** C19: the guard is a bounded window.  From a guard built by its constructors, over any
    sequence of events and clock readings, eviction always ends, and the answers are those
    of a list of the last [cap] fingerprints let through, shortened from its old end by
    expiry: an identifiable event is suppressed exactly when its fingerprint is in that
    list.  The map and the queue never hold more than [cap] entries and never disagree. *)
Theorem guard_refines_window ahash cap ttl g fuel l :
  configured cap ttl g -> (1 <= fuel)%nat ->
  exists g', guard_run ahash fuel l g = Some (fst (window_run ahash cap ttl l []), g') /\
    order g' = snd (window_run ahash cap ttl l []) /\
    (length (order g') <= cap)%nat /\ size (seen g') = length (order g').
Proof.
  intros [Hg Hcap]%configured_represents Hfuel.
  destruct (guard_run_refines ahash cap ttl fuel l g [] Hg Hcap Hfuel)
    as (g' & Hrun & _ & _ & Ho & Hnd & Hl & Hs).
  exists g'. rewrite Ho, Hs. split_and!; try done. by apply size_seen.
Qed.

(** The guard suppresses only repeats: whenever it drops an event, an earlier event of
    the session with the same fingerprint was let through. *)
Theorem suppressed_was_let_through ahash cap ttl g fuel l rs g' i now e :
  configured cap ttl g -> (1 <= fuel)%nat ->
  guard_run ahash fuel l g = Some (rs, g') ->
  l !! i = Some (now, e) -> rs !! i = Some (Ok false) ->
  exists f j now' e', (j < i)%nat /\ l !! j = Some (now', e') /\ rs !! j = Some (Ok true) /\
    fingerprint_event_transient ahash e' = inr f /\ fingerprint_event_transient ahash e = inr f.
Proof.
  intros [Hg Hcap]%configured_represents Hfuel Hrun Hi Hr.
  destruct (guard_run_refines ahash cap ttl fuel l g [] Hg Hcap Hfuel) as (g2 & Hrun2 & _).
  rewrite Hrun in Hrun2. simplify_eq.
  destruct (window_run_suppresses ahash cap ttl l [] i now e Hi Hr)
    as (f & Hf & [?%elem_of_nil|(j & now' & e' & Hrest)]); [done|].
  exists f, j, now', e'. naive_solver.
Qed.

(** The schema of an event is not part of its fingerprint: a row of another schema's table
    of the same name, at the same offset and with the same key, is dropped as a repeat. *)
Lemma guard_conflates_schemas ahash cap g fuel e s now now' :
  configured cap None g -> (1 <= fuel)%nat ->
  event_is_identifiable e = true ->
  fingerprint_guard e = None ->
  let e' := {| Event.before := Event.before e; Event.after := Event.after e;
               Event.op := Event.op e; Event.source := Event.source e; Event.ts := Event.ts e;
               Event.schema := s; Event.table := Event.table e;
               Event.primary_key := Event.primary_key e; Event.snapshot := Event.snapshot e;
               Event.transaction := Event.transaction e;
               Event.envelope_version := Event.envelope_version e;
               Event.before_is_key_only := Event.before_is_key_only e;
               Event.unavailable_columns := Event.unavailable_columns e;
               Event.before_unavailable_columns := Event.before_unavailable_columns e |} in
  exists g', guard_run ahash fuel [(now, e); (now', e')] g = Some ([Ok true; Ok false], g').
Proof.
  intros [Hg Hcap]%configured_represents Hfuel Hid Hok e'.
  destruct (guard_run_refines ahash cap None fuel [(now, e); (now', e')] g [] Hg Hcap Hfuel)
    as (g' & Hrun & _).
  exists g'. rewrite Hrun. do 2 f_equal. simpl. unfold window_step at 1. simpl. rewrite Hid.
  unfold fingerprint_event_transient at 1. rewrite Hok. simpl.
  unfold window_step. simpl.
  assert (Hid' : event_is_identifiable e' = true) by exact Hid. rewrite Hid'.
  unfold fingerprint_event_transient, fingerprint_guard in *. simpl. rewrite Hok.
  rewrite bool_decide_true; [done|].
  apply list_elem_of_fmap. exists (ahash (transient_tokens e), now). split; [done|].
  destruct cap as [|[|cap]]; [lia|left|left].
Qed.

(** ** The stable fingerprint *)

Section Stable.
Context `{JsonLaws} (sha256 : list byte -> list byte).

(** An encoding whose end is determined by its content, on the values satisfying [P]. *)
Definition prefix_free {A} (P : A -> Prop) (enc : A -> list byte) : Prop :=
  forall a a' r r', P a -> P a' -> (enc a ++ r = enc a' ++ r')%list -> a = a' /\ r = r'.

Definition fits (w : nat) (n : Z) : Prop := 0 <= n < 256 ^ Z.of_nat w.

Lemma prefix_free_le w : prefix_free (fits w) (le_bytes w).
Proof.
  intros m n r r' Hm Hn E. apply app_inj_1 in E as [E ->]; [|by rewrite !length_le_bytes].
  split; [|done]. by apply le_bytes_inj in E.
Qed.

Definition framed (b : list byte) : list byte := (le_bytes 8 (Z.of_nat (length b)) ++ b)%list.

Lemma prefix_free_framed : prefix_free (fun b => fits 8 (Z.of_nat (length b))) framed.
Proof.
  intros b b' r r' Hb Hb' E. unfold framed in E. rewrite <-!app_assoc in E.
  apply prefix_free_le in E as [E1%Nat2Z.inj E2]; [|done..]. by apply app_inj_1 in E2.
Qed.

Definition short (s : string) : Prop := fits 8 (Z.of_nat (String.length s)).

Lemma update_str_framed s : update_str s = framed (list_byte_of_string s).
Proof.
  unfold update_str, framed. do 3 f_equal. induction s; simpl; [done|by f_equal].
Qed.

Lemma prefix_free_str : prefix_free short update_str.
Proof.
  intros s s' r r' Hs Hs' E. rewrite !update_str_framed in E.
  assert (Hl : forall s, length (list_byte_of_string s) = String.length s).
  { intros t. induction t; simpl; [done|by f_equal]. }
  apply prefix_free_framed in E as [E ->]; [|by rewrite Hl..].
  split; [|done]. by rewrite <-(string_of_list_byte_of_string s), E, string_of_list_byte_of_string.
Qed.

Lemma prefix_free_list {A} (P : A -> Prop) enc l l' r r' :
  prefix_free P enc -> length l = length l' -> Forall P l -> Forall P l' ->
  (flat_map enc l ++ r = flat_map enc l' ++ r')%list -> l = l' /\ r = r'.
Proof.
  intros Henc. revert l'. induction l as [|a l IH]; intros [|a' l']; try done.
  simpl. intros [= Hl] [Ha HF]%Forall_cons [Ha' HF']%Forall_cons E.
  rewrite <-!app_assoc in E. apply Henc in E as [-> E]; [|done..].
  by apply IH in E as [-> ->].
Qed.

(** A flag byte and, when it is set, a value. *)
Definition flagged {A} (enc : A -> list byte) (v : option A) : list byte :=
  match v with Some a => le_bytes 1 1 ++ enc a | None => le_bytes 1 0 end%list.

Lemma prefix_free_flagged {A} (P : A -> Prop) enc :
  prefix_free P enc -> prefix_free (fun v => forall a, v = Some a -> P a) (flagged enc).
Proof.
  intros Henc [a|] [a'|] r r' Ha Ha' E; simpl in E; simplify_eq; [|done].
  apply Henc in E as [-> ->]; auto.
Qed.

(** A payload the codec prints faithfully. *)
Definition payload_ok (v : json) : Prop :=
  exact v = true /\ normalize v = v /\ fits 8 (Z.of_nat (length (print_json v))).

Lemma prefix_free_payload :
  prefix_free (fun v => forall a, v = Some a -> payload_ok a) update_payload.
Proof.
  apply (prefix_free_flagged payload_ok (fun v => framed (print_json v))).
  intros v v' r r' (Hx & Hn & Hl) (Hx' & Hn' & Hl') E.
  apply prefix_free_framed in E as [E ->]; [|done..]. split; [|done].
  apply (f_equal parse_json) in E. rewrite !parse_print in E by done. congruence.
Qed.

Definition tx_bytes (t : Z * Z * Z) : list byte :=
  let '(id, index, total) := t in (le_bytes 8 id ++ le_bytes 4 index ++ le_bytes 4 total)%list.

Lemma prefix_free_tx :
  prefix_free (fun '(id, index, total) => fits 8 id /\ fits 4 index /\ fits 4 total) tx_bytes.
Proof.
  intros [[i x] t] [[i' x'] t'] r r' (?&?&?) (?&?&?) E. cbn [tx_bytes] in E.
  rewrite <-!app_assoc in E.
  apply prefix_free_le in E as [-> E]; [|done..].
  apply prefix_free_le in E as [-> E]; [|done..].
  by apply prefix_free_le in E as [-> ->].
Qed.

Definition keys_bytes (ks : list string) : list byte :=
  (le_bytes 8 (Z.of_nat (length ks)) ++ flat_map update_str ks)%list.

Lemma prefix_free_keys :
  prefix_free (fun ks => fits 8 (Z.of_nat (length ks)) /\ Forall short ks) keys_bytes.
Proof.
  intros ks ks' r r' [Hl HF] [Hl' HF'] E. unfold keys_bytes in E. rewrite <-!app_assoc in E.
  apply prefix_free_le in E as [E1%Nat2Z.inj E]; [|done..].
  by eapply prefix_free_list in E; [|apply prefix_free_str|..].
Qed.

(** What the digest identifies an event by. *)
Definition tx_view (e : Event) : option (Z * Z * Z) :=
  tx ← Event.transaction e;
  Some (Event.tx_id tx, Event.event_index tx, default 0 (Event.total_events tx)).

Definition identity (e : Event) : string * string * string * Event.Operation *
    list string * option (Z * Z * Z) * option json * option json :=
  (Event.source_name (Event.source e), Event.offset (Event.source e), Event.table e,
   Event.op e, default [] (Event.primary_key e), tx_view e, Event.before e, Event.after e).

(** Machine-width fields, lengths below [2^64], payloads printed faithfully. *)
Definition wf_event (e : Event) : Prop :=
  (short (Event.source_name (Event.source e)) /\ short (Event.offset (Event.source e)) /\
   short (Event.table e)) /\
  (fits 8 (Z.of_nat (length (default [] (Event.primary_key e)))) /\
   Forall short (default [] (Event.primary_key e))) /\
  (forall t, tx_view e = Some t ->
     let '(id, index, total) := t in fits 8 id /\ fits 4 index /\ fits 4 total) /\
  (forall v, Event.before e = Some v -> payload_ok v) /\
  (forall v, Event.after e = Some v -> payload_ok v).

Lemma stable_preimage_fields e :
  stable_preimage e =
  (list_byte_of_string "rustcdc/v1/fingerprint" ++ [Byte.x00] ++
   update_str (Event.source_name (Event.source e)) ++
   update_str (Event.offset (Event.source e)) ++ update_str (Event.table e) ++
   update_str (Event.to_str (Event.op e)) ++ keys_bytes (default [] (Event.primary_key e)) ++
   flagged tx_bytes (tx_view e) ++ update_payload (Event.before e) ++
   update_payload (Event.after e))%list.
Proof.
  unfold stable_preimage, tx_view. do 6 f_equal. f_equal.
  - by destruct (Event.primary_key e) as [ks|].
  - f_equal. by destruct (Event.transaction e) as [[id total index]|].
Qed.

Lemma short_op o : short (Event.to_str o).
Proof. by destruct o. Qed.

Lemma stable_preimage_inj e e' :
  wf_event e -> wf_event e' -> stable_preimage e = stable_preimage e' -> identity e = identity e'.
Proof.
  intros ((?&?&?) & Hk & Ht & Hb & Ha) ((?&?&?) & Hk' & Ht' & Hb' & Ha') E.
  rewrite !stable_preimage_fields in E.
  do 2 apply app_inv_head in E.
  do 3 (apply prefix_free_str in E as [? E]; [|done..]).
  apply prefix_free_str in E as [Hop E]; [|apply short_op..].
  apply prefix_free_keys in E as [? E]; [|done..].
  eapply prefix_free_flagged in E as [? E]; [|apply prefix_free_tx|done..].
  apply prefix_free_payload in E as [? E]; [|done..].
  rewrite <-(app_nil_r (update_payload (Event.after e))) in E.
  rewrite <-(app_nil_r (update_payload (Event.after e'))) in E.
  apply prefix_free_payload in E as [? _]; [|done..].
  apply (f_equal Event.from_str) in Hop. rewrite !Event.to_str_from_str in Hop.
  unfold identity. congruence.
Qed.

Lemma stable_preimage_identity e e' :
  identity e = identity e' -> stable_preimage e = stable_preimage e'.
Proof. unfold identity. intros. rewrite !stable_preimage_fields. by simplify_eq; simplify_option_eq; congruence. Qed.

(** The stable fingerprint identifies an event by exactly the fields it is documented
    to cover.  For two events with machine-width fields whose preimages do not collide under
    SHA-256, the digests are equal if and only if source name, offset, table, operation, key
    columns, transaction position and both payloads are: the length-prefixed encoding has no
    ambiguity, and an absent key or transaction size reads as an empty or zero one. *)
Theorem stable_fingerprint_iff e e' :
  wf_event e -> wf_event e' ->
  fingerprint_guard e = None -> fingerprint_guard e' = None ->
  (sha256 (stable_preimage e) = sha256 (stable_preimage e') ->
   stable_preimage e = stable_preimage e') ->
  fingerprint_event_stable sha256 e = fingerprint_event_stable sha256 e' <->
  identity e = identity e'.
Proof.
  intros He He' Hg Hg' Hcol. unfold fingerprint_event_stable. rewrite Hg, Hg'. split.
  - intros [= E%hex_inj]. by apply stable_preimage_inj; [..|apply Hcol].
  - intros E. by rewrite (stable_preimage_identity e e').
Qed.

End Stable.

(** ** A concrete session *)

(** A hasher that tells offsets apart by their length. *)
Definition sample_hash (ts : list Token) : Z :=
  match ts with _ :: TStr s :: _ => Z.of_nat (String.length s) | _ => 0 end.

Definition change (offset : string) : Event :=
  {| Event.before := None; Event.after := Some (JObj [("id", JNum (PosInt 1))]);
     Event.op := Event.Insert;
     Event.source := {| Event.source_name := "pg"; Event.offset := offset;
                        Event.timestamp := 1 |};
     Event.ts := 1; Event.schema := Some "public"; Event.table := "users";
     Event.primary_key := Some ["id"]; Event.snapshot := None; Event.transaction := None;
     Event.envelope_version := 1; Event.before_is_key_only := false;
     Event.unavailable_columns := []; Event.before_unavailable_columns := [] |}.

Definition sample_guard : EventIdempotencyGuard :=
  {| capacity := 2; ttl_ms := None; seen := ∅; order := []; evictions := 0;
     unidentifiable_passthrough := 0 |}.

(** The window holds two: the repeat of the second event is caught, that of the first is
    not, once a third has come in between. *)
Definition session : list (Z * Event) :=
  [(1, change "a"); (2, change "bb"); (3, change "bb"); (4, change "ccc"); (5, change "a")].

Lemma guard_refines_window_witness :
  fst (window_run sample_hash 2 None session []) = [Ok true; Ok true; Ok false; Ok true; Ok true] /\
  exists g', guard_run sample_hash 1 session sample_guard
      = Some (fst (window_run sample_hash 2 None session []), g') /\
    order g' = snd (window_run sample_hash 2 None session []) /\
    (length (order g') <= 2)%nat /\ size (seen g') = length (order g').
Proof.
  split; [vm_compute; reflexivity|].
  apply (guard_refines_window sample_hash 2 None sample_guard 1 session); [reflexivity|lia].
Defined.

Definition session_end : EventIdempotencyGuard :=
  match guard_run sample_hash 1 session sample_guard with Some (_, g) => g | None => sample_guard end.

Lemma suppressed_was_let_through_witness :
  exists f j now' e', (j < 2)%nat /\ session !! j = Some (now', e') /\
    [Ok true; Ok true; Ok false; Ok true; Ok true] !! j = Some (Ok true) /\
    fingerprint_event_transient sample_hash e' = inr f /\
    fingerprint_event_transient sample_hash (change "bb") = inr f.
Proof.
  apply (suppressed_was_let_through sample_hash 2 None sample_guard 1 session
    [Ok true; Ok true; Ok false; Ok true; Ok true] session_end 2 3 (change "bb")).
  - reflexivity.
  - lia.
  - vm_compute. reflexivity.
  - reflexivity.
  - reflexivity.
Defined.

(** A keyless insert without a transaction size, and its replay with the size filled in
    as zero and the key columns as an empty list. *)
Definition stable_event (keys : option (list string)) (total : option Z) : Event :=
  {| Event.before := None; Event.after := Some (JBool true); Event.op := Event.Insert;
     Event.source := {| Event.source_name := "pg"; Event.offset := "0/10";
                        Event.timestamp := 1 |};
     Event.ts := 1; Event.schema := Some "public"; Event.table := "users";
     Event.primary_key := keys; Event.snapshot := None;
     Event.transaction := Some {| Event.tx_id := 7; Event.total_events := total;
                                  Event.event_index := 3 |};
     Event.envelope_version := 1; Event.before_is_key_only := false;
     Event.unavailable_columns := []; Event.before_unavailable_columns := [] |}.

Lemma stable_event_wf keys total :
  keys ∈ [None; Some []; Some ["id"]] -> total ∈ [None; Some 0; Some 4] ->
  wf_event (H := RefCodec.codec) (stable_event keys total).
Proof.
  intros Hk Ht. unfold wf_event. split_and!; try done.
  - set_unfold in Hk. by destruct_or! Hk; subst.
  - set_unfold in Hk. destruct_or! Hk; subst; repeat constructor; done.
  - intros t [= <-]. set_unfold in Ht. by destruct_or! Ht; subst.
  - intros v [= <-]. split_and!; [done..|]. by vm_compute.
Qed.

Lemma stable_fingerprint_iff_witness :
  fingerprint_event_stable (H := RefCodec.codec) (fun b => b) (stable_event None None) =
  fingerprint_event_stable (H := RefCodec.codec) (fun b => b) (stable_event (Some []) (Some 0)) /\
  fingerprint_event_stable (H := RefCodec.codec) (fun b => b) (stable_event None None) <>
  fingerprint_event_stable (H := RefCodec.codec) (fun b => b) (stable_event (Some ["id"]) None).
Proof.
  split.
  - apply (stable_fingerprint_iff (H := RefCodec.codec) (H0 := RefCodec.laws) (fun b => b)
      (stable_event None None) (stable_event (Some []) (Some 0)));
      try done; apply stable_event_wf; set_solver.
  - intros E. apply (stable_fingerprint_iff (H := RefCodec.codec) (H0 := RefCodec.laws) (fun b => b)
      (stable_event None None) (stable_event (Some ["id"]) None)) in E;
      try done; apply stable_event_wf; set_solver.
Defined.

End Idempotency.
