(* ===== verification/Runtime.v ===== *)
(** * Runtime: delivery and acknowledgement

    Models the delivery half of [CdcRuntime]: the queue of source events, the cutting of
    batches, the commit barrier they are registered with, in-flight deliveries and ack
    tokens ([src/src/core/runtime.rs], [runtime/runtime_poll.rs],
    [runtime/runtime_commit.rs], [runtime_offsets.rs]).

    The stream and the bulk snapshot handle are type classes, as they are traits in the
    source; the checkpoint store is any instance of [Checkpoint].  Metrics, traces and log
    output are left out.  All connector features are on.  The clock is an argument of the
    operations that read it. *)

From S2P Require Import Prelude Errors CheckpointApi Strs Json Offsets Event Barrier Monad Driver.

Module Runtime.

Local Open Scope string_scope.
Local Open Scope Z_scope.

Abbreviation Event := Event.Event.

(** ** Offsets as text *)

(** [high << 32] drops the bits shifted out of the [u64]. *)
Definition parse_postgres_lsn (value : string) : Res Z :=
  match split_once "/" value with
  | None => Err (CheckpointError "invalid postgres LSN offset; expected HEX/HEX")
  | Some (high, low) =>
      match parse_hex_u64 high with
      | None => Err (CheckpointError "invalid postgres LSN high bits")
      | Some h =>
          match parse_hex_u64 low with
          | None => Err (CheckpointError "invalid postgres LSN low bits")
          | Some l => Ok (Z.lor (Z.shiftl h 32 mod u64_modulus) l)
          end
      end
  end.

(** [s.split_once(p)] for a string [p]. *)
Fixpoint split_once_str (p s : string) : option (string * string) :=
  if String.prefix p s then
    Some ("", String.substring (String.length p) (String.length s - String.length p) s)
  else
    match s with
    | "" => None
    | String a s' => '(l, r) ← split_once_str p s'; Some (String a l, r)
    end.

Definition parse_mysql_stream_offset (value : string) : Res (string * Z * string) :=
  match split_once ":" value with
  | None => Err (CheckpointError "invalid mysql offset; expected <binlog_file>:<binlog_pos>[#gtid=<gtid>]")
  | Some (file, rest) =>
      let '(position_part, gtid) := default (rest, "") (split_once_str "#gtid=" rest) in
      match parse_u32 position_part with
      | None => Err (CheckpointError "invalid mysql binlog position")
      | Some binlog_pos => Ok (file, binlog_pos, gtid)
      end
  end.

(** [normalize_source_timestamp_ms]: seconds and microseconds to milliseconds. *)
Definition normalize_source_timestamp_ms (raw : Z) : Z :=
  if raw <=? 4102444800 then Z.min (raw * 1000) u64_max
  else if 10000000000000 <=? raw then raw / 1000
  else raw.

(** ** Configuration *)

Inductive TransactionBoundaryPolicy := Split | PreserveTransactions.
Inductive PostCommitSourceConfirmPolicy := Continue | FailFast.

#[global] Instance TransactionBoundaryPolicy_eq_dec : EqDecision TransactionBoundaryPolicy.
Proof. solve_decision. Defined.

(** The part of [RuntimeOptions] the delivery half reads. *)
Record RuntimeOptions := {
  max_buffer_size : nat;
  post_commit_source_confirm_policy : PostCommitSourceConfirmPolicy;
  validate_events : bool;
  max_event_bytes : option Z;
  transaction_boundary : TransactionBoundaryPolicy;
}.

(** A connector's configuration, by what the runtime reads of it: the replication slot of
    PostgreSQL, the flavour's name of MySQL. *)
Inductive RuntimeSourceConfig :=
| Postgres (replication_slot_name : string)
| Mysql (flavor_source_type : string)
| MariaDb
| SqlServer
| Disabled.

Definition config_source_type (c : RuntimeSourceConfig) : option string :=
  match c with
  | Postgres _ => Some "postgres"
  | Mysql st => Some st
  | MariaDb => Some "mariadb"
  | SqlServer => Some "sqlserver"
  | Disabled => None
  end.

Record RuntimeConfig := {
  options : RuntimeOptions;
  source : RuntimeSourceConfig;
  incremental_snapshot : bool;  (* [incremental_snapshot.is_some()] *)
}.

(** ** Tokens and batches *)

Record AckToken := {
  tok_delivery_id : Z;
  event_count : nat;
  tok_epoch : Z;
}.

Inductive AckMode :=
| Required (token : AckToken)
| NotRequired.

Definition accept_prefix (accepted_count : nat) (t : AckToken) : Res AckToken :=
  if (accepted_count =? 0)%nat || (event_count t <? accepted_count)%nat then
    Err (CheckpointError "ack token prefix must be between 1 and the token length")
  else Ok {| tok_delivery_id := tok_delivery_id t; event_count := accepted_count;
             tok_epoch := tok_epoch t |}.

Record EventBatch := {
  shared_events : list Event;
  batch_offset : nat;
  ack_token : option AckToken;
}.

Definition empty_batch : EventBatch :=
  {| shared_events := []; batch_offset := 0; ack_token := None |}.

(** [events], and [into_events], which clones the same slice. *)
Definition batch_events (b : EventBatch) : list Event := drop (batch_offset b) (shared_events b).
Definition batch_is_empty (b : EventBatch) : bool :=
  (length (shared_events b) - batch_offset b =? 0)%nat.
Definition ack_mode (b : EventBatch) : AckMode :=
  match ack_token b with Some t => Required t | None => NotRequired end.

(** [IntoIterator for EventBatch] *)
Definition batch_into_iter (b : EventBatch) : list Event := shared_events b.

Record PendingDelivery := {
  delivery_id : Z;
  events : list Event;
  committed_prefix : nat;
  ack_epoch : Z;
}.

(** [SnapshotHandle::checkpoint]; it reaches the store through its methods only. *)
Class SnapshotHandle (SN : Type) := {
  snapshot_checkpoint : forall C, Checkpoint C -> SN -> Z -> M C unit;
}.

(** What is kept for reports only. *)
Record Stats := {
  last_poll_at_ms : option Z;
  last_source_event_ts_ms : option Z;
  last_commit_at_ms : option Z;
  last_checkpoint_saved_at_ms : option Z;
  total_events_polled : Z;
  total_events_committed : Z;
}.

(** ** The runtime *)

Record CdcRuntime (C SN I : Type) := {
  config : RuntimeConfig;
  injected_events : list Event;
  pending_source_events : list Event;
  buffered_events : list Event;
  delivered_not_committed : nat;
  next_delivery_id : Z;
  pending_delivery : option PendingDelivery;
  commit_barrier : Barrier.CommitBarrier;
  checkpoint : C;
  snapshot : option SN;
  stream : option I;
  pending_confirmation_lsn : option Z;
  unconfirmed_stall_polls : Z;
  stats : Stats;
}.
Arguments config {C SN I}. Arguments injected_events {C SN I}.
Arguments pending_source_events {C SN I}. Arguments buffered_events {C SN I}.
Arguments delivered_not_committed {C SN I}. Arguments next_delivery_id {C SN I}.
Arguments pending_delivery {C SN I}. Arguments commit_barrier {C SN I}.
Arguments checkpoint {C SN I}. Arguments snapshot {C SN I}. Arguments stream {C SN I}.
Arguments pending_confirmation_lsn {C SN I}. Arguments unconfirmed_stall_polls {C SN I}.
Arguments stats {C SN I}.

(** The number of bytes [estimate_event_bytes] counts for a payload: the text of a
    number, an array or an object is what the JSON printer writes. *)
Definition payload_len `{JsonCodec} (v : option json) : Z :=
  match v with
  | None => 0
  | Some JNull => 4
  | Some (JBool _) => 5
  | Some (JStr s) => Z.of_nat (String.length s) + 2
  | Some v => Z.of_nat (length (print_json v))
  end.

Definition estimate_event_bytes `{JsonCodec} (e : Event) : Z :=
  payload_len (Event.before e) + payload_len (Event.after e)
  + Z.of_nat (String.length (Event.table e))
  + from_option (fun s => Z.of_nat (String.length s)) 0 (Event.schema e)
  + Z.of_nat (String.length (Event.source_name (Event.source e)))
  + Z.of_nat (String.length (Event.offset (Event.source e)))
  + from_option (foldr (fun k n => Z.of_nat (String.length k) + n) 0) 0 (Event.primary_key e)
  + 128.

Definition same_tx (tx_id : Z) (e : Event) : bool :=
  match Event.transaction e with Some tx => Event.tx_id tx =? tx_id | None => false end.

(** [iter().rposition(p)] *)
Fixpoint rposition {A} (p : A -> bool) (l : list A) : option nat :=
  match l with
  | [] => None
  | a :: l' =>
      match rposition p l' with
      | Some i => Some (S i)
      | None => if p a then Some 0%nat else None
      end
  end.

Section Ops.
Context `{BuildProfile} `{JsonCodec} {C SN I : Type}.
Context `{Checkpoint C} `{SnapshotHandle SN} `{Driver.StreamHandle I}.

Abbreviation R := (CdcRuntime C SN I).

(** *** Updates *)

Definition with_queues (src buf : list Event) (r : R) : R :=
  {| config := config r; injected_events := injected_events r; pending_source_events := src;
     buffered_events := buf; delivered_not_committed := delivered_not_committed r;
     next_delivery_id := next_delivery_id r; pending_delivery := pending_delivery r;
     commit_barrier := commit_barrier r; checkpoint := checkpoint r; snapshot := snapshot r;
     stream := stream r; pending_confirmation_lsn := pending_confirmation_lsn r;
     unconfirmed_stall_polls := unconfirmed_stall_polls r; stats := stats r |}.

Definition with_injected (q : list Event) (r : R) : R :=
  {| config := config r; injected_events := q;
     pending_source_events := pending_source_events r;
     buffered_events := buffered_events r;
     delivered_not_committed := delivered_not_committed r;
     next_delivery_id := next_delivery_id r; pending_delivery := pending_delivery r;
     commit_barrier := commit_barrier r; checkpoint := checkpoint r; snapshot := snapshot r;
     stream := stream r; pending_confirmation_lsn := pending_confirmation_lsn r;
     unconfirmed_stall_polls := unconfirmed_stall_polls r; stats := stats r |}.

Definition with_delivery (n : nat) (id : Z) (p : option PendingDelivery) (s : Stats) (r : R) : R :=
  {| config := config r; injected_events := injected_events r;
     pending_source_events := pending_source_events r; buffered_events := buffered_events r;
     delivered_not_committed := n; next_delivery_id := id; pending_delivery := p;
     commit_barrier := commit_barrier r; checkpoint := checkpoint r; snapshot := snapshot r;
     stream := stream r; pending_confirmation_lsn := pending_confirmation_lsn r;
     unconfirmed_stall_polls := unconfirmed_stall_polls r; stats := s |}.

Definition with_barrier (b : Barrier.CommitBarrier) (c : C) (r : R) : R :=
  {| config := config r; injected_events := injected_events r;
     pending_source_events := pending_source_events r; buffered_events := buffered_events r;
     delivered_not_committed := delivered_not_committed r;
     next_delivery_id := next_delivery_id r; pending_delivery := pending_delivery r;
     commit_barrier := b; checkpoint := c; snapshot := snapshot r; stream := stream r;
     pending_confirmation_lsn := pending_confirmation_lsn r;
     unconfirmed_stall_polls := unconfirmed_stall_polls r; stats := stats r |}.

Definition with_stream (i : option I) (lsn : option Z) (stall : Z) (r : R) : R :=
  {| config := config r; injected_events := injected_events r;
     pending_source_events := pending_source_events r; buffered_events := buffered_events r;
     delivered_not_committed := delivered_not_committed r;
     next_delivery_id := next_delivery_id r; pending_delivery := pending_delivery r;
     commit_barrier := commit_barrier r; checkpoint := checkpoint r; snapshot := snapshot r;
     stream := i; pending_confirmation_lsn := lsn; unconfirmed_stall_polls := stall;
     stats := stats r |}.

(** Run a barrier operation, one that writes to the store, a store operation. *)
Definition on_barrier (f : Barrier.CommitBarrier -> Res unit * Barrier.CommitBarrier)
    : M R unit := fun r =>
  let '(res, b) := f (commit_barrier r) in (res, with_barrier b (checkpoint r) r).

Definition on_commit (f : Barrier.CommitBarrier -> C -> Res unit * Barrier.CommitBarrier * C)
    : M R unit := fun r =>
  let '(res, b, c) := f (commit_barrier r) (checkpoint r) in (res, with_barrier b c r).

Definition on_checkpoint (f : M C unit) : M R unit := fun r =>
  let '(res, c) := f (checkpoint r) in (res, with_barrier (commit_barrier r) c r).

(** [a - b] on [usize]. *)
Definition usize_sub (a b : nat) : Res nat :=
  match u64_sub (Z.of_nat a) (Z.of_nat b) with
  | Some n => Ok (Z.to_nat n)
  | None => Panic
  end.

(** *** Delivery *)

Definition resume_offset_for (r : R) (e : Event) : string :=
  default (Event.offset (Event.source e))
    (i ← stream r; Driver.resume_offset_for i e).

Definition build_checkpoint_offset (r : R) (e : Event) : Res DynOffset :=
  let source_type :=
    default (Event.source_name (Event.source e)) (config_source_type (source (config r))) in
  let snap := i ← stream r; Driver.incremental_snapshot_state i in
  let mysql :=
    parsed <-? parse_mysql_stream_offset (resume_offset_for r e);
    let '(binlog_file, binlog_pos, gtid) := parsed in
    let flavor := default "mysql" (config_source_type (source (config r))) in
    let offset := mysql_with_incremental_snapshot snap
      {| gtid := gtid; binlog_file := binlog_file; binlog_pos := binlog_pos;
         source_flavor := flavor; my_incremental_snapshot := None |} in
    bytes <-? encode (mysql_dyn offset);
    Ok (generic_dyn {| Offsets.source := source_type; bytes := bytes |}) in
  match source (config r) with
  | Postgres slot =>
      lsn <-? parse_postgres_lsn (resume_offset_for r e);
      let offset := postgres_with_incremental_snapshot snap
        {| lsn := lsn; slot_name := slot; pg_incremental_snapshot := None |} in
      bytes <-? encode (postgres_dyn offset);
      Ok (generic_dyn {| Offsets.source := "postgres"; bytes := bytes |})
  | Mysql _ | MariaDb => mysql
  | SqlServer =>
      let offset := sqlserver_with_incremental_snapshot snap
                      (sqlserver_new (resume_offset_for r e)) in
      bytes <-? encode (sqlserver_dyn offset);
      Ok (generic_dyn {| Offsets.source := "sqlserver"; bytes := bytes |})
  | Disabled =>
      Ok (generic_dyn {| Offsets.source := source_type;
                         bytes := list_byte_of_string (resume_offset_for r e) |})
  end.

Definition current_pending_batch (r : R) : Res (option EventBatch) :=
  match pending_delivery r with
  | None => Ok None
  | Some p =>
      uncommitted_len <-? usize_sub (length (events p)) (committed_prefix p);
      Ok (Some {| shared_events := events p; batch_offset := committed_prefix p;
                  ack_token := Some {| tok_delivery_id := delivery_id p;
                                       event_count := uncommitted_len;
                                       tok_epoch := ack_epoch p |} |})
  end.

(** The newest source timestamp seen. *)
Definition newest_ts (old : option Z) (es : list Event) : option Z :=
  match map (fun e => normalize_source_timestamp_ms (Event.timestamp (Event.source e))) es with
  | [] => old
  | t :: ts =>
      let latest := foldr Z.max t ts in
      Some (from_option (Z.max latest) latest old)
  end.

Definition deliver_buffered_batch (now : Z) : M R EventBatch := fun r =>
  let n := max_buffer_size (options (config r)) in
  let es := take n (buffered_events r) in
  let r1 := with_queues (pending_source_events r) (drop n (buffered_events r)) r in
  match es with
  | [] => (Ok empty_batch, r1)
  | _ =>
      let id := next_delivery_id r in
      let s := stats r in
      (Ok {| shared_events := es; batch_offset := 0;
             ack_token := Some {| tok_delivery_id := id; event_count := length es;
                                  tok_epoch := 0 |} |},
       with_delivery (delivered_not_committed r + length es) (saturating_add id 1)
         (Some {| delivery_id := id; events := es; committed_prefix := 0; ack_epoch := 0 |})
         {| last_poll_at_ms := Some now;
            last_source_event_ts_ms := newest_ts (last_source_event_ts_ms s) es;
            last_commit_at_ms := last_commit_at_ms s;
            last_checkpoint_saved_at_ms := last_checkpoint_saved_at_ms s;
            total_events_polled :=
              saturating_add (total_events_polled s) (Z.of_nat (length es));
            total_events_committed := total_events_committed s |} r1)
  end.

Definition push_buffered (e : Event) : M R unit :=
  modify (fun r => with_queues (pending_source_events r) (buffered_events r ++ [e])%list r).

(** One round of the loop of [buffer_and_deliver]. *)
Definition buffer_event (e : Event) : M R unit :=
  validate ← gets (fun r => validate_events (options (config r)));
  (if validate : bool then of_res (Event.validate_or_error e) else mret tt);;
  (match Event.snapshot e with
   | Some _ =>
       position ← gets (fun r =>
         match snapshot r with
         | None => i ← stream r; Driver.position_offset i
         | Some _ => None
         end);
       match position with
       | Some offset => on_barrier (Barrier.add_boxed_event offset)
       | None => on_barrier Barrier.add_non_persistent_event
       end
   | None =>
       built ← gets (fun r => build_checkpoint_offset r e);
       offset ← of_res built;
       on_barrier (Barrier.add_event offset)
   end);;
  push_buffered e.

Definition buffer_and_deliver (now : Z) (es : list Event) : M R EventBatch :=
  for_each es buffer_event;;
  deliver_buffered_batch now.

(** The transaction of the last event of a chunk, when it has one. *)
Definition last_tx (chunk : list Event) : option Event.TransactionMetadata :=
  e ← last chunk; Event.transaction e.

(** The transaction declared its size and this is its final event. *)
Definition declared_complete (tx : Event.TransactionMetadata) : bool :=
  match Event.total_events tx with
  | Some total => total <=? Driver.saturating_add_u32 (Event.event_index tx) 1
  | None => false
  end.

(** [trim_to_transaction_boundary]: the events of the chunk to deliver; the others go
    back to the front of the queue. *)
Definition trim_to_transaction_boundary (chunk : list Event) : M R (list Event) := fun r =>
  let requeue keep :=
    (Ok (take keep chunk),
     with_queues (drop keep chunk ++ pending_source_events r)%list (buffered_events r) r) in
  if bool_decide (transaction_boundary (options (config r)) <> PreserveTransactions) then
    (Ok chunk, r)
  else
    match last_tx chunk with
    | None => (Ok chunk, r)
    | Some tx =>
        if declared_complete tx then (Ok chunk, r)
        else if existsb (fun e => negb (same_tx (Event.tx_id tx) e)) (pending_source_events r)
        then (Ok chunk, r)
        else
          match rposition (fun e => negb (same_tx (Event.tx_id tx) e)) chunk with
          | Some index => requeue (index + 1)%nat
          | None =>
              if (max_buffer_size (options (config r)) <=? length chunk)%nat then (Ok chunk, r)
              else requeue 0%nat
          end
    end.

(** The cutting loop of [flush_pending_source_events]: the chunk and the queue left. *)
Fixpoint cut_chunk (available : nat) (max_bytes : option Z) (chunk : list Event)
    (chunk_bytes : Z) (queue : list Event) : list Event * list Event :=
  match queue with
  | [] => (chunk, [])
  | e :: queue' =>
      if (available <=? length chunk)%nat then (chunk, queue)
      else
        match max_bytes with
        | Some limit =>
            let total := saturating_add chunk_bytes (estimate_event_bytes e) in
            if negb (length chunk =? 0)%nat && (limit <? total) then (chunk, queue)
            else cut_chunk available max_bytes (chunk ++ [e])%list total queue'
        | None => cut_chunk available max_bytes (chunk ++ [e])%list chunk_bytes queue'
        end
  end.

Definition flush_pending_source_events (now : Z) : M R EventBatch := fun r =>
  match pending_source_events r with
  | [] => (Ok empty_batch, r)
  | _ =>
      let available := (max_buffer_size (options (config r))
                        - length (Barrier.pending_records (commit_barrier r)))%nat in
      if (available =? 0)%nat then
        (Err (Backpressure "runtime commit barrier is full; acknowledge the outstanding batch with commit_ack() before polling again."), r)
      else
        let '(chunk, queue) :=
          cut_chunk available (max_event_bytes (options (config r))) [] 0
            (pending_source_events r) in
        (chunk' ← trim_to_transaction_boundary chunk; buffer_and_deliver now chunk')
          (with_queues queue (buffered_events r) r)
  end.

Definition enqueue_pending_source_events (es : list Event) : M R unit :=
  modify (fun r => with_queues (pending_source_events r ++ es)%list (buffered_events r) r).

Definition enqueue_event (e : Event) : M R unit := fun r =>
  if (max_buffer_size (options (config r))
      <=? length (buffered_events r) + length (injected_events r))%nat then
    (Err (Backpressure "runtime buffer is full; poll and acknowledge the buffered events before enqueuing more"), r)
  else (Ok tt, with_injected (injected_events r ++ [e])%list r).

Definition retry_pending_confirmation : M R unit := fun r =>
  match pending_confirmation_lsn r, stream r with
  | Some lsn, Some i =>
      let '(res, i') := Driver.confirm_lsn lsn i in
      match res with
      | Ok _ => (Ok tt, with_stream (Some i') None 0 r)
      | Err _ => (Ok tt, with_stream (Some i') (Some lsn) (unconfirmed_stall_polls r) r)
      | Panic => (Panic, with_stream (Some i') (Some lsn) (unconfirmed_stall_polls r) r)
      end
  | _, _ => (Ok tt, r)
  end.

(** *** Acknowledgement *)

Definition pending_prefix_contains_snapshot_events (r : R) (count : nat) : bool :=
  match pending_delivery r with
  | None => false
  | Some p =>
      existsb (fun e => match Event.snapshot e with Some _ => true | None => false end)
        (take count (drop (committed_prefix p) (events p)))
  end.

Definition persist_snapshot_checkpoint_before_commit (count : nat) : M R unit := fun r =>
  if negb (pending_prefix_contains_snapshot_events r count) then (Ok tt, r)
  else
    match snapshot r with
    | None =>
        if incremental_snapshot (config r) then (Ok tt, r)
        else (Err (StateError "snapshot events are pending commit but snapshot handle is unavailable"), r)
    | Some sn =>
        let target_committed_count :=
          saturating_add (Barrier.committed_event_count (commit_barrier r)) (Z.of_nat count) in
        on_checkpoint (snapshot_checkpoint C _ sn target_committed_count) r
    end.

Definition committed_confirmation_lsn (r : R) (count : nat) : Res (option Z) :=
  match pending_delivery r with
  | None => Ok None
  | Some p =>
      remaining <-? usize_sub (length (events p)) (committed_prefix p);
      if (count =? 0)%nat || (remaining <? count)%nat then Ok None
      else
        match events p !! (committed_prefix p + count - 1)%nat with
        | None => Panic
        | Some last_committed =>
            match Event.snapshot last_committed with
            | Some _ => Ok None
            | None =>
                let is_postgres_event :=
                  eq_nocase (Event.source_name (Event.source last_committed)) "postgres" in
                let is_postgres_source :=
                  match source (config r) with Postgres _ => true | _ => false end in
                if negb is_postgres_event && negb is_postgres_source then Ok None
                else if negb (contains_char "/" (Event.offset (Event.source last_committed)))
                then Ok None
                else
                  lsn <-? parse_postgres_lsn (resume_offset_for r last_committed);
                  Ok (Some lsn)
            end
        end
  end.

(** Confirm a committed position to the source; the error is kept for the policy. *)
Definition confirm_committed (lsn : option Z) : M R (option Error) := fun r =>
  match lsn, stream r with
  | Some lsn, Some i =>
      let '(res, i') := Driver.confirm_lsn lsn i in
      match res with
      | Ok _ => (Ok None, with_stream (Some i') None 0 r)
      | Err e => (Ok (Some e), with_stream (Some i') (Some lsn) (unconfirmed_stall_polls r) r)
      | Panic => (Panic, with_stream (Some i') (pending_confirmation_lsn r)
                           (unconfirmed_stall_polls r) r)
      end
  | _, _ => (Ok None, r)
  end.

(** Account for [count] committed events. *)
Definition settle (now : Z) (count : nat) : M R unit := fun r =>
  match usize_sub (delivered_not_committed r) count with
  | Ok remaining =>
      let s := stats r in
      (Ok tt,
       with_delivery remaining (next_delivery_id r)
         (p ← pending_delivery r;
          if (length (events p) <=? committed_prefix p + count)%nat then None
          else Some {| delivery_id := delivery_id p; events := events p;
                       committed_prefix := committed_prefix p + count;
                       ack_epoch := saturating_add (ack_epoch p) 1 |})
         {| last_poll_at_ms := last_poll_at_ms s;
            last_source_event_ts_ms := last_source_event_ts_ms s;
            last_commit_at_ms := Some now;
            last_checkpoint_saved_at_ms := Some now;
            total_events_polled := total_events_polled s;
            total_events_committed :=
              saturating_add (total_events_committed s) (Z.of_nat count) |} r)
  | Err e => (Err e, r)
  | Panic => (Panic, r)
  end.

Definition commit_prefix (now : Z) (count : nat) : M R unit := fun r =>
  if (count =? 0)%nat then (Ok tt, r)
  else
    (pending_remaining ← of_res
       (match pending_delivery r with
        | Some p => usize_sub (length (events p)) (committed_prefix p)
        | None => Ok 0%nat
        end);
     if (delivered_not_committed r <? count)%nat || (pending_remaining <? count)%nat then
       throw (CheckpointError "cannot commit more events than were delivered")
     else
       persist_snapshot_checkpoint_before_commit count;;
       confirmation ← gets (fun r => committed_confirmation_lsn r count);
       confirmation_lsn ← of_res confirmation;
       on_commit (Barrier.accept_and_commit (Z.of_nat count));;
       failure ← confirm_committed confirmation_lsn;
       settle now count;;
       match failure, post_commit_source_confirm_policy (options (config r)) with
       | Some _, FailFast =>
           throw (PostCommitConfirmFailed true "stream confirm_lsn")
       | _, _ => mret tt
       end) r.

Definition commit_ack (now : Z) (mode : AckMode) : M R unit := fun r =>
  match mode with
  | NotRequired => (Ok tt, r)
  | Required token =>
      match pending_delivery r with
      | None =>
          (Err (CheckpointError "no in-flight batch is available for acknowledgement"), r)
      | Some p =>
          if negb (delivery_id p =? tok_delivery_id token) then
            (Err (CheckpointError "ack token does not match the current in-flight delivery"), r)
          else if negb (ack_epoch p =? tok_epoch token) then
            (Err (CheckpointError "this ack token has already been committed"), r)
          else commit_prefix now (event_count token) r
      end
  end.

End Ops.

Lemma usize_sub_le `{BuildProfile} a b : (b <= a)%nat -> usize_sub a b = Ok (a - b)%nat.
Proof.
  intros Hle. unfold usize_sub, u64_sub. destruct (Z.leb_spec (Z.of_nat b) (Z.of_nat a)); [|lia].
  f_equal. lia.
Qed.

End Runtime.
