(* ===== verification/RuntimeDelivery.v ===== *)
(** * RuntimeDelivery: at-least-once delivery

    Theorems about [Runtime]: over any session of polls and acknowledgements the events
    the stream handed out are, in order, committed, in flight, buffered or queued, and the
    saved checkpoint is the offset of the last committed event; an ack token commits its
    prefix once; the transaction-boundary policy does not keep its promise. *)

From S2P Require Import Prelude Errors CheckpointApi Strs Json Offsets Event Barrier Monad Driver DriverDelivery Runtime.

Module RuntimeDelivery.
Import Runtime.

Local Open Scope Z_scope.

(** What the runtime relies on of a stream besides [StreamLaws]: confirming a position
    returns and hands out nothing. *)
Class ConfirmLaws (I : Type) `{DriverDelivery.StreamLaws I} := {
  confirm_calm lsn i : fst (Driver.confirm_lsn lsn i) <> Panic;
  confirm_handed lsn i : DriverDelivery.handed (snd (Driver.confirm_lsn lsn i)) = DriverDelivery.handed i;
}.

(** ** Sessions *)

Section Sessions.
Context `{BuildProfile} `{JsonCodec} {C SN I : Type}.
Context `{Checkpoint C} `{SnapshotHandle SN} `{Driver.StreamHandle I}.
Abbreviation R := (CdcRuntime C SN I).

(** A poll of a runtime without transforms, duplicate guard, bulk snapshot and retry
    policy: the calls of [poll_event_batch], in its order. *)
Definition poll_source (now timeout : Z) : M R EventBatch := fun r =>
  match stream r with
  | None => (Ok empty_batch, r)
  | Some i =>
      let '(res, i') := Driver.next_events timeout i in
      let r' := with_stream (Some i') (pending_confirmation_lsn r) (unconfirmed_stall_polls r) r in
      match res with
      | Ok [] => (Ok empty_batch, r')
      | Ok es => (enqueue_pending_source_events es;; flush_pending_source_events now) r'
      | Err e => (Err e, r')
      | Panic => (Panic, r')
      end
  end.

Definition poll (now timeout : Z) : M R EventBatch :=
  current ← gets current_pending_batch;
  current ← of_res current;
  match current with
  | Some b => mret b
  | None =>
      retry_pending_confirmation;;
      buffered ← gets buffered_events;
      match buffered with
      | _ :: _ => deliver_buffered_batch now
      | [] =>
          queued ← gets pending_source_events;
          first ← (match queued with
                   | _ :: _ => flush_pending_source_events now
                   | [] => mret empty_batch
                   end);
          if negb (batch_is_empty first) then mret first else poll_source now timeout
      end
  end.

Inductive Action :=
| Poll (now timeout : Z)
| Ack (now : Z) (mode : AckMode).

Definition act (a : Action) (r : R) : Res unit * R :=
  match a with
  | Poll now timeout => (poll now timeout;; mret tt) r
  | Ack now mode => commit_ack now mode r
  end.

Fixpoint session (l : list Action) (r : R) : list (Res unit) * R :=
  match l with
  | [] => ([], r)
  | a :: l' =>
      let '(res, r1) := act a r in
      let '(rs, r2) := session l' r1 in (res :: rs, r2)
  end.

(** The events delivered and not committed. *)
Definition in_flight (r : R) : list Event :=
  match pending_delivery r with
  | Some p => drop (committed_prefix p) (events p)
  | None => []
  end.

End Sessions.

(** ** Lists *)

Lemma cut_chunk_spec `{JsonCodec} available limit chunk bytes queue chunk' queue' :
  (length chunk <= available)%nat ->
  cut_chunk available limit chunk bytes queue = (chunk', queue') ->
  (chunk' ++ queue' = chunk ++ queue)%list /\ (length chunk' <= available)%nat.
Proof.
  revert chunk bytes. induction queue as [|e queue IH]; intros chunk bytes Hl; simpl.
  - by intros [= <- <-].
  - destruct (Nat.leb_spec available (length chunk)); [by intros [= <- <-]|].
    destruct limit as [limit|]; [case_match; [by intros [= <- <-]|]|].
    all: intros E; apply IH in E as [E ?]; [|rewrite length_app; simpl; lia].
    all: by rewrite E, <-app_assoc.
Qed.

(** ** A frame rule

    A property of the runtime that survives the moving of events between queues, barrier
    and store writes, stream calls, a delivery and a settlement survives every action. *)

Section Frame.
Context `{BuildProfile} `{JsonCodec} {C SN I : Type}.
Context `{Checkpoint C} `{SnapshotHandle SN} `{Driver.StreamHandle I}.
Abbreviation R := (CdcRuntime C SN I).

Variable P : R -> Prop.
Hypothesis P_queues : forall src buf r, P r -> P (with_queues src buf r).
Hypothesis P_barrier : forall b r, P r -> P (with_barrier b (checkpoint r) r).
Hypothesis P_store : forall b c r, P r -> P (with_barrier b c r).
Hypothesis P_confirm : forall r i lsn l st, stream r = Some i -> P r ->
  P (with_stream (Some (snd (Driver.confirm_lsn lsn i))) l st r).
Hypothesis P_next : forall r i t l st, stream r = Some i -> P r ->
  P (with_stream (Some (snd (Driver.next_events t i))) l st r).
Hypothesis P_deliver : forall now, keeps P (deliver_buffered_batch now).
Hypothesis P_settle : forall now n, keeps P (settle now n).

Lemma frame_barrier f : keeps P (on_barrier f).
Proof. intros r Hr. unfold on_barrier. destruct (f _). by apply P_barrier. Qed.
Lemma frame_commit f : keeps P (on_commit f).
Proof. intros r Hr. unfold on_commit. destruct (f _ _) as [[]]. by apply P_store. Qed.
Lemma frame_push e : keeps P (push_buffered e).
Proof. intros r Hr. by apply P_queues. Qed.
Lemma frame_enqueue es : keeps P (enqueue_pending_source_events es).
Proof. intros r Hr. by apply P_queues. Qed.
Lemma frame_trim chunk : keeps P (trim_to_transaction_boundary chunk).
Proof. intros r Hr. unfold trim_to_transaction_boundary. repeat case_match; try done; by apply P_queues. Qed.
Lemma frame_persist n : keeps P (persist_snapshot_checkpoint_before_commit n).
Proof.
  intros r Hr. unfold persist_snapshot_checkpoint_before_commit, on_checkpoint.
  destruct (negb _); [done|]. destruct (snapshot r) as [sn|]; [|by destruct (incremental_snapshot _)].
  destruct (snapshot_checkpoint _ _ _ _ _). by apply P_store.
Qed.
Hint Resolve frame_barrier frame_commit frame_push frame_enqueue frame_trim frame_persist
  P_deliver P_settle : io.

Lemma frame_buffer e : keeps P (buffer_event e).
Proof.
  unfold buffer_event. monad_auto; [case_match; monad_auto|].
  case_match; monad_auto. case_match; monad_auto.
Qed.
Lemma frame_buffers now es : keeps P (buffer_and_deliver now es).
Proof. unfold buffer_and_deliver. monad_auto. apply keeps_for_each, frame_buffer. Qed.
Lemma frame_flush now : keeps P (flush_pending_source_events now).
Proof.
  intros r Hr. unfold flush_pending_source_events. repeat case_match; try done.
  assert (Hk : keeps P (chunk' ← trim_to_transaction_boundary l0; buffer_and_deliver now chunk')).
  { apply keeps_bind; [apply frame_trim|apply frame_buffers]. }
  by apply Hk, P_queues.
Qed.

Lemma frame_retry : keeps P retry_pending_confirmation.
Proof.
  intros r Hr. unfold retry_pending_confirmation.
  destruct (pending_confirmation_lsn r) as [lsn|]; [|done]. destruct (stream r) as [i|] eqn:Es; [|done].
  pose proof (fun l st => P_confirm r i lsn l st Es Hr) as Hp.
  destruct (Driver.confirm_lsn lsn i) as [[] i']; apply Hp.
Qed.
Lemma frame_confirm lsn : keeps P (confirm_committed lsn).
Proof.
  intros r Hr. unfold confirm_committed.
  destruct lsn as [lsn|]; [|done]. destruct (stream r) as [i|] eqn:Es; [|done].
  pose proof (fun l st => P_confirm r i lsn l st Es Hr) as Hp.
  destruct (Driver.confirm_lsn lsn i) as [[] i']; apply Hp.
Qed.
Hint Resolve frame_flush frame_retry frame_confirm : io.

Lemma frame_source now t : keeps P (poll_source now t).
Proof.
  intros r Hr. unfold poll_source. destruct (stream r) as [i|] eqn:Es; [|done].
  pose proof (P_next r i t (pending_confirmation_lsn r) (unconfirmed_stall_polls r) Es Hr) as Hp.
  destruct (Driver.next_events t i) as [[es|e|] i']; [|done..]. destruct es; [done|].
  revert Hp. apply keeps_bind; monad_auto.
Qed.
Hint Resolve frame_source : io.

Lemma frame_commit_prefix now n : keeps P (commit_prefix now n).
Proof.
  intros r Hr. unfold commit_prefix. destruct (n =? 0)%nat; [done|].
  match goal with |- context [snd ((?m ≫= ?k) r)] =>
    enough (Hk : keeps P (m ≫= k)) by exact (Hk r Hr) end.
  monad_auto. case_match; monad_auto. repeat case_match; monad_auto.
Qed.

Lemma frame_act a : keeps P (act a).
Proof.
  destruct a as [now t|now mode]; unfold act.
  - apply keeps_bind; [|monad_auto]. unfold poll. monad_auto. case_match; monad_auto.
    case_match; monad_auto; [|case_match; monad_auto]. case_match; monad_auto.
  - intros r Hr. unfold commit_ack. repeat case_match; try done. by apply frame_commit_prefix.
Qed.

Lemma frame_session l (r : R) : P r -> P (snd (session l r)).
Proof.
  revert r. induction l as [|a l IH]; intros r Hr; simpl; [done|].
  pose proof (frame_act a r Hr) as Hg. destruct (act a r) as [res r1]. simpl in Hg.
  specialize (IH r1 Hg). by destruct (session l r1).
Qed.

End Frame.

(** *** The stream only hands out more *)

Section Stream.
Context `{BuildProfile} `{JsonCodec} {C SN I : Type}.
Context `{Checkpoint C} `{SnapshotHandle SN} `{DriverDelivery.StreamLaws I} `{!ConfirmLaws I}.
Abbreviation R := (CdcRuntime C SN I).

Definition handed_of (r : R) : list Event := from_option DriverDelivery.handed [] (stream r).

Lemma grown_session h l (r : R) :
  h `prefix_of` handed_of r -> h `prefix_of` handed_of (snd (session l r)).
Proof.
  apply (frame_session (fun r => h `prefix_of` handed_of r)); unfold handed_of; try done.
  - intros r0 i lsn ? ? ->. simpl. by rewrite confirm_handed.
  - intros r0 i t ? ? ->. simpl. pose proof (DriverDelivery.next_calm t i) as Hc.
    destruct (Driver.next_events t i) as [[es|e|] i'] eqn:En; [| |done]; simpl.
    + rewrite (DriverDelivery.next_ok _ _ _ _ En). apply prefix_app_r.
    + by rewrite (DriverDelivery.next_err _ _ _ _ En).
  - intros now r0 Hr. unfold deliver_buffered_batch. by destruct (take _ _).
  - intros now n r0 Hr. unfold settle. by destruct (usize_sub _ _).
Qed.

End Stream.

Section Invariant.
Context `{BuildProfile} `{JsonCodec} {C SN I : Type}.
Context `{Checkpoint C} `{SnapshotHandle SN} `{DriverDelivery.StreamLaws I} `{!ConfirmLaws I}.
Abbreviation R := (CdcRuntime (Journal C) SN I).
Implicit Types r : R.

Hypothesis save_no_panic : forall o n (c : C), fst (save o n c) <> Panic.

Variable cfg : RuntimeConfig.

(** The barrier holds for an event of the log the offset built from it. *)
Definition registered (e : Event) (o : option DynOffset) : Prop :=
  Event.snapshot e = None ->
  exists r d, config r = cfg /\ build_checkpoint_offset r e = Ok d /\ o = Some d.

(** An event [buffer_and_deliver] accepts. *)
Definition acceptable (e : Event) : Prop :=
  (validate_events (options cfg) = true -> Event.validate_or_error e = Ok tt) /\
  (Event.snapshot e = None -> forall r, config r = cfg ->
     exists d, build_checkpoint_offset r e = Ok d).

(** [flow] is every event that entered the runtime, [K] what has been committed, [L] the
    barrier's ledger, [rest] what still has to go
    through the barrier. *)
Record inv (base : Z) (flow K : list Event) (L : Barrier.Ledger) (rest : list Event) r : Prop := {
  inv_config : config r = cfg;
  inv_snapshot : snapshot r = None;
  inv_flow : flow = (K ++ in_flight r ++ buffered_events r ++ rest)%list;
  inv_rest : Forall acceptable rest;
  inv_ledger : Barrier.ledger_refines base L (commit_barrier r) (checkpoint r);
  inv_acked : Barrier.acked L = length K;
  inv_committed : Barrier.committed L = length K;
  inv_records : Forall2 registered (K ++ in_flight r ++ buffered_events r) (Barrier.delivered L);
  inv_cap : Barrier.max_buffer_size (commit_barrier r) = max_buffer_size (options cfg);
  inv_count : delivered_not_committed r = length (in_flight r);
  inv_pending : forall p, pending_delivery r = Some p -> (committed_prefix p < length (events p))%nat;
}.

(** The number of records in the barrier. *)
Lemma inv_room base F K L rest r :
  inv base F K L rest r ->
  length (Barrier.pending_records (commit_barrier r)) =
    (length (in_flight r) + length (buffered_events r))%nat.
Proof.
  intros Hi. pose proof (Barrier.lr_pending _ _ _ _ (inv_ledger _ _ _ _ _ _ Hi)) as Hp.
  pose proof (Forall2_length _ _ _ (inv_records _ _ _ _ _ _ Hi)) as Hl. rewrite Hp.
  rewrite Barrier.length_recs, length_drop, (inv_committed _ _ _ _ _ _ Hi), <-Hl.
  rewrite !length_app. lia.
Qed.

(** *** Buffering *)

(** What [buffer_event] does to an acceptable event. *)
Lemma buffer_event_eq e r :
  config r = cfg -> acceptable e ->
  exists o, registered e o /\
    buffer_event e r = (on_barrier (Barrier.push_record o);; push_buffered e) r.
Proof.
  intros Hc [Hv Ho]. unfold buffer_event. rewrite bind_eq. unfold gets at 1. cbv beta iota.
  assert (Hval : (if validate_events (options (config r)) then
    of_res (Event.validate_or_error e) else mret tt) r = (Ok tt, r)).
  { rewrite Hc. destruct (validate_events (options cfg)); [|done].
    unfold of_res. by rewrite Hv. }
  rewrite (bind_ok _ _ _ _ _ Hval).
  destruct (Event.snapshot e) as [sm|] eqn:Es.
  - rewrite !bind_eq. unfold gets. cbv beta iota.
    assert (Hreg : forall o, registered e o) by (intros o ?; congruence).
    destruct (snapshot r) as [s|]; [by exists None|].
    destruct (stream r) as [i|]; simpl; [|by exists None].
    destruct (Driver.position_offset i) as [o|]; [by exists (Some o)|by exists None].
  - destruct (Ho eq_refl r Hc) as [d Hd]. exists (Some d).
    split; [intros _; by exists r, d|]. rewrite !bind_eq. unfold gets. cbv beta iota.
    rewrite !bind_eq. unfold of_res. rewrite Hd. done.
Qed.

Lemma push_room base L b (j : Journal C) o :
  Barrier.ledger_refines base L b j ->
  (length (Barrier.pending_records b) < Barrier.max_buffer_size b)%nat ->
  exists b', Barrier.push_record o b = (Ok tt, b') /\
    Barrier.max_buffer_size b' = Barrier.max_buffer_size b.
Proof.
  intros R Hl. unfold Barrier.push_record.
  rewrite bool_decide_false by apply (Barrier.lr_flushing _ _ _ _ R).
  destruct (Nat.leb_spec (Barrier.max_buffer_size b) (length (Barrier.pending_records b))); [lia|].
  by eexists.
Qed.

Lemma buffer_event_inv base F K L e rest r :
  inv base F K L (e :: rest) r ->
  (length (Barrier.pending_records (commit_barrier r)) < max_buffer_size (options cfg))%nat ->
  exists L' r', buffer_event e r = (Ok tt, r') /\ inv base F K L' rest r' /\
    pending_delivery r' = pending_delivery r /\
    pending_source_events r' = pending_source_events r /\
    buffered_events r' = (buffered_events r ++ [e])%list /\ stream r' = stream r.
Proof.
  intros Hi Hl. pose proof Hi as [Hc Hs Hh Hr HL Ha Hcm Hrec Hcap Hn Hp].
  apply Forall_cons in Hr as [He Hr].
  destruct (buffer_event_eq e r Hc He) as (o & Ho & ->).
  destruct (push_room _ _ _ _ o HL) as (b' & Hb & Hb'); [by rewrite Hcap|].
  pose proof (Barrier.push_refines _ _ _ _ _ _ _ HL Hb) as HL'. simpl in HL'.
  exists (Barrier.ledger_step L (Barrier.Deliver o, true)). eexists.
  rewrite bind_eq. unfold on_barrier. rewrite Hb. unfold push_buffered, modify. split; [done|].
  split; [|done]. split; simpl; try done.
  - unfold in_flight in *. simpl. rewrite Hh. by rewrite <-!app_assoc.
  - unfold in_flight in *. simpl. rewrite !app_assoc. rewrite app_assoc in Hrec.
    apply Forall2_app; [done|]. by constructor.
  - congruence.
Qed.

Lemma buffer_all_inv base F K L es rest r :
  inv base F K L (es ++ rest) r ->
  (length (Barrier.pending_records (commit_barrier r)) + length es
     <= max_buffer_size (options cfg))%nat ->
  exists L' r', for_each es buffer_event r = (Ok tt, r') /\ inv base F K L' rest r' /\
    pending_delivery r' = pending_delivery r /\
    pending_source_events r' = pending_source_events r /\
    buffered_events r' = (buffered_events r ++ es)%list /\ stream r' = stream r.
Proof.
  revert L r. induction es as [|e es IH]; intros L r Hi Hl; simpl in *.
  { exists L, r. by rewrite app_nil_r. }
  destruct (buffer_event_inv _ _ _ _ _ _ _ Hi) as (L1 & r1 & E1 & Hi1 & Hp1 & Hq1 & Hb1 & Hs1); [lia|].
  destruct (IH L1 r1 Hi1) as (L2 & r2 & E2 & Hi2 & Hp2 & Hq2 & Hb2 & Hs2).
  { rewrite (inv_room _ _ _ _ _ _ Hi1), Hb1, length_app. rewrite (inv_room _ _ _ _ _ _ Hi) in Hl.
    unfold in_flight in *. rewrite Hp1. simpl. lia. }
  exists L2, r2. rewrite (bind_ok _ _ _ _ _ E1). split; [done|]. split; [done|].
  rewrite Hp2, Hq2, Hb2, Hs2, Hb1, <-app_assoc. auto.
Qed.

(** *** Delivering *)

Lemma deliver_inv base F K L now r :
  inv base F K L (pending_source_events r) r -> pending_delivery r = None ->
  exists b r', deliver_buffered_batch now r = (Ok b, r') /\
    inv base F K L (pending_source_events r') r' /\ batch_events b = in_flight r' /\
    stream r' = stream r /\
    buffered_events r' = drop (max_buffer_size (options cfg)) (buffered_events r).
Proof.
  intros Hi Hnone. pose proof Hi as [Hc Hs Hh Hr HL Ha Hcm Hrec Hcap Hn Hp].
  unfold in_flight in *. rewrite Hnone in *. simpl in *.
  unfold deliver_buffered_batch. rewrite Hc.
  destruct (take _ (buffered_events r)) as [|e es] eqn:Et.
  - eexists _, _. split; [done|]. simpl. split; [|by rewrite Hnone].
    assert (Hd : drop (max_buffer_size (options cfg)) (buffered_events r) = buffered_events r).
    { rewrite <-(take_drop (max_buffer_size (options cfg)) (buffered_events r)) at 2.
      by rewrite Et. }
    split; simpl; unfold in_flight in *; simpl; rewrite ?Hnone, ?Hd; done.
  - eexists _, _. split; [done|]. simpl. split; [|done].
    assert (Hb : buffered_events r = ((e :: es) ++ drop (max_buffer_size (options cfg)) (buffered_events r))%list).
    { by rewrite <-Et, take_drop. }
    split; simpl; unfold in_flight in *; simpl; try done.
    + rewrite Hh. rewrite Hb at 1. by rewrite <-app_assoc.
    + by rewrite Hb in Hrec.
    + rewrite Hn. done.
    + intros p [= <-]. simpl. lia.
Qed.

(** *** Cutting *)

Lemma trim_spec chunk r :
  exists keep queue, trim_to_transaction_boundary chunk r =
      (Ok keep, with_queues queue (buffered_events r) r) /\
    (keep ++ queue = chunk ++ pending_source_events r)%list /\ (length keep <= length chunk)%nat.
Proof.
  assert (Hid : with_queues (pending_source_events r) (buffered_events r) r = r) by by destruct r.
  assert (Hall : exists keep queue,
    (Ok chunk, r) = (Ok keep, with_queues queue (buffered_events r) r) /\
    (keep ++ queue = chunk ++ pending_source_events r)%list /\ (length keep <= length chunk)%nat).
  { exists chunk, (pending_source_events r). by rewrite Hid. }
  assert (Hcut : forall k, exists keep queue,
    (Ok (take k chunk), with_queues (drop k chunk ++ pending_source_events r)%list (buffered_events r) r)
      = (Ok keep, with_queues queue (buffered_events r) r) /\
    (keep ++ queue = chunk ++ pending_source_events r)%list /\ (length keep <= length chunk)%nat).
  { intros k. eexists _, _. split; [done|]. rewrite app_assoc, take_drop, length_take. split; [done|lia]. }
  unfold trim_to_transaction_boundary. repeat case_match; auto.
Qed.

Lemma inv_requeue base F K L rest src r :
  inv base F K L rest r -> inv base F K L rest (with_queues src (buffered_events r) r).
Proof. by intros []; split. Qed.

Lemma in_flight_nil base F K L rest r :
  inv base F K L rest r -> in_flight r = [] -> pending_delivery r = None.
Proof.
  intros Hi. unfold in_flight. destruct (pending_delivery r) as [p|] eqn:Ep; [|done].
  intros Hd%(f_equal length). rewrite length_drop in Hd. simpl in Hd.
  pose proof (inv_pending _ _ _ _ _ _ Hi p Ep). lia.
Qed.

Hypothesis buffer_nonzero : (0 < max_buffer_size (options cfg))%nat.

Lemma flush_inv base F K L now r :
  inv base F K L (pending_source_events r) r -> pending_delivery r = None -> buffered_events r = [] ->
  exists b L' r', flush_pending_source_events now r = (Ok b, r') /\
    inv base F K L' (pending_source_events r') r' /\ batch_events b = in_flight r' /\
    stream r' = stream r /\ buffered_events r' = [].
Proof.
  intros Hi Hnone Hbuf. unfold flush_pending_source_events.
  destruct (pending_source_events r) as [|e q] eqn:Eq.
  { exists empty_batch, L, r. rewrite Eq. unfold in_flight. by rewrite Hnone. }
  rewrite <-Eq in *. pose proof (inv_room _ _ _ _ _ _ Hi) as Hroom.
  unfold in_flight in Hroom. rewrite Hnone, Hbuf in Hroom. simpl in Hroom.
  rewrite Hroom, Nat.sub_0_r, (inv_config _ _ _ _ _ _ Hi).
  destruct (Nat.eqb_spec (max_buffer_size (options cfg)) 0); [lia|].
  destruct (cut_chunk _ _ _ _ _) as [chunk queue] eqn:Ecut.
  apply cut_chunk_spec in Ecut as [Hcut Hlen]; [|simpl; lia]. simpl in Hcut.
  set (r1 := with_queues queue (buffered_events r) r).
  assert (Hi1 : inv base F K L (chunk ++ pending_source_events r1) r1).
  { simpl. rewrite Hcut. by apply inv_requeue. }
  destruct (trim_spec chunk r1) as (keep & queue' & Et & Hkeep & Hle).
  rewrite (bind_ok _ _ _ _ _ Et). rewrite <-Hkeep in Hi1.
  set (r2 := with_queues queue' (buffered_events r1) r1) in *.
  assert (Hi2 : inv base F K L (keep ++ pending_source_events r2) r2) by by apply inv_requeue.
  destruct (buffer_all_inv _ _ _ _ _ _ _ Hi2) as (L3 & r3 & E3 & Hi3 & Hp3 & Hq3 & Hb3 & Hs3).
  { simpl. rewrite Hroom. lia. }
  unfold buffer_and_deliver. rewrite (bind_ok _ _ _ _ _ E3). rewrite <-Hq3 in Hi3.
  destruct (deliver_inv _ _ _ _ now _ Hi3) as (b & r4 & E4 & Hi4 & Hb4 & Hs4 & Hd4); [by rewrite Hp3|].
  exists b, L3, r4. split_and!; try done; [by rewrite Hs4, Hs3|].
  rewrite Hd4, Hb3. simpl. rewrite Hbuf. apply drop_ge. simpl. lia.
Qed.

(** *** Polling *)

Hypothesis stream_acceptable : forall t i es i',
  Driver.next_events t i = (Ok es, i') -> Forall acceptable es.

(** A new stream state that has handed out [es] more. *)
Lemma inv_stream base F K L rest r i lsn stall es :
  inv base F K L rest r -> Forall acceptable es ->
  inv base (F ++ es) K L (rest ++ es) (with_stream i lsn stall r).
Proof.
  intros [] Hes. split; try done.
  - unfold in_flight. simpl. rewrite inv_flow0. by rewrite <-!app_assoc.
  - by apply Forall_app.
Qed.

Lemma retry_inv base F K L rest r :
  inv base F K L rest r ->
  exists r', retry_pending_confirmation r = (Ok tt, r') /\ inv base F K L rest r' /\
    handed_of r' = handed_of r /\ pending_delivery r' = pending_delivery r /\
    buffered_events r' = buffered_events r /\ pending_source_events r' = pending_source_events r.
Proof.
  intros Hi. unfold retry_pending_confirmation.
  destruct (pending_confirmation_lsn r) as [lsn|]; [|by exists r].
  destruct (stream r) as [i|] eqn:Es; [|by exists r].
  pose proof (confirm_calm lsn i) as Hc. pose proof (confirm_handed lsn i) as Hh.
  destruct (Driver.confirm_lsn lsn i) as [[u|e|] i']; simpl in *; [| |done].
  all: eexists; split; [done|]; split; [|unfold handed_of; by rewrite Es].
  all: rewrite <-(app_nil_r rest), <-(app_nil_r F); by apply inv_stream.
Qed.

Lemma batch_empty_iff b : batch_is_empty b = true <-> batch_events b = [].
Proof.
  unfold batch_is_empty, batch_events. rewrite Nat.eqb_eq, <-length_drop. apply length_zero_iff_nil.
Qed.

(** New events join the queue, and a batch is cut from it. *)
Lemma enqueue_flush_inv base F K L now es r :
  inv base F K L (pending_source_events r) r -> Forall acceptable es ->
  pending_delivery r = None -> buffered_events r = [] ->
  exists b L' r', (enqueue_pending_source_events es;; flush_pending_source_events now) r = (Ok b, r') /\
    inv base (F ++ es) K L' (pending_source_events r') r' /\ batch_events b = in_flight r' /\
    stream r' = stream r /\ buffered_events r' = [].
Proof.
  intros Hi Hes Hnone Hbuf.
  set (r2 := with_queues (pending_source_events r ++ es)%list (buffered_events r) r).
  assert (Hi2 : inv base (F ++ es) K L (pending_source_events r2) r2).
  { pose proof (inv_stream _ _ _ _ _ _ (stream r) (pending_confirmation_lsn r)
      (unconfirmed_stall_polls r) es Hi Hes) as Hi2.
    replace (with_stream _ _ _ r) with r in Hi2 by by destruct r. by apply inv_requeue. }
  by destruct (flush_inv _ _ _ _ now r2 Hi2) as (b & L' & r' & E & Hi' & Hb & Hs & Hb'); [done..|exists b, L', r'].
Qed.

Lemma poll_source_inv base F K L now t r :
  inv base F K L (pending_source_events r) r -> pending_delivery r = None -> buffered_events r = [] ->
  exists es L' res r', poll_source now t r = (res, r') /\ res <> Panic /\
    inv base (F ++ es) K L' (pending_source_events r') r' /\
    (forall b, res = Ok b -> batch_events b = in_flight r') /\
    handed_of r' = (handed_of r ++ es)%list.
Proof.
  intros Hi Hnone Hbuf. assert (Hfl : in_flight r = []) by (unfold in_flight; by rewrite Hnone).
  unfold poll_source. destruct (stream r) as [i|] eqn:Es.
  2: { exists [], L, (Ok empty_batch), r. rewrite !app_nil_r. split_and!; try done. by intros b [= <-]. }
  pose proof (DriverDelivery.next_calm t i) as Hc.
  assert (Hin : handed_of r = DriverDelivery.handed i) by (unfold handed_of; by rewrite Es).
  destruct (Driver.next_events t i) as [[es|e|] i'] eqn:En; [| |done].
  all: pose proof (inv_stream _ _ _ _ _ _ (Some i') (pending_confirmation_lsn r)
         (unconfirmed_stall_polls r) [] Hi (Forall_nil_2 _)) as Hi1; rewrite !app_nil_r in Hi1.
  all: set (r1 := with_stream _ _ _ _) in *.
  - pose proof (stream_acceptable _ _ _ _ En) as Hes. apply DriverDelivery.next_ok in En.
    rewrite <-Hin in En. destruct es as [|e0 es0] eqn:Ees.
    + exists [], L, (Ok empty_batch), r1. rewrite app_nil_r.
      split_and!; try done. intros b [= <-]. by unfold in_flight; simpl; rewrite Hnone.
    + rewrite <-Ees in *.
      destruct (enqueue_flush_inv _ _ _ _ now es r1 Hi1) as (b & L' & r' & E & Hi' & Hb & Hs & _); [done..|].
      exists es, L', (Ok b), r'. split; [done|]. split_and!; try done; [by intros ? [= <-]|].
      unfold handed_of at 1. by rewrite Hs.
  - apply DriverDelivery.next_err in En. exists [], L. eexists _, r1. split; [done|].
    rewrite !app_nil_r. split_and!; try done. rewrite Hin. unfold handed_of. simpl. by rewrite En.
Qed.

Lemma poll_inv base F K L now t r :
  inv base F K L (pending_source_events r) r ->
  exists es L' res r', poll now t r = (res, r') /\ res <> Panic /\
    inv base (F ++ es) K L' (pending_source_events r') r' /\
    (forall b, res = Ok b -> batch_events b = in_flight r') /\
    handed_of r' = (handed_of r ++ es)%list.
Proof.
  intros Hi. unfold poll. rewrite bind_eq. unfold gets at 1. cbv beta iota.
  unfold current_pending_batch. destruct (pending_delivery r) as [p|] eqn:Ep.
  { pose proof (inv_pending _ _ _ _ _ _ Hi p Ep).
    rewrite usize_sub_le by lia. exists [], L. eexists _, _. split; [done|].
    rewrite !app_nil_r. split_and!; try done. intros b [= <-]. unfold in_flight. by rewrite Ep. }
  destruct (retry_inv _ _ _ _ _ _ Hi) as (r1 & E1 & Hi1 & Hh1 & Hp1 & Hb1 & Hq1).
  rewrite bind_eq. cbn [res_bind of_res]. rewrite (bind_ok _ _ _ _ _ E1), <-Hh1.
  rewrite Ep in Hp1. rewrite <-Hq1 in Hi1. clear Hi Ep E1 Hh1 Hb1 Hq1 r.
  rewrite bind_eq. unfold gets at 1. cbv beta iota.
  destruct (buffered_events r1) as [|e q] eqn:Eb.
  2: { destruct (deliver_inv _ _ _ _ now _ Hi1) as (b & r2 & E & Hi2 & Hb & Hs & _); [done|].
       rewrite E. exists [], L. eexists _, _. split; [done|]. rewrite !app_nil_r.
       split_and!; try done; [by intros ? [= <-]|]. unfold handed_of. by rewrite Hs. }
  rewrite bind_eq. unfold gets. cbv beta iota.
  assert (Hfirst : exists b L' r', (match pending_source_events r1 with
      | _ :: _ => flush_pending_source_events now | [] => mret empty_batch end) r1 = (Ok b, r') /\
    inv base F K L' (pending_source_events r') r' /\ batch_events b = in_flight r' /\
    stream r' = stream r1 /\ buffered_events r' = []).
  { destruct (pending_source_events r1) as [|e q] eqn:Eq; [|rewrite <-Eq in Hi1; by eapply flush_inv].
    exists empty_batch, L, r1. rewrite Eq. unfold in_flight. by rewrite Hp1. }
  destruct Hfirst as (b & L2 & r2 & E2 & Hi2 & Hb2 & Hs2 & Hbuf2).
  rewrite (bind_ok _ _ _ _ _ E2).
  assert (Hh : handed_of r1 = handed_of r2) by (unfold handed_of; by rewrite Hs2).
  destruct (batch_is_empty b) eqn:Eb2; simpl.
  - apply batch_empty_iff in Eb2. rewrite Hh. rewrite Hb2 in Eb2.
    eapply poll_source_inv; [done| |done]. by eapply in_flight_nil.
  - exists [], L2, (Ok b), r2. rewrite !app_nil_r. split_and!; try done. by intros ? [= <-].
Qed.

(** *** Acknowledging *)

(** The delivery that is left after [count] events of it are committed. *)
Definition advance (count : nat) (p : PendingDelivery) : option PendingDelivery :=
  if (length (events p) <=? committed_prefix p + count)%nat then None
  else Some {| delivery_id := delivery_id p; events := events p;
               committed_prefix := committed_prefix p + count;
               ack_epoch := saturating_add (ack_epoch p) 1 |}.

Lemma flight_advance p count :
  match advance count p with Some p' => drop (committed_prefix p') (events p') | None => [] end =
  drop count (drop (committed_prefix p) (events p)).
Proof.
  unfold advance. rewrite drop_drop. destruct (Nat.leb_spec (length (events p)) (committed_prefix p + count)).
  - by rewrite drop_ge by lia.
  - done.
Qed.

(** A commit of [count] events can go through: the store takes the write, snapshot rows
    have a place in it, and the last offset reads. *)
Definition ready count r : Prop :=
  (forall o m, fst (save o m (store (checkpoint r))) = Ok tt) /\
  (pending_prefix_contains_snapshot_events r count = false \/
   incremental_snapshot (config r) = true) /\
  is_ok (committed_confirmation_lsn r count) = true.

Lemma persist_spec count r :
  snapshot r = None ->
  persist_snapshot_checkpoint_before_commit count r = (Ok tt, r) \/
  (exists e, persist_snapshot_checkpoint_before_commit count r = (Err e, r)) /\ ~ ready count r.
Proof.
  intros Hs. unfold persist_snapshot_checkpoint_before_commit, ready. rewrite Hs.
  destruct (pending_prefix_contains_snapshot_events r count); [|by left]. simpl.
  destruct (incremental_snapshot (config r)); [by left|right]. split; [by eexists|]. naive_solver.
Qed.

(** With a store that takes the write, the barrier commits. *)
Lemma ready_accepts base F K L rest count r res b j :
  inv base F K L rest r -> 0 <= base -> base + Z.of_nat (length (Barrier.delivered L)) < u64_modulus ->
  (0 < count <= length (in_flight r))%nat -> ready count r ->
  Barrier.accept_and_commit (Z.of_nat count) (commit_barrier r) (checkpoint r) = (res, b, j) -> res = Ok tt.
Proof.
  intros Hi Hb0 Hlt Hcount [Hacc _] Ea. pose proof (inv_ledger _ _ _ _ _ _ Hi) as HL.
  pose proof (Barrier.lr_pending _ _ _ _ HL) as Hpd. pose proof (Barrier.lr_count _ _ _ _ HL) as Hct.
  pose proof (Barrier.lr_order _ _ _ _ HL) as Hord. pose proof (inv_room _ _ _ _ _ _ Hi) as Hroom.
  pose proof (inv_acked _ _ _ _ _ _ Hi) as Ha. pose proof (inv_committed _ _ _ _ _ _ Hi) as Hcm.
  destruct (Barrier.ack_accepted (Z.of_nat count) (commit_barrier r) (checkpoint r)) as [c' E].
  - by eapply Barrier.refines_barrier_inv.
  - rewrite Hpd in *. rewrite Barrier.length_recs in Hroom.
    rewrite Barrier.count_accepted_false_recs by (rewrite length_drop; lia). lia.
  - rewrite Hpd, Barrier.length_recs, length_drop, Hct in *. lia.
  - intros o m. simpl. unfold journal_save. specialize (Hacc o m).
    by destruct (save o m (store (checkpoint r))).
  - congruence.
Qed.

Lemma confirmation_no_panic r p count :
  pending_delivery r = Some p -> (0 < count)%nat ->
  (committed_prefix p + count <= length (events p))%nat ->
  committed_confirmation_lsn r count <> Panic.
Proof.
  intros Ep Hc Hle. unfold committed_confirmation_lsn. rewrite Ep, usize_sub_le by lia. simpl.
  destruct (lookup_lt_is_Some_2 (events p) (committed_prefix p + count - 1)) as [e ->]; [lia|].
  assert (Hp : forall s, parse_postgres_lsn s <> Panic).
  { intros s. unfold parse_postgres_lsn. by repeat case_match. }
  specialize (Hp (resume_offset_for r e)).
  destruct (parse_postgres_lsn (resume_offset_for r e)); simpl; by repeat case_match.
Qed.

Lemma confirm_spec lsn r :
  exists failure i lsn' stall, confirm_committed lsn r = (Ok failure, with_stream i lsn' stall r) /\
    from_option DriverDelivery.handed [] i = handed_of r.
Proof.
  assert (Hid : with_stream (stream r) (pending_confirmation_lsn r) (unconfirmed_stall_polls r) r = r)
    by by destruct r.
  assert (Hstay : exists failure i lsn' stall,
    (Ok (@None Error), r) = (Ok failure, with_stream i lsn' stall r) /\
    from_option DriverDelivery.handed [] i = handed_of r).
  { exists None, (stream r), (pending_confirmation_lsn r), (unconfirmed_stall_polls r). by rewrite Hid. }
  unfold confirm_committed. destruct lsn as [lsn|]; [|done].
  destruct (stream r) as [i|] eqn:Es; [|done].
  pose proof (confirm_calm lsn i) as Hc. pose proof (confirm_handed lsn i) as Hh.
  destruct (Driver.confirm_lsn lsn i) as [[u|e|] i']; simpl in *; [| |done].
  all: eexists _, (Some i'), _, _; split; [done|]; unfold handed_of; by rewrite Es.
Qed.

(** Everything but the store is as before. *)
Definition same_but_store r r' : Prop := r' = with_barrier (commit_barrier r) (checkpoint r') r.

(** [count] events of the delivery were committed. *)
Definition committed_by count p r r' : Prop :=
  pending_delivery r' = advance count p /\ next_delivery_id r' = next_delivery_id r /\
  in_flight r' = drop count (in_flight r) /\
  Barrier.committed_event_count (commit_barrier r') =
    Barrier.committed_event_count (commit_barrier r) + Z.of_nat count.

Lemma accept_keeps_cap n b (j : Journal C) res b' j' :
  Barrier.accept_and_commit n b j = (res, b', j') ->
  Barrier.max_buffer_size b' = Barrier.max_buffer_size b.
Proof.
  unfold Barrier.accept_and_commit, Barrier.notify_consumer_accepted, Barrier.commit.
  intros E. repeat case_match; by simplify_eq/=.
Qed.

(** The bookkeeping after a durable commit of [count] events. *)
Lemma settled_inv base F K L now count p r b j i lsn stall :
  inv base F K L (pending_source_events r) r -> pending_delivery r = Some p ->
  (0 < count <= length (in_flight r))%nat ->
  Barrier.ledger_refines base (Barrier.ledger_step L (Barrier.Ack (Z.of_nat count), true)) b j ->
  Barrier.max_buffer_size b = Barrier.max_buffer_size (commit_barrier r) ->
  from_option DriverDelivery.handed [] i = handed_of r ->
  exists L' r', settle now count (with_stream i lsn stall (with_barrier b j r)) = (Ok tt, r') /\
    inv base F (K ++ take count (in_flight r)) L' (pending_source_events r') r' /\
    handed_of r' = handed_of r /\ committed_by count p r r'.
Proof.
  intros Hi Ep Hcount HL' Hcap' Hhi. pose proof Hi as [Hc Hs Hh Hr HL Ha Hcm Hrec Hcap Hn Hp].
  unfold settle. simpl. rewrite Hn, usize_sub_le, Ep by lia. simpl.
  set (r' := with_delivery _ _ _ _ _).
  assert (Hfl : in_flight r' = drop count (in_flight r)).
  { unfold in_flight. simpl. rewrite Ep. apply flight_advance. }
  exists (Barrier.ledger_step L (Barrier.Ack (Z.of_nat count), true)), r'. split; [done|].
  assert (Hsplit : (K ++ in_flight r = (K ++ take count (in_flight r)) ++ in_flight r')%list).
  { by rewrite Hfl, <-app_assoc, take_drop. }
  split; [split|]; try done.
  - rewrite app_assoc in Hh. rewrite Hsplit in Hh. by rewrite Hh, <-!app_assoc.
  - simpl. rewrite Ha, length_app, length_take. lia.
  - simpl. rewrite Ha, length_app, length_take. lia.
  - rewrite app_assoc in Hrec. rewrite Hsplit in Hrec. simpl. by rewrite <-app_assoc in Hrec.
  - simpl. congruence.
  - rewrite Hfl, length_drop. simpl. lia.
  - intros p' Hp'. simpl in Hp'. unfold advance in Hp'. case_match; simplify_eq/=. zlia.
  - split; [done|]. split_and!; try done. simpl.
    rewrite (Barrier.lr_count _ _ _ _ HL'), (Barrier.lr_count _ _ _ _ HL). simpl.
    rewrite Ha, Hcm. lia.
Qed.

(** The three ways [commit_prefix] ends. *)
Lemma commit_prefix_inv base F K L now count p r :
  0 <= base -> base + Z.of_nat (length F) < u64_modulus ->
  inv base F K L (pending_source_events r) r -> pending_delivery r = Some p ->
  (0 < count <= length (in_flight r))%nat ->
  exists K' L' res r', commit_prefix now count r = (res, r') /\ res <> Panic /\
    inv base F K' L' (pending_source_events r') r' /\ handed_of r' = handed_of r /\
    ((exists e, res = Err e) /\ ~ ready count r /\ K' = K /\ same_but_store r r' \/
     (res = Ok tt \/ exists d, res = Err (PostCommitConfirmFailed true d)) /\
     K' = (K ++ take count (in_flight r))%list /\ committed_by count p r r').
Proof.
  intros Hb0 Hlt Hi Ep Hcount. pose proof Hi as [Hc Hs Hh Hr HL Ha Hcm Hrec Hcap Hn Hp].
  pose proof (Hp p Ep) as Hpp.
  assert (Hfl : in_flight r = drop (committed_prefix p) (events p)) by (unfold in_flight; by rewrite Ep).
  assert (Hlen : length (in_flight r) = (length (events p) - committed_prefix p)%nat)
    by (by rewrite Hfl, length_drop).
  assert (Hsame : forall e, ~ ready count r -> (exists K' L' res r', (Err e, r) = (res, r') /\ res <> Panic /\
    inv base F K' L' (pending_source_events r') r' /\ handed_of r' = handed_of r /\
    ((exists e, res = @Err unit e) /\ ~ ready count r /\ K' = K /\ same_but_store r r' \/
     (res = Ok tt \/ exists d, res = Err (PostCommitConfirmFailed true d)) /\
     K' = (K ++ take count (in_flight r))%list /\ committed_by count p r r'))).
  { intros e Hnr. exists K, L, (Err e), r. split_and!; try done. left. split_and!; [by eexists|done..|].
    unfold same_but_store. by destruct r. }
  unfold commit_prefix. destruct (Nat.eqb_spec count 0); [lia|].
  rewrite Ep, usize_sub_le by lia. rewrite bind_eq. cbn [of_res]. rewrite Hn.
  destruct (Nat.ltb_spec (length (in_flight r)) count); [lia|].
  destruct (Nat.ltb_spec (length (events p) - committed_prefix p) count); [lia|]. cbn [orb].
  destruct (persist_spec count r Hs) as [Eps|[[e Eps] ?]]; [|rewrite bind_eq, Eps; by apply Hsame].
  rewrite (bind_ok _ _ _ _ _ Eps). rewrite bind_eq. cbn [gets].
  pose proof (confirmation_no_panic r p count Ep ltac:(lia) ltac:(lia)) as Hconf.
  rewrite bind_eq. unfold of_res.
  destruct (committed_confirmation_lsn r count) as [lsn|e|] eqn:Econf;
    [|apply Hsame; intros (_ & _ & Hok); by rewrite Econf in Hok|done].
  rewrite bind_eq. unfold on_commit.
  destruct (Barrier.accept_and_commit _ _ _) as [[ar b'] j'] eqn:Ea.
  pose proof (accept_keeps_cap _ _ _ _ _ _ Ea) as Hcap'.
  assert (Hdl : base + Z.of_nat (length (Barrier.delivered L)) < u64_modulus).
  { rewrite <-(Forall2_length _ _ _ Hrec). rewrite Hh in Hlt. rewrite !length_app in *. lia. }
  assert (Hn64 : 0 < Z.of_nat count < u64_modulus).
  { rewrite Hh in Hlt. rewrite !length_app in Hlt. lia. }
  destruct (Barrier.ack_refines save_no_panic _ _ _ _ _ _ _ _ Hn64 Hb0 Hdl HL Ea) as (Hnp & HL' & Hsb).
  destruct ar as [[]|e|]; [| |done].
  - destruct (confirm_spec lsn (with_barrier b' j' r)) as (failure & i & lsn' & stall & Ec & Hhi).
    rewrite (bind_ok _ _ _ _ _ Ec).
    destruct (settled_inv _ _ _ _ now _ _ _ _ _ i lsn' stall Hi Ep Hcount HL' Hcap' Hhi)
      as (L' & r' & Es & Hi' & Hh' & Hby).
    rewrite (bind_ok _ _ _ _ _ Es).
    destruct failure as [err|]; [destruct (post_commit_source_confirm_policy (options (config r)))|].
    all: eexists _, L', _, r'; split; [done|]; split_and!; try done; right; split_and!; eauto.
  - rewrite (Hsb eq_refl) in *. eexists K, L, _, _. split; [done|]. split; [done|].
    split; [|split; [done|left; split_and!; [by eexists| |done..]]].
    2: { intros Hrd. by pose proof (ready_accepts _ _ _ _ _ _ _ _ _ _ Hi Hb0 Hdl Hcount Hrd Ea). }
    split; try done; simpl.
Qed.

Lemma ack_inv base F K L now mode r :
  0 <= base -> base + Z.of_nat (length F) < u64_modulus ->
  inv base F K L (pending_source_events r) r ->
  exists n L' res r', commit_ack now mode r = (res, r') /\ res <> Panic /\
    inv base F (K ++ take n (in_flight r)) L' (pending_source_events r') r' /\
    handed_of r' = handed_of r /\ in_flight r' = drop n (in_flight r).
Proof.
  intros Hb0 Hlt Hi. unfold commit_ack.
  assert (Hsame : forall res, res <> Panic -> exists n L' res' r', (res, r) = (res', r') /\ res' <> @Panic unit /\
    inv base F (K ++ take n (in_flight r)) L' (pending_source_events r') r' /\
    handed_of r' = handed_of r /\ in_flight r' = drop n (in_flight r))
    by (intros res ?; exists 0%nat, L, res, r; by rewrite take_0, app_nil_r).
  destruct mode as [t|]; [|by apply Hsame].
  destruct (pending_delivery r) as [p|] eqn:Ep; [|by apply Hsame].
  destruct (negb _); [by apply Hsame|]. destruct (negb _); [by apply Hsame|].
  destruct (decide (0 < event_count t <= length (in_flight r))%nat) as [Hin|Hout].
  - destruct (commit_prefix_inv _ _ _ _ now _ _ _ Hb0 Hlt Hi Ep Hin)
      as (K' & L' & res & r' & E & Hnp & Hi' & Hh & [(_ & _ & -> & Hstore)|(_ & -> & _ & _ & Hfl & _)]).
    + exists 0%nat, L', res, r'. rewrite take_0, app_nil_r. split_and!; try done. by rewrite Hstore.
    + by exists (event_count t), L', res, r'.
  - unfold commit_prefix. destruct (Nat.eqb_spec (event_count t) 0); [by apply Hsame|].
    pose proof (inv_pending _ _ _ _ _ _ Hi p Ep). rewrite Ep, usize_sub_le by lia.
    rewrite bind_eq. cbn [of_res]. rewrite (inv_count _ _ _ _ _ _ Hi).
    destruct (Nat.ltb_spec (length (in_flight r)) (event_count t)); [by apply Hsame|lia].
Qed.

Lemma session_inv base K L l r :
  0 <= base -> inv base (handed_of r) K L (pending_source_events r) r ->
  base + Z.of_nat (length (handed_of (snd (session l r)))) < u64_modulus ->
  (Panic ∉ fst (session l r)) /\
  exists K' L', inv base (handed_of (snd (session l r))) K' L'
    (pending_source_events (snd (session l r))) (snd (session l r)).
Proof.
  intros Hb0. revert K L r. induction l as [|a l IH]; intros K L r Hi Hlt.
  { simpl. split; [by intros ?%elem_of_nil|by exists K, L]. }
  assert (Hr : base + Z.of_nat (length (handed_of r)) < u64_modulus).
  { destruct (grown_session (handed_of r) (a :: l) r) as [es Es]; [done|].
    rewrite Es, length_app in Hlt. lia. }
  assert (Hact : exists K' L' res r', act a r = (res, r') /\ res <> Panic /\
    inv base (handed_of r') K' L' (pending_source_events r') r').
  { destruct a as [now t|now mode]; simpl.
    2: { destruct (ack_inv _ _ _ _ now mode _ Hb0 Hr Hi) as (n & L' & res & r' & E & Hnp & Hi' & Hh & _).
         eexists _, L', res, r'. rewrite Hh. by split_and!. }
    destruct (poll_inv _ _ _ _ now t _ Hi) as (es & L' & res & r' & E & Hnp & Hi' & _ & Hh).
    rewrite <-Hh in Hi'. exists K, L'. rewrite bind_eq, E. destruct res as [b|e|]; [| |done].
    all: by eexists _, _. }
  destruct Hact as (K1 & L1 & res & r1 & E & Hnp & Hi1). simpl in *. rewrite E in *.
  specialize (IH K1 L1 r1 Hi1). destruct (session l r1) as [rs r2]. simpl in *.
  destruct (IH Hlt) as [Hrs Hex]. split; [|done]. by intros [|]%elem_of_cons.
Qed.

End Invariant.

(** A runtime as [CdcRuntime::new] and [start] leave it, streaming from [i] over a store
    that has committed [base] events. *)
Definition fresh {C SN I} (cfg : RuntimeConfig) (base : Z) (c : C) (i : I) : CdcRuntime C SN I :=
  {| config := cfg; injected_events := []; pending_source_events := []; buffered_events := [];
     delivered_not_committed := 0; next_delivery_id := 1; pending_delivery := None;
     commit_barrier := snd (Barrier.hydrate_committed_event_count base
                              (Barrier.new (max_buffer_size (options cfg))));
     checkpoint := c; snapshot := None; stream := Some i; pending_confirmation_lsn := None;
     unconfirmed_stall_polls := 0;
     stats := {| last_poll_at_ms := None; last_source_event_ts_ms := None;
                 last_commit_at_ms := None; last_checkpoint_saved_at_ms := None;
                 total_events_polled := 0; total_events_committed := 0 |} |}.

Lemma fresh_inv `{BuildProfile} `{JsonCodec} {C SN I} `{Checkpoint C} `{SnapshotHandle SN}
    `{DriverDelivery.StreamLaws I} cfg base (c : C) (i : I) :
  DriverDelivery.handed i = [] ->
  let r := fresh (SN := SN) cfg base {| store := c; log := [] |} i in
  inv cfg base (handed_of r) [] Barrier.ledger_init [] r.
Proof. intros Hh. split; try done. apply Barrier.hydrated_refines. Qed.

(** ** Tokens *)

Section Tokens.
Context `{BuildProfile} `{JsonCodec} {C SN I : Type}.
Context `{Checkpoint C} `{SnapshotHandle SN} `{Driver.StreamHandle I}.
Abbreviation R := (CdcRuntime C SN I).

(** Delivery ids and epochs are [u64]s, and a delivery's id is below the next one until
    the counter saturates. *)
Definition ids_ok (r : R) : Prop :=
  0 <= next_delivery_id r <= u64_max /\
  forall p, pending_delivery r = Some p ->
    0 <= ack_epoch p <= u64_max /\ (delivery_id p < next_delivery_id r \/ next_delivery_id r = u64_max).

Lemma ids_session l (r : R) : ids_ok r -> ids_ok (snd (session l r)).
Proof.
  apply frame_session; unfold ids_ok; try done.
  - intros now r0 [Hn Hp]. unfold deliver_buffered_batch. destruct (take _ _); [done|]. simpl.
    unfold saturating_add. split; [lia|]. intros p [= <-]. simpl. lia.
  - intros now n r0 [Hn Hp]. unfold settle. destruct (usize_sub _ _); [|done..]. simpl.
    split; [done|]. intros p' (p & Ep & Hp')%bind_Some. specialize (Hp p Ep).
    case_match; simplify_eq/=. unfold saturating_add. lia.
Qed.

(** The token belongs to a past delivery, or to a past epoch of the current one. *)
Definition stale (t : AckToken) (r : R) : Prop :=
  ids_ok r /\ tok_delivery_id t < next_delivery_id r /\
  forall p, pending_delivery r = Some p ->
    tok_delivery_id t < delivery_id p \/ delivery_id p = tok_delivery_id t /\ tok_epoch t < ack_epoch p.

Lemma stale_session t l (r : R) : stale t r -> stale t (snd (session l r)).
Proof.
  apply frame_session; try done.
  - intros now r0 [[Hn Hp] [Ht Hst]]. unfold deliver_buffered_batch. destruct (take _ _); [done|].
    unfold stale, ids_ok. simpl. unfold saturating_add.
    split_and!; [lia..|intros p [= <-]; simpl; lia|lia|intros p [= <-]; simpl; lia].
  - intros now n r0 [[Hn Hp] [Ht Hst]]. unfold settle. destruct (usize_sub _ _); [|done..].
    unfold stale, ids_ok. simpl. split_and!; try lia.
    all: intros p' (p & Ep & Hp')%bind_Some; specialize (Hp p Ep); specialize (Hst p Ep).
    all: case_match; simplify_eq/=; unfold saturating_add; lia.
Qed.

(** A stale token is refused, and the refusal changes nothing. *)
Lemma stale_refused t now (r : R) :
  stale t r -> exists e, commit_ack now (Required t) r = (Err e, r).
Proof.
  intros (_ & _ & Hst). unfold commit_ack. destruct (pending_delivery r) as [p|]; [|by eexists].
  destruct (Z.eqb_spec (delivery_id p) (tok_delivery_id t)); [|by eexists].
  destruct (Z.eqb_spec (ack_epoch p) (tok_epoch t)); [|by eexists].
  destruct (Hst p eq_refl); lia.
Qed.

End Tokens.

Section Theorems.
Context `{BuildProfile} `{JsonCodec} {C SN I : Type}.
Context `{Checkpoint C} `{SnapshotHandle SN} `{DriverDelivery.StreamLaws I} `{!ConfirmLaws I}.


(** C18: an ack token commits its events once, all or nothing.  In any state a session
    reaches, take a token for the first [n] events of the delivery in flight.  When the
    store takes the write, the commit goes through: the in-flight events lose exactly that
    prefix, the count grows by [n], and from then on the token is refused for ever, without
    effect.  When it does not, the acknowledgement fails and nothing but the store has
    changed, so it can be retried. *)
Theorem ack_token_commits_once cfg base (c : C) (i : I) l r p n now
    (save_no_panic : forall o m (s : C), fst (save o m s) <> Panic)
    (buffer_nonzero : (0 < max_buffer_size (options cfg))%nat)
    (events_acceptable : forall t s es s', Driver.next_events t s = (Ok es, s') ->
       Forall (acceptable (C := C) (SN := SN) (I := I) cfg) es)
    (starts_empty : DriverDelivery.handed i = [])
    (base_nonneg : 0 <= base)
    (reached : snd (session l (fresh (SN := SN) cfg base {| store := c; log := [] |} i)) = r)
    (fits : base + Z.of_nat (length (handed_of r)) < u64_modulus)
    (delivered : pending_delivery r = Some p)
    (in_range : (0 < n <= length (in_flight r))%nat)
    (unsaturated : next_delivery_id r < u64_max /\ ack_epoch p < u64_max) :
  let t := {| tok_delivery_id := delivery_id p; event_count := n; tok_epoch := ack_epoch p |} in
  let '(res, r1) := commit_ack now (Required t) r in
  (ready n r -> res = Ok tt \/ exists d, res = Err (PostCommitConfirmFailed true d)) /\
  ((exists e, res = Err e) /\ same_but_store r r1 \/
   (res = Ok tt \/ exists d, res = Err (PostCommitConfirmFailed true d)) /\
   committed_by n p r r1 /\
   forall l' now', exists e,
     commit_ack now' (Required t) (snd (session l' r1)) = (Err e, snd (session l' r1))).
Proof.
  intros t. destruct (session_inv save_no_panic cfg buffer_nonzero events_acceptable base [] _ l
    (fresh cfg base {| store := c; log := [] |} i) base_nonneg
    (fresh_inv cfg base c i starts_empty)) as [_ (K & L & Hi)]; rewrite reached in *; [done|].
  assert (Hids : ids_ok r).
  { rewrite <-reached. apply ids_session. by split. }
  destruct (commit_prefix_inv save_no_panic cfg buffer_nonzero _ _ _ _ now n p r base_nonneg fits Hi delivered in_range)
    as (K' & L' & res & r1 & E & _ & _ & _ & Hcase).
  assert (Eack : commit_ack now (Required t) r = (res, r1)).
  { unfold commit_ack. rewrite delivered. simpl. by rewrite !Z.eqb_refl. }
  rewrite Eack. destruct Hcase as [(He & Hnr & _ & Hsame)|(Hres & _ & Hby)].
  { split; [done|by left]. }
  split; [done|right]. split_and!; [done..|]. intros l' now'. apply stale_refused, stale_session.
  destruct Hids as [Hn Hp]. specialize (Hp p delivered). destruct Hby as (Hpd & Hnext & _).
  unfold stale, ids_ok. rewrite Hpd, Hnext. unfold advance, t. simpl.
  split_and!; try lia; intros p' Hp'; case_match; simplify_eq/=; unfold saturating_add; lia.
Qed.

End Theorems.
(** ** Concrete sessions *)

Module Demo.
Import DriverDelivery.Demo.
Local Open Scope string_scope.

#[export] Instance confirms : ConfirmLaws Script.
Proof. by split. Qed.

(** No bulk snapshot runs. *)
#[export] Instance no_snapshot : SnapshotHandle Empty_set :=
  {| snapshot_checkpoint _ _ (sn : Empty_set) _ := match sn with end |}.

Definition configured (size : nat) (check : bool) (policy : TransactionBoundaryPolicy)
    : RuntimeConfig :=
  {| options := {| max_buffer_size := size; post_commit_source_confirm_policy := FailFast;
                   validate_events := check; max_event_bytes := None;
                   transaction_boundary := policy |};
     source := Disabled; incremental_snapshot := false |}.

(** An insert at a log position, of a transaction. *)
Definition insert_at (pos tx : Z) : Event :=
  {| Event.before := None; Event.after := Some (JObj [("id", JNum (PosInt (Z.to_N pos)))]);
     Event.op := Event.Insert;
     Event.source := {| Event.source_name := "feed"; Event.offset := show pos;
                        Event.timestamp := pos |};
     Event.ts := pos; Event.schema := Some "public"; Event.table := "users";
     Event.primary_key := Some ["id"]; Event.snapshot := None;
     Event.transaction := Some {| Event.tx_id := tx; Event.total_events := None;
                                  Event.event_index := 0 |};
     Event.envelope_version := 1; Event.before_is_key_only := false;
     Event.unavailable_columns := []; Event.before_unavailable_columns := [] |}.

(** An insert without the row: validation rejects it. *)
Definition malformed (pos : Z) : Event :=
  {| Event.before := None; Event.after := None; Event.op := Event.Insert;
     Event.source := {| Event.source_name := "feed"; Event.offset := show pos;
                        Event.timestamp := pos |};
     Event.ts := pos; Event.schema := Some "public"; Event.table := "users";
     Event.primary_key := Some ["id"]; Event.snapshot := None; Event.transaction := None;
     Event.envelope_version := 1; Event.before_is_key_only := false;
     Event.unavailable_columns := []; Event.before_unavailable_columns := [] |}.

(** A runtime over the in-memory store and a scripted log, in a release build. *)
Definition start (cfg : RuntimeConfig) (log : list Event)
    : CdcRuntime (Journal InMemory.InMemoryCheckpoint) Empty_set Script :=
  fresh cfg 0 {| store := InMemory.mem_new; CheckpointApi.log := [] |} {| pending := log; given := [] |}.

Definition token (id : Z) (n : nat) (epoch : Z) : AckMode :=
  Required {| tok_delivery_id := id; event_count := n; tok_epoch := epoch |}.

Definition run_demo (l : list Action) (cfg : RuntimeConfig) (log : list Event) :=
  session (H := false) l (start cfg log).

(** Four events, two at a time; the first delivery is acknowledged in two parts, the first
    part twice. *)
Definition demo_log : list Event := map (fun p => insert_at p p) [10; 11; 12; 13].
Definition demo_session : list Action :=
  [Poll 0 0; Ack 0 (token 1 1 0); Ack 0 (token 1 1 0); Poll 0 0; Ack 0 (token 1 1 1); Poll 0 0].
Definition demo_config : RuntimeConfig := configured 2 false Split.

Lemma demo_acceptable size policy e :
  acceptable (C := InMemory.InMemoryCheckpoint) (SN := Empty_set) (I := Script)
    (configured size false policy) e.
Proof.
  split; [done|]. intros _ r Hr. unfold build_checkpoint_offset. rewrite Hr. simpl. by eexists.
Qed.

End Demo.

Import Demo.
#[local] Existing Instances DriverDelivery.Demo.codec DriverDelivery.Demo.stream
  DriverDelivery.Demo.stream_laws.

Lemma demo_size : (0 < max_buffer_size (options demo_config))%nat.
Proof. simpl. lia. Qed.

Definition demo_results : list (Res unit) := fst (run_demo demo_session demo_config demo_log).
Definition demo_end := snd (run_demo demo_session demo_config demo_log).


(** The state after the first delivery of the demo session. *)
Definition demo_state := snd (run_demo [Poll 0 0] demo_config demo_log).
Definition demo_delivery : PendingDelivery :=
  {| delivery_id := 1; events := take 2 demo_log; committed_prefix := 0; ack_epoch := 0 |}.

Lemma ack_token_commits_once_witness :
  (exists r1, commit_ack (H := false) 0 (token 1 1 0) demo_state = (Ok tt, r1)) /\
  let '(res, r1) := commit_ack (H := false) 0 (token 1 1 0) demo_state in
  (ready (H := false) 1 demo_state -> res = Ok tt \/ exists d, res = Err (PostCommitConfirmFailed true d)) /\
  ((exists e, res = Err e) /\ same_but_store demo_state r1 \/
   (res = Ok tt \/ exists d, res = Err (PostCommitConfirmFailed true d)) /\
   committed_by 1 demo_delivery demo_state r1 /\
   forall l' now', exists e, commit_ack (H := false) now' (token 1 1 0) (snd (session (H := false) l' r1))
     = (Err e, snd (session (H := false) l' r1))).
Proof.
  split; [vm_compute; by eexists|].
  apply (ack_token_commits_once (H := false) (SN := Empty_set) demo_config 0 InMemory.mem_new
    {| DriverDelivery.Demo.pending := demo_log; DriverDelivery.Demo.given := [] |} [Poll 0 0]
    demo_state demo_delivery 1 0).
  - exact Barrier.mem_save_no_panic.
  - simpl. lia.
  - intros _ _ es _ _. apply Forall_true, demo_acceptable.
  - reflexivity.
  - lia.
  - unfold demo_state, run_demo, start. reflexivity.
  - vm_compute. reflexivity.
  - vm_compute. reflexivity.
  - vm_compute. lia.
  - vm_compute. split; reflexivity.
Defined.

(** The transaction-boundary policy splits transactions that fit.  With room for two
    events and a log of transactions of one, two and one events, the first batch delivered
    under [PreserveTransactions] ends inside the second transaction, whose other event is
    still queued: an event of a third transaction further back in the queue is taken as a
    sign that the transaction ended, although its rest has not been cut into the batch. *)
Theorem preserve_policy_splits_transaction :
  let log := [insert_at 10 1; insert_at 11 2; insert_at 12 2; insert_at 13 3] in
  let r0 := with_queues log [] (start (configured 2 true PreserveTransactions) []) in
  exists b r,
    flush_pending_source_events 0 r0 = (Ok b, r) /\
    batch_events b = [insert_at 10 1; insert_at 11 2] /\
    pending_source_events r = [insert_at 12 2; insert_at 13 3] /\
    Forall (fun tx => (length (List.filter (same_tx tx) log) <= 2)%nat) [1; 2; 3].
Proof.
  eexists _, _. split; [vm_compute; reflexivity|]. split_and!; [vm_compute; reflexivity..|].
  repeat constructor.
Qed.

(** A rejected event takes the rest of its batch with it.  The stream hands out three
    events at once, the second one malformed: the poll fails, the third is in no queue any
    more, and once the events after it are acknowledged the saved position is past it. *)
Lemma rejected_event_drops_followers :
  let log := [insert_at 10 1; malformed 11; insert_at 12 2; insert_at 13 3] in
  let '(rs, r) := run_demo [Poll 0 0; Poll 0 0; Ack 0 (token 1 1 0); Poll 0 0; Ack 0 (token 2 1 0)]
                    (configured 4 true Split) log in
  map is_ok rs = [false; true; true; true; true] /\
  handed_of r = log /\
  (in_flight r ++ buffered_events r ++ pending_source_events r)%list = [] /\
  fst <$> last (CheckpointApi.log (checkpoint r)) =
    Some (generic_dyn {| Offsets.source := "feed"; bytes := list_byte_of_string "13" |}) /\
  Barrier.committed_event_count (commit_barrier r) = 2.
Proof. vm_compute. split_and!; reflexivity. Qed.

(** The owned iterator of a redelivered batch starts at the first event of the delivery,
    the committed ones included. *)
Lemma redelivered_into_iter_repeats :
  exists b, current_pending_batch (H := false)
      (snd (run_demo [Poll 0 0; Ack 0 (token 1 1 0)] demo_config demo_log)) = Ok (Some b) /\
    batch_events b = [insert_at 11 11] /\
    batch_into_iter b = [insert_at 10 10; insert_at 11 11].
Proof. eexists. split; [vm_compute; reflexivity|]. split; vm_compute; reflexivity. Qed.

End RuntimeDelivery.
