(* ===== verification/SchemaHistory.v ===== *)
(** * SchemaHistory: captured DDL and the versioned schema history

    Models the data of [src/src/ddl_capture/mod.rs] with its conversions to and from
    events, and [src/src/schema_history/mod.rs]: the version store, [apply_schema_diff],
    both backends and [SchemaValidator].  The file backend runs on the file system of
    [Fs].  The parsers of the statements are in [DdlParse].  A poisoned lock and a cancelled worker task are not
    modelled. *)

From S2P Require Import Prelude Errors Strs Json Offsets Event Monad Fs OwnerLease.

Module SchemaHistory.

Local Open Scope string_scope.
Local Open Scope Z_scope.

(** ** Data *)

Record ColumnDef := {
  column_name : string;
  data_type : string;
  nullable : bool;
  constraints : list string
}.

Record TableSchema := {
  schema_name : string;
  table_name : string;
  columns : list ColumnDef;
  primary_keys : list string;
  schema_version : Z
}.

Inductive SchemaDiffOperation :=
| AddColumn (column : ColumnDef)
| DropColumn (name : string)
| RenameColumn (from to : string)
| Unsupported (clause : string).

Record SchemaDiff := { operations : list SchemaDiffOperation }.

Inductive DDLEvent :=
| CreateTable (s : TableSchema)
| AlterTable (s : TableSchema)
| AlterTableDiff (schema table : string) (diff : SchemaDiff)
| DropTable (schema table : string).

Record CapturedDdl := {
  ddl_type : string;
  ddl_schema : string;
  ddl_table : string;
  statement : string;
  result_schema : option TableSchema;
  schema_diff : option SchemaDiff;
  ddl_ts : Z
}.

#[global] Instance ColumnDef_eq_dec : EqDecision ColumnDef.
Proof. solve_decision. Defined.
#[global] Instance TableSchema_eq_dec : EqDecision TableSchema.
Proof. solve_decision. Defined.

(** ** Serialization of the derives *)

Definition column_json (c : ColumnDef) : json :=
  JObj (obj_of [("name", JStr (column_name c)); ("data_type", JStr (data_type c));
                ("nullable", JBool (nullable c));
                ("constraints", JArr (map JStr (constraints c)))]).

Definition schema_json (s : TableSchema) : json :=
  JObj (obj_of [("schema", JStr (schema_name s)); ("table", JStr (table_name s));
                ("columns", JArr (map column_json (columns s)));
                ("primary_keys", JArr (map JStr (primary_keys s)));
                ("version", jnat (schema_version s))]).

Definition operation_json (o : SchemaDiffOperation) : json :=
  match o with
  | AddColumn c => JObj [("AddColumn", JObj [("column", column_json c)])]
  | DropColumn n => JObj [("DropColumn", JObj [("name", JStr n)])]
  | RenameColumn f t => JObj [("RenameColumn", JObj (obj_of [("from", JStr f); ("to", JStr t)]))]
  | Unsupported c => JObj [("Unsupported", JObj [("clause", JStr c)])]
  end.

Definition diff_json (d : SchemaDiff) : json :=
  JObj [("operations", JArr (map operation_json (operations d)))].

Definition column_from_json (v : json) : option ColumnDef :=
  m ← as_object v;
  n ← field "name" as_str m;
  ty ← field "data_type" as_str m;
  nl ← field "nullable" as_bool m;
  cs ← field "constraints" as_array m;
  cs ← traverse as_str cs;
  Some {| column_name := n; data_type := ty; nullable := nl; constraints := cs |}.

Definition schema_from_json (v : json) : option TableSchema :=
  m ← as_object v;
  s ← field "schema" as_str m;
  t ← field "table" as_str m;
  cs ← field "columns" as_array m;
  cs ← traverse column_from_json cs;
  pk ← field "primary_keys" as_array m;
  pk ← traverse as_str pk;
  ve ← field "version" (as_uint u32_max) m;
  Some {| schema_name := s; table_name := t; columns := cs; primary_keys := pk;
          schema_version := ve |}.

(** An externally tagged enum: an object with one member. *)
Definition operation_from_json (v : json) : option SchemaDiffOperation :=
  m ← as_object v;
  match m with
  | [(k, body)] =>
      b ← as_object body;
      if String.eqb k "AddColumn" then c ← field "column" column_from_json b; Some (AddColumn c)
      else if String.eqb k "DropColumn" then n ← field "name" as_str b; Some (DropColumn n)
      else if String.eqb k "RenameColumn" then
        f ← field "from" as_str b; t ← field "to" as_str b; Some (RenameColumn f t)
      else if String.eqb k "Unsupported" then c ← field "clause" as_str b; Some (Unsupported c)
      else None
  | _ => None
  end.

Definition diff_from_json (v : json) : option SchemaDiff :=
  m ← as_object v;
  os ← field "operations" as_array m;
  os ← traverse operation_from_json os;
  Some {| operations := os |}.

(** ** Captured DDL and events *)

Definition set_ts (ts : Z) (c : CapturedDdl) : CapturedDdl :=
  {| ddl_type := ddl_type c; ddl_schema := ddl_schema c; ddl_table := ddl_table c; statement := statement c;
     result_schema := result_schema c; schema_diff := schema_diff c; ddl_ts := ts |}.

(** [CapturedDdl::to_event] *)
Definition to_event (c : CapturedDdl) (source_name offset : string) (ts_ms : Z) : Event.Event :=
  let after := obj_of [("ddl_type", JStr (ddl_type c)); ("schema", JStr (ddl_schema c));
                       ("table", JStr (ddl_table c)); ("statement", JStr (statement c))] in
  let after := match result_schema c with
               | Some s => obj_insert "result_schema" (schema_json s) after
               | None => after
               end in
  let after := match schema_diff c with
               | Some d => obj_insert "schema_diff" (diff_json d) after
               | None => after
               end in
  {| Event.before := None; Event.after := Some (JObj after); Event.op := Event.SchemaChange;
     Event.source := {| Event.source_name := source_name; Event.offset := offset;
                        Event.timestamp := ddl_ts c |};
     Event.ts := ts_ms; Event.schema := Some (ddl_schema c);
     Event.table := ddl_table c +:+ "__ddl_events"; Event.primary_key := None;
     Event.snapshot := None; Event.transaction := None;
     Event.envelope_version := Event.EVENT_ENVELOPE_VERSION; Event.before_is_key_only := false;
     Event.unavailable_columns := []; Event.before_unavailable_columns := [] |}.

(** [CapturedDdl::from_event_payload] *)
Definition from_event_payload (after : json) : option CapturedDdl :=
  m ← as_object after;
  let string_field k := obj_get k m ≫= as_str in
  ty ← string_field "ddl_type";
  t ← string_field "table";
  Some {| ddl_type := ty; ddl_schema := default "" (string_field "schema"); ddl_table := t;
          statement := default "" (string_field "statement");
          result_schema := obj_get "result_schema" m ≫= schema_from_json;
          schema_diff := obj_get "schema_diff" m ≫= diff_from_json;
          ddl_ts := default 0 (obj_get "ts" m ≫= as_u64) |}.

(** [CapturedDdl::to_schema_event] *)
Definition to_schema_event (c : CapturedDdl) : option DDLEvent :=
  if String.eqb (ddl_type c) "CREATE_TABLE" then CreateTable <$> result_schema c
  else if String.eqb (ddl_type c) "ALTER_TABLE" then
    match result_schema c with
    | Some {| columns := _ :: _ |} => AlterTable <$> result_schema c
    | _ => AlterTableDiff (ddl_schema c) (ddl_table c) <$> schema_diff c
    end
  else if String.eqb (ddl_type c) "DROP_TABLE" then Some (DropTable (ddl_schema c) (ddl_table c))
  else None.

(** ** The version store *)

Record VersionedSchema := {
  version : Z;
  recorded_at : Z;
  schema : option TableSchema;
  ddl_id : option string
}.

Abbreviation SchemaStore := (gmap string (list VersionedSchema)).

Definition table_key (schema table : string) : string := schema +:+ "." +:+ table.

Definition set_version (v : Z) (s : TableSchema) : TableSchema :=
  {| schema_name := schema_name s; table_name := table_name s; columns := columns s;
     primary_keys := primary_keys s; schema_version := v |}.

Definition set_columns (cs : list ColumnDef) (pk : list string) (s : TableSchema) : TableSchema :=
  {| schema_name := schema_name s; table_name := table_name s; columns := cs;
     primary_keys := pk; schema_version := schema_version s |}.

Definition has_column (n : string) (s : TableSchema) : bool :=
  existsb (fun c => String.eqb (column_name c) n) (columns s).

(** The first column of that name gets the new one. *)
Fixpoint rename_first (from to : string) (cs : list ColumnDef) : list ColumnDef :=
  match cs with
  | [] => []
  | c :: cs' =>
      if String.eqb (column_name c) from then
        {| column_name := to; data_type := data_type c; nullable := nullable c;
           constraints := constraints c |} :: cs'
      else c :: rename_first from to cs'
  end.

Definition apply_operation (s : TableSchema) (o : SchemaDiffOperation) : Res TableSchema :=
  match o with
  | AddColumn column =>
      if has_column (column_name column) s then
        Err (SchemaError "cannot apply ALTER TABLE diff: column already exists")
      else
        let pk :=
          if existsb (fun k => eq_nocase k "primary_key") (constraints column)
             && negb (existsb (fun k => String.eqb k (column_name column)) (primary_keys s))
          then (primary_keys s ++ [column_name column])%list else primary_keys s in
        Ok (set_columns (columns s ++ [column]) pk s)
  | DropColumn name =>
      if negb (has_column name s) then
        Err (SchemaError "cannot apply ALTER TABLE diff: column does not exist")
      else
        Ok (set_columns (List.filter (fun c => negb (String.eqb (column_name c) name)) (columns s))
              (List.filter (fun k => negb (String.eqb k name)) (primary_keys s)) s)
  | RenameColumn from to =>
      if has_column to s then
        Err (SchemaError "cannot apply ALTER TABLE diff: rename target already exists")
      else if negb (has_column from s) then
        Err (SchemaError "cannot apply ALTER TABLE diff: source column does not exist")
      else
        Ok (set_columns (rename_first from to (columns s))
              (map (fun k => if String.eqb k from then to else k) (primary_keys s)) s)
  | Unsupported _ => Err (SchemaError "cannot apply ALTER TABLE diff with unsupported clause")
  end.

Fixpoint apply_operations (s : TableSchema) (os : list SchemaDiffOperation) : Res TableSchema :=
  match os with
  | [] => Ok s
  | o :: os' => s' <-? apply_operation s o; apply_operations s' os'
  end.

Definition apply_schema_diff (s : TableSchema) (d : SchemaDiff) : Res TableSchema :=
  apply_operations s (operations d).

Section Store.
Context `{BuildProfile}.

Definition next_version (store : SchemaStore) (key : string) : Res Z :=
  match store !! key ≫= last with
  | Some entry =>
      if version entry + 1 <=? u32_max then Ok (version entry + 1)
      else if overflow_checks then Panic else Ok 0
  | None => Ok 1
  end.

Definition existing_version_for_ddl (store : SchemaStore) (key id : string) : option Z :=
  if is_empty id then None
  else
    entries ← store !! key;
    version <$> List.find (fun e => bool_decide (ddl_id e = Some id)) entries.

Definition push_entry (key : string) (e : VersionedSchema) (store : SchemaStore) : SchemaStore :=
  <[key := (default [] (store !! key) ++ [e])%list]> store.

(** The table a DDL event is about, and what its next schema is. *)
Definition ddl_key (d : DDLEvent) : string :=
  match d with
  | CreateTable s | AlterTable s => table_key (schema_name s) (table_name s)
  | AlterTableDiff s t _ | DropTable s t => table_key s t
  end.

Definition next_schema (store : SchemaStore) (v : Z) (d : DDLEvent) : Res (option TableSchema) :=
  match d with
  | CreateTable s | AlterTable s => Ok (Some (set_version v s))
  | AlterTableDiff s t diff =>
      match (store !! table_key s t ≫= last) ≫= schema with
      | None => Err (SchemaError "cannot apply ALTER TABLE diff to unknown table")
      | Some latest =>
          s' <-? apply_schema_diff latest diff;
          Ok (Some (set_version v s'))
      end
  | DropTable _ _ => Ok None
  end.

(** The three branches of [record_ddl_in_store] differ in [next_schema] only. *)
Definition record_ddl_in_store (id : string) (d : DDLEvent) (timestamp : Z)
    : M SchemaStore Z := fun store =>
  let key := ddl_key d in
  match existing_version_for_ddl store key id with
  | Some v => (Ok v, store)
  | None =>
      match next_version store key with
      | Ok v =>
          match next_schema store v d with
          | Ok s =>
              (Ok v, push_entry key {| version := v; recorded_at := timestamp; schema := s;
                                       ddl_id := if is_empty id then None else Some id |} store)
          | Err e => (Err e, store)
          | Panic => (Panic, store)
          end
      | Err e => (Err e, store)
      | Panic => (Panic, store)
      end
  end.

End Store.

Definition schema_at_version (store : SchemaStore) (table : string) (v : Z) : option TableSchema :=
  entries ← store !! table;
  entry ← List.find (fun e => version e =? v) entries;
  schema entry.

Definition schema_at_timestamp (store : SchemaStore) (table : string) (ts : Z)
    : option TableSchema :=
  entries ← store !! table;
  entry ← List.find (fun e => recorded_at e <=? ts) (rev entries);
  schema entry.

Definition latest_schema_for_table (store : SchemaStore) (table : string) : option TableSchema :=
  (store !! table ≫= last) ≫= schema.

(** [SchemaHistoryRetention::keep_last] *)
Definition keep_last (n : nat) : Res nat :=
  if Nat.eqb n 0 then
    Err (ConfigError "schema history retention max_versions_per_table must be greater than zero")
  else Ok n.

Definition trim_entries (max : nat) (l : list VersionedSchema) : list VersionedSchema :=
  drop (length l - max) l.

Definition apply_store_retention (max : nat) (store : SchemaStore) : nat * SchemaStore :=
  (map_fold (fun _ l n => (length l - max) + n)%nat 0%nat store, trim_entries max <$> store).

(** ** The backends *)

Section InMemory.
Context `{BuildProfile}.

(** The process-wide clock: [max(wall, last)]. *)
Record InMemorySchemaHistory := { mem_schemas : SchemaStore; mem_last_ts : Z }.

Definition mem_record_ddl (id : string) (d : DDLEvent) (wall : Z)
    : M InMemorySchemaHistory Z := fun h =>
  let now := Z.max wall (mem_last_ts h) in
  let '(r, store) := record_ddl_in_store id d now (mem_schemas h) in
  (r, {| mem_schemas := store; mem_last_ts := now |}).

End InMemory.

Section File.
Context `{BuildProfile} `{JsonCodec}.

Record FileSchemaHistory := {
  path : string;
  file_mode : Z;
  schemas : SchemaStore;
  last_ts : Z;
  lease : option OwnerLease.OwnerLease;
  world : World
}.

Definition with_world (w : World) (h : FileSchemaHistory) : FileSchemaHistory :=
  {| path := path h; file_mode := file_mode h; schemas := schemas h; last_ts := last_ts h;
     lease := lease h; world := w |}.
Definition with_schemas (s : SchemaStore) (t : Z) (h : FileSchemaHistory) : FileSchemaHistory :=
  {| path := path h; file_mode := file_mode h; schemas := s; last_ts := t;
     lease := lease h; world := world h |}.

Definition on_world {A} (m : M World A) : M FileSchemaHistory A := fun h =>
  let '(r, w) := m (world h) in (r, with_world w h).

Definition versioned_json (v : VersionedSchema) : json :=
  JObj [("version", jnat (version v)); ("recorded_at", jnat (recorded_at v));
        ("schema", jopt schema_json (schema v)); ("ddl_id", jopt JStr (ddl_id v))].

Definition store_json (s : SchemaStore) : json :=
  JObj [("schemas", JObj (map (fun '(k, l) => (k, JArr (map versioned_json l))) (map_to_list s)))].

Definition verify_lease_still_held : M FileSchemaHistory unit :=
  h ← gets id;
  match lease h with
  | Some l => on_world (OwnerLease.verify_still_held l)
  | None => throw (StateError "schema_history owner lease is not held; refusing to write")
  end.

(** [path.with_extension("<ext>.<stamp>.tmp")], for the extension [json]. *)
Definition temp_path (p : string) (stamp : Z) : string := p +:+ "." +:+ show stamp +:+ ".tmp".

Definition TEMP_FILE_ATTEMPTS : nat := 8.

Fixpoint create_temp_file (attempts : nat) (p : string) (mode : Z) : M World (string * nat) :=
  match attempts with
  | O => throw (SchemaError "failed to create unique schema history temp file")
  | S n =>
      stamp ← now;
      r ← create_new (temp_path p stamp);
      match r with
      | inl file => io_try (set_permissions file mode) ;; mret (temp_path p stamp, file)
      | inr AlreadyExists => create_temp_file n p mode
      | inr _ => throw (IoError "i/o error")
      end
  end.

Definition persist_bytes_blocking (bytes : list byte) : M FileSchemaHistory unit :=
  verify_lease_still_held ;;
  h ← gets id;
  '(tmp, file) ← on_world (create_temp_file TEMP_FILE_ATTEMPTS (path h) (file_mode h));
  on_world (io_try (write_all file bytes)) ;;
  on_world (io_try (sync_all file)) ;;
  on_world (io_try (rename tmp (path h))) ;;
  on_world fsync_parent_directory.

Definition persist_store (s : SchemaStore) : M FileSchemaHistory unit :=
  persist_bytes_blocking (print_pretty (store_json s)).

Definition total_entries (s : SchemaStore) : nat := map_fold (fun _ l n => length l + n)%nat 0%nat s.

Definition record_ddl (id : string) (d : DDLEvent) : M FileSchemaHistory Z :=
  h ← gets (fun h => h);
  wall ← on_world now;
  let ts := Z.max wall (last_ts h) in
  let '(r, store) := record_ddl_in_store id d ts (schemas h) in
  modify (with_schemas store ts) ;;
  v ← of_res r;
  (if Nat.eqb (total_entries store) (total_entries (schemas h)) then mret tt
   else persist_store store) ;;
  mret v.

Definition apply_retention (max : nat) : M FileSchemaHistory nat :=
  h ← gets (fun h => h);
  let '(removed, store) := apply_store_retention max (schemas h) in
  modify (with_schemas store (last_ts h)) ;;
  (if Nat.ltb 0 removed then persist_store store else mret tt) ;;
  mret removed.

End File.

(** ** Validation of events *)

Definition matches_type (value : json) (data_type : string) : bool :=
  let normalized := lower data_type in
  let has p := contains_str p normalized in
  if has "json" then true
  else if has "bool" then match value with JBool _ => true | _ => false end
  else if has "int" || has "numeric" || has "decimal" || has "float" then
    match value with JNum _ => true | _ => false end
  else if has "char" || has "text" || has "string" || has "uuid" then
    match value with JStr _ => true | _ => false end
  else true.

(** One column of a payload: the field and message of its error, if any. *)
Definition column_error (field_name : string) (object : object) (c : ColumnDef)
    : list (string * string) :=
  let at_ := field_name +:+ "." +:+ column_name c in
  match obj_get (column_name c) object with
  | Some JNull => if nullable c then [] else [(at_, "non-nullable column contains null")]
  | Some v => if matches_type v (data_type c) then []
              else [(at_, "value does not match declared type")]
  | None => if nullable c then [] else [(at_, "required column missing from payload")]
  end.

Definition payload_errors (s : TableSchema) (field_name : string) (payload : option json)
    : list (string * string) :=
  match payload with
  | Some (JObj object) =>
      (flat_map (column_error field_name object) (columns s)
       ++ map (fun kv => (field_name +:+ "." +:+ fst kv, "column not present in schema"))
            (List.filter (fun kv => negb (has_column (fst kv) s)) object))%list
  | _ => []
  end.

Definition validate_event (store : SchemaStore) (e : Event.Event)
    : (unit + list (string * string)) :=
  let key := table_key (default "public" (Event.schema e)) (Event.table e) in
  match latest_schema_for_table store key with
  | None => inr [("schema", "no schema registered")]
  | Some s =>
      match (payload_errors s "before" (Event.before e)
             ++ payload_errors s "after" (Event.after e))%list with
      | [] => inl tt
      | errors => inr errors
      end
  end.

(** ** Replays *)

Definition extends (s s' : SchemaStore) : Prop :=
  forall k l, s !! k = Some l -> exists l', s' !! k = Some (l ++ l')%list.

#[global] Instance extends_preorder : PreOrder extends.
Proof.
  split; [intros s k l Hl; exists []; by rewrite app_nil_r|].
  intros s1 s2 s3 H12 H23 k l Hl. destruct (H12 k l Hl) as [l' Hl'].
  destruct (H23 k _ Hl') as [l'' Hl'']. exists (l' ++ l'')%list. by rewrite app_assoc.
Qed.

Section Replay.
Context `{BuildProfile}.

Lemma push_extends key e s : extends s (push_entry key e s).
Proof.
  intros k l Hl. unfold push_entry. destruct (decide (k = key)) as [->|Hne].
  - rewrite lookup_insert_eq, Hl. by exists [e].
  - rewrite lookup_insert_ne by done. exists []. by rewrite app_nil_r.
Qed.

Lemma record_extends id d ts s r s' : record_ddl_in_store id d ts s = (r, s') -> extends s s'.
Proof.
  unfold record_ddl_in_store. repeat case_match; intros [= <- <-]; first [apply push_extends|reflexivity].
Qed.

Lemma find_app {A} (p : A -> bool) l k :
  List.find p (l ++ k) = match List.find p l with Some a => Some a | None => List.find p k end.
Proof. induction l as [|a l IH]; simpl; [done|]. by destruct (p a). Qed.

Lemma existing_extends s s' key id v : extends s s' ->
  existing_version_for_ddl s key id = Some v -> existing_version_for_ddl s' key id = Some v.
Proof.
  intros Hx. unfold existing_version_for_ddl. destruct (is_empty id); [done|].
  destruct (s !! key) as [l|] eqn:Hl; [|done]. destruct (Hx key l Hl) as [l' ->]. simpl.
  rewrite find_app. by destruct (List.find _ l).
Qed.

Lemma record_remembers id d ts s v s' : id <> "" ->
  record_ddl_in_store id d ts s = (Ok v, s') ->
  existing_version_for_ddl s' (ddl_key d) id = Some v.
Proof.
  intros Hid. unfold record_ddl_in_store.
  destruct (existing_version_for_ddl s (ddl_key d) id) as [v'|] eqn:He.
  { intros [= <- <-]. done. }
  destruct (next_version s (ddl_key d)) as [n| |]; try done.
  destruct (next_schema s n d) as [sc| |]; try done. intros [= <- <-].
  unfold existing_version_for_ddl, push_entry in *. unfold is_empty in *.
  rewrite (proj2 (String.eqb_neq id "") Hid) in *. rewrite lookup_insert_eq. simpl.
  rewrite find_app. destruct (s !! ddl_key d) as [l|]; simpl in *.
  - destruct (List.find _ l); [done|]. simpl. by rewrite bool_decide_true.
  - by rewrite bool_decide_true.
Qed.

(** Records, in order, each with its identity and time; failed ones change nothing. *)
Fixpoint record_all (l : list (string * DDLEvent * Z)) (s : SchemaStore) : SchemaStore :=
  match l with
  | [] => s
  | (id, d, ts) :: l' => record_all l' (record_ddl_in_store id d ts s).2
  end.

Lemma record_all_extends l s : extends s (record_all l s).
Proof.
  revert s. induction l as [|[[id d] ts] l IH]; intros s; simpl; [reflexivity|].
  transitivity (record_ddl_in_store id d ts s).2; [|apply IH].
  destruct (record_ddl_in_store id d ts s) as [r s'] eqn:Hr. by eapply record_extends.
Qed.

(** Recording is idempotent on the identity of the statement. Once a statement has been
    recorded, redelivering it - after any other records, at any time, even in a different
    form for the same table - returns the version it was first given and leaves the history
    as it is; in particular an ALTER TABLE diff is never applied twice. *)
Theorem replayed_ddl_is_recognised id d ts s v s' l d' ts'
    (Hid : id <> "") (Hfirst : record_ddl_in_store id d ts s = (Ok v, s'))
    (Hsame : ddl_key d' = ddl_key d) :
  record_ddl_in_store id d' ts' (record_all l s') = (Ok v, record_all l s').
Proof.
  pose proof (record_remembers _ _ _ _ _ _ Hid Hfirst) as He.
  pose proof (existing_extends _ _ _ _ _ (record_all_extends l s') He) as He'.
  unfold record_ddl_in_store. by rewrite Hsame, He'.
Qed.

End Replay.

(** ** The file backend *)

Section Durable.
Context `{BuildProfile} `{JsonCodec}.

Lemma total_entries_push key e s :
  total_entries (push_entry key e s) = S (total_entries s).
Proof.
  unfold total_entries, push_entry. destruct (s !! key) as [l|] eqn:Hl; simpl.
  - rewrite <- (insert_id s key l Hl) at 2. rewrite <- insert_delete_eq.
    rewrite <- (insert_delete_eq s key l).
    rewrite !map_fold_insert_L by (first [apply lookup_delete_eq | intros; lia]).
    rewrite length_app. simpl. lia.
  - rewrite map_fold_insert_L by (first [done | intros; lia]). simpl. done.
Qed.

Lemma record_total id d ts s v s' : record_ddl_in_store id d ts s = (Ok v, s') ->
  s' = s \/ total_entries s' = S (total_entries s).
Proof.
  unfold record_ddl_in_store.
  repeat case_match; intros [= <- <-]; first [right; apply total_entries_push | by left].
Qed.

Lemma persist_keeps_schemas st h r h' : persist_store st h = (r, h') ->
  schemas h' = schemas h /\ last_ts h' = last_ts h.
Proof.
  assert (Hk : keeps (fun x => schemas x = schemas h /\ last_ts x = last_ts h) (persist_store st)).
  { assert (Hw : forall A (m : M World A),
      keeps (fun x => schemas x = schemas h /\ last_ts x = last_ts h) (on_world m)).
    { intros A m x Hx. unfold on_world. by destruct (m (world x)). }
    unfold persist_store, persist_bytes_blocking, verify_lease_still_held.
    repeat first [apply Hw | apply keeps_gets | apply keeps_throw | apply keeps_bind; [|intros ?]
                 | case_match]. }
  intros Hp. specialize (Hk h (conj eq_refl eq_refl)). by rewrite Hp in Hk.
Qed.

Definition clocked (h : FileSchemaHistory) : Z :=
  Z.max (default 0 (head (times (world h)))) (last_ts h).

(** The call, step by step. *)
Lemma record_ddl_eq id d h :
  record_ddl id d h =
    let '(r, store) := record_ddl_in_store id d (clocked h) (schemas h) in
    let h1 := with_schemas store (clocked h)
                (with_world (set_times (tail (times (world h))) (world h)) h) in
    match r with
    | Ok v =>
        if Nat.eqb (total_entries store) (total_entries (schemas h)) then (Ok v, h1)
        else match persist_store store h1 with
             | (Ok _, h2) => (Ok v, h2)
             | (Err e, h2) => (Err e, h2)
             | (Panic, h2) => (Panic, h2)
             end
    | Err e => (Err e, h1)
    | Panic => (Panic, h1)
    end.
Proof.
  unfold record_ddl, clocked. rewrite bind_eq. cbn [gets]. rewrite bind_eq.
  unfold on_world at 1, now. destruct (world h) as [ds en pe ino fa ti um lr lp]. cbn.
  destruct ti as [|t ti]; cbn;
    match goal with |- context [record_ddl_in_store id d ?z ?s] =>
      destruct (record_ddl_in_store id d z s) as [[v|e|] store] end; try done;
    rewrite bind_eq; cbn; rewrite bind_eq; cbn; rewrite bind_eq; destruct (Nat.eqb _ _); try done;
    by destruct (persist_store _ _) as [[]].
Qed.

(** A statement whose write failed is lost on retry. When [record_ddl] of the file
    backend fails to persist a new version, the version stays in memory; the identical call
    made again is taken for a replay: it succeeds, and leaves the files as the failed call
    left them, so the statement is reported as recorded and is not on disk. *)
Theorem failed_record_is_never_persisted id d h v store e h1
    (Hid : id <> "")
    (Hnew : record_ddl_in_store id d (clocked h) (schemas h) = (Ok v, store))
    (Hfail : record_ddl id d h = (Err e, h1)) :
  exists h2, record_ddl id d h1 = (Ok v, h2) /\
    entries (world h2) = entries (world h1) /\ inodes (world h2) = inodes (world h1).
Proof.
  assert (Hs1 : schemas h1 = store).
  { revert Hfail. rewrite record_ddl_eq, Hnew. cbv zeta iota beta. destruct (Nat.eqb _ _); [done|].
    destruct (persist_store _ _) as [[?|?|] h2] eqn:Hp; try done. intros [= <- <-].
    by destruct (persist_keeps_schemas _ _ _ _ Hp) as [-> _]. }
  rewrite record_ddl_eq. unfold record_ddl_in_store.
  rewrite Hs1, (record_remembers _ _ _ _ _ _ Hid Hnew), Nat.eqb_refl. by eexists.
Qed.

End Durable.

(** ** Captured statements survive their event *)

Definition wf_schema (s : TableSchema) : Prop := 0 <= schema_version s <= u32_max.

Lemma traverse_strings l : traverse as_str (map JStr l) = Some l.
Proof. induction l as [|a l IH]; simpl; [done|]. by rewrite IH. Qed.

Lemma traverse_roundtrip {A} (f : json -> option A) (g : A -> json) l :
  Forall (fun a => f (g a) = Some a) l -> traverse f (map g l) = Some l.
Proof. induction 1 as [|a l Ha Hl IH]; simpl; [done|]. by rewrite Ha, IH. Qed.

Lemma column_roundtrip c : column_from_json (column_json c) = Some c.
Proof.
  unfold column_from_json, column_json. simpl. unfold field. simpl.
  rewrite traverse_strings. by destruct c.
Qed.

#[local] Arguments as_uint : simpl never.
#[local] Arguments jnat : simpl never.

Lemma schema_roundtrip s : wf_schema s -> schema_from_json (schema_json s) = Some s.
Proof.
  intros Hs. unfold schema_from_json, schema_json. simpl. unfold field. simpl.
  rewrite (traverse_roundtrip column_from_json column_json)
    by (apply Forall_true; apply column_roundtrip). simpl.
  rewrite traverse_strings. simpl. unfold jnat. rewrite as_uint_jnat by apply Hs.
  by destruct s.
Qed.

Lemma operation_roundtrip o : operation_from_json (operation_json o) = Some o.
Proof.
  destruct o as [c| | |]; try done. unfold operation_from_json, operation_json, field.
  cbn [as_object mbind option_bind obj_get String.eqb Ascii.eqb eqb]. by rewrite column_roundtrip.
Qed.

Lemma diff_roundtrip d : diff_from_json (diff_json d) = Some d.
Proof.
  unfold diff_from_json, diff_json. simpl. unfold field. simpl.
  rewrite (traverse_roundtrip operation_from_json operation_json)
    by (apply Forall_true; apply operation_roundtrip). by destruct d.
Qed.

Definition forget_ts (c : CapturedDdl) : CapturedDdl :=
  {| ddl_type := ddl_type c; ddl_schema := ddl_schema c; ddl_table := ddl_table c;
     statement := statement c; result_schema := result_schema c;
     schema_diff := schema_diff c; ddl_ts := 0 |}.

(** A captured statement is recovered from the event that announces it, except for its
    timestamp, which the payload does not carry: whatever the result schema and the diff,
    what the runtime records in the history is what the connector captured. *)
Theorem captured_ddl_roundtrip c name offset ts
    (Hwf : forall s, result_schema c = Some s -> wf_schema s) :
  (Event.after (to_event c name offset ts) ≫= from_event_payload) = Some (forget_ts c) /\
  (forall c', (Event.after (to_event c name offset ts) ≫= from_event_payload) = Some c' ->
     to_schema_event c' = to_schema_event c).
Proof.
  assert (Hc : (Event.after (to_event c name offset ts) ≫= from_event_payload) = Some (forget_ts c)).
  { unfold to_event, from_event_payload. destruct c as [ty sc tb st rs sd t]. simpl in *.
    destruct rs as [s|], sd as [d|]; simpl; rewrite ?diff_roundtrip, ?schema_roundtrip by auto; done. }
  split; [exact Hc|]. intros c'. rewrite Hc. by intros [= <-].
Qed.

(** ** Witnesses *)

Module Demo.

#[local] Instance checked : BuildProfile := true.

Definition id_column : ColumnDef :=
  {| column_name := "id"; data_type := "int8"; nullable := false; constraints := ["primary_key"] |}.

Definition orders : TableSchema :=
  {| schema_name := "public"; table_name := "orders"; columns := [id_column];
     primary_keys := ["id"]; schema_version := 0 |}.

Definition add_note : DDLEvent :=
  AlterTableDiff "public" "orders" {| operations :=
    [AddColumn {| column_name := "note"; data_type := "text"; nullable := true; constraints := [] |}] |}.

Definition base : SchemaStore := (record_ddl_in_store "1" (CreateTable orders) 10 ∅).2.

(** The diff is replayed after another statement of the table. *)
Lemma replayed_ddl_is_recognised_witness :
  "2" <> "" /\
  record_ddl_in_store "2" add_note 99
    (record_all [("3", DropTable "public" "other", 30)] (record_ddl_in_store "2" add_note 20 base).2)
  = (Ok 2, record_all [("3", DropTable "public" "other", 30)] (record_ddl_in_store "2" add_note 20 base).2).
Proof.
  split; [done|].
  refine (replayed_ddl_is_recognised "2" add_note 20 base 2 _
    [("3", DropTable "public" "other", 30)] add_note 99 _ _ eq_refl); by vm_compute.
Defined.

Definition disk (fs : list Fault) : World :=
  {| dir_state := Directory; entries := {["history.owner" := 0%nat]}; past_entries := [];
     inodes := {[0%nat := {| content := list_byte_of_string "me"; mode := 384; mtime := 0; synced := true |}]};
     faults := fs; times := []; umask := 0; lease_refs := ∅; lease_refs_poisoned := false |}.

Definition history (fs : list Fault) : FileSchemaHistory :=
  {| path := "history.json"; file_mode := 384; schemas := ∅; last_ts := 0;
     lease := Some {| OwnerLease.lock_path := "history.owner"; OwnerLease.token := "me" |};
     world := disk fs |}.

#[local] Instance blank_codec : JsonCodec :=
  {| print_json := fun _ => []; print_pretty := fun _ => []; parse_json := fun _ => None |}.

(** The write of the temporary file fails; the retry succeeds without writing. *)
Lemma failed_record_is_never_persisted_witness :
  (record_ddl "1" (CreateTable orders) (history [Fine; Fine; Fine; Fails 0])).1 = Err (IoError "i/o error") /\
  exists h2, record_ddl "1" (CreateTable orders)
      (record_ddl "1" (CreateTable orders) (history [Fine; Fine; Fine; Fails 0])).2 = (Ok 1, h2) /\
    entries (world h2)
      = entries (world (record_ddl "1" (CreateTable orders) (history [Fine; Fine; Fine; Fails 0])).2).
Proof.
  split; [by vm_compute|].
  destruct (failed_record_is_never_persisted "1" (CreateTable orders) (history [Fine; Fine; Fine; Fails 0])
    1 (record_ddl_in_store "1" (CreateTable orders) 0 ∅).2 (IoError "i/o error")
    (record_ddl "1" (CreateTable orders) (history [Fine; Fine; Fine; Fails 0])).2)
    as (h2 & H1 & H2 & _); [done|by vm_compute|by vm_compute|].
  exact (ex_intro _ h2 (conj H1 H2)).
Defined.

Definition captured : CapturedDdl :=
  {| ddl_type := "ALTER_TABLE"; ddl_schema := "public"; ddl_table := "orders";
     statement := "ALTER TABLE orders"; result_schema := Some orders; schema_diff := None; ddl_ts := 5 |}.

Lemma captured_ddl_roundtrip_witness :
  wf_schema orders /\
  (Event.after (to_event captured "db" "0/10" 7) ≫= from_event_payload) = Some (forget_ts captured).
Proof.
  assert (Hw : wf_schema orders) by (unfold wf_schema; by vm_compute).
  split; [exact Hw|]. apply captured_ddl_roundtrip. by intros s [= <-].
Defined.

End Demo.

End SchemaHistory.
