(* ===== verification/Text.v ===== *)
(** * Text: [str] as a sequence of characters

    The DDL parsers slice statements at byte positions and compare their upper-case forms,
    so here a Rust [&str] is the list of its characters, each the string of its UTF-8
    bytes.  A slice that does not fall on a character boundary is the panic Rust makes of
    it.  White space is Unicode's; the case mappings of non-ASCII characters are the
    methods of a class, those of ASCII are written out. *)

From S2P Require Import Prelude Errors Strs.

Module Text.

Local Open Scope string_scope.
Local Open Scope Z_scope.
Local Open Scope list_scope.

Create HintDb text.

(** ** Characters *)

Definition text := list string.

(** A continuation byte of UTF-8. *)
Definition continuation (a : ascii) : bool := between 128 191 (code a).

(** [str::chars]: a continuation byte belongs to the character before it. *)
Fixpoint chars (s : string) : text :=
  match s with
  | "" => []
  | String a s' =>
      match chars s' with
      | String b r :: cs => if continuation b then String a (String b r) :: cs
                            else String a "" :: String b r :: cs
      | cs => String a "" :: cs
      end
  end.

(** [String::from_iter] *)
Fixpoint str (t : text) : string :=
  match t with [] => "" | c :: t' => c +:+ str t' end.

Definition is_ascii (c : string) : bool :=
  match c with String a "" => code a <? 128 | _ => false end.

(** The UTF-8 bytes of U+0085, U+00A0, U+1680, U+2000 to U+200A, U+2028, U+2029, U+202F,
    U+205F and U+3000. *)
Definition wide_spaces : list string :=
  map string_of_list_byte
    ([[Byte.xc2; Byte.x85]; [Byte.xc2; Byte.xa0]; [Byte.xe1; Byte.x9a; Byte.x80];
      [Byte.xe2; Byte.x80; Byte.xa8]; [Byte.xe2; Byte.x80; Byte.xa9]; [Byte.xe2; Byte.x80; Byte.xaf];
      [Byte.xe2; Byte.x81; Byte.x9f]; [Byte.xe3; Byte.x80; Byte.x80]]
     ++ map (fun b => [Byte.xe2; Byte.x80; b])
          [Byte.x80; Byte.x81; Byte.x82; Byte.x83; Byte.x84; Byte.x85; Byte.x86; Byte.x87;
           Byte.x88; Byte.x89; Byte.x8a])%list.

(** [char::is_whitespace] *)
Definition white (c : string) : bool :=
  match c with
  | String a "" => is_whitespace a
  | _ => existsb (String.eqb c) wide_spaces
  end.

(** ** Case *)

(** [u8::to_ascii_uppercase] *)
Definition upper_ascii (a : ascii) : ascii :=
  if between 97 122 (code a) then ascii_of_nat (nat_of_ascii a - 32) else a.

(** Unicode's case mappings where they are not those of ASCII: the upper-case form of a
    character, and the lower-case form of a text, which depends on the context. *)
Class CaseTable := {
  upper_other : string -> text;
  lower_other : text -> text;
}.

(** [str::to_uppercase] and [str::to_lowercase] *)
Definition upper_char `{CaseTable} (c : string) : text :=
  match c with
  | String a "" => [String (upper_ascii a) ""]
  | _ => upper_other c
  end.

Definition to_uppercase `{CaseTable} (t : text) : text := flat_map upper_char t.

Definition to_lowercase `{CaseTable} (t : text) : text :=
  if forallb is_ascii t then map lower t else lower_other t.

(** [str::eq_ignore_ascii_case] *)
Definition same_nocase (t u : text) : bool := bool_decide (map lower t = map lower u).

(** ** Trimming and words *)

Fixpoint drop_while (p : string -> bool) (t : text) : text :=
  match t with
  | [] => []
  | c :: t' => if p c then drop_while p t' else t
  end.

Definition drop_while_end (p : string -> bool) (t : text) : text := rev (drop_while p (rev t)).

(** [trim_start], [trim], [trim_end_matches] and [trim_matches] *)
Definition ltrim (t : text) : text := drop_while white t.
Definition strip (t : text) : text := drop_while_end white (ltrim t).
Definition trim_matches (p : string -> bool) (t : text) : text := drop_while_end p (drop_while p t).

Definition blank (t : text) : bool := forallb white t.

(** [str::split_whitespace] *)
Fixpoint words_from (current : text) (t : text) : list text :=
  match t with
  | [] => if bool_decide (current = []) then [] else [current]
  | c :: t' =>
      if white c then ((if bool_decide (current = []) then [] else [current]) ++ words_from [] t')%list
      else words_from (current ++ [c]) t'
  end.

Definition words (t : text) : list text := words_from [] t.

(** [str::split] at a character. *)
Fixpoint split_text (sep : string) (current : text) (t : text) : list text :=
  match t with
  | [] => [current]
  | c :: t' => if String.eqb c sep then current :: split_text sep [] t' else split_text sep (current ++ [c]) t'
  end.

(** ** Slices at byte positions *)

Fixpoint byte_len (t : text) : nat :=
  match t with [] => O | c :: t' => (String.length c + byte_len t')%nat end.

(** [str::split_at] *)
Fixpoint split_bytes (n : nat) (t : text) : Res (text * text) :=
  match n, t with
  | O, _ => Ok ([], t)
  | _, [] => Panic
  | _, c :: t' =>
      if Nat.ltb n (String.length c) then Panic
      else r <-? split_bytes (n - String.length c) t'; Ok (c :: fst r, snd r)
  end.

(** [&s[n..]] and [&s[a..b]] *)
Definition slice_from (n : nat) (t : text) : Res text := r <-? split_bytes n t; Ok (snd r).

Definition slice (a b : nat) (t : text) : Res text :=
  if Nat.ltb b a then Panic else r <-? split_bytes b t; slice_from a (fst r).

(** [str::starts_with], [ends_with], [find], [contains] and [rfind] *)
Fixpoint begins (p t : text) : bool :=
  match p, t with
  | [], _ => true
  | c :: p', d :: t' => String.eqb c d && begins p' t'
  | _ :: _, [] => false
  end.

Definition finishes (c : string) (t : text) : bool :=
  match last t with Some d => String.eqb d c | None => false end.

Fixpoint find (p t : text) : option nat :=
  if begins p t then Some O
  else match t with [] => None | c :: t' => n ← find p t'; Some (String.length c + n)%nat end.

Definition contains (p t : text) : bool := bool_decide (is_Some (find p t)).

Fixpoint rfind (sep : string) (t : text) : option nat :=
  match t with
  | [] => None
  | c :: t' =>
      match rfind sep t' with
      | Some n => Some (String.length c + n)%nat
      | None => if String.eqb c sep then Some O else None
      end
  end.

(** [str::replace] of a doubled character by a single one. *)
Fixpoint undouble (q : string) (t : text) : text :=
  match t with
  | c :: ((d :: t'') as t') =>
      if String.eqb c q && String.eqb d q then q :: undouble q t'' else c :: undouble q t'
  | _ => t
  end.

(** ** ASCII texts

    Their positions are the numbers of their characters, in either case. *)

Definition ascii_text (t : text) : Prop := Forall (fun c => is_ascii c = true) t.

Lemma is_ascii_inv c : is_ascii c = true -> exists a, c = String a "" /\ code a < 128.
Proof. destruct c as [|a [|b c]]; simpl; intros Hc; try done. exists a. split; [done|zlia]. Qed.

Lemma is_ascii_length c : is_ascii c = true -> String.length c = 1%nat.
Proof. by intros (a & -> & _)%is_ascii_inv. Qed.

Lemma byte_len_ascii t : ascii_text t -> byte_len t = length t.
Proof.
  induction 1 as [|c t Hc _ IH]; [done|]. simpl. by rewrite IH, (is_ascii_length c Hc).
Qed.

Lemma split_bytes_ascii n t : ascii_text t -> (n <= length t)%nat -> split_bytes n t = Ok (take n t, drop n t).
Proof.
  intros Ht. revert n. induction Ht as [|c t Hc _ IH]; intros [|n] Hn; simpl in *; try done; [lia|].
  rewrite (is_ascii_length c Hc). simpl. rewrite Nat.sub_0_r, IH by lia. done.
Qed.

Lemma slice_from_ascii n t : ascii_text t -> (n <= length t)%nat -> slice_from n t = Ok (drop n t).
Proof. intros Ht Hn. unfold slice_from. by rewrite split_bytes_ascii. Qed.

Lemma slice_ascii a b t : ascii_text t -> (a <= b <= length t)%nat -> slice a b t = Ok (drop a (take b t)).
Proof.
  intros Ht Hn. unfold slice. case_match eqn:E; [zlia|]. rewrite split_bytes_ascii by (done || lia). simpl.
  apply slice_from_ascii; [by apply Forall_take|]. rewrite length_take. lia.
Qed.

Lemma upper_ascii_code a : code a < 128 -> code (upper_ascii a) < 128.
Proof.
  unfold upper_ascii, code, between. intros Ha. case_match eqn:E; [|done]. zbool.
  rewrite nat_ascii_embedding; unfold code in *; lia.
Qed.

Definition upper_one (c : string) : string :=
  match c with String a "" => String (upper_ascii a) "" | _ => c end.

Lemma to_uppercase_ascii `{CaseTable} t : ascii_text t -> to_uppercase t = map upper_one t.
Proof.
  induction 1 as [|c t Hc _ IH]; [done|]. unfold to_uppercase in *. simpl. rewrite IH.
  by apply is_ascii_inv in Hc as (a & -> & _).
Qed.

Lemma upper_text_ascii `{CaseTable} t : ascii_text t -> ascii_text (to_uppercase t).
Proof.
  intros Ht. rewrite to_uppercase_ascii by done. apply Forall_fmap. eapply Forall_impl; [exact Ht|].
  intros c (a & -> & Ha)%is_ascii_inv. simpl. apply Z.ltb_lt, upper_ascii_code, Ha.
Qed.

Lemma upper_text_length `{CaseTable} t : ascii_text t -> length (to_uppercase t) = length t.
Proof. intros Ht. rewrite to_uppercase_ascii by done. apply length_fmap. Qed.

Lemma begins_length p t : begins p t = true -> (length p <= length t)%nat.
Proof.
  revert t. induction p as [|c p IH]; intros [|d t] Hb; simpl in *; [lia|lia|done|].
  apply andb_true_iff in Hb as [_ ?%IH]. lia.
Qed.

Lemma find_length p t n : ascii_text t -> find p t = Some n -> (n + length p <= length t)%nat.
Proof.
  intros Ht. revert n. induction Ht as [|c t Hc _ IH]; intros n; simpl.
  - destruct (begins p []) eqn:E; [|done]. intros [= <-]. by apply begins_length in E.
  - destruct (begins p (c :: t)) eqn:E.
    + intros [= <-]. by apply begins_length in E.
    + destruct (find p t) as [m|] eqn:F; [|done]. simpl. intros [= <-].
      rewrite (is_ascii_length c Hc). specialize (IH _ eq_refl). lia.
Qed.

Lemma rfind_length sep t n : ascii_text t -> rfind sep t = Some n -> (n < length t)%nat.
Proof.
  intros Ht. revert n. induction Ht as [|c t Hc _ IH]; intros n; simpl; [done|].
  destruct (rfind sep t) as [m|] eqn:F.
  - intros [= <-]. rewrite (is_ascii_length c Hc). specialize (IH _ eq_refl). lia.
  - case_match; [|done]. intros [= <-]. lia.
Qed.

Lemma str_chars s : str (chars s) = s.
Proof.
  induction s as [|a s IH]; [done|]. simpl. destruct (chars s) as [|[|b r] cs]; simpl in *.
  - by rewrite <-IH.
  - by rewrite <-IH.
  - case_match; simpl; by rewrite <-IH.
Qed.

Lemma chars_str t : ascii_text t -> chars (str t) = t.
Proof.
  induction 1 as [|c t Hc Ht IH]; [done|]. apply is_ascii_inv in Hc as (a & -> & _). simpl. rewrite IH.
  inversion Ht as [|c t' (b & -> & Hb)%is_ascii_inv _]; [done|]. subst. simpl.
  unfold continuation, between. destruct (128 <=? code b) eqn:E; [zlia|done].
Qed.

Lemma str_app t u : str (t ++ u) = str t +:+ str u.
Proof. induction t as [|c t IH]; simpl; [done|]. by rewrite IH, append_assoc_r. Qed.

Lemma to_uppercase_app `{CaseTable} t u : to_uppercase (t ++ u) = to_uppercase t ++ to_uppercase u.
Proof. apply flat_map_app. Qed.

(** ** Parts of a text *)

Lemma drop_while_suffix p t : exists u, t = u ++ drop_while p t.
Proof.
  induction t as [|c t IH]; simpl; [by exists []|]. case_match; [|by exists []].
  destruct IH as [u Hu]. exists (c :: u). simpl. by f_equal.
Qed.

Lemma drop_while_all (P : string -> Prop) p t : Forall P t -> Forall P (drop_while p t).
Proof. destruct (drop_while_suffix p t) as [u Hu]. rewrite Hu at 1. by intros [_ ?]%Forall_app. Qed.

Lemma drop_while_length p t : (length (drop_while p t) <= length t)%nat.
Proof. destruct (drop_while_suffix p t) as [u Hu]. rewrite Hu at 2. rewrite length_app. lia. Qed.

Lemma drop_while_end_all (P : string -> Prop) p t : Forall P t -> Forall P (drop_while_end p t).
Proof. intros Ht. by apply Forall_rev, drop_while_all, Forall_rev. Qed.

Lemma ltrim_ascii t : ascii_text t -> ascii_text (ltrim t).
Proof. apply drop_while_all. Qed.

Lemma strip_ascii t : ascii_text t -> ascii_text (strip t).
Proof. intros. by apply drop_while_end_all, ltrim_ascii. Qed.

Lemma drop_ascii n t : ascii_text t -> ascii_text (drop n t).
Proof. apply Forall_drop. Qed.

#[export] Hint Resolve ltrim_ascii strip_ascii upper_text_ascii drop_ascii : text.

Lemma words_from_all (P : string -> Prop) cur t : Forall P cur -> Forall P t -> Forall (Forall P) (words_from cur t).
Proof.
  intros Hc Ht. revert cur Hc. induction Ht as [|c t Hp _ IH]; intros cur Hc; simpl.
  - case_match; by repeat constructor.
  - case_match; [apply Forall_app; split; [case_match; by repeat constructor|by apply IH; constructor]|].
    apply IH, Forall_app; auto.
Qed.

Lemma drop_while_here p c t : p c = false -> drop_while p (c :: t) = c :: t.
Proof. simpl. by intros ->. Qed.

Lemma drop_while_end_here p t c : p c = false -> drop_while_end p (t ++ [c]) = t ++ [c].
Proof. intros Hc. unfold drop_while_end. rewrite rev_unit, drop_while_here, <-rev_unit, rev_involutive by done. done. Qed.

Lemma drop_while_end_keep p t c u : p c = false -> exists v, drop_while_end p (t ++ c :: u) = t ++ c :: v.
Proof.
  intros Hc. induction u as [|d u IH] using rev_ind.
  - exists []. by apply drop_while_end_here.
  - unfold drop_while_end in *. rewrite app_comm_cons, app_assoc, rev_unit. cbn [drop_while].
    destruct (p d); [done|]. exists (u ++ [d]). by rewrite <-rev_unit, rev_involutive, <-app_assoc.
Qed.

(** A text that neither starts nor ends with white space is left as it is. *)
Lemma strip_id t a u v e : t = a :: u -> white a = false -> t = v ++ [e] -> white e = false -> strip t = t.
Proof.
  intros E Ha E' He. unfold strip, ltrim. rewrite E at 1. rewrite drop_while_here, <-E, E' by done.
  by apply drop_while_end_here.
Qed.

Lemma undouble_none q t : Forall (fun c => String.eqb c q = false) t -> undouble q t = t.
Proof.
  induction 1 as [|c t Hc Ht IH]; [done|]. destruct t as [|d t]; [done|].
  cbn [undouble] in *. rewrite Hc. cbn. by rewrite IH.
Qed.

Lemma to_lowercase_id `{CaseTable} t : Forall (fun c => is_ascii c = true /\ lower c = c) t -> to_lowercase t = t.
Proof.
  intros Ht. unfold to_lowercase.
  assert (forallb is_ascii t = true) as ->.
  { apply forallb_forall. intros c Hc%list_elem_of_In. rewrite Forall_forall in Ht. by apply Ht. }
  induction Ht as [|c t [_ Hc] _ IH]; [done|]. simpl. by rewrite Hc, IH.
Qed.

Lemma byte_len_app t u : byte_len (t ++ u) = (byte_len t + byte_len u)%nat.
Proof. induction t as [|c t IH]; simpl; [done|]. rewrite IH. lia. Qed.

(** No occurrence starts where the pattern's first character does not occur. *)
Lemma find_skip c p t u : Forall (fun d => String.eqb c d = false) t ->
  find (c :: p) (t ++ u) = (n ← find (c :: p) u; Some (byte_len t + n)%nat).
Proof.
  induction 1 as [|d t Hd _ IH]; [simpl; by destruct (find _ u)|].
  simpl. rewrite Hd, IH. simpl. destruct (find (c :: p) u); [|done]. simpl. f_equal. lia.
Qed.

Lemma rfind_last sep t u : rfind sep u = None -> rfind sep (t ++ sep :: u) = Some (byte_len t).
Proof.
  intros Hu. induction t as [|c t IH]; simpl.
  - by rewrite Hu, String.eqb_refl.
  - by rewrite IH.
Qed.

Lemma split_bytes_app t u : Forall (fun c => c <> "") t -> split_bytes (byte_len t) (t ++ u) = Ok (t, u).
Proof.
  induction 1 as [|c t Hc _ IH]; [by destruct u|]. simpl.
  destruct (String.length c) as [|n] eqn:E; [by destruct c|]. simpl.
  assert (Nat.ltb (S (n + byte_len t)) (S n) = false) as -> by (apply Nat.ltb_ge; lia).
  replace (n + byte_len t - n)%nat with (byte_len t) by lia. by rewrite IH.
Qed.

Lemma slice_middle t u v : Forall (fun c => c <> "") (t ++ u) ->
  slice (byte_len t) (byte_len (t ++ u)) (t ++ u ++ v) = Ok u.
Proof.
  intros Hn. unfold slice. rewrite byte_len_app.
  replace (Nat.ltb _ _) with false by (symmetry; apply Nat.ltb_ge; lia).
  rewrite <-byte_len_app, app_assoc, split_bytes_app by done. simpl. unfold slice_from.
  apply Forall_app in Hn as [Ht _]. by rewrite split_bytes_app.
Qed.

Lemma ascii_not_empty t : ascii_text t -> Forall (fun c => c <> "") t.
Proof. intros Ht. eapply Forall_impl; [exact Ht|]. by intros [|]. Qed.

End Text.
