(* ===== verification/DdlParse.v ===== *)
(** * DdlParse: reading CREATE, ALTER and DROP TABLE

    Models [src/src/ddl_capture/parsing.rs] and the parsing half of
    [src/src/ddl_capture/mod.rs]: from the text of a statement to the captured DDL with its
    table, its columns or its differences.  Statements are the character sequences of
    [Text]; a slice off a character boundary panics as it does in Rust. *)

From S2P Require Import Prelude Errors Strs Text SchemaHistory.

Module DdlParse.
Import Text SchemaHistory.

Local Open Scope string_scope.
Local Open Scope list_scope.

Inductive DdlDialect := Postgres | Mysql | SqlServer.

Definition default_schema (d : DdlDialect) : string :=
  match d with Postgres => "public" | Mysql => "default" | SqlServer => "dbo" end.

Inductive DdlOperation := OpCreateTable | OpAlterTable | OpDropTable.

Definition as_ddl_type (o : DdlOperation) : string :=
  match o with
  | OpCreateTable => "CREATE_TABLE"
  | OpAlterTable => "ALTER_TABLE"
  | OpDropTable => "DROP_TABLE"
  end.

Record ParsedDdlStatement := {
  dialect : DdlDialect;
  operation : DdlOperation;
  parsed_schema : string;
  parsed_table : string;
  parsed_statement : string;
  parsed_result : option TableSchema;
  parsed_diff : option SchemaDiff;
}.

Definition into_captured (p : ParsedDdlStatement) : CapturedDdl :=
  {| ddl_type := as_ddl_type (operation p); ddl_schema := parsed_schema p;
     ddl_table := parsed_table p; statement := parsed_statement p;
     result_schema := parsed_result p; schema_diff := parsed_diff p; ddl_ts := 0 |}.

Definition dq : string := String "034"%char "".

Definition semi_or_comma (c : string) : bool := String.eqb c ";" || String.eqb c ",".

Section Parsing.
Context `{CaseTable}.

(** ** Identifiers *)

Definition quoted_by (opening closing : string) (t : text) : bool :=
  begins [opening] t && finishes closing t && Nat.leb 2 (byte_len t).

Definition unquoted (closing : string) (t : text) : text := undouble closing (removelast (tl t)).

Definition normalize_identifier (ident : text) : text :=
  let trimmed := drop_while_end semi_or_comma (strip ident) in
  if quoted_by dq dq trimmed then to_lowercase (unquoted dq trimmed)
  else if quoted_by "`" "`" trimmed then to_lowercase (unquoted "`" trimmed)
  else if quoted_by "[" "]" trimmed then to_lowercase (unquoted "]" trimmed)
  else to_lowercase trimmed.

(** The parts of a qualified name; [q] is the opening quote of the part being read. *)
Definition closing_of (q : string) : string := if String.eqb q "[" then "]" else q.

Fixpoint identifier_parts (q : option string) (current : text) (t : text) : list text :=
  let finish := if blank current then [] else [strip current] in
  match t with
  | [] => finish
  | ch :: t' =>
      match q with
      | Some quote =>
          if String.eqb ch (closing_of quote) then
            match t' with
            | next :: t'' =>
                if String.eqb next (closing_of quote)
                then identifier_parts q (current ++ [ch; next]) t''
                else identifier_parts None (current ++ [ch]) t'
            | [] => identifier_parts None (current ++ [ch]) t'
            end
          else identifier_parts q (current ++ [ch]) t'
      | None =>
          if String.eqb ch dq || String.eqb ch "`" || String.eqb ch "[" then
            identifier_parts (Some ch) (current ++ [ch]) t'
          else if String.eqb ch "." then
            strip current :: identifier_parts None [] t'
          else if (String.eqb ch "(" || String.eqb ch "," || String.eqb ch ";") && blank current then finish
          else if white ch then finish
          else identifier_parts None (current ++ [ch]) t'
      end
  end.

(** An empty part before a dot makes the whole name unusable. *)
Definition split_qualified_identifier_parts (sql : text) : list text :=
  let parts := identifier_parts None [] (strip sql) in
  if existsb (fun p => bool_decide (p = [])) parts then [] else parts.

Definition extract_qualified_name_with_default (sql : text) (default : string)
    : option (string * string) :=
  match rev (split_qualified_identifier_parts (strip sql)) with
  | [] => None
  | [table] => Some (default, str (normalize_identifier table))
  | table :: schema :: _ =>
      let schema := normalize_identifier schema in
      let table := normalize_identifier table in
      if bool_decide (schema = []) || bool_decide (table = []) then None
      else Some (str schema, str table)
  end.

(** ** Keywords before a name *)

Definition strip_optional_keyword (input : text) (keyword : text) : Res text :=
  let trimmed := ltrim input in
  if Nat.ltb (byte_len trimmed) (byte_len keyword) then Ok trimmed
  else
    parts <-? split_bytes (byte_len keyword) trimmed;
    let '(candidate, rest) := parts in
    if same_nocase candidate keyword
       && match rest with [] => true | c :: _ => white c end
    then Ok (ltrim rest) else Ok trimmed.

(** Each turn but the last drops a character. *)
Fixpoint strip_modifiers (fuel : nat) (input : text) : Res text :=
  match fuel with
  | O => Panic
  | S fuel' =>
      only <-? strip_optional_keyword input (chars "ONLY");
      exists_ <-? strip_optional_keyword only (chars "IF EXISTS");
      if bool_decide (exists_ = input) then Ok input else strip_modifiers fuel' exists_
  end.

Definition strip_alter_target_modifiers (input : text) : Res text :=
  strip_modifiers (S (length input)) input.

Definition parse_schema_table_for_dialect (d : DdlDialect) (st : text) : Res (option (string * string)) :=
  let upper := to_uppercase st in
  let named target := Ok (extract_qualified_name_with_default target (default_schema d)) in
  if begins (chars "CREATE TABLE") upper then
    target <-? slice_from 12 st; named (ltrim target)
  else if begins (chars "ALTER TABLE") upper then
    target <-? slice_from 11 st;
    target <-? strip_alter_target_modifiers (ltrim target); named target
  else if begins (chars "DROP TABLE") upper then
    target <-? slice_from 10 st;
    let after_drop := ltrim target in
    if begins (chars "IF EXISTS") (to_uppercase after_drop) then
      rest <-? slice_from 9 after_drop; named (ltrim rest)
    else named after_drop
  else Ok None.

(** ** Clauses *)

(** What a quoted stretch pushes for one character and how it goes on: the characters
    taken, and whether the quote is still open.  Brackets have no backslash escape. *)
Definition in_quotes (quote ch : string) (t' : text) : nat * bool :=
  match t' with
  | next :: _ =>
      if String.eqb ch "\" && negb (String.eqb quote "]") then (2%nat, true)
      else if String.eqb ch quote then
        if String.eqb next quote then (2%nat, true) else (1%nat, false)
      else (1%nat, true)
  | [] => (1%nat, negb (String.eqb ch quote))
  end.

Definition quote_of (ch : string) : option string :=
  if String.eqb ch dq || String.eqb ch "'" || String.eqb ch "`" then Some ch
  else if String.eqb ch "[" then Some "]" else None.

(** A text cut into its top-level clauses.  [skip] characters have been taken already. *)
Fixpoint clauses (skip : nat) (q : option string) (depth : nat) (current : text) (t : text)
    : list text :=
  let emit := if blank current then [] else [strip current] in
  match t with
  | [] => emit
  | ch :: t' =>
      match skip with
      | S skip' => clauses skip' q depth (current ++ [ch]) t'
      | O =>
          match q with
          | Some quote =>
              let '(taken, open) := in_quotes quote ch t' in
              clauses (taken - 1) (if open then q else None) depth (current ++ [ch]) t'
          | None =>
              match quote_of ch with
              | Some quote => clauses 0 (Some quote) depth (current ++ [ch]) t'
              | None =>
                  if String.eqb ch "(" then clauses 0 None (S depth) (current ++ [ch]) t'
                  else if String.eqb ch ")" then clauses 0 None (depth - 1) (current ++ [ch]) t'
                  else if String.eqb ch "," && Nat.eqb depth 0 then emit ++ clauses 0 None 0 [] t'
                  else clauses 0 None depth (current ++ [ch]) t'
              end
          end
      end
  end.

Definition split_sql_clauses (input : text) : list text := clauses 0 None 0 [] input.

(** White space squeezed and letters raised outside quotes. *)
Fixpoint normalize_chars (skip : nat) (q : option string) (in_whitespace : bool) (t : text) : text :=
  match t with
  | [] => []
  | ch :: t' =>
      match skip with
      | S skip' => ch :: normalize_chars skip' q in_whitespace t'
      | O =>
          match q with
          | Some quote =>
              let '(taken, open) := in_quotes quote ch t' in
              ch :: normalize_chars (taken - 1) (if open then q else None) in_whitespace t'
          | None =>
              if white ch then
                if in_whitespace then normalize_chars 0 None true t'
                else " " :: normalize_chars 0 None true t'
              else match quote_of ch with
                   | Some quote => ch :: normalize_chars 0 (Some quote) false t'
                   | None => (match ch with String a "" => String (upper_ascii a) "" | _ => ch end)
                               :: normalize_chars 0 None false t'
                   end
          end
      end
  end.

Definition normalize_clause_for_diff (clause : text) : string :=
  str (strip (normalize_chars 0 None false (drop_while_end semi_or_comma (strip clause)))).

(** The clauses of ALTER TABLE: what follows the white space after the name. *)
Fixpoint split_alter_table_clauses (in_quote : option string) (t : text) : option text :=
  match t with
  | [] => None
  | ch :: t' =>
      match in_quote with
      | Some quote => split_alter_table_clauses (if String.eqb ch quote then None else in_quote) t'
      | None =>
          if String.eqb ch dq || String.eqb ch "`" then split_alter_table_clauses (Some ch) t'
          else if String.eqb ch "[" then split_alter_table_clauses (Some "]") t'
          else if white ch then Some (ltrim t)
          else split_alter_table_clauses None t'
      end
  end.

(** ** Columns *)

Definition reserved_words : list text :=
  map chars ["CONSTRAINT"; "PRIMARY"; "FOREIGN"; "UNIQUE"; "CHECK"; "INDEX"; "KEY"; "FULLTEXT";
             "SPATIAL"; "PARTITION"; "DEFAULT"].

Definition is_column_clause_candidate (raw : text) : bool :=
  match words raw with
  | [] => false
  | first :: _ =>
      if begins [dq] first || begins ["`"] first || begins ["["] first then true
      else negb (existsb (fun w => bool_decide (w = to_uppercase (trim_matches semi_or_comma first)))
                   reserved_words)
  end.

Definition column (name data_type : text) (nullable : bool) : ColumnDef :=
  {| column_name := str name; data_type := str data_type; nullable := nullable; constraints := [] |}.

Definition parse_simple_column (def : text) : option ColumnDef :=
  match words (strip def) with
  | name :: ty :: _ =>
      Some (column (normalize_identifier name) (to_uppercase (trim_matches semi_or_comma ty))
              (negb (contains (chars "NOT NULL") (to_uppercase (strip def)))))
  | _ => None
  end.

(** From the opening quote to its closing one, doubled ones inside. *)
Fixpoint quoted_rest (skip : nat) (closing : string) (t : text) : option (text * text) :=
  match t with
  | [] => None
  | ch :: t' =>
      let go k := r ← quoted_rest k closing t'; Some (ch :: fst r, snd r) in
      match skip with
      | S skip' => go skip'
      | O => if String.eqb ch closing then
               if begins [closing] t' then go 1%nat else Some ([ch], t')
             else go O
      end
  end.

Definition extract_quoted_identifier (input : text) (closing : string) : option (text * text) :=
  match input with
  | [] => None
  | opening :: t => r ← quoted_rest 0 closing t; Some (opening :: fst r, snd r)
  end.

Definition ends_identifier (c : string) : bool :=
  white c || String.eqb c "(" || String.eqb c "," || String.eqb c ";".

Fixpoint take_identifier (t : text) : text * text :=
  match t with
  | [] => ([], [])
  | c :: t' => if ends_identifier c then ([], t)
               else let '(w, rest) := take_identifier t' in (c :: w, rest)
  end.

Definition extract_first_identifier (input : text) : option (text * text) :=
  let input := strip input in
  if begins [dq] input then extract_quoted_identifier input dq
  else if begins ["`"] input then extract_quoted_identifier input "`"
  else if begins ["["] input then extract_quoted_identifier input "]"
  else match take_identifier input with
       | ([], _) => None
       | r => Some r
       end.

(** The type, and the number of characters read. *)
Fixpoint column_type (depth : Z) (i : nat) (t : text) : text * nat :=
  match t with
  | [] => ([], i)
  | ch :: t' =>
      let push d := let '(w, n) := column_type d (S i) t' in (ch :: w, n) in
      if String.eqb ch "(" then push (depth + 1)%Z
      else if String.eqb ch ")" then push (depth - 1)%Z
      else if (String.eqb ch " " || String.eqb ch "," || String.eqb ch ";") && (depth =? 0)%Z then ([], i)
      else push depth
  end.

(** The rest is sliced at the number of characters, as if each were one byte. *)
Definition extract_column_type (input : text) : Res (option (text * text)) :=
  let input := ltrim input in
  match column_type 0 0 input with
  | ([], _) => Ok None
  | (type_str, end_idx) => remaining <-? slice_from end_idx input; Ok (Some (type_str, remaining))
  end.

Definition computed (upper_def : text) : bool :=
  contains (chars " GENERATED ALWAYS AS ") upper_def
  || contains (chars " AS ") upper_def && contains (chars "PERSISTED") upper_def.

Definition parse_enhanced_column (def : text) : Res (option ColumnDef) :=
  let def := strip def in
  match extract_first_identifier def with
  | None => Ok None
  | Some (name, rest) =>
      let name := normalize_identifier name in
      if computed (to_uppercase def) then Ok (Some (column name (chars "COMPUTED") false))
      else
        found <-? extract_column_type (ltrim rest);
        match found with
        | None => Ok None
        | Some (ty, rest) =>
            Ok (Some (column name (to_uppercase ty) (negb (contains (chars "NOT NULL") (to_uppercase rest)))))
        end
  end.

Fixpoint create_columns (cs : list text) : Res (list ColumnDef) :=
  match cs with
  | [] => Ok []
  | c :: cs' =>
      found <-? (if is_column_clause_candidate (strip c) then parse_enhanced_column (strip c) else Ok None);
      rest <-? create_columns cs';
      Ok (match found with Some col => col :: rest | None => rest end)
  end.

(** What is between the first opening and the last closing parenthesis. *)
Definition body (sql : text) : Res (option text) :=
  match find ["("] sql, rfind ")" sql with
  | Some start, Some stop => b <-? slice (start + 1) stop sql; Ok (Some b)
  | _, _ => Ok None
  end.

Definition extract_columns_from_create (sql : text) : Res (list ColumnDef) :=
  content <-? body sql;
  match content with
  | Some t => create_columns (split_sql_clauses t)
  | None => Ok []
  end.

(** ** Primary keys *)

Definition nonempty_names (l : list text) : list string :=
  map str (List.filter (fun n => negb (bool_decide (n = []))) l).

Definition inline_primary_key (column_def : text) : list string :=
  if contains (chars "PRIMARY KEY") (to_uppercase column_def) then
    match words column_def with
    | name :: _ => nonempty_names [normalize_identifier name]
    | [] => []
    end
  else [].

Fixpoint inline_primary_keys (depth : Z) (current : text) (t : text) : list string :=
  match t with
  | [] => inline_primary_key current
  | ch :: t' =>
      if String.eqb ch "(" then inline_primary_keys (depth + 1) (current ++ [ch]) t'
      else if String.eqb ch ")" then inline_primary_keys (depth - 1) (current ++ [ch]) t'
      else if String.eqb ch "," && (depth =? 0)%Z then
        inline_primary_key current ++ inline_primary_keys depth [] t'
      else inline_primary_keys depth (current ++ [ch]) t'
  end.

(** The parenthesised list after the first PRIMARY KEY, whose position is found in the
    upper-case text and used in the text itself. *)
Definition key_clause (sql : text) : Res (option (list string)) :=
  match find (chars "PRIMARY KEY") (to_uppercase sql) with
  | None => Ok None
  | Some pk_start =>
      after_pk <-? slice_from (pk_start + 11) sql;
      let after_pk := ltrim after_pk in
      if begins ["("] after_pk then
        match find [")"] after_pk with
        | Some paren_end =>
            pk_cols <-? slice 1 paren_end after_pk;
            Ok (Some (nonempty_names
                        (map (fun c => normalize_identifier (strip c)) (split_text "," [] pk_cols))))
        | None => Ok None
        end
      else Ok None
  end.

Definition extract_primary_keys (sql : text) : Res (list string) :=
  found <-? key_clause sql;
  match found with
  | Some pks => Ok pks
  | None =>
      content <-? body sql;
      Ok (match content with Some col_defs => inline_primary_keys 0 [] col_defs | None => [] end)
  end.

Definition parse_create_table_schema_for_dialect (d : DdlDialect) (st : text) : Res (option TableSchema) :=
  found <-? parse_schema_table_for_dialect d st;
  match found with
  | None => Ok None
  | Some (schema, table) =>
      if begins (chars "ALTER TABLE") (to_uppercase (ltrim st)) then Ok None
      else
        columns <-? extract_columns_from_create st;
        primary_keys <-? extract_primary_keys st;
        Ok (Some {| schema_name := schema; table_name := table; columns := columns;
                    primary_keys := primary_keys; schema_version := 0 |})
  end.

(** ** Differences *)

Definition unsupported (trimmed : text) : SchemaDiffOperation :=
  Unsupported (normalize_clause_for_diff trimmed).

Definition add_clause (trimmed raw : text) : Res (option SchemaDiffOperation) :=
  raw <-? strip_optional_keyword (strip raw) (chars "IF NOT EXISTS");
  if negb (is_column_clause_candidate raw) then Ok (Some (unsupported trimmed))
  else Ok (col ← parse_simple_column raw; Some (AddColumn col)).

Definition drop_clause (trimmed raw : text) : Res (option SchemaDiffOperation) :=
  raw <-? strip_optional_keyword (strip raw) (chars "IF EXISTS");
  if negb (is_column_clause_candidate raw) then Ok (Some (unsupported trimmed))
  else
    let name := match words raw with w :: _ => normalize_identifier w | [] => [] end in
    Ok (if bool_decide (name = []) then None else Some (DropColumn (str name))).

Definition rename_clause (trimmed raw : text) : Res (option SchemaDiffOperation) :=
  match find (chars " TO ") (to_uppercase raw) with
  | None => Ok (Some (unsupported trimmed))
  | Some to_pos =>
      parts <-? split_bytes to_pos raw;
      after <-? slice_from (to_pos + 4) raw;
      let from := normalize_identifier (strip (fst parts)) in
      let to := normalize_identifier (strip after) in
      Ok (Some (if bool_decide (from = []) || bool_decide (to = []) then unsupported trimmed
                else RenameColumn (str from) (str to)))
  end.

Definition parse_alter_clause (clause : text) : Res (option SchemaDiffOperation) :=
  let trimmed := strip clause in
  let upper := to_uppercase trimmed in
  if bool_decide (trimmed = []) then Ok None
  else if begins (chars "ADD COLUMN ") upper then
    raw <-? slice_from 11 trimmed; add_clause trimmed raw
  else if begins (chars "ADD ") upper then
    raw <-? slice_from 4 trimmed; add_clause trimmed raw
  else if begins (chars "DROP COLUMN ") upper then
    raw <-? slice_from 12 trimmed; drop_clause trimmed raw
  else if begins (chars "DROP ") upper then
    raw <-? slice_from 5 trimmed; drop_clause trimmed raw
  else if begins (chars "RENAME COLUMN ") upper then
    raw <-? slice_from 14 trimmed; rename_clause trimmed (ltrim raw)
  else Ok (Some (unsupported trimmed)).

Fixpoint alter_operations (cs : list text) : Res (list SchemaDiffOperation) :=
  match cs with
  | [] => Ok []
  | c :: cs' =>
      found <-? parse_alter_clause c;
      rest <-? alter_operations cs';
      Ok (match found with Some op => op :: rest | None => rest end)
  end.

Definition parse_alter_table_diff_for_dialect (d : DdlDialect) (st : text) : Res (option SchemaDiff) :=
  if negb (begins (chars "ALTER TABLE") (to_uppercase st)) then Ok None
  else
    target <-? slice_from 11 st;
    after_alter <-? strip_alter_target_modifiers (ltrim target);
    match split_alter_table_clauses None after_alter with
    | None | Some [] => Ok None
    | Some cs =>
        ops <-? alter_operations (split_sql_clauses cs);
        Ok (if bool_decide (length ops = 0)%nat then None else Some {| operations := ops |})
    end.

(** ** Statements *)

Definition operation_of (upper : text) : option DdlOperation :=
  if begins (chars "CREATE TABLE") upper then Some OpCreateTable
  else if begins (chars "ALTER TABLE") upper then Some OpAlterTable
  else if begins (chars "DROP TABLE") upper then Some OpDropTable
  else None.

Definition parse_ddl_statement (d : DdlDialect) (st : string) : Res (option ParsedDdlStatement) :=
  let st := strip (chars st) in
  match operation_of (to_uppercase st) with
  | None => Ok None
  | Some op =>
      found <-? parse_schema_table_for_dialect d st;
      match found with
      | None => Ok None
      | Some (schema, table) =>
          result <-? match op with
                     | OpCreateTable => parse_create_table_schema_for_dialect d st
                     | _ => Ok None
                     end;
          diff <-? match op with
                   | OpAlterTable => parse_alter_table_diff_for_dialect d st
                   | _ => Ok None
                   end;
          Ok (Some {| dialect := d; operation := op; parsed_schema := schema; parsed_table := table;
                      parsed_statement := str st; parsed_result := result; parsed_diff := diff |})
      end
  end.

Definition extract_captured_ddl (d : DdlDialect) (message : string) : Res (option CapturedDdl) :=
  parsed <-? parse_ddl_statement d message;
  Ok (option_map into_captured parsed).

(** ** Statements in ASCII do not panic *)

Definition fine {A} (r : Res A) : Prop := exists a, r = Ok a.

Lemma fine_bind {A B} (m : Res A) (k : A -> Res B) :
  fine m -> (forall a, m = Ok a -> fine (k a)) -> fine (res_bind m k).
Proof. intros [a ->] Hk. by apply Hk. Qed.

Lemma fine_ok {A} (a : A) : fine (Ok a).
Proof. by exists a. Qed.

#[local] Hint Resolve fine_ok : text.

Lemma keyword_ascii input keyword : ascii_text input -> ascii_text keyword -> keyword <> [] ->
  exists r, strip_optional_keyword input keyword = Ok r /\ ascii_text r
    /\ (r = input \/ length r < length input)%nat.
Proof.
  intros Hi Hk Hne. unfold strip_optional_keyword. pose proof (ltrim_ascii _ Hi) as Ht.
  rewrite !byte_len_ascii by done.
  assert (Hl : ltrim input = input \/ (length (ltrim input) < length input)%nat).
  { destruct (drop_while_suffix white input) as [[|c u] Hu]; [by left|right].
    rewrite Hu at 2. unfold ltrim. rewrite length_app. simpl. lia. }
  case_match eqn:E; [by exists (ltrim input)|]. zbool.
  rewrite split_bytes_ascii by done. simpl. case_match eqn:E'; [|by exists (ltrim input)].
  exists (ltrim (drop (length keyword) (ltrim input))). split_and!; [done|auto with text|].
  right. pose proof (drop_while_length white (drop (length keyword) (ltrim input))) as H1.
  pose proof (drop_while_length white input) as H2. unfold ltrim in *. rewrite length_drop in H1.
  destruct keyword; [done|]. simpl in *. lia.
Qed.

Lemma modifiers_ascii fuel input : ascii_text input -> (length input < fuel)%nat ->
  exists r, strip_modifiers fuel input = Ok r /\ ascii_text r.
Proof.
  revert input. induction fuel as [|fuel IH]; intros input Hi Hf; [lia|]. cbn [strip_modifiers].
  destruct (keyword_ascii input (chars "ONLY")) as (r1 & -> & H1 & L1); [done|by repeat constructor|done|].
  cbn [res_bind].
  destruct (keyword_ascii r1 (chars "IF EXISTS")) as (r2 & -> & H2 & L2); [done|by repeat constructor|done|].
  cbn [res_bind]. case_bool_decide as E; [by exists input|]. apply IH; [done|].
  destruct L1 as [->|L1], L2 as [->|L2]; try done; lia.
Qed.

Lemma chars_begin p t : ascii_text t -> begins (chars p) (to_uppercase t) = true -> (length (chars p) <= length t)%nat.
Proof. intros Ht Hb%begins_length. by rewrite upper_text_length in Hb. Qed.

Lemma table_ascii d st : ascii_text st -> fine (parse_schema_table_for_dialect d st).
Proof.
  intros Hs. unfold parse_schema_table_for_dialect.
  case_match eqn:E; [apply chars_begin in E; [|done]; simpl in E; rewrite slice_from_ascii by done; simpl; auto with text|].
  clear E. case_match eqn:E.
  { apply chars_begin in E; [|done]. simpl in E. rewrite slice_from_ascii by done. cbn [res_bind].
    unfold strip_alter_target_modifiers.
    destruct (modifiers_ascii (S (length (ltrim (drop 11 st)))) (ltrim (drop 11 st))) as (r & -> & _);
      [by apply ltrim_ascii, Forall_drop|lia|]. simpl. auto with text. }
  clear E. case_match eqn:E; [|auto with text].
  apply chars_begin in E; [|done]. simpl in E. rewrite slice_from_ascii by done. cbn [res_bind].
  case_match eqn:E'; [|auto with text].
  assert (Ha : ascii_text (ltrim (drop 10 st))) by (by apply ltrim_ascii, Forall_drop).
  apply chars_begin in E'; [|done]. simpl in E'. rewrite slice_from_ascii by done. simpl. auto with text.
Qed.

Lemma column_type_bound depth i t : forall w n, column_type depth i t = (w, n) -> (i <= n <= i + length t)%nat.
Proof.
  revert depth i. induction t as [|c t IH]; intros depth i w n; simpl; [intros [= <- <-]; lia|].
  repeat case_match; intros Hw; simplify_eq/=; try lia;
    match goal with H : column_type _ _ _ = _ |- _ => apply IH in H; lia end.
Qed.

Lemma extract_type_ascii input : ascii_text input -> fine (extract_column_type input).
Proof.
  intros Hi. unfold extract_column_type. destruct (column_type 0 0 (ltrim input)) as [w n] eqn:E.
  apply column_type_bound in E. destruct w; [auto with text|].
  rewrite slice_from_ascii by (auto with text || lia). simpl. auto with text.
Qed.

Lemma quoted_rest_ascii skip closing t w r : ascii_text t -> quoted_rest skip closing t = Some (w, r) -> ascii_text r.
Proof.
  intros Ht. revert skip w r. induction Ht as [|c t Hc Ht IH]; intros skip w r; simpl; [done|].
  assert (Hgo : forall k, (r0 ← quoted_rest k closing t; Some (c :: r0.1, r0.2)) = Some (w, r) -> ascii_text r).
  { intros k. destruct (quoted_rest k closing t) as [[w' r']|] eqn:E; [|done]. simpl. intros [= <- <-]. by eapply IH. }
  destruct skip; [|apply Hgo]. case_match; [|apply Hgo]. case_match; [apply Hgo|]. by intros [= <- <-].
Qed.

Lemma take_identifier_ascii t w r : ascii_text t -> take_identifier t = (w, r) -> ascii_text r.
Proof.
  intros Ht. revert w r. induction Ht as [|c t Hc Ht IH]; intros w r; simpl; [by intros [= <- <-]; constructor|].
  case_match; [intros [= <- <-]; by constructor|]. destruct (take_identifier t) as [w' r'] eqn:E.
  intros [= <- <-]. by eapply IH.
Qed.

Lemma quoted_ascii input closing w r : ascii_text input ->
  extract_quoted_identifier input closing = Some (w, r) -> ascii_text r.
Proof.
  intros Hi. unfold extract_quoted_identifier. destruct input as [|o t]; [done|].
  destruct (quoted_rest 0 closing t) as [[w' r']|] eqn:E; [|done]. simpl. intros [= <- <-].
  eapply quoted_rest_ascii, E. by inversion Hi.
Qed.

Lemma first_identifier_ascii input w r : ascii_text input ->
  extract_first_identifier input = Some (w, r) -> ascii_text r.
Proof.
  intros Hi. unfold extract_first_identifier.
  repeat (case_match; [by apply quoted_ascii; auto with text|]).
  destruct (take_identifier (strip input)) as [[|c w'] r'] eqn:E; [done|]. intros [= <- <-].
  eapply take_identifier_ascii, E. auto with text.
Qed.

Lemma column_ascii def : ascii_text def -> fine (parse_enhanced_column def).
Proof.
  intros Hd. unfold parse_enhanced_column.
  destruct (extract_first_identifier (strip def)) as [[name rest]|] eqn:E; [|auto with text].
  apply first_identifier_ascii in E; [|auto with text]. case_match; [auto with text|].
  apply fine_bind; [apply extract_type_ascii; auto with text|]. intros [[ty r]|] _; auto with text.
Qed.

Lemma clauses_ascii skip q depth cur t : ascii_text cur -> ascii_text t ->
  Forall ascii_text (clauses skip q depth cur t).
Proof.
  intros Hc Ht. revert skip q depth cur Hc. induction Ht as [|c t Hp _ IH]; intros skip q depth cur Hc; simpl.
  - case_match; [constructor|]. repeat constructor. auto with text.
  - assert (Hcc : ascii_text (cur ++ [c])) by (apply Forall_app; auto).
    repeat case_match; try (by apply IH); apply Forall_app; (split; [|by apply IH; constructor]);
      repeat constructor; auto with text.
Qed.

Lemma columns_ascii cs : Forall ascii_text cs -> fine (create_columns cs).
Proof.
  induction 1 as [|c cs Hc _ IH]; simpl; [auto with text|]. apply fine_bind.
  - case_match; [apply column_ascii|]; auto with text.
  - intros a _. apply fine_bind; [done|]. intros; auto with text.
Qed.

(** The parentheses of a text are the right way round. *)
Definition enclosed (t : text) : Prop :=
  forall a b, find ["("] t = Some a -> rfind ")" t = Some b -> (a < b)%nat.

Lemma body_ascii sql : ascii_text sql -> enclosed sql ->
  exists r, body sql = Ok r /\ match r with Some t => ascii_text t | None => True end.
Proof.
  intros Hs He. unfold body. destruct (find ["("] sql) as [a|] eqn:Ea; [|by eexists].
  destruct (rfind ")" sql) as [b|] eqn:Eb; [|by eexists].
  specialize (He _ _ Ea Eb). apply rfind_length in Eb; [|done].
  rewrite slice_ascii by (done || lia). simpl. eexists. split; [done|]. by apply Forall_drop, Forall_take.
Qed.

Lemma key_clause_ascii sql : ascii_text sql -> fine (key_clause sql).
Proof.
  intros Hs. unfold key_clause. destruct (find _ (to_uppercase sql)) as [n|] eqn:E; [|auto with text].
  apply find_length in E; [|auto with text]. rewrite upper_text_length in E by done. simpl in E.
  rewrite slice_from_ascii by (done || lia). cbn [res_bind].
  set (after := ltrim (drop (n + 11) sql)). case_match eqn:Eb; [|auto with text].
  destruct (find [")"] after) as [e|] eqn:Ee; [|auto with text].
  assert (Ha : ascii_text after) by (unfold after; auto with text).
  assert (1 <= e)%nat.
  { destruct after as [|c after']; [done|]. cbn [begins] in Eb. rewrite andb_true_r in Eb.
    apply String.eqb_eq in Eb as <-.
    change (find [")"] ("(" :: after')) with (m ← find [")"] after'; Some (1 + m)%nat) in Ee.
    destruct (find [")"] after'); [|done]. cbn in Ee. injection Ee as <-. lia. }
  apply find_length in Ee; [|done]. simpl in Ee. rewrite slice_ascii by (done || lia). simpl. auto with text.
Qed.

Lemma create_ascii d st : ascii_text st -> enclosed st -> fine (parse_create_table_schema_for_dialect d st).
Proof.
  intros Hs He. unfold parse_create_table_schema_for_dialect. apply fine_bind; [by apply table_ascii|].
  intros [[schema table]|] _; [|auto with text]. case_match; [auto with text|].
  destruct (body_ascii st Hs He) as (b & Eb & Hb).
  apply fine_bind.
  { unfold extract_columns_from_create. rewrite Eb. simpl. destruct b; [|auto with text].
    apply columns_ascii, clauses_ascii; [constructor|done]. }
  intros cols _. apply fine_bind; [|intros; auto with text].
  unfold extract_primary_keys. apply fine_bind; [by apply key_clause_ascii|].
  intros [pks|] _; [auto with text|]. rewrite Eb. simpl. auto with text.
Qed.

Lemma drop_keyword_fine raw keyword (k : text -> Res (option SchemaDiffOperation)) :
  ascii_text raw -> ascii_text keyword -> keyword <> [] -> (forall r, fine (k r)) ->
  fine (r <-? strip_optional_keyword (strip raw) keyword; k r).
Proof.
  intros Hr Hk Hne Hf. destruct (keyword_ascii (strip raw) keyword) as (r & -> & _); auto with text.
  apply Hf.
Qed.

Lemma add_ascii trimmed raw : ascii_text raw -> fine (add_clause trimmed raw).
Proof.
  intros Hr. apply drop_keyword_fine; [done|by repeat constructor|done|]. intros r. case_match; auto with text.
Qed.

Lemma drop_clause_ascii trimmed raw : ascii_text raw -> fine (drop_clause trimmed raw).
Proof.
  intros Hr. apply drop_keyword_fine; [done|by repeat constructor|done|]. intros r. case_match; auto with text.
Qed.

Lemma rename_ascii trimmed raw : ascii_text raw -> fine (rename_clause trimmed raw).
Proof.
  intros Hr. unfold rename_clause. destruct (find _ (to_uppercase raw)) as [n|] eqn:E; [|auto with text].
  apply find_length in E; [|auto with text]. rewrite upper_text_length in E by done. simpl in E.
  rewrite split_bytes_ascii by (done || lia). cbn [res_bind].
  rewrite slice_from_ascii by (done || lia). cbn [res_bind]. auto with text.
Qed.

Lemma alter_clause_ascii clause : ascii_text clause -> fine (parse_alter_clause clause).
Proof.
  intros Hc%strip_ascii. unfold parse_alter_clause. case_match; [auto with text|].
  repeat match goal with
    | |- fine (if begins (chars ?p) _ then _ else _) =>
        destruct (begins (chars p) (to_uppercase (strip clause))) eqn:E;
        [apply chars_begin in E; [|done]; simpl in E; rewrite slice_from_ascii by (done || lia);
         cbn [res_bind]
        |clear E]
    end; [apply add_ascii|apply add_ascii|apply drop_clause_ascii|apply drop_clause_ascii|apply rename_ascii|];
    auto with text.
Qed.

Lemma operations_ascii cs : Forall ascii_text cs -> fine (alter_operations cs).
Proof.
  induction 1 as [|c cs Hc _ IH]; simpl; [auto with text|]. apply fine_bind; [by apply alter_clause_ascii|].
  intros a _. apply fine_bind; [done|]. intros; auto with text.
Qed.

Lemma alter_rest_ascii q t r : ascii_text t -> split_alter_table_clauses q t = Some r -> ascii_text r.
Proof.
  intros Ht. revert q. induction Ht as [|c t Hc Ht IH]; intros q; simpl; [done|].
  repeat case_match; try apply IH. intros [= <-]. apply ltrim_ascii. by constructor.
Qed.

Lemma alter_ascii d st : ascii_text st -> fine (parse_alter_table_diff_for_dialect d st).
Proof.
  intros Hs. unfold parse_alter_table_diff_for_dialect. case_match eqn:E; [auto with text|].
  apply negb_false_iff, chars_begin in E; [|done]. simpl in E. rewrite slice_from_ascii by done. cbn [res_bind].
  unfold strip_alter_target_modifiers.
  destruct (modifiers_ascii (S (length (ltrim (drop 11 st)))) (ltrim (drop 11 st))) as (r & -> & Hr);
    [auto with text|lia|]. cbn [res_bind].
  destruct (split_alter_table_clauses None r) as [[|c cs]|] eqn:E'; [auto with text| |auto with text].
  apply alter_rest_ascii in E'; [|done].
  apply fine_bind; [apply operations_ascii, clauses_ascii; [constructor|done]|]. intros; auto with text.
Qed.


End Parsing.

End DdlParse.
