(* ===== verification/DdlRoundtrip.v ===== *)
(** * DdlRoundtrip: a CREATE TABLE statement is read as the table it creates

    A table with plain names is written as a statement of a dialect, its identifiers
    quoted, and the parsers of [DdlParse] read it back: the same schema, table, columns,
    types, nullability and primary key. *)

From S2P Require Import Prelude Errors Strs Text SchemaHistory DdlParse.

Module DdlRoundtrip.
Import Text SchemaHistory DdlParse.

Local Open Scope string_scope.
Local Open Scope list_scope.

(** ** Writing a table *)

Definition opening (d : DdlDialect) : string :=
  match d with Postgres => dq | Mysql => "`" | SqlServer => "[" end.
Definition closing (d : DdlDialect) : string :=
  match d with Postgres => dq | Mysql => "`" | SqlServer => "]" end.

Definition quoted (d : DdlDialect) (name : string) : text := [opening d] ++ chars name ++ [closing d].

Definition nullability (c : ColumnDef) : text := if nullable c then [] else chars " NOT NULL".

Definition column_text (d : DdlDialect) (c : ColumnDef) : text :=
  quoted d (column_name c) ++ [" "] ++ chars (data_type c) ++ nullability c.

Fixpoint key_list (d : DdlDialect) (pks : list string) : text :=
  match pks with
  | [] => []
  | [k] => quoted d k
  | k :: pks' => quoted d k ++ chars ", " ++ key_list d pks'
  end.

Definition key_text (d : DdlDialect) (pks : list string) : text :=
  chars "PRIMARY KEY (" ++ key_list d pks ++ [")"].

Definition body_text (d : DdlDialect) (s : TableSchema) : text :=
  flat_map (fun c => column_text d c ++ chars ", ") (columns s) ++ key_text d (primary_keys s).

Definition name_text (d : DdlDialect) (s : TableSchema) : text :=
  quoted d (schema_name s) ++ ["."] ++ quoted d (table_name s).

Definition create_text (d : DdlDialect) (s : TableSchema) : text :=
  chars "CREATE TABLE " ++ name_text d s ++ chars " (" ++ body_text d s ++ [")"].

Definition create_statement (d : DdlDialect) (s : TableSchema) : string := str (create_text d s).

(** ** Plain tables *)

Definition char_in (p : Z -> bool) (c : string) : bool :=
  match c with String a "" => p (code a) | _ => false end.

(** Lower-case letters, digits and underscores in names; capitals, digits and underscores
    in types, and digits and commas in their arguments. *)
Definition name_char : string -> bool :=
  char_in (fun n => between 97 122 n || between 48 57 n || (n =? 95)%Z).
Definition type_char : string -> bool :=
  char_in (fun n => between 65 90 n || between 48 57 n || (n =? 95)%Z).
Definition arg_char : string -> bool := char_in (fun n => between 48 57 n || (n =? 44)%Z).

Definition plain_name (s : string) : Prop :=
  chars s <> [] /\ Forall (fun c => name_char c = true) (chars s).

Definition type_args (t : text) : Prop :=
  t = [] \/ exists l, t = ["("] ++ l ++ [")"] /\ Forall (fun c => arg_char c = true) l.

(** A type is a word, with arguments or without; [AS] alone starts a computed column. *)
Definition plain_type (s : string) : Prop :=
  s <> "AS" /\ exists base args, chars s = base ++ args /\ base <> []
    /\ Forall (fun c => type_char c = true) base /\ type_args args.

Definition plain_column (c : ColumnDef) : Prop :=
  plain_name (column_name c) /\ plain_type (data_type c) /\ constraints c = [].

Definition plain_table (s : TableSchema) : Prop :=
  plain_name (schema_name s) /\ plain_name (table_name s) /\ schema_version s = 0
  /\ Forall plain_column (columns s) /\ Forall plain_name (primary_keys s).

(** ** Characters that stand for themselves *)

#[local] Arguments String.eqb !s1 !s2 / : simpl nomatch.
#[local] Arguments white !c / : simpl nomatch.

Definition marks : list string := [dq; "`"; "["; "]"; "'"; "("; ")"; ","; ";"; "."; " "; "\"].

Definition calm (c : string) : bool :=
  is_ascii c && negb (white c) && negb (existsb (String.eqb c) marks).

Ltac all_chars := let a := fresh "a" in
  match goal with
  | |- context [char_in _ ?c] => destruct c as [|a [|? ?]]; try done;
      destruct a as [[] [] [] [] [] [] [] []]; vm_compute; done
  end.

Lemma name_calm c : name_char c = true -> calm c = true.
Proof. unfold name_char. all_chars. Qed.

Lemma type_calm c : type_char c = true -> calm c = true.
Proof. unfold type_char. all_chars. Qed.

Lemma name_lower c : name_char c = true -> lower c = c.
Proof. unfold name_char. all_chars. Qed.

Lemma name_upper c : name_char c = true -> type_char (upper_one c) = true.
Proof. unfold name_char. all_chars. Qed.

Lemma type_upper c : type_char c = true -> upper_one c = c.
Proof. unfold type_char. all_chars. Qed.

Lemma arg_upper c : arg_char c = true -> upper_one c = c.
Proof. unfold arg_char. all_chars. Qed.

Lemma arg_facts c : arg_char c = true ->
  is_ascii c && negb (white c) && negb (existsb (String.eqb c) [dq; "`"; "["; "]"; "'"; "("; ")"; ";"; " "]) = true.
Proof. unfold arg_char. all_chars. Qed.

Lemma calm_ascii c : calm c = true -> is_ascii c = true.
Proof. unfold calm. intros Hc. by apply andb_true_iff in Hc as [[? _]%andb_true_iff _]. Qed.

Lemma calm_white c : calm c = true -> white c = false.
Proof. unfold calm. intros Hc. apply andb_true_iff in Hc as [[_ Hw]%andb_true_iff _]. by apply negb_true_iff. Qed.

Lemma none_of c x l : existsb (String.eqb c) l = false -> existsb (String.eqb x) l = true -> String.eqb c x = false.
Proof.
  intros Hm Hx. destruct (String.eqb c x) eqn:E; [|done]. apply String.eqb_eq in E as ->. congruence.
Qed.

Lemma calm_not c x : calm c = true -> existsb (String.eqb x) marks = true -> String.eqb c x = false.
Proof. unfold calm. intros [_ Hm%negb_true_iff]%andb_true_iff. by apply none_of. Qed.

Lemma plain_calm s : plain_name s -> Forall (fun c => calm c = true) (chars s).
Proof. intros [_ Hs]. eapply Forall_impl; [exact Hs|]. apply name_calm. Qed.

(** ** Identifiers *)

Lemma opening_white d : white (opening d) = false.
Proof. by destruct d. Qed.

Lemma closing_white d : white (closing d) = false.
Proof. by destruct d. Qed.

Lemma quoted_framed d s : strip (quoted d s) = quoted d s.
Proof.
  eapply strip_id; [reflexivity|apply opening_white|unfold quoted; by rewrite app_assoc|apply closing_white].
Qed.

Lemma closing_mark d : existsb (String.eqb (closing d)) marks = true.
Proof. by destruct d. Qed.

Lemma opening_mark d : existsb (String.eqb (opening d)) marks = true.
Proof. by destruct d. Qed.

Lemma name_not_closing d s : plain_name s -> Forall (fun c => String.eqb c (closing d) = false) (chars s).
Proof.
  intros Hs%plain_calm. eapply Forall_impl; [exact Hs|]. intros c Hc. apply calm_not; [done|apply closing_mark].
Qed.

Section Reading.
Context `{CaseTable}.

Lemma quoted_by_eq d s o c : quoted_by o c (quoted d s) =
  String.eqb o (opening d) && String.eqb (closing d) c.
Proof.
  unfold quoted_by, quoted. cbn [begins app]. unfold finishes.
  rewrite app_comm_cons, last_snoc. rewrite byte_len_app. cbn [byte_len].
  replace (Nat.leb 2 _) with true by (symmetry; apply Nat.leb_le; destruct d; cbn; lia).
  by rewrite !andb_true_r.
Qed.

Lemma unquoted_quoted d s : plain_name s -> to_lowercase (unquoted (closing d) (quoted d s)) = chars s.
Proof.
  intros Hs. unfold unquoted, quoted. cbn [tl app]. rewrite removelast_last.
  rewrite undouble_none by (by apply name_not_closing). apply to_lowercase_id.
  destruct Hs as [_ Hs]. eapply Forall_impl; [exact Hs|]. intros c Hc. split; [|by apply name_lower].
  by apply calm_ascii, name_calm.
Qed.

Lemma normalize_quoted d s : plain_name s -> normalize_identifier (quoted d s) = chars s.
Proof.
  intros Hs. unfold normalize_identifier. rewrite quoted_framed.
  replace (drop_while_end semi_or_comma (quoted d s)) with (quoted d s)
    by (unfold quoted; rewrite app_assoc; symmetry; apply drop_while_end_here; by destruct d).
  rewrite !quoted_by_eq. pose proof (unquoted_quoted d s Hs) as Hu. destruct d; exact Hu.
Qed.

Lemma parts_inside q cur u t : Forall (fun c => String.eqb c (closing_of q) = false) u ->
  identifier_parts (Some q) cur (u ++ t) = identifier_parts (Some q) (cur ++ u) t.
Proof.
  intros Hu. revert cur. induction Hu as [|c u Hc _ IH]; intros cur; [by rewrite app_nil_r|].
  cbn [app identifier_parts]. rewrite Hc, IH, <-app_assoc. done.
Qed.

Lemma parts_quoted d s cur t : plain_name s -> begins [closing d] t = false ->
  identifier_parts None cur (quoted d s ++ t) = identifier_parts None (cur ++ quoted d s) t.
Proof.
  intros Hs Ht.
  assert (Ho : closing_of (opening d) = closing d) by (by destruct d).
  unfold quoted at 1. rewrite <-!app_assoc. cbn [app identifier_parts].
  replace (String.eqb (opening d) dq || String.eqb (opening d) "`" || String.eqb (opening d) "[")
    with true by (by destruct d).
  rewrite parts_inside by (rewrite Ho; by apply name_not_closing). cbn [app identifier_parts].
  rewrite Ho, String.eqb_refl. unfold quoted. rewrite <-!app_assoc. cbn [app].
  destruct t as [|c t]; [done|]. cbn [begins] in Ht. rewrite andb_true_r, String.eqb_sym in Ht. by rewrite Ht.
Qed.

Lemma parts_dot cur t : identifier_parts None cur ("." :: t) = strip cur :: identifier_parts None [] t.
Proof. done. Qed.

Lemma parts_space cur t :
  identifier_parts None cur (" " :: t) = if blank cur then [] else [strip cur].
Proof. cbn. by destruct (blank cur). Qed.

Lemma quoted_not_blank d s : blank (quoted d s) = false.
Proof. by destruct d. Qed.

(** The qualified name of the statement, up to the white space after it. *)
Lemma qualified_name_read d s t : plain_name (schema_name s) -> plain_name (table_name s) ->
  extract_qualified_name_with_default (name_text d s ++ chars " (" ++ t ++ [")"]) (default_schema d)
  = Some (schema_name s, table_name s).
Proof.
  intros Hs Ht. unfold extract_qualified_name_with_default, split_qualified_identifier_parts.
  assert (Hfr : strip (name_text d s ++ chars " (" ++ t ++ [")"]) = name_text d s ++ chars " (" ++ t ++ [")"]).
  { eapply (strip_id _ (opening d) _ (name_text d s ++ chars " (" ++ t) ")"); [reflexivity|apply opening_white| |done].
    by rewrite <-!app_assoc. }
  assert (Hparts : identifier_parts None [] (name_text d s ++ chars " (" ++ t ++ [")"])
                   = [quoted d (schema_name s); quoted d (table_name s)]).
  { unfold name_text. rewrite <-!app_assoc.
    rewrite parts_quoted by (done || by destruct d).
    change (chars " (") with ([" "] ++ ["("]). cbn [app]. rewrite parts_dot, quoted_framed.
    rewrite parts_quoted by (done || by destruct d). cbn [app].
    by rewrite parts_space, quoted_framed, quoted_not_blank. }
  rewrite !Hfr, Hparts. cbn [existsb]. rewrite !bool_decide_eq_false_2 by (by destruct d).
  cbn [orb rev app]. rewrite !normalize_quoted by done.
  rewrite !bool_decide_eq_false_2 by (apply Hs || apply Ht). cbn [orb]. by rewrite !str_chars.
Qed.

(** ** Columns *)

Lemma quoted_rest_inside cl u t : Forall (fun c => String.eqb c cl = false) u ->
  quoted_rest 0 cl (u ++ t) = (r ← quoted_rest 0 cl t; Some (u ++ fst r, snd r)).
Proof.
  induction 1 as [|c u Hc _ IH]; cbn [app quoted_rest]; [by destruct (quoted_rest 0 cl t) as [[w r]|]|].
  rewrite Hc, IH. by destruct (quoted_rest 0 cl t) as [[w r]|].
Qed.

Lemma first_identifier_read d s t : plain_name s -> begins [closing d] t = false ->
  strip (quoted d s ++ t) = quoted d s ++ t ->
  extract_first_identifier (quoted d s ++ t) = Some (quoted d s, t).
Proof.
  intros Hs Ht Hst. unfold extract_first_identifier. rewrite Hst.
  assert (Hq : extract_quoted_identifier (quoted d s ++ t) (closing d) = Some (quoted d s, t)).
  { unfold quoted at 1. rewrite <-!app_assoc. cbn [app extract_quoted_identifier].
    rewrite quoted_rest_inside by (by apply name_not_closing). cbn [quoted_rest].
    rewrite String.eqb_refl, Ht. done. }
  destruct d; exact Hq.
Qed.

Lemma type_calm_run depth i u t : Forall (fun c => calm c = true) u ->
  column_type depth i (u ++ t) =
  (u ++ fst (column_type depth (i + length u) t), snd (column_type depth (i + length u) t)).
Proof.
  intros Hu. revert i. induction Hu as [|c u Hc _ IH]; intros i; cbn [app].
  - simpl. rewrite Nat.add_0_r. by destruct (column_type depth i t).
  - cbn [column_type]. rewrite !(calm_not c) by done. cbn [orb andb].
    rewrite IH. simpl. by replace (i + S (length u))%nat with (S i + length u)%nat by lia.
Qed.

Lemma arg_not c x : arg_char c = true ->
  existsb (String.eqb x) [dq; "`"; "["; "]"; "'"; "("; ")"; ";"; " "] = true -> String.eqb c x = false.
Proof. intros [_ Hm%negb_true_iff]%arg_facts%andb_true_iff. by apply none_of. Qed.

Lemma type_arg_run i l t : Forall (fun c => arg_char c = true) l ->
  column_type 1 i (l ++ ")" :: t) =
  (l ++ ")" :: fst (column_type 0 (i + length l + 1) t), snd (column_type 0 (i + length l + 1) t)).
Proof.
  intros Hl. revert i. induction Hl as [|c l Hc _ IH]; intros i; cbn [app].
  - cbn [column_type]. simpl. change (1 - 1)%Z with 0%Z. replace (i + 0 + 1)%nat with (S i) by lia. by destruct (column_type 0 (S i) t).
  - cbn [column_type]. rewrite !(arg_not c) by done. rewrite andb_false_r, IH. simpl.
    by replace (i + S (length l) + 1)%nat with (S i + length l + 1)%nat by lia.
Qed.

Lemma type_end i c t : column_type 0 i (nullability c) = ([], i) /\ column_type 0 i (chars ")" ++ t) <> ([], i).
Proof. split; [unfold nullability; by destruct (nullable c)|]. cbn. by destruct (column_type _ _ t). Qed.

Lemma type_read s c : plain_type s ->
  column_type 0 0 (chars s ++ nullability c) = (chars s, length (chars s)).
Proof.
  intros (_ & base & args & -> & Hne & Hb & Ha).
  assert (Hc : Forall (fun c => calm c = true) base) by (eapply Forall_impl; [exact Hb|apply type_calm]).
  rewrite <-app_assoc, type_calm_run by done. simpl. destruct Ha as [->|(l & -> & Hl)].
  - cbn [app]. rewrite (proj1 (type_end _ _ [])). simpl. by rewrite app_nil_r.
  - rewrite <-!app_assoc. cbn [app column_type]. simpl (String.eqb _ _).
    cbn [orb andb]. change ((0 + 1)%Z) with 1%Z. rewrite type_arg_run by done.
    rewrite (proj1 (type_end _ _ [])). cbn [fst snd].
    f_equal. rewrite length_app. cbn [length]. rewrite length_app. simpl. lia.
Qed.

Lemma type_ascii_upper s : plain_type s -> ascii_text (chars s) /\ to_uppercase (chars s) = chars s.
Proof.
  intros (_ & base & args & -> & _ & Hb & Ha).
  assert (Hboth : Forall (fun c => is_ascii c = true /\ upper_one c = c) (base ++ args)).
  { apply Forall_app. split.
    - eapply Forall_impl; [exact Hb|]. intros c Hc. split; [by apply calm_ascii, type_calm|by apply type_upper].
    - destruct Ha as [->|(l & -> & Hl)]; [constructor|]. constructor; [done|]. apply Forall_app. split; [|by repeat constructor].
      eapply Forall_impl; [exact Hl|]. intros c Hc. split; [|by apply arg_upper].
      apply arg_facts in Hc. by apply andb_true_iff in Hc as [[? _]%andb_true_iff _]. }
  assert (Has : ascii_text (base ++ args)) by (eapply Forall_impl; [exact Hboth|]; by intros c [? _]).
  split; [done|]. rewrite to_uppercase_ascii by done. clear -Hboth.
  induction Hboth as [|c t [_ Hc] _ IH]; [done|]. simpl. by rewrite Hc, IH.
Qed.

Definition no_space (t : text) : Prop := Forall (fun c => String.eqb " " c = false) t.

Lemma begins_word w p ty tail : no_space w -> no_space ty -> tail = [] \/ begins [" "] tail = true ->
  begins (w ++ " " :: p) (ty ++ tail) = true -> w = ty /\ begins (" " :: p) tail = true.
Proof.
  intros Hw. revert ty. induction Hw as [|c w Hc _ IH]; intros ty Hty Ht Hb.
  - destruct Hty as [|e ty He _]; [done|]. cbn [app begins] in Hb. by rewrite He in Hb.
  - destruct Hty as [|e ty He Hty].
    + destruct Ht as [->|Ht]; [done|]. destruct tail as [|e tail]; [done|]. cbn [app begins] in Hb, Ht.
      rewrite andb_true_r in Ht. apply String.eqb_eq in Ht as <-. apply andb_true_iff in Hb as [Hb _].
      rewrite String.eqb_sym in Hb. congruence.
    + cbn [app begins] in Hb. apply andb_true_iff in Hb as [->%String.eqb_eq Hb].
      by apply IH in Hb as [-> ?].
Qed.

(** A word between spaces does not occur where it is not a field. *)
Lemma find_field w p u ty tail : no_space w -> no_space u -> no_space ty ->
  tail = [] \/ begins [" "] tail = true -> w <> ty \/ begins (" " :: p) tail = false ->
  find (" " :: w ++ " " :: p) tail = None ->
  find (" " :: w ++ " " :: p) (u ++ " " :: ty ++ tail) = None.
Proof.
  intros Hw Hu Hty Ht Hne Hn. rewrite find_skip by done.
  assert (find (" " :: w ++ " " :: p) (" " :: ty ++ tail) = None) as ->; [|done].
  cbn [find]. destruct (begins (" " :: w ++ " " :: p) (" " :: ty ++ tail)) eqn:Eb.
  - cbn [begins] in Eb. apply andb_true_iff in Eb as [_ Eb].
    apply begins_word in Eb as [-> Eb]; [|done..]. destruct Hne; congruence.
  - rewrite find_skip by done. by rewrite Hn.
Qed.

Lemma calm_no_space t : Forall (fun c => calm c = true) t -> no_space t.
Proof. intros Ht. eapply Forall_impl; [exact Ht|]. intros c Hc. rewrite String.eqb_sym. by apply calm_not. Qed.

Lemma type_no_space s : plain_type s -> no_space (chars s).
Proof.
  intros (_ & base & args & -> & _ & Hb & Ha). apply Forall_app. split.
  - apply calm_no_space. eapply Forall_impl; [exact Hb|apply type_calm].
  - destruct Ha as [->|(l & -> & Hl)]; [constructor|]. constructor; [done|].
    apply Forall_app. split; [|by repeat constructor]. eapply Forall_impl; [exact Hl|].
    intros c Hc. rewrite String.eqb_sym. by apply arg_not.
Qed.

Lemma name_upper_calm s : plain_name s -> Forall (fun c => calm c = true) (to_uppercase (chars s)).
Proof.
  intros Hs. rewrite to_uppercase_ascii by (eapply Forall_impl; [by apply plain_calm|apply calm_ascii]).
  destruct Hs as [_ Hs]. apply Forall_fmap. eapply Forall_impl; [exact Hs|].
  intros c Hc. by apply type_calm, name_upper.
Qed.

Lemma quoted_upper d s : to_uppercase (quoted d s) = [opening d] ++ to_uppercase (chars s) ++ [closing d].
Proof. unfold quoted. rewrite !to_uppercase_app. by destruct d. Qed.

Lemma quoted_upper_no_space d s : plain_name s -> no_space (to_uppercase (quoted d s)).
Proof.
  intros Hs. rewrite quoted_upper. constructor; [by destruct d|]. apply Forall_app.
  split; [by apply calm_no_space, name_upper_calm|]. repeat constructor. by destruct d.
Qed.

Lemma chars_inj s s' : chars s = chars s' -> s = s'.
Proof. intros E. rewrite <-(str_chars s), <-(str_chars s'). by rewrite E. Qed.

Lemma nullability_upper c : to_uppercase (nullability c) = nullability c.
Proof. unfold nullability. by destruct (nullable c). Qed.

Lemma column_upper d c : plain_column c ->
  to_uppercase (column_text d c) = to_uppercase (quoted d (column_name c)) ++ " " :: chars (data_type c) ++ nullability c.
Proof.
  intros (_ & Hty & _). unfold column_text. rewrite !to_uppercase_app, nullability_upper.
  by rewrite (proj2 (type_ascii_upper _ Hty)).
Qed.

Lemma not_computed d c : plain_column c -> computed (to_uppercase (column_text d c)) = false.
Proof.
  intros Hc. rewrite column_upper by done. destruct Hc as (Hn & Hty & _).
  assert (Hu := quoted_upper_no_space d _ Hn). assert (Ht := type_no_space _ Hty).
  unfold computed, contains.
  change (chars " GENERATED ALWAYS AS ") with (" " :: chars "GENERATED" ++ " " :: chars "ALWAYS AS ").
  change (chars " AS ") with (" " :: chars "AS" ++ " " :: []).
  rewrite find_field; [|by repeat constructor|done|done| | |].
  2: { unfold nullability; destruct (nullable c); auto. }
  2: { right. unfold nullability; by destruct (nullable c). }
  2: { unfold nullability; by destruct (nullable c). }
  rewrite find_field; [done|by repeat constructor|done|done| | |].
  - unfold nullability; destruct (nullable c); auto.
  - left. intros E. change (chars "AS" = chars (data_type c)) in E. apply chars_inj in E. by apply (proj1 Hty).
  - unfold nullability; by destruct (nullable c).
Qed.

Lemma type_first s : plain_type s -> exists e u, chars s = e :: u /\ white e = false.
Proof.
  intros (_ & [|e base] & args & -> & Hne & Hb & _); [done|]. exists e, (base ++ args). split; [done|].
  inversion Hb. by apply calm_white, type_calm.
Qed.

Lemma type_last s : plain_type s -> exists v e, chars s = v ++ [e] /\ white e = false.
Proof.
  intros (_ & base & args & -> & Hne & Hb & [->|(l & -> & _)]).
  - destruct (exists_last Hne) as (v & e & ->). exists v, e. rewrite app_nil_r. split; [done|].
    apply Forall_app in Hb as [_ Hb]. inversion Hb. by apply calm_white, type_calm.
  - exists (base ++ ["("] ++ l), ")". by rewrite <-!app_assoc.
Qed.

Lemma column_last c : plain_column c -> exists v e, chars (data_type c) ++ nullability c = v ++ [e] /\ white e = false.
Proof.
  intros (_ & Hty & _). unfold nullability. destruct (nullable c).
  - rewrite app_nil_r. by apply type_last.
  - exists (chars (data_type c) ++ chars " NOT NUL"), "L". by rewrite <-app_assoc.
Qed.

Lemma column_strip d c : plain_column c -> strip (column_text d c) = column_text d c.
Proof.
  intros Hc. destruct (column_last c Hc) as (v & e & E & He).
  eapply (strip_id _ (opening d) _ (quoted d (column_name c) ++ [" "] ++ v) e);
    [reflexivity|apply opening_white| |done].
  unfold column_text. by rewrite E, <-!app_assoc.
Qed.

Lemma column_read d c : plain_column c -> parse_enhanced_column (column_text d c) = Ok (Some c).
Proof.
  intros Hc. pose proof (not_computed d c Hc) as Hnc. pose proof (column_strip d c Hc) as Hst.
  unfold parse_enhanced_column. rewrite Hst. destruct Hc as (Hn & Hty & Hk). unfold column_text in *.
  rewrite first_identifier_read by (done || by destruct d). rewrite Hnc.
  destruct (type_first _ Hty) as (e & u & Ee & He).
  assert (Hl : ltrim ([" "] ++ chars (data_type c) ++ nullability c) = chars (data_type c) ++ nullability c).
  { rewrite Ee. unfold ltrim. cbn [app drop_while]. by rewrite He. }
  assert (Hl' : ltrim (chars (data_type c) ++ nullability c) = chars (data_type c) ++ nullability c).
  { rewrite Ee. unfold ltrim. cbn [app drop_while]. by rewrite He. }
  unfold extract_column_type. rewrite Hl, Hl', type_read by done.
  destruct (type_ascii_upper _ Hty) as [Ha Hup].
  assert (slice_from (length (chars (data_type c))) (chars (data_type c) ++ nullability c) = Ok (nullability c)) as ->.
  { rewrite <-byte_len_ascii by done. unfold slice_from. rewrite split_bytes_app; [done|].
    eapply Forall_impl; [exact Ha|]. by intros [|]. }
  rewrite Ee at 1. cbn [res_bind]. rewrite Hup, nullability_upper, normalize_quoted by done.
  assert (Hnull : negb (contains (chars "NOT NULL") (nullability c)) = nullable c).
  { unfold nullability. by destruct (nullable c). }
  rewrite Hnull. unfold column. rewrite !str_chars. destruct c; simpl in *. by subst.
Qed.

Lemma words_first u t : Forall (fun c => white c = false) u -> forall cur, cur ++ u <> [] ->
  exists ws, words_from cur (u ++ " " :: t) = (cur ++ u) :: ws.
Proof.
  induction 1 as [|c u Hc _ IH]; intros cur Hne.
  - rewrite app_nil_r in *. cbn [app words_from]. change (white " ") with true.
    rewrite bool_decide_eq_false_2 by done. by eexists.
  - cbn [app words_from]. rewrite Hc. destruct (IH (cur ++ [c])) as [ws ->]; [by destruct cur|].
    exists ws. by rewrite <-app_assoc.
Qed.

Lemma column_candidate d c : plain_column c -> is_column_clause_candidate (column_text d c) = true.
Proof.
  intros (Hn & _). unfold is_column_clause_candidate, words, column_text. cbn [app].
  destruct (words_first (quoted d (column_name c)) (chars (data_type c) ++ nullability c)) with (cur := @nil string)
    as [ws ->].
  - unfold quoted. constructor; [apply opening_white|]. apply Forall_app. split; [|constructor; [apply closing_white|constructor]].
    eapply Forall_impl; [by apply plain_calm|apply calm_white].
  - by destruct d.
  - by destruct d.
Qed.

(** ** Clauses *)

Definition flat (c : string) : bool :=
  match quote_of c with
  | Some _ => false
  | None => negb (String.eqb c "(" || String.eqb c ")" || String.eqb c ",")
  end.

Lemma clauses_flat u k cur t : Forall (fun c => flat c = true) u ->
  clauses 0 None k cur (u ++ t) = clauses 0 None k (cur ++ u) t.
Proof.
  intros Hu. revert cur. induction Hu as [|c u Hc _ IH]; intros cur; [by rewrite app_nil_r|].
  unfold flat in Hc. cbn [app clauses]. destruct (quote_of c); [done|].
  apply negb_true_iff, orb_false_iff in Hc as [[-> ->]%orb_false_iff ->]. cbn [andb].
  rewrite IH, <-app_assoc. done.
Qed.

Lemma calm_flat c : calm c = true -> flat c = true.
Proof. intros Hc. unfold flat, quote_of. by rewrite !(calm_not c). Qed.

Lemma clauses_inside q k cur u t : Forall (fun c => String.eqb c q = false /\ String.eqb c "\" = false) u ->
  clauses 0 (Some q) k cur (u ++ t) = clauses 0 (Some q) k (cur ++ u) t.
Proof.
  intros Hu. revert cur. induction Hu as [|c u [Hq Hb] _ IH]; intros cur; [by rewrite app_nil_r|].
  cbn [app clauses].
  assert (in_quotes q c (u ++ t) = (1%nat, true)) as ->.
  { unfold in_quotes. rewrite Hq, Hb. cbn [andb]. by destruct (u ++ t). }
  cbn [Nat.sub]. rewrite IH, <-app_assoc. done.
Qed.

Lemma clauses_quoted d s k cur t : plain_name s -> begins [closing d] t = false ->
  clauses 0 None k cur (quoted d s ++ t) = clauses 0 None k (cur ++ quoted d s) t.
Proof.
  intros Hs Ht. unfold quoted at 1. rewrite <-!app_assoc. cbn [app clauses].
  replace (quote_of (opening d)) with (Some (closing d)) by (by destruct d).
  rewrite clauses_inside.
  2: { pose proof (plain_calm s Hs) as Hc. eapply Forall_impl; [exact Hc|]. intros c ?.
       split; apply calm_not; try done; apply closing_mark. }
  cbn [app clauses].
  assert (in_quotes (closing d) (closing d) t = (1%nat, false)) as ->.
  { unfold in_quotes. rewrite String.eqb_refl. destruct t as [|c t]; [done|].
    cbn [begins] in Ht. rewrite andb_true_r, String.eqb_sym in Ht. rewrite Ht. by destruct d. }
  cbn [Nat.sub]. unfold quoted. by rewrite <-!app_assoc.
Qed.

Lemma clauses_space k cur t : clauses 0 None k cur (" " :: t) = clauses 0 None k (cur ++ [" "]) t.
Proof. done. Qed.

Lemma clauses_open k cur t : clauses 0 None k cur ("(" :: t) = clauses 0 None (S k) (cur ++ ["("]) t.
Proof. done. Qed.

Lemma clauses_close k cur t : clauses 0 None (S k) cur (")" :: t) = clauses 0 None k (cur ++ [")"]) t.
Proof. cbn. by rewrite Nat.sub_0_r. Qed.

Lemma clauses_inner_comma k cur t : clauses 0 None (S k) cur ("," :: t) = clauses 0 None (S k) (cur ++ [","]) t.
Proof. done. Qed.

Lemma clauses_comma cur t : clauses 0 None 0 cur ("," :: t) =
  (if blank cur then [] else [strip cur]) ++ clauses 0 None 0 [] t.
Proof. done. Qed.

Lemma clauses_args l cur t : Forall (fun c => arg_char c = true) l ->
  clauses 0 None 1 cur (l ++ t) = clauses 0 None 1 (cur ++ l) t.
Proof.
  intros Hl. revert cur. induction Hl as [|c l Hc _ IH]; intros cur; [by rewrite app_nil_r|].
  cbn [app clauses]. unfold quote_of. rewrite !(arg_not c) by done. cbn [orb]. rewrite andb_false_r.
  rewrite IH, <-app_assoc. done.
Qed.

Lemma clauses_type s cur t : plain_type s ->
  clauses 0 None 0 cur (chars s ++ t) = clauses 0 None 0 (cur ++ chars s) t.
Proof.
  intros (_ & base & args & -> & _ & Hb & Ha). rewrite <-app_assoc.
  rewrite clauses_flat by (eapply Forall_impl; [exact Hb|]; intros; by apply calm_flat, type_calm).
  destruct Ha as [->|(l & -> & Hl)]; [by rewrite app_nil_r|].
  rewrite <-!app_assoc. cbn [app]. rewrite clauses_open, clauses_args by done. cbn [app].
  rewrite clauses_close. f_equal. by rewrite <-!app_assoc.
Qed.

Lemma clauses_column d c cur t : plain_column c ->
  clauses 0 None 0 cur (column_text d c ++ t) = clauses 0 None 0 (cur ++ column_text d c) t.
Proof.
  intros (Hn & Hty & _). unfold column_text. rewrite <-!app_assoc.
  rewrite clauses_quoted by (done || by destruct d).
  rewrite (clauses_flat [" "]) by (by repeat constructor). rewrite clauses_type by done.
  rewrite (clauses_flat (nullability c)).
  - by rewrite <-!app_assoc.
  - unfold nullability. destruct (nullable c); repeat constructor.
Qed.

Lemma clauses_keys d pks k cur t : Forall plain_name pks -> begins [closing d] t = false ->
  clauses 0 None (S k) cur (key_list d pks ++ t) = clauses 0 None (S k) (cur ++ key_list d pks) t.
Proof.
  intros Hp Ht. revert cur. induction Hp as [|p pks Hp Hps IH]; intros cur; [by rewrite app_nil_r|].
  cbn [key_list]. destruct pks as [|p' pks]; [by apply clauses_quoted|].
  rewrite <-!app_assoc. rewrite clauses_quoted by (done || by destruct d).
  change (chars ", ") with ([","] ++ [" "]). rewrite <-!app_assoc. cbn [app].
  rewrite clauses_inner_comma, clauses_space, IH. by rewrite <-!app_assoc.
Qed.

Lemma clauses_key_text d pks cur : Forall plain_name pks ->
  clauses 0 None 0 cur (key_text d pks) = clauses 0 None 0 (cur ++ key_text d pks) [].
Proof.
  intros Hp. unfold key_text. change (chars "PRIMARY KEY (") with (chars "PRIMARY KEY " ++ ["("]).
  rewrite <-!app_assoc. rewrite (clauses_flat (chars "PRIMARY KEY ")) by (by repeat constructor).
  cbn [app]. rewrite clauses_open, clauses_keys by (done || by destruct d). rewrite clauses_close.
  f_equal. by rewrite <-!app_assoc.
Qed.

Lemma key_text_strip d pks : strip (key_text d pks) = key_text d pks.
Proof.
  eapply (strip_id _ "P" _ (chars "PRIMARY KEY (" ++ key_list d pks) ")"); [reflexivity|done| |done].
  unfold key_text. by rewrite <-app_assoc.
Qed.

Lemma strip_space t : strip (" " :: t) = strip t.
Proof. done. Qed.

Lemma clause_emitted cur t a u : cur = [] \/ cur = [" "] -> t = a :: u -> white a = false -> strip t = t ->
  (if blank (cur ++ t) then [] else [strip (cur ++ t)]) = [t].
Proof.
  intros Hcur -> Ha Hst. unfold blank. destruct Hcur as [->| ->]; cbn [app forallb].
  - by rewrite Ha, Hst.
  - change (white " ") with true. cbn [andb]. by rewrite Ha, strip_space, Hst.
Qed.

Lemma body_clauses d cols pks cur : cur = [] \/ cur = [" "] -> Forall plain_column cols -> Forall plain_name pks ->
  clauses 0 None 0 cur (flat_map (fun c => column_text d c ++ chars ", ") cols ++ key_text d pks)
  = map (column_text d) cols ++ [key_text d pks].
Proof.
  intros Hcur Hc Hp. revert cur Hcur. induction Hc as [|c cols Hc _ IH]; intros cur Hcur; cbn [flat_map app map].
  - rewrite clauses_key_text by done. cbn [clauses].
    by eapply (clause_emitted cur (key_text d pks) "P"); [|reflexivity| |apply key_text_strip].
  - rewrite <-!app_assoc. rewrite clauses_column by done.
    change (chars ", ") with ([","] ++ [" "]). rewrite <-!app_assoc. cbn [app].
    rewrite clauses_comma.
    rewrite (clause_emitted cur (column_text d c) (opening d) _ Hcur eq_refl (opening_white d) (column_strip d c Hc)).
    cbn [app]. f_equal. rewrite <-(IH [" "]) by auto. done.
Qed.

(** ** The text between the parentheses *)

Lemma quoted_ascii_text d s : plain_name s -> ascii_text (quoted d s).
Proof.
  intros Hs. constructor; [by destruct d|]. apply Forall_app. split; [|repeat constructor; by destruct d].
  eapply Forall_impl; [by apply plain_calm|apply calm_ascii].
Qed.

Lemma column_ascii_text d c : plain_column c -> ascii_text (column_text d c).
Proof.
  intros (Hn & Hty & _). apply Forall_app. split; [by apply quoted_ascii_text|]. constructor; [done|].
  apply Forall_app. split; [by apply type_ascii_upper|]. unfold nullability. destruct (nullable c); by repeat constructor.
Qed.

Lemma keys_all (P : string -> Prop) d pks : Forall (fun p => Forall P (quoted d p)) pks -> Forall P (chars ", ") ->
  Forall P (key_list d pks).
Proof.
  intros Hp Hc. induction Hp as [|p pks Hp _ IH]; cbn [key_list]; [constructor|].
  destruct pks; [done|]. by rewrite !Forall_app.
Qed.

Lemma keys_ascii_text d pks : Forall plain_name pks -> ascii_text (key_list d pks).
Proof.
  intros Hp. apply keys_all; [|by repeat constructor]. eapply Forall_impl; [exact Hp|]. apply quoted_ascii_text.
Qed.

Lemma columns_ascii_text d cols : Forall plain_column cols ->
  ascii_text (flat_map (fun c => column_text d c ++ chars ", ") cols).
Proof.
  induction 1 as [|c cols Hc _ IH]; cbn [flat_map]; [constructor|]. rewrite <-app_assoc.
  apply Forall_app. split; [by apply column_ascii_text|]. apply Forall_app. split; [by repeat constructor|done].
Qed.

Definition before_body (d : DdlDialect) (s : TableSchema) : text :=
  chars "CREATE TABLE " ++ name_text d s ++ [" "].

Lemma create_split d s : create_text d s = before_body d s ++ "(" :: body_text d s ++ [")"].
Proof. unfold create_text, before_body. by rewrite <-!app_assoc. Qed.

Lemma before_all (P : string -> Prop) d s : Forall P (quoted d (schema_name s)) -> Forall P (quoted d (table_name s)) ->
  Forall P (chars "CREATE TABLE .") -> Forall P (before_body d s).
Proof.
  intros Hs Ht Hc. unfold before_body, name_text. rewrite !Forall_app. split_and!; try done.
  - by apply (Forall_take _ 13) in Hc.
  - by apply (Forall_drop _ 13) in Hc.
  - by apply (Forall_take _ 13), (Forall_drop _ 12) in Hc.
Qed.

Lemma before_ascii d s : plain_table s -> ascii_text (before_body d s).
Proof. intros (Hs & Ht & _). apply before_all; [by apply quoted_ascii_text..|by repeat constructor]. Qed.

Lemma body_text_ascii d s : plain_table s -> ascii_text (body_text d s).
Proof.
  intros (_ & _ & _ & Hc & Hp). apply Forall_app. split; [by apply columns_ascii_text|].
  apply Forall_app. split; [by repeat constructor|]. apply Forall_app.
  split; [by apply keys_ascii_text|by repeat constructor].
Qed.

Lemma create_text_ascii d s : plain_table s -> ascii_text (create_text d s).
Proof.
  intros Hs. rewrite create_split. apply Forall_app. split; [by apply before_ascii|]. constructor; [done|].
  apply Forall_app. split; [by apply body_text_ascii|by repeat constructor].
Qed.

Lemma quoted_without d s x : plain_name s -> existsb (String.eqb x) marks = true ->
  String.eqb x (opening d) = false -> String.eqb x (closing d) = false ->
  Forall (fun c => String.eqb x c = false) (quoted d s).
Proof.
  intros Hs Hx Ho Hc. constructor; [done|]. apply Forall_app. split; [|by repeat constructor].
  eapply Forall_impl; [by apply plain_calm|]. intros c ?. rewrite String.eqb_sym. by apply calm_not.
Qed.

Lemma before_without d s : plain_table s -> Forall (fun c => String.eqb "(" c = false) (before_body d s).
Proof.
  intros (Hs & Ht & _).
  apply before_all; [apply quoted_without; try done; by destruct d..|by repeat constructor].
Qed.

Lemma body_read d s : plain_table s -> body (create_text d s) = Ok (Some (body_text d s)).
Proof.
  intros Hs. unfold body. rewrite create_split, find_skip by (by apply before_without). cbn [find begins].
  rewrite String.eqb_refl. cbn [andb mbind option_bind].
  assert (Hr : rfind ")" (before_body d s ++ "(" :: body_text d s ++ [")"])
               = Some (byte_len (before_body d s ++ "(" :: body_text d s))).
  { change ("(" :: body_text d s ++ [")"]) with (("(" :: body_text d s) ++ [")"]). rewrite app_assoc.
    by apply rfind_last. }
  rewrite Hr. replace (byte_len (before_body d s) + 0 + 1)%nat with (byte_len (before_body d s ++ ["("]))
    by (rewrite byte_len_app; simpl; lia).
  change ("(" :: body_text d s ++ [")"]) with (["("] ++ body_text d s ++ [")"]).
  change ("(" :: body_text d s) with (["("] ++ body_text d s). rewrite !app_assoc, <-(app_assoc _ _ [")"]).
  rewrite slice_middle; [done|]. apply ascii_not_empty.
  apply Forall_app; split; [apply Forall_app; split; [by apply before_ascii|by repeat constructor]|by apply body_text_ascii].
Qed.

Lemma key_not_candidate d pks : is_column_clause_candidate (strip (key_text d pks)) = false.
Proof.
  rewrite key_text_strip. unfold is_column_clause_candidate, words, key_text.
  change (chars "PRIMARY KEY (" ++ key_list d pks ++ [")"])
    with (chars "PRIMARY" ++ " " :: chars "KEY (" ++ key_list d pks ++ [")"]).
  destruct (words_first (chars "PRIMARY") (chars "KEY (" ++ key_list d pks ++ [")"])) with (cur := @nil string)
    as [ws ->]; [by repeat constructor|done|]. reflexivity.
Qed.

Lemma columns_read d s : plain_table s -> extract_columns_from_create (create_text d s) = Ok (columns s).
Proof.
  intros Hs. unfold extract_columns_from_create. rewrite body_read by done. cbn [res_bind].
  destruct Hs as (_ & _ & _ & Hc & Hp). unfold split_sql_clauses, body_text. rewrite body_clauses by auto.
  induction Hc as [|c cols Hc _ IH]; cbn [map app create_columns].
  - by rewrite key_not_candidate.
  - rewrite column_strip, column_candidate, column_read by done. cbn [res_bind]. by rewrite IH.
Qed.

(** ** The primary key *)

(** PRIMARY KEY does not occur across a space unless a field that ends in Y is followed by
    one that starts with KEY. *)
Lemma find_key_field f r : no_space f -> finishes "Y" f = false \/ begins (chars "KEY") r = false ->
  find (chars "PRIMARY KEY") (f ++ " " :: r) =
  (n ← find (chars "PRIMARY KEY") r; Some (byte_len f + 1 + n)%nat).
Proof.
  change (chars "PRIMARY KEY") with (chars "PRIMARY" ++ " " :: chars "KEY").
  induction 1 as [|c f Hc Hf IH]; intros Hr.
  - cbn [app]. cbn [find]. change (begins _ (" " :: r)) with false. simpl. by destruct (find _ r).
  - cbn [app find]. destruct (begins _ (c :: f ++ " " :: r)) eqn:Eb.
    + exfalso. change (c :: f ++ " " :: r) with ((c :: f) ++ " " :: r) in Eb.
      apply begins_word in Eb as [Ef Eb]; [|by repeat constructor|by constructor|by right].
      destruct Hr as [Hr|Hr]; [by rewrite <-Ef in Hr|]. change (begins (chars "KEY") r = true) in Eb. congruence.
    + rewrite IH.
      * simpl. destruct (find _ r); [|done]. simpl. f_equal. lia.
      * destruct Hr as [Hr|Hr]; [left|by right]. by destruct f.
Qed.

Lemma finishes_snoc x t c : finishes x (t ++ [c]) = String.eqb c x.
Proof. unfold finishes. by rewrite last_snoc. Qed.

Lemma no_space_app t u : no_space t -> no_space u -> no_space (t ++ u).
Proof. intros. by apply Forall_app. Qed.

(** What follows a column does not start with KEY. *)
Lemma next_not_key d cols r : begins (chars "KEY") r = false ->
  begins (chars "KEY") (to_uppercase (flat_map (fun c => column_text d c ++ chars ", ") cols) ++ r) = false.
Proof.
  intros Hr. destruct cols as [|c cols]; [done|]. cbn [flat_map]. unfold column_text.
  rewrite !to_uppercase_app, quoted_upper. by destruct d.
Qed.

Lemma find_key d cols r u : Forall plain_column cols -> no_space u -> Forall (fun c => String.eqb "P" c = false) u ->
  find (chars "PRIMARY KEY")
    (u ++ to_uppercase (flat_map (fun c => column_text d c ++ chars ", ") cols) ++ chars "PRIMARY KEY" ++ r)
  = Some (byte_len u + byte_len (to_uppercase (flat_map (fun c => column_text d c ++ chars ", ") cols)))%nat.
Proof.
  intros Hc. revert u. induction Hc as [|c cols Hc Hcs IH]; intros u Hu Hp.
  - cbn [flat_map to_uppercase app byte_len]. change (chars "PRIMARY KEY") with ("P" :: chars "RIMARY KEY") at 1.
    rewrite find_skip by done. done.
  - set (rest := to_uppercase (flat_map (fun c => column_text d c ++ chars ", ") cols) ++ chars "PRIMARY KEY" ++ r).
    assert (Hrest : begins (chars "KEY") rest = false) by (by apply next_not_key).
    assert (Hfind : find (chars "PRIMARY KEY") rest = Some (byte_len (to_uppercase (flat_map (fun c => column_text d c ++ chars ", ") cols)))).
    { specialize (IH [] (Forall_nil_2 _) (Forall_nil_2 _)). exact IH. }
    assert (Hq : no_space (u ++ to_uppercase (quoted d (column_name c))))
      by (apply no_space_app; [done|by apply quoted_upper_no_space, Hc]).
    assert (Hty : no_space (chars (data_type c))) by (by apply type_no_space, Hc).
    cbn [flat_map]. rewrite (to_uppercase_app (_ ++ _)), (to_uppercase_app (column_text d c)), column_upper by done.
    change (to_uppercase (chars ", ")) with ([","] ++ [" "]). rewrite <-!app_assoc. cbn [app].
    rewrite <-!app_assoc. fold rest. rewrite app_assoc, find_key_field.
    2: done.
    2: { left. rewrite quoted_upper, !app_assoc, finishes_snoc. by destruct d. }
    rewrite !byte_len_app. cbn [byte_len]. rewrite !byte_len_app. cbn [byte_len].
    unfold nullability. destruct (nullable c); cbn [app].
    + replace (chars (data_type c) ++ "," :: " " :: rest) with ((chars (data_type c) ++ [","]) ++ " " :: rest)
        by (by rewrite <-app_assoc).
      rewrite find_key_field, Hfind; [|apply no_space_app; [done|by repeat constructor]|by right].
      rewrite byte_len_app. simpl. f_equal. lia.
    + change (chars " NOT NULL" ++ "," :: " " :: rest) with (" " :: chars "NOT" ++ " " :: chars "NULL," ++ " " :: rest).
      rewrite find_key_field; [|done|by right]. rewrite find_key_field; [|by repeat constructor|by right].
      rewrite find_key_field, Hfind; [|by repeat constructor|by right]. simpl. f_equal. lia.
Qed.

Lemma split_run sep u cur t : Forall (fun c => String.eqb sep c = false) u ->
  split_text sep cur (u ++ t) = split_text sep (cur ++ u) t.
Proof.
  intros Hu. revert cur. induction Hu as [|c u Hc _ IH]; intros cur; [by rewrite app_nil_r|].
  cbn [app split_text]. rewrite String.eqb_sym, Hc, IH, <-app_assoc. done.
Qed.

Lemma quoted_no_comma d s : plain_name s -> Forall (fun c => String.eqb "," c = false) (quoted d s).
Proof. intros Hs. apply quoted_without; try done; by destruct d. Qed.

Lemma split_comma cur t : split_text "," cur ("," :: " " :: t) = cur :: split_text "," [" "] t.
Proof. done. Qed.

Lemma keys_split d k pks cur : cur = [] \/ cur = [" "] -> Forall plain_name (k :: pks) ->
  map (fun c => normalize_identifier (strip c)) (split_text "," cur (key_list d (k :: pks))) = map chars (k :: pks).
Proof.
  intros Hcur Hp. revert k cur Hcur Hp. induction pks as [|k' pks IH]; intros k cur Hcur Hp; inversion Hp; subst.
  - cbn [key_list]. rewrite <-(app_nil_r (quoted d k)) at 1. rewrite split_run by (by apply quoted_no_comma).
    cbn [split_text map]. destruct Hcur as [->| ->]; cbn [app]; rewrite ?strip_space, quoted_framed, normalize_quoted; done.
  - change (key_list d (k :: k' :: pks)) with (quoted d k ++ chars ", " ++ key_list d (k' :: pks)).
    rewrite split_run by (by apply quoted_no_comma).
    change (chars ", " ++ key_list d (k' :: pks)) with ("," :: " " :: key_list d (k' :: pks)).
    change (map chars (k :: k' :: pks)) with (chars k :: map chars (k' :: pks)).
    rewrite <-(IH k' [" "]) by auto. rewrite split_comma, map_cons. f_equal.
    destruct Hcur as [->| ->]; cbn [app]; rewrite ?strip_space, quoted_framed, normalize_quoted; done.
Qed.

Lemma keys_named d pks : Forall plain_name pks ->
  nonempty_names (map (fun c => normalize_identifier (strip c)) (split_text "," [] (key_list d pks))) = pks.
Proof.
  intros Hp. destruct pks as [|k pks]; [reflexivity|]. rewrite keys_split by auto. unfold nonempty_names.
  induction Hp as [|p l [Hne _] _ IH]; [done|]. cbn [map List.filter].
  rewrite bool_decide_eq_false_2 by done. cbn [negb map]. by rewrite str_chars, IH.
Qed.

Definition before_key (d : DdlDialect) (s : TableSchema) : text :=
  before_body d s ++ ["("] ++ flat_map (fun c => column_text d c ++ chars ", ") (columns s).

Lemma create_key_split d s : create_text d s = before_key d s ++ key_text d (primary_keys s) ++ [")"].
Proof. rewrite create_split. unfold before_key, body_text. by rewrite <-!app_assoc. Qed.

Lemma before_key_ascii d s : plain_table s -> ascii_text (before_key d s).
Proof.
  intros Hs. apply Forall_app. split; [by apply before_ascii|]. constructor; [done|]. by apply columns_ascii_text, Hs.
Qed.

Lemma key_found d s : plain_table s ->
  find (chars "PRIMARY KEY") (to_uppercase (create_text d s)) = Some (byte_len (before_key d s)).
Proof.
  intros Hs. assert (Hl : byte_len (before_key d s) = byte_len (to_uppercase (before_key d s))).
  { pose proof (before_key_ascii d s Hs) as Ha.
    rewrite !byte_len_ascii by auto with text. by rewrite upper_text_length. }
  rewrite Hl, create_key_split. destruct Hs as (Hs & Ht & _ & Hc & _). unfold before_key, before_body, name_text, key_text.
  rewrite !to_uppercase_app.
  change (to_uppercase (chars "PRIMARY KEY (")) with (chars "PRIMARY KEY" ++ chars " (").
  change (to_uppercase (chars "CREATE TABLE ")) with (chars "CREATE" ++ " " :: chars "TABLE" ++ [" "]).
  change (to_uppercase ["."]) with ["."]. change (to_uppercase [" "]) with [" "]. change (to_uppercase ["("]) with ["("].
  assert (Hn : no_space (to_uppercase (quoted d (schema_name s)) ++ ["."] ++ to_uppercase (quoted d (table_name s)))).
  { apply no_space_app; [by apply quoted_upper_no_space|]. constructor; [done|by apply quoted_upper_no_space]. }
  rewrite !byte_len_app. rewrite <-!app_assoc. cbn [app]. rewrite <-!app_assoc. cbn [app].
  rewrite find_key_field; [|by repeat constructor|by right]. rewrite find_key_field; [|by repeat constructor|].
  2: { right. rewrite quoted_upper. by destruct d. }
  match goal with |- context [find _ ?t] =>
    replace t with ((to_uppercase (quoted d (schema_name s)) ++ ["."] ++ to_uppercase (quoted d (table_name s)))
      ++ " " :: (["("] ++ to_uppercase (flat_map (fun c => column_text d c ++ chars ", ") (columns s))
                  ++ chars "PRIMARY KEY" ++ chars " (" ++ to_uppercase (key_list d (primary_keys s))
                  ++ to_uppercase [")"] ++ to_uppercase [")"])) by (rewrite <-!app_assoc; done) end.
  rewrite find_key_field; [|done|by right]. rewrite find_key; [|done|by repeat constructor|by repeat constructor].
  rewrite !byte_len_app. simpl. done.
Qed.

Lemma keys_read d s : plain_table s -> extract_primary_keys (create_text d s) = Ok (primary_keys s).
Proof.
  intros Hs. unfold extract_primary_keys, key_clause. rewrite key_found by done.
  assert (Hsl : slice_from (byte_len (before_key d s) + 11) (create_text d s)
                = Ok (chars " (" ++ key_list d (primary_keys s) ++ [")"] ++ [")"])).
  { replace (byte_len (before_key d s) + 11)%nat with (byte_len (before_key d s ++ chars "PRIMARY KEY"))
      by (by rewrite byte_len_app).
    unfold slice_from. rewrite create_key_split. unfold key_text.
    change (chars "PRIMARY KEY (") with (chars "PRIMARY KEY" ++ chars " (").
    rewrite <-!app_assoc, (app_assoc (before_key d s)), split_bytes_app; [done|].
    apply ascii_not_empty, Forall_app. split; [by apply before_key_ascii|by repeat constructor]. }
  rewrite Hsl. cbn [res_bind].
  change (ltrim (chars " (" ++ key_list d (primary_keys s) ++ [")"] ++ [")"]))
    with ("(" :: key_list d (primary_keys s) ++ [")"; ")"]).
  change (begins ["("] ("(" :: key_list d (primary_keys s) ++ [")"; ")"])) with true. cbn [app].
  destruct Hs as (_ & _ & _ & _ & Hp).
  assert (Hf : find [")"] ("(" :: key_list d (primary_keys s) ++ [")"; ")"])
               = Some (byte_len ("(" :: key_list d (primary_keys s)))).
  { change ("(" :: key_list d (primary_keys s) ++ [")"; ")"]) with (("(" :: key_list d (primary_keys s)) ++ [")"; ")"]).
    rewrite find_skip; [simpl; f_equal; lia|]. constructor; [done|].
    apply keys_all; [|by repeat constructor]. eapply Forall_impl; [exact Hp|]. intros p ?.
    apply quoted_without; try done; by destruct d. }
  rewrite Hf. change 1%nat with (byte_len ["("]).
  change ("(" :: key_list d (primary_keys s)) with (["("] ++ key_list d (primary_keys s)).
  change ("(" :: key_list d (primary_keys s) ++ [")"; ")"]) with (["("] ++ key_list d (primary_keys s) ++ [")"; ")"]).
  rewrite slice_middle.
  - cbn [res_bind]. by rewrite keys_named.
  - apply ascii_not_empty. constructor; [done|by apply keys_ascii_text].
Qed.

(** ** The statement *)

(** C26: a CREATE TABLE statement is read as the table it creates.  For every table with
    plain names and types, written in any dialect with quoted identifiers and the key in a
    clause of its own, the parser answers the schema and the table, every column in its
    order with its type and nullability, and the primary key in its order. *)
Theorem create_table_roundtrip (d : DdlDialect) (s : TableSchema) : plain_table s ->
  parse_ddl_statement d (create_statement d s)
  = Ok (Some {| dialect := d; operation := OpCreateTable; parsed_schema := schema_name s;
                parsed_table := table_name s; parsed_statement := create_statement d s;
                parsed_result := Some s; parsed_diff := None |}).
Proof.
  intros Hs. unfold parse_ddl_statement, create_statement.
  rewrite chars_str by (by apply create_text_ascii).
  assert (Hst : strip (create_text d s) = create_text d s).
  { eapply (strip_id _ "C" _ (chars "CREATE TABLE " ++ name_text d s ++ chars " (" ++ body_text d s) ")");
      [reflexivity|done| |done]. unfold create_text. by rewrite <-!app_assoc. }
  rewrite Hst.
  assert (Hup : exists r, to_uppercase (create_text d s) = chars "CREATE TABLE" ++ r).
  { unfold create_text. rewrite to_uppercase_app. change (to_uppercase (chars "CREATE TABLE ")) with (chars "CREATE TABLE" ++ [" "]).
    rewrite <-app_assoc. by eexists. }
  destruct Hup as [r Hup].
  assert (Htab : parse_schema_table_for_dialect d (create_text d s) = Ok (Some (schema_name s, table_name s))).
  { unfold parse_schema_table_for_dialect. rewrite Hup. change (begins (chars "CREATE TABLE") (chars "CREATE TABLE" ++ r)) with true. cbn match.
    rewrite slice_from_ascii by (by apply create_text_ascii || (unfold create_text; rewrite length_app; simpl; lia)).
    cbn [res_bind]. change (drop 12 (create_text d s)) with (" " :: name_text d s ++ chars " (" ++ body_text d s ++ [")"]).
    replace (ltrim (" " :: name_text d s ++ chars " (" ++ body_text d s ++ [")"]))
      with (name_text d s ++ chars " (" ++ body_text d s ++ [")"]).
    - destruct Hs as (Hn & Ht & _). by rewrite qualified_name_read.
    - unfold ltrim. cbn [drop_while]. change (white " ") with true. cbn match. unfold name_text, quoted. cbn [app].
      by rewrite drop_while_here by apply opening_white. }
  unfold operation_of. rewrite Hup. change (begins (chars "CREATE TABLE") (chars "CREATE TABLE" ++ r)) with true. cbn match.
  rewrite Htab. cbn [res_bind]. unfold parse_create_table_schema_for_dialect. rewrite Htab. cbn [res_bind].
  replace (ltrim (create_text d s)) with (create_text d s) by (symmetry; by apply (drop_while_here white "C")).
  rewrite Hup. change (begins (chars "ALTER TABLE") (chars "CREATE TABLE" ++ r)) with false. cbn match.
  rewrite columns_read, keys_read by done. cbn [res_bind]. destruct Hs as (_ & _ & Hv & _). destruct s; simpl in *. by subst.
Qed.

(** ** What the parsers get wrong *)

(** CREATE TABLE IF NOT EXISTS is captured for a table called [if] in the default
    schema, in every dialect and whatever the statement goes on with: the modifier is
    skipped before a dropped or altered table and not before a created one. *)
Theorem create_if_not_exists_names_if (d : DdlDialect) (rest : text) :
  parse_schema_table_for_dialect d (chars "CREATE TABLE IF NOT EXISTS " ++ rest)
  = Ok (Some (default_schema d, "if")).
Proof.
  unfold parse_schema_table_for_dialect. rewrite to_uppercase_app.
  change (begins (chars "CREATE TABLE") (to_uppercase (chars "CREATE TABLE IF NOT EXISTS ") ++ to_uppercase rest)) with true.
  cbn match.
  change (slice_from 12 (chars "CREATE TABLE IF NOT EXISTS " ++ rest)) with (@Ok text (chars " IF NOT EXISTS " ++ rest)).
  cbn [res_bind]. change (ltrim (chars " IF NOT EXISTS " ++ rest)) with (chars "IF NOT EXISTS " ++ rest).
  assert (Hst : forall u, exists v, strip (chars "IF N" ++ u) = chars "IF N" ++ v).
  { intros u. destruct (drop_while_end_keep white (chars "IF ") "N" u eq_refl) as [v Hv]. by exists v. }
  change (chars "IF NOT EXISTS " ++ rest) with (chars "IF N" ++ chars "OT EXISTS " ++ rest).
  unfold extract_qualified_name_with_default, split_qualified_identifier_parts.
  destruct (Hst (chars "OT EXISTS " ++ rest)) as [v ->]. destruct (Hst v) as [w ->]. reflexivity.
Qed.

(** ALTER TABLE panics on a name whose fourth byte lies inside a character.  The
    parser looks for ONLY by splitting what follows at its length in bytes, and the split
    is not on a character boundary. *)
Theorem alter_off_boundary_panics (d : DdlDialect) (c : string) (name : text) :
  white c = false -> (4 <= byte_len (c :: name))%nat -> split_bytes 4 (c :: name) = Panic ->
  parse_schema_table_for_dialect d (chars "ALTER TABLE " ++ c :: name) = Panic.
Proof.
  intros Hw Hl Hp. unfold parse_schema_table_for_dialect. rewrite to_uppercase_app.
  change (begins (chars "CREATE TABLE") (to_uppercase (chars "ALTER TABLE ") ++ to_uppercase (c :: name))) with false.
  change (begins (chars "ALTER TABLE") (to_uppercase (chars "ALTER TABLE ") ++ to_uppercase (c :: name))) with true.
  cbn match. change (slice_from 11 (chars "ALTER TABLE " ++ c :: name)) with (@Ok text (" " :: c :: name)).
  cbn [res_bind]. unfold ltrim. cbn [drop_while]. change (white " ") with true. cbn match. rewrite Hw.
  unfold strip_alter_target_modifiers. cbn [strip_modifiers]. unfold strip_optional_keyword at 1.
  unfold ltrim. rewrite drop_while_here by done. change (byte_len (chars "ONLY")) with 4%nat.
  replace (Nat.ltb (byte_len (c :: name)) 4) with false by (symmetry; by apply Nat.ltb_ge).
  by rewrite Hp.
Qed.

End Reading.

(** ** Runs *)

(** A case table that leaves other scripts alone. *)
Definition ascii_case : CaseTable := {| upper_other := fun c => [c]; lower_other := map lower |}.

Definition users : TableSchema :=
  {| schema_name := "shop"; table_name := "users";
     columns := [{| column_name := "id"; data_type := "BIGINT"; nullable := false; constraints := [] |};
                 {| column_name := "price"; data_type := "DECIMAL(10,2)"; nullable := true; constraints := [] |}];
     primary_keys := ["id"]; schema_version := 0 |}.

Lemma users_plain : plain_table users.
Proof.
  assert (Hn : forall s, forallb name_char (chars s) = true -> chars s <> [] -> plain_name s).
  { intros s Hs Hne. split; [done|]. apply Forall_forall. intros c Hc%list_elem_of_In.
    by apply (proj1 (forallb_forall _ _) Hs). }
  repeat split; try (by apply Hn); repeat constructor; try (by apply Hn); try done.
  - exists (chars "BIGINT"), []. split_and!; [done|done|by repeat constructor|by left].
  - exists (chars "DECIMAL"), (chars "(10,2)"). split_and!; [done|done|by repeat constructor|].
    right. exists (chars "10,2"). split; [done|by repeat constructor].
Qed.

Lemma create_table_roundtrip_witness :
  plain_table users
  /\ parse_ddl_statement (H := ascii_case) Mysql (create_statement Mysql users)
     = Ok (Some {| dialect := Mysql; operation := OpCreateTable; parsed_schema := "shop";
                   parsed_table := "users"; parsed_statement := create_statement Mysql users;
                   parsed_result := Some users; parsed_diff := None |}).
Proof. split; [apply users_plain|apply (create_table_roundtrip (H := ascii_case) Mysql users), users_plain]. Defined.


Definition cafe : text := chars (string_of_list_byte [Byte.x63; Byte.x61; Byte.x66; Byte.xc3; Byte.xa9]).

Lemma alter_off_boundary_panics_witness :
  parse_schema_table_for_dialect (H := ascii_case) Mysql
    (chars "ALTER TABLE " ++ cafe ++ chars " ADD COLUMN x INT") = Panic.
Proof.
  apply (alter_off_boundary_panics (H := ascii_case) Mysql "c" (tl cafe ++ chars " ADD COLUMN x INT"));
    [reflexivity|vm_compute; lia|reflexivity].
Defined.

(** Two ideographs in a list of values, three bytes each, move the end of the type past
    the middle of a character. *)
Theorem enum_of_ideographs_panics :
  extract_captured_ddl (H := ascii_case) Mysql
    ("CREATE TABLE t (c ENUM('" +:+ string_of_list_byte
       [Byte.xe6; Byte.x97; Byte.xa5; Byte.xe6; Byte.x9c; Byte.xac] +:+ "') NOT NULL)") = Panic.
Proof. vm_compute. reflexivity. Qed.

(** Without a space before the columns, the table's name runs into them; and the type of
    an added column ends at its first space. *)
Theorem unspaced_columns_join_name :
  parse_schema_table_for_dialect (H := ascii_case) Mysql (chars "CREATE TABLE users(id INT)")
  = Ok (Some ("default", "users(id"))
  /\ parse_alter_clause (H := ascii_case) (chars "ADD COLUMN price DECIMAL(10, 2)")
     = Ok (Some (AddColumn {| column_name := "price"; data_type := "DECIMAL(10"; nullable := true;
                              constraints := [] |})).
Proof. split; vm_compute; reflexivity. Qed.

End DdlRoundtrip.
