(* ===== verification/PgDecoder.v ===== *)
(** * PgDecoder: the pgoutput message decoder

    Models [src/src/source/postgres/decoder.rs]: the cursor over a message, one
    definition per decode function, and the message types.  The decoder is compared with
    the pgoutput protocol (version 1) written as a grammar: [wire_message m bs] says that
    [bs] is one message on the wire and [m] what it means.

    [usize::try_from] of a [u32] cannot fail on a 64-bit target, and [Vec::with_capacity]
    only reserves memory; neither appears in the model. *)

From S2P Require Import Prelude Errors Strs Monad Bytes.

Module PgDecoder.

Local Open Scope string_scope.
Local Open Scope Z_scope.

(** ** Messages *)

Record PgColumn := {
  column_name : string;
  flags : byte;
  type_oid : Z;
  type_modifier : Z
}.

Definition is_key (c : PgColumn) : bool := negb (Z.land (byte_code (flags c)) 1 =? 0).

Inductive PgValue :=
| Null
| Unchanged
| Text (text : string).

Record PgRelation := {
  oid : Z;
  namespace : string;
  name : string;
  replica_identity : byte;
  columns : list PgColumn
}.

Record PgBegin := { final_lsn : Z; begin_timestamp_us : Z; xid : Z }.

Record PgCommit := {
  commit_flags : byte;
  commit_lsn : Z;
  end_lsn : Z;
  commit_timestamp_us : Z
}.

Record PgInsert := { insert_oid : Z; insert_new : list PgValue }.

Record PgUpdate := {
  update_oid : Z;
  update_key : option (list PgValue);
  update_old : option (list PgValue);
  update_new : list PgValue
}.

Record PgDelete := {
  delete_oid : Z;
  delete_key : option (list PgValue);
  delete_old : option (list PgValue)
}.

Record PgTruncate := { option_bits : byte; relation_oids : list Z }.

Inductive PgOutputMessage :=
| Begin (b : PgBegin)
| Commit (c : PgCommit)
| Relation (r : PgRelation)
| Insert (i : PgInsert)
| Update (u : PgUpdate)
| Delete (d : PgDelete)
| Truncate (t : PgTruncate)
| Unknown (tag : byte).

#[global] Instance PgColumn_eq_dec : EqDecision PgColumn.
Proof. solve_decision. Defined.
#[global] Instance PgRelation_eq_dec : EqDecision PgRelation.
Proof. solve_decision. Defined.

(** ** The cursor *)

Record BytesCursor := { data : bytes; pos : nat }.

Definition cursor_new (d : bytes) : BytesCursor := {| data := d; pos := 0 |}.

Definition goto (p : nat) (c : BytesCursor) : BytesCursor := {| data := data c; pos := p |}.

Abbreviation Reader := (M BytesCursor).

Definition read_u8 : Reader byte := fun c =>
  match data c !! pos c with
  | None => (Err (SourceError "unexpected end of pgoutput message reading u8"), c)
  | Some b => (Ok b, goto (S (pos c)) c)
  end.

(** The length in the error text is [data.len() - pos], which does not underflow: the
    position never passes the end ([reads]). *)
Definition read_n_bytes (n : nat) : Reader bytes := fun c =>
  let last := (pos c + n)%nat in
  if Nat.ltb (length (data c)) last then
    (Err (SourceError "unexpected end of pgoutput message"), c)
  else
    match slice (data c) (pos c) last with
    | Ok s => (Ok s, goto last c)
    | Err e => (Err e, c)
    | Panic => (Panic, c)
    end.

Definition read_u16_be : Reader Z := b ← read_n_bytes 2; b ← of_res (array 2 b); mret (from_be b).
Definition read_u32_be : Reader Z := b ← read_n_bytes 4; b ← of_res (array 4 b); mret (from_be b).
Definition read_i32_be : Reader Z :=
  b ← read_n_bytes 4; b ← of_res (array 4 b); mret (from_be_signed b).
Definition read_u64_be : Reader Z := b ← read_n_bytes 8; b ← of_res (array 8 b); mret (from_be b).
Definition read_i64_be : Reader Z :=
  b ← read_n_bytes 8; b ← of_res (array 8 b); mret (from_be_signed b).

(** How far the scan of [read_cstring] runs: to the first zero byte or to the end. *)
Fixpoint scan_nul (l : bytes) : nat :=
  match l with
  | [] => 0
  | b :: l' => if Byte.eqb b Byte.x00 then 0 else S (scan_nul l')
  end.

(** [std::str::from_utf8(bytes)?.to_string()] *)
Definition utf8_text (message : string) (b : bytes) : Res string :=
  if utf8_valid b then Ok (string_of_list_byte b) else Err (SourceError message).

Definition read_cstring : Reader string := fun c =>
  let stop := (pos c + scan_nul (drop (pos c) (data c)))%nat in
  if Nat.leb (length (data c)) stop then
    (Err (SourceError "unterminated cstring in pgoutput message"), goto stop c)
  else
    match slice (data c) (pos c) stop with
    | Ok s =>
        match utf8_text "non-UTF8 cstring in pgoutput message" s with
        | Ok t => (Ok t, goto (S stop) c)
        | Err e => (Err e, goto stop c)
        | Panic => (Panic, goto stop c)
        end
    | Err e => (Err e, goto stop c)
    | Panic => (Panic, goto stop c)
    end.

(** [for _ in 0..n { values.push(body?) }] *)
Fixpoint read_times {A} (n : nat) (body : Reader A) : Reader (list A) :=
  match n with
  | O => mret []
  | S n' => a ← body; l ← read_times n' body; mret (a :: l)
  end.

(** ** Decoding *)

Definition decode_begin : Reader PgBegin :=
  lsn ← read_u64_be;
  ts ← read_i64_be;
  x ← read_u32_be;
  mret {| final_lsn := lsn; begin_timestamp_us := ts; xid := x |}.

Definition decode_commit : Reader PgCommit :=
  f ← read_u8;
  lsn ← read_u64_be;
  fin ← read_u64_be;
  ts ← read_i64_be;
  mret {| commit_flags := f; commit_lsn := lsn; end_lsn := fin; commit_timestamp_us := ts |}.

Definition decode_column : Reader PgColumn :=
  f ← read_u8;
  n ← read_cstring;
  ty ← read_u32_be;
  tm ← read_i32_be;
  mret {| column_name := n; flags := f; type_oid := ty; type_modifier := tm |}.

Definition decode_relation : Reader PgRelation :=
  o ← read_u32_be;
  ns ← read_cstring;
  n ← read_cstring;
  ri ← read_u8;
  ncols ← read_u16_be;
  cols ← read_times (Z.to_nat ncols) decode_column;
  mret {| oid := o; namespace := ns; name := n; replica_identity := ri; columns := cols |}.

(** The length-prefixed bytes of a datum. *)
Definition read_datum_bytes (negative : string) : Reader bytes :=
  len ← read_i32_be;
  if len <? 0 then throw (SourceError negative) else read_n_bytes (Z.to_nat len).

Definition decode_datum : Reader PgValue :=
  kind ← read_u8;
  if Byte.eqb kind "n"%byte then mret Null
  else if Byte.eqb kind "u"%byte then mret Unchanged
  else if Byte.eqb kind "t"%byte then
    b ← read_datum_bytes "negative text datum length in pgoutput tuple";
    t ← of_res (utf8_text "non-UTF8 text datum in pgoutput tuple" b);
    mret (Text t)
  else if Byte.eqb kind "b"%byte then
    b ← read_datum_bytes "negative binary datum length in pgoutput tuple";
    mret (Text ("\x" +:+ hex b))
  else throw (SourceError "unknown datum kind in pgoutput tuple").

Definition decode_tuple_data : Reader (list PgValue) :=
  n ← read_u16_be;
  read_times (Z.to_nat n) decode_datum.

Definition decode_insert : Reader PgInsert :=
  o ← read_u32_be;
  marker ← read_u8;
  if negb (Byte.eqb marker "N"%byte) then
    throw (SourceError "expected 'N' marker in INSERT message")
  else
    new ← decode_tuple_data;
    mret {| insert_oid := o; insert_new := new |}.

Definition decode_update : Reader PgUpdate :=
  o ← read_u32_be;
  marker ← read_u8;
  if Byte.eqb marker "K"%byte then
    key ← decode_tuple_data;
    next ← read_u8;
    if negb (Byte.eqb next "N"%byte) then
      throw (SourceError "expected 'N' after key tuple in UPDATE")
    else
      new ← decode_tuple_data;
      mret {| update_oid := o; update_key := Some key; update_old := None; update_new := new |}
  else if Byte.eqb marker "O"%byte then
    old ← decode_tuple_data;
    next ← read_u8;
    if negb (Byte.eqb next "N"%byte) then
      throw (SourceError "expected 'N' after old tuple in UPDATE")
    else
      new ← decode_tuple_data;
      mret {| update_oid := o; update_key := None; update_old := Some old; update_new := new |}
  else if Byte.eqb marker "N"%byte then
    new ← decode_tuple_data;
    mret {| update_oid := o; update_key := None; update_old := None; update_new := new |}
  else throw (SourceError "unknown UPDATE marker").

Definition decode_delete : Reader PgDelete :=
  o ← read_u32_be;
  marker ← read_u8;
  if Byte.eqb marker "K"%byte then
    key ← decode_tuple_data;
    mret {| delete_oid := o; delete_key := Some key; delete_old := None |}
  else if Byte.eqb marker "O"%byte then
    old ← decode_tuple_data;
    mret {| delete_oid := o; delete_key := None; delete_old := Some old |}
  else throw (SourceError "unknown DELETE marker").

Definition decode_truncate : Reader PgTruncate :=
  n ← read_u32_be;
  ob ← read_u8;
  oids ← read_times (Z.to_nat n) read_u32_be;
  mret {| option_bits := ob; relation_oids := oids |}.

Definition decode_tagged : Reader PgOutputMessage :=
  tag ← read_u8;
  if Byte.eqb tag "B"%byte then m ← decode_begin; mret (Begin m)
  else if Byte.eqb tag "C"%byte then m ← decode_commit; mret (Commit m)
  else if Byte.eqb tag "R"%byte then m ← decode_relation; mret (Relation m)
  else if Byte.eqb tag "I"%byte then m ← decode_insert; mret (Insert m)
  else if Byte.eqb tag "U"%byte then m ← decode_update; mret (Update m)
  else if Byte.eqb tag "D"%byte then m ← decode_delete; mret (Delete m)
  else if Byte.eqb tag "T"%byte then m ← decode_truncate; mret (Truncate m)
  else mret (Unknown tag).

Definition decode_pgoutput_message (d : bytes) : Res PgOutputMessage :=
  match d with
  | [] => Err (SourceError "empty pgoutput message")
  | _ => (decode_tagged (cursor_new d)).1
  end.

(** ** The protocol as a grammar

    [G a bs] says that the bytes [bs] denote [a]. *)

Definition grammar (A : Type) : Type := A -> bytes -> Prop.

(** Fixed-width integers. *)
Definition wire_uint (w : nat) : grammar Z := fun n bs =>
  unsigned_range w n /\ bs = be_bytes w n.
Definition wire_int (w : nat) : grammar Z := fun n bs =>
  signed_range w n /\ bs = be_bytes w n.
Definition wire_byte : grammar byte := fun b bs => bs = [b].

(** A string of UTF-8 text, its zero byte the terminator. *)
Definition wire_cstring : grammar string := fun s bs =>
  let text := list_byte_of_string s in
  utf8_valid text = true /\ (Byte.x00 ∉ text) /\ bs = (text ++ [Byte.x00])%list.

(** Length-prefixed bytes. *)
Definition wire_counted : grammar bytes := fun raw bs =>
  2 * Z.of_nat (length raw) < modulus 4 /\
  bs = (be_bytes 4 (Z.of_nat (length raw)) ++ raw)%list.

(** A sequence of items behind a count of [w] bytes. *)
Definition wire_list {A} (w : nat) (G : grammar A) : grammar (list A) := fun l bs =>
  exists items, Forall2 G l items /\ Z.of_nat (length l) < modulus w /\
    bs = (be_bytes w (Z.of_nat (length l)) ++ concat items)%list.

Inductive wire_datum : PgValue -> bytes -> Prop :=
| wire_null : wire_datum Null ["n"%byte]
| wire_unchanged : wire_datum Unchanged ["u"%byte]
| wire_text t raw bs :
    wire_counted raw bs -> utf8_valid raw = true -> t = string_of_list_byte raw ->
    wire_datum (Text t) ("t"%byte :: bs)
| wire_binary raw bs :
    wire_counted raw bs -> wire_datum (Text ("\x" +:+ hex raw)) ("b"%byte :: bs).

Definition wire_tuple : grammar (list PgValue) := wire_list 2 wire_datum.

Inductive wire_column : PgColumn -> bytes -> Prop :=
| wire_column_intro f n ty tm bn bty btm :
    wire_cstring n bn -> wire_uint 4 ty bty -> wire_int 4 tm btm ->
    wire_column {| column_name := n; flags := f; type_oid := ty; type_modifier := tm |}
      (f :: bn ++ bty ++ btm)%list.

(** The messages of protocol version 1; any other first byte is a message this decoder
    does not interpret. *)
Inductive wire_message : PgOutputMessage -> bytes -> Prop :=
| wire_begin lsn ts x b1 b2 b3 :
    wire_uint 8 lsn b1 -> wire_int 8 ts b2 -> wire_uint 4 x b3 ->
    wire_message (Begin {| final_lsn := lsn; begin_timestamp_us := ts; xid := x |})
      ("B"%byte :: b1 ++ b2 ++ b3)%list
| wire_commit f lsn fin ts b1 b2 b3 :
    wire_uint 8 lsn b1 -> wire_uint 8 fin b2 -> wire_int 8 ts b3 ->
    wire_message (Commit {| commit_flags := f; commit_lsn := lsn; end_lsn := fin;
                            commit_timestamp_us := ts |})
      ("C"%byte :: f :: b1 ++ b2 ++ b3)%list
| wire_relation o ns n ri cols b1 b2 b3 b4 :
    wire_uint 4 o b1 -> wire_cstring ns b2 -> wire_cstring n b3 ->
    wire_list 2 wire_column cols b4 ->
    wire_message (Relation {| oid := o; namespace := ns; name := n; replica_identity := ri;
                              columns := cols |})
      ("R"%byte :: b1 ++ b2 ++ b3 ++ ri :: b4)%list
| wire_insert o new b1 b2 :
    wire_uint 4 o b1 -> wire_tuple new b2 ->
    wire_message (Insert {| insert_oid := o; insert_new := new |})
      ("I"%byte :: b1 ++ "N"%byte :: b2)%list
| wire_update o new b1 b2 :
    wire_uint 4 o b1 -> wire_tuple new b2 ->
    wire_message (Update {| update_oid := o; update_key := None; update_old := None;
                            update_new := new |})
      ("U"%byte :: b1 ++ "N"%byte :: b2)%list
| wire_update_key o key new b1 bk b2 :
    wire_uint 4 o b1 -> wire_tuple key bk -> wire_tuple new b2 ->
    wire_message (Update {| update_oid := o; update_key := Some key; update_old := None;
                            update_new := new |})
      ("U"%byte :: b1 ++ "K"%byte :: bk ++ "N"%byte :: b2)%list
| wire_update_old o old new b1 bo b2 :
    wire_uint 4 o b1 -> wire_tuple old bo -> wire_tuple new b2 ->
    wire_message (Update {| update_oid := o; update_key := None; update_old := Some old;
                            update_new := new |})
      ("U"%byte :: b1 ++ "O"%byte :: bo ++ "N"%byte :: b2)%list
| wire_delete_key o key b1 bk :
    wire_uint 4 o b1 -> wire_tuple key bk ->
    wire_message (Delete {| delete_oid := o; delete_key := Some key; delete_old := None |})
      ("D"%byte :: b1 ++ "K"%byte :: bk)%list
| wire_delete_old o old b1 bo :
    wire_uint 4 o b1 -> wire_tuple old bo ->
    wire_message (Delete {| delete_oid := o; delete_key := None; delete_old := Some old |})
      ("D"%byte :: b1 ++ "O"%byte :: bo)%list
| wire_truncate ob oids b1 items :
    wire_uint 4 (Z.of_nat (length oids)) b1 -> Forall2 (wire_uint 4) oids items ->
    wire_message (Truncate {| option_bits := ob; relation_oids := oids |})
      ("T"%byte :: b1 ++ ob :: concat items)%list
| wire_other tag :
    tag ∉ ["B"; "C"; "R"; "I"; "U"; "D"; "T"]%byte ->
    wire_message (Unknown tag) [tag].

(** ** Readers and grammars

    A reader reads a grammar when it accepts exactly the inputs with a prefix in the
    grammar, returns what the prefix denotes, stops right behind it, and never panics. *)

Definition rest (c : BytesCursor) : bytes := drop (pos c) (data c).
Definition in_bounds (c : BytesCursor) : Prop := (pos c <= length (data c))%nat.

Definition reads {A} (m : Reader A) (G : grammar A) : Prop := forall c, in_bounds c ->
  (forall a bs tl, G a bs -> rest c = (bs ++ tl)%list ->
     exists c', m c = (Ok a, c') /\ rest c' = tl /\ in_bounds c') /\
  match m c with
  | (Ok a, c') => exists bs, G a bs /\ rest c = (bs ++ rest c')%list /\ in_bounds c'
  | (Err _, _) => True
  | (Panic, _) => False
  end.

Lemma reads_iff {A} (m : Reader A) (G G' : grammar A) :
  reads m G -> (forall a bs, G a bs <-> G' a bs) -> reads m G'.
Proof.
  intros H Hiff c Hc. destruct (H c Hc) as [Hcomp Hsound]. split.
  - intros a bs tl Ha. apply (Hcomp a bs tl), Hiff, Ha.
  - destruct (m c) as [[a|e|] c']; try done.
    destruct Hsound as (bs & Ha & Hr). exists bs. by rewrite <- Hiff.
Qed.

Lemma reads_ret {A} (a : A) : reads (mret a) (fun b bs => b = a /\ bs = []).
Proof.
  intros c Hc. split.
  - intros b bs tl [-> ->] Hr. by exists c.
  - by exists [].
Qed.

Lemma reads_throw {A} e : reads (throw e : Reader A) (fun _ _ => False).
Proof. by intros c Hc. Qed.

Lemma reads_bind {A B} (m : Reader A) (k : A -> Reader B) G H :
  reads m G -> (forall a, reads (k a) (H a)) ->
  reads (m ≫= k) (fun b bs => exists a x y, bs = (x ++ y)%list /\ G a x /\ H a b y).
Proof.
  intros Hm Hk c Hc. destruct (Hm c Hc) as [Hcomp Hsound]. split.
  - intros b bs tl (a & x & y & -> & Ha & Hb) Hr. rewrite <- app_assoc in Hr.
    destruct (Hcomp a x _ Ha Hr) as (c1 & Heq & Hr1 & Hc1).
    rewrite (bind_ok _ _ _ _ _ Heq). by apply (Hk a c1 Hc1) with (bs := y).
  - rewrite bind_eq. destruct (m c) as [[a|e|] c1]; try done.
    destruct Hsound as (x & Ha & Hr & Hc1). destruct (Hk a c1 Hc1) as [_ Hs].
    destruct (k a c1) as [[b|e|] c2]; try done.
    destruct Hs as (y & Hb & Hr1 & Hc2). exists (x ++ y)%list.
    split; [by exists a, x, y|]. by rewrite Hr, Hr1, app_assoc.
Qed.

Lemma reads_times {A} n (m : Reader A) G : reads m G ->
  reads (read_times n m) (fun l bs => exists items,
    Forall2 G l items /\ length l = n /\ bs = concat items).
Proof.
  intros Hm. induction n as [|n IH]; simpl.
  - eapply reads_iff; [apply reads_ret|]. intros l bs. split.
    + intros [-> ->]. by exists [].
    + intros (items & Hf & Hl & ->). destruct l; [|done]. by inversion Hf.
  - eapply reads_iff.
    { apply reads_bind; [apply Hm|]. intros a. apply reads_bind; [apply IH|].
      intros l. apply reads_ret. }
    intros l bs. split.
    + intros (a & x & y & -> & Ha & (l' & z & w & -> & (items & Hf & Hl & ->) & (-> & ->))).
      exists (x :: items). rewrite app_nil_r. simpl. by auto with f_equal.
    + intros (items & Hf & Hl & ->). destruct l as [|a l]; [done|].
      inversion Hf as [|? x ? items' Ha Hf']; subst.
      exists a, x, (concat items'). split; [done|]. split; [done|].
      exists l, (concat items'), []. rewrite app_nil_r. split; [done|]. split; [|done].
      exists items'. simpl in Hl. by simplify_eq.
Qed.

Lemma rest_goto c n : in_bounds c -> rest (goto (pos c + n) c) = drop n (rest c).
Proof. intros Hc. unfold rest, goto. simpl. by rewrite drop_drop. Qed.

Lemma length_rest c : in_bounds c -> length (rest c) = (length (data c) - pos c)%nat.
Proof. intros Hc. unfold rest. by rewrite length_drop. Qed.

Lemma in_bounds_goto c n : (n <= length (rest c))%nat -> in_bounds c ->
  in_bounds (goto (pos c + n) c).
Proof. intros Hn Hc. rewrite length_rest in Hn by done. unfold in_bounds in *. simpl. lia. Qed.

Lemma reads_u8 : reads read_u8 wire_byte.
Proof.
  intros c Hc. assert (Hlook : data c !! pos c = rest c !! O).
  { unfold rest. by rewrite lookup_drop, Nat.add_0_r. }
  unfold read_u8. rewrite Hlook. split.
  - intros a bs tl -> Hr. rewrite Hr. simpl. eexists. split; [done|].
    rewrite <- (Nat.add_1_r (pos c)), rest_goto, Hr by done. split; [done|].
    apply in_bounds_goto; [|done]. rewrite Hr. simpl. lia.
  - destruct (rest c) as [|b l] eqn:Hr; simpl; [done|].
    exists [b]. split; [done|]. rewrite <- (Nat.add_1_r (pos c)), rest_goto, Hr by done.
    split; [done|]. apply in_bounds_goto; [|done]. rewrite Hr. simpl. lia.
Qed.

Lemma read_n_bytes_eq n c : in_bounds c ->
  read_n_bytes n c =
    if decide (n <= length (rest c))%nat
    then (Ok (take n (rest c)), goto (pos c + n) c)
    else (Err (SourceError "unexpected end of pgoutput message"), c).
Proof.
  intros Hc. rewrite length_rest by done. unfold read_n_bytes, slice, in_bounds in *.
  destruct (Nat.ltb_spec (length (data c)) (pos c + n)); case_decide; try lia; [done|].
  destruct (Nat.leb_spec (pos c) (pos c + n)); [|lia].
  destruct (Nat.leb_spec (pos c + n) (length (data c))); [|lia]. simpl.
  by replace (pos c + n - pos c)%nat with n by lia.
Qed.

Lemma reads_n_bytes n : reads (read_n_bytes n) (fun b bs => bs = b /\ length b = n).
Proof.
  intros c Hc. rewrite read_n_bytes_eq by done. split.
  - intros b bs tl [-> Hl] Hr. rewrite decide_True by (rewrite Hr, length_app; lia).
    eexists. rewrite rest_goto, Hr, take_app_length', drop_app_length' by done.
    split; [done|]. split; [done|]. apply in_bounds_goto; [|done].
    rewrite Hr, length_app. lia.
  - case_decide as Hd; [|done]. exists (take n (rest c)).
    split; [by rewrite length_take_le|]. rewrite rest_goto, take_drop by done.
    split; [done|]. by apply in_bounds_goto.
Qed.

Lemma array_exact w b : length b = w -> array w b = Ok b.
Proof. intros <-. unfold array. by rewrite Nat.leb_refl, take_ge. Qed.

(** The five integer readers share a shape. *)
Lemma reads_fixed w (f : bytes -> Z) (range : Z -> Prop) :
  (forall b, length b = w -> range (f b) /\ be_bytes w (f b) = b) ->
  (forall n, range n -> f (be_bytes w n) = n) ->
  reads (b ← read_n_bytes w; b ← of_res (array w b); mret (f b))
    (fun n bs => range n /\ bs = be_bytes w n).
Proof.
  intros Hf Hinv c Hc. destruct (reads_n_bytes w c Hc) as [Hcomp Hsound]. split.
  - intros n bs tl [Hn ->] Hr.
    destruct (Hcomp _ _ _ (conj eq_refl (length_be_bytes w n)) Hr) as (c' & Heq & Hc').
    exists c'. rewrite (bind_ok _ _ _ _ _ Heq), bind_eq. unfold of_res.
    rewrite array_exact by apply length_be_bytes. unfold mret, M_ret. by rewrite Hinv.
  - rewrite bind_eq. destruct (read_n_bytes w c) as [[b|e|] c'] eqn:Heq; try done.
    destruct Hsound as (bs & [-> Hl] & Hr). rewrite bind_eq. unfold of_res.
    rewrite array_exact by done. exists b. destruct (Hf b Hl) as [? ->]. done.
Qed.

Lemma reads_uint w :
  reads (b ← read_n_bytes w; b ← of_res (array w b); mret (from_be b)) (wire_uint w).
Proof.
  apply reads_fixed; [|apply from_be_unsigned]. intros b <-.
  split; [apply from_be_range|apply be_from_be].
Qed.

Lemma reads_int w :
  reads (b ← read_n_bytes w; b ← of_res (array w b); mret (from_be_signed b)) (wire_int w).
Proof.
  apply reads_fixed; [|apply from_be_signed_bytes]. intros b Hl.
  split; [by apply from_be_signed_range|]. rewrite <- Hl. apply be_from_be_signed.
Qed.

Lemma scan_nul_spec l :
  (Byte.x00 ∉ take (scan_nul l) l) /\
  (scan_nul l = length l \/ l !! scan_nul l = Some Byte.x00) /\ (scan_nul l <= length l)%nat.
Proof.
  induction l as [|b l (Hn & Hs & Hl)]; simpl; [split_and!; [set_solver|by left|done]|].
  destruct (Byte.eqb b Byte.x00) eqn:Hb; simpl.
  - apply byte_eqb_spec in Hb. subst. split; [set_solver|]. split; [by right|lia].
  - assert (b <> Byte.x00) by (intros ->; by rewrite (proj2 (byte_eqb_spec _ _)) in Hb).
    split; [by apply not_elem_of_cons|]. split; [|lia]. destruct Hs as [->|Hs]; [by left|by right].
Qed.

Lemma scan_nul_app l tl : Byte.x00 ∉ l -> scan_nul (l ++ Byte.x00 :: tl) = length l.
Proof.
  induction l as [|b l IH]; intros Hn; simpl; [done|].
  destruct (Byte.eqb b Byte.x00) eqn:Hb.
  - apply byte_eqb_spec in Hb. set_solver.
  - rewrite IH; set_solver.
Qed.

(** What [read_cstring] computes, in terms of the unread bytes. *)
Lemma read_cstring_eq c : in_bounds c ->
  let n := scan_nul (rest c) in
  read_cstring c =
    if decide (n < length (rest c))%nat then
      if utf8_valid (take n (rest c))
      then (Ok (string_of_list_byte (take n (rest c))), goto (pos c + S n) c)
      else (Err (SourceError "non-UTF8 cstring in pgoutput message"), goto (pos c + n) c)
    else (Err (SourceError "unterminated cstring in pgoutput message"), goto (pos c + n) c).
Proof.
  intros Hc n. pose proof (length_rest c Hc) as Hlen. unfold read_cstring.
  change (drop (pos c) (data c)) with (rest c). fold n. unfold in_bounds in Hc.
  destruct (Nat.leb_spec (length (data c)) (pos c + n)); case_decide; try lia; [done|].
  unfold slice.
  destruct (Nat.leb_spec (pos c) (pos c + n)); [|lia].
  destruct (Nat.leb_spec (pos c + n) (length (data c))); [|lia]. simpl.
  replace (pos c + n - pos c)%nat with n by lia. rewrite Nat.add_succ_r.
  unfold utf8_text. change (drop (pos c) (data c)) with (rest c). by destruct (utf8_valid _).
Qed.

Lemma reads_cstring : reads read_cstring wire_cstring.
Proof.
  intros c Hc. rewrite read_cstring_eq by done. split.
  - intros s bs tl (Hu & Hn & ->) Hr. rewrite <- app_assoc in Hr. simpl in Hr.
    rewrite Hr, scan_nul_app by done.
    rewrite decide_True by (rewrite length_app; simpl; lia).
    rewrite take_app_length, Hu, string_of_list_byte_of_string. eexists. split; [done|].
    rewrite rest_goto, Hr by done. split.
    + by rewrite cons_middle, app_assoc, drop_app_length' by (rewrite length_app; simpl; lia).
    + apply in_bounds_goto; [|done]. rewrite Hr, length_app. simpl. lia.
  - destruct (scan_nul_spec (rest c)) as (Hn & Hs & Hl). set (n := scan_nul (rest c)) in *.
    case_decide as Hd; [|done]. destruct (utf8_valid _) eqn:Hu; [|done].
    destruct Hs as [?|Hs]; [lia|]. exists (take (S n) (rest c)).
    rewrite rest_goto, take_drop by done. split; [|split; [done|by apply in_bounds_goto]].
    unfold wire_cstring. rewrite list_byte_of_string_of_list_byte.
    split; [done|]. split; [done|]. by rewrite (take_S_r _ _ _ Hs).
Qed.

Lemma reads_if {A} (b : bool) (m1 m2 : Reader A) G1 G2 :
  reads m1 G1 -> reads m2 G2 ->
  reads (if b then m1 else m2) (fun a bs => if b then G1 a bs else G2 a bs).
Proof. by destruct b. Qed.

Lemma reads_utf8 message b :
  reads (of_res (utf8_text message b))
    (fun s bs => utf8_valid b = true /\ s = string_of_list_byte b /\ bs = []).
Proof.
  intros c Hc. unfold utf8_text, of_res. split.
  - intros s bs tl (-> & -> & ->) Hr. by exists c.
  - destruct (utf8_valid b); [|done]. by exists [].
Qed.

(** Compose the grammar of a reader from the grammars of its parts. *)
Ltac compose_reads :=
  repeat first
    [ eassumption
    | apply reads_u8 | apply reads_cstring | apply reads_n_bytes | apply reads_utf8
    | apply (reads_uint 2) | apply (reads_uint 4) | apply (reads_uint 8)
    | apply (reads_int 4) | apply (reads_int 8)
    | apply reads_ret | apply reads_throw
    | apply reads_if | apply reads_times
    | solve [eauto with reads]
    | apply reads_bind; [|intros ?] ].

Ltac start_reads := eapply reads_iff; [compose_reads|]; intros ? ?; split.

(** Take a composed grammar apart. *)
Ltac open_reads :=
  repeat match goal with
  | H : exists _, _ |- _ => destruct H
  | H : _ /\ _ |- _ => destruct H
  | H : wire_byte _ _ |- _ => unfold wire_byte in H
  | H : False |- _ => destruct H
  | H : context [negb (Byte.eqb ?x ?y)] |- _ =>
      destruct (Byte.eqb x y) eqn:?; simpl in H
  | H : context [if Byte.eqb ?x ?y then _ else _] |- _ =>
      destruct (Byte.eqb x y) eqn:?
  | H : Byte.eqb _ _ = true |- _ => apply byte_eqb_spec in H
  end; subst; rewrite ?app_nil_r; simpl.

(** Put one together, one piece of input at a time. *)
Lemma cons_app (b : byte) (l : bytes) : b :: l = ([b] ++ l)%list.
Proof. done. Qed.

Ltac piece :=
  do 3 eexists; split;
    [first [reflexivity | apply cons_app | symmetry; apply app_nil_r]|];
  split; [first [eassumption | reflexivity | solve [eauto]]|]; simpl.

Ltac build_reads := repeat piece; repeat split; try done; eauto.

#[local] Create HintDb reads discriminated.

Lemma reads_begin : reads decode_begin (fun b bs =>
  exists b1 b2 b3, wire_uint 8 (final_lsn b) b1 /\ wire_int 8 (begin_timestamp_us b) b2 /\
    wire_uint 4 (xid b) b3 /\ bs = (b1 ++ b2 ++ b3)%list).
Proof.
  unfold decode_begin. start_reads; intros; open_reads.
  - do 3 eexists. eauto.
  - destruct a. build_reads.
Qed.

Lemma reads_commit : reads decode_commit (fun c bs =>
  exists b1 b2 b3, wire_uint 8 (commit_lsn c) b1 /\ wire_uint 8 (end_lsn c) b2 /\
    wire_int 8 (commit_timestamp_us c) b3 /\ bs = (commit_flags c :: b1 ++ b2 ++ b3)%list).
Proof.
  unfold decode_commit. start_reads; intros; open_reads.
  - do 3 eexists. eauto.
  - destruct a. build_reads.
Qed.

Lemma reads_column : reads decode_column wire_column.
Proof.
  unfold decode_column. start_reads; intros H; [open_reads; by constructor|].
  destruct H. build_reads.
Qed.

Lemma reads_datum_bytes message : reads (read_datum_bytes message) wire_counted.
Proof.
  unfold read_datum_bytes. start_reads; intros H; open_reads.
  - match goal with H : wire_int 4 ?n _ |- _ =>
      destruct H as [Hr ->]; destruct (Z.ltb_spec n 0) end; [done|].
    destruct H1 as [-> Hl]. unfold wire_counted. rewrite Hl, Z2Nat.id by done.
    split; [|done]. by destruct Hr.
  - exists (Z.of_nat (length a)), (be_bytes 4 (Z.of_nat (length a))), a.
    destruct H as [Hl ->]. split; [done|].
    destruct (Z.ltb_spec (Z.of_nat (length a)) 0); [lia|]. rewrite Nat2Z.id.
    split; [|done]. split; [|done]. unfold signed_range. pose proof (modulus_pos 4). lia.
Qed.
#[local] Hint Resolve reads_datum_bytes : reads.

Lemma reads_datum : reads decode_datum wire_datum.
Proof.
  unfold decode_datum. start_reads; intros H.
  - open_reads; econstructor; eauto.
  - destruct H; build_reads.
Qed.
#[local] Hint Resolve reads_column reads_datum reads_begin reads_commit : reads.

(** A count and that many items. *)
Lemma wire_list_split {A} w (G : grammar A) l bs :
  wire_list w G l bs <->
  exists n b items, wire_uint w n b /\ bs = (b ++ concat items)%list /\
    Forall2 G l items /\ length l = Z.to_nat n.
Proof.
  split.
  - intros (items & Hf & Hl & ->). exists (Z.of_nat (length l)), (be_bytes w (Z.of_nat (length l))), items.
    rewrite Nat2Z.id. split_and!; try done. split; [|done]. unfold unsigned_range. lia.
  - intros (n & b & items & [Hr ->] & -> & Hf & Hl). exists items. unfold unsigned_range in Hr.
    rewrite Hl, Z2Nat.id by lia. split_and!; [done|lia|done].
Qed.

Lemma reads_tuple : reads decode_tuple_data wire_tuple.
Proof.
  unfold decode_tuple_data. start_reads; intros H.
  - open_reads. apply wire_list_split. eauto 10.
  - apply wire_list_split in H as (n & b & items & Hn & -> & Hf & Hl). build_reads.
Qed.
#[local] Hint Resolve reads_tuple : reads.

Lemma reads_relation : reads decode_relation (fun r bs => wire_message (Relation r) ("R"%byte :: bs)).
Proof.
  unfold decode_relation. start_reads; intros H.
  - open_reads. apply wire_relation; try done.
    apply wire_list_split. eauto 10.
  - inversion H as [| |? ? ? ? ? ? ? ? ? ? ? ? H4| | | | | | | |]; subst.
    apply wire_list_split in H4 as (n' & b & items & Hn & -> & Hf & Hl). build_reads.
Qed.

Lemma reads_insert : reads decode_insert (fun i bs => wire_message (Insert i) ("I"%byte :: bs)).
Proof.
  unfold decode_insert. start_reads; intros H.
  - open_reads. by constructor.
  - inversion H; subst. build_reads.
Qed.

Lemma reads_update : reads decode_update (fun u bs => wire_message (Update u) ("U"%byte :: bs)).
Proof.
  unfold decode_update. start_reads; intros H.
  - open_reads; by constructor.
  - inversion H; subst; build_reads.
Qed.

Lemma reads_delete : reads decode_delete (fun d bs => wire_message (Delete d) ("D"%byte :: bs)).
Proof.
  unfold decode_delete. start_reads; intros H.
  - open_reads; by constructor.
  - inversion H; subst; build_reads.
Qed.

Lemma reads_truncate :
  reads decode_truncate (fun t bs => wire_message (Truncate t) ("T"%byte :: bs)).
Proof.
  unfold decode_truncate. start_reads; intros H.
  - open_reads. match goal with H : wire_uint 4 ?n _ |- _ => destruct H as [Hr ->] end.
    match goal with H : length _ = _ |- _ => rename H into Hl end.
    constructor; [|done]. unfold unsigned_range in Hr. rewrite Hl, Z2Nat.id by lia. done.
  - inversion H as [| | | | | | | | |? ? ? ? H1 H2|]; subst. piece. piece.
    exists oids, (concat items), []. rewrite app_nil_r, Nat2Z.id. split; [done|].
    split; [by exists items|]. by split.
Qed.
#[local] Hint Resolve reads_relation reads_insert reads_update reads_delete reads_truncate : reads.

Lemma reads_tagged : reads decode_tagged wire_message.
Proof.
  unfold decode_tagged. start_reads; intros H.
  - open_reads; try done; try (destruct_all PgBegin; destruct_all PgCommit; by constructor).
    constructor. rewrite !not_elem_of_cons. split_and!; try by intros ->. set_solver.
  - destruct H; piece; try (
      eexists _, _, []; split; [symmetry; apply app_nil_r|]; apply and_comm;
      split; [by split|]; first [by constructor | eauto 10]).
    rewrite !not_elem_of_cons in H. destruct_and!.
    repeat match goal with |- if Byte.eqb ?a ?b then _ else _ =>
      destruct (Byte.eqb a b) eqn:Hb; [by apply byte_eqb_spec in Hb|clear Hb] end.
    done.
Qed.

(** ** The decoder decides the protocol *)

(** C11: the decoder is the pgoutput grammar. It returns a message exactly when the input
    starts with the wire form of that message, whatever follows; every other input,
    including truncated, oversized and non-UTF-8 ones, is an error, and no input makes it
    read out of bounds or panic. *)
Theorem decode_is_grammar d :
  (forall m, decode_pgoutput_message d = Ok m <->
     exists bs tl, d = (bs ++ tl)%list /\ wire_message m bs) /\
  decode_pgoutput_message d <> Panic.
Proof.
  assert (Hempty : forall m bs tl, wire_message m bs -> (bs ++ tl)%list <> []).
  { by intros m bs tl []. }
  assert (Hb : in_bounds (cursor_new d)) by (unfold in_bounds; simpl; lia).
  destruct (reads_tagged _ Hb) as [Hcomp Hsound].
  destruct d as [|b d]; [split; [|done]|].
  { intros m. split; [done|]. intros (bs & tl & He & Hm). by destruct (Hempty m bs tl Hm). }
  unfold decode_pgoutput_message.
  destruct (decode_tagged _) as [[a|e|] c] eqn:Heq; simpl; [| |done].
  - split; [|done]. intros m. split.
    + intros [= <-]. destruct Hsound as (bs & Hm & Hr & _). by exists bs, (rest c).
    + intros (bs & tl & Hd & Hm). destruct (Hcomp m bs tl Hm Hd) as (c' & [= -> _] & _). done.
  - split; [|done]. intros m. split; [done|].
    intros (bs & tl & Hd & Hm). by destruct (Hcomp m bs tl Hm Hd) as (c' & ? & _).
Qed.

End PgDecoder.
