(* ===== verification/PgParser.v ===== *)
(** * PgParser: PostgreSQL identifiers, log positions and timestamps

    Models [src/src/source/postgres/parser.rs] (without its test helper and the mapping of
    poll error texts) and [validate_identifier] of [wire/stream.rs].  Characters are the
    bytes of the UTF-8 text; a control character above 127 is the two-byte sequence
    [C2 80] to [C2 9F]. *)

From S2P Require Import Prelude Errors CheckpointApi Strs Json Offsets.

Module PgParser.

Local Open Scope string_scope.
Local Open Scope Z_scope.

(** ** Identifiers *)

Definition dquote : ascii := "034"%char.

Definition is_ascii_alphanumeric (a : ascii) : bool :=
  let c := code a in
  ((48 <=? c) && (c <=? 57)) || ((65 <=? c) && (c <=? 90)) || ((97 <=? c) && (c <=? 122)).

Fixpoint all_chars (p : ascii -> bool) (s : string) : bool :=
  match s with "" => true | String a s' => p a && all_chars p s' end.

(** [s.chars().any(char::is_control)] *)
Fixpoint has_control (s : string) : bool :=
  match s with
  | "" => false
  | String a s' =>
      (code a <? 32) || (code a =? 127)
      || ((code a =? 194) && match s' with String b _ => (128 <=? code b) && (code b <=? 159) | "" => false end)
      || has_control s'
  end.

Definition invalid_name : Error := ConfigError "postgres snapshot table name is invalid".

Definition finalize_postgres_identifier_segment (raw : string) (quoted : bool) : Res string :=
  let segment := if quoted then raw else trim raw in
  if is_empty segment then Err invalid_name
  else
    let valid :=
      if quoted then negb (has_control segment)
      else all_chars (fun a => is_ascii_alphanumeric a || Ascii.eqb a "_" || Ascii.eqb a "$") segment in
    if negb valid then Err invalid_name else Ok segment.

(** The loop of [parse_postgres_identifier_path], with its local variables as arguments. *)
Fixpoint identifier_loop (s current : string) (in_quotes segment_quoted : bool)
    (parts : list string) : Res (list string) :=
  match s with
  | "" =>
      if in_quotes then Err invalid_name
      else
        last <-? finalize_postgres_identifier_segment current segment_quoted;
        Ok (parts ++ [last])%list
  | String ch s' =>
      if in_quotes then
        if Ascii.eqb ch dquote then
          match s' with
          | String next s'' =>
              if Ascii.eqb next dquote
              then identifier_loop s'' (current +:+ String dquote "") true segment_quoted parts
              else identifier_loop s' current false segment_quoted parts
          | "" => identifier_loop s' current false segment_quoted parts
          end
        else identifier_loop s' (current +:+ String ch "") true segment_quoted parts
      else if Ascii.eqb ch dquote then
        if negb (is_empty (trim current)) then Err invalid_name
        else identifier_loop s' "" true true parts
      else if Ascii.eqb ch "." then
        segment <-? finalize_postgres_identifier_segment current segment_quoted;
        identifier_loop s' "" false false (parts ++ [segment])
      else identifier_loop s' (current +:+ String ch "") false segment_quoted parts
  end.

Definition parse_postgres_identifier_path (input : string) : Res (list string) :=
  identifier_loop input "" false false [].

Definition parse_table_reference (table : string) : Res (string * string) :=
  let trimmed := trim table in
  if is_empty trimmed then Err (ConfigError "postgres snapshot table name must not be empty")
  else
    parts <-? parse_postgres_identifier_path trimmed;
    match parts with
    | [table_name] => Ok ("public", table_name)
    | [schema; table_name] => Ok (schema, table_name)
    | _ => Err invalid_name
    end.

(** Every double quote of the identifier twice. *)
Fixpoint double_quotes (s : string) : string :=
  match s with
  | "" => ""
  | String a s' =>
      if Ascii.eqb a dquote then String dquote (String dquote (double_quotes s'))
      else String a (double_quotes s')
  end.

Definition quote_pg_identifier (identifier : string) : string :=
  String dquote (double_quotes identifier +:+ String dquote "").

Definition qualified_table_name (schema table : string) : string :=
  quote_pg_identifier schema +:+ String "." (quote_pg_identifier table).

(** Names interpolated into a replication command. *)
Definition validate_identifier (value : string) : Res unit :=
  if is_empty value then Err (ConfigError "postgres identifier must not be empty")
  else if (63 <? String.length value)%nat then
    Err (ConfigError "postgres identifier exceeds the 63-character identifier limit")
  else if negb (all_chars (fun a => is_ascii_alphanumeric a || Ascii.eqb a "_") value) then
    Err (ConfigError "postgres identifier contains characters outside [A-Za-z0-9_]")
  else Ok tt.

(** ** Log sequence numbers *)

Definition parse_pg_lsn (value : string) : Res Z :=
  match split_once "/" value with
  | None => Err (SourceError "invalid postgres lsn format, expected HEX/HEX")
  | Some (high, low) =>
      match parse_hex_u64 high with
      | None => Err (SourceError "invalid postgres lsn high bits")
      | Some h =>
          match parse_hex_u64 low with
          | None => Err (SourceError "invalid postgres lsn low bits")
          | Some l => Ok (Z.lor (Z.shiftl h 32 mod u64_modulus) l)
          end
      end
  end.

Definition format_pg_lsn (lsn : Z) : string :=
  show_hex (Z.shiftr lsn 32) +:+ String "/" (pad_left 8 (show_hex (lsn mod 2 ^ 32))).

(** ** Timestamps *)

Definition i64_max : Z := 2 ^ 63 - 1.
Definition i64_min : Z := - 2 ^ 63.
Definition i64_saturating_add (a b : Z) : Z := Z.max i64_min (Z.min i64_max (a + b)).

(** Rust's [/] rounds towards zero. *)
Definition pg_timestamp_to_millis (pg_us : Z) : Z :=
  let unix_us := i64_saturating_add pg_us 946684800000000 in
  if unix_us <? 0 then 0 else Z.quot unix_us 1000.

(** ** Resuming *)

Section Resume.
Context `{JsonCodec}.

Definition decode_stream_resume_lsn (expected configured_slot_name : string)
    (resume_from : DynOffset) : Res Z :=
  if negb (String.eqb (source_type resume_from) expected) then
    Err (CheckpointError "cannot resume postgres stream from offset source")
  else
    payload <-? encode resume_from;
    match parse_json payload ≫= postgres_from_json with
    | None => Err (CheckpointError "failed decoding postgres stream checkpoint offset")
    | Some saved =>
        if negb (String.eqb (slot_name saved) configured_slot_name) then
          Err (CheckpointError "checkpoint slot does not match configured slot")
        else Ok (lsn saved)
    end.

End Resume.

(** ** Lemmas *)

Lemma lsn_halves n : u64_range n ->
  0 <= Z.shiftr n 32 < 2 ^ 32 /\ 0 <= n mod 2 ^ 32 < 2 ^ 32 /\
  Z.lor (Z.shiftl (Z.shiftr n 32) 32 mod u64_modulus) (n mod 2 ^ 32) = n.
Proof.
  unfold u64_range, u64_modulus. intros Hn.
  rewrite Z.shiftr_div_pow2, Z.shiftl_mul_pow2 by lia.
  assert (Hh : 0 <= n / 2 ^ 32 < 2 ^ 32).
  { split; [apply Z.div_pos; lia|]. apply Z.div_lt_upper_bound; lia. }
  pose proof (Z.mod_pos_bound n (2 ^ 32) ltac:(lia)) as Hl.
  split; [done|]. split; [done|]. rewrite Z.mod_small by lia.
  rewrite <- Z.lxor_lor, <- Z.add_nocarry_lxor.
  - pose proof (Z.div_mod n (2 ^ 32)). lia.
  - apply Z.bits_inj'. intros i Hi. rewrite Z.land_spec, Z.bits_0, <- Z.shiftl_mul_pow2 by lia.
    destruct (Z.lt_ge_cases i 32); [by rewrite Z.shiftl_spec_low|].
    rewrite (Z.mod_pow2_bits_high n) by lia. apply andb_false_r.
  - apply Z.bits_inj'. intros i Hi. rewrite Z.land_spec, Z.bits_0, <- Z.shiftl_mul_pow2 by lia.
    destruct (Z.lt_ge_cases i 32); [by rewrite Z.shiftl_spec_low|].
    rewrite (Z.mod_pow2_bits_high n) by lia. apply andb_false_r.
Qed.

(** The text of a position, split and read. *)
Lemma format_lsn_parts n : u64_range n -> exists high low,
  split_once "/" (format_pg_lsn n) = Some (high, low) /\
  parse_hex_u64 high = Some (Z.shiftr n 32) /\ parse_hex_u64 low = Some (n mod 2 ^ 32).
Proof.
  intros Hn. destruct (lsn_halves n Hn) as (Hh & Hl & Heq). unfold format_pg_lsn.
  do 2 eexists. split; [apply split_once_here, show_hex_no_slash; lia|].
  split; [apply parse_show_hex_plain|apply parse_show_hex]; unfold u64_max, u64_modulus; lia.
Qed.

(** Log positions survive their text form. Every 64-bit position printed by
    [format_pg_lsn] is read back unchanged. *)
Theorem parse_format_lsn n (Hn : u64_range n) : parse_pg_lsn (format_pg_lsn n) = Ok n.
Proof.
  destruct (format_lsn_parts n Hn) as (high & low & Hs & Hh & Hl). unfold parse_pg_lsn.
  rewrite Hs, Hh, Hl. by destruct (lsn_halves n Hn) as (_ & _ & ->).
Qed.

(** *** Quoted identifiers *)

(** Inside quotes, the text of a quoted identifier is read back literally. *)
Lemma loop_quoted id current rest parts :
  (forall t, rest <> String dquote t) ->
  identifier_loop (double_quotes id +:+ String dquote rest) current true true parts =
  identifier_loop rest (current +:+ id) false true parts.
Proof.
  intros Hrest. revert current. induction id as [|a id IH]; intros current; simpl.
  - rewrite append_nil_r. destruct rest as [|r rest]; [done|].
    destruct (Ascii.eqb_spec r dquote) as [->|]; [|done]. by destruct (Hrest rest).
  - destruct (Ascii.eqb_spec a dquote) as [->|Hne]; simpl.
    + rewrite IH, append_assoc_r. done.
    + rewrite (proj2 (Ascii.eqb_neq a dquote) Hne), IH, append_assoc_r. done.
Qed.

(** The loop reads a quoted identifier as one quoted segment. *)
Lemma loop_identifier id rest parts :
  (forall t, rest <> String dquote t) ->
  identifier_loop (quote_pg_identifier id +:+ rest) "" false false parts =
  identifier_loop rest id false true parts.
Proof.
  intros Hrest. unfold quote_pg_identifier. simpl. rewrite append_assoc_r. simpl.
  by rewrite loop_quoted.
Qed.

Definition nameable (s : string) : Prop := s <> "" /\ has_control s = false.

Lemma finalize_quoted s : nameable s -> finalize_postgres_identifier_segment s true = Ok s.
Proof.
  intros [Hne Hc]. unfold finalize_postgres_identifier_segment, is_empty.
  rewrite (proj2 (String.eqb_neq s "") Hne), Hc. done.
Qed.

Lemma quote_trimmed a b : trim (quote_pg_identifier a +:+ String "." (quote_pg_identifier b))
  = quote_pg_identifier a +:+ String "." (quote_pg_identifier b).
Proof.
  unfold trim. assert (Hs : forall t, trim_start (quote_pg_identifier a +:+ t) = quote_pg_identifier a +:+ t) by done.
  rewrite Hs. unfold quote_pg_identifier at 2 4.
  assert (Hd : trim_end (String dquote "") = String dquote "") by done.
  assert (He : forall s, trim_end (s +:+ String dquote "") = s +:+ String dquote "")
    by (intros s; by apply trim_end_app).
  replace (quote_pg_identifier a +:+ String "." (String dquote (double_quotes b +:+ String dquote "")))
    with ((quote_pg_identifier a +:+ String "." (String dquote (double_quotes b))) +:+ String dquote "").
  - apply He.
  - rewrite append_assoc_r. done.
Qed.

(** Quoting is undone by parsing. A qualified name built from any two non-empty names
    without control characters - dots, quotes, spaces and upper case included - is parsed
    back to exactly these names. *)
Theorem parse_qualified_name schema table (Hs : nameable schema) (Ht : nameable table) :
  parse_table_reference (qualified_table_name schema table) = Ok (schema, table).
Proof.
  unfold parse_table_reference, qualified_table_name. rewrite quote_trimmed.
  unfold parse_postgres_identifier_path. rewrite loop_identifier by done.
  cbn [identifier_loop]. rewrite finalize_quoted by done. simpl.
  rewrite loop_quoted by done. simpl. by rewrite finalize_quoted.
Qed.

(** Whatever follows a closing quote is glued to the quoted name. *)
Lemma text_after_quote_is_kept :
  parse_table_reference (String dquote ("Orders" +:+ String dquote " .items")) = Ok ("Orders ", "items") /\
  parse_table_reference (String dquote ("a" +:+ String dquote "b")) = Ok ("public", "ab").
Proof. by vm_compute. Qed.

(** An identifier accepted for a replication command holds nothing that could end a quoted
    literal or an option list. *)
Lemma validated_identifier_plain v a :
  validate_identifier v = Ok tt -> contains_char a v = true ->
  is_ascii_alphanumeric a = true \/ a = "_"%char.
Proof.
  unfold validate_identifier. repeat case_match; try done. intros _ Hc.
  match goal with H : negb _ = false |- _ => apply negb_false_iff in H; revert Hc; revert H end.
  clear. induction v as [|b v IH]; simpl; [done|]. intros [Hb Hv]%andb_true_iff Hc.
  destruct (Ascii.eqb_spec b a) as [->|]; [|by apply IH].
  apply orb_true_iff in Hb as [?|?%Ascii.eqb_eq]; auto.
Qed.

Lemma parse_format_lsn_witness :
  u64_range 0x16B374D848 /\ parse_pg_lsn (format_pg_lsn 0x16B374D848) = Ok 0x16B374D848.
Proof. assert (H : u64_range 0x16B374D848) by (unfold u64_range; by vm_compute).
  split; [exact H|exact (parse_format_lsn 0x16B374D848 H)]. Defined.

Lemma parse_qualified_name_witness :
  has_control "Sales.EU" = false /\
  parse_table_reference (qualified_table_name "Sales.EU" (String dquote "odd name"))
    = Ok ("Sales.EU", String dquote "odd name").
Proof. split; [done|]. apply parse_qualified_name; by split. Defined.

End PgParser.
