(* ===== verification/PgAuth.v ===== *)
(** * PgAuth: password authentication of the replication connection

    Models [src/src/source/postgres/wire/auth.rs]: the choice of a SASL mechanism, the MD5
    response, and the SCRAM-SHA-256 client.  The hash functions and base64 come from
    third-party crates and are the class [Crypto]; its laws state that HMAC accepts a key
    of any length and returns 32 bytes, and that base64 can be decoded, is ASCII text
    without commas and at most four characters per byte.  The random source of the nonce is an argument.  The client is compared with a
    server written after RFC 5802. *)

From S2P Require Import Prelude Errors Strs Bytes.

Module PgAuth.

Local Open Scope string_scope.
Local Open Scope Z_scope.

Class Crypto := {
  hmac : bytes -> bytes -> option bytes;
  sha256 : bytes -> bytes;
  md5 : bytes -> bytes;
  base64_encode : bytes -> string;
  base64_decode : string -> option bytes;
}.

Class CryptoLaws `{Crypto} : Prop := {
  hmac_total k m : exists d, hmac k m = Some d /\ length d = 32%nat;
  base64_decode_encode b : base64_decode (base64_encode b) = Some b;
  base64_no_comma b : contains_char "," (base64_encode b) = false;
  base64_length b : (String.length (base64_encode b) <= 4 * length b)%nat;
  base64_ascii b : utf8_valid (list_byte_of_string (base64_encode b)) = true;
}.

Abbreviation as_bytes := list_byte_of_string.

Definition SCRAM_SHA_256 : string := "SCRAM-SHA-256".
Definition SCRAM_SHA_256_PLUS : string := "SCRAM-SHA-256-PLUS".
Definition MAX_SCRAM_ITERATIONS : Z := 1000000.

Record MechanismChoice := { mechanism : string; plus_offered : bool }.

Definition select_sasl_mechanism (offered : list string) : Res MechanismChoice :=
  let plus_offered := existsb (fun name => String.eqb name SCRAM_SHA_256_PLUS) offered in
  if existsb (fun name => String.eqb name SCRAM_SHA_256) offered then
    Ok {| mechanism := SCRAM_SHA_256; plus_offered := plus_offered |}
  else Err (SourceError "postgres offered no SASL mechanism this client implements").

(** [body.split(|byte| *byte == 0)] *)
Fixpoint split_nul (l : bytes) : list bytes :=
  match l with
  | [] => [[]]
  | b :: l' =>
      if Byte.eqb b Byte.x00 then [] :: split_nul l'
      else match split_nul l' with
           | w :: ws => (b :: w) :: ws
           | [] => [[b]]
           end
  end.

Definition parse_sasl_mechanisms (body : bytes) : list string :=
  map from_utf8_lossy (List.filter (fun name => match name with [] => false | _ => true end) (split_nul body)).

(** [left.iter().zip(right)] folded without an early exit. *)
Definition constant_time_eq (left right : bytes) : bool :=
  if negb (Nat.eqb (length left) (length right)) then false
  else Byte.eqb (fold_left (fun acc '(a, b) => byte_lor acc (byte_xor a b))
                   (zip left right) Byte.x00) Byte.x00.

Record ScramExchange := {
  client_first_bare : string;
  password : string;
  server_signature : option bytes
}.

Record ServerFirst := { nonce : string; salt : bytes; iterations : Z }.

Section Client.
Context `{Crypto}.

Definition hex_lower : bytes -> string := hex.

Definition md5_password_response (user pass : string) (salt : bytes) : string :=
  let inner_hex := hex_lower (md5 (as_bytes pass ++ as_bytes user)%list) in
  "md5" +:+ hex_lower (md5 (as_bytes inner_hex ++ salt)%list).

Definition hmac_sha256 (key message : bytes) : Res bytes :=
  match hmac key message with
  | Some d => Ok d
  | None => Err (SourceError "SCRAM HMAC key rejected")
  end.

(** [result.iter_mut().zip(previous)]: bytes of [result] beyond [previous] stay. *)
Fixpoint xor_into (result previous : bytes) : bytes :=
  match result, previous with
  | a :: r, b :: p => byte_xor a b :: xor_into r p
  | r, [] => r
  | [], _ => []
  end.

Fixpoint hi_loop (n : nat) (pass previous result : bytes) : Res bytes :=
  match n with
  | O => Ok result
  | S n' =>
      previous' <-? hmac_sha256 pass previous;
      hi_loop n' pass previous' (xor_into result previous')
  end.

Definition hi (pass salt : bytes) (iterations : Z) : Res bytes :=
  let salted := (salt ++ be_bytes 4 1)%list in
  previous <-? hmac_sha256 pass salted;
  hi_loop (Z.to_nat (iterations - 1)) pass previous previous.

Fixpoint server_first_fields (fields : list string) (nonce : option string)
    (salt : option bytes) (iterations : option Z)
    : Res (option string * option bytes * option Z) :=
  match fields with
  | [] => Ok (nonce, salt, iterations)
  | field :: fields' =>
      match strip_prefix "r=" field, strip_prefix "s=" field, strip_prefix "i=" field with
      | Some value, _, _ => server_first_fields fields' (Some value) salt iterations
      | None, Some value, _ =>
          match base64_decode value with
          | Some s => server_first_fields fields' nonce (Some s) iterations
          | None => Err (SourceError "postgres SCRAM salt is not valid base64")
          end
      | None, None, Some value =>
          match parse_u32 value with
          | Some i => server_first_fields fields' nonce salt (Some i)
          | None => Err (SourceError "postgres SCRAM iteration count is not a number")
          end
      | None, None, None => server_first_fields fields' nonce salt iterations
      end
  end.

Definition parse_server_first (message : string) : Res ServerFirst :=
  fields <-? server_first_fields (split "," message) None None None;
  let '(n, s, i) := fields in
  match i with
  | None => Err (SourceError "postgres SCRAM server-first carried no iteration count")
  | Some i =>
      if i =? 0 then Err (SourceError "postgres SCRAM iteration count is zero")
      else if MAX_SCRAM_ITERATIONS <? i then
        Err (SourceError "postgres asked for more SCRAM iterations than this client will perform")
      else
        match n, s with
        | None, _ => Err (SourceError "postgres SCRAM server-first carried no nonce")
        | Some _, None => Err (SourceError "postgres SCRAM server-first carried no salt")
        | Some n, Some s => Ok {| nonce := n; salt := s; iterations := i |}
        end
  end.

(** [random] is what the system's generator answers. *)
Definition start (random : option bytes) (pass : string) : Res (ScramExchange * string) :=
  match random with
  | None => Err (SourceError "failed to generate a SCRAM client nonce from the system CSPRNG")
  | Some nonce_bytes =>
      let bare := "n=,r=" +:+ base64_encode nonce_bytes in
      Ok ({| client_first_bare := bare; password := pass; server_signature := None |},
          "n,," +:+ bare)
  end.

Definition client_final (server_first : string) (x : ScramExchange)
    : Res (string * ScramExchange) :=
  parsed <-? parse_server_first server_first;
  match strip_prefix "n=,r=" (client_first_bare x) with
  | None => Err (SourceError "malformed SCRAM client-first state")
  | Some client_nonce =>
      if negb (starts_with client_nonce (nonce parsed)) then
        Err (SourceError "postgres SCRAM server nonce does not extend the client nonce")
      else
        salted_password <-? hi (as_bytes (password x)) (salt parsed) (iterations parsed);
        client_key <-? hmac_sha256 salted_password (as_bytes "Client Key");
        let stored_key := sha256 client_key in
        let without_proof :=
          "c=" +:+ base64_encode (as_bytes "n,,") +:+ ",r=" +:+ nonce parsed in
        let auth_message :=
          client_first_bare x +:+ "," +:+ server_first +:+ "," +:+ without_proof in
        client_signature <-? hmac_sha256 stored_key (as_bytes auth_message);
        let proof := zip_with byte_xor client_key client_signature in
        server_key <-? hmac_sha256 salted_password (as_bytes "Server Key");
        signature <-? hmac_sha256 server_key (as_bytes auth_message);
        Ok (without_proof +:+ ",p=" +:+ base64_encode proof,
            {| client_first_bare := client_first_bare x; password := password x;
               server_signature := Some signature |})
  end.

Fixpoint verify_fields (expected : bytes) (fields : list string) : Res unit :=
  match fields with
  | [] => Err (SourceError "postgres SCRAM server-final carried no signature field")
  | field :: fields' =>
      match strip_prefix "e=" field with
      | Some _ => Err (SourceError "postgres rejected the SCRAM authentication")
      | None =>
          match strip_prefix "v=" field with
          | Some encoded =>
              match base64_decode encoded with
              | None => Err (SourceError "postgres SCRAM server signature is not valid base64")
              | Some actual =>
                  if constant_time_eq actual expected then Ok tt
                  else Err (SourceError "postgres SCRAM server signature did not verify")
              end
          | None => verify_fields expected fields'
          end
      end
  end.

Definition verify_server_final (server_final : string) (x : ScramExchange) : Res unit :=
  match server_signature x with
  | None => Err (SourceError "postgres SCRAM server-final arrived before the client-final was sent")
  | Some expected => verify_fields expected (split "," server_final)
  end.

(** ** The server of RFC 5802

    The server keeps [stored_key] and [server_key], not the password. *)

Definition server_first_message (nonce : string) (salt : bytes) (i : Z) : string :=
  "r=" +:+ nonce +:+ ",s=" +:+ base64_encode salt +:+ ",i=" +:+ show i.

(** The client's final message without its proof, and the message both sides sign. *)
Definition final_without_proof (nonce : string) : string :=
  "c=" +:+ base64_encode (as_bytes "n,,") +:+ ",r=" +:+ nonce.

Definition signed_message (client_first server_first nonce : string) : string :=
  client_first +:+ "," +:+ server_first +:+ "," +:+ final_without_proof nonce.

(** [Hi(password, salt, i)]: the exclusive or of the HMAC chain [U1 .. Ui]. *)
Fixpoint chain (n : nat) (pass u : bytes) : option (list bytes) :=
  match n with
  | O => Some []
  | S n' => v ← hmac pass u; us ← chain n' pass v; Some (v :: us)
  end.

Definition pbkdf2 (pass salt : bytes) (i : Z) : option bytes :=
  us ← chain (Z.to_nat i) pass (salt ++ be_bytes 4 1);
  match us with
  | [] => None
  | u :: us => Some (fold_left (zip_with byte_xor) us u)
  end.

Record Credentials := { stored_key : bytes; server_key : bytes }.

Definition enroll (pass : string) (salt : bytes) (i : Z) : option Credentials :=
  salted ← pbkdf2 (as_bytes pass) salt i;
  client ← hmac salted (as_bytes "Client Key");
  server ← hmac salted (as_bytes "Server Key");
  Some {| stored_key := sha256 client; server_key := server |}.

(** The proof, exclusive or the signature the server computes, hashes to the stored key. *)
Definition proof_verifies (c : Credentials) (auth_message : string) (proof : bytes) : Prop :=
  exists signature, hmac (stored_key c) (as_bytes auth_message) = Some signature /\
    sha256 (zip_with byte_xor proof signature) = stored_key c.

(** What the server answers to a proof it accepts. *)
Definition server_final_message (c : Credentials) (auth_message : string) : option string :=
  signature ← hmac (server_key c) (as_bytes auth_message);
  Some ("v=" +:+ base64_encode signature).

End Client.

(** ** Comparison *)

Lemma fold_lor_zero l acc :
  fold_left (fun acc '(a, b) => byte_lor acc (byte_xor a b)) l acc = Byte.x00 <->
  acc = Byte.x00 /\ Forall (fun '(a, b) => a = b) l.
Proof.
  revert acc. induction l as [|[a b] l IH]; intros acc; simpl.
  - by split; [intros ->|intros [-> _]].
  - rewrite IH, byte_lor_zero, byte_xor_zero, Forall_cons. tauto.
Qed.

Lemma zip_diagonal (l k : bytes) : length l = length k ->
  Forall (fun '(a, b) => a = b) (zip l k) <-> l = k.
Proof.
  revert k. induction l as [|a l IH]; intros [|b k] Hl; try done; simpl.
  rewrite Forall_cons, IH by (simpl in Hl; lia). split; [by intros [-> ->]|].
  intros [= -> ->]. done.
Qed.

Lemma constant_time_eq_spec l k : constant_time_eq l k = true <-> l = k.
Proof.
  unfold constant_time_eq. destruct (Nat.eqb_spec (length l) (length k)) as [Hl|Hl]; simpl.
  - rewrite byte_eqb_spec, fold_lor_zero, zip_diagonal by done. tauto.
  - split; [done|]. by intros ->.
Qed.

(** ** The exchange *)

Section Exchange.
Context `{CryptoLaws}.

Lemma xor_into_zip r p : length r = length p -> xor_into r p = zip_with byte_xor r p.
Proof.
  revert p. induction r as [|a r IH]; intros [|b p] Hl; try done. simpl. f_equal. apply IH.
  simpl in Hl. lia.
Qed.

Lemma hmac_ok k m : exists d, hmac k m = Some d /\ hmac_sha256 k m = Ok d /\ length d = 32%nat.
Proof. destruct (hmac_total k m) as (d & Hd & Hl). exists d. unfold hmac_sha256. by rewrite Hd. Qed.

(** The loop accumulates the chain. *)
Lemma hi_loop_chain n pass u result : length result = 32%nat ->
  exists us, chain n pass u = Some us /\
    hi_loop n pass u result = Ok (fold_left (zip_with byte_xor) us result).
Proof.
  revert u result. induction n as [|n IH]; intros u result Hr; simpl; [by exists []|].
  destruct (hmac_ok pass u) as (v & Hv & -> & Hl). rewrite Hv. simpl.
  rewrite xor_into_zip by lia.
  destruct (IH v (zip_with byte_xor result v)) as (us & -> & ->).
  { rewrite length_zip_with. lia. }
  simpl. by exists (v :: us).
Qed.

(** The key derivation computes RFC 5802's [Hi]. *)
Lemma hi_is_pbkdf2 pass salt i : 1 <= i ->
  exists d, hi pass salt i = Ok d /\ pbkdf2 pass salt i = Some d.
Proof.
  intros Hi. unfold hi, pbkdf2. destruct (hmac_ok pass (salt ++ be_bytes 4 1)) as (u & Hu & -> & Hl).
  simpl. replace (Z.to_nat i) with (S (Z.to_nat (i - 1))) by lia. simpl. rewrite Hu. simpl.
  destruct (hi_loop_chain (Z.to_nat (i - 1)) pass u u Hl) as (us & -> & ->). simpl. eauto.
Qed.

Lemma parse_server_first_message n s i :
  contains_char "," n = false -> 1 <= i <= MAX_SCRAM_ITERATIONS ->
  parse_server_first (server_first_message n s i) = Ok {| nonce := n; salt := s; iterations := i |}.
Proof.
  intros Hn Hi. unfold MAX_SCRAM_ITERATIONS in Hi.
  assert (Hparse : parse_u32 (show i) = Some i) by (apply parse_show; unfold u32_max; lia).
  unfold parse_server_first, server_first_message.
  change ("r=" +:+ n +:+ ",s=" +:+ base64_encode s +:+ ",i=" +:+ show i)
    with (("r=" +:+ n) +:+ String "," (("s=" +:+ base64_encode s) +:+ String "," ("i=" +:+ show i))).
  rewrite split_here by done.
  rewrite split_here by apply (base64_no_comma s).
  rewrite split_whole by (apply (show_no_char "," i); [done|lia]). simpl.
  rewrite base64_decode_encode, Hparse. simpl.
  destruct (Z.eqb_spec i 0); [lia|]. unfold MAX_SCRAM_ITERATIONS.
  by destruct (Z.ltb_spec 1000000 i); [lia|].
Qed.

Lemma zip_xor_undo a b : length a = length b ->
  zip_with byte_xor (zip_with byte_xor a b) b = a.
Proof.
  revert b. induction a as [|x a IH]; intros [|y b] Hl; try done. simpl.
  rewrite byte_xor_involutive. f_equal. apply IH. simpl in Hl. lia.
Qed.

Lemma client_final_agrees raw pass suffix s i x first :
  contains_char "," suffix = false -> 1 <= i <= MAX_SCRAM_ITERATIONS ->
  start (Some raw) pass = Ok (x, first) ->
  let nonce := base64_encode raw +:+ suffix in
  let sf := server_first_message nonce s i in
  let auth := signed_message (client_first_bare x) sf nonce in
  exists c proof signature,
    enroll pass s i = Some c /\
    client_final sf x =
      Ok (final_without_proof nonce +:+ ",p=" +:+ base64_encode proof,
          {| client_first_bare := client_first_bare x; password := pass;
             server_signature := Some signature |}) /\
    length proof = 32%nat /\
    hmac (server_key c) (as_bytes auth) = Some signature /\ proof_verifies c auth proof.
Proof.
  intros Hs Hi [= <- <-] nc sf auth. unfold client_final. simpl client_first_bare. simpl password.
  subst sf nc. rewrite parse_server_first_message by
    (try done; rewrite contains_char_app, base64_no_comma; done). simpl res_bind.
  change (strip_prefix "n=,r=" _) with (strip_prefix "" (base64_encode raw)). simpl strip_prefix.
  cbn [nonce salt iterations]. rewrite starts_with_app. simpl negb. cbv beta iota.
  destruct (hi_is_pbkdf2 (as_bytes pass) s i) as (salted & -> & Hp); [lia|]. simpl res_bind.
  destruct (hmac_ok salted (as_bytes "Client Key")) as (ck & Hck & -> & Hlc). simpl res_bind.
  match goal with |- context [hmac_sha256 (sha256 ck) (as_bytes ?m)] => change m with auth end.
  destruct (hmac_ok (sha256 ck) (as_bytes auth)) as (sig & Hsig & -> & Hls). simpl res_bind.
  destruct (hmac_ok salted (as_bytes "Server Key")) as (sk & Hsk & -> & _). simpl res_bind.
  destruct (hmac_ok sk (as_bytes auth)) as (ss & Hss & -> & _). simpl res_bind.
  exists {| stored_key := sha256 ck; server_key := sk |}, (zip_with byte_xor ck sig), ss.
  split; [unfold enroll; by rewrite Hp; simpl; rewrite Hck; simpl; rewrite Hsk|].
  split; [reflexivity|]. split; [rewrite length_zip_with; lia|]. split; [done|].
  exists sig. split; [done|]. simpl. by rewrite zip_xor_undo by lia.
Qed.

(** Only the expected signature is accepted. *)
Lemma verify_fields_sound expected fields :
  verify_fields expected fields = Ok tt ->
  exists encoded, ("v=" +:+ encoded) ∈ fields /\ base64_decode encoded = Some expected.
Proof.
  assert (Hpre : forall p s t, strip_prefix p s = Some t -> s = p +:+ t).
  { clear. intros p. induction p as [|a p IH]; intros s t; simpl; [by destruct s; intros [= <-]|].
    destruct s as [|b s]; [done|]. destruct (Ascii.eqb_spec a b) as [->|]; [|done].
    intros Hs. by rewrite (IH s t Hs). }
  induction fields as [|f fields IH]; [done|]. cbn [verify_fields].
  destruct (strip_prefix "e=" f); [done|]. destruct (strip_prefix "v=" f) as [v|] eqn:Hv.
  - destruct (base64_decode v) as [actual|] eqn:Hd; [|done].
    destruct (constant_time_eq actual expected) eqn:Hc; [|done]. intros _.
    apply constant_time_eq_spec in Hc. subst. exists v. split; [|done].
    apply Hpre in Hv. subst. constructor.
  - intros Hf. destruct (IH Hf) as (v & Hin & Hd). exists v. split; [by constructor|done].
Qed.


End Exchange.

(** ** A concrete instance *)

Module Toy.

(** The first 32 bytes of key and message, and hexadecimal in place of base64. *)
Definition pad32 (b : bytes) : bytes := take 32 (b ++ replicate 32 Byte.x00)%list.

Fixpoint unhex (s : string) : option bytes :=
  match s with
  | "" => Some []
  | String a (String b s') =>
      h ← hex_value a; l ← hex_value b; rest ← unhex s'; Some (byte_of (16 * h + l) :: rest)
  | _ => None
  end.

#[export] Instance crypto : Crypto := {
  hmac k m := Some (zip_with byte_xor (pad32 k) (pad32 m));
  sha256 := pad32;
  md5 := take 16;
  base64_encode := hex;
  base64_decode := unhex;
}.

#[export] Instance laws : CryptoLaws.
Proof.
  assert (Hpad : forall b, length (pad32 b) = 32%nat).
  { intros b. unfold pad32. rewrite length_take, length_app, length_replicate. lia. }
  split.
  - intros k m. eexists. split; [done|]. rewrite length_zip_with, !Hpad. done.
  - intros b. induction b as [|c b IH]; [done|].
    change (base64_encode (c :: b)) with
      (String (hex_digit (byte_code c / 16)) (String (hex_digit (byte_code c mod 16)) (hex b))).
    simpl in IH |- *. rewrite IH. by destruct c.
  - intros b. induction b as [|c b IH]; [done|]. simpl in IH |- *. rewrite IH. by destruct c.
  - intros b. induction b as [|c b IH]; [done|]. simpl in IH |- *. lia.
  - intros b. induction b as [|c b IH]; [done|].
    change (list_byte_of_string (base64_encode (c :: b))) with
      (list_byte_of_string (hex [c]) ++ list_byte_of_string (base64_encode b))%list.
    rewrite utf8_valid_app; [exact IH|by destruct c].
Qed.


End Toy.

End PgAuth.
