(* ===== verification/PgWire.v ===== *)
(** * PgWire: message framing and the replication stream

    Models [src/src/source/postgres/wire/framing.rs] and [wire/stream.rs]: the buffered
    reader of backend messages, the frontend writer, connection setup with its
    authentication exchange, the [CopyBoth] receive loop and the standby status updates.

    The network is a script: what successive reads of the socket return, which writes
    fail and how much of them got through, and what the two clocks answer.  A read that
    never completes is [Nothing]; on the receive path the timeout wrapped around it fires,
    during setup the timeout of [connect] does.  Opening the TCP connection and the TLS
    handshake belong to other crates.  Texts of server errors are not rendered. *)

From Stdlib Require Import Sorted.
From S2P Require Import Prelude Errors Strs Monad Bytes PgAuth PgParser.

Module PgWire.

Local Open Scope string_scope.
Local Open Scope Z_scope.

(** ** The network *)

Inductive Arrival :=
| Chunk (b : bytes)
| ReadFails
| Nothing.

Record Socket := {
  arrivals : list Arrival;
  faults : list (option nat);
  sent : bytes;
  ticks : list Z;
  now : Z;
  wall : list Z
}.

Definition io_error : Error := SourceError "postgres replication connection I/O failed".

(** A write that fails after [n] bytes. *)
Definition write_all (b : bytes) : M Socket unit := fun s =>
  let put c fs := {| arrivals := arrivals s; faults := fs; sent := (sent s ++ c)%list;
                     ticks := ticks s; now := now s; wall := wall s |} in
  match faults s with
  | Some n :: fs => (Err io_error, put (take n b) fs)
  | None :: fs => (Ok tt, put b fs)
  | [] => (Ok tt, put b [])
  end.

(** [Instant::now()] never goes backwards. *)
Definition read_clock : M Socket Z := fun s =>
  let t := now s + Z.max 0 (default 0 (head (ticks s))) in
  (Ok t, {| arrivals := arrivals s; faults := faults s; sent := sent s;
            ticks := tail (ticks s); now := t; wall := wall s |}).

Definition POSTGRES_EPOCH_UNIX_SECONDS : Z := 946684800.

(** The wall clock may be before the epoch, or far beyond it. *)
Definition now_pg_timestamp : M Socket Z := fun s =>
  let unix := default 0 (head (wall s)) in
  let unix_micros := if unix <? 0 then 0 else to_signed 8 (to_unsigned 8 unix) in
  (Ok (unix_micros - POSTGRES_EPOCH_UNIX_SECONDS * 1000000),
   {| arrivals := arrivals s; faults := faults s; sent := sent s;
      ticks := ticks s; now := now s; wall := tail (wall s) |}).

(** ** Framing *)

Definition PROTOCOL_VERSION_3_0 : Z := 196608.
Definition MAX_MESSAGE_LEN : Z := 512 * 1024 * 1024.
Definition READ_CHUNK : nat := Z.to_nat (64 * 1024).

Record BackendMessage := { tag : byte; payload : bytes }.

Record MessageReader := { buffer : bytes }.

(** The frame at the front of the buffer, with its length. *)
Definition decode_frame (b : bytes) : Res (option (BackendMessage * nat)) :=
  if Nat.ltb (length b) 5 then Ok None
  else
    head <-? slice b 0 1;
    len <-? slice b 1 5;
    let declared := from_be_signed len in
    if (declared <? 0) || (declared <? 4) then
      Err (SourceError "postgres message declared an impossible length")
    else
      let payload_len := declared - 4 in
      if MAX_MESSAGE_LEN <? payload_len then
        Err (SourceError "postgres message declared a length beyond the sanity limit; the connection is desynchronised")
      else
        let frame_len := payload_len + 5 in
        if Z.of_nat (length b) <? frame_len then Ok None
        else
          body <-? slice b 5 (Z.to_nat frame_len);
          Ok (Some ({| tag := default Byte.x00 (head !! 0%nat); payload := body |}, Z.to_nat frame_len)).

Definition try_decode : M MessageReader (option BackendMessage) := fun r =>
  match decode_frame (buffer r) with
  | Ok (Some (m, n)) => (Ok (Some m), {| buffer := drop n (buffer r) |})
  | Ok None => (Ok None, r)
  | Err e => (Err e, r)
  | Panic => (Panic, r)
  end.

(** One read of the socket; [None] when nothing arrives before the caller gives up, and
    the script keeps what is left of a chunk larger than the read buffer. *)
Definition read_some : M Socket (option bytes) := fun s =>
  let go as' r := (r, {| arrivals := as'; faults := faults s; sent := sent s;
                         ticks := ticks s; now := now s; wall := wall s |}) in
  match arrivals s with
  | [] => go [] (Ok None)
  | Nothing :: l => go l (Ok None)
  | ReadFails :: l => go l (Err io_error)
  | Chunk b :: l =>
      match drop READ_CHUNK b with
      | [] => go l (Ok (Some b))
      | more => go (Chunk more :: l) (Ok (Some (take READ_CHUNK b)))
      end
  end.

Definition frame_of (t : byte) (p : bytes) : bytes :=
  t :: (be_bytes 4 (Z.of_nat (length p) + 4) ++ p)%list.

Definition write_message (t : byte) (p : bytes) : M Socket unit :=
  if 2 ^ 31 - 1 <? Z.of_nat (length p) + 4 then
    throw (SourceError "postgres frontend message is too large to frame")
  else write_all (frame_of t p).

Definition write_untagged (body : bytes) : M Socket unit :=
  if 2 ^ 31 - 1 <? Z.of_nat (length body) + 4 then
    throw (SourceError "postgres startup packet is too large")
  else write_all (be_bytes 4 (Z.of_nat (length body) + 4) ++ body)%list.

Abbreviation as_bytes := list_byte_of_string.

Definition startup_packet (user database application_name : string) : bytes :=
  (be_bytes 4 PROTOCOL_VERSION_3_0
   ++ flat_map (fun '(key, value) => as_bytes key ++ [Byte.x00] ++ as_bytes value ++ [Byte.x00])
        [("user", user); ("database", database); ("replication", "database");
         ("client_encoding", "UTF8"); ("application_name", application_name)]
   ++ [Byte.x00])%list.

Definition take_i64 (b : bytes) : Res (Z * bytes) :=
  if Nat.ltb (length b) 8 then
    Err (SourceError "truncated postgres replication payload: expected an 8-byte integer")
  else Ok (from_be_signed (take 8 b), drop 8 b).

Definition take_u8 (b : bytes) : Res (byte * bytes) :=
  match b with
  | [] => Err (SourceError "truncated postgres replication payload: expected a byte")
  | head :: tail => Ok (head, tail)
  end.

Definition read_i32 (b : bytes) : Res (Z * bytes) :=
  if Nat.ltb (length b) 4 then
    Err (SourceError "truncated postgres message: expected a 4-byte integer")
  else Ok (from_be_signed (take 4 b), drop 4 b).

(** ** The stream *)

Inductive WalMessage :=
| XLogData (wal_start wal_end : Z) (data : bytes)
| Keepalive (wal_end : Z).

Record ReplicationStream := {
  socket : Socket;
  reader : MessageReader;
  stream_slot : string;
  applied_lsn : Z;
  last_status_sent : Z;
  status_interval : Z
}.

Definition on_socket {A} (m : M Socket A) : M ReplicationStream A := fun s =>
  let '(r, k) := m (socket s) in
  (r, {| socket := k; reader := reader s; stream_slot := stream_slot s;
         applied_lsn := applied_lsn s; last_status_sent := last_status_sent s;
         status_interval := status_interval s |}).

Definition on_reader {A} (m : M MessageReader A) : M ReplicationStream A := fun s =>
  let '(r, b) := m (reader s) in
  (r, {| socket := socket s; reader := b; stream_slot := stream_slot s;
         applied_lsn := applied_lsn s; last_status_sent := last_status_sent s;
         status_interval := status_interval s |}).

Definition set_applied_lsn (lsn : Z) : M ReplicationStream unit := modify (fun s =>
  {| socket := socket s; reader := reader s; stream_slot := stream_slot s;
     applied_lsn := Z.max (applied_lsn s) lsn; last_status_sent := last_status_sent s;
     status_interval := status_interval s |}).

Definition set_last_status_sent (t : Z) : M ReplicationStream unit := modify (fun s =>
  {| socket := socket s; reader := reader s; stream_slot := stream_slot s;
     applied_lsn := applied_lsn s; last_status_sent := t;
     status_interval := status_interval s |}).

(** [MessageReader::fill]; [false] when the read did not complete. *)
Definition fill : M ReplicationStream bool :=
  got ← on_socket read_some;
  match got with
  | None => mret false
  | Some [] => throw (SourceError "postgres closed the replication connection")
  | Some chunk => on_reader (fun r => (Ok true, {| buffer := (buffer r ++ chunk)%list |}))
  end.

(** *** Status updates *)

Definition status_payload (lsn ts : Z) (request_reply : bool) : bytes :=
  ("r"%byte :: be_bytes 8 lsn ++ be_bytes 8 lsn ++ be_bytes 8 lsn ++ be_bytes 8 ts
   ++ [if request_reply then Byte.x01 else Byte.x00])%list.

Definition send_status_update (request_reply : bool) : M ReplicationStream unit :=
  applied ← gets applied_lsn;
  let lsn := to_signed 8 applied in
  ts ← on_socket now_pg_timestamp;
  on_socket (write_message "d"%byte (status_payload lsn ts request_reply));;
  t ← on_socket read_clock;
  set_last_status_sent t.

Definition send_status_update_if_due (request_reply : bool) : M ReplicationStream unit :=
  last ← gets last_status_sent;
  interval ← gets status_interval;
  t ← on_socket read_clock;
  if interval <=? t - last then send_status_update request_reply else mret tt.

(** *** Receiving *)

Definition decode_copy_data (p : bytes) : M ReplicationStream (option WalMessage) :=
  '(kind, body) ← of_res (take_u8 p);
  if Byte.eqb kind "w"%byte then
    '(wal_start, body) ← of_res (take_i64 body);
    '(wal_end, body) ← of_res (take_i64 body);
    '(_, body) ← of_res (take_i64 body);
    mret (Some (XLogData (to_unsigned 8 wal_start) (to_unsigned 8 wal_end) body))
  else if Byte.eqb kind "k"%byte then
    '(wal_end, body) ← of_res (take_i64 body);
    '(_, body) ← of_res (take_i64 body);
    '(reply, _) ← of_res (take_u8 body);
    (if negb (Byte.eqb reply Byte.x00) then send_status_update false else mret tt);;
    mret (Some (Keepalive (to_unsigned 8 wal_end)))
  else mret None.

(** The work left: every turn of a receive loop consumes a buffered frame or a byte of
    the script. *)
Definition arrival_work (a : Arrival) : nat :=
  match a with Chunk b => S (2 * length b) | _ => 1 end.

Definition work (s : ReplicationStream) : nat :=
  (length (buffer (reader s)) + list_sum (map arrival_work (arrivals (socket s))))%nat.

Definition is_one_of (t : byte) (l : list byte) : bool := existsb (Byte.eqb t) l.

Fixpoint recv_loop (fuel : nat) (deadline : Z) : M ReplicationStream (option WalMessage) :=
  match fuel with
  | O => of_res Panic
  | S f =>
      buffered ← on_reader try_decode;
      match buffered with
      | None =>
          send_status_update_if_due false;;
          t ← on_socket read_clock;
          if deadline <=? t then mret None
          else
            filled ← fill;
            if filled : bool then recv_loop f deadline else mret None
      | Some m =>
          if Byte.eqb (tag m) "d"%byte then
            wal ← decode_copy_data (payload m);
            match wal with
            | Some w => mret (Some w)
            | None => recv_loop f deadline
            end
          else if Byte.eqb (tag m) "N"%byte then recv_loop f deadline
          else if Byte.eqb (tag m) "E"%byte then
            throw (SourceError "postgres replication stream failed")
          else if is_one_of (tag m) ["c"; "C"; "Z"]%byte then
            throw (SourceError "postgres ended the replication stream; reconnecting resumes from the last confirmed LSN")
          else recv_loop f deadline
      end
  end.

Definition recv (timeout : Z) : M ReplicationStream (option WalMessage) := fun s =>
  (t ← on_socket read_clock; recv_loop (S (work s)) (t + timeout)) s.

(** *** Connection setup *)

Definition setup_timeout : Error :=
  SourceError "timed out establishing a replication stream".

Fixpoint read_message_loop (fuel : nat) : M ReplicationStream BackendMessage :=
  match fuel with
  | O => of_res Panic
  | S f =>
      m ← on_reader try_decode;
      match m with
      | Some m => mret m
      | None =>
          filled ← fill;
          if filled : bool then read_message_loop f else throw setup_timeout
      end
  end.

Definition read_message : M ReplicationStream BackendMessage := fun s =>
  read_message_loop (S (work s)) s.

Fixpoint read_backend_loop (fuel : nat) : M ReplicationStream BackendMessage :=
  match fuel with
  | O => of_res Panic
  | S f =>
      m ← read_message;
      if Byte.eqb (tag m) "E"%byte then
        throw (SourceError "postgres replication connection rejected")
      else if Byte.eqb (tag m) "N"%byte then read_backend_loop f
      else mret m
  end.

Definition read_backend_message : M ReplicationStream BackendMessage := fun s =>
  read_backend_loop (S (work s)) s.

Definition startup (user database : string) : M ReplicationStream unit :=
  on_socket (write_untagged (startup_packet user database "rustcdc")).

Section Setup.
Context `{PgAuth.Crypto}.

Definition utf8_body (message : string) (b : bytes) : Res string :=
  if utf8_valid b then Ok (string_of_list_byte b) else Err (SourceError message).

(** [random] answers the successive requests for a nonce; [plaintext] says whether the
    transport is. *)
Fixpoint authenticate_loop (fuel : nat) (user password : string) (plaintext : bool)
    (random : list (option bytes)) (scram : option PgAuth.ScramExchange)
    : M ReplicationStream unit :=
  match fuel with
  | O => of_res Panic
  | S f =>
      let next := authenticate_loop f user password plaintext in
      m ← read_backend_message;
      if negb (Byte.eqb (tag m) "R"%byte) then
        throw (SourceError "expected an authentication message from postgres")
      else
        '(kind, body) ← of_res (read_i32 (payload m));
        if kind =? 0 then mret tt
        else if kind =? 3 then
          if plaintext then
            throw (ConfigError "postgres requested cleartext password authentication over a plaintext connection")
          else
            on_socket (write_message "p"%byte (as_bytes password ++ [Byte.x00])%list);;
            next random scram
        else if kind =? 5 then
          if Nat.ltb (length body) 4 then
            throw (SourceError "postgres MD5 authentication request carried no 4-byte salt")
          else
            on_socket (write_message "p"%byte
              (as_bytes (PgAuth.md5_password_response user password (take 4 body)) ++ [Byte.x00])%list);;
            next random scram
        else if kind =? 10 then
          choice ← of_res (PgAuth.select_sasl_mechanism (PgAuth.parse_sasl_mechanisms body));
          '(exchange, client_first) ← of_res (PgAuth.start (default None (head random)) password);
          let len := Z.of_nat (String.length client_first) in
          if 2 ^ 31 - 1 <? len then throw (SourceError "SCRAM client-first message is too long")
          else
            on_socket (write_message "p"%byte
              (as_bytes (PgAuth.mechanism choice) ++ [Byte.x00] ++ be_bytes 4 len ++ as_bytes client_first)%list);;
            next (tail random) (Some exchange)
        else if kind =? 11 then
          match scram with
          | None => throw (SourceError "postgres sent a SASL continuation before any SASL exchange began")
          | Some exchange =>
              server_first ← of_res (utf8_body "postgres SCRAM server-first is not valid UTF-8" body);
              '(final, exchange') ← of_res (PgAuth.client_final server_first exchange);
              on_socket (write_message "p"%byte (as_bytes final));;
              next random (Some exchange')
          end
        else if kind =? 12 then
          match scram with
          | None => throw (SourceError "postgres sent a SASL final message before any SASL exchange began")
          | Some exchange =>
              server_final ← of_res (utf8_body "postgres SCRAM server-final is not valid UTF-8" body);
              of_res (PgAuth.verify_server_final server_final exchange);;
              next random scram
          end
        else throw (SourceError "postgres requested an authentication method rustcdc's replication transport does not implement")
  end.

Definition authenticate (user password : string) (plaintext : bool)
    (random : list (option bytes)) : M ReplicationStream unit := fun s =>
  authenticate_loop (S (work s)) user password plaintext random None s.

Fixpoint await_ready_loop (fuel : nat) : M ReplicationStream unit :=
  match fuel with
  | O => of_res Panic
  | S f =>
      m ← read_backend_message;
      if Byte.eqb (tag m) "Z"%byte then mret tt
      else if is_one_of (tag m) ["S"; "K"]%byte then await_ready_loop f
      else throw (SourceError "unexpected message tag while waiting for postgres to become ready on the replication connection")
  end.

Definition await_ready : M ReplicationStream unit := fun s => await_ready_loop (S (work s)) s.

Definition start_replication_query (slot publication : string) (start_lsn : Z) : string :=
  "START_REPLICATION SLOT " +:+ slot +:+ " LOGICAL "
  +:+ show_hex (Z.shiftr start_lsn 32) +:+ "/" +:+ show_hex (Z.land start_lsn 0xFFFFFFFF)
  +:+ " (proto_version '1', publication_names '" +:+ publication +:+ "')".

Fixpoint copy_both_loop (fuel : nat) : M ReplicationStream unit :=
  match fuel with
  | O => of_res Panic
  | S f =>
      m ← read_backend_message;
      if Byte.eqb (tag m) "W"%byte then mret tt
      else if is_one_of (tag m) ["T"; "D"; "C"]%byte then copy_both_loop f
      else throw (SourceError "postgres did not enter CopyBoth mode")
  end.

Definition await_copy_both : M ReplicationStream unit := fun s => copy_both_loop (S (work s)) s.

Definition start_replication (slot publication : string) (start_lsn : Z)
    : M ReplicationStream unit :=
  of_res (PgParser.validate_identifier slot);;
  of_res (PgParser.validate_identifier publication);;
  on_socket (write_message "Q"%byte
    (as_bytes (start_replication_query slot publication start_lsn) ++ [Byte.x00])%list);;
  await_copy_both.

(** [establish], on an opened socket. *)
Definition establish (user password database slot publication : string) (plaintext : bool)
    (start_lsn : Z) (random : list (option bytes)) (k : Socket)
    : Res unit * ReplicationStream :=
  let '(t, k) := read_clock k in
  let stream := {| socket := k; reader := {| buffer := [] |}; stream_slot := slot;
                   applied_lsn := start_lsn; last_status_sent := now k;
                   status_interval := 6000000 |} in
  (startup user database;;
   authenticate user password plaintext random;;
   await_ready;;
   start_replication slot publication start_lsn) stream.

End Setup.

(** ** Frames *)

Definition frame (m : BackendMessage) : bytes := frame_of (tag m) (payload m).
#[global] Arguments frame : simpl never.
Definition framed (m : BackendMessage) : Prop :=
  Z.of_nat (length (payload m)) <= MAX_MESSAGE_LEN.

Lemma length_frame m : length (frame m) = (5 + length (payload m))%nat.
Proof. unfold frame, frame_of. rewrite length_cons, length_app, length_be_bytes. lia. Qed.

Lemma slice_ok d a b : (a <= b <= length d)%nat -> slice d a b = Ok (take (b - a) (drop a d)).
Proof.
  intros [Ha Hb]. unfold slice.
  by rewrite (proj2 (Nat.leb_le a b) Ha), (proj2 (Nat.leb_le b _) Hb).
Qed.

(** A complete frame at the front of the buffer is decoded, whatever follows it. *)
Lemma decode_frame_complete m tl : framed m ->
  decode_frame (frame m ++ tl) = Ok (Some (m, length (frame m))).
Proof.
  intros Hm. unfold framed in Hm. rewrite length_frame. unfold frame, frame_of.
  set (n := Z.of_nat (length (payload m))) in *.
  assert (Hn : from_be_signed (be_bytes 4 (n + 4)) = n + 4).
  { apply from_be_signed_bytes. unfold signed_range, modulus, MAX_MESSAGE_LEN in *. simpl. lia. }
  pose proof (length_be_bytes 4 (n + 4)) as Hl.
  destruct (be_bytes 4 (n + 4)) as [|b0 [|b1 [|b2 [|b3 [|]]]]]; try done. clear Hl.
  unfold decode_frame. cbn [app length]. rewrite length_app, !slice_ok by (simpl; lia).
  cbn [res_bind]. cbn [drop take Nat.sub]. rewrite take_0, Hn.
  rewrite (proj2 (Nat.ltb_ge _ 5)) by lia.
  destruct (Z.ltb_spec (n + 4) 0); [lia|]. destruct (Z.ltb_spec (n + 4) 4); [lia|].
  cbn [orb]. destruct (Z.ltb_spec MAX_MESSAGE_LEN (n + 4 - 4)); [lia|].
  rewrite (proj2 (Z.ltb_ge _ _)) by lia.
  replace (Z.to_nat (n + 4 - 4 + 5)) with (5 + length (payload m))%nat by lia.
  rewrite slice_ok by (simpl; rewrite length_app; lia). cbn [res_bind].
  replace (5 + length (payload m) - 5)%nat with (length (payload m)) by lia.
  change (drop 5 _) with (payload m ++ tl)%list. rewrite take_app_length. by destruct m.
Qed.

(** What the decoder takes off the buffer is a frame; a declared length it rejects, or one
    it waits for, belongs to no frame. *)
Lemma decode_frame_sound b :
  match decode_frame b with
  | Ok (Some (m, n)) => framed m /\ n = length (frame m) /\ b = (frame m ++ drop n b)%list
  | Panic => False
  | _ => forall m tl, framed m -> b <> (frame m ++ tl)%list
  end.
Proof.
  destruct (decode_frame b) as [[[m n]|]|e|] eqn:Hd; revert Hd.
  - unfold decode_frame. destruct (Nat.ltb_spec (length b) 5) as [|Hlen]; [done|].
    rewrite !slice_ok by lia. cbn [res_bind Nat.sub]. set (len := take 4 (drop 1 b)).
    assert (Hl : length len = 4%nat) by (unfold len; rewrite length_take, length_drop; lia).
    destruct (_ || _) eqn:Hneg; [done|]. apply orb_false_iff in Hneg as [_ H4%Z.ltb_ge].
    destruct (Z.ltb_spec MAX_MESSAGE_LEN (from_be_signed len - 4)); [done|].
    destruct (Z.ltb_spec (Z.of_nat (length b)) (from_be_signed len - 4 + 5)); [done|].
    rewrite slice_ok by lia. cbn [res_bind]. intros [= <- <-].
    set (k := Z.to_nat (from_be_signed len - 4 + 5)).
    assert (Hk : length (take (k - 5) (drop 5 b)) = (k - 5)%nat)
      by (rewrite length_take, length_drop; lia).
    rewrite length_frame. unfold framed, frame, frame_of. cbn [tag payload]. rewrite Hk.
    split; [lia|]. split; [lia|].
    destruct b as [|t b]; [simpl in Hlen; lia|].
    replace (Z.of_nat (k - 5) + 4) with (from_be_signed len) by lia.
    pose proof (be_from_be_signed len) as Hbe. rewrite Hl in Hbe. rewrite Hbe.
    cbn [drop take lookup list_lookup default from_option app]. f_equal.
    change len with (take 4 b). replace k with (S (4 + (k - 5))) at 2 by lia.
    cbn [drop]. rewrite <- app_assoc. rewrite <- (take_drop 4 b) at 1. f_equal.
    by rewrite <- drop_drop, take_drop.
  - intros Hd m tl Hm ->. by rewrite decode_frame_complete in Hd.
  - intros Hd m tl Hm ->. by rewrite decode_frame_complete in Hd.
  - unfold decode_frame. destruct (Nat.ltb_spec (length b) 5); [done|].
    rewrite !slice_ok by lia. simpl. destruct (_ || _) eqn:Hneg; [done|].
    apply orb_false_iff in Hneg as [_ H4%Z.ltb_ge].
    destruct (MAX_MESSAGE_LEN <? _); [done|].
    destruct (Z.ltb_spec (Z.of_nat (length b)) (from_be_signed (take 4 (drop 1 b)) - 4 + 5)); [done|].
    by rewrite slice_ok by lia.
Qed.

(** Frames are uniquely decodable. *)
Lemma frame_inj m m' tl tl' : framed m -> framed m' ->
  (frame m ++ tl)%list = (frame m' ++ tl')%list -> m = m' /\ tl = tl'.
Proof.
  intros Hm Hm' Heq. pose proof (decode_frame_complete m tl Hm) as H1.
  rewrite Heq, decode_frame_complete in H1 by done. injection H1 as -> _.
  split; [done|]. by apply app_inv_head in Heq.
Qed.

Definition frames (ms : list BackendMessage) : bytes := concat (map frame ms).

Lemma frames_comparable ms ms' tl tl' : Forall framed ms -> Forall framed ms' ->
  (frames ms ++ tl)%list = (frames ms' ++ tl')%list -> ms `prefix_of` ms' \/ ms' `prefix_of` ms.
Proof.
  intros Hms. revert ms'. induction Hms as [|m ms Hm Hms IH]; intros [|m' ms'] Hms' Heq.
  1-3: by (left; apply prefix_nil) || (right; apply prefix_nil).
  inversion_clear Hms' as [|? ? Hm' Hms'']. unfold frames in Heq. simpl in Heq.
  rewrite <- !app_assoc in Heq. destruct (frame_inj _ _ _ _ Hm Hm' Heq) as [-> Heq'].
  destruct (IH ms' Hms'' Heq'); [left|right]; by apply prefix_cons.
Qed.

(** ** Receiving loses nothing *)

(** The bytes the server has sent and the client has not decoded. *)
Definition chunk_bytes (a : Arrival) : bytes := match a with Chunk b => b | _ => [] end.
Definition in_flight (s : ReplicationStream) : bytes :=
  concat (map chunk_bytes (arrivals (socket s))).
Definition pending (s : ReplicationStream) : bytes :=
  (buffer (reader s) ++ in_flight s)%list.

(** What a frame means to the caller of [recv]. *)
Definition wal_of (m : BackendMessage) : option WalMessage :=
  if Byte.eqb (tag m) "d"%byte then
    match payload m with
    | kind :: b =>
        if Byte.eqb kind "w"%byte then
          if Nat.leb 24 (length b) then
            Some (XLogData (from_be (take 8 b)) (from_be (take 8 (drop 8 b))) (drop 24 b))
          else None
        else if Byte.eqb kind "k"%byte then
          if Nat.leb 17 (length b) then Some (Keepalive (from_be (take 8 b))) else None
        else None
    | [] => None
    end
  else None.

(** The status updates written between two states: complete frames, each reporting a
    position that was the applied one when it was sent, and after a failed write a part
    of one more. *)
Definition status_frame (u : Z * Z) : bytes :=
  frame_of "d"%byte (status_payload (to_signed 8 u.1) u.2 false).

Definition told (s s' : ReplicationStream) (complete : bool) : Prop :=
  applied_lsn s <= applied_lsn s' /\
  exists log part,
    sent (socket s') = (sent (socket s) ++ concat (map status_frame log) ++ part)%list /\
    StronglySorted Z.le (map fst log) /\
    Forall (fun u => applied_lsn s <= u.1 <= applied_lsn s') log /\
    (complete = true -> part = []) /\
    (part = [] \/ exists last, part `prefix_of` status_frame last /\
                    applied_lsn s <= last.1 <= applied_lsn s').

Lemma told_same s s' b : sent (socket s') = sent (socket s) -> applied_lsn s' = applied_lsn s ->
  told s s' b.
Proof.
  intros Hs Ha. split; [lia|]. exists [], []. rewrite Hs, app_nil_r. simpl.
  split_and!; auto; constructor.
Qed.

Lemma sorted_app_bounded (l k : list Z) m : StronglySorted Z.le l -> StronglySorted Z.le k ->
  Forall (fun x => x <= m) l -> Forall (fun x => m <= x) k -> StronglySorted Z.le (l ++ k).
Proof.
  intros Hl Hk Hlm Hkm. induction Hl as [|x l Hl IH Hx]; [done|]. simpl.
  inversion_clear Hlm. constructor; [by apply IH|]. apply Forall_app. split; [done|].
  eapply Forall_impl; [exact Hkm|]. intros y Hy. simpl in Hy. lia.
Qed.

Lemma told_trans s s1 s2 b : told s s1 true -> told s1 s2 b -> told s s2 b.
Proof.
  intros (Ha & l1 & p1 & Hs1 & Hsort1 & Hb1 & Hc1 & _) (Ha' & l2 & p2 & Hs2 & Hsort2 & Hb2 & Hc2 & Hp2).
  rewrite (Hc1 eq_refl), app_nil_r in Hs1. split; [lia|]. exists (l1 ++ l2)%list, p2.
  rewrite Hs2, Hs1, map_app, map_app, concat_app, !app_assoc. split; [done|].
  split; [|split; [|split; [done|]]].
  - apply (sorted_app_bounded _ _ (applied_lsn s1)); try done; apply Forall_map.
    + eapply Forall_impl; [exact Hb1|]. simpl. lia.
    + eapply Forall_impl; [exact Hb2|]. simpl. lia.
  - apply Forall_app. split; eapply Forall_impl; eauto; simpl; lia.
  - destruct Hp2 as [|(u & Hu & Hr)]; [by left|right]. exists u. split; [done|lia].
Qed.

(** Operations that leave the incoming side alone. *)
Definition stays (s s' : ReplicationStream) : Prop :=
  reader s' = reader s /\ arrivals (socket s') = arrivals (socket s) /\
  applied_lsn s' = applied_lsn s.

Definition quiet {A} (m : M ReplicationStream A) : Prop := forall s r s',
  m s = (r, s') -> r <> Panic /\ stays s s' /\ told s s' (is_ok r).

Lemma quiet_bind {A B} (m : M ReplicationStream A) (k : A -> M ReplicationStream B) :
  quiet m -> (forall a, quiet (k a)) -> quiet (m ≫= k).
Proof.
  intros Hm Hk s r s'. rewrite bind_eq. destruct (m s) as [[a|e|] s1] eqn:Hms.
  - intros Hr. destruct (Hm _ _ _ Hms) as (_ & (H1 & H2 & H3) & Ht).
    destruct (Hk a _ _ _ Hr) as (Hp & (H4 & H5 & H6) & Ht').
    split; [done|]. split; [unfold stays; by rewrite H4, H5, H6|by eapply told_trans].
  - intros [= <- <-]. by destruct (Hm _ _ _ Hms) as (_ & ? & ?).
  - by destruct (Hm _ _ _ Hms).
Qed.

Lemma quiet_pure {A} (f : ReplicationStream -> A) (g : ReplicationStream -> ReplicationStream) :
  (forall s, stays s (g s) /\ sent (socket (g s)) = sent (socket s)) ->
  quiet (fun s => (Ok (f s), g s)).
Proof.
  intros Hg s r s' [= <- <-]. destruct (Hg s) as [Hs Hsent]. split; [done|]. split; [done|].
  by apply told_same; [|apply Hs].
Qed.

Lemma quiet_of_res {A} (r : Res A) : r <> Panic -> quiet (of_res r).
Proof. intros Hr s r' s' [= <- <-]. split; [done|]. split; [done|]. by apply told_same. Qed.

Lemma send_status_update_quiet : quiet (send_status_update false).
Proof.
  unfold send_status_update. intros s r s'. rewrite bind_eq. cbn [gets].
  rewrite bind_eq. unfold on_socket at 1, now_pg_timestamp. cbn beta iota zeta. rewrite bind_eq.
  unfold on_socket at 1, write_message.
  rewrite (proj2 (Z.ltb_ge _ _)); [|unfold status_payload; rewrite length_cons, !length_app, !length_be_bytes; simpl; lia].
  unfold write_all. cbn [faults sent arrivals ticks now wall socket]. set (ts := _ - _).
  set (bytes_out := frame_of "d"%byte (status_payload (to_signed 8 (applied_lsn s)) ts false)).
  change bytes_out with (status_frame (applied_lsn s, ts)). clear bytes_out.
  assert (Hone : forall s1, applied_lsn s1 = applied_lsn s ->
    sent (socket s1) = (sent (socket s) ++ status_frame (applied_lsn s, ts))%list -> told s s1 true).
  { intros s1 Ha Hs. split; [lia|]. exists [(applied_lsn s, ts)], []. cbn [map concat fst]. rewrite !app_nil_r.
    split_and!; auto; [repeat constructor|]. constructor; [|constructor]. simpl. lia. }
  destruct (faults (socket s)) as [|[n|] fs].
  2: { intros [= <- <-]. split; [done|]. split; [done|]. split; [simpl; lia|].
       exists [], (take n (status_frame (applied_lsn s, ts))). cbn [map concat app].
       split_and!; try done; [constructor..|]. right. exists (applied_lsn s, ts).
       split; [apply prefix_take|simpl; lia]. }
  all: rewrite bind_eq; intros [= <- <-]; split; [done|]; split; [done|]; by apply Hone.
Qed.

Lemma send_if_due_quiet : quiet (send_status_update_if_due false).
Proof.
  unfold send_status_update_if_due.
  apply quiet_bind; [by apply quiet_pure|]. intros last.
  apply quiet_bind; [by apply quiet_pure|]. intros interval.
  apply quiet_bind; [by apply (quiet_pure (fun s => _) (fun s => _))|]. intros t.
  destruct (interval <=? _); [apply send_status_update_quiet|]. by apply quiet_pure.
Qed.

Lemma fill_spec s r s' : fill s = (r, s') ->
  r <> Panic /\ pending s' = pending s /\ applied_lsn s' = applied_lsn s /\
  sent (socket s') = sent (socket s) /\
  (r = Ok true -> (work s' < work s)%nat).
Proof.
  unfold fill. rewrite bind_eq. unfold on_socket, read_some, pending, in_flight, work.
  destruct (arrivals (socket s)) as [|[b| |] l] eqn:Ha; cbn beta iota zeta.
  - intros [= <- <-]. done.
  - destruct (drop READ_CHUNK b) as [|x more] eqn:Hd.
    + destruct b as [|x b]; cbn beta iota.
      * intros [= <- <-]. done.
      * intros [= <- <-]. cbn. rewrite <- app_assoc. split_and!; try done.
        intros _. rewrite length_app. cbn. lia.
    + pose proof (take_drop READ_CHUNK b) as Htd. rewrite Hd in Htd.
      destruct (take READ_CHUNK b) as [|y ys] eqn:Hy; cbn beta iota.
      { exfalso. assert (Hz : length (take READ_CHUNK b) = 0%nat) by (by rewrite Hy).
        assert (0 < length (drop READ_CHUNK b))%nat by (rewrite Hd; simpl; lia).
        assert (0 < READ_CHUNK)%nat by (unfold READ_CHUNK; lia).
        rewrite length_take in Hz. rewrite length_drop in *. lia. }
      intros [= <- <-]. cbn. rewrite <- Htd. cbn.
      rewrite <- !app_assoc. split_and!; try done. intros _.
      rewrite ?length_app. cbn. rewrite ?length_app. cbn. rewrite ?length_app. cbn. lia.
  - intros [= <- <-]. done.
  - intros [= <- <-]. done.
Qed.

Lemma try_decode_spec s r s' : on_reader try_decode s = (r, s') ->
  r <> Panic /\ applied_lsn s' = applied_lsn s /\ socket s' = socket s /\
  match r with
  | Ok (Some m) => framed m /\ pending s = (frame m ++ pending s')%list /\ (work s' < work s)%nat
  | _ => s' = s
  end.
Proof.
  unfold on_reader, try_decode, pending, work. destruct s as [k [b] sl ap ls si]. cbn.
  pose proof (decode_frame_sound b) as Hs.
  destruct (decode_frame b) as [[[m n]|]|e|]; cbn; try done; intros [= <- <-]; cbn; try done.
  destruct Hs as (Hm & Hn & Hb). do 4 (split; [done|]). split.
  - unfold in_flight. cbn. by rewrite app_assoc, <- Hb.
  - assert (Hlen : length b = (length (frame m) + length (drop n b))%nat)
      by (rewrite Hb at 1; by rewrite length_app).
    rewrite length_frame in Hlen. lia.
Qed.

Lemma take_i64_eq b : take_i64 b =
  if decide (8 <= length b)%nat then Ok (from_be_signed (take 8 b), drop 8 b)
  else Err (SourceError "truncated postgres replication payload: expected an 8-byte integer").
Proof. unfold take_i64. destruct (Nat.ltb_spec (length b) 8); case_decide; try done; lia. Qed.

Lemma unsigned_take b : (8 <= length b)%nat ->
  to_unsigned 8 (from_be_signed (take 8 b)) = from_be (take 8 b).
Proof.
  intros Hl. assert (H8 : length (take 8 b) = 8%nat) by (rewrite length_take; lia).
  unfold from_be_signed. rewrite H8. apply to_signed_unsigned. rewrite <- H8 at 1.
  apply from_be_range.
Qed.

(** [decode_copy_data] answers what the frame means, and changes nothing that matters to
    reading. *)
Lemma decode_copy_data_spec p : quiet (decode_copy_data p) /\
  forall s o s', decode_copy_data p s = (Ok o, s') ->
    o = wal_of {| tag := "d"%byte; payload := p |}.
Proof.
  assert (Hok : forall A B (a : A) (k : A -> M ReplicationStream B), of_res (Ok a) ≫= k = k a)
    by done.
  assert (Herr : forall A B e (k : A -> M ReplicationStream B),
    of_res (Err e) ≫= k = of_res (Err e)) by done.
  assert (Hbad : forall e, quiet (of_res (Err e) : M ReplicationStream (option WalMessage)) /\
    forall s o s', (of_res (Err e) : M ReplicationStream (option WalMessage)) s = (Ok o, s') ->
      o = wal_of {| tag := "d"%byte; payload := p |})
    by (intros e; split; [by apply quiet_of_res|done]).
  unfold decode_copy_data, wal_of in *. cbn [tag payload] in *.
  destruct p as [|kind b]; cbn [take_u8]; rewrite ?Hok, ?Herr; [apply Hbad|].
  rewrite (proj2 (byte_eqb_spec "d"%byte "d"%byte)) in * by done.
  destruct (Byte.eqb kind "w"%byte) eqn:Hw; [|destruct (Byte.eqb kind "k"%byte) eqn:Hk].
  - rewrite !take_i64_eq. case_decide; rewrite ?Hok, ?Herr; [|apply Hbad].
    rewrite !take_i64_eq, length_drop. case_decide; rewrite ?Hok, ?Herr; [|apply Hbad].
    rewrite !take_i64_eq, !length_drop. case_decide; rewrite ?Hok, ?Herr; [|apply Hbad].
    rewrite (proj2 (Nat.leb_le 24 _)) by lia. split; [by apply quiet_pure|].
    intros s o s' [= <- _]. rewrite !unsigned_take, !drop_drop by (rewrite ?length_drop; lia). done.
  - rewrite !take_i64_eq. case_decide; rewrite ?Hok, ?Herr; [|apply Hbad].
    rewrite !take_i64_eq, length_drop. case_decide; rewrite ?Hok, ?Herr; [|apply Hbad].
    rewrite drop_drop. change (8 + 8)%nat with 16%nat. destruct (drop 16 b) as [|reply rest] eqn:Hd; cbn [take_u8];
      rewrite ?Hok, ?Herr; [apply Hbad|].
    assert (Hlen : (17 <= length b)%nat).
    { assert (0 < length (drop 16 b))%nat by (rewrite Hd; simpl; lia). rewrite length_drop in *. lia. }
    rewrite (proj2 (Nat.leb_le 17 _)) by lia. split.
    + apply quiet_bind; [|by intros; apply quiet_pure].
      destruct (negb _); [apply send_status_update_quiet|by apply quiet_pure].
    + intros s o s'. rewrite bind_eq, unsigned_take by done.
      destruct (negb _); [destruct (send_status_update false s) as [[]]|];
        intros Heq; unfold mret, M_ret in Heq; cbn in Heq; congruence.
  - by split; [apply quiet_pure|intros s o s' [= <- _]].
Qed.

Definition option_list {A} (o : option A) : list A := match o with Some a => [a] | None => [] end.

(** The frames a call consumed, and what the caller was given for them. *)
Definition consumed (s s' : ReplicationStream) (ms : list BackendMessage) : Prop :=
  Forall framed ms /\ pending s = (frames ms ++ pending s')%list.

Lemma consumed_trans s s1 s2 ms ms' :
  consumed s s1 ms -> consumed s1 s2 ms' -> consumed s s2 (ms ++ ms').
Proof.
  intros [Hf Hp] [Hf' Hp']. split; [by apply Forall_app|].
  unfold frames. by rewrite map_app, concat_app, <- app_assoc, Hp, Hp'.
Qed.

Lemma stays_pending s s' : stays s s' -> pending s' = pending s /\ work s' = work s.
Proof. intros (Hr & Ha & _). unfold pending, in_flight, work. by rewrite Hr, Ha. Qed.

(** What a call of [recv] did: it consumed some frames, wrote status updates, and returned
    what the frames it consumed mean. *)
Definition recv_post (s : ReplicationStream) (r : Res (option WalMessage))
    (s' : ReplicationStream) : Prop :=
  r <> Panic /\ told s s' (is_ok r) /\ applied_lsn s' = applied_lsn s /\
  exists ms, consumed s s' ms /\ (forall o, r = Ok o -> omap wal_of ms = option_list o).

(** A part of the loop that gave the caller nothing. *)
Definition progress (s s1 : ReplicationStream) (ms : list BackendMessage) (b : bool) : Prop :=
  consumed s s1 ms /\ told s s1 b /\ applied_lsn s1 = applied_lsn s.

Lemma progress_trans s s1 s2 ms ms' b :
  progress s s1 ms true -> progress s1 s2 ms' b -> progress s s2 (ms ++ ms') b.
Proof.
  intros (Hc & Ht & Ha) (Hc' & Ht' & Ha'). split; [by eapply consumed_trans|].
  split; [by eapply told_trans|congruence].
Qed.

Lemma recv_post_after s s1 r s' ms : progress s s1 ms true -> omap wal_of ms = [] ->
  recv_post s1 r s' -> recv_post s r s'.
Proof.
  intros (Hc & Ht & Ha) Hn (Hp & Ht' & Ha' & ms' & Hc' & Ho).
  split; [done|]. split; [by eapply told_trans|]. split; [congruence|].
  exists (ms ++ ms')%list. split; [by eapply consumed_trans|].
  intros o He. by rewrite omap_app, Hn, Ho with o.
Qed.

Lemma recv_post_err s s' e ms : progress s s' ms false -> recv_post s (Err e) s'.
Proof. intros (Hc & Ht & Ha). split; [done|]. split; [done|]. split; [done|]. by exists ms. Qed.

Lemma recv_post_ok s s' o ms : progress s s' ms true -> omap wal_of ms = option_list o ->
  recv_post s (Ok o) s'.
Proof.
  intros (Hc & Ht & Ha) Ho. split; [done|]. split; [done|]. split; [done|]. exists ms.
  split; [done|]. by intros o' [= <-].
Qed.

Lemma progress_weaken s s' ms : progress s s' ms true -> progress s s' ms false.
Proof.
  intros (Hc & (Hle & log & part & H1 & H2 & H3 & H4 & H5) & Ha). split; [done|]. split; [|done].
  split; [done|]. by exists log, part.
Qed.

Lemma quiet_progress {A} (m : M ReplicationStream A) s r s' :
  quiet m -> m s = (r, s') ->
  r <> Panic /\ progress s s' [] (is_ok r) /\ work s' = work s.
Proof.
  intros Hq Hm. destruct (Hq _ _ _ Hm) as (Hp & Hst & Ht).
  destruct (stays_pending _ _ Hst) as [Hpend Hw]. split; [done|]. split; [|done].
  split; [split; [constructor|by rewrite Hpend]|]. split; [done|]. apply Hst.
Qed.

Lemma fill_progress s r s' : fill s = (r, s') ->
  r <> Panic /\ progress s s' [] true /\ (r = Ok true -> (work s' < work s)%nat).
Proof.
  intros Hf. destruct (fill_spec _ _ _ Hf) as (Hp & Hpend & Ha & Hs & Hw).
  split; [done|]. split; [|done]. split; [split; [constructor|by rewrite Hpend]|].
  split; [by apply told_same|done].
Qed.

Lemma try_decode_progress s r s' : on_reader try_decode s = (r, s') ->
  r <> Panic /\
  match r with
  | Ok (Some m) => progress s s' [m] true /\ (work s' < work s)%nat
  | _ => s' = s
  end.
Proof.
  intros Hd. destruct (try_decode_spec _ _ _ Hd) as (Hp & Ha & Hk & Hm). split; [done|].
  destruct r as [[m|]| |]; try done. destruct Hm as (Hf & Hpend & Hw). split; [|done].
  split; [split; [by constructor|unfold frames; cbn; by rewrite app_nil_r]|].
  split; [apply told_same; [by rewrite Hk|done]|done].
Qed.

(** One frame off the buffer: either it is the answer, or the loop goes on. *)
Lemma recv_frame m s s' s1 r (k : M ReplicationStream (option WalMessage)) :
  progress s s1 [m] true ->
  (forall s2, (work s2 <= work s1)%nat -> k s2 = (r, s') -> recv_post s2 r s') ->
  (if Byte.eqb (tag m) "d"%byte then
     wal ← decode_copy_data (payload m);
     match wal with Some w => mret (Some w) | None => k end
   else if Byte.eqb (tag m) "N"%byte then k
   else if Byte.eqb (tag m) "E"%byte then throw (SourceError "postgres replication stream failed")
   else if is_one_of (tag m) ["c"; "C"; "Z"]%byte then
     throw (SourceError "postgres ended the replication stream; reconnecting resumes from the last confirmed LSN")
   else k) s1 = (r, s') ->
  recv_post s r s'.
Proof.
  intros Hpr Hk. destruct (Byte.eqb (tag m) "d"%byte) eqn:Htag.
  - apply byte_eqb_spec in Htag. rewrite bind_eq.
    destruct (decode_copy_data (payload m) s1) as [rc s2] eqn:Hcopy.
    destruct (decode_copy_data_spec (payload m)) as [Hq Hv].
    destruct (quiet_progress _ _ _ _ Hq Hcopy) as (Hnp & Hpr2 & Hw).
    pose proof (progress_trans _ _ _ _ _ _ Hpr Hpr2) as Hpr3. cbn [app] in Hpr3.
    destruct rc as [o|e|]; [| |done].
    + specialize (Hv _ _ _ Hcopy). rewrite <- Htag in Hv.
      assert (Hmm : {| tag := tag m; payload := payload m |} = m) by (by destruct m).
      rewrite Hmm in Hv.
      assert (Hom : omap wal_of [m] = option_list o) by (rewrite Hv; cbn; by destruct (wal_of m)).
      destruct o as [w|]; [intros [= <- <-]; by apply recv_post_ok with [m]|].
      intros Hrec. apply (recv_post_after _ s2 _ _ [m]); [done|done|]. apply Hk; [lia|done].
    + intros [= <- <-]. by apply recv_post_err with [m].
  - assert (Hom : omap wal_of [m] = []) by (cbn; unfold wal_of; by rewrite Htag).
    assert (Hgo : k s1 = (r, s') -> recv_post s r s').
    { intros Hrec. apply (recv_post_after _ s1 _ _ [m]); [done|done|]. by apply Hk. }
    assert (Hstop : forall e, throw e s1 = (r, s') -> recv_post s r s').
    { intros e [= <- <-]. apply recv_post_err with [m]. by apply progress_weaken. }
    destruct (Byte.eqb (tag m) "N"%byte); [done|]. destruct (Byte.eqb (tag m) "E"%byte); [apply Hstop|].
    destruct (is_one_of _ _); [apply Hstop|done].
Qed.

Lemma clock_quiet : quiet (on_socket read_clock).
Proof. by apply (quiet_pure (fun s => _) (fun s => _)). Qed.

Lemma recv_loop_spec fuel deadline s r s' : (work s < fuel)%nat ->
  recv_loop fuel deadline s = (r, s') -> recv_post s r s'.
Proof.
  revert s r s'. induction fuel as [|f IH]; intros s r s' Hf; [lia|]. cbn [recv_loop].
  rewrite bind_eq. destruct (on_reader try_decode s) as [rd s1] eqn:Hd.
  destruct (try_decode_progress _ _ _ Hd) as (Hnp & Hdec).
  assert (Hnil : progress s s [] true).
  { split; [by split; [constructor|]|]. split; [by apply told_same|done]. }
  destruct rd as [[m|]|e|]; [| |subst; intros [= <- <-]|done].
  - destruct Hdec as [Hpr Hw]. apply recv_frame; [done|].
    intros s2 Hw2 Hrec. apply IH; [lia|done].
  - subst s1. rewrite bind_eq. destruct (send_status_update_if_due false s) as [rs s2] eqn:Hs.
    destruct (quiet_progress _ _ _ _ send_if_due_quiet Hs) as (Hnp2 & Hpr2 & Hw2).
    destruct rs as [[]|e|]; [|intros [= <- <-]; by apply recv_post_err with []|done].
    rewrite bind_eq. destruct (on_socket read_clock s2) as [rt s3] eqn:Hclock.
    destruct (quiet_progress _ _ _ _ clock_quiet Hclock) as (Hnp3 & Hpr3 & Hw3).
    destruct rt as [t|e|]; [|by injection Hclock|done].
    pose proof (progress_trans _ _ _ _ _ _ Hpr2 Hpr3) as Hpr. cbn [app is_ok] in Hpr.
    destruct (deadline <=? t); [intros [= <- <-]; by apply recv_post_ok with []|].
    rewrite bind_eq. destruct (fill s3) as [rf s4] eqn:Hfill.
    destruct (fill_progress _ _ _ Hfill) as (Hnp4 & Hpr4 & Hw4).
    pose proof (progress_trans _ _ _ _ _ _ Hpr Hpr4) as Hpr'. cbn [app] in Hpr'.
    destruct rf as [[]|e|]; [| | |done].
    + intros Hrec. apply (recv_post_after _ s4 _ _ []); [done|done|]. apply IH; [|done].
      specialize (Hw4 eq_refl). lia.
    + intros [= <- <-]. by apply recv_post_ok with [].
    + intros [= <- <-]. apply recv_post_err with []. by apply progress_weaken.
  - apply recv_post_err with []. by apply progress_weaken.
Qed.

Lemma recv_spec timeout s r s' : recv timeout s = (r, s') -> recv_post s r s'.
Proof.
  unfold recv. rewrite bind_eq. destruct (on_socket read_clock s) as [rt s1] eqn:Hclock.
  destruct (quiet_progress _ _ _ _ clock_quiet Hclock) as (Hnp & Hpr & Hw).
  destruct rt as [t|e|]; [|by injection Hclock|done]. intros Hrec.
  apply (recv_post_after _ s1 _ _ []); [done|done|]. eapply recv_loop_spec; [|done]. lia.
Qed.

(** [recv] called with one budget after another. *)
Definition drain (budgets : list Z) : M ReplicationStream (list (option WalMessage)) :=
  collect budgets recv.

Lemma drain_spec budgets s rs s' : drain budgets s = (Ok rs, s') ->
  exists ms, consumed s s' ms /\ omap wal_of ms = omap id rs.
Proof.
  revert s rs s'. induction budgets as [|b budgets IH]; intros s rs s'; unfold drain; cbn [collect].
  - intros [= <- <-]. exists []. split; [split; [constructor|done]|done].
  - rewrite bind_eq. destruct (recv b s) as [[o|e|] s1] eqn:Hr; try done.
    destruct (recv_spec _ _ _ _ Hr) as (_ & _ & _ & ms & Hc & Ho).
    rewrite bind_eq. destruct (collect budgets recv s1) as [[os|e|] s2] eqn:Hd; try done.
    intros [= <- <-]. destruct (IH _ _ _ Hd) as (ms' & Hc' & Ho').
    exists (ms ++ ms')%list. split; [by eapply consumed_trans|].
    rewrite omap_app, Ho', (Ho o eq_refl). by destruct o.
Qed.

(** C7: neither chunk boundaries nor timeouts can lose, reorder or invent a message. Two
    replication streams that receive the same bytes, split into reads and polled with
    budgets in any way, hand the same sequence of WAL messages to their callers as far as
    both have come; each is the meaning of the frames taken off the byte stream, and every
    byte not yet decoded is still buffered or in flight. *)
Theorem delivery_independent_of_chunking s1 s2 budgets1 budgets2 rs1 rs2 s1' s2'
    (same_bytes : pending s1 = pending s2)
    (run1 : drain budgets1 s1 = (Ok rs1, s1')) (run2 : drain budgets2 s2 = (Ok rs2, s2')) :
  (omap id rs1 `prefix_of` omap id rs2 \/ omap id rs2 `prefix_of` omap id rs1) /\
  exists ms, Forall framed ms /\ pending s1 = (frames ms ++ pending s1')%list /\
    omap wal_of ms = omap id rs1.
Proof.
  destruct (drain_spec _ _ _ _ run1) as (ms1 & [Hf1 Hp1] & Ho1).
  destruct (drain_spec _ _ _ _ run2) as (ms2 & [Hf2 Hp2] & Ho2). split; [|by exists ms1].
  rewrite <- Ho1, <- Ho2. rewrite same_bytes, Hp2 in Hp1.
  destruct (frames_comparable _ _ _ _ Hf2 Hf1 Hp1) as [[k ->]|[k ->]];
    rewrite omap_app; [right|left]; by apply prefix_app_r.
Qed.

(** ** Authentication *)

Lemma read_message_buffered m rest s : framed m -> buffer (reader s) = (frame m ++ rest)%list ->
  read_message s = (Ok m, {| socket := socket s; reader := {| buffer := rest |};
    stream_slot := stream_slot s; applied_lsn := applied_lsn s;
    last_status_sent := last_status_sent s; status_interval := status_interval s |}).
Proof.
  intros Hm Hb. unfold read_message. cbn [read_message_loop]. rewrite bind_eq.
  unfold on_reader, try_decode. by rewrite Hb, decode_frame_complete, drop_app_length.
Qed.

Lemma read_backend_buffered m rest s : framed m -> tag m = "R"%byte ->
  buffer (reader s) = (frame m ++ rest)%list ->
  read_backend_message s = (Ok m, {| socket := socket s; reader := {| buffer := rest |};
    stream_slot := stream_slot s; applied_lsn := applied_lsn s;
    last_status_sent := last_status_sent s; status_interval := status_interval s |}).
Proof.
  intros Hm Ht Hb. unfold read_backend_message. cbn [read_backend_loop].
  rewrite bind_eq, (read_message_buffered m rest) by done. cbn beta iota. by rewrite Ht.
Qed.

Definition auth_request (kind : Z) (body : bytes) : BackendMessage :=
  {| tag := "R"%byte; payload := (be_bytes 4 kind ++ body)%list |}.

Lemma read_kind kind body : 0 <= kind < 2 ^ 31 ->
  read_i32 (be_bytes 4 kind ++ body)%list = Ok (kind, body).
Proof.
  intros Hk. unfold read_i32. rewrite length_app, length_be_bytes.
  destruct (Nat.ltb_spec (4 + length body) 4); [lia|].
  rewrite take_app_length', drop_app_length' by (by rewrite length_be_bytes).
  rewrite from_be_signed_bytes by (unfold signed_range, modulus; simpl; lia). done.
Qed.

(** A server that knows the nonce - it is on the wire - but not the password. *)
Section Impostor.
Context `{PgAuth.CryptoLaws}.

Definition impostor_first (raw : bytes) : string :=
  PgAuth.server_first_message (PgAuth.base64_encode raw) [] 1.

Definition impostor_script (raw : bytes) : bytes :=
  frames [auth_request 10 (as_bytes PgAuth.SCRAM_SHA_256 ++ [Byte.x00; Byte.x00])%list;
          auth_request 11 (as_bytes (impostor_first raw));
          auth_request 0 []].

Lemma write_unfaulted t p s : faults (socket s) = [] -> Z.of_nat (length p) < 2 ^ 31 - 4 ->
  exists s', on_socket (write_message t p) s = (Ok tt, s') /\ reader s' = reader s /\
    faults (socket s') = [].
Proof.
  intros Hf Hl. unfold on_socket, write_message.
  rewrite (proj2 (Z.ltb_ge _ _)) by lia. unfold write_all. rewrite Hf. by eexists.
Qed.

Lemma length_as_bytes x : length (as_bytes x) = String.length x.
Proof.
  unfold list_byte_of_string. rewrite length_map. induction x as [|a x IH]; [done|].
  cbn. by rewrite IH.
Qed.

(** Reading an authentication request leaves its kind and its body. *)
Ltac read_request rest :=
  cbn [authenticate_loop]; rewrite bind_eq, (read_backend_buffered _ rest) by done;
  cbn beta iota; cbn [tag auth_request payload];
  change (negb (Byte.eqb "R"%byte "R"%byte)) with false; cbv iota;
  rewrite read_kind by done; rewrite bind_eq; unfold of_res at 1; cbv iota beta.

Lemma impostor_ok f user pass plain random scram s :
  buffer (reader s) = frame (auth_request 0 []) ->
  (authenticate_loop (S f) user pass plain random scram s).1 = Ok tt.
Proof.
  intros Hb. rewrite <- (app_nil_r (frame _)) in Hb.
  assert (Hm : framed (auth_request 0 [])) by (unfold framed; by vm_compute).
  by read_request (@nil byte).
Qed.

Lemma impostor_continue f user pass plain random raw x first s :
  length raw = 24%nat -> PgAuth.start (Some raw) pass = Ok (x, first) ->
  faults (socket s) = [] ->
  buffer (reader s) = (frame (auth_request 11 (as_bytes (impostor_first raw)))
                        ++ frame (auth_request 0 []))%list ->
  (authenticate_loop (S (S f)) user pass plain random (Some x) s).1 = Ok tt.
Proof.
  intros Hraw Hstart Hf Hb. pose proof (PgAuth.base64_length raw) as Hl64.
  assert (Hlen : (length (as_bytes (impostor_first raw)) <= 200)%nat).
  { rewrite length_as_bytes. unfold impostor_first, PgAuth.server_first_message.
    rewrite !string_length_app. pose proof (PgAuth.base64_length []).
    change (String.length (show 1)) with 1%nat. simpl in *. lia. }
  assert (Hm : framed (auth_request 11 (as_bytes (impostor_first raw)))).
  { unfold framed. cbn [payload auth_request]. rewrite length_app, length_be_bytes.
    unfold MAX_MESSAGE_LEN. lia. }
  assert (Hu : utf8_valid (as_bytes (impostor_first raw)) = true).
  { unfold impostor_first, PgAuth.server_first_message. rewrite !list_byte_app.
    rewrite !utf8_valid_app by (try apply PgAuth.base64_ascii; done). done. }
  destruct (PgAuth.client_final_agrees raw pass "" [] 1 x first eq_refl
    ltac:(unfold PgAuth.MAX_SCRAM_ITERATIONS; lia) Hstart)
    as (c & proof & signature & _ & Hfinal & Hproof & _).
  rewrite append_nil_r in Hfinal. fold (impostor_first raw) in Hfinal.
  read_request (frame (auth_request 0 [])).
  cbv [Z.eqb Pos.eqb]. rewrite bind_eq. unfold of_res at 1, utf8_body. rewrite Hu.
  rewrite string_of_list_byte_of_string. cbv iota beta. rewrite bind_eq. unfold of_res at 1.
  rewrite Hfinal. cbv iota beta. rewrite bind_eq. set (s1 := {| socket := _ |}).
  set (final := _ +:+ ",p=" +:+ _).
  destruct (write_unfaulted "p"%byte (as_bytes final) s1) as (s2 & -> & Hr2 & Hf2); [done| |].
  - rewrite length_as_bytes. unfold final, PgAuth.final_without_proof. rewrite !string_length_app.
    pose proof (PgAuth.base64_length (as_bytes "n,,")). pose proof (PgAuth.base64_length proof).
    simpl String.length in *. simpl length in *. lia.
  - cbv iota beta. apply impostor_ok. by rewrite Hr2.
Qed.


End Impostor.

(** ** Witnesses *)

Definition quiet_socket (l : list Arrival) : Socket :=
  {| arrivals := l; faults := []; sent := []; ticks := []; now := 0; wall := [] |}.

Definition quiet_stream (l : list Arrival) : ReplicationStream :=
  {| socket := quiet_socket l; reader := {| buffer := [] |}; stream_slot := "slot";
     applied_lsn := 0; last_status_sent := 0; status_interval := 6000000 |}.

Definition sample_wire : bytes :=
  frames [{| tag := "d"%byte;
             payload := ("w"%byte :: be_bytes 8 100 ++ be_bytes 8 120 ++ be_bytes 8 0 ++ ["B"%byte])%list |};
          {| tag := "d"%byte;
             payload := ("k"%byte :: be_bytes 8 130 ++ be_bytes 8 0 ++ [Byte.x01])%list |}].

(** The same bytes in one read, and in two with a read that times out between them. *)
Lemma delivery_independent_of_chunking_witness :
  pending (quiet_stream [Chunk sample_wire]) =
    pending (quiet_stream [Chunk (take 9 sample_wire); Nothing; Chunk (drop 9 sample_wire)]) /\
  (omap id [Some (XLogData 100 120 ["B"%byte])] `prefix_of`
     omap id [None; Some (XLogData 100 120 ["B"%byte]); Some (Keepalive 130)] \/
   omap id [None; Some (XLogData 100 120 ["B"%byte]); Some (Keepalive 130)] `prefix_of`
     omap id [Some (XLogData 100 120 ["B"%byte])]).
Proof.
  assert (Hp : pending (quiet_stream [Chunk sample_wire]) =
    pending (quiet_stream [Chunk (take 9 sample_wire); Nothing; Chunk (drop 9 sample_wire)]))
    by (by vm_compute).
  split; [exact Hp|].
  refine (proj1 (delivery_independent_of_chunking _ _ [1000] [1000; 1000; 1000] _ _
    (drain [1000] (quiet_stream [Chunk sample_wire])).2
    (drain [1000; 1000; 1000] (quiet_stream [Chunk (take 9 sample_wire); Nothing; Chunk (drop 9 sample_wire)])).2
    Hp _ _)); by vm_compute.
Defined.


End PgWire.
