(* ===== verification/PgStream.v ===== *)
(** * PgStream: the PostgreSQL change stream

    Models [PostgresStreamHandle] ([src/src/source/postgres.rs],
    [postgres/stream_messages.rs]) over the provider interface of
    [postgres/decoder.rs], with both providers: the replication stream
    ([postgres/streaming.rs]) on [PgWire] and the SQL peek, whose database client is the
    class [SqlClient].

    The fields of the handle are grouped: [Decoder] is what [process_messages] works on,
    [HandleConfig] what never changes, [Timers] the clocks.  The handle's clock counts
    milliseconds and is a script of increments, so that a [sleep] advances it by at least
    its argument; [now_ms] is the wall clock read for a schema event outside a transaction.
    The sets of relations and tags already warned about only gate log output and are left
    out. *)

From S2P Require Import Prelude Errors CheckpointApi Strs Json Offsets Glob Event Monad Driver Bytes SchemaHistory PgDecoder PgParser PgWire.

Module PgStream.

Local Open Scope string_scope.
Local Open Scope Z_scope.

Abbreviation Event := Event.Event.

(** ** Providers *)

Record PgOutputXLogData := { xlog_lsn : Z; xlog_data : bytes }.

Inductive PollOutcome :=
| Data (rows : list PgOutputXLogData)
| TimedOut.

Definition is_caught_up (o : PollOutcome) : bool :=
  match o with Data [] => true | _ => false end.

Definition into_rows (o : PollOutcome) : list PgOutputXLogData :=
  match o with Data rows => rows | TimedOut => [] end.

(** The trait; times are microseconds. *)
Class PgOutputMessageProvider (P : Type) := {
  poll_xlog_data : nat -> Z -> M P PollOutcome;
  waits_for_data : bool;
  provider_confirm_lsn : Z -> M P unit;
  idle_advance : M P Z;
  measure_slot_lag : M P (option Z);
}.

(** *** Streaming replication *)

Record StreamingPgOutputProvider := {
  wire : PgWire.ReplicationStream;
  server_wal_end : Z
}.

Definition on_wire {A} (m : M PgWire.ReplicationStream A) : M StreamingPgOutputProvider A := fun p =>
  let '(r, w) := m (wire p) in (r, {| wire := w; server_wal_end := server_wal_end p |}).

Definition observe_wal_end (wal_end : Z) : M StreamingPgOutputProvider unit :=
  modify (fun p => {| wire := wire p; server_wal_end := Z.max (server_wal_end p) wal_end |}).

Definition is_nil {A} (l : list A) : bool := match l with [] => true | _ => false end.

Fixpoint streaming_poll_loop (fuel max_messages : nat) (deadline : Z)
    (messages : list PgOutputXLogData) : M StreamingPgOutputProvider PollOutcome :=
  match fuel with
  | O => of_res Panic
  | S f =>
      if Nat.leb (Nat.max max_messages 1) (length messages) then mret (Data messages)
      else
        remaining ← (if is_nil messages
                     then t ← on_wire (PgWire.on_socket PgWire.read_clock); mret (Z.max 0 (deadline - t))
                     else mret 0);
        if (remaining =? 0) && is_nil messages then mret (Data messages)
        else
          m ← on_wire (PgWire.recv remaining);
          match m with
          | None => mret (Data messages)
          | Some (PgWire.XLogData wal_start wal_end data) =>
              observe_wal_end wal_end ;;
              streaming_poll_loop f max_messages deadline
                (messages ++ [{| xlog_lsn := wal_start; xlog_data := data |}])
          | Some (PgWire.Keepalive wal_end) =>
              observe_wal_end wal_end ;;
              streaming_poll_loop f max_messages deadline messages
          end
  end.

(** Every turn that goes on has consumed a frame. *)
Definition streaming_poll (max_messages : nat) (poll_timeout : Z)
    : M StreamingPgOutputProvider PollOutcome := fun p =>
  (t ← on_wire (PgWire.on_socket PgWire.read_clock);
   streaming_poll_loop (S (length (PgWire.pending (wire p)))) max_messages (t + poll_timeout) []) p.

Definition streaming_confirm_lsn (lsn : Z) : M StreamingPgOutputProvider unit :=
  applied ← gets (fun p => PgWire.applied_lsn (wire p));
  on_wire (PgWire.set_applied_lsn lsn) ;;
  if applied <? lsn then on_wire (PgWire.send_status_update false) else mret tt.

Definition streaming_measure_slot_lag : M StreamingPgOutputProvider (option Z) :=
  gets (fun p => Some (saturating_sub (server_wal_end p) (PgWire.applied_lsn (wire p)))).

Definition streaming_idle_advance : M StreamingPgOutputProvider Z :=
  applied ← gets (fun p => PgWire.applied_lsn (wire p));
  wal_end ← gets server_wal_end;
  let lag := saturating_sub wal_end applied in
  (if applied <? wal_end then
     on_wire (PgWire.set_applied_lsn wal_end) ;;
     on_wire (PgWire.send_status_update false)
   else mret tt) ;;
  mret lag.

#[export] Instance streaming_provider : PgOutputMessageProvider StreamingPgOutputProvider := {
  poll_xlog_data := streaming_poll;
  waits_for_data := true;
  provider_confirm_lsn := streaming_confirm_lsn;
  idle_advance := streaming_idle_advance;
  measure_slot_lag := streaming_measure_slot_lag;
}.

(** *** SQL peek *)

Inductive PeekReply :=
| Rows (rows : list (string * bytes))
| QueryCanceled
| QueryFails (message : string).

(** The queries the provider sends; what the server answers is not code of this crate. *)
Class SqlClient (S : Type) := {
  set_statement_timeout : Z -> M S unit;
  peek_changes : Z -> M S PeekReply;
  slot_advance : string -> M S unit;
  current_wal_lsn : M S (option string);
  slot_lag : M S (option Z);
}.

Section Peek.
Context {S : Type} `{SqlClient S}.

Record LivePgOutputMessageProvider := { client : S; confirmed_lsn : Z }.

Definition on_client {A} (m : M S A) : M LivePgOutputMessageProvider A := fun p =>
  let '(r, c) := m (client p) in (r, {| client := c; confirmed_lsn := confirmed_lsn p |}).

Definition set_confirmed (lsn : Z) : M LivePgOutputMessageProvider unit :=
  modify (fun p => {| client := client p; confirmed_lsn := lsn |}).

Definition i32_max : Z := 2 ^ 31 - 1.

Definition peek_poll (max_messages : nat) (poll_timeout : Z)
    : M LivePgOutputMessageProvider PollOutcome :=
  let capped := Z.min (Z.of_nat (Nat.max max_messages 1)) i32_max in
  on_client (set_statement_timeout (poll_timeout / 1000)) ;;
  result ← on_client (peek_changes capped);
  (fun p => (Ok tt, (on_client (set_statement_timeout 0) p).2)) ;;
  match result with
  | QueryCanceled => mret TimedOut
  | QueryFails _ => throw (SourceError "pg_logical_slot_peek_binary_changes failed")
  | Rows rows =>
      messages ← collect rows (fun '(lsn_text, data) =>
        lsn ← of_res (PgParser.parse_pg_lsn lsn_text);
        mret {| xlog_lsn := lsn; xlog_data := data |});
      mret (Data messages)
  end.

Definition peek_confirm_lsn (lsn : Z) : M LivePgOutputMessageProvider unit :=
  confirmed ← gets confirmed_lsn;
  if lsn <? confirmed then mret tt
  else
    on_client (slot_advance (PgParser.format_pg_lsn lsn)) ;;
    set_confirmed lsn.

Definition peek_measure_slot_lag : M LivePgOutputMessageProvider (option Z) :=
  lag ← on_client slot_lag;
  mret ((fun l => Z.max l 0) <$> lag).

Definition peek_idle_advance : M LivePgOutputMessageProvider Z :=
  row ← on_client current_wal_lsn;
  match row with
  | None => mret 0
  | Some lsn_text =>
      current_lsn ← of_res (PgParser.parse_pg_lsn lsn_text);
      confirmed ← gets confirmed_lsn;
      let lag_bytes := saturating_sub current_lsn confirmed in
      (if confirmed <? current_lsn then
         on_client (slot_advance lsn_text) ;;
         set_confirmed current_lsn
       else mret tt) ;;
      mret lag_bytes
  end.

#[export] Instance peek_provider : PgOutputMessageProvider LivePgOutputMessageProvider := {
  poll_xlog_data := peek_poll;
  waits_for_data := false;
  provider_confirm_lsn := peek_confirm_lsn;
  idle_advance := peek_idle_advance;
  measure_slot_lag := peek_measure_slot_lag;
}.

End Peek.
Arguments LivePgOutputMessageProvider : clear implicits.

(** ** Decoding into events *)

Record HandleConfig := {
  source_name : string;
  slot_name : string;
  catalog_primary_keys : gmap (string * string) (list string);
  max_events_per_poll : nat;
  stream_poll_interval_ms : Z;
  slot_idle_advance_interval_ms : Z;
  table_include_list : list string;
  table_exclude_list : list string
}.

Record Decoder := {
  relation_map : gmap Z PgDecoder.PgRelation;
  current_xid : option Z;
  current_commit_ts : Z;
  partial_tx_events : list Event;
  committed_tx_ends : list (Z * Z);
  events_polled : Z;
  lsn_position : Z
}.

Definition MAX_TRACKED_TX_ENDS : nat := Z.to_nat 100000.

(** [PostgreSQL] built-in types by their object identifier. *)
Definition pg_type_names : list (Z * string) :=
  [(16, "bool"); (17, "bytea"); (18, "char"); (19, "name"); (20, "int8"); (21, "int2");
   (23, "int4"); (25, "text"); (26, "oid"); (700, "float4"); (701, "float8"); (790, "money");
   (869, "inet"); (650, "cidr"); (829, "macaddr"); (774, "macaddr8"); (1000, "_bool");
   (1001, "_bytea"); (1002, "_char"); (1005, "_int2"); (1007, "_int4"); (1009, "_text");
   (1014, "_bpchar"); (1015, "_varchar"); (1016, "_int8"); (1017, "_point"); (1021, "_float4");
   (1022, "_float8"); (1042, "bpchar"); (1043, "varchar"); (1082, "date"); (1083, "time");
   (1114, "timestamp"); (1115, "_timestamp"); (1184, "timestamptz"); (1185, "_timestamptz");
   (1186, "interval"); (1187, "_interval"); (1231, "_numeric"); (1266, "timetz"); (1560, "bit");
   (1562, "varbit"); (1700, "numeric"); (2278, "void"); (2950, "uuid"); (2951, "_uuid");
   (3802, "jsonb"); (3807, "_jsonb"); (114, "json"); (199, "_json"); (142, "xml"); (143, "_xml");
   (3614, "tsvector"); (3615, "tsquery"); (600, "point"); (601, "lseg"); (602, "path");
   (603, "box"); (604, "polygon"); (718, "circle")].

Definition pg_type_name (oid : Z) : string :=
  match List.find (fun '(o, _) => o =? oid) pg_type_names with
  | Some (_, n) => n
  | None => "pg_type_oid:" +:+ show oid
  end.

(** [sort_unstable] then [dedup] on strings. *)
Fixpoint insert_sorted (s : string) (l : list string) : list string :=
  match l with
  | [] => [s]
  | t :: l' =>
      match String.compare s t with
      | Lt => s :: l
      | Eq => l
      | Gt => t :: insert_sorted s l'
      end
  end.
Definition sort_dedup (l : list string) : list string := fold_right insert_sorted [] l.

Section Decode.
Context `{BuildProfile}.
Variable cfg : HandleConfig.

(** The loop of [tuple_to_json]: values paired with the columns of the relation. *)
Fixpoint tuple_loop (columns : list PgDecoder.PgColumn) (values : list PgDecoder.PgValue)
    (row : object) (unavailable : list string) : Res (json * list string) :=
  match values, columns with
  | [], _ => Ok (JObj row, unavailable)
  | _ :: _, [] => Err (SourceError "postgres tuple has more values than the cached schema has columns")
  | v :: values', c :: columns' =>
      let name := PgDecoder.column_name c in
      match v with
      | PgDecoder.Null => tuple_loop columns' values' (obj_insert name JNull row) unavailable
      | PgDecoder.Text t => tuple_loop columns' values' (obj_insert name (JStr t) row) unavailable
      | PgDecoder.Unchanged => tuple_loop columns' values' row (unavailable ++ [name])
      end
  end.

Definition tuple_to_json (d : Decoder) (oid : Z) (values : list PgDecoder.PgValue)
    : Res (json * list string) :=
  match relation_map d !! oid with
  | None => Err (SourceError "postgres row event references a relation oid for which no RELATION message has been seen")
  | Some r => tuple_loop (PgDecoder.columns r) values [] []
  end.

Definition relation_table_name (d : Decoder) (oid : Z) : string :=
  match relation_map d !! oid with
  | Some r => PgDecoder.name r
  | None => "unknown_" +:+ show oid
  end.

Definition relation_schema (d : Decoder) (oid : Z) : option string :=
  PgDecoder.namespace <$> relation_map d !! oid.

Definition resolve_primary_key (r : PgDecoder.PgRelation) : option (list string) :=
  if Byte.eqb (PgDecoder.replica_identity r) "f"%byte then
    key ← catalog_primary_keys cfg !! (PgDecoder.namespace r, PgDecoder.name r);
    if is_nil key then None else Some key
  else
    match map PgDecoder.column_name (List.filter PgDecoder.is_key (PgDecoder.columns r)) with
    | [] => None
    | keys => Some keys
    end.

Definition relation_primary_key (d : Decoder) (oid : Z) : option (list string) :=
  r ← relation_map d !! oid; resolve_primary_key r.

Definition tx_meta (d : Decoder) : option Event.TransactionMetadata :=
  xid ← current_xid d;
  Some {| Event.tx_id := xid; Event.total_events := None;
          Event.event_index := Z.of_nat (length (partial_tx_events d)) mod 2 ^ 32 |}.

Definition source_meta (d : Decoder) (lsn : Z) : Event.SourceMetadata :=
  {| Event.source_name := source_name cfg; Event.offset := PgParser.format_pg_lsn lsn;
     Event.timestamp := current_commit_ts d |}.

(** The fields the four builders share. *)
Definition row_event (d : Decoder) (lsn oid : Z) (op : Event.Operation)
    (before after : option json) (key_only : bool) (unavailable before_unavailable : list string)
    (primary_key : option (list string)) : Event :=
  {| Event.before := before; Event.after := after; Event.op := op;
     Event.source := source_meta d lsn; Event.ts := current_commit_ts d;
     Event.schema := relation_schema d oid; Event.table := relation_table_name d oid;
     Event.primary_key := primary_key; Event.snapshot := None; Event.transaction := tx_meta d;
     Event.envelope_version := Event.EVENT_ENVELOPE_VERSION;
     Event.before_is_key_only := key_only; Event.unavailable_columns := unavailable;
     Event.before_unavailable_columns := before_unavailable |}.

Definition build_insert_event (d : Decoder) (i : PgDecoder.PgInsert) (lsn : Z) : Res Event :=
  let oid := PgDecoder.insert_oid i in
  new <-? tuple_to_json d oid (PgDecoder.insert_new i);
  let '(after, unavailable) := new in
  Ok (row_event d lsn oid Event.Insert None (Some after) false unavailable []
        (relation_primary_key d oid)).

(** The before-image: the full old tuple, else the key alone, else nothing. *)
Definition before_image (d : Decoder) (oid : Z) (old key : option (list PgDecoder.PgValue))
    : Res (option json * bool * list string) :=
  match old, key with
  | Some tuple, _ =>
      b <-? tuple_to_json d oid tuple;
      let '(before, unavailable) := b in Ok (Some before, false, unavailable)
  | None, Some tuple =>
      b <-? tuple_to_json d oid tuple;
      let '(before, _) := b in Ok (Some before, true, [])
  | None, None => Ok (None, false, [])
  end.

Definition build_update_event (d : Decoder) (u : PgDecoder.PgUpdate) (lsn : Z) : Res Event :=
  let oid := PgDecoder.update_oid u in
  new <-? tuple_to_json d oid (PgDecoder.update_new u);
  let '(after, unavailable) := new in
  b <-? before_image d oid (PgDecoder.update_old u) (PgDecoder.update_key u);
  let '(before, key_only, before_unavailable) := b in
  Ok (row_event d lsn oid Event.Update before (Some after) key_only unavailable
        (sort_dedup before_unavailable) (relation_primary_key d oid)).

Definition build_delete_event (d : Decoder) (x : PgDecoder.PgDelete) (lsn : Z) : Res Event :=
  let oid := PgDecoder.delete_oid x in
  b <-? before_image d oid (PgDecoder.delete_old x) (PgDecoder.delete_key x);
  let '(before, key_only, before_unavailable) := b in
  Ok (row_event d lsn oid Event.Delete before None key_only [] before_unavailable
        (relation_primary_key d oid)).

Definition build_truncate_events (d : Decoder) (t : PgDecoder.PgTruncate) (lsn : Z) : list Event :=
  map (fun oid => row_event d lsn oid Event.Truncate None None false [] [] None)
    (PgDecoder.relation_oids t).

Definition relation_to_table_schema (r : PgDecoder.PgRelation) (keys : option (list string))
    : SchemaHistory.TableSchema :=
  let primary_keys := default [] keys in
  {| SchemaHistory.schema_name := PgDecoder.namespace r;
     SchemaHistory.table_name := PgDecoder.name r;
     SchemaHistory.columns := map (fun c =>
       let is_primary_key := existsb (String.eqb (PgDecoder.column_name c)) primary_keys in
       {| SchemaHistory.column_name := PgDecoder.column_name c;
          SchemaHistory.data_type := pg_type_name (PgDecoder.type_oid c);
          SchemaHistory.nullable := negb is_primary_key;
          SchemaHistory.constraints := if is_primary_key then ["primary_key"] else [] |})
       (PgDecoder.columns r);
     SchemaHistory.primary_keys := primary_keys;
     SchemaHistory.schema_version := 0 |}.

Definition build_relation_schema_change_event (now_ms : Z) (d : Decoder)
    (r : PgDecoder.PgRelation) (lsn : Z) : Event :=
  let ts_ms := if current_commit_ts d =? 0 then now_ms else current_commit_ts d in
  SchemaHistory.to_event
    {| SchemaHistory.ddl_type := "ALTER_TABLE"; SchemaHistory.ddl_schema := PgDecoder.namespace r;
       SchemaHistory.ddl_table := PgDecoder.name r;
       SchemaHistory.statement := "ALTER TABLE " +:+ PgDecoder.namespace r +:+ "." +:+ PgDecoder.name r
         +:+ " /* derived from pgoutput RELATION metadata */";
       SchemaHistory.result_schema := Some (relation_to_table_schema r (resolve_primary_key r));
       SchemaHistory.schema_diff := None; SchemaHistory.ddl_ts := ts_ms |}
    (source_name cfg) (PgParser.format_pg_lsn lsn) ts_ms.

Definition allowed (schema : option string) (table : string) : bool :=
  Glob.table_is_allowed schema table (table_include_list cfg) (table_exclude_list cfg).

Definition with_transaction (tx : option Event.TransactionMetadata) (e : Event) : Event :=
  {| Event.before := Event.before e; Event.after := Event.after e; Event.op := Event.op e;
     Event.source := Event.source e; Event.ts := Event.ts e; Event.schema := Event.schema e;
     Event.table := Event.table e; Event.primary_key := Event.primary_key e;
     Event.snapshot := Event.snapshot e; Event.transaction := tx;
     Event.envelope_version := Event.envelope_version e;
     Event.before_is_key_only := Event.before_is_key_only e;
     Event.unavailable_columns := Event.unavailable_columns e;
     Event.before_unavailable_columns := Event.before_unavailable_columns e |}.

Definition set_total (total : Z) (e : Event) : Event :=
  match Event.transaction e with
  | None => e
  | Some tx => with_transaction (Some {| Event.tx_id := Event.tx_id tx;
                                         Event.total_events := Some total;
                                         Event.event_index := Event.event_index tx |}) e
  end.

(** *** Updates of the decoder state *)

Definition set_tx (xid : option Z) (ts : Z) (partial : list Event) (d : Decoder) : Decoder :=
  {| relation_map := relation_map d; current_xid := xid; current_commit_ts := ts;
     partial_tx_events := partial; committed_tx_ends := committed_tx_ends d;
     events_polled := events_polled d; lsn_position := lsn_position d |}.

Definition push_partial (es : list Event) (d : Decoder) : Decoder :=
  set_tx (current_xid d) (current_commit_ts d) (partial_tx_events d ++ es) d.

Definition set_relation (r : PgDecoder.PgRelation) (d : Decoder) : Decoder :=
  {| relation_map := <[PgDecoder.oid r := r]> (relation_map d); current_xid := current_xid d;
     current_commit_ts := current_commit_ts d; partial_tx_events := partial_tx_events d;
     committed_tx_ends := committed_tx_ends d; events_polled := events_polled d;
     lsn_position := lsn_position d |}.

Definition set_ends (ends : list (Z * Z)) (polled lsn : Z) (d : Decoder) : Decoder :=
  {| relation_map := relation_map d; current_xid := current_xid d;
     current_commit_ts := current_commit_ts d; partial_tx_events := partial_tx_events d;
     committed_tx_ends := ends; events_polled := polled; lsn_position := lsn |}.

(** [while len > MAX { pop_front }] *)
Definition cap_ends (ends : list (Z * Z)) : list (Z * Z) :=
  drop (length ends - MAX_TRACKED_TX_ENDS) ends.

(** [self.events_polled += n], on a [u64]. *)
Definition count_events (n : Z) (d : Decoder) : Res Z :=
  match u64_add (events_polled d) n with Some z => Ok z | None => Panic end.

(** *** One message; the result is what it adds to [committed] *)

Definition process_commit (c : PgDecoder.PgCommit) : M Decoder (list Event) := fun d =>
  let end_lsn := PgDecoder.end_lsn c in
  let ends := match current_xid d with
              | Some xid => cap_ends (committed_tx_ends d ++ [(xid, end_lsn)])
              | None => committed_tx_ends d
              end in
  let total := Z.of_nat (length (partial_tx_events d)) mod 2 ^ 32 in
  let events := map (set_total total) (partial_tx_events d) in
  match count_events total d with
  | Ok polled => (Ok events, set_tx None 0 [] (set_ends ends polled end_lsn d))
  | _ => (Panic, set_ends ends (events_polled d) end_lsn (set_tx (current_xid d) (current_commit_ts d) events d))
  end.

Definition process_relation (now_ms lsn : Z) (r : PgDecoder.PgRelation) : M Decoder (list Event) := fun d =>
  let changed := match relation_map d !! PgDecoder.oid r with
                 | Some existing => negb (bool_decide (existing = r))
                 | None => false
                 end in
  let d1 := set_relation r d in
  if changed && allowed (Some (PgDecoder.namespace r)) (PgDecoder.name r) then
    let schema_event := build_relation_schema_change_event now_ms d1 r lsn in
    match current_xid d1 with
    | Some _ => (Ok [], push_partial [with_transaction (tx_meta d1) schema_event] d1)
    | None => (Ok [schema_event],
               set_ends (committed_tx_ends d1) (saturating_add (events_polled d1) 1) (lsn_position d1) d1)
    end
  else (Ok [], d1).

(** A row change of an allowed table is built and buffered. *)
Definition process_row (oid : Z) (build : Decoder -> Res Event) : M Decoder (list Event) := fun d =>
  if allowed (relation_schema d oid) (relation_table_name d oid) then
    match build d with
    | Ok e => (Ok [], push_partial [e] d)
    | Err e => (Err e, d)
    | Panic => (Panic, d)
    end
  else (Ok [], d).

(** Messages of protocol versions 2 and 3. *)
Definition streaming_tags : list byte := ["S"; "E"; "c"; "A"; "p"; "b"; "P"; "K"; "r"]%byte.

Definition process_message (now_ms lsn : Z) (m : PgDecoder.PgOutputMessage) : M Decoder (list Event) :=
  match m with
  | PgDecoder.Begin b => fun d =>
      (Ok [], set_tx (Some (PgDecoder.xid b))
                (PgParser.pg_timestamp_to_millis (PgDecoder.begin_timestamp_us b)) [] d)
  | PgDecoder.Commit c => process_commit c
  | PgDecoder.Relation r => process_relation now_ms lsn r
  | PgDecoder.Insert i => process_row (PgDecoder.insert_oid i) (fun d => build_insert_event d i lsn)
  | PgDecoder.Update u => process_row (PgDecoder.update_oid u) (fun d => build_update_event d u lsn)
  | PgDecoder.Delete x => process_row (PgDecoder.delete_oid x) (fun d => build_delete_event d x lsn)
  | PgDecoder.Truncate t => fun d =>
      (Ok [], push_partial
                (List.filter (fun e => allowed (Event.schema e) (Event.table e))
                   (build_truncate_events d t lsn)) d)
  | PgDecoder.Unknown tag =>
      if existsb (Byte.eqb tag) streaming_tags then
        throw (SourceError "postgres sent a pgoutput message which belongs to protocol version 2 or 3")
      else mret []
  end.

Definition process_item (now_ms : Z) (item : PgOutputXLogData) : M Decoder (list Event) :=
  m ← of_res (PgDecoder.decode_pgoutput_message (xlog_data item));
  process_message now_ms (xlog_lsn item) m.

Definition process_messages (now_ms : Z) (items : list PgOutputXLogData) : M Decoder (list Event) :=
  committed ← collect items (process_item now_ms);
  mret (concat committed).

End Decode.

(** ** The handle *)

Inductive StreamState := Starting | Streaming | Stopped.

Record Timers := {
  now : Z;
  ticks : list Z;
  peek_window : nat;
  last_idle_advance_at : option Z;
  last_slot_lag_at : option Z;
  last_slot_lag_bytes : Z
}.

Record PostgresStreamHandle (P : Type) := {
  config : HandleConfig;
  provider : P;
  decoder : Decoder;
  timers : Timers;
  replication_status : StreamState;
  wall_ms : list Z
}.
Arguments config {P}. Arguments provider {P}. Arguments decoder {P}. Arguments timers {P}.
Arguments replication_status {P}. Arguments wall_ms {P}.

Definition DEFAULT_POLL_BACKSTOP_MS : Z := 30000.
Definition DEFAULT_SLOT_LAG_SAMPLE_INTERVAL_MS : Z := 15000.

Section Handle.
Context `{BuildProfile} {P : Type} `{PgOutputMessageProvider P}.

Abbreviation PgHandle := (PostgresStreamHandle P).

Definition handle_new (cfg : HandleConfig) (p : P) (lsn : Z) (clock wall : list Z) : PgHandle :=
  let cfg := {| source_name := source_name cfg; slot_name := slot_name cfg;
                catalog_primary_keys := catalog_primary_keys cfg;
                max_events_per_poll := Nat.max (max_events_per_poll cfg) 1;
                stream_poll_interval_ms := Z.max (stream_poll_interval_ms cfg) 1;
                slot_idle_advance_interval_ms := slot_idle_advance_interval_ms cfg;
                table_include_list := table_include_list cfg;
                table_exclude_list := table_exclude_list cfg |} in
  {| config := cfg; provider := p;
     decoder := {| relation_map := ∅; current_xid := None; current_commit_ts := 0;
                   partial_tx_events := []; committed_tx_ends := []; events_polled := 0;
                   lsn_position := lsn |};
     timers := {| now := 0; ticks := clock; peek_window := max_events_per_poll cfg;
                  last_idle_advance_at := None; last_slot_lag_at := None;
                  last_slot_lag_bytes := 0 |};
     replication_status := Streaming; wall_ms := wall |}.

Definition with_provider (p : P) (h : PgHandle) : PgHandle :=
  {| config := config h; provider := p; decoder := decoder h; timers := timers h;
     replication_status := replication_status h; wall_ms := wall_ms h |}.
Definition with_decoder (d : Decoder) (h : PgHandle) : PgHandle :=
  {| config := config h; provider := provider h; decoder := d; timers := timers h;
     replication_status := replication_status h; wall_ms := wall_ms h |}.
Definition with_timers (t : Timers) (h : PgHandle) : PgHandle :=
  {| config := config h; provider := provider h; decoder := decoder h; timers := t;
     replication_status := replication_status h; wall_ms := wall_ms h |}.

Definition on_provider {A} (m : M P A) : M PgHandle A := fun h =>
  let '(r, p) := m (provider h) in (r, with_provider p h).

(** [process_messages], with the wall clock it reads. *)
Definition on_decoder (rows : list PgOutputXLogData) : M PgHandle (list Event) := fun h =>
  let '(r, d) := process_messages (config h) (default 0 (head (wall_ms h))) rows (decoder h) in
  (r, {| config := config h; provider := provider h; decoder := d; timers := timers h;
         replication_status := replication_status h; wall_ms := tail (wall_ms h) |}).

(** Reading the clock takes time; [advance] is time that passes at least. *)
Definition clock (advance : Z) : M PgHandle Z := fun h =>
  let t := timers h in
  let n := now t + advance + Z.max 0 (default 0 (head (ticks t))) in
  (Ok n, with_timers {| now := n; ticks := tail (ticks t); peek_window := peek_window t;
                        last_idle_advance_at := last_idle_advance_at t;
                        last_slot_lag_at := last_slot_lag_at t;
                        last_slot_lag_bytes := last_slot_lag_bytes t |} h).

Definition set_window (n : nat) : M PgHandle unit := modify (fun h =>
  let t := timers h in
  with_timers {| now := now t; ticks := ticks t; peek_window := n;
                 last_idle_advance_at := last_idle_advance_at t;
                 last_slot_lag_at := last_slot_lag_at t;
                 last_slot_lag_bytes := last_slot_lag_bytes t |} h).

Definition set_idle_at (at_ : Z) : M PgHandle unit := modify (fun h =>
  let t := timers h in
  with_timers {| now := now t; ticks := ticks t; peek_window := peek_window t;
                 last_idle_advance_at := Some at_; last_slot_lag_at := last_slot_lag_at t;
                 last_slot_lag_bytes := last_slot_lag_bytes t |} h).

Definition set_lag (lag : Z) (at_ : option Z) : M PgHandle unit := modify (fun h =>
  let t := timers h in
  with_timers {| now := now t; ticks := ticks t; peek_window := peek_window t;
                 last_idle_advance_at := last_idle_advance_at t;
                 last_slot_lag_at := at_; last_slot_lag_bytes := lag |} h).

(** [self.last_slot_lag_at.map(|at| at.elapsed() >= threshold).unwrap_or(true)] *)
Definition slot_lag_sample_due : M PgHandle bool := fun h =>
  let interval := slot_idle_advance_interval_ms (config h) in
  let threshold := if 0 <? interval then interval else DEFAULT_SLOT_LAG_SAMPLE_INTERVAL_MS in
  match last_slot_lag_at (timers h) with
  | None => (Ok true, h)
  | Some at_ => (t ← clock 0; mret (threshold <=? t - at_)) h
  end.

(** The window after a poll: halved on a timeout, recovering otherwise. *)
Definition adapt_window (requested : nat) (o : PollOutcome) : M PgHandle unit := fun h =>
  let window := peek_window (timers h) in
  let max := max_events_per_poll (config h) in
  match o with
  | TimedOut =>
      let shrunk := Nat.max (requested / 2) 1 in
      if Nat.ltb shrunk window then set_window shrunk h else (Ok tt, h)
  | Data _ =>
      if Nat.ltb window max then set_window (Nat.min (window * 2) max) h else (Ok tt, h)
  end.

(** Decoding what a poll returned; the answer of [next_events] if it produced events. *)
Definition take_rows (rows : list PgOutputXLogData) : M PgHandle (option (list Event)) :=
  if is_nil rows then mret None
  else
    t ← clock 0;
    set_idle_at t ;;
    lsn_before ← gets (fun h => lsn_position (decoder h));
    events ← on_decoder rows;
    if negb (is_nil events) then mret (Some events)
    else
      lsn_now ← gets (fun h => lsn_position (decoder h));
      (if lsn_before <? lsn_now then on_provider (provider_confirm_lsn lsn_now) else mret tt) ;;
      mret None.

Definition sample_lag : M PgHandle unit :=
  due ← slot_lag_sample_due;
  if due : bool then
    lag ← on_provider measure_slot_lag;
    match lag with
    | Some lag => t ← clock 0; set_lag lag (Some t)
    | None => mret tt
    end
  else mret tt.

Definition maybe_idle_advance : M PgHandle unit := fun h =>
  let interval := slot_idle_advance_interval_ms (config h) in
  (should ← match last_idle_advance_at (timers h) with
            | None => mret true
            | Some at_ => t ← clock 0; mret (interval <=? t - at_)
            end;
   if should : bool then
     lag ← on_provider idle_advance;
     at_ ← gets (fun h => last_slot_lag_at (timers h));
     set_lag lag at_ ;;
     t ← clock 0;
     set_idle_at t
   else mret tt) h.

(** The loop of [next_events]; every turn that goes on sleeps for at least a millisecond. *)
Fixpoint next_events_loop (fuel : nat) (started timeout_ms : Z) : M PgHandle (list Event) :=
  match fuel with
  | O => of_res Panic
  | S f =>
      t ← clock 0;
      let budget := if waits_for_data then Z.max 0 (timeout_ms - (t - started))
                    else DEFAULT_POLL_BACKSTOP_MS in
      let poll_timeout := Z.min budget DEFAULT_POLL_BACKSTOP_MS in
      requested ← gets (fun h => peek_window (timers h));
      outcome ← on_provider (poll_xlog_data requested (1000 * poll_timeout));
      adapt_window requested outcome ;;
      let rows := into_rows outcome in
      answer ← take_rows rows;
      match answer with
      | Some events => mret events
      | None =>
          sample_lag ;;
          interval ← gets (fun h => slot_idle_advance_interval_ms (config h));
          (if is_nil rows && is_caught_up outcome && (0 <? interval)
           then maybe_idle_advance else mret tt) ;;
          t ← clock 0;
          if (timeout_ms =? 0) || (timeout_ms <=? t - started) then mret []
          else
            t ← clock 0;
            pause ← gets (fun h => stream_poll_interval_ms (config h));
            clock (Z.min pause (Z.max 0 (timeout_ms - (t - started)))) ;;
            next_events_loop f started timeout_ms
      end
  end.

Definition pg_next_events (timeout_ms : Z) : M PgHandle (list Event) := fun h =>
  match replication_status h with
  | Streaming =>
      (started ← clock 0; next_events_loop (S (Z.to_nat timeout_ms)) started timeout_ms) h
  | _ => (Err (StateError "postgres stream polling requested while stream is not running"), h)
  end.

Definition pg_resume_offset_for (h : PgHandle) (e : Event) : option string :=
  tx ← Event.transaction e;
  '(_, end_lsn) ← List.find (fun '(id, _) => id =? Event.tx_id tx) (rev (committed_tx_ends (decoder h)));
  Some (PgParser.format_pg_lsn end_lsn).

Definition pg_confirm_lsn (lsn : Z) : M PgHandle unit :=
  on_provider (provider_confirm_lsn lsn) ;;
  modify (fun h =>
    let d := decoder h in
    with_decoder (set_ends (List.filter (fun '(_, end_lsn) => lsn <? end_lsn) (committed_tx_ends d))
                    (events_polled d) (lsn_position d) d) h).

Definition pg_offset (h : PgHandle) : PostgresOffset :=
  {| lsn := lsn_position (decoder h); Offsets.slot_name := slot_name (config h);
     pg_incremental_snapshot := None |}.

Definition replication_slot_lag_bytes (h : PgHandle) : option Z :=
  match last_slot_lag_at (timers h) with
  | None => None
  | Some _ => Some (last_slot_lag_bytes (timers h))
  end.

Context `{JsonCodec}.

(** Positions for direct consumers, and the interface the runtime and the snapshot driver
    use. *)
Definition pg_save_position {C} `{Checkpoint C} (h : PgHandle) : M C unit :=
  save (postgres_dyn (pg_offset h)) (events_polled (decoder h)).

#[export] Instance postgres_stream : Driver.StreamHandle PgHandle := {
  Driver.next_events := pg_next_events;
  Driver.position_offset h := Some (postgres_dyn (pg_offset h));
  Driver.incremental_snapshot_state _ := None;
  Driver.resume_offset_for := pg_resume_offset_for;
  Driver.requeue_events _ := mret tt;
  Driver.confirm_lsn := pg_confirm_lsn;
}.

End Handle.

(** ** Transactions are handed out whole *)

(** Events numbered within transaction [xid]; outside a transaction they carry no
    metadata. *)
Definition numbered (xid : option Z) (total : option Z) (es : list Event) : Prop :=
  forall i e, es !! i = Some e ->
    Event.transaction e =
      (x ← xid; Some {| Event.tx_id := x; Event.total_events := total;
                        Event.event_index := Z.of_nat i |}).

(** A sequence of complete transactions, and of events outside any. *)
Inductive whole : list Event -> Prop :=
| whole_nil : whole []
| whole_outside e es : Event.transaction e = None -> whole es -> whole (e :: es)
| whole_tx xid tx es :
    numbered (Some xid) (Some (Z.of_nat (length tx))) tx -> whole es -> whole (tx ++ es).

Lemma whole_app l k : whole l -> whole k -> whole (l ++ k).
Proof.
  induction 1 as [|e es He Hes IH|xid tx es Htx Hes IH]; intros Hk; simpl; [done| |].
  - by apply whole_outside, IH.
  - rewrite <- app_assoc. by apply whole_tx with xid, IH.
Qed.

Lemma whole_none l : Forall (fun e => Event.transaction e = None) l -> whole l.
Proof. induction 1; by constructor. Qed.

Section Whole.
Context `{BuildProfile}.
Variable cfg : HandleConfig.

Definition consistent (d : Decoder) : Prop := numbered (current_xid d) None (partial_tx_events d).

Lemma numbered_snoc xid es e :
  numbered xid None es ->
  Event.transaction e = (x ← xid; Some {| Event.tx_id := x; Event.total_events := None;
                                          Event.event_index := Z.of_nat (length es) |}) ->
  numbered xid None (es ++ [e]).
Proof.
  intros Hes He i e' Hi. destruct (decide (i < length es)%nat).
  - rewrite lookup_app_l in Hi by done. by apply Hes.
  - rewrite lookup_app_r in Hi by lia. apply list_lookup_singleton_Some in Hi as [Hi ->].
    by replace i with (length es) by lia.
Qed.

Lemma tx_meta_small d : Z.of_nat (length (partial_tx_events d)) < 2 ^ 32 ->
  tx_meta d = (x ← current_xid d; Some {| Event.tx_id := x; Event.total_events := None;
    Event.event_index := Z.of_nat (length (partial_tx_events d)) |}).
Proof. intros Hl. unfold tx_meta. destruct (current_xid d); simpl; [|done]. by rewrite Z.mod_small by lia. Qed.

Lemma push_consistent d e : consistent d ->
  Z.of_nat (length (partial_tx_events d)) < 2 ^ 32 ->
  Event.transaction e = tx_meta d -> consistent (push_partial [e] d).
Proof.
  intros Hd Hl He. unfold consistent, push_partial, set_tx. simpl.
  apply numbered_snoc; [done|]. by rewrite He, tx_meta_small.
Qed.

Lemma set_total_tx n e : Event.transaction (set_total n e) =
  (tx ← Event.transaction e; Some {| Event.tx_id := Event.tx_id tx; Event.total_events := Some n;
                                     Event.event_index := Event.event_index tx |}).
Proof. unfold set_total. by destruct (Event.transaction e) eqn:He; simpl. Qed.

Lemma totalled_whole xid es : numbered xid None es -> Z.of_nat (length es) < 2 ^ 32 ->
  whole (map (set_total (Z.of_nat (length es) mod 2 ^ 32)) es).
Proof.
  intros Hn Hl. rewrite Z.mod_small by lia. destruct xid as [x|].
  - rewrite <- (app_nil_r (map _ _)). apply whole_tx with x; [|constructor].
    intros i e Hi. rewrite list_lookup_fmap in Hi. destruct (es !! i) as [e0|] eqn:He; [|done].
    injection Hi as <-. rewrite set_total_tx, (Hn i e0 He), length_map. done.
  - apply whole_none, Forall_map. apply Forall_lookup. intros i e He.
    by rewrite set_total_tx, (Hn i e He).
Qed.

(** Every message but a TRUNCATE of several tables keeps the numbering. *)
Definition single_truncate (m : PgDecoder.PgOutputMessage) : Prop :=
  match m with
  | PgDecoder.Truncate t => (length (PgDecoder.relation_oids t) <= 1)%nat
  | _ => True
  end.

Definition step_ok (d : Decoder) (r : Res (list Event)) (d' : Decoder) : Prop :=
  (r <> Panic -> consistent d') /\
  (length (partial_tx_events d') <= S (length (partial_tx_events d)))%nat /\
  forall es, r = Ok es -> whole es.

Lemma step_same d r : consistent d -> r = Ok [] \/ (exists e, r = Err e) \/ r = Panic -> step_ok d r d.
Proof.
  intros Hd Hr. split; [done|]. split; [lia|]. intros es ->.
  destruct Hr as [[= ->]|[[e Hr]|Hr]]; [constructor|done..].
Qed.

Lemma step_push d e : consistent d -> Z.of_nat (length (partial_tx_events d)) < 2 ^ 32 ->
  Event.transaction e = tx_meta d -> step_ok d (Ok []) (push_partial [e] d).
Proof.
  intros Hd Hl He. split; [by intros _; apply push_consistent|]. split.
  - unfold push_partial. simpl. rewrite length_app. simpl. lia.
  - intros es [= <-]. constructor.
Qed.

Lemma build_tx d lsn r e (i : PgDecoder.PgInsert + PgDecoder.PgUpdate + PgDecoder.PgDelete) :
  match i with
  | inl (inl i) => build_insert_event cfg d i lsn
  | inl (inr u) => build_update_event cfg d u lsn
  | inr x => build_delete_event cfg d x lsn
  end = r -> r = Ok e -> Event.transaction e = tx_meta d.
Proof.
  intros Hb ->. destruct i as [[i|u]|x];
    unfold build_insert_event, build_update_event, build_delete_event in Hb.
  - destruct (tuple_to_json _ _ _) as [[]| |]; try done. by injection Hb as <-.
  - destruct (tuple_to_json _ _ _) as [[]| |]; try done. simpl in Hb.
    destruct (before_image _ _ _ _) as [[[]]| |]; try done. by injection Hb as <-.
  - destruct (before_image _ _ _ _) as [[[]]| |]; try done. by injection Hb as <-.
Qed.

Lemma process_row_ok oid build d r d' : consistent d ->
  Z.of_nat (length (partial_tx_events d)) < 2 ^ 32 ->
  (forall e, build d = Ok e -> Event.transaction e = tx_meta d) ->
  process_row cfg oid build d = (r, d') -> step_ok d r d'.
Proof.
  intros Hd Hl Hb. unfold process_row. destruct (allowed cfg _ _); [|intros [= <- <-]; apply step_same; auto].
  destruct (build d) as [e|e|] eqn:He; intros [= <- <-].
  - by apply step_push; [..|apply Hb].
  - apply step_same; eauto.
  - apply step_same; eauto.
Qed.

Lemma process_commit_ok c d r d' : consistent d ->
  Z.of_nat (length (partial_tx_events d)) < 2 ^ 32 ->
  process_commit c d = (r, d') -> step_ok d r d'.
Proof.
  intros Hd Hl. unfold process_commit.
  destruct (count_events _ _) as [polled| |]; intros [= <- <-].
  - split; [by intros _ ? ?|]. split; [simpl; lia|]. intros es [= <-]. by eapply totalled_whole.
  - split; [done|]. split; [simpl; rewrite length_map; lia|done].
  - split; [done|]. split; [simpl; rewrite length_map; lia|done].
Qed.

Lemma process_relation_ok now_ms lsn rel d r d' : consistent d ->
  Z.of_nat (length (partial_tx_events d)) < 2 ^ 32 ->
  process_relation cfg now_ms lsn rel d = (r, d') -> step_ok d r d'.
Proof.
  intros Hd Hl. unfold process_relation. set (d1 := set_relation rel d).
  assert (H1 : consistent d1) by done.
  destruct (_ && _); [|intros [= <- <-]; apply (step_same d1); auto].
  destruct (current_xid d1); intros [= <- <-].
  - by apply (step_push d1).
  - split; [done|]. split; [simpl; lia|]. intros es [= <-]. by apply whole_outside; [|constructor].
Qed.

Lemma process_message_ok now_ms lsn m d r d' : single_truncate m -> consistent d ->
  Z.of_nat (length (partial_tx_events d)) < 2 ^ 32 ->
  process_message cfg now_ms lsn m d = (r, d') -> step_ok d r d'.
Proof.
  intros Hs Hd Hl. destruct m as [b|c|rel|i|u|x|t|tag]; simpl.
  - intros [= <- <-]. split; [by intros _ ? ?|]. split; [simpl; lia|]. intros es [= <-]. constructor.
  - by apply process_commit_ok.
  - by apply process_relation_ok.
  - apply process_row_ok; [done..|]. intros e He. by eapply (build_tx _ _ _ _ (inl (inl i))).
  - apply process_row_ok; [done..|]. intros e He. by eapply (build_tx _ _ _ _ (inl (inr u))).
  - apply process_row_ok; [done..|]. intros e He. by eapply (build_tx _ _ _ _ (inr x)).
  - unfold build_truncate_events. simpl in Hs.
    destruct (PgDecoder.relation_oids t) as [|o [|]]; [| |simpl in Hs; lia]; simpl.
    + intros [= <- <-]. unfold push_partial. rewrite app_nil_r. destruct d. apply step_same; auto.
    + destruct (allowed cfg _ _); intros [= <- <-]; [by apply step_push|].
      unfold push_partial. rewrite app_nil_r. destruct d. apply step_same; auto.
  - case_match; intros [= <- <-]; apply step_same; eauto.
Qed.

(** Items whose truncations name one table each. *)
Definition plain_item (item : PgOutputXLogData) : Prop :=
  forall m, PgDecoder.decode_pgoutput_message (xlog_data item) = Ok m -> single_truncate m.

Lemma process_item_ok now_ms item d r d' : plain_item item -> consistent d ->
  Z.of_nat (length (partial_tx_events d)) < 2 ^ 32 ->
  process_item cfg now_ms item d = (r, d') -> step_ok d r d'.
Proof.
  intros Hp Hd Hl. unfold process_item. rewrite bind_eq. unfold of_res.
  destruct (PgDecoder.decode_pgoutput_message _) as [m|e|] eqn:Hm.
  - apply process_message_ok; [by apply Hp|done..].
  - intros [= <- <-]. apply step_same; eauto.
  - intros [= <- <-]. apply step_same; eauto.
Qed.

Lemma process_messages_ok now_ms items d es d' : Forall plain_item items -> consistent d ->
  Z.of_nat (length (partial_tx_events d) + length items) < 2 ^ 32 ->
  process_messages cfg now_ms items d = (Ok es, d') ->
  consistent d' /\ whole es /\
  (length (partial_tx_events d') <= length (partial_tx_events d) + length items)%nat.
Proof.
  unfold process_messages. rewrite bind_eq.
  destruct (collect items (process_item cfg now_ms) d) as [[ess|e|] d1] eqn:Hc; try done.
  intros Hp Hd Hl [= <- <-]. revert d ess d1 Hc Hp Hd Hl.
  induction items as [|item items IH]; intros d ess d1 Hc Hp Hd Hl; cbn [collect] in Hc.
  - injection Hc as <- <-. split; [done|]. split; [constructor|simpl; lia].
  - rewrite bind_eq in Hc. inversion_clear Hp as [|? ? Hitem Hitems].
    destruct (process_item cfg now_ms item d) as [[e0|e|] d2] eqn:Hi; try done.
    destruct (process_item_ok _ _ _ _ _ Hitem Hd ltac:(simpl in Hl; lia) Hi) as (Hd2 & Hl2 & Hw).
    rewrite bind_eq in Hc.
    destruct (collect items (process_item cfg now_ms) d2) as [[es'|e|] d3] eqn:Hc'; try done.
    injection Hc as <- <-. specialize (Hd2 ltac:(done)). simpl in Hl.
    destruct (IH d2 es' d3 Hc' Hitems Hd2 ltac:(lia)) as (H3 & Hw3 & Hl3).
    split; [done|]. split; [|simpl; lia]. simpl. apply whole_app; [by apply Hw|done].
Qed.

(** The batches of successive polls. *)
Definition process_polls (polls : list (Z * list PgOutputXLogData)) : M Decoder (list (list Event)) :=
  collect polls (fun '(now_ms, items) => process_messages cfg now_ms items).

End Whole.

Definition fresh_decoder (lsn : Z) : Decoder :=
  {| relation_map := ∅; current_xid := None; current_commit_ts := 0; partial_tx_events := [];
     committed_tx_ends := []; events_polled := 0; lsn_position := lsn |}.


(** The events of one TRUNCATE all carry the same index. For a TRUNCATE of allowed
    tables the events are numbered before any of them is buffered, so from the second on
    the index repeats, and none of them is the last of its transaction as the announced
    total counts it. *)
Theorem truncate_repeats_index `{BuildProfile} cfg now_ms lsn t d d' xid
    (Hxid : current_xid d = Some xid) (Hempty : partial_tx_events d = [])
    (Hallowed : forallb (fun o => allowed cfg (relation_schema d o) (relation_table_name d o))
                  (PgDecoder.relation_oids t) = true)
    (Hrun : process_message cfg now_ms lsn (PgDecoder.Truncate t) d = (Ok [], d')) :
  length (partial_tx_events d') = length (PgDecoder.relation_oids t) /\
  Forall (fun e => Event.transaction e =
            Some {| Event.tx_id := xid; Event.total_events := None; Event.event_index := 0 |})
    (partial_tx_events d').
Proof.
  cbn [process_message] in Hrun. injection Hrun as <-. unfold push_partial, set_tx.
  cbn [partial_tx_events]. rewrite Hempty, app_nil_l. unfold build_truncate_events.
  set (ok := fun e => allowed cfg (Event.schema e) (Event.table e)).
  set (row := fun oid => row_event cfg d lsn oid Event.Truncate None None false [] [] None).
  induction (PgDecoder.relation_oids t) as [|o oids IH]; [done|].
  cbn [forallb] in Hallowed. apply andb_true_iff in Hallowed as [Ho Hrest].
  cbn [map List.filter]. assert (Hok : ok (row o) = true) by exact Ho. rewrite Hok.
  destruct (IH Hrest) as [Hlen Hall]. split; [cbn; by rewrite Hlen|]. constructor; [|done].
  cbn. unfold tx_meta. by rewrite Hxid, Hempty.
Qed.

(** ** The streaming provider *)

(** The WAL records among the messages received. *)
Definition xlogs (ws : list PgWire.WalMessage) : list PgOutputXLogData :=
  omap (fun w => match w with
                 | PgWire.XLogData wal_start _ data => Some {| xlog_lsn := wal_start; xlog_data := data |}
                 | PgWire.Keepalive _ => None
                 end) ws.

(** What a provider operation did to the stream below it. *)
Definition flows (p p' : StreamingPgOutputProvider) (ms : list PgWire.BackendMessage)
    (complete : bool) : Prop :=
  PgWire.consumed (wire p) (wire p') ms /\ PgWire.told (wire p) (wire p') complete /\
  server_wal_end p <= server_wal_end p'.

Lemma flows_refl p b : flows p p [] b.
Proof. split; [by split; [constructor|]|]. split; [by apply PgWire.told_same|lia]. Qed.

Lemma flows_trans p p1 p2 ms ms' b : flows p p1 ms true -> flows p1 p2 ms' b ->
  flows p p2 (ms ++ ms') b.
Proof.
  intros (Hc & Ht & Hs) (Hc' & Ht' & Hs'). split; [by eapply PgWire.consumed_trans|].
  split; [by eapply PgWire.told_trans|lia].
Qed.

Lemma on_wire_flows {A} (m : M PgWire.ReplicationStream A) p r p' : PgWire.quiet m ->
  on_wire m p = (r, p') ->
  r <> Panic /\ flows p p' [] (is_ok r) /\
  PgWire.applied_lsn (wire p') = PgWire.applied_lsn (wire p) /\ server_wal_end p' = server_wal_end p /\
  PgWire.pending (wire p') = PgWire.pending (wire p).
Proof.
  intros Hq. unfold on_wire. destruct (m (wire p)) as [r0 w] eqn:Hm. intros [= <- <-]. cbn.
  destruct (PgWire.quiet_progress _ _ _ _ Hq Hm) as (Hp & (Hc & Ht & Ha) & _).
  split; [done|]. split; [split; [done|]; split; [done|cbn; lia]|]. split; [done|]. split; [done|].
  destruct Hc as [_ ->]. done.
Qed.

Lemma recv_flows t p r p' : on_wire (PgWire.recv t) p = (r, p') ->
  r <> Panic /\ PgWire.applied_lsn (wire p') = PgWire.applied_lsn (wire p) /\
  exists ms, flows p p' ms (is_ok r) /\
    (forall o, r = Ok o -> omap PgWire.wal_of ms = PgWire.option_list o).
Proof.
  unfold on_wire. destruct (PgWire.recv t (wire p)) as [r0 w] eqn:Hm. intros [= <- <-]. cbn.
  destruct (PgWire.recv_spec _ _ _ _ Hm) as (Hp & Ht & Ha & ms & Hc & Ho).
  split; [done|]. split; [done|]. exists ms. split; [|done].
  split; [done|]. split; [done|cbn; lia].
Qed.

(** A frame taken off the stream makes it shorter. *)
Lemma consumed_shorter s s' ms : PgWire.consumed s s' ms -> ms <> [] ->
  (length (PgWire.pending s') < length (PgWire.pending s))%nat.
Proof.
  intros [_ ->] Hne. destruct ms as [|m ms]; [done|]. unfold PgWire.frames. cbn [map concat].
  rewrite !length_app, PgWire.length_frame. lia.
Qed.

Definition poll_post (p : StreamingPgOutputProvider) (acc : list PgOutputXLogData)
    (r : Res PollOutcome) (p' : StreamingPgOutputProvider) : Prop :=
  r <> Panic /\ PgWire.applied_lsn (wire p') = PgWire.applied_lsn (wire p) /\
  exists ms, flows p p' ms (is_ok r) /\
    (forall o, r = Ok o -> o = Data (acc ++ xlogs (omap PgWire.wal_of ms))).

Lemma poll_post_after p p1 acc acc' r p' ms : flows p p1 ms true ->
  PgWire.applied_lsn (wire p1) = PgWire.applied_lsn (wire p) ->
  acc' = (acc ++ xlogs (omap PgWire.wal_of ms))%list ->
  poll_post p1 acc' r p' -> poll_post p acc r p'.
Proof.
  intros Hf Ha -> (Hp & Ha' & ms' & Hf' & Ho). split; [done|]. split; [congruence|].
  exists (ms ++ ms')%list. split; [by eapply flows_trans|].
  intros o Hr. rewrite (Ho o Hr). unfold xlogs. by rewrite !omap_app, app_assoc.
Qed.

Lemma poll_post_here p acc : poll_post p acc (Ok (Data acc)) p.
Proof.
  split; [done|]. split; [done|]. exists []. split; [apply flows_refl|].
  intros o [= <-]. by rewrite app_nil_r.
Qed.

Lemma clock_flows p : exists t p', on_wire (PgWire.on_socket PgWire.read_clock) p = (Ok t, p') /\
  flows p p' [] true /\ PgWire.applied_lsn (wire p') = PgWire.applied_lsn (wire p) /\
  PgWire.pending (wire p') = PgWire.pending (wire p) /\
  t = PgWire.now (PgWire.socket (wire p')) /\ PgWire.now (PgWire.socket (wire p)) <= t /\
  server_wal_end p' = server_wal_end p /\ PgWire.faults (PgWire.socket (wire p')) = PgWire.faults (PgWire.socket (wire p)).
Proof.
  destruct (on_wire (PgWire.on_socket PgWire.read_clock) p) as [r p'] eqn:Hc.
  destruct (on_wire_flows _ _ _ _ PgWire.clock_quiet Hc) as (_ & Hf & Ha & _ & Hp).
  injection Hc as <- <-. do 2 eexists. split; [done|]. do 3 (split; [done|]).
  split; [done|]. split; [cbn; lia|done].
Qed.

Lemma streaming_poll_loop_spec fuel max_messages deadline acc p r p' :
  (length (PgWire.pending (wire p)) < fuel)%nat ->
  streaming_poll_loop fuel max_messages deadline acc p = (r, p') -> poll_post p acc r p'.
Proof.
  revert acc p r p'. induction fuel as [|f IH]; intros acc p r p' Hl; [lia|].
  cbn [streaming_poll_loop]. destruct (Nat.leb _ _); [intros [= <- <-]; apply poll_post_here|].
  (** the part after the budget of this turn is known *)
  assert (Hturn : forall p1 budget, flows p p1 [] true ->
    PgWire.applied_lsn (wire p1) = PgWire.applied_lsn (wire p) ->
    (m ← on_wire (PgWire.recv budget);
     match m with
     | None => mret (Data acc)
     | Some (PgWire.XLogData wal_start wal_end data) =>
         observe_wal_end wal_end ;;
         streaming_poll_loop f max_messages deadline
           (acc ++ [{| xlog_lsn := wal_start; xlog_data := data |}])
     | Some (PgWire.Keepalive wal_end) =>
         observe_wal_end wal_end ;; streaming_poll_loop f max_messages deadline acc
     end) p1 = (r, p') -> poll_post p acc r p').
  { intros p1 budget Hf1 Ha1. rewrite bind_eq.
    destruct (on_wire (PgWire.recv budget) p1) as [rm p2] eqn:Hrecv.
    destruct (recv_flows _ _ _ _ Hrecv) as (Hnp & Ha2 & ms & Hf2 & Hms).
    pose proof (flows_trans _ _ _ _ _ _ Hf1 Hf2) as Hf. cbn [app] in Hf.
    destruct rm as [m|e|]; [|intros [= <- <-]; split; [done|]; split; [congruence|]; by exists ms|done].
    specialize (Hms m eq_refl).
    (** one more message: the stream is shorter, and the loop goes on *)
    assert (Hnext : forall w wal_end acc', m = Some w -> acc' = (acc ++ xlogs [w])%list ->
      (observe_wal_end wal_end ;; streaming_poll_loop f max_messages deadline acc') p2 = (r, p') ->
      poll_post p acc r p').
    { intros w wal_end acc' -> Hacc. rewrite bind_eq. cbn [observe_wal_end modify].
      set (p3 := {| wire := _ |}). intros Hrec. apply (poll_post_after p p3 acc acc' r p' ms).
      - destruct Hf as (Hc & Ht & Hs). split; [done|]. split; [done|]. cbn. lia.
      - cbn. congruence.
      - by rewrite Hms.
      - apply IH; [|done]. destruct Hf as (Hc & _).
        pose proof (consumed_shorter _ _ _ Hc ltac:(by intros ->)). cbn. lia. }
    destruct m as [[ws we data|we]|].
    - by apply (Hnext (PgWire.XLogData ws we data)).
    - apply (Hnext (PgWire.Keepalive we)); [done|]. by rewrite app_nil_r.
    - intros [= <- <-]. apply (poll_post_after p p2 acc acc _ _ ms); [done|congruence| |apply poll_post_here].
      rewrite Hms. by rewrite app_nil_r. }
  rewrite bind_eq. destruct acc as [|x acc].
  - cbn [is_nil]. rewrite bind_eq.
    destruct (clock_flows p) as (t & p1 & -> & Hf1 & Ha1 & _). cbn [mret M_ret].
    unfold mret, M_ret. destruct (_ && _) eqn:Hz; [|by apply Hturn].
    intros [= <- <-]. by apply (poll_post_after p p1 [] [] _ _ []); [..|apply poll_post_here].
  - cbn [is_nil]. unfold mret at 1, M_ret at 1. cbn [andb]. rewrite andb_false_r.
    apply Hturn; [apply flows_refl|done].
Qed.

Lemma streaming_poll_spec max_messages budget p r p' :
  streaming_poll max_messages budget p = (r, p') -> poll_post p [] r p'.
Proof.
  unfold streaming_poll. rewrite bind_eq.
  destruct (clock_flows p) as (t & p1 & -> & Hf1 & Ha1 & Hp1 & _). intros Hrec.
  apply (poll_post_after p p1 [] [] _ _ []); [done|done|done|].
  eapply streaming_poll_loop_spec; [|exact Hrec]. rewrite Hp1. lia.
Qed.

Lemma told_raise s lsn b : PgWire.told s (PgWire.set_applied_lsn lsn s).2 b.
Proof.
  split; [cbn; lia|]. exists [], []. cbn. rewrite app_nil_r.
  split_and!; auto; constructor.
Qed.

Lemma raise_flows lsn p b : flows p (on_wire (PgWire.set_applied_lsn lsn) p).2 [] b.
Proof.
  split; [split; [constructor|done]|]. split; [apply told_raise|cbn; lia].
Qed.

(** Raising the applied position and, if it rose, reporting it. *)
Lemma raise_and_report_spec lsn (report : bool) p r p' :
  (on_wire (PgWire.set_applied_lsn lsn) ;;
   if report then on_wire (PgWire.send_status_update false) else mret tt) p = (r, p') ->
  r <> Panic /\ flows p p' [] (is_ok r) /\
  PgWire.applied_lsn (wire p') = Z.max (PgWire.applied_lsn (wire p)) lsn.
Proof.
  rewrite bind_eq. pose proof (raise_flows lsn p true) as Hraise.
  destruct (on_wire (PgWire.set_applied_lsn lsn) p) as [r1 p1] eqn:H1.
  assert (Ha1 : r1 = Ok tt /\ PgWire.applied_lsn (wire p1) = Z.max (PgWire.applied_lsn (wire p)) lsn)
    by (by injection H1 as <- <-). destruct Ha1 as [-> Ha1].
  destruct report; [|by intros [= <- <-]].
  intros H2. destruct (on_wire_flows _ _ _ _ PgWire.send_status_update_quiet H2) as (Hp & Hf & Ha & _).
  split; [done|]. split; [by apply (flows_trans _ _ _ _ _ _ Hraise Hf)|congruence].
Qed.

Lemma streaming_confirm_spec lsn p r p' : streaming_confirm_lsn lsn p = (r, p') ->
  r <> Panic /\ flows p p' [] (is_ok r) /\
  PgWire.applied_lsn (wire p') = Z.max (PgWire.applied_lsn (wire p)) lsn.
Proof. unfold streaming_confirm_lsn. rewrite bind_eq. apply raise_and_report_spec. Qed.

(** What the handle asks of the provider while data flows. *)
Inductive ProviderOp :=
| Poll (max_messages : nat) (budget : Z)
| Confirm (lsn : Z).

Definition run_op (op : ProviderOp) : M StreamingPgOutputProvider (list PgOutputXLogData) :=
  match op with
  | Poll n t => o ← streaming_poll n t; mret (into_rows o)
  | Confirm lsn => streaming_confirm_lsn lsn ;; mret []
  end.

Definition confirmed_by (ops : list ProviderOp) (lsn : Z) : Z :=
  foldr (fun op a => match op with Confirm l => Z.max l a | Poll _ _ => a end) lsn ops.

Lemma confirmed_by_max ops a b : confirmed_by ops (Z.max a b) = Z.max a (confirmed_by ops b).
Proof. induction ops as [|[] ops IH]; simpl; [done|by rewrite IH|rewrite IH; lia]. Qed.

Lemma confirmed_by_le ops a : a <= confirmed_by ops a.
Proof. induction ops as [|[] ops IH]; simpl; lia. Qed.

Definition op_lsn (op : ProviderOp) (a : Z) : Z :=
  match op with Confirm l => Z.max l a | Poll _ _ => a end.

Lemma run_op_spec op p r p' : run_op op p = (r, p') ->
  r <> Panic /\ PgWire.applied_lsn (wire p') = op_lsn op (PgWire.applied_lsn (wire p)) /\
  exists ms, flows p p' ms (is_ok r) /\ (forall rows, r = Ok rows -> rows = xlogs (omap PgWire.wal_of ms)).
Proof.
  destruct op as [n t|lsn]; cbn [run_op op_lsn]; rewrite bind_eq.
  - destruct (streaming_poll n t p) as [r0 p0] eqn:Hp.
    destruct (streaming_poll_spec _ _ _ _ _ Hp) as (Hnp & Ha & ms & Hf & Ho).
    destruct r0 as [o|e|]; [|intros [= <- <-]; split; [done|]; split; [done|]; by exists ms|done].
    intros [= <- <-]. split; [done|]. split; [done|]. exists ms. split; [done|].
    intros rows [= <-]. by rewrite (Ho o eq_refl).
  - destruct (streaming_confirm_lsn lsn p) as [r0 p0] eqn:Hp.
    destruct (streaming_confirm_spec _ _ _ _ Hp) as (Hnp & Hf & Ha). rewrite Z.max_comm in Ha.
    destruct r0 as [[]|e|]; [|intros [= <- <-]; split; [done|]; split; [done|]; by exists []|done].
    intros [= <- <-]. split; [done|]. split; [done|]. exists []. split; [done|]. by intros rows [= <-].
Qed.

(** C23: acknowledgements never run ahead of what was confirmed. For every sequence of
    polls and confirmations on a replication stream: each standby status update written
    reports a position between the one the stream started from and the highest confirmed,
    in increasing order and as a complete frame (a failed write excepted); after a
    sequence without errors the applied position is exactly the highest confirmed, the
    rows handed out are exactly the WAL records of the frames taken off the byte stream,
    in order, and every byte not yet decoded is still pending. *)
Theorem feedback_never_runs_ahead ops p r p' (Hrun : collect ops run_op p = (r, p')) :
  r <> Panic /\ PgWire.told (wire p) (wire p') (is_ok r) /\
  PgWire.applied_lsn (wire p') <= confirmed_by ops (PgWire.applied_lsn (wire p)) /\
  exists ms, PgWire.consumed (wire p) (wire p') ms /\
    (forall rs, r = Ok rs ->
      PgWire.applied_lsn (wire p') = confirmed_by ops (PgWire.applied_lsn (wire p)) /\
      concat rs = xlogs (omap PgWire.wal_of ms)).
Proof.
  cut (r <> Panic /\ PgWire.applied_lsn (wire p') <= confirmed_by ops (PgWire.applied_lsn (wire p)) /\
    exists ms, flows p p' ms (is_ok r) /\
    (forall rs, r = Ok rs ->
      PgWire.applied_lsn (wire p') = confirmed_by ops (PgWire.applied_lsn (wire p)) /\
      concat rs = xlogs (omap PgWire.wal_of ms))).
  { intros (Hnp & Hle & ms & (Hc & Ht & _) & Ho). do 3 (split; [done|]). by exists ms. }
  revert p r p' Hrun. induction ops as [|op ops IH]; intros p r p'; cbn [collect].
  - intros [= <- <-]. split; [done|]. split; [simpl; lia|]. exists []. split; [apply flows_refl|].
    by intros rs [= <-].
  - rewrite bind_eq. destruct (run_op op p) as [r1 p1] eqn:Hop.
    destruct (run_op_spec _ _ _ _ Hop) as (Hnp & Ha & ms & Hf & Ho).
    assert (Hops : confirmed_by (op :: ops) (PgWire.applied_lsn (wire p))
                   = confirmed_by ops (PgWire.applied_lsn (wire p1))).
    { rewrite Ha. destruct op; simpl; [done|]. by rewrite confirmed_by_max. }
    rewrite Hops. destruct r1 as [rows|e|]; [| |done].
    2: { intros [= <- <-]. split; [done|]. split; [apply confirmed_by_le|]. by exists ms. }
    rewrite bind_eq. destruct (collect ops run_op p1) as [r2 p2] eqn:Hrest.
    destruct (IH _ _ _ Hrest) as (Hnp2 & Hle2 & ms2 & Hf2 & Ho2).
    pose proof (flows_trans _ _ _ _ _ _ Hf Hf2) as Hff.
    destruct r2 as [rest|e|]; [| |done]; intros [= <- <-]; (split; [done|]; split; [done|];
      exists (ms ++ ms2)%list; split; [done|]); [|done].
    intros rs [= <-]. destruct (Ho2 rest eq_refl) as [-> Hc]. split; [done|].
    simpl. rewrite Hc, (Ho rows eq_refl). unfold xlogs. by rewrite !omap_app.
Qed.

(** ** Polling without waiting, and the idle advance *)

(** What stays below the handle when nothing is read. *)
Definition same_input (p p' : StreamingPgOutputProvider) : Prop :=
  PgWire.pending (wire p') = PgWire.pending (wire p) /\
  server_wal_end p' = server_wal_end p /\
  PgWire.faults (PgWire.socket (wire p')) = PgWire.faults (PgWire.socket (wire p)).

Lemma streaming_poll_zero n p : exists p', streaming_poll n 0 p = (Ok (Data []), p') /\
  same_input p p' /\ PgWire.applied_lsn (wire p') = PgWire.applied_lsn (wire p).
Proof.
  unfold streaming_poll. rewrite bind_eq.
  destruct (clock_flows p) as (t & p1 & -> & _ & Ha & Hp & Ht & _ & Hw & Hf).
  cbn [streaming_poll_loop length]. destruct (Nat.leb_spec (Nat.max n 1) 0); [lia|].
  rewrite bind_eq. cbn [is_nil]. rewrite bind_eq.
  destruct (clock_flows p1) as (t2 & p2 & -> & _ & Ha2 & Hp2 & Ht2 & Hle & Hw2 & Hf2).
  unfold mret at 1, M_ret at 1. replace (Z.max 0 (t + 0 - t2)) with 0 by lia. cbn.
  exists p2. split; [done|]. split; [|congruence]. unfold same_input. split_and!; congruence.
Qed.

Lemma send_status_unfaulted p : PgWire.faults (PgWire.socket (wire p)) = [] ->
  exists p', on_wire (PgWire.send_status_update false) p = (Ok tt, p') /\ same_input p p' /\
    PgWire.applied_lsn (wire p') = PgWire.applied_lsn (wire p).
Proof.
  intros Hf. destruct (on_wire (PgWire.send_status_update false) p) as [r p'] eqn:Hs.
  destruct (on_wire_flows _ _ _ _ PgWire.send_status_update_quiet Hs) as (_ & _ & Ha & Hw & Hp).
  unfold on_wire, PgWire.send_status_update in Hs. rewrite bind_eq in Hs. cbn [gets] in Hs.
  rewrite bind_eq in Hs. unfold PgWire.on_socket at 1, PgWire.now_pg_timestamp in Hs.
  cbn beta iota zeta in Hs. rewrite bind_eq in Hs. unfold PgWire.on_socket at 1, PgWire.write_message in Hs.
  rewrite (proj2 (Z.ltb_ge _ _)) in Hs
    by (unfold PgWire.status_payload; rewrite length_cons, !length_app, !length_be_bytes; simpl; lia).
  unfold PgWire.write_all in Hs. cbn [PgWire.faults PgWire.socket] in Hs. rewrite Hf in Hs.
  cbv iota beta in Hs. rewrite bind_eq in Hs. injection Hs as <- <-.
  eexists. split; [done|]. split; [|done]. by split.
Qed.

Lemma idle_advance_unfaulted p : PgWire.faults (PgWire.socket (wire p)) = [] ->
  exists lag p', streaming_idle_advance p = (Ok lag, p') /\ same_input p p' /\
    PgWire.applied_lsn (wire p') = Z.max (PgWire.applied_lsn (wire p)) (server_wal_end p).
Proof.
  intros Hf. unfold streaming_idle_advance. do 2 (rewrite bind_eq; unfold gets at 1).
  rewrite bind_eq. destruct (Z.ltb_spec (PgWire.applied_lsn (wire p)) (server_wal_end p)).
  - rewrite bind_eq. destruct (on_wire (PgWire.set_applied_lsn _) p) as [r1 p1] eqn:H1.
    injection H1 as <- <-. set (p1 := {| wire := _ |}).
    destruct (send_status_unfaulted p1) as (p2 & -> & Hs & Ha); [done|].
    do 2 eexists. split; [done|]. split; [done|]. by rewrite Ha.
  - do 2 eexists. split; [done|]. split; [done|]. lia.
Qed.

Section ZeroTimeout.
Context `{BuildProfile}.
Abbreviation PgHandle := (PostgresStreamHandle StreamingPgOutputProvider).

(** Steps that touch the clocks of the handle only. *)
Lemma clock_spec a (h : PgHandle) : exists t, clock a h = (Ok (now t), with_timers t h) /\
  now (timers h) + a <= now t /\ last_idle_advance_at t = last_idle_advance_at (timers h) /\
  last_slot_lag_at t = last_slot_lag_at (timers h).
Proof. exists (timers (clock a h).2). split; [done|]. cbn. split_and!; try done. lia. Qed.

Definition idle_due (t : Timers) (interval : Z) : Prop :=
  match last_idle_advance_at t with None => True | Some at_ => interval <= now t - at_ end.

(** Handles that differ in the provider and in the timers, and are due if the other is. *)
Definition near (h h' : PgHandle) : Prop :=
  config h' = config h /\ decoder h' = decoder h /\ same_input (provider h) (provider h') /\
  PgWire.applied_lsn (wire (provider h')) = PgWire.applied_lsn (wire (provider h)) /\
  now (timers h) <= now (timers h') /\
  last_idle_advance_at (timers h') = last_idle_advance_at (timers h).

Ltac near_tac := unfold near, same_input; cbn; split_and!; try done; lia.

Lemma near_refl h : near h h.
Proof. near_tac. Qed.

Lemma near_trans h h1 h2 : near h h1 -> near h1 h2 -> near h h2.
Proof. unfold near, same_input. intros; destruct_and!; split_and!; try congruence; lia. Qed.

Lemma near_due h h' i : near h h' -> idle_due (timers h) i -> idle_due (timers h') i.
Proof.
  intros (_ & _ & _ & _ & Hn & Hi). unfold idle_due. rewrite Hi. by case_match; [lia|].
Qed.

Lemma clock_near h : exists t h', clock 0 h = (Ok t, h') /\ near h h' /\ t = now (timers h') /\
  now (timers h) <= t.
Proof.
  destruct (clock_spec 0 h) as (t & -> & Hn & Hi & _). do 2 eexists. split; [done|].
  split; [near_tac|split; [done|lia]].
Qed.

Lemma adapt_near n h : exists h', adapt_window n (Data []) h = (Ok tt, h') /\ near h h'.
Proof.
  unfold adapt_window. case_match; (eexists; split; [done|]); [|apply near_refl].
  near_tac.
Qed.

Lemma sample_lag_near h : exists h', sample_lag h = (Ok tt, h') /\ near h h'.
Proof.
  unfold sample_lag. rewrite bind_eq.
  assert (Hdue : exists b h1, slot_lag_sample_due h = (Ok b, h1) /\ near h h1).
  { unfold slot_lag_sample_due. case_match; [|by do 2 eexists; split; [|apply near_refl]].
    rewrite bind_eq. destruct (clock_near h) as (t & h1 & -> & Hn & _). by do 2 eexists. }
  destruct Hdue as (b & h1 & -> & H1). destruct b; [|by eexists].
  rewrite bind_eq. unfold on_provider, measure_slot_lag, streaming_provider, streaming_measure_slot_lag.
  cbn [gets]. set (h2 := with_provider _ h1). rewrite bind_eq.
  assert (H2 : near h1 h2) by near_tac.
  destruct (clock_near h2) as (t & h3 & -> & H3 & _). eexists. split; [done|].
  apply (near_trans _ h1), (near_trans _ h2), (near_trans _ h3); [done..|].
  near_tac.
Qed.

Lemma idle_advance_due h : PgWire.faults (PgWire.socket (wire (provider h))) = [] ->
  idle_due (timers h) (slot_idle_advance_interval_ms (config h)) ->
  exists h', maybe_idle_advance h = (Ok tt, h') /\ decoder h' = decoder h /\
    PgWire.pending (wire (provider h')) = PgWire.pending (wire (provider h)) /\
    PgWire.applied_lsn (wire (provider h')) =
      Z.max (PgWire.applied_lsn (wire (provider h))) (server_wal_end (provider h)).
Proof.
  intros Hf Hd. unfold maybe_idle_advance. rewrite bind_eq.
  assert (Hs : exists h1, (match last_idle_advance_at (timers h) with
            | None => mret true
            | Some at_ => t ← clock 0; mret (slot_idle_advance_interval_ms (config h) <=? t - at_)
            end) h = (Ok true, h1) /\ near h h1).
  { unfold idle_due in Hd. case_match; [|eexists; split; [done|apply near_refl]].
    rewrite bind_eq. destruct (clock_near h) as (t & h1 & -> & Hn & _ & Hle).
    eexists. split; [|done]. unfold mret, M_ret. by rewrite (proj2 (Z.leb_le _ _)) by lia. }
  destruct Hs as (h1 & -> & Hc1 & Hd1 & (Hp1 & Hw1 & Hf1) & Ha1 & _). rewrite Hf in Hf1.
  rewrite bind_eq. unfold on_provider, idle_advance, streaming_provider.
  destruct (idle_advance_unfaulted _ Hf1) as (lag & p2 & -> & (Hp2 & _ & _) & Ha2).
  rewrite bind_eq. unfold gets at 1. rewrite bind_eq. unfold set_lag at 1, modify at 1.
  rewrite bind_eq. match goal with |- context [clock 0 ?h2] => destruct (clock_spec 0 h2) as (t & -> & _) end.
  eexists. split; [done|]. cbn. split_and!; congruence.
Qed.

(** A zero-timeout poll of the replication stream reads nothing, whatever is buffered
    or in flight, and reports an idle slot. If the idle interval has also elapsed since the
    last row, the position acknowledged to the server becomes the end of everything the
    server has sent: the events decoded but not committed yet, the transactions handed out
    and not confirmed, and the frames still unread are then behind it. *)
Theorem zero_timeout_poll_reads_nothing (h : PgHandle)
    (Hstreaming : replication_status h = Streaming)
    (Hwrites : PgWire.faults (PgWire.socket (wire (provider h))) = [])
    (Henabled : 0 < slot_idle_advance_interval_ms (config h))
    (Hidle : idle_due (timers h) (slot_idle_advance_interval_ms (config h))) :
  exists h', pg_next_events 0 h = (Ok [], h') /\
    decoder h' = decoder h /\
    PgWire.pending (wire (provider h')) = PgWire.pending (wire (provider h)) /\
    PgWire.applied_lsn (wire (provider h')) =
      Z.max (PgWire.applied_lsn (wire (provider h))) (server_wal_end (provider h)).
Proof.
  unfold pg_next_events. rewrite Hstreaming, bind_eq.
  destruct (clock_near h) as (started & h1 & -> & N1 & Hs & _). cbn [Z.to_nat next_events_loop].
  rewrite bind_eq. destruct (clock_near h1) as (t & h2 & -> & N2 & Ht & Hle).
  rewrite bind_eq. unfold gets at 1. rewrite bind_eq.
  change (@waits_for_data StreamingPgOutputProvider streaming_provider) with true. cbv iota.
  replace (1000 * Z.min (Z.max 0 (0 - (t - started))) DEFAULT_POLL_BACKSTOP_MS) with 0
    by (unfold DEFAULT_POLL_BACKSTOP_MS; lia).
  unfold on_provider at 1. change (@poll_xlog_data _ streaming_provider) with streaming_poll.
  destruct (streaming_poll_zero (peek_window (timers h2)) (provider h2)) as (p3 & -> & Hp3 & Ha3).
  set (h3 := with_provider p3 h2).
  assert (N3 : near h2 h3) by (destruct Hp3 as (? & ? & ?); near_tac).
  rewrite bind_eq. destruct (adapt_near (peek_window (timers h2)) h3) as (h4 & -> & N4).
  cbn [into_rows]. rewrite bind_eq. unfold take_rows at 1. cbn [is_nil]. unfold mret at 1, M_ret at 1.
  rewrite bind_eq. destruct (sample_lag_near h4) as (h5 & -> & N5).
  pose proof (near_trans _ _ _ (near_trans _ _ _ (near_trans _ _ _ (near_trans _ _ _ N1 N2) N3) N4) N5) as N.
  pose proof (near_due _ _ _ N Hidle) as Hd5.
  destruct N as (Hc & Hdec & (Hpend & Hwal & Hfau) & Happ & _).
  rewrite bind_eq. unfold gets at 1. rewrite bind_eq, Hc. cbn [is_caught_up andb].
  rewrite (proj2 (Z.ltb_lt _ _)) by lia.
  destruct (idle_advance_due h5) as (h6 & -> & Hd6 & Hp6 & Ha6); [congruence|by rewrite Hc|].
  rewrite bind_eq. destruct (clock_spec 0 h6) as (t7 & -> & _). cbn [Z.eqb orb].
  eexists. split; [done|]. cbn. split_and!; congruence.
Qed.

End ZeroTimeout.

(** ** Witnesses *)

Module Demo.

Local Open Scope list_scope.

Definition cstring (s : string) : bytes := list_byte_of_string s ++ [Byte.x00].

(** A table with one key column, and a transaction on it. *)
Definition relation_bytes (o : Z) (n : string) : bytes :=
  "R"%byte :: be_bytes 4 o ++ cstring "public" ++ cstring n ++ ["d"%byte] ++ be_bytes 2 1 ++
  [Byte.x01] ++ cstring "id" ++ be_bytes 4 23 ++ be_bytes 4 0.
Definition begin_bytes (x : Z) : bytes :=
  "B"%byte :: be_bytes 8 0x200 ++ be_bytes 8 0 ++ be_bytes 4 x.
Definition insert_bytes (o : Z) (v : string) : bytes :=
  "I"%byte :: be_bytes 4 o ++ ["N"%byte] ++ be_bytes 2 1 ++ ["t"%byte] ++
  be_bytes 4 (Z.of_nat (String.length v)) ++ list_byte_of_string v.
Definition commit_bytes (fin : Z) : bytes :=
  "C"%byte :: Byte.x00 :: be_bytes 8 (fin - 8) ++ be_bytes 8 fin ++ be_bytes 8 0.

Definition cfg : HandleConfig :=
  {| source_name := "postgres"; slot_name := "slot"; catalog_primary_keys := ∅;
     max_events_per_poll := 100; stream_poll_interval_ms := 10;
     slot_idle_advance_interval_ms := 30000; table_include_list := []; table_exclude_list := [] |}.

Definition item (l : Z) (d : bytes) : PgOutputXLogData := {| xlog_lsn := l; xlog_data := d |}.

(** The transaction is cut between its two rows. *)
Definition polls : list (Z * list PgOutputXLogData) :=
  [(0, [item 0 (relation_bytes 7 "users"); item 0x100 (begin_bytes 42); item 0x110 (insert_bytes 7 "1")]);
   (0, [item 0x120 (insert_bytes 7 "2"); item 0x200 (commit_bytes 0x210)])].

Definition events_of (polls : list (Z * list PgOutputXLogData)) : list (list Event) :=
  match fst (process_polls (H := true) cfg polls (fresh_decoder 0)) with Ok ess => ess | _ => [] end.

(** The frames of the same transaction. *)
Definition xlog_frame (l wal_end : Z) (d : bytes) : PgWire.BackendMessage :=
  {| PgWire.tag := "d"%byte;
     PgWire.payload := "w"%byte :: be_bytes 8 l ++ be_bytes 8 wal_end ++ be_bytes 8 0 ++ d |}.
Definition tx_wire : bytes :=
  PgWire.frames [xlog_frame 0 0x200 (relation_bytes 7 "users"); xlog_frame 0x100 0x200 (begin_bytes 42);
    xlog_frame 0x110 0x200 (insert_bytes 7 "1"); xlog_frame 0x120 0x200 (insert_bytes 7 "2");
    xlog_frame 0x200 0x210 (commit_bytes 0x210)].

Definition replication (l : list PgWire.Arrival) : StreamingPgOutputProvider :=
  {| wire := PgWire.quiet_stream l; server_wal_end := 0 |}.

Definition handle (l : list PgWire.Arrival) : PostgresStreamHandle StreamingPgOutputProvider :=
  handle_new cfg (replication l) 0 [] [].

(** The handle has handed out the transaction and received the start of the next. *)
Definition busy : PostgresStreamHandle StreamingPgOutputProvider :=
  let h := snd (pg_next_events (H := true) 1000 (handle [PgWire.Chunk tx_wire;
    PgWire.Chunk (PgWire.frames [xlog_frame 0x220 0x300 (begin_bytes 43)])])) in
  with_timers {| now := 40000; ticks := []; peek_window := 100;
                 last_idle_advance_at := last_idle_advance_at (timers h);
                 last_slot_lag_at := None; last_slot_lag_bytes := 0 |} h.

End Demo.


Definition demo_truncate : PgDecoder.PgTruncate :=
  {| PgDecoder.option_bits := Byte.x00; PgDecoder.relation_oids := [7; 8; 9] |}.
Definition demo_open : Decoder :=
  snd (process_message (H := true) Demo.cfg 0 0
    (PgDecoder.Begin {| PgDecoder.final_lsn := 0; PgDecoder.begin_timestamp_us := 0; PgDecoder.xid := 5 |})
    (fresh_decoder 0)).
Definition demo_truncated : Decoder :=
  snd (process_message (H := true) Demo.cfg 0 0 (PgDecoder.Truncate demo_truncate) demo_open).

Lemma truncate_repeats_index_witness :
  current_xid demo_open = Some 5 /\
  length (partial_tx_events demo_truncated) = 3%nat /\
  Forall (fun e => Event.transaction e =
            Some {| Event.tx_id := 5; Event.total_events := None; Event.event_index := 0 |})
    (partial_tx_events demo_truncated).
Proof.
  split; [reflexivity|].
  exact (truncate_repeats_index (H := true) Demo.cfg 0 0 demo_truncate demo_open demo_truncated 5
    eq_refl eq_refl eq_refl eq_refl).
Defined.

Definition demo_ops : list ProviderOp := [Poll 3 1000; Confirm 0x210; Poll 3 1000].
Definition demo_flow := collect demo_ops run_op (Demo.replication [PgWire.Chunk Demo.tx_wire]).

Lemma feedback_never_runs_ahead_witness :
  is_ok (fst demo_flow) = true /\
  PgWire.applied_lsn (wire (snd demo_flow)) <= confirmed_by demo_ops 0.
Proof.
  split; [vm_compute; reflexivity|]. unfold demo_flow.
  exact (proj1 (proj2 (proj2 (feedback_never_runs_ahead demo_ops
    (Demo.replication [PgWire.Chunk Demo.tx_wire]) _ _ (surjective_pairing _))))).
Defined.

(** The transaction that ends at [0x210] was handed out and not confirmed, a byte stream of
    a further transaction is unread, and the acknowledged position passes [0x210]. *)
Lemma zero_timeout_poll_reads_nothing_witness :
  (committed_tx_ends (decoder Demo.busy) = [(42, 0x210)] /\
   PgWire.applied_lsn (wire (provider Demo.busy)) = 0 /\
   PgWire.pending (wire (provider Demo.busy)) <> []) /\
  exists h', pg_next_events (H := true) 0 Demo.busy = (Ok [], h') /\
    decoder h' = decoder Demo.busy /\
    PgWire.pending (wire (provider h')) = PgWire.pending (wire (provider Demo.busy)) /\
    PgWire.applied_lsn (wire (provider h')) =
      Z.max (PgWire.applied_lsn (wire (provider Demo.busy))) (server_wal_end (provider Demo.busy)).
Proof.
  split; [vm_compute; split_and!; done|].
  refine (zero_timeout_poll_reads_nothing (H := true) Demo.busy _ _ _ _).
  - vm_compute. reflexivity.
  - vm_compute. reflexivity.
  - vm_compute. reflexivity.
  - vm_compute. intros [=].
Defined.

End PgStream.
