(* ===== verification/PgRuntime.v ===== *)
(** * PgRuntime: the runtime over the PostgreSQL stream

    The composition of [Runtime] with the [postgres_stream] instance of [PgStream]: which
    positions the runtime records and confirms for the events of a transaction. *)

From S2P Require Import Prelude Errors CheckpointApi Strs Json Offsets Event Monad Driver DriverDelivery Bytes PgParser PgWire PgStream Barrier Runtime RuntimeDelivery.

Module PgRuntime.
Import Runtime PgStream.

Local Open Scope Z_scope.

(** The two readers of a position agree on what the connector prints. *)
Lemma parse_postgres_format n : u64_range n ->
  parse_postgres_lsn (PgParser.format_pg_lsn n) = Ok n.
Proof.
  intros Hn. destruct (PgParser.format_lsn_parts n Hn) as (high & low & Hs & Hh & Hl).
  unfold parse_postgres_lsn. rewrite Hs, Hh, Hl.
  by destruct (PgParser.lsn_halves n Hn) as (_ & _ & ->).
Qed.

Section Positions.
Context `{BuildProfile} `{JsonCodec} {C SN P : Type}.
Context `{Checkpoint C} `{SnapshotHandle SN} `{PgOutputMessageProvider P}.
Abbreviation R := (CdcRuntime C SN (PostgresStreamHandle P)).

(** The end of a transaction the handle has handed out. *)
Definition ends_at (h : PostgresStreamHandle P) (tx_id end_lsn : Z) : Prop :=
  List.find (fun '(id, _) => id =? tx_id) (rev (committed_tx_ends (decoder h))) = Some (tx_id, end_lsn).

Lemma resume_is_end (r : R) h e tx end_lsn : stream r = Some h ->
  Event.transaction e = Some tx -> ends_at h (Event.tx_id tx) end_lsn ->
  Runtime.resume_offset_for r e = PgParser.format_pg_lsn end_lsn.
Proof.
  intros Hr He Hend. unfold Runtime.resume_offset_for. rewrite Hr. cbn.
  unfold pg_resume_offset_for. rewrite He. cbn. by rewrite Hend.
Qed.

(** The offset of the checkpoint at a position of the slot. *)
Definition slot_checkpoint (slot : string) (l : Z) : Res DynOffset :=
  b <-? encode (postgres_dyn {| lsn := l; Offsets.slot_name := slot; pg_incremental_snapshot := None |});
  Ok (generic_dyn {| Offsets.source := "postgres"; Offsets.bytes := b |}).

(** Committing any event of a transaction commits to its end. The checkpoint built
    for an event is the end of its transaction, whatever the index of the event; and when
    an acknowledged prefix of a delivery stops inside a transaction, the position confirmed
    to the server is that end too. The rest of the transaction is not behind the
    checkpoint: the server restarts after it. *)
Theorem partial_commit_passes_transaction (r : R) h slot p count e tx end_lsn
    (Hsource : source (Runtime.config r) = Postgres slot) (Hstream : stream r = Some h)
    (Hpending : pending_delivery r = Some p)
    (Hcount : (0 < count <= length (events p) - committed_prefix p)%nat)
    (Hlast : events p !! (committed_prefix p + count - 1)%nat = Some e)
    (Hrow : Event.snapshot e = None) (Htx : Event.transaction e = Some tx)
    (Hoffset : contains_char "/" (Event.offset (Event.source e)) = true)
    (Hend : ends_at h (Event.tx_id tx) end_lsn) (Hrange : u64_range end_lsn) :
  build_checkpoint_offset r e = slot_checkpoint slot end_lsn /\
  committed_confirmation_lsn r count = Ok (Some end_lsn) /\
  forall e' tx', Event.transaction e' = Some tx' -> Event.tx_id tx' = Event.tx_id tx ->
    build_checkpoint_offset r e' = build_checkpoint_offset r e.
Proof.
  assert (Hbuild : forall e tx, Event.transaction e = Some tx -> ends_at h (Event.tx_id tx) end_lsn ->
    build_checkpoint_offset r e = slot_checkpoint slot end_lsn).
  { intros e0 tx0 He0 Hend0. unfold build_checkpoint_offset.
    rewrite (resume_is_end r h e0 tx0 end_lsn) by done.
    rewrite Hsource, Hstream, parse_postgres_format by done. done. }
  split; [by apply (Hbuild e tx)|]. split.
  - unfold committed_confirmation_lsn. rewrite Hpending.
    rewrite usize_sub_le by lia. cbn [res_bind].
    destruct (Nat.eqb_spec count 0); [lia|]. cbn [orb].
    destruct (Nat.ltb_spec (length (events p) - committed_prefix p) count); [lia|].
    rewrite Hlast, Hrow, Hsource, Hoffset, andb_false_r. cbn [negb].
    by rewrite (resume_is_end r h e tx end_lsn), parse_postgres_format.
  - intros e' tx' He' Heq. rewrite (Hbuild e tx Htx Hend). apply (Hbuild e' tx' He'). by rewrite Heq.
Qed.

End Positions.

(** ** A partial acknowledgement, end to end *)

Module Demo.

#[export] Instance no_snapshot : SnapshotHandle Empty_set :=
  {| snapshot_checkpoint _ _ (sn : Empty_set) _ := match sn with end |}.

#[export] Existing Instance DriverDelivery.Demo.codec.

(** A build that checks arithmetic. *)
#[export] Instance profile : BuildProfile := true.

Definition config : RuntimeConfig :=
  {| options := {| max_buffer_size := 10; post_commit_source_confirm_policy := FailFast;
                   validate_events := true; max_event_bytes := None;
                   transaction_boundary := Split |};
     source := Postgres "slot"; incremental_snapshot := false |}.

Abbreviation Runtime := (CdcRuntime (Journal InMemory.InMemoryCheckpoint) Empty_set
                           (PostgresStreamHandle StreamingPgOutputProvider)).

(** Two rows of one transaction arrive in one read. *)
Definition start : Runtime :=
  RuntimeDelivery.fresh config 0 {| store := InMemory.mem_new; CheckpointApi.log := [] |}
    (PgStream.Demo.handle [PgWire.Chunk PgStream.Demo.tx_wire]).

Definition first_row : AckMode :=
  Required {| tok_delivery_id := 1; event_count := 1; tok_epoch := 0 |}.

Definition polled : Runtime :=
  snd (RuntimeDelivery.session [RuntimeDelivery.Poll 0 1000] start).
Definition half_committed : Runtime :=
  snd (RuntimeDelivery.session
    [RuntimeDelivery.Poll 0 1000; RuntimeDelivery.Ack 0 first_row] start).

Definition demo_handle : PostgresStreamHandle StreamingPgOutputProvider :=
  default (PgStream.Demo.handle []) (stream polled).
Definition demo_pending : PendingDelivery :=
  default {| delivery_id := 0; events := []; committed_prefix := 0; ack_epoch := 0 |}
    (pending_delivery polled).
Definition demo_event : Event.Event :=
  default (RuntimeDelivery.Demo.insert_at 0 0) (head (events demo_pending)).

End Demo.

#[local] Existing Instances Demo.no_snapshot DriverDelivery.Demo.codec Demo.profile.

(** The first of two rows is acknowledged: the saved position and the one reported to the
    server are the end of the transaction, and its second row is still in flight. *)
Lemma half_committed_transaction_is_skipped :
  length (RuntimeDelivery.in_flight Demo.half_committed) = 1%nat /\
  fst <$> last (CheckpointApi.log (checkpoint Demo.half_committed)) =
    match slot_checkpoint "slot" 0x210 with Ok o => Some o | _ => None end /\
  option_map (fun h => PgWire.applied_lsn (wire (provider h))) (stream Demo.half_committed) = Some 0x210.
Proof. vm_compute. split_and!; reflexivity. Qed.

Lemma partial_commit_passes_transaction_witness :
  (0 < 1 <= length (events Demo.demo_pending) - committed_prefix Demo.demo_pending)%nat /\
  build_checkpoint_offset Demo.polled Demo.demo_event = slot_checkpoint "slot" 0x210 /\
  committed_confirmation_lsn Demo.polled 1 = Ok (Some 0x210) /\
  forall e' tx', Event.transaction e' = Some tx' -> Event.tx_id tx' = 42 ->
    build_checkpoint_offset Demo.polled e' =
      build_checkpoint_offset Demo.polled Demo.demo_event.
Proof.
  split; [vm_compute; lia|].
  refine (partial_commit_passes_transaction Demo.polled Demo.demo_handle "slot"
    Demo.demo_pending 1 Demo.demo_event
    {| Event.tx_id := 42; Event.total_events := Some 2; Event.event_index := 0 |} 0x210
    _ _ _ _ _ _ _ _ _ _).
  - vm_compute. reflexivity.
  - vm_compute. reflexivity.
  - vm_compute. reflexivity.
  - vm_compute. lia.
  - vm_compute. reflexivity.
  - vm_compute. reflexivity.
  - vm_compute. reflexivity.
  - vm_compute. reflexivity.
  - vm_compute. reflexivity.
  - unfold u64_range, u64_modulus. lia.
Defined.

End PgRuntime.
