(* ===== verification/Sinks.v ===== *)
(** * Sinks: the sink contract, the built-in sinks and their composition

    Models [src/src/sink/mod.rs] (the [SinkAdapter] trait, the in-memory sink, the
    conformance suite), [sink/stdout.rs], [sink/fan_out.rs] and [pipeline/router.rs].

    [BoxedSink] only erases the type of a sink, so the fan-out is a fan-out over sinks of
    any type; a heterogeneous one is a sum.  Children that the code drives concurrently
    share no state, so each is run on its own and the results are taken in the order of
    the children.  A panicking child panics the operation. *)

From S2P Require Import Prelude Errors Strs Json Event Monad Glob.

Module Sinks.

Local Open Scope string_scope.
Local Open Scope Z_scope.

Abbreviation Event := Event.Event.

(** ** The contract *)

Inductive SinkDeliveryGuarantee := AtLeastOnce | AtLeastOnceIdempotent | EffectivelyOnce.

Definition strength (g : SinkDeliveryGuarantee) : Z :=
  match g with AtLeastOnce => 0 | AtLeastOnceIdempotent => 1 | EffectivelyOnce => 2 end.

Definition weakest (g h : SinkDeliveryGuarantee) : SinkDeliveryGuarantee :=
  if strength g <=? strength h then g else h.

Record SinkDeliveryMetrics := {
  events_sent : Z;
  events_errored : Z;
  events_retried : Z;
  last_delivered_offset : option string
}.

Definition no_metrics : SinkDeliveryMetrics :=
  {| events_sent := 0; events_errored := 0; events_retried := 0; last_delivered_offset := None |}.

Definition merge (m other : SinkDeliveryMetrics) : SinkDeliveryMetrics :=
  {| events_sent := saturating_add (events_sent m) (events_sent other);
     events_errored := saturating_add (events_errored m) (events_errored other);
     events_retried := saturating_add (events_retried m) (events_retried other);
     last_delivered_offset := last_delivered_offset m |}.

(** The trait.  [queue_depth] may overflow when depths are added. *)
Class SinkAdapter (S : Type) := {
  send : Event -> M S unit;
  flush : M S unit;
  close : M S unit;
  name : S -> string;
  delivery_guarantee : S -> SinkDeliveryGuarantee;
  idempotent_delivery_capable : S -> bool;
  transactional_checkpoint_barrier_capable : S -> bool;
  queue_depth : S -> Res (option Z);
  flush_tick_interval : S -> option Z;
  begin_checkpoint_barrier : M S unit;
  commit_checkpoint_barrier : M S unit;
  abort_checkpoint_barrier : M S unit;
  preflight_check : M S unit;
  exported_events : S -> option (list Event);
  delivery_metrics : S -> option SinkDeliveryMetrics;
  is_closed : S -> bool;
}.

Definition closed_error : Error := StateError "adapter is closed".

(** ** The in-memory sink *)

Record MemorySinkAdapter := { memory_name : string; events : list Event; closed : bool }.

Definition memory_new (n : string) : MemorySinkAdapter :=
  {| memory_name := n; events := []; closed := false |}.

Definition memory_send (e : Event) : M MemorySinkAdapter unit := fun s =>
  if closed s then (Err closed_error, s)
  else (Ok tt, {| memory_name := memory_name s; events := events s ++ [e]; closed := closed s |}).

Definition memory_flush : M MemorySinkAdapter unit := fun s =>
  if closed s then (Err closed_error, s) else (Ok tt, s).

Definition memory_close : M MemorySinkAdapter unit := fun s =>
  (Ok tt, {| memory_name := memory_name s; events := events s; closed := true |}).

#[export] Instance memory_sink : SinkAdapter MemorySinkAdapter := {
  send := memory_send;
  flush := memory_flush;
  close := memory_close;
  name := memory_name;
  delivery_guarantee _ := AtLeastOnce;
  idempotent_delivery_capable _ := false;
  transactional_checkpoint_barrier_capable _ := false;
  queue_depth _ := Ok None;
  flush_tick_interval _ := None;
  begin_checkpoint_barrier := mret tt;
  commit_checkpoint_barrier := mret tt;
  abort_checkpoint_barrier := mret tt;
  preflight_check := mret tt;
  exported_events s := Some (events s);
  delivery_metrics _ := None;
  is_closed := closed;
}.

(** ** Standard output

    The stream is the bytes written to it, and a script of what happens to the write and
    flush calls; the serialized event is a parameter. *)

Class EventJson := { event_compact : Event -> Res (list byte); event_pretty : Event -> Res (list byte) }.

Record StdoutSink := {
  stdout : list byte;
  stdout_faults : list (option nat);
  stdout_closed : bool;
  sent_count : Z;
  pretty : bool;
  captured : option (list Event)
}.

Definition stdout_new (p : bool) (capture : bool) (faults : list (option nat)) : StdoutSink :=
  {| stdout := []; stdout_faults := faults; stdout_closed := false; sent_count := 0; pretty := p;
     captured := if capture then Some [] else None |}.

(** One call on the stream; [Some n] in the script is a failure after [n] bytes. *)
Definition on_stdout (out : list byte) : M StdoutSink bool := fun s =>
  let fault := default None (head (stdout_faults s)) in
  (Ok (match fault with Some _ => true | None => false end),
             {| stdout := (stdout s ++ match fault with Some n => take n out | None => out end)%list;
                stdout_faults := tail (stdout_faults s); stdout_closed := stdout_closed s;
                sent_count := sent_count s; pretty := pretty s; captured := captured s |}).

Section Stdout.
Context `{BuildProfile} `{EventJson}.

Definition stdout_send (e : Event) : M StdoutSink unit := fun s =>
  if stdout_closed s then (Err (StateError "StdoutSink is closed"), s)
  else
    (bytes ← of_res (if pretty s then event_pretty e else event_compact e);
     failed ← on_stdout (bytes ++ [Byte.x0a])%list;
     if failed : bool then throw (StateError "StdoutSink write")
     else
       fun s =>
         match u64_add (sent_count s) 1 with
         | Some n =>
             (Ok tt, {| stdout := stdout s; stdout_faults := stdout_faults s;
                        stdout_closed := stdout_closed s; sent_count := n; pretty := pretty s;
                        captured := (fun buf => buf ++ [e])%list <$> captured s |})
         | None => (Panic, s)
         end) s.

Definition stdout_flush : M StdoutSink unit := fun s =>
  if stdout_closed s then (Err (StateError "StdoutSink is closed"), s)
  else
    (failed ← on_stdout [];
     if failed : bool then throw (StateError "StdoutSink flush") else mret tt) s.

Definition stdout_close : M StdoutSink unit := fun s =>
  ((if stdout_closed s then mret tt else on_stdout [] ;; mret tt) ;;
   modify (fun s => {| stdout := stdout s; stdout_faults := stdout_faults s; stdout_closed := true;
                       sent_count := sent_count s; pretty := pretty s; captured := captured s |})) s.

#[export] Instance stdout_sink : SinkAdapter StdoutSink := {
  send := stdout_send;
  flush := stdout_flush;
  close := stdout_close;
  name _ := "stdout";
  delivery_guarantee _ := AtLeastOnce;
  idempotent_delivery_capable _ := false;
  transactional_checkpoint_barrier_capable _ := false;
  queue_depth _ := Ok None;
  flush_tick_interval _ := None;
  begin_checkpoint_barrier := mret tt;
  commit_checkpoint_barrier := mret tt;
  abort_checkpoint_barrier := mret tt;
  preflight_check := mret tt;
  exported_events := captured;
  delivery_metrics s := Some {| events_sent := sent_count s; events_errored := 0;
                                events_retried := 0; last_delivered_offset := None |};
  is_closed := stdout_closed;
}.

End Stdout.

(** ** Operations on several sinks *)

Section Many.
Context {S : Type} `{SinkAdapter S}.

(** [join_all(..).into_iter().find(is_err).unwrap_or(Ok(()))] *)
Definition is_panic {A} (r : Res A) : bool := match r with Panic => true | _ => false end.

Definition first_err (rs : list (Res unit)) : Res unit :=
  if existsb is_panic rs then Panic
  else default (Ok tt) (List.find (fun r => negb (is_ok r)) rs).

Definition join_first_err (op : M S unit) (l : list S) : Res unit * list S :=
  (first_err (map (fun s => fst (op s)) l), map (fun s => snd (op s)) l).

(** The barrier is begun sink by sink; on a failure the begun ones are aborted, the last
    one first, and what the aborts answer is ignored. *)
Fixpoint begin_barriers (l : list S) : Res unit * list S :=
  match l with
  | [] => (Ok tt, [])
  | s :: l' =>
      match begin_checkpoint_barrier s with
      | (Ok _, s1) =>
          match begin_barriers l' with
          | (Ok _, l1) => (Ok tt, s1 :: l1)
          | (Err e, l1) =>
              let '(r, s2) := abort_checkpoint_barrier s1 in
              (if is_panic r then Panic else Err e, s2 :: l1)
          | (Panic, l1) => (Panic, s1 :: l1)
          end
      | (Err e, s1) => (Err e, s1 :: l')
      | (Panic, s1) => (Panic, s1 :: l')
      end
  end.

(** A sequential pass that goes on after failures and collects them under their labels. *)
Fixpoint collect_failures (op : M S unit) (l : list (string * S))
    : Res (list (string * Error)) * list S :=
  match l with
  | [] => (Ok [], [])
  | (label, s) :: l' =>
      let '(r, s1) := op s in
      if is_panic r then (Panic, s1 :: map snd l')
      else
        let '(fs, l1) := collect_failures op l' in
        (failures <-? fs;
         Ok (match r with Err e => (label, e) :: failures | _ => failures end), s1 :: l1)
  end.

Definition all_metrics (l : list S) : option SinkDeliveryMetrics :=
  match omap delivery_metrics l with
  | [] => None
  | ms => Some (fold_left merge ms no_metrics)
  end.

Definition min_interval (l : list S) : option Z :=
  match omap flush_tick_interval l with
  | [] => None
  | t :: ts => Some (fold_left Z.min ts t)
  end.

(** The depths that are reported. *)
Fixpoint depths (l : list S) : Res (list Z) :=
  match l with
  | [] => Ok []
  | s :: l' =>
      d <-? queue_depth s;
      ds <-? depths l';
      Ok (match d with Some z => z :: ds | None => ds end)
  end.

End Many.

(** ** Fan-out *)

Record FanOutSinkAdapter (S : Type) := { sinks : list S }.
Arguments sinks {S}. Arguments Build_FanOutSinkAdapter {S}.

Section FanOut.
Context `{BuildProfile} {S : Type} `{SinkAdapter S}.

Definition fan_out_new (l : list S) : Res (FanOutSinkAdapter S) :=
  match l with
  | [] => Err (ConfigError "FanOutSinkAdapter requires at least one child sink")
  | _ => Ok {| sinks := l |}
  end.

Definition on_children (f : list S -> Res unit * list S) : M (FanOutSinkAdapter S) unit := fun a =>
  let '(r, l) := f (sinks a) in (r, {| sinks := l |}).

(** [.sum()] on [usize] *)
Fixpoint sum_depths (total : Z) (ds : list Z) : Res Z :=
  match ds with
  | [] => Ok total
  | d :: ds' => match u64_add total d with Some t => sum_depths t ds' | None => Panic end
  end.

Definition fan_out_queue_depth (a : FanOutSinkAdapter S) : Res (option Z) :=
  ds <-? depths (sinks a);
  total <-? sum_depths 0 ds;
  Ok (match ds with [] => None | _ => Some total end).

#[export] Instance fan_out_sink : SinkAdapter (FanOutSinkAdapter S) := {
  send e := on_children (join_first_err (send e));
  flush := on_children (join_first_err flush);
  close := on_children (join_first_err close);
  name _ := "fan-out";
  delivery_guarantee a := fold_left weakest (map delivery_guarantee (sinks a)) EffectivelyOnce;
  idempotent_delivery_capable a := forallb idempotent_delivery_capable (sinks a);
  transactional_checkpoint_barrier_capable a :=
    forallb transactional_checkpoint_barrier_capable (sinks a);
  queue_depth := fan_out_queue_depth;
  flush_tick_interval a := min_interval (sinks a);
  begin_checkpoint_barrier := on_children begin_barriers;
  commit_checkpoint_barrier := on_children (join_first_err commit_checkpoint_barrier);
  abort_checkpoint_barrier := on_children (join_first_err abort_checkpoint_barrier);
  preflight_check := on_children (join_first_err preflight_check);
  exported_events _ := None;
  delivery_metrics a := all_metrics (sinks a);
  is_closed a := forallb is_closed (sinks a);
}.

End FanOut.

(** ** The table router *)

Record TableRoute (S : Type) := { pattern : string; sink : S }.
Arguments pattern {S}. Arguments sink {S}.

Record TableRouter (S : Type) := {
  router_name : string;
  routes : list (TableRoute S);
  default_sink : option S;
  drop_unrouted : bool;
  router_closed : bool
}.
Arguments router_name {S}. Arguments routes {S}. Arguments default_sink {S}.
Arguments drop_unrouted {S}. Arguments router_closed {S}.

Record TableRouterBuilder (S : Type) := {
  builder_name : string;
  builder_routes : list (TableRoute S);
  builder_default : option S;
  builder_drop_unrouted : bool
}.
Arguments builder_name {S}. Arguments builder_routes {S}. Arguments builder_default {S}.
Arguments builder_drop_unrouted {S}.

(** The text of aggregated failures. *)
Class ErrorText := render_failures : list (string * Error) -> string.

Section Router.
Context `{ErrorText} {S : Type} `{SinkAdapter S}.

Definition builder (n : string) : TableRouterBuilder S :=
  {| builder_name := n; builder_routes := []; builder_default := None; builder_drop_unrouted := false |}.

Definition route (p : string) (s : S) (b : TableRouterBuilder S) : TableRouterBuilder S :=
  {| builder_name := builder_name b; builder_routes := builder_routes b ++ [{| pattern := p; sink := s |}];
     builder_default := builder_default b; builder_drop_unrouted := builder_drop_unrouted b |}.

Definition set_default (s : S) (b : TableRouterBuilder S) : TableRouterBuilder S :=
  {| builder_name := builder_name b; builder_routes := builder_routes b; builder_default := Some s;
     builder_drop_unrouted := builder_drop_unrouted b |}.

Definition set_drop_unrouted (d : bool) (b : TableRouterBuilder S) : TableRouterBuilder S :=
  {| builder_name := builder_name b; builder_routes := builder_routes b;
     builder_default := builder_default b; builder_drop_unrouted := d |}.

(** The problems [build] reports, with the patterns seen so far. *)
Fixpoint pattern_errors (seen : list string) (l : list string) : list string :=
  match l with
  | [] => []
  | pat :: l' =>
      if is_empty pat then "empty pattern" :: pattern_errors seen l'
      else if existsb (String.eqb pat) seen
      then ("duplicate pattern '" +:+ pat +:+ "'") :: pattern_errors seen l'
      else
        match split_once "." pat with
        | Some (schema, table) =>
            if is_empty schema || is_empty table
            then ("malformed pattern '" +:+ pat +:+ "'") :: pattern_errors (pat :: seen) l'
            else pattern_errors (pat :: seen) l'
        | None => pattern_errors (pat :: seen) l'
        end
  end.

Definition build_unchecked (b : TableRouterBuilder S) : TableRouter S :=
  {| router_name := builder_name b; routes := builder_routes b; default_sink := builder_default b;
     drop_unrouted := builder_drop_unrouted b; router_closed := false |}.

Definition build (b : TableRouterBuilder S) : Res (TableRouter S) :=
  match pattern_errors [] (map pattern (builder_routes b)) with
  | [] => Ok (build_unchecked b)
  | _ => Err (ConfigError "TableRouterBuilder: invalid route pattern(s)")
  end.

Definition router_new (n : string) (rs : list (TableRoute S)) (d : option S) : TableRouter S :=
  {| router_name := n; routes := rs; default_sink := d; drop_unrouted := false; router_closed := false |}.

Definition matches (e : Event) (r : TableRoute S) : bool :=
  Glob.table_matches (pattern r) (Event.qualified_table_name e).

Definition route_for (r : TableRouter S) (e : Event) : option S :=
  match List.find (matches e) (routes r) with
  | Some rt => Some (sink rt)
  | None => default_sink r
  end.

Definition matched_pattern_for (r : TableRouter S) (e : Event) : option string :=
  match List.find (matches e) (routes r) with
  | Some rt => Some (pattern rt)
  | None => match default_sink r with Some _ => Some "*" | None => None end
  end.

Definition with_sink (s : S) (rt : TableRoute S) : TableRoute S := {| pattern := pattern rt; sink := s |}.

Definition with_sinks (rs : list (TableRoute S)) (d : option S) (c : bool) (r : TableRouter S)
    : TableRouter S :=
  {| router_name := router_name r; routes := rs; default_sink := d;
     drop_unrouted := drop_unrouted r; router_closed := c |}.

(** The first route that matches takes the event; [None] when none does. *)
Fixpoint send_routes (e : Event) (rs : list (TableRoute S))
    : option (Res unit * list (TableRoute S)) :=
  match rs with
  | [] => None
  | rt :: rs' =>
      if matches e rt then
        let '(res, s) := send e (sink rt) in Some (res, with_sink s rt :: rs')
      else '(res, rs1) ← send_routes e rs'; Some (res, rt :: rs1)
  end.

Definition router_send (e : Event) : M (TableRouter S) unit := fun r =>
  if router_closed r then (Err (StateError "TableRouter is closed"), r)
  else
    match send_routes e (routes r) with
    | Some (res, rs) => (res, with_sinks rs (default_sink r) (router_closed r) r)
    | None =>
        match default_sink r with
        | Some d => let '(res, d') := send e d in
                    (res, with_sinks (routes r) (Some d') (router_closed r) r)
        | None =>
            if drop_unrouted r then (Ok tt, r)
            else (Err (StateError "TableRouter: no route matched and no default sink is configured"), r)
        end
    end.

(** The sinks of the router, the default one last, and putting them back. *)
Definition all_sinks (r : TableRouter S) : list S :=
  (map sink (routes r) ++ match default_sink r with Some d => [d] | None => [] end)%list.

Definition labels (r : TableRouter S) : list string :=
  (map (fun rt => "route '" +:+ pattern rt +:+ "'") (routes r) ++ ["default"])%list.

Definition put_sinks (l : list S) (c : bool) (r : TableRouter S) : TableRouter S :=
  with_sinks (zip_with with_sink l (routes r))
    (match default_sink r with Some d => Some (default d (l !! length (routes r))) | None => None end) c r.

Definition on_sinks (f : list S -> Res unit * list S) : M (TableRouter S) unit := fun r =>
  let '(res, l) := f (all_sinks r) in (res, put_sinks l (router_closed r) r).

Definition flush_all : M (TableRouter S) unit := fun r =>
  let '(fs, l) := collect_failures flush (zip (labels r) (all_sinks r)) in
  (failures <-? fs; ErrorsModel.aggregate render_failures failures, put_sinks l (router_closed r) r).

Definition close_all : M (TableRouter S) unit := fun r =>
  let '(fs, l) := collect_failures close (zip (labels r) (all_sinks r)) in
  (failures <-? fs; ErrorsModel.aggregate render_failures failures,
   put_sinks l (if is_panic fs then router_closed r else true) r).

Definition router_guarantee (r : TableRouter S) : SinkDeliveryGuarantee :=
  match all_sinks r with
  | [] => AtLeastOnce
  | l => fold_left weakest (map delivery_guarantee l) EffectivelyOnce
  end.

Definition router_queue_depth (r : TableRouter S) : Res (option Z) :=
  ds <-? depths (all_sinks r);
  Ok (match ds with [] => None | _ => Some (fold_left saturating_add ds 0) end).

#[export] Instance router_sink : SinkAdapter (TableRouter S) := {
  send := router_send;
  flush := flush_all;
  close := close_all;
  name := router_name;
  delivery_guarantee := router_guarantee;
  idempotent_delivery_capable r := forallb idempotent_delivery_capable (all_sinks r);
  transactional_checkpoint_barrier_capable r :=
    match routes r with [] => false | _ => forallb transactional_checkpoint_barrier_capable (all_sinks r) end;
  queue_depth := router_queue_depth;
  flush_tick_interval r := min_interval (all_sinks r);
  begin_checkpoint_barrier := on_sinks begin_barriers;
  commit_checkpoint_barrier := on_sinks (join_first_err commit_checkpoint_barrier);
  abort_checkpoint_barrier := on_sinks (join_first_err abort_checkpoint_barrier);
  preflight_check := on_sinks (join_first_err preflight_check);
  exported_events _ := None;
  delivery_metrics r := all_metrics (all_sinks r);
  is_closed := router_closed;
}.

End Router.

(** ** Conformance *)

Section Conformance.
Context `{BuildProfile} {S : Type} `{SinkAdapter S}.

Definition exported_len (s : S) : option nat := length <$> exported_events s.

Definition unavailable : Error := StateError "adapter exported_events became unavailable mid-test".

(** What the adapter exports at the end, compared with what it exported before. *)
Definition check_export (before : option nat) (check : nat -> list Event -> Res unit) : M S unit :=
  match before with
  | None => mret tt
  | Some b =>
      after ← gets exported_events;
      match after with
      | None => throw unavailable
      | Some l => of_res (check b l)
      end
  end.

Definition send_each (es : list Event) : M S unit := for_each es send.

Definition single_event (fixture : list Event) : M S unit :=
  match fixture with
  | [] => throw (ConfigError "single_event fixture requires at least one event")
  | first :: _ =>
      before ← gets exported_len;
      send first ;;
      flush ;;
      check_export before (fun b l =>
        if negb (Nat.eqb (length l) (b + 1)) then Err (StateError "single_event conformance expected +1 event")
        else if bool_decide (last l = Some first) then Ok tt
        else Err (StateError "single_event conformance expected last emitted event to match fixture"))
  end.

Definition batch_send (fixture : list Event) : M S unit :=
  before ← gets exported_len;
  send_each fixture ;;
  flush ;;
  check_export before (fun b l =>
    if negb (Nat.eqb (length l - b) (length fixture)) then Err (StateError "batch_send conformance count")
    else if bool_decide (b <= length l)%nat then
      if bool_decide (drop b l = fixture) then Ok tt
      else Err (StateError "batch_send conformance expected emitted tail to match fixture order")
    else Panic).

Definition ordering (fixture : list Event) : M S unit :=
  before ← gets exported_len;
  send_each fixture ;;
  flush ;;
  check_export before (fun b l =>
    if Nat.ltb (length l) b || negb (Nat.eqb (length l - b) (length fixture))
    then Err (StateError "ordering conformance observed unexpected emitted event count delta")
    else if bool_decide (drop b l = fixture) then Ok tt
    else Err (StateError "ordering conformance expected emitted sequence to preserve fixture order")).

(** [if adapter.send(first).await.is_ok() { return Err(..) }] *)
Definition send_must_fail (e : Event) : M S unit := fun s =>
  match send e s with
  | (Ok _, s1) => (Err (StateError "crash_recovery conformance expected send to fail after adapter close"), s1)
  | (Err _, s1) => (Ok tt, s1)
  | (Panic, s1) => (Panic, s1)
  end.

Definition crash_recovery (fixture : list Event) : M S unit :=
  match fixture with
  | [] => throw (ConfigError "crash_recovery fixture requires at least one event")
  | first :: _ =>
      before ← gets exported_len;
      send_each fixture ;;
      flush ;;
      close ;;
      c ← gets is_closed;
      if negb c then throw (StateError "crash_recovery conformance expected adapter to report closed state")
      else
        check_export before (fun b l =>
          if negb (Nat.eqb (length l - b) (length fixture))
          then Err (StateError "crash_recovery conformance expected new events before close") else Ok tt) ;;
        send_must_fail first
  end.

Definition run_all (fixture : list Event) : M S unit :=
  single_event fixture ;; batch_send fixture ;; ordering fixture ;; crash_recovery fixture.

End Conformance.

(** ** What a sink promises its composition *)

(** A send that succeeds adds the event to what the downstream system got; one that fails
    may have added it. *)
Class ReceiveLaws (S : Type) `{SinkAdapter S} := {
  received : S -> list Event;
  send_ok e s s' : send e s = (Ok tt, s') -> received s' = (received s ++ [e])%list;
  send_err e s err s' : send e s = (Err err, s') ->
    received s' = received s \/ received s' = (received s ++ [e])%list;
}.

(** The checkpoint barrier: a sink is idle or prepared. *)
Class BarrierLaws (S : Type) `{SinkAdapter S} := {
  idle : S -> Prop;
  prepared : S -> Prop;
  begin_idle s : idle s ->
    match begin_checkpoint_barrier s with
    | (Ok _, s') => prepared s' | (Err _, s') => idle s' | (Panic, _) => False
    end;
  abort_prepared s : prepared s ->
    fst (abort_checkpoint_barrier s) <> Panic /\ idle (snd (abort_checkpoint_barrier s));
  commit_prepared s : prepared s ->
    match commit_checkpoint_barrier s with
    | (Ok _, s') => idle s' | (Err _, _) => True | (Panic, _) => False
    end;
}.

#[export] Instance memory_receives : ReceiveLaws MemorySinkAdapter.
Proof.
  refine {| received := events |}.
  - intros e s s'. cbn. unfold memory_send. destruct (closed s); [done|]. by intros [= <-].
  - intros e s err s'. cbn. unfold memory_send. destruct (closed s); [|done].
    intros [= <- <-]. by left.
Defined.

(** ** Results of several sinks *)

Lemma first_err_ok rs : first_err rs = Ok tt <-> Forall (fun r => r = Ok tt) rs.
Proof.
  unfold first_err. split.
  - destruct (existsb is_panic rs); [done|]. induction rs as [|[[]|e|] rs IH]; simpl; [done|..]; try done.
    intros Hrs. by constructor; [|apply IH].
  - induction 1 as [|r rs -> Hrs IH]; [done|]. simpl. by destruct (existsb is_panic rs).
Qed.

Lemma first_err_panic rs : first_err rs = Panic <-> exists i, rs !! i = Some Panic.
Proof.
  unfold first_err. destruct (existsb is_panic rs) eqn:He.
  - split; [intros _|done]. apply existsb_exists in He as (r & Hin & Hr). destruct r; [done|done|].
    apply list_elem_of_In, list_elem_of_lookup in Hin. done.
  - split.
    + destruct (List.find _ rs) as [r|] eqn:Hf; [|done]. simpl. intros ->.
      apply find_some in Hf as [Hin _]. assert (existsb is_panic rs = true); [|congruence].
      apply existsb_exists. by exists Panic.
    + intros [i Hi]. assert (existsb is_panic rs = true); [|congruence].
      apply existsb_exists. exists Panic. split; [|done]. by eapply list_elem_of_In, list_elem_of_lookup_2.
Qed.

Section Composition.
Context {S : Type} `{SinkAdapter S}.

Lemma join_ok op (l l' : list S) : join_first_err op l = (Ok tt, l') ->
  Forall2 (fun s s' => op s = (Ok tt, s')) l l'.
Proof.
  intros [= Hr <-]. apply first_err_ok in Hr. rewrite Forall_map in Hr.
  induction Hr as [|s l Hs Hl IH]; constructor; [|done]. destruct (op s) as [r s'] eqn:E. by simpl in *; subst.
Qed.

Lemma join_err op (l l' : list S) e : join_first_err op l = (Err e, l') ->
  Forall2 (fun s s' => s' = snd (op s) /\ fst (op s) <> Panic) l l'.
Proof.
  intros [= Hr <-]. assert (Hp : Forall (fun s => fst (op s) <> Panic) l).
  { apply Forall_lookup. intros i s Hi Hs.
    assert (Hpanic : first_err (map (fun s => fst (op s)) l) = Panic); [|congruence].
    apply first_err_panic. exists i. by rewrite list_lookup_fmap, Hi, <- Hs. }
  clear Hr. induction Hp; constructor; auto.
Qed.

(** *** All begin, or none *)

Context `{!BarrierLaws S}.

(** The sink that refused: the ones before it began. *)
Definition refused_by (e : Error) (l : list S) : Prop :=
  exists i s, l !! i = Some s /\ fst (begin_checkpoint_barrier s) = Err e /\
    forall j s', (j < i)%nat -> l !! j = Some s' -> fst (begin_checkpoint_barrier s') = Ok tt.

Lemma begin_barriers_spec (l : list S) : Forall idle l ->
  match begin_barriers l with
  | (Ok _, l') => Forall prepared l'
  | (Err e, l') => Forall idle l' /\ refused_by e l
  | (Panic, _) => False
  end.
Proof.
  induction 1 as [|s l Hs Hl IH]; [by constructor|]. cbn [begin_barriers].
  pose proof (begin_idle s Hs) as Hb.
  destruct (begin_checkpoint_barrier s) as [[[]|e|] s1] eqn:Eb; [| |done].
  - destruct (begin_barriers l) as [[[]|e|] l1]; [by constructor| |done].
    destruct IH as [Hidle (i & s' & Hi & He & Hbefore)].
    destruct (abort_prepared s1 Hb) as [Hnp Hi2].
    destruct (abort_checkpoint_barrier s1) as [r s2]. simpl in *.
    assert (Hp : is_panic r = false) by (by destruct r). rewrite Hp. split; [by constructor|].
    exists (Datatypes.S i), s'. split; [done|]. split; [done|]. intros [|j] s'' Hj Hl''.
    + injection Hl'' as <-. by rewrite Eb.
    + apply (Hbefore j); [lia|done].
  - split; [by constructor|]. exists 0%nat, s. rewrite Eb. split; [done|]. split; [done|lia].
Qed.

Lemma join_barrier (op : M S unit) (P : S -> Prop) (l : list S) :
  (forall s, P s -> match op s with (Ok _, s') => idle s' | (Err _, _) => True | (Panic, _) => False end) ->
  Forall P l ->
  match join_first_err op l with
  | (Ok _, l') => Forall idle l' | (Err _, _) => True | (Panic, _) => False
  end.
Proof.
  intros Hop Hl. destruct (join_first_err op l) as [[[]|e|] l'] eqn:Hj; [|done|].
  - apply join_ok in Hj. revert Hl. induction Hj as [|s s' l l' Hs _ IH]; [by constructor|].
    inversion_clear 1 as [|? ? Hp Hps]. constructor; [|by apply IH].
    specialize (Hop s Hp). by rewrite Hs in Hop.
  - injection Hj as Hr _. apply first_err_panic in Hr as [i Hi]. rewrite list_lookup_fmap in Hi.
    destruct (l !! i) as [s|] eqn:Hs; [|done]. injection Hi as Hi.
    specialize (Hop s (Forall_lookup_1 _ _ _ _ Hl Hs)). destruct (op s). by simpl in Hi; subst.
Qed.

Lemma join_abort (l : list S) : Forall prepared l ->
  fst (join_first_err abort_checkpoint_barrier l) <> Panic /\
  Forall idle (snd (join_first_err abort_checkpoint_barrier l)).
Proof.
  intros Hl. split.
  - intros Hp. simpl in Hp. apply first_err_panic in Hp as [i Hi]. rewrite list_lookup_fmap in Hi.
    destruct (l !! i) as [s|] eqn:Hs; [|done]. injection Hi as Hi.
    by destruct (abort_prepared s (Forall_lookup_1 _ _ _ _ Hl Hs)).
  - simpl. apply Forall_map. eapply Forall_impl; [exact Hl|]. intros s Hs. by apply abort_prepared.
Qed.

End Composition.

(** *** The composed sinks keep the protocol themselves *)

Section FanOutLaws.
Context `{BuildProfile} {S : Type} `{SinkAdapter S} `{!BarrierLaws S}.

#[export] Instance fan_out_barrier : BarrierLaws (FanOutSinkAdapter S).
Proof.
  refine {| idle a := Forall idle (sinks a); prepared a := Forall prepared (sinks a) |}; intros a Ha;
    cbn -[join_first_err begin_barriers]; unfold on_children.
  - pose proof (begin_barriers_spec (sinks a) Ha) as Hb.
    destruct (begin_barriers (sinks a)) as [[] l]; [done|by destruct Hb|done].
  - pose proof (join_abort (sinks a) Ha) as [Hp Hi].
    destruct (join_first_err abort_checkpoint_barrier (sinks a)). by split.
  - pose proof (join_barrier commit_checkpoint_barrier prepared (sinks a) commit_prepared Ha) as Hc.
    by destruct (join_first_err commit_checkpoint_barrier (sinks a)) as [[] l].
Defined.

End FanOutLaws.

Section RouterLaws.
Context `{ErrorText} {S : Type} `{SinkAdapter S}.

Lemma put_all (r : TableRouter S) l c : length l = length (all_sinks r) -> all_sinks (put_sinks l c r) = l.
Proof.
  unfold all_sinks, put_sinks. cbn [routes default_sink with_sinks]. rewrite length_app, length_map. intros Hl.
  assert (Hmap : map sink (zip_with with_sink l (routes r)) = take (length (routes r)) l).
  { clear Hl. generalize (routes r) as rs. intros rs. revert rs.
    induction l as [|s l IH]; intros [|rt rs]; simpl; try done. by rewrite IH. }
  rewrite Hmap. destruct (default_sink r) as [d|]; simpl in Hl.
  - rewrite <- (take_drop (length (routes r)) l) at 3. f_equal.
    assert (Hd : length (drop (length (routes r)) l) = 1%nat) by (rewrite length_drop; lia).
    destruct (drop (length (routes r)) l) as [|s [|]] eqn:Ed; [done| |done].
    assert (Hs : l !! length (routes r) = Some s).
    { rewrite <- (Nat.add_0_r (length (routes r))), <- lookup_drop, Ed. done. }
    by rewrite Hs.
  - rewrite app_nil_r. apply take_ge. lia.
Qed.

Lemma begin_length (l : list S) : length (snd (begin_barriers l)) = length l.
Proof.
  induction l as [|s l IH]; [done|]. cbn [begin_barriers].
  destruct (begin_checkpoint_barrier s) as [[] s1]; [|done|done].
  destruct (begin_barriers l) as [[] l1]; simpl in *; [lia| |lia].
  destruct (abort_checkpoint_barrier s1). simpl. lia.
Qed.

Lemma join_length op (l : list S) : length (snd (join_first_err op l)) = length l.
Proof. apply length_map. Qed.

#[export] Instance router_barrier `{!BarrierLaws S} : BarrierLaws (TableRouter S).
Proof.
  refine {| idle r := Forall idle (all_sinks r); prepared r := Forall prepared (all_sinks r) |}; intros r Hr;
    cbn -[join_first_err begin_barriers]; unfold on_sinks.
  - pose proof (begin_barriers_spec (all_sinks r) Hr) as Hb. pose proof (begin_length (all_sinks r)) as Hl.
    destruct (begin_barriers (all_sinks r)) as [[] l]; simpl in Hl; rewrite ?put_all by done; [done|by destruct Hb|done].
  - pose proof (join_abort (all_sinks r) Hr) as [Hp Hi].
    pose proof (join_length abort_checkpoint_barrier (all_sinks r)) as Hl.
    destruct (join_first_err abort_checkpoint_barrier (all_sinks r)) as [res l].
    cbn [fst snd] in *. split; [done|]. by rewrite put_all.
  - pose proof (join_barrier commit_checkpoint_barrier prepared (all_sinks r) commit_prepared Hr) as Hc.
    pose proof (join_length commit_checkpoint_barrier (all_sinks r)) as Hl.
    destruct (join_first_err commit_checkpoint_barrier (all_sinks r)) as [[] l]; simpl in Hl;
      rewrite ?put_all by done; done.
Defined.

End RouterLaws.

(** A checkpoint barrier over several sinks begins everywhere or nowhere.  From sinks
    that are all idle, beginning the barrier of a fan-out over routers prepares every sink
    of every router, or returns the error of the first router that refused and leaves all
    of them idle again; from there the commit ends the barrier on every sink, and the
    abort does so even when sinks fail it. *)
Theorem barrier_begins_everywhere_or_nowhere `{BuildProfile} `{ErrorText} {S} `{SinkAdapter S}
    `{!BarrierLaws S} (a : FanOutSinkAdapter (TableRouter S))
    (Hidle : Forall (fun r => Forall idle (all_sinks r)) (sinks a)) :
  match begin_checkpoint_barrier a with
  | (Ok _, a1) =>
      Forall (fun r => Forall prepared (all_sinks r)) (sinks a1) /\
      Forall (fun r => Forall idle (all_sinks r)) (sinks (snd (abort_checkpoint_barrier a1))) /\
      (fst (commit_checkpoint_barrier a1) = Ok tt ->
       Forall (fun r => Forall idle (all_sinks r)) (sinks (snd (commit_checkpoint_barrier a1))))
  | (Err e, a1) => Forall (fun r => Forall idle (all_sinks r)) (sinks a1) /\ refused_by e (sinks a)
  | (Panic, _) => False
  end.
Proof.
  pose proof (begin_barriers_spec (sinks a) Hidle) as Hb.
  cbn [begin_checkpoint_barrier fan_out_sink]. unfold on_children at 1.
  destruct (begin_barriers (sinks a)) as [[[]|e|] l]; [|done|done].
  set (a1 := {| sinks := l |}). split; [done|]. split.
  - exact (proj2 (abort_prepared a1 Hb)).
  - intros Hok. pose proof (commit_prepared a1 Hb) as Hc.
    destruct (commit_checkpoint_barrier a1) as [r a2]. simpl in Hok. by subst r.
Qed.

(** ** Routing *)

Fixpoint first_index {A} (p : A -> bool) (l : list A) : option nat :=
  match l with
  | [] => None
  | a :: l' => if p a then Some 0%nat else Datatypes.S <$> first_index p l'
  end.

Lemma first_index_spec {A} (p : A -> bool) (l : list A) i :
  first_index p l = Some i <->
  (exists a, l !! i = Some a /\ p a = true) /\ forall j a, (j < i)%nat -> l !! j = Some a -> p a = false.
Proof.
  revert i. induction l as [|a l IH]; intros i; simpl.
  { split; [done|]. by intros [(x & Hx & _) _]. }
  destruct (p a) eqn:Ha.
  - split.
    + intros [= <-]. split; [by exists a|lia].
    + intros [_ Hb]. destruct i as [|i]; [done|]. by rewrite (Hb 0%nat a) in Ha; [|lia|].
  - destruct (first_index p l) as [k|] eqn:Hk; simpl.
    + split.
      * intros [= <-]. destruct (proj1 (IH k) eq_refl) as [(x & Hx & Hpx) Hb]. split; [by exists x|].
        intros [|j] y Hj Hy; [by injection Hy as <-|]. apply (Hb j); [lia|done].
      * intros [(x & Hx & Hpx) Hb]. destruct i as [|i]; [injection Hx as ->; congruence|].
        f_equal. assert (Some k = Some i) as [= <-]; [|done]. apply IH. split; [by exists x|].
        intros j y Hj Hy. apply (Hb (Datatypes.S j)); [lia|done].
    + split; [done|]. intros [(x & Hx & Hpx) Hb]. destruct i as [|i]; [injection Hx as ->; congruence|].
      enough (None = Some i) by done. apply IH. split; [by exists x|].
      intros j y Hj Hy. apply (Hb (Datatypes.S j)); [lia|done].
Qed.

Section Routing.
Context `{ErrorText} {S : Type} `{SinkAdapter S} `{!ReceiveLaws S}.
Implicit Types (r : TableRouter S) (rs : list (TableRoute S)).

(** The route that takes an event: the first whose pattern matches. *)
Definition target (rs : list (TableRoute S)) (e : Event) : option nat := first_index (matches e) rs.

(** Two lists of routes that differ in the state of the sinks only. *)
Definition same_patterns rs rs' : Prop := map pattern rs = map pattern rs'.

Lemma target_same rs rs' e : same_patterns rs rs' -> target rs e = target rs' e.
Proof.
  unfold same_patterns, target. revert rs'. induction rs as [|rt rs IH]; intros [|rt' rs']; try done.
  simpl. intros [= Hp Hrs]. assert (matches e rt = matches e rt') as -> by (unfold matches; by rewrite Hp).
  by rewrite (IH rs').
Qed.

(** A send reaches the target and no other sink. *)
Lemma send_routes_spec e rs :
  match target rs e with
  | None => send_routes e rs = None
  | Some i => exists rt res s, rs !! i = Some rt /\ send e (sink rt) = (res, s) /\
                send_routes e rs = Some (res, <[i := with_sink s rt]> rs)
  end.
Proof.
  unfold target. induction rs as [|rt rs IH]; [done|]. simpl.
  destruct (matches e rt).
  - destruct (send e (sink rt)) as [res s] eqn:Hs. by exists rt, res, s.
  - destruct (first_index (matches e) rs) as [i|]; simpl.
    + destruct IH as (rt' & res & s & Hi & Hs & ->). by exists rt', res, s.
    + by rewrite IH.
Qed.

Definition tally (e : Event) (hit : bool) : list Event := if hit then [e] else [].

Lemma router_send_ok e r r' : router_send e r = (Ok tt, r') ->
  same_patterns (routes r) (routes r') /\ drop_unrouted r' = drop_unrouted r /\
  (forall i rt, routes r !! i = Some rt -> exists rt', routes r' !! i = Some rt' /\
     received (sink rt') = (received (sink rt) ++ tally e (bool_decide (target (routes r) e = Some i)))%list) /\
  (forall d, default_sink r = Some d -> exists d', default_sink r' = Some d' /\
     received d' = (received d ++ tally e (bool_decide (target (routes r) e = None)))%list) /\
  (default_sink r = None -> default_sink r' = None /\
     (drop_unrouted r = false -> target (routes r) e <> None)).
Proof.
  unfold router_send. destruct (router_closed r); [done|].
  pose proof (send_routes_spec e (routes r)) as Hs.
  destruct (target (routes r) e) as [i|] eqn:Ht.
  - destruct Hs as (rt & res & s & Hi & Hsend & ->). intros [= -> <-]. cbn.
    split.
    { unfold same_patterns. rewrite list_fmap_insert. symmetry. apply list_insert_id.
      by rewrite list_lookup_fmap, Hi. }
    split; [done|]. split; [|split].
    + intros j rt' Hj. destruct (decide (i = j)) as [<-|Hne].
      * assert (rt' = rt) as -> by congruence. exists (with_sink s rt). split.
        { apply list_lookup_insert_eq. by eapply lookup_lt_Some. }
        rewrite (bool_decide_true (Some i = Some i)) by done. cbn. by eapply send_ok.
      * exists rt'. split; [by rewrite list_lookup_insert_ne|].
        rewrite bool_decide_false by congruence. cbn. by rewrite app_nil_r.
    + intros d Hd. exists d. split; [done|]. cbn. by rewrite app_nil_r.
    + done.
  - rewrite Hs. assert (Hrest : forall i rt, routes r !! i = Some rt -> exists rt', routes r !! i = Some rt' /\
      received (sink rt') = (received (sink rt) ++ tally e (bool_decide (@None nat = Some i)))%list).
    { intros i rt Hi. exists rt. split; [done|]. cbn. by rewrite app_nil_r. }
    destruct (default_sink r) as [d|] eqn:Ed.
    + destruct (send e d) as [res d'] eqn:Hd. intros [= -> <-]. cbn. split; [done|]. split; [done|].
      split; [done|]. split; [|done]. intros d0 [= <-]. exists d'. split; [done|]. by eapply send_ok.
    + destruct (drop_unrouted r) eqn:Edr; [|done]. intros [= <-]. rewrite Ed. by split_and!.
Qed.

(** The router partitions the stream.  When every send of a sequence of events
    succeeds, each route's sink has received, in order, exactly the events whose first
    matching pattern is that route's, the default sink exactly those no pattern matches,
    and no event is dropped unless the router was told to drop unrouted ones. *)
Theorem router_partitions_stream es r r' (Hrun : for_each es send r = (Ok tt, r')) :
  (forall i rt, routes r !! i = Some rt -> exists rt', routes r' !! i = Some rt' /\
     pattern rt' = pattern rt /\
     received (sink rt') =
       (received (sink rt) ++ List.filter (fun e => bool_decide (target (routes r) e = Some i)) es)%list) /\
  (forall d, default_sink r = Some d -> exists d', default_sink r' = Some d' /\
     received d' =
       (received d ++ List.filter (fun e => bool_decide (target (routes r) e = None)) es)%list) /\
  (default_sink r = None -> drop_unrouted r = false ->
     Forall (fun e => target (routes r) e <> None) es).
Proof.
  revert r Hrun. induction es as [|e es IH]; intros r; cbn [for_each].
  { intros [= <-]. split_and!; [intros i rt Hi; exists rt|intros d Hd; exists d|done];
      split_and?; try done; by rewrite app_nil_r. }
  intros Hrun. apply bind_inv in Hrun as ([] & r1 & Hsend & Hrest). cbn [send router_sink] in Hsend.
  destruct (router_send_ok e r r1 Hsend) as (Hpat & Hdrop & Hroutes & Hdef & Hnone).
  destruct (IH r1 Hrest) as (IHr & IHd & IHn).
  assert (Ht : forall e0, target (routes r1) e0 = target (routes r) e0)
    by (intros e0; symmetry; by apply target_same).
  assert (Hf : forall o, List.filter (fun e0 => bool_decide (target (routes r1) e0 = o)) es =
                         List.filter (fun e0 => bool_decide (target (routes r) e0 = o)) es).
  { intros o. apply List.filter_ext. intros e0. apply bool_decide_ext. by rewrite Ht. }
  assert (Hf0 : List.filter (fun e0 => bool_decide (target (routes r1) e0 = None)) es =
                List.filter (fun e0 => bool_decide (target (routes r) e0 = None)) es).
  { apply List.filter_ext. intros e0. apply bool_decide_ext. by rewrite Ht. }
  split_and!.
  - intros i rt Hi. destruct (Hroutes i rt Hi) as (rt1 & H1 & Hrec1).
    destruct (IHr i rt1 H1) as (rt2 & H2 & Hp2 & Hrec2). exists rt2. split; [done|]. split.
    + rewrite Hp2. unfold same_patterns in Hpat. apply (f_equal (.!! i)) in Hpat.
      rewrite !list_lookup_fmap, Hi, H1 in Hpat. by injection Hpat.
    + rewrite Hrec2, Hrec1, Hf. cbn [List.filter]. rewrite <- app_assoc.
      by destruct (bool_decide (target (routes r) e = Some i)).
  - intros d Hd. destruct (Hdef d Hd) as (d1 & H1 & Hrec1). destruct (IHd d1 H1) as (d2 & H2 & Hrec2).
    exists d2. split; [done|]. rewrite Hrec2, Hrec1, Hf0. cbn [List.filter].
    rewrite <- app_assoc. by destruct (bool_decide (target (routes r) e = None)).
  - intros Hn Hd. destruct (Hnone Hn) as [Hn1 Ht1]. constructor; [by apply Ht1|].
    eapply Forall_impl; [apply IHn; congruence|]. intros e0 He0. by rewrite <- Ht.
Qed.

End Routing.

(** ** Retrying a fan-out *)

Section Retry.
Context `{BuildProfile} {S : Type} `{SinkAdapter S} `{!ReceiveLaws S}.

(** The answers of a sequence of sends, failures included. *)
Fixpoint send_log (es : list Event) (a : FanOutSinkAdapter S)
    : list (Event * Res unit) * FanOutSinkAdapter S :=
  match es with
  | [] => ([], a)
  | e :: es' =>
      let '(r, a1) := send e a in
      let '(log, a2) := send_log es' a1 in ((e, r) :: log, a2)
  end.

(** A consumer that repeats an event until it is accepted, and delivers [es]. *)
Inductive retried : list (Event * Res unit) -> list Event -> Prop :=
| retried_nil : retried [] []
| retried_ok e log es : retried log es -> retried ((e, Ok tt) :: log) (e :: es)
| retried_again e err log es : retried log (e :: es) -> retried ((e, Err err) :: log) (e :: es).

(** [l] is [es] with every element repeated once or more. *)
Inductive stutters : list Event -> list Event -> Prop :=
| stutters_nil : stutters [] []
| stutters_first e es l : stutters es l -> stutters (e :: es) (e :: l)
| stutters_again e es l : stutters (e :: es) l -> stutters (e :: es) (e :: l).

(** A retried fan-out is at-least-once for every child.  When the consumer repeats
    each event until the fan-out accepts it, every child sink has received every event at
    least once, in order, with repetitions next to each other only, whichever children
    failed on the way. *)
Theorem fan_out_retry_at_least_once attempts es (a : FanOutSinkAdapter S) log a'
    (Hrun : send_log attempts a = (log, a')) (Hretried : retried log es) :
  Forall2 (fun s s' => exists l, received s' = (received s ++ l)%list /\ stutters es l) (sinks a) (sinks a').
Proof.
  revert a log es Hrun Hretried. induction attempts as [|e attempts IH]; intros a log es; cbn [send_log].
  { intros [= <- <-] Hr. inversion Hr; subst. apply Forall_Forall2_diag, Forall_true. intros s. exists [].
    split; [by rewrite app_nil_r|constructor]. }
  destruct (send e a) as [r a1] eqn:Hs. destruct (send_log attempts a1) as [log1 a2] eqn:Hlog.
  intros [= <- <-] Hr. cbn -[join_first_err] in Hs. unfold on_children in Hs.
  destruct (join_first_err (send e) (sinks a)) as [r1 l1] eqn:Hj. injection Hs as <- <-.
  inversion Hr as [|? ? ? Hr'|? ? ? ? Hr']; subst.
  - specialize (IH _ _ _ Hlog Hr'). eapply (Forall2_trans _ _ _ _ l1); [|by apply join_ok|exact IH].
    intros s s1 s2 Hs1 (l & Hl & Hst). exists (e :: l). split; [|by constructor].
    rewrite Hl, (send_ok _ _ _ Hs1), <- app_assoc. done.
  - specialize (IH _ _ _ Hlog Hr'). eapply (Forall2_trans _ _ _ _ l1); [|by eapply join_err|exact IH].
    intros s s1 s2 [-> Hnp] (l & Hl & Hst). rewrite Hl.
    destruct (send e s) as [[[]|e0|] s1] eqn:Hs; cbn [snd].
    + exists (e :: l). split; [|by constructor]. by rewrite (send_ok _ _ _ Hs), <- app_assoc.
    + destruct (send_err _ _ _ _ Hs) as [->| ->]; [by exists l|]. exists (e :: l).
      rewrite <- app_assoc. split; [done|by constructor].
    + done.
Qed.

End Retry.

(** ** Guarantees and conformance *)

(** The guarantee of a composition is the strongest one that every sink keeps. *)
Lemma weakest_of_all (l : list SinkDeliveryGuarantee) g :
  strength g <= strength (fold_left weakest l EffectivelyOnce) <->
  Forall (fun h => strength g <= strength h) l.
Proof.
  assert (Hw : forall a b, strength g <= strength (weakest a b) <->
    strength g <= strength a /\ strength g <= strength b).
  { intros a b. unfold weakest. destruct (Z.leb_spec (strength a) (strength b)); lia. }
  assert (Hgen : forall a, strength g <= strength (fold_left weakest l a) <->
    strength g <= strength a /\ Forall (fun h => strength g <= strength h) l).
  { induction l as [|h l IH]; intros a; simpl.
    - split; [by split|by intros [? _]].
    - rewrite IH, Hw, Forall_cons. tauto. }
  rewrite Hgen. split; [by intros [_ ?]|]. split; [destruct g; simpl; lia|done].
Qed.

(** The in-memory sink passes the conformance suite, which sends the fixture over and over
    and closes the sink. *)
Lemma memory_sink_conforms s first rest : closed s = false ->
  exists s', run_all (first :: rest) s = (Ok tt, s') /\
    events s' = (events s ++ first :: (first :: rest) ++ (first :: rest) ++ first :: rest)%list /\
    closed s' = true.
Proof.
  remember (first :: rest) as fixture eqn:Hfx. intros Hs.
  assert (Heach : forall es m, closed m = false -> for_each es send m =
    (Ok tt, {| memory_name := memory_name m; events := (events m ++ es)%list; closed := false |})).
  { induction es as [|e es IH]; intros m Hm; cbn [for_each].
    - rewrite app_nil_r. destruct m. simpl in Hm. by subst.
    - erewrite bind_ok; [|cbn; unfold memory_send; by rewrite Hm]. rewrite IH by done. cbn.
      by rewrite <- app_assoc. }
  assert (Hpass : forall m check, closed m = false ->
    check (length (events m)) (events m ++ fixture)%list = Ok tt ->
    (before ← gets exported_len; send_each fixture ;; flush ;; check_export before check) m =
    (Ok tt, {| memory_name := memory_name m; events := (events m ++ fixture)%list; closed := false |})).
  { intros m check Hm Hc. rewrite bind_eq. cbn [gets]. unfold send_each.
    rewrite (bind_ok _ _ _ _ _ (Heach fixture m Hm)). cbn.
    rewrite bind_eq. unfold memory_flush. cbn. rewrite bind_eq. cbn. unfold of_res. by rewrite Hc. }
  assert (Hd : forall m, drop (length (events m)) (events m ++ fixture)%list = fixture)
    by (intros m; by rewrite drop_app_length).
  assert (Hlen : forall m, (length (events m ++ fixture) - length (events m) = length fixture)%nat)
    by (intros m; rewrite length_app; lia).
  unfold run_all. set (m1 := {| memory_name := memory_name s; events := (events s ++ [first])%list; closed := false |}).
  assert (H1 : single_event fixture s = (Ok tt, m1)).
  { unfold single_event. rewrite Hfx, bind_eq. unfold gets at 1.
    rewrite (bind_ok (send first) _ s tt m1) by (cbn; unfold memory_send; by rewrite Hs).
    rewrite (bind_ok flush _ m1 tt m1) by done. unfold check_export. cbn. rewrite bind_eq. cbn.
    unfold of_res. rewrite length_app. cbn. rewrite Nat.eqb_refl. cbn.
    by rewrite bool_decide_true by apply last_snoc. }
  rewrite (bind_ok _ _ _ _ _ H1). set (m2 := {| memory_name := memory_name s; events := (events m1 ++ fixture)%list; closed := false |}).
  assert (H2 : batch_send fixture m1 = (Ok tt, m2)).
  { unfold batch_send. rewrite Hpass; [done|done|]. rewrite Hlen, Nat.eqb_refl. cbn [negb].
    rewrite bool_decide_true by (rewrite length_app; lia). by rewrite bool_decide_true. }
  rewrite (bind_ok _ _ _ _ _ H2). set (m3 := {| memory_name := memory_name s; events := (events m2 ++ fixture)%list; closed := false |}).
  assert (H3 : ordering fixture m2 = (Ok tt, m3)).
  { unfold ordering. rewrite Hpass; [done|done|].
    rewrite (proj2 (Nat.ltb_ge _ _)) by (rewrite length_app; lia). rewrite Hlen, Nat.eqb_refl. cbn [negb orb].
    by rewrite bool_decide_true. }
  rewrite (bind_ok _ _ _ _ _ H3). clear H1 H2 H3. subst fixture. unfold crash_recovery.
  rewrite bind_eq. cbn [gets]. unfold send_each. rewrite (bind_ok _ _ _ _ _ (Heach (first :: rest) m3 eq_refl)).
  rewrite (bind_ok flush _ _ tt _) by done. rewrite (bind_ok close _ _ tt _) by done.
  rewrite bind_eq. unfold gets at 1. cbn [is_closed memory_sink closed negb].
  unfold check_export, exported_len. cbn [exported_events memory_sink fmap option_fmap option_map].
  rewrite bind_eq, bind_eq. unfold gets at 1. cbv beta iota. unfold of_res at 1. cbn [events].
  rewrite (Hlen m3), Nat.eqb_refl. cbn [negb]. eexists. split; [done|]. cbn. split; [|done].
  by rewrite <- !app_assoc.
Qed.

(** ** Witnesses *)

Module Demo.

(** A sink with a script of sends that fail, one that refuses barriers or not. *)
Record Scripted := { got : list Event; fails : list bool; refuses : bool; in_barrier : bool }.

Definition scripted (f : list bool) (r : bool) : Scripted :=
  {| got := []; fails := f; refuses := r; in_barrier := false |}.

Definition scripted_send (e : Event) : M Scripted unit := fun s =>
  let fail := default false (head (fails s)) in
  (if fail then Err (SourceError "unreachable") else Ok tt,
   {| got := if fail then got s else got s ++ [e]; fails := tail (fails s); refuses := refuses s;
      in_barrier := in_barrier s |}).

Definition set_barrier (b : bool) (s : Scripted) : Scripted :=
  {| got := got s; fails := fails s; refuses := refuses s; in_barrier := b |}.

#[export] Instance scripted_sink : SinkAdapter Scripted := {
  send := scripted_send;
  flush := mret tt;
  close := mret tt;
  name _ := "scripted";
  delivery_guarantee _ := EffectivelyOnce;
  idempotent_delivery_capable _ := true;
  transactional_checkpoint_barrier_capable _ := true;
  queue_depth _ := Ok None;
  flush_tick_interval _ := None;
  begin_checkpoint_barrier s :=
    if refuses s then (Err (StateError "busy"), s) else (Ok tt, set_barrier true s);
  commit_checkpoint_barrier s := (Ok tt, set_barrier false s);
  abort_checkpoint_barrier s := (Err (StateError "nothing to undo"), set_barrier false s);
  preflight_check := mret tt;
  exported_events s := Some (got s);
  delivery_metrics _ := None;
  is_closed _ := false;
}.

#[export] Instance scripted_receives : ReceiveLaws Scripted.
Proof.
  refine {| received := got |}; intros e s; cbn; unfold scripted_send.
  - intros s'. by destruct (default false (head (fails s))); intros [= <-].
  - intros err s'. destruct (default false (head (fails s))); intros [= <- <-]. by left.
Defined.

#[export] Instance scripted_barrier : BarrierLaws Scripted.
Proof.
  refine {| idle s := in_barrier s = false; prepared s := in_barrier s = true |}; intros s Hs; cbn.
  - by destruct (refuses s).
  - done.
  - done.
Defined.

#[export] Instance text : ErrorText := fun _ => "".
#[export] Instance profile : BuildProfile := true.

Definition row (t : string) : Event := Event.builder t Event.Insert.

Definition router (refusing : bool) : TableRouter Scripted :=
  build_unchecked (set_default (scripted [] false)
    (route "aud*" (scripted [] refusing) (route "orders" (scripted [] false) (builder "demo")))).

End Demo.

Import Demo.

Definition demo_fan : FanOutSinkAdapter (TableRouter Scripted) := {| sinks := [router false; router true] |}.

Lemma barrier_begins_everywhere_or_nowhere_witness :
  Forall (fun r => Forall idle (all_sinks r)) (sinks demo_fan) /\
  match begin_checkpoint_barrier demo_fan with
  | (Ok _, a1) =>
      Forall (fun r => Forall prepared (all_sinks r)) (sinks a1) /\
      Forall (fun r => Forall idle (all_sinks r)) (sinks (snd (abort_checkpoint_barrier a1))) /\
      (fst (commit_checkpoint_barrier a1) = Ok tt ->
       Forall (fun r => Forall idle (all_sinks r)) (sinks (snd (commit_checkpoint_barrier a1))))
  | (Err e, a1) => Forall (fun r => Forall idle (all_sinks r)) (sinks a1) /\ refused_by e (sinks demo_fan)
  | (Panic, _) => False
  end.
Proof.
  assert (Hi : Forall (fun r => Forall idle (all_sinks r)) (sinks demo_fan)) by (repeat constructor).
  split; [exact Hi|]. exact (barrier_begins_everywhere_or_nowhere demo_fan Hi).
Defined.

Definition demo_rows : list Event := map row ["orders"; "audit"; "users"; "orders"].
Definition demo_routed : TableRouter Scripted := snd (for_each demo_rows send (router false)).

Lemma router_partitions_stream_witness :
  for_each demo_rows send (router false) = (Ok tt, demo_routed) /\
  exists d', default_sink demo_routed = Some d' /\
    received d' =
      ([] ++ List.filter (fun e => bool_decide (target (routes (router false)) e = None)) demo_rows)%list.
Proof.
  assert (Hrun : for_each demo_rows send (router false) = (Ok tt, demo_routed)) by reflexivity.
  split; [exact Hrun|].
  exact (proj1 (proj2 (router_partitions_stream demo_rows (router false) demo_routed Hrun))
           (scripted [] false) eq_refl).
Defined.

(** The second child fails its first send; the consumer repeats it. *)
Definition demo_pair : FanOutSinkAdapter Scripted :=
  {| sinks := [scripted [] false; scripted [true] false] |}.
Definition demo_attempts : list Event := map row ["a"; "a"; "b"].

Lemma fan_out_retry_at_least_once_witness :
  retried (fst (send_log demo_attempts demo_pair)) (map row ["a"; "b"]) /\
  Forall2 (fun s s' => exists l, received s' = (received s ++ l)%list /\ stutters (map row ["a"; "b"]) l)
    (sinks demo_pair) (sinks (snd (send_log demo_attempts demo_pair))).
Proof.
  assert (Hr : retried (fst (send_log demo_attempts demo_pair)) (map row ["a"; "b"])).
  { cbn. apply retried_again. apply retried_ok. apply retried_ok. apply retried_nil. }
  split; [exact Hr|].
  exact (fan_out_retry_at_least_once demo_attempts (map row ["a"; "b"]) demo_pair _ _
    (surjective_pairing _) Hr).
Defined.

End Sinks.
