(* ===== verification/FileSink.v ===== *)
(** * FileSink: the append-only file sink

    Models [FileJsonlSink] of [src/src/sink/file_jsonl.rs] on the file system of [Fs]: the
    pending batch, the buffered writer, rotation by size and the cadence of [sync_data].
    The path is a name in the directory of the model.  The writer keeps what it was given
    until its buffer is full, and after a failed write the rest of the buffer. *)

From S2P Require Import Prelude Errors Strs Json Event Monad Bytes Fs Sinks.

Module FileSink.
Import Sinks.

Local Open Scope string_scope.
Local Open Scope Z_scope.

Definition BATCH_MAX_LINES : nat := 128.
Definition BATCH_MAX_BYTES : nat := Z.to_nat (256 * 1024).
Definition WRITE_BUF_CAPACITY : nat := Z.to_nat (64 * 1024).

Record FileJsonlSinkConfig := { rotate_size_bytes : Z; fsync_every : Z }.

Definition default_config : FileJsonlSinkConfig := {| rotate_size_bytes := 0; fsync_every := 1 |}.

Record FileJsonlSink := {
  world : World;
  handle : nat;
  buffer : bytes;
  path : string;
  config : FileJsonlSinkConfig;
  flush_count : Z;
  rotation_count : Z;
  bytes_written : Z;
  file_events_sent : Z;
  pending_lines : list bytes;
  file_closed : bool
}.

(** [pending_bytes] is the total of the pending lines. *)
Definition pending_bytes (s : FileJsonlSink) : nat := length (concat (pending_lines s)).

Definition with_world (w : World) (s : FileJsonlSink) : FileJsonlSink :=
  {| world := w; handle := handle s; buffer := buffer s; path := path s; config := config s;
     flush_count := flush_count s; rotation_count := rotation_count s; bytes_written := bytes_written s;
     file_events_sent := file_events_sent s; pending_lines := pending_lines s; file_closed := file_closed s |}.
Definition with_writer (h : nat) (b : bytes) (n : Z) (s : FileJsonlSink) : FileJsonlSink :=
  {| world := world s; handle := h; buffer := b; path := path s; config := config s;
     flush_count := flush_count s; rotation_count := rotation_count s; bytes_written := n;
     file_events_sent := file_events_sent s; pending_lines := pending_lines s; file_closed := file_closed s |}.
Definition with_counts (f r : Z) (s : FileJsonlSink) : FileJsonlSink :=
  {| world := world s; handle := handle s; buffer := buffer s; path := path s; config := config s;
     flush_count := f; rotation_count := r; bytes_written := bytes_written s;
     file_events_sent := file_events_sent s; pending_lines := pending_lines s; file_closed := file_closed s |}.
Definition with_pending (l : list bytes) (n : Z) (c : bool) (s : FileJsonlSink) : FileJsonlSink :=
  {| world := world s; handle := handle s; buffer := buffer s; path := path s; config := config s;
     flush_count := flush_count s; rotation_count := rotation_count s; bytes_written := bytes_written s;
     file_events_sent := n; pending_lines := l; file_closed := c |}.

Definition on_world {A} (m : M World A) : M FileJsonlSink A := fun s =>
  let '(r, w) := m (world s) in (r, with_world w s).

(** ** Opening *)

(** [fs::create_dir_all(parent)] *)
Definition create_dir_all : M World (IoResult unit) :=
  syscall nothing (fun w =>
    match dir_state w with
    | NotADirectory => (inr OtherIo, w)
    | _ => (inl tt, {| dir_state := Directory; entries := entries w; past_entries := past_entries w;
                       inodes := inodes w; faults := faults w; times := times w; umask := umask w;
                       lease_refs := lease_refs w; lease_refs_poisoned := lease_refs_poisoned w |})
    end).

(** [OpenOptions::new().create(true).append(true).open(name)] *)
Definition open_append (name : string) : M World (IoResult nat) :=
  syscall nothing (fun w =>
    match dir_state w with
    | Directory =>
        match entries w !! name with
        | Some i => (inl i, w)
        | None =>
            let i := fresh (dom (inodes w)) in
            let ino := {| content := []; mode := Z.land 438 (Z.lnot (umask w));
                          mtime := touch w; synced := false |} in
            (inl i, set_entries (<[name := i]> (entries w)) (set_inodes (<[i := ino]> (inodes w)) w))
        end
    | _ => (inr NotFound, w)
    end).

(** [file.metadata().map(|m| m.len()).unwrap_or(0)] *)
Definition file_len (i : nat) : M World Z :=
  r ← syscall nothing (fun w =>
        match inodes w !! i with
        | Some n => (inl (Z.of_nat (length (content n))), w)
        | None => (inr NotFound, w)
        end);
  mret (match r with inl n => n | inr _ => 0 end).

Definition open_with (name : string) (cfg : FileJsonlSinkConfig) : M World FileJsonlSink := fun w =>
  (map_err (fun _ => StateError "FileJsonlSink: could not create parent directory") (io_try create_dir_all) ;;
   i ← map_err (fun _ => StateError "FileJsonlSink: could not open") (io_try (open_append name));
   n ← file_len i;
   w ← gets id;
   mret {| world := w; handle := i; buffer := []; path := name;
           config := {| rotate_size_bytes := rotate_size_bytes cfg;
                        fsync_every := Z.max (fsync_every cfg) 1 |};
           flush_count := 0; rotation_count := 0; bytes_written := n; file_events_sent := 0;
           pending_lines := []; file_closed := false |}) w.

(** ** The buffered writer *)

(** What a failed write of [l] left unwritten is still in the buffer. *)
Definition flush_buf : M FileJsonlSink unit := fun s =>
  match buffer s with
  | [] => (Ok tt, s)
  | b =>
      let '(r, w) := write_all (handle s) b (world s) in
      let keep := match faults (world s) with Fails k :: _ => drop k b | _ => b end in
      match r with
      | Ok (inl _) => (Ok tt, with_writer (handle s) [] (bytes_written s) (with_world w s))
      | Ok (inr _) => (Err (IoError "i/o error"), with_writer (handle s) keep (bytes_written s) (with_world w s))
      | Err e => (Err e, with_world w s)
      | Panic => (Panic, with_world w s)
      end
  end.

Definition writer_write_all (line : bytes) : M FileJsonlSink unit :=
  s ← gets id;
  (if (WRITE_BUF_CAPACITY <? length (buffer s) + length line)%nat then flush_buf else mret tt) ;;
  if (WRITE_BUF_CAPACITY <=? length line)%nat
  then on_world (io_try (write_all (handle s) line))
  else modify (fun s => with_writer (handle s) (buffer s ++ line) (bytes_written s) s).

(** ** Rotation *)

(** [Path::file_stem] and [Path::extension] of a file name. *)
Definition stem_and_extension (name : string) : string * option string :=
  match rsplit_once "." name with
  | Some (stem, ext) => if is_empty stem then (name, None) else (stem, Some ext)
  | None => (name, None)
  end.

Definition rotated_path (name : string) (timestamp_ms rotation : Z) : string :=
  let '(stem, ext) := stem_and_extension name in
  stem +:+ "." +:+ show timestamp_ms +:+ "." +:+ show rotation +:+
    match ext with Some e => "." +:+ e | None => "" end.

Definition rotate : M FileJsonlSink unit :=
  flush_buf ;;
  s ← gets id;
  on_world (io_try (sync_all (handle s))) ;;
  ts ← on_world now;
  modify (fun s => with_counts (flush_count s) (saturating_add (rotation_count s) 1) s) ;;
  s ← gets id;
  on_world (io_try (rename (path s) (rotated_path (path s) ts (rotation_count s)))) ;;
  new_file ← on_world (io_try (open_append (path s)));
  modify (with_writer new_file [] 0).

Section Ops.
Context `{BuildProfile} `{EventJson}.

Definition add_written (n : Z) : M FileJsonlSink unit := fun s =>
  match u64_add (bytes_written s) n with
  | Some t => (Ok tt, with_writer (handle s) (buffer s) t s)
  | None => (Panic, s)
  end.

Definition write_line (line : bytes) : M FileJsonlSink unit := fun s =>
  let len := Z.of_nat (length line) in
  ((if (0 <? rotate_size_bytes (config s)) && (0 <? bytes_written s) then
      match u64_add (bytes_written s) len with
      | Some total => if rotate_size_bytes (config s) <? total then rotate else mret tt
      | None => of_res Panic
      end
    else mret tt) ;;
   writer_write_all line ;;
   add_written len) s.

Definition flush_writer : M FileJsonlSink unit :=
  flush_buf ;;
  modify (fun s => with_counts ((flush_count s + 1) mod 2 ^ 32) (rotation_count s) s) ;;
  s ← gets id;
  if flush_count s mod fsync_every (config s) =? 0
  then on_world (io_try (sync_all (handle s)))
  else mret tt.

Definition flush_pending : M FileJsonlSink unit := fun s =>
  match pending_lines s with
  | [] => flush_writer s
  | batch =>
      (modify (fun s => with_pending [] (file_events_sent s) (file_closed s) s) ;;
       for_each batch write_line ;;
       flush_writer) s
  end.

Definition closed_err : Error := StateError "FileJsonlSink is closed".

Definition file_send (e : Event) : M FileJsonlSink unit := fun s =>
  if file_closed s then (Err closed_err, s)
  else
    (json ← of_res (event_compact e);
     let line := (json ++ [Byte.x0a])%list in
     (fun s =>
        match u64_add (file_events_sent s) 1 with
        | Some n => (Ok tt, with_pending (pending_lines s ++ [line]) n (file_closed s) s)
        | None => (Panic, with_pending (pending_lines s ++ [line]) (file_events_sent s) (file_closed s) s)
        end) ;;
     s ← gets id;
     if (BATCH_MAX_LINES <=? length (pending_lines s))%nat || (BATCH_MAX_BYTES <=? pending_bytes s)%nat
     then flush_pending else mret tt) s.

Definition file_flush : M FileJsonlSink unit := fun s =>
  if file_closed s then (Err closed_err, s) else flush_pending s.

Definition file_close : M FileJsonlSink unit := fun s =>
  if file_closed s then (Ok tt, s)
  else
    (flush_pending ;;
     s ← gets id;
     on_world (io_try (sync_all (handle s))) ;;
     modify (fun s => with_pending (pending_lines s) (file_events_sent s) true s)) s.

#[export] Instance file_sink : SinkAdapter FileJsonlSink := {
  send := file_send;
  flush := file_flush;
  close := file_close;
  name _ := "file-jsonl";
  delivery_guarantee _ := AtLeastOnce;
  idempotent_delivery_capable _ := false;
  transactional_checkpoint_barrier_capable _ := false;
  queue_depth s := Ok (Some (Z.of_nat (length (pending_lines s))));
  flush_tick_interval _ := None;
  begin_checkpoint_barrier := mret tt;
  commit_checkpoint_barrier := mret tt;
  abort_checkpoint_barrier := mret tt;
  preflight_check := mret tt;
  exported_events _ := None;
  delivery_metrics s := Some {| events_sent := file_events_sent s; events_errored := 0;
                                events_retried := 0; last_delivered_offset := None |};
  is_closed := file_closed;
}.

End Ops.

(** ** Names of archives *)

Lemma show_inj m n : 0 <= m -> 0 <= n -> show m = show n -> m = n.
Proof.
  intros Hm Hn He. assert (Some m = Some n) as [=]; [|done].
  rewrite <- (parse_show (Z.max m n) m), <- (parse_show (Z.max m n) n) by lia. by rewrite He.
Qed.

Lemma rotated_inj name t1 t2 k1 k2 : 0 <= t1 -> 0 <= t2 -> 0 <= k1 -> 0 <= k2 ->
  rotated_path name t1 k1 = rotated_path name t2 k2 -> k1 = k2.
Proof.
  intros Ht1 Ht2 Hk1 Hk2. unfold rotated_path. destruct (stem_and_extension name) as [stem ext].
  intros He. apply append_inj_l in He. injection He as He.
  assert (Hd : forall t k, 0 <= t -> split_once "." (show t +:+ String "." k) = Some (show t, k)).
  { intros t k Ht. apply split_once_here. by apply show_no_char. }
  apply (f_equal (split_once ".")) in He. cbn [String.append] in He.
  rewrite !Hd in He by done. injection He as _ He.
  destruct ext as [ext|].
  - apply (f_equal (split_once ".")) in He. cbn [String.append] in He.
    rewrite !Hd in He by done. injection He as He. by apply show_inj.
  - rewrite !append_nil_r in He. by apply show_inj.
Qed.

Lemma rotated_not_path name t k : rotated_path name t k <> name.
Proof.
  unfold rotated_path, stem_and_extension. intros He. apply (f_equal String.length) in He.
  destruct (rsplit_once "." name) as [[stem ext]|] eqn:Hs.
  - apply rsplit_once_spec in Hs as [-> _]. destruct (is_empty stem);
      rewrite !string_length_app in He; simpl in He; rewrite ?string_length_app in He; simpl in He; lia.
  - rewrite !string_length_app in He. simpl in He. rewrite ?string_length_app in He. simpl in He. lia.
Qed.

(** ** Nothing accepted is lost, repeated or reordered *)

Definition file_bytes (w : World) (i : nat) : bytes := from_option content [] (inodes w !! i).

(** The archives made so far, oldest first, each a name and the file behind it. *)
Abbreviation Archives := (list (string * nat)).

Definition disk_log (A : Archives) (s : FileJsonlSink) : bytes :=
  (concat (map (fun a => file_bytes (world s) a.2) A) ++ file_bytes (world s) (handle s) ++ buffer s)%list.

Record inv (A : Archives) (s : FileJsonlSink) : Prop := {
  inv_active : entries (world s) !! path s = Some (handle s);
  inv_file : is_Some (inodes (world s) !! handle s);
  inv_clock : Forall (fun t => 0 <= t) (times (world s));
  inv_count : 0 <= rotation_count s;
  inv_archives : Forall (fun a => entries (world s) !! a.1 = Some a.2 /\ a.2 <> handle s /\
    is_Some (inodes (world s) !! a.2) /\
    exists t k, a.1 = rotated_path (path s) t k /\ 0 <= t /\ 0 < k <= rotation_count s) A;
  inv_names : NoDup (map fst A)
}.

(** What the operations below leave alone. *)
Definition same_meta (s s' : FileJsonlSink) : Prop :=
  path s' = path s /\ config s' = config s /\ file_events_sent s' = file_events_sent s /\
  pending_lines s' = pending_lines s /\ file_closed s' = file_closed s.

Lemma same_meta_refl s : same_meta s s.
Proof. by split_and!. Qed.

Lemma same_meta_trans s s1 s2 : same_meta s s1 -> same_meta s1 s2 -> same_meta s s2.
Proof. unfold same_meta. intros; destruct_and!; split_and!; congruence. Qed.

(** [d] more bytes went to the writer. *)
Record wrote (d : bytes) (s s' : FileJsonlSink) : Prop := {
  wrote_meta : same_meta s s';
  wrote_handle : handle s' = handle s;
  wrote_count : rotation_count s' = rotation_count s;
  wrote_entries : entries (world s') = entries (world s);
  wrote_times : times (world s') = times (world s);
  wrote_others : forall j, j <> handle s -> inodes (world s') !! j = inodes (world s) !! j;
  wrote_file : is_Some (inodes (world s) !! handle s) -> is_Some (inodes (world s') !! handle s);
  wrote_bytes : is_Some (inodes (world s) !! handle s) ->
    (file_bytes (world s') (handle s) ++ buffer s')%list = (file_bytes (world s) (handle s) ++ buffer s ++ d)%list
}.

Lemma wrote_refl s : wrote [] s s.
Proof. split; auto using same_meta_refl. intros _. by rewrite app_nil_r. Qed.

Lemma wrote_trans d d' s s1 s2 : wrote d s s1 -> wrote d' s1 s2 -> wrote (d ++ d') s s2.
Proof.
  intros [M1 H1 C1 E1 T1 O1 F1 B1] [M2 H2 C2 E2 T2 O2 F2 B2]. rewrite H1 in *.
  split; try congruence; [by eapply same_meta_trans| | |].
  - intros j Hj. rewrite O2, O1 by done. done.
  - auto.
  - intros Hf. rewrite B2, (app_assoc _ (buffer s1)), B1 by auto. by rewrite <- !app_assoc.
Qed.

Lemma inv_wrote A s s' d : wrote d s s' -> inv A s -> inv A s' /\ disk_log A s' = (disk_log A s ++ d)%list.
Proof.
  intros [(Hpath & _) H C E T O F B] [I1 I2 I3 I4 I5 I6]. split.
  - split; rewrite ?Hpath, ?H, ?C, ?E, ?T; try done; [by apply F|].
    eapply Forall_impl; [exact I5|]. intros a (Ha & Hne & Hi & Hk). rewrite O by done. done.
  - unfold disk_log. rewrite H, B by done. rewrite <- !app_assoc. f_equal. f_equal.
    apply map_ext_in. intros a Ha. unfold file_bytes. rewrite O; [done|].
    apply list_elem_of_In in Ha. rewrite Forall_forall in I5. by apply I5.
Qed.

(** *** System calls *)

Lemma file_bytes_append w i d t : is_Some (inodes w !! i) ->
  from_option content [] (append d t <$> inodes w !! i) = (file_bytes w i ++ d)%list.
Proof. unfold file_bytes. by intros [n ->]. Qed.

Lemma write_frame i d w w' : write_all i d w = (Ok (inl tt), w') ->
  entries w' = entries w /\ times w' = times w /\
  (forall j, j <> i -> inodes w' !! j = inodes w !! j) /\
  (is_Some (inodes w !! i) -> is_Some (inodes w' !! i) /\ file_bytes w' i = (file_bytes w i ++ d)%list).
Proof.
  intros [?|[fs Hr]]%syscall_inv; [done|]. injection Hr as <-. cbn. split; [done|]. split; [done|]. split.
  - intros j Hj. by rewrite lookup_alter_ne.
  - intros Hi. unfold file_bytes. cbn. rewrite lookup_alter_eq. split; [by rewrite fmap_is_Some|].
    by apply file_bytes_append.
Qed.

Lemma sync_frame i w w' : sync_all i w = (Ok (inl tt), w') ->
  entries w' = entries w /\ times w' = times w /\
  (forall j, is_Some (inodes w !! j) -> is_Some (inodes w' !! j) /\ file_bytes w' j = file_bytes w j) /\
  (forall j, j <> i -> inodes w' !! j = inodes w !! j).
Proof.
  intros [?|[fs Hr]]%syscall_inv; [done|]. injection Hr as <-. cbn. split; [done|]. split; [done|]. split.
  - intros j Hj. unfold file_bytes. cbn. destruct (decide (i = j)) as [->|Hne].
    + rewrite lookup_alter_eq. rewrite fmap_is_Some. split; [done|]. by destruct Hj as [n ->].
    + by rewrite lookup_alter_ne.
  - intros j Hj. by rewrite lookup_alter_ne.
Qed.

Lemma flush_buf_wrote s s' : flush_buf s = (Ok tt, s') -> wrote [] s s' /\ buffer s' = [].
Proof.
  unfold flush_buf. destruct (buffer s) as [|b0 b] eqn:Eb.
  { intros [= <-]. split; [apply wrote_refl|done]. }
  destruct (write_all (handle s) (b0 :: b) (world s)) as [[[[]|]| |] w] eqn:Hw; try done.
  intros [= <-]. apply write_frame in Hw as (He & Ht & Ho & Hb). split; [|done].
  split; cbn; auto using same_meta_refl.
  - by split_and!.
  - intros Hf. by apply Hb.
  - intros Hf. rewrite (proj2 (Hb Hf)), !app_nil_r. by rewrite Eb.
Qed.

Lemma write_all_wrote line s s' : writer_write_all line s = (Ok tt, s') -> wrote line s s'.
Proof.
  unfold writer_write_all. rewrite bind_eq. cbn [gets id]. intros ([] & s1 & H1 & H2)%bind_inv.
  assert (W1 : wrote [] s s1).
  { destruct (WRITE_BUF_CAPACITY <? _)%nat; [by apply flush_buf_wrote|]. injection H1 as <-. apply wrote_refl. }
  change line with ([] ++ line)%list. eapply wrote_trans; [exact W1|].
  destruct (WRITE_BUF_CAPACITY <=? length line)%nat eqn:Hcap.
  - unfold on_world in H2. destruct (io_try (write_all (handle s) line) (world s1)) as [r w] eqn:Hw.
    injection H2 as -> <-. apply io_try_inv, write_frame in Hw as (He & Ht & Ho & Hb).
    rewrite <- (wrote_handle _ _ _ W1) in Ho, Hb.
    assert (Hbuf : buffer s1 = []).
    { destruct (Nat.ltb_spec WRITE_BUF_CAPACITY (length (buffer s) + length line)) as [Hlt|Hge].
      - by apply flush_buf_wrote in H1 as [_ ?].
      - injection H1 as <-. apply Nat.leb_le in Hcap. destruct (buffer s); [done|]. simpl in Hge. lia. }
    split; cbn; auto; [by split_and!|intros Hf; by apply Hb|].
    intros Hf. rewrite (proj2 (Hb Hf)), Hbuf. by rewrite app_nil_r.
  - injection H2 as <-. split; cbn; auto. by split_and!.
Qed.

Lemma on_world_inv {A} (m : M World A) s a s' : on_world m s = (Ok a, s') ->
  exists w, m (world s) = (Ok a, w) /\ s' = with_world w s.
Proof. unfold on_world. destruct (m (world s)) as [r w]. intros [= -> <-]. by exists w. Qed.

Lemma rename_frame from to w w' : rename from to w = (Ok (inl tt), w') ->
  exists i, entries w !! from = Some i /\ entries w' = <[to := i]> (delete from (entries w)) /\
    inodes w' = inodes w /\ times w' = times w.
Proof.
  intros [?|[fs Hr]]%syscall_inv; [done|]. cbn in Hr.
  destruct (entries w !! from) as [i|]; [|done]. injection Hr as <-. by exists i.
Qed.

Lemma open_append_frame name w j w' : open_append name w = (Ok (inl j), w') ->
  (entries w !! name = Some j /\ entries w' = entries w /\ inodes w' = inodes w \/
   entries w !! name = None /\ entries w' = <[name := j]> (entries w) /\ inodes w !! j = None /\
   exists n, content n = [] /\ inodes w' = <[j := n]> (inodes w)) /\ times w' = times w.
Proof.
  intros [?|[fs Hr]]%syscall_inv; [done|]. cbn in Hr. destruct (dir_state w); try done.
  destruct (entries w !! name) as [i|]; injection Hr as <- <-.
  - split; [by left|done].
  - split; [right|done]. split; [done|]. split; [done|]. split.
    + apply not_elem_of_dom, is_fresh.
    + eexists. split; [|reflexivity]. done.
Qed.

Lemma now_frame w t w' : now w = (Ok t, w') -> Forall (fun t => 0 <= t) (times w) ->
  0 <= t /\ Forall (fun t => 0 <= t) (times w') /\ entries w' = entries w /\ inodes w' = inodes w.
Proof.
  unfold now. destruct (times w) as [|t0 ts] eqn:Et; intros [= <- <-] Ht.
  - by rewrite Et.
  - by inversion_clear Ht.
Qed.

(** The archive made by a rotation. *)
Lemma rotate_ok A s s' : rotate s = (Ok tt, s') -> inv A s -> rotation_count s' < u64_max ->
  exists a, inv (A ++ [a]) s' /\ disk_log (A ++ [a]) s' = disk_log A s /\ same_meta s s' /\
    rotation_count s <= rotation_count s'.
Proof.
  unfold rotate. intros ([] & s1 & H1 & Hr)%bind_inv Hinv Hmax.
  apply flush_buf_wrote in H1 as [W1 Hbuf]. destruct (inv_wrote A s s1 [] W1 Hinv) as [I1 Hlog].
  rewrite app_nil_r in Hlog. destruct W1 as [M1 _ C1 _ _ _ _ _].
  rewrite bind_eq in Hr. cbn [gets id] in Hr.
  apply bind_inv in Hr as ([] & s2 & (w2 & Hsync & ->)%on_world_inv & Hr).
  apply io_try_inv, sync_frame in Hsync as (E2 & T2 & F2 & _).
  apply bind_inv in Hr as (ts & s3 & (w3 & Hnow & ->)%on_world_inv & Hr). cbn in Hnow.
  destruct I1 as [Ia If It Ic Ir In]. rewrite <- T2 in It.
  destruct (now_frame _ _ _ Hnow It) as (Hts & It3 & E3 & N3).
  rewrite bind_eq in Hr. cbn [modify] in Hr. rewrite bind_eq in Hr. cbn [gets id] in Hr.
  apply bind_inv in Hr as ([] & s4 & (w4 & Hren & ->)%on_world_inv & Hr). cbn in Hren.
  apply io_try_inv, rename_frame in Hren as (i & Hi & E4 & N4 & T4).
  rewrite E3, E2, Ia in Hi. injection Hi as <-.
  apply bind_inv in Hr as (j & s5 & (w5 & Hopen & ->)%on_world_inv & Hr). cbn in Hopen.
  injection Hr as <-. cbn in Hmax. set (k := saturating_add (rotation_count s1) 1) in *.
  assert (Hk : k = rotation_count s1 + 1) by (unfold k, saturating_add in *; lia).
  set (rot := rotated_path (path s1) ts k) in *.
  apply io_try_inv, open_append_frame in Hopen as [Hopen T5].
  assert (Hnone : entries w4 !! path s1 = None).
  { rewrite E4, lookup_insert_ne by apply rotated_not_path. apply lookup_delete_eq. }
  destruct Hopen as [(Hs & _)|(_ & E5 & Hj & n & Hn & N5)]; [congruence|].
  assert (Hold : forall x, is_Some (inodes (world s1) !! x) -> x <> j /\ is_Some (inodes w5 !! x) /\
    file_bytes w5 x = file_bytes (world s1) x).
  { intros x Hx. destruct (F2 x Hx) as [Hx2 Hb2]. rewrite <- N3, <- N4 in Hx2.
    assert (x <> j) as Hne by (intros ->; rewrite Hj in Hx2; by destruct Hx2). split; [done|].
    unfold file_bytes in *. rewrite N5, lookup_insert_ne by done. split; [done|].
    rewrite <- Hb2. by rewrite N4, N3. }
  assert (Hfresh : forall a, a ∈ A -> a.1 <> rot).
  { intros a Ha He. rewrite Forall_forall in Ir. destruct (Ir a Ha) as (_ & _ & _ & t & k' & Hk' & Ht' & Hk'').
    rewrite He in Hk'. apply rotated_inj in Hk'; lia. }
  exists (rot, handle s1). split; [|split; [|split]].
  - split; cbn.
    + by rewrite E5, lookup_insert_eq.
    + rewrite N5, lookup_insert_eq. by eexists.
    + by rewrite T5, T4.
    + lia.
    + rewrite E5, E4, E3, E2. apply Forall_app. split.
      * apply Forall_forall. intros a Ha. pose proof (Hfresh a Ha) as Hf. rewrite Forall_forall in Ir.
        destruct (Ir a Ha) as (Hea & Hne & Hia & t & k' & Hk' & Ht' & Hk''). destruct (Hold _ Hia) as (Hj' & Hi' & _).
        assert (Hap : a.1 <> path s1) by (rewrite Hk'; apply rotated_not_path).
        rewrite lookup_insert_ne, lookup_insert_ne, lookup_delete_ne by done.
        split; [done|]. split; [done|]. split; [done|]. exists t, k'. split; [done|]. lia.
      * apply Forall_singleton. cbn. destruct (Hold _ If) as (Hj' & Hi' & _).
        rewrite lookup_insert_ne by (intros He; by apply (rotated_not_path (path s1) ts k)).
        rewrite lookup_insert_eq. split; [done|]. split; [done|]. split; [done|].
        exists ts, k. split; [done|]. lia.
    + rewrite map_app. apply NoDup_app. split; [done|]. split; [|apply NoDup_singleton].
      intros x Hx Hx'%list_elem_of_singleton. apply list_elem_of_fmap in Hx as (a & -> & Ha).
      by apply (Hfresh a Ha).
  - rewrite <- Hlog. unfold disk_log. cbn. rewrite Hbuf, app_nil_r, map_app, concat_app. cbn.
    rewrite app_nil_r, (proj2 (proj2 (Hold _ If))). unfold file_bytes at 3. rewrite N5, lookup_insert_eq. cbn.
    rewrite Hn, !app_nil_r. f_equal. f_equal. apply map_ext_in. intros a Ha%list_elem_of_In.
    rewrite Forall_forall in Ir. destruct (Ir a Ha) as (_ & _ & Hia & _). by apply Hold.
  - destruct M1 as (?&?&?&?&?). by split_and!.
  - cbn. lia.
Qed.

Section Session.
Context `{BuildProfile} `{EventJson}.

(** The state after some of the operations: [L] is everything given to the writer. *)
Definition holds (A : Archives) (L : bytes) (s : FileJsonlSink) : Prop := inv A s /\ disk_log A s = L.

(** An operation that adds [d] to the log, and may make archives. *)
Definition extends_log (op : M FileJsonlSink unit) (d : bytes) : Prop := forall s s' A L,
  op s = (Ok tt, s') -> holds A L s -> rotation_count s' < u64_max ->
  same_meta s s' /\ exists B, holds (A ++ B) (L ++ d) s'.

(** A counter that has reached its maximum stays there, so a bound at the end of a run
    holds throughout. *)
Abbreviation monotone op := (keeps (fun s : FileJsonlSink => u64_max <= rotation_count s) op).

Lemma extends_bind op k d d' : monotone k -> extends_log op d -> extends_log k d' ->
  extends_log (op ;; k) (d ++ d').
Proof.
  intros Hmono Hop Hk s s' A L ([] & s1 & H1 & H2)%bind_inv Hs Hmax.
  assert (Hmax1 : rotation_count s1 < u64_max).
  { destruct (Z.lt_ge_cases (rotation_count s1) u64_max) as [|Hge]; [done|].
    specialize (Hmono s1 Hge). rewrite H2 in Hmono. simpl in Hmono. lia. }
  destruct (Hop _ _ _ _ H1 Hs Hmax1) as (M1 & B & Hs1). destruct (Hk _ _ _ _ H2 Hs1 Hmax) as (M2 & B' & Hs2).
  split; [by eapply same_meta_trans|]. exists (B ++ B')%list. by rewrite !app_assoc.
Qed.

Lemma wrote_extends op d : (forall s s', op s = (Ok tt, s') -> wrote d s s') -> extends_log op d.
Proof.
  intros Hop s s' A L Hs [Hinv <-] _. specialize (Hop _ _ Hs). split; [by apply Hop|]. exists [].
  rewrite app_nil_r. destruct (inv_wrote A s s' d Hop Hinv) as [Hi Hl]. by split.
Qed.

Lemma rotate_extends : extends_log rotate [].
Proof.
  intros s s' A L Hs [Hinv <-] Hmax. destruct (rotate_ok A s s' Hs Hinv Hmax) as (a & Hi & Hl & Hm & _).
  split; [done|]. exists [a]. by rewrite app_nil_r.
Qed.

Create HintDb file_sink.

(** *** What the operations keep *)

(** Properties that the writer, the counters and each system call of the sink keep. *)
Record stable (I : FileJsonlSink -> Prop) : Prop := {
  stable_writer s h b n : I s -> I (with_writer h b n s);
  stable_flush s f : I s -> I (with_counts f (rotation_count s) s);
  stable_rotation s : I s -> I (with_counts (flush_count s) (saturating_add (rotation_count s) 1) s);
  stable_write_all i d : keeps I (on_world (write_all i d));
  stable_sync i : keeps I (on_world (sync_all i));
  stable_rename a b : keeps I (on_world (rename a b));
  stable_open n : keeps I (on_world (open_append n));
  stable_now : keeps I (on_world now)
}.

Lemma sink_keeps_world {X} (I : FileJsonlSink -> Prop) (m : M World X) :
  (forall s w, I s -> I (with_world w s)) -> keeps I (on_world m).
Proof. intros Hw s Hs. unfold on_world. destruct (m (world s)). by apply Hw. Qed.

Section Stable.
Variable I : FileJsonlSink -> Prop.
Hypothesis HI : stable I.

Lemma stable_io_try {X} (m : M World (IoResult X)) : keeps I (on_world m) -> keeps I (on_world (io_try m)).
Proof.
  intros Hm s Hs. specialize (Hm s Hs). unfold on_world, io_try in *. rewrite bind_eq.
  destruct (m (world s)) as [[[]| |] w]; done.
Qed.

Lemma stable_flush_buf : keeps I flush_buf.
Proof.
  intros s Hs. pose proof (stable_write_all I HI (handle s) (buffer s) s Hs) as Hw. unfold flush_buf, on_world in *.
  destruct (buffer s); [done|].
  destruct (write_all _ _ _) as [[[]| |] w]; simpl in *; try apply (stable_writer I HI); done.
Qed.

Lemma stable_io_write i d : keeps I (on_world (io_try (write_all i d))).
Proof. by apply stable_io_try, stable_write_all. Qed.
Lemma stable_io_sync i : keeps I (on_world (io_try (sync_all i))).
Proof. by apply stable_io_try, stable_sync. Qed.
Lemma stable_io_rename a b : keeps I (on_world (io_try (rename a b))).
Proof. by apply stable_io_try, stable_rename. Qed.
Lemma stable_io_open n : keeps I (on_world (io_try (open_append n))).
Proof. by apply stable_io_try, stable_open. Qed.
Lemma stable_io_now : keeps I (on_world now).
Proof. by apply stable_now. Qed.

Hint Resolve stable_io_write stable_io_sync stable_io_rename stable_io_open stable_io_now
  stable_flush_buf keeps_ret keeps_gets keeps_of_res : file_sink.

Lemma stable_write line : keeps I (writer_write_all line).
Proof.
  apply keeps_bind; [apply keeps_gets|]. intros s. apply keeps_bind; [case_match; auto with file_sink|].
  intros []. case_match; [auto with file_sink|]. intros s' Hs'. cbn. by apply (stable_writer I HI).
Qed.

Lemma stable_rotate : keeps I rotate.
Proof.
  apply keeps_bind; [auto with file_sink|]. intros []. apply keeps_bind; [auto with file_sink|]. intros s.
  apply keeps_bind; [auto with file_sink|]. intros []. apply keeps_bind; [auto with file_sink|]. intros ts.
  apply keeps_bind; [intros s' Hs'; cbn; by apply (stable_rotation I HI)|]. intros [].
  apply keeps_bind; [auto with file_sink|]. intros s'. apply keeps_bind; [auto with file_sink|]. intros [].
  apply keeps_bind; [auto with file_sink|]. intros j s0 Hs0. cbn. by apply (stable_writer I HI).
Qed.

Lemma stable_add_written n : keeps I (add_written n).
Proof. intros s Hs. unfold add_written. destruct (u64_add _ _); [cbn; by apply (stable_writer I HI)|done]. Qed.

Lemma stable_write_line line : keeps I (write_line line).
Proof.
  intros s Hs. unfold write_line. revert s Hs. intros s. apply (keeps_bind I).
  - case_match; [|apply keeps_ret]. case_match; [|apply keeps_of_res]. case_match; [apply stable_rotate|apply keeps_ret].
  - intros []. apply keeps_bind; [apply stable_write|]. intros []. apply stable_add_written.
Qed.

Lemma stable_lines lines : keeps I (for_each lines write_line).
Proof.
  induction lines as [|line lines IH]; cbn [for_each]; [apply keeps_ret|].
  apply keeps_bind; [apply stable_write_line|]. by intros [].
Qed.

Lemma stable_flush_writer : keeps I flush_writer.
Proof.
  apply keeps_bind; [auto with file_sink|]. intros []. apply keeps_bind; [intros s Hs; cbn; by apply (stable_flush I HI)|].
  intros []. apply keeps_bind; [auto with file_sink|]. intros s. case_match; auto with file_sink.
Qed.

End Stable.

Lemma count_stable : stable (fun s => u64_max <= rotation_count s).
Proof.
  split; intros; try (apply sink_keeps_world; done); cbn in *; unfold saturating_add; lia.
Qed.

(** *** Lines *)

Lemma add_written_wrote n s s' : add_written n s = (Ok tt, s') -> wrote [] s s'.
Proof.
  unfold add_written. destruct (u64_add _ _); intros [= <-]. split; cbn; auto; [by split_and!|].
  intros _. by rewrite app_nil_r.
Qed.

Lemma write_line_extends line : extends_log (write_line line) line.
Proof.
  intros s s' A L Hs. unfold write_line in Hs.
  assert (Hmid : extends_log (writer_write_all line ;; add_written (Z.of_nat (length line))) (line ++ [])).
  { apply extends_bind; [apply (stable_add_written _ count_stable)|apply wrote_extends, write_all_wrote|
                         apply wrote_extends, add_written_wrote]. }
  rewrite app_nil_r in Hmid. revert Hs. apply (extends_bind _ _ [] line).
  - apply keeps_bind; [apply (stable_write _ count_stable)|]. intros []. apply (stable_add_written _ count_stable).
  - assert (Hret : extends_log (mret tt) []) by (apply wrote_extends; intros s0 s1 [= <-]; apply wrote_refl).
    case_match; [|done]. case_match; [|by intros ? ? ? ? [=]]. case_match; [apply rotate_extends|done].
  - done.
Qed.

Lemma lines_extend lines : extends_log (for_each lines write_line) (concat lines).
Proof.
  induction lines as [|line lines IH]; cbn [for_each concat].
  - apply wrote_extends. intros s s' [= <-]. apply wrote_refl.
  - apply extends_bind; [|apply write_line_extends|exact IH].
    apply (stable_lines _ count_stable).
Qed.

(** Flushing the writer leaves nothing in its buffer. *)
Lemma flush_writer_wrote s s' : flush_writer s = (Ok tt, s') -> wrote [] s s' /\ buffer s' = [].
Proof.
  unfold flush_writer. intros ([] & s1 & H1 & H2)%bind_inv. apply flush_buf_wrote in H1 as [W1 Hb].
  rewrite bind_eq in H2. cbn [modify] in H2. rewrite bind_eq in H2. cbn [gets id] in H2.
  set (s2 := with_counts _ _ s1) in H2.
  assert (W2 : wrote [] s1 s2).
  { split; cbn; auto; [by split_and!|]. intros _. by rewrite app_nil_r. }
  pose proof (wrote_trans _ _ _ _ _ W1 W2) as W. cbn [app] in W. destruct (_ =? 0).
  - apply on_world_inv in H2 as (w & Hw & ->). apply io_try_inv, sync_frame in Hw as (He & Ht & Hk & Ho).
    split; [|done]. change (@nil byte) with (@nil byte ++ [])%list. eapply wrote_trans; [exact W|].
    split; cbn; auto; [by split_and!|intros Hf; by apply Hk|].
    intros Hf. rewrite app_nil_r. by rewrite (proj2 (Hk _ Hf)).
  - injection H2 as <-. done.
Qed.

(** *** Operations of the sink *)

Lemma monotone_flush_pending : monotone flush_pending.
Proof.
  intros s Hs. unfold flush_pending. destruct (pending_lines s); [by apply (stable_flush_writer _ count_stable)|].
  revert s Hs. intros s. apply (keeps_bind (fun s => u64_max <= rotation_count s)); [by intros s0 Hs0|]. intros [].
  apply keeps_bind; [apply (stable_lines _ count_stable)|]. intros []. apply (stable_flush_writer _ count_stable).
Qed.

Lemma flush_pending_ok s s' A L : flush_pending s = (Ok tt, s') -> holds A L s -> rotation_count s' < u64_max ->
  (path s' = path s /\ pending_lines s' = [] /\ buffer s' = [] /\ file_closed s' = file_closed s) /\
  exists B, holds (A ++ B) (L ++ concat (pending_lines s)) s'.
Proof.
  unfold flush_pending. destruct (pending_lines s) as [|line lines] eqn:Ep; intros Hs Hh Hmax.
  - apply flush_writer_wrote in Hs as [W Hb]. destruct Hh as [Hinv <-].
    destruct (inv_wrote _ _ _ _ W Hinv) as [Hi Hl]. destruct W as [(M1 & _ & _ & M4 & M5) _ _ _ _ _ _ _].
    split; [split_and!; congruence|]. exists []. by rewrite app_nil_r.
  - rewrite bind_eq in Hs. cbn [modify] in Hs. set (s1 := with_pending _ _ _ s) in Hs.
    apply bind_inv in Hs as ([] & s2 & H2 & H3).
    assert (Hh1 : holds A L s1) by (by destruct Hh as [[] ?]).
    assert (Hmax2 : rotation_count s2 < u64_max).
    { destruct (Z.lt_ge_cases (rotation_count s2) u64_max) as [|Hge]; [done|].
      pose proof (stable_flush_writer _ count_stable s2 Hge) as Hm. rewrite H3 in Hm. simpl in Hm. lia. }
    destruct (lines_extend _ _ _ _ _ H2 Hh1 Hmax2) as ((M1 & _ & _ & M4 & M5) & B & Hh2).
    apply flush_writer_wrote in H3 as [W Hb]. destruct Hh2 as [Hinv2 Hl2].
    destruct (inv_wrote _ _ _ _ W Hinv2) as [Hi Hl]. destruct W as [(N1 & _ & _ & N4 & N5) _ _ _ _ _ _ _].
    split; [split_and!; try done; [rewrite N1, M1|rewrite N4, M4|rewrite N5, M5]; done|]. exists B.
    split; [done|]. by rewrite Hl, Hl2, app_nil_r.
Qed.

(** With the lines that wait for their batch. *)
Definition full (A : Archives) (L : bytes) (s : FileJsonlSink) : Prop :=
  exists L0, holds A L0 s /\ L = (L0 ++ concat (pending_lines s))%list.

Definition line_of (json : bytes) : bytes := (json ++ [Byte.x0a])%list.

Lemma monotone_send e : monotone (file_send e).
Proof.
  intros s Hs. unfold file_send. destruct (file_closed s); [done|]. revert s Hs. intros s.
  apply (keeps_bind (fun s => u64_max <= rotation_count s)); [apply keeps_of_res|]. intros json.
  apply keeps_bind; [intros s0 Hs0; by destruct (u64_add _ _)|]. intros [].
  apply keeps_bind; [apply keeps_gets|]. intros s0. case_match; [apply monotone_flush_pending|apply keeps_ret].
Qed.

Lemma send_full e s s' A L : file_send e s = (Ok tt, s') -> full A L s -> rotation_count s' < u64_max ->
  exists json B, event_compact e = Ok json /\ full (A ++ B) (L ++ line_of json) s' /\
    path s' = path s /\ file_closed s' = file_closed s.
Proof.
  unfold file_send. destruct (file_closed s) eqn:Hc0; [done|]. intros (json & s0 & Hj & Hs)%bind_inv (L0 & Hh & ->) Hmax.
  injection Hj as Hj <-. apply bind_inv in Hs as ([] & s1 & H1 & Hs).
  destruct (u64_add (file_events_sent s) 1) as [n|]; [|done]. injection H1 as <-.
  set (s1 := with_pending _ _ _ s) in Hs. rewrite bind_eq in Hs. cbn [gets id] in Hs.
  assert (Hh1 : holds A L0 s1) by (by destruct Hh as [[] ?]).
  assert (Hp1 : concat (pending_lines s1) = (concat (pending_lines s) ++ line_of json)%list).
  { cbn. rewrite concat_app. cbn. by rewrite app_nil_r. }
  exists json. destruct (_ || _).
  - destruct (flush_pending_ok _ _ _ _ Hs Hh1 Hmax) as ((Hp & Hpend & _ & Hcl) & B & Hh2).
    exists B. split; [done|]. split; [|split; [done|by rewrite Hcl]]. eexists. split; [exact Hh2|].
    rewrite Hpend, Hp1, <- !app_assoc. cbn. by rewrite app_nil_r.
  - injection Hs as <-. exists []. split; [done|]. split; [|done]. rewrite app_nil_r. exists L0.
    split; [done|]. by rewrite Hp1, <- app_assoc.
Qed.

Lemma sends_full es s s' A L : for_each es file_send s = (Ok tt, s') -> full A L s -> rotation_count s' < u64_max ->
  exists jsons B, Forall2 (fun e json => event_compact e = Ok json) es jsons /\
    full (A ++ B) (L ++ concat (map line_of jsons)) s' /\
    path s' = path s /\ file_closed s' = file_closed s.
Proof.
  revert s A L. induction es as [|e es IH]; intros s A L; cbn [for_each].
  { intros [= <-] Hf _. exists [], []. split; [constructor|]. cbn. by rewrite !app_nil_r. }
  intros ([] & s1 & H1 & H2)%bind_inv Hf Hmax.
  assert (Hmono : monotone (for_each es file_send)).
  { clear. induction es as [|e es IH]; cbn [for_each]; [apply keeps_ret|].
    apply keeps_bind; [apply monotone_send|]. by intros []. }
  assert (Hmax1 : rotation_count s1 < u64_max).
  { destruct (Z.lt_ge_cases (rotation_count s1) u64_max) as [|Hge]; [done|].
    specialize (Hmono s1 Hge). rewrite H2 in Hmono. simpl in Hmono. lia. }
  destruct (send_full _ _ _ _ _ H1 Hf Hmax1) as (json & B & Hj & Hf1 & Hp1 & Hc1).
  destruct (IH _ _ _ H2 Hf1 Hmax) as (jsons & B' & Hjs & Hf2 & Hp2 & Hc2).
  exists (json :: jsons), (B ++ B')%list. split; [by constructor|]. cbn. rewrite !app_assoc in *.
  split; [done|]. split; congruence.
Qed.

Lemma close_full s s' A L : file_close s = (Ok tt, s') -> file_closed s = false -> full A L s ->
  rotation_count s' < u64_max ->
  path s' = path s /\ exists B, holds (A ++ B) L s' /\ buffer s' = [].
Proof.
  intros Hs Hc (L0 & Hh & ->) Hmax. unfold file_close in Hs. rewrite Hc in Hs.
  apply bind_inv in Hs as ([] & s1 & H1 & Hs). rewrite bind_eq in Hs. cbn [gets id] in Hs.
  apply bind_inv in Hs as ([] & s2 & (w & Hw & ->)%on_world_inv & Hs). injection Hs as <-. cbn in Hmax.
  destruct (flush_pending_ok _ _ _ _ H1 Hh Hmax) as ((Hp & Hpend & Hb & _) & B & [Hinv Hl]).
  split; [done|]. exists B. split; [|done]. apply io_try_inv, sync_frame in Hw as (He & Ht & Hk & Ho).
  assert (W : wrote [] s1 (with_world w s1)).
  { split; cbn; auto; [by split_and!|intros Hf; by apply Hk|]. intros Hf. rewrite app_nil_r. by rewrite (proj2 (Hk _ Hf)). }
  destruct (inv_wrote _ _ _ _ W Hinv) as [Hi Hl2]. rewrite app_nil_r, Hl in Hl2. by destruct Hi.
Qed.

(** The content of the file before the sink was opened. *)
Definition initial_content (name : string) (w : World) : bytes :=
  from_option (file_bytes w) [] (entries w !! name).

Lemma open_with_ok name cfg w s w0 : open_with name cfg w = (Ok s, w0) ->
  Forall (fun t => 0 <= t) (times w) -> (forall i, entries w !! name = Some i -> is_Some (inodes w !! i)) ->
  full [] (initial_content name w) s /\ path s = name /\ rotation_count s = 0 /\ file_closed s = false.
Proof.
  intros Ho Ht Hwf. unfold open_with in Ho. apply bind_inv in Ho as ([] & w1 & H1 & Ho).
  assert (E1 : entries w1 = entries w /\ inodes w1 = inodes w /\ times w1 = times w).
  { unfold map_err in H1. destruct (io_try create_dir_all w) as [[[]| |] w1'] eqn:Hd; try done.
    injection H1 as <-. apply io_try_inv, syscall_inv in Hd as [?|[fs Hd]]; [done|]. cbn in Hd.
    destruct (dir_state w); try done; by injection Hd as <-. }
  destruct E1 as (E1 & N1 & T1). apply bind_inv in Ho as (i & w2 & H2 & Ho).
  assert (Hopen : open_append name w1 = (Ok (inl i), w2)).
  { unfold map_err in H2. destruct (io_try (open_append name) w1) as [[] w2'] eqn:Hd; try done.
    injection H2 as <- <-. by apply io_try_inv. }
  apply open_append_frame in Hopen as [Hopen T2]. apply bind_inv in Ho as (n & w3 & H3 & Ho).
  assert (E3 : entries w3 = entries w2 /\ inodes w3 = inodes w2 /\ times w3 = times w2).
  { unfold file_len in H3. apply bind_inv in H3 as (r & w3' & Hs & [= <- <-]).
    unfold syscall in Hs. destruct (faults w2) as [|[]]; cbn in Hs; try (by injection Hs as _ <-);
      by destruct (inodes w2 !! i); injection Hs as _ <-. }
  destruct E3 as (E3 & N3 & T3). rewrite bind_eq in Ho. cbn [gets id] in Ho. injection Ho as <- <-. cbn.
  split; [|done]. exists (initial_content name w). cbn. rewrite app_nil_r. split; [|done].
  unfold initial_content. rewrite E1 in Hopen. destruct Hopen as [(Hi & E2 & N2)|(Hi & E2 & Hj & m & Hm & N2)].
  - split; [split; cbn|]; rewrite ?E3, ?E2, ?N3, ?N2, ?N1, ?T3, ?T2, ?T1; try done; [by apply Hwf|constructor|].
    unfold disk_log, file_bytes. cbn. rewrite N3, N2, N1, Hi, app_nil_r. done.
  - split; [split; cbn|]; rewrite ?E3, ?E2, ?N3, ?N2, ?T3, ?T2, ?T1; try done;
      [by rewrite lookup_insert_eq|by rewrite lookup_insert_eq|constructor|].
    unfold disk_log, file_bytes. cbn. rewrite N3, N2, Hi, lookup_insert_eq, app_nil_r. done.
Qed.

(** C33: the file sink loses, repeats and reorders nothing it accepted.  Open a sink, send
    events and close it, all of it answering success, whatever batches, buffers and
    rotations happen on the way: the archives under their own names, oldest first, followed
    by the active file, hold the old content and then one line per event, in order. *)
Theorem accepted_events_reach_disk name cfg w s w0 es s1 s2
    (Hopen : open_with name cfg w = (Ok s, w0))
    (Hclock : Forall (fun t => 0 <= t) (times w))
    (Hwf : forall i, entries w !! name = Some i -> is_Some (inodes w !! i))
    (Hsend : for_each es send s = (Ok tt, s1)) (Hclose : close s1 = (Ok tt, s2))
    (Hrotations : rotation_count s2 < u64_max) :
  exists A active jsons,
    NoDup (map fst A) /\
    Forall (fun a => a.1 <> name /\ entries (world s2) !! a.1 = Some a.2) A /\
    entries (world s2) !! name = Some active /\
    Forall2 (fun e json => event_compact e = Ok json) es jsons /\
    (concat (map (fun a => file_bytes (world s2) a.2) A) ++ file_bytes (world s2) active)%list =
      (initial_content name w ++ concat (map line_of jsons))%list.
Proof.
  destruct (open_with_ok _ _ _ _ _ Hopen Hclock Hwf) as (Hf & Hp & Hr0 & Hc0).
  cbn [send close file_sink] in *.
  assert (Hmax1 : rotation_count s1 < u64_max).
  { destruct (Z.lt_ge_cases (rotation_count s1) u64_max) as [|Hge]; [done|].
    assert (u64_max <= rotation_count s2); [|lia]. unfold file_close in Hclose.
    destruct (file_closed s1); [by injection Hclose as <-|].
    apply bind_inv in Hclose as ([] & s3 & H3 & Hs). pose proof (monotone_flush_pending s1 Hge) as Hm.
    rewrite H3 in Hm. rewrite bind_eq in Hs. cbn [gets id] in Hs.
    apply bind_inv in Hs as ([] & s4 & (w4 & _ & ->)%on_world_inv & Hs). by injection Hs as <-. }
  destruct (sends_full _ _ _ _ _ Hsend Hf Hmax1) as (jsons & B & Hj & Hf1 & Hp1 & Hc1). cbn [app] in Hf1.
  destruct (close_full _ _ _ _ Hclose ltac:(congruence) Hf1 Hrotations) as (Hp2 & B' & [[I1 I2 I3 I4 I5 I6] Hl] & Hb).
  exists (B ++ B')%list, (handle s2), jsons. split; [done|]. split; [|split; [|split; [done|]]].
  - eapply Forall_impl; [exact I5|]. intros a (Ha & _ & _ & t & k & Hn & _). split; [|done].
    rewrite Hn, Hp2, Hp1, Hp. apply rotated_not_path.
  - by rewrite <- Hp, <- Hp1, <- Hp2.
  - rewrite <- Hl. unfold disk_log. by rewrite Hb, app_nil_r.
Qed.

(** *** A failed flush forgets its batch *)

Lemma pending_stable l n c : stable (fun s => pending_lines s = l /\ file_events_sent s = n /\ file_closed s = c).
Proof. split; intros; try (apply sink_keeps_world); done. Qed.

Lemma syscall_calm {X} partial (run : World -> IoResult X * World) w : faults w = [] ->
  syscall partial run w = (Ok (fst (run w)), snd (run w)).
Proof. intros Hf. unfold syscall. rewrite Hf. by destruct (run w). Qed.

(** With no further failure, flushing the writer succeeds. *)
Lemma flush_writer_calm s : faults (world s) = [] -> is_Some (inodes (world s) !! handle s) ->
  exists s', flush_writer s = (Ok tt, s') /\
    file_bytes (world s') (handle s') = (file_bytes (world s) (handle s) ++ buffer s)%list /\
    pending_lines s' = pending_lines s /\ file_events_sent s' = file_events_sent s.
Proof.
  intros Hf Hi.
  assert (Hb : exists s1, flush_buf s = (Ok tt, s1) /\ faults (world s1) = []).
  { unfold flush_buf. destruct (buffer s); [by eexists|]. unfold write_all.
    rewrite syscall_calm by done. cbn. by eexists. }
  destruct Hb as (s1 & Hb & Hf1). destruct (flush_buf_wrote _ _ Hb) as [W1 Hbuf].
  assert (Hs : exists s', flush_writer s = (Ok tt, s')).
  { unfold flush_writer. rewrite (bind_ok _ _ _ _ _ Hb), bind_eq. cbn [modify]. rewrite bind_eq. cbn [gets id].
    destruct (_ =? 0); [|by eexists]. unfold on_world, io_try, sync_all.
    rewrite bind_eq, syscall_calm by done. cbn. by eexists. }
  destruct Hs as (s' & Hs). exists s'. split; [done|]. apply flush_writer_wrote in Hs as [W Hbuf'].
  destruct W as [(_ & _ & Me & Mp & _) Wh _ _ _ _ _ Wb]. split; [|done].
  specialize (Wb Hi). rewrite Hbuf', !app_nil_r in Wb. by rewrite Wh.
Qed.

(** A failed flush loses the rest of its batch.  When a flush of accepted events
    fails, the batch is gone whatever the failure was: the retry, with every call
    succeeding, answers success and writes only what the writer had already taken, while
    the events still count as sent. *)
Theorem failed_flush_forgets_batch s e s1
    (Hopen : file_closed s = false) (Hpending : pending_lines s <> [])
    (Hfail : flush s = (Err e, s1))
    (Hrecovered : faults (world s1) = []) (Hfile : is_Some (inodes (world s1) !! handle s1)) :
  pending_lines s1 = [] /\ file_events_sent s1 = file_events_sent s /\
  exists s2, flush s1 = (Ok tt, s2) /\
    file_bytes (world s2) (handle s2) = (file_bytes (world s1) (handle s1) ++ buffer s1)%list /\
    pending_lines s2 = [] /\ file_events_sent s2 = file_events_sent s.
Proof.
  cbn [flush file_sink] in *. unfold file_flush in Hfail. rewrite Hopen in Hfail.
  assert (Hk : pending_lines s1 = [] /\ file_events_sent s1 = file_events_sent s /\ file_closed s1 = false).
  { unfold flush_pending in Hfail. destruct (pending_lines s) as [|line lines]; [done|].
    rewrite bind_eq in Hfail. cbn [modify] in Hfail. rewrite Hopen in Hfail.
    pose proof (pending_stable [] (file_events_sent s) false) as Hst.
    assert (Hkeep : keeps (fun s0 => pending_lines s0 = [] /\ file_events_sent s0 = file_events_sent s /\
                             file_closed s0 = false) (for_each (line :: lines) write_line ;; flush_writer)).
    { apply keeps_bind; [by apply stable_lines|]. intros []. by apply stable_flush_writer. }
    specialize (Hkeep (with_pending [] (file_events_sent s) false s) ltac:(done)).
    by rewrite Hfail in Hkeep. }
  destruct Hk as (Hp & He & Hc). split; [done|]. split; [done|].
  destruct (flush_writer_calm s1 Hrecovered Hfile) as (s2 & Hs2 & Hb2 & Hp2 & He2).
  exists s2. unfold file_flush, flush_pending. rewrite Hc, Hp. split; [done|].
  split; [done|]. split; [congruence|congruence].
Qed.

(** *** The directory is never synced *)

Definition remembers (es : Entries) (w : World) : Prop := es ∈ possible_entries w.

Lemma remembers_entries es w new : remembers es w -> remembers es (set_entries new w).
Proof. unfold remembers, possible_entries. cbn. intros Hes. by right. Qed.

Lemma remembers_call es {X} partial (run : World -> IoResult X * World) :
  (forall k w, remembers es w -> remembers es (partial k w)) ->
  (forall w, remembers es w -> remembers es (snd (run w))) ->
  keeps (fun s => remembers es (world s)) (on_world (syscall partial run)).
Proof.
  intros Hp Hr s Hs. pose proof (keeps_syscall (remembers es) partial run) as Hk.
  specialize (Hk ltac:(done) Hp Hr (world s) Hs). unfold on_world. by destruct (syscall _ _ _).
Qed.

Lemma remembers_stable es : stable (fun s => remembers es (world s)).
Proof.
  split; intros; try done; try (apply remembers_call; try done; intros w Hw; cbn).
  - destruct (entries w !! a); [by apply remembers_entries|done].
  - destruct (dir_state w); try done. destruct (entries w !! n); [done|by apply remembers_entries].
  - intros s Hs. unfold on_world, now. by destruct (times (world s)).
Qed.

Lemma remembers_flush_pending es : keeps (fun s => remembers es (world s)) flush_pending.
Proof.
  intros s Hs. unfold flush_pending. destruct (pending_lines s).
  { by apply (stable_flush_writer _ (remembers_stable es)). }
  revert s Hs. intros s. apply (keeps_bind (fun s => remembers es (world s))); [by intros s0 Hs0|]. intros [].
  apply keeps_bind; [apply (stable_lines _ (remembers_stable es))|]. intros [].
  apply (stable_flush_writer _ (remembers_stable es)).
Qed.

Lemma remembers_send es e : keeps (fun s => remembers es (world s)) (file_send e).
Proof.
  intros s Hs. unfold file_send. destruct (file_closed s); [done|]. revert s Hs. intros s.
  apply (keeps_bind (fun s => remembers es (world s))); [apply keeps_of_res|]. intros json.
  apply keeps_bind; [intros s0 Hs0; by destruct (u64_add _ _)|]. intros [].
  apply keeps_bind; [apply keeps_gets|]. intros s0. case_match; [apply remembers_flush_pending|apply keeps_ret].
Qed.

Lemma remembers_close es : keeps (fun s => remembers es (world s)) file_close.
Proof.
  intros s Hs. unfold file_close. destruct (file_closed s); [done|]. revert s Hs. intros s.
  apply (keeps_bind (fun s => remembers es (world s))); [apply remembers_flush_pending|]. intros [].
  apply keeps_bind; [apply keeps_gets|]. intros s0.
  apply keeps_bind; [apply (stable_io_sync _ (remembers_stable es))|]. by intros [] s1 Hs1.
Qed.

Lemma remembers_open name cfg w s w0 : open_with name cfg w = (Ok s, w0) -> remembers (entries w) (world s).
Proof.
  intros Ho. unfold open_with in Ho. apply bind_inv in Ho as ([] & w1 & H1 & Ho).
  assert (R1 : remembers (entries w) w1).
  { unfold map_err in H1. destruct (io_try create_dir_all w) as [[[]| |] w1'] eqn:Hd; try done.
    injection H1 as <-. apply io_try_inv, syscall_inv in Hd as [?|[fs Hd]]; [done|]. cbn in Hd.
    destruct (dir_state w); try done; injection Hd as <-; by left. }
  apply bind_inv in Ho as (i & w2 & H2 & Ho).
  assert (R2 : remembers (entries w) w2).
  { unfold map_err in H2. destruct (io_try (open_append name) w1) as [[] w2'] eqn:Hd; try done.
    injection H2 as <- <-. apply io_try_inv, syscall_inv in Hd as [?|[fs Hd]]; [done|]. cbn in Hd.
    destruct (dir_state w1); try done. destruct (entries w1 !! name); injection Hd as <- <-; [done|].
    by apply remembers_entries. }
  apply bind_inv in Ho as (n & w3 & H3 & Ho). rewrite bind_eq in Ho. cbn [gets id] in Ho. injection Ho as <- _. cbn.
  unfold file_len in H3. apply bind_inv in H3 as (r & w3' & Hs & [= _ <-]).
  unfold syscall in Hs.
  destruct (faults w2) as [|[]]; cbn in Hs; try (by injection Hs as _ <-);
    by destruct (inodes w2 !! i); injection Hs as _ <-.
Qed.

(** A closed file may not survive a power loss.  The sink never syncs the directory:
    a file that did not exist when the sink was opened may be missing from the directory
    after a power loss, even though every send and the close answered success. *)
Theorem closed_file_may_vanish name cfg w s w0 es s1 s2
    (Hnew : entries w !! name = None) (Hopen : open_with name cfg w = (Ok s, w0))
    (Hsend : for_each es send s = (Ok tt, s1)) (Hclose : close s1 = (Ok tt, s2)) :
  exists found, found ∈ possible_entries (world s2) /\ found !! name = None.
Proof.
  exists (entries w). split; [|done]. cbn [send close file_sink] in *.
  pose proof (remembers_open _ _ _ _ _ Hopen) as R0.
  assert (R1 : remembers (entries w) (world s1)).
  { assert (Hk : keeps (fun s => remembers (entries w) (world s)) (for_each es file_send)).
    { clear. induction es as [|e es IH]; cbn [for_each]; [apply keeps_ret|].
      apply keeps_bind; [apply remembers_send|]. by intros []. }
    specialize (Hk s R0). by rewrite Hsend in Hk. }
  pose proof (remembers_close (entries w) s1 R1) as R2. by rewrite Hclose in R2.
Qed.

End Session.

(** ** Witnesses *)

Module Demo.

#[export] Instance profile : BuildProfile := true.

(** An event is written as its table name. *)
#[export] Instance json : EventJson :=
  {| event_compact e := Ok (list_byte_of_string (Event.table e));
     event_pretty e := Ok (list_byte_of_string (Event.table e)) |}.

Definition disk (faults : list Fault) : World :=
  {| dir_state := Directory; entries := ∅; past_entries := []; inodes := ∅; faults := faults;
     times := [1000; 1001; 1002]; umask := 18; lease_refs := ∅; lease_refs_poisoned := false |}.

(** A file takes one line of five bytes. *)
Definition small : FileJsonlSinkConfig := {| rotate_size_bytes := 5; fsync_every := 1 |}.

Definition rows : list Event := map (fun t => Event.builder t Event.Insert) ["aaaa"; "bbbb"; "cccc"].

Definition get {A} (d : A) (r : Res A) : A := match r with Ok a => a | _ => d end.
Definition nowhere : FileJsonlSink :=
  {| world := disk []; handle := 0; buffer := []; path := ""; config := small; flush_count := 0;
     rotation_count := 0; bytes_written := 0; file_events_sent := 0; pending_lines := []; file_closed := true |}.

Definition opened (faults : list Fault) : FileJsonlSink :=
  get nowhere (fst (open_with "events.jsonl" small (disk faults))).
Definition sent (faults : list Fault) : FileJsonlSink := snd (for_each rows send (opened faults)).
Definition finished : FileJsonlSink := snd (close (sent [])).

End Demo.

Import Demo.

(** Three lines in three files. *)
Lemma accepted_events_reach_disk_witness :
  rotation_count finished = 2 /\
  exists A active jsons,
    NoDup (map fst A) /\
    Forall (fun a => a.1 <> "events.jsonl" /\ entries (world finished) !! a.1 = Some a.2) A /\
    entries (world finished) !! "events.jsonl" = Some active /\
    Forall2 (fun e json => event_compact e = Ok json) rows jsons /\
    (concat (map (fun a => file_bytes (world finished) a.2) A) ++ file_bytes (world finished) active)%list =
      (initial_content "events.jsonl" (disk []) ++ concat (map line_of jsons))%list.
Proof.
  split; [vm_compute; reflexivity|].
  apply (accepted_events_reach_disk "events.jsonl" small (disk []) (opened [])
    (snd (open_with "events.jsonl" small (disk []))) rows (sent []) finished).
  - vm_compute. reflexivity.
  - repeat constructor; vm_compute; discriminate.
  - intros i Hi. vm_compute in Hi. discriminate.
  - vm_compute. reflexivity.
  - vm_compute. reflexivity.
  - vm_compute. reflexivity.
Defined.

(** The write of the first line fails as the second one rotates the file. *)
Definition bad_disk : list Fault := [Fine; Fine; Fine; Fails 0].
Definition bad_flush := flush (sent bad_disk).

Lemma failed_flush_forgets_batch_witness :
  length (pending_lines (sent bad_disk)) = 3%nat /\
  (pending_lines (snd bad_flush) = [] /\ file_events_sent (snd bad_flush) = file_events_sent (sent bad_disk) /\
   exists s2, flush (snd bad_flush) = (Ok tt, s2) /\
     file_bytes (world s2) (handle s2) =
       (file_bytes (world (snd bad_flush)) (handle (snd bad_flush)) ++ buffer (snd bad_flush))%list /\
     pending_lines s2 = [] /\ file_events_sent s2 = file_events_sent (sent bad_disk)).
Proof.
  split; [vm_compute; reflexivity|].
  apply (failed_flush_forgets_batch (sent bad_disk) (IoError "i/o error") (snd bad_flush)).
  - vm_compute. reflexivity.
  - vm_compute. discriminate.
  - vm_compute. reflexivity.
  - vm_compute. reflexivity.
  - vm_compute. eexists. reflexivity.
Defined.

(** What the retry leaves on disk: the first line alone. *)
Lemma retry_writes_first_line_only :
  file_bytes (world (snd (flush (snd bad_flush)))) (handle (snd (flush (snd bad_flush)))) =
    line_of (list_byte_of_string "aaaa").
Proof. vm_compute. reflexivity. Qed.

Lemma closed_file_may_vanish_witness :
  entries (disk []) !! "events.jsonl" = None /\
  exists found, found ∈ possible_entries (world finished) /\ found !! "events.jsonl" = None.
Proof.
  split; [reflexivity|].
  apply (closed_file_may_vanish "events.jsonl" small (disk []) (opened [])
    (snd (open_with "events.jsonl" small (disk []))) rows (sent []) finished).
  - reflexivity.
  - vm_compute. reflexivity.
  - vm_compute. reflexivity.
  - vm_compute. reflexivity.
Defined.

End FileSink.
