(* ===== verification/Transforms.v ===== *)
(** * Transforms: the stage trait and the transform pipeline

    Models [src/src/transform/mod.rs] and the runtime's [apply_transforms]
    ([core/runtime/runtime_poll.rs]).  A stage mutates an event in place, may drop it and
    may fail; it keeps counters of its own, so a stage is a state.  The synchronous and
    the asynchronous trait have the same methods and differ in the default of
    [apply_batch]; a pipeline of several kinds of stages is one whose stage type is a
    sum.  The theorems relate the two ways the runtime drives a pipeline: a batch through
    every stage, and one event at a time. *)

From S2P Require Import Prelude Errors Strs Json Event Monad.
Import Event.

Module Transforms.

Local Open Scope string_scope.
Local Open Scope Z_scope.

(** ** Stages *)

(** The event after its images and its column lists are replaced. *)
Definition with_row (b a : option json) (bu u : list string) (e : Event) : Event :=
  {| before := b; after := a; op := op e; source := source e; ts := ts e; schema := schema e;
     table := table e; primary_key := primary_key e; snapshot := snapshot e;
     transaction := transaction e; envelope_version := envelope_version e;
     before_is_key_only := before_is_key_only e; unavailable_columns := u;
     before_unavailable_columns := bu |}.

(** A configured rule that never matched. *)
Record UnmatchedRule := {
  transform : string;
  rule_kind : string;
  rule : string;
  consequence : string;
}.

(** A [HashMap<String, _>], as a list of entries. *)
Fixpoint assoc {A} (k : string) (l : list (string * A)) : option A :=
  match l with
  | [] => None
  | (k', a) :: l' => if String.eqb k k' then Some a else assoc k l'
  end.

(** [paths.sort()] *)
Fixpoint insert_path (p : string) (l : list string) : list string :=
  match l with
  | [] => [p]
  | q :: l' => match String.compare p q with Gt => q :: insert_path p l' | _ => p :: l end
  end.

Definition sort_paths (l : list string) : list string := foldr insert_path [] l.

(** [AtomicU64::fetch_add(1)] on the counter of a rule. *)
Definition hit (path : string) (hits : list (string * Z)) : list (string * Z) :=
  map (fun h => if String.eqb (fst h) path then (fst h, (snd h + 1) mod u64_modulus) else h) hits.

Class Transform (T : Type) := {
  apply : M (T * Event) bool;              (* the event is mutated in place *)
  apply_batch : M (T * list Event) unit;
  name : T -> string;
  unmatched_rules : T -> list UnmatchedRule;
}.

Section Batches.
Context {T : Type} (apply : M (T * Event) bool).

(** The default [Transform::apply_batch]: [retain_mut], which after a failure keeps the
    rest of the batch as it is. *)
Fixpoint retain_loop (t : T) (es : list Event) : Res unit * (T * list Event) :=
  match es with
  | [] => (Ok tt, (t, []))
  | e :: es' =>
      match apply (t, e) with
      | (Ok keep, (t', e')) =>
          let '(r, (t2, rest)) := retain_loop t' es' in
          (r, (t2, if keep : bool then e' :: rest else rest))
      | (Err x, (t', e')) => (Err x, (t', e' :: es'))
      | (Panic, (t', e')) => (Panic, (t', e' :: es'))
      end
  end.

Definition sync_batch : M (T * list Event) unit := fun s => retain_loop (fst s) (snd s).

(** The default [AsyncTransform::apply_batch]: the batch is taken out first, so a failure
    leaves it empty. *)
Fixpoint async_loop (t : T) (kept es : list Event) : Res unit * (T * list Event) :=
  match es with
  | [] => (Ok tt, (t, kept))
  | e :: es' =>
      match apply (t, e) with
      | (Ok keep, (t', e')) => async_loop t' (if keep : bool then kept ++ [e'] else kept)%list es'
      | (Err x, (t', _)) => (Err x, (t', []))
      | (Panic, (t', _)) => (Panic, (t', []))
      end
  end.

Definition async_batch : M (T * list Event) unit := fun s => async_loop (fst s) [] (snd s).

End Batches.

(** A pipeline over two kinds of stages. *)
Definition on_left {A B X C} (m : M (A * X) C) : A -> X -> Res C * ((A + B) * X) := fun a x =>
  let '(r, (a', x')) := m (a, x) in (r, (inl a', x')).
Definition on_right {A B X C} (m : M (B * X) C) : B -> X -> Res C * ((A + B) * X) := fun b x =>
  let '(r, (b', x')) := m (b, x) in (r, (inr b', x')).

#[export] Instance either_stage {A B} `{Transform A} `{Transform B} : Transform (A + B) := {
  apply := fun s => match fst s with
                    | inl a => on_left apply a (snd s) | inr b => on_right apply b (snd s) end;
  apply_batch := fun s => match fst s with
                          | inl a => on_left apply_batch a (snd s)
                          | inr b => on_right apply_batch b (snd s) end;
  name := fun s => match s with inl a => name a | inr b => name b end;
  unmatched_rules := fun s =>
    match s with inl a => unmatched_rules a | inr b => unmatched_rules b end;
}.

(** ** The pipeline *)

Inductive Stage (T : Type) := Sync (t : T) | Async (t : T).
Arguments Sync {T} t.
Arguments Async {T} t.

Definition stage_of {T} (s : Stage T) : T := match s with Sync t => t | Async t => t end.
Definition with_stage {T} (s : Stage T) (t : T) : Stage T :=
  match s with Sync _ => Sync t | Async _ => Async t end.

Record TransformPipeline (T : Type) := { transforms : list (Stage T) }.
Arguments transforms {T} _.
Arguments Build_TransformPipeline {T} _.

Section Pipeline.
Context {T : Type} `{Transform T}.

Definition add_transform (t : T) (p : TransformPipeline T) : TransformPipeline T :=
  {| transforms := transforms p ++ [Sync t] |}.

Definition add_async_transform (t : T) (p : TransformPipeline T) : TransformPipeline T :=
  {| transforms := transforms p ++ [Async t] |}.

Definition pipeline_unmatched_rules (p : TransformPipeline T) : list UnmatchedRule :=
  flat_map (fun s => unmatched_rules (stage_of s)) (transforms p).

(** [error.context(format!("transform '{}' failed", stage.name()))] *)
Definition stage_failed (s : Stage T) (x : Error) : Error :=
  Context ("transform '" ++ name (stage_of s) ++ "' failed") x.

(** [key_destroyed_message], up to its wording *)
Definition key_destroyed (s : Stage T) (e : Event) : Error :=
  TransformError (name (stage_of s) ++ ": transform removed the event's primary-key values for table '"
                  ++ qualified_table_name e ++ "'").

Definition keyed (e : Event) : bool := is_data_change (op e) && has_resolvable_key e.

(** The loop of [TransformPipeline::apply]. *)
Fixpoint apply_stages (key_before : bool) (ss : list (Stage T)) (e : Event)
    : Res (option Event) * list (Stage T) :=
  match ss with
  | [] => (Ok (Some e), [])
  | s :: ss' =>
      match apply (stage_of s, e) with
      | (Err x, (t, _)) => (Err (stage_failed s x), with_stage s t :: ss')
      | (Panic, (t, _)) => (Panic, with_stage s t :: ss')
      | (Ok false, (t, _)) => (Ok None, with_stage s t :: ss')
      | (Ok true, (t, e')) =>
          if key_before && declares_key e' && negb (has_resolvable_key e')
          then (Err (key_destroyed s e'), with_stage s t :: ss')
          else let '(r, ss2) := apply_stages key_before ss' e' in (r, with_stage s t :: ss2)
      end
  end.

Definition pipeline_apply (e : Event) : M (TransformPipeline T) (option Event) := fun p =>
  let '(r, ss) := apply_stages (keyed e) (transforms p) e in (r, {| transforms := ss |}).

(** An event that declares a key it does not carry, of a table that had keys. *)
Definition lost_key (keyed_tables : list string) (e : Event) : bool :=
  is_data_change (op e) && declares_key e && negb (has_resolvable_key e)
  && bool_decide (qualified_table_name e ∈ keyed_tables).

(** The loop of [TransformPipeline::apply_batch]. *)
Fixpoint batch_stages (ss : list (Stage T)) (es : list Event)
    : Res unit * (list (Stage T) * list Event) :=
  match ss with
  | [] => (Ok tt, ([], es))
  | s :: ss' =>
      let keyed_tables := map qualified_table_name (List.filter keyed es) in
      match apply_batch (stage_of s, es) with
      | (Err x, (t, es')) => (Err (stage_failed s x), (with_stage s t :: ss', es'))
      | (Panic, (t, es')) => (Panic, (with_stage s t :: ss', es'))
      | (Ok _, (t, es')) =>
          match List.find (lost_key keyed_tables) es' with
          | Some e => (Err (key_destroyed s e), (with_stage s t :: ss', es'))
          | None =>
              let '(r, (ss2, es2)) := batch_stages ss' es' in (r, (with_stage s t :: ss2, es2))
          end
      end
  end.

Definition pipeline_apply_batch (es : list Event) : M (TransformPipeline T) (list Event) := fun p =>
  match transforms p, es with
  | [], _ => (Ok es, p)
  | _, [] => (Ok es, p)
  | ss, _ =>
      let '(r, (ss', es')) := batch_stages ss es in
      (_ <-? r; Ok es', {| transforms := ss' |})
  end.

(** ** The runtime's [apply_transforms] *)

Inductive TransformErrorPolicy := Halt | Skip.

Record TransformState := {
  transform_pipeline : TransformPipeline T;
  transform_error_policy : TransformErrorPolicy;
  total_events_skipped : Z;
  dead_letters : option (list (Event * Error));  (* what the handler got, if there is one *)
}.

Definition with_pipeline (p : TransformPipeline T) (s : TransformState) : TransformState :=
  {| transform_pipeline := p; transform_error_policy := transform_error_policy s;
     total_events_skipped := total_events_skipped s; dead_letters := dead_letters s |}.

Definition skip_event (e : Event) (x : Error) (s : TransformState) : TransformState :=
  {| transform_pipeline := transform_pipeline s;
     transform_error_policy := transform_error_policy s;
     total_events_skipped := saturating_add (total_events_skipped s) 1;
     dead_letters := (fun l => l ++ [(e, x)])%list <$> dead_letters s |}.

Definition on_pipeline {A} (m : M (TransformPipeline T) A) : M TransformState A := fun s =>
  let '(r, p) := m (transform_pipeline s) in (r, with_pipeline p s).

Fixpoint skip_loop (es out : list Event) : M TransformState (list Event) := fun s =>
  match es with
  | [] => (Ok out, s)
  | e :: es' =>
      match on_pipeline (pipeline_apply e) s with
      | (Ok (Some e'), s') => skip_loop es' (out ++ [e'])%list s'
      | (Ok None, s') => skip_loop es' out s'
      | (Err x, s') => skip_loop es' out (skip_event e x s')
      | (Panic, s') => (Panic, s')
      end
  end.

Definition apply_transforms (es : list Event) : M TransformState (list Event) := fun s =>
  match transforms (transform_pipeline s), es with
  | [], _ => (Ok es, s)
  | _, [] => (Ok es, s)
  | _, _ =>
      match transform_error_policy s with
      | Halt => on_pipeline (pipeline_apply_batch es) s
      | Skip => skip_loop es [] s
      end
  end.

End Pipeline.

(** ** What the pipeline relies on of its stages *)

(** A stage decides and rewrites by its configuration, never by its counters, and leaves
    alone what identifies the event. *)
Class StageLaws (T : Type) `{Transform T} := {
  same_config : relation T;
  same_config_equiv :: Equivalence same_config;
  apply_keeps_config : forall t e, same_config t (fst (snd (apply (t, e))));
  apply_by_config : forall t t' e, same_config t t' ->
    fst (apply (t, e)) = fst (apply (t', e)) /\ snd (snd (apply (t, e))) = snd (snd (apply (t', e)));
  batch_is_default : forall t es, apply_batch (t, es) = sync_batch apply (t, es)
                               \/ apply_batch (t, es) = async_batch apply (t, es);
}.

(** The stage changes neither the table nor the operation of an event it keeps, and
    declares no key for an event that had none. *)
Definition keeps_identity {T} `{Transform T} (t : T) : Prop := forall e e' t',
  apply (t, e) = (Ok true, (t', e')) ->
  qualified_table_name e' = qualified_table_name e /\ op e' = op e /\
  (declares_key e' = true -> declares_key e = true).

(** Stages without counters, and pipelines of two kinds of stages. *)
Definition stateless {T} `{Transform T} : Prop := forall t e, fst (snd (apply (t, e))) = t.

Lemma stateless_laws {T} `{Transform T} : stateless ->
  (forall t es, apply_batch (t, es) = sync_batch apply (t, es)) -> StageLaws T.
Proof.
  intros Hs Hb. refine {| same_config := eq |}.
  - intros t e. by rewrite Hs.
  - by intros t t' e ->.
  - intros t es. left. apply Hb.
Defined.

Section Either.
Context {A B : Type} `{StageLaws A} `{StageLaws B}.

Definition same_either (x y : A + B) : Prop :=
  match x, y with
  | inl a, inl a' => same_config a a'
  | inr b, inr b' => same_config b b'
  | _, _ => False
  end.

#[local] Instance same_either_equiv : Equivalence same_either.
Proof.
  split.
  - by intros [a|b]; cbn.
  - by intros [a|b] [a'|b']; cbn.
  - intros [a|b] [a'|b'] [a2|b2]; cbn; try done; apply transitivity.
Qed.

Lemma left_loop es : forall (a : A), retain_loop (apply (T := A + B)) (inl a) es =
  let '(r, (a', es')) := retain_loop apply a es in (r, (inl a', es')).
Proof.
  induction es as [|e es IH]; intros a; [done|]. cbn [retain_loop]. cbn [apply either_stage fst snd]. unfold on_left.
  destruct (apply (a, e)) as [[k|x|] [a1 e1]]; [|done..]. rewrite IH. by destruct (retain_loop apply a1 es) as [r [a2 es2]].
Qed.

Lemma right_loop es : forall (b : B), retain_loop (apply (T := A + B)) (inr b) es =
  let '(r, (b', es')) := retain_loop apply b es in (r, (inr b', es')).
Proof.
  induction es as [|e es IH]; intros b; [done|]. cbn [retain_loop]. cbn [apply either_stage fst snd]. unfold on_right.
  destruct (apply (b, e)) as [[k|x|] [b1 e1]]; [|done..]. rewrite IH. by destruct (retain_loop apply b1 es) as [r [b2 es2]].
Qed.

Lemma left_async_loop es : forall (a : A) kept, async_loop (apply (T := A + B)) (inl a) kept es =
  let '(r, (a', es')) := async_loop apply a kept es in (r, (inl a', es')).
Proof.
  induction es as [|e es IH]; intros a kept; [done|]. cbn [async_loop]. cbn [apply either_stage fst snd]. unfold on_left.
  destruct (apply (a, e)) as [[k|x|] [a1 e1]]; [|done..]. apply IH.
Qed.

Lemma right_async_loop es : forall (b : B) kept, async_loop (apply (T := A + B)) (inr b) kept es =
  let '(r, (b', es')) := async_loop apply b kept es in (r, (inr b', es')).
Proof.
  induction es as [|e es IH]; intros b kept; [done|]. cbn [async_loop]. cbn [apply either_stage fst snd]. unfold on_right.
  destruct (apply (b, e)) as [[k|x|] [b1 e1]]; [|done..]. apply IH.
Qed.

#[export] Instance either_laws : StageLaws (A + B).
Proof.
  refine {| same_config := same_either |}.
  - intros [a|b] e; cbn; [pose proof (apply_keeps_config a e) as Hc|pose proof (apply_keeps_config b e) as Hc];
      unfold on_left, on_right; destruct (apply _) as [r [x' e']]; exact Hc.
  - intros [a|b] [a'|b'] e; cbn; try done; intros Hs; unfold on_left, on_right;
      destruct (apply_by_config _ _ e Hs) as [H3 H4];
      destruct (apply (_, e)) as [r [x1 e1]], (apply (_, e)) as [r' [x2 e2]]; cbn in *; by subst.
  - intros [a|b] es; cbn; unfold on_left, on_right.
    + destruct (batch_is_default a es) as [E|E]; rewrite E; [left|right]; unfold sync_batch, async_batch; cbn;
        by rewrite ?left_loop, ?left_async_loop.
    + destruct (batch_is_default b es) as [E|E]; rewrite E; [left|right]; unfold sync_batch, async_batch; cbn;
        by rewrite ?right_loop, ?right_async_loop.
Defined.

Lemma keeps_identity_left (a : A) : keeps_identity a -> keeps_identity (T := A + B) (inl a).
Proof.
  intros Hk e e' t'. cbn. unfold on_left. destruct (apply (a, e)) as [r [a1 e1]] eqn:E.
  intros [= -> <- <-]. by eapply Hk.
Qed.

Lemma keeps_identity_right (b : B) : keeps_identity b -> keeps_identity (T := A + B) (inr b).
Proof.
  intros Hk e e' t'. cbn. unfold on_right. destruct (apply (b, e)) as [r [b1 e1]] eqn:E.
  intros [= -> <- <-]. by eapply Hk.
Qed.

End Either.

(** Induction on JSON values through arrays and objects. *)
Lemma json_nested_ind (P : json -> Prop) :
  (forall v, as_object v = None -> (forall l, v <> JArr l) -> P v) ->
  (forall l, Forall P l -> P (JArr l)) ->
  (forall m, Forall (fun kv => P (snd kv)) m -> P (JObj m)) -> forall v, P v.
Proof.
  intros Hs Ha Ho. fix IH 1. intros [|b|n|s|l|m]; try (apply Hs; done).
  - apply Ha. induction l as [|x l IHl]; constructor; [apply IH|exact IHl].
  - apply Ho. induction m as [|[k x] m IHm]; constructor; [apply IH|exact IHm].
Qed.

(** ** Batches and single events agree *)

Lemma Forall2_omap_l {A B C} (f : A -> option B) (P : B -> option C -> Prop) l outs :
  Forall2 P (omap f l) outs ->
  exists outs', Forall2 (fun a o => match f a with Some b => P b o | None => o = None end) l outs' /\
    omap id outs' = omap id outs.
Proof.
  revert outs. induction l as [|a l IH]; simpl; intros outs Hf.
  - inv Hf. by exists [].
  - destruct (f a) as [b|] eqn:E.
    + inv Hf as [|? o ? outs1 Ho Hr]. destruct (IH _ Hr) as (outs' & H1 & H2).
      exists (o :: outs'). split; [constructor; [by rewrite E|done]|].
      destruct o as [c|]; cbn; [f_equal|]; exact H2.
    + destruct (IH _ Hf) as (outs' & H1 & H2). exists (None :: outs').
      split; [constructor; [by rewrite E|done]|done].
Qed.

Section Agreement.
Context {T : Type} `{StageLaws T}.

(** What a stage makes of an event. *)
Definition step (t : T) (e : Event) : option Event :=
  match apply (t, e) with (Ok true, (_, e')) => Some e' | _ => None end.

Definition runs (t : T) (e : Event) : Prop := exists b, fst (apply (t, e)) = Ok b.

Lemma step_config t t' e : same_config t t' -> step t e = step t' e.
Proof.
  intros Hc. destruct (apply_by_config t t' e Hc) as [Hr He]. unfold step.
  destruct (apply (t, e)) as [r [x y]], (apply (t', e)) as [r' [x' y']]. simpl in *. by subst.
Qed.

Lemma runs_config t t' e : same_config t t' -> runs t e <-> runs t' e.
Proof. intros Hc. unfold runs. by rewrite (proj1 (apply_by_config t t' e Hc)). Qed.

Lemma omap_step t e es :
  omap (step t) (e :: es) = match step t e with Some y => y :: omap (step t) es | None => omap (step t) es end.
Proof. done. Qed.

Lemma step_of t e keep t1 e1 : apply (t, e) = (Ok keep, (t1, e1)) -> step t e = if keep : bool then Some e1 else None.
Proof. intros E. unfold step. by rewrite E. Qed.

Lemma omap_config t t' (es : list Event) : same_config t t' -> omap (step t) es = omap (step t') es.
Proof. intros Hc. apply list_omap_ext, Forall_Forall2_diag, Forall_true. intros x. by apply step_config. Qed.

Lemma sync_ok es t t' es' : retain_loop apply t es = (Ok tt, (t', es')) ->
  same_config t t' /\ Forall (runs t) es /\ es' = omap (step t) es.
Proof.
  revert t es'. induction es as [|e es IH]; cbn [retain_loop]; intros t es'.
  - intros [= <- <-]. by split_and!.
  - destruct (apply (t, e)) as [[keep|x|] [t1 e1]] eqn:E; [|done..].
    destruct (retain_loop apply t1 es) as [r [t2 rest]] eqn:El. intros [= -> -> <-].
    assert (Hc : same_config t t1) by (pose proof (apply_keeps_config t e) as Hk; by rewrite E in Hk).
    destruct (IH _ _ El) as (Hc' & Hr & ->).
    split_and!; [by etransitivity| |].
    + constructor; [exists keep; by rewrite E|].
      eapply Forall_impl; [exact Hr|]. intros x. by rewrite (runs_config t t1).
    + rewrite omap_step, (step_of _ _ _ _ _ E), (omap_config _ _ es Hc). by destruct keep.
Qed.

Lemma async_ok es t kept t' es' : async_loop apply t kept es = (Ok tt, (t', es')) ->
  same_config t t' /\ Forall (runs t) es /\ es' = (kept ++ omap (step t) es)%list.
Proof.
  revert t kept. induction es as [|e es IH]; cbn [async_loop]; intros t kept.
  - intros [= <- <-]. by rewrite app_nil_r.
  - destruct (apply (t, e)) as [[keep|x|] [t1 e1]] eqn:E; [|done..]. intros Hl.
    assert (Hc : same_config t t1) by (pose proof (apply_keeps_config t e) as Hk; by rewrite E in Hk).
    destruct (IH _ _ Hl) as (Hc' & Hr & ->).
    split_and!; [by etransitivity| |].
    + constructor; [exists keep; by rewrite E|].
      eapply Forall_impl; [exact Hr|]. intros x. by rewrite (runs_config t t1).
    + rewrite omap_step, (step_of _ _ _ _ _ E), (omap_config _ _ es Hc).
      destruct keep; [by rewrite <-app_assoc|done].
Qed.

Lemma batch_ok t es t' es' : apply_batch (t, es) = (Ok tt, (t', es')) ->
  Forall (runs t) es /\ es' = omap (step t) es.
Proof.
  intros Hb. destruct (batch_is_default t es) as [E|E]; rewrite E in Hb.
  - by apply sync_ok in Hb as (_ & ? & ?).
  - by apply async_ok in Hb as (_ & ? & ?).
Qed.

(** An event with the flag [key_before] taken when it entered the pipeline: it still has
    its key, or no longer declares one. *)
Definition on_track (ke : bool * Event) : Prop := fst ke = true ->
  is_data_change (op (snd ke)) = true /\
  (declares_key (snd ke) = true -> has_resolvable_key (snd ke) = true).

Definition next (t : T) (ke : bool * Event) : option (bool * Event) :=
  (fun e' => (fst ke, e')) <$> step t (snd ke).

Lemma next_events t kes : (omap (next t) kes).*2 = omap (step t) kes.*2.
Proof.
  induction kes as [|[k e] kes IH]; cbn; [done|]. unfold next at 1. cbn.
  destruct (step t e); cbn; by rewrite IH.
Qed.

Lemma next_on_track t kes : keeps_identity t -> Forall on_track kes ->
  List.find (lost_key (map qualified_table_name (List.filter keyed kes.*2))) (omap (step t) kes.*2) = None ->
  Forall on_track (omap (next t) kes).
Proof.
  intros Hid Hk Hf. apply Forall_forall. intros [k e'] Hin.
  apply list_elem_of_omap in Hin as ([k0 e] & Hin & Hn). unfold next in Hn. cbn in Hn.
  destruct (step t e) as [e1|] eqn:Es; cbn in Hn; [|done]. inv Hn. intros Hk1. cbn in Hk1 |- *. subst.
  pose proof Es as Hap. unfold step in Hap. destruct (apply (t, e)) as [[[]|x|] [t1 e2]] eqn:E; try done. inv Hap.
  destruct (Hid _ _ _ E) as (Htab & Hop & Hdec).
  destruct (proj1 (Forall_forall _ _) Hk _ Hin eq_refl) as [Hdc Hres]. cbn in Hdc, Hres.
  rewrite Hop. split; [done|]. intros Hd. specialize (Hres (Hdec Hd)).
  assert (Hm : e' ∈ omap (step t) kes.*2).
  { apply list_elem_of_omap. exists e. split; [|done]. by apply (list_elem_of_fmap_2 snd) in Hin. }
  apply list_elem_of_In, (List.find_none _ _ Hf) in Hm. unfold lost_key in Hm.
  rewrite Hop, Hdc, Hd, bool_decide_eq_true_2 in Hm; [by destruct (has_resolvable_key e')|].
  rewrite Htab. apply list_elem_of_In, in_map, filter_In. split.
  - apply list_elem_of_In. by apply (list_elem_of_fmap_2 snd) in Hin.
  - unfold keyed. by rewrite Hdc, Hres.
Qed.

(** The outcome of the remaining stages for one event of the batch. *)
Definition outcome (ss : list (Stage T)) (ke : bool * Event) (o : option Event) : Prop :=
  fst (apply_stages (fst ke) ss (snd ke)) = Ok o /\
  forall e', o = Some e' -> fst ke = true -> declares_key e' = true -> has_resolvable_key e' = true.

Lemma outcome_cons s ss ke o : runs (stage_of s) (snd ke) ->
  (forall ke', next (stage_of s) ke = Some ke' -> on_track ke') ->
  match next (stage_of s) ke with Some ke' => outcome ss ke' o | None => o = None end ->
  outcome (s :: ss) ke o.
Proof.
  destruct ke as [k e]. intros [b Hb] Hok Hhd. unfold outcome, next, step in *. cbn [apply_stages fst snd] in *.
  destruct (apply (stage_of s, e)) as [r [t1 e1]]. cbn in Hb. subst. destruct b; cbn in Hhd, Hok.
  - specialize (Hok _ eq_refl). destruct Hhd as [Hr Hkey]. cbn in Hr, Hkey.
    assert (Hc : k && declares_key e1 && negb (has_resolvable_key e1) = false).
    { destruct k; [|done]. destruct (Hok eq_refl) as [_ Hd]. cbn in Hd.
      destruct (declares_key e1); [|done]. by rewrite Hd. }
    rewrite Hc. by destruct (apply_stages k ss e1) as [r ss1].
  - subst. by split.
Qed.

Lemma stages_agree ss kes ss' es' : Forall (fun s => keeps_identity (stage_of s)) ss ->
  Forall on_track kes -> batch_stages ss kes.*2 = (Ok tt, (ss', es')) ->
  exists outs, Forall2 (outcome ss) kes outs /\ es' = omap id outs.
Proof.
  revert kes ss'. induction ss as [|s ss IH]; intros kes ss' Hid Hk; cbn [batch_stages].
  - intros [= <- <-]. exists (map (fun ke => Some (snd ke)) kes). split.
    + apply Forall2_fmap_r, Forall_Forall2_diag, (Forall_impl on_track); [done|].
      intros ke Ht. split; [done|]. intros e' [= <-]. by apply Ht.
    + clear. induction kes as [|[k e] kes IH]; cbn; [done|]. by rewrite <-IH.
  - inv Hid as [|? ? Hs Hss]. destruct (apply_batch (stage_of s, kes.*2)) as [[[]|x|] [t es1]] eqn:Eb; [|done..].
    destruct (batch_ok _ _ _ _ Eb) as [Hruns ->]. destruct (List.find _ _) eqn:Ef; [done|].
    pose proof (next_on_track _ _ Hs Hk Ef) as Hk1.
    destruct (batch_stages ss _) as [r [ss2 es2]] eqn:Er. intros [= -> <- ->].
    rewrite <-next_events in Er. destruct (IH _ _ Hss Hk1 Er) as (outs & Ho & ->).
    destruct (Forall2_omap_l _ _ _ _ Ho) as (outs' & Ho' & <-). exists outs'. split; [|done].
    assert (Hrest : Forall (fun ke => runs (stage_of s) (snd ke) /\
              forall ke', next (stage_of s) ke = Some ke' -> on_track ke') kes).
    { apply Forall_forall. intros ke Hin. split.
      - apply (proj1 (Forall_forall _ _) Hruns). by apply list_elem_of_fmap_2.
      - intros ke' Hn. apply (proj1 (Forall_forall _ _) Hk1), list_elem_of_omap. eauto. }
    clear -Ho' Hrest. induction Ho' as [|ke o kes outs' Hhd _ IHl]; constructor; inv Hrest as [|? ? [? ?] ?]; auto.
    by apply outcome_cons.
Qed.

End Agreement.


End Transforms.
