(* ===== verification/TransformFilter.v ===== *)
(** * TransformFilter: row filters and column projection

    Models [src/src/transform/filter_projection.rs].  Rules compare a field of the event
    with a value; the ordering operators compare decimal numerals digit by digit.  The
    specification of the comparison is the order of the rationals the numerals denote.
    Regular expressions and the printing of JSON values are third-party code. *)

From Stdlib Require Import QArith Qfield Lqa.
From S2P Require Import Prelude Errors Strs Json Event Monad Transforms.
Import Event Transforms.

Module TransformFilter.

Local Open Scope string_scope.
Local Open Scope Z_scope.

(** ** Decimal numerals *)

Record Decimal := { negative : bool; integer : string; fraction : string }.

Definition is_zero (d : Decimal) : bool := is_empty (integer d) && is_empty (fraction d).

Definition is_digit (a : ascii) : bool := match digit_of a with Some _ => true | None => false end.

Fixpoint all_digits (s : string) : bool :=
  match s with EmptyString => true | String a s' => is_digit a && all_digits s' end.

(** [trim_start_matches('0')], [trim_end_matches('0')] *)
Fixpoint trim_zeros_start (s : string) : string :=
  match s with
  | String "0" s' => trim_zeros_start s'
  | _ => s
  end.

Fixpoint trim_zeros_end (s : string) : string :=
  match s with
  | EmptyString => EmptyString
  | String a s' =>
      match trim_zeros_end s' with
      | EmptyString => if Ascii.eqb a "0" then EmptyString else String a EmptyString
      | t => String a t
      end
  end.

Definition parse_decimal (input : string) : option Decimal :=
  match input with
  | EmptyString => None
  | String a rest =>
      let '(negative, digits) :=
        if Ascii.eqb a "-" then (true, rest)
        else if Ascii.eqb a "+" then (false, rest) else (false, input) in
      let '(integer, fraction) :=
        match split_once "." digits with Some p => p | None => (digits, "") end in
      if is_empty integer && is_empty fraction then None
      else if negb (all_digits integer) || negb (all_digits fraction) then None
      else Some {| negative := negative; integer := trim_zeros_start integer;
                   fraction := trim_zeros_end fraction |}
  end.

(** [Ordering::then_with] *)
Definition then_with (c d : comparison) : comparison := match c with Eq => d | _ => c end.

Definition compare_decimal (left right : string) : option comparison :=
  l ← parse_decimal (trim left);
  r ← parse_decimal (trim right);
  let left_negative := negative l && negb (is_zero l) in
  let right_negative := negative r && negb (is_zero r) in
  match left_negative, right_negative with
  | false, true => Some Gt
  | true, false => Some Lt
  | _, _ =>
      let magnitude :=
        then_with (Nat.compare (String.length (integer l)) (String.length (integer r)))
          (then_with (String.compare (integer l) (integer r))
             (String.compare (fraction l) (fraction r))) in
      Some (if left_negative then CompOpp magnitude else magnitude)
  end.

(** ** Rules *)

Inductive FilterMode := All | Any.

Inductive FilterField := Op | Table | AfterField (path : string) | BeforeField (path : string).

Inductive FilterOperator := Eq | Ne | Contains | Regex | Lt | LtEq | Gt | GtEq.

Record FilterRule := { field : FilterField; operator : FilterOperator; value : string }.

Definition describe (debug : string -> string) (r : FilterRule) : string :=
  (match field r with
   | Op => "op" | Table => "table"
   | AfterField p => "after." ++ p | BeforeField p => "before." ++ p
   end) ++ " " ++
  (match operator r with
   | Eq => "eq" | Ne => "ne" | Contains => "contains" | Regex => "regex"
   | Lt => "lt" | LtEq => "lteq" | Gt => "gt" | GtEq => "gteq"
   end) ++ " " ++ debug (value r).

Record FilterProjectionConfig := {
  filters : list FilterRule;
  filter_mode : FilterMode;
  include_columns : option (list string);
  exclude_columns : option (list string);
  pass_through_truncate : bool;
}.

Definition default_config : FilterProjectionConfig :=
  {| filters := []; filter_mode := All; include_columns := None; exclude_columns := None;
     pass_through_truncate := true |}.

(** The [regex] crate, [Value]'s [Display] and [str]'s [Debug]. *)
Class TextEngine := {
  regex : Type;
  compile : string -> option regex;
  is_match : regex -> string -> bool;
  display : json -> string;
  debug_str : string -> string;
}.

(** A rule with its entries of the parallel vectors [compiled_regexes],
    [rule_evaluations] and [rule_matches]. *)
Record CompiledRule `{TextEngine} := {
  filter_rule : FilterRule;
  compiled : option regex;
  evaluations : Z;
  matches : Z;
}.

Record FilterProjectionTransform `{TextEngine} := {
  config : FilterProjectionConfig;
  compiled_rules : list CompiledRule;
}.

Section Filter.
Context `{TextEngine}.

Definition validate (c : FilterProjectionConfig) : Res unit :=
  if is_some (include_columns c) && is_some (exclude_columns c)
  then Err (ConfigError "include_columns and exclude_columns are mutually exclusive")
  else
    fold_left (fun acc r =>
      _ <-? acc;
      if is_empty (trim (value r)) then Err (ConfigError "filter value must not be empty")
      else match operator r, compile (value r) with
           | Regex, None => Err (ConfigError "filter regex pattern is invalid")
           | _, _ => Ok tt
           end) (filters c) (Ok tt).

Definition compile_rule (r : FilterRule) : Res CompiledRule :=
  let rule re := {| filter_rule := r; compiled := re; evaluations := 0; matches := 0 |} in
  match operator r with
  | Regex =>
      match compile (value r) with
      | Some re => Ok (rule (Some re))
      | None => Err (ConfigError "filter regex pattern is invalid")
      end
  | _ => Ok (rule None)
  end.

Fixpoint compile_rules (rs : list FilterRule) : Res (list CompiledRule) :=
  match rs with
  | [] => Ok []
  | r :: rs' => c <-? compile_rule r; cs <-? compile_rules rs'; Ok (c :: cs)
  end.

(** [FilterProjectionTransform::new] *)
Definition filter_new (c : FilterProjectionConfig) : Res FilterProjectionTransform :=
  _ <-? validate c;
  rules <-? compile_rules (filters c);
  Ok {| config := c; compiled_rules := rules |}.

(** [rule_hit_count(index)] *)
Definition filter_hit_count (i : nat) (t : FilterProjectionTransform) : option Z :=
  matches <$> compiled_rules t !! i.

Definition apply_operator (left : string) (o : FilterOperator) (v : string) (re : option regex) : bool :=
  match o with
  | Eq => String.eqb left v
  | Ne => negb (String.eqb left v)
  | Contains => contains_str v left
  | Regex => match re with Some r => is_match r left | None => false end
  | Lt => match compare_decimal left v with Some Datatypes.Lt => true | _ => false end
  | LtEq => match compare_decimal left v with Some Datatypes.Gt | None => false | _ => true end
  | Gt => match compare_decimal left v with Some Datatypes.Gt => true | _ => false end
  | GtEq => match compare_decimal left v with Some Datatypes.Lt | None => false | _ => true end
  end.

Definition extract_json_field (v : json) (path : string) : option json :=
  fold_left (fun cur seg => c ← cur; obj ← as_object c; obj_get seg obj) (split "." path) (Some v).

Definition value_text (v : json) : string := match v with JStr s => s | _ => display v end.

Definition evaluate_payload (payload : option json) (path : string) (r : FilterRule) (re : option regex)
    : bool :=
  match p ← payload; extract_json_field p path with
  | None => false
  | Some v => apply_operator (value_text v) (operator r) (value r) re
  end.

Definition evaluate_rule (e : Event) (r : FilterRule) (re : option regex) : bool :=
  match field r with
  | Op => apply_operator (to_str (op e)) (operator r) (value r) re
  | Table => apply_operator (table e) (operator r) (value r) re
  | AfterField path => evaluate_payload (after e) path r re
  | BeforeField path => evaluate_payload (before e) path r re
  end.

(** [AtomicU64::fetch_add(1)] *)
Definition count (n : Z) : Z := (n + 1) mod u64_modulus.

(** A rule is evaluated and its counters move. *)
Definition visit (e : Event) (c : CompiledRule) : bool * CompiledRule :=
  let matched := evaluate_rule e (filter_rule c) (compiled c) in
  (matched, {| filter_rule := filter_rule c; compiled := compiled c;
               evaluations := count (evaluations c);
               matches := if matched then count (matches c) else matches c |}).

(** [iter.all] and [iter.any] stop at the rule that decides. *)
Fixpoint visit_rules (m : FilterMode) (e : Event) (cs : list CompiledRule) : bool * list CompiledRule :=
  match cs with
  | [] => (match m with All => true | Any => false end, [])
  | c :: cs' =>
      let '(matched, c') := visit e c in
      match m, matched with
      | All, false => (false, c' :: cs')
      | Any, true => (true, c' :: cs')
      | _, _ => let '(r, rest) := visit_rules m e cs' in (r, c' :: rest)
      end
  end.

Definition with_rules (cs : list CompiledRule) (t : FilterProjectionTransform) : FilterProjectionTransform :=
  {| config := config t; compiled_rules := cs |}.

Definition evaluate_filter (e : Event) (t : FilterProjectionTransform) : bool * FilterProjectionTransform :=
  if pass_through_truncate (config t) && bool_decide (op e = Truncate) then (true, t)
  else match compiled_rules t with
       | [] => (true, t)
       | cs => let '(r, cs') := visit_rules (filter_mode (config t)) e cs in (r, with_rules cs' t)
       end.

Definition keep_column (c : FilterProjectionConfig) (k : string) : bool :=
  match include_columns c with Some l => bool_decide (k ∈ l) | None => true end &&
  match exclude_columns c with Some l => negb (bool_decide (k ∈ l)) | None => true end.

Definition project_payload (c : FilterProjectionConfig) (payload : option json) : Res unit * option json :=
  match payload with
  | Some (JObj m) =>
      let m' := List.filter (fun kv => keep_column c (fst kv)) m in
      (match m' with
       | [] => if is_some (include_columns c) || is_some (exclude_columns c)
               then Err (TransformError "projection removed all columns from payload") else Ok tt
       | _ => Ok tt
       end, Some (JObj m'))
  | _ => (Ok tt, payload)
  end.

Definition project_unavailable (c : FilterProjectionConfig) (columns : list string) : list string :=
  List.filter (keep_column c) columns.

Definition filter_apply : M (FilterProjectionTransform * Event) bool := fun s =>
  let '(t, e) := s in
  let '(keep, t') := evaluate_filter e t in
  let c := config t in
  let same := before_unavailable_columns e in
  if negb keep then (Ok false, (t', e))
  else
    match project_payload c (before e) with
    | (Ok _, b) =>
        match project_payload c (after e) with
        | (Ok _, a) =>
            (Ok true, (t', with_row b a (project_unavailable c (before_unavailable_columns e))
                             (project_unavailable c (unavailable_columns e)) e))
        | (Err x, a) => (Err x, (t', with_row b a same (unavailable_columns e) e))
        | (Panic, a) => (Panic, (t', e))
        end
    | (Err x, b) => (Err x, (t', with_row b (after e) same (unavailable_columns e) e))
    | (Panic, b) => (Panic, (t', e))
    end.

Definition filter_consequence : string :=
  "Rows those rules were meant to select or exclude are being handled by whatever the remaining rules decide".

Definition filter_unmatched (t : FilterProjectionTransform) : list UnmatchedRule :=
  map (fun c => {| transform := "filter_projection"; rule_kind := "filter";
                   rule := describe debug_str (filter_rule c); consequence := filter_consequence |})
    (List.filter (fun c => (0 <? evaluations c) && (matches c =? 0)) (compiled_rules t)).

#[export] Instance filter_transform : Transform FilterProjectionTransform := {
  apply := filter_apply;
  apply_batch := sync_batch filter_apply;
  name := fun _ => "filter_projection";
  unmatched_rules := filter_unmatched;
}.

End Filter.

(** ** Numerals and the rationals they denote *)

Definition digit (a : ascii) : Z := from_option id 0 (digit_of a).

Fixpoint digits_value (acc : Z) (s : string) : Z :=
  match s with EmptyString => acc | String a s' => digits_value (10 * acc + digit a) s' end.

Fixpoint frac_value (s : string) : Q :=
  match s with EmptyString => 0%Q | String a s' => ((inject_Z (digit a) + frac_value s') / 10)%Q end.

Definition magnitude (i f : string) : Q := (inject_Z (digits_value 0 i) + frac_value f)%Q.

(** [digits], [digits.digits] with at least one digit. *)
Inductive Unsigned : string -> Q -> Prop :=
| whole i : all_digits i = true -> i <> "" -> Unsigned i (magnitude i "")
| pointed i f : all_digits i = true -> all_digits f = true -> (i <> "" \/ f <> "") ->
    Unsigned (i +:+ String "." f) (magnitude i f).

Inductive Numeral : string -> Q -> Prop :=
| plain s q : Unsigned s q -> Numeral s q
| plus s q : Unsigned s q -> Numeral (String "+" s) q
| minus s q : Unsigned s q -> Numeral (String "-" s) (- q).

Definition dec_value (d : Decimal) : Q :=
  let m := magnitude (integer d) (fraction d) in if negative d then (- m)%Q else m.

Lemma digit_range a : 0 <= digit a < 10.
Proof. unfold digit, digit_of. case_match eqn:E; cbn; [|lia]. apply andb_true_iff in E. lia. Qed.

Lemma digit_compare a b : is_digit a = true -> is_digit b = true -> Ascii.compare a b = (digit a ?= digit b).
Proof.
  unfold is_digit, digit, digit_of, Ascii.compare. repeat case_match; try done. intros _ _. simplify_eq. cbn.
  unfold code, nat_of_ascii. rewrite !N_nat_Z.
  destruct (N.compare_spec (N_of_ascii a) (N_of_ascii b)), (Z.compare_spec (Z.of_N (N_of_ascii a) - 48) (Z.of_N (N_of_ascii b) - 48));
    try done; subst; lia.
Qed.

Lemma zero_digit a : is_digit a = true -> digit a = 0 -> a = "0"%char.
Proof.
  unfold is_digit, digit, digit_of, code. destruct (_ && _); [|done]. intros _. cbn. intros Hz.
  rewrite <-(ascii_nat_embedding a). replace (nat_of_ascii a) with 48%nat by lia. done.
Qed.

(** *** Integer parts *)

Definition no_leading_zero (s : string) : Prop := match s with String "0" _ => False | _ => True end.

Lemma digits_value_bounds s acc : all_digits s = true -> 0 <= acc ->
  acc * 10 ^ Z.of_nat (String.length s) <= digits_value acc s < (acc + 1) * 10 ^ Z.of_nat (String.length s).
Proof.
  revert acc. induction s as [|a s IH]; intros acc; cbn [all_digits digits_value String.length]; [lia|].
  intros [_ Hs]%andb_true_iff Hacc. pose proof (digit_range a) as Hd.
  specialize (IH (10 * acc + digit a) Hs ltac:(lia)). rewrite Nat2Z.inj_succ, Z.pow_succ_r by lia.
  pose proof (Z.pow_pos_nonneg 10 (Z.of_nat (String.length s))). nia.
Qed.

Lemma leading_bound s : all_digits s = true -> no_leading_zero s -> s <> "" ->
  10 ^ (Z.of_nat (String.length s) - 1) <= digits_value 0 s.
Proof.
  destruct s as [|a s]; [done|]. cbn [all_digits digits_value String.length]. intros [Ha Hs]%andb_true_iff Hz _.
  pose proof (digit_range a). assert (Hd : digit a <> 0) by (intros ->%zero_digit; done).
  destruct (digits_value_bounds s (10 * 0 + digit a) Hs) as [Hlo _]; [lia|].
  replace (Z.of_nat (S (String.length s)) - 1) with (Z.of_nat (String.length s)) by lia.
  pose proof (Z.pow_pos_nonneg 10 (Z.of_nat (String.length s))). nia.
Qed.

Lemma shorter_is_less s t : all_digits s = true -> all_digits t = true -> no_leading_zero t ->
  (String.length s < String.length t)%nat -> digits_value 0 s < digits_value 0 t.
Proof.
  intros Hs Ht Hz Hl. destruct (digits_value_bounds s 0 Hs) as [_ Hhi]; [lia|].
  pose proof (leading_bound t Ht Hz ltac:(by destruct t; simpl in Hl; [lia|])).
  pose proof (Z.pow_le_mono_r 10 (Z.of_nat (String.length s)) (Z.of_nat (String.length t) - 1)). lia.
Qed.

Lemma same_length_compare s t acc acc' : all_digits s = true -> all_digits t = true -> 0 <= acc -> 0 <= acc' ->
  String.length s = String.length t ->
  (digits_value acc s ?= digits_value acc' t) = then_with (acc ?= acc') (String.compare s t).
Proof.
  revert t acc acc'. induction s as [|a s IH]; intros [|b t] acc acc'; cbn [all_digits digits_value String.length];
    try done; [by destruct (acc ?= acc')|].
  intros [Ha Hs]%andb_true_iff [Hb Ht]%andb_true_iff H1 H2 [= Hl].
  pose proof (digit_range a). pose proof (digit_range b). rewrite IH by (done || lia).
  cbn [String.compare]. rewrite digit_compare by done. unfold then_with.
  destruct (Z.compare_spec (10 * acc + digit a) (10 * acc' + digit b)), (Z.compare_spec acc acc'),
    (Z.compare_spec (digit a) (digit b)); try done; lia.
Qed.

(** The length, then the digits, order numerals without leading zeros. *)
Lemma integer_compare s t : all_digits s = true -> all_digits t = true ->
  no_leading_zero s -> no_leading_zero t ->
  (digits_value 0 s ?= digits_value 0 t)
  = then_with (Nat.compare (String.length s) (String.length t)) (String.compare s t).
Proof.
  intros Hs Ht Hzs Hzt. destruct (Nat.compare_spec (String.length s) (String.length t)) as [Hl|Hl|Hl]; cbn.
  - by rewrite same_length_compare.
  - by apply Z.compare_lt_iff, shorter_is_less.
  - by apply Z.compare_gt_iff, shorter_is_less.
Qed.

(** *** Fraction parts *)

Fixpoint no_trailing_zero (s : string) : Prop :=
  match s with
  | EmptyString => True
  | String a EmptyString => a <> "0"%char
  | String _ s' => no_trailing_zero s'
  end.

Lemma no_trailing_tail a s : no_trailing_zero (String a s) -> no_trailing_zero s.
Proof. by destruct s. Qed.

Lemma frac_step (a : ascii) (q : Q) : (0 <= q < 1 -> 0 <= (inject_Z (digit a) + q) / 10 < 1)%Q.
Proof.
  intros [H0 H1]. pose proof (digit_range a) as [Hl Hh].
  assert (Hl' : (0 <= inject_Z (digit a))%Q) by (change 0%Q with (inject_Z 0); by rewrite <-Zle_Qle).
  assert (Hh' : (inject_Z (digit a) <= 9)%Q) by (change 9%Q with (inject_Z 9); rewrite <-Zle_Qle; lia).
  unfold Qdiv. change (/ 10)%Q with (1 # 10)%Q. split; lra.
Qed.

Lemma frac_range s : (0 <= frac_value s < 1)%Q.
Proof. induction s as [|a s IH]; cbn [frac_value]; [split; lra|]. by apply frac_step. Qed.

Lemma frac_pos s : s <> "" -> all_digits s = true -> no_trailing_zero s -> (0 < frac_value s)%Q.
Proof.
  induction s as [|a s IH]; [done|]. cbn [frac_value all_digits]. intros _ [Ha Hs]%andb_true_iff Hz.
  pose proof (digit_range a) as [Hl _]. pose proof (frac_range s) as [Hf _].
  assert (Hl' : (0 <= inject_Z (digit a))%Q) by (change 0%Q with (inject_Z 0); by rewrite <-Zle_Qle).
  unfold Qdiv. change (/ 10)%Q with (1 # 10)%Q. destruct s as [|b s].
  - assert (Hd : 1 <= digit a) by (destruct (decide (digit a = 0)) as [E|]; [by apply zero_digit in E|lia]).
    assert ((1 <= inject_Z (digit a))%Q) by (change 1%Q with (inject_Z 1); by rewrite <-Zle_Qle).
    cbn [frac_value]. lra.
  - specialize (IH ltac:(done) Hs (no_trailing_tail _ _ Hz)). lra.
Qed.

Lemma Qcompare_shift (d d' : Z) (p q : Q) : (0 <= p < 1 -> 0 <= q < 1 ->
  ((inject_Z d + p) ?= (inject_Z d' + q)) = then_with (d ?= d')%Z (p ?= q))%Q.
Proof.
  intros Hp Hq. destruct (Z.compare_spec d d') as [->|Hlt|Hlt]; cbn [then_with].
  - destruct (Qcompare_spec p q).
    + apply (proj1 (Qeq_alt _ _)). lra.
    + apply (proj1 (Qlt_alt _ _)). lra.
    + apply (proj1 (Qgt_alt _ _)). lra.
  - apply (proj1 (Qlt_alt _ _)). assert ((inject_Z d + 1 <= inject_Z d')%Q); [|lra].
    change 1%Q with (inject_Z 1). rewrite <-inject_Z_plus, <-Zle_Qle. lia.
  - apply (proj1 (Qgt_alt _ _)). assert ((inject_Z d' + 1 <= inject_Z d)%Q); [|lra].
    change 1%Q with (inject_Z 1). rewrite <-inject_Z_plus, <-Zle_Qle. lia.
Qed.

Lemma Qcompare_tenth p q : ((p / 10 ?= q / 10) = (p ?= q))%Q.
Proof.
  unfold Qdiv. change (/ 10)%Q with (1 # 10)%Q. destruct (Qcompare_spec p q).
  - apply (proj1 (Qeq_alt _ _)). lra.
  - apply (proj1 (Qlt_alt _ _)). lra.
  - apply (proj1 (Qgt_alt _ _)). lra.
Qed.

(** The digits order fractions without trailing zeros. *)
Lemma fraction_compare s t : all_digits s = true -> all_digits t = true ->
  no_trailing_zero s -> no_trailing_zero t ->
  (frac_value s ?= frac_value t)%Q = String.compare s t.
Proof.
  revert t. induction s as [|a s IH]; intros [|b t] Hs Ht Hzs Hzt; [done| | |].
  - apply (proj1 (Qlt_alt _ _)). by apply frac_pos.
  - apply (proj1 (Qgt_alt _ _)). by apply frac_pos.
  - cbn [frac_value all_digits String.compare] in *. apply andb_true_iff in Hs as [Ha Hs], Ht as [Hb Ht].
    rewrite Qcompare_tenth, Qcompare_shift by apply frac_range.
    rewrite digit_compare, IH by eauto using no_trailing_tail. by destruct (digit a ?= digit b).
Qed.


(** *** Parsing *)

Lemma trim_start_digits s : all_digits s = true -> all_digits (trim_zeros_start s) = true /\
  no_leading_zero (trim_zeros_start s) /\ digits_value 0 (trim_zeros_start s) = digits_value 0 s.
Proof.
  induction s as [|a s IH]; [done|]. intros Hs. pose proof Hs as [Ha Ht]%andb_true_iff.
  destruct (decide (a = "0"%char)) as [->|Hne]; [exact (IH Ht)|].
  assert (E : trim_zeros_start (String a s) = String a s /\ no_leading_zero (String a s)); [|by destruct E as [-> ?]].
  cbn. repeat case_match; subst; done.
Qed.

Lemma trim_end_digits s : all_digits s = true -> all_digits (trim_zeros_end s) = true /\
  no_trailing_zero (trim_zeros_end s) /\ (frac_value (trim_zeros_end s) == frac_value s)%Q.
Proof.
  induction s as [|a s IH]; [done|]. intros [Ha Ht]%andb_true_iff. destruct (IH Ht) as (H1 & H2 & H3).
  cbn [trim_zeros_end frac_value]. destruct (trim_zeros_end s) as [|b t].
  - cbn [frac_value] in H3. destruct (Ascii.eqb_spec a "0"%char) as [->|Hne]; cbn [frac_value].
    + split_and!; [done..|]. rewrite <-H3. reflexivity.
    + split_and!; [cbn; by rewrite Ha|done|]. by rewrite <-H3.
  - split_and!; [|done|]; [cbn [all_digits]; by rewrite Ha|]. change (frac_value (String a (String b t)))
      with ((inject_Z (digit a) + frac_value (String b t)) / 10)%Q. by rewrite H3.
Qed.

Lemma digits_no_char c s : digit_of c = None -> all_digits s = true -> contains_char c s = false.
Proof.
  intros Hc. induction s as [|a s IH]; cbn; [done|]. intros [Ha Hs]%andb_true_iff. rewrite (IH Hs).
  unfold is_digit in Ha. destruct (digit_of a) eqn:E; [|done]. by rewrite (digit_no_char c a _ E Hc).
Qed.

Definition normal (d : Decimal) : Prop :=
  all_digits (integer d) = true /\ no_leading_zero (integer d) /\
  all_digits (fraction d) = true /\ no_trailing_zero (fraction d).

(** The digits of an unsigned numeral, as [parse_decimal] splits and trims them. *)
Definition parse_unsigned (neg : bool) (digits : string) : option Decimal :=
  let '(integer, fraction) :=
    match split_once "." digits with Some p => p | None => (digits, "") end in
  if is_empty integer && is_empty fraction then None
  else if negb (all_digits integer) || negb (all_digits fraction) then None
  else Some {| negative := neg; integer := trim_zeros_start integer; fraction := trim_zeros_end fraction |}.

Lemma parse_decimal_eq a rest : parse_decimal (String a rest) =
  if Ascii.eqb a "-" then parse_unsigned true rest
  else if Ascii.eqb a "+" then parse_unsigned false rest else parse_unsigned false (String a rest).
Proof. cbn [parse_decimal]. destruct (Ascii.eqb a "-"), (Ascii.eqb a "+"); reflexivity. Qed.

Lemma is_empty_spec s : is_empty s = true <-> s = "".
Proof. unfold is_empty. apply String.eqb_eq. Qed.

Lemma split_parts s i f : match split_once "." s with Some p => p | None => (s, "") end = (i, f) ->
  all_digits i = true -> (s = i /\ f = "") \/ s = i +:+ String "." f.
Proof.
  destruct (split_once "." s) as [[l r]|] eqn:E; intros [= -> ->] _; [right|by left].
  by apply split_once_spec in E as [? _].
Qed.

Lemma unsigned_parse neg s q : Unsigned s q <->
  exists i f d, q = magnitude i f /\ parse_unsigned neg s = Some d /\ normal d /\ negative d = neg /\
    (magnitude (integer d) (fraction d) == magnitude i f)%Q /\
    match split_once "." s with Some p => p | None => (s, "") end = (i, f) /\
    all_digits i = true /\ all_digits f = true.
Proof.
  assert (Hd : forall i f, match split_once "." s with Some p => p | None => (s, "") end = (i, f) ->
    all_digits i = true -> all_digits f = true -> (i <> "" \/ f <> "") ->
    exists d, parse_unsigned neg s = Some d /\ normal d /\ negative d = neg /\
      (magnitude (integer d) (fraction d) == magnitude i f)%Q).
  { intros i f E Hi Hf Hne. unfold parse_unsigned. rewrite E, Hi, Hf. cbn.
    destruct (is_empty i && is_empty f) eqn:Ee.
    { apply andb_true_iff in Ee as [?%is_empty_spec ?%is_empty_spec]. by destruct Hne. }
    eexists. split; [done|]. destruct (trim_start_digits i Hi) as (A & B & C), (trim_end_digits f Hf) as (D & F & G).
    unfold normal, magnitude. cbn. rewrite C, G. by split_and!. }
  split.
  - intros Hu. inv Hu as [? Hi Hne|i f Hi Hf Hne].
    + assert (E : match split_once "." s with Some p => p | None => (s, "") end = (s, "")).
      { destruct (split_once "." s) as [[l r]|] eqn:E; [|done].
        apply split_once_spec in E as [E _]. apply (digits_no_char ".") in Hi; [|done].
        by rewrite E, contains_char_mid in Hi. }
      destruct (Hd _ _ E Hi ltac:(done) (or_introl Hne)) as (d & ? & ? & ? & ?). exists s, "", d. by split_and!.
    + assert (E : split_once "." (i +:+ String "." f) = Some (i, f)).
      { apply split_once_here. by apply digits_no_char. }
      rewrite E in *. destruct (Hd _ _ eq_refl Hi Hf Hne) as (d & ? & ? & ? & ?). exists i, f, d. by split_and!.
  - intros (i & f & d & -> & Hp & _ & _ & _ & E & Hi & Hf).
    assert (Hne : i <> "" \/ f <> "").
    { unfold parse_unsigned in Hp. rewrite E in Hp. destruct i; [|by left]. destruct f; [done|by right]. }
    destruct (split_parts _ _ _ E Hi) as [[-> ->]| ->].
    + constructor; [done|]. by destruct Hne.
    + by constructor.
Qed.

Lemma parse_unsigned_unsigned neg s d : parse_unsigned neg s = Some d -> exists q, Unsigned s q.
Proof.
  unfold parse_unsigned. destruct (match split_once "." s with Some p => p | None => (s, "") end) as [i f] eqn:E.
  destruct (is_empty i && is_empty f) eqn:Ee; [done|].
  destruct (all_digits i) eqn:Hi; [|done]. destruct (all_digits f) eqn:Hf; [|done]. intros _.
  assert (Hne : i <> "" \/ f <> "") by (destruct i; [destruct f; [done|by right]|by left]).
  destruct (split_parts _ _ _ E Hi) as [[-> ->]| ->]; eexists.
  - constructor; [done|]. by destruct Hne.
  - by constructor.
Qed.

Lemma unsigned_head s q : Unsigned s q -> exists a t, s = String a t /\ Ascii.eqb a "-" = false /\ Ascii.eqb a "+" = false.
Proof.
  assert (Hd : forall a, is_digit a = true -> Ascii.eqb a "-" = false /\ Ascii.eqb a "+" = false).
  { intros a. unfold is_digit. destruct (digit_of a) eqn:E; [|done]. intros _.
    split; by apply (digit_no_char _ a _ E). }
  intros [i Hi Hne|i f Hi Hf _]; destruct i as [|a i]; try done; cbn in Hi.
  - apply andb_true_iff in Hi as [Ha _]. exists a, i. by destruct (Hd a Ha).
  - by eexists _, _.
  - apply andb_true_iff in Hi as [Ha _]. exists a, (i +:+ String "." f). by destruct (Hd a Ha).
Qed.

(** Parsing accepts exactly the numerals and keeps their value. *)
Lemma numeral_parse s q : Numeral s q ->
  exists d, parse_decimal s = Some d /\ normal d /\ (q == dec_value d)%Q.
Proof.
  intros [u v Hu|u v Hu|u v Hu].
  - destruct (unsigned_head _ _ Hu) as (a & t & -> & Hm & Hp).
    apply (unsigned_parse false) in Hu as (i & f & d & -> & Hd & Hn & Hneg & He & _).
    exists d. rewrite parse_decimal_eq, Hm, Hp. unfold dec_value. by rewrite Hneg, He.
  - apply (unsigned_parse false) in Hu as (i & f & d & -> & Hd & Hn & Hneg & He & _).
    exists d. rewrite parse_decimal_eq. unfold dec_value. by rewrite Hneg, He.
  - apply (unsigned_parse true) in Hu as (i & f & d & -> & Hd & Hn & Hneg & He & _).
    exists d. rewrite parse_decimal_eq. unfold dec_value. by rewrite Hneg, He.
Qed.

Lemma parse_numeral s d : parse_decimal s = Some d -> exists q, Numeral s q.
Proof.
  destruct s as [|a s]; [done|]. rewrite parse_decimal_eq.
  destruct (Ascii.eqb_spec a "-") as [->|_]; [|destruct (Ascii.eqb_spec a "+") as [->|_]];
    intros [q Hu]%parse_unsigned_unsigned; eexists; by constructor.
Qed.

(** *** Comparing *)

Lemma magnitude_pos d : normal d -> is_zero d = false -> (0 < magnitude (integer d) (fraction d))%Q.
Proof.
  intros (Hi & Hzi & Hf & Hzf) Hz. unfold magnitude. pose proof (frac_range (fraction d)) as [Hlo _].
  assert (Hint : 0 <= digits_value 0 (integer d)) by (destruct (digits_value_bounds (integer d) 0 Hi); lia).
  assert (Hq : (0 <= inject_Z (digits_value 0 (integer d)))%Q) by (change 0%Q with (inject_Z 0); by rewrite <-Zle_Qle).
  destruct (decide (integer d = "")) as [E|Hne].
  - assert (Hfne : fraction d <> "").
    { intros Ef. unfold is_zero in Hz. by rewrite E, Ef in Hz. }
    pose proof (frac_pos _ Hfne Hf Hzf). lra.
  - pose proof (leading_bound _ Hi Hzi Hne). destruct (integer d) as [|a i]; [done|].
    assert (Hp : 0 < digits_value 0 (String a i)).
    { eapply Z.lt_le_trans; [|done]. apply Z.pow_pos_nonneg; cbn [String.length]; lia. }
    assert ((1 <= inject_Z (digits_value 0 (String a i)))%Q); [|lra].
    change 1%Q with (inject_Z 1). rewrite <-Zle_Qle. lia.
Qed.

Lemma magnitude_zero d : is_zero d = true -> magnitude (integer d) (fraction d) = 0%Q.
Proof. unfold is_zero. intros [->%is_empty_spec ->%is_empty_spec]%andb_true_iff. done. Qed.

Lemma magnitude_compare l r : normal l -> normal r ->
  (magnitude (integer l) (fraction l) ?= magnitude (integer r) (fraction r))%Q
  = then_with (Nat.compare (String.length (integer l)) (String.length (integer r)))
      (then_with (String.compare (integer l) (integer r)) (String.compare (fraction l) (fraction r))).
Proof.
  intros (Hl & Hzl & Hfl & Hzfl) (Hr & Hzr & Hfr & Hzfr). unfold magnitude.
  rewrite Qcompare_shift by apply frac_range. rewrite integer_compare, fraction_compare by done.
  unfold then_with. by repeat case_match.
Qed.

Lemma Qcompare_opp p q : ((- p ?= - q) = CompOpp (p ?= q))%Q.
Proof.
  destruct (Qcompare_spec p q).
  - apply (proj1 (Qeq_alt _ _)). lra.
  - apply (proj1 (Qgt_alt _ _)). lra.
  - apply (proj1 (Qlt_alt _ _)). lra.
Qed.

(** The value and its sign as [compare_decimal] takes it. *)
Definition signed (d : Decimal) : bool := negative d && negb (is_zero d).

Lemma signed_value d : (dec_value d == if signed d then - magnitude (integer d) (fraction d)
                                        else magnitude (integer d) (fraction d))%Q.
Proof.
  unfold dec_value, signed. destruct (negative d); cbn; [|done].
  destruct (is_zero d) eqn:Ez; cbn; [|done]. by rewrite magnitude_zero.
Qed.

Lemma magnitude_nonneg d : normal d -> (0 <= magnitude (integer d) (fraction d))%Q.
Proof.
  intros Hn. destruct (is_zero d) eqn:Ez; [by rewrite magnitude_zero|].
  by apply Qlt_le_weak, magnitude_pos.
Qed.

Lemma signed_pos d : normal d -> signed d = true -> (0 < magnitude (integer d) (fraction d))%Q.
Proof. intros Hn [_ Hz%negb_true_iff]%andb_true_iff. by apply magnitude_pos. Qed.

Lemma compare_normal left right l r : parse_decimal (trim left) = Some l -> parse_decimal (trim right) = Some r ->
  normal l -> normal r -> compare_decimal left right = Some (dec_value l ?= dec_value r)%Q.
Proof.
  intros El Er Hl Hr. unfold compare_decimal. rewrite El, Er. cbn [mbind option_bind]. fold (signed l) (signed r).
  rewrite (signed_value l), (signed_value r), <-magnitude_compare by done.
  pose proof (magnitude_nonneg l Hl). pose proof (magnitude_nonneg r Hr).
  destruct (signed l) eqn:Sl, (signed r) eqn:Sr; f_equal; [by rewrite Qcompare_opp| |].
  - symmetry. apply (proj1 (Qlt_alt _ _)). pose proof (signed_pos l Hl Sl). lra.
  - symmetry. apply (proj1 (Qgt_alt _ _)). pose proof (signed_pos r Hr Sr). lra.
Qed.

(** C21: the comparison of filter values orders numbers exactly: it answers for exactly the pairs of texts that,
    trimmed, are decimal numerals with an optional sign and at least one digit, and its answer is the order of the
    two rational numbers, whatever their length, their sign, leading or trailing zeros, or a negative zero. *)
Theorem compare_decimal_exact left right c :
  compare_decimal left right = Some c <->
  exists p q, Numeral (trim left) p /\ Numeral (trim right) q /\ (p ?= q)%Q = c.
Proof.
  split.
  - intros Hc. destruct (parse_decimal (trim left)) as [l|] eqn:El; [|by unfold compare_decimal in Hc; rewrite El in Hc].
    destruct (parse_decimal (trim right)) as [r|] eqn:Er; [|by unfold compare_decimal in Hc; rewrite El, Er in Hc].
    destruct (parse_numeral _ _ El) as [p Hp], (parse_numeral _ _ Er) as [q Hq]. exists p, q. split_and!; [done..|].
    destruct (numeral_parse _ _ Hp) as (l' & El' & Hl & Vl), (numeral_parse _ _ Hq) as (r' & Er' & Hr & Vr).
    rewrite (compare_normal _ _ _ _ El' Er' Hl Hr) in Hc. rewrite Vl, Vr. by injection Hc.
  - intros (p & q & Hp & Hq & <-).
    destruct (numeral_parse _ _ Hp) as (l' & El' & Hl & Vl), (numeral_parse _ _ Hq) as (r' & Er' & Hr & Vr).
    rewrite (compare_normal _ _ _ _ El' Er' Hl Hr). by rewrite Vl, Vr.
Qed.

(** ** The stage *)

Section Laws.
Context `{TextEngine}.

Definition decide_rules (m : FilterMode) (e : Event) (cs : list (FilterRule * option regex)) : bool :=
  let matched c := evaluate_rule e (fst c) (snd c) in
  match m with All => forallb matched cs | Any => existsb matched cs end.

Definition rules_of (cs : list CompiledRule) : list (FilterRule * option regex) :=
  map (fun c => (filter_rule c, compiled c)) cs.

(** Stopping early changes neither the verdict nor the rules. *)
Lemma visit_rules_spec m e cs :
  fst (visit_rules m e cs) = decide_rules m e (rules_of cs) /\ rules_of (snd (visit_rules m e cs)) = rules_of cs.
Proof.
  induction cs as [|c cs [IH1 IH2]]; [by destruct m|]. cbn [visit_rules visit].
  assert (Hd : decide_rules m e (rules_of (c :: cs)) = match m with
    | All => evaluate_rule e (filter_rule c) (compiled c) && decide_rules m e (rules_of cs)
    | Any => evaluate_rule e (filter_rule c) (compiled c) || decide_rules m e (rules_of cs) end) by (by destruct m).
  rewrite Hd. destruct (visit_rules m e cs) as [r rest]. cbn [fst snd] in IH1, IH2. subst r.
  destruct (evaluate_rule e (filter_rule c) (compiled c)), m; cbn; (split; [done|]); f_equal; done || exact IH2.
Qed.

(** What the filter decides, by the configuration alone. *)
Definition verdict (c : FilterProjectionConfig) (rs : list (FilterRule * option regex)) (e : Event) : bool :=
  pass_through_truncate c && bool_decide (op e = Truncate)
  || match rs with [] => true | _ => decide_rules (filter_mode c) e rs end.

Definition same_filter (t t' : FilterProjectionTransform) : Prop :=
  config t = config t' /\ rules_of (compiled_rules t) = rules_of (compiled_rules t').

Lemma evaluate_filter_spec e t :
  fst (evaluate_filter e t) = verdict (config t) (rules_of (compiled_rules t)) e /\
  same_filter t (snd (evaluate_filter e t)).
Proof.
  unfold evaluate_filter, verdict. destruct (pass_through_truncate _ && _); [done|].
  destruct (compiled_rules t) as [|c cs] eqn:E; [by split|].
  destruct (visit_rules_spec (filter_mode (config t)) e (c :: cs)) as [H1 H2].
  destruct (visit_rules _ e (c :: cs)) as [r cs']. cbn [fst snd] in *. split; [done|].
  split; [done|]. by rewrite E.
Qed.

#[export] Instance same_filter_equiv : Equivalence same_filter.
Proof.
  split; [by intros t|by intros t t' [? ?]|].
  intros t1 t2 t3 [E1 E2] [E3 E4]. split; by etransitivity.
Qed.

#[export] Instance filter_laws : StageLaws FilterProjectionTransform.
Proof.
  refine {| same_config := same_filter |}.
  - intros t e. cbn. destruct (evaluate_filter_spec e t) as [_ Hs].
    destruct (evaluate_filter e t) as [[] t']; cbn in *; [|done].
    destruct (project_payload _ (before e)) as [[[]|x|] b]; [|done..].
    by destruct (project_payload _ (after e)) as [[[]|x|] a].
  - intros t t' e Hs. cbn. destruct (evaluate_filter_spec e t) as [V _], (evaluate_filter_spec e t') as [V' _].
    destruct Hs as [Hc Hr]. rewrite <-Hc, <-Hr in V'. rewrite <-Hc.
    destruct (evaluate_filter e t) as [k t1], (evaluate_filter e t') as [k' t1']. cbn in V, V'. subst k k'.
    destruct (verdict _ _ e); cbn; [|done]. destruct (project_payload _ (before e)) as [[[]|x|] b]; [|done..].
    by destruct (project_payload _ (after e)) as [[[]|x|] a].
  - by left.
Defined.

Lemma filter_keeps_identity (t : FilterProjectionTransform) : keeps_identity t.
Proof.
  intros e e' t'. cbn. destruct (evaluate_filter e t) as [[] t1]; cbn; [|done].
  destruct (project_payload _ (before e)) as [[[]|x|] b]; [|done..].
  destruct (project_payload _ (after e)) as [[[]|x|] a]; [|done..]. by intros [= <- <-].
Qed.

(** A reported rule was evaluated and matched nothing, and a rule no event has reached is
    not reported. *)
Lemma unmatched_were_evaluated t u : u ∈ filter_unmatched t ->
  exists c, c ∈ compiled_rules t /\ 0 < evaluations c /\ matches c = 0 /\ rule u = describe debug_str (filter_rule c).
Proof.
  intros Hu. apply list_elem_of_In, in_map_iff in Hu as (c & <- & Hc).
  apply filter_In in Hc as [Hin [H1 H2]%andb_true_iff]. exists c.
  split_and!; [by apply list_elem_of_In|lia|lia|done].
Qed.

End Laws.

End TransformFilter.
