(* ===== verification/TransformMask.v ===== *)
(** * TransformMask: masking, hashing and field encryption

    Models [src/src/transform/mask_hash.rs], with the [encryption] feature.  The walk
    mutates a payload in place, builds dotted paths as it descends and counts the fields
    each rule covered.  Hashing, AES-GCM, HKDF, base64 and the printing of JSON are
    third-party code; a secret is what its [resolve] answers, and the nonces the system
    hands out are a script. *)

From S2P Require Import Prelude Errors Strs Json Event Monad Transforms.
Import Event Transforms.

Module TransformMask.

Local Open Scope string_scope.
Local Open Scope Z_scope.

(** ** Configuration *)

Definition SecretString : Type := Res string.

Inductive MaskRule :=
| UnsaltedSha256
| Redact (placeholder : string)
| Null
| TruncateTo (n : nat)
| Passthrough
| HmacSha256 (secret : SecretString)
| Encrypt (secret : SecretString)
| Decrypt (secret : SecretString).

Definition is_passthrough (r : MaskRule) : bool := match r with Passthrough => true | _ => false end.

Record MaskHashConfig := {
  mask_rules : list (string * MaskRule);
  default_rule : MaskRule;
}.

Definition default_config : MaskHashConfig := {| mask_rules := []; default_rule := Passthrough |}.
Definition hash_all : MaskHashConfig := {| mask_rules := []; default_rule := UnsaltedSha256 |}.

Definition validate_rule (path : string) (r : MaskRule) : Res unit :=
  if is_empty (trim path) then Err (ConfigError "mask rule path must not be empty")
  else match r with
       | TruncateTo 0 => Err (ConfigError "mask rule is Truncate(0)")
       | Redact p => if is_empty p then Err (ConfigError "mask rule redacts to an empty string") else Ok tt
       | _ => Ok tt
       end.

Fixpoint validate_rules (l : list (string * MaskRule)) : Res unit :=
  match l with
  | [] => Ok tt
  | (path, r) :: l' => _ <-? validate_rule path r; validate_rules l'
  end.

Definition validate (c : MaskHashConfig) : Res unit :=
  validate_rules (mask_rules c ++ [("<default_rule>", default_rule c)]).

(** The stage: its configuration, a counter per rule in the order of the sorted paths,
    and the nonces the system still hands out ([None]: the entropy source fails). *)
Record MaskHashTransform := {
  config : MaskHashConfig;
  rule_hits : list (string * Z);
  entropy : list (option (list byte));
}.

Definition new_unchecked (c : MaskHashConfig) (nonces : list (option (list byte))) : MaskHashTransform :=
  {| config := c; rule_hits := map (fun p => (p, 0)) (sort_paths (map fst (mask_rules c)));
     entropy := nonces |}.

Definition mask_new (c : MaskHashConfig) (nonces : list (option (list byte))) : Res MaskHashTransform :=
  _ <-? validate c; Ok (new_unchecked c nonces).

Definition unmatched_rule_paths (t : MaskHashTransform) : list string :=
  map fst (List.filter (fun h => snd h =? 0) (rule_hits t)).

Definition mask_hit_count (path : string) (t : MaskHashTransform) : option Z := assoc path (rule_hits t).

Definition record_rule_hit (path : string) (t : MaskHashTransform) : MaskHashTransform :=
  {| config := config t;
     rule_hits := hit path (rule_hits t);
     entropy := entropy t |}.

(** ** Rules applied to a value *)

Class MaskCrypto := {
  sha256 : list byte -> list byte;
  hmac_sha256 : list byte -> list byte -> list byte;
  hkdf_expand : list byte -> list byte -> list byte;            (* key material, label *)
  aes_seal : list byte -> list byte -> list byte -> list byte -> option (list byte);  (* key nonce aad text *)
  aes_open : list byte -> list byte -> list byte -> list byte -> option (list byte);
  b64_encode : list byte -> string;
  b64_decode : string -> option (list byte);
  json_text : json -> string;                                   (* [Value::to_string] *)
}.

(** [s.chars().take(n).collect()]: a character starts at a byte that continues none. *)
Definition continues (a : ascii) : bool := (128 <=? code a) && (code a <? 192).

Fixpoint take_chars (n : nat) (s : string) : string :=
  match s with
  | EmptyString => EmptyString
  | String a s' =>
      if continues a then String a (take_chars n s')
      else match n with O => EmptyString | S n' => String a (take_chars n' s') end
  end.

Section Mask.
Context `{MaskCrypto} `{JsonCodec}.

Definition utf8 (s : string) : list byte := list_byte_of_string s.

Definition value_as_hash_input (v : json) : string := match v with JStr s => s | _ => json_text v end.

Definition derive_encryption_key (secret : SecretString) : Res (list byte) :=
  resolved <-? secret; Ok (hkdf_expand (utf8 resolved) (utf8 "rustcdc-field-encryption")).

(** A nonce from the system. *)
Definition try_generate : M MaskHashTransform (list byte) := fun t =>
  match entropy t with
  | Some n :: rest => (Ok n, {| config := config t; rule_hits := rule_hits t; entropy := rest |})
  | None :: rest =>
      (Err (TransformError "failed to draw a random AES-GCM nonce from the system entropy source"),
       {| config := config t; rule_hits := rule_hits t; entropy := rest |})
  | [] => (Err (TransformError "failed to draw a random AES-GCM nonce from the system entropy source"), t)
  end.

Definition encrypt_value (v : json) (secret : SecretString) (aad : string) : M MaskHashTransform json :=
  key ← of_res (derive_encryption_key secret);
  nonce ← try_generate;
  match aes_seal key nonce (utf8 aad) (print_json v) with
  | None => throw (TransformError "encryption failed")
  | Some ciphertext =>
      mret (JStr ("enc:v1:" ++ b64_encode nonce ++ ":" ++ b64_encode ciphertext))
  end.

Definition bad_payload : Error :=
  TransformError "encrypted payload must match format enc:v1:<nonce>:<ciphertext>".

Definition parse_encrypted_payload (input : string) : Res (string * string) :=
  match strip_prefix "enc:" input with
  | None => Err bad_payload
  | Some rest =>
      match strip_prefix "v1:" rest with
      | None => Err (TransformError "unsupported encrypted payload generation")
      | Some rest =>
          match split_once ":" rest with
          | Some (nonce, ciphertext) =>
              if is_empty nonce || is_empty ciphertext then Err bad_payload else Ok (nonce, ciphertext)
          | None => Err bad_payload
          end
      end
  end.

Definition decrypt_value (v : json) (secret : SecretString) (aad : string) : Res json :=
  match as_str v with
  | None => Err (TransformError "decrypt rule requires a string ciphertext payload")
  | Some encoded =>
      parts <-? parse_encrypted_payload encoded;
      key <-? derive_encryption_key secret;
      match b64_decode (fst parts) with
      | None => Err (TransformError "invalid encrypted payload nonce")
      | Some nonce =>
          if negb (Nat.eqb (length nonce) 12) then Err (TransformError "invalid encrypted payload nonce length")
          else match b64_decode (snd parts) with
               | None => Err (TransformError "invalid encrypted payload ciphertext")
               | Some ciphertext =>
                   match aes_open key nonce (utf8 aad) ciphertext with
                   | None => Err (TransformError "decryption failed")
                   | Some plaintext =>
                       match parse_json plaintext with
                       | None => Err (TransformError "decrypted payload is not valid JSON")
                       | Some w => Ok w
                       end
                   end
               end
      end
  end.

Definition apply_rule (v : json) (r : MaskRule) (aad : string) : M MaskHashTransform json :=
  match r with
  | Passthrough => fun t => (Panic, t)
  | UnsaltedSha256 => mret (JStr (hex (sha256 (utf8 (value_as_hash_input v)))))
  | HmacSha256 secret =>
      of_res (resolved <-? secret;
              Ok (JStr (hex (hmac_sha256 (utf8 resolved) (utf8 (value_as_hash_input v))))))
  | Redact mask => mret (JStr mask)
  | Null => mret JNull
  | TruncateTo n => mret (match v with JStr s => JStr (take_chars n s) | _ => v end)
  | Encrypt secret => encrypt_value v secret aad
  | Decrypt secret => of_res (decrypt_value v secret aad)
  end.

Definition field_aad (table path : string) : string := "rustcdc/v1|" ++ table ++ "|" ++ path.

(** ** The walk *)

(** [lookup_rule]: the exact path, else the last segment replaced by a star; with the
    path the rule is registered under. *)
Definition lookup_rule (c : MaskHashConfig) (path : string) : option (MaskRule * string) :=
  match assoc path (mask_rules c) with
  | Some r => Some (r, path)
  | None =>
      match rsplit_once "." path with
      | None => None
      | Some (prefix, _) =>
          let wild := prefix ++ ".*" in
          (fun r => (r, wild)) <$> assoc wild (mask_rules c)
      end
  end.

Definition is_container (v : json) : bool := match v with JObj _ | JArr _ => true | _ => false end.

(** The rule that replaces a container as a whole. *)
Definition container_rule (c : MaskHashConfig) (path : string) (v : json) : option MaskRule :=
  if negb (is_empty path) && is_container v then
    match assoc path (mask_rules c) with
    | Some r => if is_passthrough r then None else Some r
    | None => None
    end
  else None.

(** The rule of a scalar with the path to count it under. *)
Definition leaf_rule (c : MaskHashConfig) (path : string) : option (MaskRule * option string) :=
  if is_empty path then None
  else
    let '(r, matched) :=
      match lookup_rule c path with
      | Some (r, p) => (r, Some p)
      | None => (default_rule c, None)
      end in
    if is_passthrough r then None else Some (r, matched).

Definition child (path key : string) : string := if is_empty path then key else path ++ "." ++ key.

Definition mask_value (v : json) (r : MaskRule) (matched : option string) (aad : string)
    (t : MaskHashTransform) : Res unit * (MaskHashTransform * json) :=
  match apply_rule v r aad t with
  | (Ok v', t') => (Ok tt, (match matched with Some p => record_rule_hit p t' | None => t' end, v'))
  | (Err x, t') => (Err x, (t', v))
  | (Panic, t') => (Panic, (t', v))
  end.

(** Loops over the fields of an object and the elements of an array; an error leaves the
    rest as it is. *)
Section Loops.
Variable f : string -> json -> MaskHashTransform -> Res unit * (MaskHashTransform * json).

Fixpoint each_field (m : object) (t : MaskHashTransform) : Res unit * (MaskHashTransform * object) :=
  match m with
  | [] => (Ok tt, (t, []))
  | (k, v) :: m' =>
      match f k v t with
      | (Ok _, (t1, v')) => let '(r, (t2, rest)) := each_field m' t1 in (r, (t2, (k, v') :: rest))
      | (r, (t1, v')) => (r, (t1, (k, v') :: m'))
      end
  end.

Fixpoint each_item (i : nat) (l : list json) (t : MaskHashTransform)
    : Res unit * (MaskHashTransform * list json) :=
  match l with
  | [] => (Ok tt, (t, []))
  | v :: l' =>
      match f (show (Z.of_nat i)) v t with
      | (Ok _, (t1, v')) => let '(r, (t2, rest)) := each_item (S i) l' t1 in (r, (t2, v' :: rest))
      | (r, (t1, v')) => (r, (t1, v' :: l'))
      end
  end.
End Loops.

Fixpoint walk_value (table path : string) (v : json) (t : MaskHashTransform)
    : Res unit * (MaskHashTransform * json) :=
  match container_rule (config t) path v with
  | Some r => mask_value v r (Some path) (field_aad table path) t
  | None =>
      match v with
      | JObj m =>
          let '(r, (t', m')) := each_field (fun k c => walk_value table (child path k) c) m t in
          (r, (t', JObj m'))
      | JArr l =>
          let '(r, (t', l')) := each_item (fun k c => walk_value table (child path k) c) 0 l t in
          (r, (t', JArr l'))
      | _ =>
          match leaf_rule (config t) path with
          | Some (r, matched) => mask_value v r matched (field_aad table path) t
          | None => (Ok tt, (t, v))
          end
      end
  end.

Definition mask_payload (table : string) (payload : option json) (t : MaskHashTransform)
    : Res unit * (MaskHashTransform * option json) :=
  match payload with
  | None => (Ok tt, (t, None))
  | Some v => let '(r, (t', v')) := walk_value table "" v t in (r, (t', Some v'))
  end.

Definition with_payloads (b a : option json) (e : Event) : Event :=
  with_row b a (before_unavailable_columns e) (unavailable_columns e) e.

Definition mask_apply : M (MaskHashTransform * Event) bool := fun s =>
  let '(t, e) := s in
  let table := qualified_table_name e in
  match mask_payload table (before e) t with
  | (Ok _, (t1, b)) =>
      let '(r, (t2, a)) := mask_payload table (after e) t1 in
      (_ <-? r; Ok true, (t2, with_payloads b a e))
  | (Err x, (t1, b)) => (Err x, (t1, with_payloads b (after e) e))
  | (Panic, (t1, b)) => (Panic, (t1, with_payloads b (after e) e))
  end.

Definition mask_consequence : string :=
  "Those fields are NOT being masked and are shipping in clear text".

#[export] Instance mask_transform : Transform MaskHashTransform := {
  apply := mask_apply;
  apply_batch := sync_batch mask_apply;
  name := fun _ => "mask_hash";
  unmatched_rules := fun t =>
    map (fun p => {| transform := "mask_hash"; rule_kind := "mask"; rule := p; consequence := mask_consequence |})
      (unmatched_rule_paths t);
}.


(** ** What an observer of the output may learn *)

(** Rules whose output does not depend on the value. *)
Definition constant (r : MaskRule) : bool := match r with Redact _ | Null => true | _ => false end.

(** The rule documented to apply to a value: the one registered for its path; for a
    scalar also the one for every child of what it is in, or else the default. *)
Definition rule_at (c : MaskHashConfig) (path : string) (v : json) : option MaskRule :=
  let registered := assoc path (mask_rules c) in
  let of_children := '(parent, _) ← rsplit_once "." path; assoc (parent ++ ".*") (mask_rules c) in
  let r := match v with
           | JObj _ | JArr _ => registered
           | _ => match registered, of_children with
                  | Some r, _ => Some r
                  | None, Some r => Some r
                  | None, None => Some (default_rule c)
                  end
           end in
  match r with
  | Some r => if is_empty path || is_passthrough r then None else Some r
  | None => None
  end.

Section Views.
Variable f : string -> json -> json.
Fixpoint view_items (i : nat) (l : list json) : list json :=
  match l with [] => [] | v :: l' => f (show (Z.of_nat i)) v :: view_items (S i) l' end.
End Views.

(** The payload with every value a redacting or nulling rule covers taken out. *)
Fixpoint public_view (c : MaskHashConfig) (path : string) (v : json) : json :=
  match rule_at c path v with
  | Some r => if constant r then JNull else v
  | None =>
      match v with
      | JObj m => JObj (map (fun kv => (fst kv, public_view c (child path (fst kv)) (snd kv))) m)
      | JArr l => JArr (view_items (fun k x => public_view c (child path k) x) 0 l)
      | _ => v
      end
  end.

(** Two runs give the same answer and counters, and on success the same payload. *)
Definition agree {A} (x y : Res unit * (MaskHashTransform * A)) : Prop :=
  fst x = fst y /\ fst (snd x) = fst (snd y) /\ (fst x = Ok tt -> snd (snd x) = snd (snd y)).

Lemma agree_refl {A} (x : Res unit * (MaskHashTransform * A)) : agree x x.
Proof. by split_and!. Qed.

Lemma apply_rule_config v r aad t : config (snd (apply_rule v r aad t)) = config t.
Proof.
  destruct r; try done. cbn. unfold encrypt_value. rewrite bind_eq. unfold of_res.
  destruct (derive_encryption_key secret) as [k|x|]; [|done..]. rewrite bind_eq. unfold try_generate.
  destruct (entropy t) as [|[n|] rest]; [done| |done]. by destruct (aes_seal _ _ _ _).
Qed.

Lemma mask_value_config v r m aad t : config (fst (snd (mask_value v r m aad t))) = config t.
Proof.
  unfold mask_value. pose proof (apply_rule_config v r aad t) as Hc.
  destruct (apply_rule v r aad t) as [[v'|x|] t']; cbn in *; [|done..]. by destruct m.
Qed.

Lemma each_field_config f m t : Forall (fun kv => forall k t, config (fst (snd (f k (snd kv) t))) = config t) m ->
  config (fst (snd (each_field f m t))) = config t.
Proof.
  intros Hf. revert t. induction Hf as [|[k v] m Hv _ IH]; intros t; cbn; [done|].
  specialize (Hv k t). cbn in Hv. destruct (f k v t) as [[[]|x|] [t1 v']]; cbn in *; [|done..].
  specialize (IH t1). destruct (each_field f m t1) as [r [t2 rest]]. cbn in *. congruence.
Qed.

Lemma each_item_config f l i t : Forall (fun v => forall k t, config (fst (snd (f k v t))) = config t) l ->
  config (fst (snd (each_item f i l t))) = config t.
Proof.
  intros Hf. revert i t. induction Hf as [|v l Hv _ IH]; intros i t; cbn; [done|].
  specialize (Hv (show (Z.of_nat i)) t). cbn in Hv. destruct (f _ v t) as [[[]|x|] [t1 v']]; cbn in *; [|done..].
  specialize (IH (S i) t1). destruct (each_item f (S i) l t1) as [r [t2 rest]]. cbn in *. congruence.
Qed.

(** The walk as one step. *)
Definition walk_leaf (table path : string) (v : json) (t : MaskHashTransform) :=
  match leaf_rule (config t) path with
  | Some (r, matched) => mask_value v r matched (field_aad table path) t
  | None => (Ok tt, (t, v))
  end.

Lemma walk_scalar table path v t : is_container v = false -> walk_value table path v t = walk_leaf table path v t.
Proof. intros Hs. destruct v; try done; cbn; unfold container_rule; cbn; by rewrite andb_false_r. Qed.

Lemma walk_config table v : forall path t, config (fst (snd (walk_value table path v t))) = config t.
Proof.
  induction v as [v Ho Ha|l IH|m IH] using json_nested_ind; intros path t.
  - rewrite walk_scalar by (destruct v; try done; exfalso; by eapply Ha). unfold walk_leaf.
    destruct (leaf_rule _ path) as [[r m]|]; [apply mask_value_config|done].
  - cbn. destruct (container_rule _ path _); [apply mask_value_config|].
    pose proof (each_item_config (fun k c => walk_value table (child path k) c) l 0 t) as Hc.
    destruct (each_item _ 0 l t) as [r [t' l']]. apply Hc. eapply Forall_impl; [exact IH|]. eauto.
  - cbn. destruct (container_rule _ path _); [apply mask_value_config|].
    pose proof (each_field_config (fun k c => walk_value table (child path k) c) m t) as Hc.
    destruct (each_field _ m t) as [r [t' l']]. apply Hc. eapply Forall_impl; [exact IH|]. eauto.
Qed.

Lemma each_field_agree c f g m t : config t = c ->
  Forall (fun kv => forall t, config t = c -> config (fst (snd (f (fst kv) (snd kv) t))) = c /\
    agree (f (fst kv) (g (fst kv) (snd kv)) t) (f (fst kv) (snd kv) t)) m ->
  agree (each_field f (map (fun kv => (fst kv, g (fst kv) (snd kv))) m) t) (each_field f m t).
Proof.
  intros Ht Hf. revert t Ht. induction Hf as [|[k v] m Hv _ IH]; intros t Ht; cbn [map each_field fst snd]; [apply agree_refl|].
  destruct (Hv t Ht) as (Hc & Hr & Hs & Hval). cbn [fst snd] in *.
  destruct (f k (g k v) t) as [r [t1 v1]], (f k v t) as [r' [t1' v1']]. cbn [fst snd] in *. subst r' t1'.
  destruct r as [[]|x|]; [|by split_and!..]. specialize (Hval eq_refl). subst v1'.
  destruct (IH t1 Hc) as (Hr & Hs & Hval). destruct (each_field f _ t1) as [r [t2 m2]], (each_field f m t1) as [r' [t2' m2']].
  cbn [fst snd] in *. subst. split_and!; [done..|]. intros E. by rewrite (Hval E).
Qed.

Lemma each_item_agree c f g l i t : config t = c ->
  Forall (fun v => forall k t, config t = c -> config (fst (snd (f k v t))) = c /\ agree (f k (g k v) t) (f k v t)) l ->
  agree (each_item f i (view_items g i l) t) (each_item f i l t).
Proof.
  intros Ht Hf. revert i t Ht. induction Hf as [|v l Hv _ IH]; intros i t Ht; cbn [view_items each_item]; [apply agree_refl|].
  destruct (Hv (show (Z.of_nat i)) t Ht) as (Hc & Hr & Hs & Hval).
  destruct (f _ (g _ v) t) as [r [t1 v1]], (f _ v t) as [r' [t1' v1']]. cbn [fst snd] in *. subst r' t1'.
  destruct r as [[]|x|]; [|by split_and!..]. specialize (Hval eq_refl). subst v1'.
  destruct (IH (S i) t1 Hc) as (Hr & Hs & Hval).
  destruct (each_item f _ _ t1) as [r [t2 m2]], (each_item f _ l t1) as [r' [t2' m2']].
  cbn [fst snd] in *. subst. split_and!; [done..|]. intros E. by rewrite (Hval E).
Qed.

Lemma constant_agree v w r m aad t : constant r = true -> agree (mask_value v r m aad t) (mask_value w r m aad t).
Proof. destruct r; try done; intros _; by split_and!. Qed.

Lemma container_rule_at c path v : is_container v = true -> container_rule c path v = rule_at c path v.
Proof.
  intros Hv. unfold container_rule, rule_at. rewrite Hv, andb_true_r. destruct (is_empty path); cbn.
  - destruct v; try done; by destruct (assoc path (mask_rules c)).
  - destruct v; try done; by destruct (assoc path (mask_rules c)) as [r|].
Qed.

Lemma leaf_rule_at c path v : is_container v = false -> fst <$> leaf_rule c path = rule_at c path v.
Proof.
  intros Hv. assert (E : rule_at c path v = match match assoc path (mask_rules c) with
      | Some r => Some r
      | None => match '(parent, _) ← rsplit_once "." path; assoc (parent ++ ".*") (mask_rules c) with
                | Some r => Some r | None => Some (default_rule c) end end with
    | Some r => if is_empty path || is_passthrough r then None else Some r | None => None end).
  { destruct v; try done; unfold rule_at; by repeat case_match. }
  rewrite E. unfold leaf_rule, lookup_rule. destruct (is_empty path); cbn; [by repeat case_match|].
  destruct (assoc path (mask_rules c)) as [r|]; cbn; [by destruct (is_passthrough r)|].
  destruct (rsplit_once "." path) as [[l y]|]; cbn; [|by destruct (is_passthrough _)].
  destruct (assoc _ (mask_rules c)) as [r|]; cbn; by destruct (is_passthrough _).
Qed.

Lemma container_leaf_rule c path w r : container_rule c path w = Some r -> leaf_rule c path = Some (r, Some path).
Proof.
  unfold container_rule, leaf_rule, lookup_rule. destruct (is_empty path); [done|]. cbn.
  destruct (is_container w); [|done]. destruct (assoc path _) as [r'|]; [|done].
  by destruct (is_passthrough r'); [|intros [= <-]].
Qed.

(** A value a constant rule covers may as well have been null. *)
Lemma walk_hidden table path r m w t : leaf_rule (config t) path = Some (r, m) -> constant r = true ->
  agree (walk_value table path JNull t) (mask_value w r m (field_aad table path) t).
Proof. intros El Hc. rewrite walk_scalar by done. unfold walk_leaf. rewrite El. by apply constant_agree. Qed.

Lemma scalar_view table path v t : is_container v = false ->
  agree (walk_value table path (public_view (config t) path v) t) (walk_value table path v t).
Proof.
  intros Hs. assert (Ev : public_view (config t) path v = match fst <$> leaf_rule (config t) path with
              | Some r => if constant r then JNull else v | None => v end).
  { rewrite (leaf_rule_at _ _ v) by done. destruct v; try done; cbn [public_view]; by case_match. }
  rewrite Ev. destruct (leaf_rule (config t) path) as [[r mm]|] eqn:El; cbn; [|apply agree_refl].
  destruct (constant r) eqn:Ec; [|apply agree_refl].
  rewrite (walk_scalar _ _ v) by done. unfold walk_leaf at 1. rewrite El. by eapply walk_hidden.
Qed.

(** Masking does not look at the values it takes out. *)
Lemma walk_public_view table v : forall path t,
  agree (walk_value table path (public_view (config t) path v) t) (walk_value table path v t).
Proof.
  induction v as [v Ho Ha|l IH|m IH] using json_nested_ind; intros path t.
  - apply scalar_view. destruct v; try done; exfalso; by eapply Ha.
  - cbn [public_view]. rewrite <-container_rule_at by done.
    destruct (container_rule (config t) path (JArr l)) as [r|] eqn:Er.
    + destruct (constant r) eqn:Ec; [|apply agree_refl]. cbn [walk_value]. rewrite Er.
      eapply walk_hidden; [|done]. by eapply container_leaf_rule.
    + cbn [walk_value]. rewrite Er.
      replace (container_rule (config t) path (JArr (view_items _ _ _))) with (container_rule (config t) path (JArr l)) by done.
      rewrite Er.
      destruct (each_item_agree (config t) (fun k c => walk_value table (child path k) c)
                  (fun k x => public_view (config t) (child path k) x) l 0 t eq_refl) as (H1 & H2 & H3).
      { eapply Forall_impl; [exact IH|]. cbn. intros x Hx k t' Ht. split; [by rewrite walk_config|].
        rewrite <-Ht. apply Hx. }
      destruct (each_item _ 0 (view_items _ 0 l) t) as [r1 [t1 l1]], (each_item _ 0 l t) as [r2 [t2 l2]]. cbn [fst snd] in *.
      subst. split_and!; [done..|]. cbn. intros E. by rewrite (H3 E).
  - cbn [public_view]. rewrite <-container_rule_at by done.
    destruct (container_rule (config t) path (JObj m)) as [r|] eqn:Er.
    + destruct (constant r) eqn:Ec; [|apply agree_refl]. cbn [walk_value]. rewrite Er.
      eapply walk_hidden; [|done]. by eapply container_leaf_rule.
    + cbn [walk_value]. rewrite Er.
      replace (container_rule (config t) path (JObj (map _ _))) with (container_rule (config t) path (JObj m)) by done.
      rewrite Er.
      destruct (each_field_agree (config t) (fun k c => walk_value table (child path k) c)
                  (fun k x => public_view (config t) (child path k) x) m t eq_refl) as (H1 & H2 & H3).
      { eapply Forall_impl; [exact IH|]. cbn. intros x Hx t' Ht. split; [by rewrite walk_config|].
        rewrite <-Ht. apply Hx. }
      destruct (each_field _ (map _ m) t) as [r1 [t1 l1]], (each_field _ m t) as [r2 [t2 l2]]. cbn [fst snd] in *.
      subst. split_and!; [done..|]. cbn. intros E. by rewrite (H3 E).
Qed.

(** Two images that differ only in what a constant rule takes out. *)
Definition same_view (c : MaskHashConfig) (v w : option json) : Prop :=
  match v, w with
  | Some v, Some w => public_view c "" v = public_view c "" w
  | None, None => True
  | _, _ => False
  end.

Lemma agree_trans_l {A} (x y z : Res unit * (MaskHashTransform * A)) : agree x y -> agree x z -> agree y z.
Proof.
  intros (A1 & A2 & A3) (B1 & B2 & B3). split; [congruence|]. split; [congruence|]. rewrite <-A1. intros E.
  by rewrite <-A3, <-B3.
Qed.

Lemma payload_agree table v w t : same_view (config t) v w -> agree (mask_payload table v t) (mask_payload table w t).
Proof.
  destruct v as [v|], w as [w|]; try done. cbn. intros E.
  pose proof (walk_public_view table v "" t) as Hv. rewrite E in Hv.
  pose proof (agree_trans_l _ _ _ Hv (walk_public_view table w "" t)) as (H1 & H2 & H3).
  destruct (walk_value table "" v t) as [r [t1 v1]], (walk_value table "" w t) as [r' [t2 w1]]. cbn in *.
  subst. split; [done|]. split; [done|]. cbn. intros ->. by rewrite H3.
Qed.

Lemma payload_config table v t : config (fst (snd (mask_payload table v t))) = config t.
Proof.
  destruct v as [v|]; [|done]. cbn. pose proof (walk_config table v "" t) as Hc.
  by destruct (walk_value table "" v t) as [r [t1 v1]].
Qed.

(** ** Rules that cover nothing *)

Lemma each_field_same f m t : Forall (fun kv => f (fst kv) (snd kv) t = (Ok tt, (t, snd kv))) m ->
  each_field f m t = (Ok tt, (t, m)).
Proof. induction 1 as [|[k v] m Hv _ IH]; cbn; [done|]. cbn in Hv. by rewrite Hv, IH. Qed.

Lemma each_item_same f l i t : Forall (fun v => forall k, f k v t = (Ok tt, (t, v))) l ->
  each_item f i l t = (Ok tt, (t, l)).
Proof. intros Hf. revert i. induction Hf as [|v l Hv _ IH]; intros i; cbn; [done|]. by rewrite Hv, IH. Qed.

(** No rule reaches a path that starts with [path]. *)
Definition unruled (c : MaskHashConfig) (path : string) : Prop := forall s,
  leaf_rule c (path +:+ s) = None /\ assoc (path +:+ s) (mask_rules c) = None.

Lemma unruled_container c path v : assoc path (mask_rules c) = None -> container_rule c path v = None.
Proof. unfold container_rule. intros ->. by destruct (_ && _). Qed.

Lemma child_app path k : path <> "" -> child path k = path +:+ String "." k.
Proof. unfold child. by destruct path. Qed.

Lemma unruled_child c path k : path <> "" -> unruled c path -> child path k <> "" /\ unruled c (child path k).
Proof.
  intros Hne Hu. rewrite child_app by done. split; [by destruct path|].
  intros s. rewrite append_assoc_r. apply Hu.
Qed.

Lemma walk_unruled table t v : forall path, path <> "" -> unruled (config t) path ->
  walk_value table path v t = (Ok tt, (t, v)).
Proof.
  induction v as [v Ho Ha|l IH|m IH] using json_nested_ind; intros path Hne Hu;
    pose proof (Hu "") as [Hl Hx]; rewrite append_nil_r in Hl, Hx.
  - rewrite walk_scalar by (destruct v; try done; exfalso; by eapply Ha). unfold walk_leaf. by rewrite Hl.
  - cbn. rewrite unruled_container, each_item_same; [done| |done]. eapply Forall_impl; [exact IH|].
    intros x Hw k. destruct (unruled_child _ _ k Hne Hu). by apply Hw.
  - cbn. rewrite unruled_container, each_field_same; [done| |done]. eapply Forall_impl; [exact IH|].
    intros x Hw. destruct (unruled_child _ _ (fst x) Hne Hu). by apply Hw.
Qed.

(** A container is left alone when no rule is registered for it or reaches below it. *)
Lemma walk_unruled_container table t v path : path <> "" -> is_container v = true ->
  assoc path (mask_rules (config t)) = None -> unruled (config t) (path +:+ ".") ->
  walk_value table path v t = (Ok tt, (t, v)).
Proof.
  intros Hne Hc Hx Hu.
  assert (Hk : forall k w, walk_value table (child path k) w t = (Ok tt, (t, w))).
  { intros k w. apply walk_unruled; rewrite child_app by done; [by destruct path|].
    intros s. specialize (Hu (k +:+ s)). rewrite append_assoc_r in *. exact Hu. }
  destruct v as [| | | |l|m]; try done; cbn; rewrite unruled_container by done.
  - rewrite each_item_same; [done|]. apply Forall_true. intros x k. apply Hk.
  - rewrite each_field_same; [done|]. apply Forall_true. intros x. apply Hk.
Qed.

(** ** The laws of the cipher *)

Class MaskCryptoLaws : Prop := {
  open_seal : forall key nonce aad text c,
    aes_seal key nonce aad text = Some c -> aes_open key nonce aad c = Some text;
  seal_nonempty : forall key nonce aad text c, aes_seal key nonce aad text = Some c -> c <> [];
  decode_encode_b64 : forall b, b64_decode (b64_encode b) = Some b;
  b64_no_colon : forall b, contains_char ":" (b64_encode b) = false;
  b64_nonempty : forall b, b <> [] -> b64_encode b <> "";
}.

Lemma keeps_identity_mask (t : MaskHashTransform) : keeps_identity t.
Proof.
  intros e e' t'. cbn. destruct (mask_payload _ (before e) t) as [[[]|x|] [t1 b]]; [|done..].
  destruct (mask_payload _ (after e) t1) as [[[]|x|] [t2 a]]; cbn; [|done..]. by intros [= <- <-].
Qed.

Lemma with_payloads_id e : with_payloads (before e) (after e) e = e.
Proof. by destruct e. Qed.

(** The only rule [p.*] does not reach below a child of [p]. *)
Lemma wildcard_unruled p k r :
  let c := {| mask_rules := [(p +:+ ".*", r)]; default_rule := Passthrough |} in
  unruled c (p +:+ String "." (k +:+ ".")).
Proof.
  intros c s. set (path := p +:+ String "." (k +:+ ".") +:+ s).
  assert (Ep : (p +:+ String "." (k +:+ ".")) +:+ s = p +:+ String "." (k +:+ String "." s)).
  { rewrite append_assoc_r. f_equal. cbn. f_equal. by rewrite append_assoc_r. }
  rewrite Ep. clear path.
  assert (Hx : assoc (p +:+ String "." (k +:+ String "." s)) (mask_rules c) = None).
  { cbn. destruct (String.eqb_spec (p +:+ String "." (k +:+ String "." s)) (p +:+ ".*")) as [E|]; [|done].
    apply append_inj_l in E. injection E as E. destruct k as [|a [|b k]]; by cbn in E. }
  split; [|done]. unfold leaf_rule. destruct (is_empty _); [done|]. unfold lookup_rule. rewrite Hx.
  destruct (rsplit_once "." _) as [[l y]|] eqn:El; [|done].
  apply rsplit_once_spec in El as [El Hy]. cbn. destruct (String.eqb_spec (l +:+ ".*") (p +:+ ".*")) as [E|]; [|done].
  apply append_inj_r in E as ->. apply append_inj_l in El. injection El as El.
  by rewrite <-El, contains_char_mid in Hy.
Qed.

End Mask.

(** C31: masking reveals nothing about what it takes out: two events whose images differ only in values covered by a
    redacting or nulling rule (a rule on the exact path of a value or of the container around it, a wildcard on a
    scalar, or the default) get the same answer, leave the same counters, and become the same event. *)
Theorem masked_values_do_not_leak `{MaskCrypto} `{JsonCodec} t e b a
    (Hb : same_view (config t) (before e) b) (Ha : same_view (config t) (after e) a) :
  let x := mask_apply (t, e) in
  let y := mask_apply (t, with_payloads b a e) in
  fst x = fst y /\ fst (snd x) = fst (snd y) /\ (fst x = Ok true -> snd (snd x) = snd (snd y)).
Proof.
  cbn. change (qualified_table_name (with_payloads b a e)) with (qualified_table_name e).
  set (tb := qualified_table_name e). pose proof (payload_config tb (before e) t) as Hc.
  destruct (payload_agree tb _ _ t Hb) as (H1 & H2 & H3).
  destruct (mask_payload tb (before e) t) as [r [t1 b1]], (mask_payload tb b t) as [r' [t1' b1']]. cbn in *. subst r' t1'.
  destruct r as [[]|x|]; [|by split_and!..]. rewrite <-Hc in Ha. rewrite <-(H3 eq_refl).
  destruct (payload_agree tb _ _ t1 Ha) as (G1 & G2 & G3).
  destruct (mask_payload tb (after e) t1) as [r [t2 a1]], (mask_payload tb a t1) as [r' [t2' a1']]. cbn in *. subst r' t2'.
  split; [done|]. split; [done|]. destruct r as [[]|x|]; [|done..]. intros _. by rewrite (G3 eq_refl).
Qed.

(** A wildcard rule does not mask a child that is an object or an array: under the single rule [p.*], whatever it
    does, an event whose column [p] holds an object with a structured child [k] leaves the stage as it came, in clear
    text, and the rule counts as one that never matched. *)
Theorem wildcard_misses_nested `{MaskCrypto} `{JsonCodec} t e p k inner r
    (Hcfg : config t = {| mask_rules := [(p +:+ ".*", r)]; default_rule := Passthrough |})
    (Hp : p <> "") (Hk : k <> "*") (Hin : is_container inner = true)
    (Hb : before e = None) (Ha : after e = Some (JObj [(p, JObj [(k, inner)])])) :
  mask_apply (t, e) = (Ok true, (t, e)).
Proof.
  assert (Hw : walk_value (qualified_table_name e) (child p k) inner t = (Ok tt, (t, inner))).
  { rewrite child_app by done. apply walk_unruled_container; [by destruct p|done| |].
    - rewrite Hcfg. cbn. destruct (String.eqb_spec (p +:+ String "." k) (p +:+ ".*")) as [E|]; [|done].
      apply append_inj_l in E. by injection E.
    - rewrite Hcfg, append_assoc_r. apply wildcard_unruled. }
  assert (Hpx : container_rule (config t) p (JObj [(k, inner)]) = None).
  { apply unruled_container. rewrite Hcfg. cbn. destruct (String.eqb_spec p (p +:+ ".*")) as [E|]; [|done].
    apply (f_equal String.length) in E. rewrite string_length_app in E. cbn in E. lia. }
  unfold mask_apply. rewrite Hb, Ha. cbn [mask_payload walk_value container_rule].
  replace (container_rule (config t) "" _) with (@None MaskRule) by done. cbn [each_field].
  change (child "" p) with p. cbn [walk_value]. rewrite Hpx. cbn [each_field]. rewrite Hw. cbn.
  by rewrite <-Hb, <-Ha, with_payloads_id.
Qed.


(** ** Examples *)

Module Demo.

(** A cipher that only binds its text to key, nonce and context, and an encoding of a
    byte by two letters. *)
Definition letter (n : Z) : ascii := ascii_of_nat (Z.to_nat (97 + n)).
Definition letters (b : byte) (s : string) : string :=
  String (letter (byte_code b / 16)) (String (letter (byte_code b mod 16)) s).
Definition nibble (a : ascii) : Z := code a - 97.

Definition encode (l : list byte) : string := foldr letters "" l.
Fixpoint decode (s : string) : option (list byte) :=
  match s with
  | EmptyString => Some []
  | String a (String b s') =>
      x ← Byte.of_N (Z.to_N (16 * nibble a + nibble b)); l ← decode s'; Some (x :: l)
  | _ => None
  end.

Definition tag (key nonce aad : list byte) : list byte := x00 :: (key ++ nonce ++ aad)%list.

Fixpoint strip (p l : list byte) : option (list byte) :=
  match p, l with
  | [], _ => Some l
  | a :: p', b :: l' => if Byte.eqb a b then strip p' l' else None
  | _ :: _, [] => None
  end.

#[export] Instance crypto : MaskCrypto := {
  sha256 := fun m => m; hmac_sha256 := fun k m => (k ++ m)%list; hkdf_expand := fun s l => (s ++ l)%list;
  aes_seal := fun k n a m => Some (tag k n a ++ m)%list;
  aes_open := fun k n a c => strip (tag k n a) c;
  b64_encode := encode; b64_decode := decode; json_text := fun _ => "";
}.

Lemma letters_facts b s : decode (letters b s) = (fun l => b :: l) <$> decode s /\
  contains_char ":" (letters b s) = contains_char ":" s.
Proof. unfold letters. cbn [decode contains_char]. destruct b; cbn; split; by try destruct (decode s). Qed.

#[export] Instance crypto_laws : MaskCryptoLaws.
Proof.
  split; cbn.
  - intros k n a m c [= <-]. unfold tag. cbn. generalize (k ++ n ++ a)%list as p. induction p as [|x p IH]; cbn; [done|].
    by rewrite (Byte.byte_dec_lb eq_refl).
  - by intros k n a m c [= <-].
  - induction b as [|x b IH]; [done|]. unfold encode in *. cbn [foldr].
    by rewrite (proj1 (letters_facts x _)), IH.
  - induction b as [|x b IH]; [done|]. unfold encode in *. cbn [foldr].
    by rewrite (proj2 (letters_facts x _)).
  - by intros [|x b].
Qed.

#[export] Existing Instance RefCodec.codec.
#[export] Existing Instance RefCodec.laws.

Definition insert (v : json) : Event := with_payloads None (Some v) (builder "users" Insert).

Definition redact_ssn : MaskHashTransform :=
  new_unchecked {| mask_rules := [("profile.ssn", Redact "***"); ("emails.*", Null)]; default_rule := Passthrough |} [].

Definition person (ssn mail : string) : json :=
  JObj [("emails", JArr [JStr mail; JStr "b"]); ("id", JNum (PosInt 1)); ("profile", JObj [("ssn", JStr ssn)])].

Lemma masked_values_do_not_leak_witness :
  fst (mask_apply (redact_ssn, insert (person "123" "a"))) = Ok true /\
  snd (snd (mask_apply (redact_ssn, insert (person "123" "a"))))
  = snd (snd (mask_apply (redact_ssn, insert (person "999" "z")))).
Proof.
  split; [reflexivity|].
  refine (proj2 (proj2 (masked_values_do_not_leak redact_ssn (insert (person "123" "a")) None
    (Some (person "999" "z")) I eq_refl)) eq_refl).
Defined.

(** Every address of the user leaves in clear text. *)
Definition contacts : MaskHashTransform :=
  new_unchecked {| mask_rules := [("contacts.*", Redact "***")]; default_rule := Passthrough |} [].
Definition address : json := JObj [("street", JStr "Main St 1")].

Lemma wildcard_misses_nested_witness :
  let e := insert (JObj [("contacts", JObj [("home", address)])]) in
  mask_apply (contacts, e) = (Ok true, (contacts, e)) /\ unmatched_rule_paths contacts = ["contacts.*"].
Proof.
  split; [|reflexivity].
  apply (wildcard_misses_nested contacts _ "contacts" "home" address (Redact "***")); by try reflexivity.
Defined.

Definition vault : MaskHashTransform := new_unchecked default_config [Some (replicate 12 x07)].
Definition sealed := apply_rule address (Encrypt (Ok "key")) (field_aad "users" "address") vault.


End Demo.

End TransformMask.
