(* ===== verification/TransformFields.v ===== *)
(** * TransformFields: field mapping, flattening, routing and the outbox

    Models [src/src/transform/field_mapping.rs], [unwrap.rs], [route.rs] and [outbox.rs],
    the stages that move fields and events to other names, and what they mean for the
    column lists and the key of an event.  Regular expressions are third-party code. *)

From S2P Require Import Prelude Errors Strs Json Event Monad Transforms TransformFilter.
Import Event Transforms.

Module TransformFields.

Local Open Scope string_scope.
Local Open Scope Z_scope.

(** ** Paths *)

Definition parse_path (path : string) : Res (list string) :=
  match List.filter (fun p => negb (is_empty p)) (map trim (split "." path)) with
  | [] => Err (ConfigError "field path must not be empty")
  | parts => Ok parts
  end.

Fixpoint get_path (root : json) (parts : list string) : option json :=
  match parts with
  | [] => Some root
  | p :: parts' => v ← get p root; get_path v parts'
  end.

Definition is_object (v : json) : bool := match v with JObj _ => true | _ => false end.

(** [set_path]: the new root.  Once a missing segment was created everything below it is
    new, so an error is found before anything is changed. *)
Fixpoint set_path (root : json) (parts : list string) (x : json) : Res json :=
  match parts with
  | [] => Err (ConfigError "path must not be empty")
  | p :: parts' =>
      match root, parts' with
      | JObj m, [] => Ok (JObj (obj_insert p x m))
      | JObj m, _ =>
          let current := default (JObj []) (obj_get p m) in
          if is_object current
          then c <-? set_path current parts' x; Ok (JObj (obj_insert p c m))
          else Err (TransformError "path segment is not an object")
      | _, [] => Err (TransformError "cannot set field on non-object payload")
      | _, _ => Err (TransformError "cannot set nested path on non-object payload")
      end
  end.

Definition obj_remove (k : string) (m : object) : object := List.filter (fun kv => negb (String.eqb (fst kv) k)) m.

(** [remove_path]: what was removed, and the new root. *)
Fixpoint remove_path (root : json) (parts : list string) : option (json * json) :=
  match parts, root with
  | p :: parts', JObj m =>
      v ← obj_get p m;
      match parts' with
      | [] => Some (v, JObj (obj_remove p m))
      | _ => c ← remove_path v parts'; Some (fst c, JObj (obj_insert p (snd c) m))
      end
  | _, _ => None
  end.

(** ** Field mapping *)

Record FieldMappingConfig := {
  copy : list (string * string);
  rename : list (string * string);
  set_literals : list (string * json);
  remove : list string;
  strict : bool;
}.

Record MoveRule := { from : list string; to : list string }.
Record SetRule := { set_to : list string; set_value : json }.

Record FieldMappingTransform := {
  mapping : FieldMappingConfig;
  copy_rules : list MoveRule;
  rename_rules : list MoveRule;
  set_rules : list SetRule;
  remove_rules : list (list string);
}.

Fixpoint parse_all {A B} (f : A -> Res B) (l : list A) : Res (list B) :=
  match l with [] => Ok [] | a :: l' => b <-? f a; bs <-? parse_all f l'; Ok (b :: bs) end.

Definition parse_move (p : string * string) : Res MoveRule :=
  f <-? parse_path (fst p); t <-? parse_path (snd p); Ok {| from := f; to := t |}.

Definition parse_set (p : string * json) : Res SetRule :=
  t <-? parse_path (fst p); Ok {| set_to := t; set_value := snd p |}.

(** [FieldMappingTransform::new] *)
Definition mapping_new (c : FieldMappingConfig) : Res FieldMappingTransform :=
  cs <-? parse_all parse_move (copy c);
  rs <-? parse_all parse_move (rename c);
  ss <-? parse_all parse_set (set_literals c);
  ds <-? parse_all parse_path (remove c);
  Ok {| mapping := c; copy_rules := cs; rename_rules := rs; set_rules := ss; remove_rules := ds |}.

(** [set_path(value, ...)?] on the payload being rewritten *)
Definition write_path (parts : list string) (x : json) : M json unit := fun v =>
  match set_path v parts x with
  | Ok v' => (Ok tt, v')
  | Err e => (Err e, v)
  | Panic => (Panic, v)
  end.

Definition missing (is_strict : bool) (msg : string) : M json unit :=
  if is_strict then throw (TransformError msg) else mret tt.

Definition copy_field (is_strict : bool) (r : MoveRule) : M json unit := fun v =>
  match get_path v (from r) with
  | Some x => write_path (to r) x v
  | None => missing is_strict "field_mapping copy source path missing" v
  end.

Definition rename_field (is_strict : bool) (r : MoveRule) : M json unit := fun v =>
  match remove_path v (from r) with
  | Some (x, v') => write_path (to r) x v'
  | None => missing is_strict "field_mapping rename source path missing" v
  end.

Definition set_field (r : SetRule) : M json unit :=
  map_err (fun _ => TransformError "field_mapping set path failed") (write_path (set_to r) (set_value r)).

Definition remove_field (is_strict : bool) (parts : list string) : M json unit := fun v =>
  match remove_path v parts with
  | Some (_, v') => (Ok tt, v')
  | None => missing is_strict "field_mapping remove path missing" v
  end.

Definition map_object (t : FieldMappingTransform) : M json unit :=
  let s := strict (mapping t) in
  for_each (copy_rules t) (copy_field s) ;;
  for_each (rename_rules t) (rename_field s) ;;
  for_each (set_rules t) set_field ;;
  for_each (remove_rules t) (remove_field s).

Definition map_payload (t : FieldMappingTransform) (payload : option json) : Res unit * option json :=
  match payload with
  | None => (Ok tt, None)
  | Some v =>
      if negb (is_object v) then (Err (TransformError "field_mapping requires object payloads"), payload)
      else let '(r, v') := map_object t v in (r, Some v')
  end.

(** A single-segment path names a column. *)
Definition column_of (parts : list string) : option string := match parts with [c] => Some c | _ => None end.

Definition drop_column (columns : list string) (parts : list string) : list string :=
  match column_of parts with
  | Some name => List.filter (fun c => negb (String.eqb c name)) columns
  | None => columns
  end.

(** [columns.iter_mut().find(..)] replaces the first match. *)
Fixpoint rename_first (a b : string) (columns : list string) : list string :=
  match columns with
  | [] => []
  | c :: cs => if String.eqb c a then b :: cs else c :: rename_first a b cs
  end.

Definition rename_column (columns : list string) (r : MoveRule) : list string :=
  match column_of (from r), column_of (to r) with
  | Some a, Some b => rename_first a b columns
  | _, _ => columns
  end.

Definition remap_unavailable (t : FieldMappingTransform) (columns : list string) : list string :=
  match columns with
  | [] => []
  | _ =>
      let c1 := fold_left drop_column (map to (copy_rules t) ++ map set_to (set_rules t)) columns in
      let c2 := fold_left rename_column (rename_rules t) c1 in
      fold_left drop_column (remove_rules t) c2
  end.

Definition mapping_apply : M (FieldMappingTransform * Event) bool := fun s =>
  let '(t, e) := s in
  let bu := before_unavailable_columns e in
  let u := unavailable_columns e in
  match map_payload t (before e) with
  | (Ok _, b) =>
      match map_payload t (after e) with
      | (Ok _, a) => (Ok true, (t, with_row b a (remap_unavailable t bu) (remap_unavailable t u) e))
      | (Err x, a) => (Err x, (t, with_row b a bu u e))
      | (Panic, a) => (Panic, (t, with_row b a bu u e))
      end
  | (Err x, b) => (Err x, (t, with_row b (after e) bu u e))
  | (Panic, b) => (Panic, (t, with_row b (after e) bu u e))
  end.

#[export] Instance mapping_transform : Transform FieldMappingTransform := {
  apply := mapping_apply;
  apply_batch := sync_batch mapping_apply;
  name := fun _ => "field_mapping";
  unmatched_rules := fun _ => [];
}.

(** ** Flattening *)

Record UnwrapConfig := { enabled : bool; max_depth : Z; flatten_arrays : bool }.

Definition default_unwrap : UnwrapConfig := {| enabled := true; max_depth := 10; flatten_arrays := false |}.

(** [u8] *)
Definition deeper (depth : Z) : Z := Z.min (depth + 1) 255.

Section FlattenLoops.
Variable f : string -> json -> object -> Res object.
Fixpoint flatten_fields (m : object) (out : object) : Res object :=
  match m with [] => Ok out | (k, v) :: m' => out' <-? f k v out; flatten_fields m' out' end.
Fixpoint flatten_items (i : nat) (l : list json) (out : object) : Res object :=
  match l with [] => Ok out | v :: l' => out' <-? f (show (Z.of_nat i)) v out; flatten_items (S i) l' out' end.
End FlattenLoops.

Fixpoint flatten_into (c : UnwrapConfig) (key : string) (v : json) (depth : Z) (out : object) : Res object :=
  if max_depth c <? depth then Err (TransformError "unwrap depth exceeded max_depth")
  else
    match v with
    | JObj [] => Ok (obj_insert key (JObj []) out)
    | JObj m => flatten_fields (fun k x o => flatten_into c (key ++ "." ++ k) x (deeper depth) o) m out
    | JArr l =>
        if flatten_arrays c then
          match l with
          | [] => Ok (obj_insert key (JArr []) out)
          | _ => flatten_items (fun k x o => flatten_into c (key ++ "." ++ k) x (deeper depth) o) 0 l out
          end
        else Ok (obj_insert key v out)
    | _ => Ok (obj_insert key v out)
    end.

Definition flatten_payload (c : UnwrapConfig) (payload : option json) : Res (option json) :=
  match payload with
  | Some (JObj m) => flat <-? flatten_fields (fun k v o => flatten_into c k v 1 o) m []; Ok (Some (JObj flat))
  | _ => Ok payload
  end.

Definition unwrap_apply : M (UnwrapConfig * Event) bool := fun s =>
  let '(c, e) := s in
  let row b a := with_row b a (before_unavailable_columns e) (unavailable_columns e) e in
  if negb (enabled c) then (Ok true, (c, e))
  else match flatten_payload c (before e) with
       | Ok b =>
           match flatten_payload c (after e) with
           | Ok a => (Ok true, (c, row b a))
           | Err x => (Err x, (c, row b (after e)))
           | Panic => (Panic, (c, row b (after e)))
           end
       | Err x => (Err x, (c, e))
       | Panic => (Panic, (c, e))
       end.

#[export] Instance unwrap_transform : Transform UnwrapConfig := {
  apply := unwrap_apply;
  apply_batch := sync_batch unwrap_apply;
  name := fun _ => "unwrap";
  unmatched_rules := fun _ => [];
}.

(** ** Routing *)

Class RegexEngine := {
  regex : Type;
  compile : string -> option regex;
  is_match : regex -> string -> bool;
}.

Record RouteConfig := {
  routing_table : list (string * string);
  route_patterns_raw : list (string * string);
  default_destination : string;
  add_destination_field : bool;
  update_table : bool;
}.

Record RouteTransform `{RegexEngine} := {
  route_config : RouteConfig;
  patterns : list (regex * string * Z);   (* with the entry of [pattern_hits] *)
  exact_hits : list (string * Z);         (* sorted, with the entry of [exact_rules] *)
}.

Section Route.
Context `{RegexEngine}.

Definition compile_pattern (p : string * string) : Res (regex * string * Z) :=
  match compile (fst p) with
  | Some re => Ok (re, snd p, 0)
  | None => Err (TransformError "route transform invalid regex pattern")
  end.

Definition validate_patterns (c : RouteConfig) : Res unit :=
  _ <-? parse_all compile_pattern (route_patterns_raw c); Ok tt.

Definition route_new (c : RouteConfig) : Res RouteTransform :=
  ps <-? parse_all compile_pattern (route_patterns_raw c);
  Ok {| route_config := c; patterns := ps;
        exact_hits := map (fun k => (k, 0)) (sort_paths (map fst (routing_table c))) |}.

Fixpoint match_pattern (tb : string) (ps : list (regex * string * Z))
    : option string * list (regex * string * Z) :=
  match ps with
  | [] => (None, [])
  | (re, dest, n) :: ps' =>
      if is_match re tb then (Some dest, (re, dest, (n + 1) mod u64_modulus) :: ps')
      else let '(r, rest) := match_pattern tb ps' in (r, (re, dest, n) :: rest)
  end.

Definition destination_for (tb : string) : M RouteTransform string := fun t =>
  let c := route_config t in
  match assoc tb (routing_table c) with
  | Some mapped =>
      (Ok mapped, {| route_config := c; patterns := patterns t; exact_hits := hit tb (exact_hits t) |})
  | None =>
      match match_pattern tb (patterns t) with
      | (Some dest, ps) => (Ok dest, {| route_config := c; patterns := ps; exact_hits := exact_hits t |})
      | (None, _) =>
          if negb (is_empty (trim (default_destination c))) then (Ok (default_destination c), t)
          else (Err (TransformError "route transform missing destination"), t)
      end
  end.

Definition with_table (tb : string) (a : option json) (e : Event) : Event :=
  {| before := before e; after := a; op := op e; source := source e; ts := ts e; schema := schema e;
     table := tb; primary_key := primary_key e; snapshot := snapshot e;
     transaction := transaction e; envelope_version := envelope_version e;
     before_is_key_only := before_is_key_only e; unavailable_columns := unavailable_columns e;
     before_unavailable_columns := before_unavailable_columns e |}.

Definition route_apply : M (RouteTransform * Event) bool := fun s =>
  let '(t, e) := s in
  match destination_for (table e) t with
  | (Ok dest, t') =>
      let c := route_config t in
      let tb := if update_table c then dest else table e in
      let a := match after e with
               | Some (JObj m) =>
                   Some (JObj (if add_destination_field c then obj_insert "_destination" (JStr dest) m else m))
               | other => other
               end in
      (Ok true, (t', with_table tb a e))
  | (Err x, t') => (Err x, (t', e))
  | (Panic, t') => (Panic, (t', e))
  end.

Definition route_consequence : string :=
  "Events those rules were meant to route are going to default_destination instead".

Definition route_unmatched (t : RouteTransform) : list UnmatchedRule :=
  let report k := {| transform := "route"; rule_kind := "route"; rule := k; consequence := route_consequence |} in
  (map (fun h => report (fst h)) (List.filter (fun h => snd h =? 0) (exact_hits t)) ++
   map (fun pr => report (fst pr))
     (map fst (List.filter (fun x => snd (snd x) =? 0)
                 (combine (route_patterns_raw (route_config t)) (patterns t)))))%list.

#[export] Instance route_transform : Transform RouteTransform := {
  apply := route_apply;
  apply_batch := sync_batch route_apply;
  name := fun _ => "route";
  unmatched_rules := route_unmatched;
}.

End Route.

(** ** Outbox *)

Inductive OutboxResult :=
| IsOutboxEvent (aggregate_id event_type : string) (payload : json)
| NotOutboxEvent.

Record OutboxTransform := { outbox_enabled : bool; outbox_table : string }.

Definition require_str (k : string) (m : object) : Res string :=
  match obj_get k m with
  | None => Err (TransformError ("missing " ++ k ++ " in outbox event"))
  | Some v => match as_str v with
              | Some s => Ok s
              | None => Err (TransformError (k ++ " must be a string"))
              end
  end.

Definition apply_outbox (t : OutboxTransform) (e : Event) : Res OutboxResult :=
  if negb (outbox_enabled t) || negb (String.eqb (table e) (outbox_table t)) then Ok NotOutboxEvent
  else match op e with
       | Insert =>
           match after e with
           | Some (JObj m) =>
               aggregate_id <-? require_str "aggregate_id" m;
               event_type <-? require_str "event_type" m;
               match obj_get "payload" m with
               | None => Err (TransformError "missing payload in outbox event")
               | Some payload => Ok (IsOutboxEvent aggregate_id event_type payload)
               end
           | _ => Err (TransformError "outbox event requires object payload in after")
           end
       | _ => Ok NotOutboxEvent
       end.

Definition unwrap_outbox (aggregate_id event_type : string) (payload : json) (e : Event) : Event :=
  {| before := before e; after := Some payload; op := op e; source := source e; ts := ts e;
     schema := schema e; table := event_type; primary_key := Some [aggregate_id];
     snapshot := snapshot e; transaction := transaction e; envelope_version := envelope_version e;
     before_is_key_only := before_is_key_only e; unavailable_columns := unavailable_columns e;
     before_unavailable_columns := before_unavailable_columns e |}.

Definition outbox_apply : M (OutboxTransform * Event) bool := fun s =>
  let '(t, e) := s in
  match apply_outbox t e with
  | Ok NotOutboxEvent => (Ok true, (t, e))
  | Ok (IsOutboxEvent a ty p) => (Ok true, (t, unwrap_outbox a ty p e))
  | Err x => (Err x, (t, e))
  | Panic => (Panic, (t, e))
  end.

#[export] Instance outbox_transform : Transform OutboxTransform := {
  apply := outbox_apply;
  apply_batch := sync_batch outbox_apply;
  name := fun _ => "outbox";
  unmatched_rules := fun _ => [];
}.

(** ** Laws of the stages *)

#[export] Instance mapping_laws : StageLaws FieldMappingTransform.
Proof.
  apply stateless_laws; [|done]. intros t e. cbn. destruct (map_payload t (before e)) as [[[]|x|] b]; [|done..].
  by destruct (map_payload t (after e)) as [[[]|x|] a].
Defined.

Lemma mapping_keeps_identity (t : FieldMappingTransform) : keeps_identity t.
Proof.
  intros e e' t'. cbn. destruct (map_payload t (before e)) as [[[]|x|] b]; [|done..].
  destruct (map_payload t (after e)) as [[[]|x|] a]; [|done..]. by intros [= <- <-].
Qed.

#[export] Instance unwrap_laws : StageLaws UnwrapConfig.
Proof.
  apply stateless_laws; [|done]. intros t e. cbn. destruct (enabled t); cbn; [|done].
  destruct (flatten_payload t (before e)) as [b|x|]; [|done..]. by destruct (flatten_payload t (after e)) as [a|x|].
Defined.

Lemma unwrap_keeps_identity (c : UnwrapConfig) : keeps_identity c.
Proof.
  intros e e' t'. cbn. destruct (enabled c); cbn; [|by intros [= <- <-]].
  destruct (flatten_payload c (before e)) as [b|x|]; [|done..].
  destruct (flatten_payload c (after e)) as [a|x|]; [|done..]. by intros [= <- <-].
Qed.

#[export] Instance outbox_laws : StageLaws OutboxTransform.
Proof. apply stateless_laws; [|done]. intros t e. cbn. by destruct (apply_outbox t e) as [[]| |]. Defined.

Lemma route_keeps_identity `{RegexEngine} (t : RouteTransform) : update_table (route_config t) = false -> keeps_identity t.
Proof.
  intros Hu e e' t'. cbn. destruct (destination_for (table e) t) as [[d|x|] t1]; [|done..].
  rewrite Hu. by intros [= <- <-].
Qed.

(** ** The outbox and the key check *)

Lemma table_differs e tb a : tb <> table e -> qualified_table_name (with_table tb a e) <> qualified_table_name e.
Proof.
  intros Hne. unfold qualified_table_name. cbn. destruct (schema e) as [sc|]; [|done].
  destruct (negb (is_empty sc)); [|done]. intros E. apply append_inj_l in E. by injection E.
Qed.

(** The runtime with one stage. *)
Definition runtime_of {T} (t : T) (policy : TransformErrorPolicy) : TransformState (T := T) :=
  {| transform_pipeline := {| transforms := [Sync t] |}; transform_error_policy := policy;
     total_events_skipped := 0; dead_letters := Some [] |}.

Lemma unwrap_outbox_keyless a ty p e : op e = Insert -> (forall m, p = JObj m -> contains_key a m = false) ->
  has_resolvable_key (unwrap_outbox a ty p e) = false.
Proof.
  intros Hop Hp. unfold has_resolvable_key, key_row. cbn. rewrite Hop. cbn.
  destruct p as [| | | | |m]; try done. cbn. by rewrite (Hp m).
Qed.

(** The outbox stage declares the aggregate's identifier, a value, as the name of the key column, so for an outbox
    row with a key whose payload has no column of that name the outcome depends on the error policy alone: under Halt
    the event is delivered declaring a key it does not carry, so it is emitted unkeyed; under Skip the same event is
    refused as one that lost its key, counted as skipped and handed to the dead-letter handler. *)
Theorem outbox_key_depends_on_policy t e m aggregate_id event_type payload
    (Hen : outbox_enabled t = true) (Htab : table e = outbox_table t) (Hop : op e = Insert)
    (Hafter : after e = Some (JObj m)) (Hkey : has_resolvable_key e = true)
    (Hid : obj_get "aggregate_id" m = Some (JStr aggregate_id))
    (Hty : obj_get "event_type" m = Some (JStr event_type)) (Hpay : obj_get "payload" m = Some payload)
    (Hcol : forall row, payload = JObj row -> contains_key aggregate_id row = false) (Hne : event_type <> table e) :
  let e' := unwrap_outbox aggregate_id event_type payload e in
  fst (apply_transforms [e] (runtime_of t Halt)) = Ok [e'] /\
  declares_key e' = true /\ primary_key_values e' = None /\
  exists x, apply_transforms [e] (runtime_of t Skip)
    = (Ok [], {| transform_pipeline := {| transforms := [Sync t] |}; transform_error_policy := Skip;
                 total_events_skipped := 1; dead_letters := Some [(e, TransformError x)] |}).
Proof.
  intros e'.
  assert (Ha : outbox_apply (t, e) = (Ok true, (t, e'))).
  { unfold outbox_apply, apply_outbox, require_str. rewrite Hen, Htab, String.eqb_refl, Hop, Hafter, Hid, Hty, Hpay. done. }
  assert (Hno : has_resolvable_key e' = false) by (by apply unwrap_outbox_keyless).
  assert (Hq : qualified_table_name e' <> qualified_table_name e).
  { exact (table_differs e event_type (Some payload) Hne). }
  assert (Hk : keyed e = true) by (unfold keyed; by rewrite Hop, Hkey).
  split_and!; [| done| |].
  - unfold apply_transforms, on_pipeline, pipeline_apply_batch. cbn -[outbox_apply lost_key]. rewrite Ha, Hk.
    cbn -[outbox_apply lost_key]. unfold lost_key.
    rewrite (bool_decide_eq_false_2 _) by (intros E%list_elem_of_singleton; done). by rewrite andb_false_r.
  - destruct (primary_key_values e') eqn:E; [|done].
    assert (has_resolvable_key e' = true) by (apply has_resolvable_key_iff; by rewrite E). congruence.
  - eexists. unfold apply_transforms. cbn -[outbox_apply]. unfold on_pipeline, pipeline_apply. cbn -[outbox_apply].
    rewrite Ha, Hk. cbn -[has_resolvable_key]. rewrite Hno. reflexivity.
Qed.

(** ** Field mapping and unavailable columns *)

Definition copies_one (src dst : string) : FieldMappingTransform :=
  {| mapping := {| copy := [(src, dst)]; rename := []; set_literals := []; remove := []; strict := false |};
     copy_rules := [{| from := [src]; to := [dst] |}]; rename_rules := []; set_rules := []; remove_rules := [] |}.

Lemma copy_absent src dst m : obj_get src m = None ->
  map_payload (copies_one src dst) (Some (JObj m)) = (Ok tt, Some (JObj m)).
Proof.
  intros E. unfold map_payload, map_object. cbn [is_object negb copies_one mapping strict copy_rules for_each].
  assert (Hc : copy_field false {| from := [src]; to := [dst] |} (JObj m) = (Ok tt, JObj m)).
  { unfold copy_field. cbn. by rewrite E. }
  rewrite !bind_eq. by rewrite Hc.
Qed.

(** A copy whose source is absent still clears the mark of its destination: when column [dst] of an event is
    unavailable and the column [src] it should be copied from is not in the row, a mapping that copies [src] to [dst]
    without strictness leaves the row as it is and strikes [dst] off the unavailable columns, so that the write of the
    event turns from a merge that keeps the target's [dst] into a replacement of the whole row without it. *)
Theorem copy_of_absent_clears_mark c t e src dst b row key
    (Hcfg : c = {| copy := [(src, dst)]; rename := []; set_literals := []; remove := []; strict := false |})
    (Hsrc : parse_path src = Ok [src]) (Hdst : parse_path dst = Ok [dst]) (Hnew : mapping_new c = Ok t)
    (Hop : op e = Update) (Hbefore : before e = Some (JObj b)) (Hafter : after e = Some (JObj row))
    (Habs : obj_get src row = None /\ obj_get src b = None /\ obj_get dst row = None)
    (Hun : unavailable_columns e = [dst]) (Hkey : primary_key_values e = Some key) :
  exists e', mapping_apply (t, e) = (Ok true, (t, e')) /\ after e' = after e /\
    row_write e = Merge key (JObj row) [dst] /\ row_write e' = Replace (Some key) (JObj row).
Proof.
  destruct Habs as (H1 & H2 & _). assert (Ht : t = copies_one src dst).
  { subst c. unfold mapping_new in Hnew. cbn in Hnew. unfold parse_move in Hnew. cbn in Hnew.
    rewrite Hsrc, Hdst in Hnew. cbn in Hnew. by injection Hnew as <-. }
  exists (with_row (before e) (after e) (remap_unavailable t (before_unavailable_columns e)) [] e). split_and!.
  - unfold mapping_apply. rewrite Ht, Hbefore, Hafter, !copy_absent, Hun by done. cbn. by rewrite String.eqb_refl.
  - done.
  - unfold row_write. by rewrite Hop, Hafter, Hun, Hkey.
  - set (e2 := with_row _ _ _ _ e). assert (Hk : primary_key_values e2 = primary_key_values e) by reflexivity.
    unfold row_write. change (op e2) with (op e). change (after e2) with (after e).
    change (unavailable_columns e2) with (@nil string). by rewrite Hop, Hafter, Hk, Hkey.
Qed.

(** ** What flattening keeps *)

Section LeafLoops.
Variable f : string -> json -> list (string * json).
Fixpoint leaf_items (i : nat) (l : list json) : list (string * json) :=
  match l with [] => [] | v :: l' => (f (show (Z.of_nat i)) v ++ leaf_items (S i) l')%list end.
Definition leaf_fields (m : object) : list (string * json) := flat_map (fun kv => f (fst kv) (snd kv)) m.
End LeafLoops.

(** The leaves of a value with their dotted names, in the order of the walk; empty
    containers, and arrays unless they are flattened, count as leaves. *)
Fixpoint leaves (arrays : bool) (key : string) (v : json) : list (string * json) :=
  match v with
  | JObj ((_ :: _) as m) => flat_map (fun kv => leaves arrays (key ++ "." ++ fst kv) (snd kv)) m
  | JArr ((_ :: _) as l) =>
      if arrays then leaf_items (fun k x => leaves arrays (key ++ "." ++ k) x) 0 l else [(key, v)]
  | _ => [(key, v)]
  end.

(** The nesting that flattening descends through. *)
Fixpoint height (arrays : bool) (v : json) : Z :=
  match v with
  | JObj m => 1 + foldr (fun kv h => Z.max (height arrays (snd kv)) h) 0 m
  | JArr l => if arrays then 1 + foldr (fun x h => Z.max (height arrays x) h) 0 l else 1
  | _ => 1
  end.

Definition insert_all (l : list (string * json)) (out : object) : object :=
  fold_left (fun m kv => obj_insert (fst kv) (snd kv) m) l out.

(** A [u8] bound of 255 is never exceeded, since the depth saturates there. *)
Definition fits (c : UnwrapConfig) (depth h : Z) : bool := (max_depth c =? 255) || (depth + h - 1 <=? max_depth c).

Lemma insert_all_app l l' out : insert_all (l ++ l') out = insert_all l' (insert_all l out).
Proof. apply fold_left_app. Qed.

Lemma height_pos arrays v : 1 <= height arrays v.
Proof.
  assert (Hf : forall {A} (g : A -> Z) (l : list A), 0 <= foldr (fun x h => Z.max (g x) h) 0 l).
  { intros A g l. induction l; cbn; lia. }
  destruct v as [| | | |l|m]; cbn; try lia.
  - destruct arrays; [|lia]. specialize (Hf _ (height true) l). lia.
  - specialize (Hf _ (fun kv => height arrays (snd kv)) m). cbn in Hf. lia.
Qed.

Lemma fits_max c d a b : fits c d (Z.max a b) = fits c d a && fits c d b.
Proof.
  unfold fits. destruct (max_depth c =? 255); cbn; [done|].
  destruct (Z.leb_spec (d + Z.max a b - 1) (max_depth c)), (Z.leb_spec (d + a - 1) (max_depth c)),
    (Z.leb_spec (d + b - 1) (max_depth c)); cbn; lia.
Qed.

Definition flat_result (c : UnwrapConfig) (depth h : Z) (out : object) : Res object :=
  if fits c depth h then Ok out else Err (TransformError "unwrap depth exceeded max_depth").

(** The loops collect the leaves of the elements. *)
Lemma flatten_fields_spec c d f g m : fits c d 0 = true ->
  Forall (fun kv => forall out, f (fst kv) (snd kv) out
    = flat_result c d (height (flatten_arrays c) (snd kv)) (insert_all (g (fst kv) (snd kv)) out)) m ->
  forall out, flatten_fields f m out
  = flat_result c d (foldr (fun kv h => Z.max (height (flatten_arrays c) (snd kv)) h) 0 m)
      (insert_all (flat_map (fun kv => g (fst kv) (snd kv)) m) out).
Proof.
  intros H0 Hf. induction Hf as [|[k v] m Hv _ IH]; intros out; unfold flat_result in *; cbn [flatten_fields flat_map foldr].
  - by rewrite H0.
  - cbn in Hv. rewrite Hv, fits_max, insert_all_app. cbn. destruct (fits c d (height _ v)); cbn; [apply IH|done].
Qed.

Lemma flatten_items_spec c d f g l : fits c d 0 = true ->
  Forall (fun v => forall k out, f k v out
    = flat_result c d (height (flatten_arrays c) v) (insert_all (g k v) out)) l ->
  forall i out, flatten_items f i l out
  = flat_result c d (foldr (fun x h => Z.max (height (flatten_arrays c) x) h) 0 l) (insert_all (leaf_items g i l) out).
Proof.
  intros H0 Hf. induction Hf as [|v l Hv _ IH]; intros i out; unfold flat_result in *; cbn [flatten_items leaf_items foldr].
  - by rewrite H0.
  - rewrite Hv, fits_max, insert_all_app. destruct (fits c d (height _ v)); cbn; [apply IH|done].
Qed.

Definition u8 (n : Z) : Prop := 0 <= n <= 255.

Lemma flat_deeper c d h out : u8 (max_depth c) -> d <= max_depth c ->
  flat_result c (deeper d) h out = flat_result c d (1 + h) out.
Proof.
  intros Hm Hd. unfold flat_result, fits, deeper, u8 in *. destruct (Z.eqb_spec (max_depth c) 255); cbn; [done|].
  replace (Z.min (d + 1) 255 + h - 1) with (d + (1 + h) - 1) by lia. done.
Qed.

Lemma fits_deeper c d : u8 (max_depth c) -> d <= max_depth c -> fits c (deeper d) 0 = true.
Proof. unfold fits, deeper, u8. intros Hm Hd. destruct (Z.eqb_spec (max_depth c) 255); cbn; [done|]. lia. Qed.

Lemma flat_leaf c key x d out : u8 (max_depth c) -> 1 <= d <= 255 ->
  (if max_depth c <? d then Err (TransformError "unwrap depth exceeded max_depth") else Ok (obj_insert key x out))
  = flat_result c d 1 (insert_all [(key, x)] out).
Proof.
  unfold flat_result, fits, u8. intros Hm Hd. cbn.
  destruct (Z.ltb_spec (max_depth c) d), (Z.eqb_spec (max_depth c) 255), (Z.leb_spec (d + 1 - 1) (max_depth c)); cbn; done || lia.
Qed.

Lemma flat_too_deep c d h out : max_depth c < d <= 255 -> 1 <= h ->
  Err (TransformError "unwrap depth exceeded max_depth") = flat_result c d h out.
Proof.
  intros Hd Hh. unfold flat_result, fits.
  destruct (Z.eqb_spec (max_depth c) 255), (Z.leb_spec (d + h - 1) (max_depth c)); cbn; done || lia.
Qed.

Lemma deeper_range d : 1 <= d <= 255 -> 1 <= deeper d <= 255.
Proof. unfold deeper. lia. Qed.

Lemma flatten_into_spec c v : u8 (max_depth c) -> forall key d out, 1 <= d <= 255 ->
  flatten_into c key v d out
  = flat_result c d (height (flatten_arrays c) v) (insert_all (leaves (flatten_arrays c) key v) out).
Proof.
  intros Hm. induction v as [v Ho Ha|l IH|m IH] using json_nested_ind; intros key d out Hd.
  - destruct v; try done; try (by apply flat_leaf); exfalso; by eapply Ha.
  - destruct (flatten_arrays c) eqn:Earr.
    2: { cbn. rewrite Earr. destruct l; by apply flat_leaf. }
    destruct l as [|x l]; [cbn; rewrite Earr; by apply flat_leaf|]. cbn [flatten_into]. rewrite Earr.
    destruct (Z.ltb_spec (max_depth c) d) as [Hlt|Hle]; [apply flat_too_deep; [lia|apply height_pos]|].
    rewrite (flatten_items_spec c (deeper d) _ (fun k x => leaves true (key ++ "." ++ k) x)).
    + rewrite flat_deeper by (done || lia). by rewrite Earr.
    + by apply fits_deeper; [|lia].
    + eapply Forall_impl; [exact IH|]. intros y Hy k o. rewrite Earr. by apply Hy, deeper_range.
  - destruct m as [|kv m]; [by apply flat_leaf|]. cbn [flatten_into].
    destruct (Z.ltb_spec (max_depth c) d) as [Hlt|Hle]; [apply flat_too_deep; [lia|apply height_pos]|].
    rewrite (flatten_fields_spec c (deeper d) _ (fun k x => leaves (flatten_arrays c) (key ++ "." ++ k) x)).
    + by rewrite flat_deeper by (done || lia).
    + by apply fits_deeper; [|lia].
    + eapply Forall_impl; [exact IH|]. intros y Hy o. by apply Hy, deeper_range.
Qed.

Lemma obj_get_insert_all k l out :
  obj_get k (insert_all l out) = match assoc k (List.rev l) with Some v => Some v | None => obj_get k out end.
Proof.
  assert (Happ : forall (l l' : list (string * json)),
    assoc k (l ++ l')%list = match assoc k l with Some v => Some v | None => assoc k l' end).
  { intros l1 l2. induction l1 as [|[k' v'] l1 IH]; cbn; [done|]. by destruct (String.eqb k k'). }
  revert out. induction l as [|[k' v'] l IH]; intros out; cbn; [done|].
  unfold insert_all in *. cbn. rewrite IH, Happ. cbn. destruct (assoc k (List.rev l)) as [v|]; [done|].
  rewrite obj_get_insert. destruct (String.eqb_spec k k'), (decide (k = k')); done.
Qed.

(** The leaves of a row. *)
Definition row_leaves (c : UnwrapConfig) (m : object) : list (string * json) :=
  flat_map (fun kv => leaves (flatten_arrays c) (fst kv) (snd kv)) m.

(** Flattening turns a row into the map of its leaves under their dotted names: it succeeds exactly when no leaf
    is nested deeper than the configured bound (a bound of 255 never fails), keeps nothing else, and where two leaves
    of a row get the same name the later one silently takes the place of the earlier. *)
Theorem flatten_is_leaf_map c m (Hm : u8 (max_depth c)) :
  let h := foldr (fun kv h => Z.max (height (flatten_arrays c) (snd kv)) h) 0 m in
  (max_depth c <> 255 -> max_depth c < h ->
     flatten_payload c (Some (JObj m)) = Err (TransformError "unwrap depth exceeded max_depth")) /\
  (max_depth c = 255 \/ h <= max_depth c ->
     exists flat, flatten_payload c (Some (JObj m)) = Ok (Some (JObj flat)) /\
       forall k, obj_get k flat = assoc k (List.rev (row_leaves c m))).
Proof.
  intros h. assert (Hf : flatten_fields (fun k v o => flatten_into c k v 1 o) m []
    = flat_result c 1 h (insert_all (row_leaves c m) [])).
  { apply (flatten_fields_spec c 1 _ (leaves (flatten_arrays c))).
    - unfold fits, u8 in *. destruct (Z.eqb_spec (max_depth c) 255); cbn; [done|]. lia.
    - apply Forall_true. intros kv o. by apply flatten_into_spec. }
  unfold flatten_payload. rewrite Hf. unfold flat_result, fits. split.
  - intros H1 H2. destruct (Z.eqb_spec (max_depth c) 255), (Z.leb_spec (1 + h - 1) (max_depth c)); cbn; done || lia.
  - intros Hfit. assert (E : (max_depth c =? 255) || (1 + h - 1 <=? max_depth c) = true) by lia.
    rewrite E. eexists. split; [done|]. intros k. rewrite obj_get_insert_all. by destruct (assoc k _).
Qed.

(** ** Examples *)

Module Demo.

#[export] Instance engine : TransformFilter.TextEngine :=
  {| TransformFilter.regex := unit; TransformFilter.compile := fun _ => Some tt;
     TransformFilter.is_match := fun _ _ => true; TransformFilter.display := fun _ => "";
     TransformFilter.debug_str := fun s => s |}.

#[local] Existing Instances TransformFilter.filter_transform TransformFilter.filter_laws.

Definition int (n : N) : json := JNum (PosInt n).
Definition row (t : string) (o : Operation) (b a : option json) (u : list string) : Event :=
  {| before := b; after := a; op := o;
     source := {| source_name := "pg"; offset := "1"; timestamp := 1 |}; ts := 1; schema := Some "public";
     table := t; primary_key := Some ["id"]; snapshot := None; transaction := None;
     envelope_version := EVENT_ENVELOPE_VERSION; before_is_key_only := false;
     unavailable_columns := u; before_unavailable_columns := [] |}.

(** Amounts above 100, with the column renamed. *)
Definition big : TransformFilter.FilterProjectionTransform :=
  {| TransformFilter.config :=
       {| TransformFilter.filters :=
            [{| TransformFilter.field := TransformFilter.AfterField "amount";
                TransformFilter.operator := TransformFilter.Gt; TransformFilter.value := "100" |}];
          TransformFilter.filter_mode := TransformFilter.All; TransformFilter.include_columns := None;
          TransformFilter.exclude_columns := None; TransformFilter.pass_through_truncate := true |};
     TransformFilter.compiled_rules :=
       [{| TransformFilter.filter_rule :=
             {| TransformFilter.field := TransformFilter.AfterField "amount";
                TransformFilter.operator := TransformFilter.Gt; TransformFilter.value := "100" |};
           TransformFilter.compiled := None; TransformFilter.evaluations := 0; TransformFilter.matches := 0 |}] |}.

Definition renames : FieldMappingTransform :=
  {| mapping := {| copy := []; rename := [("amount", "total")]; set_literals := []; remove := []; strict := false |};
     copy_rules := []; rename_rules := [{| from := ["amount"]; to := ["total"] |}]; set_rules := []; remove_rules := [] |}.

Definition demo_pipeline : TransformPipeline (TransformFilter.FilterProjectionTransform + FieldMappingTransform) :=
  {| transforms := [Sync (inl big); Sync (inr renames)] |}.

Definition order (id : N) (amount : string) : Event :=
  row "orders" Insert None (Some (JObj [("amount", JStr amount); ("id", int id)])) [].
Definition orders : list Event := [order 1 "100.5"; order 2 "99"; order 3 "+0100.000"; order 4 "1000"].

Definition renamed (id : N) (amount : string) : Event :=
  row "orders" Insert None (Some (JObj [("id", int id); ("total", JStr amount)])) [].


Definition outbox : OutboxTransform := {| outbox_enabled := true; outbox_table := "outbox" |}.
Definition placed : Event :=
  row "outbox" Insert None
    (Some (JObj [("aggregate_id", JStr "order-42"); ("event_type", JStr "order.placed"); ("id", int 7);
                 ("payload", JObj [("total", int 99)])])) [].

Lemma outbox_key_depends_on_policy_witness :
  fst (apply_transforms [placed] (runtime_of outbox Halt))
    = Ok [unwrap_outbox "order-42" "order.placed" (JObj [("total", int 99)]) placed] /\
  fst (apply_transforms [placed] (runtime_of outbox Skip)) = Ok [].
Proof.
  destruct (outbox_key_depends_on_policy outbox placed
    [("aggregate_id", JStr "order-42"); ("event_type", JStr "order.placed"); ("id", int 7);
     ("payload", JObj [("total", int 99)])] "order-42" "order.placed" (JObj [("total", int 99)])
    eq_refl eq_refl eq_refl eq_refl eq_refl eq_refl eq_refl eq_refl) as (H1 & _ & _ & x & H2).
  - by intros r [= <-].
  - done.
  - split; [exact H1|]. by rewrite H2.
Defined.

(** The body of a document was too large to be sent, and the summary it is copied to too. *)
Definition toast : Event :=
  row "docs" Update (Some (JObj [("id", int 1)])) (Some (JObj [("id", int 1); ("title", JStr "t")])) ["summary"].

Lemma copy_of_absent_clears_mark_witness :
  row_write toast = Merge (JObj [("id", int 1)]) (JObj [("id", int 1); ("title", JStr "t")]) ["summary"] /\
  exists e', mapping_apply (copies_one "body" "summary", toast) = (Ok true, (copies_one "body" "summary", e')) /\
    row_write e' = Replace (Some (JObj [("id", int 1)])) (JObj [("id", int 1); ("title", JStr "t")]).
Proof.
  split; [reflexivity|].
  destruct (copy_of_absent_clears_mark (mapping (copies_one "body" "summary")) (copies_one "body" "summary") toast
    "body" "summary" [("id", int 1)] [("id", int 1); ("title", JStr "t")] (JObj [("id", int 1)])) as (e' & H1 & _ & _ & H2);
    try reflexivity; [by split_and!|].
  by exists e'.
Defined.

(** A nested field and a column of the same dotted name. *)
Definition clash : object := [("a", JObj [("b", int 1)]); ("a.b", int 2); ("c", JArr [])].

Lemma flatten_is_leaf_map_witness :
  height false (JObj clash) <= 10 /\
  exists flat, flatten_payload default_unwrap (Some (JObj clash)) = Ok (Some (JObj flat)) /\
    forall k, obj_get k flat = assoc k (List.rev (row_leaves default_unwrap clash)).
Proof.
  split; [vm_compute; discriminate|].
  apply (flatten_is_leaf_map default_unwrap clash); [vm_compute; split; discriminate|].
  right. vm_compute. discriminate.
Defined.

Example clash_loses_nested_field :
  flatten_payload default_unwrap (Some (JObj clash)) = Ok (Some (JObj [("a.b", int 2); ("c", JArr [])])).
Proof. reflexivity. Qed.

End Demo.

End TransformFields.
