(* ===== verification/Lifecycle.v ===== *)
(** * Lifecycle: the whole runtime

    The rest of [CdcRuntime] around the delivery half of [Runtime.v]: construction, the
    source it drives, starting and stopping, the control queue, and [poll_event_batch]
    with its stages (schema history, duplicate guard, transforms), its snapshot phase and
    its reconnect loop ([src/src/core/runtime.rs], [runtime/runtime_lifecycle.rs],
    [runtime/runtime_poll.rs], [runtime/control.rs], [runtime/runtime_admin.rs]).

    The source, the snapshot handle, the schema history, the sink and the transform stages
    are type classes, as they are traits in the source.  The clock is an argument, and the
    delays slept are kept in a list.  A loop that the configuration leaves unbounded takes
    fuel and answers [None] when it runs out. *)

From S2P Require Import Prelude Errors CheckpointApi Strs Json Offsets Event Barrier Monad Driver Idempotency Runtime SchemaHistory Text DdlParse Transforms Sinks.

Module Lifecycle.
Import Runtime.

Local Open Scope string_scope.
Local Open Scope Z_scope.

Abbreviation Event := Event.Event.

(** [match m { Ok(a) => .., Err(e) => .. }] *)
Definition try {S A} (m : M S A) : M S (Error + A) := fun s =>
  match m s with
  | (Ok a, s') => (Ok (inr a), s')
  | (Err e, s') => (Ok (inl e), s')
  | (Panic, s') => (Panic, s')
  end.

#[global] Instance M_fmap S : FMap (M S) := fun _ _ f m s =>
  match m s with
  | (Ok a, s') => (Ok (f a), s')
  | (Err e, s') => (Err e, s')
  | (Panic, s') => (Panic, s')
  end.

(** ** Configuration *)

Inductive RuntimeState := Idle | Running | Stopping | Stopped.

#[global] Instance RuntimeState_eq_dec : EqDecision RuntimeState.
Proof. solve_decision. Defined.

Definition state_label (s : RuntimeState) : string :=
  match s with
  | Idle => "idle" | Running => "running" | Stopping => "stopping" | Stopped => "stopped"
  end.

Record ConnectionRetryPolicy := {
  max_retries : option Z;
  initial_delay_ms : Z;
  max_delay_ms : Z;
}.

Definition validate_retry (p : ConnectionRetryPolicy) : Res ConnectionRetryPolicy :=
  if initial_delay_ms p =? 0 then
    Err (ConfigError "connection_retry.initial_delay_ms must be greater than zero")
  else if max_delay_ms p <? initial_delay_ms p then
    Err (ConfigError "connection_retry.max_delay_ms must be at least initial_delay_ms")
  else Ok p.

Record IncrementalSnapshotConfig := {
  cfg_tables : list string;
  cfg_chunk_size : nat;
  cfg_conditions : list (string * string);
}.

Record SnapshotRequest := {
  req_tables : list string;
  req_conditions : list (string * string);
}.

(** What [capabilities] answers, as far as the runtime branches on it. *)
Record ConnectorCapabilities := {
  can_snapshot : bool;
  snapshot_checkpoint_resume : bool;
  can_handoff : bool;
}.

Definition capabilities (c : RuntimeSourceConfig) : ConnectorCapabilities :=
  match c with
  | Disabled =>
      {| can_snapshot := false; snapshot_checkpoint_resume := false; can_handoff := false |}
  | _ => {| can_snapshot := true; snapshot_checkpoint_resume := true; can_handoff := true |}
  end.

(** The options and the configuration the delivery half does not read. *)
Record Settings := {
  max_poll_wait_ms : Z;
  connection_retry : option ConnectionRetryPolicy;
  schema_history_retention : option nat;
  sink_close_timeout_ms : option Z;
  snapshot_tables : list string;
  incremental_config : IncrementalSnapshotConfig;  (* read when the core's flag is set *)
  idempotency : option (nat * option Z);           (* [IdempotencyOptions] *)
}.

(** ** What the runtime drives *)

(** [SnapshotHandle::next_chunk] *)
Class ChunkReader (SN : Type) := next_chunk : nat -> M SN (list Event).

(** The control methods of [StreamHandle]. *)
Class SnapshotControl (I : Type) := {
  request_snapshot_tables : SnapshotRequest -> M I nat;
  set_snapshot_paused : bool -> M I bool;
  stop_snapshot : M I nat;
}.

(** The [Source] trait, and the connectors' [start_incremental_snapshot].  [close] returns
    nothing, and the runtime goes on whether or not it finished in time. *)
Class Source (S SN I : Type) := {
  connect : M S unit;
  close : S -> S;
  start_snapshot : list string -> M S SN;
  start_snapshot_from_checkpoint : list string -> DynOffset -> M S SN;
  start_stream : option DynOffset -> M S I;
  start_incremental_snapshot : IncrementalSnapshotConfig -> option DynOffset -> M S I;
  perform_handoff : M (S * SN * I) unit;
}.

(** The [SchemaHistory] trait, as far as the runtime calls it. *)
Class History (H : Type) := {
  record_ddl : string -> SchemaHistory.DDLEvent -> M H Z;
  apply_retention : nat -> M H nat;
}.

(** [RuntimeSource]: a connector of the crate, none, or the embedder's own. *)
Inductive RuntimeSource (S : Type) := Connector (s : S) | NoSource | Custom (s : S).
Arguments Connector {S} s.
Arguments NoSource {S}.
Arguments Custom {S} s.

Section Dispatch.
Context {S SN I : Type} `{Source S SN I}.

Definition disabled_error : Error := ConfigError "runtime source is disabled in this build".

Definition dispatch {A} (m : M S A) : M (RuntimeSource S) A := fun src =>
  match src with
  | Connector s => let '(res, s') := m s in (res, Connector s')
  | Custom s => let '(res, s') := m s in (res, Custom s')
  | NoSource => (Err disabled_error, NoSource)
  end.

Definition source_close (src : RuntimeSource S) : RuntimeSource S :=
  match src with
  | Connector s => Connector (close s)
  | Custom s => Custom (close s)
  | NoSource => NoSource
  end.

Definition source_start_incremental (cfg : IncrementalSnapshotConfig) (o : option DynOffset)
    : M (RuntimeSource S) I := fun src =>
  match src with
  | Custom _ =>
      (Err (ConfigError "incremental snapshot startup is not available for a custom source"), src)
  | _ => dispatch (start_incremental_snapshot cfg o) src
  end.

Definition source_handoff (sn : SN) (i : I) (src : RuntimeSource S)
    : Res unit * (RuntimeSource S * SN * I) :=
  match src with
  | Connector s =>
      let '(res, (s', sn', i')) := perform_handoff (s, sn, i) in (res, (Connector s', sn', i'))
  | Custom s =>
      let '(res, (s', sn', i')) := perform_handoff (s, sn, i) in (res, (Custom s', sn', i'))
  | NoSource => (Err disabled_error, (NoSource, sn, i))
  end.

End Dispatch.

(** ** The control queue *)

(** A command, with the sender its answer goes to. *)
Inductive ControlCommand :=
| RequestSnapshot (request : SnapshotRequest) (reply : nat)
| SetSnapshotPaused (paused : bool) (reply : nat)
| StopSnapshot (reply : nat).

Inductive Reply := Enqueued (r : Res nat) | Previous (r : Res bool).

Definition CONTROL_QUEUE_DEPTH : nat := 64.

(** [published] is what handles read; [replies] are the answers sent. *)
Record Control := {
  commands : list ControlCommand;
  replies : list (nat * Reply);
  published : option IncrementalSnapshotState;
}.

(** [RuntimeControl::dispatch], up to the wait for the answer: [None] is a caller that
    waits for room in the channel. *)
Definition send_command (c : ControlCommand) (ctl : Control) : option Control :=
  if (length (commands ctl) <? CONTROL_QUEUE_DEPTH)%nat then
    Some {| commands := commands ctl ++ [c]; replies := replies ctl; published := published ctl |}
  else None.

(** ** The state *)

Record CdcService (C SN I S T H K : Type) := {
  core : CdcRuntime C SN I;
  state : RuntimeState;
  source : RuntimeSource S;
  handoff_complete : bool;
  transforms : Transforms.TransformState (T := T);  (* the pipeline, its policy, [total_events_skipped] *)
  idempotency_guard : option Idempotency.EventIdempotencyGuard;
  schema_history : H;
  registered_sink : option K;
  control : Control;
  settings : Settings;
  started_at_ms : option Z;
  total_events_deduplicated : Z;
  naps : list Z;
}.
Arguments core {C SN I S T H K}. Arguments state {C SN I S T H K}.
Arguments source {C SN I S T H K}. Arguments handoff_complete {C SN I S T H K}.
Arguments transforms {C SN I S T H K}. Arguments idempotency_guard {C SN I S T H K}.
Arguments schema_history {C SN I S T H K}. Arguments registered_sink {C SN I S T H K}.
Arguments control {C SN I S T H K}. Arguments settings {C SN I S T H K}.
Arguments started_at_ms {C SN I S T H K}. Arguments total_events_deduplicated {C SN I S T H K}.
Arguments naps {C SN I S T H K}.

Section Ops.
Context `{BuildProfile} `{JsonCodec} {C SN I S T SH K : Type}.
Context `{Checkpoint C} `{SnapshotHandle SN} `{Driver.StreamHandle I}.
Context `{!ChunkReader SN} `{!SnapshotControl I} `{!Source S SN I} `{!Transforms.Transform T}.
Context `{!History SH} `{!Sinks.SinkAdapter K}.
Variable ahash : list Idempotency.Token -> Z.

Abbreviation R := (CdcService C SN I S T SH K).

(** *** Updates *)

Definition with_core (c : CdcRuntime C SN I) (r : R) : R :=
  {| core := c; state := state r; source := source r; handoff_complete := handoff_complete r;
     transforms := transforms r; idempotency_guard := idempotency_guard r;
     schema_history := schema_history r; registered_sink := registered_sink r;
     control := control r; settings := settings r; started_at_ms := started_at_ms r;
     total_events_deduplicated := total_events_deduplicated r; naps := naps r |}.

Definition with_state (st : RuntimeState) (at_ms : option Z) (r : R) : R :=
  {| core := core r; state := st; source := source r; handoff_complete := handoff_complete r;
     transforms := transforms r; idempotency_guard := idempotency_guard r;
     schema_history := schema_history r; registered_sink := registered_sink r;
     control := control r; settings := settings r; started_at_ms := at_ms;
     total_events_deduplicated := total_events_deduplicated r; naps := naps r |}.

Definition with_source (s : RuntimeSource S) (handoff : bool) (r : R) : R :=
  {| core := core r; state := state r; source := s; handoff_complete := handoff;
     transforms := transforms r; idempotency_guard := idempotency_guard r;
     schema_history := schema_history r; registered_sink := registered_sink r;
     control := control r; settings := settings r; started_at_ms := started_at_ms r;
     total_events_deduplicated := total_events_deduplicated r; naps := naps r |}.

Definition with_stages (t : Transforms.TransformState) (g : option Idempotency.EventIdempotencyGuard)
    (h : SH) (n : Z) (r : R) : R :=
  {| core := core r; state := state r; source := source r;
     handoff_complete := handoff_complete r; transforms := t; idempotency_guard := g;
     schema_history := h; registered_sink := registered_sink r; control := control r;
     settings := settings r; started_at_ms := started_at_ms r;
     total_events_deduplicated := n; naps := naps r |}.

Definition with_sink (k : option K) (ctl : Control) (l : list Z) (r : R) : R :=
  {| core := core r; state := state r; source := source r;
     handoff_complete := handoff_complete r; transforms := transforms r;
     idempotency_guard := idempotency_guard r; schema_history := schema_history r;
     registered_sink := k; control := ctl; settings := settings r;
     started_at_ms := started_at_ms r;
     total_events_deduplicated := total_events_deduplicated r; naps := l |}.

(** The handles of the core. *)
Definition with_handles (sn : option SN) (i : option I) (c : CdcRuntime C SN I)
    : CdcRuntime C SN I :=
  {| config := config c; injected_events := injected_events c;
     pending_source_events := pending_source_events c; buffered_events := buffered_events c;
     delivered_not_committed := delivered_not_committed c;
     next_delivery_id := next_delivery_id c; pending_delivery := pending_delivery c;
     commit_barrier := commit_barrier c; checkpoint := checkpoint c; snapshot := sn;
     stream := i; pending_confirmation_lsn := pending_confirmation_lsn c;
     unconfirmed_stall_polls := unconfirmed_stall_polls c; stats := stats c |}.

Definition set_snapshot (sn : option SN) : M R unit :=
  modify (fun r => with_core (with_handles sn (stream (core r)) (core r)) r).
Definition set_stream (i : option I) : M R unit :=
  modify (fun r => with_core (with_handles (snapshot (core r)) i (core r)) r).
Definition set_handoff (b : bool) : M R unit := modify (fun r => with_source (source r) b r).

(** Run an operation on a part of the state. *)
Definition on_core {A} (m : M (CdcRuntime C SN I) A) : M R A := fun r =>
  let '(res, c) := m (core r) in (res, with_core c r).

Definition on_source {A} (m : M (RuntimeSource S) A) : M R A := fun r =>
  let '(res, s) := m (source r) in (res, with_source s (handoff_complete r) r).

Definition on_store {A} (m : M C A) : M R A := fun r =>
  let '(res, c) := m (checkpoint (core r)) in
  (res, with_core (with_barrier (commit_barrier (core r)) c (core r)) r).

Definition on_history {A} (m : M SH A) : M R A := fun r =>
  let '(res, h) := m (schema_history r) in
  (res, with_stages (transforms r) (idempotency_guard r) h (total_events_deduplicated r) r).

Definition on_stream {A} (absent : Error) (m : M I A) : M R A := fun r =>
  match stream (core r) with
  | None => (Err absent, r)
  | Some i =>
      let '(res, i') := m i in
      (res, with_core (with_handles (snapshot (core r)) (Some i') (core r)) r)
  end.

Definition close_source : M R unit :=
  modify (fun r => with_source (source_close (source r)) (handoff_complete r) r).

Definition sleep (ms : Z) : M R unit :=
  modify (fun r => with_sink (registered_sink r) (control r) (naps r ++ [ms])%list r).

(** *** Construction *)

Definition build_idempotency_guard (o : option (nat * option Z))
    : Res (option Idempotency.EventIdempotencyGuard) :=
  match o with
  | None => Ok None
  | Some (cap, ttl) =>
      g <-? Idempotency.guard_new cap;
      g <-? (match ttl with Some ms => Idempotency.with_ttl_ms ms g | None => Ok g end);
      Ok (Some g)
  end.

(** [CdcRuntime::new]; [connector] is the constructor of the configured connection.  The
    state before the run is taken from a fresh barrier and empty queues. *)
Definition new (connector : RuntimeSourceConfig -> S) (cfg : RuntimeConfig) (store : C)
    (history : SH) (set : Settings) (policy : Transforms.TransformErrorPolicy)
    (dead_letter_handler : bool) : Res R :=
  if (max_buffer_size (options cfg) =? 0)%nat then
    Err (ConfigError "max_buffer_size must be greater than zero")
  else if negb (bool_decide (snapshot_tables set = [])) && incremental_snapshot cfg then
    Err (ConfigError "snapshot_tables and incremental_snapshot are mutually exclusive")
  else if match policy with Transforms.Skip => negb dead_letter_handler | Transforms.Halt => false end
  then Err (ConfigError "TransformErrorPolicy::Skip requires a dead-letter handler")
  else
    let caps := capabilities (Runtime.source cfg) in
    let wants := match Runtime.source cfg with
                 | Disabled => false
                 | _ => negb (bool_decide (snapshot_tables set = []))
                 end in
    if wants && negb (can_snapshot caps) then
      Err (ConfigError "configured source does not support snapshot mode")
    else if wants && negb (can_handoff caps) then
      Err (ConfigError "configured source does not support snapshot-to-stream handoff")
    else
      _ <-? (match connection_retry set with
             | Some p => (p' <-? validate_retry p; Ok (Some p')) | None => Ok None end);
      g <-? build_idempotency_guard (idempotency set);
      Ok {| core :=
              {| config := cfg; injected_events := []; pending_source_events := [];
                 buffered_events := []; delivered_not_committed := 0; next_delivery_id := 1;
                 pending_delivery := None;
                 commit_barrier := Barrier.new (max_buffer_size (options cfg));
                 checkpoint := store; snapshot := None; stream := None;
                 pending_confirmation_lsn := None; unconfirmed_stall_polls := 0;
                 stats := {| last_poll_at_ms := None; last_source_event_ts_ms := None;
                             last_commit_at_ms := None; last_checkpoint_saved_at_ms := None;
                             total_events_polled := 0; total_events_committed := 0 |} |};
            state := Idle;
            source := match Runtime.source cfg with
                      | Disabled => NoSource | c => Connector (connector c) end;
            handoff_complete := false;
            transforms :=
              {| Transforms.transform_pipeline := {| Transforms.transforms := [] |};
                 Transforms.transform_error_policy := policy;
                 Transforms.total_events_skipped := 0;
                 Transforms.dead_letters := if dead_letter_handler then Some [] else None |};
            idempotency_guard := g; schema_history := history; registered_sink := None;
            control := {| commands := []; replies := []; published := None |};
            settings := set; started_at_ms := None; total_events_deduplicated := 0;
            naps := [] |}.

Definition register_sink (k : K) (r : R) : R := with_sink (Some k) (control r) (naps r) r.
Definition register_source (s : S) (r : R) : R :=
  with_source (Custom s) (handoff_complete r) r.
Definition add_transform (t : T) (r : R) : R :=
  let ts := transforms r in
  with_stages (Transforms.with_pipeline (Transforms.add_transform t (Transforms.transform_pipeline ts)) ts)
    (idempotency_guard r) (schema_history r) (total_events_deduplicated r) r.

(** *** Starting *)

Definition is_snapshot_checkpoint (r : R) (o : DynOffset) : bool :=
  match config_source_type (Runtime.source (config (core r))) with
  | None => false
  | Some source_type => String.eqb (CheckpointApi.source_type o) (source_type +:+ "_snapshot")
  end.

Definition parse_payload (o : DynOffset) : Res json :=
  payload <-? encode o;
  match parse_json payload with
  | Some v => Ok v
  | None => Err (CheckpointError "the snapshot checkpoint is not JSON")
  end.

Definition need {A} (msg : string) (o : option A) : Res A :=
  match o with Some a => Ok a | None => Err (CheckpointError msg) end.

Definition postgres_stream_offset_from_snapshot_checkpoint (slot : string) (o : DynOffset)
    : Res PostgresOffset :=
  value <-? parse_payload o;
  lsn <-? need "postgres snapshot checkpoint is missing 'snapshot_watermark'"
            (v ← get "snapshot_watermark" value; as_u64 v);
  Ok {| lsn := lsn; slot_name := slot; pg_incremental_snapshot := None |}.

Definition mysql_stream_offset_from_snapshot_checkpoint (flavor : string) (o : DynOffset)
    : Res MysqlOffset :=
  value <-? parse_payload o;
  file <-? need "mysql snapshot checkpoint is missing 'binlog_file'"
             (v ← get "binlog_file" value; as_str v);
  pos <-? need "mysql snapshot checkpoint is missing 'binlog_pos'"
            (v ← get "binlog_pos" value; as_u64 v);
  pos <-? need "mysql snapshot checkpoint binlog_pos exceeds u32"
            (if pos <=? u32_max then Some pos else None);
  Ok {| gtid := default "" (v ← get "gtid" value; as_str v); binlog_file := file;
        binlog_pos := pos; source_flavor := flavor; my_incremental_snapshot := None |}.

Fixpoint lsn_bytes (l : list json) : Res (list Z) :=
  match l with
  | [] => Ok []
  | v :: l' =>
      byte <-? need "sqlserver snapshot checkpoint lsn_start contains non-byte value" (as_u64 v);
      byte <-? need "sqlserver snapshot checkpoint lsn_start contains out-of-range byte"
                 (if byte <=? 255 then Some byte else None);
      rest <-? lsn_bytes l';
      Ok (byte :: rest)
  end.

(** [format!("{byte:02X}")], for each byte. *)
Definition hex_bytes (l : list Z) : string :=
  foldr (fun b s => String (hex_upper (b / 16)) (String (hex_upper (b mod 16)) s)) "" l.

Definition sqlserver_stream_offset_from_snapshot_checkpoint (o : DynOffset)
    : Res GenericOffset :=
  value <-? parse_payload o;
  lsn_start <-? need "sqlserver snapshot checkpoint is missing 'lsn_start'"
                  (v ← get "lsn_start" value; as_array v);
  if negb (length lsn_start =? 10)%nat then
    Err (CheckpointError "sqlserver snapshot checkpoint lsn_start must contain exactly 10 bytes")
  else
    bytes <-? lsn_bytes lsn_start;
    Ok {| Offsets.source := "sqlserver";
          Offsets.bytes := print_json (JStr ("0x" +:+ hex_bytes bytes)) |}.

Definition stream_resume_offset_for_snapshot_checkpoint (cfg : RuntimeSourceConfig)
    (o : DynOffset) : Res (option DynOffset) :=
  match cfg with
  | Postgres slot =>
      off <-? postgres_stream_offset_from_snapshot_checkpoint slot o; Ok (Some (postgres_dyn off))
  | Mysql _ =>
      off <-? mysql_stream_offset_from_snapshot_checkpoint "mysql" o; Ok (Some (mysql_dyn off))
  | MariaDb =>
      off <-? mysql_stream_offset_from_snapshot_checkpoint "mariadb" o;
      bytes <-? encode (mysql_dyn off);
      Ok (Some (generic_dyn {| Offsets.source := "mariadb"; Offsets.bytes := bytes |}))
  | SqlServer =>
      off <-? sqlserver_stream_offset_from_snapshot_checkpoint o; Ok (Some (generic_dyn off))
  | Disabled => Ok None
  end.

Definition reset_run_counters (now : Z) : M R unit := modify (fun r =>
  let c := core r in
  let ts := transforms r in
  with_stages
    {| Transforms.transform_pipeline := Transforms.transform_pipeline ts;
       Transforms.transform_error_policy := Transforms.transform_error_policy ts;
       Transforms.total_events_skipped := 0;
       Transforms.dead_letters := Transforms.dead_letters ts |}
    (idempotency_guard r) (schema_history r) 0
    (with_state (state r) (Some now)
       (with_core
          (with_delivery (delivered_not_committed c) (next_delivery_id c) (pending_delivery c)
             {| last_poll_at_ms := None; last_source_event_ts_ms := None;
                last_commit_at_ms := None;
                last_checkpoint_saved_at_ms := last_checkpoint_saved_at_ms (stats c);
                total_events_polled := 0; total_events_committed := 0 |} c) r))).

Definition run_from (now : Z) (handoff : bool) : M R unit :=
  set_handoff handoff;;
  modify (fun r => with_state Running (started_at_ms r) r);;
  reset_run_counters now.

(** The checkpoint [start] goes on with: a snapshot checkpoint is dropped when the
    connector cannot resume from one. *)
Definition accept_checkpoint (r : R) (o : option DynOffset) : Res (option DynOffset) :=
  match o with
  | None => Ok None
  | Some off =>
      if negb (is_snapshot_checkpoint r off) then Ok o
      else if incremental_snapshot (config (core r)) then
        Err (ConfigError "cannot resume incremental snapshot startup from a snapshot checkpoint")
      else if negb (snapshot_checkpoint_resume (capabilities (Runtime.source (config (core r)))))
      then Ok None
      else if bool_decide (snapshot_tables (settings r) = []) then
        Err (ConfigError "snapshot_tables must not be empty when resuming from a snapshot checkpoint")
      else Ok o
  end.

(** The streams and snapshots [start] opens. *)
Definition open_handles (now : Z) (resume : option DynOffset) : M R unit :=
  r ← gets id;
  if incremental_snapshot (config (core r)) then
    set_snapshot None;;
    i ← on_source (source_start_incremental (incremental_config (settings r)) resume);
    set_stream (Some i);;
    run_from now true
  else
    match resume with
    | Some offset =>
        if is_snapshot_checkpoint r offset then
          sn ← on_source (dispatch (start_snapshot_from_checkpoint (snapshot_tables (settings r)) offset));
          set_snapshot (Some sn);;
          from ← of_res (stream_resume_offset_for_snapshot_checkpoint
                           (Runtime.source (config (core r))) offset);
          match from with
          | None =>
              throw (StateError "cannot resume streaming after snapshot checkpoint: no 'snapshot_watermark' LSN was found in the checkpoint payload")
          | Some from =>
              i ← on_source (dispatch (start_stream (Some from)));
              set_stream (Some i);;
              run_from now false
          end
        else
          i ← on_source (dispatch (start_stream (Some offset)));
          set_stream (Some i);;
          set_snapshot None;;
          run_from now true
    | None =>
        match snapshot_tables (settings r) with
        | [] =>
            set_snapshot None;;
            i ← on_source (dispatch (start_stream None));
            set_stream (Some i);;
            run_from now true
        | tables =>
            sn ← on_source (dispatch (start_snapshot tables));
            set_snapshot (Some sn);;
            i ← on_source (dispatch (start_stream None));
            set_stream (Some i);;
            run_from now false
        end
    end.

Definition start (now : Z) : M R unit := fun r =>
  match state r with
  | Running => (Err (StateError "runtime already started"), r)
  | Stopping => (Err (StateError "runtime is currently stopping"), r)
  | Idle | Stopped =>
      (count ← on_store get_committed_count;
       on_core (on_barrier (Barrier.hydrate_committed_event_count count));;
       match source r with
       | NoSource =>
           modify (fun r => with_state Running (started_at_ms r) r);; reset_run_counters now
       | _ =>
           if incremental_snapshot (config (core r))
              && negb (bool_decide (snapshot_tables (settings r) = [])) then
             throw (ConfigError "cannot configure both snapshot_tables and incremental_snapshot; choose one startup mode")
           else
             loaded ← on_store load;
             resume ← of_res (accept_checkpoint r loaded);
             on_source (dispatch connect);;
             open_handles now resume
       end) r
  end.

(** *** Control *)

Definition incremental_snapshot_state (r : R) : option IncrementalSnapshotState :=
  i ← stream (core r); Driver.incremental_snapshot_state i.

(** [running_stream_mut], and the operation on the stream it returns. *)
Definition running_stream {A} (action : string) (m : M I A) : M R A := fun r =>
  match state r with
  | Running =>
      on_stream (StateError ("cannot " +:+ action +:+ ": the runtime has no active stream")) m r
  | _ =>
      (Err (StateError ("cannot " +:+ action +:+ " while the runtime is " +:+ state_label (state r)
                        +:+ "; start it first")), r)
  end.

Definition request_incremental_snapshot (q : SnapshotRequest) : M R nat :=
  running_stream "request an incremental snapshot" (request_snapshot_tables q).
Definition set_incremental_snapshot_paused (p : bool) : M R bool :=
  running_stream ((if p then "pause" else "resume") +:+ " the incremental snapshot")
    (set_snapshot_paused p).
Definition stop_incremental_snapshot : M R nat :=
  running_stream "stop the incremental snapshot" stop_snapshot.

(** Run a command and send its answer; the operation's error is the answer. *)
Definition answer {A} (m : M R A) (wrap : Res A -> Reply) (reply : nat) : M R unit := fun r =>
  let '(res, r1) := m r in
  match res with
  | Panic => (Panic, r1)
  | _ =>
      let ctl := control r1 in
      (Ok tt,
       with_sink (registered_sink r1)
         {| commands := commands ctl; replies := replies ctl ++ [(reply, wrap res)];
            published := published ctl |} (naps r1) r1)
  end.

Definition run_command (c : ControlCommand) : M R unit :=
  match c with
  | RequestSnapshot q reply => answer (request_incremental_snapshot q) Enqueued reply
  | SetSnapshotPaused p reply => answer (set_incremental_snapshot_paused p) Previous reply
  | StopSnapshot reply => answer stop_incremental_snapshot Enqueued reply
  end.

Definition set_control (f : Control -> Control) : M R unit :=
  modify (fun r => with_sink (registered_sink r) (f (control r)) (naps r) r).

(** Every command queued when the poll begins; nothing else runs while they are drained. *)
Definition service_control_commands : M R unit :=
  queued ← gets (fun r => commands (control r));
  for_each queued (fun c =>
    set_control (fun ctl => {| commands := tail (commands ctl); replies := replies ctl;
                               published := published ctl |});;
    run_command c);;
  live ← gets incremental_snapshot_state;
  set_control (fun ctl => {| commands := commands ctl; replies := replies ctl; published := live |}).

(** *** What a polled batch goes through *)

(** The events of the batch that describe a schema change the history can record. *)
Definition schema_event_of (e : Event) : option SchemaHistory.DDLEvent :=
  if bool_decide (Event.op e = Event.SchemaChange) then
    after ← Event.after e;
    captured ← SchemaHistory.from_event_payload after;
    SchemaHistory.to_schema_event captured
  else None.

Definition retain_history : M R unit :=
  retention ← gets (fun r => schema_history_retention (settings r));
  match retention with
  | Some n => on_history (apply_retention n);; mret tt
  | None => mret tt
  end.

Definition record_schema_change_events (es : list Event) : M R unit :=
  for_each es (fun e =>
    match schema_event_of e with
    | None => mret tt
    | Some d =>
        recorded ← try (on_history (record_ddl (Event.offset (Event.source e)) d));
        match recorded with
        | inr _ => retain_history
        | inl (SchemaError _) => mret tt
        | inl error => throw error
        end
    end).

(** *** A statement handed in by the embedder *)

Definition stamp_version (v : option Z) (e : Event) : Event :=
  match v, Event.after e with
  | Some n, Some (JObj o) =>
      Transforms.with_row (Event.before e) (Some (JObj (obj_insert "schema_version" (jnat n) o)))
        (Event.before_unavailable_columns e) (Event.unavailable_columns e) e
  | _, _ => e
  end.

(** The statement is recorded in the history before its event is queued. *)
Definition capture_ddl_statement `{Text.CaseTable} (d : DdlParse.DdlDialect)
    (statement source_name offset : string) (ts_ms : Z) : M R (option Event) :=
  parsed ← of_res (DdlParse.parse_ddl_statement d statement);
  match parsed with
  | None => mret None
  | Some p =>
      let captured := SchemaHistory.set_ts ts_ms (DdlParse.into_captured p) in
      version ← match SchemaHistory.to_schema_event captured with
                | Some schema_event =>
                    v ← on_history (record_ddl offset schema_event);
                    retain_history;;
                    mret (Some v)
                | None => mret None
                end;
      let event := stamp_version version (SchemaHistory.to_event captured source_name offset ts_ms) in
      on_core (enqueue_event event);;
      mret (Some event)
  end.

Definition UNCONFIRMED_STALL_POLL_LIMIT : Z := 3.

(** The guard over a batch; [clock n] is the time it reads for the [n]th event.  The
    events let through, how many were suppressed, and the guard after. *)
Fixpoint guard_batch (clock : nat -> Z) (es : list Event) (g : Idempotency.EventIdempotencyGuard)
    (out : list Event) (dropped : Z)
    : Res (list Event) * Z * Idempotency.EventIdempotencyGuard :=
  match es with
  | [] => (Ok out, dropped, g)
  | e :: es' =>
      match Idempotency.should_process ahash (Datatypes.S (length (Idempotency.order g))) (clock O) e g with
      | Some (Ok true, g') => guard_batch (clock ∘ Datatypes.S) es' g' (out ++ [e]) dropped
      | Some (Ok false, g') => guard_batch (clock ∘ Datatypes.S) es' g' out (saturating_add dropped 1)
      | Some (Err x, g') => (Err x, dropped, g')
      | Some (Panic, g') => (Panic, dropped, g')
      | None => (Panic, dropped, g)
      end
  end.

Definition filter_idempotent_events (clock : nat -> Z) (es : list Event) : M R (list Event) := fun r =>
  match idempotency_guard r with
  | None => (Ok es, r)
  | Some g =>
      let '(res, dropped, g') := guard_batch clock es g [] (total_events_deduplicated r) in
      let r1 := with_stages (transforms r) (Some g') (schema_history r) dropped r in
      match res with
      | Ok out =>
          let c := core r1 in
          match es, out, pending_confirmation_lsn c with
          | _ :: _, [], Some lsn =>
              let stall := Driver.saturating_add_u32 (unconfirmed_stall_polls c) 1 in
              let r2 := with_core (with_stream (stream c) (Some lsn) stall c) r1 in
              if UNCONFIRMED_STALL_POLL_LIMIT <=? stall then
                (Err (Unrecoverable "runtime is not making progress"), r2)
              else (Ok [], r2)
          | _, [], _ => (Ok [], r1)
          | _, _, lsn => (Ok out, with_core (with_stream (stream c) lsn 0 c) r1)
          end
      | Err x => (Err x, r1)
      | Panic => (Panic, r1)
      end
  end.

Definition run_transforms (es : list Event) : M R (list Event) := fun r =>
  let '(res, ts) := Transforms.apply_transforms es (transforms r) in
  (res, with_stages ts (idempotency_guard r) (schema_history r) (total_events_deduplicated r) r).

(** From a batch of the source to the first delivery cut from it. *)
Definition ingest (now : Z) (clock : nat -> Z) (es : list Event) : M R EventBatch :=
  record_schema_change_events es;;
  deduplicated ← filter_idempotent_events clock es;
  transformed ← run_transforms deduplicated;
  on_core (enqueue_pending_source_events transformed);;
  on_core (flush_pending_source_events now).

(** *** Reconnecting *)

Definition resume_stream_after_reconnect (resume : option DynOffset) : M R I :=
  r ← gets id;
  if incremental_snapshot (config (core r)) then
    on_source (source_start_incremental (incremental_config (settings r)) resume)
  else on_source (dispatch (start_stream resume)).

(** Why a restart of the stream failed. *)
Inductive RestartFailure := NotConnected | NotStarted.

(** Close, connect, load the checkpoint and open the stream at it.  A checkpoint that does
    not load is an error of the poll. *)
Definition restart_stream (refusal : string) : M R (option RestartFailure) :=
  close_source;;
  connected ← try (on_source (dispatch connect));
  match connected with
  | inl _ => mret (Some NotConnected)
  | inr _ =>
      resume_offset ← map_err (fun _ => CheckpointError refusal) (on_store load);
      resumed ← try (resume_stream_after_reconnect resume_offset);
      match resumed with
      | inl _ => mret (Some NotStarted)
      | inr i => set_stream (Some i);; mret None
      end
  end.

Definition exhausted (p : ConnectionRetryPolicy) (attempt : Z) : bool :=
  match max_retries p with Some m => m <=? attempt | None => false end.

Definition saturating_mul (a b : Z) : Z := Z.min (a * b) u64_max.
Definition next_delay (p : ConnectionRetryPolicy) (delay_ms : Z) : Z :=
  Z.min (saturating_mul delay_ms 2) (max_delay_ms p).

Definition gave_up (f : RestartFailure) : Error :=
  match f with
  | NotConnected =>
      Context "resuming the stream after a source disconnect"
        (Unrecoverable "connection retries exhausted during reconnect")
  | NotStarted =>
      Context "restarting the stream after a recoverable source error"
        (Unrecoverable "stream restart retries exhausted")
  end.

Inductive Round := Received (es : list Event) | Again (attempt delay_ms : Z).

Definition no_active_stream : Error := SourceError "poll loop entered with no active stream".

(** One turn of the retry loop. *)
Definition retry_round (p : ConnectionRetryPolicy) (attempt delay_ms : Z) : M R Round :=
  let again := Again (Driver.saturating_add_u32 attempt 1) (next_delay p delay_ms) in
  have ← gets (fun r => stream (core r));
  failure ← (match have with
             | Some _ => mret None
             | None => restart_stream "failed loading checkpoint while resuming the stream after reconnect"
             end);
  match failure with
  | Some f => if exhausted p attempt then throw (gave_up f) else sleep delay_ms;; mret again
  | None =>
      wait ← gets (fun r => max_poll_wait_ms (settings r));
      polled ← try (on_stream no_active_stream (Driver.next_events wait));
      match polled with
      | inr es => mret (Received es)
      | inl error =>
          if negb (ErrorsModel.is_recoverable error) || exhausted p attempt then throw error
          else
            set_stream None;;
            sleep delay_ms;;
            restart_stream "failed loading checkpoint while resuming the stream after a recoverable source error";;
            mret again
      end
  end.

Fixpoint retry_loop (fuel : nat) (p : ConnectionRetryPolicy) (attempt delay_ms : Z)
    : M R (option (list Event)) :=
  match fuel with
  | O => mret None
  | Datatypes.S fuel' =>
      round ← retry_round p attempt delay_ms;
      match round with
      | Received es => mret (Some es)
      | Again attempt' delay' => retry_loop fuel' p attempt' delay'
      end
  end.

(** *** Polling *)

Definition poll_stream (fuel : nat) (now : Z) (clock : nat -> Z) : M R (option EventBatch) := fun r =>
  match stream (core r) with
  | None => (Ok (Some empty_batch), r)
  | Some _ =>
      (polled ← (match connection_retry (settings r) with
                 | Some p => retry_loop fuel p 0 (initial_delay_ms p)
                 | None => Some <$> on_stream no_active_stream
                                      (Driver.next_events (max_poll_wait_ms (settings r)))
                 end);
       match polled with
       | None => mret None
       | Some [] => mret (Some empty_batch)
       | Some es => Some <$> ingest now clock es
       end) r
  end.

Definition on_snapshot {A} (m : M SN A) (sn : SN) : M R A := fun r =>
  let '(res, sn') := m sn in
  (res, with_core (with_handles (Some sn') (stream (core r)) (core r)) r).

(** [perform_handoff] on the handles of the runtime. *)
Definition handoff (sn : SN) : M R unit := fun r =>
  match stream (core r) with
  | None => (Err (StateError "snapshot-to-stream handoff requires active stream"), r)
  | Some i =>
      let '(res, (src, sn', i')) := source_handoff sn i (source r) in
      (res, with_source src (handoff_complete r)
              (with_core (with_handles (Some sn') (Some i') (core r)) r))
  end.

Definition poll_snapshot (fuel : nat) (now : Z) (clock : nat -> Z) : M R (option EventBatch) := fun r =>
  match snapshot (core r) with
  | None => poll_stream fuel now clock r
  | Some sn =>
      (chunk ← on_snapshot (next_chunk (max_buffer_size (options (config (core r))))) sn;
       match chunk with
       | _ :: _ => Some <$> ingest now clock chunk
       | [] =>
           r1 ← gets id;
           (if handoff_complete r1 then mret tt
            else
              match snapshot (core r1) with
              | Some sn' => handoff sn';; set_handoff true
              | None => mret tt
              end);;
           set_snapshot None;;
           poll_stream fuel now clock
       end) r
  end.

Definition poll_injected (fuel : nat) (now : Z) (clock : nat -> Z) : M R (option EventBatch) := fun r =>
  match injected_events (core r) with
  | [] => poll_snapshot fuel now clock r
  | queue =>
      let n := max_buffer_size (options (config (core r))) in
      (on_core (modify (with_injected (drop n queue)));;
       Some <$> ingest now clock (take n queue)) r
  end.

Definition poll_event_batch (fuel : nat) (now : Z) (clock : nat -> Z) : M R (option EventBatch) := fun r =>
  match state r with
  | Running =>
      (current ← gets (fun r => current_pending_batch (core r));
       current ← of_res current;
       match current with
       | Some b => mret (Some b)
       | None =>
           service_control_commands;;
           on_core retry_pending_confirmation;;
           buffered ← gets (fun r => buffered_events (core r));
           match buffered with
           | _ :: _ => Some <$> on_core (deliver_buffered_batch now)
           | [] =>
               queued ← gets (fun r => pending_source_events (core r));
               first ← (match queued with
                        | _ :: _ => on_core (flush_pending_source_events now)
                        | [] => mret empty_batch
                        end);
               if negb (batch_is_empty first) then mret (Some first)
               else poll_injected fuel now clock
           end
       end) r
  | _ => (Err (StateError "runtime is not running"), r)
  end.

(** The next item of [event_batches]: empty polls are absorbed; [turns] are the polls. *)
Fixpoint next_batch (turns : list (Z * (nat -> Z))) (fuel : nat) : M R (option EventBatch) :=
  match turns with
  | [] => mret None
  | (now, clock) :: turns' =>
      polled ← poll_event_batch fuel now clock;
      match polled with
      | None => mret None
      | Some b => if batch_is_empty b then next_batch turns' fuel else mret (Some b)
      end
  end.

(** The next item of [event_batches_cancellable]; [None] ends the stream. *)
Definition next_unless_cancelled (cancelled : bool) (fuel : nat) (now : Z) (clock : nat -> Z)
    (r : R) : option (Res (option EventBatch) * R) :=
  if cancelled then None else Some (poll_event_batch fuel now clock r).

(** *** Acknowledging, stopping, draining *)

Definition commit (now : Z) (mode : AckMode) : M R unit := on_core (commit_ack now mode).

(** The delivery emptied, the handles dropped, the source closed. *)
Definition shut_down : M R unit :=
  on_core (modify (fun c => with_delivery 0 (next_delivery_id c) None (stats c) c));;
  close_source;;
  set_snapshot None;;
  set_stream None;;
  modify (fun r =>
    let c := core r in
    with_state Stopped None
      (with_core (with_delivery (delivered_not_committed c) (next_delivery_id c)
                    (pending_delivery c)
                    {| last_poll_at_ms := last_poll_at_ms (stats c);
                       last_source_event_ts_ms := None;
                       last_commit_at_ms := last_commit_at_ms (stats c);
                       last_checkpoint_saved_at_ms := last_checkpoint_saved_at_ms (stats c);
                       total_events_polled := total_events_polled (stats c);
                       total_events_committed := total_events_committed (stats c) |} c) r)).

(** The sink is closed and forgotten; [in_time] tells whether a close with a timeout
    finishes before it. *)
Definition close_sink (in_time : bool) : M R unit := fun r =>
  match registered_sink r with
  | None => (Ok tt, r)
  | Some k =>
      let r1 := with_sink None (control r) (naps r) r in
      match sink_close_timeout_ms (settings r) with
      | Some _ =>
          if in_time then (fst (Sinks.close k), r1)
          else (Err (TimeoutError "sink close timed out"), r1)
      | None => (fst (Sinks.close k), r1)
      end
  end.

Definition stop (in_time : bool) : M R (list Event) := fun r =>
  match state r with
  | Idle | Stopped => (Ok [], with_state Stopped (started_at_ms r) r)
  | Stopping => (Err (StateError "runtime already stopping"), r)
  | Running =>
      let c := core r in
      let pending_events :=
        (length (Barrier.pending_records (commit_barrier c)) + length (injected_events c)
         + length (pending_source_events c))%nat in
      if (0 <? pending_events)%nat then
        (Err (StateError "runtime has uncommitted events; commit acknowledgements before stop or call force_stop()"), r)
      else (shut_down;; close_sink in_time;; mret []) r
  end.

(** The events [force_stop] hands back, in delivery order. *)
Definition undelivered (c : CdcRuntime C SN I) : list Event :=
  (match pending_delivery c with
   | Some p => drop (committed_prefix p) (events p)
   | None => []
   end ++ buffered_events c ++ pending_source_events c ++ injected_events c)%list.

Definition force_stop (in_time : bool) : M R (list Event) := fun r =>
  match state r with
  | Idle | Stopped => (Ok [], with_state Stopped (started_at_ms r) r)
  | Stopping => (Err (StateError "runtime already stopping"), r)
  | Running =>
      let drained := undelivered (core r) in
      (on_core (modify (fun c =>
         with_barrier (Barrier.clear_pending (commit_barrier c)) (checkpoint c)
           (with_injected [] (with_queues [] [] c))));;
       shut_down;; close_sink in_time;; mret drained) r
  end.

(** The loop of [drain_and_stop]: [fuel] polls, each with its clock. *)
Fixpoint drain (fuel : nat) (retries : nat) (now : Z) (clock : nat -> Z) (drained : list Event)
    : M R (option (list Event)) :=
  match fuel with
  | O => mret None
  | Datatypes.S fuel' =>
      polled ← poll_event_batch retries now clock;
      match polled with
      | None => mret None
      | Some b =>
          if batch_is_empty b then mret (Some drained)
          else
            commit now (ack_mode b);;
            drain fuel' retries now clock (drained ++ batch_events b)
      end
  end.

Definition drain_and_stop (fuel retries : nat) (now : Z) (clock : nat -> Z) (in_time : bool)
    : M R (option (list Event)) :=
  drained ← drain fuel retries now clock [];
  match drained with
  | None => mret None
  | Some es => stop in_time;; mret (Some es)
  end.

(** *** Driving a sink *)

Definition on_sink {A} (m : M K A) : M (K * R) A := fun '(k, r) =>
  let '(res, k') := m k in (res, (k', r)).
Definition on_runtime {A} (m : M R A) : M (K * R) A := fun '(k, r) =>
  let '(res, r') := m r in (res, (k, r')).

(** One turn of [run_sink_loop]: the number of events delivered and acknowledged, [None]
    when the poll is still retrying. *)
Definition sink_turn (retries : nat) (now : Z) (clock : nat -> Z) : M (K * R) (option nat) :=
  polled ← on_runtime (poll_event_batch retries now clock);
  match polled with
  | None => mret None
  | Some b =>
      if batch_is_empty b then mret (Some O)
      else
        for_each (batch_events b) (fun e => on_sink (Sinks.send e));;
        on_sink Sinks.flush;;
        on_runtime (commit now (ack_mode b));;
        mret (Some (length (batch_events b)))
  end.

(** The loop, until the token is cancelled: [turns] is how many polls happen before that,
    each at its time. *)
Fixpoint run_sink_loop (turns : list (Z * (nat -> Z))) (retries : nat) (delivered : Z)
    : M (K * R) (option Z) :=
  match turns with
  | [] => mret (Some delivered)
  | (now, clock) :: turns' =>
      n ← sink_turn retries now clock;
      match n with
      | None => mret None
      | Some n => run_sink_loop turns' retries (saturating_add delivered (Z.of_nat n))
      end
  end.

(** [run_to_completion] takes the sink out for the run and puts it back. *)
Definition run_to_completion (turns : list (Z * (nat -> Z))) (retries : nat) : M R (option Z) := fun r =>
  match registered_sink r with
  | None => (Err (ConfigError "run_to_completion needs a sink to deliver to"), r)
  | Some k =>
      let '(res, (k', r')) := run_sink_loop turns retries 0 (k, with_sink None (control r) (naps r) r) in
      (res, with_sink (Some k') (control r') (naps r') r')
  end.

(** *** Health *)

Inductive HealthVerdict := Healthy | Quiet | Stalled (reason : string) | NotRunning.

Definition HEALTH_POLL_STALL_MULTIPLIER : Z := 6.
Definition HEALTH_MIN_POLL_STALL_MS : Z := 30000.

Definition derive_health (now : Z) (r : R) : HealthVerdict :=
  let st := stats (core r) in
  let threshold := Z.max (saturating_mul (max_poll_wait_ms (settings r)) HEALTH_POLL_STALL_MULTIPLIER)
                     HEALTH_MIN_POLL_STALL_MS in
  let uncommitted := saturating_sub (total_events_polled st) (total_events_committed st) in
  let since_commit :=
    from_option (fun at_ms => saturating_sub now at_ms) u64_max (last_commit_at_ms st) in
  if negb (bool_decide (state r = Running)) then NotRunning
  else
    match pending_confirmation_lsn (core r) with
    | Some _ => Stalled "source position was durably checkpointed but could not be confirmed to the source"
    | None =>
        if from_option (fun at_ms => threshold <? saturating_sub now at_ms) false (last_poll_at_ms st)
        then Stalled "no poll has completed"
        else if (0 <? uncommitted) && (threshold <? since_commit) then
          Stalled "events delivered but not committed"
        else
          match last_source_event_ts_ms st with
          | Some _ => if 0 <? total_events_polled st then Healthy else Quiet
          | None => Quiet
          end
    end.

(** [readiness] of the admin snapshot. *)
Definition readiness (r : R) : bool :=
  bool_decide (state r = Running)
  && (match Runtime.source (config (core r)) with Disabled => true | _ => false end
      || match stream (core r) with Some _ => true | None => false end
      || match snapshot (core r) with Some _ => true | None => false end)
  && match pending_confirmation_lsn (core r) with None => true | Some _ => false end.

End Ops.

End Lifecycle.
