(* ===== verification/LifecycleLaws.v ===== *)
(** * LifecycleLaws: retrying, stopping, being watched

    Theorems about [Lifecycle] that need no log behind the source.  A poll under a bounded
    retry policy returns, after no more naps than the policy allows, each as long as the
    doubling backoff says; over a source that comes back within the budget it delivers.
    Once the retries are used up the stream is gone and no later poll asks the source
    again.  Stopping hands back, and only hands back, what was not committed. *)

From S2P Require Import Prelude Errors CheckpointApi Strs Json Offsets Event Barrier Monad Driver DriverDelivery Idempotency Runtime RuntimeDelivery SchemaHistory Transforms Sinks Lifecycle.

Module LifecycleLaws.
Import Runtime RuntimeDelivery Lifecycle.

Local Open Scope Z_scope.

(** ** Rules for the combinators of [Lifecycle] *)

Lemma keeps_try {S A} (J : S -> Prop) (m : M S A) : keeps J m -> keeps J (try m).
Proof. intros Hm s Hs. specialize (Hm s Hs). unfold try. by destruct (m s) as [[] ?]. Qed.

Lemma keeps_fmap {S A B} (J : S -> Prop) (f : A -> B) (m : M S A) : keeps J m -> keeps J (f <$> m).
Proof. intros Hm s Hs. specialize (Hm s Hs). unfold fmap, M_fmap. by destruct (m s) as [[] ?]. Qed.

Lemma hoare_keeps_bind {S A B} (J : S -> Prop) (m : M S A) (k : A -> M S B) Q :
  keeps J m -> (forall e s, J s -> Q (Err e) s) -> (forall s, J s -> Q Panic s) ->
  (forall a, hoare J (k a) Q) -> hoare J (m ≫= k) Q.
Proof.
  intros Hm He Hp Hk. apply hoare_bind with (R := fun _ => J); [|done].
  intros s Hs. specialize (Hm s Hs). destruct (m s) as [[] ?]; simpl in *; auto.
Qed.

#[export] Hint Resolve keeps_try keeps_fmap keeps_for_each : io.

(** A source that is away for a while.  [down s] bounds the connection attempts it still
    refuses; once it accepts one it opens streams, and a stream it opened has something
    to read. *)
Class Recovering (S SN I : Type) `{Source S SN I, Driver.StreamHandle I} := {
  down : S -> nat;
  close_down s : down (close s) = down s;
  connect_down s : match connect s with
    | (Ok _, s') => down s' = 0%nat
    | (Err _, s') => (down s' < down s)%nat
    | (Panic, _) => False
    end;
  stream_up o s : down s = 0%nat -> exists i s', start_stream o s = (Ok i, s') /\
    forall t, exists es i', Driver.next_events t i = (Ok es, i') /\ es <> [];
}.

(** The next [k] connections are refused. *)
Fixpoint refuses {S SN I : Type} `{Source S SN I} (k : nat) (src : RuntimeSource S) : Prop :=
  match k with
  | O => True
  | Datatypes.S k' => exists e src', dispatch connect (source_close src) = (Err e, src') /\ refuses k' src'
  end.

Section Laws.
Context `{BuildProfile} `{JsonCodec} {C SN I S T SH K : Type}.
Context `{Checkpoint C} `{SnapshotHandle SN} `{Driver.StreamHandle I}.
Context `{!ChunkReader SN} `{!SnapshotControl I} `{!Source S SN I} `{!Transforms.Transform T}.
Context `{!History SH} `{!Sinks.SinkAdapter K}.
Variable ahash : list Idempotency.Token -> Z.

Abbreviation R := (CdcService C SN I S T SH K).

(** ** Patience *)

(** What every operation but [sleep] leaves alone. *)
Definition still (st : Settings) (N : list Z) (r : R) : Prop := settings r = st /\ naps r = N.

Section Still.
Variables (st : Settings) (N : list Z).

Lemma still_core {A} (m : M (CdcRuntime C SN I) A) : keeps (still st N) (on_core m).
Proof. intros r Hr. unfold on_core. by destruct (m (core r)). Qed.
Lemma still_source {A} (m : M (RuntimeSource S) A) : keeps (still st N) (on_source m).
Proof. intros r Hr. unfold on_source. by destruct (m (source r)). Qed.
Lemma still_store {A} (m : M C A) : keeps (still st N) (on_store m).
Proof. intros r Hr. unfold on_store. by destruct (m (checkpoint (core r))). Qed.
Lemma still_history {A} (m : M SH A) : keeps (still st N) (on_history m).
Proof. intros r Hr. unfold on_history. by destruct (m (schema_history r)). Qed.
Lemma still_on_stream {A} e (m : M I A) : keeps (still st N) (on_stream e m).
Proof. intros r Hr. unfold on_stream. destruct (stream (core r)) as [i|]; [by destruct (m i)|done]. Qed.
Lemma still_snapshot {A} (m : M SN A) sn : keeps (still st N) (on_snapshot m sn).
Proof. intros r Hr. unfold on_snapshot. by destruct (m sn). Qed.
Lemma still_handoff sn : keeps (still st N) (handoff sn).
Proof.
  intros r Hr. unfold handoff. destruct (stream (core r)) as [i|]; [|done].
  by destruct (source_handoff sn i (source r)) as [? [[] ?]].
Qed.
Lemma still_close : keeps (still st N) close_source. Proof. by intros r Hr. Qed.
Lemma still_set_snapshot sn : keeps (still st N) (set_snapshot sn). Proof. by intros r Hr. Qed.
Lemma still_set_stream i : keeps (still st N) (set_stream i). Proof. by intros r Hr. Qed.
Lemma still_set_handoff b : keeps (still st N) (set_handoff b). Proof. by intros r Hr. Qed.
Lemma still_set_control f : keeps (still st N) (set_control f). Proof. by intros r Hr. Qed.
Lemma still_filter clock es : keeps (still st N) (filter_idempotent_events ahash clock es).
Proof. intros r Hr. unfold filter_idempotent_events. by repeat case_match. Qed.
Lemma still_transforms es : keeps (still st N) (run_transforms es).
Proof. intros r Hr. unfold run_transforms. by destruct (Transforms.apply_transforms es _). Qed.

Hint Resolve still_core still_source still_store still_history still_on_stream still_snapshot
  still_handoff still_close still_set_snapshot still_set_stream still_set_handoff
  still_set_control still_filter still_transforms : io.

Lemma still_answer {A} (m : M R A) wrap reply : keeps (still st N) m -> keeps (still st N) (answer m wrap reply).
Proof. intros Hm r Hr. specialize (Hm r Hr). unfold answer. by destruct (m r) as [[] ?]. Qed.

Lemma still_running {A} action (m : M I A) : keeps (still st N) (running_stream action m).
Proof. intros r Hr. unfold running_stream. destruct (state r); try done. by apply still_on_stream. Qed.

Lemma still_service : keeps (still st N) service_control_commands.
Proof.
  unfold service_control_commands. monad_auto. apply keeps_for_each. intros c. monad_auto.
  destruct c; apply still_answer, still_running.
Qed.

Lemma still_record es : keeps (still st N) (record_schema_change_events es).
Proof.
  apply keeps_for_each. intros e. destruct (schema_event_of e); monad_auto.
  case_match; [case_match|]; unfold retain_history; monad_auto. case_match; monad_auto.
Qed.

Lemma still_ingest now clock es : keeps (still st N) (ingest ahash now clock es).
Proof. unfold ingest. pose proof still_record. monad_auto. Qed.

Lemma still_restart refusal : keeps (still st N) (restart_stream refusal).
Proof.
  unfold restart_stream. monad_auto. case_match; monad_auto.
  - unfold resume_stream_after_reconnect. apply keeps_try. monad_auto. case_match; monad_auto.
  - case_match; monad_auto.
Qed.

End Still.

Hint Resolve still_core still_source still_store still_history still_on_stream still_snapshot
  still_handoff still_close still_set_snapshot still_set_stream still_set_handoff
  still_set_control still_filter still_transforms still_ingest still_restart still_service : io.

(** The delay before the [i]th retry. *)
Definition nap (p : ConnectionRetryPolicy) (i : nat) : Z :=
  Z.min (initial_delay_ms p * 2 ^ Z.of_nat i) (max_delay_ms p).

Section Budget.
Variables (st : Settings) (p : ConnectionRetryPolicy) (n : nat).
Hypothesis bounded : max_retries p = Some (Z.of_nat n).
Hypothesis retries_fit : Z.of_nat n <= u32_max.
Hypothesis delays_fit : 0 <= initial_delay_ms p <= max_delay_ms p /\ max_delay_ms p <= u64_max.

Lemma nap_next i : next_delay p (nap p i) = nap p (Datatypes.S i).
Proof.
  unfold next_delay, nap, saturating_mul. rewrite Nat2Z.inj_succ, Z.pow_succ_r by lia.
  assert (0 <= initial_delay_ms p * 2 ^ Z.of_nat i) by (apply Z.mul_nonneg_nonneg; [lia|apply Z.pow_nonneg; lia]).
  lia.
Qed.

(** [k] naps were taken, from retry number [a] on. *)
Definition rested (N : list Z) (a k : nat) (r : R) : Prop :=
  still st (N ++ map (nap p) (seq a k)) r /\ (a + k <= n)%nat.

Lemma still_rested N a r : still st N r -> (a <= n)%nat -> rested N a 0 r.
Proof. intros Hr Ha. split; [by rewrite app_nil_r|lia]. Qed.

Lemma rested_after N a k r : rested (N ++ [nap p a]) (Datatypes.S a) k r -> rested N a (Datatypes.S k) r.
Proof. intros [Hr Hk]. rewrite <-app_assoc in Hr. split; [done|lia]. Qed.

(** A turn of the loop naps once, unless it ends the loop. *)
Lemma round_rests N a : (a <= n)%nat ->
  hoare (still st N) (retry_round p (Z.of_nat a) (nap p a)) (fun res r =>
    match res with
    | Ok (Received _) => still st N r
    | Ok (Again a' d) => a' = Z.of_nat (Datatypes.S a) /\ d = nap p (Datatypes.S a) /\ rested N a 1 r
    | _ => exists k, rested N a k r
    end).
Proof.
  intros Ha. unfold retry_round. rewrite nap_next.
  assert (Hend : forall r, still st N r -> exists k, rested N a k r) by (intros r Hr; exists 0%nat; by apply still_rested).
  assert (Hex : exhausted p (Z.of_nat a) = (n <=? a)%nat).
  { unfold exhausted. rewrite bounded. destruct (Nat.leb_spec n a); lia. }
  assert (Hsum : (a < n)%nat -> Driver.saturating_add_u32 (Z.of_nat a) 1 = Z.of_nat (Datatypes.S a)).
  { intros Hlt. unfold Driver.saturating_add_u32, u32_max in *. lia. }
  assert (Hnap : forall r, still st N r -> still st (N ++ [nap p a]) (snd (sleep (nap p a) r))).
  { intros r [Hs Hn]. split; [done|]. simpl. by rewrite Hn. }
  apply hoare_keeps_bind; [monad_auto|intros; by apply Hend..|intros have].
  apply hoare_keeps_bind; [case_match; monad_auto|intros; by apply Hend..|intros failure].
  destruct failure as [f|].
  { rewrite Hex. destruct (Nat.leb_spec n a) as [|Hlt]; [intros r Hr; by apply Hend|]. rewrite Hsum by done.
    intros r Hr. split_and!; [done..|]. split; [by apply Hnap|lia]. }
  apply hoare_keeps_bind; [monad_auto|intros; by apply Hend..|intros wait].
  apply hoare_keeps_bind; [monad_auto|intros; by apply Hend..|intros polled].
  destruct polled as [error|es]; [|by intros r Hr]. rewrite Hex.
  destruct (Nat.leb_spec n a) as [|Hlt]; [rewrite orb_true_r; intros r Hr; by apply Hend|].
  destruct (negb (ErrorsModel.is_recoverable error)); [intros r Hr; by apply Hend|]. rewrite Hsum by done.
  assert (Hone : forall r, still st (N ++ [nap p a]) r -> rested N a 1 r) by (intros r Hr; split; [done|lia]).
  apply hoare_keeps_bind; [monad_auto|intros; by apply Hend..|intros _].
  apply hoare_bind with (R := fun _ => still st (N ++ [nap p a])); [by intros r Hr; apply Hnap|intros _].
  apply hoare_keeps_bind; [monad_auto|intros; by eauto..|intros _]. intros r Hr. by split_and!; auto.
Qed.

(** The outcome of a poll: it did not run out of turns, and napped within the budget. *)
Definition patient {A} (N : list Z) (a : nat) (res : Res (option A)) (r : R) : Prop :=
  res <> Ok None /\ exists k, rested N a k r.

Lemma loop_patient fuel N a : (a <= n)%nat -> (n - a < fuel)%nat ->
  hoare (still st N) (retry_loop fuel p (Z.of_nat a) (nap p a)) (patient N a).
Proof.
  revert N a. induction fuel as [|fuel IH]; intros N a Ha Hf; [lia|]. cbn [retry_loop].
  intros r Hr. pose proof (round_rests N a Ha r Hr) as Hround. rewrite bind_eq.
  destruct (retry_round p (Z.of_nat a) (nap p a) r) as [[[es|a' d]|e|] r1]; simpl in Hround.
  - split; [done|]. exists 0%nat. by apply still_rested.
  - destruct Hround as (-> & -> & [Hr1 Hle]).
    destruct (IH (N ++ [nap p a])%list (Datatypes.S a) ltac:(lia) ltac:(lia) r1 Hr1) as [Hnn [k Hk]].
    split; [done|]. exists (Datatypes.S k). by apply rested_after.
  - by split.
  - by split.
Qed.

Hypothesis retrying : connection_retry st = Some p.

Lemma still_patient {A} N (res : Res (option A)) r : still st N r -> res <> Ok None -> patient N 0 res r.
Proof. intros Hr Hres. split; [done|]. exists 0%nat. apply still_rested; [done|lia]. Qed.

Lemma some_patient {A} N (m : M R A) : keeps (still st N) m -> hoare (still st N) (Some <$> m) (patient N 0).
Proof.
  intros Hm r Hr. specialize (Hm r Hr). unfold fmap, M_fmap.
  destruct (m r) as [[] ?]; by apply still_patient.
Qed.

Lemma patient_bind {A B} N (m : M R A) (k : A -> M R (option B)) :
  keeps (still st N) m -> (forall a, hoare (still st N) (k a) (patient N 0)) ->
  hoare (still st N) (m ≫= k) (patient N 0).
Proof. intros Hm Hk. apply hoare_keeps_bind; [done|intros; by apply still_patient..|done]. Qed.

Variable fuel : nat.
Hypothesis enough : (n < fuel)%nat.

Lemma stream_patient now clock N : hoare (still st N) (poll_stream ahash fuel now clock) (patient N 0).
Proof.
  intros r Hr. unfold poll_stream. destruct (stream (core r)); [|by apply still_patient].
  pose proof Hr as [-> _]. rewrite retrying.
  pose proof (loop_patient fuel N 0 ltac:(lia) ltac:(lia) r Hr) as [Hnn [k Hk]]. rewrite bind_eq.
  assert (Hz : nap p 0 = initial_delay_ms p) by (unfold nap; rewrite Z.mul_1_r; lia).
  rewrite Hz in *. destruct (retry_loop fuel p _ _ r) as [[[es|]|e|] r1]; simpl in *; try done.
  2, 3: by split; eauto.
  destruct es as [|e es]; [by split; eauto|].
  destruct Hk as [Hk Hle]. pose proof (some_patient _ (ingest ahash now clock (e :: es)) ltac:(monad_auto) r1 Hk) as Hi.
  destruct Hi as [Hnone [j [Hj _]]]. split; [done|].
  pose proof (keeps_fmap _ Some _ (still_ingest st _ now clock (e :: es)) r1 Hk) as Hs.
  exists k. by split.
Qed.

(** Forget the state the program was selected by. *)
Ltac from_still r Hr := match goal with |- patient ?N 0 (fst (?f r)) _ =>
  refine ((_ : hoare (still st N) f (patient N 0)) r Hr); clear Hr end.

Lemma snapshot_patient now clock N : hoare (still st N) (poll_snapshot ahash fuel now clock) (patient N 0).
Proof.
  intros r Hr. unfold poll_snapshot. destruct (snapshot (core r)) as [sn|]; [|by apply stream_patient].
  from_still r Hr. apply patient_bind; [monad_auto|]. intros [|e es]; [|apply some_patient; monad_auto].
  repeat (apply patient_bind; [repeat case_match; monad_auto|intros ?]). apply stream_patient.
Qed.

Lemma injected_patient now clock N : hoare (still st N) (poll_injected ahash fuel now clock) (patient N 0).
Proof.
  intros r Hr. unfold poll_injected. destruct (injected_events (core r)); [by apply snapshot_patient|].
  from_still r Hr. apply patient_bind; [monad_auto|intros _]. apply some_patient. monad_auto.
Qed.

Lemma poll_patient now clock N : hoare (still st N) (poll_event_batch ahash fuel now clock) (patient N 0).
Proof.
  intros r Hr. unfold poll_event_batch. destruct (state r); try by apply still_patient.
  from_still r Hr. do 2 (apply patient_bind; [monad_auto|intros ?]).
  case_match; [by intros r1 Hr1; apply still_patient|].
  do 3 (apply patient_bind; [monad_auto|intros ?]). case_match; [|apply some_patient; monad_auto].
  do 2 (apply patient_bind; [repeat case_match; monad_auto|intros ?]).
  case_match; [by intros r1 Hr1; apply still_patient|apply injected_patient].
Qed.

End Budget.

Lemma valid_delays p : validate_retry p = Ok p -> initial_delay_ms p <= max_delay_ms p.
Proof. unfold validate_retry. repeat case_match; try done. intros _. lia. Qed.

(** ** The retry budget *)

(** C17: a poll under a bounded retry policy returns.  With at most [n] retries and whatever
    the source, the store and the stages do, [n + 1] turns of the retry loop are enough for
    the poll to answer with a batch or an error; the delays it slept are the first of the
    doubling backoff, from [initial_delay_ms] up to [max_delay_ms], and no more than [n] of
    them. *)
Theorem poll_returns_within_budget (p : ConnectionRetryPolicy) (n fuel : nat) now clock (r r' : R) res
    (retrying : connection_retry (settings r) = Some p)
    (valid : validate_retry p = Ok p) (delays_fit : 0 <= initial_delay_ms p /\ max_delay_ms p <= u64_max)
    (bounded : max_retries p = Some (Z.of_nat n)) (retries_fit : Z.of_nat n <= u32_max)
    (enough : (n < fuel)%nat) (polled : poll_event_batch ahash fuel now clock r = (res, r')) :
  res <> Ok None /\
  exists k, (k <= n)%nat /\ naps r' = (naps r ++ map (nap p) (seq 0 k))%list.
Proof.
  apply valid_delays in valid as Hd.
  pose proof (poll_patient (settings r) p n bounded retries_fit ltac:(lia) retrying fuel enough
    now clock (naps r) r (conj eq_refl eq_refl)) as [Hnn [k [[_ Hk] Hle]]].
  rewrite polled in *. split; [done|]. by exists k.
Qed.

(** ** Recovery *)

Section Recovery.
Context `{!Recovering S SN I}.
Variables (p : ConnectionRetryPolicy) (n : Z) (st : Settings) (c : C) (o : option DynOffset).
Hypothesis bounded : max_retries p = Some n.
Hypothesis retries_fit : n <= u32_max.
Hypothesis loads : fst (load c) = Ok o.

Definition refusing (src : RuntimeSource S) (d : nat) : Prop :=
  match src with Connector s | Custom s => (down s <= d)%nat | NoSource => False end.

(** No stream is open, and at most [d] more connection attempts fail. *)
Record away (d : nat) (r : R) : Prop := {
  a_stream : stream (core r) = None;
  a_plain : incremental_snapshot (config (core r)) = false;
  a_settings : settings r = st;
  a_store : checkpoint (core r) = c;
  a_source : refusing (source r) d;
}.

(** A stream is open that was started at the checkpoint and has events to read. *)
Definition resumed (r : R) : Prop := settings r = st /\
  exists s i s' t, start_stream o s = (Ok i, s') /\ stream (core r) = Some i /\
    t = max_poll_wait_ms st /\ exists es i', Driver.next_events t i = (Ok es, i') /\ es <> [].

(** A connection attempt succeeds, and then the stream opens, or brings the source one
    attempt nearer. *)
Lemma restart_progress refusal d r : away d r ->
  match restart_stream refusal r with
  | (Ok None, r') => resumed r'
  | (Ok (Some _), r') => exists d', away d' r' /\ (d' < d)%nat
  | _ => False
  end.
Proof.
  intros [Hs Hp Hset Hc Hd]. unfold restart_stream. rewrite (bind_eq close_source). cbn.
  rewrite bind_eq. unfold try at 1, on_source at 1. cbn.
  assert (Hcon : match dispatch connect (source_close (source r)) with
    | (Ok _, src) => refusing src 0
    | (Err _, src) => exists d', refusing src d' /\ (d' < d)%nat
    | (Panic, _) => False
    end).
  { destruct (source r) as [s| |s]; simpl in Hd; [|done|]; simpl;
      pose proof (connect_down (close s)) as Hx; rewrite (close_down s) in Hx;
      destruct (connect (close s)) as [[] s']; try done; [simpl; lia|exists (down s'); simpl; lia..|simpl; lia|].
    exists (down s'). simpl. lia. }
  destruct (dispatch connect _) as [[u|e|] src]; [|by destruct Hcon as (d' & ? & ?); exists d'|done].
  rewrite bind_eq. unfold map_err, on_store. cbn. rewrite Hc. destruct (load c) as [res c'].
  simpl in loads. subst res. rewrite bind_eq. unfold try, resume_stream_after_reconnect. rewrite bind_gets.
  cbn. rewrite Hp. unfold on_source. cbn.
  assert (Hopen : exists s i s' src', dispatch (start_stream o) src = (Ok i, src') /\ start_stream o s = (Ok i, s') /\
    forall t, exists es i', Driver.next_events t i = (Ok es, i') /\ es <> []).
  { destruct src as [s| |s]; [|done|]; destruct (stream_up o s) as (i & s' & E & Hi); [simpl in Hcon; lia| |simpl in Hcon; lia|].
    all: exists s, i, s'; simpl; rewrite E; eauto. }
  destruct Hopen as (s & i & s' & src' & -> & E & Hi). split; [done|]. exists s, i, s', (max_poll_wait_ms st). eauto.
Qed.

(** Reading the stream that was resumed. *)
Lemma resumed_round a delay r : resumed r -> exists es r', retry_round p a delay r = (Ok (Received es), r') /\
  es <> [] /\ exists s i s', start_stream o s = (Ok i, s') /\
    Driver.next_events (max_poll_wait_ms st) i = (Ok es, default i (stream (core r'))).
Proof.
  intros [Hset (s & i & s' & t & E & Hi & -> & es & i' & En & Hes)]. unfold retry_round. rewrite bind_gets, Hi.
  rewrite bind_eq. cbn. rewrite bind_gets, Hset, bind_eq. unfold try, on_stream. rewrite Hi, En.
  exists es. eexists. split; [reflexivity|]. split; [done|]. by exists s, i, s'.
Qed.

(** A turn that finds no stream. *)
Lemma away_round a delay d r : away d r -> 0 <= a -> a + Z.of_nat d <= n ->
  match retry_round p a delay r with
  | (Ok (Received es), r') => es <> [] /\ exists s i s', start_stream o s = (Ok i, s') /\
      Driver.next_events (max_poll_wait_ms st) i = (Ok es, default i (stream (core r')))
  | (Ok (Again a' delay'), r') => a' = a + 1 /\ exists d', away d' r' /\ (d' < d)%nat
  | _ => False
  end.
Proof.
  intros Hr Ha Hn. pose proof (restart_progress
    "failed loading checkpoint while resuming the stream after reconnect" d r Hr) as Hx.
  unfold retry_round. rewrite bind_gets, (a_stream _ _ Hr), bind_eq.
  destruct (restart_stream _ r) as [[[f|]|e|] r1]; [| |done..].
  - destruct Hx as (d' & [] & Hlt). unfold exhausted. rewrite bounded, (proj2 (Z.leb_gt n a)) by lia.
    split; [unfold Driver.saturating_add_u32, u32_max in *; lia|]. by exists d'.
  - destruct (resumed_round a delay r1 Hx) as (es & r' & E & Hes & Hread).
    unfold retry_round in E. rewrite bind_gets in E. destruct Hx as [_ (s & i & s' & t & _ & Hi & _)].
    rewrite Hi, bind_eq in E. cbn in E. rewrite E. by split.
Qed.

(** What the loop read, from the stream it reopened at the checkpoint. *)
Definition reread (es : list Event) (r : R) : Prop :=
  es <> [] /\ exists s i s', start_stream o s = (Ok i, s') /\
    Driver.next_events (max_poll_wait_ms st) i = (Ok es, default i (stream (core r))).

Lemma resumed_loop fuel a delay r : resumed r -> (0 < fuel)%nat ->
  exists es r', retry_loop fuel p a delay r = (Ok (Some es), r') /\ reread es r'.
Proof.
  intros Hr Hf. destruct fuel as [|fuel]; [lia|]. cbn [retry_loop].
  destruct (resumed_round a delay r Hr) as (es & r' & E & Hes). rewrite bind_eq, E. by exists es, r'.
Qed.

Lemma away_loop fuel a delay d r : away d r -> 0 <= a -> a + Z.of_nat d <= n -> (d < fuel)%nat ->
  exists es r', retry_loop fuel p a delay r = (Ok (Some es), r') /\ reread es r'.
Proof.
  revert a delay d r. induction fuel as [|fuel IH]; intros a delay d r Hr Ha Hd Hf; [lia|].
  cbn [retry_loop]. pose proof (away_round a delay d r Hr Ha Hd) as Hx. rewrite bind_eq.
  destruct (retry_round p a delay r) as [[[es|a' delay']|e|] r1]; [by exists es, r1| |done..].
  destruct Hx as (-> & d' & Hr1 & Hlt). apply (IH (a + 1) delay' d' r1); [done|lia..].
Qed.

(** The turn in which the stream breaks. *)
Lemma broken_round delay d i e i' r : stream (core r) = Some i -> 0 < n ->
  Driver.next_events (max_poll_wait_ms st) i = (Err e, i') -> ErrorsModel.is_recoverable e = true ->
  away d (snd (set_stream None r)) ->
  match retry_round p 0 delay r with
  | (Ok (Again a _), r') => a = 1 /\ (resumed r' \/ exists d', away d' r' /\ (d' < d)%nat)
  | _ => False
  end.
Proof.
  intros Hi Hn En Hrec Hr. pose proof (a_settings _ _ Hr) as Hset. simpl in Hset.
  unfold retry_round. rewrite bind_gets, Hi, bind_eq. cbn. rewrite bind_gets, Hset, bind_eq.
  unfold try at 1, on_stream. rewrite Hi, En, Hrec. unfold exhausted. rewrite bounded, (proj2 (Z.leb_gt n 0)) by done.
  cbn [negb orb]. rewrite (bind_eq (set_stream None)). cbn. rewrite (bind_eq (sleep delay)). cbn.
  match goal with |- context [(restart_stream ?msg ≫= _) ?r1] =>
    assert (Hr1 : away d r1) by (destruct Hr; by split); pose proof (restart_progress msg d r1 Hr1) as Hx end.
  rewrite bind_eq. destruct (restart_stream _ _) as [[[f|]|x|] r2]; [| |done..]; (split; [done|]); auto.
Qed.

End Recovery.


(** ** Giving up *)

Lemma service_ok (r : R) : commands (control r) = [] ->
  exists ctl, service_control_commands r = (Ok tt, with_sink (registered_sink r) ctl (naps r) r) /\
    commands ctl = [].
Proof.
  intros Hc. unfold service_control_commands. rewrite bind_gets, Hc. by eexists.
Qed.

(** Nothing is waiting in the runtime. *)
Record drained (r : R) : Prop := {
  d_state : state r = Running;
  d_delivery : pending_delivery (core r) = None;
  d_buffered : buffered_events (core r) = [];
  d_queue : pending_source_events (core r) = [];
  d_injected : injected_events (core r) = [];
  d_snapshot : snapshot (core r) = None;
  d_commands : commands (control r) = [];
}.

(** A drained runtime polls its stream. *)
Lemma drained_poll fuel now clock r : drained r -> exists r1,
  poll_event_batch ahash fuel now clock r =
    match retry_pending_confirmation (core r) with
    | (Ok _, c) => poll_stream ahash fuel now clock (with_core c r1)
    | (Err e, c) => (Err e, with_core c r1)
    | (Panic, c) => (Panic, with_core c r1)
    end /\ core r1 = core r /\ source r1 = source r /\ settings r1 = settings r /\ drained r1.
Proof.
  intros [Hst Hd Hb Hq Hi Hs Hc]. destruct (service_ok r Hc) as (ctl & E & Hctl).
  exists (with_sink (registered_sink r) ctl (naps r) r). split_and!; try done.
  unfold poll_event_batch. rewrite Hst, bind_gets. unfold current_pending_batch. rewrite Hd, bind_of_res.
  rewrite (bind_ok _ _ _ _ _ E), bind_eq. unfold on_core at 1. cbn [core with_sink].
  assert (Hkeep : forall c, snd (retry_pending_confirmation (core r)) = c ->
    buffered_events c = [] /\ pending_source_events c = [] /\ injected_events c = [] /\ snapshot c = None).
  { intros c <-. unfold retry_pending_confirmation. repeat case_match; done. }
  destruct (retry_pending_confirmation (core r)) as [[[]|e|] c]; [|done..].
  destruct (Hkeep c eq_refl) as (Hb' & Hq' & Hi' & Hs').
  rewrite bind_gets. cbn. rewrite Hb', bind_gets. cbn. rewrite Hq', bind_eq. cbn.
  unfold poll_injected. cbn. rewrite Hi'. unfold poll_snapshot. cbn. by rewrite Hs'.
Qed.

(** No stream is open and nothing is waiting. *)
Definition hushed (r : R) : Prop := drained r /\ stream (core r) = None.

Lemma hushed_poll fuel now clock r : hushed r -> exists r',
  poll_event_batch ahash fuel now clock r = (Ok (Some empty_batch), r') /\ hushed r' /\ source r' = source r.
Proof.
  intros [Hr Hs]. destruct (drained_poll fuel now clock r Hr) as (r1 & -> & Hc & Hsrc & _ & Hr1).
  assert (Erc : retry_pending_confirmation (core r) = (Ok tt, core r)).
  { unfold retry_pending_confirmation. rewrite Hs. by destruct (pending_confirmation_lsn (core r)). }
  assert (Hid : with_core (core r) r1 = r1) by (rewrite <-Hc; by destruct r1).
  assert (E : poll_stream ahash fuel now clock r1 = (Ok (Some empty_batch), r1)).
  { unfold poll_stream. by rewrite Hc, Hs. }
  exists r1. rewrite Erc, Hid, E. split_and!; [done|split; [done|by rewrite Hc]|done].
Qed.

(** Polls, one after another. *)
Fixpoint polls (l : list (nat * Z * (nat -> Z))) (r : R) : list (Res (option EventBatch)) * R :=
  match l with
  | [] => ([], r)
  | (fuel, now, clock) :: l' =>
      let '(res, r1) := poll_event_batch ahash fuel now clock r in
      let '(rs, r2) := polls l' r1 in (res :: rs, r2)
  end.

Lemma hushed_polls l r : hushed r -> exists r', polls l r = (replicate (length l) (Ok (Some empty_batch)), r') /\
  hushed r' /\ source r' = source r.
Proof.
  revert r. induction l as [|[[fuel now] clock] l IH]; intros r Hr; simpl; [by exists r|].
  destruct (hushed_poll fuel now clock r Hr) as (r1 & -> & Hr1 & <-).
  destruct (IH r1 Hr1) as (r2 & -> & Hr2 & <-). by exists r2.
Qed.

Section GiveUp.
Variables (p : ConnectionRetryPolicy) (n : nat).
Hypothesis bounded : max_retries p = Some (Z.of_nat n).
Hypothesis retries_fit : Z.of_nat n <= u32_max.

Lemma refused_restart refusal k r : refuses (Datatypes.S k) (source r) -> hushed r ->
  exists r', restart_stream refusal r = (Ok (Some NotConnected), r') /\ hushed r' /\ refuses k (source r').
Proof.
  intros (e & src' & E & Hk) [[] Hs]. unfold restart_stream. rewrite (bind_eq close_source). cbn.
  rewrite bind_eq. unfold try, on_source. cbn. rewrite E.
  eexists. split; [reflexivity|]. split; [|done]. by split.
Qed.

Lemma lost_loop k : forall fuel a delay r, hushed r -> refuses (Datatypes.S k) (source r) ->
  (a + k = n)%nat -> (k < fuel)%nat ->
  exists r', retry_loop fuel p (Z.of_nat a) delay r = (Err (gave_up NotConnected), r') /\ hushed r'.
Proof.
  induction k as [|k IH]; intros fuel a delay r Hr Hsrc Ha Hf; (destruct fuel as [|fuel]; [lia|]).
  all: cbn [retry_loop]; unfold retry_round; rewrite bind_eq, bind_gets, (proj2 Hr), bind_eq.
  all: destruct (refused_restart "failed loading checkpoint while resuming the stream after reconnect" _ r Hsrc Hr)
         as (r1 & -> & Hr1 & Hsrc1); unfold exhausted; rewrite bounded.
  - rewrite (proj2 (Z.leb_le _ _)) by lia. by exists r1.
  - rewrite (proj2 (Z.leb_gt _ _)) by lia. cbn.
    replace (Driver.saturating_add_u32 (Z.of_nat a) 1) with (Z.of_nat (Datatypes.S a))
      by (unfold Driver.saturating_add_u32, u32_max in *; lia).
    destruct Hr1 as [[] Hs1]. apply IH; [|done|lia..]. by split.
Qed.

(** The stream breaks, and does not come back: no connection is accepted, or the
    checkpoint does not load. *)
Lemma broken_loop fuel i e i' r : drained r -> stream (core r) = Some i -> (0 < n < fuel)%nat ->
  Driver.next_events (max_poll_wait_ms (settings r)) i = (Err e, i') -> ErrorsModel.is_recoverable e = true ->
  refuses (Datatypes.S n) (source r) \/
  (exists src, dispatch connect (source_close (source r)) = (Ok tt, src)) /\
    (exists x, fst (load (checkpoint (core r))) = Err x) ->
  exists x r', retry_loop fuel p 0 (initial_delay_ms p) r = (Err x, r') /\ hushed r'.
Proof.
  intros [] Hi Hn En Hrec Hgone. destruct fuel as [|fuel]; [lia|]. cbn [retry_loop]. rewrite bind_eq.
  unfold retry_round. rewrite bind_gets, Hi, bind_eq. cbn. rewrite bind_gets, bind_eq.
  unfold try at 1, on_stream. rewrite Hi, En, Hrec. unfold exhausted. rewrite bounded, (proj2 (Z.leb_gt _ 0)) by lia.
  cbn [negb orb]. rewrite (bind_eq (set_stream None)). cbn. rewrite (bind_eq (sleep _)). cbn.
  match goal with |- context [(restart_stream ?msg ≫= _) ?r1] =>
    assert (Hr1 : hushed r1) by (by split); set (r2 := r1) in *; set (refusal := msg) end.
  change (source r) with (source r2) in Hgone. change (checkpoint (core r)) with (checkpoint (core r2)) in Hgone.
  clearbody r2. rewrite bind_eq. destruct Hgone as [Hsrc|[[src Ec] [x El]]].
  - destruct (refused_restart refusal n r2 Hsrc Hr1) as (r3 & -> & Hr3 & Hsrc3). cbn.
    change (Driver.saturating_add_u32 0 1) with (Z.of_nat 1).
    replace n with (Datatypes.S (n - 1)) in Hsrc3 by lia.
    edestruct (lost_loop (n - 1) fuel 1) as (r4 & E4 & Hr4); [done..|lia|lia|].
    rewrite E4. eauto.
  - unfold restart_stream. rewrite (bind_eq close_source). cbn. rewrite bind_eq. unfold try, on_source. cbn.
    rewrite Ec, bind_eq. unfold map_err, on_store. cbn. destruct (load _) as [res c']. simpl in El. subst res.
    eexists _, _. split; [reflexivity|]. destruct Hr1 as [[] Hs1]. by split.
Qed.

End GiveUp.

(** A poll that gives up its stream leaves a runtime that reads nothing again.  The
    open stream breaks with a recoverable error under a bounded retry policy, and no
    connection is accepted until the retries are used up, or one is and the checkpoint
    does not load.  The poll fails once and the runtime stays [Running]; however often and
    however long after it is polled again, each poll answers with an empty batch and the
    source is not called, whether or not it is back. *)
Theorem abandoned_stream_goes_silent (p : ConnectionRetryPolicy) (n fuel : nat) now clock (r : R) (i i' : I) (e : Error)
    (retrying : connection_retry (settings r) = Some p) (bounded : max_retries p = Some (Z.of_nat n))
    (retries_fit : Z.of_nat n <= u32_max) (enough : (0 < n < fuel)%nat)
    (nothing_waits : drained r) (confirmed : pending_confirmation_lsn (core r) = None)
    (opened : stream (core r) = Some i)
    (breaks : Driver.next_events (max_poll_wait_ms (settings r)) i = (Err e, i'))
    (recoverable : ErrorsModel.is_recoverable e = true)
    (gone : refuses (Datatypes.S n) (source r) \/
      (exists src, dispatch connect (source_close (source r)) = (Ok tt, src)) /\
        (exists x, fst (load (checkpoint (core r))) = Err x)) :
  exists x r1, poll_event_batch ahash fuel now clock r = (Err x, r1) /\ state r1 = Running /\
    forall l, exists r2, polls l r1 = (replicate (length l) (Ok (Some empty_batch)), r2) /\
      state r2 = Running /\ source r2 = source r1.
Proof.
  destruct (drained_poll fuel now clock r nothing_waits) as (r1 & E & Hc & Hsrc & Hset & Hr1).
  unfold retry_pending_confirmation in E. rewrite confirmed in E.
  assert (Hid : with_core (core r) r1 = r1) by (rewrite <-Hc; by destruct r1). rewrite Hid in E.
  destruct (broken_loop p n bounded retries_fit fuel i e i' r1 Hr1) as (x & r2 & El & Hh);
    [by rewrite ?Hc, ?Hset, ?Hsrc..|].
  exists x, r2. split_and!.
  - rewrite E. unfold poll_stream. rewrite Hc, opened, Hset, retrying, bind_eq. by rewrite El.
  - by destruct Hh as [[] _].
  - intros l. destruct (hushed_polls l r2 Hh) as (r3 & El3 & [[] _] & Hs3). by exists r3.
Qed.

(** ** Being watched *)

Section Quiet.
(** A stream that has nothing to read, now or later. *)
Variable quiet : I -> Prop.
Hypothesis quiet_reads : forall t i, quiet i -> exists i', Driver.next_events t i = (Ok [], i') /\ quiet i'.

Record waiting (st : Settings) (ss : Stats) (r : R) : Prop := {
  w_drained : drained r;
  w_stream : exists i, stream (core r) = Some i /\ quiet i;
  w_confirmed : pending_confirmation_lsn (core r) = None;
  w_settings : settings r = st;
  w_stats : stats (core r) = ss;
}.

Lemma waiting_read st ss r i' : waiting st ss r -> quiet i' ->
  waiting st ss (with_core (with_handles (snapshot (core r)) (Some i') (core r)) r).
Proof. intros [[] _ ? ? ?] Hq. split; try done. by exists i'. Qed.

Lemma waiting_stream fuel now clock st ss r : waiting st ss r -> (0 < fuel)%nat ->
  exists r', poll_stream ahash fuel now clock r = (Ok (Some empty_batch), r') /\ waiting st ss r'.
Proof.
  intros Hr Hf. destruct (w_stream _ _ _ Hr) as (i & Hi & Hq).
  destruct (quiet_reads (max_poll_wait_ms (settings r)) i Hq) as (i' & En & Hq').
  eexists. split; [|by apply (waiting_read st ss r i')].
  unfold poll_stream. rewrite Hi, bind_eq. destruct (connection_retry (settings r)) as [p|].
  - destruct fuel as [|fuel]; [lia|]. cbn [retry_loop]. rewrite bind_eq. unfold retry_round.
    rewrite bind_gets, Hi, bind_eq. cbn. rewrite bind_gets, bind_eq. unfold try, on_stream. by rewrite Hi, En.
  - unfold fmap, M_fmap, on_stream. by rewrite Hi, En.
Qed.

Lemma waiting_poll fuel now clock st ss r : waiting st ss r -> (0 < fuel)%nat ->
  exists r', poll_event_batch ahash fuel now clock r = (Ok (Some empty_batch), r') /\ waiting st ss r'.
Proof.
  intros Hr Hf. destruct (drained_poll fuel now clock r (w_drained _ _ _ Hr)) as (r1 & -> & Hc & _ & Hset & Hd).
  unfold retry_pending_confirmation. rewrite (w_confirmed _ _ _ Hr).
  assert (Hid : with_core (core r) r1 = r1) by (rewrite <-Hc; by destruct r1). rewrite Hid.
  apply waiting_stream; [|done]. destruct Hr. by split; rewrite ?Hc, ?Hset.
Qed.

Lemma waiting_polls l st ss r : waiting st ss r -> Forall (fun x => (0 < x.1.1)%nat) l ->
  exists r', polls l r = (replicate (length l) (Ok (Some empty_batch)), r') /\ waiting st ss r'.
Proof.
  intros Hr Hl. revert r Hr. induction Hl as [|[[fuel now] clock] l Hf Hl IH]; intros r Hr; [by exists r|].
  simpl. destruct (waiting_poll fuel now clock st ss r Hr Hf) as (r1 & -> & Hr1).
  destruct (IH r1 Hr1) as (r2 & -> & Hr2). by exists r2.
Qed.

(** A source with nothing to say is reported as a stall.  A runtime that delivered once,
    at [t], is polled over a stream that stays empty: every poll completes, with an empty
    batch, and [last_poll_at_ms] stays [t].  So as soon as [t] is further back than the
    threshold the verdict is [Stalled], for want of a completed poll, however recent the
    last poll is. *)
Theorem quiet_source_reported_stalled (l : list (nat * Z * (nat -> Z))) (t now : Z) (r : R)
    (nothing_waits : drained r) (open : exists i, stream (core r) = Some i /\ quiet i)
    (confirmed : pending_confirmation_lsn (core r) = None)
    (delivered : last_poll_at_ms (stats (core r)) = Some t)
    (turns : Forall (fun x => (0 < x.1.1)%nat) l)
    (later : Z.max (saturating_mul (max_poll_wait_ms (settings r)) HEALTH_POLL_STALL_MULTIPLIER)
               HEALTH_MIN_POLL_STALL_MS < saturating_sub now t) :
  exists r', polls l r = (replicate (length l) (Ok (Some empty_batch)), r') /\
    last_poll_at_ms (stats (core r')) = Some t /\
    derive_health now r' = Stalled "no poll has completed".
Proof.
  destruct (waiting_polls l (settings r) (stats (core r)) r) as (r' & E & [[] _ Hcf Hset Hst]); [by split|done|].
  exists r'. rewrite Hst. split_and!; try done. unfold derive_health.
  rewrite d_state0, Hcf, Hst, Hset, delivered. cbn [from_option negb]. rewrite bool_decide_true by done. simpl.
  by rewrite (proj2 (Z.ltb_lt _ _)) by done.
Qed.

End Quiet.

End Laws.

End LifecycleLaws.
