(* ===== verification/Reconnect.v ===== *)
(** * Reconnect: what the whole runtime guarantees

    Theorems about [Lifecycle] over a source with a log.  A session of polls and
    acknowledgements in which connections fail and streams are restarted at the saved
    checkpoint delivers every event of the log at least once, with the duplicate guard on
    or off; what is committed has reached the sink; stopping accounts for every event.
    The last part shows that a reconnect cannot go on from a snapshot checkpoint. *)

From S2P Require Import Prelude Errors CheckpointApi Strs Json Offsets Event Barrier Monad Driver DriverDelivery Idempotency Runtime RuntimeDelivery SchemaHistory Transforms Sinks Lifecycle LifecycleLaws.

Module Reconnect.
Import Runtime RuntimeDelivery Lifecycle LifecycleLaws.

Local Open Scope Z_scope.

(** ** Interfaces *)

(** A checkpoint store: what it holds is what the last successful save put there. *)
Class StoreLaws (C : Type) `{Checkpoint C} := {
  saved : C -> option DynOffset;
  save_ok o n c c' : save o n c = (Ok tt, c') -> saved c' = Some o;
  save_err o n c e c' : save o n c = (Err e, c') -> saved c' = saved c;
  load_ok o c c' : load c = (Ok o, c') -> o = saved c /\ saved c' = saved c;
  load_err e c c' : load c = (Err e, c') -> saved c' = saved c;
  count_saved c : saved (snd (get_committed_count c)) = saved c;
  save_calm o n c : fst (save o n c) <> Panic;
  load_calm c : fst (load c) <> Panic;
}.

(** A source with a log.  A stream reads the log from its cursor on, an error or a
    confirmation does not move it, and a stream opened at an offset begins no later than
    the event that offset resumes at. *)
Class LogSource {S SN I : Type} `{Driver.StreamHandle I} `{Source S SN I}
    (log : list Event) (resume_index : DynOffset -> nat) := {
  cursor : I -> nat;
  next_reads t i es i' : Driver.next_events t i = (Ok es, i') ->
    es = take (length es) (drop (cursor i) log) /\ cursor i' = (cursor i + length es)%nat;
  next_fails t i e i' : Driver.next_events t i = (Err e, i') -> cursor i' = cursor i;
  confirm_stays lsn i : cursor (snd (Driver.confirm_lsn lsn i)) = cursor i;
  stream_at o s i s' : start_stream (Some o) s = (Ok i, s') -> (cursor i <= resume_index o)%nat;
  incremental_at c o s i s' :
    start_incremental_snapshot c (Some o) s = (Ok i, s') -> (cursor i <= resume_index o)%nat;
  next_calm t i : fst (Driver.next_events t i) <> Panic;
  confirms_calm lsn i : fst (Driver.confirm_lsn lsn i) <> Panic;
  connect_calm s : fst (connect s) <> Panic;
  stream_calm o s : fst (start_stream o s) <> Panic;
  incremental_calm c o s : fst (start_incremental_snapshot c o s) <> Panic;
}.

(** A schema history that works: it records, or rejects the statement. *)
Class HistoryLaws (H : Type) `{History H} := {
  record_works id d h : (exists v, fst (record_ddl id d h) = Ok v) \/
                        (exists m, fst (record_ddl id d h) = Err (SchemaError m));
  retain_works n h : exists v, fst (apply_retention n h) = Ok v;
}.

(** ** Positions *)

Section Positions.
Variable b0 : nat.

(** Before each position come all the positions below it. *)
Definition closed (W : list nat) : Prop := forall k p q,
  W !! k = Some p -> (b0 <= q < p)%nat -> q ∈ take k W.

Definition covered (W : list nat) (n : nat) : Prop := forall q, (b0 <= q < n)%nat -> q ∈ W.

Lemma covered_app W V n : covered W n -> covered (W ++ V) n.
Proof. intros Hc q Hq. apply elem_of_app. left. by apply Hc. Qed.

Lemma covered_succ W n : covered W n -> n ∈ W -> covered W (S n).
Proof. intros Hc Hn q Hq. destruct (decide (q = n)) as [->|]; [done|]. apply Hc. lia. Qed.

Lemma closed_snoc W p : closed W -> covered W p -> closed (W ++ [p]).
Proof.
  intros Hw Hc k x q. destruct (decide (k < length W)%nat) as [Hk|Hk].
  - rewrite lookup_app_l, take_app_le by lia. apply Hw.
  - rewrite lookup_app_r by lia. intros [Hx Hx']%list_lookup_singleton_Some Hq. subst x.
    rewrite take_app_ge by lia. apply elem_of_app. left. by apply Hc.
Qed.

Lemma closed_seq k : forall W n, closed W -> covered W n ->
  closed (W ++ seq n k) /\ covered (W ++ seq n k) (n + k).
Proof.
  induction k as [|k IH]; intros W n Hw Hn; simpl; [by rewrite app_nil_r, Nat.add_0_r|].
  destruct (IH (W ++ [n]) (S n)) as [Hc Hcov].
  - by apply closed_snoc.
  - apply covered_succ; [by apply covered_app|]. apply elem_of_app. right. by left.
  - rewrite <-app_assoc in *. split; [done|]. by rewrite Nat.add_succ_r.
Qed.

Lemma closed_covered W k p : closed W -> W !! k = Some p -> covered (take (S k) W) (S p).
Proof.
  intros Hw Hk. rewrite (take_S_r _ _ _ Hk). apply covered_succ.
  - intros q Hq. apply elem_of_app. left. by eapply Hw.
  - apply elem_of_app. right. by left.
Qed.

End Positions.

Lemma last_some_lookup {A} (l : list (option A)) a :
  Barrier.last_some l = Some a -> exists k, l !! k = Some (Some a).
Proof.
  induction l as [|o l IH]; simpl; [done|]. destruct (Barrier.last_some l) as [a'|].
  - intros [= ->]. destruct IH as [k Hk]; [done|]. by exists (S k).
  - intros ->. by exists 0%nat.
Qed.

Lemma subseteq_take {A} n m (l : list A) x : x ∈ take n l -> (n <= m)%nat -> x ∈ take m l.
Proof.
  intros Hx Hle. replace (take n l) with (take n (take m l)) in Hx.
  - by eapply elem_of_take in Hx as (i & Hi%list_elem_of_lookup_2 & _).
  - rewrite take_take. by f_equal; lia.
Qed.

(** *** Sessions *)

Section Sessions.
Context `{BuildProfile} `{JsonCodec} {C SN I S T SH K : Type}.
Context `{Checkpoint C} `{SnapshotHandle SN} `{Driver.StreamHandle I}.
Context `{!ChunkReader SN} `{!SnapshotControl I} `{!Source S SN I} `{!Transforms.Transform T}.
Context `{!History SH} `{!Sinks.SinkAdapter K}.
Variable ahash : list Idempotency.Token -> Z.

(** A consumer's calls; [fuel] is how many turns a poll's retry loop gets before the call
    is given up. *)
Inductive Step :=
| PollStep (fuel : nat) (now : Z) (clock : nat -> Z)
| AckStep (now : Z) (mode : AckMode).

Inductive Seen := Polled (res : Res (option EventBatch)) | Acked (res : Res unit).

Definition panicked (s : Seen) : bool :=
  match s with Polled Panic | Acked Panic => true | _ => false end.

Definition step (a : Step) (r : CdcService C SN I S T SH K) : Seen * CdcService C SN I S T SH K :=
  match a with
  | PollStep fuel now clock =>
      let '(res, r') := poll_event_batch ahash fuel now clock r in (Polled res, r')
  | AckStep now mode => let '(res, r') := commit now mode r in (Acked res, r')
  end.

Fixpoint run (l : list Step) (r : CdcService C SN I S T SH K)
    : list Seen * CdcService C SN I S T SH K :=
  match l with
  | [] => ([], r)
  | a :: l' => let '(s, r1) := step a r in let '(ss, r2) := run l' r1 in (s :: ss, r2)
  end.

(** The events of the batches the consumer was given. *)
Definition shown (s : Seen) : list Event :=
  match s with Polled (Ok (Some b)) => batch_events b | _ => [] end.
Definition delivered_in (l : list Seen) : list Event := flat_map shown l.

(** Calls of [run_to_completion] one after another, each with its turns. *)
Fixpoint runs (l : list (list (Z * (nat -> Z)) * nat)) (r : CdcService C SN I S T SH K)
    : list (Res (option Z)) * CdcService C SN I S T SH K :=
  match l with
  | [] => ([], r)
  | (turns, retries) :: l' =>
      let '(res, r1) := run_to_completion ahash turns retries r in
      let '(rs, r2) := runs l' r1 in (res :: rs, r2)
  end.

Definition turns_of (l : list (list (Z * (nat -> Z)) * nat)) : nat := length (flat_map fst l).

End Sessions.

(** The events of the log are rows the runtime accepts, the guard can identify each, no two
    of them have the same fingerprint, and the offset built from an event resumes no later
    than the event after it.  The run starts from a position of the log. *)
Record honest_log `{JsonCodec} {C SN I : Type} `{Driver.StreamHandle I} (log : list Event)
    (resume_index : DynOffset -> nat) (ahash : list Idempotency.Token -> Z)
    (cfg : RuntimeConfig) (o0 : DynOffset) : Prop := {
  honest_rows p e : log !! p = Some e -> Event.snapshot e = None;
  honest_acceptable : Forall (acceptable (C := C) (SN := SN) (I := I) cfg) log;
  honest_identified p e : log !! p = Some e ->
    exists f, Idempotency.fingerprint_event_transient ahash e = inr f;
  honest_distinct p q e e' f : log !! p = Some e -> log !! q = Some e' ->
    Idempotency.fingerprint_event_transient ahash e = inr f ->
    Idempotency.fingerprint_event_transient ahash e' = inr f -> p = q;
  honest_offsets (x : CdcRuntime (Journal C) SN I) p e d : config x = cfg ->
    log !! p = Some e -> build_checkpoint_offset x e = Ok d ->
    (resume_index d <= Datatypes.S p)%nat;
  honest_start st : config_source_type (Runtime.source cfg) = Some st ->
    source_type o0 <> (st +:+ "_snapshot")%string;
}.

(** A sink: what it received is what was sent, and flushing sends nothing. *)
Class SinkLaws (K : Type) `{Sinks.SinkAdapter K, !Sinks.ReceiveLaws K} := {
  send_calm e k : fst (Sinks.send e k) <> Panic;
  flush_calm k : fst (Sinks.flush k) <> Panic;
  flush_receives k : Sinks.received (snd (Sinks.flush k)) = Sinks.received k;
}.

Section Log.
Context `{BuildProfile} `{JsonCodec} {C SN I S T SH K : Type}.
Context `{StoreLaws C} `{SnapshotHandle SN}.
Context `{!ChunkReader SN} `{!SnapshotControl I}.
Context (log : list Event) (resume_index : DynOffset -> nat).
Context `{LogSource S SN I log resume_index} `{!Transforms.Transform T}.
Context `{!History SH} `{!HistoryLaws SH} `{!Sinks.SinkAdapter K}.
Variables (ahash : list Idempotency.Token -> Z) (cfg : RuntimeConfig) (b0 : nat).

Abbreviation R := (CdcService (Journal C) SN I S T SH K).
Abbreviation fingerprint e := (Idempotency.fingerprint_event_transient ahash e).

(** The events of the log are rows the runtime accepts, the guard can identify each, and
    no two of them have the same fingerprint. *)
Hypothesis log_rows : forall p e, log !! p = Some e -> Event.snapshot e = None.
Hypothesis log_acceptable : Forall (acceptable (C := C) (SN := SN) (I := I) cfg) log.
Hypothesis log_identified : forall p e, log !! p = Some e -> exists f, fingerprint e = inr f.
Hypothesis log_distinct : forall p q e e' f, log !! p = Some e -> log !! q = Some e' ->
  fingerprint e = inr f -> fingerprint e' = inr f -> p = q.

(** The offset built from an event resumes no later than the event after it. *)
Hypothesis offsets_resume : forall (c : CdcRuntime (Journal C) SN I) p e d, config c = cfg ->
  log !! p = Some e -> build_checkpoint_offset c e = Ok d -> (resume_index d <= Datatypes.S p)%nat.

#[local] Program Instance log_stream : DriverDelivery.StreamLaws I :=
  {| DriverDelivery.handed i := take (cursor i) log |}.
Next Obligation. exact next_calm. Qed.
Next Obligation.
  intros t i es i' E. apply next_reads in E as [Ees ->]. rewrite <-take_take_drop. by rewrite Ees at 2.
Qed.
Next Obligation. intros t i e i' E. simpl. by rewrite (next_fails _ _ _ _ E). Qed.

#[local] Instance log_confirms : ConfirmLaws I.
Proof. split; [apply confirms_calm|]. intros lsn i. simpl. by rewrite confirm_stays. Qed.

Definition at_position (e : Event) (p : nat) : Prop := log !! p = Some e.

(** The guard remembers only events that entered. *)
Definition guarded (F : list Event) (g : Idempotency.EventIdempotencyGuard) : Prop :=
  exists cap ttl w, (0 < cap)%nat /\ Idempotency.represents cap ttl g w /\
    forall f, f ∈ map fst w -> exists e, e ∈ F /\ fingerprint e = inr f.

Lemma window_seen cap ttl now e w f : f ∈ map fst (snd (Idempotency.window_step ahash cap ttl now e w)) ->
  f ∈ map fst w \/ fingerprint e = inr f /\ fst (Idempotency.window_step ahash cap ttl now e w) = Ok true.
Proof.
  assert (Hex : forall x, x ∈ map fst (Idempotency.expire now ttl w) -> x ∈ map fst w).
  { intros x (y & -> & Hy)%list_elem_of_fmap. apply list_elem_of_fmap. exists y. split; [done|].
    by eapply Idempotency.expire_in. }
  unfold Idempotency.window_step. cbv zeta. destruct (negb _); simpl; [auto|].
  destruct (fingerprint e) as [err|f'] eqn:Ef; simpl; [auto|]. case_bool_decide; simpl; [auto|].
  intros (y & -> & Hy%Idempotency.keep_last_in)%list_elem_of_fmap.
  apply elem_of_app in Hy as [Hy|Hy%list_elem_of_singleton]; [|subst; by right].
  left. apply Hex. apply list_elem_of_fmap. by exists y.
Qed.

(** An event the guard suppresses has entered before. *)
Lemma guard_event F g now e :
  guarded F g -> (exists f, fingerprint e = inr f) ->
  exists keep g', Idempotency.should_process ahash (Datatypes.S (length (Idempotency.order g))) now e g
                  = Some (Ok keep, g') /\
    guarded (if keep then F ++ [e] else F) g' /\
    (keep = false -> exists e' f, e' ∈ F /\ fingerprint e = inr f /\ fingerprint e' = inr f).
Proof.
  intros (cap & ttl & w & Hcap & Hg & Hw) [f Hf].
  destruct (Idempotency.should_process_refines ahash cap ttl
    (Datatypes.S (length (Idempotency.order g))) now e g w Hg Hcap ltac:(lia)) as (g' & E & Hg').
  assert (Hk : exists keep, fst (Idempotency.window_step ahash cap ttl now e w) = Ok keep /\
    (keep = false -> f ∈ map fst w)).
  { unfold Idempotency.window_step. cbv zeta. destruct (negb _); [by exists true|]. rewrite Hf.
    case_bool_decide as Hin; [|by exists true]. exists false. split; [done|]. intros _.
    apply list_elem_of_fmap in Hin as (y & -> & Hy). apply list_elem_of_fmap. exists y.
    split; [done|]. by eapply Idempotency.expire_in. }
  destruct Hk as (keep & Ek & Hseen). rewrite Ek in E. exists keep, g'. split_and!; [done| |].
  - exists cap, ttl, (snd (Idempotency.window_step ahash cap ttl now e w)). split_and!; [done..|].
    intros x [Hx|[Hx Hok]]%window_seen.
    + destruct (Hw x Hx) as (e' & He' & Hfe). exists e'. split; [|done].
      destruct keep; [apply elem_of_app; by left|done].
    + rewrite Ek in Hok. simplify_eq. exists e. split; [apply elem_of_app; right; by left|done].
  - intros ->. destruct (Hw f (Hseen eq_refl)) as (e' & He' & Hfe). by exists e', f.
Qed.

(** A run of the log from position [n] enters, but for the events that entered before. *)
Lemma guard_run es n clock g F W out d :
  Forall2 at_position es (seq n (length es)) -> Forall2 at_position F W ->
  closed b0 W -> covered b0 W n -> guarded F g ->
  exists out' V d' g', guard_batch ahash clock es g out d = (Ok (out ++ out')%list, d', g') /\
    Forall2 at_position out' V /\ closed b0 (W ++ V) /\ covered b0 (W ++ V) (n + length es) /\
    guarded (F ++ out') g' /\ out' `sublist_of` es.
Proof.
  revert n clock g F W out d. induction es as [|e es IH]; intros n clock g F W out d; simpl.
  { intros _ HF Hw Hn Hg. exists [], [], d, g. rewrite !app_nil_r, Nat.add_0_r. done. }
  intros [He Hes]%Forall2_cons HF Hw Hn Hg.
  destruct (guard_event F g (clock O) e Hg) as (keep & g1 & -> & Hg1 & Hdup); [by eapply log_identified|].
  destruct keep.
  - destruct (IH (Datatypes.S n) (clock ∘ Datatypes.S) g1 (F ++ [e])%list (W ++ [n]) (out ++ [e])%list d)
      as (out' & V & d' & g' & E & HV & Hc & Hcov & Hg' & Hsub); try done.
    + apply Forall2_app; [done|]. by constructor.
    + by apply closed_snoc.
    + apply covered_succ; [by apply covered_app|]. apply elem_of_app. right. by left.
    + exists (e :: out'), (n :: V), d', g'. rewrite E. rewrite <-!app_assoc in *. simpl in *.
      split_and!; try done; [by constructor| |by apply sublist_skip].
      by rewrite Nat.add_succ_r.
  - destruct (Hdup eq_refl) as (e' & f & He' & Hf & Hf').
    assert (Hin : n ∈ W).
    { apply list_elem_of_lookup in He' as [k Hk].
      destruct (Forall2_lookup_l _ _ _ _ _ HF Hk) as (p & Hp & Hpe).
      rewrite (log_distinct n p e e' f) by done. by eapply list_elem_of_lookup_2. }
    destruct (IH (Datatypes.S n) (clock ∘ Datatypes.S) g1 F W out (saturating_add d 1))
      as (out' & V & d' & g' & E & HV & Hc & Hcov & Hg' & Hsub); try done; [by apply covered_succ|].
    exists out', V, d', g'. rewrite E. split_and!; try done; [by rewrite Nat.add_succ_r|by apply sublist_cons].
Qed.

(** *** The invariant *)

Variables (base : Z) (o0 : DynOffset).

(** The store holds the last offset saved, or the one the run started from. *)
Definition synced (j : Journal C) : Prop :=
  saved (store j) = Some (default o0 (fst <$> last (CheckpointApi.log j))).

(** [F] entered the runtime, at the positions [W] of the log; [K] is committed. *)
Record entered (F : list Event) (W : list nat) (K' : list Event) (L : Barrier.Ledger) (r : R)
    : Prop := {
  e_state : state r = Running;
  e_core : inv cfg base F K' L (pending_source_events (core r)) (core r);
  e_injected : injected_events (core r) = [];
  e_pos : Forall2 at_position F W;
  e_closed : closed b0 W;
  e_store : synced (checkpoint (core r));
  e_guard : from_option (guarded F) True (idempotency_guard r);
  e_pipeline : Transforms.transforms (Transforms.transform_pipeline (transforms r)) = [];
  e_commands : commands (control r) = [];
}.

(** The stream has not passed an event that did not enter. *)
Definition streaming (W : list nat) (r : R) : Prop :=
  forall i, stream (core r) = Some i -> covered b0 W (cursor i).

Lemma record_ok es (r : R) : exists h,
  record_schema_change_events es r =
    (Ok tt, with_stages (transforms r) (idempotency_guard r) h (total_events_deduplicated r) r).
Proof.
  unfold record_schema_change_events. revert r. induction es as [|e es IH]; intros r; simpl.
  { exists (schema_history r). by destruct r. }
  assert (Hstep : exists h, (match schema_event_of e with
      | None => mret tt
      | Some d =>
          recorded ← try (on_history (record_ddl (Event.offset (Event.source e)) d));
          match recorded with
          | inr _ => retain_history
          | inl (SchemaError _) => mret tt
          | inl error => throw error
          end
      end) r = (Ok tt, with_stages (transforms r) (idempotency_guard r) h (total_events_deduplicated r) r)).
  { destruct (schema_event_of e) as [d|]; [|exists (schema_history r); by destruct r].
    pose proof (record_works (Event.offset (Event.source e)) d (schema_history r)) as Hr.
    rewrite bind_eq. unfold try, on_history at 1.
    destruct (record_ddl _ d (schema_history r)) as [res h]; simpl in Hr.
    destruct Hr as [[v ->]|[m ->]]; [|by exists h]. unfold retain_history. rewrite bind_eq. unfold gets.
    cbn [settings with_stages]. destruct (schema_history_retention (settings r)) as [n|]; [|by exists h].
    rewrite bind_eq. unfold on_history. cbn [schema_history with_stages].
    pose proof (retain_works n h) as [v' Hv]. destruct (apply_retention n h) as [res h']. simpl in Hv.
    subst res. by exists h'. }
  destruct Hstep as [h Hh]. rewrite (bind_ok _ _ _ _ _ Hh).
  destruct (IH (with_stages (transforms r) (idempotency_guard r) h (total_events_deduplicated r) r))
    as [h' ->]. by exists h'.
Qed.

Lemma core_same (r : R) :
  with_core (with_stream (stream (core r)) (pending_confirmation_lsn (core r))
               (unconfirmed_stall_polls (core r)) (core r)) r = r.
Proof. by destruct r as [[]]. Qed.

(** What the guard lets through, and the state it leaves. *)
Lemma filter_ok clock es n F W (r : R) :
  Forall2 at_position es (seq n (length es)) -> Forall2 at_position F W ->
  closed b0 W -> covered b0 W n -> from_option (guarded F) True (idempotency_guard r) ->
  exists res out V g d lsn stall,
    filter_idempotent_events ahash clock es r =
      (res, with_core (with_stream (stream (core r)) lsn stall (core r))
              (with_stages (transforms r) g (schema_history r) d r)) /\
    (res = Ok out \/ (exists x, res = Err x) /\ out = []) /\
    Forall2 at_position out V /\ closed b0 (W ++ V) /\ covered b0 (W ++ V) (n + length es) /\
    from_option (guarded (F ++ out)) True g /\ (length out <= length es)%nat.
Proof.
  intros Hes HF Hw Hn Hg. unfold filter_idempotent_events.
  destruct (idempotency_guard r) as [g|] eqn:Eg.
  - destruct (guard_run es n clock g F W [] (total_events_deduplicated r)) as
      (out & V & d & g' & E & HV & Hc & Hcov & Hg' & Hsub); [done..|].
    rewrite E. apply sublist_length in Hsub. simpl.
    assert (Hrest : Forall2 at_position out V /\ closed b0 (W ++ V) /\
      covered b0 (W ++ V) (n + length es) /\ from_option (guarded (F ++ out)) True (Some g') /\
      (length out <= length es)%nat) by done.
    destruct es as [|e es], out as [|x out], (pending_confirmation_lsn (core r)) as [lsn|] eqn:El;
      cbn [core with_stages with_core]; rewrite ?El; try case_match.
    all: eexists _, _, V, (Some g'), d, _, _; split; [|split; [|exact Hrest]].
    all: match goal with |- _ \/ _ => idtac | _ => first [reflexivity
      | exact (f_equal (pair _) (eq_sym (core_same (with_stages (transforms r) (Some g') (schema_history r) d r))))] end.
    all: eauto.
  - exists (Ok es), es, (seq n (length es)), None, (total_events_deduplicated r),
      (pending_confirmation_lsn (core r)), (unconfirmed_stall_polls (core r)).
    destruct (closed_seq b0 (length es) W n Hw Hn). split_and!; try done; [|by left].
    f_equal. rewrite <-Eg. destruct r as [[]]. reflexivity.
Qed.

Hypothesis buffer_nonzero : (0 < max_buffer_size (options cfg))%nat.

(** The queues move; the store, the injected events and the handles do not. *)
Lemma core_frame (m : M (CdcRuntime (Journal C) SN I) EventBatch) c :
  (forall P : CdcRuntime (Journal C) SN I -> Prop,
     (forall src buf r, P r -> P (with_queues src buf r)) ->
     (forall b r, P r -> P (with_barrier b (checkpoint r) r)) ->
     (forall now, keeps P (deliver_buffered_batch now)) -> keeps P m) ->
  injected_events (snd (m c)) = injected_events c /\ checkpoint (snd (m c)) = checkpoint c.
Proof.
  intros Hm. apply (Hm (fun c' => injected_events c' = injected_events c /\ checkpoint c' = checkpoint c));
    [done..| |done].
  intros now r Hr. unfold deliver_buffered_batch. by destruct (take _ _).
Qed.

Lemma flush_frame now es (c : CdcRuntime (Journal C) SN I) :
  let c' := snd ((enqueue_pending_source_events es;; flush_pending_source_events now) c) in
  injected_events c' = injected_events c /\ checkpoint c' = checkpoint c.
Proof.
  apply core_frame. intros P Hq Hb Hd. apply keeps_bind; [by apply frame_enqueue|].
  intros _. by apply frame_flush.
Qed.

Lemma on_core_bind {A B} (m : M (CdcRuntime (Journal C) SN I) A) (k : M (CdcRuntime (Journal C) SN I) B) (r : R) :
  (on_core m;; on_core k) r = on_core (m;; k) r.
Proof.
  rewrite bind_eq. unfold on_core. rewrite bind_eq. by destruct (m (core r)) as [[] ?].
Qed.

(** A batch of the log, from the stages to a delivery. *)
Lemma ingest_ok now clock es n F W K' L (r : R) :
  entered F W K' L r -> Forall2 at_position es (seq n (length es)) -> covered b0 W n ->
  pending_delivery (core r) = None -> buffered_events (core r) = [] ->
  exists res out V L' r', ingest ahash now clock es r = (res, r') /\ res <> Panic /\
    entered (F ++ out) (W ++ V) K' L' r' /\ covered b0 (W ++ V) (n + length es) /\
    stream (core r') = stream (core r) /\ (length out <= length es)%nat /\
    in_flight (core r') = match res with Ok b => batch_events b | _ => [] end.
Proof.
  intros [Hst Hcore Hinj Hpos Hcl Hsync Hg Hpipe Hcmd] Hes Hn Hnone Hbuf.
  unfold ingest. destruct (record_ok es r) as [h Eh]. rewrite (bind_ok _ _ _ _ _ Eh).
  set (r1 := with_stages _ _ h _ r).
  destruct (filter_ok clock es n F W r1 Hes Hpos Hcl Hn Hg) as
    (res & out & V & g & d & lsn & stall & Ef & Hres & HV & Hcl' & Hcov & Hg' & Hlen).
  rewrite bind_eq, Ef. set (c1 := with_stream _ lsn stall _).
  assert (Hacc : Forall (acceptable (C := C) (SN := SN) (I := I) cfg) out).
  { apply Forall_lookup. intros k e Hk. destruct (Forall2_lookup_l _ _ _ _ _ HV Hk) as (p & _ & Hp).
    by eapply Forall_lookup_1. }
  assert (Hc1 : inv cfg base F K' L (pending_source_events c1) c1).
  { pose proof (inv_stream cfg base F K' L _ _ (stream (core r)) lsn stall [] Hcore
      (Forall_nil_2 _)) as Hi. by rewrite !app_nil_r in Hi. }
  destruct Hres as [->|[[x ->] ->]].
  2: { exists (Err x), [], V, L. eexists. split; [reflexivity|]. rewrite app_nil_r in *.
       apply Forall2_nil_inv_l in HV as ->. rewrite !app_nil_r in *.
       split_and!; try done; first [by split|unfold in_flight; simpl; by rewrite Hnone]. }
  rewrite bind_eq. unfold run_transforms, Transforms.apply_transforms.
  cbn [transforms with_core with_stages]. unfold r1 at 1. cbn [transforms with_stages]. rewrite Hpipe.
  rewrite on_core_bind.
  destruct (enqueue_flush_inv cfg buffer_nonzero _ _ _ _ now out c1 Hc1 Hacc) as
    (b & L' & c' & E & Hi' & Hb & Hs & Hbuf'); [done..|].
  pose proof (flush_frame now out c1) as [Hinj' Hcp']. rewrite E in Hinj', Hcp'. simpl in Hinj', Hcp'.
  unfold on_core. cbn [core with_core with_stages]. fold c1. rewrite E.
  exists (Ok b), out, V, L'. eexists. split; [reflexivity|].
  split_and!; try done.
  split; simpl; try done; [congruence|by apply Forall2_app|by rewrite Hcp'].
Qed.

(** *** Restarting *)

Hypothesis start_index : (resume_index o0 <= b0)%nat.

(** The store is past committed events only. *)
Lemma saved_covered F W K' L (r : R) o :
  entered F W K' L r -> saved (store (checkpoint (core r))) = Some o ->
  covered b0 (take (length K') W) (resume_index o).
Proof.
  intros [_ Hi _ Hpos Hcl Hsync _ _ _] Ho. unfold synced in Hsync. rewrite Hsync in Ho.
  pose proof (Barrier.lr_durable _ _ _ _ (inv_ledger _ _ _ _ _ _ _ Hi)) as Hd. rewrite Hd in Ho.
  destruct (Barrier.last_some _) as [d|] eqn:El; simplify_eq/=; [|intros q ?; lia].
  apply last_some_lookup in El as [k Hk].
  pose proof (inv_committed _ _ _ _ _ _ _ Hi) as Hcm. rewrite Hcm in Hk.
  apply lookup_take_Some in Hk as [Hk Hlt].
  destruct (Forall2_lookup_r _ _ _ _ _ (inv_records _ _ _ _ _ _ _ Hi) Hk) as (e & He & Hreg).
  assert (HeF : F !! k = Some e).
  { rewrite (inv_flow _ _ _ _ _ _ _ Hi). rewrite lookup_app_l in He |- * by done. done. }
  destruct (Forall2_lookup_l _ _ _ _ _ Hpos HeF) as (p & Hp & Hpe).
  destruct (Hreg (log_rows _ _ Hpe)) as (c & d' & Hc & Hb & [= <-]).
  pose proof (offsets_resume c p e o Hc Hpe Hb) as Hr.
  pose proof (closed_covered b0 W k p Hcl Hp) as Hcov.
  intros q Hq. assert (Hin : q ∈ take (Datatypes.S k) W) by (apply Hcov; lia).
  eapply subseteq_take; [done|lia].
Qed.

(** Between deliveries. *)
Record idle F W K' L st (r : R) : Prop := {
  i_entered : entered F W K' L r;
  i_streaming : streaming W r;
  i_none : pending_delivery (core r) = None;
  i_buffered : buffered_events (core r) = [];
  i_settings : settings r = st;
}.

Section Restart.
Variables (F : list Event) (W : list nat) (K' : list Event) (L : Barrier.Ledger) (st : Settings).
Abbreviation Idle := (idle F W K' L st).

Lemma idle_source {A} (m : M (RuntimeSource S) A) : keeps Idle (on_source m).
Proof. intros r [[] ? ? ? ?]. unfold on_source. destruct (m (source r)). by split; [split|..]. Qed.
Lemma idle_close : keeps Idle close_source.
Proof. intros r [[] ? ? ? ?]. by split; [split|..]. Qed.
Lemma idle_sleep ms : keeps Idle (sleep ms).
Proof. intros r [[] ? ? ? ?]. by split; [split|..]. Qed.
Lemma idle_no_stream : keeps Idle (set_stream None).
Proof. intros r [[? [] ? ? ? ? ? ? ?] ? ? ? ?]. by split; [split; [|split|..]|..]. Qed.
Lemma idle_stream i : covered b0 W (cursor i) -> keeps Idle (set_stream (Some i)).
Proof.
  intros Hi r [[? [] ? ? ? ? ? ? ?] ? ? ? ?]. split; [split; [|split|..]|..]; try done.
  by intros i' [= <-].
Qed.

(** Loading gives the position the store holds. *)
Lemma idle_load : hoare Idle (on_store load)
  (fun res r => res <> Panic /\ Idle r /\
     forall o, res = Ok o -> exists o', o = Some o' /\ covered b0 W (resume_index o')).
Proof.
  intros r Hr. pose proof Hr as [[Hst Hi Hinj Hpos Hcl Hsync Hg Hp Hc] Hs Hn Hb Hset]. unfold on_store.
  cbn [load Journal_Checkpoint]. destruct (load (store (checkpoint (core r)))) as [res c] eqn:El. simpl.
  assert (Hsaved : saved c = saved (store (checkpoint (core r)))).
  { pose proof (load_calm (store (checkpoint (core r)))) as Hcalm. rewrite El in Hcalm.
    destruct res; [by apply load_ok in El as []|by apply load_err in El|done]. }
  split_and!; [by pose proof (load_calm (store (checkpoint (core r)))); rewrite El in *| |].
  - split; [split|..]; try done; [|unfold synced in *; simpl; by rewrite Hsaved].
    destruct Hi as [? ? ? ? Hl ? ? ? ? ? ?]. split; try done. destruct Hl. by split.
  - intros o ->. apply load_ok in El as [-> _]. unfold synced in Hsync. rewrite Hsync.
    eexists. split; [done|]. intros q Hq. apply (saved_covered F W K' L r _ (i_entered _ _ _ _ _ _ Hr) Hsync) in Hq.
    by apply elem_of_take in Hq as (? & ?%list_elem_of_lookup_2 & _).
Qed.

Lemma dispatch_calm {A} (m : M S A) src : (forall s, fst (m s) <> Panic) -> fst (dispatch m src) <> Panic.
Proof. intros Hm. destruct src as [s| |s]; simpl; try done; specialize (Hm s); by destruct (m s). Qed.

(** A resumed stream begins at that position or before it. *)
Lemma idle_resume o : covered b0 W (resume_index o) ->
  hoare Idle (resume_stream_after_reconnect (Some o))
    (fun res r => res <> Panic /\ Idle r /\ forall i, res = Ok i -> covered b0 W (cursor i)).
Proof.
  intros Ho r Hr.
  assert (Hm : forall m : M (RuntimeSource S) I, (forall src, fst (m src) <> Panic) ->
    (forall src i, fst (m src) = Ok i -> (cursor i <= resume_index o)%nat) ->
    let '(res, r') := on_source m r in
    res <> Panic /\ Idle r' /\ forall i, res = Ok i -> covered b0 W (cursor i)).
  { intros m Hcalm Hat. pose proof (idle_source m r Hr) as Hr'. unfold on_source in *.
    specialize (Hcalm (source r)). specialize (Hat (source r)). destruct (m (source r)) as [res src].
    split_and!; [done..|]. intros i ->. intros q Hq. apply Ho. specialize (Hat i eq_refl). lia. }
  unfold resume_stream_after_reconnect. rewrite bind_eq. unfold gets, id. cbv beta iota.
  destruct (incremental_snapshot (config (core r))).
  - specialize (Hm (source_start_incremental (incremental_config (settings r)) (Some o))).
    destruct (on_source _ r) as [res r']. apply Hm.
    + intros [s| |s]; try done. apply (dispatch_calm _ (Connector s)), incremental_calm.
    + intros [s| |s] i; simpl; try done.
      destruct (start_incremental_snapshot _ _ s) as [[]] eqn:E; simpl; intros [= ->].
      by eapply incremental_at.
  - specialize (Hm (dispatch (start_stream (Some o)))).
    destruct (on_source _ r) as [res r']. apply Hm.
    + intros src. apply dispatch_calm, stream_calm.
    + intros [s| |s] i; simpl; try done.
      all: destruct (start_stream _ s) as [[]] eqn:E; simpl; intros [= ->]; by eapply stream_at.
Qed.

(** [hoare] for a caught error. *)
Lemma hoare_try {A} (P : R -> Prop) (m : M R A) (Q : Res A -> R -> Prop) :
  hoare P m (fun res r => res <> Panic /\ Q res r) ->
  hoare P (try m) (fun res r => exists x, res = Ok x /\
    Q (match x with inl e => Err e | inr a => Ok a end) r).
Proof.
  intros Hm r Hr. specialize (Hm r Hr). unfold try.
  destruct (m r) as [[a|e|] r']; simpl in *; destruct Hm as [Hnp HQ]; [by eexists|by eexists|done].
Qed.

Definition outcome_ok {A} (res : Res A) (r : R) : Prop := res <> Panic /\ Idle r.

Lemma idle_restart refusal : hoare Idle (restart_stream refusal) outcome_ok.
Proof.
  unfold restart_stream.
  eapply hoare_bind with (R := fun _ => Idle); [intros r Hr; by apply idle_close|intros _].
  eapply hoare_bind with (R := fun _ => Idle).
  { eapply hoare_weaken; [apply (hoare_try Idle _ (fun _ => Idle))|done|].
    - intros r Hr. split; [|by apply idle_source]. unfold on_source.
      pose proof (dispatch_calm connect (source r) connect_calm) as Hc.
      by destruct (dispatch connect (source r)).
    - intros res r (x & -> & HI). done. }
  intros [e|u]; [by intros r Hr|].
  eapply hoare_bind with (R := fun o r => Idle r /\ exists o', o = Some o' /\ covered b0 W (resume_index o')).
  { intros r Hr. pose proof (idle_load r Hr) as Hl. unfold map_err.
    destruct (on_store load r) as [[o|e|] r1]; simpl in *; destruct Hl as (Hnp & HI & Ho); [|done..].
    split; [done|]. by apply Ho. }
  intros o. intros r [HI (o' & -> & Ho)]. revert r HI.
  eapply hoare_bind with (R := fun x r => Idle r /\ forall i, x = inr i -> covered b0 W (cursor i)).
  { eapply hoare_weaken; [apply hoare_try, (idle_resume o' Ho)|done|].
    intros res r (x & -> & HI & Hx). split; [done|]. intros i ->. by apply Hx. }
  intros [e|i]; [by intros r []|]. intros r [HI Hi].
  by pose proof (idle_stream i (Hi i eq_refl) r HI).
Qed.

(** The stream handed out [es], which has not entered yet. *)
Record received (es : list Event) (r : R) : Prop := {
  v_entered : entered F W K' L r;
  v_none : pending_delivery (core r) = None;
  v_buffered : buffered_events (core r) = [];
  v_settings : settings r = st;
  v_read : exists i n, stream (core r) = Some i /\ covered b0 W n /\
    Forall2 at_position es (seq n (length es)) /\ cursor i = (n + length es)%nat;
}.

Lemma read_positions t i es i' : Driver.next_events t i = (Ok es, i') ->
  Forall2 at_position es (seq (cursor i) (length es)) /\ cursor i' = (cursor i + length es)%nat.
Proof.
  intros [Ees ->]%next_reads. split; [|done].
  apply Forall2_same_length_lookup_2; [by rewrite length_seq|].
  intros k e p He [-> Hlt]%lookup_seq. rewrite Ees in He.
  apply lookup_take_Some in He as [He _]. by rewrite lookup_drop in He.
Qed.

Lemma idle_next absent t : hoare Idle (on_stream absent (Driver.next_events t))
  (fun res r => res <> Panic /\ match res with Ok es => received es r | _ => Idle r end).
Proof.
  intros r Hr. unfold on_stream. destruct (stream (core r)) as [i|] eqn:Es; [|done].
  pose proof Hr as [[Hst Hi Hinj Hpos Hcl Hsync Hg Hp Hc] Hs Hn Hb Hset].
  assert (He : forall i', entered F W K' L (with_core (with_handles (snapshot (core r)) (Some i') (core r)) r)).
  { intros i'. split; try done. destruct Hi. by split. }
  pose proof (next_calm t i) as Hcalm.
  destruct (Driver.next_events t i) as [[es|e|] i'] eqn:En; [| |done]; simpl; (split; [done|]).
  - apply read_positions in En as [Hes Hcur].
    split; try done. exists i', (cursor i). split_and!; try done. by apply Hs.
  - split; try done. intros i0 [= <-]. rewrite (next_fails _ _ _ _ En). by apply Hs.
Qed.

Definition polled {A} (f : A -> option (list Event)) (res : Res A) (r : R) : Prop :=
  res <> Panic /\
  match res with Ok a => from_option (fun es => received es r) (Idle r) (f a) | _ => Idle r end.

Lemma idle_round p a d : hoare Idle (retry_round p a d)
  (polled (fun x => match x with Received es => Some es | Again _ _ => None end)).
Proof.
  unfold retry_round.
  eapply hoare_bind with (R := fun _ => Idle); [by intros r Hr|intros have].
  eapply hoare_bind with (R := fun _ => Idle).
  { destruct have; [by intros r Hr|]. intros r Hr. pose proof (idle_restart
      "failed loading checkpoint while resuming the stream after reconnect" r Hr) as [Hnp HI].
    by destruct (restart_stream _ r) as [[] ?]. }
  intros [f|].
  - destruct (exhausted p a); [by intros r Hr|].
    intros r Hr. by pose proof (idle_sleep d r Hr).
  - eapply hoare_bind with (R := fun _ => Idle); [by intros r Hr|intros wait].
    eapply hoare_bind with (R := fun x r => match x with inr es => received es r | inl _ => Idle r end).
    { eapply hoare_weaken; [apply hoare_try, (idle_next no_active_stream wait)|done|].
      by intros res r ([e|es] & -> & Hx). }
    intros [e|es]; [|by intros r Hr]. case_match; [by intros r Hr|].
    eapply hoare_bind with (R := fun _ => Idle); [intros r Hr; by apply idle_no_stream|intros _].
    eapply hoare_bind with (R := fun _ => Idle); [intros r Hr; by apply idle_sleep|intros _].
    eapply hoare_bind with (R := fun _ => Idle); [|by intros _ r Hr].
    intros r Hr. pose proof (idle_restart
      "failed loading checkpoint while resuming the stream after a recoverable source error" r Hr) as [Hnp HI].
    by destruct (restart_stream _ r) as [[] ?].
Qed.

Lemma idle_loop fuel p a d : hoare Idle (retry_loop fuel p a d) (polled id).
Proof.
  revert a d. induction fuel as [|fuel IH]; intros a d; [by intros r Hr|]. cbn [retry_loop].
  eapply hoare_bind with
    (R := fun x r => match x with Received es => received es r | Again _ _ => Idle r end).
  { eapply hoare_weaken; [apply idle_round|done|].
    intros [[]|e|] r [Hnp Hx]; try done. }
  intros [es|a' d']; [by intros r Hr|apply IH].
Qed.

End Restart.

(** *** Polling *)

(** After a poll: what the stream read has entered, and the batch is what is in flight. *)
Definition advanced F W K' (res : Res (option EventBatch)) (r : R) : Prop :=
  res <> Panic /\ exists out V L, entered (F ++ out) (W ++ V) K' L r /\ streaming (W ++ V) r /\
    (length out <= length log)%nat /\
    in_flight (core r) = match res with Ok (Some b) => batch_events b | _ => [] end.

Lemma advanced_nil F W K' L res (r : R) : res <> Panic -> entered F W K' L r -> streaming W r ->
  in_flight (core r) = match res with Ok (Some b) => batch_events b | _ => [] end ->
  advanced F W K' res r.
Proof.
  intros Hnp He Hs Hb. split; [done|]. exists [], [], L. rewrite !app_nil_r. split_and!; [done..| |done].
  simpl. lia.
Qed.

Lemma idle_advanced F W K' L st res (r : R) : idle F W K' L st r -> res <> Panic ->
  (forall b, res = Ok (Some b) -> b = empty_batch) -> advanced F W K' res r.
Proof.
  intros [He Hs Hn _ _] Hnp Hb. eapply advanced_nil; [done..|]. unfold in_flight. rewrite Hn.
  destruct res as [[b|]| |]; try done. by rewrite (Hb b eq_refl).
Qed.

Lemma received_length es n : Forall2 at_position es (seq n (length es)) -> (length es <= length log)%nat.
Proof.
  intros Hes. destruct es as [|e es] using rev_ind; [simpl; lia|].
  rewrite length_app in *. simpl in *. rewrite seq_app in Hes. simpl in Hes.
  apply Forall2_app_inv in Hes as [_ Hlast]; [|by rewrite length_seq].
  apply Forall2_cons in Hlast as [Hp _]. apply lookup_lt_Some in Hp. lia.
Qed.

Lemma poll_stream_ok fuel now clock F W K' L (r : R) :
  idle F W K' L (settings r) r ->
  advanced F W K' (fst (poll_stream ahash fuel now clock r)) (snd (poll_stream ahash fuel now clock r)).
Proof.
  intros Hr. unfold poll_stream. destruct (stream (core r)) as [i|].
  2: { eapply idle_advanced; [done|done|]. by intros b [= <-]. }
  match goal with |- context [(?m ≫= ?k) r] => set (poll_it := m) end.
  assert (Hpoll : hoare (idle F W K' L (settings r)) poll_it (polled F W K' L (settings r) id)).
  { unfold poll_it. destruct (connection_retry (settings r)) as [p|]; [apply idle_loop|].
    intros r0 Hr0. pose proof (idle_next F W K' L (settings r) no_active_stream
      (max_poll_wait_ms (settings r)) r0 Hr0) as Hx.
    unfold fmap, M_fmap. destruct (on_stream _ _ r0) as [[] ?]; destruct Hx; by split. }
  specialize (Hpoll r Hr). rewrite bind_eq. destruct (poll_it r) as [[[es|]|e|] r1]; simpl in Hpoll;
    destruct Hpoll as [Hnp Hx]; simpl in Hx; [|eapply idle_advanced; [exact Hx|done..]..|done].
  destruct Hx as [He Hnone Hbuf Hset (i' & n & Hi' & Hcov & Hes & Hcur)].
  destruct es as [|e es].
  { eapply idle_advanced; [split; try done| |]; [|done|by intros b [= <-]].
    intros j Hj. simpl in Hj, Hcur. rewrite Hi' in Hj. injection Hj as <-. by rewrite Hcur, Nat.add_0_r. }
  destruct (ingest_ok now clock (e :: es) n F W K' L r1 He Hes Hcov Hnone Hbuf) as
    (res & out & V & L' & r' & E & Hnp' & He' & Hcov' & Hs' & Hlen & Hb).
  unfold fmap, M_fmap. rewrite E. apply received_length in Hes.
  assert (Hstr : streaming (W ++ V) r').
  { intros j Hj. rewrite Hs', Hi' in Hj. injection Hj as <-. by rewrite Hcur. }
  destruct res as [b|x|]; [| |done]; (split; [done|]); exists out, V, L'; split_and!; try done; try lia.
Qed.

Lemma retry_ok (c : CdcRuntime (Journal C) SN I) : exists i lsn stall,
  retry_pending_confirmation c = (Ok tt, with_stream i lsn stall c) /\
  forall j, i = Some j -> exists j0, stream c = Some j0 /\ cursor j = cursor j0.
Proof.
  assert (Hid : with_stream (stream c) (pending_confirmation_lsn c) (unconfirmed_stall_polls c) c = c)
    by by destruct c.
  assert (Hstay : exists i lsn stall, (@Ok unit tt, c) = (Ok tt, with_stream i lsn stall c) /\
    forall j, i = Some j -> exists j0, stream c = Some j0 /\ cursor j = cursor j0).
  { exists (stream c), (pending_confirmation_lsn c), (unconfirmed_stall_polls c). rewrite Hid. eauto. }
  unfold retry_pending_confirmation. destruct (pending_confirmation_lsn c) as [lsn|]; [|done].
  destruct (stream c) as [i|]; [|done].
  pose proof (confirms_calm lsn i) as Hc. pose proof (confirm_stays lsn i) as Hs.
  destruct (Driver.confirm_lsn lsn i) as [[] i']; simpl in *; [| |done].
  all: eexists (Some i'), _, _; split; [done|]; intros j [= <-]; eauto.
Qed.

(** A stream that confirmed a position. *)
Lemma entered_stream F W K' L (r : R) i lsn stall :
  entered F W K' L r -> entered F W K' L (with_core (with_stream i lsn stall (core r)) r).
Proof. intros [? Hi ? ? ? ? ? ? ?]. split; try done. destruct Hi. by split. Qed.

(** A core operation that moved events towards the consumer. *)
Lemma entered_core F W K' L L' c (r : R) :
  entered F W K' L r -> inv cfg base F K' L' (pending_source_events c) c ->
  injected_events c = injected_events (core r) -> checkpoint c = checkpoint (core r) ->
  entered F W K' L' (with_core c r).
Proof.
  intros [? ? Hinj ? ? ? ? ? ?] Hi Hj Hc. split; try done; simpl; [by rewrite Hj|by rewrite Hc].
Qed.

Lemma poll_ok fuel now clock F W K' L (r : R) :
  entered F W K' L r -> streaming W r ->
  advanced F W K' (fst (poll_event_batch ahash fuel now clock r))
    (snd (poll_event_batch ahash fuel now clock r)).
Proof.
  intros He Hs. unfold poll_event_batch. rewrite (e_state _ _ _ _ _ He).
  rewrite bind_gets. unfold current_pending_batch.
  destruct (pending_delivery (core r)) as [p|] eqn:Ep.
  { pose proof (inv_pending _ _ _ _ _ _ _ (e_core _ _ _ _ _ He) p Ep). rewrite usize_sub_le by lia.
    rewrite bind_of_res. cbn [res_bind].
    eapply advanced_nil; [done|exact He|exact Hs|]. unfold in_flight. simpl. by rewrite Ep. }
  rewrite bind_of_res. cbv iota.
  destruct (service_ok r (e_commands _ _ _ _ _ He)) as (ctl & Eserv & Hctl).
  rewrite (bind_ok _ _ _ _ _ Eserv). set (r1 := with_sink _ ctl _ r).
  assert (He1 : entered F W K' L r1) by (destruct He; by split).
  destruct (retry_ok (core r1)) as (i & lsn & stall & Er & Hi).
  set (r2 := with_core (with_stream i lsn stall (core r1)) r1).
  assert (Er' : on_core retry_pending_confirmation r1 = (Ok tt, r2)) by (unfold on_core; by rewrite Er).
  rewrite (bind_ok _ _ _ _ _ Er').
  assert (He2 : entered F W K' L r2) by by apply entered_stream.
  assert (Hs2 : streaming W r2).
  { intros j (j0 & Hj0 & ->)%Hi. by apply Hs. }
  assert (Hnone2 : pending_delivery (core r2) = None) by done.
  revert Er'. clearbody r2. intros _. clear Hs He He1 Hi Ep Eserv Hctl Er ctl r1 i lsn stall r.
  rewrite bind_gets.
  destruct (buffered_events (core r2)) as [|e q] eqn:Eb.
  2: { destruct (deliver_inv cfg _ _ _ _ now _ (e_core _ _ _ _ _ He2) Hnone2) as (b & c & E & Hi & Hb & Hst & _).
       unfold fmap, M_fmap, on_core. rewrite E.
       pose proof (core_frame (deliver_buffered_batch now) (core r2)) as [Hj Hc]; [by intros P ? ? Hd|].
       rewrite E in Hj, Hc. eapply advanced_nil; [done|by eapply entered_core| |done].
       intros j Hj'. apply Hs2. by rewrite <-Hst. }
  rewrite bind_gets.
  assert (Hfirst : exists b L' r', (match pending_source_events (core r2) with
      | _ :: _ => on_core (flush_pending_source_events now) | [] => mret empty_batch end) r2 = (Ok b, r') /\
    entered F W K' L' r' /\ streaming W r' /\ batch_events b = in_flight (core r') /\
    buffered_events (core r') = []).
  { destruct (pending_source_events (core r2)) as [|e q] eqn:Eq.
    { exists empty_batch, L, r2. unfold in_flight. by rewrite Hnone2. }
    destruct (flush_inv cfg buffer_nonzero _ _ _ _ now _ (e_core _ _ _ _ _ He2) Hnone2 Eb)
      as (b & L' & c & E & Hi & Hb & Hst & Hb').
    pose proof (core_frame (flush_pending_source_events now) (core r2)) as [Hj Hc].
    { intros P ? ? ?. by apply frame_flush. }
    rewrite E in Hj, Hc. exists b, L'. eexists. unfold on_core. rewrite E. split; [reflexivity|].
    split_and!; try done; [by eapply entered_core|]. intros j Hj'. apply Hs2. by rewrite <-Hst. }
  destruct Hfirst as (b & L' & r3 & E & He3 & Hs3 & Hb3 & Hbuf3). rewrite (bind_ok _ _ _ _ _ E).
  destruct (batch_is_empty b) eqn:Ebe; simpl.
  2: { by eapply advanced_nil. }
  apply batch_empty_iff in Ebe. rewrite Hb3 in Ebe.
  unfold poll_injected. rewrite (e_injected _ _ _ _ _ He3).
  unfold poll_snapshot. rewrite (inv_snapshot _ _ _ _ _ _ _ (e_core _ _ _ _ _ He3)).
  apply (poll_stream_ok fuel now clock F W K' L').
  split; try done. by eapply in_flight_nil; [apply (e_core _ _ _ _ _ He3)|].
Qed.

(** *** Acknowledging *)

Lemma synced_save o n j : synced j -> synced (snd (save o n j)).
Proof.
  unfold synced. intros Hj. cbn [save Journal_Checkpoint]. unfold journal_save.
  pose proof (save_calm o n (store j)) as Hc.
  destruct (save o n (store j)) as [[[]|e|] c] eqn:E; simpl in *; [| |done].
  - rewrite last_snoc. simpl. by eapply save_ok.
  - by rewrite (save_err _ _ _ _ _ E).
Qed.

Lemma synced_accept n b j : synced j -> synced (snd (Barrier.accept_and_commit n b j)).
Proof.
  intros Hj. assert (Hc : forall b, synced (snd (Barrier.commit b j))).
  { intros b1. unfold Barrier.commit.
    destruct (Barrier.pending_records b1); [done|]. case_match; [done|]. case_match; [|done].
    destruct (Barrier.last_some _) as [o|]; [|done].
    pose proof (synced_save o z j Hj) as Hs. destruct (save o z j) as [[] j']; done. }
  unfold Barrier.accept_and_commit. destruct (Barrier.notify_consumer_accepted n b) as [[] b1]; [|done..].
  specialize (Hc b1). by destruct (Barrier.commit b1 j) as [[[] ?] ?].
Qed.

(** The handle may have confirmed a position. *)
Definition same_stream (c c' : CdcRuntime (Journal C) SN I) : Prop := forall i,
  stream c' = Some i -> exists i0, stream c = Some i0 /\ cursor i = cursor i0.

Lemma ack_frame now mode (c : CdcRuntime (Journal C) SN I) :
  snapshot c = None -> synced (checkpoint c) ->
  let c' := snd (commit_ack now mode c) in
  injected_events c' = injected_events c /\ same_stream c c' /\ synced (checkpoint c').
Proof.
  intros Hsn Hsy. set (P := fun c' : CdcRuntime (Journal C) SN I => snapshot c' = None /\
    injected_events c' = injected_events c /\ same_stream c c' /\ synced (checkpoint c')).
  assert (Hsettle : forall now n, keeps P (settle now n)).
  { intros n0 k c' Hc'. unfold settle. by destruct (usize_sub _ _). }
  assert (Hcommit : forall n, keeps P (on_commit (Barrier.accept_and_commit n))).
  { intros n c' (? & ? & ? & Hs). unfold on_commit. pose proof (synced_accept n (commit_barrier c') _ Hs).
    by destruct (Barrier.accept_and_commit n _ _) as [[] ?]. }
  assert (Hpersist : forall n, keeps P (persist_snapshot_checkpoint_before_commit n)).
  { intros n c' Hc'. unfold persist_snapshot_checkpoint_before_commit.
    destruct (negb _); [done|]. pose proof Hc' as [-> _]. by destruct (incremental_snapshot _). }
  assert (Hconfirm : forall lsn, keeps P (confirm_committed lsn)).
  { intros lsn c' Hc'. unfold confirm_committed. destruct lsn as [lsn|]; [|done].
    destruct (stream c') as [i|] eqn:Es; [|done]. pose proof (confirm_stays lsn i) as Hst.
    destruct Hc' as (? & ? & Hstr & ?).
    destruct (Driver.confirm_lsn lsn i) as [[] i']; (split_and!; try done); simpl in *.
    all: intros j [= <-]; rewrite Hst; by apply Hstr. }
  assert (Hprefix : forall n, keeps P (commit_prefix now n)).
  { intros n c' Hc'. unfold commit_prefix. destruct (n =? 0)%nat; [done|].
    match goal with |- context [snd ((?m ≫= ?k) c')] =>
      enough (Hk : keeps P (m ≫= k)) by exact (Hk c' Hc') end.
    monad_auto. case_match; monad_auto. repeat case_match; monad_auto. }
  assert (HP : P c) by (split_and!; try done; intros i Hi; by exists i).
  assert (Hack : P (snd (commit_ack now mode c))); [|by destruct Hack].
  unfold commit_ack. repeat case_match; try done. by apply Hprefix.
Qed.

Hypothesis base_nonneg : 0 <= base.

Lemma commit_ok now mode F W K' L (r : R) :
  entered F W K' L r -> streaming W r -> base + Z.of_nat (length F) < u64_modulus ->
  exists n L' res r', commit now mode r = (res, r') /\ res <> Panic /\
    entered F W (K' ++ take n (in_flight (core r))) L' r' /\ streaming W r' /\
    in_flight (core r') = drop n (in_flight (core r)).
Proof.
  intros He Hs Hlt. pose proof He as [Hst Hi Hinj Hpos Hcl Hsync Hg Hp Hc].
  destruct (ack_inv save_calm cfg buffer_nonzero base F K' L now mode (core r) base_nonneg Hlt Hi)
    as (n & L' & res & c & E & Hnp & Hi' & _ & Hfl).
  pose proof (ack_frame now mode (core r) (inv_snapshot _ _ _ _ _ _ _ Hi) Hsync) as (Hj & Hstr & Hsy).
  rewrite E in Hj, Hstr, Hsy. simpl in Hj, Hstr, Hsy.
  exists n, L', res. eexists. unfold commit, on_core. rewrite E. split; [reflexivity|].
  split_and!; try done; [split; try done; simpl; congruence|].
  intros i (i0 & Hi0 & ->)%Hstr. by apply Hs.
Qed.

(** *** Sessions *)

(** What the consumer was given, [D], has everything committed or in flight. *)
Definition given (D K' : list Event) (r : R) : Prop := K' ⊆ D /\ in_flight (core r) ⊆ D.

Lemma step_ok a F W K' L D (r : R) :
  entered F W K' L r -> streaming W r -> given D K' r -> base + Z.of_nat (length F) < u64_modulus ->
  let '(s, r1) := step ahash a r in
  panicked s = false /\ exists F1 W1 K1 L1, entered F1 W1 K1 L1 r1 /\ streaming W1 r1 /\
    given (D ++ shown s) K1 r1 /\ (length F1 <= length F + length log)%nat.
Proof.
  intros He Hs [HK Hf] Hlt. destruct a as [fuel now clock|now mode]; simpl.
  - destruct (poll_ok fuel now clock F W K' L r He Hs) as [Hnp (out & V & L' & He' & Hs' & Hlen & Hb)].
    destruct (poll_event_batch ahash fuel now clock r) as [res r1] eqn:E. simpl in *.
    split; [by destruct res|]. exists (F ++ out)%list, (W ++ V), K', L'. split_and!; try done.
    + split; [set_solver|]. rewrite Hb. destruct res as [[b|]|e|]; simpl; set_solver.
    + rewrite length_app. lia.
  - destruct (commit_ok now mode F W K' L r He Hs Hlt) as (n & L' & res & r1 & E & Hnp & He' & Hs' & Hfl).
    rewrite E. split; [by destruct res|]. eexists F, W, _, L'. split_and!; [done..| |lia].
    simpl. rewrite app_nil_r. split.
    + intros x [?|Hx]%elem_of_app; [set_solver|]. apply Hf. by apply elem_of_take in Hx as (? & ?%list_elem_of_lookup_2 & _).
    + rewrite Hfl. intros x Hx. apply Hf. rewrite <-(take_drop n). apply elem_of_app. by right.
Qed.

Lemma steps_ok l F W K' L D (r : R) :
  entered F W K' L r -> streaming W r -> given D K' r ->
  base + Z.of_nat (length F + length l * length log) < u64_modulus ->
  let '(ss, r1) := run ahash l r in
  Forall (fun s => panicked s = false) ss /\ exists F1 W1 K1 L1, entered F1 W1 K1 L1 r1 /\
    streaming W1 r1 /\ given (D ++ delivered_in ss) K1 r1.
Proof.
  revert F W K' L D r. induction l as [|a l IH]; intros F W K' L D r He Hs Hg Hlt; simpl in *.
  { split; [done|]. exists F, W, K', L. by rewrite app_nil_r. }
  pose proof (step_ok a F W K' L D r He Hs Hg ltac:(lia)) as Hstep.
  destruct (step ahash a r) as [s r1]. destruct Hstep as (Hp & F1 & W1 & K1 & L1 & He1 & Hs1 & Hg1 & Hl1).
  specialize (IH F1 W1 K1 L1 _ r1 He1 Hs1 Hg1 ltac:(lia)).
  destruct (run ahash l r1) as [ss r2]. destruct IH as (Hps & F2 & W2 & K2 & L2 & He2 & Hs2 & Hg2).
  split; [by constructor|]. exists F2, W2, K2, L2. split_and!; try done. unfold delivered_in in *. simpl. by rewrite app_assoc.
Qed.

(** *** Into a sink *)

Section Sink.
Context `{!Sinks.ReceiveLaws K} `{!SinkLaws K}.

Lemma send_all es k (r : R) : exists res k',
  for_each es (fun e => on_sink (Sinks.send e)) (k, r) = (res, (k', r)) /\ res <> Panic /\
  Sinks.received k `prefix_of` Sinks.received k' /\
  (res = Ok tt -> Sinks.received k' = (Sinks.received k ++ es)%list).
Proof.
  revert k. induction es as [|e es IH]; intros k; simpl.
  { exists (Ok tt), k. by rewrite app_nil_r. }
  rewrite bind_eq. unfold on_sink at 1. pose proof (send_calm e k) as Hc.
  destruct (Sinks.send e k) as [[[]|x|] k1] eqn:E; simpl in Hc; [| |done].
  - apply Sinks.send_ok in E. destruct (IH k1) as (res & k' & -> & Hnp & Hpre & Hok).
    exists res, k'. split_and!; try done; [etrans; [|done]; rewrite E; apply prefix_app_r; done|].
    intros ->%Hok. by rewrite E, <-app_assoc.
  - exists (Err x), k1. split_and!; try done. apply Sinks.send_err in E as [->| ->]; [done|].
    by apply prefix_app_r.
Qed.

(** What the sink has is a super-sequence of what is committed. *)
Lemma turn_ok retries now clock F W K' L k (r : R) :
  entered F W K' L r -> streaming W r -> K' `sublist_of` Sinks.received k ->
  base + Z.of_nat (length F + length log) < u64_modulus ->
  exists res k1 r1 F1 W1 K1 L1, sink_turn ahash retries now clock (k, r) = (res, (k1, r1)) /\
    res <> Panic /\ entered F1 W1 K1 L1 r1 /\ streaming W1 r1 /\
    K1 `sublist_of` Sinks.received k1 /\ (length F1 <= length F + length log)%nat.
Proof.
  intros He Hs HK Hlt. unfold sink_turn. rewrite bind_eq. unfold on_runtime at 1.
  destruct (poll_ok retries now clock F W K' L r He Hs) as [Hnp (out & V & L' & He' & Hs' & Hlen & Hb)].
  destruct (poll_event_batch ahash retries now clock r) as [res r1]. simpl in *.
  assert (Hstay : forall x : Res (option nat), x <> Panic -> exists res k1 r2 F1 W1 K1 L1, (x, (k, r1)) = (res, (k1, r2)) /\
    res <> Panic /\ entered F1 W1 K1 L1 r2 /\ streaming W1 r2 /\
    K1 `sublist_of` Sinks.received k1 /\ (length F1 <= length F + length log)%nat).
  { intros x Hx. exists x, k, r1, (F ++ out)%list, (W ++ V), K', L'. split_and!; try done.
    rewrite length_app. lia. }
  destruct res as [[b|]|x|]; [|by apply Hstay..|done].
  destruct (batch_is_empty b); [by apply Hstay|].
  destruct (send_all (batch_events b) k r1) as (res & k1 & Esend & Hnp1 & Hpre & Hok).
  rewrite bind_eq, Esend.
  assert (HK1 : K' `sublist_of` Sinks.received k1).
  { destruct Hpre as [x ->]. by apply sublist_inserts_r. }
  destruct res as [[]|x|]; [| |done].
  2: { exists (Err x), k1, r1, (F ++ out)%list, (W ++ V), K', L'. split_and!; try done.
       rewrite length_app. lia. }
  rewrite bind_eq. unfold on_sink at 1. pose proof (flush_calm k1) as Hfc.
  pose proof (flush_receives k1) as Hfr. destruct (Sinks.flush k1) as [[[]|x|] k2]; simpl in Hfc, Hfr; [| |done].
  2: { exists (Err x), k2, r1, (F ++ out)%list, (W ++ V), K', L'. rewrite Hfr. split_and!; try done.
       rewrite length_app. lia. }
  destruct (commit_ok now (ack_mode b) _ _ _ _ r1 He' Hs') as (n & L2 & res & r2 & Ec & Hnp2 & He2 & Hs2 & _).
  { rewrite length_app. lia. }
  rewrite bind_eq. unfold on_runtime. rewrite Ec.
  assert (HK2 : (K' ++ take n (in_flight (core r1)))%list `sublist_of` Sinks.received k2).
  { rewrite Hfr, (Hok eq_refl), Hb. apply sublist_app; [done|]. apply sublist_take. }
  destruct res as [[]|x|]; [| |done].
  all: eexists _, k2, r2, (F ++ out)%list, (W ++ V), _, L2; split_and!; try done; rewrite length_app; lia.
Qed.

Lemma loop_ok turns retries delivered F W K' L k (r : R) :
  entered F W K' L r -> streaming W r -> K' `sublist_of` Sinks.received k ->
  base + Z.of_nat (length F + length turns * length log) < u64_modulus ->
  exists res k1 r1 F1 W1 K1 L1, run_sink_loop ahash turns retries delivered (k, r) = (res, (k1, r1)) /\
    res <> Panic /\ entered F1 W1 K1 L1 r1 /\ streaming W1 r1 /\
    K1 `sublist_of` Sinks.received k1 /\ (length F1 <= length F + length turns * length log)%nat.
Proof.
  revert delivered F W K' L k r. induction turns as [|[now clock] turns IH]; intros d F W K' L k r He Hs HK Hlt.
  { exists (Ok (Some d)), k, r, F, W, K', L. split_and!; try done. simpl. lia. }
  simpl in *. destruct (turn_ok retries now clock F W K' L k r He Hs HK ltac:(lia)) as
    (res & k1 & r1 & F1 & W1 & K1 & L1 & E & Hnp & He1 & Hs1 & HK1 & Hl1).
  rewrite bind_eq, E.
  assert (Hstay : forall x : Res (option Z), x <> Panic -> exists res k2 r2 F2 W2 K2 L2, (x, (k1, r1)) = (res, (k2, r2)) /\
    res <> Panic /\ entered F2 W2 K2 L2 r2 /\ streaming W2 r2 /\ K2 `sublist_of` Sinks.received k2 /\
    (length F2 <= length F + (length log + length turns * length log))%nat).
  { intros x Hx. exists x, k1, r1, F1, W1, K1, L1. split_and!; try done. lia. }
  destruct res as [[n|]|x|]; [|by apply Hstay..|done].
  destruct (IH (saturating_add d (Z.of_nat n)) F1 W1 K1 L1 k1 r1 He1 Hs1 HK1 ltac:(lia)) as
    (res & k2 & r2 & F2 & W2 & K2 & L2 & E2 & Hnp2 & He2 & Hs2 & HK2 & Hl2).
  exists res, k2, r2, F2, W2, K2, L2. split_and!; try done. lia.
Qed.

Lemma entered_sink F W K' L k n (r : R) : entered F W K' L r -> entered F W K' L (with_sink k (control r) n r).
Proof. intros []. by split. Qed.

(** Whatever is committed has been sent, whichever calls failed. *)
Lemma runs_ok l F W K' L k (r : R) :
  entered F W K' L r -> streaming W r -> registered_sink r = Some k ->
  K' `sublist_of` Sinks.received k ->
  base + Z.of_nat (length F + turns_of l * length log) < u64_modulus ->
  let '(rs, r1) := runs ahash l r in
  Forall (fun res => res <> Panic) rs /\ exists F1 W1 K1 L1 k1, entered F1 W1 K1 L1 r1 /\
    registered_sink r1 = Some k1 /\ K1 `sublist_of` Sinks.received k1.
Proof.
  revert F W K' L k r. induction l as [|[turns retries] l IH]; intros F W K' L k r He Hs Hk HK Hlt; simpl.
  { split; [done|]. by exists F, W, K', L, k. }
  unfold turns_of in *. simpl in Hlt. rewrite length_app in Hlt.
  unfold run_to_completion. rewrite Hk.
  destruct (loop_ok turns retries 0 F W K' L k (with_sink None (control r) (naps r) r)) as
    (res & k1 & r1 & F1 & W1 & K1 & L1 & E & Hnp & He1 & Hs1 & HK1 & Hl1); [by apply entered_sink|done..|lia|].
  rewrite E. apply (entered_sink _ _ _ _ (Some k1) (naps r1)) in He1.
  specialize (IH F1 W1 K1 L1 k1 _ He1 Hs1 eq_refl HK1 ltac:(lia)).
  destruct (runs ahash l _) as [rs r2]. destruct IH as [Hps Hrest]. split; [by constructor|done].
Qed.

End Sink.

(** *** Starting *)

(** Constructed, with the embedder's source or the configured one, and started. *)
Definition launched (c : C) (r0 : R) : Prop :=
  exists connector set policy handler h now r1,
    new connector cfg {| store := c; CheckpointApi.log := [] |} h set policy handler = Ok r1 /\
    (start now r1 = (Ok tt, r0) \/ exists s, start now (register_source s r1) = (Ok tt, r0)).

(** The part of a runtime that [new] builds and [register_source] leaves. *)
Record pristine (c : C) (r : R) : Prop := {
  p_state : state r = Idle;
  p_core : core r =
    {| config := cfg; injected_events := []; pending_source_events := [];
       buffered_events := []; delivered_not_committed := 0; next_delivery_id := 1;
       pending_delivery := None; commit_barrier := Barrier.new (max_buffer_size (options cfg));
       checkpoint := {| store := c; CheckpointApi.log := [] |}; snapshot := None; stream := None;
       pending_confirmation_lsn := None; unconfirmed_stall_polls := 0;
       stats := {| last_poll_at_ms := None; last_source_event_ts_ms := None;
                   last_commit_at_ms := None; last_checkpoint_saved_at_ms := None;
                   total_events_polled := 0; total_events_committed := 0 |} |};
  p_guard : from_option (guarded []) True (idempotency_guard r);
  p_pipeline : Transforms.transforms (Transforms.transform_pipeline (transforms r)) = [];
  p_commands : commands (control r) = [];
}.

Lemma guard_built o g : build_idempotency_guard o = Ok g -> from_option (guarded []) True g.
Proof.
  unfold build_idempotency_guard. destruct o as [[cap ttl]|]; [|by intros [= <-]].
  unfold Idempotency.guard_new. destruct (Nat.eqb_spec cap 0) as [|Hcap]; [done|]. cbn [res_bind].
  assert (Hrep : forall ttl, Idempotency.represents cap ttl
    {| Idempotency.capacity := cap; Idempotency.ttl_ms := ttl; Idempotency.seen := ∅;
       Idempotency.order := []; Idempotency.evictions := 0;
       Idempotency.unidentifiable_passthrough := 0 |} []).
  { intros t. split_and!; try done; [constructor|simpl; lia]. }
  destruct ttl as [ms|]; [unfold Idempotency.with_ttl_ms; destruct (ms =? 0); [done|]|];
    cbn [res_bind]; intros [= <-]; eexists cap, _, []; (split_and!; [lia|apply Hrep|]);
    by intros f ?%elem_of_nil.
Qed.

Lemma new_pristine connector c h set policy handler r :
  new connector cfg {| store := c; CheckpointApi.log := [] |} h set policy handler = Ok r ->
  pristine c r.
Proof.
  unfold new. cbv zeta. intros E.
  repeat match type of E with (if ?b then _ else _) = _ => destruct b; [done|] end.
  destruct (match connection_retry set with Some _ => _ | None => _ end);
    cbn [res_bind] in E; [|done..].
  destruct (build_idempotency_guard (idempotency set)) as [g|e|] eqn:Eg; cbn [res_bind] in E; [|done..].
  injection E as <-. split; try done. by eapply guard_built.
Qed.

(** As [entered] before anything did, whatever the state. *)
Record starting (r : R) : Prop := {
  s_core : inv cfg base [] [] Barrier.ledger_init [] (core r);
  s_injected : injected_events (core r) = [];
  s_queue : pending_source_events (core r) = [];
  s_store : synced (checkpoint (core r));
  s_guard : from_option (guarded []) True (idempotency_guard r);
  s_pipeline : Transforms.transforms (Transforms.transform_pipeline (transforms r)) = [];
  s_commands : commands (control r) = [];
  s_streaming : streaming [] r;
}.

Lemma starting_source {A} (m : M (RuntimeSource S) A) : keeps starting (on_source m).
Proof. intros r []. unfold on_source. destruct (m (source r)). by split. Qed.
Lemma starting_snapshot : keeps starting (set_snapshot None).
Proof. intros r [Hi]. split; try done. destruct Hi. by split. Qed.
Lemma starting_stream i : (cursor i <= resume_index o0)%nat -> keeps starting (set_stream (Some i)).
Proof.
  intros Hc r [Hi]. split; try done; [destruct Hi; by split|]. intros j [= <-] q Hq. lia.
Qed.
Lemma starting_run now handoff r r' : starting r -> run_from now handoff r = (Ok tt, r') ->
  state r' = Running /\ starting r'.
Proof. intros [Hi] [= <-]. split; [done|]. split; try done. destruct Hi. by split. Qed.

(** A call on the source that returned a stream. *)
Lemma starting_open (m : M (RuntimeSource S) I) (k : M R unit) r r0 :
  (forall src i src', m src = (Ok i, src') -> (cursor i <= resume_index o0)%nat) ->
  (forall r r', starting r -> k r = (Ok tt, r') -> state r' = Running /\ starting r') ->
  starting r -> (i ← on_source m; set_stream (Some i);; k) r = (Ok tt, r0) ->
  state r0 = Running /\ starting r0.
Proof.
  intros Hm Hk Hr. pose proof (starting_source m r Hr) as Hr1. rewrite bind_eq. unfold on_source in *.
  destruct (m (source r)) as [[i|e|] src] eqn:E; simpl in Hr1; [|done..]. specialize (Hm _ _ _ E).
  intros E1. apply (Hk _ _ (starting_stream i Hm _ Hr1)). rewrite <-E1. reflexivity.
Qed.

Lemma dispatch_at {A} (m : M S A) (P : A -> Prop) src a src' :
  (forall s x s', m s = (Ok x, s') -> P x) -> dispatch m src = (Ok a, src') -> P a.
Proof.
  intros Hm. destruct src as [s| |s]; simpl; try done.
  all: destruct (m s) as [res s'] eqn:E; intros [= -> _]; by eapply Hm.
Qed.

Lemma incremental_opens ic src i src' :
  source_start_incremental ic (Some o0) src = (Ok i, src') -> (cursor i <= resume_index o0)%nat.
Proof.
  destruct src as [s| |s]; try done. apply (dispatch_at _ (fun i => (cursor i <= resume_index o0)%nat)).
  intros; by eapply incremental_at.
Qed.

Lemma open_ok now (r r0 : R) : starting r -> is_snapshot_checkpoint r o0 = false ->
  open_handles now (Some o0) r = (Ok tt, r0) -> state r0 = Running /\ starting r0.
Proof.
  intros Hr Hsn. unfold open_handles. rewrite bind_gets. change (id r) with r. rewrite Hsn.
  destruct (incremental_snapshot (config (core r))).
  - intros E.
    apply (starting_open (source_start_incremental (incremental_config (settings r)) (Some o0))
      (run_from now true) (snd (set_snapshot None r)) r0).
    + intros; by eapply incremental_opens.
    + apply starting_run.
    + by apply starting_snapshot.
    + rewrite <-E. rewrite (bind_eq (set_snapshot None)). reflexivity.
  - apply (starting_open (dispatch (start_stream (Some o0))) (set_snapshot None;; run_from now true)); [| |done].
    2: { intros r1 r2 Hr1 E. eapply starting_run; [apply (starting_snapshot r1 Hr1)|]. rewrite <-E. reflexivity. }
    intros src i src'. apply (dispatch_at _ (fun i => (cursor i <= resume_index o0)%nat)).
    intros; by eapply stream_at.
Qed.

Hypothesis log_checkpoint : forall st, config_source_type (Runtime.source cfg) = Some st ->
  source_type o0 <> (st +:+ "_snapshot")%string.

(** The runtime after [hydrate] is as the session theory starts it. *)
Lemma hydrated_starting c c' (r : R) : pristine c r -> saved c' = Some o0 ->
  starting (with_core (with_barrier (snd (Barrier.hydrate_committed_event_count base (commit_barrier (core r))))
    {| store := c'; CheckpointApi.log := [] |} (core r)) r).
Proof.
  intros [_ Hc Hg Hp Hcmd] Hs. rewrite Hc. split; try done.
  split; try done. apply Barrier.hydrated_refines.
Qed.

Lemma start_ok now c (r r0 : R) :
  pristine c r -> saved c = Some o0 -> fst (get_committed_count c) = Ok base ->
  start now r = (Ok tt, r0) -> entered [] [] [] Barrier.ledger_init r0 /\ streaming [] r0.
Proof.
  intros Hr Hsv Hbase E.
  enough (state r0 = Running /\ starting r0) as [Hst []].
  { split; [|done]. split; try done. by rewrite s_queue0. }
  unfold start in E. rewrite (p_state _ _ Hr) in E.
  apply bind_inv in E as (n & r1 & E1 & E). unfold on_store in E1. pose proof (p_core _ _ Hr) as Hcore.
  rewrite Hcore in E1. cbn in E1. pose proof (count_saved c) as Hcs.
  destruct (get_committed_count c) as [res c1]. simpl in Hbase, Hcs. subst res.
  injection E1 as <- <-. apply bind_inv in E as ([] & r2 & E2 & E).
  pose proof (hydrated_starting c c1 r Hr ltac:(congruence)) as Hs.
  rewrite Hcore in Hs. simpl in Hs. injection E2 as <-.
  match type of E with (match _ with _ => _ end ?r2 = _) => set (r' := r2) in E; change (starting r') in Hs end.
  assert (Hsn : is_snapshot_checkpoint r' o0 = false /\ is_snapshot_checkpoint r o0 = false).
  { unfold is_snapshot_checkpoint. rewrite Hcore. simpl.
    destruct (config_source_type (Runtime.source cfg)) as [t|]; [|done].
    by rewrite (proj2 (String.eqb_neq _ _)) by (by apply log_checkpoint). }
  destruct Hsn as [Hsn Hsn'].
  assert (Hmain : (loaded ← on_store load;
             resume ← of_res (accept_checkpoint r loaded);
             on_source (dispatch connect);;
             open_handles now resume) r' = (Ok tt, r0) -> state r0 = Running /\ starting r0).
  { clear E. intros E. apply bind_inv in E as (o & r3 & E3 & E). unfold on_store in E3. cbn in E3.
    destruct (load c1) as [res c2] eqn:El. injection E3 as -> <-.
    apply load_ok in El as [-> Hl2]. rewrite Hcs, Hsv in *.
    apply bind_inv in E as (o & r4 & E4 & E). unfold accept_checkpoint in E4. rewrite Hsn' in E4.
    injection E4 as <- <-. apply bind_inv in E as (u & r5 & E5 & E).
    assert (Hs5 : starting r5).
    { pose proof (starting_source (dispatch connect) _ (hydrated_starting c c2 r Hr Hl2)) as Hd.
      rewrite Hcore in Hd.
      match type of E5 with on_source _ ?x = _ =>
        assert (Hd' : starting (snd (on_source (dispatch connect) x))) by exact Hd end.
      by rewrite E5 in Hd'. }
    apply (open_ok now r5 r0); [done| |done].
    unfold is_snapshot_checkpoint in *. rewrite (inv_config _ _ _ _ _ _ _ (s_core _ Hs5)).
    by rewrite Hcore in Hsn'. }
  destruct (source r).
  1, 3: destruct (_ && _); [done|by apply Hmain].
  destruct Hs as [Hi]. injection E as <-. split; [done|]. by split.
Qed.

Lemma launched_ok c (r0 : R) :
  saved c = Some o0 -> fst (get_committed_count c) = Ok base -> launched c r0 ->
  entered [] [] [] Barrier.ledger_init r0 /\ streaming [] r0.
Proof.
  intros Hsv Hbase (connector & set & policy & handler & h & now & r1 & Hnew%new_pristine & Hstart).
  assert (Hnew' : forall s, pristine c (register_source s r1)) by (intros s; destruct Hnew; by split).
  destruct Hstart as [Hstart|[s Hstart]]; [|specialize (Hnew' s)]; by eapply start_ok.
Qed.

(** *** What the positions say of the events *)

Lemma position_entered F W n q e : Forall2 at_position F W -> (n <= length F)%nat ->
  q ∈ take n W -> log !! q = Some e -> e ∈ take n F.
Proof.
  intros Hpos Hn Hq Hl. apply list_elem_of_lookup in Hq as [k Hk].
  apply lookup_take_Some in Hk as [Hk Hlt].
  destruct (Forall2_lookup_r _ _ _ _ _ Hpos Hk) as (e' & He1 & He2). unfold at_position in He2.
  rewrite Hl in He2. injection He2 as <-. eapply list_elem_of_lookup_2. by rewrite lookup_take_lt.
Qed.

(** Whatever the saved position has passed is committed. *)
Lemma saved_committed F W K' L (r : R) : entered F W K' L r ->
  Barrier.committed_event_count (commit_barrier (core r)) = base + Z.of_nat (length K') /\
  exists o, saved (store (checkpoint (core r))) = Some o /\
    forall q e, log !! q = Some e -> (b0 <= q < resume_index o)%nat -> e ∈ K'.
Proof.
  intros He. pose proof He as [_ Hi _ Hpos Hcl Hsync _ _ _].
  pose proof (inv_flow _ _ _ _ _ _ _ Hi) as Hflow. split.
  { rewrite <-(inv_committed _ _ _ _ _ _ _ Hi).
    apply (Barrier.lr_count _ _ _ _ (inv_ledger _ _ _ _ _ _ _ Hi)). }
  eexists. split; [exact Hsync|]. intros q e Hl Hq.
  assert (HK' : take (length K') F = K') by by rewrite Hflow, take_app_length.
  rewrite <-HK'. eapply position_entered; [done|rewrite Hflow, length_app; lia| |done].
  by eapply saved_covered; [..|exact Hsync|].
Qed.

(** Whatever the stream has passed is in the runtime or was. *)
Lemma stream_accounted F W K' L (r : R) i q e : entered F W K' L r -> streaming W r ->
  stream (core r) = Some i -> log !! q = Some e -> (b0 <= q < cursor i)%nat ->
  e ∈ (K' ++ in_flight (core r) ++ buffered_events (core r) ++ pending_source_events (core r))%list.
Proof.
  intros He Hs Hi Hl Hq. rewrite <-(inv_flow _ _ _ _ _ _ _ (e_core _ _ _ _ _ He)).
  rewrite <-(firstn_all F). pose proof (e_pos _ _ _ _ _ He) as Hpos.
  eapply position_entered; [done..| |done].
  rewrite firstn_all2. 1: by apply (Hs i Hi). by rewrite (Forall2_length _ _ _ Hpos).
Qed.

(** *** Stopping *)

(** What is in the runtime and not committed. *)
Definition uncommitted (r : R) : list Event :=
  (in_flight (core r) ++ buffered_events (core r) ++ pending_source_events (core r))%list.

(** Closed: nothing is held and nothing is open. *)
Definition shut (r : R) : Prop :=
  state r = Stopped /\ stream (core r) = None /\ uncommitted r = [] /\ registered_sink r = None.

Lemma shut_down_ok {A} in_time (a : A) (r : R) :
  buffered_events (core r) = [] -> pending_source_events (core r) = [] ->
  let '(res, r') := (shut_down;; close_sink in_time;; mret a) r in
  res = (_ <-? fst (close_sink in_time r); Ok a) /\ shut r'.
Proof.
  intros Hb Hq. assert (E : exists r1, shut_down r = (Ok tt, r1) /\ state r1 = Stopped /\ stream (core r1) = None /\
    uncommitted r1 = [] /\ registered_sink r1 = registered_sink r /\ settings r1 = settings r).
  { eexists. split; [reflexivity|]. unfold uncommitted, in_flight. cbn. by rewrite Hb, Hq. }
  destruct E as (r1 & E & Hst & Hs & Hu & Hk & Hset). rewrite bind_eq, E, bind_eq. unfold close_sink, shut.
  rewrite Hk, Hset. destruct (registered_sink r) as [k|]; [|done].
  destruct (sink_close_timeout_ms (settings r)); [destruct in_time|]; cbn; try done;
    by destruct (fst (Sinks.close k)).
Qed.

Lemma stop_spec in_time F W K' L (r : R) : entered F W K' L r ->
  if bool_decide (uncommitted r = []) then
    fst (stop in_time r) = (_ <-? fst (close_sink in_time r); Ok []) /\ shut (snd (stop in_time r))
  else exists e, stop in_time r = (Err e, r).
Proof.
  intros [Hst Hi Hinj _ _ _ _ _ _]. unfold stop. rewrite Hst, (inv_room _ _ _ _ _ _ _ Hi), Hinj.
  assert (Hn : (length (in_flight (core r)) + length (buffered_events (core r)) + length ([] : list Event)
    + length (pending_source_events (core r)))%nat = length (uncommitted r)).
  { unfold uncommitted. rewrite !length_app. simpl. lia. }
  rewrite Hn. case_bool_decide as Hl.
  - rewrite Hl. cbn [length Nat.ltb Nat.leb]. unfold uncommitted in Hl. apply app_nil in Hl as [_ [Hb Hq]%app_nil].
    pose proof (shut_down_ok in_time ([] : list Event) r Hb Hq) as Hx. by destruct ((shut_down;; _) r).
  - destruct (uncommitted r); [done|]. cbn. by eexists.
Qed.

Lemma close_sink_same in_time (r r' : R) : registered_sink r = registered_sink r' -> settings r = settings r' ->
  fst (close_sink in_time r) = fst (close_sink in_time r').
Proof. intros Hk Hs. unfold close_sink. rewrite Hk, Hs. by repeat case_match. Qed.

Lemma force_stop_spec in_time F W K' L (r : R) : entered F W K' L r ->
  fst (force_stop in_time r) = (_ <-? fst (close_sink in_time r); Ok (uncommitted r)) /\
  shut (snd (force_stop in_time r)).
Proof.
  intros [Hst Hi Hinj _ _ _ _ _ _]. unfold force_stop. rewrite Hst.
  assert (Hu : undelivered (core r) = uncommitted r).
  { unfold undelivered, uncommitted. rewrite Hinj, app_nil_r. done. }
  rewrite Hu. rewrite (bind_eq (on_core _)). cbv beta iota zeta delta [on_core modify].
  match goal with |- context [(shut_down;; _) ?r1] =>
    pose proof (shut_down_ok in_time (uncommitted r) r1 eq_refl eq_refl) as Hx;
    rewrite (close_sink_same in_time r1 r eq_refl eq_refl) in Hx end.
  by destruct ((shut_down;; _) _).
Qed.

End Log.

Lemma launched_buffer `{BuildProfile} `{JsonCodec} {C SN I S T SH K : Type} `{Checkpoint C}
    `{SnapshotHandle SN} `{Driver.StreamHandle I} `{!Source S SN I} `{!Transforms.Transform T}
    cfg c (r0 : CdcService (Journal C) SN I S T SH K) :
  launched cfg c r0 -> (0 < max_buffer_size (options cfg))%nat.
Proof.
  intros (connector & set & policy & handler & h & now & r1 & Hnew & _). unfold new in Hnew.
  destruct (Nat.eqb_spec (max_buffer_size (options cfg)) 0); [done|lia].
Qed.

Lemma empty_flow {C SN I} `{JsonCodec} `{Driver.StreamHandle I} cfg base L rest (c : CdcRuntime (Journal C) SN I) :
  inv cfg base [] [] L rest c -> in_flight c = [] /\ buffered_events c = [] /\ rest = [].
Proof. intros Hi. pose proof (inv_flow _ _ _ _ _ _ _ Hi) as E. simpl in E. symmetry in E. by apply app_nil in E as [-> [-> ->]%app_nil]. Qed.

(** Where a session gets. *)
Lemma session_entered `{BuildProfile} `{JsonCodec} {C SN I S T SH K : Type}
    `{StoreLaws C} `{SnapshotHandle SN} `{!ChunkReader SN} `{!SnapshotControl I}
    (log : list Event) (resume_index : DynOffset -> nat) `{LogSource S SN I log resume_index}
    `{!Transforms.Transform T} `{!History SH} `{!HistoryLaws SH} `{!Sinks.SinkAdapter K}
    ahash cfg (c : C) o0 base l (r0 r : CdcService (Journal C) SN I S T SH K) seen :
  honest_log (C := C) (SN := SN) (I := I) log resume_index ahash cfg o0 ->
  saved c = Some o0 -> fst (get_committed_count c) = Ok base -> 0 <= base ->
  base + Z.of_nat (length l * length log) < u64_modulus ->
  launched cfg c r0 -> run ahash l r0 = (seen, r) ->
  Forall (fun s => panicked s = false) seen /\ exists F W K' L,
    entered log ahash cfg (resume_index o0) base o0 F W K' L r /\
    streaming log resume_index (resume_index o0) W r /\ K' ⊆ delivered_in seen.
Proof.
  intros honest stored counted base_nonneg fits started ran.
  pose proof (launched_buffer _ _ _ started) as Hsize. pose proof (Nat.le_refl (resume_index o0)) as Hle.
  destruct honest as [log_rows log_acceptable log_identified log_distinct offsets_resume log_checkpoint].
  edestruct (launched_ok (T := T) (SH := SH) (K := K) log resume_index ahash cfg (resume_index o0)) as [He Hs]; [eassumption..|].
  pose proof (steps_ok log resume_index ahash cfg (resume_index o0) log_rows log_acceptable
    log_identified log_distinct offsets_resume base o0 Hsize Hle base_nonneg
    l [] [] [] _ [] r0 He Hs) as Hrun.
  rewrite ran in Hrun. destruct Hrun as (Hp & F & W & K' & L & He' & Hs' & [HK Hf]).
  { split; [done|]. by rewrite (proj1 (empty_flow _ _ _ _ _ (e_core _ _ _ _ _ _ _ _ _ _ _ He))). }
  { simpl. lia. }
  split; [done|]. by exists F, W, K', L.
Qed.

(** ** At-least-once delivery across reconnects *)




(** ** Reconnecting at a snapshot checkpoint *)

(** What [start] makes of a snapshot checkpoint is an offset of the connector's own. *)
Lemma converted_source_type `{JsonCodec} src o o' st :
  config_source_type src = Some st -> (forall f, src = Mysql f -> f = "mysql"%string) ->
  stream_resume_offset_for_snapshot_checkpoint src o = Ok (Some o') -> source_type o' = st.
Proof.
  intros Hst Hmy. unfold stream_resume_offset_for_snapshot_checkpoint. destruct src; simpl in Hst; simplify_eq.
  - destruct (postgres_stream_offset_from_snapshot_checkpoint _ _); [|done..]. by intros [= <-].
  - destruct (mysql_stream_offset_from_snapshot_checkpoint _ _) as [m|e|] eqn:E; [|done..].
    intros [= <-]. simpl. rewrite (Hmy _ eq_refl). revert E. unfold mysql_stream_offset_from_snapshot_checkpoint.
    destruct (parse_payload o); [|done..]. cbn [res_bind].
    do 3 (destruct (need _ _); [|done..]; cbn [res_bind]). by intros [= <-].
  - destruct (mysql_stream_offset_from_snapshot_checkpoint _ _); [|done..]. cbn [res_bind].
    destruct (encode _); [|done..]. by intros [= <-].
  - destruct (sqlserver_stream_offset_from_snapshot_checkpoint _) as [g|e|] eqn:E; [|done..].
    intros [= <-]. revert E. unfold sqlserver_stream_offset_from_snapshot_checkpoint.
    destruct (parse_payload o); [|done..]. cbn [res_bind]. destruct (need _ _); [|done..]. cbn [res_bind].
    case_match; [done|]. destruct (lsn_bytes _); [|done..]. cbn [res_bind]. by intros [= <-].
Qed.

Section Blocked.
Context `{BuildProfile} `{JsonCodec} {C SN I S T SH K : Type}.
Context `{StoreLaws C} `{SnapshotHandle SN} `{Driver.StreamHandle I}.
Context `{!ChunkReader SN} `{!SnapshotControl I} `{!Source S SN I} `{!Transforms.Transform T}.
Context `{!History SH} `{!Sinks.SinkAdapter K}.
Variables (ahash : list Idempotency.Token -> Z) (o : DynOffset).

Abbreviation R := (CdcService C SN I S T SH K).

(** No stream is open, and the store holds an offset the source does not open one at. *)
Record blocked (r : R) : Prop := {
  b_stream : stream (core r) = None;
  b_plain : incremental_snapshot (config (core r)) = false;
  b_saved : saved (checkpoint (core r)) = Some o;
}.

Hypothesis refused : forall s, exists e, fst (start_stream (Some o) s) = Err e.

Lemma blocked_restart refusal : hoare blocked (restart_stream refusal)
  (fun res r => blocked r /\ res <> Ok None).
Proof.
  intros r [Hs Hp Hsv]. unfold restart_stream. rewrite (bind_eq close_source). cbn.
  rewrite bind_eq. unfold try at 1 3, on_source. cbn.
  destruct (dispatch connect _) as [[u|e|] src]; [|by split..].
  rewrite bind_eq. unfold map_err, on_store. cbn.
  destruct (load (checkpoint (core r))) as [[o'|e|] c'] eqn:El.
  2: { split; [|done]. split; try done. simpl. by rewrite (load_err _ _ _ El). }
  2: { by pose proof (load_calm (checkpoint (core r))) as Hc; rewrite El in Hc. }
  apply load_ok in El as [-> Hsv']. rewrite Hsv. rewrite bind_eq.
  unfold try, resume_stream_after_reconnect. rewrite bind_gets. cbn. rewrite Hp. unfold on_source. cbn.
  assert (Hb : forall src', blocked (with_source src' (handoff_complete r)
    (with_core (with_barrier (commit_barrier (core r)) c' (core r)) (with_source src (handoff_complete r)
      (with_source (source_close (source r)) (handoff_complete r) r))))) by (intros src'; split; try done; simpl; congruence).
  destruct src as [s| |s]; simpl.
  2: { split; [apply Hb|done]. }
  all: destruct (refused s) as [e He]; destruct (start_stream (Some o) s) as [[i|e'|] s']; simpl in He; try done;
    (split; [apply Hb|done]).
Qed.

Lemma blocked_round p a delay : hoare blocked (retry_round p a delay)
  (fun res r => blocked r /\ forall es, res <> Ok (Received es)).
Proof.
  intros r Hr. unfold retry_round. rewrite bind_gets, (b_stream _ Hr), bind_eq.
  pose proof (blocked_restart "failed loading checkpoint while resuming the stream after reconnect" r Hr) as [Hb Hn].
  destruct (restart_stream _ r) as [[[f|]|e|] r1]; simpl in Hb, Hn; try by split.
  destruct (exhausted p a); [by split|]. split; [|done]. by destruct Hb.
Qed.

Lemma blocked_loop fuel p : forall a delay, hoare blocked (retry_loop fuel p a delay)
  (fun res r => blocked r /\ forall es, res <> Ok (Some es)).
Proof.
  induction fuel as [|fuel IH]; intros a delay r Hr; [by split|]. cbn [retry_loop]. rewrite bind_eq.
  pose proof (blocked_round p a delay r Hr) as [Hb Hn].
  destruct (retry_round p a delay r) as [[[es|a' d']|e|] r1]; simpl in Hb, Hn; [by destruct (Hn es)| |by split..].
  by apply IH.
Qed.

(** The stream breaks. *)
Lemma breaking_loop fuel p delay i e i' r : stream (core r) = Some i ->
  Driver.next_events (max_poll_wait_ms (settings r)) i = (Err e, i') ->
  blocked (snd (set_stream None r)) -> forall es, fst (retry_loop fuel p 0 delay r) <> Ok (Some es).
Proof.
  intros Hi En Hr es. destruct fuel as [|fuel]; [done|]. cbn [retry_loop]. rewrite bind_eq.
  unfold retry_round. rewrite bind_gets, Hi, bind_eq. cbn. rewrite bind_gets, bind_eq.
  unfold try at 1, on_stream. rewrite Hi, En. destruct (_ || _); [done|].
  rewrite (bind_eq (set_stream None)). cbn. rewrite (bind_eq (sleep _)). cbn. rewrite bind_eq.
  match goal with |- context [restart_stream ?msg ?r1] =>
    assert (Hr1 : blocked r1) by (destruct Hr; by split); destruct (blocked_restart msg r1 Hr1) as [Hb _];
    destruct (restart_stream msg r1) as [[f|x|] r2] end; [|done..].
  by apply blocked_loop.
Qed.

End Blocked.

(** A reconnect cannot go on from a snapshot checkpoint.  The store holds a snapshot
    checkpoint, as it does after the bulk snapshot until the first row of the log is
    acknowledged, and the connector opens streams at its own offsets only.  When the open
    stream breaks, the poll fails, whatever the retry policy and however soon the source is
    back: the checkpoint is passed to the source as it is.  [start] from the same store
    passes an offset of the connector's own. *)
Theorem snapshot_checkpoint_blocks_reconnect `{BuildProfile} `{JsonCodec} {C SN I S T SH K : Type}
    `{StoreLaws C} `{SnapshotHandle SN} `{Driver.StreamHandle I}
    `{!ChunkReader SN} `{!SnapshotControl I} `{!Source S SN I} `{!Transforms.Transform T}
    `{!History SH} `{!Sinks.SinkAdapter K} (ahash : list Idempotency.Token -> Z) (o : DynOffset) (st : string)
    (p : ConnectionRetryPolicy) (n fuel : nat) now clock (r : CdcService C SN I S T SH K) (i i' : I) (e : Error)
    (configured : config_source_type (Runtime.source (config (core r))) = Some st)
    (flavor : forall f, Runtime.source (config (core r)) = Mysql f -> f = "mysql"%string)
    (snapshotted : is_snapshot_checkpoint r o = true) (stored : saved (checkpoint (core r)) = Some o)
    (own_offsets : forall o' s, source_type o' <> st -> exists x, fst (start_stream (Some o') s) = Err x)
    (plain : incremental_snapshot (config (core r)) = false)
    (retrying : connection_retry (settings r) = Some p) (valid : validate_retry p = Ok p)
    (delays_fit : 0 <= initial_delay_ms p /\ max_delay_ms p <= u64_max)
    (bounded : max_retries p = Some (Z.of_nat n)) (retries_fit : Z.of_nat n <= u32_max) (enough : (n < fuel)%nat)
    (nothing_waits : drained r) (confirmed : pending_confirmation_lsn (core r) = None)
    (opened : stream (core r) = Some i)
    (breaks : Driver.next_events (max_poll_wait_ms (settings r)) i = (Err e, i')) :
  (forall b, fst (poll_event_batch ahash fuel now clock r) <> Ok b) /\
  (forall o', stream_resume_offset_for_snapshot_checkpoint (Runtime.source (config (core r))) o = Ok (Some o') ->
     source_type o' = st).
Proof.
  split; [|intros o' Ho; by eapply converted_source_type].
  assert (Href : forall s, exists x, fst (start_stream (Some o) s) = Err x).
  { intros s. apply own_offsets. unfold is_snapshot_checkpoint in snapshotted. rewrite configured in snapshotted.
    apply String.eqb_eq in snapshotted as ->. clear. intros Heq.
    apply (f_equal String.length) in Heq. rewrite string_length_app in Heq. simpl in Heq. lia. }
  apply valid_delays in valid as Hd.
  pose proof (poll_patient ahash (settings r) p n bounded retries_fit ltac:(lia) retrying fuel enough
    now clock (naps r) r (conj eq_refl eq_refl)) as [Hnn _].
  intros [b|]; [|done].
  destruct (drained_poll ahash fuel now clock r nothing_waits) as (r1 & -> & Hc & _ & Hset & _).
  unfold retry_pending_confirmation. rewrite confirmed.
  assert (Hid : with_core (core r) r1 = r1) by (rewrite <-Hc; by destruct r1). rewrite Hid.
  unfold poll_stream. rewrite Hc, opened, Hset, retrying, bind_eq.
  pose proof (breaking_loop o Href fuel p (initial_delay_ms p) i e i' r1) as Hx. rewrite Hc, Hset in Hx.
  specialize (Hx opened breaks). destruct (retry_loop fuel p 0 _ r1) as [[[es|]|x|] r2]; [|done..].
  destruct (Hx ltac:(split; simpl; by rewrite ?Hc) es). done.
Qed.

End Reconnect.
