(* ===== verification/LifecycleDemo.v ===== *)
(** * LifecycleDemo: a server, and what the runtime does with it

    A concrete source for [Lifecycle]: a server with a log of six events, whose refusals
    and dropped connections are scripted.  It satisfies the interfaces of [Reconnect.v],
    and the theorems here run the runtime over it. *)

From S2P Require Import Prelude Errors CheckpointApi Strs Json Offsets Event Barrier Monad Driver DriverDelivery Idempotency Runtime RuntimeDelivery SchemaHistory Transforms Sinks Lifecycle LifecycleLaws Reconnect.

Module LifecycleDemo.
Import Runtime RuntimeDelivery Lifecycle LifecycleLaws Reconnect.

Local Open Scope Z_scope.
Local Open Scope string_scope.

(** ** The server *)

(** Events at positions 0 to 5 of the log; the offset of each names the next position. *)
Definition feed : list Event := map (fun p => RuntimeDelivery.Demo.insert_at p p) [1; 2; 3; 4; 5; 6].

(** The log position an offset resumes at. *)
Definition feed_index (o : DynOffset) : nat :=
  match encode o with
  | Ok b => Z.to_nat (default 0 (parse_u64 (string_of_list_byte b)))
  | _ => 0%nat
  end.

(** [refusals]: whether the next calls of [connect] fail.  [lines]: for each stream to be
    opened, whether its next reads fail.  [heads]: where the log ends when each is opened,
    which is where a stream without a position begins. *)
Record Server := {
  refusals : list bool;
  lines : list (list bool);
  heads : list nat;
  opened : list (option DynOffset);
}.

(** An open stream: where it is, and whether its next reads fail. *)
Record Tap := { at_index : nat; drops : list bool }.

Definition tap_next (t : Tap) : Res (list Event) * Tap :=
  match drops t with
  | true :: ds => (Err (SourceError "connection reset"), {| at_index := at_index t; drops := ds |})
  | ds =>
      let es := take 2 (drop (at_index t) feed) in
      (Ok es, {| at_index := at_index t + length es; drops := tail ds |})
  end.

#[export] Instance tap_stream : Driver.StreamHandle Tap := {|
  Driver.next_events _ := tap_next;
  Driver.position_offset _ := None;
  Driver.incremental_snapshot_state _ := None;
  Driver.resume_offset_for _ _ := None;
  Driver.requeue_events _ := mret tt;
  Driver.confirm_lsn _ := mret tt;
|}.

Definition server_connect : M Server unit := fun s =>
  match refusals s with
  | [] => (Ok tt, s)
  | refused :: l =>
      (if refused : bool then Err (SourceError "connection refused") else Ok tt,
       {| refusals := l; lines := lines s; heads := heads s; opened := opened s |})
  end.

Definition server_stream (o : option DynOffset) : M Server Tap := fun s =>
  (Ok {| at_index := from_option feed_index (default 0%nat (List.head (heads s))) o; drops := default [] (List.head (lines s)) |},
   {| refusals := refusals s; lines := tail (lines s); heads := tail (heads s); opened := opened s ++ [o] |}).

(** No bulk snapshot runs. *)
#[export] Instance no_snapshot : SnapshotHandle Empty_set :=
  {| snapshot_checkpoint _ _ (sn : Empty_set) _ := match sn with end |}.
#[export] Instance no_chunks : ChunkReader Empty_set := fun _ sn => match sn with end.

#[export] Instance server : Source Server Empty_set Tap := {|
  connect := server_connect;
  close s := s;
  start_snapshot _ s := (Err (NotImplemented "snapshot"), s);
  start_snapshot_from_checkpoint _ _ s := (Err (NotImplemented "snapshot"), s);
  start_stream := server_stream;
  start_incremental_snapshot _ _ s := (Err (NotImplemented "snapshot"), s);
  perform_handoff s := (Err (NotImplemented "snapshot"), s);
|}.

#[export] Instance no_control : SnapshotControl Tap := {|
  request_snapshot_tables _ t := (Err (NotImplemented "incremental snapshot"), t);
  set_snapshot_paused _ t := (Err (NotImplemented "incremental snapshot"), t);
  stop_snapshot t := (Err (NotImplemented "incremental snapshot"), t);
|}.

#[export] Program Instance server_log : LogSource (S := Server) (SN := Empty_set) feed feed_index :=
  {| cursor := at_index |}.
Next Obligation.
  intros t [n ds] es i'. simpl. unfold tap_next. simpl.
  assert (Hlen : take (length (take 2 (drop n feed))) (drop n feed) = take 2 (drop n feed)).
  { rewrite length_take. destruct (Nat.min_spec 2 (length (drop n feed))) as [[? ->]|[? ->]]; [done|].
    by rewrite !take_ge by lia. }
  destruct ds as [|[] ds]; intros E; simplify_eq; by rewrite Hlen.
Qed.
Next Obligation.
  intros t [n ds] e i'. simpl. unfold tap_next. simpl. destruct ds as [|[] ds]; intros E; by simplify_eq.
Qed.
Next Obligation. done. Qed.
Next Obligation. intros o s i s' [= <- _]. simpl. lia. Qed.
Next Obligation. done. Qed.
Next Obligation. intros t [n ds]. simpl. unfold tap_next. simpl. by destruct ds as [|[] ds]. Qed.
Next Obligation. done. Qed.
Next Obligation. intros [[|[]]]; done. Qed.
Next Obligation. done. Qed.
Next Obligation. done. Qed.

(** ** The store, the history, the stages *)

#[export] Program Instance memory_store : StoreLaws InMemory.InMemoryCheckpoint :=
  {| saved c := InMemory.offset <$> last (InMemory.entries c) |}.
Next Obligation.
  intros o n c c'. simpl. unfold InMemory.mem_save. destruct (InMemory.poisoned c); [done|].
  intros [= <-]. simpl. by rewrite last_snoc.
Qed.
Next Obligation. intros o n c e c'. simpl. unfold InMemory.mem_save. destruct (InMemory.poisoned c); by intros [=]; subst. Qed.
Next Obligation. intros o c c'. simpl. unfold InMemory.mem_load. destruct (InMemory.poisoned c); by intros [=]; subst. Qed.
Next Obligation. intros e c c'. simpl. unfold InMemory.mem_load. destruct (InMemory.poisoned c); by intros [=]; subst. Qed.
Next Obligation. intros c. simpl. unfold InMemory.mem_get_committed_count. by destruct (InMemory.poisoned c). Qed.
Next Obligation. intros o n c. simpl. unfold InMemory.mem_save. by destruct (InMemory.poisoned c). Qed.
Next Obligation. intros c. simpl. unfold InMemory.mem_load. by destruct (InMemory.poisoned c). Qed.

(** A release build. *)
#[export] Instance profile : BuildProfile := false.

(** The in-memory schema history, at one reading of the wall clock. *)
#[export] Instance memory_history : History SchemaHistory.InMemorySchemaHistory := {|
  record_ddl id d := SchemaHistory.mem_record_ddl id d 0;
  apply_retention n h :=
    let '(removed, s) := SchemaHistory.apply_store_retention n (SchemaHistory.mem_schemas h) in
    (Ok removed, {| SchemaHistory.mem_schemas := s; SchemaHistory.mem_last_ts := SchemaHistory.mem_last_ts h |});
|}.

Lemma operations_reject s os : (exists s', SchemaHistory.apply_operations s os = Ok s') \/
  exists m, SchemaHistory.apply_operations s os = Err (SchemaError m).
Proof.
  revert s. induction os as [|o os IH]; intros s; simpl; [eauto|].
  assert (Ho : (exists s', SchemaHistory.apply_operation s o = Ok s') \/
    exists m, SchemaHistory.apply_operation s o = Err (SchemaError m)).
  { unfold SchemaHistory.apply_operation. repeat case_match; eauto. }
  destruct Ho as [[s' ->]|[m ->]]; simpl; eauto.
Qed.

#[export] Instance memory_history_works : HistoryLaws SchemaHistory.InMemorySchemaHistory.
Proof.
  split; [|intros n h; simpl; by eexists].
  intros id d h. simpl. unfold SchemaHistory.mem_record_ddl, SchemaHistory.record_ddl_in_store.
  destruct (SchemaHistory.existing_version_for_ddl _ _ _); [simpl; eauto|].
  destruct (SchemaHistory.next_version (SchemaHistory.mem_schemas h) (SchemaHistory.ddl_key d)) as [v|e|] eqn:Ev.
  2, 3: exfalso; revert Ev; unfold SchemaHistory.next_version; by repeat case_match.
  destruct d as [s|s|s t diff|s t]; simpl; eauto.
  destruct (_ ≫= SchemaHistory.schema) as [latest|]; simpl; [|eauto].
  unfold SchemaHistory.apply_schema_diff.
  destruct (operations_reject latest (SchemaHistory.operations diff)) as [[s' ->]|[m ->]]; simpl; eauto.
Qed.

(** A stage that fails for a while, as a lookup service that is away. *)
Record Lookup := { outages : nat }.

Definition lookup_apply : M (Lookup * Event) bool := fun '(t, e) =>
  match outages t with
  | O => (Ok true, (t, e))
  | S n => (Err (TransformError "lookup unavailable"), ({| outages := n |}, e))
  end.

#[export] Instance lookup_stage : Transforms.Transform Lookup := {|
  Transforms.apply := lookup_apply;
  Transforms.apply_batch := Transforms.async_batch lookup_apply;
  Transforms.name _ := "lookup";
  Transforms.unmatched_rules _ := [];
|}.

#[local] Existing Instances DriverDelivery.Demo.codec Sinks.Demo.scripted_sink Sinks.Demo.scripted_receives.

Abbreviation Sink := Sinks.Demo.Scripted.

#[export] Instance sink_laws : SinkLaws Sink.
Proof. split; [|done..]. intros e k. cbn. unfold Sinks.Demo.scripted_send. by destruct (default false _). Qed.

Abbreviation Store := (Journal InMemory.InMemoryCheckpoint).
Abbreviation Service := (CdcService Store Empty_set Tap Server Lookup
                           SchemaHistory.InMemorySchemaHistory Sink).

(** A hasher that reads the offset. *)
Definition feed_hash (ts : list Idempotency.Token) : Z :=
  match ts with
  | _ :: Idempotency.TStr s :: _ => default 0 (parse_u64 s)
  | _ => 0
  end.

Lemma feed_fingerprint p e : feed !! p = Some e ->
  Idempotency.fingerprint_event_transient feed_hash e = inr (Z.of_nat (S p)) /\
  Event.snapshot e = None /\ Event.source_name (Event.source e) = "feed" /\
  feed_index (generic_dyn {| Offsets.source := "feed";
                             bytes := list_byte_of_string (Event.offset (Event.source e)) |}) = S p.
Proof. do 6 (destruct p as [|p]; [intros [= <-]; vm_compute; done|]). done. Qed.

(** ** Configurations *)

Definition config_of (size : nat) : RuntimeConfig := RuntimeDelivery.Demo.configured size true Split.

Definition policy (n : Z) : ConnectionRetryPolicy :=
  {| max_retries := Some n; initial_delay_ms := 100; max_delay_ms := 150 |}.

Definition settings_of (guard : bool) (retries : option Z) : Settings :=
  {| max_poll_wait_ms := 1000; connection_retry := policy <$> retries;
     schema_history_retention := None; sink_close_timeout_ms := None; snapshot_tables := [];
     incremental_config := {| cfg_tables := []; cfg_chunk_size := 1; cfg_conditions := [] |};
     idempotency := if guard then Some (10%nat, None) else None |}.

Definition position (n : Z) : DynOffset :=
  generic_dyn {| Offsets.source := "feed"; bytes := list_byte_of_string (show n) |}.

(** A store that holds a position, or nothing yet. *)
Definition store_at (o : option Z) : InMemory.InMemoryCheckpoint :=
  {| InMemory.entries :=
       match o with
       | Some n => [{| InMemory.offset := position n; InMemory.committed_event_count := 0 |}]
       | None => []
       end;
     InMemory.poisoned := false |}.

Definition empty_history : SchemaHistory.InMemorySchemaHistory :=
  {| SchemaHistory.mem_schemas := ∅; SchemaHistory.mem_last_ts := 0 |}.

Definition blank (refused : list bool) (ls : list (list bool)) : Server :=
  {| refusals := refused; lines := ls; heads := []; opened := [] |}.

(** Constructed over a store, given a server and a stage, not started. *)
Definition built (cfg : RuntimeConfig) (st : Settings) (o : option Z) : Res Service :=
  new (fun _ => blank [] []) cfg {| store := store_at o; CheckpointApi.log := [] |} empty_history st
    Transforms.Halt false.

(** Constructed, given the server and the stages, and started. *)
Definition boot (cfg : RuntimeConfig) (st : Settings) (o : option Z) (s : Server) (ts : list Lookup)
    : Res Service :=
  r <-? built cfg st o;
  let '(res, r') := start 0 (foldr add_transform (register_source s r) ts) in
  _ <-? res; Ok r'.

(** The value of a result that is known to be one. *)
Definition get_ok {A} (r : Res A) : is_ok r = true -> A :=
  match r with
  | Ok a => fun _ => a
  | _ => fun h => match Bool.diff_false_true h with end
  end.

Definition poll : Step := PollStep 10 0 (fun _ => 0).
Definition ack (id : Z) (n : nat) (epoch : Z) : Step :=
  AckStep 0 (Required {| tok_delivery_id := id; event_count := n; tok_epoch := epoch |}).

Definition offsets (l : list Event) : list string := map (fun e => Event.offset (Event.source e)) l.

(** ** A session with two outages *)

(** The first stream breaks after one read, the reconnect is refused once, and the second
    stream breaks at its first read.  The second delivery is acknowledged in two parts. *)
Definition flaky : Server := blank [false; true] [[false; true]; [true]; []].

Definition steps : list Step := [poll; ack 1 2 0; poll; ack 2 1 0; poll; ack 2 1 1; poll].

Definition session_config : RuntimeConfig := config_of 2.
Definition session_settings : Settings := settings_of true (Some 3).

Definition session_built : Service :=
  get_ok (built session_config session_settings (Some 0)) ltac:(vm_compute; reflexivity).
Definition session_start : Service :=
  get_ok (boot session_config session_settings (Some 0) flaky []) ltac:(vm_compute; reflexivity).
Definition session_seen : list Seen := fst (run feed_hash steps session_start).
Definition session_end : Service := snd (run feed_hash steps session_start).

(** Every event arrives, once each here: the naps are the retries. *)
Lemma session_delivers :
  map (fun s => offsets (shown s)) session_seen = [["1"; "2"]; []; ["3"; "4"]; []; ["4"]; []; ["5"; "6"]] /\
  naps session_end = [100; 150].
Proof. vm_compute. split; reflexivity. Qed.

Lemma feed_acceptable size :
  Forall (acceptable (C := InMemory.InMemoryCheckpoint) (SN := Empty_set) (I := Tap) (config_of size)) feed.
Proof.
  apply Forall_lookup. intros p e He. split.
  - intros _. revert He. do 6 (destruct p as [|p]; [intros [= <-]; vm_compute; done|]). done.
  - intros _ r Hr. unfold build_checkpoint_offset. rewrite Hr. simpl. by eexists.
Qed.

Lemma feed_honest size : honest_log (C := InMemory.InMemoryCheckpoint) (SN := Empty_set) (I := Tap)
  feed feed_index feed_hash (config_of size) (position 0).
Proof.
  split.
  - intros p e He. apply (feed_fingerprint p e He).
  - apply feed_acceptable.
  - intros p e He. eexists. apply (feed_fingerprint p e He).
  - intros p q e e' f He He' Hf Hf'. destruct (feed_fingerprint p e He) as [Hp _].
    destruct (feed_fingerprint q e' He') as [Hq _]. rewrite Hp in Hf. rewrite Hq in Hf'. simplify_eq. lia.
  - intros x p e d Hx He Hd. destruct (feed_fingerprint p e He) as (_ & _ & Hname & Hi).
    unfold build_checkpoint_offset in Hd. rewrite Hx in Hd. simpl in Hd.
    assert (Hr : resume_offset_for x e = Event.offset (Event.source e)).
    { unfold resume_offset_for. by destruct (stream x). }
    rewrite Hr, Hname in Hd. simplify_eq. rewrite Hi. lia.
  - intros st [=].
Qed.

Lemma session_launched : launched session_config (store_at (Some 0)) session_start.
Proof.
  exists (fun _ => blank [] []), session_settings, Transforms.Halt, false, empty_history, 0, session_built.
  split; [vm_compute; reflexivity|right]. exists flaky. vm_compute. reflexivity.
Qed.


(** ** Into a sink *)

(** A call of [run_to_completion] that is cancelled after [n] polls. *)
Definition turns (n : nat) : list (Z * (nat -> Z)) * nat := (replicate n (0, fun _ => 0), 10%nat).

(** The sink refuses the third event once; the server drops one connection. *)
Definition picky : Sink := Sinks.Demo.scripted [false; false; true] false.
Definition calls : list (list (Z * (nat -> Z)) * nat) := [turns 2; turns 3].

Definition sink_results : list (Res (option Z)) := fst (runs feed_hash calls (register_sink picky session_start)).
Definition sink_end : Service := snd (runs feed_hash calls (register_sink picky session_start)).

(** The first call fails, the second delivers the rest. *)
Lemma sink_session :
  sink_results = [Err (SourceError "unreachable"); Ok (Some 4)] /\
  (offsets ∘ Sinks.received <$> registered_sink sink_end) = Some ["1"; "2"; "3"; "4"; "5"; "6"].
Proof. vm_compute. split; reflexivity. Qed.



(** ** The retry budget *)

(** A session over a server that drops the line at once and then refuses connections. *)
Definition refused : Server := blank [false; true; true; true; true] [[true]].

(** Four refusals against a budget of three retries. *)
Definition refused_start : Service :=
  get_ok (boot session_config session_settings (Some 0) refused []) ltac:(vm_compute; reflexivity).
Definition refused_answer : Res (option EventBatch) :=
  fst (poll_event_batch feed_hash 10 0 (fun _ => 0) refused_start).
Definition refused_end : Service := snd (poll_event_batch feed_hash 10 0 (fun _ => 0) refused_start).

Lemma poll_returns_within_budget_witness :
  naps refused_end = [100; 150; 150] /\
  refused_answer <> Ok None /\
  exists k, (k <= 3)%nat /\
    naps refused_end = (naps refused_start ++ map (nap (policy 3)) (seq 0 k))%list.
Proof.
  split; [vm_compute; reflexivity|].
  apply (poll_returns_within_budget feed_hash (policy 3) 3 10 0 (fun _ => 0) refused_start refused_end refused_answer).
  - reflexivity.
  - reflexivity.
  - vm_compute. split; discriminate.
  - reflexivity.
  - vm_compute. discriminate.
  - lia.
  - unfold refused_answer, refused_end. apply surjective_pairing.
Defined.

Lemma refused_drained : drained refused_start.
Proof. split; vm_compute; reflexivity. Qed.

(** The server is back after its fourth refusal, and nobody asks. *)
Lemma abandoned_stream_goes_silent_witness :
  exists x r1, poll_event_batch feed_hash 10 0 (fun _ => 0) refused_start = (Err x, r1) /\ state r1 = Running /\
    forall l, exists r2, polls feed_hash l r1 = (replicate (length l) (Ok (Some empty_batch)), r2) /\
      state r2 = Running /\ source r2 = source r1.
Proof.
  apply (abandoned_stream_goes_silent feed_hash (policy 3) 3 10 0 (fun _ => 0) refused_start
    {| at_index := 0; drops := [true] |} {| at_index := 0; drops := [] |} (SourceError "connection reset")).
  - vm_compute. reflexivity.
  - reflexivity.
  - vm_compute. discriminate.
  - lia.
  - apply refused_drained.
  - vm_compute. reflexivity.
  - vm_compute. reflexivity.
  - vm_compute. reflexivity.
  - vm_compute. reflexivity.
  - left. vm_compute. repeat (eexists _, _; split; [reflexivity|]). exact Logic.I.
Defined.

(** ** A source that comes back *)

(** Refuses a number of connections; then its streams always have an event to read. *)
Record Beacon := { refusing_for : nat }.
Inductive Pulse := Lost | Beating.

#[export] Instance pulse_stream : Driver.StreamHandle Pulse := {|
  Driver.next_events _ i :=
    (match i with Lost => Err (SourceError "connection reset") | Beating => Ok (take 1 feed) end, i);
  Driver.position_offset _ := None;
  Driver.incremental_snapshot_state _ := None;
  Driver.resume_offset_for _ _ := None;
  Driver.requeue_events _ := mret tt;
  Driver.confirm_lsn _ := mret tt;
|}.

#[export] Instance pulse_control : SnapshotControl Pulse := {|
  request_snapshot_tables _ t := (Err (NotImplemented "incremental snapshot"), t);
  set_snapshot_paused _ t := (Err (NotImplemented "incremental snapshot"), t);
  stop_snapshot t := (Err (NotImplemented "incremental snapshot"), t);
|}.

#[export] Instance beacon : Source Beacon Empty_set Pulse := {|
  connect s :=
    match refusing_for s with
    | O => (Ok tt, s)
    | S n => (Err (SourceError "connection refused"), {| refusing_for := n |})
    end;
  close s := s;
  start_snapshot _ s := (Err (NotImplemented "snapshot"), s);
  start_snapshot_from_checkpoint _ _ s := (Err (NotImplemented "snapshot"), s);
  start_stream _ s := (Ok Beating, s);
  start_incremental_snapshot _ _ s := (Err (NotImplemented "snapshot"), s);
  perform_handoff s := (Err (NotImplemented "snapshot"), s);
|}.

#[export] Instance beacon_recovers : Recovering Beacon Empty_set Pulse.
Proof.
  refine {| down := refusing_for |}; [done| |].
  - intros [[|n]]; simpl; lia.
  - intros o s Hs. exists Beating, s. split; [done|]. intros t. by eexists _, _.
Defined.

Abbreviation BeaconService := (CdcService Store Empty_set Pulse Beacon Lookup
                                 SchemaHistory.InMemorySchemaHistory Sink).

(** Running with a stream that is lost, over a beacon that refuses three connections. *)
Definition lost_beacon : BeaconService :=
  snd (set_stream (Some Lost) (with_state Running None (register_source {| refusing_for := 3 |}
    (get_ok (new (fun _ => {| refusing_for := 0 |}) session_config {| store := store_at (Some 0); CheckpointApi.log := [] |}
       empty_history (settings_of false (Some 3)) Transforms.Halt false) ltac:(vm_compute; reflexivity))))).



(** ** A connector that opens streams at its own offsets *)

Inductive Slot := Attached.

#[export] Instance slot_source : Source Slot Empty_set Pulse := {|
  connect := mret tt;
  close s := s;
  start_snapshot _ s := (Err (NotImplemented "snapshot"), s);
  start_snapshot_from_checkpoint _ _ s := (Err (NotImplemented "snapshot"), s);
  start_stream o s :=
    (match o with
     | Some o => if String.eqb (source_type o) "postgres" then Ok Beating
                 else Err (CheckpointError "cannot resume postgres stream from offset source")
     | None => Ok Beating
     end, s);
  start_incremental_snapshot _ _ s := (Err (NotImplemented "snapshot"), s);
  perform_handoff s := (Err (NotImplemented "snapshot"), s);
|}.

(** The checkpoint a bulk snapshot leaves. *)
Definition after_snapshot : DynOffset := {| source_type := "postgres_snapshot"; encode := Ok [] |}.

Abbreviation SlotService := (CdcService InMemory.InMemoryCheckpoint Empty_set Pulse Slot Lookup
                               SchemaHistory.InMemorySchemaHistory Sink).

Definition postgres_config : RuntimeConfig :=
  {| options := options session_config; Runtime.source := Postgres "slot"; incremental_snapshot := false |}.

(** Running on a stream that is lost, the snapshot done and nothing of the log acknowledged. *)
Definition slot_service : SlotService :=
  snd (set_stream (Some Lost) (with_state Running None
    (get_ok (new (fun _ => Attached) postgres_config
       {| InMemory.entries := [{| InMemory.offset := after_snapshot; InMemory.committed_event_count := 2 |}];
          InMemory.poisoned := false |}
       empty_history (settings_of false (Some 3)) Transforms.Halt false) ltac:(vm_compute; reflexivity)))).

Lemma snapshot_checkpoint_blocks_reconnect_witness :
  (forall b, fst (poll_event_batch feed_hash 10 0 (fun _ => 0) slot_service) <> Ok b) /\
  (forall o', stream_resume_offset_for_snapshot_checkpoint (Runtime.source (config (core slot_service))) after_snapshot = Ok (Some o') ->
     source_type o' = "postgres").
Proof.
  apply (snapshot_checkpoint_blocks_reconnect feed_hash after_snapshot "postgres" (policy 3) 3 10 0 (fun _ => 0)
    slot_service Lost Lost (SourceError "connection reset")).
  - vm_compute. reflexivity.
  - intros f. vm_compute. discriminate.
  - vm_compute. reflexivity.
  - vm_compute. reflexivity.
  - intros o' s Ho. cbn. rewrite (proj2 (String.eqb_neq _ _) Ho). by eexists.
  - vm_compute. reflexivity.
  - vm_compute. reflexivity.
  - reflexivity.
  - vm_compute. split; discriminate.
  - reflexivity.
  - vm_compute. discriminate.
  - lia.
  - split; vm_compute; reflexivity.
  - vm_compute. reflexivity.
  - vm_compute. reflexivity.
  - reflexivity.
Defined.

(** ** A quiet source *)

(** Everything of the log is delivered and acknowledged at time 0; the server has no more. *)
Definition fresh_start : Service :=
  get_ok (boot session_config session_settings (Some 0) (blank [] []) []) ltac:(vm_compute; reflexivity).
Definition caught_up : Service :=
  snd (run (S := Server) feed_hash [poll; ack 1 2 0; poll; ack 2 2 0; poll; ack 3 2 0] fresh_start).

(** Polled every second; an hour later the last poll was just now. *)
Definition on_schedule : list (nat * Z * (nat -> Z)) :=
  map (fun n => (1%nat, Z.of_nat n * 1000, fun _ => 0)) (seq 0 3601).

Lemma quiet_source_reported_stalled_witness :
  exists r', polls feed_hash on_schedule caught_up = (replicate (length on_schedule) (Ok (Some empty_batch)), r') /\
    last_poll_at_ms (stats (core r')) = Some 0 /\
    derive_health 3600000 r' = Stalled "no poll has completed".
Proof.
  apply (quiet_source_reported_stalled feed_hash (fun i => i = {| at_index := 6; drops := [] |})).
  - intros t i ->. by eexists.
  - split; vm_compute; reflexivity.
  - eexists. split; [vm_compute; reflexivity|reflexivity].
  - vm_compute. reflexivity.
  - vm_compute. reflexivity.
  - apply Forall_forall. intros x (n & -> & _)%list_elem_of_fmap. simpl. lia.
  - vm_compute. reflexivity.
Defined.

(** ** Losses *)

(** A run of [n] polls into the sink; what the sink has, and the position the store holds. *)
Definition outcome (r : Service) : list string * option nat :=
  (match registered_sink r with Some k => offsets (Sinks.received k) | None => [] end,
   feed_index <$> saved (store (checkpoint (core r)))).

Definition quick_sink : Sink := Sinks.Demo.scripted [] false.

(** One batch fails in the lookup stage. *)
Definition lookup_start (guard : bool) : Res Service :=
  boot session_config (settings_of guard None) (Some 0) (blank [] []) [{| outages := 1 |}].

Definition retried : Res (list (Res (option Z)) * (list string * option nat)) :=
  r <-? lookup_start false;
  let '(results, r') := runs feed_hash [turns 1; turns 3] (register_sink quick_sink r) in
  Ok (results, outcome r').

Definition restarted : Res (list (Res (option Z)) * (list string * option nat)) :=
  r <-? lookup_start true;
  let '(first, r1) := runs feed_hash [turns 1] (register_sink quick_sink r) in
  let '(stopped, r2) := stop true r1 in
  _ <-? stopped;
  let '(started, r3) := start 0 r2 in
  _ <-? started;
  let '(second, r4) := runs feed_hash [turns 3] (register_sink quick_sink r3) in
  Ok ((first ++ second)%list, outcome r4).

(** A batch that fails in a transform stage is lost, under the policy that halts.
    Six events are waiting and the stage fails on the first two, once.
    [run_to_completion] answers with the error; calling it again, or stopping, starting
    again from the saved checkpoint and calling it with the duplicate guard on, delivers the
    other four and saves a position past all six. *)
Theorem failed_transform_loses_batch :
  let failed := Err (Context "transform 'lookup' failed" (TransformError "lookup unavailable")) in
  retried = Ok ([failed; Ok (Some 4)], (["3"; "4"; "5"; "6"], Some 6%nat)) /\
  restarted = Ok ([failed; Ok (Some 4)], (["3"; "4"; "5"; "6"], Some 6%nat)).
Proof. vm_compute. split; reflexivity. Qed.

(** The stream breaks after one batch of two is drained. *)
Definition drained_into : Res (Res (option (list Event)) * (list string * option nat)) :=
  r <-? boot session_config (settings_of false None) (Some 0) (blank [] [[false; true]]) [];
  let '(res, r') := drain_and_stop feed_hash 10 10 0 (fun _ => 0) true r in
  Ok (res, outcome r').

(** [drain_and_stop] commits what it drains and then may not return it.  The stream
    breaks after one batch of two events is drained; the call answers with the error, the
    events are returned nowhere, and the saved position is past them. *)
Theorem drain_error_loses_committed :
  drained_into = Ok (Err (SourceError "connection reset"), ([], Some 2%nat)).
Proof. vm_compute. reflexivity. Qed.

(** Started over an empty store at the head of the log; four events are written; the stream
    breaks before it reads them. *)
Definition unsaved : Res (list (list string) * (list string * option nat)) :=
  r <-? boot session_config (settings_of false (Some 3)) None
          {| refusals := []; lines := [[true]]; heads := [0; 4]%nat; opened := [] |} [];
  let '(seen, r') := run (S := Server) feed_hash [poll; ack 1 2 0; poll] r in
  Ok (map (fun s => offsets (shown s)) seen, outcome r').

(** A reconnect before the first commit skips what was written since the start.  The
    store holds nothing, so the stream is reopened where the log ends by then: the four
    events written since [start] are not delivered, and the next position saved is past
    them. *)
Theorem unsaved_reconnect_skips : unsaved = Ok ([["5"; "6"]; []; []], ([], Some 6%nat)).
Proof. vm_compute. reflexivity. Qed.

End LifecycleDemo.
