(* ===== verification/MysqlRows.v ===== *)
(** * MysqlRows: values, rows and GTID sets of a MySQL server

    Models [src/src/source/mysql/query.rs]: the JSON form of a column value, with the
    column's type and character set, the labels of ENUM and SET columns, and the text of a
    GTID set with the merge the stream keeps it up to date with.

    Values, columns and rows are the third-party client's; they are the data the source
    matches on.  A floating-point value is an integer code, as in [Json], and the text Rust
    prints for it a method of a class. *)

From S2P Require Import Prelude Errors Strs Json Offsets Event GtidSet.

Module MysqlRows.

Local Open Scope string_scope.
Local Open Scope Z_scope.
Local Open Scope list_scope.

(** ** Values *)

Inductive MysqlValue :=
| NULL
| Bytes (b : list byte)
| Int (n : Z)
| UInt (n : Z)
| Float (f : Z)
| Double (f : Z)
| Date (year month day hour minute second micros : Z)
| Time (negative : bool) (days hours minutes seconds micros : Z).

(** The types the source tells apart; the others by their number. *)
Inductive ColumnType :=
| MYSQL_TYPE_DATE | MYSQL_TYPE_NEWDATE | MYSQL_TYPE_DATETIME | MYSQL_TYPE_TIMESTAMP
| MYSQL_TYPE_DATETIME2 | MYSQL_TYPE_TIMESTAMP2 | MYSQL_TYPE_ENUM | MYSQL_TYPE_SET
| MYSQL_TYPE_OTHER (n : Z).

Record Column := {
  name_str : string;
  column_type : ColumnType;
  character_set : Z;
  pri_key_flag : bool;
}.

(** A row: its columns, each with its value when the row holds one. *)
Definition MysqlRow := list (Column * option MysqlValue).

(** [{n:02}], [{n:04}] and [{n:06}] *)
Definition padded (width : nat) (n : Z) : string := pad_left width (show n).

(** [i64::to_string] *)
Definition show_i64 (n : Z) : string := if n <? 0 then "-" +:+ show (- n) else show n.

Definition calendar (year month day : Z) : string :=
  padded 4 year +:+ "-" +:+ padded 2 month +:+ "-" +:+ padded 2 day.

Definition clock_time (hour minute second : Z) : string :=
  padded 2 hour +:+ ":" +:+ padded 2 minute +:+ ":" +:+ padded 2 second.

Definition hex_encode (b : list byte) : string := hex b.

(** [f32::to_string] and [f64::to_string] *)
Class FloatText := { show_f32 : Z -> string; show_f64 : Z -> string }.

(** What the value alone decides. *)
Definition plain_value_to_json `{FloatText} (value : MysqlValue) : json :=
  match value with
  | NULL => JNull
  | Bytes b => JStr (if utf8_valid b then string_of_list_byte b else hex_encode b)
  | Int n => JStr (show_i64 n)
  | UInt n => JStr (show n)
  | Float f => JStr (show_f32 f)
  | Double f => JStr (show_f64 f)
  | Date y mo d h mi s us => JStr (calendar y mo d +:+ "T" +:+ clock_time h mi s +:+ "." +:+ padded 6 us)
  | Time neg days h mi s us =>
      JStr ((if neg then "-" else "") +:+ show days +:+ ":" +:+ clock_time h mi s +:+ "." +:+ padded 6 us)
  end.

Definition mysql_value_to_json_typed `{FloatText} (value : MysqlValue) (ty : option ColumnType) : json :=
  match value, ty with
  | Date y mo d _ _ _ _, Some (MYSQL_TYPE_DATE | MYSQL_TYPE_NEWDATE) => JStr (calendar y mo d)
  | Date y mo d h mi s us,
    Some (MYSQL_TYPE_DATETIME | MYSQL_TYPE_TIMESTAMP | MYSQL_TYPE_DATETIME2 | MYSQL_TYPE_TIMESTAMP2) =>
      if us =? 0 then JStr (calendar y mo d +:+ "T" +:+ clock_time h mi s) else plain_value_to_json value
  | _, _ => plain_value_to_json value
  end.

Definition mysql_value_to_json `{FloatText} (value : MysqlValue) : json := mysql_value_to_json_typed value None.

Definition MYSQL_BINARY_CHARSET : Z := 63.

Definition i64_max : Z := 2 ^ 63 - 1.

Definition mysql_json_value_to_param (value : json) : Res MysqlValue :=
  match value with
  | JNull => Err (CheckpointError "mysql snapshot cursor does not support NULL primary key values")
  | JBool flag => Ok (Int (if flag then 1 else 0))
  | JNum (PosInt n) => Ok (if Z.of_N n <=? i64_max then Int (Z.of_N n) else UInt (Z.of_N n))
  | JNum (NegInt n) => Ok (Int n)
  | JNum (Json.Float f) => Ok (Double f)
  | JStr t => Ok (Bytes (list_byte_of_string t))
  | JArr _ | JObj _ => Err (CheckpointError "mysql snapshot cursor contains unsupported composite value")
  end.

Section Columns.
Context `{FloatText}.
(** [ColumnType::is_character_type] of the client. *)
Variable is_character_type : ColumnType -> bool.

Definition is_binary_column (ty : ColumnType) (charset : Z) : bool :=
  is_character_type ty && (charset =? MYSQL_BINARY_CHARSET).

Definition mysql_value_to_json_for_column (value : MysqlValue) (ty : ColumnType) (charset : Z) : json :=
  match value with
  | Bytes b => if is_binary_column ty charset then JStr (hex_encode b)
               else mysql_value_to_json_typed value (Some ty)
  | _ => mysql_value_to_json_typed value (Some ty)
  end.

Definition column_json (c : Column) (v : option MysqlValue) : json :=
  match v with
  | Some value => mysql_value_to_json_for_column value (column_type c) (character_set c)
  | None => JNull
  end.

Definition mysql_row_to_json (row : MysqlRow) : json :=
  JObj (obj_of (map (fun cv => (name_str (fst cv), column_json (fst cv) (snd cv))) row)).

Definition primary_key_columns_from_row (row : MysqlRow) : option (list string) :=
  match map (fun cv => name_str (fst cv)) (List.filter (fun cv => pri_key_flag (fst cv)) row) with
  | [] => None
  | keys => Some keys
  end.

(** ** ENUM and SET *)

Record EnumSetLabels := {
  enums : list (list string);
  sets : list (list string);
}.

Definition labels_is_empty (l : EnumSetLabels) : bool :=
  match enums l, sets l with [], [] => true | _, _ => false end.

(** Ordinals count from one; zero is the invalid value. *)
Definition enum_label (l : EnumSetLabels) (enum_index : nat) (ordinal : Z) : option string :=
  variants ← enums l !! enum_index;
  if ordinal =? 0 then Some "" else (variants : list string) !! (Z.to_nat ordinal - 1)%nat.

Fixpoint selected (bit : Z) (variants : list string) (mask : Z) : list string :=
  match variants with
  | [] => []
  | label :: rest =>
      if Z.testbit mask bit then label :: selected (bit + 1) rest mask
      else selected (bit + 1) rest mask
  end.

Fixpoint join (sep : string) (l : list string) : string :=
  match l with
  | [] => ""
  | [x] => x
  | x :: rest => x +:+ sep +:+ join sep rest
  end.

Definition set_labels (l : EnumSetLabels) (set_index : nat) (mask : Z) : option string :=
  variants ← sets l !! set_index; Some (join "," (selected 0 variants mask)).

Definition numeric_value (value : MysqlValue) : option Z :=
  match value with
  | Int n => if n <? 0 then None else Some n
  | UInt n => Some n
  | Bytes b => if utf8_valid b then parse_u64 (trim (string_of_list_byte b)) else None
  | _ => None
  end.

Fixpoint little_endian (b : list byte) : Z :=
  match b with
  | [] => 0
  | x :: rest => Z.lor (byte_code x) (Z.shiftl (little_endian rest) 8)
  end.

Definition bitmask_value (value : MysqlValue) : option Z :=
  match value with
  | Int n => if n <? 0 then None else Some n
  | UInt n => Some n
  | Bytes b => if Nat.leb 1 (length b) && Nat.leb (length b) 8 then Some (little_endian b) else None
  | _ => None
  end.

(** A column with its labels, counted among the columns of its own kind. *)
Definition labelled_json (l : EnumSetLabels) (enum_index set_index : nat) (c : Column)
    (raw : option MysqlValue) : json :=
  let fallback := match raw with
                  | Some v => mysql_value_to_json_typed v (Some (column_type c))
                  | None => JNull
                  end in
  match column_type c with
  | MYSQL_TYPE_ENUM =>
      match (v ← raw; n ← numeric_value v; enum_label l enum_index n) with
      | Some t => JStr t
      | None => fallback
      end
  | MYSQL_TYPE_SET =>
      match (v ← raw; mask ← bitmask_value v; set_labels l set_index mask) with
      | Some t => JStr t
      | None => fallback
      end
  | _ => column_json c raw
  end.

Fixpoint labelled_fields (l : EnumSetLabels) (enum_index set_index : nat) (row : MysqlRow)
    : list (string * json) :=
  match row with
  | [] => []
  | (c, raw) :: rest =>
      (name_str c, labelled_json l enum_index set_index c raw)
      :: labelled_fields l
           (match column_type c with MYSQL_TYPE_ENUM => S enum_index | _ => enum_index end)
           (match column_type c with MYSQL_TYPE_SET => S set_index | _ => set_index end) rest
  end.

Definition mysql_row_to_json_with_labels (row : MysqlRow) (l : EnumSetLabels) : json :=
  if labels_is_empty l then mysql_row_to_json row
  else JObj (obj_of (labelled_fields l 0 0 row)).

End Columns.

(** ** GTID sets as text *)

Definition format_gtid (sid : list byte) (gno : Z) : string :=
  hex (take 4 sid) +:+ "-" +:+ hex (take 2 (drop 4 sid)) +:+ "-" +:+ hex (take 2 (drop 6 sid))
  +:+ "-" +:+ hex (take 2 (drop 8 sid)) +:+ "-" +:+ hex (take 6 (drop 10 sid)) +:+ ":" +:+ show gno.

Definition Intervals := list (string * list (Z * Z)).

(** The intervals of a fragment: nothing when it does not parse. *)
Definition text_interval (interval : string) : list (Z * Z) :=
  match split_once "-" interval with
  | Some (start, stop) =>
      match parse_u64 (trim start), parse_u64 (trim stop) with
      | Some s, Some e => [(s, Z.max e s)]
      | _, _ => []
      end
  | None => match parse_u64 interval with Some v => [(v, v)] | None => [] end
  end.

(** [BTreeMap::entry(k).or_default().extend(v)]: keys in order. *)
Fixpoint extend_entry (k : string) (v : list (Z * Z)) (m : Intervals) : Intervals :=
  match m with
  | [] => [(k, v)]
  | (k', v') :: m' =>
      match String.compare k k' with
      | Lt => (k, v) :: m
      | Eq => (k', v' ++ v) :: m'
      | Gt => (k', v') :: extend_entry k v m'
      end
  end.

Definition add_uuid_set (m : Intervals) (uuid_set : string) : Intervals :=
  match map trim (split ":" uuid_set) with
  | uuid :: parts =>
      if is_empty uuid then m
      else extend_entry (lower uuid)
             (flat_map text_interval (List.filter (fun p => negb (is_empty p)) parts)) m
  | [] => m
  end.

Definition parse_gtid_set_intervals (set : string) : Intervals :=
  fold_left add_uuid_set (List.filter (fun s => negb (is_empty s)) (map trim (split "," set))) [].

Definition show_interval (x : Z * Z) : string :=
  if fst x =? snd x then show (fst x) else show (fst x) +:+ "-" +:+ show (snd x).

Definition render_uuid_set (u : string * list (Z * Z)) : string :=
  fst u +:+ ":" +:+ join ":" (map show_interval (GtidSet.coalesce (snd u))).

Definition render_gtid_set (m : Intervals) : string :=
  join "," (map render_uuid_set (List.filter (fun u => match snd u with [] => false | _ => true end) m)).

Definition merge_gtid_into_set (set gtid : string) : string :=
  render_gtid_set (fold_left (fun m u => extend_entry (fst u) (snd u) m)
                     (parse_gtid_set_intervals gtid) (parse_gtid_set_intervals set)).

(** ** Overlap of a snapshot *)

Section Overlap.
Context `{JsonCodec}.

Fixpoint fingerprint_columns (acc : string) (row : object) (columns : list string) : option string :=
  match columns with
  | [] => Some acc
  | c :: columns' =>
      v ← obj_get c row;
      fingerprint_columns (acc +:+ "|" +:+ c +:+ "=" +:+ string_of_list_byte (print_json v)) row columns'
  end.

Definition mysql_event_pk_fingerprint (e : Event.Event) : option string :=
  columns ← Event.primary_key e;
  match columns with
  | [] => None
  | _ =>
      image ← (match Event.after e with Some v => Some v | None => Event.before e end);
      row ← as_object image;
      fingerprint_columns (Event.table e) row columns
  end.

(** The loop: the events kept, the index of each key's event and the number replaced. *)
Fixpoint dedup_loop (es deduped : list Event.Event) (last_index : gmap string nat) (duplicates : Z)
    : list Event.Event * Z :=
  match es with
  | [] => (deduped, duplicates)
  | e :: es' =>
      match mysql_event_pk_fingerprint e with
      | Some pk =>
          match last_index !! pk with
          | Some i => dedup_loop es' (<[i := e]> deduped) last_index (saturating_add duplicates 1)
          | None => dedup_loop es' (deduped ++ [e]) (<[pk := length deduped]> last_index) duplicates
          end
      | None => dedup_loop es' (deduped ++ [e]) last_index duplicates
      end
  end.

Definition dedup_overlap_events_by_pk (es : list Event.Event) : list Event.Event * Z :=
  dedup_loop es [] ∅ 0.

End Overlap.

End MysqlRows.
