(* ===== verification/MysqlGtid.v ===== *)
(** * MysqlGtid: the executed set the stream keeps as text

    [merge_gtid_into_set] of [src/src/source/mysql/query.rs] against its meaning: a text
    names transactions, and the text of a merge names those of either part. *)

From S2P Require Import Prelude Errors Strs Json Glob GtidSet MysqlRows.

Module MysqlGtid.
Import MysqlRows.

Local Open Scope string_scope.
Local Open Scope Z_scope.
Local Open Scope list_scope.

(** ** Texts without a character *)

Lemma split_without c s p : In p (split c s) -> contains_char c p = false.
Proof.
  revert p. induction s as [|a s IH]; intros p; simpl; [by intros [<-|[]]|].
  destruct (Ascii.eqb a c) eqn:E; [intros [<-|Hp]; [done|by apply IH]|].
  destruct (split c s) as [|q qs]; simpl.
  - intros [<-|[]]. simpl. by rewrite E.
  - intros [<-|Hp]; [|apply IH; by right]. simpl. rewrite E. apply IH. by left.
Qed.

Lemma split_keeps c d s p : contains_char d s = false -> In p (split c s) -> contains_char d p = false.
Proof.
  revert p. induction s as [|a s IH]; intros p; simpl; [by intros _ [<-|[]]|].
  intros [Ea Hs]%orb_false_iff. destruct (Ascii.eqb a c); [intros [<-|Hp]; [done|by apply IH]|].
  destruct (split c s) as [|q qs]; simpl.
  - intros [<-|[]]. simpl. by rewrite Ea.
  - intros [<-|Hp]; [|apply IH; [done|by right]]. simpl. rewrite Ea. apply IH; [done|by left].
Qed.

Lemma trim_without c s : contains_char c s = false -> contains_char c (trim s) = false.
Proof.
  assert (Hs : forall s, contains_char c s = false -> contains_char c (trim_start s) = false).
  { induction s0 as [|a s0 IH]; simpl; [done|]. intros Hc. case_match; [|done].
    apply orb_false_iff in Hc as [_ Hc]. by apply IH. }
  assert (He : forall s, contains_char c s = false -> contains_char c (trim_end s) = false).
  { induction s0 as [|a s0 IH]; simpl; [done|]. intros [Ea Hc]%orb_false_iff. specialize (IH Hc).
    destruct (trim_end s0); [case_match; simpl; [done|by rewrite Ea]|]. simpl in *. by rewrite Ea. }
  intros. by apply He, Hs.
Qed.

Lemma trim_end_idem s : trim_end (trim_end s) = trim_end s.
Proof.
  induction s as [|a s IH]; [done|]. simpl. destruct (trim_end s) as [|b t] eqn:E.
  - destruct (is_whitespace a) eqn:Ea; [done|]. simpl. by rewrite Ea.
  - simpl in *. destruct (trim_end t); [case_match; [done|]|]; by rewrite IH.
Qed.

Lemma trim_twice s : trim (trim s) = trim s.
Proof. unfold trim at 1. rewrite trim_trimmed. unfold trim. apply trim_end_idem. Qed.

Lemma lower_without c s : c = ","%char \/ c = ":"%char -> contains_char c s = false -> contains_char c (lower s) = false.
Proof.
  intros Hc. induction s as [|a s IH]; simpl; [done|]. intros [Ea Hs]%orb_false_iff. rewrite (IH Hs), orb_false_r.
  destruct Hc as [->| ->]; destruct a as [[] [] [] [] [] [] [] []]; vm_compute in *; done.
Qed.

Lemma split_join c l : l <> [] -> Forall (fun s => contains_char c s = false) l -> split c (join (String c "") l) = l.
Proof.
  intros Hne Hl. induction Hl as [|x l Hx Hl IH]; [done|]. destruct l as [|y l]; [by apply split_whole|].
  change (join (String c "") (x :: y :: l)) with (x +:+ String c (join (String c "") (y :: l))).
  rewrite split_here by done. by rewrite IH.
Qed.

(** ** Names and intervals *)

Definition key_ok (k : string) : Prop :=
  k <> "" /\ trim k = k /\ lower k = k /\ contains_char "," k = false /\ contains_char ":" k = false.

Definition tidy (m : Intervals) : Prop :=
  Forall (fun u => key_ok (fst u) /\ Forall GtidSet.wf_interval (snd u)) m.

(** The transactions a map of intervals holds, and those a text names. *)
Definition holds (m : Intervals) (u : string) (n : Z) : Prop :=
  exists ivs, In (u, ivs) m /\ GtidSet.mem ivs n.

Definition executed (set u : string) (n : Z) : Prop := holds (parse_gtid_set_intervals set) u n.

Lemma text_interval_wf s : Forall GtidSet.wf_interval (text_interval s).
Proof.
  assert (Hr : forall v n, parse_u64 v = Some n -> 0 <= n <= u64_max)
    by (intros v n Hv; by apply (parse_uint_range u64_max) in Hv).
  unfold text_interval, GtidSet.wf_interval. destruct (split_once "-" s) as [[a b]|].
  - destruct (parse_u64 (trim a)) as [x|] eqn:Ea; [|constructor].
    destruct (parse_u64 (trim b)) as [y|] eqn:Eb; [|constructor].
    repeat constructor; apply Hr in Ea, Eb; simpl; lia.
  - destruct (parse_u64 s) as [x|] eqn:Ea; [|constructor]. repeat constructor; apply Hr in Ea; simpl; lia.
Qed.

Lemma text_intervals_wf l : Forall GtidSet.wf_interval (flat_map text_interval l).
Proof.
  induction l as [|s l IH]; simpl; [constructor|]. apply Forall_app. split; [apply text_interval_wf|done].
Qed.

Lemma extend_tidy k v m : key_ok k -> Forall GtidSet.wf_interval v -> tidy m -> tidy (extend_entry k v m).
Proof.
  intros Hk Hv Hm. induction Hm as [|[k' v'] m [Hk' Hv'] Hm IH]; simpl; [by apply Forall_cons|].
  case_match; apply Forall_cons; (split; [|try done]); try done; [|by apply Forall_cons].
  split; [done|]. by apply Forall_app.
Qed.

Lemma holds_cons k v m u n : holds ((k, v) :: m) u n <-> u = k /\ GtidSet.mem v n \/ holds m u n.
Proof.
  unfold holds. simpl. split.
  - intros (ivs & [[= <- <-]|Hi] & Hm); eauto.
  - intros [[-> Hm]|(ivs & Hi & Hm)]; eauto.
Qed.

Lemma holds_nil u n : ~ holds [] u n.
Proof. by intros (? & [] & _). Qed.

Lemma extend_holds k v m u n : holds (extend_entry k v m) u n <-> holds m u n \/ u = k /\ GtidSet.mem v n.
Proof.
  induction m as [|[k' v'] m IH]; simpl.
  - rewrite holds_cons. tauto.
  - destruct (String.compare k k') eqn:E; rewrite !holds_cons; [|tauto|rewrite IH; tauto].
    apply compare_eq_iff in E as ->. rewrite GtidSet.mem_app. tauto.
Qed.

(** ** Parsing *)

(** The transactions one entry of a text names. *)
Definition entry_holds (s u : string) (n : Z) : Prop := holds (add_uuid_set [] s) u n.

Lemma add_holds m s u n : holds (add_uuid_set m s) u n <-> holds m u n \/ entry_holds s u n.
Proof.
  unfold entry_holds, add_uuid_set. pose proof (holds_nil u n).
  destruct (map trim (split ":" s)) as [|uuid parts]; [tauto|]. destruct (is_empty uuid); [tauto|].
  rewrite !extend_holds. tauto.
Qed.

Lemma adds_hold l m u n :
  holds (fold_left add_uuid_set l m) u n <-> holds m u n \/ exists s, In s l /\ entry_holds s u n.
Proof.
  revert m. induction l as [|s l IH]; intros m; simpl.
  - split; [by left|]. by intros [?|(? & [] & _)].
  - rewrite IH, add_holds. split.
    + intros [[Hm|Hs]|(t & Ht & He)]; eauto 6.
    + intros [Hm|(t & [<-|Ht] & He)]; eauto 6.
Qed.

Lemma extends_hold l m u n :
  holds (fold_left (fun m e => extend_entry (fst e) (snd e) m) l m) u n <-> holds m u n \/ holds l u n.
Proof.
  revert m. induction l as [|[k v] l IH]; intros m; simpl; [pose proof (holds_nil u n); tauto|].
  rewrite IH, extend_holds, holds_cons. tauto.
Qed.

Definition entries (set : string) : list string :=
  List.filter (fun s => negb (is_empty s)) (map trim (split "," set)).

Lemma entries_without set s : In s (entries set) -> contains_char "," s = false.
Proof.
  unfold entries. intros [(p & <- & Hp)%in_map_iff _]%filter_In.
  apply trim_without. by eapply split_without.
Qed.

Lemma add_tidy m s : contains_char "," s = false -> tidy m -> tidy (add_uuid_set m s).
Proof.
  intros Hs Hm. unfold add_uuid_set. destruct (map trim (split ":" s)) as [|uuid parts] eqn:E; [done|].
  destruct (is_empty uuid) eqn:Ee; [done|]. apply extend_tidy; [|apply text_intervals_wf|done].
  destruct (split ":" s) as [|p ps] eqn:Ep; [done|]. simpl in E. injection E as <- _.
  assert (Hp : In p (split ":" s)) by (rewrite Ep; by left).
  split_and!.
  - intros E'. destruct (trim p); [done|discriminate E'].
  - by rewrite <-Glob.trim_fold, trim_twice.
  - by rewrite lower_idem.
  - apply lower_without; [by left|]. apply trim_without. by eapply split_keeps.
  - apply lower_without; [by right|]. apply trim_without. by eapply split_without.
Qed.

Lemma parse_tidy set : tidy (parse_gtid_set_intervals set).
Proof.
  unfold parse_gtid_set_intervals. fold (entries set).
  assert (Hl : Forall (fun s => contains_char "," s = false) (entries set)).
  { apply Forall_forall. intros s Hs%list_elem_of_In. by eapply entries_without. }
  assert (H0 : tidy []) by constructor. revert H0. generalize (@nil (string * list (Z * Z))) as m.
  induction Hl as [|s l Hs _ IH]; intros m Hm; simpl; [done|]. by apply IH, add_tidy.
Qed.

(** ** Rendering *)

Lemma show_interval_facts x : GtidSet.wf_interval x ->
  text_interval (show_interval x) = [x] /\ trim (show_interval x) = show_interval x /\ show_interval x <> ""
  /\ contains_char ":" (show_interval x) = false /\ contains_char "," (show_interval x) = false.
Proof.
  destruct x as [a b]. unfold GtidSet.wf_interval. simpl. intros [Hab Hb]. unfold text_interval, show_interval. simpl.
  assert (Ha0 : 0 <= a) by lia. assert (Hb0 : 0 <= b) by lia.
  assert (Hshow : forall n, 0 <= n <= u64_max -> parse_u64 (show n) = Some n) by (intros; by apply parse_show).
  assert (Hw : forall n, 0 <= n -> no_whitespace (show n) = true) by (intros; by apply show_fuel_no_whitespace).
  assert (Ht : forall s, no_whitespace s = true -> trim s = s).
  { intros s Hs. unfold trim. replace (trim_start s) with s; [by apply trim_end_no_whitespace|].
    destruct s as [|c s]; [done|]. simpl in *. apply andb_true_iff in Hs as [Hc _]. apply negb_true_iff in Hc. by rewrite Hc. }
  destruct (a =? b) eqn:E.
  - apply Z.eqb_eq in E as <-.
    assert (split_once "-" (show a) = None) as ->.
    { destruct (split_once "-" (show a)) as [[l r]|] eqn:Es; [|done]. apply split_once_spec in Es as [Es _].
      pose proof (show_no_char "-" a eq_refl ltac:(lia)) as Hn. by rewrite Es, contains_char_mid in Hn. }
    rewrite Hshow by lia. split_and!; [done|by apply Ht, Hw|apply show_not_empty|by apply show_no_char|by apply show_no_char].
  - rewrite (split_once_here "-" (show a) (show b)) by (by apply show_no_char).
    rewrite !Ht by (by apply Hw). rewrite !Hshow by lia. split_and!.
    + by replace (Z.max b a) with b by lia.
    + apply Ht. rewrite no_whitespace_app, Hw by lia. simpl. apply Hw. lia.
    + destruct (show a) eqn:Ea; [by apply show_not_empty in Ea|done].
    + rewrite contains_char_app. simpl. rewrite !show_no_char by (done || lia). done.
    + rewrite contains_char_app. simpl. rewrite !show_no_char by (done || lia). done.
Qed.

Lemma coalesce_nonempty l : Forall GtidSet.wf_interval l -> l <> [] -> GtidSet.coalesce l <> [].
Proof.
  intros Hw Hne E. destruct l as [|[a b] l]; [done|]. apply (GtidSet.mem_nil a). rewrite <-E.
  apply (GtidSet.coalesce_spec _ Hw), GtidSet.mem_cons. left. inversion Hw as [|? ? [Hab _] _]. simpl in *. lia.
Qed.

Lemma join_facts c l : Forall (fun s => s <> "" /\ trim s = s) l -> l <> [] ->
  join (String c "") l <> "" /\ trim_start (join (String c "") l) = join (String c "") l
  /\ trim_end (join (String c "") l) = join (String c "") l.
Proof.
  assert (Hends : forall s, trim s = s -> trim_start s = s /\ trim_end s = s).
  { intros s Hs. assert (H1 : trim_start s = s) by (rewrite <-Hs at 1; rewrite trim_trimmed; done).
    split; [done|]. unfold trim in Hs. by rewrite H1 in Hs. }
  intros Hl Hne0. induction Hl as [|x l [Hx Ht] Hl IH]; [done|destruct l as [|y l]].
  - destruct (Hends x Ht). by split_and!.
  - change (join (String c "") (x :: y :: l)) with (x +:+ String c (join (String c "") (y :: l))).
    destruct (Hends x Ht) as [Hs _]. destruct IH as (Hne & _ & He); [done|]. split_and!.
    + by destruct x.
    + by apply trim_start_app.
    + apply trim_end_app; [done|]. cbn [trim_end]. rewrite He. by destruct (join (String c "") (y :: l)).
Qed.

Lemma map_trimmed l : Forall (fun s => s <> "" /\ trim s = s) l ->
  map trim l = l /\ List.filter (fun s => negb (is_empty s)) l = l.
Proof.
  induction 1 as [|x l [Hx Ht] _ [IH1 IH2]]; simpl; [done|]. rewrite Ht, IH1, IH2.
  unfold is_empty. by destruct (String.eqb_spec x "").
Qed.

Lemma flat_intervals l : Forall GtidSet.wf_interval l -> flat_map text_interval (map show_interval l) = l.
Proof. induction 1 as [|x l Hx _ IH]; simpl; [done|]. by rewrite (proj1 (show_interval_facts x Hx)), IH. Qed.

Definition shown (u : string * list (Z * Z)) : Prop :=
  key_ok (fst u) /\ Forall GtidSet.wf_interval (snd u) /\ snd u <> [].

(** One rendered entry: what it names, and that it stays whole in a list. *)
Lemma render_entry u : shown u ->
  add_uuid_set [] (render_uuid_set u) = [(fst u, GtidSet.coalesce (snd u))]
  /\ (render_uuid_set u <> "" /\ trim (render_uuid_set u) = render_uuid_set u)
  /\ contains_char "," (render_uuid_set u) = false.
Proof.
  destruct u as [k ivs]. unfold render_uuid_set, shown. cbn [fst snd].
  intros ((Hk & Htk & Hlk & Hck & Hdk) & Hw & Hne).
  pose proof (coalesce_nonempty ivs Hw Hne) as Hcne. destruct (GtidSet.coalesce_spec ivs Hw) as [[Hcw _] _].
  set (c := GtidSet.coalesce ivs) in *.
  assert (Hshown : Forall (fun s => s <> "" /\ trim s = s) (map show_interval c)).
  { apply Forall_fmap. eapply Forall_impl; [exact Hcw|]. intros x Hx. simpl. by split; apply show_interval_facts. }
  assert (Hcolon : Forall (fun s => contains_char ":" s = false) (map show_interval c)).
  { apply Forall_fmap. eapply Forall_impl; [exact Hcw|]. intros x Hx. simpl. by apply show_interval_facts. }
  assert (Hmne : map show_interval c <> []) by (by destruct c).
  destruct (join_facts ":" _ Hshown Hmne) as (Hjne & Hjs & Hje). destruct (map_trimmed _ Hshown) as [Hmt Hmf].
  split; [|split; [split|]].
  - unfold add_uuid_set. change (":" +:+ ?t) with (String ":" t). rewrite split_here, split_join by done.
    cbn [map]. rewrite Htk, Hmt. assert (is_empty k = false) as -> by (unfold is_empty; by destruct (String.eqb_spec k "")).
    rewrite Hmf, flat_intervals, Hlk by done. done.
  - by destruct k.
  - unfold trim. assert (trim_start k = k) as Hks by (rewrite <-Htk at 1; rewrite trim_trimmed; done).
    rewrite trim_start_app by done. apply trim_end_app; [done|].
    change (":" +:+ ?t) with (String ":" t). cbn [trim_end]. rewrite Hje. by destruct (join ":" (map show_interval c)).
  - rewrite contains_char_app, Hck. simpl. clear -Hcw. induction Hcw as [|x l Hx Hl IH]; [done|].
    destruct (show_interval_facts x Hx) as (_ & _ & _ & _ & Hc). destruct l as [|y l]; [done|].
    change (join ":" (map show_interval (x :: y :: l)))
      with (show_interval x +:+ String ":" (join ":" (map show_interval (y :: l)))).
    rewrite contains_char_app, Hc. simpl. exact IH.
Qed.

Lemma parse_rendered m u n : tidy m -> executed (render_gtid_set m) u n <-> holds m u n.
Proof.
  intros Hm. unfold executed, parse_gtid_set_intervals, render_gtid_set.
  set (kept := List.filter (fun u : string * list (Z * Z) => match snd u with [] => false | _ => true end) m).
  assert (Hk : Forall shown kept).
  { apply Forall_forall. intros [k ivs] [Hin Hne]%list_elem_of_In%filter_In.
    unfold tidy in Hm. rewrite Forall_forall in Hm. destruct (Hm (k, ivs)) as [Hk Hw]; [by apply list_elem_of_In|].
    split_and!; [done|done|]. by destruct ivs. }
  assert (Hsame : holds m u n <-> holds kept u n).
  { unfold kept, holds. split; intros (ivs & Hin & Hmem); exists ivs; (split; [|done]).
    - apply filter_In. split; [done|]. destruct ivs; [by apply GtidSet.mem_nil in Hmem|done].
    - by apply filter_In in Hin as [? _]. }
  rewrite Hsame, adds_hold. clear Hm Hsame. clearbody kept.
  assert (Hentries : List.filter (fun s => negb (is_empty s)) (map trim (split "," (join "," (map render_uuid_set kept))))
                     = map render_uuid_set kept).
  { destruct kept as [|e kept]; [done|]. rewrite split_join.
    - assert (Hs : Forall (fun s => s <> "" /\ trim s = s) (map render_uuid_set (e :: kept))).
      { apply Forall_fmap. eapply Forall_impl; [exact Hk|]. intros x Hx. by apply render_entry. }
      destruct (map_trimmed _ Hs) as [E1 E2]. by rewrite E1, E2.
    - done.
    - apply Forall_fmap. eapply Forall_impl; [exact Hk|]. intros x Hx. by apply render_entry. }
  rewrite Hentries. clear Hentries. pose proof (holds_nil u n) as Hnil.
  induction Hk as [|[k ivs] kept He _ IH]; simpl.
  - split; [|done]. by intros [?|(? & [] & _)].
  - rewrite holds_cons, <-IH. destruct (render_entry _ He) as (Ea & _ & _). cbn [fst snd] in Ea.
    assert (Hent : entry_holds (render_uuid_set (k, ivs)) u n <-> u = k /\ GtidSet.mem ivs n).
    { unfold entry_holds. rewrite Ea, holds_cons, (proj2 (GtidSet.coalesce_spec ivs (proj1 (proj2 He)))). tauto. }
    split.
    + intros [?|(s & [<-|Hs] & Hh)]; [done|left; by apply Hent|right; right; eauto].
    + intros [Hh|[?|(s & Hs & Hh)]]; [right; exists (render_uuid_set (k, ivs)); split; [by left|by apply Hent]|done|right; eauto].
Qed.

Lemma merged_tidy set gtid :
  tidy (fold_left (fun m u => extend_entry (fst u) (snd u) m)
          (parse_gtid_set_intervals gtid) (parse_gtid_set_intervals set)).
Proof.
  pose proof (parse_tidy set) as Hs. pose proof (parse_tidy gtid) as Hg. revert Hs.
  generalize (parse_gtid_set_intervals set) as m. induction Hg as [|[k v] l [Hk Hv] _ IH]; intros m Hm; simpl; [done|].
  by apply IH, extend_tidy.
Qed.

(** C27: merging a GTID into the executed set is the union.  Whatever the two texts are,
    with unparseable fragments skipped, the merged text names exactly the transactions that
    one of them names: none is forgotten and none is claimed. *)
Theorem merged_set_is_union (set gtid u : string) (n : Z) :
  executed (merge_gtid_into_set set gtid) u n <-> executed set u n \/ executed gtid u n.
Proof.
  unfold merge_gtid_into_set. rewrite parse_rendered by apply merged_tidy.
  unfold executed. by rewrite extends_hold.
Qed.

End MysqlGtid.
