(* ===== verification/Mysql.v ===== *)
(** * Mysql: the MySQL and MariaDB change stream

    Models [src/src/source/mysql.rs] with [parser.rs], [state.rs], [stream_messages.rs],
    [stream_start.rs] and [handoff.rs] of [src/src/source/mysql/]: names and positions, the
    binlog provider that turns events into messages, the stream handle that turns messages
    into transactions of events, starting and resuming, saving the position, and the
    handoff from a snapshot.

    The binlog connection is the third-party client's.  What it delivers is a list of
    arrivals: an event with its header, an error, the end of the connection, or nothing
    before the read timeout; an exhausted list delivers nothing.  Each arrival carries
    whether the caller's deadline has passed when it is asked for.  Decoded rows come with
    the event; the client may fail to decode any of them. *)

From S2P Require Import Prelude Errors CheckpointApi Strs Text Json Offsets Glob Event Monad SchemaHistory DdlParse GtidSet MysqlRows.

Module Mysql.
Import Event MysqlRows.

Local Open Scope string_scope.
Local Open Scope Z_scope.

(** ** Names *)

Definition config_err {A} : Res A := Err (ConfigError "mysql snapshot table name is invalid").

(** [char::is_control]: C0, DEL and C1. *)
Definition is_control (c : string) : bool :=
  match c with
  | String a "" => (code a <? 32) || (code a =? 127)
  | String a (String b "") => (code a =? 194) && between 128 159 (code b)
  | _ => false
  end.

Definition word_char (c : string) : bool :=
  match c with
  | String a "" =>
      between 48 57 (code a) || between 65 90 (code a) || between 97 122 (code a)
      || Ascii.eqb a "_" || Ascii.eqb a "$"
  | _ => false
  end.

Definition finalize_mysql_identifier_segment (raw : Text.text) (quoted : bool) : Res string :=
  let segment := if quoted then raw else Text.strip raw in
  match segment with
  | [] => config_err
  | _ => if forallb (fun c => if quoted then negb (is_control c) else word_char c) segment
         then Ok (Text.str segment) else config_err
  end.

(** The loop of [parse_mysql_identifier_path]; doubled back quotes stand for one. *)
Fixpoint identifier_path (t : Text.text) (current : Text.text) (in_quotes segment_quoted : bool)
    (parts : list string) : Res (list string) :=
  match t with
  | [] =>
      if in_quotes then config_err
      else last <-? finalize_mysql_identifier_segment current segment_quoted; Ok (parts ++ [last])%list
  | ch :: t' =>
      if in_quotes then
        if String.eqb ch "`" then
          match t' with
          | next :: t'' =>
              if String.eqb next "`" then identifier_path t'' (current ++ ["`"])%list true segment_quoted parts
              else identifier_path t' current false segment_quoted parts
          | [] => identifier_path t' current false segment_quoted parts
          end
        else identifier_path t' (current ++ [ch])%list true segment_quoted parts
      else if String.eqb ch "`" then
        if Text.blank current then identifier_path t' [] true true parts else config_err
      else if String.eqb ch "." then
        segment <-? finalize_mysql_identifier_segment current segment_quoted;
        identifier_path t' [] false false (parts ++ [segment])%list
      else identifier_path t' (current ++ [ch])%list false segment_quoted parts
  end.

Definition parse_mysql_identifier_path (input : Text.text) : Res (list string) :=
  identifier_path input [] false false [].

Definition split_table_reference (table : Text.text) : Res (option string * string) :=
  match Text.strip table with
  | [] => Err (ConfigError "mysql snapshot table name must not be empty")
  | trimmed =>
      parts <-? parse_mysql_identifier_path trimmed;
      match parts with
      | [table_name] => Ok (None, table_name)
      | [schema_name; table_name] => Ok (Some schema_name, table_name)
      | _ => config_err
      end
  end.

Fixpoint double_back_quotes (s : string) : string :=
  match s with
  | "" => ""
  | String a s' => if Ascii.eqb a "`" then String a (String a (double_back_quotes s'))
                   else String a (double_back_quotes s')
  end.

Definition quoted_mysql_identifier (identifier : string) : string :=
  "`" +:+ double_back_quotes identifier +:+ "`".

Definition mysql_qualified_table_name (schema : option string) (table : string) : string :=
  match schema with
  | Some s => quoted_mysql_identifier s +:+ "." +:+ quoted_mysql_identifier table
  | None => quoted_mysql_identifier table
  end.

Definition mysql_qualified_table_name_from_reference (table : string) : Res string :=
  r <-? split_table_reference (Text.chars table); Ok (mysql_qualified_table_name (fst r) (snd r)).

(** ** Positions *)

Definition parse_mysql_source_offset (offset : string) : option (string * Z) :=
  fr ← split_once ":" offset;
  let '(file, rest) := (fr : string * string) in
  let position := match Text.find (Text.chars "#gtid=") (Text.chars rest) with
                  | Some n => substring 0 n rest
                  | None => rest
                  end in
  pos ← parse_u32 position; Some (file, pos).

Definition format_mysql_source_offset (binlog_file : string) (binlog_pos : Z) (gtid : string) : string :=
  if is_empty gtid then binlog_file +:+ ":" +:+ show binlog_pos
  else binlog_file +:+ ":" +:+ show binlog_pos +:+ "#gtid=" +:+ gtid.

(** Files in the order of their names. *)
Definition compare_binlog_position (file_a : string) (pos_a : Z) (file_b : string) (pos_b : Z) : comparison :=
  match String.compare file_a file_b with
  | Eq => pos_a ?= pos_b
  | other => other
  end.

Definition is_le (c : comparison) : bool := match c with Gt => false | _ => true end.

Fixpoint take_digits (s : string) : string :=
  match s with
  | String a s' => if between 48 57 (code a) then String a (take_digits s') else ""
  | "" => ""
  end.

Definition unusable_name : Error := SourceError "mysql rotate event carried an unusable binlog file name".

Definition sanitize_binlog_file_name (raw : string) : Res string :=
  match rsplit_once "." raw with
  | None => Err unusable_name
  | Some (base, suffix) =>
      let digits := take_digits suffix in
      if is_empty digits then Err unusable_name
      else if is_empty base || existsb (fun c => is_control c || negb (Text.is_ascii c)) (Text.chars base)
      then Err unusable_name
      else Ok (base +:+ "." +:+ digits)
  end.

(** The fold of an event's end position; zero leaves the position. *)
Definition advance_binlog_pos (current event_log_pos : Z) : Z :=
  if 0 <? event_log_pos then event_log_pos else current.

(** ** Statements *)

Section Statements.
Context `{Text.CaseTable}.

(** Positions of the upper-case text are used in the text itself.  A length that comes out
    negative is the panic of the subtraction or of the slice. *)
Definition parse_truncate_target (statement : Text.text) : Res (option (option string * string)) :=
  let trimmed := Text.ltrim statement in
  let upper := Text.to_uppercase trimmed in
  if negb (Text.begins (Text.chars "TRUNCATE") upper) then Ok None
  else
    let after_kw := drop 8 upper in
    if (Text.byte_len trimmed <? Text.byte_len after_kw)%nat then Panic
    else
      after_kw_orig <-? Text.slice_from (Text.byte_len trimmed - Text.byte_len after_kw) trimmed;
      let after_kw_upper := Text.ltrim after_kw in
      trimmed_after_kw <-? Text.slice_from (Text.byte_len after_kw - Text.byte_len after_kw_upper) after_kw_orig;
      table_ref <-? (if Text.begins (Text.chars "TABLE") (Text.to_uppercase trimmed_after_kw)
                     then s <-? Text.slice_from 5 trimmed_after_kw; Ok (Text.ltrim s)
                     else Ok trimmed_after_kw);
      let cleaned := Text.strip (Text.drop_while_end (fun c => String.eqb c ";") (Text.strip table_ref)) in
      match cleaned with
      | [] => Ok None
      | _ => match split_table_reference cleaned with
             | Ok r => Ok (Some r)
             | Err _ => Ok None
             | Panic => Panic
             end
      end.

End Statements.

(** ** Messages *)

Record MysqlRowChange := {
  rc_schema : option string;
  rc_table : string;
  rc_primary_key : option (list string);
  rc_before : option json;
  rc_after : option json;
}.

Inductive MysqlBinlogMessage :=
| MBegin (tx_id timestamp_ms : Z)
| WriteRows (change : MysqlRowChange)
| UpdateRows (change : MysqlRowChange)
| DeleteRows (change : MysqlRowChange)
| MXid (tx_id timestamp_ms : Z) (binlog_file : string) (binlog_pos : Z) (gtid : option string)
| MRotate (binlog_file : string) (binlog_pos : Z)
| MGtid (gtid : string)
| MDdl (captured : SchemaHistory.CapturedDdl) (timestamp_ms : Z) (binlog_file : string) (binlog_pos : Z)
| MTruncate (schema : option string) (table : string) (timestamp_ms : Z) (binlog_file : string)
    (binlog_pos : Z)
| MHeartbeat.

(** ** The binlog *)

(** An image of a row: absent, or the row the client made of it, if it could. *)
Definition Image := option (option MysqlRow).

Inductive RowsKind := WriteRowsEvent | UpdateRowsEvent | DeleteRowsEvent.

Record TableMap := {
  database_name : string;
  tm_table_name : string;
  optional_labels : EnumSetLabels;
}.

(** The events the source tells apart.  The rows come with their table map, when the
    client still has it; a row pair the client could not read is [None]. *)
Inductive EventData :=
| QueryEvent (statement : string)
| RowsEvent (kind : RowsKind) (table_map : option TableMap) (rows : list (option (Image * Image)))
| XidEvent (xid : Z)
| RotateEvent (name : string) (position : Z)
| GtidEvent (sid : list byte) (gno : Z)
| HeartbeatEvent
| OtherEvent.

(** The body: of a type the client does not know, undecodable, without data, or data. *)
Inductive Body :=
| Unclassified (event_type : Z) (data : list byte)
| Undecodable
| NoData
| Data (d : EventData).

Record BinlogEvent := {
  log_pos : Z;
  header_timestamp : Z;
  server_id : Z;
  body : Body;
}.

Inductive Arrival := NothingYet | ConnectionClosed | StreamError | Arrived (e : BinlogEvent).

(** A turn of the read loop: whether the deadline has passed, and what arrives. *)
Record Turn := { past_deadline : bool; arrival : Arrival }.

(** ** The provider *)

Record LiveMysqlBinlogProvider := {
  arrivals : list Turn;
  provider_file : string;
  next_pos : Z;
  active_gtid : option string;
  active_tx_id : option Z;
  next_tx_id : Z;
}.

Definition with_arrivals (a : list Turn) (p : LiveMysqlBinlogProvider) : LiveMysqlBinlogProvider :=
  {| arrivals := a; provider_file := provider_file p; next_pos := next_pos p;
     active_gtid := active_gtid p; active_tx_id := active_tx_id p; next_tx_id := next_tx_id p |}.

Definition at_position (file : string) (pos : Z) (p : LiveMysqlBinlogProvider) : LiveMysqlBinlogProvider :=
  {| arrivals := arrivals p; provider_file := file; next_pos := pos;
     active_gtid := active_gtid p; active_tx_id := active_tx_id p; next_tx_id := next_tx_id p |}.

Definition with_tx (g : option string) (tx : option Z) (next : Z) (p : LiveMysqlBinlogProvider)
    : LiveMysqlBinlogProvider :=
  {| arrivals := arrivals p; provider_file := provider_file p; next_pos := next_pos p;
     active_gtid := g; active_tx_id := tx; next_tx_id := next |}.

Section Provider.
Context `{FloatText} `{Text.CaseTable}.
Variable is_character_type : ColumnType -> bool.

Definition ensure_active_tx (p : LiveMysqlBinlogProvider) : Z * bool * LiveMysqlBinlogProvider :=
  match active_tx_id p with
  | Some tx_id => (tx_id, false, p)
  | None => (next_tx_id p, true,
             with_tx (active_gtid p) (Some (next_tx_id p)) (saturating_add (next_tx_id p) 1) p)
  end.

Definition from_le (b : list byte) : Z := little_endian b.

Definition parse_mariadb_gtid_event (server : Z) (data : list byte) : option string :=
  if (length data <? 13)%nat then None
  else Some (show (from_le (take 4 (drop 8 data))) +:+ "-" +:+ show server +:+ "-"
             +:+ show (from_le (take 8 data))).

Definition MARIA_GTID_EVENT : Z := 162.
Definition MARIA_START_ENCRYPTION_EVENT : Z := 164.

(** Every type but the two is skipped. *)
Definition decode_mariadb_event (raw_event_type server : Z) (data : list byte)
    : M LiveMysqlBinlogProvider (list MysqlBinlogMessage) :=
  if raw_event_type =? MARIA_GTID_EVENT then
    match parse_mariadb_gtid_event server data with
    | None => throw (SourceError "mariadb GTID event payload is too short")
    | Some gtid =>
        modify (fun p => with_tx (Some gtid) (active_tx_id p) (next_tx_id p) p);;
        mret [MGtid gtid]
    end
  else if raw_event_type =? MARIA_START_ENCRYPTION_EVENT then
    throw (Unrecoverable "mariadb binlog encryption is enabled (START_ENCRYPTION_EVENT)")
  else mret [].

Definition unconvertible : Error := SourceError "failed converting mysql binlog row to row".

Definition convert (i : Image) : Res (option MysqlRow) :=
  match i with
  | None => Ok None
  | Some (Some row) => Ok (Some row)
  | Some None => Err unconvertible
  end.

Definition decode_row_change (t : TableMap) (before after : Image) : Res MysqlRowChange :=
  before <-? convert before;
  after <-? convert after;
  let image (r : option MysqlRow) :=
    option_map (fun row => mysql_row_to_json_with_labels is_character_type row (optional_labels t)) r in
  Ok {| rc_schema := Some (database_name t); rc_table := tm_table_name t;
        rc_primary_key := match before ≫= primary_key_columns_from_row with
                          | Some keys => Some keys
                          | None => after ≫= primary_key_columns_from_row
                          end;
        rc_before := image before; rc_after := image after |}.

Definition row_message (kind : RowsKind) (c : MysqlRowChange) : MysqlBinlogMessage :=
  match kind with
  | WriteRowsEvent => WriteRows c
  | UpdateRowsEvent => UpdateRows c
  | DeleteRowsEvent => DeleteRows c
  end.

Fixpoint row_messages (kind : RowsKind) (t : TableMap) (rows : list (option (Image * Image)))
    : Res (list MysqlBinlogMessage) :=
  match rows with
  | [] => Ok []
  | None :: _ => Err (SourceError "failed decoding mysql rows event row pair")
  | Some (b, a) :: rows' =>
      change <-? decode_row_change t b a;
      rest <-? row_messages kind t rows';
      Ok (row_message kind change :: rest)
  end.

(** The message that ends the transaction at the provider's position, and its GTID. *)
Definition xid_message (tx_id timestamp_ms : Z) (p : LiveMysqlBinlogProvider) : MysqlBinlogMessage :=
  MXid tx_id timestamp_ms (provider_file p) (next_pos p) (active_gtid p).

Definition decode_query (statement : string) (timestamp_ms : Z)
    : M LiveMysqlBinlogProvider (list MysqlBinlogMessage) := fun p =>
  if eq_nocase (Text.str (Text.strip (Text.chars statement))) "BEGIN" then
    let '(tx_id, _, p') := ensure_active_tx p in (Ok [MBegin tx_id timestamp_ms], p')
  else
    match DdlParse.extract_captured_ddl DdlParse.Mysql statement with
    | Ok (Some captured) =>
        (Ok [MDdl (SchemaHistory.set_ts timestamp_ms captured) timestamp_ms (provider_file p) (next_pos p)], p)
    | Ok None =>
        match parse_truncate_target (Text.chars statement) with
        | Ok (Some (schema, table)) =>
            let truncate := MTruncate schema table timestamp_ms (provider_file p) (next_pos p) in
            match active_tx_id p with
            | Some tx_id => (Ok [xid_message tx_id timestamp_ms p; truncate],
                             with_tx None None (next_tx_id p) p)
            | None => (Ok [truncate], p)
            end
        | Ok None => (Ok [], p)
        | Err e => (Err e, p)
        | Panic => (Panic, p)
        end
    | Err e => (Err e, p)
    | Panic => (Panic, p)
    end.

Definition decode_event_data (data : EventData) (timestamp_ms : Z)
    : M LiveMysqlBinlogProvider (list MysqlBinlogMessage) :=
  match data with
  | QueryEvent statement => decode_query statement timestamp_ms
  | RowsEvent kind table_map rows => fun p =>
      let '(tx_id, opened_here, p') := ensure_active_tx p in
      match table_map with
      | None => (Err (SourceError "mysql rows event missing table map metadata"), p')
      | Some t =>
          (msgs <-? row_messages kind t rows;
           Ok ((if opened_here then [MBegin tx_id timestamp_ms] else []) ++ msgs)%list, p')
      end
  | XidEvent xid => fun p =>
      let '(tx_id, next) :=
        match active_tx_id p with
        | Some tx_id => (tx_id, next_tx_id p)
        | None => if xid =? 0 then (next_tx_id p, saturating_add (next_tx_id p) 1) else (xid, next_tx_id p)
        end in
      (Ok [xid_message tx_id timestamp_ms p], with_tx None None next p)
  | RotateEvent name position => fun p =>
      match sanitize_binlog_file_name name with
      | Ok file =>
          let p := at_position file (next_pos p) p in
          if u32_max <? position then (Err (SourceError "mysql rotate position exceeds u32"), p)
          else (Ok [MRotate file position], at_position file position p)
      | Err e => (Err e, p)
      | Panic => (Panic, p)
      end
  | GtidEvent sid gno =>
      let value := format_gtid sid gno in
      modify (fun p => with_tx (Some value) (active_tx_id p) (next_tx_id p) p);;
      mret [MGtid value]
  | HeartbeatEvent => mret [MHeartbeat]
  | OtherEvent => mret []
  end.

Definition decode_event (e : BinlogEvent) : M LiveMysqlBinlogProvider (list MysqlBinlogMessage) :=
  modify (fun p => at_position (provider_file p) (advance_binlog_pos (next_pos p) (log_pos e)) p);;
  match body e with
  | Unclassified ty data => decode_mariadb_event ty (server_id e) data
  | Undecodable => throw (SourceError "failed decoding mysql binlog event payload")
  | NoData => mret []
  | Data d => decode_event_data d (header_timestamp e * 1000)
  end.

(** The read loop: over the turns, with what has been collected. *)
Fixpoint read_loop (turns : list Turn) (max_events : nat) (out : list MysqlBinlogMessage)
    (p : LiveMysqlBinlogProvider) : Res (list MysqlBinlogMessage) * LiveMysqlBinlogProvider :=
  if (max_events <=? length out)%nat then (Ok out, with_arrivals turns p)
  else
    match turns with
    | [] => (Ok out, with_arrivals [] p)
    | t :: turns' =>
        if past_deadline t && negb (bool_decide (length out = 0%nat)) then (Ok out, with_arrivals turns p)
        else
          match arrival t with
          | NothingYet => (Ok out, with_arrivals turns' p)
          | ConnectionClosed =>
              (Err (SourceError "mysql replication stream closed unexpectedly"), with_arrivals turns' p)
          | StreamError => (Err (SourceError "mysql replication stream yielded error"), with_arrivals turns' p)
          | Arrived e =>
              let '(res, p') := decode_event e p in
              match res with
              | Ok msgs => read_loop turns' max_events (out ++ msgs)%list p'
              | Err err => (Err err, with_arrivals turns' p')
              | Panic => (Panic, with_arrivals turns' p')
              end
          end
    end.

Definition poll_events (max_events : nat) : M LiveMysqlBinlogProvider (list MysqlBinlogMessage) := fun p =>
  read_loop (arrivals p) max_events [] p.

(** ** The stream *)

Inductive StreamState := Starting | Streaming | Stopped.

Record MysqlStreamHandle := {
  name : string;
  file : string;
  pos : Z;
  gtid : string;
  stream_state : StreamState;
  provider : LiveMysqlBinlogProvider;
  current_tx_id : option Z;
  current_commit_ts : Z;
  partial_tx_events : list Event;
  requeued_events : list Event;
  events_polled : Z;
  max_events_per_poll : nat;
  table_include_list : list string;
  table_exclude_list : list string;
}.

Definition with_stream (f : string) (n : Z) (g : string) (h : MysqlStreamHandle) : MysqlStreamHandle :=
  {| name := name h; file := f; pos := n; gtid := g; stream_state := stream_state h;
     provider := provider h; current_tx_id := current_tx_id h; current_commit_ts := current_commit_ts h;
     partial_tx_events := partial_tx_events h; requeued_events := requeued_events h;
     events_polled := events_polled h; max_events_per_poll := max_events_per_poll h;
     table_include_list := table_include_list h; table_exclude_list := table_exclude_list h |}.

Definition with_open_tx (tx : option Z) (ts : Z) (es : list Event) (polled : Z) (h : MysqlStreamHandle)
    : MysqlStreamHandle :=
  {| name := name h; file := file h; pos := pos h; gtid := gtid h; stream_state := stream_state h;
     provider := provider h; current_tx_id := tx; current_commit_ts := ts;
     partial_tx_events := es; requeued_events := requeued_events h;
     events_polled := polled; max_events_per_poll := max_events_per_poll h;
     table_include_list := table_include_list h; table_exclude_list := table_exclude_list h |}.

Definition with_provider (p : LiveMysqlBinlogProvider) (q : list Event) (h : MysqlStreamHandle)
    : MysqlStreamHandle :=
  {| name := name h; file := file h; pos := pos h; gtid := gtid h; stream_state := stream_state h;
     provider := p; current_tx_id := current_tx_id h; current_commit_ts := current_commit_ts h;
     partial_tx_events := partial_tx_events h; requeued_events := q;
     events_polled := events_polled h; max_events_per_poll := max_events_per_poll h;
     table_include_list := table_include_list h; table_exclude_list := table_exclude_list h |}.

(** [as u32] *)
Definition as_u32 (n : nat) : Z := Z.of_nat n mod 2 ^ 32.

Definition tx_meta (h : MysqlStreamHandle) : option TransactionMetadata :=
  tx ← current_tx_id h;
  Some {| tx_id := tx; total_events := None; event_index := as_u32 (length (partial_tx_events h)) |}.

Definition source_meta (h : MysqlStreamHandle) : SourceMetadata :=
  {| source_name := name h; offset := file h +:+ ":" +:+ show (pos h); timestamp := current_commit_ts h |}.

Definition build_event (h : MysqlStreamHandle) (o : Operation) (c : MysqlRowChange) : Event :=
  {| before := rc_before c; after := rc_after c; op := o; source := source_meta h;
     ts := current_commit_ts h; schema := rc_schema c; table := rc_table c;
     primary_key := rc_primary_key c; snapshot := None; transaction := tx_meta h;
     envelope_version := EVENT_ENVELOPE_VERSION; before_is_key_only := false;
     unavailable_columns := []; before_unavailable_columns := [] |}.

(** An event as its transaction's commit leaves it. *)
Definition stamp (total index : Z) (timestamp_ms : Z) (off : string) (e : Event) : Event :=
  {| before := before e; after := after e; op := op e;
     source := {| source_name := source_name (source e); offset := off; timestamp := timestamp_ms |};
     ts := timestamp_ms; schema := schema e; table := table e; primary_key := primary_key e;
     snapshot := snapshot e;
     transaction := option_map (fun t => {| tx_id := tx_id t; total_events := Some total; event_index := index |})
                      (transaction e);
     envelope_version := envelope_version e; before_is_key_only := before_is_key_only e;
     unavailable_columns := unavailable_columns e;
     before_unavailable_columns := before_unavailable_columns e |}.

Definition commit_current_transaction (tx timestamp_ms : Z) (binlog_file : string) (binlog_pos : Z)
    (g : option string) (h : MysqlStreamHandle) : list Event * MysqlStreamHandle :=
  let effective_gtid := default (gtid h) g in
  let total := as_u32 (length (partial_tx_events h)) in
  let off := format_mysql_source_offset binlog_file binlog_pos effective_gtid in
  (imap (fun index e => stamp total (as_u32 index) timestamp_ms off e) (partial_tx_events h),
   with_open_tx None 0 [] (saturating_add (events_polled h) total)
     (with_stream binlog_file binlog_pos effective_gtid h)).

Definition allowed (h : MysqlStreamHandle) (schema : option string) (table : string) : bool :=
  Glob.table_is_allowed schema table (table_include_list h) (table_exclude_list h).

Definition process_row (o : Operation) (c : MysqlRowChange) (h : MysqlStreamHandle) : MysqlStreamHandle :=
  if allowed h (rc_schema c) (rc_table c) then
    with_open_tx (current_tx_id h) (current_commit_ts h) (partial_tx_events h ++ [build_event h o c])%list
      (events_polled h) h
  else h.

(** A statement that commits what is open: the rows of an open transaction are handed out,
    those without one are dropped. *)
Definition commit_implicitly (timestamp_ms : Z) (binlog_file : string) (binlog_pos : Z)
    (h : MysqlStreamHandle) : list Event * MysqlStreamHandle :=
  match partial_tx_events h, current_tx_id h with
  | [], _ => ([], h)
  | _, Some tx => commit_current_transaction tx timestamp_ms binlog_file binlog_pos None h
  | _, None => ([], with_open_tx (current_tx_id h) (current_commit_ts h) [] (events_polled h) h)
  end.

Definition truncate_event (h : MysqlStreamHandle) (s : option string) (t : string) (timestamp_ms : Z)
    (binlog_file : string) (binlog_pos : Z) : Event :=
  {| before := None; after := None; op := Truncate;
     source := {| source_name := name h;
                  offset := format_mysql_source_offset binlog_file binlog_pos (gtid h);
                  timestamp := timestamp_ms |};
     ts := timestamp_ms; schema := s; table := t; primary_key := None; snapshot := None;
     transaction := None; envelope_version := EVENT_ENVELOPE_VERSION; before_is_key_only := false;
     unavailable_columns := []; before_unavailable_columns := [] |}.

Definition count_one (h : MysqlStreamHandle) : MysqlStreamHandle :=
  with_open_tx (current_tx_id h) (current_commit_ts h) (partial_tx_events h)
    (saturating_add (events_polled h) 1) h.

Definition process_message (m : MysqlBinlogMessage) (h : MysqlStreamHandle) : list Event * MysqlStreamHandle :=
  match m with
  | MBegin tx ts => ([], with_open_tx (Some tx) ts [] (events_polled h) h)
  | WriteRows c => ([], process_row Insert c h)
  | UpdateRows c => ([], process_row Update c h)
  | DeleteRows c => ([], process_row Delete c h)
  | MXid tx ts f n g => commit_current_transaction tx ts f n g h
  | MRotate f n => ([], with_stream f n (gtid h) h)
  | MGtid g => ([], with_stream (file h) (pos h) (merge_gtid_into_set (gtid h) g) h)
  | MDdl captured ts f n =>
      let '(es, h) := commit_implicitly ts f n h in
      let h := with_stream f n (gtid h) h in
      if allowed h (Some (SchemaHistory.ddl_schema captured)) (SchemaHistory.ddl_table captured) then
        ((es ++ [SchemaHistory.to_event captured (name h) (format_mysql_source_offset f n (gtid h)) ts])%list,
         count_one h)
      else (es, h)
  | MTruncate s t ts f n =>
      let '(es, h) := commit_implicitly ts f n h in
      let h := with_stream f n (gtid h) h in
      if allowed h s t then ((es ++ [truncate_event h s t ts f n])%list, count_one h) else (es, h)
  | MHeartbeat => ([], h)
  end.

Fixpoint process_messages (ms : list MysqlBinlogMessage) (h : MysqlStreamHandle) : list Event * MysqlStreamHandle :=
  match ms with
  | [] => ([], h)
  | m :: ms' =>
      let '(es, h) := process_message m h in
      let '(rest, h) := process_messages ms' h in
      ((es ++ rest)%list, h)
  end.

(** The loop of a poll; [expired] says after each read whether the caller's timeout is
    over, and an exhausted list that it is. *)
Fixpoint poll_loop (expired : list bool) (h : MysqlStreamHandle) : Res (list Event) * MysqlStreamHandle :=
  let '(res, p) := poll_events (max_events_per_poll h) (provider h) in
  let h := with_provider p (requeued_events h) h in
  match res with
  | Err e => (Err e, h)
  | Panic => (Panic, h)
  | Ok ms =>
      let '(es, h) := process_messages ms h in
      match es with
      | _ :: _ => (Ok es, h)
      | [] =>
          match expired with
          | [] | true :: _ => (Ok [], h)
          | false :: expired' => poll_loop expired' h
          end
      end
  end.

Definition next_events (expired : list bool) : M MysqlStreamHandle (list Event) := fun h =>
  match stream_state h with
  | Streaming =>
      match requeued_events h with
      | [] => poll_loop expired h
      | drained => (Ok drained, with_provider (provider h) [] h)
      end
  | _ => (Err (StateError "mysql stream polling requested while stream is not running"), h)
  end.

Definition requeue_events (es : list Event) (h : MysqlStreamHandle) : MysqlStreamHandle :=
  with_provider (provider h) (requeued_events h ++ es)%list h.

(** ** Saving the position *)

Definition position (h : MysqlStreamHandle) : MysqlOffset :=
  {| Offsets.gtid := gtid h; Offsets.binlog_file := file h; Offsets.binlog_pos := pos h;
     source_flavor := name h; my_incremental_snapshot := None |}.

Definition position_offset `{JsonCodec} (h : MysqlStreamHandle) : DynOffset := mysql_dyn (position h).

Definition save_position `{JsonCodec} {C} `{Checkpoint C} (store : C) (h : MysqlStreamHandle) : Res unit * C :=
  save (mysql_dyn (position h)) (events_polled h) store.

End Provider.

End Mysql.
