(* ===== verification/MysqlStart.v ===== *)
(** * MysqlStart: connecting, starting and handing over a MySQL stream

    Models the rest of the MySQL connector's control flow: the connection and its checks
    ([connect], [validate_with_backend], [LiveValidationBackend] of
    [src/src/source/mysql.rs]), where a stream starts ([stream_start.rs]), the replication
    request ([parse_gtid_set], [LiveMysqlBinlogProvider::new]), [start_stream], and the
    handoff from a snapshot ([handoff.rs], [perform_handoff]).

    The server is a class: one operation per statement the connector sends.  A request for
    the binlog answers with the arrivals the connection will deliver.  Parsing one entry of
    a GTID set for the request belongs to the client library and is a parameter. *)

From S2P Require Import Prelude Errors CheckpointApi Strs Text Json Offsets Glob Event Monad SchemaHistory DdlParse GtidSet MysqlRows Mysql.

Module MysqlStart.
Import Event MysqlRows Mysql.

Local Open Scope string_scope.
Local Open Scope Z_scope.

(** ** Configuration *)

Inductive ServerFlavor := FlavorMysql | FlavorMariaDb.

Definition flavor_source_name (f : ServerFlavor) : string :=
  match f with FlavorMysql => "mysql" | FlavorMariaDb => "mariadb" end.

Definition snapshot_source_name (f : ServerFlavor) : string :=
  match f with FlavorMysql => "mysql_snapshot" | FlavorMariaDb => "mariadb_snapshot" end.

(** The fields the connector reads after its configuration was checked. *)
Record MysqlSourceConfig := {
  database : string;
  config_server_id : Z;
  gtid_mode_enabled : bool;
  binlog_format_check : bool;
  config_max_events : nat;
  server_flavor : ServerFlavor;
  include_list : list string;
  exclude_list : list string;
  handoff_overlap_drain_budget_ms : Z;
}.

Definition config_source_type (c : MysqlSourceConfig) : string := flavor_source_name (server_flavor c).

(** ** The server *)

Record BinlogStreamRequest (Sid : Type) := {
  request_server_id : Z;
  filename : string;
  request_pos : Z;
  with_gtid : bool;
  gtid_sids : list Sid;
}.
Arguments request_server_id {Sid}. Arguments filename {Sid}. Arguments request_pos {Sid}.
Arguments with_gtid {Sid}. Arguments gtid_sids {Sid}.

(** The columns of a status row: file and position. *)
Definition StatusRow : Type := option string * option Z.

(** A query answers with the first row, if there is one.  [global_var] answers with the
    text of the client's error, or the value. *)
Class MysqlServer (D Sid : Type) := {
  get_conn : M D unit;
  show_master_status : M D (option StatusRow);
  show_binary_log_status : M D (option StatusRow);
  gtid_executed : M D (option string);
  gtid_purged : M D (option string);
  gtid_subset : string -> string -> M D (option Z);
  gtid_subtract : string -> string -> M D (option string);
  gtid_mode : M D (option string);
  binlog_format : M D (option string);
  show_grants : M D (list string);
  log_bin : M D (option Z);
  global_var : string -> M D (string + option string);
  get_binlog_stream : BinlogStreamRequest Sid -> M D (list Turn);
}.

Definition u64_default (o : option Z) : Z := default 4 o.

Section Server.
Context {D Sid : Type} {Srv : MysqlServer D Sid}.

(** [SHOW MASTER STATUS], or [SHOW BINARY LOG STATUS] where that fails. *)
Definition log_status : M D (string * Z) :=
  row ← catch show_master_status
          (fun _ => map_err (fun _ => SourceError "failed to query mysql binary log status") show_binary_log_status);
  match row with
  | Some (file, pos) => mret (default "" file, u64_default pos)
  | None => throw (SourceError "mysql master status unavailable")
  end.

(** ** The checks of a connection *)

Definition gtid_mode_on : M D bool :=
  get_conn;; mode ← gtid_mode; mret (match mode with Some v => eq_nocase v "ON" | None => false end).

Definition binlog_format_row : M D bool :=
  get_conn;; v ← binlog_format; mret (match v with Some v => eq_nocase v "ROW" | None => false end).

Definition has_replication_privilege : M D bool :=
  get_conn;;
  grants ← show_grants;
  mret (existsb (fun g => contains_str "replication" (lower g) || contains_str "all privileges" (lower g)) grants).

Definition binlog_enabled : M D bool :=
  get_conn;; v ← log_bin; mret (negb (default 0 v =? 0)).

Definition query_optional_global_var (expr : string) : M D (option string) :=
  get_conn;;
  r ← global_var expr;
  match r with
  | inr value => mret value
  | inl error => if contains_str "1193" error then mret None
                 else throw (SourceError "failed to query a global variable")
  end.

Definition require_full (what : string) (v : option string) : M D unit :=
  match v with
  | Some value => if eq_nocase value "FULL" then mret tt
                  else throw (SourceError (what +:+ " must be FULL"))
  | None => mret tt
  end.

Definition validate_with_backend (c : MysqlSourceConfig) : M D unit :=
  (if gtid_mode_enabled c then
     on ← gtid_mode_on;
     if (on : bool) then mret tt else throw (SourceError "mysql GTID mode is required but not enabled")
   else mret tt);;
  (if binlog_format_check c then
     row ← binlog_format_row;
     if (row : bool) then mret tt else throw (SourceError "mysql binlog_format must be ROW for CDC")
   else mret tt);;
  privileged ← has_replication_privilege;
  (if (privileged : bool) then mret tt else throw (SourceError "mysql user lacks REPLICATION privilege"));;
  enabled ← binlog_enabled;
  (if (enabled : bool) then mret tt else throw (SourceError "mysql binary logging is disabled (log_bin=OFF)"));;
  metadata ← query_optional_global_var "@@GLOBAL.BINLOG_ROW_METADATA";
  require_full "binlog_row_metadata" metadata;;
  image ← query_optional_global_var "@@GLOBAL.BINLOG_ROW_IMAGE";
  require_full "binlog_row_image" image;;
  options ← query_optional_global_var "@@GLOBAL.BINLOG_ROW_VALUE_OPTIONS";
  (match options with
   | Some v => if Text.blank (Text.chars v) then mret tt
               else throw (SourceError "mysql binlog_row_value_options must be empty")
   | None => mret tt
   end);;
  get_conn;; log_status;; mret tt.

(** ** Where a stream starts *)

(** A position is resumable when every purged transaction is one it covers. *)
Definition verify_gtid_position_still_available (position : string) : M D unit :=
  get_conn;;
  purged ← catch (v ← gtid_purged; mret (inr v)) (fun _ => mret (inl tt));
  match purged with
  | inl tt | inr None => mret tt
  | inr (Some purged) =>
      if Text.blank (Text.chars purged) then mret tt
      else
        available ← map_err (fun _ => SourceError "mysql GTID availability check failed")
                      (gtid_subset purged position);
        if bool_decide (available = Some 1) then mret tt
        else
          catch (gtid_subtract purged position) (fun _ => mret None);;
          throw (Unrecoverable "mysql binary logs no longer contain the transactions required to resume")
  end.

Definition unavailable_executed : M D string :=
  v ← catch gtid_executed (fun _ => mret None); mret (default "" v).

Section Resume.
Context `{JsonCodec}.

Definition decode_stream_resume_position (expected_source : string) (o : DynOffset) : Res MysqlOffset :=
  if negb (String.eqb (source_type o) expected_source) then
    Err (CheckpointError "mysql stream offset source type mismatch")
  else
    encoded <-? encode o;
    match parse_json encoded ≫= mysql_from_json with
    | Some position => Ok position
    | None => Err (SerializationError "failed decoding mysql offset")
    end.

Record MysqlStreamStartPosition := { start_file : string; start_pos : Z; start_gtid : string }.

Definition resolve_stream_start_position (source : string) (resume_from : option DynOffset)
    : M D MysqlStreamStartPosition :=
  get_conn;;
  head ← log_status;
  get_conn;;
  executed ← unavailable_executed;
  start ←
    match resume_from with
    | None => mret (fst head, snd head, executed)
    | Some o =>
        resumed ← of_res (decode_stream_resume_position source o);
        let g := Offsets.gtid resumed in
        (if is_empty g then mret tt else verify_gtid_position_still_available g);;
        mret (binlog_file resumed, binlog_pos resumed, if is_empty g then executed else g)
    end;
  let '(f, n, g) := (start : string * Z * string) in
  if u32_max <? n then throw (SourceError "mysql stream start binlog pos exceeds u32")
  else mret {| start_file := f; start_pos := n; start_gtid := g |}.

(** ** Opening the binlog *)

Variable parse_sid : string -> option Sid.

Definition parse_gtid_set (gtid_set : string) : option (list Sid) :=
  let trimmed := Text.strip (Text.chars gtid_set) in
  match trimmed with
  | [] => Some []
  | _ =>
      mapM (fun entry => parse_sid (Text.str entry))
        (List.filter (fun entry => negb (bool_decide (entry = [])))
           (map Text.strip (Text.split_text "," [] trimmed)))
  end.

(** [LiveMysqlBinlogProvider::new] *)
Definition new_provider (c : MysqlSourceConfig) (start : MysqlStreamStartPosition)
    : M D LiveMysqlBinlogProvider :=
  sids ← (if gtid_mode_enabled c then
            of_res (match parse_gtid_set (start_gtid start) with
                    | Some sids => Ok sids
                    | None => Err (CheckpointError "cannot resume mysql stream: checkpointed GTID set is malformed")
                    end)
          else mret []);
  turns ← map_err (fun _ => SourceError "failed to start mysql replication stream")
            (get_binlog_stream {| request_server_id := config_server_id c; filename := start_file start;
                                  request_pos := start_pos start; with_gtid := gtid_mode_enabled c;
                                  gtid_sids := sids |});
  mret {| arrivals := turns; provider_file := start_file start; next_pos := start_pos start;
          active_gtid := None; active_tx_id := None; next_tx_id := 1 |}.

(** ** The connection *)

Record MysqlConnection := {
  config : MysqlSourceConfig;
  pool : bool;
  heartbeat_task : bool;
  snapshot_watermark : option MysqlOffset;
  stream_start : option MysqlOffset;
  conn_max_events : nat;
  conn_db : D;
}.

Definition new_connection (c : MysqlSourceConfig) (d : D) : MysqlConnection :=
  {| config := c; pool := false; heartbeat_task := false; snapshot_watermark := None;
     stream_start := None; conn_max_events := Nat.max (config_max_events c) 1; conn_db := d |}.

Definition with_pool (p h : bool) (c : MysqlConnection) : MysqlConnection :=
  {| config := config c; pool := p; heartbeat_task := h; snapshot_watermark := snapshot_watermark c;
     stream_start := stream_start c; conn_max_events := conn_max_events c; conn_db := conn_db c |}.

Definition with_marks (s t : option MysqlOffset) (c : MysqlConnection) : MysqlConnection :=
  {| config := config c; pool := pool c; heartbeat_task := heartbeat_task c; snapshot_watermark := s;
     stream_start := t; conn_max_events := conn_max_events c; conn_db := conn_db c |}.

Definition with_conn_db (d : D) (c : MysqlConnection) : MysqlConnection :=
  {| config := config c; pool := pool c; heartbeat_task := heartbeat_task c;
     snapshot_watermark := snapshot_watermark c; stream_start := stream_start c;
     conn_max_events := conn_max_events c; conn_db := d |}.

Definition on_server {A} (m : M D A) : M MysqlConnection A := fun c =>
  let '(res, d) := m (conn_db c) in (res, with_conn_db d c).

(** [connect] with the [tls] feature; the configuration's own check is given. *)
Definition connect (valid : Res unit) : M MysqlConnection unit :=
  of_res valid;;
  connected ← gets pool;
  if (connected : bool) then throw (StateError "mysql connection already established")
  else
    on_server (map_err (fun _ => SourceError "mysql connection failed") get_conn);;
    cfg ← gets config;
    on_server (validate_with_backend cfg);;
    modify (with_pool true true).

Definition close (c : MysqlConnection) : MysqlConnection := with_pool false false c.

Definition new_offset (flavor : ServerFlavor) (f : string) (n : Z) (g : string) : MysqlOffset :=
  {| Offsets.gtid := g; binlog_file := f; binlog_pos := n; source_flavor := flavor_source_name flavor;
     my_incremental_snapshot := None |}.

(** [MysqlStreamHandle::new] on a stream that has just started. *)
Definition new_handle (c : MysqlConnection) (start : MysqlStreamStartPosition) (p : LiveMysqlBinlogProvider)
    : MysqlStreamHandle :=
  {| name := config_source_type (config c); file := start_file start; pos := start_pos start;
     gtid := start_gtid start; stream_state := Streaming; provider := p; current_tx_id := None;
     current_commit_ts := 0; partial_tx_events := []; requeued_events := []; events_polled := 0;
     max_events_per_poll := Nat.max (conn_max_events c) 1; table_include_list := include_list (config c);
     table_exclude_list := exclude_list (config c) |}.

Definition start_stream (resume_from : option DynOffset) : M MysqlConnection MysqlStreamHandle :=
  connected ← gets pool;
  if negb connected then throw (StateError "mysql connection must be established before stream")
  else
    cfg ← gets config;
    start ← on_server (resolve_stream_start_position (config_source_type cfg) resume_from);
    modify (fun c => with_marks (snapshot_watermark c)
              (Some (new_offset (server_flavor cfg) (start_file start) (start_pos start) (start_gtid start))) c);;
    p ← on_server (new_provider cfg start);
    c ← gets id;
    mret (new_handle c start p).

End Resume.
End Server.

(** ** The handoff from a snapshot *)

Record MysqlHandoff := {
  snapshot_binlog_file : string;
  snapshot_binlog_pos : Z;
  stream_start_binlog_file : string;
  stream_start_binlog_pos : Z;
}.

Definition has_no_gap (h : MysqlHandoff) : bool :=
  is_le (compare_binlog_position (stream_start_binlog_file h) (stream_start_binlog_pos h)
           (snapshot_binlog_file h) (snapshot_binlog_pos h)).

Record HandoffResult := {
  snapshot_end_ts : option Z;
  stream_start_ts : option Z;
  overlap_events_dropped : option Z;
  stream_watermark_gap : option Z;
}.

Section Handoff.
Context `{FloatText} `{Text.CaseTable} `{JsonCodec} {SH : Type}.
Variable is_character_type : ColumnType -> bool.
(** The snapshot handle's [finish]: its end timestamp. *)
Variable finish : M SH Z.

Definition HandoffState : Type := SH * MysqlStreamHandle.

Definition on_snapshot {A} (m : M SH A) : M HandoffState A := fun h =>
  let '(res, s) := m (fst h) in (res, (s, snd h)).

Definition on_stream {A} (m : M MysqlStreamHandle A) : M HandoffState A := fun h =>
  let '(res, s) := m (snd h) in (res, (fst h, s)).

(** Whether an event lies at or before the snapshot. *)
Definition overlaps (h : MysqlHandoff) (e : Event) : bool :=
  match parse_mysql_source_offset (offset (source e)) with
  | Some (file, pos) => is_le (compare_binlog_position file pos (snapshot_binlog_file h) (snapshot_binlog_pos h))
  | None => false
  end.

(** The events of a batch up to the first beyond the snapshot, and the rest. *)
Fixpoint partition_batch (h : MysqlHandoff) (batch : list Event) : list Event * list Event :=
  match batch with
  | [] => ([], [])
  | e :: batch' =>
      if overlaps h e then let '(o, n) := partition_batch h batch' in (e :: o, n) else ([], batch)
  end.

(** The drain: each turn says whether the budget is spent; an exhausted list, that it is. *)
Fixpoint drain (spent : list bool) (h : MysqlHandoff) (overlap : list Event) : M HandoffState (list Event * list Event) :=
  match spent with
  | [] | true :: _ => mret (overlap, [])
  | false :: spent' =>
      batch ← on_stream (next_events is_character_type []);
      match batch with
      | [] => mret (overlap, [])
      | _ =>
          let '(o, n) := partition_batch h batch in
          match n with
          | [] => drain spent' h (overlap ++ o)%list
          | _ => mret ((overlap ++ o)%list, n)
          end
      end
  end.

Definition mysql_handoff_result (now : Z) (spent : list bool) (snapshot_wm stream_wm : MysqlOffset)
    : M HandoffState HandoffResult :=
  let handoff := {| snapshot_binlog_file := binlog_file snapshot_wm; snapshot_binlog_pos := binlog_pos snapshot_wm;
                    stream_start_binlog_file := binlog_file stream_wm;
                    stream_start_binlog_pos := binlog_pos stream_wm |} in
  if negb (has_no_gap handoff) then
    throw (SourceError "mysql handoff invariant violated: events would be lost")
  else
    snapshot_end ← on_snapshot finish;
    drained ← drain spent handoff [];
    let '(deduped, duplicates) := dedup_overlap_events_by_pk (fst drained) in
    (match (deduped ++ snd drained)%list with
     | [] => mret tt
     | replay => on_stream (modify (requeue_events replay))
     end);;
    mret {| snapshot_end_ts := Some snapshot_end; stream_start_ts := Some now;
            overlap_events_dropped := Some duplicates; stream_watermark_gap := None |}.

Definition perform_handoff (now : Z) (spent : list bool) (snapshot_wm stream_wm : option MysqlOffset)
    : M HandoffState HandoffResult :=
  match snapshot_wm, stream_wm with
  | None, _ => throw (StateError "mysql perform_handoff requires start_snapshot to have been called first")
  | _, None => throw (StateError "mysql perform_handoff requires start_stream to have been called first")
  | Some s, Some t => mysql_handoff_result now spent s t
  end.

End Handoff.

End MysqlStart.
