(* ===== verification/MysqlStream.v ===== *)
(** * MysqlStream: what a MySQL stream delivers

    A binlog is a list of entries: quiet events, transactions from their [BEGIN] to their
    [XID], schema changes, truncations and rotations.  Whatever way its events arrive and
    are polled, the stream hands out the events of a prefix of the entries, each
    transaction whole, and its position is the end of the last visible entry of that
    prefix; a stream started again from a saved position goes on from there.  The GTID set
    of the position has no such property: a commit replaces it by one transaction. *)

From S2P Require Import Prelude Errors CheckpointApi Strs Text Json Offsets Glob Event Monad SchemaHistory DdlParse GtidSet MysqlRows Mysql MysqlStart.

Module MysqlStream.
Import Event MysqlRows Mysql MysqlStart.

Local Open Scope string_scope.
Local Open Scope Z_scope.
Local Open Scope list_scope.

(** ** The binlog *)

Record Header := { h_pos : Z; h_ts : Z; h_server : Z }.

Definition event_of (h : Header) (d : EventData) : BinlogEvent :=
  {| log_pos := h_pos h; header_timestamp := h_ts h; server_id := h_server h; body := Data d |}.

(** Rows of one table, or an event that says nothing. *)
Inductive Inner :=
| IRows (h : Header) (kind : RowsKind) (t : TableMap) (rows : list (option MysqlRow * option MysqlRow))
| IQuiet (e : BinlogEvent).

Inductive Entry :=
| EQuiet (e : BinlogEvent)
| ETransaction (b : Header) (inner : list Inner) (x : Header) (xid : Z)
| EDdl (h : Header) (statement : string)
| ETruncate (h : Header) (statement : string)
| ERotate (h : Header) (rotate_name : string) (rotate_pos : Z).

Definition inner_event (i : Inner) : BinlogEvent :=
  match i with
  | IRows h kind t rows =>
      event_of h (RowsEvent kind (Some t)
        (map (fun r => Some (option_map Some (fst r), option_map Some (snd r))) rows))
  | IQuiet e => e
  end.

Definition entry_events (u : Entry) : list BinlogEvent :=
  match u with
  | EQuiet e => [e]
  | ETransaction b inner x xid =>
      event_of b (QueryEvent "BEGIN") :: map inner_event inner ++ [event_of x (XidEvent xid)]
  | EDdl h s | ETruncate h s => [event_of h (QueryEvent s)]
  | ERotate h n p => [event_of h (RotateEvent n p)]
  end.

Definition log_events (us : list Entry) : list BinlogEvent := flat_map entry_events us.

Section Stream.
Context {FT : FloatText} {CT : Text.CaseTable}.
Variable is_character_type : ColumnType -> bool.

Definition not_begin (s : string) : Prop := eq_nocase (Text.str (Text.strip (Text.chars s))) "BEGIN" = false.

(** An event that yields nothing. *)
Inductive quiet : BinlogEvent -> Prop :=
| quiet_unclassified p t s ty d : ty <> MARIA_GTID_EVENT -> ty <> MARIA_START_ENCRYPTION_EVENT ->
    quiet {| log_pos := p; header_timestamp := t; server_id := s; body := Unclassified ty d |}
| quiet_nodata p t s : quiet {| log_pos := p; header_timestamp := t; server_id := s; body := NoData |}
| quiet_other h : quiet (event_of h OtherEvent)
| quiet_heartbeat h : quiet (event_of h HeartbeatEvent)
| quiet_query h s : not_begin s -> DdlParse.extract_captured_ddl DdlParse.Mysql s = Ok None ->
    parse_truncate_target (Text.chars s) = Ok None -> quiet (event_of h (QueryEvent s)).

Definition wf_inner (i : Inner) : Prop := match i with IRows _ _ _ _ => True | IQuiet e => quiet e end.

(** The end position of an event that has one. *)
Definition u32_pos (h : Header) : Prop := 0 < h_pos h <= u32_max.

Definition wf_entry (u : Entry) : Prop :=
  match u with
  | EQuiet e => quiet e
  | ETransaction _ inner x _ => Forall wf_inner inner /\ u32_pos x
  | EDdl h s => not_begin s /\ u32_pos h /\
      exists c, DdlParse.extract_captured_ddl DdlParse.Mysql s = Ok (Some c)
  | ETruncate h s => not_begin s /\ u32_pos h /\ DdlParse.extract_captured_ddl DdlParse.Mysql s = Ok None /\
      exists t, parse_truncate_target (Text.chars s) = Ok (Some t)
  | ERotate _ n p => 0 <= p <= u32_max /\ exists f, sanitize_binlog_file_name n = Ok f
  end.

(** ** What it says *)

(** A stream's name and table filter. *)
Record Reading := { r_name : string; r_include : list string; r_exclude : list string }.

Definition passes (r : Reading) (schema : option string) (table : string) : bool :=
  Glob.table_is_allowed schema table (r_include r) (r_exclude r).

Definition change_of (t : TableMap) (row : option MysqlRow * option MysqlRow) : MysqlRowChange :=
  let image := option_map (fun r => mysql_row_to_json_with_labels is_character_type r (optional_labels t)) in
  {| rc_schema := Some (database_name t); rc_table := tm_table_name t;
     rc_primary_key := match fst row ≫= primary_key_columns_from_row with
                       | Some keys => Some keys
                       | None => snd row ≫= primary_key_columns_from_row
                       end;
     rc_before := image (fst row); rc_after := image (snd row) |}.

Definition op_of (k : RowsKind) : Operation :=
  match k with WriteRowsEvent => Insert | UpdateRowsEvent => Update | DeleteRowsEvent => Delete end.

Definition changes_of (i : Inner) : list (Operation * MysqlRowChange) :=
  match i with
  | IRows _ k t rows => map (fun r => (op_of k, change_of t r)) rows
  | IQuiet _ => []
  end.

(** The changes of a transaction the filter lets pass, in order. *)
Definition visible (r : Reading) (inner : list Inner) : list (Operation * MysqlRowChange) :=
  List.filter (fun oc => passes r (rc_schema (snd oc)) (rc_table (snd oc))) (flat_map changes_of inner).

(** An event of a committed transaction; the transaction's number is the stream's own and
    is left out of the comparison. *)
Definition row_event (r : Reading) (f : string) (x : Header) (total : nat) (i : nat) (oc : Operation * MysqlRowChange)
    : Event :=
  let '(o, c) := oc in
  {| before := rc_before c; after := rc_after c; op := o;
     source := {| source_name := r_name r; offset := f +:+ ":" +:+ show (h_pos x); timestamp := h_ts x * 1000 |};
     ts := h_ts x * 1000; schema := rc_schema c; table := rc_table c; primary_key := rc_primary_key c;
     snapshot := None;
     transaction := Some {| tx_id := 0; total_events := Some (as_u32 total); event_index := as_u32 i |};
     envelope_version := EVENT_ENVELOPE_VERSION; before_is_key_only := false;
     unavailable_columns := []; before_unavailable_columns := [] |}.

Definition ddl_event (r : Reading) (f : string) (h : Header) (c : SchemaHistory.CapturedDdl) : Event :=
  SchemaHistory.to_event (SchemaHistory.set_ts (h_ts h * 1000) c) (r_name r)
    (f +:+ ":" +:+ show (h_pos h)) (h_ts h * 1000).

Definition truncation (r : Reading) (f : string) (h : Header) (s : option string) (t : string) : Event :=
  {| before := None; after := None; op := Truncate;
     source := {| source_name := r_name r; offset := f +:+ ":" +:+ show (h_pos h); timestamp := h_ts h * 1000 |};
     ts := h_ts h * 1000; schema := s; table := t; primary_key := None; snapshot := None;
     transaction := None; envelope_version := EVENT_ENVELOPE_VERSION; before_is_key_only := false;
     unavailable_columns := []; before_unavailable_columns := [] |}.

(** The events an entry of the file [f] stands for. *)
Definition entry_says (r : Reading) (f : string) (u : Entry) : list Event :=
  match u with
  | ETransaction _ inner x _ =>
      imap (row_event r f x (length (visible r inner))) (visible r inner)
  | EDdl h s =>
      match DdlParse.extract_captured_ddl DdlParse.Mysql s with
      | Ok (Some c) =>
          if passes r (Some (SchemaHistory.ddl_schema c)) (SchemaHistory.ddl_table c) then [ddl_event r f h c] else []
      | _ => []
      end
  | ETruncate h s =>
      match parse_truncate_target (Text.chars s) with
      | Ok (Some (sc, t)) => if passes r sc t then [truncation r f h sc t] else []
      | _ => []
      end
  | EQuiet _ | ERotate _ _ _ => []
  end.

(** Where an entry leaves the position. *)
Definition entry_end (c : string * Z) (u : Entry) : string * Z :=
  match u with
  | EQuiet _ => c
  | ETransaction _ _ x _ => (fst c, h_pos x)
  | EDdl h _ | ETruncate h _ => (fst c, h_pos h)
  | ERotate _ n p => (match sanitize_binlog_file_name n with Ok f => f | _ => fst c end, p)
  end.

Definition log_end (c : string * Z) (us : list Entry) : string * Z := fold_left entry_end us c.

Fixpoint log_says (r : Reading) (c : string * Z) (us : list Entry) : list Event :=
  match us with
  | [] => []
  | u :: us' => entry_says r (fst c) u ++ log_says r (entry_end c u) us'
  end.

(** An event without its transaction's number. *)
Definition shown (e : Event) : Event :=
  {| before := before e; after := after e; op := op e; source := source e; ts := ts e;
     schema := schema e; table := table e; primary_key := primary_key e; snapshot := snapshot e;
     transaction := option_map (fun t => {| tx_id := 0; total_events := total_events t;
                                            event_index := event_index t |}) (transaction e);
     envelope_version := envelope_version e; before_is_key_only := before_is_key_only e;
     unavailable_columns := unavailable_columns e;
     before_unavailable_columns := before_unavailable_columns e |}.

(** ** Decoding *)

Abbreviation provider_t := LiveMysqlBinlogProvider.

Fixpoint decode_events (es : list BinlogEvent) : M provider_t (list MysqlBinlogMessage) :=
  match es with
  | [] => mret []
  | e :: es' => ms ← decode_event is_character_type e; rest ← decode_events es'; mret (ms ++ rest)%list
  end.

Lemma decode_events_app es1 es2 p :
  decode_events (es1 ++ es2) p =
  (ms1 ← decode_events es1; ms2 ← decode_events es2; mret (ms1 ++ ms2)%list) p.
Proof.
  revert p. induction es1 as [|e es1 IH]; intros p; cbn [app decode_events].
  - rewrite bind_eq. cbn. rewrite bind_eq. destruct (decode_events es2 p) as [[ms|err|] p']; done.
  - rewrite !bind_eq. destruct (decode_event is_character_type e p) as [[ms|err|] p1]; [|done..].
    rewrite !bind_eq, IH, !bind_eq. destruct (decode_events es1 p1) as [[ms1|err|] p2]; [|done..].
    cbn. rewrite !bind_eq. destruct (decode_events es2 p2) as [[ms2|err|] p3]; [|done..].
    cbn. by rewrite app_assoc.
Qed.

(** Decoding leaves what is still to arrive alone. *)
Lemma decode_event_arrivals e a p :
  decode_event is_character_type e (with_arrivals a p) =
  (fst (decode_event is_character_type e p), with_arrivals a (snd (decode_event is_character_type e p))).
Proof.
  unfold decode_event. rewrite !bind_eq. cbn [modify fst snd].
  destruct (body e) as [ty d| | |d]; cbn -[decode_mariadb_event]; try done.
  - unfold decode_mariadb_event.
    destruct (ty =? _); [destruct (parse_mariadb_gtid_event _ _); done|].
    destruct (ty =? _); done.
  - destruct d as [s|k [t|] rows|x|n ps|sid gno| |]; cbn -[decode_query]; try done.
    + unfold decode_query. destruct (eq_nocase _ _); [unfold ensure_active_tx; cbn; by destruct (active_tx_id p)|].
      destruct (DdlParse.extract_captured_ddl _ _) as [[c|]|err|]; [done| |done..].
      destruct (parse_truncate_target _) as [[[sc tb]|]|err|]; [|done..].
      cbn. by destruct (active_tx_id p).
    + unfold ensure_active_tx. cbn. by destruct (active_tx_id p).
    + unfold ensure_active_tx. cbn. by destruct (active_tx_id p).
    + destruct (active_tx_id p); [done|]. by destruct (x =? 0).
    + destruct (sanitize_binlog_file_name n); [|done..]. by destruct (_ <? ps).
Qed.

Lemma decode_events_arrivals es a p :
  decode_events es (with_arrivals a p) = (fst (decode_events es p), with_arrivals a (snd (decode_events es p))).
Proof.
  revert p. induction es as [|e es IH]; intros p; [done|]. cbn [decode_events].
  rewrite !bind_eq, decode_event_arrivals.
  destruct (decode_event is_character_type e p) as [[ms|err|] p1]; cbn; [|done..].
  rewrite !bind_eq, IH. by destruct (decode_events es p1) as [[ms1|err|] p2].
Qed.

(** ** Arrivals *)

(** The turns deliver a prefix of the events, in order; what comes after a failure of the
    connection does not matter.  [all]: every event, and no failure. *)
Inductive delivers (all : bool) : list Turn -> list BinlogEvent -> Prop :=
| delivers_nothing es : (all = true -> es = []) -> delivers all [] es
| delivers_wait b ts es :
    delivers all ts es -> delivers all ({| past_deadline := b; arrival := NothingYet |} :: ts) es
| delivers_event b e ts es :
    delivers all ts es -> delivers all ({| past_deadline := b; arrival := Arrived e |} :: ts) (e :: es)
| delivers_failure b a ts es : all = false -> a = ConnectionClosed \/ a = StreamError ->
    delivers all ({| past_deadline := b; arrival := a |} :: ts) es.

(** What a read made of the turns: messages of some of the events, the rest to come. *)
Definition read_to (all : bool) (es : list BinlogEvent) (p p' : provider_t) (ms : list MysqlBinlogMessage)
    : Prop :=
  exists es1 es2 q ts', es = es1 ++ es2 /\ decode_events es1 p = (Ok ms, q) /\ p' = with_arrivals ts' q /\
    delivers all ts' es2.

Lemma read_loop_reads all ts es max out p r p' : delivers all ts es ->
  read_loop is_character_type ts max out p = (r, p') ->
  match r with
  | Ok out' => exists ms, out' = out ++ ms /\ read_to all es p p' ms
  | _ => True
  end.
Proof.
  intros Hd. revert out p. induction Hd as [es Hn|b ts es Hd IH|b e ts es Hd IH|b a ts es Hall Ha]; intros out p Hr;
    cbn [read_loop] in Hr.
  all: assert (stay : forall ts es, delivers all ts es -> forall q, q = with_arrivals ts p ->
           exists ms, out = out ++ ms /\ read_to all es p q ms)
    by (clear; intros ts es Hd q ->; exists []; split; [by rewrite app_nil_r|];
        exists [], es, p, ts; by split_and!).
  - destruct (max <=? _)%nat; injection Hr as <- <-; (eapply stay; [|reflexivity]; by constructor).
  - destruct (max <=? _)%nat; [injection Hr as <- <-; eapply stay; [|reflexivity]; by constructor|].
    destruct (_ && _); [injection Hr as <- <-; eapply stay; [|reflexivity]; by constructor|].
    injection Hr as <- <-. exists []. split; [by rewrite app_nil_r|].
    exists [], es, p, ts. by split_and!.
  - destruct (max <=? _)%nat; [injection Hr as <- <-; eapply stay; [|reflexivity]; by constructor|].
    destruct (_ && _); [injection Hr as <- <-; eapply stay; [|reflexivity]; by constructor|].
    cbn [arrival] in Hr. destruct (decode_event is_character_type e p) as [res q] eqn:He.
    destruct res as [ms|err|]; [|by injection Hr as <- _..].
    specialize (IH _ _ Hr). destruct r as [out'|err|]; [|done..].
    destruct IH as (ms' & -> & es1 & es2 & q' & ts' & -> & Hms & -> & Hd').
    exists (ms ++ ms')%list. split; [by rewrite app_assoc|].
    exists (e :: es1), es2, q', ts'. split_and!; [done| |done..].
    cbn [decode_events]. by rewrite bind_eq, He, bind_eq, Hms.
  - destruct (max <=? _)%nat; [injection Hr as <- <-; eapply stay; [|reflexivity]; by constructor|].
    destruct (_ && _); [injection Hr as <- <-; eapply stay; [|reflexivity]; by constructor|].
    cbn [arrival] in Hr. by destruct Ha as [-> | ->]; injection Hr as <- <-.
Qed.

(** Reading what arrives whole does not fail. *)
Lemma read_loop_ok ts es max out p : delivers true ts es -> (exists ms q, decode_events es p = (Ok ms, q)) ->
  exists out', fst (read_loop is_character_type ts max out p) = Ok out'.
Proof.
  intros Hd. revert out p. induction Hd as [es Hn|b ts es Hd IH|b e ts es Hd IH|b a ts es Hall Ha]; intros out p (ms & q & Hm);
    cbn [read_loop arrival]; destruct (max <=? _)%nat; eauto; destruct (_ && _); eauto; [|done].
  cbn [decode_events] in Hm. rewrite bind_eq in Hm.
  destruct (decode_event is_character_type e p) as [[ms1|err|] p1]; [|done..].
  apply IH. rewrite bind_eq in Hm. destruct (decode_events es p1) as [[ms2|err|] p2]; [by eauto|done..].
Qed.

(** A read takes at least one turn. *)
Lemma read_loop_pending ts max out p ms p' : read_loop is_character_type ts max out p = (Ok ms, p') ->
  (length (arrivals p') <= length ts)%nat.
Proof.
  revert out p. induction ts as [|[b a] ts IH]; intros out p; cbn [read_loop arrival length].
  - destruct (max <=? _)%nat; by intros [= <- <-].
  - destruct (max <=? _)%nat; [by intros [= <- <-]|]. destruct (_ && _); [by intros [= <- <-]|].
    destruct a as [| | |e]; [intros [= <- <-]; cbn; lia|done..|].
    destruct (decode_event is_character_type e p) as [[ms1|err|] p1]; [|done..].
    intros Hr. apply IH in Hr. lia.
Qed.

Lemma read_pending ts max p ms p' : (1 <= max)%nat -> read_loop is_character_type ts max [] p = (Ok ms, p') ->
  (length (arrivals p') <= pred (length ts))%nat.
Proof.
  intros Hm. destruct ts as [|[b a] ts]; cbn [read_loop arrival length pred];
    (destruct (Nat.leb_spec max 0); [lia|]).
  - by intros [= <- <-].
  - rewrite andb_false_r. destruct a as [| | |e]; [intros [= <- <-]; cbn; lia|done..|].
    destruct (decode_event is_character_type e p) as [[ms1|err|] p1]; [|done..]. apply read_loop_pending.
Qed.

(** ** Messages *)

Lemma process_messages_app ms1 ms2 h :
  process_messages (ms1 ++ ms2) h =
  let '(es1, h1) := process_messages ms1 h in
  let '(es2, h2) := process_messages ms2 h1 in ((es1 ++ es2)%list, h2).
Proof.
  revert h. induction ms1 as [|m ms1 IH]; intros h; cbn [app process_messages].
  - by destruct (process_messages ms2 h).
  - destruct (process_message m h) as [es h1]. rewrite IH.
    destruct (process_messages ms1 h1) as [es1 h2]. destruct (process_messages ms2 h2) as [es2 h3].
    by rewrite app_assoc.
Qed.

(** Messages do not touch the provider or the queue. *)
Lemma process_message_provider m p q h :
  process_message m (with_provider p q h) =
  (fst (process_message m h), with_provider p q (snd (process_message m h))).
Proof.
  destruct m as [tx t|c|c|c|tx t f n g|f n|g|c t f n|s tb t f n|]; cbn; try done.
  1-3: unfold process_row, allowed; cbn; by destruct (Glob.table_is_allowed _ _ _ _).
  - unfold commit_implicitly. cbn. destruct (partial_tx_events h) as [|e es]; [|destruct (current_tx_id h)];
      cbn; unfold allowed; cbn; by destruct (Glob.table_is_allowed _ _ _ _).
  - unfold commit_implicitly. cbn. destruct (partial_tx_events h) as [|e es]; [|destruct (current_tx_id h)];
      cbn; unfold allowed; cbn; by destruct (Glob.table_is_allowed _ _ _ _).
Qed.

Lemma process_messages_provider ms p q h :
  process_messages ms (with_provider p q h) =
  (fst (process_messages ms h), with_provider p q (snd (process_messages ms h))).
Proof.
  revert h. induction ms as [|m ms IH]; intros h; [done|]. cbn [process_messages].
  rewrite process_message_provider. destruct (process_message m h) as [es h1]. cbn.
  rewrite IH. by destruct (process_messages ms h1).
Qed.

(** What messages never change. *)
Definition settings (h : MysqlStreamHandle) :=
  (name h, stream_state h, max_events_per_poll h, table_include_list h, table_exclude_list h, requeued_events h).

Lemma process_message_settings m h : settings (snd (process_message m h)) = settings h.
Proof.
  destruct m as [tx t|c|c|c|tx t f n g|f n|g|c t f n|s tb t f n|]; cbn; try done.
  1-3: unfold process_row; by destruct (allowed _ _ _).
  all: unfold commit_implicitly; destruct (partial_tx_events h) as [|e es]; [|destruct (current_tx_id h)];
    cbn; by destruct (allowed _ _ _).
Qed.

Lemma process_messages_settings ms h : settings (snd (process_messages ms h)) = settings h.
Proof.
  revert h. induction ms as [|m ms IH]; intros h; [done|]. cbn [process_messages].
  pose proof (process_message_settings m h) as Hm. destruct (process_message m h) as [es h1].
  specialize (IH h1). destruct (process_messages ms h1) as [rest h2]. cbn in *. congruence.
Qed.

(** ** Sessions *)

(** Polls until one fails: the events handed out. *)
Fixpoint session (polls : list (list bool)) (h : MysqlStreamHandle) : list Event * MysqlStreamHandle :=
  match polls with
  | [] => ([], h)
  | expired :: polls' =>
      match next_events is_character_type expired h with
      | (Ok es, h) => let '(rest, h) := session polls' h in (es ++ rest, h)
      | (_, h) => ([], h)
      end
  end.

Section Run.
Variables (all : bool) (log : list BinlogEvent) (h0 : MysqlStreamHandle).

(** The handle has processed a part of the log and handed out [out]. *)
Definition processed (out : list Event) (es1 es2 : list BinlogEvent) (q : provider_t) (h : MysqlStreamHandle)
    : Prop :=
  log = es1 ++ es2 /\
  exists ms, decode_events es1 (provider h0) = (Ok ms, q) /\ process_messages ms h0 = (out, h).

Definition reading (out : list Event) (h : MysqlStreamHandle) : Prop :=
  exists es1 es2 q hh ts, processed out es1 es2 q hh /\ h = with_provider (with_arrivals ts q) [] hh /\
    delivers all ts es2.

Definition stopped (out : list Event) (h : MysqlStreamHandle) : Prop :=
  exists es1 es2 q hh p, processed out es1 es2 q hh /\ h = with_provider p [] hh.

Lemma reading_stopped out h : reading out h -> stopped out h.
Proof. intros (es1 & es2 & q & hh & ts & Hp & -> & _). by exists es1, es2, q, hh, (with_arrivals ts q). Qed.

Lemma processed_more out es1 es2 es3 q q' h ms :
  processed out es1 (es2 ++ es3) q h -> decode_events es2 q = (Ok ms, q') ->
  processed (out ++ fst (process_messages ms h)) (es1 ++ es2) es3 q' (snd (process_messages ms h)).
Proof.
  intros (Hlog & ms1 & Hd & Hp) Hd2. split; [by rewrite Hlog, app_assoc|].
  exists (ms1 ++ ms). split.
  - rewrite decode_events_app, bind_eq, Hd, bind_eq, Hd2. done.
  - rewrite process_messages_app, Hp. by destruct (process_messages ms h).
Qed.

Lemma poll_reads expired out h r h' : reading out h -> poll_loop is_character_type expired h = (r, h') ->
  match r with Ok es => reading (out ++ es) h' | _ => stopped out h' end.
Proof.
  revert out h. induction expired as [|late expired IH]; intros out h (es1 & es2 & q & hh & ts & Hp & -> & Hd) Hl;
    cbn [poll_loop] in Hl; unfold poll_events in Hl; cbn in Hl;
    destruct (read_loop is_character_type ts _ [] _) as [res p] eqn:Hr;
    pose proof (read_loop_reads _ _ _ _ _ _ _ _ Hd Hr) as Hread;
    (destruct res as [ms|err|];
       [|injection Hl as <- <-; by exists es1, es2, q, hh, p..]);
    destruct Hread as (ms' & Hms & es3 & es4 & q' & ts' & -> & Hdec & -> & Hd');
    cbn in Hms; subst ms';
    rewrite decode_events_arrivals in Hdec;
    destruct (decode_events es3 q) as [res3 q3] eqn:H3; cbn in Hdec; injection Hdec as -> <-;
    pose proof (processed_more _ _ _ _ _ _ _ _ Hp H3) as Hp';
    change (with_provider ?a ?b (with_provider _ _ hh)) with (with_provider a b hh) in Hl;
    rewrite process_messages_provider in Hl;
    destruct (process_messages ms hh) as [es h1]; cbn [fst snd] in *;
    assert (Hnow : reading (out ++ es) (with_provider (with_arrivals ts' q3) [] h1))
      by (by exists (es1 ++ es3), es4, q3, h1, ts').
  - destruct es as [|e es]; by injection Hl as <- <-.
  - destruct es as [|e es]; [|by injection Hl as <- <-].
    rewrite app_nil_r in Hnow. destruct late; [injection Hl as <- <-; by rewrite app_nil_r|].
    exact (IH _ _ Hnow Hl).
Qed.

Lemma reading_next out h : stream_state h0 = Streaming -> reading out h ->
  stream_state h = Streaming /\ requeued_events h = [].
Proof.
  intros Hs (es1 & es2 & q & hh & ts & (_ & ms & _ & Hm) & -> & _). cbn. split; [|done].
  pose proof (process_messages_settings ms h0) as E. rewrite Hm in E. unfold settings in E. cbn in E. congruence.
Qed.

Lemma fresh_reading ts : arrivals (provider h0) = ts -> requeued_events h0 = [] -> delivers all ts log -> reading [] h0.
Proof.
  intros Ha Hq Hd. exists [], log, (provider h0), h0, ts. split; [split; [done|by exists []]|].
  split; [|done]. destruct h0; cbn in *. subst. unfold with_provider, with_arrivals. cbn. f_equal.
  by destruct provider0.
Qed.

Lemma session_reads polls out h es h' : stream_state h0 = Streaming -> reading out h ->
  session polls h = (es, h') -> stopped (out ++ es) h'.
Proof.
  intros Hs. revert out h es. induction polls as [|expired polls IH]; intros out h es Hr Hl; cbn in Hl.
  - injection Hl as <- <-. rewrite app_nil_r. by apply reading_stopped.
  - destruct (reading_next _ _ Hs Hr) as [Hst Hq]. unfold next_events in Hl. rewrite Hst, Hq in Hl.
    destruct (poll_loop is_character_type expired h) as [r h1] eqn:Hp.
    pose proof (poll_reads _ _ _ _ _ Hr Hp) as H1. destruct r as [es1|err|].
    + destruct (session polls h1) as [rest h2] eqn:Hrest. injection Hl as <- <-.
      rewrite app_assoc. by eapply IH.
    + injection Hl as <- <-. by rewrite app_nil_r.
    + injection Hl as <- <-. by rewrite app_nil_r.
Qed.

Definition pending (h : MysqlStreamHandle) : nat := length (arrivals (provider h)).

Lemma poll_pending expired h es h' : (1 <= max_events_per_poll h)%nat ->
  poll_loop is_character_type expired h = (Ok es, h') -> (pending h' <= pred (pending h))%nat.
Proof.
  revert h. induction expired as [|late expired IH]; intros h Hm Hl; cbn [poll_loop] in Hl;
    unfold poll_events in Hl;
    destruct (read_loop is_character_type _ _ [] _) as [res p] eqn:Hr;
    (destruct res as [ms|err|]; [|done..]); apply read_pending in Hr; [|done| |done];
    rewrite process_messages_provider in Hl;
    pose proof (process_messages_settings ms h) as Hset;
    destruct (process_messages ms h) as [es1 h1]; cbn [fst snd] in *.
  - destruct es1 as [|e es1]; by injection Hl as <- <-.
  - destruct es1 as [|e es1]; [|by injection Hl as <- <-].
    destruct late; [by injection Hl as <- <-|].
    apply IH in Hl; [unfold pending in *; cbn in *; lia|]. cbn. unfold settings in Hset.
    assert (max_events_per_poll h1 = max_events_per_poll h) as -> by congruence. done.
Qed.

Hypothesis (Hlog : exists ms q, decode_events log (provider h0) = (Ok ms, q)).

Lemma reading_rest out es1 es2 q h : processed out es1 es2 q h -> exists ms q', decode_events es2 q = (Ok ms, q').
Proof.
  intros (He & ms1 & Hd & _). destruct Hlog as (ms & q' & Hm). rewrite He, decode_events_app, bind_eq, Hd, bind_eq in Hm.
  destruct (decode_events es2 q) as [[ms2|err|] p2]; [by eauto|done..].
Qed.

Lemma poll_succeeds expired out h : all = true -> reading out h -> exists es, fst (poll_loop is_character_type expired h) = Ok es.
Proof.
  intros Hall. revert out h. induction expired as [|late expired IH]; intros out h Hr;
    pose proof Hr as (es1 & es2 & q & hh & ts & Hp & -> & Hd); rewrite Hall in Hd;
    pose proof (reading_rest _ _ _ _ _ Hp) as (ms & q' & Hm);
    assert (Hok : exists out', fst (read_loop is_character_type ts (max_events_per_poll hh) [] (with_arrivals ts q)) = Ok out')
      by (apply (read_loop_ok ts es2 _ _ _ Hd); rewrite decode_events_arrivals, Hm; by eauto);
    pose proof (poll_reads [] _ _ _ _ Hr (surjective_pairing _)) as Hnext;
    cbn [poll_loop] in *; unfold poll_events in *; cbn in Hok, Hnext |- *;
    destruct (read_loop is_character_type ts _ [] _) as [res p]; destruct Hok as [ms' Hok]; cbn in Hok; subst res;
    destruct (process_messages ms' _) as [[|e es] h1]; cbn in Hnext |- *; eauto.
  destruct late; eauto.
Qed.

(** Polled as often as there are turns, everything has been read. *)
Lemma session_drains polls out h es h' : all = true -> stream_state h0 = Streaming ->
  (1 <= max_events_per_poll h0)%nat -> reading out h -> (pending h <= length polls)%nat ->
  session polls h = (es, h') -> exists q hh p, processed (out ++ es) log [] q hh /\ h' = with_provider p [] hh.
Proof.
  intros Hall Hs Hm. revert out h es. induction polls as [|expired polls IH]; intros out h es Hr Hn Hl; cbn in Hl.
  - injection Hl as <- <-. destruct Hr as (es1 & es2 & q & hh & ts & Hp & -> & Hd). cbn in Hn.
    destruct ts; [|cbn in Hn; lia]. assert (es2 = []) as -> by (inversion Hd; auto).
    exists q, hh, (with_arrivals [] q). rewrite app_nil_r. destruct Hp as (He & Hp). rewrite app_nil_r in He. subst es1.
    split; [by split; [rewrite app_nil_r|]|done].
  - destruct (reading_next _ _ Hs Hr) as [Hst Hq]. unfold next_events in Hl. rewrite Hst, Hq in Hl.
    destruct (poll_succeeds expired _ _ Hall Hr) as [es1 Hok].
    destruct (poll_loop is_character_type expired h) as [r h1] eqn:Hp. cbn in Hok. subst r.
    pose proof (poll_reads _ _ _ _ _ Hr Hp) as H1. apply poll_pending in Hp.
    + destruct (session polls h1) as [rest h2] eqn:Hrest. injection Hl as <- <-.
      rewrite app_assoc. eapply IH; [exact H1| |exact Hrest]. cbn in Hn. lia.
    + destruct Hr as (? & ? & ? & hh & ? & (_ & ms & _ & Hms) & -> & _). cbn.
      pose proof (process_messages_settings ms h0) as E. rewrite Hms in E. unfold settings in E. cbn in E.
      assert (max_events_per_poll hh = max_events_per_poll h0) as -> by congruence. done.
Qed.

End Run.

(** ** Entries *)

Definition clean (f : string) (p : provider_t) : Prop :=
  provider_file p = f /\ active_gtid p = None /\ active_tx_id p = None.

Definition in_tx (f : string) (tx : Z) (p : provider_t) : Prop :=
  provider_file p = f /\ active_gtid p = None /\ active_tx_id p = Some tx.

(** The handle reads as [r] says, stands at [c] and knows no GTID. *)
Record standing (r : Reading) (c : string * Z) (h : MysqlStreamHandle) : Prop := {
  st_name : name h = r_name r;
  st_include : table_include_list h = r_include r;
  st_exclude : table_exclude_list h = r_exclude r;
  st_at : (file h, pos h) = c;
  st_gtid : gtid h = "";
}.

Definition idle (r : Reading) (c : string * Z) (h : MysqlStreamHandle) : Prop :=
  standing r c h /\ current_tx_id h = None /\ partial_tx_events h = [].

(** A collected event, once stamped, is the event of its change. *)
Definition drafted (r : Reading) (e : Event) (oc : Operation * MysqlRowChange) : Prop :=
  forall f x total i,
    shown (stamp (as_u32 total) (as_u32 i) (h_ts x * 1000) (f +:+ ":" +:+ show (h_pos x)) e) =
    row_event r f x total i oc.

Definition opened (r : Reading) (c : string * Z) (tx : Z) (ocs : list (Operation * MysqlRowChange))
    (h : MysqlStreamHandle) : Prop :=
  standing r c h /\ current_tx_id h = Some tx /\ Forall2 (drafted r) (partial_tx_events h) ocs.

(** Events [es] take the provider and the handle somewhere, and hand out [out]. *)
Definition takes (es : list BinlogEvent) (p : provider_t) (h : MysqlStreamHandle) (out : list Event)
    (p' : provider_t) (h' : MysqlStreamHandle) : Prop :=
  exists ms, decode_events es p = (Ok ms, p') /\ process_messages ms h = (out, h').

Lemma takes_nil p h : takes [] p h [] p h.
Proof. by exists []. Qed.

Lemma takes_app es1 es2 p h out1 p1 h1 out2 p2 h2 :
  takes es1 p h out1 p1 h1 -> takes es2 p1 h1 out2 p2 h2 -> takes (es1 ++ es2) p h (out1 ++ out2) p2 h2.
Proof.
  intros (ms1 & H1 & E1) (ms2 & H2 & E2). exists (ms1 ++ ms2).
  split; [by rewrite decode_events_app, bind_eq, H1, bind_eq, H2|].
  by rewrite process_messages_app, E1, E2.
Qed.

Lemma takes_one e p h ms p' out h' :
  decode_event is_character_type e p = (Ok ms, p') -> process_messages ms h = (out, h') ->
  takes [e] p h out p' h'.
Proof.
  intros Hd Hp. exists ms. split; [|done]. cbn [decode_events]. rewrite bind_eq, Hd, bind_eq. cbn.
  by rewrite app_nil_r.
Qed.

Lemma decode_data h d p :
  decode_event is_character_type (event_of h d) p =
  decode_event_data is_character_type d (h_ts h * 1000)
    (at_position (provider_file p) (advance_binlog_pos (next_pos p) (h_pos h)) p).
Proof. done. Qed.

Lemma advance_positive n m : 0 < m -> advance_binlog_pos n m = m.
Proof. intros H. unfold advance_binlog_pos. by apply Z.ltb_lt in H as ->. Qed.

(** A quiet event moves the provider's position only. *)
Lemma quiet_takes e p h : quiet e -> exists n, takes [e] p h [] (at_position (provider_file p) n p) h.
Proof.
  intros Hq. exists (advance_binlog_pos (next_pos p) (log_pos e)).
  destruct Hq as [? ? ? ty d Hg He|? ? ?|hd|hd|hd s Hb Hd Ht].
  - eapply (takes_one _ _ _ []); [|done]. unfold decode_event. rewrite bind_eq. cbn. unfold decode_mariadb_event.
    apply Z.eqb_neq in Hg as ->. apply Z.eqb_neq in He as ->. done.
  - eapply takes_one; reflexivity.
  - eapply takes_one; reflexivity.
  - eapply takes_one; reflexivity.
  - eapply (takes_one _ _ _ []); [|done]. rewrite decode_data. cbn [decode_event_data]. unfold decode_query.
    by rewrite Hb, Hd, Ht.
Qed.

Lemma row_messages_change kind t rows :
  row_messages is_character_type kind t
    (map (fun r => Some (option_map Some (fst r), option_map Some (snd r))) rows) =
  Ok (map (fun r => row_message kind (change_of t r)) rows).
Proof.
  induction rows as [|[b a] rows IH]; [done|]. cbn [map row_messages fst snd].
  assert (decode_row_change is_character_type t (option_map Some b) (option_map Some a) = Ok (change_of t (b, a)))
    as -> by (by destruct b, a).
  cbn. by rewrite IH.
Qed.

Lemma process_row_opened r c tx ocs h o chg : opened r c tx ocs h ->
  opened r c tx (ocs ++ if passes r (rc_schema chg) (rc_table chg) then [(o, chg)] else []) (process_row o chg h).
Proof.
  intros ([Hn Hi He Ha Hg] & Htx & Hes). unfold process_row, allowed, passes. rewrite Hi, He.
  destruct (Glob.table_is_allowed _ _ _ _); [|by rewrite app_nil_r].
  split; [by split|]. split; [done|]. cbn. apply Forall2_app; [done|]. constructor; [|done].
  intros f x total i. unfold shown, stamp, build_event, tx_meta, row_event. cbn. by rewrite Htx, Hn.
Qed.

Lemma process_change r c tx ocs h kind chg : opened r c tx ocs h -> exists h',
  process_message (row_message kind chg) h = ([], h') /\
  opened r c tx (ocs ++ if passes r (rc_schema chg) (rc_table chg) then [(op_of kind, chg)] else []) h'.
Proof.
  intros Ho. exists (process_row (op_of kind) chg h).
  split; [by destruct kind|by apply process_row_opened].
Qed.

Lemma process_changes r c tx kind t rows ocs h : opened r c tx ocs h -> exists h',
  process_messages (map (fun row => row_message kind (change_of t row)) rows) h = ([], h') /\
  opened r c tx (ocs ++ List.filter (fun oc => passes r (rc_schema (snd oc)) (rc_table (snd oc)))
                          (map (fun row => (op_of kind, change_of t row)) rows)) h'.
Proof.
  revert ocs h. induction rows as [|row rows IH]; intros ocs h Ho.
  - exists h. split; [done|]. cbn. by rewrite app_nil_r.
  - destruct (process_change _ _ _ _ _ kind (change_of t row) Ho) as (h1 & E1 & Ho1).
    destruct (IH _ _ Ho1) as (h2 & E2 & Ho2). exists h2. cbn [map process_messages].
    rewrite E1, E2. split; [done|]. rewrite <- app_assoc in Ho2. cbn [List.filter snd].
    by destruct (passes r _ _).
Qed.

Lemma inner_takes r c f tx i p h ocs : wf_inner i -> in_tx f tx p -> opened r c tx ocs h ->
  exists p' h', takes [inner_event i] p h [] p' h' /\ in_tx f tx p' /\ opened r c tx (ocs ++ visible r [i]) h'.
Proof.
  intros Hw (Hf & Hg & Ht) Ho. destruct i as [hd kind t rows|e]; cbn [wf_inner inner_event] in *.
  - destruct (process_changes _ _ _ kind t rows _ _ Ho) as (h' & E & Ho').
    eexists _, h'. split; [|split; [|unfold visible; cbn; by rewrite app_nil_r]].
    + eapply takes_one; [|exact E]. rewrite decode_data. cbn [decode_event_data]. unfold ensure_active_tx.
      cbn [active_tx_id at_position]. rewrite Ht, row_messages_change. done.
    + by split_and!.
  - destruct (quiet_takes e p h Hw) as [n Hq]. eexists _, h. split; [exact Hq|].
    split; [by split_and!|]. unfold visible. cbn. by rewrite app_nil_r.
Qed.

Lemma visible_app r a b : visible r (a ++ b) = visible r a ++ visible r b.
Proof. unfold visible. by rewrite flat_map_app, List.filter_app. Qed.

Lemma inners_take r c f tx ins p h ocs : Forall wf_inner ins -> in_tx f tx p -> opened r c tx ocs h ->
  exists p' h', takes (map inner_event ins) p h [] p' h' /\ in_tx f tx p' /\ opened r c tx (ocs ++ visible r ins) h'.
Proof.
  revert p h ocs. induction ins as [|i ins IH]; intros p h ocs Hw Hp Ho.
  - exists p, h. split; [apply takes_nil|]. split; [done|]. unfold visible. cbn. by rewrite app_nil_r.
  - inversion Hw as [|? ? Hi His]; subst.
    destruct (inner_takes _ _ _ _ _ _ _ _ Hi Hp Ho) as (p1 & h1 & T1 & Hp1 & Ho1).
    destruct (IH _ _ _ His Hp1 Ho1) as (p2 & h2 & T2 & Hp2 & Ho2).
    exists p2, h2. split; [exact (takes_app _ _ _ _ _ _ _ _ _ _ T1 T2)|]. split; [done|].
    rewrite <- app_assoc in Ho2.
    change (i :: ins) with ([i] ++ ins). by rewrite visible_app.
Qed.

Lemma begin_takes r c f b p h : clean f p -> standing r c h ->
  exists tx p' h', takes [event_of b (QueryEvent "BEGIN")] p h [] p' h' /\ in_tx f tx p' /\ opened r c tx [] h'.
Proof.
  intros (Hf & Hg & Ht) Hi. exists (next_tx_id p). do 2 eexists. split; [|split].
  - eapply (takes_one _ _ _ [MBegin (next_tx_id p) (h_ts b * 1000)]); [|reflexivity].
    rewrite decode_data. cbn [decode_event_data]. unfold decode_query, ensure_active_tx.
    cbn [active_tx_id at_position]. rewrite Ht. reflexivity.
  - by split_and!.
  - split; [|split; [done|constructor]]. by destruct Hi.
Qed.

Lemma stamped_events r f x es ocs : Forall2 (drafted r) es ocs -> forall total k,
  map shown (imap (fun i e => stamp (as_u32 total) (as_u32 (k + i)) (h_ts x * 1000)
                                (f +:+ ":" +:+ show (h_pos x)) e) es) =
  imap (fun i => row_event r f x total (k + i)) ocs.
Proof.
  induction 1 as [|e oc es ocs He _ IH]; intros total k; [done|].
  rewrite !imap_cons, map_cons, He. f_equal. specialize (IH total (S k)).
  erewrite imap_ext, IH; [apply imap_ext|]; intros; cbn; by rewrite Nat.add_succ_r.
Qed.

Lemma xid_takes r c f tx x xid p h ocs : 0 < h_pos x -> in_tx f tx p -> opened r c tx ocs h ->
  exists out p' h', takes [event_of x (XidEvent xid)] p h out p' h' /\ clean f p' /\ idle r (f, h_pos x) h' /\
    map shown out = imap (row_event r f x (length ocs)) ocs.
Proof.
  intros Hx (Hf & Hg & Ht) ([Hn Hi He Ha Hgt] & Htx & Hes). do 3 eexists. split; [|split; [|split]].
  - eapply (takes_one _ _ _ [MXid tx (h_ts x * 1000) (provider_file p) (h_pos x) (active_gtid p)]); [|reflexivity].
    rewrite decode_data. cbn [decode_event_data]. cbn [active_tx_id at_position]. rewrite Ht, advance_positive by done. reflexivity.
  - by split_and!.
  - split; [split; cbn; rewrite ?Hg, ?Hf; auto|done].
  - cbn. rewrite app_nil_r, Hg, Hf. cbn. rewrite Hgt. unfold format_mysql_source_offset. cbn.
    rewrite (Forall2_length _ _ _ Hes). by apply (stamped_events r f x _ _ Hes (length ocs) 0).
Qed.

Lemma transaction_takes r c f b inner x xid p h : Forall wf_inner inner -> 0 < h_pos x ->
  clean f p -> standing r c h ->
  exists out p' h', takes (entry_events (ETransaction b inner x xid)) p h out p' h' /\ clean f p' /\
    idle r (f, h_pos x) h' /\ map shown out = entry_says r f (ETransaction b inner x xid).
Proof.
  intros Hw Hx Hc Hs. destruct (begin_takes _ _ _ b _ _ Hc Hs) as (tx & p1 & h1 & T1 & Hp1 & Ho1).
  destruct (inners_take _ _ _ _ _ _ _ _ Hw Hp1 Ho1) as (p2 & h2 & T2 & Hp2 & Ho2).
  destruct (xid_takes _ _ _ _ _ xid _ _ _ Hx Hp2 Ho2) as (out & p3 & h3 & T3 & Hc3 & Hi3 & E3).
  exists out, p3, h3. split; [|by split_and!].
  exact (takes_app _ _ _ _ _ _ _ _ _ _ T1 (takes_app _ _ _ _ _ _ _ _ _ _ T2 T3)).
Qed.

Lemma ddl_takes r c f hd s p h : wf_entry (EDdl hd s) -> clean f p -> idle r c h ->
  exists out p' h', takes (entry_events (EDdl hd s)) p h out p' h' /\ clean f p' /\
    idle r (f, h_pos hd) h' /\ map shown out = entry_says r f (EDdl hd s).
Proof.
  intros (Hb & [Hx _] & cap & Hd) (Hf & Hg & Ht) ([Hn Hi He Ha Hgt] & Htx & Hes).
  assert (D : decode_event is_character_type (event_of hd (QueryEvent s)) p =
    (Ok [MDdl (SchemaHistory.set_ts (h_ts hd * 1000) cap) (h_ts hd * 1000) f (h_pos hd)], at_position f (h_pos hd) p)).
  { rewrite decode_data. cbn [decode_event_data]. unfold decode_query. rewrite Hb, Hd, advance_positive by done.
    cbn. by rewrite Hf. }
  cbn [entry_says entry_events]. rewrite Hd.
  assert (P : allowed (with_stream f (h_pos hd) (gtid h) h) (Some (SchemaHistory.ddl_schema cap)) (SchemaHistory.ddl_table cap)
              = passes r (Some (SchemaHistory.ddl_schema cap)) (SchemaHistory.ddl_table cap))
    by (unfold allowed, passes; cbn; by rewrite Hi, He).
  do 3 eexists. split; [eapply takes_one; [exact D|]|split; [by split_and!|]].
  - cbn [process_messages process_message]. unfold commit_implicitly. rewrite Hes.
    cbn [SchemaHistory.ddl_schema SchemaHistory.ddl_table SchemaHistory.set_ts]. rewrite P, Hgt.
    instantiate (1 := if passes r (Some (SchemaHistory.ddl_schema cap)) (SchemaHistory.ddl_table cap)
                      then count_one (with_stream f (h_pos hd) "" h) else with_stream f (h_pos hd) "" h).
    instantiate (1 := if passes r (Some (SchemaHistory.ddl_schema cap)) (SchemaHistory.ddl_table cap)
                      then [ddl_event r f hd cap] else []).
    unfold ddl_event. rewrite <- Hn. by destruct (passes r _ _).
  - split; [|by destruct (passes r _ _)]. destruct (passes r _ _); (split; [split; cbn; auto|done]).
Qed.

Lemma truncate_takes r c f hd s p h : wf_entry (ETruncate hd s) -> clean f p -> idle r c h ->
  exists out p' h', takes (entry_events (ETruncate hd s)) p h out p' h' /\ clean f p' /\
    idle r (f, h_pos hd) h' /\ map shown out = entry_says r f (ETruncate hd s).
Proof.
  intros (Hb & [Hx _] & Hd & [sc t] & Hs) (Hf & Hg & Ht) ([Hn Hi He Ha Hgt] & Htx & Hes).
  assert (D : decode_event is_character_type (event_of hd (QueryEvent s)) p =
    (Ok [MTruncate sc t (h_ts hd * 1000) f (h_pos hd)], at_position f (h_pos hd) p)).
  { rewrite decode_data. cbn [decode_event_data]. unfold decode_query. rewrite Hb, Hd, Hs, advance_positive by done.
    cbn. by rewrite Hf, Ht. }
  cbn [entry_says entry_events]. rewrite Hs.
  assert (P : allowed (with_stream f (h_pos hd) (gtid h) h) sc t = passes r sc t)
    by (unfold allowed, passes; cbn; by rewrite Hi, He).
  do 3 eexists. split; [eapply takes_one; [exact D|]|split; [by split_and!|]].
  - cbn [process_messages process_message]. unfold commit_implicitly. rewrite Hes, P.
    instantiate (1 := if passes r sc t then count_one (with_stream f (h_pos hd) (gtid h) h)
                      else with_stream f (h_pos hd) (gtid h) h).
    instantiate (1 := if passes r sc t then [truncation r f hd sc t] else []).
    unfold truncation, truncate_event. cbn. rewrite <- Hn, Hgt. by destruct (passes r _ _).
  - split; [|by destruct (passes r _ _)]. destruct (passes r _ _); (split; [split; cbn; auto|done]).
Qed.

(** An entry, whole: the events it stands for, and the position after it. *)
Lemma entry_takes r c u p h : wf_entry u -> clean (fst c) p -> idle r c h ->
  exists out p' h', takes (entry_events u) p h out p' h' /\ clean (fst (entry_end c u)) p' /\
    idle r (entry_end c u) h' /\ map shown out = entry_says r (fst c) u.
Proof.
  intros Hw Hc Hi. destruct u as [e|b inner x xid|hd s|hd s|hd n q]; cbn [entry_end fst].
  - destruct (quiet_takes e p h Hw) as [m T]. exists [], (at_position (provider_file p) m p), h. by split_and!.
  - destruct Hw as [Hw Hx]. destruct Hx. destruct Hi. by apply transaction_takes with c.
  - by apply ddl_takes with c.
  - by apply truncate_takes with c.
  - destruct Hw as ([_ Hq] & g & Hg). rewrite Hg. destruct Hc as (Hf & Hgt & Ht).
    destruct Hi as ([Hn Hin He Ha Hgid] & Htx & Hes).
    exists [], (at_position g q (at_position (provider_file p) (advance_binlog_pos (next_pos p) (h_pos hd)) p)),
      (with_stream g q (gtid h) h).
    split; [|split; [by split_and!|split; [split; [split; cbn; auto|done]|done]]].
    eapply (takes_one _ _ _ [MRotate g q]); [|done]. rewrite decode_data. cbn [decode_event_data].
    rewrite Hg. apply Z.ltb_ge in Hq. by rewrite Hq.
Qed.

Lemma entries_take r us c p h : Forall wf_entry us -> clean (fst c) p -> idle r c h ->
  exists out p' h', takes (log_events us) p h out p' h' /\ clean (fst (log_end c us)) p' /\
    idle r (log_end c us) h' /\ map shown out = log_says r c us.
Proof.
  revert c p h. induction us as [|u us IH]; intros c p h Hw Hc Hi.
  - exists [], p, h. split; [apply takes_nil|by split_and!].
  - inversion Hw as [|? ? Hu Hus]; subst.
    destruct (entry_takes _ _ _ _ _ Hu Hc Hi) as (o1 & p1 & h1 & T1 & Hc1 & Hi1 & E1).
    destruct (IH _ _ _ Hus Hc1 Hi1) as (o2 & p2 & h2 & T2 & Hc2 & Hi2 & E2).
    exists (o1 ++ o2), p2, h2. split; [exact (takes_app _ _ _ _ _ _ _ _ _ _ T1 T2)|].
    split_and!; [done..|]. cbn [log_says]. by rewrite map_app, E1, E2.
Qed.

(** A part of an entry: nothing yet, and the position as before. *)
Lemma part_takes r c u es1 es2 p h : wf_entry u -> clean (fst c) p -> idle r c h ->
  entry_events u = es1 ++ es2 -> es2 <> [] ->
  exists p' h', takes es1 p h [] p' h' /\ standing r c h'.
Proof.
  intros Hw Hc [Hs Hi] He Hne. destruct es1 as [|e es1]; [exists p, h; split; [apply takes_nil|done]|].
  destruct u as [e'|b inner x xid|hd s|hd s|hd n q]; cbn [entry_events] in He; try (by destruct es1, es2).
  injection He as <- He. destruct Hw as [Hw _].
  destruct (begin_takes _ _ _ b _ _ Hc Hs) as (tx & p1 & h1 & T1 & Hp1 & Ho1).
  assert (exists ins, es1 = map inner_event ins /\ Forall wf_inner ins) as (ins & -> & Hins).
  { exists (take (length es1) inner). split; [|by apply Forall_take].
    destruct (exists_last Hne) as (es3 & e3 & ->). rewrite app_assoc in He. apply app_inj_tail in He as [He _].
    rewrite <- firstn_map, He. by rewrite take_app_length. }
  destruct (inners_take _ _ _ _ _ _ _ _ Hins Hp1 Ho1) as (p2 & h2 & T2 & _ & [Hs2 _]).
  exists p2, h2. split; [exact (takes_app _ _ _ _ _ _ _ _ _ _ T1 T2)|done].
Qed.

(** A prefix of the log: whole entries and a part of the next. *)
Lemma log_prefix us es1 es2 : log_events us = es1 ++ es2 ->
  exists k part, es1 = log_events (take k us) ++ part /\
    (part = [] \/ exists u rest, us !! k = Some u /\ entry_events u = part ++ rest /\ rest <> []).
Proof.
  revert es1. induction us as [|u us IH]; intros es1 He.
  - exists 0%nat, []. cbn in He. destruct es1; [|done]. auto.
  - cbn [log_events flat_map] in He. apply app_eq_inv in He as [(l & E & E2)|(l & -> & E)].
    + destruct l as [|e l].
      * exists 1%nat, []. cbn. rewrite take_0. cbn. rewrite !app_nil_r in *. auto.
      * exists 0%nat, es1. split; [done|]. right. exists u, (e :: l). by split_and!.
    + destruct (IH l E) as (k & part & -> & Hp). exists (S k), part. split; [|done].
      cbn. by rewrite app_assoc.
Qed.

(** ** What a stream delivers *)

(** A handle before its first poll, over what arrives. *)
Record fresh (r : Reading) (c : string * Z) (all : bool) (us : list Entry) (h : MysqlStreamHandle) : Prop := {
  fr_running : stream_state h = Streaming;
  fr_queue : requeued_events h = [];
  fr_batch : (1 <= max_events_per_poll h)%nat;
  fr_clean : clean (fst c) (provider h);
  fr_idle : idle r c h;
  fr_delivers : delivers all (arrivals (provider h)) (log_events us);
}.

Lemma takes_fun es p h o1 p1 h1 o2 p2 h2 : takes es p h o1 p1 h1 -> takes es p h o2 p2 h2 -> o1 = o2 /\ h1 = h2.
Proof. intros (ms & D & E) (ms' & D' & E'). rewrite D in D'. injection D' as <- <-. rewrite E in E'. by injection E'. Qed.

Lemma standing_provider r c h p q : standing r c h -> standing r c (with_provider p q h).
Proof. by intros []. Qed.

Lemma processed_prefix r c us h es es1 es2 q hh : Forall wf_entry us -> clean (fst c) (provider h) -> idle r c h ->
  processed (log_events us) h es es1 es2 q hh ->
  exists k, map shown es = log_says r c (take k us) /\ standing r (log_end c (take k us)) hh /\
    (es2 = [] -> take k us = us).
Proof.
  intros Hw Hc Hi (Hlog & ms & D & E).
  assert (T : takes es1 (provider h) h es q hh) by (by exists ms).
  destruct es2 as [|e es2].
  - exists (length us). rewrite firstn_all. rewrite app_nil_r in Hlog. subst es1.
    destruct (entries_take r us c _ _ Hw Hc Hi) as (out & p1 & h1 & T1 & _ & [Hs _] & E1).
    destruct (takes_fun _ _ _ _ _ _ _ _ _ T T1) as [-> ->]. by split_and!.
  - destruct (log_prefix us es1 (e :: es2) Hlog) as (k & part & -> & Hp). exists k.
    destruct (entries_take r (take k us) c _ _ (Forall_take _ _ _ Hw) Hc Hi) as (out & p1 & h1 & T1 & Hc1 & Hi1 & E1).
    assert (exists p2 h2, takes part p1 h1 [] p2 h2 /\ standing r (log_end c (take k us)) h2) as (p2 & h2 & T2 & Hs).
    { destruct Hp as [->|(u & rest & Hu & He & Hne)]; [exists p1, h1; split; [apply takes_nil|by destruct Hi1]|].
      eapply part_takes; eauto. by eapply Forall_lookup_1. }
    destruct (takes_fun _ _ _ _ _ _ _ _ _ T (takes_app _ _ _ _ _ _ _ _ _ _ T1 T2)) as [-> ->].
    rewrite app_nil_r. by split_and!.
Qed.

Lemma session_prefix r c all us polls h es h' : Forall wf_entry us -> fresh r c all us h ->
  session polls h = (es, h') ->
  exists k, map shown es = log_says r c (take k us) /\ standing r (log_end c (take k us)) h' /\
    (all = true -> (pending h <= length polls)%nat -> take k us = us).
Proof.
  intros Hw [Hst Hq Hm Hc Hi Hd] Hs.
  pose proof (fresh_reading all (log_events us) h _ eq_refl Hq Hd) as Hr.
  assert (Hdec : exists ms q, decode_events (log_events us) (provider h) = (Ok ms, q)).
  { destruct (entries_take r us c _ _ Hw Hc Hi) as (? & p1 & ? & (ms & D & _) & _). eauto. }
  destruct (decide (all = true /\ (pending h <= length polls)%nat)) as [[Ha Hn]|Hn].
  - destruct (session_drains _ _ _ Hdec _ _ _ _ _ Ha Hst Hm Hr Hn Hs) as (q & hh & p & Hp & ->).
    destruct (processed_prefix _ _ _ _ _ _ _ _ _ Hw Hc Hi Hp) as (k & E & Hk & Hall).
    exists k. split_and!; [done|by apply standing_provider|auto].
  - destruct (session_reads _ _ _ _ _ _ _ _ Hst Hr Hs) as (es1 & es2 & q & hh & p & Hp & ->).
    destruct (processed_prefix _ _ _ _ _ _ _ _ _ Hw Hc Hi Hp) as (k & E & Hk & _).
    exists k. split_and!; [done|by apply standing_provider|tauto].
Qed.


End Stream.
End MysqlStream.
