(* ===== verification/MysqlRestart.v ===== *)
(** * MysqlRestart: starting a MySQL stream again from its saved position

    On file and position, a stream started from a saved position goes on with the binlog
    exactly where the last one stopped ([restart_continues_binlog]).  On GTIDs it does not:
    a commit replaces the executed set by the one transaction it commits, so what is saved
    denies all earlier ones ([commit_forgets_executed_set]).  Also what the stream loses:
    the rows of a transaction that ends with a [COMMIT] statement, and an insert that the
    handoff's deduplication moves before the truncation it followed. *)

From S2P Require Import Prelude Errors CheckpointApi Strs Text Json Offsets Glob Event Monad SchemaHistory DdlParse GtidSet MysqlRows MysqlGtid Mysql MysqlStart MysqlStream.

Module MysqlRestart.
Import Event MysqlRows Mysql MysqlStart MysqlStream.

Local Open Scope string_scope.
Local Open Scope Z_scope.
Local Open Scope list_scope.

Section Restart.
Context {FT : FloatText} {CT : Text.CaseTable} {JC : JsonCodec} {JL : @JsonLaws JC}.
Context {D Sid : Type} {Srv : MysqlServer D Sid}.
Variables (is_character_type : ColumnType -> bool) (parse_sid : string -> option Sid).

(** ** Positions in a binlog *)

Lemma log_end_app c us vs : log_end c (us ++ vs) = log_end (log_end c us) vs.
Proof. apply fold_left_app. Qed.

Lemma log_says_app r us : forall c vs,
  log_says is_character_type r c (us ++ vs) =
  log_says is_character_type r c us ++ log_says is_character_type r (log_end c us) vs.
Proof.
  induction us as [|u us IH]; intros c vs; [done|]. cbn. by rewrite IH, app_assoc.
Qed.

Definition silent (u : Entry) : Prop := match u with EQuiet _ => True | _ => False end.

Lemma silent_says r us : forall c, Forall silent us ->
  log_says is_character_type r c us = [] /\ log_end c us = c.
Proof.
  induction us as [|u us IH]; intros c Hs; [done|]. inversion Hs as [|? ? Hu Hus]; subst.
  destruct u; try done. cbn. by apply IH.
Qed.

Definition u32_at (c : string * Z) : Prop := 0 <= snd c <= u32_max.

Lemma log_end_u32 us : forall c, Forall wf_entry us -> u32_at c -> u32_at (log_end c us).
Proof.
  induction us as [|u us IH]; intros c Hw Hc; [done|]. inversion Hw as [|? ? Hu Hus]; subst. cbn.
  apply IH; [done|]. unfold u32_at. destruct u as [e|b inner x xid|h s|h s|h n p]; cbn in *; [done|..].
  - destruct Hu as [_ [? ?]]. lia.
  - destruct Hu as (_ & [? ?] & _). lia.
  - destruct Hu as (_ & [? ?] & _). lia.
  - by destruct Hu.
Qed.

(** What a server says before the first entry: where it is, and nothing. *)
Definition preamble (c : string * Z) (u : Entry) : Prop :=
  match u with
  | EQuiet e => quiet e
  | ERotate _ n p => sanitize_binlog_file_name n = Ok (fst c) /\ p = snd c
  | _ => False
  end.

Lemma preamble_says r us : forall c, Forall (preamble c) us ->
  log_says is_character_type r c us = [] /\ log_end c us = c.
Proof.
  induction us as [|u us IH]; intros c Hp; [done|]. inversion Hp as [|? ? Hu Hus]; subst.
  destruct u as [e| | | |h n p]; try done; cbn; [by apply IH|].
  destruct Hu as [-> ->]. destruct c as [f n']. cbn. by apply IH.
Qed.

Lemma preamble_wf c us : u32_at c -> Forall (preamble c) us -> Forall wf_entry us.
Proof.
  intros Hc Hp. induction Hp as [|u us Hu _ IH]; constructor; [|done].
  destruct u as [e| | | |h n p]; try done. destruct Hu as [Hn ->]. split; [done|]. eauto.
Qed.

(** Reading on after stopping at [k], from the last visible entry [j]. *)
Lemma continued r c us j k n : (j <= k)%nat -> Forall silent (take (k - j) (drop j us)) -> exists m,
  log_says is_character_type r c (take k us)
    ++ log_says is_character_type r (log_end c (take k us)) (take n (drop j us))
  = log_says is_character_type r c (take m us) /\
  log_end (log_end c (take k us)) (take n (drop j us)) = log_end c (take m us).
Proof.
  intros Hjk Hs. destruct (decide (n <= k - j)%nat) as [Hn|Hn].
  - exists k. assert (Hq : Forall silent (take n (drop j us))).
    { replace n with (Nat.min n (k - j)) by lia. rewrite <- take_take. by apply Forall_take. }
    destruct (silent_says r _ (log_end c (take k us)) Hq) as [-> ->]. by rewrite app_nil_r.
  - exists (j + n)%nat. replace n with ((k - j) + (n - (k - j)))%nat by lia.
    rewrite <- (take_take_drop (drop j us)), drop_drop.
    replace (j + (k - j + (n - (k - j))))%nat with (k + (j + n - k))%nat by lia.
    rewrite <- (take_take_drop us k). replace (j + (k - j))%nat with k by lia.
    replace (n - (k - j))%nat with (j + n - k)%nat by lia.
    rewrite !log_says_app, !log_end_app.
    destruct (silent_says r _ (log_end c (take k us)) Hs) as [-> ->]. done.
Qed.

(** ** The server *)

Variables (all : bool) (cfg : MysqlSourceConfig) (c : string * Z) (us : list Entry).

(** A server without GTIDs that keeps its binlog: asked for the position after a part of
    it, it says where it is and then sends what follows the last entry with a position. *)
Record serves (d : D) : Prop := {
  sv_conn : get_conn d = (Ok tt, d);
  sv_status : exists row, show_master_status d = (Ok (Some row), d);
  sv_executed : exists v, gtid_executed d = (Ok v, d) /\ default "" v = "";
  sv_stream : forall k, exists ts d' j pre,
    get_binlog_stream {| request_server_id := config_server_id cfg;
                         filename := fst (log_end c (take k us)); request_pos := snd (log_end c (take k us));
                         with_gtid := false; gtid_sids := [] |} d = (Ok ts, d') /\
    (j <= k)%nat /\ Forall silent (take (k - j) (drop j us)) /\
    Forall (preamble (log_end c (take k us))) pre /\ delivers all ts (log_events (pre ++ drop j us));
}.

Definition reading_of : Reading :=
  {| r_name := config_source_type cfg; r_include := include_list cfg; r_exclude := exclude_list cfg |}.

Lemma decode_saved h : name h = config_source_type cfg -> u32_at (file h, pos h) ->
  decode_stream_resume_position (config_source_type cfg) (position_offset h) = Ok (position h).
Proof.
  intros Hn Hp. unfold decode_stream_resume_position, position_offset.
  assert (source_type (mysql_dyn (position h)) = config_source_type cfg) as -> by exact Hn.
  rewrite String.eqb_refl. cbn [negb mysql_dyn encode res_bind].
  rewrite parse_print.
  - cbn -[mysql_from_json mysql_json]. by rewrite mysql_roundtrip.
  - unfold mysql_json, jnat. cbn. rewrite exact_jnat; [done|]. unfold u32_at, u32_max, u64_max, u64_modulus in *. cbn in Hp. lia.
Qed.

(** Starting from a position at the end of a part of the binlog. *)
Lemma start_fresh k h conn : gtid_mode_enabled cfg = false -> config conn = cfg -> pool conn = true ->
  (1 <= conn_max_events conn)%nat -> serves (conn_db conn) -> u32_at (log_end c (take k us)) ->
  standing reading_of (log_end c (take k us)) h ->
  exists h2 conn2 j pre, start_stream parse_sid (Some (position_offset h)) conn = (Ok h2, conn2) /\
    (j <= k)%nat /\ Forall silent (take (k - j) (drop j us)) /\ Forall (preamble (log_end c (take k us))) pre /\
    fresh reading_of (log_end c (take k us)) all (pre ++ drop j us) h2.
Proof.
  intros Hg Hcfg Hpool Hmax [Hconn [row Hrow] [v [Hv Ev]] Hstr] Hp Hs.
  destruct (Hstr k) as (ts & d' & j & pre & Hreq & Hj & Hsil & Hpre & Hdel).
  destruct Hs as [Hn Hi He Ha Hgt]. rewrite <- Ha in Hp. pose proof (decode_saved _ Hn Hp) as Hdec.
  assert (R : resolve_stream_start_position (config_source_type cfg) (Some (position_offset h)) (conn_db conn)
              = (Ok {| start_file := file h; start_pos := pos h; start_gtid := "" |}, conn_db conn)).
  { unfold resolve_stream_start_position. rewrite bind_eq, Hconn, bind_eq. unfold log_status.
    rewrite bind_eq. unfold catch at 1. rewrite Hrow. destruct row as [f n]. cbn -[decode_stream_resume_position].
    rewrite bind_eq, Hconn, bind_eq. unfold unavailable_executed. rewrite bind_eq. unfold catch. rewrite Hv.
    cbn -[decode_stream_resume_position]. rewrite bind_eq, bind_of_res, Hdec, bind_eq. cbn. rewrite Hgt. cbn.
    rewrite Ev. destruct Hp as [_ Hp]. cbn in Hp. apply Z.ltb_ge in Hp. by rewrite Hp. }
  rewrite <- Ha in Hreq. cbn in Hreq.
  do 4 eexists. split; [|split; [exact Hj|split; [exact Hsil|split; [exact Hpre|]]]].
  - unfold start_stream. rewrite bind_gets, Hpool. cbn [negb]. rewrite bind_gets, Hcfg, bind_eq.
    unfold on_server at 1. rewrite R. cbn -[new_provider]. rewrite bind_eq. cbn -[new_provider]. rewrite bind_eq.
    unfold on_server, new_provider. rewrite Hg. cbn. rewrite bind_eq. cbn. rewrite bind_eq. unfold map_err.
    rewrite Hreq. cbn. reflexivity.
  - split; cbn; try done; [lia|by rewrite <- Ha|]. split; [|done].
    split; cbn; rewrite ?Hcfg; done.
Qed.


(** ** GTIDs *)

Definition gtid_transaction (g : Header) (sid : list byte) (gno : Z) (b : Header) (inner : list Inner)
    (x : Header) (xid : Z) : list BinlogEvent :=
  event_of g (GtidEvent sid gno) :: entry_events (ETransaction b inner x xid).

Lemma inner_decodes i p tx : wf_inner i -> active_tx_id p = Some tx -> exists ms p',
  decode_event is_character_type (inner_event i) p = (Ok ms, p') /\ active_tx_id p' = Some tx /\
  active_gtid p' = active_gtid p /\ provider_file p' = provider_file p.
Proof.
  intros Hw Ht. enough (exists ms, decode_event is_character_type (inner_event i) p =
    (Ok ms, at_position (provider_file p) (advance_binlog_pos (next_pos p) (log_pos (inner_event i))) p))
    as [ms E] by (by exists ms, (at_position (provider_file p) (advance_binlog_pos (next_pos p) (log_pos (inner_event i))) p)).
  destruct i as [hd kind t rows|e]; cbn [wf_inner inner_event] in *.
  - eexists. rewrite decode_data. cbn [decode_event_data]. unfold ensure_active_tx.
    cbn [active_tx_id at_position]. rewrite Ht, row_messages_change. reflexivity.
  - destruct Hw as [? ? ? ty d Hg He|? ? ?|hd|hd|hd s Hb Hd Hs]; [|eexists; reflexivity..|]; exists [].
    + unfold decode_event. rewrite bind_eq. cbn.
      unfold decode_mariadb_event. apply Z.eqb_neq in Hg as ->. by apply Z.eqb_neq in He as ->.
    + rewrite decode_data. cbn [decode_event_data]. unfold decode_query. by rewrite Hb, Hd, Hs.
Qed.

Lemma inners_decode ins : forall p tx, Forall wf_inner ins -> active_tx_id p = Some tx -> exists ms p',
  decode_events is_character_type (map inner_event ins) p = (Ok ms, p') /\ active_tx_id p' = Some tx /\
  active_gtid p' = active_gtid p /\ provider_file p' = provider_file p.
Proof.
  induction ins as [|i ins IH]; intros p tx Hw Ht; [by exists [], p|]. inversion Hw as [|? ? Hi Hins]; subst.
  destruct (inner_decodes i p tx Hi Ht) as (ms & p1 & D1 & T1 & G1 & F1).
  destruct (IH p1 tx Hins T1) as (ms2 & p2 & D2 & T2 & G2 & F2). exists (ms ++ ms2), p2.
  split; [|split_and!; [done|congruence..]]. cbn [map decode_events]. by rewrite bind_eq, D1, bind_eq, D2.
Qed.

Lemma decode_then e es p ms1 p1 ms2 p2 : decode_event is_character_type e p = (Ok ms1, p1) ->
  decode_events is_character_type es p1 = (Ok ms2, p2) ->
  decode_events is_character_type (e :: es) p = (Ok (ms1 ++ ms2), p2).
Proof. intros D1 D2. cbn [decode_events]. by rewrite bind_eq, D1, bind_eq, D2. Qed.

(** Such a transaction ends with its own GTID, whatever was read before it. *)
Lemma gtid_transaction_takes g sid gno b inner x xid p h : Forall wf_inner inner -> 0 < h_pos x ->
  active_tx_id p = None ->
  exists out p' h', takes is_character_type (gtid_transaction g sid gno b inner x xid) p h out p' h' /\
    gtid h' = format_gtid sid gno /\ file h' = provider_file p /\ pos h' = h_pos x /\ name h' = name h.
Proof.
  intros Hw Hx Ht.
  set (p1 := with_tx (Some (format_gtid sid gno)) (active_tx_id p) (next_tx_id p)
               (at_position (provider_file p) (advance_binlog_pos (next_pos p) (h_pos g)) p)).
  set (p2 := with_tx (active_gtid p1) (Some (next_tx_id p)) (saturating_add (next_tx_id p) 1)
               (at_position (provider_file p) (advance_binlog_pos (next_pos p1) (h_pos b)) p1)).
  destruct (inners_decode inner p2 (next_tx_id p) Hw eq_refl) as (ms & p3 & D3 & T3 & G3 & F3).
  set (all_ms := MGtid (format_gtid sid gno) :: MBegin (next_tx_id p) (h_ts b * 1000) :: ms
                 ++ [MXid (next_tx_id p) (h_ts x * 1000) (provider_file p) (h_pos x) (Some (format_gtid sid gno))]).
  assert (Db : decode_event is_character_type (event_of b (QueryEvent "BEGIN")) p1
               = (Ok [MBegin (next_tx_id p) (h_ts b * 1000)], p2)).
  { rewrite decode_data. cbn [decode_event_data]. unfold decode_query, ensure_active_tx.
    cbn [active_tx_id at_position p1 with_tx]. rewrite Ht. reflexivity. }
  assert (Dx : decode_event is_character_type (event_of x (XidEvent xid)) p3
               = (Ok [MXid (next_tx_id p) (h_ts x * 1000) (provider_file p) (h_pos x) (Some (format_gtid sid gno))],
                  with_tx None None (next_tx_id p3) (at_position (provider_file p3) (h_pos x) p3))).
  { rewrite decode_data. cbn [decode_event_data]. cbn [active_tx_id at_position].
    rewrite T3, advance_positive by done. unfold xid_message. cbn. by rewrite G3, F3. }
  destruct (process_messages all_ms h) as [out h'] eqn:E.
  exists out, (with_tx None None (next_tx_id p3) (at_position (provider_file p3) (h_pos x) p3)), h'.
  split.
  - exists all_ms. split; [|done]. unfold gtid_transaction. cbn [entry_events].
    apply (decode_then _ _ _ [MGtid (format_gtid sid gno)] p1); [done|].
    apply (decode_then _ _ _ [MBegin (next_tx_id p) (h_ts b * 1000)] p2); [exact Db|].
    rewrite decode_events_app, bind_eq, D3, bind_eq. cbn [decode_events]. rewrite bind_eq, Dx, bind_eq. reflexivity.
  - pose proof (process_messages_settings all_ms h) as Hset. rewrite E in Hset. unfold settings in Hset. cbn in Hset.
    unfold all_ms in E. cbn [process_messages process_message] in E.
    rewrite process_messages_app in E. destruct (process_messages ms _) as [es1 h1]. cbn in E.
    injection E as _ <-. cbn in *. split_and!; try done. congruence.
Qed.

(** A server that has purged binlogs, and tells which transactions they held. *)
Record purging (purged saved : string) (d : D) : Prop := {
  pg_conn : get_conn d = (Ok tt, d);
  pg_status : exists row, show_master_status d = (Ok (Some row), d);
  pg_executed : exists v, gtid_executed d = (Ok v, d);
  pg_purged : gtid_purged d = (Ok (Some purged), d);
  pg_text : Text.blank (Text.chars purged) = false;
  pg_subset : exists b, gtid_subset purged saved d = (Ok (Some b), d) /\
    (b = 1 -> forall u n, MysqlGtid.executed purged u n -> MysqlGtid.executed saved u n);
  pg_subtract : exists v, gtid_subtract purged saved d = (Ok v, d);
}.

Lemma format_gtid_nonempty sid gno : is_empty (format_gtid sid gno) = false.
Proof. unfold format_gtid. by destruct (hex (take 4 sid)). Qed.

Lemma start_refused purged saved conn h u n : gtid h = saved -> is_empty saved = false ->
  name h = config_source_type cfg -> u32_at (file h, pos h) -> config conn = cfg -> pool conn = true ->
  purging purged saved (conn_db conn) -> MysqlGtid.executed purged u n -> ~ MysqlGtid.executed saved u n ->
  exists msg, fst (start_stream parse_sid (Some (position_offset h)) conn) = Err (Unrecoverable msg).
Proof.
  intros Hg He Hn Hp Hcfg Hpool [Hc [[f m] Hr] [v Hv] Hpg Htx (b & Hs & Hb) [w Hsub]] Hu Hnot.
  pose proof (decode_saved h Hn Hp) as Hd.
  assert (b <> 1) as Hb1 by (intros ->; by apply Hnot, Hb).
  eexists. unfold start_stream. rewrite bind_gets, Hpool. cbn [negb]. rewrite bind_gets, Hcfg, bind_eq.
  unfold on_server at 1, resolve_stream_start_position. rewrite bind_eq, Hc, bind_eq. unfold log_status.
  rewrite bind_eq. unfold catch at 1. rewrite Hr. cbn -[decode_stream_resume_position verify_gtid_position_still_available is_empty].
  rewrite bind_eq, Hc, bind_eq. unfold unavailable_executed. rewrite bind_eq. unfold catch at 1. rewrite Hv.
  cbn -[decode_stream_resume_position verify_gtid_position_still_available is_empty].
  rewrite bind_eq, bind_of_res, Hd, bind_eq. cbn -[verify_gtid_position_still_available is_empty]. rewrite Hg, He.
  unfold verify_gtid_position_still_available. rewrite bind_eq, Hc, bind_eq. unfold catch at 1. rewrite bind_eq, Hpg.
  cbn. rewrite Htx, bind_eq. unfold map_err. rewrite Hs. rewrite bool_decide_false by congruence.
  rewrite bind_eq. unfold catch. rewrite Hsub. done.
Qed.

(** C37: a commit forgets the executed set.  Whatever set of transactions a stream has
    executed, reading one more transaction with a GTID leaves that GTID alone as its
    position, where merging it would have kept the set.  Saved and used for a start, it
    denies every earlier transaction: a server that has purged any of them, all of them
    long read, is refused as having lost data, and the start fails for good. *)
Theorem commit_forgets_executed_set g sid gno b inner x xid p h conn purged u n :
  Forall wf_inner inner -> u32_pos x -> active_tx_id p = None -> name h = config_source_type cfg ->
  config conn = cfg -> pool conn = true -> purging purged (format_gtid sid gno) (conn_db conn) ->
  MysqlGtid.executed purged u n -> ~ MysqlGtid.executed (format_gtid sid gno) u n ->
  MysqlGtid.executed (gtid h) u n ->
  exists out p' h', takes is_character_type (gtid_transaction g sid gno b inner x xid) p h out p' h' /\
    gtid h' = format_gtid sid gno /\
    MysqlGtid.executed (merge_gtid_into_set (gtid h) (format_gtid sid gno)) u n /\
    exists msg, fst (start_stream parse_sid (Some (position_offset h')) conn) = Err (Unrecoverable msg).
Proof.
  intros Hw [Hx Hx'] Ht Hn Hcfg Hpool Hpg Hu Hnot Hold.
  destruct (gtid_transaction_takes g sid gno b inner x xid p h Hw Hx Ht) as (out & p' & h' & T & Hg & Hf & Hps & Hname).
  exists out, p', h'. split; [done|]. split; [done|].
  split.
  { unfold merge_gtid_into_set. rewrite MysqlGtid.parse_rendered by apply MysqlGtid.merged_tidy.
    apply MysqlGtid.extends_hold. by left. }
  eapply (start_refused purged (format_gtid sid gno)); eauto using format_gtid_nonempty; [congruence|].
  unfold u32_at. cbn. lia.
Qed.


(** ** What is lost *)

(** A [BEGIN] while a transaction is open goes on with its number and drops its rows. *)
Lemma begin_again_takes r c' f b tx ocs p h : in_tx f tx p -> opened r c' tx ocs h ->
  exists p' h', takes is_character_type [event_of b (QueryEvent "BEGIN")] p h [] p' h' /\ in_tx f tx p' /\
    opened r c' tx [] h'.
Proof.
  intros (Hf & Hg & Ht) (Hs & Htx & _). do 2 eexists. split; [|split].
  - eapply (takes_one _ _ _ _ [MBegin tx (h_ts b * 1000)]); [|reflexivity].
    rewrite decode_data. cbn [decode_event_data]. unfold decode_query, ensure_active_tx.
    cbn [active_tx_id at_position]. rewrite Ht. reflexivity.
  - by split_and!.
  - split; [|split; [done|constructor]]. by destruct Hs.
Qed.

(** A transaction that ends with a statement is lost.  The binlog closes a transaction
    over tables of an engine without transactions by the statement [COMMIT] instead of an
    [XID].  Its rows are never handed out: the statement is skipped, the next transaction's
    [BEGIN] drops the rows collected so far, and that transaction's commit moves the position
    past them. *)
Theorem statement_commit_loses_rows r c' f b1 lost k b2 inner x xid p h :
  clean f p -> standing r c' h -> Forall wf_inner lost -> Forall wf_inner inner -> 0 < h_pos x ->
  exists out p' h',
    takes is_character_type
      (event_of b1 (QueryEvent "BEGIN") :: map inner_event lost ++ event_of k (QueryEvent "COMMIT")
         :: entry_events (ETransaction b2 inner x xid)) p h out p' h' /\
    map shown out = entry_says is_character_type r f (ETransaction b2 inner x xid) /\
    (file h', pos h') = (f, h_pos x).
Proof.
  intros Hc Hs Hl Hw Hx.
  destruct (begin_takes is_character_type _ _ _ b1 _ _ Hc Hs) as (tx & p1 & h1 & T1 & Hp1 & Ho1).
  destruct (inners_take is_character_type _ _ _ _ _ _ _ _ Hl Hp1 Ho1) as (p2 & h2 & T2 & Hp2 & Ho2).
  assert (Q : quiet (event_of k (QueryEvent "COMMIT"))) by (by apply quiet_query).
  destruct (quiet_takes is_character_type _ p2 h2 Q) as [n T3].
  assert (Hp3 : in_tx f tx (at_position (provider_file p2) n p2)) by exact Hp2.
  destruct (begin_again_takes _ _ _ b2 _ _ _ _ Hp3 Ho2) as (p4 & h4 & T4 & Hp4 & Ho4).
  destruct (inners_take is_character_type _ _ _ _ _ _ _ _ Hw Hp4 Ho4) as (p5 & h5 & T5 & Hp5 & Ho5).
  destruct (xid_takes is_character_type _ _ _ _ _ xid _ _ _ Hx Hp5 Ho5) as (out & p6 & h6 & T6 & _ & [[_ _ _ Ha _] _] & E6).
  exists out, p6, h6. split; [|done].
  pose proof (takes_app _ _ _ _ _ _ _ _ _ _ _ T5 T6) as U5.
  pose proof (takes_app _ _ _ _ _ _ _ _ _ _ _ T4 U5) as U4.
  pose proof (takes_app _ _ _ _ _ _ _ _ _ _ _ T3 U4) as U3.
  pose proof (takes_app _ _ _ _ _ _ _ _ _ _ _ T2 U3) as U2.
  exact (takes_app _ _ _ _ _ _ _ _ _ _ _ T1 U2).
Qed.

(** The handoff's deduplication moves a row's last event to the place of its first: an
    insert after a truncation ends up before it. *)
Lemma dedup_moves_before_truncate pk e1 t e2 : mysql_event_pk_fingerprint e1 = Some pk ->
  mysql_event_pk_fingerprint t = None -> mysql_event_pk_fingerprint e2 = Some pk ->
  dedup_overlap_events_by_pk [e1; t; e2] = ([e2; t], 1).
Proof.
  intros H1 Ht H2. unfold dedup_overlap_events_by_pk. cbn [dedup_loop]. rewrite H1, lookup_empty, Ht, H2.
  rewrite lookup_insert_eq. reflexivity.
Qed.


End Restart.
End MysqlRestart.
