(* ===== verification/MysqlSnapshot.v ===== *)
(** * MysqlSnapshot: the MySQL connector's initial snapshot

    Models [src/src/source/mysql/snapshot_start.rs] and [snapshot_chunk.rs] and the
    [MysqlSnapshotHandle] of [src/src/source/mysql.rs]: opening the snapshot transaction,
    collecting the tables, reading them in chunks after the last key, checkpoint, resume and
    finish.

    Row and chunk counters are not bounded here: no snapshot reaches 2^64 rows. *)

From S2P Require Import Prelude Errors CheckpointApi Strs Text Json Offsets Glob Event Monad GtidSet MysqlRows Mysql MysqlStart.

Module MysqlSnapshot.
Import MysqlRows Mysql MysqlStart.

Local Open Scope string_scope.
Local Open Scope Z_scope.
Local Open Scope list_scope.

(** ** State *)

Record TableSnapshot := {
  ts_table : string;
  total_rows : Z;
  rows_processed : Z;
  cursor_position : option string;
  ts_complete : bool;
}.

(** A table read from given [rows] instead of the server has [live_query] off. *)
Record TableSnapshotState := {
  progress : TableSnapshot;
  primary_key_columns : list string;
  rows : list json;
  next_row : nat;
  live_query : bool;
}.

Record MysqlSnapshot := {
  snap_tables : list TableSnapshot;
  snap_id : string;
  snapshot_start_ts : Z;
  snap_file : string;
  snap_pos : Z;
  snap_gtid : string;
}.

Record MysqlSnapshotHandle := {
  handle_source : string;
  snapshot : MysqlSnapshot;
  h_tables : list TableSnapshotState;
  connection : bool;
  transaction_open : bool;
  current_table : nat;
  next_chunk_index : Z;
  emitted_rows : Z;
}.

(** The statements of a snapshot on its connection; [select_rows] runs a query with its
    parameters. *)
Class SnapshotServer (D : Type) := {
  start_transaction : M D unit;
  commit_transaction : M D unit;
  rollback_transaction : M D unit;
  key_columns : string -> string -> M D (list string);
  all_columns : string -> string -> M D (list string);
  count_rows : string -> M D (option Z);
  select_rows : string -> list MysqlValue -> M D (list MysqlRow);
}.

Definition DEFAULT_SNAPSHOT_CHUNK_SIZE : nat := 5000.

Section Handle.
Context `{FT : FloatText} `{JC : JsonCodec} {D Sid : Type} `{MS : MysqlServer D Sid} `{SV : SnapshotServer D}.
Variable is_character_type : ColumnType -> bool.

(** ** Chunks *)

Definition cursor_params (width : nat) (raw_cursor : string) : Res (list MysqlValue) :=
  values <-? match parse_json (list_byte_of_string raw_cursor) with
             | Some (JArr vs) => Ok vs
             | _ => Err (CheckpointError "mysql snapshot cursor decode failed")
             end;
  if negb (length values =? width)%nat then Err (CheckpointError "mysql snapshot cursor width mismatch")
  else map_res mysql_json_value_to_param values.

Definition cursor_column (row : MysqlRow) (column : string) : Res json :=
  match List.find (fun cv => String.eqb (name_str (fst cv)) column) row with
  | Some (_, v) => Ok (match v with Some v => mysql_value_to_json v | None => JNull end)
  | None => Err (SerializationError "mysql snapshot primary key column missing from row")
  end.

Definition decode_row (key : list string) (row : MysqlRow) : Res (json * json) :=
  cursor <-? map_res (cursor_column row) key;
  Ok (JArr cursor, mysql_row_to_json is_character_type row).

Definition snapshot_query (table_ref : string) (key : list string) (seek : bool) : string :=
  let projection := join ", " (map quoted_mysql_identifier key) in
  let where_clause :=
    if seek then "WHERE (" +:+ projection +:+ ") > (" +:+ join ", " (map (fun _ => "?") key) +:+ ")" else "" in
  "SELECT * FROM " +:+ table_ref +:+ " " +:+ where_clause +:+ " ORDER BY " +:+ projection +:+ " LIMIT ?".

Definition fetch_live_rows (connected : bool) (t : TableSnapshotState) (cursor : option string) (limit : nat)
    : M D (list (json * json)) :=
  if negb connected then throw (StateError "mysql snapshot live query requires an active connection")
  else match primary_key_columns t with
  | [] => throw (SourceError "mysql snapshot requires a PRIMARY KEY for keyset pagination")
  | key =>
      table_ref ← of_res (mysql_qualified_table_name_from_reference (ts_table (progress t)));
      params ← of_res (match cursor with
                       | Some raw => ps <-? cursor_params (length key) raw; Ok (Some ps)
                       | None => Ok None
                       end);
      found ← map_err (fun _ => SourceError "failed fetching mysql snapshot rows")
                (select_rows (snapshot_query table_ref key (bool_decide (is_Some params)))
                   (default [] params ++ [UInt (Z.of_nat limit)]));
      of_res (map_res (decode_row key) found)
  end.

Definition with_progress (p : TableSnapshot) (n : nat) (t : TableSnapshotState) : TableSnapshotState :=
  {| progress := p; primary_key_columns := primary_key_columns t; rows := rows t; next_row := n;
     live_query := live_query t |}.

Definition completed (p : TableSnapshot) : TableSnapshot :=
  {| ts_table := ts_table p; total_rows := total_rows p; rows_processed := rows_processed p;
     cursor_position := cursor_position p; ts_complete := true |}.

Definition row_done (p : TableSnapshot) (cursor : string) : TableSnapshot :=
  {| ts_table := ts_table p; total_rows := total_rows p; rows_processed := rows_processed p + 1;
     cursor_position := Some cursor; ts_complete := ts_complete p |}.

Definition with_tables (ts : list TableSnapshotState) (cur : nat) (emitted : Z) (h : MysqlSnapshotHandle)
    : MysqlSnapshotHandle :=
  {| handle_source := handle_source h; snapshot := snapshot h; h_tables := ts; connection := connection h;
     transaction_open := transaction_open h; current_table := cur; next_chunk_index := next_chunk_index h;
     emitted_rows := emitted |}.

Definition sync_snapshot_tables (h : MysqlSnapshotHandle) : MysqlSnapshotHandle :=
  {| handle_source := handle_source h;
     snapshot := {| snap_tables := map progress (h_tables h); snap_id := snap_id (snapshot h);
                    snapshot_start_ts := snapshot_start_ts (snapshot h); snap_file := snap_file (snapshot h);
                    snap_pos := snap_pos (snapshot h); snap_gtid := snap_gtid (snapshot h) |};
     h_tables := h_tables h; connection := connection h; transaction_open := transaction_open h;
     current_table := current_table h; next_chunk_index := next_chunk_index h;
     emitted_rows := emitted_rows h |}.

Definition h_is_complete (h : MysqlSnapshotHandle) : bool :=
  forallb (fun t => ts_complete (progress t)) (h_tables h).

Definition total_expected_rows (h : MysqlSnapshotHandle) : Z :=
  fold_right Z.add 0 (map (fun t => total_rows (progress t)) (h_tables h)).

Definition cursor_text (cursor : json) : string := string_of_list_byte (print_json cursor).

Definition row_event (now : Z) (h : MysqlSnapshotHandle) (t : TableSnapshotState) (cursor : string) (row : json)
    : Event.Event :=
  {| Event.before := None; Event.after := Some row; Event.op := Event.Read;
     Event.source := {| Event.source_name := handle_source h;
                        Event.offset := snap_file (snapshot h) +:+ ":" +:+ show (snap_pos (snapshot h))
                                        +:+ ":" +:+ cursor;
                        Event.timestamp := now |};
     Event.ts := now; Event.schema := None; Event.table := ts_table (progress t);
     Event.primary_key := Some (primary_key_columns t);
     Event.snapshot := Some {| Event.snapshot_id := snap_id (snapshot h);
                               Event.chunk_index := next_chunk_index h; Event.is_last_chunk := false |};
     Event.transaction := None; Event.envelope_version := Event.EVENT_ENVELOPE_VERSION;
     Event.before_is_key_only := false; Event.unavailable_columns := [];
     Event.before_unavailable_columns := [] |}.

(** The rows of a table held in memory, from the next one, up to a limit; a row's cursor is
    its number. *)
Definition held_rows (t : TableSnapshotState) (limit : nat) : list (json * json) :=
  imap (fun i row => (JArr [jnat (Z.of_nat (next_row t + i))], row)) (take limit (drop (next_row t) (rows t))).

Definition rows_done (p : TableSnapshot) (found : list (json * json)) : TableSnapshot :=
  fold_left (fun p r => row_done p (cursor_text (fst r))) found p.

(** The loop of a chunk: each turn finishes a table or takes at least a row, so as many
    turns as rows wanted and tables left are enough. *)
Fixpoint chunk_loop (fuel : nat) (now : Z) (requested : nat) (events : list Event.Event)
    (h : MysqlSnapshotHandle) : D -> Res (list Event.Event) * (MysqlSnapshotHandle * D) := fun d =>
  match fuel with
  | O => (Ok events, (h, d))
  | S fuel' =>
      if (length events <? requested)%nat then
        match h_tables h !! current_table h with
        | None => (Ok events, (h, d))
        | Some t =>
            let limit := (requested - length events)%nat in
            let put p n cur emitted := with_tables (<[current_table h := with_progress p n t]> (h_tables h)) cur emitted h in
            let taken found :=
              events ++ map (fun r => row_event now h t (cursor_text (fst r)) (snd r)) found in
            if live_query t then
              match fetch_live_rows (connection h) t (cursor_position (progress t)) limit d with
              | (Ok [], d') =>
                  chunk_loop fuel' now requested events
                    (put (completed (progress t)) (next_row t) (S (current_table h)) (emitted_rows h)) d'
              | (Ok found, d') =>
                  chunk_loop fuel' now requested (taken found)
                    (put (rows_done (progress t) found) (next_row t) (current_table h)
                       (emitted_rows h + Z.of_nat (length found))) d'
              | (Err e, d') => (Err e, (h, d'))
              | (Panic, d') => (Panic, (h, d'))
              end
            else
              let found := held_rows t limit in
              let p := rows_done (progress t) found in
              let n := (next_row t + length found)%nat in
              let emitted := emitted_rows h + Z.of_nat (length found) in
              if (length (rows t) <=? n)%nat then
                chunk_loop fuel' now requested (taken found) (put (completed p) n (S (current_table h)) emitted) d
              else chunk_loop fuel' now requested (taken found) (put p n (current_table h) emitted) d
        end
      else (Ok events, (h, d))
  end.

Definition mark_last (e : Event.Event) : Event.Event :=
  {| Event.before := Event.before e; Event.after := Event.after e; Event.op := Event.op e;
     Event.source := Event.source e; Event.ts := Event.ts e; Event.schema := Event.schema e;
     Event.table := Event.table e; Event.primary_key := Event.primary_key e;
     Event.snapshot :=
       match Event.snapshot e with
       | Some m => Some {| Event.snapshot_id := Event.snapshot_id m;
                           Event.chunk_index := Event.chunk_index m; Event.is_last_chunk := true |}
       | None => None
       end;
     Event.transaction := Event.transaction e; Event.envelope_version := Event.envelope_version e;
     Event.before_is_key_only := Event.before_is_key_only e;
     Event.unavailable_columns := Event.unavailable_columns e;
     Event.before_unavailable_columns := Event.before_unavailable_columns e |}.

Definition mark_last_event (events : list Event.Event) : list Event.Event :=
  match last events with
  | Some e => take (pred (length events)) events ++ [mark_last e]
  | None => events
  end.

Definition bump_chunk (h : MysqlSnapshotHandle) : MysqlSnapshotHandle :=
  {| handle_source := handle_source h; snapshot := snapshot h; h_tables := h_tables h;
     connection := connection h; transaction_open := transaction_open h; current_table := current_table h;
     next_chunk_index := next_chunk_index h + 1; emitted_rows := emitted_rows h |}.

Definition next_snapshot_chunk (now : Z) (chunk_size : nat) : M (MysqlSnapshotHandle * D) (list Event.Event) :=
  fun '(h, d) =>
  if h_is_complete h then (Ok [], (h, d))
  else
    let requested := match chunk_size with O => DEFAULT_SNAPSHOT_CHUNK_SIZE | _ => chunk_size end in
    match chunk_loop (requested + length (h_tables h)) now requested [] h d with
    | (Ok [], (h', d')) => (Ok [], (sync_snapshot_tables h', d'))
    | (Ok events, (h', d')) =>
        (Ok (if h_is_complete h' then mark_last_event events else events),
         (sync_snapshot_tables (bump_chunk h'), d'))
    | (r, s) => (r, s)
    end.

(** ** Checkpoint, resume and finish *)

Definition table_snapshot_json (t : TableSnapshot) : json :=
  JObj [("table", JStr (ts_table t)); ("total_rows", jnat (total_rows t));
        ("rows_processed", jnat (rows_processed t));
        ("cursor_position", jopt JStr (cursor_position t)); ("is_complete", JBool (ts_complete t))].

Definition table_snapshot_from_json (v : json) : option TableSnapshot :=
  m ← as_object v;
  t ← field "table" as_str m;
  n ← field "total_rows" (as_uint u64_max) m;
  p ← field "rows_processed" (as_uint u64_max) m;
  c ← field_or "cursor_position" None (as_opt as_str) m;
  d ← field "is_complete" as_bool m;
  Some {| ts_table := t; total_rows := n; rows_processed := p; cursor_position := c; ts_complete := d |}.

Record SnapshotCheckpointState := {
  cp_snapshot_id : string;
  cp_start_ts : Z;
  cp_file : string;
  cp_pos : Z;
  cp_gtid : string;
  cp_current_table : nat;
  cp_next_chunk_index : Z;
  cp_tables : list TableSnapshot;
}.

Definition checkpoint_state_json (s : SnapshotCheckpointState) : json :=
  JObj [("snapshot_id", JStr (cp_snapshot_id s)); ("snapshot_start_ts", jnat (cp_start_ts s));
        ("binlog_file", JStr (cp_file s)); ("binlog_pos", jnat (cp_pos s)); ("gtid", JStr (cp_gtid s));
        ("current_table", jnat (Z.of_nat (cp_current_table s)));
        ("next_chunk_index", jnat (cp_next_chunk_index s));
        ("tables", JArr (map table_snapshot_json (cp_tables s)))].

Definition checkpoint_state_from_json (v : json) : option SnapshotCheckpointState :=
  m ← as_object v;
  i ← field "snapshot_id" as_str m;
  s ← field "snapshot_start_ts" (as_uint u64_max) m;
  f ← field "binlog_file" as_str m;
  p ← field "binlog_pos" (as_uint u32_max) m;
  g ← field "gtid" as_str m;
  c ← field "current_table" (as_uint u64_max) m;
  n ← field "next_chunk_index" (as_uint u32_max) m;
  ts ← field "tables" (fun v => l ← as_array v; traverse table_snapshot_from_json l) m;
  Some {| cp_snapshot_id := i; cp_start_ts := s; cp_file := f; cp_pos := p; cp_gtid := g;
          cp_current_table := Z.to_nat c; cp_next_chunk_index := n; cp_tables := ts |}.

Definition checkpoint_state (h : MysqlSnapshotHandle) : SnapshotCheckpointState :=
  {| cp_snapshot_id := snap_id (snapshot h); cp_start_ts := snapshot_start_ts (snapshot h);
     cp_file := snap_file (snapshot h); cp_pos := snap_pos (snapshot h); cp_gtid := snap_gtid (snapshot h);
     cp_current_table := current_table h; cp_next_chunk_index := next_chunk_index h;
     cp_tables := snap_tables (snapshot h) |}.

Definition snapshot_offset (h : MysqlSnapshotHandle) : DynOffset :=
  generic_dyn {| Offsets.source := handle_source h +:+ "_snapshot";
                 bytes := print_json (checkpoint_state_json (checkpoint_state h)) |}.

Definition checkpoint {C} `{Checkpoint C} (h : MysqlSnapshotHandle) (count : Z) (c : C) : Res unit * C :=
  save (snapshot_offset h) count c.

Definition resume_table (saved : TableSnapshot) (t : TableSnapshotState) : Res TableSnapshotState :=
  if live_query t then Ok (with_progress saved 0 t)
  else
    let n := Z.to_nat (rows_processed saved) in
    if (length (rows t) <? n)%nat then
      Err (CheckpointError "rows_processed exceeds available rows for table")
    else Ok (with_progress saved n t).

Definition resume_from_checkpoint_payload (h : MysqlSnapshotHandle) (payload : list byte)
    : Res MysqlSnapshotHandle :=
  match parse_json payload ≫= checkpoint_state_from_json with
  | None => Err (SerializationError "invalid mysql snapshot checkpoint")
  | Some st =>
      if negb (length (cp_tables st) =? length (h_tables h))%nat then
        Err (CheckpointError "mysql snapshot checkpoint table count does not match snapshot handle")
      else
        tables <-? map_res (fun st => resume_table (fst st) (snd st)) (zip (cp_tables st) (h_tables h));
        Ok (sync_snapshot_tables
          {| handle_source := handle_source h;
             snapshot := {| snap_tables := snap_tables (snapshot h); snap_id := cp_snapshot_id st;
                            snapshot_start_ts := cp_start_ts st; snap_file := cp_file st; snap_pos := cp_pos st;
                            snap_gtid := cp_gtid st |};
             h_tables := tables; connection := connection h; transaction_open := transaction_open h;
             current_table := cp_current_table st; next_chunk_index := cp_next_chunk_index st;
             emitted_rows := fold_right Z.add 0 (map rows_processed (cp_tables st)) |})
  end.

Definition close_transaction (h : MysqlSnapshotHandle) : MysqlSnapshotHandle :=
  {| handle_source := handle_source h; snapshot := snapshot h; h_tables := h_tables h;
     connection := false; transaction_open := false; current_table := current_table h;
     next_chunk_index := next_chunk_index h; emitted_rows := emitted_rows h |}.

Definition finish (now : Z) : M (MysqlSnapshotHandle * D) Z := fun '(h, d) =>
  let h := sync_snapshot_tables h in
  let processed := fold_right Z.add 0 (map rows_processed (snap_tables (snapshot h))) in
  if negb (processed =? emitted_rows h) then
    (Err (SourceError "mysql snapshot consistency check failed: emitted_rows differs"), (h, d))
  else if negb (total_expected_rows h =? processed) then
    (Err (SourceError "mysql snapshot consistency check failed: not all rows were emitted"), (h, d))
  else if transaction_open h then
    if negb (connection h) then
      (Err (StateError "mysql snapshot transaction is open but connection is unavailable"), (h, d))
    else match commit_transaction d with
    | (Ok _, d') => (Ok now, (close_transaction h, d'))
    | (Err _, d') => (Err (SourceError "failed to commit mysql snapshot transaction"), (h, d'))
    | (Panic, d') => (Panic, (h, d'))
    end
  else (Ok now, (h, d)).

(** ** Start *)

Fixpoint collect_tables (default_database : string) (tables : list string) : M D (list TableSnapshotState) :=
  match tables with
  | [] => mret []
  | table :: tables' =>
      r ← of_res (split_table_reference (Text.chars table));
      let '(schema_name, table_name) := (r : option string * string) in
      let table_schema := default default_database schema_name in
      key ← map_err (fun _ => SourceError "failed to query mysql primary key metadata")
              (key_columns table_schema table_name);
      match key with
      | [] => throw (SourceError "mysql snapshot requires PRIMARY KEY columns")
      | _ =>
          columns ← map_err (fun _ => SourceError "failed to query mysql column metadata")
                      (all_columns table_schema table_name);
          match columns with
          | [] => throw (SourceError "mysql snapshot table has no columns")
          | _ =>
              table_ref ← of_res (mysql_qualified_table_name_from_reference table);
              count ← map_err (fun _ => SourceError "failed counting rows")
                        (count_rows ("SELECT COUNT(*) FROM " +:+ table_ref));
              let total := default 0 count in
              if total <? 0 then throw (SourceError "negative row count returned")
              else
                rest ← collect_tables default_database tables';
                mret ({| progress := {| ts_table := table; total_rows := total; rows_processed := 0;
                                        cursor_position := None; ts_complete := total =? 0 |};
                         primary_key_columns := key; rows := []; next_row := 0; live_query := true |} :: rest)
          end
      end
  end.

Definition begin_snapshot_and_collect_table_states (now : Z) (tables : list string) (default_database : string)
    : M D (MysqlSnapshot * list TableSnapshotState) :=
  map_err (fun _ => SourceError "failed to start mysql snapshot transaction") start_transaction;;
  status ← log_status;
  if u32_max <? snd status then throw (SourceError "mysql binlog position exceeds u32")
  else
    executed ← unavailable_executed;
    states ← collect_tables default_database tables;
    mret ({| snap_tables := map progress states;
             snap_id := "mysql-snapshot-" +:+ show now +:+ "-" +:+ show (Z.of_nat (length tables));
             snapshot_start_ts := now; snap_file := fst status; snap_pos := snd status;
             snap_gtid := executed |}, states).

Definition new_snapshot_handle (source : string) (snap : MysqlSnapshot) (ts : list TableSnapshotState)
    : MysqlSnapshotHandle :=
  {| handle_source := source; snapshot := snap; h_tables := ts; connection := true;
     transaction_open := true; current_table := 0; next_chunk_index := 0; emitted_rows := 0 |}.

Definition start_snapshot_internal (now : Z) (tables : list string) (resume_from : option DynOffset)
    : M (MysqlConnection (D := D)) MysqlSnapshotHandle :=
  match tables with
  | [] => throw (ConfigError "mysql snapshot requires at least one table")
  | _ =>
      connected ← gets pool;
      if negb connected then throw (StateError "mysql connection must be established before snapshot")
      else
        cfg ← gets config;
        on_server get_conn;;
        setup ← on_server (catch (begin_snapshot_and_collect_table_states now tables (database cfg))
                             (fun e => catch rollback_transaction (fun _ => mret tt);; throw e));
        let h := new_snapshot_handle (config_source_type cfg) (fst setup) (snd setup) in
        h ← of_res (match resume_from with
                    | Some o =>
                        if negb (String.eqb (source_type o) (snapshot_source_name (server_flavor cfg))) then
                          Err (CheckpointError "cannot resume snapshot from another source type")
                        else payload <-? encode o; resume_from_checkpoint_payload h payload
                    | None => Ok h
                    end);
        modify (fun c => with_marks
          (Some (new_offset (server_flavor cfg) (snap_file (snapshot h)) (snap_pos (snapshot h)) (snap_gtid (snapshot h))))
          (stream_start c) c);;
        mret h
  end.

End Handle.

End MysqlSnapshot.
