(* ===== verification/MysqlIncremental.v ===== *)
(** * MysqlIncremental: the incremental snapshot of a MySQL server

    Models [src/src/source/mysql/incremental_snapshot.rs]: the MySQL half of the
    incremental snapshot driver, as an instance of the driver's backend class, and the live
    stream of [Mysql] as an instance of its stream class.  A chunk is bracketed by executed
    GTID sets where the server reports them ([gtid_bracket_exact]), the snapshot's progress
    is saved with the stream's position ([mysql_save_keeps_progress]), and a chunk does not
    show a row as the stream does ([chunk_shows_dates_otherwise]). *)

From S2P Require Import Prelude Errors CheckpointApi Strs Text Json Offsets Event Monad Driver GtidSet MysqlRows Mysql MysqlStart MysqlSnapshot.

Module MysqlIncremental.
Import MysqlRows Mysql MysqlStart MysqlSnapshot.

Local Open Scope string_scope.
Local Open Scope Z_scope.

(** ** Positions *)

Record BinlogPos := {
  bp_file : string;
  bp_position : Z;
  executed_gtids : GtidSet.GtidSet;
}.

(** [Ord]: the coordinate only. *)
Definition compare_pos (a b : BinlogPos) : comparison :=
  compare_binlog_position (bp_file a) (bp_position a) (bp_file b) (bp_position b).

Definition pos_lt (a b : BinlogPos) : bool := match compare_pos a b with Lt => true | _ => false end.

(** What follows the first [#gtid=] of an offset. *)
Definition event_gtid (e : Event.Event) : option string :=
  let offset := Event.offset (Event.source e) in
  n ← Text.find (Text.chars "#gtid=") (Text.chars offset);
  let g := Text.str (Text.strip (Text.chars (substring (n + 6) (String.length offset) offset))) in
  if is_empty g then None else Some g.

Definition default_bracket (position low high : BinlogPos) : Driver.BracketPosition :=
  Driver.ordinal_bracket pos_lt position low high.

Definition event_in_bracket (e : Event.Event) (position low high : BinlogPos) : Driver.BracketPosition :=
  if GtidSet.set_is_empty (executed_gtids low) && GtidSet.set_is_empty (executed_gtids high)
  then default_bracket position low high
  else
    match event_gtid e with
    | None => default_bracket position low high
    | Some g =>
        if negb (GtidSet.contains_gtid (executed_gtids high) g) then Driver.After
        else if GtidSet.contains_gtid (executed_gtids low) g then Driver.Before
        else Driver.Inside
    end.

(** ** The backend *)

(** A status row with its executed GTID set, under either statement, and the clock. *)
Class IncrementalServer (D : Type) := {
  master_status_row : M D (option (option string * option Z * option string));
  binary_log_status_row : M D (option (option string * option Z * option string));
  clock : M D Z;
}.

Section Backend.
Context `{FT : FloatText} `{JC : JsonCodec} {D Sid : Type}.
Context `{MS : MysqlServer D Sid} `{SV : SnapshotServer D} `{IS : IncrementalServer D}.
Variable default_database : string.

Definition condition_clause (t : Driver.SnapshotTable) (lead_in : string) : string :=
  match Driver.tbl_condition t with
  | Some condition => lead_in +:+ "(" +:+ condition +:+ ")"
  | None => ""
  end.

Definition describe_table (table_ref : string) : M D Driver.SnapshotTable :=
  r ← of_res (split_table_reference (Text.chars table_ref));
  let '(schema_opt, name) := (r : option string * string) in
  let schema := default default_database schema_opt in
  get_conn;;
  pk ← map_err (fun _ => ConfigError "incremental snapshot: PK query failed") (key_columns schema name);
  mret {| Driver.tbl_schema := schema; Driver.tbl_name := name;
          Driver.qualified := quoted_mysql_identifier schema +:+ "." +:+ quoted_mysql_identifier name;
          Driver.pk_columns := pk; Driver.pk_types := []; Driver.columns := []; Driver.tbl_condition := None |}.

Definition current_position : M D BinlogPos :=
  get_conn;;
  row ← catch master_status_row
          (fun _ => map_err (fun _ => SourceError "incremental snapshot: failed to read mysql binary log status")
                      binary_log_status_row);
  match row with
  | None => throw (SourceError "incremental snapshot: the binary log status returned no row")
  | Some (file, raw_position, gtids) =>
      let position := default 4 raw_position in
      if u32_max <? position then throw (SourceError "incremental snapshot: mysql binlog position exceeds u32")
      else match GtidSet.parse (default "" gtids) with
      | None => throw (SourceError "incremental snapshot: could not parse Executed_Gtid_Set")
      | Some set => mret {| bp_file := default "" file; bp_position := position; executed_gtids := set |}
      end
  end.

(** The value alone decides how it is shown. *)
Definition chunk_row_to_json (row : MysqlRow) : json :=
  JObj (obj_of (map (fun cv => (name_str (fst cv),
                                match snd cv with Some v => mysql_value_to_json v | None => JNull end)) row)).

Definition chunk_row (t : Driver.SnapshotTable) (row : MysqlRow) : Res Driver.ChunkRow :=
  let shown := chunk_row_to_json row in
  let cursor := map (fun c => default JNull (get c shown)) (Driver.pk_columns t) in
  if existsb (fun v => match v with JNull => true | _ => false end) cursor then
    Err (SourceError "incremental snapshot: NULL primary-key column")
  else Ok {| Driver.row_cursor := cursor; Driver.row := shown |}.

Definition fetch_chunk (t : Driver.SnapshotTable) (cursor : option (list json)) (limit : nat)
    : M D (list Driver.ChunkRow) :=
  let order := join ", " (map quoted_mysql_identifier (Driver.pk_columns t)) in
  let from := "SELECT * FROM " +:+ Driver.qualified t +:+ " AS t" in
  let tail := " ORDER BY " +:+ order +:+ " LIMIT " +:+ show (Z.of_nat limit) in
  get_conn;;
  found ←
    match cursor with
    | Some values =>
        params ← of_res (map_res mysql_json_value_to_param values);
        map_err (fun _ => SourceError "incremental snapshot: chunk SELECT failed")
          (select_rows (from +:+ " WHERE (" +:+ order +:+ ") > (" +:+ join ", " (map (fun _ => "?") values) +:+ ")"
                        +:+ condition_clause t " AND " +:+ tail) params)
    | None =>
        map_err (fun _ => SourceError "incremental snapshot: chunk SELECT failed")
          (select_rows (from +:+ condition_clause t " WHERE " +:+ tail) [])
    end;
  of_res (map_res (chunk_row t) found).

Definition position_of_event (e : Event.Event) : option BinlogPos :=
  fp ← parse_mysql_source_offset (Event.offset (Event.source e));
  Some {| bp_file := fst fp; bp_position := snd fp; executed_gtids := ∅ |}.

Definition offset_with_snapshot_state (inner : DynOffset) (state : IncrementalSnapshotState) : option DynOffset :=
  match encode inner with
  | Ok encoded =>
      o ← parse_json encoded ≫= mysql_from_json;
      Some (mysql_dyn (mysql_with_incremental_snapshot (Some state) o))
  | _ => None
  end.

#[export] Instance MysqlSnapshotBackend : Driver.Backend D BinlogPos := {
  Driver.pos_ltb := pos_lt;
  Driver.describe_table := describe_table;
  Driver.current_position := current_position;
  Driver.fetch_chunk := fetch_chunk;
  Driver.position_of_event := fun _ => position_of_event;
  Driver.event_in_bracket := fun _ => event_in_bracket;
  Driver.offset_with_snapshot_state := fun _ => offset_with_snapshot_state;
  Driver.now_millis := clock;
}.

End Backend.

(** ** The stream *)

Section Stream.
Context `{FT : FloatText} `{CT : Text.CaseTable} `{JC : JsonCodec}.
Variables (is_character_type : ColumnType -> bool) (expired : Z -> list bool).

(** The methods the handle does not implement are the trait's defaults. *)
#[export] Instance MysqlStream_StreamHandle : Driver.StreamHandle MysqlStreamHandle := {
  Driver.next_events := fun timeout_ms => next_events is_character_type (expired timeout_ms);
  Driver.position_offset := fun h => Some (position_offset h);
  Driver.incremental_snapshot_state := fun _ => None;
  Driver.resume_offset_for := fun _ _ => None;
  Driver.requeue_events := fun es => modify (requeue_events es);
  Driver.confirm_lsn := fun _ => mret tt;
}.

End Stream.

(** ** Brackets *)

(** A bracket by GTID sets asks what the chunk could have seen.  Where a watermark's
    executed set is not empty, an event of one transaction lies before the chunk read when
    the set read before it names its transaction, inside when only the set read after it
    does, and after it when neither names it. *)
Theorem gtid_bracket_exact e position low high raw_low raw_high g u n :
  GtidSet.parse raw_low = Some (executed_gtids low) -> GtidSet.parse raw_high = Some (executed_gtids high) ->
  GtidSet.set_is_empty (executed_gtids low) && GtidSet.set_is_empty (executed_gtids high) = false ->
  event_gtid e = Some g -> GtidSet.split_single_gtid g = Some (u, n) ->
  match event_in_bracket e position low high with
  | Driver.Before => GtidSet.names raw_low u n /\ GtidSet.names raw_high u n
  | Driver.Inside => ~ GtidSet.names raw_low u n /\ GtidSet.names raw_high u n
  | Driver.After => ~ GtidSet.names raw_high u n
  end.
Proof.
  intros Hl Hh He Hg Hs. unfold event_in_bracket, GtidSet.contains_gtid. rewrite He, Hg, Hs.
  assert (C : forall raw set, GtidSet.parse raw = Some set -> (GtidSet.contains set u n = true <-> GtidSet.names raw u n)).
  { intros raw set Hp. destruct (GtidSet.parse_wf raw set Hp) as [Hw Hm]. rewrite <- Hm. by apply GtidSet.contains_mem. }
  pose proof (C _ _ Hl) as Cl. pose proof (C _ _ Hh) as Ch.
  destruct (GtidSet.contains (executed_gtids high) u n), (GtidSet.contains (executed_gtids low) u n); cbn;
    rewrite <- ?Cl, <- ?Ch; split_and?; done.
Qed.

(** ** Progress *)

Section Persisted.
Context `{FT : FloatText} `{CT : Text.CaseTable} `{JC : JsonCodec} {JL : @JsonLaws JC} {B Sid : Type}.
Context `{MS : MysqlServer B Sid} `{SV : SnapshotServer B} `{IS : IncrementalServer B}.
Variables (is_character_type : ColumnType -> bool) (expired : Z -> list bool) (default_database : string).

Abbreviation position_of_driver :=
  (Driver.driver_position_offset (H0 := MysqlSnapshotBackend default_database)
     (H1 := MysqlStream_StreamHandle is_character_type expired)).

(** Over MySQL the snapshot's progress is saved with the stream's position.  When the
    driver holds nothing back, the offset it answers is the stream's own position (the same
    file, offset and GTID set, which a start of the stream accepts) and carries the progress
    of every table, which a restart finds unchanged. *)
Theorem mysql_save_keeps_progress (d : Driver.Driver B MysqlStreamHandle BinlogPos) :
  Driver.deferred d = [] -> wf_state (Driver.snapshot_state d) -> 0 <= pos (Driver.inner d) <= u32_max ->
  exists o, position_of_driver d = Some o /\
    state_from_offset (Some o) = Some (Driver.snapshot_state d) /\
    decode_stream_resume_position (name (Driver.inner d)) o =
      Ok (mysql_with_incremental_snapshot (Some (Driver.snapshot_state d)) (position (Driver.inner d))).
Proof.
  intros Hd Hw Hp. set (st := Driver.snapshot_state d) in *. set (p := position (Driver.inner d)).
  set (o := mysql_with_incremental_snapshot (Some st) p).
  assert (Xp : exact (mysql_json p) = true).
  { unfold mysql_json, p, jnat. cbn. rewrite exact_jnat; [done|]. unfold u32_max, u64_max, u64_modulus in *. lia. }
  assert (Xo : exact (mysql_json o) = true).
  { unfold mysql_json, o, jnat. cbn [exact]. rewrite forallb_app, exact_skip_none by (by intros s [= <-]).
    cbn [forallb snd exact]. rewrite exact_jnat; [done|]. unfold u32_max, u64_max, u64_modulus in *. cbn. lia. }
  assert (Rp : mysql_from_json (normalize (mysql_json p)) = Some p) by (apply mysql_roundtrip; [exact Hp|done]).
  assert (Ro : mysql_from_json (normalize (mysql_json o)) = Some o)
    by (apply mysql_roundtrip; [exact Hp|]; by intros s [= <-]).
  exists (mysql_dyn o). split_and!.
  - unfold Driver.driver_position_offset. rewrite Hd. cbn -[mysql_json mysql_from_json].
    unfold offset_with_snapshot_state. cbn -[mysql_json mysql_from_json].
    change (print_json (mysql_json _)) with (print_json (mysql_json p)).
    rewrite parse_print by done. cbn -[mysql_json mysql_from_json]. by rewrite Rp.
  - eapply state_from_printed; [reflexivity|exact Xo|done|]. by intros s [= <-].
  - unfold decode_stream_resume_position. cbn -[mysql_json mysql_from_json]. rewrite String.eqb_refl.
    cbn -[mysql_json mysql_from_json]. rewrite parse_print by done. cbn -[mysql_json mysql_from_json]. by rewrite Ro.
Qed.

End Persisted.

(** ** Values *)

Lemma length_of_bytes b : String.length (string_of_list_byte b) = length b.
Proof. induction b as [|x b IH]; cbn; [done|]. by rewrite <- IH. Qed.

Lemma length_hex b : String.length (hex_encode b) = (2 * length b)%nat.
Proof. unfold hex_encode, hex. induction b as [|x b IH]; [done|]. cbn [fold_right String.length length]. rewrite IH. lia. Qed.

(** A text is not what it begins with. *)
Lemma longer_text a b c : is_empty c = false -> JStr (a +:+ b +:+ c) <> JStr (a +:+ b).
Proof.
  intros Hc [= E]. apply (f_equal String.length) in E. rewrite !string_length_app in E.
  destruct c; [done|]. cbn [String.length] in E. lia.
Qed.

(** A chunk and the stream show the same row differently.  The stream shows a value by
    its column; a chunk, by the value alone.  A date comes from a chunk with a time of day,
    a time of day on the second with a fraction, and bytes that happen to be text as that
    text instead of hexadecimal digits, so none of them equals what the stream delivers for
    the same row. *)
Theorem chunk_shows_dates_otherwise `{FloatText} (ict : ColumnType -> bool) charset y mo d h mi s b ty :
  mysql_value_to_json (Date y mo d 0 0 0 0) <>
    mysql_value_to_json_for_column ict (Date y mo d 0 0 0 0) MYSQL_TYPE_DATE charset /\
  mysql_value_to_json (Date y mo d h mi s 0) <>
    mysql_value_to_json_for_column ict (Date y mo d h mi s 0) MYSQL_TYPE_DATETIME charset /\
  (ict ty = true -> utf8_valid b = true -> b <> [] ->
   mysql_value_to_json (Bytes b) <> mysql_value_to_json_for_column ict (Bytes b) ty MYSQL_BINARY_CHARSET).
Proof.
  split_and!.
  - exact (longer_text "" (calendar y mo d) ("T" +:+ clock_time 0 0 0 +:+ "." +:+ padded 6 0) eq_refl).
  - exact (longer_text (calendar y mo d) ("T" +:+ clock_time h mi s) ("." +:+ padded 6 0) eq_refl).
  - intros Ht Hu Hb. unfold mysql_value_to_json, mysql_value_to_json_for_column, mysql_value_to_json_typed, is_binary_column.
    rewrite Ht. cbn -[hex_encode]. rewrite Hu. intros [= E%(f_equal String.length)].
    rewrite length_of_bytes, length_hex in E. destruct b; [done|cbn in E; lia].
Qed.

End MysqlIncremental.
