(* ===== verification/MysqlDemo.v ===== *)
(** * MysqlDemo: a small binlog and its server

    The theorems of [MysqlStream] and [MysqlRestart] on a binlog of two files with two
    transactions, a schema change and a truncation, served from any position in it. *)

From S2P Require Import Prelude Errors CheckpointApi Strs Text Json Offsets Glob Event Monad Driver SchemaHistory DdlParse DdlRoundtrip GtidSet MysqlRows MysqlGtid Mysql MysqlStart MysqlStream MysqlRestart MysqlSnapshot MysqlPages MysqlIncremental.

Module MysqlDemo.
Import Event MysqlRows Mysql MysqlStart MysqlStream MysqlRestart.

Local Open Scope string_scope.
Local Open Scope Z_scope.
Local Open Scope list_scope.

#[local] Instance demo_floats : FloatText := {| show_f32 := show; show_f64 := show |}.
#[local] Instance demo_case : Text.CaseTable := DdlRoundtrip.ascii_case.
#[local] Instance demo_codec : JsonCodec := Json.RefCodec.codec.

Definition chars_type (t : ColumnType) : bool := false.

(** ** The binlog *)

Definition hd (n : Z) : Header := {| h_pos := n; h_ts := 1; h_server := 1 |}.

Definition orders : TableMap :=
  {| database_name := "app"; tm_table_name := "orders"; optional_labels := {| enums := []; sets := [] |} |}.

Definition order (id : Z) : MysqlRow :=
  [({| name_str := "id"; column_type := MYSQL_TYPE_OTHER 3; character_set := 63; pri_key_flag := true |}, Some (Int id))].

Definition us : list Entry :=
  [EQuiet (event_of (hd 120) OtherEvent);
   ETransaction (hd 200) [IRows (hd 250) WriteRowsEvent orders [(None, Some (order 1)); (None, Some (order 2))]] (hd 300) 7;
   EDdl (hd 400) "CREATE TABLE app.items (id INT)";
   ERotate (hd 0) "bin.000002" 4;
   ETransaction (hd 150) [IRows (hd 200) DeleteRowsEvent orders [(Some (order 1), None)]] (hd 260) 8;
   ETruncate (hd 350) "TRUNCATE TABLE app.orders"].

Definition c0 : string * Z := ("bin.000001", 4).

Definition cfg : MysqlSourceConfig :=
  {| database := "app"; config_server_id := 7; gtid_mode_enabled := false; binlog_format_check := true;
     config_max_events := 2; server_flavor := FlavorMysql; include_list := []; exclude_list := [];
     handoff_overlap_drain_budget_ms := 400 |}.

Lemma us_wf : Forall wf_entry us.
Proof.
  repeat (apply Forall_cons; split); [..|apply Forall_nil; done].
  - apply quiet_other.
  - split; [by repeat constructor|by split].
  - split; [done|]. split; [by split|]. eexists. vm_compute. reflexivity.
  - split; [by split|]. eexists. vm_compute. reflexivity.
  - split; [by repeat constructor|by split].
  - split; [done|]. split; [by split|]. split; [by vm_compute|]. eexists. vm_compute. reflexivity.
Qed.

(** ** The server *)

(** Each event after a wait; every other one beyond the deadline. *)
Fixpoint turns_of (late : bool) (es : list BinlogEvent) : list Turn :=
  match es with
  | [] => []
  | e :: es' => {| past_deadline := false; arrival := NothingYet |}
                :: {| past_deadline := late; arrival := Arrived e |} :: turns_of (negb late) es'
  end.

Lemma turns_deliver es : forall late, delivers true (turns_of late es) es.
Proof. induction es as [|e es IH]; intros late; cbn; constructor; [done|]. by constructor. Qed.

Lemma delivers_part ts es : delivers true ts es -> delivers false ts es.
Proof. by induction 1; constructor. Qed.

(** The first entry that ends at a position. *)
Fixpoint locate (at_ : string * Z) (pos : string * Z) (l : list Entry) : nat :=
  if bool_decide (at_ = pos) then 0
  else match l with [] => 0 | u :: l' => S (locate at_ (entry_end pos u) l') end.

Definition served (f : string) (n : Z) : list Entry := ERotate (hd 0) f n :: drop (locate (f, n) c0 us) us.

#[local] Instance demo_server : MysqlServer unit string := {|
  get_conn := mret tt;
  show_master_status := mret (Some (Some "bin.000002", Some 350));
  show_binary_log_status := mret None;
  gtid_executed := mret (Some "");
  gtid_purged := mret (Some "");
  gtid_subset := fun _ _ => mret (Some 1);
  gtid_subtract := fun _ _ => mret None;
  gtid_mode := mret (Some "OFF");
  binlog_format := mret (Some "ROW");
  show_grants := mret ["GRANT REPLICATION SLAVE ON *.* TO cdc"];
  log_bin := mret (Some 1);
  global_var := fun _ => mret (inr None);
  get_binlog_stream := fun r => mret (turns_of false (log_events (served (filename r) (request_pos r))));
|}.

Lemma demo_serves : serves true cfg c0 us tt.
Proof.
  split; [done|by eexists|by eexists|]. intros k. exists (turns_of false (log_events
    (served (fst (log_end c0 (take k us))) (snd (log_end c0 (take k us)))))), tt.
  exists (locate (log_end c0 (take k us)) c0 us), [ERotate (hd 0) (fst (log_end c0 (take k us))) (snd (log_end c0 (take k us)))].
  split; [done|].
  assert (K : exists i, (i <= 6)%nat /\ (i <= k)%nat /\ take k us = take i us /\
              (forall j, Forall silent (take (i - j) (drop j us)) -> Forall silent (take (k - j) (drop j us)))).
  { destruct (decide (k <= 6)%nat) as [Hk|Hk]; [by exists k|]. exists 6%nat. split; [lia|]. split; [lia|].
    split; [by rewrite !take_ge by (cbn; lia)|]. intros j. rewrite !take_ge by (rewrite length_drop; cbn; lia). done. }
  destruct K as (i & Hi & Hik & -> & Hs).
  assert (S : (locate (log_end c0 (take i us)) c0 us <= i)%nat /\
              Forall silent (take (i - locate (log_end c0 (take i us)) c0 us) (drop (locate (log_end c0 (take i us)) c0 us) us)) /\
              sanitize_binlog_file_name (fst (log_end c0 (take i us))) = Ok (fst (log_end c0 (take i us)))).
  { do 7 (destruct i as [|i]; [vm_compute; split; [lia|split; [by repeat constructor|reflexivity]]|]). lia. }
  destruct S as (S1 & S2 & S3). split; [lia|]. split; [by apply Hs|]. split.
  - apply Forall_cons; split; [by split|by apply Forall_nil].
  - cbn [app]. destruct (log_end c0 (take i us)) as [f n]. apply turns_deliver.
Qed.

Definition conn0 : MysqlConnection (D := unit) := with_pool true true (new_connection cfg tt).

Definition stream0 : MysqlStreamHandle :=
  {| name := "mysql"; file := "bin.000001"; pos := 4; gtid := ""; stream_state := Streaming;
     provider := {| arrivals := turns_of true (log_events us); provider_file := "bin.000001"; next_pos := 4;
                    active_gtid := None; active_tx_id := None; next_tx_id := 1 |};
     current_tx_id := None; current_commit_ts := 0; partial_tx_events := []; requeued_events := [];
     events_polled := 0; max_events_per_poll := 2; table_include_list := []; table_exclude_list := [] |}.

Lemma stream0_fresh all : delivers all (turns_of true (log_events us)) (log_events us) ->
  fresh (reading_of cfg) c0 all us stream0.
Proof. intros Hd. split; [done|done|cbn; lia|by split_and!|split; [by split|done]|done]. Qed.

(** Six polls, some of which wait for more than one read. *)
Definition six : list (list bool) := [[]; [false]; []; [false; false]; []; []].

(** ** Witnesses *)



(** A server whose first five transactions have been purged. *)
Definition sid : list byte := repeat Byte.xab 16.
Definition uuid : string := "abababab-abab-abab-abab-abababababab".

Definition demo_purging : MysqlServer unit string := {|
  get_conn := mret tt;
  show_master_status := mret (Some (Some "bin.000009", Some 350));
  show_binary_log_status := mret None;
  gtid_executed := mret (Some (uuid +:+ ":1-501"));
  gtid_purged := mret (Some (uuid +:+ ":1-5"));
  gtid_subset := fun _ _ => mret (Some 0);
  gtid_subtract := fun _ _ => mret (Some (uuid +:+ ":1-5"));
  gtid_mode := mret (Some "ON");
  binlog_format := mret (Some "ROW");
  show_grants := mret [];
  log_bin := mret (Some 1);
  global_var := fun _ => mret (inr None);
  get_binlog_stream := fun _ => mret [];
|}.

Lemma saved_parsed : parse_gtid_set_intervals (format_gtid sid 501) = [(uuid, [(501, 501)])].
Proof. vm_compute. reflexivity. Qed.

Lemma purged_parsed : parse_gtid_set_intervals (uuid +:+ ":1-5") = [(uuid, [(1, 5)])].
Proof. vm_compute. reflexivity. Qed.

Lemma executed_parsed : parse_gtid_set_intervals (uuid +:+ ":1-500") = [(uuid, [(1, 500)])].
Proof. vm_compute. reflexivity. Qed.

Lemma held k a b n : a <= n <= b -> MysqlGtid.holds [(k, [(a, b)])] k n.
Proof. intros H. apply MysqlGtid.holds_cons. left. split; [done|]. exists a, b. split; [by left|done]. Qed.

Lemma not_held k a b u n : ~ a <= n <= b -> ~ MysqlGtid.holds [(k, [(a, b)])] u n.
Proof.
  intros H [[_ (s & e & Hin & Hx)]|Hh]%MysqlGtid.holds_cons; [|by apply MysqlGtid.holds_nil in Hh].
  apply list_elem_of_singleton in Hin. by injection Hin as -> ->.
Qed.

Definition stream500 : MysqlStreamHandle := with_stream "bin.000009" 4 (uuid +:+ ":1-500") stream0.

Lemma commit_forgets_executed_set_witness : exists out p' h',
  takes chars_type (gtid_transaction (hd 100) sid 501 (hd 200) [] (hd 300) 9) (provider stream0) stream500 out p' h' /\
  gtid h' = format_gtid sid 501 /\
  MysqlGtid.executed (merge_gtid_into_set (gtid stream500) (format_gtid sid 501)) uuid 3 /\
  exists msg, fst (start_stream (Srv := demo_purging) Some (Some (position_offset h')) conn0) = Err (Unrecoverable msg).
Proof.
  apply (commit_forgets_executed_set (JL := Json.RefCodec.laws) (Srv := demo_purging) chars_type Some cfg
           (hd 100) sid 501 (hd 200) [] (hd 300) 9 (provider stream0) stream500 conn0 (uuid +:+ ":1-5") uuid 3).
  - by apply Forall_nil.
  - by vm_compute.
  - done.
  - done.
  - done.
  - done.
  - split; [done|by eexists|by eexists|done|by vm_compute|exists 0; split; [done|lia]|by eexists].
  - unfold MysqlGtid.executed. rewrite purged_parsed. apply held. lia.
  - unfold MysqlGtid.executed. rewrite saved_parsed. apply not_held. lia.
  - unfold MysqlGtid.executed. cbn [gtid stream500 with_stream]. rewrite executed_parsed. apply held. lia.
Defined.

Lemma statement_commit_loses_rows_witness : exists out p' h',
  takes chars_type
    (event_of (hd 200) (QueryEvent "BEGIN")
       :: map inner_event [IRows (hd 250) WriteRowsEvent orders [(None, Some (order 1))]]
       ++ event_of (hd 280) (QueryEvent "COMMIT") :: entry_events (ETransaction (hd 300) [] (hd 400) 7))
    (provider stream0) stream0 out p' h' /\
  map shown out = entry_says chars_type (reading_of cfg) "bin.000001" (ETransaction (hd 300) [] (hd 400) 7) /\
  (file h', pos h') = ("bin.000001", 400).
Proof.
  apply (statement_commit_loses_rows chars_type (reading_of cfg) c0 "bin.000001" (hd 200)
           [IRows (hd 250) WriteRowsEvent orders [(None, Some (order 1))]] (hd 280) (hd 300) [] (hd 400) 7).
  - done.
  - by split.
  - apply Forall_cons; split; [done|by apply Forall_nil].
  - by apply Forall_nil.
  - done.
Defined.


(** ** The incremental snapshot *)

Definition gtid_event : Event.Event :=
  {| before := None; after := None; op := Insert;
     source := {| source_name := "mysql"; offset := "bin.000001:300#gtid=ab:7"; timestamp := 1 |};
     ts := 1; schema := None; table := "orders"; primary_key := None; Event.snapshot := None; transaction := None;
     envelope_version := EVENT_ENVELOPE_VERSION; before_is_key_only := false;
     unavailable_columns := []; before_unavailable_columns := [] |}.

Definition mark (raw : string) : MysqlIncremental.BinlogPos :=
  {| MysqlIncremental.bp_file := "bin.000001"; MysqlIncremental.bp_position := 300;
     MysqlIncremental.executed_gtids := default ∅ (GtidSet.parse raw) |}.

Lemma gtid_bracket_exact_witness :
  MysqlIncremental.event_in_bracket gtid_event (mark "") (mark "ab:1-5") (mark "ab:1-7") = Driver.Inside /\
  match MysqlIncremental.event_in_bracket gtid_event (mark "") (mark "ab:1-5") (mark "ab:1-7") with
  | Driver.Before => GtidSet.names "ab:1-5" "ab" 7 /\ GtidSet.names "ab:1-7" "ab" 7
  | Driver.Inside => ~ GtidSet.names "ab:1-5" "ab" 7 /\ GtidSet.names "ab:1-7" "ab" 7
  | Driver.After => ~ GtidSet.names "ab:1-7" "ab" 7
  end.
Proof.
  split; [by vm_compute|].
  apply (MysqlIncremental.gtid_bracket_exact gtid_event (mark "") (mark "ab:1-5") (mark "ab:1-7") "ab:1-5" "ab:1-7" "ab:7" "ab" 7).
  - by vm_compute.
  - by vm_compute.
  - by vm_compute.
  - by vm_compute.
  - by vm_compute.
Defined.

#[local] Instance demo_snapshot_server : MysqlSnapshot.SnapshotServer unit := MysqlPages.table_server [].
#[local] Instance demo_incremental_server : MysqlIncremental.IncrementalServer unit := {|
  MysqlIncremental.master_status_row := mret None;
  MysqlIncremental.binary_log_status_row := mret None;
  MysqlIncremental.clock := mret 0;
|}.

(** A driver that has emitted two rows of a table. *)
Definition demo_driver : Driver.Driver.Driver unit MysqlStreamHandle MysqlIncremental.BinlogPos :=
  {| Driver.Driver.backend := tt; Driver.Driver.inner := stream0;
     Driver.Driver.tables :=
       [{| Driver.Driver.spec :=
             {| Driver.Driver.tbl_schema := "app"; Driver.Driver.tbl_name := "orders";
                Driver.Driver.qualified := "`app`.`orders`"; Driver.Driver.pk_columns := ["id"];
                Driver.Driver.pk_types := []; Driver.Driver.columns := [];
                Driver.Driver.tbl_condition := None |};
           Driver.Driver.pk_cursor := Some [JStr "2"]; Driver.Driver.is_complete := false;
           Driver.Driver.chunks_emitted := 1; Driver.Driver.rows_emitted := 2 |}];
     Driver.Driver.phase := Driver.Driver.ChunkPrepare 0; Driver.Driver.chunk_size := 2;
     Driver.Driver.table_conditions := []; Driver.Driver.source_name := "mysql";
     Driver.Driver.snapshot_id := "demo"; Driver.Driver.events_emitted := 2;
     Driver.Driver.paused := false; Driver.Driver.generation := 0; Driver.Driver.stopped := false;
     Driver.Driver.deferred := [] |}.

Lemma mysql_save_keeps_progress_witness : exists o,
  Driver.Driver.driver_position_offset (H0 := MysqlIncremental.MysqlSnapshotBackend "app")
    (H1 := MysqlIncremental.MysqlStream_StreamHandle chars_type (fun _ => [])) demo_driver = Some o /\
  state_from_offset (Some o) = Some (Driver.Driver.snapshot_state demo_driver) /\
  decode_stream_resume_position "mysql" o =
    Ok (mysql_with_incremental_snapshot (Some (Driver.Driver.snapshot_state demo_driver)) (position stream0)).
Proof.
  apply (MysqlIncremental.mysql_save_keeps_progress (JL := Json.RefCodec.laws) chars_type (fun _ => []) "app" demo_driver).
  - done.
  - split; [|cbn; unfold u32_max; lia]. apply Forall_cons. split; [|by apply Forall_nil].
    split; [cbn; unfold u32_max; lia|]. split; [cbn; unfold u64_max, u64_modulus; lia|].
    apply Forall_cons. split; [done|by apply Forall_nil].
  - cbn. unfold u32_max. lia.
Defined.

Lemma chunk_shows_dates_otherwise_witness :
  mysql_value_to_json (Date 2026 7 20 0 0 0 0) <>
    mysql_value_to_json_for_column (fun _ => true) (Date 2026 7 20 0 0 0 0) MYSQL_TYPE_DATE 63 /\
  mysql_value_to_json (Date 2026 7 20 9 30 0 0) <>
    mysql_value_to_json_for_column (fun _ => true) (Date 2026 7 20 9 30 0 0) MYSQL_TYPE_DATETIME 63 /\
  (true = true -> utf8_valid [Byte.x61] = true -> [Byte.x61] <> [] ->
   mysql_value_to_json (Bytes [Byte.x61]) <>
     mysql_value_to_json_for_column (fun _ => true) (Bytes [Byte.x61]) (MYSQL_TYPE_OTHER 254) MYSQL_BINARY_CHARSET).
Proof.
  exact (MysqlIncremental.chunk_shows_dates_otherwise (fun _ => true) 63 2026 7 20 9 30 0 [Byte.x61] (MYSQL_TYPE_OTHER 254)).
Defined.

End MysqlDemo.
