(* ===== verification/SqlServer.v ===== *)
(** * SqlServer: reading change tables in LSN windows

    The change stream of the SQL Server connector ([src/src/source/sqlserver.rs] and, under
    [source/sqlserver/], [parser.rs], [stream_start.rs], [stream_schema.rs],
    [stream_window.rs] and the truncate queries of [query.rs]): positions and cursors, the
    window of LSNs a poll reads, the merge of the capture instances, update pairs, schema
    and truncate events, and the handoff from a snapshot.

    The server is a type class: what its queries return is read from there.  The statement a
    query sends is the record of its parameters.  An LSN, ten bytes compared in order, is
    the 80-bit number they spell. *)

From S2P Require Import Prelude Errors CheckpointApi Strs Json Offsets Event Glob Monad SchemaHistory.

Module SqlServer.

Local Open Scope string_scope.
Local Open Scope Z_scope.

Abbreviation Event := Event.Event.

(** ** Positions *)

Definition LSN : Type := Z.
Definition lsn_modulus : Z := 2 ^ 80.
Definition ZERO_LSN_HEX : string := "0x00000000000000000000".

Definition compare_lsn (left right : LSN) : comparison := Z.compare left right.

(** [u8::from_str_radix(piece, 16)] of a piece of two characters. *)
Definition hex_byte (a b : ascii) : option Z :=
  if Ascii.eqb a "+" then hex_value b
  else hi ← hex_value a; lo ← hex_value b; Some (hi * 16 + lo).

Fixpoint hex_pairs (acc : Z) (s : string) : option Z :=
  match s with
  | "" => Some acc
  | String a (String b s') => v ← hex_byte a b; hex_pairs (acc * 256 + v) s'
  | String _ "" => None
  end.

Definition lsn_hex_to_bytes (lsn_hex : string) : Res LSN :=
  let value :=
    match strip_prefix "0x" lsn_hex with
    | Some v => v
    | None => default lsn_hex (strip_prefix "0X" lsn_hex)
    end in
  if negb (String.length value =? 20)%nat then Err (CheckpointError "invalid sqlserver LSN length")
  else
    match hex_pairs 0 value with
    | Some n => Ok n
    | None => Err (CheckpointError "invalid sqlserver LSN hex byte")
    end.

Definition lsn_hex_to_bytes_opt (s : string) : option LSN :=
  match lsn_hex_to_bytes s with Ok n => Some n | _ => None end.

(** [w] bytes, most significant first, in lower case. *)
Fixpoint hex_be (w : nat) (n : Z) : string :=
  match w with
  | O => ""
  | S w' =>
      let b := n / 256 ^ Z.of_nat w' in
      String (hex_digit (b / 16)) (String (hex_digit (b mod 16)) (hex_be w' (n mod 256 ^ Z.of_nat w')))
  end.

Definition lsn_bytes_to_hex (lsn : LSN) : string := "0x" +:+ hex_be 10 lsn.

(** The first eight of the ten bytes. *)
Definition lsn_bytes_to_u64_distance (lsn : LSN) : Z := lsn / 65536.

Definition lsn_from_source_offset (offset : string) : option LSN :=
  lsn_hex_to_bytes_opt (match split_once ":" offset with Some (l, _) => l | None => offset end).

(** A position inside a window. *)
Record SqlServerCdcCursor := {
  lsn_hex : string;
  seqval_hex : string;
  operation : Z;
}.

(** [i32::to_string], for the operations of a change table. *)
(** [i32::to_string] *)
Definition show_i32 (n : Z) : string := if n <? 0 then "-" +:+ show (- n) else show n.

Definition encode_cursor (c : SqlServerCdcCursor) : string :=
  lsn_hex c +:+ ":" +:+ seqval_hex c +:+ ":" +:+ show_i32 (operation c).

(** [str::parse::<i32>] *)
Definition parse_i32 (s : string) : option Z :=
  match s with
  | String a s' =>
      if Ascii.eqb a "-" then
        if is_empty s' then None else n ← parse_digits (2 ^ 31) 0 s'; Some (- n)
      else parse_uint (2 ^ 31 - 1) s
  | "" => None
  end.

Definition decode_cursor (offset : string) : option SqlServerCdcCursor :=
  match split ":" offset with
  | l :: s :: o :: _ =>
      op ← parse_i32 o;
      _ ← lsn_hex_to_bytes_opt l;
      _ ← lsn_hex_to_bytes_opt s;
      Some {| lsn_hex := l; seqval_hex := s; operation := op |}
  | _ => None
  end.

Definition then_with (a b : comparison) : comparison := match a with Eq => b | _ => a end.
Definition is_le (c : comparison) : bool := match c with Gt => false | _ => true end.
Definition is_lt (c : comparison) : bool := match c with Lt => true | _ => false end.
Definition is_gt (c : comparison) : bool := match c with Gt => true | _ => false end.

Definition cursor_ordering (left right : SqlServerCdcCursor) : comparison :=
  then_with
    (then_with
       (match lsn_hex_to_bytes_opt (lsn_hex left), lsn_hex_to_bytes_opt (lsn_hex right) with
        | Some a, Some b => compare_lsn a b
        | _, _ => String.compare (lsn_hex left) (lsn_hex right)
        end)
       (String.compare (seqval_hex left) (seqval_hex right)))
    (Z.compare (operation left) (operation right)).

Section Offsets.
Context `{JsonCodec}.

(** The cursor of a checkpoint: a [SqlServerOffset] object, or a bare string. *)
Definition sqlserver_cursor_from_offset_bytes (encoded : list byte) : Res string :=
  match parse_json encoded ≫= sqlserver_from_json with
  | Some o => Ok (cursor o)
  | None =>
      Err (CheckpointError "sqlserver checkpoint offset is neither a SqlServerOffset object nor a cursor string")
  end.

Definition sqlserver_resume_lsn_from_offset_bytes (encoded : list byte) : Res LSN :=
  c <-? sqlserver_cursor_from_offset_bytes encoded;
  match lsn_from_source_offset c with
  | Some l => Ok l
  | None => Err (CheckpointError "invalid sqlserver checkpoint offset")
  end.

End Offsets.

(** ** Names *)

Definition name_char (a : ascii) : bool :=
  let c := code a in
  ((48 <=? c) && (c <=? 57)) || ((65 <=? c) && (c <=? 90)) || ((97 <=? c) && (c <=? 122))
  || (c =? 95).

Fixpoint all_chars (p : ascii -> bool) (s : string) : bool :=
  match s with "" => true | String a s' => p a && all_chars p s' end.

Definition validate_capture_instance_name (name : string) : Res unit :=
  if is_empty name then Err (SourceError "sqlserver capture_instance name must not be empty")
  else if all_chars name_char name then Ok tt
  else Err (SourceError "invalid sqlserver capture_instance name").

Definition validate_sql_identifier (name : string) : Res unit :=
  if is_empty name then Err (ConfigError "sqlserver identifier must not be empty")
  else if all_chars name_char name then Ok tt
  else Err (ConfigError "sqlserver identifier contains unsupported characters").

Definition invalid_table_name : Error := ConfigError "sqlserver snapshot table name is invalid".

(** [char::is_control] on ASCII; NUL is one of them. *)
Definition is_control (a : ascii) : bool := (code a <? 32) || (code a =? 127).

Definition finalize_sqlserver_identifier_segment (raw : string) (quoted : bool) : Res string :=
  let segment := if quoted then raw else trim raw in
  if is_empty segment then Err invalid_table_name
  else if quoted then
    if all_chars (fun a => negb (is_control a)) segment then Ok segment else Err invalid_table_name
  else _ <-? validate_sql_identifier segment; Ok segment.

(** The loop of [parse_sqlserver_identifier_path]: the segment so far, whether the position
    is inside brackets, whether the segment has been. *)
Fixpoint identifier_path (current : string) (in_brackets quoted : bool) (input : string)
    : Res (list string) :=
  match input with
  | "" =>
      if in_brackets then Err invalid_table_name
      else last <-? finalize_sqlserver_identifier_segment current quoted; Ok [last]
  | String ch rest =>
      if in_brackets then
        if Ascii.eqb ch "]" then
          match rest with
          | String next rest' =>
              if Ascii.eqb next "]" then identifier_path (current +:+ "]") true quoted rest'
              else identifier_path current false quoted rest
          | "" => identifier_path current false quoted rest
          end
        else identifier_path (current +:+ String ch "") true quoted rest
      else if Ascii.eqb ch "[" then
        if is_empty (trim current) then identifier_path "" true true rest
        else Err invalid_table_name
      else if Ascii.eqb ch "." then
        segment <-? finalize_sqlserver_identifier_segment current quoted;
        rest <-? identifier_path "" false false rest;
        Ok (segment :: rest)
      else identifier_path (current +:+ String ch "") false quoted rest
  end.

Definition parse_sqlserver_identifier_path (input : string) : Res (list string) :=
  identifier_path "" false false input.

Definition parse_schema_table (name : string) : Res (string * string) :=
  let trimmed := trim name in
  if is_empty trimmed then Err (ConfigError "sqlserver snapshot table name must not be empty")
  else
    parts <-? parse_sqlserver_identifier_path trimmed;
    match parts with
    | [table] => Ok ("dbo", table)
    | [schema; table] => Ok (schema, table)
    | _ => Err invalid_table_name
    end.

Fixpoint double_brackets (s : string) : string :=
  match s with
  | "" => ""
  | String a s' => if Ascii.eqb a "]" then String "]" (String "]" (double_brackets s'))
                   else String a (double_brackets s')
  end.

Definition quoted_identifier (identifier : string) : string :=
  "[" +:+ double_brackets identifier +:+ "]".

Definition qualified_table_name (schema table : string) : string :=
  quoted_identifier schema +:+ "." +:+ quoted_identifier table.

(** ** State *)

Record CaptureInstanceMeta := {
  capture_instance : string;
  meta_schema : string;
  meta_table : string;
  meta_primary_key : list string;
  captured_columns : list string;
  capture_floor : LSN;
}.

#[global] Instance Meta_eq_dec : EqDecision CaptureInstanceMeta.
Proof. solve_decision. Defined.

Record SqlServerRawChange := {
  start_lsn_hex : string;
  change_seqval_hex : string;
  change_operation : Z;
  ts_ms : Z;
  row : json;
}.

Record SqlServerStream := {
  lsn_start : LSN;
  lsn_end : LSN;
  change_tables : list string;
  poll_interval_ms : Z;
  stream_cursor : option SqlServerCdcCursor;
  pending_cursor : option SqlServerCdcCursor;
}.

(** The configuration, as far as the stream reads it. *)
Record SqlServerSourceConfig := {
  cdc_schema : string;
  table_include_list : list string;
  table_exclude_list : list string;
  capture_truncate_events : bool;
}.

(** ** The server *)

(** A row of the change table as the query returns it; a missing column is [None]. *)
Record CdcRow := {
  col_start_lsn : option string;
  col_seqval : option string;
  col_operation : option Z;
  col_ts : option Z;
  col_json : option string;
}.

Fixpoint select_columns (first : bool) (columns : list string) : string :=
  match columns with
  | [] => ""
  | c :: columns' =>
      (if first then "" else ", ") +:+ "c." +:+ quoted_identifier c +:+ " AS " +:+ quoted_identifier c
      +:+ select_columns false columns'
  end.

Definition build_cdc_select_columns (columns : list string) : string := select_columns true columns.

Definition cursor_clause (cursor : option SqlServerCdcCursor) : string :=
  match cursor with
  | Some c =>
      let lsn := "CONVERT(binary(10), '" +:+ lsn_hex c +:+ "', 1)" in
      let seq := "CONVERT(binary(10), '" +:+ seqval_hex c +:+ "', 1)" in
      " WHERE c.__$start_lsn > " +:+ lsn
      +:+ " OR (c.__$start_lsn = " +:+ lsn +:+ " AND c.__$seqval > " +:+ seq
      +:+ ") OR (c.__$start_lsn = " +:+ lsn +:+ " AND c.__$seqval = " +:+ seq
      +:+ " AND c.__$operation > " +:+ show_i32 (operation c) +:+ ")"
  | None => ""
  end.

(** The first [top] rows of the capture instance between two LSNs and past the cursor, in
    the order of their positions. *)
Definition build_cdc_poll_sql (instance : string) (columns : list string) (top : nat)
    (start_hex end_hex : string) (cursor : option SqlServerCdcCursor) : string :=
  "SELECT TOP (" +:+ show (Z.of_nat top)
  +:+ ") sys.fn_varbintohexstr(c.__$start_lsn) AS start_lsn_hex, sys.fn_varbintohexstr(c.__$seqval) AS seqval_hex, c.__$operation AS operation, DATEDIFF_BIG(MILLISECOND, '1970-01-01T00:00:00', COALESCE(sys.fn_cdc_map_lsn_to_time(c.__$start_lsn), SYSUTCDATETIME())) AS ts_ms, (SELECT "
  +:+ build_cdc_select_columns columns
  +:+ " FOR JSON PATH, WITHOUT_ARRAY_WRAPPER) AS row_json FROM cdc.fn_cdc_get_all_changes_" +:+ instance
  +:+ "(CONVERT(binary(10), '" +:+ start_hex +:+ "', 1), CONVERT(binary(10), '" +:+ end_hex
  +:+ "', 1), 'all update old') AS c" +:+ cursor_clause cursor
  +:+ " ORDER BY c.__$start_lsn, c.__$seqval, c.__$operation".

(** The statement of a poll and the parameters it was built from. *)
Record CdcPoll := {
  poll_sql : string;
  poll_instance : string;
  poll_columns : list string;
  poll_top : nat;
  poll_start_hex : string;
  poll_end_hex : string;
  poll_cursor : option SqlServerCdcCursor;
}.

Record TruncateEventRow := {
  trunc_id : Z;
  trunc_schema : string;
  trunc_table : string;
  max_lsn_bytes : option LSN;
  trunc_ts : Z;
}.

(** A row of the metadata query. *)
Record MetaRow := {
  mr_instance : option string;
  mr_schema : option string;
  mr_table : option string;
  mr_min_lsn : option string;
}.

(** The queries.  [cdc_poll] answers with the text of the server's error on the left. *)
Class CdcServer (D : Type) := {
  connect_client : M D unit;
  query_metas : M D (list MetaRow);
  query_captured_columns : string -> M D (list string);
  query_primary_key : string -> M D (list string);
  cdc_poll : CdcPoll -> M D (string + list CdcRow);
  query_min_lsn : string -> M D (option string);
  query_advance : LSN -> M D (list (option string * option string));
  query_max_lsn : M D (option string);
  setup_truncates : string -> M D unit;
  query_truncates : string -> string -> M D (list TruncateEventRow);
  mark_truncates : string -> list Z -> M D unit;
  cleanup_truncates : string -> M D unit;
}.

(** [serde_json] on a row: the fields of an object with the text of their values. *)
Class RawJson := raw_fields : string -> option (list (string * string)).

Definition selected (cfg : SqlServerSourceConfig) (schema table : string) : bool :=
  Glob.table_is_allowed (Some schema) table (table_include_list cfg) (table_exclude_list cfg).

Definition need {A} (msg : string) (o : option A) : Res A :=
  match o with Some a => Ok a | None => Err (SourceError msg) end.

Section Catalog.
Context {D : Type} `{CdcServer D}.

(** The metadata rows of the selected capture instances. *)
Fixpoint load_metas (cfg : SqlServerSourceConfig) (require_columns : bool) (rows : list MetaRow)
    : M D (list CaptureInstanceMeta) :=
  match rows with
  | [] => mret []
  | m :: rows' =>
      instance ← of_res (need "metadata missing capture_instance" (mr_instance m));
      of_res (validate_capture_instance_name instance);;
      schema ← of_res (need "metadata missing source_schema" (mr_schema m));
      table ← of_res (need "metadata missing source_name" (mr_table m));
      if negb (selected cfg schema table) then load_metas cfg require_columns rows'
      else
        cols ← query_captured_columns instance;
        if require_columns && bool_decide (cols = []) then
          throw (SourceError "sqlserver capture instance has no captured columns")
        else
          pk ← query_primary_key instance;
          floor ← of_res (match mr_min_lsn m with
                          | Some v => if is_empty v then Ok 0 else lsn_hex_to_bytes v
                          | None => Ok 0
                          end);
          rest ← load_metas cfg require_columns rows';
          mret ({| capture_instance := instance; meta_schema := schema; meta_table := table;
                   meta_primary_key := pk; captured_columns := cols; capture_floor := floor |} :: rest)
  end.

Definition load_capture_metas_for_config (cfg : SqlServerSourceConfig)
    (require_metas require_columns : bool) : M D (list CaptureInstanceMeta) :=
  connect_client;;
  rows ← query_metas;
  ms ← load_metas cfg require_columns rows;
  if require_metas && bool_decide (ms = []) then
    throw (SourceError "sqlserver CDC has no capture instances")
  else mret ms.

(** The text of an LSN query: an absent or empty value is the zero LSN. *)
Definition or_zero (o : option string) : string :=
  match o with Some v => if is_empty v then ZERO_LSN_HEX else v | None => ZERO_LSN_HEX end.

Definition query_max_lsn_hex : M D string := connect_client;; v ← query_max_lsn; mret (or_zero v).

Definition query_min_lsn_hex (instance : string) : M D string :=
  connect_client;; v ← query_min_lsn instance; mret (or_zero v).

End Catalog.

Record Reader (D : Type) := {
  config : SqlServerSourceConfig;
  stream : SqlServerStream;
  metas : list CaptureInstanceMeta;
  events_polled : Z;
  requeued_events : list Event;
  max_events_per_poll : nat;
  pending_update_befores : gmap (string * string) (json * Z);
  window_buffer : list Event;
  db : D;
}.
Arguments config {D}. Arguments stream {D}. Arguments metas {D}. Arguments events_polled {D}.
Arguments requeued_events {D}. Arguments max_events_per_poll {D}.
Arguments pending_update_befores {D}. Arguments window_buffer {D}. Arguments db {D}.

Section Handle.
Context `{JsonCodec} `{RawJson} {D : Type} `{CdcServer D}.
(** The standard hasher, and the iteration order of a hash map built from a list. *)
Variables (sip : string -> Z) (iteration : list CaptureInstanceMeta -> list CaptureInstanceMeta).

Abbreviation R := (Reader D).

Definition with_db (d : D) (r : R) : R :=
  {| config := config r; stream := stream r; metas := metas r; events_polled := events_polled r;
     requeued_events := requeued_events r; max_events_per_poll := max_events_per_poll r;
     pending_update_befores := pending_update_befores r; window_buffer := window_buffer r; db := d |}.

Definition with_window (st : SqlServerStream) (r : R) : R :=
  {| config := config r; stream := st; metas := metas r; events_polled := events_polled r;
     requeued_events := requeued_events r; max_events_per_poll := max_events_per_poll r;
     pending_update_befores := pending_update_befores r; window_buffer := window_buffer r; db := db r |}.

Definition with_buffer (b : list Event) (r : R) : R :=
  {| config := config r; stream := stream r; metas := metas r; events_polled := events_polled r;
     requeued_events := requeued_events r; max_events_per_poll := max_events_per_poll r;
     pending_update_befores := pending_update_befores r; window_buffer := b; db := db r |}.

Definition with_befores (p : gmap (string * string) (json * Z)) (r : R) : R :=
  {| config := config r; stream := stream r; metas := metas r; events_polled := events_polled r;
     requeued_events := requeued_events r; max_events_per_poll := max_events_per_poll r;
     pending_update_befores := p; window_buffer := window_buffer r; db := db r |}.

Definition with_counts (ms : list CaptureInstanceMeta) (n : Z) (q : list Event) (r : R) : R :=
  {| config := config r; stream := stream r; metas := ms; events_polled := n;
     requeued_events := q; max_events_per_poll := max_events_per_poll r;
     pending_update_befores := pending_update_befores r; window_buffer := window_buffer r; db := db r |}.

Definition on_db {A} (m : M D A) : M R A := fun r => let '(res, d) := m (db r) in (res, with_db d r).

(** A query on a connection of its own. *)
Definition query {A} (m : M D A) : M R A := on_db connect_client;; on_db m.

Definition cursors (c p : option SqlServerCdcCursor) (st : SqlServerStream) : SqlServerStream :=
  {| lsn_start := lsn_start st; lsn_end := lsn_end st; change_tables := change_tables st;
     poll_interval_ms := poll_interval_ms st; stream_cursor := c; pending_cursor := p |}.

(** *** The window *)

Definition next_window (current_start current_end incremented_end harvested_max : LSN) : LSN * LSN :=
  if is_gt (compare_lsn current_start current_end) then (current_start, harvested_max)
  else (incremented_end, harvested_max).

Definition advance_window : M R unit :=
  r ← gets id;
  rows ← query (query_advance (lsn_end (stream r)));
  match rows with
  | [] => throw (SourceError "sqlserver CDC window advance returned no row")
  | (start, end_) :: _ =>
      incremented ← of_res (lsn_hex_to_bytes (or_zero start));
      harvested_max ← of_res (lsn_hex_to_bytes (or_zero end_));
      modify (fun r =>
        let st := stream r in
        let '(s, e) := next_window (lsn_start st) (lsn_end st) incremented harvested_max in
        with_window {| lsn_start := s; lsn_end := e; change_tables := change_tables st;
                       poll_interval_ms := poll_interval_ms st;
                       stream_cursor := None; pending_cursor := None |} r)
  end.

Definition settle_drained_window : M R unit := fun r =>
  match pending_cursor (stream r) with
  | Some c => (Ok tt, with_window (cursors (Some c) None (stream r)) r)
  | None => advance_window r
  end.

(** *** Reading a capture instance *)

Definition is_sqlserver_cdc_window_error (message : string) : bool :=
  let l := lower message in
  contains_str "fn_cdc_get_all_changes_" l
  && (contains_str "insufficient number of arguments" l || contains_str "expects parameter" l).

Definition out_of_retention_error : Error :=
  Unrecoverable "sqlserver CDC change data is no longer retained".

(** The text is unreadable when the query fails. *)
Definition classify_cdc_window_error (instance start_hex : string) : M R (list SqlServerRawChange) :=
  on_db connect_client;;
  found ← on_db (catch (query_min_lsn instance) (fun _ => mret None));
  match lsn_hex_to_bytes_opt start_hex, lsn_hex_to_bytes_opt (default "" found) with
  | Some start, Some min =>
      if is_lt (compare_lsn start min) then throw out_of_retention_error else mret []
  | _, _ => throw out_of_retention_error
  end.

(** A value of a row: numbers and booleans keep their text. *)
Definition decode_value (text : string) : Res json :=
  let t := trim text in
  match t with
  | String a _ =>
      if Ascii.eqb a "n" then Ok JNull
      else if Ascii.eqb a "034" || Ascii.eqb a "{" || Ascii.eqb a "[" then
        match parse_json (list_byte_of_string t) with
        | Some v => Ok v
        | None => Err (SerializationError "sqlserver row JSON decode failed for a column")
        end
      else Ok (JStr t)
  | "" => Ok (JStr t)
  end.

Fixpoint decode_fields (l : list (string * string)) : Res (list (string * json)) :=
  match l with
  | [] => Ok []
  | (name, text) :: l' =>
      v <-? decode_value text;
      rest <-? decode_fields l';
      Ok ((name, v) :: rest)
  end.

Definition decode_row_json_as_text (row_json : string) : Res (list (string * json)) :=
  match raw_fields row_json with
  | Some l => decode_fields l
  | None => Err (SerializationError "sqlserver row JSON decode failed")
  end.

(** A row of the result: absent columns are nulls. *)
Definition raw_change (columns : list string) (r : CdcRow) : Res SqlServerRawChange :=
  lsn <-? need "sqlserver CDC row missing __$start_lsn" (col_start_lsn r);
  seq <-? need "sqlserver CDC row missing __$seqval" (col_seqval r);
  op <-? need "sqlserver CDC row missing __$operation" (col_operation r);
  parsed <-? (match decode_row_json_as_text (default "{}" (col_json r)) with
              | Ok v => Ok v
              | Err _ => Err (SourceError "sqlserver CDC row_json is not valid JSON")
              | Panic => Panic
              end);
  Ok {| start_lsn_hex := lsn; change_seqval_hex := seq; change_operation := op;
        ts_ms := Z.max (default 0 (col_ts r)) 0;
        row := JObj (obj_of (map (fun c => (c, default JNull (obj_get c parsed))) columns)) |}.

Fixpoint raw_changes (columns : list string) (rs : list CdcRow) : Res (list SqlServerRawChange) :=
  match rs with
  | [] => Ok []
  | r :: rs' => c <-? raw_change columns r; cs <-? raw_changes columns rs'; Ok (c :: cs)
  end.

Definition fetch_changes_for_capture_instance (meta : CaptureInstanceMeta) (top : nat)
    : M R (list SqlServerRawChange) := fun r =>
  let st := stream r in
  if is_gt (compare_lsn (lsn_start st) (lsn_end st)) then (Ok [], r)
  else
    (of_res (validate_capture_instance_name (capture_instance meta));;
     if is_gt (compare_lsn (capture_floor meta) (lsn_start st))
        && is_gt (compare_lsn (capture_floor meta) (lsn_end st)) then mret []
     else
       let window_start :=
         if is_gt (compare_lsn (capture_floor meta) (lsn_start st)) then capture_floor meta
         else lsn_start st in
       answer ← query (cdc_poll
         {| poll_sql := build_cdc_poll_sql (capture_instance meta) (captured_columns meta) top
              (lsn_bytes_to_hex window_start) (lsn_bytes_to_hex (lsn_end st)) (stream_cursor st);
            poll_instance := capture_instance meta; poll_columns := captured_columns meta;
            poll_top := top; poll_start_hex := lsn_bytes_to_hex window_start;
            poll_end_hex := lsn_bytes_to_hex (lsn_end st); poll_cursor := stream_cursor st |});
       match answer with
       | inl text =>
           if is_sqlserver_cdc_window_error text then
             classify_cdc_window_error (capture_instance meta) (lsn_bytes_to_hex window_start)
           else throw (SourceError "sqlserver CDC poll failed")
       | inr rows => of_res (raw_changes (captured_columns meta) rows)
       end) r.

(** *** From changes to events *)

Definition build_sqlserver_event (meta : CaptureInstanceMeta) (lsn seqval : string) (ts : Z)
    (op : Event.Operation) (before after : option json) : Event :=
  {| Event.before := before; Event.after := after; Event.op := op;
     Event.source := {| Event.source_name := "sqlserver"; Event.offset := lsn; Event.timestamp := ts |};
     Event.ts := ts; Event.schema := Some (meta_schema meta); Event.table := meta_table meta;
     Event.primary_key := match meta_primary_key meta with [] => None | l => Some l end;
     Event.snapshot := None;
     Event.transaction := Some {| Event.tx_id := sip seqval; Event.total_events := Some 1;
                                  Event.event_index := 0 |};
     Event.envelope_version := Event.EVENT_ENVELOPE_VERSION; Event.before_is_key_only := false;
     Event.unavailable_columns := []; Event.before_unavailable_columns := [] |}.

(** One change: the events it makes, and the before-images waiting after it. *)
Definition map_change (cfg : SqlServerSourceConfig) (meta : CaptureInstanceMeta)
    (c : SqlServerRawChange) (p : gmap (string * string) (json * Z))
    : Res (list Event * gmap (string * string) (json * Z)) :=
  let keep e := if selected cfg (meta_schema meta) (meta_table meta) then [e] else [] in
  let event ts op b a :=
    build_sqlserver_event meta (start_lsn_hex c) (change_seqval_hex c) ts op b a in
  let k := (start_lsn_hex c, change_seqval_hex c) in
  match change_operation c with
  | 1 => Ok (keep (event (ts_ms c) Event.Delete (Some (row c)) None), p)
  | 2 => Ok (keep (event (ts_ms c) Event.Insert None (Some (row c))), p)
  | 3 => Ok ([], <[k := (row c, ts_ms c)]> p)
  | 4 =>
      let '(before, ts) :=
        match p !! k with Some (b, ts) => (Some b, ts) | None => (None, ts_ms c) end in
      Ok (keep (event ts Event.Update before (Some (row c))), delete k p)
  | _ => Err (SourceError "unsupported sqlserver CDC __$operation value")
  end.

(** [map_changes_to_events] on one change, its events put in the buffer. *)
Definition buffer_change (meta : CaptureInstanceMeta) (c : SqlServerRawChange) : M R unit := fun r =>
  match map_change (config r) meta c (pending_update_befores r) with
  | Ok (es, p) => (Ok tt, with_buffer (window_buffer r ++ es) (with_befores p r))
  | Err e => (Err e, r)
  | Panic => (Panic, r)
  end.

(** *** Schema changes *)

Definition table_schema_from_meta (meta : CaptureInstanceMeta) : SchemaHistory.TableSchema :=
  {| SchemaHistory.schema_name := meta_schema meta; SchemaHistory.table_name := meta_table meta;
     SchemaHistory.columns := map (fun name =>
       let pk := bool_decide (name ∈ meta_primary_key meta) in
       {| SchemaHistory.column_name := name; SchemaHistory.data_type := "sqlserver_captured";
          SchemaHistory.nullable := negb pk;
          SchemaHistory.constraints := if pk then ["primary_key"] else [] |}) (captured_columns meta);
     SchemaHistory.primary_keys := meta_primary_key meta; SchemaHistory.schema_version := 0 |}.

Definition build_schema_event_for_meta (now : Z) (ty : string) (meta : CaptureInstanceMeta)
    (text : string) (r : R) : Event :=
  SchemaHistory.to_event
    {| SchemaHistory.ddl_type := ty; SchemaHistory.ddl_schema := meta_schema meta;
       SchemaHistory.ddl_table := meta_table meta; SchemaHistory.statement := text;
       SchemaHistory.result_schema :=
         if String.eqb ty "DROP_TABLE" then None else Some (table_schema_from_meta meta);
       SchemaHistory.schema_diff := None; SchemaHistory.ddl_ts := now |}
    "sqlserver" (lsn_bytes_to_hex (lsn_end (stream r))) now.

Definition find_meta (instance : string) (ms : list CaptureInstanceMeta) : option CaptureInstanceMeta :=
  List.find (fun m => String.eqb (capture_instance m) instance) ms.

Definition describe (verb : string) (m : CaptureInstanceMeta) (what : string) : string :=
  verb +:+ " TABLE " +:+ meta_schema m +:+ "." +:+ meta_table m +:+ " /* capture instance '"
  +:+ capture_instance m +:+ "' " +:+ what +:+ " */".

Definition same_shape (a b : CaptureInstanceMeta) : bool :=
  String.eqb (meta_schema a) (meta_schema b) && String.eqb (meta_table a) (meta_table b)
  && bool_decide (meta_primary_key a = meta_primary_key b)
  && bool_decide (captured_columns a = captured_columns b).

Definition compute_schema_events_for_meta_refresh (now : Z) (refreshed : list CaptureInstanceMeta)
    (r : R) : list Event :=
  let current := iteration (metas r) in
  let next := iteration refreshed in
  (flat_map (fun old =>
     match find_meta (capture_instance old) next with
     | None => [build_schema_event_for_meta now "DROP_TABLE" old (describe "DROP" old "removed") r]
     | Some _ => []
     end) current
   ++ flat_map (fun new =>
     match find_meta (capture_instance new) current with
     | None => [build_schema_event_for_meta now "CREATE_TABLE" new (describe "CREATE" new "discovered") r]
     | Some old =>
         if same_shape old new then []
         else [build_schema_event_for_meta now "ALTER_TABLE" new (describe "ALTER" new "metadata updated") r]
     end) next)%list.

Definition with_floor (f : LSN) (m : CaptureInstanceMeta) : CaptureInstanceMeta :=
  {| capture_instance := capture_instance m; meta_schema := meta_schema m; meta_table := meta_table m;
     meta_primary_key := meta_primary_key m; captured_columns := captured_columns m;
     capture_floor := f |}.

Definition retain_known_capture_floors (known refreshed : list CaptureInstanceMeta)
    : list CaptureInstanceMeta :=
  map (fun m => match find_meta (capture_instance m) known with
                | Some k => with_floor (capture_floor k) m
                | None => m
                end) refreshed.

Definition refresh_metas_and_collect_schema_events (now : Z) : M R (list Event) :=
  cfg ← gets config;
  loaded ← on_db (load_capture_metas_for_config cfg false false);
  r ← gets id;
  let refreshed := retain_known_capture_floors (metas r) loaded in
  let events := compute_schema_events_for_meta_refresh now refreshed r in
  modify (fun r => with_counts refreshed (events_polled r) (requeued_events r) r);;
  mret events.

(** *** Truncates *)

Definition build_truncate_event (lsn : string) (ts : Z) (schema table : string) : Event :=
  {| Event.before := None; Event.after := None; Event.op := Event.Truncate;
     Event.source := {| Event.source_name := "sqlserver"; Event.offset := lsn; Event.timestamp := ts |};
     Event.ts := ts; Event.schema := Some schema; Event.table := table; Event.primary_key := None;
     Event.snapshot := None; Event.transaction := None;
     Event.envelope_version := Event.EVENT_ENVELOPE_VERSION; Event.before_is_key_only := false;
     Event.unavailable_columns := []; Event.before_unavailable_columns := [] |}.

Definition check_cdc_schema (name : string) : Res unit :=
  if all_chars name_char name then Ok tt
  else Err (ConfigError "sqlserver cdc_schema contains characters that are not safe for SQL identifiers").

Definition fetch_and_emit_truncate_events (now : Z) : M R (list Event) := fun r =>
  if negb (capture_truncate_events (config r)) then (Ok [], r)
  else
    let schema := cdc_schema (config r) in
    let end_hex := lsn_bytes_to_hex (lsn_end (stream r)) in
    (on_db connect_client;;
     of_res (check_cdc_schema schema);;
     rows ← on_db (query_truncates schema end_hex);
     match rows with
     | [] => mret []
     | _ =>
         let events := flat_map (fun t =>
           if selected (config r) (trunc_schema t) (trunc_table t) then
             [build_truncate_event (from_option lsn_bytes_to_hex end_hex (max_lsn_bytes t))
                (if 0 <? trunc_ts t then trunc_ts t else now) (trunc_schema t) (trunc_table t)]
           else []) rows in
         on_db (mark_truncates schema (map trunc_id rows));;
         on_db (catch (cleanup_truncates schema) (fun _ => mret tt));;
         mret events
     end) r.

(** *** Polling *)

Definition position (c : SqlServerRawChange) : SqlServerCdcCursor :=
  {| lsn_hex := start_lsn_hex c; seqval_hex := change_seqval_hex c; operation := change_operation c |}.

(** The order of the merge: a position that does not parse compares as equal. *)
Definition change_ordering (a b : SqlServerRawChange) : comparison :=
  then_with
    (then_with
       (match lsn_hex_to_bytes_opt (start_lsn_hex a), lsn_hex_to_bytes_opt (start_lsn_hex b) with
        | Some la, Some lb => compare_lsn la lb
        | _, _ => Eq
        end)
       (String.compare (change_seqval_hex a) (change_seqval_hex b)))
    (Z.compare (change_operation a) (change_operation b)).

(** A stable sort. *)
Fixpoint insert_by {A} (cmp : A -> A -> comparison) (x : A) (l : list A) : list A :=
  match l with
  | [] => [x]
  | y :: l' => if is_le (cmp x y) then x :: l else y :: insert_by cmp x l'
  end.
Definition sort_by {A} (cmp : A -> A -> comparison) (l : list A) : list A :=
  foldr (insert_by cmp) [] l.

(** The first unread position so far. *)
Definition min_cursor (existing : option SqlServerCdcCursor) (candidate : SqlServerCdcCursor)
    : option SqlServerCdcCursor :=
  match existing with
  | Some e => if is_le (cursor_ordering e candidate) then Some e else Some candidate
  | None => Some candidate
  end.

(** Read every capture instance: the changes with their metadata, and the least last
    position of those that returned a full page. *)
Fixpoint read_instances (ms : list CaptureInstanceMeta) (cut : option SqlServerCdcCursor)
    : M R (list (CaptureInstanceMeta * SqlServerRawChange) * option SqlServerCdcCursor) :=
  match ms with
  | [] => mret ([], cut)
  | meta :: ms' =>
      top ← gets max_events_per_poll;
      changes ← fetch_changes_for_capture_instance meta top;
      let cut' :=
        if (top <=? length changes)%nat then
          match last changes with Some c => min_cursor cut (position c) | None => cut end
        else cut in
      rest ← read_instances ms' cut';
      mret ((map (pair meta) changes ++ fst rest)%list, snd rest)
  end.

(** The next page of the buffer, the window settled when it is the last. *)
Definition drain_page : M R (list Event) :=
  r ← gets id;
  let count := Nat.min (max_events_per_poll r) (length (window_buffer r)) in
  modify (with_buffer (drop count (window_buffer r)));;
  (match drop count (window_buffer r) with
   | [] => settle_drained_window
   | _ => mret tt
   end);;
  mret (take count (window_buffer r)).

Definition fill_window (now : Z) (flat : list (CaptureInstanceMeta * SqlServerRawChange))
    (cut : option SqlServerCdcCursor) : M R (list Event) :=
  let sorted := sort_by (fun x y => change_ordering (snd x) (snd y)) flat in
  let kept :=
    match cut with
    | Some c => List.filter (fun x => is_le (cursor_ordering (position (snd x)) c)) sorted
    | None => sorted
    end in
  for_each kept (fun x => buffer_change (fst x) (snd x));;
  truncates ← fetch_and_emit_truncate_events now;
  (match truncates with
   | [] => mret tt
   | _ => modify (fun r => with_buffer
            (sort_by (fun a b => String.compare (Event.offset (Event.source a)) (Event.offset (Event.source b)))
               (window_buffer r ++ truncates)%list) r)
   end);;
  modify (fun r => with_counts (metas r) (saturating_add (events_polled r) (Z.of_nat (length (window_buffer r))))
                     (requeued_events r) (with_window (cursors (stream_cursor (stream r)) cut (stream r)) r));;
  drain_page.

(** The loop that fills the window; [late] tells for each turn whether the deadline has
    passed at its end. *)
Fixpoint poll_windows (now : Z) (late : list bool) : M R (list Event) :=
  ms ← gets metas;
  read ← read_instances ms None;
  match fst read with
  | _ :: _ => fill_window now (fst read) (snd read)
  | [] =>
      truncates ← fetch_and_emit_truncate_events now;
      match truncates with
      | _ :: _ =>
          modify (fun r => with_counts (metas r)
            (saturating_add (events_polled r) (Z.of_nat (length truncates))) (requeued_events r) r);;
          advance_window;;
          mret truncates
      | [] =>
          advance_window;;
          match late with
          | false :: late' => poll_windows now late'
          | _ => mret []
          end
      end
  end.

Definition next_events (now : Z) (late : list bool) : M R (list Event) := fun r =>
  match requeued_events r with
  | _ :: _ => (Ok (requeued_events r), with_counts (metas r) (events_polled r) [] r)
  | [] =>
      (schema_events ← refresh_metas_and_collect_schema_events now;
       match schema_events with
       | _ :: _ =>
           modify (fun r => with_counts (metas r)
             (saturating_add (events_polled r) (Z.of_nat (length schema_events))) (requeued_events r) r);;
           mret (take (max_events_per_poll r) schema_events)
       | [] =>
           buffer ← gets window_buffer;
           match buffer with
           | _ :: _ => drain_page
           | [] => poll_windows now late
           end
       end) r
  end.

(** The text of the position [save_position] saves. *)
Definition saved_position (r : R) : string :=
  match stream_cursor (stream r) with
  | Some c => encode_cursor c
  | None => lsn_bytes_to_hex (lsn_start (stream r))
  end.

Definition requeue_events (events : list Event) (r : R) : R :=
  with_counts (metas r) (events_polled r) (events ++ requeued_events r) r.

Definition save_position {C} `{Checkpoint C} (c : C) (r : R) : Res unit * C :=
  save (generic_dyn {| Offsets.source := "sqlserver"; bytes := print_json (JStr (saved_position r)) |})
    (events_polled r) c.

End Handle.

(** ** The connection *)

Record ConnectionState := {
  connected : bool;
  heartbeat_task : bool;
  snapshot_lsn_start : option LSN;
  stream_lsn_start : option LSN;
}.

Definition closed_state : ConnectionState :=
  {| connected := false; heartbeat_task := false; snapshot_lsn_start := None; stream_lsn_start := None |}.

Record SqlServerPrereqSnapshot := {
  pre_cdc_enabled : bool;
  has_cdc_admin_role : bool;
  major_version : Z;
}.

Definition validate_prereq_snapshot (cdc_required : bool) (s : SqlServerPrereqSnapshot) : Res unit :=
  if cdc_required && negb (pre_cdc_enabled s) then
    Err (SourceError "sqlserver CDC is disabled on target database")
  else if negb (has_cdc_admin_role s) then
    Err (SourceError "sqlserver user is missing CDC admin role")
  else if major_version s <? 13 then Err (SourceError "sqlserver version is not supported")
  else Ok tt.

Record Connection (D : Type) := {
  conn_config : SqlServerSourceConfig;
  conn_state : ConnectionState;
  conn_poll_interval_ms : Z;
  conn_max_events : nat;
  conn_db : D;
}.
Arguments conn_config {D}. Arguments conn_state {D}. Arguments conn_poll_interval_ms {D}.
Arguments conn_max_events {D}. Arguments conn_db {D}.

Section Connections.
Context `{JsonCodec} `{RawJson} {D : Type} `{CdcServer D}.

Abbreviation C := (Connection D).

Definition with_state (st : ConnectionState) (c : C) : C :=
  {| conn_config := conn_config c; conn_state := st; conn_poll_interval_ms := conn_poll_interval_ms c;
     conn_max_events := conn_max_events c; conn_db := conn_db c |}.

Definition with_conn_db (d : D) (c : C) : C :=
  {| conn_config := conn_config c; conn_state := conn_state c;
     conn_poll_interval_ms := conn_poll_interval_ms c; conn_max_events := conn_max_events c;
     conn_db := d |}.

Definition on_server {A} (m : M D A) : M C A := fun c =>
  let '(res, d) := m (conn_db c) in (res, with_conn_db d c).

(** [connect] with the [tls] feature: the configuration's own check and the probe are given. *)
Definition connect_sqlserver_with_probe (valid : Res unit) (cdc_required : bool)
    (probe : M D SqlServerPrereqSnapshot) : M C unit :=
  of_res valid;;
  st ← gets conn_state;
  if connected st then throw (StateError "sqlserver connection already established")
  else
    snapshot ← on_server probe;
    of_res (validate_prereq_snapshot cdc_required snapshot);;
    modify (fun c => with_state
      {| connected := true; heartbeat_task := true;
         snapshot_lsn_start := snapshot_lsn_start (conn_state c);
         stream_lsn_start := stream_lsn_start (conn_state c) |} c).

Definition close (c : C) : C := with_state closed_state c.

Definition ensure_connected : M C unit :=
  st ← gets conn_state;
  if connected st then mret tt
  else throw (StateError "sqlserver connection must be established before starting stream").

Fixpoint least_min_lsn (ms : list CaptureInstanceMeta) (acc : option LSN) : M C (option LSN) :=
  match ms with
  | [] => mret acc
  | m :: ms' =>
      hex ← on_server (query_min_lsn_hex (capture_instance m));
      v ← of_res (lsn_hex_to_bytes hex);
      least_min_lsn ms'
        (match acc with
         | Some cur => if is_lt (compare_lsn v cur) then Some v else Some cur
         | None => Some v
         end)
  end.

(** Where a stream starts: the position and, inside a window, the cursor. *)
Definition resume_point (min : LSN) (resume_from : option DynOffset)
    : Res (LSN * option SqlServerCdcCursor) :=
  match resume_from with
  | None => Ok (min, None)
  | Some o =>
      if negb (String.eqb (source_type o) "sqlserver") then
        Err (CheckpointError "cannot resume sqlserver stream from another source type")
      else
        encoded <-? encode o;
        text <-? sqlserver_cursor_from_offset_bytes encoded;
        resume <-? sqlserver_resume_lsn_from_offset_bytes encoded;
        if is_lt (compare_lsn resume min) then
          Err (CheckpointError "sqlserver checkpoint LSN is older than CDC minimum; CDC cleanup removed required rows")
        else Ok (resume, decode_cursor text)
  end.

Definition set_stream_start (l : LSN) (st : ConnectionState) : ConnectionState :=
  {| connected := connected st; heartbeat_task := heartbeat_task st;
     snapshot_lsn_start := snapshot_lsn_start st; stream_lsn_start := Some l |}.

Definition start_sqlserver_stream (resume_from : option DynOffset) : M C (Reader D) :=
  ensure_connected;;
  cfg ← gets conn_config;
  ms ← on_server (load_capture_metas_for_config cfg true true);
  found ← least_min_lsn ms None;
  min ← of_res (need "sqlserver could not determine CDC minimum LSN" found);
  max_hex ← on_server query_max_lsn_hex;
  max ← of_res (lsn_hex_to_bytes max_hex);
  start ← of_res (resume_point min resume_from);
  (if capture_truncate_events cfg then
     on_server connect_client;;
     of_res (check_cdc_schema (cdc_schema cfg));;
     on_server (setup_truncates (cdc_schema cfg))
   else mret tt);;
  modify (fun c => with_state (set_stream_start (fst start) (conn_state c)) c);;
  c ← gets id;
  mret {| config := cfg;
          stream := {| lsn_start := fst start;
                       lsn_end := if is_lt (compare_lsn max (fst start)) then fst start else max;
                       change_tables := map capture_instance ms;
                       poll_interval_ms := conn_poll_interval_ms c;
                       stream_cursor := snd start; pending_cursor := None |};
          metas := ms; events_polled := 0; requeued_events := [];
          max_events_per_poll := conn_max_events c; pending_update_befores := ∅;
          window_buffer := []; db := conn_db c |}.

End Connections.

(** ** The handoff from a snapshot *)

Record SqlServerHandoff := {
  ho_snapshot_lsn_start : LSN;
  ho_stream_lsn_start : LSN;
}.

Definition has_no_gap (h : SqlServerHandoff) : bool :=
  is_le (compare_lsn (ho_stream_lsn_start h) (ho_snapshot_lsn_start h)).

Section Handoff.
Context `{JsonCodec} `{RawJson} {D : Type} `{CdcServer D} {SH : Type}.
Variables (sip : string -> Z) (iteration : list CaptureInstanceMeta -> list CaptureInstanceMeta).
(** The snapshot handle's [finish]: its end timestamp. *)
Variable finish : M SH Z.

Fixpoint fingerprint_columns (acc : string) (row : object) (columns : list string) : option string :=
  match columns with
  | [] => Some acc
  | c :: columns' =>
      v ← obj_get c row;
      fingerprint_columns
        (acc +:+ "|" +:+ c +:+ "=" +:+ string_of_list_byte (print_json v)) row columns'
  end.

Definition sqlserver_event_pk_fingerprint (e : Event) : option string :=
  columns ← Event.primary_key e;
  match columns with
  | [] => None
  | _ =>
      image ← (match Event.after e with Some v => Some v | None => Event.before e end);
      row ← as_object image;
      fingerprint_columns (Event.table e) row columns
  end.

(** The loop: the events kept, the index of each key's event and the number replaced. *)
Fixpoint dedup_loop (events deduped : list Event) (last_index : gmap string nat) (duplicates : Z)
    : list Event * Z :=
  match events with
  | [] => (deduped, duplicates)
  | e :: events' =>
      match sqlserver_event_pk_fingerprint e with
      | Some pk =>
          match last_index !! pk with
          | Some i => dedup_loop events' (<[i := e]> deduped) last_index (saturating_add duplicates 1)
          | None => dedup_loop events' (deduped ++ [e]) (<[pk := length deduped]> last_index) duplicates
          end
      | None => dedup_loop events' (deduped ++ [e]) last_index duplicates
      end
  end.

Definition dedup_overlap_events_by_pk (events : list Event) : list Event * Z :=
  dedup_loop events [] ∅ 0.

Record HandoffResult := {
  snapshot_end_ts : option Z;
  stream_start_ts : option Z;
  overlap_events_dropped : option Z;
  stream_watermark_gap : option Z;
}.

Record HandoffState := {
  hs_connection : ConnectionState;
  hs_snapshot : SH;
  hs_stream : Reader D;
}.

Definition on_snapshot {A} (m : M SH A) : M HandoffState A := fun h =>
  let '(res, s) := m (hs_snapshot h) in
  (res, {| hs_connection := hs_connection h; hs_snapshot := s; hs_stream := hs_stream h |}).

Definition on_stream {A} (m : M (Reader D) A) : M HandoffState A := fun h =>
  let '(res, r) := m (hs_stream h) in
  (res, {| hs_connection := hs_connection h; hs_snapshot := hs_snapshot h; hs_stream := r |}).

(** Whether an event lies at or before the snapshot. *)
Definition overlaps (snapshot_lsn : LSN) (e : Event) : bool :=
  match lsn_from_source_offset (Event.offset (Event.source e)) with
  | Some l => is_le (compare_lsn l snapshot_lsn)
  | None => false
  end.

(** The scan for the first batch past the snapshot: how many events it dropped.
    An empty [requeue_events] does nothing, so the one after the loop is left out. *)
Fixpoint skip_overlap (fuel : nat) (now : Z) (late : nat -> list bool) (snapshot_lsn : LSN) (dropped : Z)
    : M HandoffState Z :=
  match fuel with
  | O => mret dropped
  | S fuel' =>
      batch ← on_stream (next_events sip iteration now (late fuel'));
      match batch with
      | [] => mret dropped
      | _ =>
          let forward := List.filter (fun e => negb (overlaps snapshot_lsn e)) batch in
          let dropped := saturating_add dropped (Z.of_nat (length batch - length forward)) in
          match forward with
          | [] => skip_overlap fuel' now late snapshot_lsn dropped
          | _ =>
              let '(deduped, duplicates) := dedup_overlap_events_by_pk forward in
              on_stream (modify (requeue_events deduped));;
              mret (saturating_add dropped duplicates)
          end
      end
  end.

Definition handoff_points (st : ConnectionState) : Res SqlServerHandoff :=
  match snapshot_lsn_start st, stream_lsn_start st with
  | None, _ => Err (StateError "sqlserver perform_handoff requires start_snapshot to have been called first")
  | _, None => Err (StateError "sqlserver perform_handoff requires start_stream to have been called first")
  | Some a, Some b =>
      Ok {| ho_snapshot_lsn_start := if a =? 0 then b else a; ho_stream_lsn_start := b |}
  end.

Definition watermark_gap (stream_start : LSN) (max_hex : option string) : option Z :=
  hex ← max_hex;
  l ← lsn_hex_to_bytes_opt hex;
  Some (Z.max 0 (lsn_bytes_to_u64_distance l - lsn_bytes_to_u64_distance stream_start)).

Definition perform_handoff (now : Z) (late : nat -> list bool) : M HandoffState HandoffResult :=
  st ← gets hs_connection;
  points ← of_res (handoff_points st);
  if negb (has_no_gap points) then throw (StateError "sqlserver handoff detected a gap")
  else
    snapshot_end ← on_snapshot finish;
    dropped ← skip_overlap 256 now late (ho_snapshot_lsn_start points) 0;
    max_hex ← on_stream (on_db (catch (v ← query_max_lsn_hex; mret (Some v)) (fun _ => mret None)));
    mret {| snapshot_end_ts := Some snapshot_end; stream_start_ts := Some now;
            overlap_events_dropped := Some dropped;
            stream_watermark_gap := watermark_gap (ho_stream_lsn_start points) max_hex |}.

End Handoff.

End SqlServer.
