(* ===== verification/SqlServerWindow.v ===== *)
(** * SqlServerWindow: what the SQL Server stream delivers

    Theorems on the stream of [SqlServer]: the text of a position keeps the order of LSNs,
    and a session of polls delivers the merged change log, each change once and in order of
    position, whatever the page size, the number of capture instances and the windows the
    server's harvested maximum cuts the log into. *)

From Stdlib Require Import Sorted.
From S2P Require Import Prelude Errors CheckpointApi Strs Json Offsets Event Monad SqlServer.

Module SqlServerWindow.
Import SqlServer.

Local Open Scope string_scope.
Local Open Scope Z_scope.

(** ** The text of a position *)

Definition comparison_eqb (a b : comparison) : bool :=
  match a, b with Eq, Eq | Lt, Lt | Gt, Gt => true | _, _ => false end.

Lemma hex_digits_checked :
  forallb (fun a =>
    bool_decide (hex_value (hex_digit a) = Some a) && negb (Ascii.eqb (hex_digit a) "+")
    && negb (Ascii.eqb (hex_digit a) ":")
    && forallb (fun b => comparison_eqb (Ascii.compare (hex_digit a) (hex_digit b)) (a ?= b)) (seqZ 0 16))
    (seqZ 0 16) = true.
Proof. vm_compute. reflexivity. Qed.

Lemma below_16 a : 0 <= a < 16 -> In a (seqZ 0 16).
Proof. intros H. apply list_elem_of_In, elem_of_seqZ. lia. Qed.

Lemma hex_digit_value n : 0 <= n < 16 ->
  hex_value (hex_digit n) = Some n /\ Ascii.eqb (hex_digit n) "+" = false
  /\ Ascii.eqb (hex_digit n) ":" = false.
Proof.
  intros H%below_16. pose proof (proj1 (forallb_forall _ _) hex_digits_checked n H) as Hn.
  apply andb_true_iff in Hn as [Hn _]. apply andb_true_iff in Hn as [Hn Hc%negb_true_iff].
  apply andb_true_iff in Hn as [Hn%bool_decide_eq_true Hp%negb_true_iff]. done.
Qed.

Lemma hex_digit_compare a b : 0 <= a < 16 -> 0 <= b < 16 ->
  Ascii.compare (hex_digit a) (hex_digit b) = (a ?= b).
Proof.
  intros Ha%below_16 Hb%below_16. pose proof (proj1 (forallb_forall _ _) hex_digits_checked a Ha) as H.
  apply andb_true_iff in H as [_ H]. pose proof (proj1 (forallb_forall _ _) H b Hb) as Hc. simpl in Hc.
  unfold comparison_eqb in Hc. by destruct (Ascii.compare _ _), (a ?= b).
Qed.

Lemma pow256_S w : 256 ^ Z.of_nat (S w) = 256 * 256 ^ Z.of_nat w.
Proof. rewrite Nat2Z.inj_succ, Z.pow_succ_r; lia. Qed.

Lemma pow256_pos w : 0 < 256 ^ Z.of_nat w.
Proof. apply Z.pow_pos_nonneg; lia. Qed.

Lemma high_byte w n : 0 <= n < 256 ^ Z.of_nat (S w) ->
  0 <= n / 256 ^ Z.of_nat w < 256 /\ 0 <= n mod 256 ^ Z.of_nat w < 256 ^ Z.of_nat w.
Proof.
  rewrite pow256_S. intros H. pose proof (pow256_pos w). split.
  - split; [apply Z.div_pos; lia|apply Z.div_lt_upper_bound; lia].
  - apply Z.mod_pos_bound. lia.
Qed.

Lemma hex_pairs_be w : forall n acc, 0 <= n < 256 ^ Z.of_nat w ->
  hex_pairs acc (hex_be w n) = Some (acc * 256 ^ Z.of_nat w + n).
Proof.
  induction w as [|w IH]; intros n acc Hn; simpl hex_be; [simpl; f_equal; lia|].
  destruct (high_byte w n Hn) as [Hb Hr]. cbn [hex_pairs]. unfold hex_byte.
  destruct (hex_digit_value (n / 256 ^ Z.of_nat w / 16)) as (-> & -> & _);
    [split; [apply Z.div_pos; lia|apply Z.div_lt_upper_bound; lia]|].
  destruct (hex_digit_value (n / 256 ^ Z.of_nat w mod 16)) as (-> & _ & _);
    [apply Z.mod_pos_bound; lia|].
  cbn [mbind option_bind]. rewrite IH by done. f_equal. rewrite pow256_S.
  pose proof (Z.div_mod n (256 ^ Z.of_nat w)). pose proof (pow256_pos w).
  pose proof (Z.div_mod (n / 256 ^ Z.of_nat w) 16). nia.
Qed.

Lemma hex_be_length w : forall n, String.length (hex_be w n) = (2 * w)%nat.
Proof. induction w as [|w IH]; intros n; simpl; [done|]. rewrite IH. lia. Qed.

Lemma hex_be_compare w : forall a b, 0 <= a < 256 ^ Z.of_nat w -> 0 <= b < 256 ^ Z.of_nat w ->
  String.compare (hex_be w a) (hex_be w b) = (a ?= b).
Proof.
  induction w as [|w IH]; intros a b Ha Hb.
  - simpl in *. symmetry. apply Z.compare_eq_iff. lia.
  - destruct (high_byte w a Ha) as [Ha1 Ha2], (high_byte w b Hb) as [Hb1 Hb2].
    cbn [hex_be String.compare].
    assert (D : forall x, 0 <= x < 256 -> 0 <= x / 16 < 16 /\ 0 <= x mod 16 < 16)
      by (intros x Hx; split; [split; [apply Z.div_pos|apply Z.div_lt_upper_bound]|apply Z.mod_pos_bound]; lia).
    rewrite !hex_digit_compare by (apply D; done). rewrite IH by done.
    set (x := a / 256 ^ Z.of_nat w) in *. set (y := b / 256 ^ Z.of_nat w) in *.
    pose proof (Z.div_mod a (256 ^ Z.of_nat w)) as Ea. pose proof (Z.div_mod b (256 ^ Z.of_nat w)) as Eb.
    pose proof (pow256_pos w) as Hp. fold x in Ea. fold y in Eb.
    pose proof (Z.div_mod x 16 ltac:(lia)). pose proof (Z.div_mod y 16 ltac:(lia)).
    pose proof (D x Ha1). pose proof (D y Hb1).
    destruct (Z.compare_spec (x / 16) (y / 16)); [|symmetry; apply Z.compare_lt_iff; nia|symmetry; apply Z.compare_gt_iff; nia].
    destruct (Z.compare_spec (x mod 16) (y mod 16)); [|symmetry; apply Z.compare_lt_iff; nia|symmetry; apply Z.compare_gt_iff; nia].
    assert (x = y) by lia.
    destruct (Z.compare_spec (a mod 256 ^ Z.of_nat w) (b mod 256 ^ Z.of_nat w));
      symmetry; [apply Z.compare_eq_iff|apply Z.compare_lt_iff|apply Z.compare_gt_iff]; nia.
Qed.

Definition lsn_range (n : Z) : Prop := 0 <= n < lsn_modulus.

Lemma lsn_range_pow n : lsn_range n <-> 0 <= n < 256 ^ Z.of_nat 10.
Proof. done. Qed.

Lemma lsn_roundtrip n : lsn_range n -> lsn_hex_to_bytes (lsn_bytes_to_hex n) = Ok n.
Proof.
  intros Hn. unfold lsn_hex_to_bytes, lsn_bytes_to_hex. rewrite strip_prefix_app, hex_be_length.
  change (negb (2 * 10 =? 20)%nat) with false. cbn iota.
  rewrite hex_pairs_be by (by apply lsn_range_pow). done.
Qed.

Lemma lsn_roundtrip_opt n : lsn_range n -> lsn_hex_to_bytes_opt (lsn_bytes_to_hex n) = Some n.
Proof. intros Hn. unfold lsn_hex_to_bytes_opt. by rewrite lsn_roundtrip. Qed.

Lemma lsn_text_order a b : lsn_range a -> lsn_range b ->
  String.compare (lsn_bytes_to_hex a) (lsn_bytes_to_hex b) = (a ?= b).
Proof. intros Ha Hb. transitivity (String.compare (hex_be 10 a) (hex_be 10 b)); [done|by apply hex_be_compare]. Qed.

Lemma hex_be_no_colon w : forall n, 0 <= n < 256 ^ Z.of_nat w -> contains_char ":" (hex_be w n) = false.
Proof.
  induction w as [|w IH]; intros n Hn; [done|]. destruct (high_byte w n Hn) as [Hb Hr].
  cbn [hex_be contains_char].
  destruct (hex_digit_value (n / 256 ^ Z.of_nat w / 16)) as (_ & _ & ->);
    [split; [apply Z.div_pos; lia|apply Z.div_lt_upper_bound; lia]|].
  destruct (hex_digit_value (n / 256 ^ Z.of_nat w mod 16)) as (_ & _ & ->);
    [apply Z.mod_pos_bound; lia|]. simpl. by apply IH.
Qed.

Lemma lsn_text_no_colon n : lsn_range n -> contains_char ":" (lsn_bytes_to_hex n) = false.
Proof. intros Hn. apply (hex_be_no_colon 10). by apply lsn_range_pow. Qed.

(** ** Sorting by a rank *)

Section Ranked.
Context {A : Type} (rk : A -> Z).

Abbreviation by_rank := (fun x y : A => rk x ?= rk y).
Definition ranked (l : list A) : Prop := StronglySorted (fun x y => rk x <= rk y) l.

Lemma is_le_compare a b : is_le (a ?= b) = (a <=? b).
Proof. unfold is_le, Z.leb. by destruct (a ?= b). Qed.

Lemma insert_by_in x l y : y ∈ insert_by by_rank x l <-> y = x \/ y ∈ l.
Proof.
  induction l as [|z l IH]; simpl; [rewrite list_elem_of_singleton, elem_of_nil; tauto|].
  destruct (is_le _); rewrite !elem_of_cons, ?IH; tauto.
Qed.

Lemma insert_by_ranked x l : ranked l -> ranked (insert_by by_rank x l).
Proof.
  induction 1 as [|y l Hl IH Hy]; simpl; [repeat constructor|].
  rewrite is_le_compare. rewrite Forall_forall in Hy. destruct (Z.leb_spec (rk x) (rk y)).
  - constructor; [by constructor; [|rewrite Forall_forall]|]. constructor; [done|].
    rewrite Forall_forall. intros z Hz%Hy. lia.
  - constructor; [done|]. rewrite Forall_forall. intros z [->|Hz%Hy]%insert_by_in; lia.
Qed.

Lemma sort_by_ranked l : ranked (sort_by by_rank l).
Proof. induction l; simpl; [constructor|by apply insert_by_ranked]. Qed.

Lemma sort_by_in l x : x ∈ sort_by by_rank l <-> x ∈ l.
Proof.
  induction l as [|y l IH]; simpl; [done|]. change (foldr _ _ _) with (sort_by by_rank l).
  by rewrite insert_by_in, IH, elem_of_cons.
Qed.

Lemma insert_by_first x l : Forall (fun y => rk x <= rk y) l -> insert_by by_rank x l = x :: l.
Proof.
  intros H. destruct H as [|y l Hy]; simpl; [done|]. rewrite is_le_compare.
  by rewrite (proj2 (Z.leb_le _ _) Hy).
Qed.

Lemma filter_insert_by p x l : ranked l ->
  List.filter p (insert_by by_rank x l)
  = if p x then insert_by by_rank x (List.filter p l) else List.filter p l.
Proof.
  induction 1 as [|y l Hl IH Hy]; simpl; [by destruct (p x)|].
  rewrite is_le_compare. destruct (Z.leb_spec (rk x) (rk y)) as [Hx|Hx].
  - assert (Hall : Forall (fun z => rk x <= rk z) (if p y then y :: List.filter p l else List.filter p l)).
    { assert (Forall (fun z => rk x <= rk z) (List.filter p l))
        by (apply filter_forall; eapply Forall_impl; [exact Hy|simpl; lia]).
      destruct (p y); [by constructor|done]. }
    simpl. destruct (p x); [|done]. by rewrite insert_by_first.
  - simpl. rewrite IH. destruct (p y); [|done]. simpl. rewrite is_le_compare.
    destruct (p x); [|done]. by destruct (Z.leb_spec (rk x) (rk y)); [lia|].
Qed.

(** A stable sort keeps the order of what a filter leaves. *)
Lemma filter_sort_by p l : List.filter p (sort_by by_rank l) = sort_by by_rank (List.filter p l).
Proof.
  induction l as [|x l IH]; simpl; [done|].
  change (foldr (insert_by by_rank) [] ?u) with (sort_by by_rank u).
  rewrite filter_insert_by by apply sort_by_ranked. rewrite IH. by destruct (p x).
Qed.

Lemma ranked_split m l : ranked l ->
  l = (List.filter (fun x => Z.leb (rk x) m) l ++ List.filter (fun x => Z.ltb m (rk x)) l)%list.
Proof.
  induction 1 as [|y l Hl IH Hy]; simpl; [done|].
  destruct (Z.leb_spec (rk y) m), (Z.ltb_spec m (rk y)); try lia; [simpl; by rewrite <-IH|].
  rewrite filter_none, filter_all; [done|..]; eapply Forall_impl; try exact Hy; intros x Hx.
  - apply Z.ltb_lt. simpl in Hx. lia.
  - apply Z.leb_gt. simpl in Hx. lia.
Qed.

Lemma sort_by_ext (cmp : A -> A -> comparison) l :
  (forall x y, x ∈ l -> y ∈ l -> cmp x y = by_rank x y) -> sort_by cmp l = sort_by by_rank l.
Proof.
  induction l as [|x l IH]; intros H; simpl; [done|].
  change (foldr (insert_by ?c) [] ?u) with (sort_by c u). rewrite IH by (intros; apply H; rewrite elem_of_cons; by right).
  assert (Hin : forall y, y ∈ sort_by by_rank l -> cmp x y = by_rank x y)
    by (intros y Hy; rewrite sort_by_in in Hy; apply H; rewrite elem_of_cons; tauto).
  revert Hin. generalize (sort_by by_rank l) as u. clear IH H. intros u.
  induction u as [|y u IHu]; intros Hin; simpl; [done|].
  rewrite Hin by (rewrite elem_of_cons; by left). destruct (is_le _); [done|]. f_equal.
  apply IHu. intros z Hz. apply Hin. rewrite elem_of_cons. by right.
Qed.

(** The part of a list between two ranks, in order. *)
Definition slice (lo hi : Z) (l : list A) : list A :=
  sort_by by_rank (List.filter (fun x => Z.ltb lo (rk x) && Z.leb (rk x) hi) l).

Lemma filter_filter {B} (p q : B -> bool) l :
  List.filter p (List.filter q l) = List.filter (fun x => q x && p x) l.
Proof. induction l as [|x l IH]; simpl; [done|]. destruct (q x); simpl; by rewrite IH. Qed.

Lemma filter_slice p lo hi l :
  List.filter p (slice lo hi l)
  = sort_by by_rank (List.filter (fun x => (Z.ltb lo (rk x) && Z.leb (rk x) hi) && p x) l).
Proof. unfold slice. by rewrite filter_sort_by, filter_filter. Qed.

Lemma slice_split lo mid hi l : lo <= mid <= hi ->
  slice lo hi l = (slice lo mid l ++ slice mid hi l)%list.
Proof.
  intros H. rewrite (ranked_split mid (slice lo hi l)) by apply sort_by_ranked.
  rewrite !filter_slice. unfold slice. f_equal; f_equal; apply filter_ext; intros x; lia.
Qed.

Lemma slice_cut lo mid hi l : mid <= hi ->
  List.filter (fun x => Z.leb (rk x) mid) (slice lo hi l) = slice lo mid l.
Proof. intros H. rewrite filter_slice. unfold slice. f_equal. apply filter_ext. intros x. lia. Qed.

Lemma slice_empty lo l : slice lo lo l = [].
Proof. unfold slice. rewrite filter_none; [done|]. apply Forall_forall. intros x _. lia. Qed.

(** A page of a list in strict order: what it holds up to a cut that is not past its last
    element is all there is up to there. *)
Lemma page_below n c l : StronglySorted (fun x y => rk x < rk y) l ->
  (forall x, last (take n l) = Some x -> c <= rk x) -> (0 < n)%nat ->
  List.filter (fun x => Z.leb (rk x) c) (take n l) = List.filter (fun x => Z.leb (rk x) c) l.
Proof.
  intros Hs. revert n. induction Hs as [|y l Hl IH Hy]; intros n Hlast Hn; [by destruct n|].
  destruct n as [|n]; [lia|]. simpl. destruct n as [|n].
  - specialize (Hlast y eq_refl). simpl. rewrite (filter_none _ l); [done|].
    eapply Forall_impl; [exact Hy|]. simpl. intros x Hx. lia.
  - destruct l as [|z l]; [done|]. rewrite IH; [done| |lia].
    intros x Hx. apply Hlast. done.
Qed.

End Ranked.

(** ** Ranks of positions *)

(** The rank of a position: its LSN, then its sequence value, then its operation. *)
Definition rank_of (lsn_hex seqval_hex : string) (op : Z) : Z :=
  (default 0 (lsn_hex_to_bytes_opt lsn_hex) * lsn_modulus
   + default 0 (lsn_hex_to_bytes_opt seqval_hex)) * 8 + op.
Definition cursor_rank (c : SqlServerCdcCursor) : Z := rank_of (lsn_hex c) (seqval_hex c) (operation c).
Definition rank (c : SqlServerRawChange) : Z := cursor_rank (position c).
Definition cursor_lsn (c : SqlServerCdcCursor) : Z := default 0 (lsn_hex_to_bytes_opt (lsn_hex c)).
Definition change_lsn (c : SqlServerRawChange) : Z := cursor_lsn (position c).

(** The last rank below an LSN. *)
Definition before_lsn (l : LSN) : Z := l * (8 * lsn_modulus) - 1.

(** A position as the server writes it. *)
Definition wf_cursor (c : SqlServerCdcCursor) : Prop :=
  (exists l s, lsn_range l /\ lsn_range s /\ lsn_hex c = lsn_bytes_to_hex l
               /\ seqval_hex c = lsn_bytes_to_hex s) /\ 1 <= operation c <= 4.

Lemma wf_cursor_rank c : wf_cursor c ->
  exists l s, lsn_range l /\ lsn_range s /\ lsn_hex c = lsn_bytes_to_hex l
    /\ seqval_hex c = lsn_bytes_to_hex s /\ cursor_lsn c = l
    /\ cursor_rank c = (l * lsn_modulus + s) * 8 + operation c.
Proof.
  intros [(l & s & Hl & Hs & El & Es) _]. exists l, s. repeat split; try done; try apply Hl; try apply Hs.
  - unfold cursor_lsn. by rewrite El, lsn_roundtrip_opt.
  - unfold cursor_rank, rank_of. by rewrite El, Es, !lsn_roundtrip_opt.
Qed.

Lemma cursor_in_lsn c l : wf_cursor c -> l <= cursor_lsn c <-> before_lsn l < cursor_rank c.
Proof.
  intros Hc. destruct (wf_cursor_rank c Hc) as (m & s & Hm & Hs & _ & _ & -> & ->).
  destruct Hc as [_ Ho]. unfold before_lsn, lsn_range, lsn_modulus in *. nia.
Qed.

Lemma then_with_lex (n a b c d : Z) : 0 <= b < n -> 0 <= d < n ->
  then_with (a ?= c) (b ?= d) = (a * n + b ?= c * n + d).
Proof.
  intros Hb Hd. unfold then_with. symmetry.
  destruct (Z.compare_spec a c); [subst|apply Z.compare_lt_iff; nia|apply Z.compare_gt_iff; nia].
  destruct (Z.compare_spec b d);
    [apply Z.compare_eq_iff|apply Z.compare_lt_iff|apply Z.compare_gt_iff]; lia.
Qed.

(** The order the code compares positions in is the order of their ranks. *)
Lemma cursor_ordering_rank a b : wf_cursor a -> wf_cursor b ->
  cursor_ordering a b = (cursor_rank a ?= cursor_rank b).
Proof.
  intros Ha Hb. destruct (wf_cursor_rank a Ha) as (la & sa & Rla & Rsa & Ela & Esa & _ & ->).
  destruct (wf_cursor_rank b Hb) as (lb & sb & Rlb & Rsb & Elb & Esb & _ & ->).
  destruct Ha as [_ Ha], Hb as [_ Hb]. unfold cursor_ordering.
  rewrite Ela, Elb, Esa, Esb, !lsn_roundtrip_opt, lsn_text_order by done.
  unfold compare_lsn. rewrite (then_with_lex lsn_modulus), (then_with_lex 8) by (done || lia). done.
Qed.

Lemma change_ordering_rank a b : wf_cursor (position a) -> wf_cursor (position b) ->
  change_ordering a b = (rank a ?= rank b).
Proof.
  intros Ha Hb. unfold rank. rewrite <-cursor_ordering_rank by done.
  destruct Ha as [(la & sa & Rla & Rsa & Ela & Esa) _], Hb as [(lb & sb & Rlb & Rsb & Elb & Esb) _].
  unfold change_ordering, cursor_ordering. simpl in *. by rewrite Ela, Elb, !lsn_roundtrip_opt.
Qed.

(** ** A server that keeps its change log *)

Definition visible (s e : LSN) (cur : option SqlServerCdcCursor) (c : SqlServerRawChange) : bool :=
  (before_lsn s <? rank c) && (rank c <=? before_lsn (e + 1))
  && match cur with Some k => cursor_rank k <? rank c | None => true end.

(** What an observer knows of the server: how far the capture job has harvested the log,
    the oldest LSN a capture instance still holds, and the changes of an instance, past and
    future, with the columns a poll asks for. *)
Class CdcView (D : Type) := {
  harvested : D -> LSN;
  retained : string -> D -> LSN;
  log : string -> list string -> list SqlServerRawChange;
}.

Definition later {D} `{CdcView D} (d d' : D) : Prop :=
  harvested d <= harvested d' /\ forall i, retained i d <= retained i d'.

(** The documented behaviour of change data capture: a query between two harvested LSNs
    answers with the changes there, in order; one that reaches below what is retained is
    refused; the harvested maximum never moves back. *)
Class CdcLaws (D : Type) `{JsonCodec, RawJson, CdcServer D, CdcView D} : Prop := {
  harvested_range d : 0 <= harvested d < lsn_modulus - 1;
  log_positions i cols : Forall (fun c => wf_cursor (position c)) (log i cols);
  log_sorted i cols : StronglySorted (fun a b => rank a < rank b) (log i cols);
  connect_later d res d' : connect_client d = (res, d') -> later d d';
  min_lsn_law i d res d' : query_min_lsn i d = (res, d') ->
    later d d' /\ forall v m, res = Ok (Some v) -> lsn_hex_to_bytes_opt v = Some m -> retained i d <= m;
  poll_law q d res d' : cdc_poll q d = (res, d') ->
    later d d' /\
    forall s e, lsn_range s -> lsn_range e ->
      poll_start_hex q = lsn_bytes_to_hex s -> poll_end_hex q = lsn_bytes_to_hex e ->
      s <= e <= harvested d ->
      (forall rows cs, res = Ok (inr rows) -> raw_changes (poll_columns q) rows = Ok cs ->
         cs = take (poll_top q)
                (List.filter (visible s e (poll_cursor q)) (log (poll_instance q) (poll_columns q))))
      /\ (forall text, res = Ok (inl text) -> is_sqlserver_cdc_window_error text = true ->
            s < retained (poll_instance q) d');
  advance_law e d res d' : query_advance e d = (res, d') ->
    later d d' /\
    forall rows, res = Ok rows -> 0 <= e < lsn_modulus - 1 ->
      exists h m, rows = [(Some (lsn_bytes_to_hex (e + 1)), h)]
                  /\ lsn_hex_to_bytes (or_zero h) = Ok m /\ 0 <= m <= harvested d';
}.

Lemma later_refl {D} `{CdcView D} (d : D) : later d d.
Proof. split; intros; lia. Qed.

Lemma later_trans {D} `{CdcView D} (a b c : D) : later a b -> later b c -> later a c.
Proof.
  intros [H1 H2] [H3 H4]. split; [lia|]. intros i. specialize (H2 i). specialize (H4 i). lia.
Qed.

Section Delivery.
Context `{JC : JsonCodec} `{RJ : RawJson} {D : Type} `{SV : CdcServer D} `{VW : CdcView D}
        {LW : CdcLaws D}.
Variables (sip : string -> Z) (iteration : list CaptureInstanceMeta -> list CaptureInstanceMeta).

Abbreviation R := (Reader D).
Abbreviation befores := (gmap (string * string) (json * Z)).

(** *** The log of a set of capture instances *)

Definition changes_of (m : CaptureInstanceMeta) : list (CaptureInstanceMeta * SqlServerRawChange) :=
  map (pair m) (log (capture_instance m) (captured_columns m)).

Definition change_log (ms : list CaptureInstanceMeta) : list (CaptureInstanceMeta * SqlServerRawChange) :=
  flat_map changes_of ms.

Definition pair_rank (x : CaptureInstanceMeta * SqlServerRawChange) : Z := rank (snd x).

(** The changes between two ranks, merged in order of position. *)
Definition merged (ms : list CaptureInstanceMeta) (lo hi : Z) :=
  slice pair_rank lo hi (change_log ms).

(** The events of a sequence of changes, and the before-images left waiting. *)
Fixpoint events_of (cfg : SqlServerSourceConfig) (p : befores)
    (l : list (CaptureInstanceMeta * SqlServerRawChange)) : list Event * befores :=
  match l with
  | [] => ([], p)
  | (m, c) :: l' =>
      match map_change sip cfg m c p with
      | Ok (es, p') => let '(es', p'') := events_of cfg p' l' in ((es ++ es')%list, p'')
      | _ => ([], p)
      end
  end.

Definition wf_pair (x : CaptureInstanceMeta * SqlServerRawChange) : Prop := wf_cursor (position (snd x)).

Lemma map_change_ok cfg m c p : wf_cursor (position c) -> exists es p', map_change sip cfg m c p = Ok (es, p').
Proof.
  intros [_ Ho]. simpl in Ho. unfold map_change.
  assert (change_operation c = 1 \/ change_operation c = 2 \/ change_operation c = 3
          \/ change_operation c = 4) as [->|[->|[->| ->]]] by lia; eauto.
  destruct (p !! _) as [[b t]|]; eauto.
Qed.

Lemma events_of_app cfg l1 l2 : forall p, Forall wf_pair l1 ->
  events_of cfg p (l1 ++ l2)
  = let '(e1, p1) := events_of cfg p l1 in
    let '(e2, p2) := events_of cfg p1 l2 in ((e1 ++ e2)%list, p2).
Proof.
  induction l1 as [|[m c] l1 IH]; intros p Hl; simpl; [by destruct (events_of cfg p l2)|].
  inversion_clear Hl as [|? ? Hc Hl1]. destruct (map_change_ok cfg m c p Hc) as (es & p' & ->).
  rewrite IH by done. destruct (events_of cfg p' l1) as [e1 p1].
  destruct (events_of cfg p1 l2). by rewrite app_assoc.
Qed.

Lemma change_log_wf ms : Forall wf_pair (change_log ms).
Proof.
  apply Forall_forall. intros x Hx. apply list_elem_of_In, in_flat_map in Hx as (m & _ & Hx).
  apply in_map_iff in Hx as (c & <- & Hc). pose proof (log_positions (capture_instance m) (captured_columns m)) as H.
  rewrite Forall_forall in H. apply H. by apply list_elem_of_In.
Qed.

Lemma merged_wf ms lo hi : Forall wf_pair (merged ms lo hi).
Proof.
  apply Forall_forall. intros x Hx. unfold merged, slice in Hx. apply sort_by_in in Hx.
  pose proof (filter_forall wf_pair (fun x => Z.ltb lo (pair_rank x) && Z.leb (pair_rank x) hi) _ (change_log_wf ms)) as H.
  rewrite Forall_forall in H. by apply H.
Qed.

(** The events between three ranks. *)
Lemma events_split cfg p ms lo mid hi : lo <= mid <= hi ->
  events_of cfg p (merged ms lo hi)
  = let '(e1, p1) := events_of cfg p (merged ms lo mid) in
    let '(e2, p2) := events_of cfg p1 (merged ms mid hi) in ((e1 ++ e2)%list, p2).
Proof.
  intros H. unfold merged at 1. rewrite (slice_split _ lo mid hi) by done.
  apply events_of_app, merged_wf.
Qed.

(** *** Where a reader stands *)

(** Where it would resume, the end of its window, and how far it has read. *)
Definition resume_rank (st : SqlServerStream) : Z :=
  match stream_cursor st with Some c => cursor_rank c | None => before_lsn (lsn_start st) end.
Definition window_rank (st : SqlServerStream) : Z := before_lsn (lsn_end st + 1).
Definition read_rank (st : SqlServerStream) : Z :=
  match pending_cursor st with Some c => cursor_rank c | None => window_rank st end.
Definition frontier (r : R) : Z :=
  match window_buffer r with [] => resume_rank (stream r) | _ => read_rank (stream r) end.

Definition wf_meta (m : CaptureInstanceMeta) : Prop :=
  Forall (fun c => capture_floor m <= change_lsn c) (log (capture_instance m) (captured_columns m))
  /\ lsn_range (capture_floor m).

(** The window lies in the harvested log and a cursor lies in the window. *)
Record wf_stream (st : SqlServerStream) (d : D) : Prop := {
  ws_start : lsn_range (lsn_start st);
  ws_end : 0 <= lsn_end st <= harvested d;
  ws_cursor : forall c, stream_cursor st = Some c ->
    wf_cursor c /\ lsn_start st <= cursor_lsn c <= lsn_end st;
}.

Lemma wf_stream_later st d d' : later d d' -> wf_stream st d -> wf_stream st d'.
Proof. intros [H _] [H1 H2 H3]. constructor; [done|lia|done]. Qed.

Lemma on_db_inv {A} (m : M D A) (r : R) res r' : on_db m r = (res, r') ->
  exists d', m (db r) = (res, d') /\ r' = with_db d' r.
Proof. unfold on_db. destruct (m (db r)) as [res0 d']. intros E. simplify_eq. eauto. Qed.

Lemma query_inv {A} (m : M D A) (r : R) a r' : query m r = (Ok a, r') ->
  exists d1 d2, later (db r) d1 /\ m d1 = (Ok a, d2) /\ r' = with_db d2 r.
Proof.
  unfold query. intros E. apply bind_inv in E as ([] & r1 & E1 & E2).
  apply on_db_inv in E1 as (d1 & E1 & ->). apply on_db_inv in E2 as (d2 & E2 & ->).
  exists d1, d2. split; [by eapply connect_later|done].
Qed.

(** The changes of an instance between the resume point and the end of the window. *)
Definition unread (st : SqlServerStream) (m : CaptureInstanceMeta) : list SqlServerRawChange :=
  List.filter (fun c => (resume_rank st <? rank c) && (rank c <=? window_rank st))
    (log (capture_instance m) (captured_columns m)).

Lemma resume_in_window st d : wf_stream st d -> before_lsn (lsn_start st) <= resume_rank st.
Proof.
  intros [_ _ Hc]. unfold resume_rank. destruct (stream_cursor st) as [c|]; [|lia].
  destruct (Hc c eq_refl) as [Hw [Hl _]]. apply cursor_in_lsn in Hl; [lia|done].
Qed.

Lemma before_lsn_mono a b : a <= b -> before_lsn a <= before_lsn b.
Proof. unfold before_lsn, lsn_modulus. lia. Qed.

Lemma visible_unread st d m s : wf_stream st d -> wf_meta m ->
  s = Z.max (capture_floor m) (lsn_start st) ->
  List.filter (visible s (lsn_end st) (stream_cursor st)) (log (capture_instance m) (captured_columns m))
  = unread st m.
Proof.
  intros Hst [Hf _] ->. unfold unread.
  pose proof (resume_in_window st d Hst) as Hr.
  pose proof (log_positions (capture_instance m) (captured_columns m)) as Hp.
  apply filter_ext_in. intros c Hc%list_elem_of_In.
  rewrite Forall_forall in Hf, Hp. specialize (Hf c Hc). specialize (Hp c Hc). simpl in Hp.
  unfold visible, window_rank. apply cursor_in_lsn in Hf; [|done].
  change (cursor_rank (position c)) with (rank c) in Hf. unfold resume_rank, before_lsn, lsn_modulus in *.
  destruct (stream_cursor st); lia.
Qed.

Lemma classify_inv i s e' (r : R) cs r' :
  classify_cdc_window_error i (lsn_bytes_to_hex s) r = (Ok cs, r') -> lsn_range s ->
  s < retained i e' -> later e' (db r) -> False.
Proof.
  unfold classify_cdc_window_error. intros E Hs Hret Hl.
  apply bind_inv in E as ([] & r1 & E1 & E). apply on_db_inv in E1 as (d1 & E1 & ->).
  apply connect_later in E1. apply bind_inv in E as (v & r2 & E2 & E).
  apply on_db_inv in E2 as (d2 & E2 & ->). rewrite lsn_roundtrip_opt in E by done.
  simpl in E2. unfold catch in E2. destruct (query_min_lsn i d1) as [[v'| |] d3] eqn:Em; simplify_eq.
  - apply min_lsn_law in Em as [_ Hm].
    destruct (lsn_hex_to_bytes_opt (default "" v)) as [m|] eqn:Ev; [|done].
    destruct v as [v|]; [|by vm_compute in Ev]. specialize (Hm v m eq_refl Ev).
    destruct E1 as [_ E1]. specialize (E1 i). destruct Hl as [_ Hl]. specialize (Hl i).
    unfold compare_lsn in E. destruct (Z.compare_spec s m); simpl in E; simplify_eq; lia.
  - injection E2 as <- <-. change (lsn_hex_to_bytes_opt (default "" None)) with (@None LSN) in E. done.
Qed.

Lemma is_gt_ltb a b : is_gt (compare_lsn a b) = (b <? a).
Proof. unfold is_gt, compare_lsn. destruct (Z.compare_spec a b); symmetry; first [apply Z.ltb_lt|apply Z.ltb_ge]; lia. Qed.

(** Nothing is unread in a window that ends before the resume point or the floor. *)
Lemma unread_empty st d m : wf_stream st d -> wf_meta m ->
  lsn_end st < lsn_start st \/ lsn_end st < capture_floor m -> unread st m = [].
Proof.
  intros Hst [Hf _] H. unfold unread. apply filter_none, Forall_forall. intros c Hc.
  pose proof (resume_in_window _ _ Hst) as Hr.
  rewrite Forall_forall in Hf. specialize (Hf c Hc).
  pose proof (log_positions (capture_instance m) (captured_columns m)) as Hp.
  rewrite Forall_forall in Hp. specialize (Hp c Hc). apply cursor_in_lsn in Hf; [|done].
  change (cursor_rank (position c)) with (rank c) in Hf.
  unfold window_rank, before_lsn, lsn_modulus in *. lia.
Qed.

Lemma fetch_page m top (r : R) cs r' :
  wf_stream (stream r) (db r) -> wf_meta m ->
  fetch_changes_for_capture_instance m top r = (Ok cs, r') ->
  cs = take top (unread (stream r) m) /\ exists d', later (db r) d' /\ r' = with_db d' r.
Proof.
  intros Hst Hm. pose proof Hst as [Hs He _]. pose proof (harvested_range (db r)) as Hh.
  assert (Hskip : lsn_end (stream r) < lsn_start (stream r) \/ lsn_end (stream r) < capture_floor m ->
    (Ok [], r) = (Ok cs, r') ->
    cs = take top (unread (stream r) m) /\ exists d', later (db r) d' /\ r' = with_db d' r).
  { intros H [= <- <-]. rewrite (unread_empty _ _ _ Hst Hm H), take_nil. split; [done|].
    exists (db r). split; [apply later_refl|by destruct r]. }
  unfold fetch_changes_for_capture_instance. rewrite !is_gt_ltb.
  destruct (Z.ltb_spec (lsn_end (stream r)) (lsn_start (stream r))) as [Hgt|Hle]; [auto|].
  rewrite bind_of_res. destruct (validate_capture_instance_name _); [|done..].
  set (start := if lsn_start (stream r) <? capture_floor m then _ else _).
  assert (Hstart : start = Z.max (capture_floor m) (lsn_start (stream r)))
    by (unfold start; destruct (Z.ltb_spec (lsn_start (stream r)) (capture_floor m)); lia).
  clearbody start. destruct (_ && _) eqn:Eskip; [intros E; apply Hskip; [right; zlia|exact E]|].
  assert (Hrs : lsn_range start) by (destruct Hm as [_ Hm]; unfold lsn_range in *; lia).
  intros E. apply bind_inv in E as (answer & r1 & Eq & E).
  apply query_inv in Eq as (d1 & d2 & L1 & Eq & ->). apply poll_law in Eq as [L2 Eq]. simpl in Eq.
  destruct (Eq start (lsn_end (stream r))) as [Hrows Htext]; [done| | done..| |].
  { unfold lsn_range. lia. }
  { destruct L1 as [L1 _]. zlia. }
  destruct answer as [text|rows].
  - destruct (is_sqlserver_cdc_window_error text) eqn:Et; [|done]. exfalso.
    eapply classify_inv; [exact E|done|by eapply Htext|]. simpl. apply later_refl.
  - apply pair_equal_spec in E as [E <-]. split; [|exists d2; split; [by eapply later_trans|done]].
    rewrite (Hrows rows cs) by done. f_equal. by eapply visible_unread.
Qed.

(** *** Reading every instance *)

Definition unread_log (st : SqlServerStream) (ms : list CaptureInstanceMeta) :=
  flat_map (fun m => map (pair m) (unread st m)) ms.

Definition below (c : Z) (x : CaptureInstanceMeta * SqlServerRawChange) : bool := Z.leb (pair_rank x) c.

Lemma min_cursor_spec cut c : (forall e, cut = Some e -> wf_cursor e) -> wf_cursor c ->
  exists k, min_cursor cut c = Some k /\ wf_cursor k /\ cursor_rank k <= cursor_rank c
    /\ (forall e, cut = Some e -> cursor_rank k <= cursor_rank e) /\ (k = c \/ cut = Some k).
Proof.
  intros He Hc. unfold min_cursor. destruct cut as [e|].
  - specialize (He e eq_refl). rewrite cursor_ordering_rank, is_le_compare by done.
    destruct (Z.leb_spec (cursor_rank e) (cursor_rank c)); eexists; split_and!; eauto; intros;
      simplify_eq; lia.
  - exists c. split_and!; eauto; [lia|done].
Qed.

Lemma unread_positions st m : Forall (fun c => wf_cursor (position c)
  /\ resume_rank st < rank c <= window_rank st) (unread st m).
Proof.
  apply Forall_forall. intros c Hc. apply list_elem_of_In, filter_In in Hc as [Hc%list_elem_of_In Hr].
  pose proof (log_positions (capture_instance m) (captured_columns m)) as H. rewrite Forall_forall in H.
  split; [by apply H|zlia].
Qed.

Lemma ss_filter {A} (Rl : A -> A -> Prop) p l : StronglySorted Rl l -> StronglySorted Rl (List.filter p l).
Proof.
  induction 1 as [|x l Hl IH Hx]; simpl; [constructor|]. destruct (p x); [|done].
  constructor; [done|by apply filter_forall].
Qed.

Lemma filter_pairs p (m : CaptureInstanceMeta) (l : list SqlServerRawChange) :
  List.filter p (map (pair m) l) = map (pair m) (List.filter (fun c => p (m, c)) l).
Proof. induction l as [|c l IH]; simpl; [done|]. destruct (p (m, c)); simpl; by rewrite IH. Qed.

Lemma unread_log_filter st ms :
  unread_log st ms
  = List.filter (fun x => Z.ltb (resume_rank st) (pair_rank x) && Z.leb (pair_rank x) (window_rank st))
      (change_log ms).
Proof.
  induction ms as [|m ms IH]; simpl; [done|]. rewrite List.filter_app, <-IH. f_equal.
  unfold changes_of. by rewrite filter_pairs.
Qed.

(** A page up to a cut at or before the page's own last row. *)
Lemma page_cut st m top k : (0 < top)%nat ->
  ((top <= length (take top (unread st m)))%nat ->
     forall c, last (take top (unread st m)) = Some c -> k <= rank c) ->
  List.filter (fun c => Z.leb (rank c) k) (take top (unread st m))
  = List.filter (fun c => Z.leb (rank c) k) (unread st m).
Proof.
  intros Htop Hk. destruct (Nat.le_gt_cases top (length (unread st m))) as [Hf|Hf].
  - apply (page_below rank); [apply ss_filter, log_sorted| |done].
    apply Hk. rewrite length_take. lia.
  - by rewrite take_ge by lia.
Qed.

(** The position is that of an unread change. *)
Definition attained (st : SqlServerStream) (ms : list CaptureInstanceMeta) (k : SqlServerCdcCursor) : Prop :=
  exists x, x ∈ unread_log st ms /\ pair_rank x = cursor_rank k.

Lemma attained_range st ms k : attained st ms k -> resume_rank st < cursor_rank k <= window_rank st.
Proof.
  intros (x & Hx & <-). rewrite unread_log_filter in Hx. apply list_elem_of_In, filter_In in Hx as [_ Hx]. zlia.
Qed.

Lemma attained_here st m ms c : c ∈ unread st m -> attained st (m :: ms) (position c).
Proof.
  intros Hc. exists (m, c). split; [|done]. apply list_elem_of_In, in_app_iff. left. apply in_map.
  by apply list_elem_of_In.
Qed.

Lemma attained_cons st m ms k : attained st ms k -> attained st (m :: ms) k.
Proof.
  intros (x & Hx & E). exists x. split; [|done]. apply list_elem_of_In, in_app_iff. right.
  by apply list_elem_of_In.
Qed.

Lemma read_instances_spec ms : forall cut (r : R) flat cut' r',
  wf_stream (stream r) (db r) -> Forall wf_meta ms -> (0 < max_events_per_poll r)%nat ->
  (forall e, cut = Some e -> wf_cursor e) ->
  read_instances ms cut r = (Ok (flat, cut'), r') ->
  (exists d', later (db r) d' /\ r' = with_db d' r)
  /\ Forall wf_pair flat
  /\ (flat = [] -> unread_log (stream r) ms = [])
  /\ match cut' with
     | None => cut = None /\ flat = unread_log (stream r) ms
     | Some k =>
         wf_cursor k /\ (forall e, cut = Some e -> cursor_rank k <= cursor_rank e)
         /\ (cut = Some k \/ attained (stream r) ms k)
         /\ List.filter (below (cursor_rank k)) flat
            = List.filter (below (cursor_rank k)) (unread_log (stream r) ms)
     end.
Proof.
  induction ms as [|m ms IH]; intros cut r flat cut' r' Hst Hms Htop Hcut E; cbn [read_instances] in E.
  { injection E as <- <- <-. split_and!; [exists (db r); split; [apply later_refl|by destruct r]|constructor|done|].
    destruct cut as [k|]; [|done]. split_and!; eauto. intros e [= ->]. lia. }
  inversion_clear Hms as [|? ? Hm Hms']. rewrite bind_gets in E.
  set (top := max_events_per_poll r) in *.
  apply bind_inv in E as (cs & r1 & E1 & E). eapply fetch_page in E1 as [Hcs (d1 & L1 & ->)]; [|done..].
  apply bind_inv in E as ([rest k'] & r2 & E2 & E). injection E as <- <- <-. simpl.
  pose proof (unread_positions (stream r) m) as Hu.
  assert (Hpage : Forall (fun c => wf_cursor (position c)
            /\ resume_rank (stream r) < rank c <= window_rank (stream r)) cs)
    by (subst cs; by apply Forall_take).
  set (cut1 := if (top <=? length cs)%nat then _ else cut) in E2.
  assert (Hcut1 : (forall e, cut1 = Some e -> wf_cursor e)
      /\ (forall e, cut = Some e -> exists e1, cut1 = Some e1 /\ cursor_rank e1 <= cursor_rank e)
      /\ ((top <= length cs)%nat -> exists e1, cut1 = Some e1
            /\ forall c, last cs = Some c -> cursor_rank e1 <= rank c)
      /\ (cut1 = cut \/ exists e1, cut1 = Some e1
            /\ (cut = Some e1 \/ attained (stream r) (m :: ms) e1))).
  { unfold cut1. destruct (Nat.leb_spec top (length cs)) as [Hf|Hf].
    - destruct (last cs) as [c|] eqn:El.
      + apply last_Some in El as [cs0 El].
        assert (Hrc : c ∈ unread (stream r) m).
        { assert (Hc : c ∈ cs) by (rewrite El; apply elem_of_app; right; by apply list_elem_of_singleton).
          rewrite Hcs in Hc. rewrite <-(take_drop top (unread (stream r) m)). apply elem_of_app. by left. }
        rewrite El, Forall_app, Forall_singleton in Hpage. destruct Hpage as [_ [Hwc _]].
        destruct (min_cursor_spec cut (position c) Hcut Hwc) as (k & -> & Hk & Hkc & Hke & Hor).
        split_and!; [by intros e [= <-]|eauto| |].
        * intros _. exists k. split; [done|]. intros c' [= <-]. exact Hkc.
        * right. exists k. split; [done|]. destruct Hor as [-> |]; [right; by apply attained_here|by left].
      + apply last_None in El. rewrite El in Hf. simpl in Hf. lia.
    - split_and!; [done| |lia|by left]. intros e ->. exists e. split; [done|lia]. }
  clearbody cut1. destruct Hcut1 as (Hw1 & Hle1 & Hfull & Hor1).
  destruct (IH cut1 (with_db d1 r) _ _ _ (wf_stream_later _ _ _ L1 Hst) Hms' Htop Hw1 E2)
    as ((d2 & L2 & ->) & Hwr & Hemp & Hk). simpl in *.
  split_and!.
  - exists d2. split; [by eapply later_trans|done].
  - apply Forall_app. split; [|done]. apply Forall_forall. intros x Hx.
    apply list_elem_of_In, in_map_iff in Hx as (c & <- & Hc%list_elem_of_In).
    rewrite Forall_forall in Hpage. by destruct (Hpage c Hc).
  - intros Hnil. apply app_eq_nil in Hnil as [Hn1 Hn2]. rewrite (Hemp Hn2), app_nil_r.
    apply map_eq_nil in Hn1. rewrite Hn1 in Hcs. symmetry in Hcs.
    destruct (unread (stream r) m); [done|]. destruct top; [lia|done].
  - destruct k' as [k|].
    + destruct Hk as (Hwk & Hke & Hkor & Hkf). split_and!; [done| | |].
      * intros e He. destruct (Hle1 e He) as (e1 & -> & H1). specialize (Hke e1 eq_refl). lia.
      * destruct Hkor as [-> |Hr]; [|right; by apply attained_cons]. destruct Hor1 as [<- |(e1 & [= <-] & Ho)]; [by left|done].
      * rewrite !List.filter_app, Hkf. f_equal. rewrite !filter_pairs. f_equal. subst cs.
        apply page_cut; [done|]. intros Hf c Hc. destruct (Hfull Hf) as (e1 & -> & He1).
        specialize (He1 c Hc). specialize (Hke e1 eq_refl). lia.
    + destruct Hk as (-> & ->). assert (cut = None) as ->.
      { destruct cut as [e|]; [|done]. by destruct (Hle1 e eq_refl) as (? & ? & _). }
      split; [done|]. f_equal. f_equal. subst cs. apply take_ge.
      destruct (Nat.le_gt_cases top (length (take top (unread (stream r) m)))) as [Hf|Hf].
      * by destruct (Hfull Hf) as (? & ? & _).
      * rewrite length_take in Hf. lia.
Qed.

(** *** Polling *)

Section Session.
Variables (cfg : SqlServerSourceConfig) (ms : list CaptureInstanceMeta) (base : Z) (p0 : befores).
Hypothesis Hms : Forall wf_meta ms.
Hypothesis Hnames : NoDup (map capture_instance ms).
Hypothesis Hnotrunc : capture_truncate_events cfg = false.
(** The iteration of a hash map visits every key once. *)
Hypothesis Hiter : forall l, NoDup (map capture_instance l) -> Permutation (iteration l) l.
(** The catalog keeps its shape while the session lasts. *)
Hypothesis Hstable : forall d loaded d',
  load_capture_metas_for_config cfg false false d = (Ok loaded, d') ->
  later d d' /\ Forall2 (fun k m => capture_instance k = capture_instance m /\ same_shape k m = true) ms loaded.

Record standing (r : R) : Prop := {
  st_config : config r = cfg;
  st_metas : metas r = ms;
  st_requeued : requeued_events r = [];
  st_page : (0 < max_events_per_poll r)%nat;
  st_stream : wf_stream (stream r) (db r);
}.

(** Between windows: [es] is what the log holds up to the resume point. *)
Record Idle (es : list Event) (r : R) : Prop := {
  id_standing : standing r;
  id_buffer : window_buffer r = [];
  id_base : base <= resume_rank (stream r);
  id_events : events_of cfg p0 (merged ms base (resume_rank (stream r))) = (es, pending_update_befores r);
}.

(** Inside a window: [es] is that and the first events after it, the buffer the others. *)
Record Filled (es : list Event) (r : R) : Prop := {
  fl_standing : standing r;
  fl_window : lsn_start (stream r) <= lsn_end (stream r);
  fl_base : base <= resume_rank (stream r) <= read_rank (stream r);
  fl_pending : forall c, pending_cursor (stream r) = Some c ->
    wf_cursor c /\ lsn_start (stream r) <= cursor_lsn c <= lsn_end (stream r);
  fl_events : exists e1 p1 e2 k,
    events_of cfg p0 (merged ms base (resume_rank (stream r))) = (e1, p1)
    /\ events_of cfg p1 (merged ms (resume_rank (stream r)) (read_rank (stream r)))
       = (e2, pending_update_befores r)
    /\ es = (e1 ++ take k e2)%list /\ window_buffer r = drop k e2;
}.

Definition Reading (es : list Event) (r : R) : Prop :=
  Idle es r \/ (Filled es r /\ window_buffer r <> []).

Lemma standing_db r d' : later (db r) d' -> standing r -> standing (with_db d' r).
Proof. intros L [? ? ? ? ?]. constructor; try done. by eapply wf_stream_later. Qed.

Lemma idle_db es r d' : later (db r) d' -> Idle es r -> Idle es (with_db d' r).
Proof. intros L [? ? ? ?]. constructor; try done. by apply standing_db. Qed.

Lemma filled_db es r d' : later (db r) d' -> Filled es r -> Filled es (with_db d' r).
Proof. intros L [? ? ? ? ?]. constructor; try done. by apply standing_db. Qed.

Lemma reading_db es r d' : later (db r) d' -> Reading es r -> Reading es (with_db d' r).
Proof.
  intros L [H|[H Hb]]; [left; by apply idle_db|right; split; [by apply filled_db|done]].
Qed.

Lemma reading_counts es r n : Reading es r -> Reading es (with_counts ms n [] r).
Proof.
  intros [[[? ? ? ? ?] ? ? ?]|[[[? ? ? ? ?] ? ? ? ?] ?]]; [left|right; split; [|done]];
    by constructor; [constructor|..].
Qed.

(** What [advance_window] leaves behind it. *)
Definition advanced_rank (st : SqlServerStream) : Z :=
  if lsn_start st <=? lsn_end st then window_rank st else before_lsn (lsn_start st).

Lemma resume_before_window st d : wf_stream st d -> lsn_start st <= lsn_end st ->
  resume_rank st <= window_rank st.
Proof.
  intros [_ _ Hc] Hle. unfold resume_rank, window_rank.
  destruct (stream_cursor st) as [c|]; [|apply before_lsn_mono; lia].
  destruct (Hc c eq_refl) as [Hwc [_ Hlc]].
  destruct (Z.le_gt_cases (cursor_rank c) (before_lsn (lsn_end st + 1))) as [|Hgt]; [done|].
  apply cursor_in_lsn in Hgt; [lia|done].
Qed.

Lemma advance_spec r u r' : wf_stream (stream r) (db r) -> advance_window r = (Ok u, r') ->
  resume_rank (stream r') = advanced_rank (stream r) /\ wf_stream (stream r') (db r')
  /\ exists d st, r' = with_window st (with_db d r).
Proof.
  intros [W1 W2 W3] E. pose proof (harvested_range (db r)) as Hh.
  unfold advance_window in E. rewrite bind_gets in E.
  apply bind_inv in E as (rows & r1 & Eq & E). apply query_inv in Eq as (d1 & d2 & L1 & Eq & ->).
  apply advance_law in Eq as [L2 Eq].
  destruct (Eq rows eq_refl) as (h & m & -> & Em & Hm); [simpl; lia|].
  cbn beta iota in E. rewrite bind_of_res in E.
  assert (En : lsn_hex_to_bytes (or_zero (Some (lsn_bytes_to_hex (lsn_end (stream r) + 1))))
               = Ok (lsn_end (stream r) + 1)).
  { change (or_zero (Some ?x)) with x. apply lsn_roundtrip. unfold lsn_range. lia. }
  change (id r) with r in E. rewrite En in E. rewrite bind_of_res, Em in E.
  injection E as _ <-. unfold next_window. simpl. rewrite is_gt_ltb.
  unfold advanced_rank. pose proof (later_trans _ _ _ L1 L2) as [L _].
  destruct (Z.ltb_spec (lsn_end (stream r)) (lsn_start (stream r))) as [Hlt|Hle];
    [rewrite (proj2 (Z.leb_gt _ _) Hlt)|rewrite (proj2 (Z.leb_le _ _) Hle)];
    (split; [done|split; [constructor; simpl; [|lia|done]|by eexists _, _]]).
  - done.
  - unfold lsn_range. lia.
Qed.

Lemma advance_idle es r u r' : standing r -> window_buffer r = [] ->
  base <= advanced_rank (stream r) ->
  events_of cfg p0 (merged ms base (advanced_rank (stream r))) = (es, pending_update_befores r) ->
  advance_window r = (Ok u, r') -> Idle es r'.
Proof.
  intros [E1 E2 E3 E4 E5] Hb Hbase He E.
  destruct (advance_spec _ _ _ E5 E) as (Hr & Hw & d & st & ->).
  constructor; [by constructor|done|by rewrite Hr|by rewrite Hr].
Qed.

(** [drain_page] hands out a page and settles the window with the last one. *)
Lemma drain_reading es r page r' : Filled es r -> drain_page r = (Ok page, r') -> Reading (es ++ page) r'.
Proof.
  intros HF E. pose proof HF as [Hs Hw Hbase Hp (e1 & p1 & e2 & k & He1 & He2 & Hes & Hbuf)].
  unfold drain_page in E. rewrite bind_gets in E. change (id r) with r in E.
  set (n := Nat.min _ _) in E. apply bind_inv in E as ([] & r1 & Er1 & E). injection Er1 as <-.
  apply bind_inv in E as (u & r2 & E2 & E). injection E as <- <-.
  assert (Htake : (es ++ take n (window_buffer r))%list = (e1 ++ take (k + n) e2)%list).
  { rewrite Hes, Hbuf, <-app_assoc, take_take_drop. done. }
  assert (Hdrop : drop n (window_buffer r) = drop (k + n) e2) by (by rewrite Hbuf, drop_drop).
  pose proof Hs as [H1 H2 H3 H4 H5].
  destruct (drop n (window_buffer r)) as [|ev rest] eqn:Erest.
  - left. assert (Hall : (es ++ take n (window_buffer r))%list = (e1 ++ e2)%list).
    { rewrite Htake. f_equal. apply take_ge. apply (f_equal length) in Hdrop.
      rewrite length_drop in Hdrop. simpl in Hdrop. lia. }
    assert (Hev : events_of cfg p0 (merged ms base (read_rank (stream r)))
                  = ((es ++ take n (window_buffer r))%list, pending_update_befores r)).
    { rewrite (events_split _ _ _ base (resume_rank (stream r))) by lia. by rewrite He1, He2, Hall. }
    unfold settle_drained_window in E2. simpl in E2.
    destruct (pending_cursor (stream r)) as [c|] eqn:Ep.
    + injection E2 as _ <-. destruct (Hp c eq_refl) as [Hc1 Hc2]. unfold read_rank in *. rewrite Ep in *.
      constructor; [constructor; try done|done|simpl; unfold resume_rank; simpl; lia|done].
      destruct H5 as [Ha Hb Hc]. constructor; [done..|]. simpl. by intros c' [= <-].
    + eapply advance_idle; [| | | |exact E2]; simpl; [by constructor|done|..].
      * unfold advanced_rank. rewrite (proj2 (Z.leb_le _ _) Hw). unfold read_rank in Hbase.
        rewrite Ep in Hbase. lia.
      * unfold advanced_rank. rewrite (proj2 (Z.leb_le _ _) Hw). unfold read_rank in Hev. by rewrite Ep in Hev.
  - injection E2 as _ <-. right. split; [|done]. constructor; try done.
    exists e1, p1, e2, (k + n)%nat. by rewrite <-Hdrop.
Qed.

(** *** Progress *)

(** What is left to hand out before the end of the window [w]. *)
Definition work (w : Z) (r : R) : nat :=
  (length (merged ms (frontier r) w) + length (window_buffer r))%nat.

(** The window is behind the reader, or there is less to hand out. *)
Definition advanced (w : Z) (n : nat) (r' : R) : Prop :=
  w <= resume_rank (stream r') \/ (window_rank (stream r') = w /\ (work w r' < n)%nat).

Definition moves (r : R) (n : nat) (r' : R) : Prop :=
  resume_rank (stream r) <= resume_rank (stream r') /\ advanced (window_rank (stream r)) n r'.

Lemma events_of_length l : forall p, (length (fst (events_of cfg p l)) <= length l)%nat.
Proof.
  induction l as [|[m c] l IH]; intros p; simpl; [lia|].
  destruct (map_change sip cfg m c p) as [[es p']| |] eqn:E; simpl; [|lia..].
  specialize (IH p'). destruct (events_of cfg p' l) as [es' p'']. simpl in *. rewrite length_app.
  assert (length es <= 1)%nat; [|lia]. unfold map_change in E.
  repeat (case_match; simplify_eq/=); lia.
Qed.

Lemma drain_advances es r page r' n :
  Filled es r -> drain_page r = (Ok page, r') ->
  (length (merged ms (read_rank (stream r)) (window_rank (stream r))) + length (window_buffer r)
   < n + Nat.min 1 (length (window_buffer r)))%nat ->
  moves r n r'.
Proof.
  intros HF E Hn. pose proof HF as [[H1 H2 H3 H4 H5] Hw Hbase Hp _].
  unfold drain_page in E. rewrite bind_gets in E. change (id r) with r in E.
  set (k := Nat.min (max_events_per_poll r) (length (window_buffer r))) in E.
  apply bind_inv in E as ([] & r1 & Er1 & E). injection Er1 as <-.
  apply bind_inv in E as (u & r2 & E2 & E). injection E as <- <-.
  assert (Hk : (length (drop k (window_buffer r)) + Nat.min 1 (length (window_buffer r))
               <= length (window_buffer r))%nat) by (rewrite length_drop; lia).
  unfold moves, advanced, work, frontier. destruct (drop k (window_buffer r)) as [|ev rest] eqn:Erest.
  - unfold settle_drained_window in E2. simpl in E2. unfold read_rank in Hn.
    destruct (pending_cursor (stream r)) as [c|] eqn:Ep.
    + injection E2 as _ <-. unfold read_rank in Hbase. rewrite Ep in Hbase.
      split; [unfold resume_rank in *; simpl; lia|]. right. split; [done|]. simpl. unfold resume_rank. simpl. lia.
    + unfold read_rank in Hbase. rewrite Ep in Hbase.
      destruct (advance_spec (with_buffer [] r) u r2 H5 E2) as (-> & _). unfold advanced_rank. simpl.
      rewrite (proj2 (Z.leb_le _ _) Hw). split; [unfold window_rank in *; simpl; lia|]. left. lia.
  - injection E2 as _ <-. split; [done|]. right. split; [done|]. simpl in *.
    change (read_rank _) with (read_rank (stream r)). lia.
Qed.

(** The changes a poll keeps are the log up to its cut. *)
Lemma kept_merged st flat cut :
  Forall wf_pair flat ->
  match cut with
  | None => flat = unread_log st ms
  | Some k => wf_cursor k /\ cursor_rank k <= window_rank st
              /\ List.filter (below (cursor_rank k)) flat
                 = List.filter (below (cursor_rank k)) (unread_log st ms)
  end ->
  match cut with
  | Some c => List.filter (fun x => is_le (cursor_ordering (position (snd x)) c))
  | None => id
  end (sort_by (fun x y => change_ordering (snd x) (snd y)) flat)
  = merged ms (resume_rank st) (match cut with Some k => cursor_rank k | None => window_rank st end).
Proof.
  intros Hw Hcut. rewrite Forall_forall in Hw.
  rewrite (sort_by_ext pair_rank) by (intros x y Hx Hy; apply change_ordering_rank; by apply Hw).
  destruct cut as [k|].
  - destruct Hcut as (Hk & Hle & Hf).
    transitivity (List.filter (below (cursor_rank k)) (sort_by (fun x y => pair_rank x ?= pair_rank y) flat)).
    { apply filter_ext_in. intros x Hx%list_elem_of_In%sort_by_in.
      rewrite cursor_ordering_rank, is_le_compare by (done || by apply Hw). done. }
    rewrite filter_sort_by, Hf, <-filter_sort_by, unread_log_filter. by apply (slice_cut pair_rank).
  - rewrite Hcut, unread_log_filter. done.
Qed.

Lemma kept_some st flat cut : Forall wf_pair flat -> flat <> [] ->
  match cut with
  | None => flat = unread_log st ms
  | Some k => attained st ms k
  end ->
  merged ms (resume_rank st) (match cut with Some k => cursor_rank k | None => window_rank st end) <> [].
Proof.
  intros Hf Hne Hcut Hm.
  assert (Hx : exists x, x ∈ unread_log st ms
    /\ pair_rank x <= match cut with Some k => cursor_rank k | None => window_rank st end).
  { destruct cut as [k|].
    - destruct Hcut as (x & Hx & E). exists x. split; [done|lia].
    - destruct flat as [|x flat]; [done|]. exists x. rewrite <-Hcut. split; [rewrite elem_of_cons; by left|].
      assert (Hx : x ∈ unread_log st ms) by (rewrite <-Hcut, elem_of_cons; by left).
      rewrite unread_log_filter in Hx. apply list_elem_of_In, filter_In in Hx as [_ Hx]. zlia. }
  destruct Hx as (x & Hx & Hle). rewrite unread_log_filter in Hx.
  apply list_elem_of_In, filter_In in Hx as [Hin Hr].
  apply (not_elem_of_nil x). rewrite <-Hm. unfold merged, slice. apply sort_by_in, list_elem_of_In, filter_In.
  split; [done|]. zlia.
Qed.

Lemma buffer_changes l : forall r : R, config r = cfg -> Forall wf_pair l ->
  for_each l (fun x => buffer_change sip (fst x) (snd x)) r
  = (Ok tt, with_buffer (window_buffer r ++ fst (events_of cfg (pending_update_befores r) l))
              (with_befores (snd (events_of cfg (pending_update_befores r) l)) r)).
Proof.
  induction l as [|[m c] l IH]; intros r Hc Hl; cbn [for_each events_of].
  - simpl. rewrite app_nil_r. by destruct r.
  - inversion_clear Hl as [|? ? Hw Hl'].
    destruct (map_change_ok cfg m c (pending_update_befores r) Hw) as (es & p' & Em).
    rewrite (bind_ok _ _ _ tt (with_buffer (window_buffer r ++ es) (with_befores p' r)))
      by (unfold buffer_change; simpl; by rewrite Hc, Em).
    rewrite IH by done. rewrite Em. simpl. destruct (events_of cfg p' l) as [es' p'']. simpl.
    by rewrite app_assoc.
Qed.

Lemma no_truncates now (r : R) : config r = cfg -> fetch_and_emit_truncate_events now r = (Ok [], r).
Proof. intros E. unfold fetch_and_emit_truncate_events. by rewrite E, Hnotrunc. Qed.

Lemma fill_reading es now flat cut r page r' :
  Idle es r -> lsn_start (stream r) <= lsn_end (stream r) -> Forall wf_pair flat -> flat <> [] ->
  match cut with
  | None => flat = unread_log (stream r) ms
  | Some k => wf_cursor k /\ attained (stream r) ms k
              /\ List.filter (below (cursor_rank k)) flat
                 = List.filter (below (cursor_rank k)) (unread_log (stream r) ms)
  end ->
  fill_window sip now flat cut r = (Ok page, r') ->
  Reading (es ++ page) r' /\ moves r (work (window_rank (stream r)) r) r'.
Proof.
  intros HI Hw Hf Hne Hcut E. pose proof HI as [Hs Hb Hbase He]. pose proof Hs as [H1 H2 H3 H4 H5].
  assert (Hat : forall k, cut = Some k -> resume_rank (stream r) < cursor_rank k <= window_rank (stream r))
    by (intros k ->; destruct Hcut as (_ & Ha & _); by eapply attained_range).
  assert (Ekept : match cut with
      | Some c => List.filter (fun x => is_le (cursor_ordering (position (snd x)) c))
      | None => id
      end (sort_by (fun x y => change_ordering (snd x) (snd y)) flat)
    = merged ms (resume_rank (stream r))
        (match cut with Some k => cursor_rank k | None => window_rank (stream r) end)).
  { apply kept_merged; [done|]. destruct cut as [k|]; [|done]. specialize (Hat k eq_refl).
    destruct Hcut as (? & ? & ?). split_and!; [done|lia|done]. }
  assert (Hsome := kept_some (stream r) flat cut Hf Hne ltac:(destruct cut; [by destruct Hcut as (? & ? & ?)|done])).
  unfold fill_window in E.
  set (kept := match cut with Some c => List.filter _ _ | None => _ end) in E.
  replace kept with (merged ms (resume_rank (stream r))
            (match cut with Some k => cursor_rank k | None => window_rank (stream r) end)) in E
    by (rewrite <-Ekept; unfold kept; by destruct cut).
  clear kept Ekept.
  set (hi := match cut with Some k => cursor_rank k | None => window_rank (stream r) end) in *.
  rewrite (bind_ok _ _ _ _ _ (buffer_changes _ _ H1 (merged_wf _ _ _))) in E.
  apply bind_inv in E as (tr & rt & Et & E). rewrite no_truncates in Et by done.
  injection Et as <- <-. cbn iota in E.
  apply bind_inv in E as (u0 & rt & Et & E). injection Et as _ <-.
  pose proof (events_of_length (merged ms (resume_rank (stream r)) hi) (pending_update_befores r)) as Hlen.
  destruct (events_of cfg (pending_update_befores r) (merged ms (resume_rank (stream r)) hi)) as [e2 p2] eqn:E2.
  apply bind_inv in E as (u & r1 & Em & E). injection Em as _ <-. rewrite Hb in E. simpl in E, Hlen.
  assert (Hrr : resume_rank (stream r) <= hi <= window_rank (stream r)).
  { unfold hi. destruct cut as [k|]; [specialize (Hat k eq_refl); lia|].
    split; [by eapply resume_before_window|lia]. }
  assert (Hhi : read_rank (cursors (stream_cursor (stream r)) cut (stream r)) = hi) by (by destruct cut).
  match type of E with drain_page ?x = _ => set (r1 := x) in E; assert (HF : Filled es r1) end.
  { constructor; [constructor; try done; by destruct H5|done|simpl; rewrite Hhi; unfold resume_rank in *; simpl; lia| |].
    - simpl. intros c ->. specialize (Hat c eq_refl) as [Hlo Hup]. destruct Hcut as (Hwc & _). split; [done|].
      pose proof (resume_in_window _ _ H5). split; [by apply cursor_in_lsn; [|lia]|].
      destruct (Z.le_gt_cases (cursor_lsn c) (lsn_end (stream r))) as [|Hgt]; [done|].
      assert (Hge : lsn_end (stream r) + 1 <= cursor_lsn c) by lia.
      apply cursor_in_lsn in Hge; [|done]. unfold window_rank in Hup. lia.
    - exists es, (pending_update_befores r), e2, 0%nat. simpl. rewrite Hhi, take_0, app_nil_r, drop_0. done. }
  split; [by eapply drain_reading|]. change (moves r1 (work (window_rank (stream r)) r) r').
  eapply drain_advances; [done..|]. unfold work, frontier. rewrite Hb. simpl. rewrite Hhi.
  change (window_rank (cursors _ _ _)) with (window_rank (stream r)).
  pose proof (slice_split pair_rank (resume_rank (stream r)) hi (window_rank (stream r)) (change_log ms) Hrr) as Hsp.
  unfold merged in *. apply (f_equal length) in Hsp. rewrite length_app in Hsp.
  destruct (slice pair_rank (resume_rank (stream r)) hi (change_log ms)); [done|]. simpl in *. destruct (length e2); lia.
Qed.

(** Reading nothing and moving on. *)
Lemma skip_idle es r u r' :
  Idle es r -> unread_log (stream r) ms = [] -> advance_window r = (Ok u, r') ->
  Idle es r' /\ resume_rank (stream r) <= resume_rank (stream r')
  /\ window_rank (stream r) <= resume_rank (stream r').
Proof.
  intros HI Hnil E. pose proof HI as [Hs Hb Hbase He]. pose proof Hs as [_ _ _ _ H5].
  destruct (advance_spec _ _ _ H5 E) as (Hr & _).
  assert (Hrank : resume_rank (stream r) <= advanced_rank (stream r)
            /\ window_rank (stream r) <= advanced_rank (stream r)
            /\ merged ms (resume_rank (stream r)) (advanced_rank (stream r)) = []).
  { unfold advanced_rank. destruct (Z.leb_spec (lsn_start (stream r)) (lsn_end (stream r))) as [Hle|Hgt].
    - split_and!; [by eapply resume_before_window|lia|].
      unfold merged, slice. by rewrite <-unread_log_filter, Hnil.
    - pose proof (before_lsn_mono (lsn_end (stream r) + 1) (lsn_start (stream r)) ltac:(lia)).
      unfold window_rank, resume_rank. destruct (stream_cursor (stream r)) as [c|] eqn:Ec;
        [destruct H5 as [_ _ Hc]; destruct (Hc c Ec); lia|].
      split_and!; [lia..|apply slice_empty]. }
  destruct Hrank as (Hr1 & Hr2 & Hr3). split; [|by rewrite Hr].
  eapply advance_idle; [done|done|lia| |exact E].
  rewrite (events_split _ _ _ base (resume_rank (stream r))) by lia. rewrite He, Hr3. simpl. by rewrite app_nil_r.
Qed.

Lemma unread_nothing st d : wf_stream st d -> lsn_end st < lsn_start st -> unread_log st ms = [].
Proof.
  intros H5 Hgt. unfold unread_log. clear -Hgt H5 Hms LW. induction Hms as [|m l Hm Hl IH]; simpl; [done|].
  by rewrite (unread_empty _ _ _ H5 Hm (or_introl Hgt)), IH.
Qed.

(** What a turn of the loop reads, and where it leads. *)
Lemma turn_reading es r flat cut r1 : Idle es r ->
  read_instances ms None r = (Ok (flat, cut), r1) ->
  Idle es r1 /\ stream r1 = stream r
  /\ match flat with
     | [] => unread_log (stream r) ms = []
     | _ => forall now page r2, fill_window sip now flat cut r1 = (Ok page, r2) ->
         Reading (es ++ page) r2 /\ moves r (work (window_rank (stream r)) r) r2
     end.
Proof.
  intros HI E. pose proof HI as [[H1 H2 H3 H4 H5] Hb Hbase He].
  destruct (read_instances_spec ms None r flat cut r1 H5 Hms H4 ltac:(done) E)
    as ((d & L & ->) & Hw & Hnil & Hcut).
  apply (idle_db es r d L) in HI. split; [done|]. split; [done|].
  destruct flat as [|x flat]; [by apply Hnil|].
  intros now' page r2. apply (fill_reading es now' (x :: flat) cut (with_db d r)); [done| |done|done|].
  - simpl. destruct (Z.le_gt_cases (lsn_start (stream r)) (lsn_end (stream r))) as [|Hgt]; [done|exfalso].
    pose proof (unread_nothing _ _ H5 Hgt) as Hne. destruct cut as [k|].
    + destruct Hcut as (_ & _ & [|(y & Hy & _)] & _); [done|].
      rewrite Hne in Hy. by apply not_elem_of_nil in Hy.
    + destruct Hcut as [_ Hcut]. by rewrite Hne in Hcut.
  - simpl. destruct cut as [k|]; [|by destruct Hcut]. by destruct Hcut as (Hk & _ & [|Hor] & Hf).
Qed.

Lemma poll_reading now : forall late es r page r',
  Idle es r -> poll_windows sip now late r = (Ok page, r') ->
  Reading (es ++ page) r' /\ moves r (work (window_rank (stream r)) r) r'.
Proof.
  induction late as [|late lates IH]; intros es r page r' HI E; cbn [poll_windows] in E;
    rewrite bind_gets, (st_metas _ (id_standing _ _ HI)) in E;
    apply bind_inv in E as ([flat cut] & r1 & E1 & E);
    destruct (turn_reading es r flat cut r1 HI E1) as (HI1 & Est & Hnext); cbn [fst snd] in E;
    (destruct flat as [|x flat]; [|by eapply Hnext]);
    apply bind_inv in E as (tr & rt & Et & E);
    rewrite no_truncates in Et by apply (st_config _ (id_standing _ _ HI1));
    injection Et as <- <-; apply bind_inv in E as (u & r2 & E2 & E);
    rewrite <-Est in Hnext; destruct (skip_idle _ _ _ _ HI1 Hnext E2) as (HI2 & Hm1 & Hm2);
    rewrite Est in Hm1, Hm2.
  - injection E as <- <-. rewrite app_nil_r. split; [by left|split; [done|by left]].
  - destruct late; [injection E as <- <-; rewrite app_nil_r; split; [by left|split; [done|by left]]|].
    destruct (IH _ _ _ _ HI2 E) as [HR [Hm _]]. split; [done|]. split; [lia|left; lia].
Qed.

Lemma find_meta_none i l : i ∉ map capture_instance l -> find_meta i l = None.
Proof.
  unfold find_meta. intros H. destruct (List.find _ l) as [m|] eqn:E; [|done].
  apply List.find_some in E as [Hin He%String.eqb_eq]. exfalso. apply H. rewrite <-He.
  apply list_elem_of_In. by apply in_map.
Qed.

Lemma find_meta_some l m : NoDup (map capture_instance l) -> m ∈ l ->
  find_meta (capture_instance m) l = Some m.
Proof.
  induction l as [|k l IH]; intros Hd Hm; [by apply not_elem_of_nil in Hm|].
  inversion_clear Hd as [|? ? Hk Hd']. unfold find_meta. simpl.
  destruct (String.eqb_spec (capture_instance k) (capture_instance m)) as [E|E].
  - apply elem_of_cons in Hm as [->|Hm]; [done|]. exfalso. apply Hk. rewrite E.
    apply list_elem_of_In, in_map. by apply list_elem_of_In.
  - apply elem_of_cons in Hm as [->|Hm]; [done|]. by apply IH.
Qed.

(** A refresh of an unchanged catalog changes nothing and makes no event. *)
Lemma refresh_quiet now (r : R) loaded : metas r = ms ->
  Forall2 (fun k m => capture_instance k = capture_instance m /\ same_shape k m = true) ms loaded ->
  retain_known_capture_floors ms loaded = ms
  /\ compute_schema_events_for_meta_refresh iteration now ms r = [].
Proof.
  intros Em H. split.
  - assert (Hk : forall known, Forall (fun k => find_meta (capture_instance k) known = Some k) ms ->
      retain_known_capture_floors known loaded = ms).
    { clear Hnames Hms Hstable Em. intros known Hk. induction H as [|k m ks l [Ei Es] _ IH]; [done|].
      inversion_clear Hk as [|? ? Hf Hk']. simpl. rewrite IH by done. rewrite <-Ei, Hf. f_equal.
      unfold same_shape in Es. zbool. repeat match goal with
        | H : String.eqb _ _ = true |- _ => apply String.eqb_eq in H
        | H : bool_decide _ = true |- _ => apply bool_decide_eq_true in H end.
      destruct k, m. unfold with_floor. simpl in *. by subst. }
    apply Hk. apply Forall_forall. intros k. by apply find_meta_some.
  - unfold compute_schema_events_for_meta_refresh. rewrite Em. pose proof (Hiter ms Hnames) as Hp.
    assert (Hnd : NoDup (map capture_instance (iteration ms))) by (by rewrite Hp).
    assert (Hsame : forall m, same_shape m m = true).
    { intros m. unfold same_shape. by rewrite !String.eqb_refl, !bool_decide_eq_true_2. }
    assert (Hfind : forall m, In m (iteration ms) -> find_meta (capture_instance m) (iteration ms) = Some m)
      by (intros m Hm%list_elem_of_In; by apply find_meta_some).
    assert (Hflat : forall {A B} (f : A -> list B) l, (forall x, In x l -> f x = []) -> flat_map f l = []).
    { intros A B f l Hf. induction l as [|x l IH]; simpl; [done|].
      rewrite Hf by (by left). apply IH. intros y Hy. apply Hf. by right. }
    rewrite !Hflat; [done| |]; intros m Hm; rewrite (Hfind m Hm); [by rewrite Hsame|done].
Qed.

Lemma next_reading now late es r page r' :
  Reading es r -> next_events sip iteration now late r = (Ok page, r') ->
  Reading (es ++ page) r' /\ moves r (work (window_rank (stream r)) r) r'.
Proof.
  intros HR E. assert (Hs : standing r) by (by destruct HR as [[] |[[] _]]).
  pose proof Hs as [H1 H2 H3 H4 H5]. unfold next_events in E. rewrite H3 in E.
  apply bind_inv in E as (schema & r1 & E1 & E).
  unfold refresh_metas_and_collect_schema_events in E1. rewrite bind_gets, H1 in E1.
  apply bind_inv in E1 as (loaded & r2 & Eload & E1). apply on_db_inv in Eload as (d & Eload & ->).
  apply Hstable in Eload as [L Hsh]. rewrite bind_gets in E1. change (id ?x) with x in E1. cbn [metas with_db] in E1.
  rewrite H2 in E1. destruct (refresh_quiet now (with_db d r) loaded H2 Hsh) as [Er Ec].
  rewrite Er in E1. apply bind_inv in E1 as (u & r3 & Em & E1). injection Em as _ <-.
  rewrite Ec in E1. injection E1 as <- <-. cbn iota in E. rewrite bind_gets in E.
  change (requeued_events (with_db d r)) with (requeued_events r) in E. rewrite H3 in E.
  set (r4 := with_counts ms (events_polled r) [] (with_db d r)) in E.
  assert (HR4 : Reading es r4) by (by apply reading_counts, reading_db).
  change (Reading (es ++ page) r' /\ moves r4 (work (window_rank (stream r4)) r4) r').
  clearbody r4. clear HR Hs H1 H2 H3 H4 H5 L Er Ec Hsh. destruct HR4 as [HI|[HF Hb]].
  - rewrite (id_buffer _ _ HI) in E. by eapply poll_reading.
  - assert (Hd : drain_page r4 = (Ok page, r')) by (by destruct (window_buffer r4)).
    split; [by eapply drain_reading|]. eapply drain_advances; [done..|].
    unfold work, frontier. destruct (window_buffer r4) as [|x l] eqn:Eb; [done|]. simpl. lia.
Qed.

(** *** A session: polls, all of which succeed *)

Fixpoint session (calls : list (Z * list bool)) (r : R) : Res (list Event) * R :=
  match calls with
  | [] => (Ok [], r)
  | (now, late) :: calls' =>
      (page ← next_events sip iteration now late;
       rest ← session calls';
       mret (page ++ rest)%list) r
  end.

Lemma session_reading calls : forall es r out r',
  Reading es r -> session calls r = (Ok out, r') -> Reading (es ++ out) r'.
Proof.
  induction calls as [|[now late] calls IH]; intros es r out r' HR E; cbn [session] in E.
  - injection E as <- <-. by rewrite app_nil_r.
  - apply bind_inv in E as (page & r1 & E1 & E). apply bind_inv in E as (rest & r2 & E2 & E).
    injection E as <- <-. rewrite app_assoc. eapply IH; [eapply next_reading; [exact HR|exact E1]|done].
Qed.


(** Enough polls put the window the session starts in behind the reader. *)
Lemma session_leaves_window calls : forall es r out r',
  Reading es r -> session calls r = (Ok out, r') ->
  (work (window_rank (stream r)) r < length calls)%nat ->
  window_rank (stream r) <= resume_rank (stream r').
Proof.
  assert (Hmono : forall calls es r out r', Reading es r -> session calls r = (Ok out, r') ->
    resume_rank (stream r) <= resume_rank (stream r')).
  { induction calls0 as [|[now late] calls0 IH]; intros es r out r' HR E; cbn [session] in E.
    - injection E as <- <-. lia.
    - apply bind_inv in E as (page & r1 & E1 & E). apply bind_inv in E as (rest & r2 & E2 & E).
      injection E as <- <-. destruct (next_reading _ _ _ _ _ _ HR E1) as [HR1 [Hm _]].
      specialize (IH _ _ _ _ HR1 E2). lia. }
  induction calls as [|[now late] calls IH]; intros es r out r' HR E Hlen; cbn [session] in E; simpl in Hlen; [lia|].
  apply bind_inv in E as (page & r1 & E1 & E). apply bind_inv in E as (rest & r2 & E2 & E).
  injection E as <- <-. destruct (next_reading _ _ _ _ _ _ HR E1) as [HR1 [_ [Hp|[Hw Hn]]]].
  - specialize (Hmono _ _ _ _ _ HR1 E2). lia.
  - rewrite <-Hw. eapply IH; [exact HR1|exact E2|]. rewrite Hw. lia.
Qed.

End Session.

(** A session over a catalog that does not change: the capture instances are readable from
    their floors on, no two share a name, and truncates are not captured. *)
Record quiet_catalog (cfg : SqlServerSourceConfig) (ms : list CaptureInstanceMeta) : Prop := {
  qc_metas : Forall wf_meta ms;
  qc_names : NoDup (map capture_instance ms);
  qc_truncates : capture_truncate_events cfg = false;
  qc_iteration : forall l, NoDup (map capture_instance l) -> Permutation (iteration l) l;
  qc_stable : forall d loaded d',
    load_capture_metas_for_config cfg false false d = (Ok loaded, d') ->
    later d d' /\ Forall2 (fun k m => capture_instance k = capture_instance m /\ same_shape k m = true) ms loaded;
}.

Lemma fresh_idle cfg ms r : standing cfg ms r -> window_buffer r = [] ->
  Reading cfg ms (resume_rank (stream r)) (pending_update_befores r) [] r.
Proof.
  intros Hs Hb. left. constructor; [done..|lia|]. unfold merged. by rewrite slice_empty.
Qed.

Lemma reading_spec cfg ms base p0 es r : Reading cfg ms base p0 es r ->
  (es ++ window_buffer r)%list = fst (events_of cfg p0 (merged ms base (frontier r)))
  /\ exists again, es = (fst (events_of cfg p0 (merged ms base (resume_rank (stream r)))) ++ again)%list.
Proof.
  unfold frontier. intros [[Hs Hb Hl He]|[[Hs Hw Hl Hp (e1 & p1 & e2 & k & E1 & E2 & -> & Hb)] Hne]].
  - rewrite Hb, He, app_nil_r. split; [done|]. exists []. by rewrite app_nil_r.
  - split.
    + destruct (window_buffer r) as [|ev l] eqn:Eb; [done|].
      rewrite (events_split _ _ _ base (resume_rank (stream r))) by lia. rewrite E1, E2. simpl.
      by rewrite Hb, <-app_assoc, take_drop.
    + rewrite E1. by eexists.
Qed.

(** *** Restart *)

Definition saved_offset (r : R) : DynOffset :=
  generic_dyn {| Offsets.source := "sqlserver"; bytes := print_json (JStr (saved_position r)) |}.

Lemma cursor_text_roundtrip c : wf_cursor c -> decode_cursor (encode_cursor c) = Some c.
Proof.
  intros [(l & s & Hl & Hs & El & Es) Ho]. unfold decode_cursor, encode_cursor, show_i32.
  rewrite El, Es, (proj2 (Z.ltb_ge _ _)) by lia.
  change (":" +:+ ?t) with (String ":" t). rewrite split_here by (by apply lsn_text_no_colon).
  change (":" +:+ ?t) with (String ":" t). rewrite split_here by (by apply lsn_text_no_colon).
  rewrite split_whole by (apply show_no_char; [done|lia]).
  assert (parse_i32 (show (operation c)) = Some (operation c)) as ->.
  { assert (operation c = 1 \/ operation c = 2 \/ operation c = 3 \/ operation c = 4) as [->|[->|[->| ->]]]
      by lia; done. }
  simpl. rewrite !lsn_roundtrip_opt by done. simpl. rewrite <-El, <-Es. by destruct c.
Qed.

Lemma saved_lsn (r : R) d : wf_stream (stream r) d ->
  lsn_from_source_offset (saved_position r)
  = Some (match stream_cursor (stream r) with Some c => cursor_lsn c | None => lsn_start (stream r) end).
Proof.
  intros [W1 _ W3]. unfold saved_position, lsn_from_source_offset.
  destruct (stream_cursor (stream r)) as [c|].
  - destruct (W3 c eq_refl) as [Hc _]. destruct (wf_cursor_rank c Hc) as (l & s & Hl & Hs & El & Es & Ec & _).
    unfold encode_cursor, show_i32. rewrite El. change (":" +:+ ?t) with (String ":" t).
    rewrite split_once_here by (by apply lsn_text_no_colon). by rewrite lsn_roundtrip_opt, Ec.
  - assert (split_once ":" (lsn_bytes_to_hex (lsn_start (stream r))) = None) as ->.
    { destruct (split_once ":" _) as [[a b]|] eqn:E; [|done]. apply split_once_spec in E as [E _].
      pose proof (lsn_text_no_colon (lsn_start (stream r)) W1) as H. rewrite E in H.
      change (String.append a (String ":" b)) with (a +:+ String ":" b) in H. by rewrite contains_char_mid in H. }
    by rewrite lsn_roundtrip_opt.
Qed.

Lemma resume_point_saved {JL : @JsonLaws JC} (r : R) d min start cur : wf_stream (stream r) d ->
  resume_point min (Some (saved_offset r)) = Ok (start, cur) ->
  cur = stream_cursor (stream r)
  /\ start = match cur with Some c => cursor_lsn c | None => lsn_start (stream r) end.
Proof.
  intros Hw. unfold resume_point. cbn [saved_offset source_type generic_dyn Offsets.source].
  rewrite String.eqb_refl. cbn [negb encode generic_dyn saved_offset bytes res_bind].
  assert (Hc : sqlserver_cursor_from_offset_bytes (print_json (JStr (saved_position r))) = Ok (saved_position r)).
  { unfold sqlserver_cursor_from_offset_bytes. by rewrite parse_print by done. }
  unfold sqlserver_resume_lsn_from_offset_bytes. rewrite Hc. cbn [res_bind].
  rewrite (saved_lsn r d Hw).
  intros E. cbn [res_bind] in E. destruct (is_lt _) in E; [done|]. injection E as <- <-.
  assert (decode_cursor (saved_position r) = stream_cursor (stream r)) as ->; [|done].
  destruct Hw as [W1 _ W3]. unfold saved_position. destruct (stream_cursor (stream r)) as [c|].
  - apply cursor_text_roundtrip. by destruct (W3 c eq_refl).
  - unfold decode_cursor. rewrite split_whole by (by apply lsn_text_no_colon). done.
Qed.

(** What a start leaves of the window a session began with. *)
Lemma start_resumes {JL : @JsonLaws JC} (r : R) d c r2 c' : wf_stream (stream r) d ->
  start_sqlserver_stream (Some (saved_offset r)) c = (Ok r2, c') ->
  resume_rank (stream r2) = resume_rank (stream r) /\ window_buffer r2 = []
  /\ pending_update_befores r2 = ∅ /\ config r2 = conn_config c.
Proof.
  intros Hw E. unfold start_sqlserver_stream in E.
  apply bind_inv in E as (u & c1 & E1 & E). assert (c1 = c) as ->.
  { unfold ensure_connected in E1. rewrite bind_gets in E1. destruct (connected _); [by injection E1 as _ <-|done]. }
  clear E1. rewrite bind_gets in E.
  apply bind_inv in E as (ms & c2 & _ & E). apply bind_inv in E as (found & c3 & _ & E).
  apply bind_inv in E as (min & c4 & _ & E). apply bind_inv in E as (hex & c5 & _ & E).
  apply bind_inv in E as (max & c6 & _ & E). apply bind_inv in E as ([start cur] & c7 & Es & E).
  apply bind_inv in E as (u2 & c8 & _ & E). apply bind_inv in E as (u3 & c9 & _ & E).
  rewrite bind_gets in E. injection E as <- <-. apply pair_equal_spec in Es as [Es _].
  destruct (resume_point_saved r d min start cur Hw Es) as [-> ->]. simpl.
  split_and!; [|done..]. unfold resume_rank. simpl. by destruct (stream_cursor (stream r)).
Qed.



End Delivery.

End SqlServerWindow.
