(* ===== verification/SqlServerSnapshot.v ===== *)
(** * SqlServerSnapshot: the initial snapshot of a SQL Server

    The snapshot half of the SQL Server connector ([src/src/source/sqlserver.rs], the SQL
    builders of [sqlserver/parser.rs], and [snapshot_start.rs], [snapshot_chunk.rs],
    [snapshot_fetch.rs] and [snapshot_finalize.rs] beside it): the tables loaded in a
    transaction, read in chunks behind a keyset cursor, checkpointed, resumed and finished;
    and the theorems on what a snapshot emits. *)

From S2P Require Import Prelude Errors CheckpointApi Strs Json Offsets Event Monad SqlServer SqlServerWindow.

Module SqlServerSnapshot.
Import SqlServer.

Local Open Scope string_scope.
Local Open Scope Z_scope.

(** ** The statements *)

Fixpoint join (sep : string) (l : list string) : string :=
  match l with
  | [] => ""
  | [x] => x
  | x :: l' => x +:+ sep +:+ join sep l'
  end.

Definition build_prefixed_column_projection (columns : list string) (alias : string) : string :=
  join ", " (map (fun c => alias +:+ "." +:+ quoted_identifier c) columns).

Definition param (index : nat) : string := "@P" +:+ show (Z.of_nat (S index)).

(** The predicate of the key column at [index]: equal before it, greater there. *)
Definition seek_predicate (primary_key_columns : list string) (index : nat) (column : string) : string :=
  let prefix := imap (fun prev c => "t." +:+ quoted_identifier c +:+ " = " +:+ param prev)
                  (take index primary_key_columns) in
  let current := "t." +:+ quoted_identifier column +:+ " > " +:+ param index in
  match prefix with
  | [] => "(" +:+ current +:+ ")"
  | _ => "(" +:+ join " AND " prefix +:+ " AND " +:+ current +:+ ")"
  end.

Definition build_seek_where_clause (primary_key_columns : list string) : string :=
  "WHERE " +:+ join " OR " (imap (seek_predicate primary_key_columns) primary_key_columns).

Definition where_clause (primary_key_columns : list string) (include_seek : bool)
    (condition : option string) : string :=
  match include_seek, condition with
  | true, Some c => build_seek_where_clause primary_key_columns +:+ " AND (" +:+ c +:+ ")"
  | true, None => build_seek_where_clause primary_key_columns
  | false, Some c => "WHERE (" +:+ c +:+ ")"
  | false, None => ""
  end.

Definition build_snapshot_fetch_sql (table_ref : string) (primary_key_columns column_names : list string)
    (limit_param_index : nat) (include_seek : bool) (condition : option string) : string :=
  "SELECT TOP (@P" +:+ show (Z.of_nat limit_param_index) +:+ ") (SELECT "
  +:+ build_prefixed_column_projection primary_key_columns "t"
  +:+ " FOR JSON PATH, WITHOUT_ARRAY_WRAPPER) AS cursor_json, (SELECT "
  +:+ build_prefixed_column_projection column_names "t"
  +:+ " FOR JSON PATH, WITHOUT_ARRAY_WRAPPER) AS row_json FROM " +:+ table_ref +:+ " AS t "
  +:+ where_clause primary_key_columns include_seek condition
  +:+ " ORDER BY " +:+ join ", " (map quoted_identifier primary_key_columns).

Definition build_snapshot_row_count_sql (schema table : string) : string :=
  "SELECT COUNT_BIG(1) FROM " +:+ qualified_table_name schema table.

(** ** State *)

Record TableSnapshot := {
  ts_table : string;
  total_rows : Z;
  rows_processed : Z;
  cursor_position : option string;
  ts_complete : bool;
}.

Record TableSnapshotState := {
  progress : TableSnapshot;
  tss_schema : string;
  tss_table : string;
  primary_key_columns : list string;
  column_names : list string;
}.

Record SqlServerSnapshot := {
  snap_lsn_start : LSN;
  snap_id : string;
  snap_tables : list TableSnapshot;
}.

Record SqlServerSnapshotHandle := {
  snapshot : SqlServerSnapshot;
  h_tables : list TableSnapshotState;
  has_client : bool;
  transaction_open : bool;
  current_table : nat;
  next_chunk_index : Z;
  emitted_rows : Z;
}.

(** A key value bound into the statement. *)
Inductive SqlServerCursorParam :=
| PBool (b : bool)
| PInt (n : Z)
| PFloat (n : number)
| PText (s : string).

(** The chunk query: its statement, the key it starts after and the limit. *)
Record ChunkQuery := {
  cq_sql : string;
  cq_params : option (list SqlServerCursorParam);
  cq_limit : Z;
}.

Class SnapshotServer (D : Type) := {
  open_client : M D unit;
  run_statement : string -> M D (option string);   (* the error's text, if any *)
  table_columns : string -> string -> M D (list (option string));
  table_key_columns : string -> string -> M D (list (option string));
  count_rows : string -> M D (option Z);
  chunk_rows : ChunkQuery -> M D (list (option string * option string));
}.

(** [serde_json]'s numbers: the value as [i64], if it is one. *)
Definition as_i64 (n : number) : option Z :=
  match n with
  | PosInt k => if Z.of_N k <=? 2 ^ 63 - 1 then Some (Z.of_N k) else None
  | NegInt k => Some k
  | Float _ => None
  end.

Definition sqlserver_json_value_to_param (v : json) : Res SqlServerCursorParam :=
  match v with
  | JNull => Err (CheckpointError "sqlserver snapshot cursor does not support NULL primary key values")
  | JBool b => Ok (PBool b)
  | JNum n =>
      match as_i64 n, n with
      | Some k, _ => Ok (PInt k)
      | None, Float _ => Ok (PFloat n)
      | None, _ => Err (CheckpointError "sqlserver snapshot cursor integer exceeds i64")
      end
  | JStr t => Ok (PText t)
  | JArr _ | JObj _ => Err (CheckpointError "sqlserver snapshot cursor only supports scalar PK values")
  end.

Section Handle.
Context `{JsonCodec} `{RawJson} {D : Type} `{SnapshotServer D}.

Definition cursor_decode_error : Error := CheckpointError "sqlserver snapshot cursor decode failed".

(** The key values of a saved cursor, an array or an object of the key columns. *)
Definition cursor_params (key : list string) (raw_cursor : string) : Res (list SqlServerCursorParam) :=
  values <-? match parse_json (list_byte_of_string raw_cursor) with
             | Some (JArr vs) => Ok vs
             | Some (JObj m) => Ok (map (fun c => default JNull (obj_get c m)) key)
             | _ => Err cursor_decode_error
             end;
  if negb (length values =? length key)%nat then
    Err (CheckpointError "sqlserver snapshot cursor width mismatch")
  else map_res sqlserver_json_value_to_param values.

Definition decode_chunk_row (r : option string * option string) : Res (string * json) :=
  cursor_json <-? need "sqlserver snapshot row missing cursor_json" (fst r);
  row_json <-? need "sqlserver snapshot row missing row_json" (snd r);
  match decode_row_json_as_text row_json with
  | Ok fields => Ok (cursor_json, JObj (obj_of fields))
  | Err _ => Err (SerializationError "sqlserver snapshot JSON parse failed")
  | Panic => Panic
  end.

(** [LiveSqlServerSnapshotRowFetcher::fetch_keyset_rows]; a handle without a client has the
    disconnected fetcher. *)
Definition fetch_keyset_rows (connected : bool) (t : TableSnapshotState) (cursor : option string)
    (limit : nat) : M D (list (string * json)) :=
  if negb connected then
    throw (StateError "sqlserver snapshot handle is missing an active row fetcher")
  else match primary_key_columns t with
  | [] => throw (SourceError "sqlserver snapshot requires a PRIMARY KEY for keyset pagination")
  | key =>
      params ← of_res (match cursor with
                       | Some raw => ps <-? cursor_params key raw; Ok (Some ps)
                       | None => Ok None
                       end);
      if Z.of_nat limit <=? 2 ^ 63 - 1 then
        rows ← chunk_rows
          {| cq_sql := build_snapshot_fetch_sql (qualified_table_name (tss_schema t) (tss_table t)) key
                         (column_names t) (S (length (default [] params)))
                         (bool_decide (is_Some params)) None;
             cq_params := params; cq_limit := Z.of_nat limit |};
        of_res (map_res decode_chunk_row rows)
      else throw (SourceError "sqlserver snapshot chunk size exceeds i64")
  end.

(** *** Chunks *)

Definition with_progress (p : TableSnapshot) (t : TableSnapshotState) : TableSnapshotState :=
  {| progress := p; tss_schema := tss_schema t; tss_table := tss_table t;
     primary_key_columns := primary_key_columns t; column_names := column_names t |}.

Definition completed (p : TableSnapshot) : TableSnapshot :=
  {| ts_table := ts_table p; total_rows := total_rows p; rows_processed := rows_processed p;
     cursor_position := cursor_position p; ts_complete := true |}.

Definition with_tables (ts : list TableSnapshotState) (cur : nat) (emitted : Z)
    (h : SqlServerSnapshotHandle) : SqlServerSnapshotHandle :=
  {| snapshot := snapshot h; h_tables := ts; has_client := has_client h;
     transaction_open := transaction_open h; current_table := cur;
     next_chunk_index := next_chunk_index h; emitted_rows := emitted |}.

Definition sync_snapshot_tables (h : SqlServerSnapshotHandle) : SqlServerSnapshotHandle :=
  {| snapshot := {| snap_lsn_start := snap_lsn_start (snapshot h); snap_id := snap_id (snapshot h);
                    snap_tables := map progress (h_tables h) |};
     h_tables := h_tables h; has_client := has_client h; transaction_open := transaction_open h;
     current_table := current_table h; next_chunk_index := next_chunk_index h;
     emitted_rows := emitted_rows h |}.

Definition h_is_complete (h : SqlServerSnapshotHandle) : bool :=
  forallb (fun t => ts_complete (progress t)) (h_tables h).

Definition total_expected_rows (h : SqlServerSnapshotHandle) : Z :=
  fold_right Z.add 0 (map (fun t => total_rows (progress t)) (h_tables h)).

Definition row_event (now : Z) (h : SqlServerSnapshotHandle) (t : TableSnapshotState)
    (cursor_json : string) (row_json : json) : Event :=
  {| Event.before := None; Event.after := Some row_json; Event.op := Event.Read;
     Event.source := {| Event.source_name := "sqlserver";
                        Event.offset := lsn_bytes_to_hex (snap_lsn_start (snapshot h)) +:+ ":" +:+ cursor_json;
                        Event.timestamp := now |};
     Event.ts := now; Event.schema := Some (tss_schema t); Event.table := tss_table t;
     Event.primary_key := match primary_key_columns t with [] => None | l => Some l end;
     Event.snapshot := Some {| Event.snapshot_id := snap_id (snapshot h);
                               Event.chunk_index := next_chunk_index h; Event.is_last_chunk := false |};
     Event.transaction := None; Event.envelope_version := Event.EVENT_ENVELOPE_VERSION;
     Event.before_is_key_only := false; Event.unavailable_columns := [];
     Event.before_unavailable_columns := [] |}.

(** The progress after a row. *)
Definition row_done (p : TableSnapshot) (cursor_json : string) : TableSnapshot :=
  {| ts_table := ts_table p; total_rows := total_rows p;
     rows_processed := saturating_add (rows_processed p) 1;
     cursor_position := Some cursor_json; ts_complete := ts_complete p |}.

Definition rows_done (p : TableSnapshot) (rows : list (string * json)) : TableSnapshot :=
  fold_left (fun p r => row_done p (fst r)) rows p.

(** The loop of a chunk: each turn finishes a table or takes at least a row, so as many
    turns as rows wanted and tables left are enough. *)
Fixpoint chunk_loop (fuel : nat) (now : Z) (requested : nat) (events : list Event)
    (h : SqlServerSnapshotHandle) : D -> Res (list Event) * (SqlServerSnapshotHandle * D) := fun d =>
  match fuel with
  | O => (Ok events, (h, d))
  | S fuel' =>
      if (length events <? requested)%nat then
        match h_tables h !! current_table h with
        | None => (Ok events, (h, d))
        | Some t =>
            let next := S (current_table h) in
            let put p cur n := with_tables (<[current_table h := with_progress p t]> (h_tables h)) cur n h in
            if ts_complete (progress t) then
              chunk_loop fuel' now requested events (with_tables (h_tables h) next (emitted_rows h) h) d
            else
              match fetch_keyset_rows (has_client h) t (cursor_position (progress t))
                      (requested - length events) d with
              | (Ok [], d') =>
                  chunk_loop fuel' now requested events
                    (put (completed (progress t)) next (emitted_rows h)) d'
              | (Ok rows, d') =>
                  let p := rows_done (progress t) rows in
                  let emitted := fold_left (fun n _ => saturating_add n 1) rows (emitted_rows h) in
                  let events' := (events ++ map (fun r => row_event now h t (fst r) (snd r)) rows)%list in
                  if total_rows p <=? rows_processed p then
                    chunk_loop fuel' now requested events' (put (completed p) next emitted) d'
                  else chunk_loop fuel' now requested events' (put p (current_table h) emitted) d'
              | (Err e, d') => (Err e, (h, d'))
              | (Panic, d') => (Panic, (h, d'))
              end
        end
      else (Ok events, (h, d))
  end.

Definition mark_last (e : Event) : Event :=
  {| Event.before := Event.before e; Event.after := Event.after e; Event.op := Event.op e;
     Event.source := Event.source e; Event.ts := Event.ts e; Event.schema := Event.schema e;
     Event.table := Event.table e; Event.primary_key := Event.primary_key e;
     Event.snapshot :=
       match Event.snapshot e with
       | Some m => Some {| Event.snapshot_id := Event.snapshot_id m;
                           Event.chunk_index := Event.chunk_index m; Event.is_last_chunk := true |}
       | None => None
       end;
     Event.transaction := Event.transaction e; Event.envelope_version := Event.envelope_version e;
     Event.before_is_key_only := Event.before_is_key_only e;
     Event.unavailable_columns := Event.unavailable_columns e;
     Event.before_unavailable_columns := Event.before_unavailable_columns e |}.

Definition mark_last_event (events : list Event) : list Event :=
  match last events with
  | Some e => (take (pred (length events)) events ++ [mark_last e])%list
  | None => events
  end.

Definition bump_chunk (h : SqlServerSnapshotHandle) : SqlServerSnapshotHandle :=
  {| snapshot := snapshot h; h_tables := h_tables h; has_client := has_client h;
     transaction_open := transaction_open h; current_table := current_table h;
     next_chunk_index := Z.min (next_chunk_index h + 1) u32_max; emitted_rows := emitted_rows h |}.

Definition next_sqlserver_snapshot_chunk (now : Z) (chunk_size : nat)
    : M (SqlServerSnapshotHandle * D) (list Event) := fun '(h, d) =>
  if h_is_complete h then (Ok [], (h, d))
  else
    let requested := match chunk_size with O => 1000%nat | _ => chunk_size end in
    match chunk_loop (requested + length (h_tables h)) now requested [] h d with
    | (Ok [], (h', d')) => (Ok [], (sync_snapshot_tables h', d'))
    | (Ok events, (h', d')) =>
        (Ok (if h_is_complete h' then mark_last_event events else events),
         (sync_snapshot_tables (bump_chunk h'), d'))
    | (r, s) => (r, s)
    end.

(** *** Checkpoint and resume *)

(** [w] bytes, most significant first. *)
Fixpoint be_bytes (w : nat) (n : Z) : list Z :=
  match w with
  | O => []
  | S w' => n / 256 ^ Z.of_nat w' :: be_bytes w' (n mod 256 ^ Z.of_nat w')
  end.

(** [serde]'s form of a byte array. *)
Definition lsn_json (l : LSN) : json := JArr (map jnat (be_bytes 10 l)).

Definition lsn_of_json (v : json) : option LSN :=
  l ← as_array v;
  bytes ← traverse (as_uint 255) l;
  if (length bytes =? 10)%nat then Some (fold_left (fun acc b => acc * 256 + b) bytes 0) else None.

Definition table_snapshot_json (t : TableSnapshot) : json :=
  JObj [("table", JStr (ts_table t)); ("total_rows", jnat (total_rows t));
        ("rows_processed", jnat (rows_processed t));
        ("cursor_position", jopt JStr (cursor_position t)); ("is_complete", JBool (ts_complete t))].

Definition table_snapshot_from_json (v : json) : option TableSnapshot :=
  m ← as_object v;
  t ← field "table" as_str m;
  n ← field "total_rows" (as_uint u64_max) m;
  p ← field "rows_processed" (as_uint u64_max) m;
  c ← field_or "cursor_position" None (as_opt as_str) m;
  d ← field "is_complete" as_bool m;
  Some {| ts_table := t; total_rows := n; rows_processed := p; cursor_position := c; ts_complete := d |}.

Record SqlServerSnapshotCheckpointState := {
  cp_snapshot_id : string;
  cp_lsn_start : LSN;
  cp_current_table : nat;
  cp_next_chunk_index : Z;
  cp_tables : list TableSnapshot;
}.

Definition checkpoint_state_json (s : SqlServerSnapshotCheckpointState) : json :=
  JObj [("snapshot_id", JStr (cp_snapshot_id s)); ("lsn_start", lsn_json (cp_lsn_start s));
        ("current_table", jnat (Z.of_nat (cp_current_table s)));
        ("next_chunk_index", jnat (cp_next_chunk_index s));
        ("tables", JArr (map table_snapshot_json (cp_tables s)))].

Definition checkpoint_state_from_json (v : json) : option SqlServerSnapshotCheckpointState :=
  m ← as_object v;
  i ← field "snapshot_id" as_str m;
  l ← field "lsn_start" lsn_of_json m;
  c ← field "current_table" (as_uint u64_max) m;
  n ← field "next_chunk_index" (as_uint u32_max) m;
  ts ← field "tables" (fun v => l ← as_array v; traverse table_snapshot_from_json l) m;
  Some {| cp_snapshot_id := i; cp_lsn_start := l; cp_current_table := Z.to_nat c;
          cp_next_chunk_index := n; cp_tables := ts |}.

Definition checkpoint_state (h : SqlServerSnapshotHandle) : SqlServerSnapshotCheckpointState :=
  {| cp_snapshot_id := snap_id (snapshot h); cp_lsn_start := snap_lsn_start (snapshot h);
     cp_current_table := current_table h; cp_next_chunk_index := next_chunk_index h;
     cp_tables := map progress (h_tables h) |}.

Definition snapshot_offset (h : SqlServerSnapshotHandle) : DynOffset :=
  generic_dyn {| Offsets.source := "sqlserver_snapshot";
                 bytes := print_json (checkpoint_state_json (checkpoint_state h)) |}.

Definition checkpoint_sqlserver_snapshot {C} `{Checkpoint C} (h : SqlServerSnapshotHandle) (count : Z)
    (c : C) : Res unit * C :=
  save (snapshot_offset h) count c.

Definition resume_from_checkpoint_payload (h : SqlServerSnapshotHandle) (payload : list byte)
    : Res SqlServerSnapshotHandle :=
  match parse_json payload ≫= checkpoint_state_from_json with
  | None => Err (SerializationError "invalid sqlserver snapshot checkpoint")
  | Some st =>
      if negb (length (cp_tables st) =? length (h_tables h))%nat then
        Err (CheckpointError "sqlserver snapshot checkpoint table count does not match snapshot handle")
      else
        let tables := zip_with with_progress (cp_tables st) (h_tables h) in
        Ok (sync_snapshot_tables
          {| snapshot := {| snap_lsn_start := cp_lsn_start st; snap_id := cp_snapshot_id st;
                            snap_tables := snap_tables (snapshot h) |};
             h_tables := tables; has_client := has_client h; transaction_open := transaction_open h;
             current_table := cp_current_table st; next_chunk_index := cp_next_chunk_index st;
             emitted_rows := fold_left (fun n p => saturating_add n (rows_processed p)) (cp_tables st) 0 |})
  end.

(** *** Finish *)

Definition close_transaction (h : SqlServerSnapshotHandle) : SqlServerSnapshotHandle :=
  {| snapshot := snapshot h; h_tables := h_tables h; has_client := has_client h;
     transaction_open := false; current_table := current_table h;
     next_chunk_index := next_chunk_index h; emitted_rows := emitted_rows h |}.

Definition finish_sqlserver_snapshot (now : Z) : M (SqlServerSnapshotHandle * D) Z := fun '(h, d) =>
  let processed := fold_right Z.add 0 (map (fun t => rows_processed (progress t)) (h_tables h)) in
  if negb (processed =? emitted_rows h) then
    (Err (SourceError "sqlserver snapshot consistency check failed: emitted_rows differs"), (h, d))
  else if negb (processed =? total_expected_rows h) then
    (Err (SourceError "sqlserver snapshot consistency check failed: not all rows were emitted"), (h, d))
  else if transaction_open h then
    if negb (has_client h) then
      (Err (StateError "sqlserver snapshot handle is missing an active transaction client"), (h, d))
    else match run_statement "COMMIT TRANSACTION" d with
    | (Ok None, d') => (Ok now, (close_transaction h, d'))
    | (Ok (Some _), d') => (Err (SourceError "sqlserver snapshot transaction commit failed"), (h, d'))
    | (Err e, d') => (Err e, (h, d'))
    | (Panic, d') => (Panic, (h, d'))
    end
  else (Ok now, (h, d)).

(** *** Start *)

Definition filter_some {A} (l : list (option A)) : list A := omap id l.

Fixpoint load_snapshot_tables (entries : list string) : M D (list TableSnapshotState) :=
  match entries with
  | [] => mret []
  | entry :: entries' =>
      st ← of_res (parse_schema_table entry);
      let '(schema, table) := st in
      cols ← table_columns schema table;
      match filter_some cols with
      | [] => throw (SourceError "sqlserver snapshot table has no columns")
      | column_names =>
          keys ← table_key_columns schema table;
          match filter_some keys with
          | [] => throw (SourceError "sqlserver snapshot requires a PRIMARY KEY")
          | key =>
              count ← count_rows (build_snapshot_row_count_sql schema table);
              total ← of_res (n <-? need "sqlserver snapshot row count returned no value" count;
                              if n <? 0 then Err (SourceError "sqlserver snapshot row count was negative")
                              else Ok n);
              rest ← load_snapshot_tables entries';
              mret ({| progress := {| ts_table := schema +:+ "." +:+ table; total_rows := total;
                                      rows_processed := 0; cursor_position := None;
                                      ts_complete := total =? 0 |};
                       tss_schema := schema; tss_table := table; primary_key_columns := key;
                       column_names := column_names |} :: rest)
          end
      end
  end.

Definition load_tables (entries : list string) : M D (list TableSnapshotState) :=
  match entries with
  | [] => throw (ConfigError "sqlserver snapshot requires at least one table")
  | _ => load_snapshot_tables entries
  end.

(** Whether a transaction is open. *)
Definition begin_snapshot_transaction : M D bool :=
  failed ← run_statement "SET TRANSACTION ISOLATION LEVEL SNAPSHOT";
  (match failed with
   | None => mret tt
   | Some _ =>
       failed ← run_statement "SET TRANSACTION ISOLATION LEVEL SERIALIZABLE";
       match failed with
       | None => mret tt
       | Some _ => throw (SourceError "sqlserver failed to configure snapshot isolation level")
       end
   end);;
  failed ← run_statement "BEGIN TRANSACTION";
  match failed with
  | None => mret true
  | Some text =>
      if contains_str "code: 266" text then mret false
      else throw (SourceError "sqlserver failed to start consistent snapshot transaction")
  end.

Definition new_handle (lsn : LSN) (id : string) (ts : list TableSnapshotState) (open : bool)
    : SqlServerSnapshotHandle :=
  {| snapshot := {| snap_lsn_start := lsn; snap_id := id; snap_tables := map progress ts |};
     h_tables := ts; has_client := true; transaction_open := open; current_table := 0%nat;
     next_chunk_index := 0; emitted_rows := 0 |}.

Definition set_snapshot_start (l : LSN) (st : ConnectionState) : ConnectionState :=
  {| connected := connected st; heartbeat_task := heartbeat_task st;
     snapshot_lsn_start := Some l; stream_lsn_start := stream_lsn_start st |}.

(** On the connection's state; [max_lsn] is the answer of its maximum LSN query. *)
Definition start_sqlserver_snapshot_internal (now : Z) (max_lsn : M D string) (tables : list string)
    (resume_from : option DynOffset)
    : M (ConnectionState * D) SqlServerSnapshotHandle := fun '(st, d) =>
  if match resume_from with Some o => negb (String.eqb (source_type o) "sqlserver_snapshot") | None => false end
  then (Err (CheckpointError "cannot resume sqlserver snapshot from another source type"), (st, d))
  else if negb (connected st) then
    (Err (StateError "sqlserver connection must be established before starting stream"), (st, d))
  else
    let '(r, d') :=
      (hex ← max_lsn;
       lsn ← of_res (lsn_hex_to_bytes hex);
       open_client;;
       open ← begin_snapshot_transaction;
       ts ← catch (load_tables tables)
              (fun e => (if open then run_statement "ROLLBACK TRANSACTION";; mret tt else mret tt);; throw e);
       let h := new_handle lsn ("sqlserver-snapshot-" +:+ show now) ts open in
       of_res (match resume_from with
               | Some o => payload <-? encode o; resume_from_checkpoint_payload h payload
               | None => Ok h
               end)) d in
    match r with
    | Ok h => (Ok h, (set_snapshot_start (snap_lsn_start (snapshot h)) st, d'))
    | Err e => (Err e, (st, d'))
    | Panic => (Panic, (st, d'))
    end.

End Handle.

(** ** Names *)

(** A name a bracketed identifier can carry. *)
Definition plain_name (s : string) : Prop :=
  s <> "" /\ all_chars (fun a => negb (is_control a)) s = true.

Lemma brackets_read s : forall cur rest,
  match rest with String "]" _ => False | _ => True end ->
  identifier_path cur true true (double_brackets s +:+ "]" +:+ rest)
  = identifier_path (cur +:+ s) false true rest.
Proof.
  induction s as [|a s IH]; intros cur rest Hr; cbn [double_brackets].
  - change ("" +:+ "]" +:+ rest) with (String "]" rest). rewrite append_nil_r. cbn [identifier_path].
    change (Ascii.eqb "]" "]") with true. cbn iota. destruct rest as [|b rest]; [done|].
    destruct (Ascii.eqb_spec b "]") as [->|]; [done|done].
  - replace (cur +:+ String a s) with ((cur +:+ String a "") +:+ s) by (by rewrite append_assoc_r).
    destruct (Ascii.eqb_spec a "]") as [->|Ha].
    + change (String "]" (String "]" (double_brackets s)) +:+ ?t)
        with (String "]" (String "]" (double_brackets s +:+ t))).
      cbn [identifier_path]. change (Ascii.eqb "]" "]") with true. cbn iota. by apply IH.
    + change (String a (double_brackets s) +:+ ?t) with (String a (double_brackets s +:+ t)).
      cbn [identifier_path]. rewrite (proj2 (Ascii.eqb_neq a "]") Ha). by apply IH.
Qed.

Lemma bracketed_path s rest : plain_name s ->
  match rest with String "]" _ => False | _ => True end ->
  identifier_path "" false false (quoted_identifier s +:+ rest)
  = identifier_path s false true rest.
Proof.
  intros Hs Hr. unfold quoted_identifier. rewrite !append_assoc_r.
  change ("[" +:+ ?t) with (String "[" t). cbn [identifier_path].
  change (is_empty (trim "")) with true. change (Ascii.eqb "[" "[") with true. cbn iota.
  by rewrite brackets_read.
Qed.

Lemma quoted_segment s : plain_name s -> finalize_sqlserver_identifier_segment s true = Ok s.
Proof.
  intros [Hne Hc]. unfold finalize_sqlserver_identifier_segment. rewrite Hc. by destruct s.
Qed.

Lemma trim_bracketed a s : is_whitespace a = false -> s <> "" -> trim_end s = s ->
  trim (String a s) = String a s.
Proof.
  intros Ha Hs Ht. unfold trim. assert (trim_start (String a s) = String a s) as ->.
  { cbn [trim_start]. by rewrite Ha. }
  change (String a s) with (String a "" +:+ s). by apply trim_end_app.
Qed.

(** A table's quoted name reads back as the table.  For names that are not empty and
    hold no control character, whatever brackets and dots they contain,
    [parse_schema_table] inverts [qualified_table_name]. *)
Theorem qualified_name_roundtrip schema table : plain_name schema -> plain_name table ->
  parse_schema_table (qualified_table_name schema table) = Ok (schema, table).
Proof.
  intros Hs Ht. unfold parse_schema_table, qualified_table_name.
  assert (Htrim : trim (quoted_identifier schema +:+ "." +:+ quoted_identifier table)
                  = quoted_identifier schema +:+ "." +:+ quoted_identifier table).
  { unfold quoted_identifier. rewrite !append_assoc_r. change ("[" +:+ ?t) with (String "[" t) at 1 4.
    apply trim_bracketed; [done|by destruct (double_brackets schema)|].
    rewrite <-!append_assoc_r. by apply trim_end_app. }
  rewrite Htrim. unfold parse_sqlserver_identifier_path.
  rewrite bracketed_path by done. change ("." +:+ ?t) with (String "." t).
  assert (Hdot : identifier_path schema false true (String "." (quoted_identifier table)) = Ok [schema; table]).
  { cbn [identifier_path]. change (Ascii.eqb "." "[") with false. change (Ascii.eqb "." ".") with true.
    cbn iota. rewrite quoted_segment by done. cbn [res_bind].
    rewrite <-(append_nil_r (quoted_identifier table)), bracketed_path by done.
    cbn [identifier_path]. by rewrite quoted_segment. }
  rewrite Hdot. unfold quoted_identifier. by rewrite !append_assoc_r.
Qed.

Lemma qualified_name_roundtrip_witness :
  parse_schema_table (qualified_table_name "dbo" "a].b") = Ok ("dbo", "a].b").
Proof. apply qualified_name_roundtrip; by split. Defined.

(** ** The filter of a chunk *)

(** The pieces of a clause between separators that no parenthesis encloses. *)
Fixpoint pieces (sep : string) (depth : nat) (current : string) (skip : nat) (s : string) : list string :=
  match s with
  | "" => [current]
  | String a s' =>
      match skip with
      | S n => pieces sep depth current n s'
      | O =>
          if (depth =? 0)%nat && starts_with sep s then
            current :: pieces sep depth "" (pred (String.length sep)) s'
          else
            let depth' := if Ascii.eqb a "(" then S depth else if Ascii.eqb a ")" then pred depth else depth in
            pieces sep depth' (current +:+ String a "") 0 s'
      end
  end.

(** A clause under the precedence of SQL, [AND] before [OR], with a truth value for each
    parenthesised predicate. *)
Definition clause_holds (truth : string -> bool) (clause : string) : bool :=
  existsb (fun disjunct => forallb truth (pieces " AND " 0 "" 0 disjunct)) (pieces " OR " 0 "" 0 clause).

(** A chunk filter on a composite key filters only the last alternative of the seek.
    The clause appends the filter to alternatives that no parenthesis groups, so with a key
    of two columns every row past the cursor's first column is read, whether or not it
    satisfies the filter; with a key of one column the filter binds as meant. *)
Theorem chunk_filter_binds_last_alternative (truth : string -> bool) :
  let body s := default "" (strip_prefix "WHERE " s) in
  let past_a := truth "(t.[a] > @P1)" in
  let past_b := truth "(t.[a] = @P1 AND t.[b] > @P2)" in
  let filter := truth "(tenant = 7)" in
  clause_holds truth (body (where_clause ["a"; "b"] true (Some "tenant = 7"))) = past_a || (past_b && filter)
  /\ clause_holds truth (body (where_clause ["a"] true (Some "tenant = 7"))) = past_a && filter.
Proof.
  vm_compute.
  by destruct (truth "(t.[a] > @P1)"), (truth "(t.[a] = @P1 AND t.[b] > @P2)"), (truth "(tenant = 7)").
Qed.

(** ** What a snapshot emits *)

(** What a table is, without its progress. *)
Definition same_table (a b : TableSnapshotState) : Prop :=
  tss_schema a = tss_schema b /\ tss_table a = tss_table b
  /\ primary_key_columns a = primary_key_columns b /\ column_names a = column_names b.

Section Emission.
Context `{JC : JsonCodec} `{RJ : RawJson} {D : Type} `{SV : SnapshotServer D}.
(** The rows of a table in key order: the text of the key and of the row. *)
Variable content : string -> string -> list (string * string).
(** The tables of the snapshot. *)
Variable catalog : list TableSnapshotState.
Definition known (t : TableSnapshotState) : Prop := Exists (same_table t) catalog.

Definition row_value (text : string) : json :=
  match decode_row_json_as_text text with Ok fields => JObj (obj_of fields) | _ => JNull end.

Definition rows_of (t : TableSnapshotState) : list (string * json) :=
  map (fun r => (fst r, row_value (snd r))) (content (tss_schema t) (tss_table t)).

(** The key parameters of a query that starts at row [i]. *)
Definition starts_at (t : TableSnapshotState) (params : option (list SqlServerCursorParam)) (i : nat) : Prop :=
  match i, params with
  | O, None => True
  | S j, Some ps => exists c r, content (tss_schema t) (tss_table t) !! j = Some (c, r)
                      /\ cursor_params (primary_key_columns t) c = Ok ps
  | _, _ => False
  end.

Definition chunk_query (t : TableSnapshotState) (params : option (list SqlServerCursorParam)) (limit : nat)
    : ChunkQuery :=
  {| cq_sql := build_snapshot_fetch_sql (qualified_table_name (tss_schema t) (tss_table t))
                 (primary_key_columns t) (column_names t) (S (length (default [] params)))
                 (bool_decide (is_Some params)) None;
     cq_params := params; cq_limit := Z.of_nat limit |}.

(** The snapshot transaction shows each table unchanged: the statement of a chunk answers
    with the rows after the key, in key order, up to the limit. *)
Hypothesis Hchunk : forall t params limit i d rows d',
  known t -> starts_at t params i -> chunk_rows (chunk_query t params limit) d = (Ok rows, d') ->
  rows = map (fun r => (Some (fst r), Some (snd r))) (take limit (drop i (content (tss_schema t) (tss_table t)))).

(** The cursor after [n] rows. *)
Definition cursor_at (t : TableSnapshotState) (n : nat) : option string :=
  match n with O => None | S j => fst <$> content (tss_schema t) (tss_table t) !! j end.

(** A table of which [n] rows are read. *)
Definition at_row (t : TableSnapshotState) (n : nat) : Prop :=
  let size := length (rows_of t) in
  (n <= size)%nat /\
  progress t = {| ts_table := ts_table (progress t); total_rows := Z.of_nat size;
                  rows_processed := Z.of_nat n; cursor_position := cursor_at t n;
                  ts_complete := (n =? size)%nat |}.

Lemma map_res_decode l rows : map_res decode_chunk_row (map (fun r => (Some (fst r), Some (snd r))) l) = Ok rows ->
  rows = map (fun r => (fst r, row_value (snd r))) l.
Proof.
  revert rows. induction l as [|[c r] l IH]; intros rows E; simpl in E; [by simplify_eq|].
  unfold decode_chunk_row in E at 1. simpl in E. simpl. unfold row_value at 1.
  destruct (decode_row_json_as_text r) as [fs| |]; [|done..]. simpl in E.
  destruct (map_res _ _) as [ys| |] eqn:Ey; [|done..]. simpl in E. simplify_eq. by rewrite (IH ys).
Qed.

Lemma fetch_after t n limit d rows d' : known t -> at_row t n ->
  fetch_keyset_rows true t (cursor_position (progress t)) limit d = (Ok rows, d') ->
  rows = take limit (drop n (rows_of t)).
Proof.
  intros Hkn [Hn Hp] E. rewrite Hp in E. cbn [cursor_position] in E. unfold fetch_keyset_rows in E. cbn [negb] in E.
  destruct (primary_key_columns t) as [|k0 key] eqn:Ek; [done|].
  apply bind_inv in E as (params & d0 & Ep & E). apply pair_equal_spec in Ep as [Ep <-].
  assert (Hs : starts_at t params n).
  { unfold cursor_at in Ep. destruct n as [|j]; simpl in Ep; [by simplify_eq|].
    unfold rows_of in Hn. rewrite length_map in Hn.
    destruct (lookup_lt_is_Some_2 (content (tss_schema t) (tss_table t)) j ltac:(lia)) as [[c r] Hc].
    rewrite Hc in Ep. simpl in Ep. destruct (cursor_params (k0 :: key) c) as [ps| |] eqn:Ec; [|done..].
    simpl in Ep. simplify_eq. exists c, r. by rewrite Ek. }
  destruct (Z.of_nat limit <=? 2 ^ 63 - 1); [|done]. apply bind_inv in E as (raw & d1 & Eq & E).
  rewrite <-Ek in Eq. change {| cq_sql := _; cq_params := _; cq_limit := _ |} with (chunk_query t params limit) in Eq.
  apply (Hchunk _ _ _ n) in Eq; [|done|done]. apply pair_equal_spec in E as [E _]. subst raw.
  apply map_res_decode in E. subst rows. unfold rows_of. by rewrite skipn_map, firstn_map.
Qed.

(** *** The rows of a set of tables *)

Definition tag (t : TableSnapshotState) (r : string * json) : string * string * json :=
  (tss_schema t, tss_table t, snd r).
Definition shown (e : Event) : string * string * json :=
  (default "" (Event.schema e), Event.table e, default JNull (Event.after e)).

Definition read_count (t : TableSnapshotState) : nat := Z.to_nat (rows_processed (progress t)).
Definition read_rows (t : TableSnapshotState) := map (tag t) (take (read_count t) (rows_of t)).
Definition emitted (ts : list TableSnapshotState) := flat_map read_rows ts.
Definition all_rows (ts : list TableSnapshotState) := flat_map (fun t => map (tag t) (rows_of t)) ts.

Definition done (t : TableSnapshotState) : Prop := at_row t (length (rows_of t)).
Definition fresh (t : TableSnapshotState) : Prop := at_row t 0.

(** Tables before the current one are read, those after it are not begun. *)
Definition staged (ts : list TableSnapshotState) (cur : nat) : Prop :=
  exists pre post, ts = (pre ++ post)%list /\ length pre = cur /\ Forall done pre
    /\ match post with [] => True | t :: post' => (exists n, at_row t n) /\ Forall fresh post' end.

Lemma at_row_count t n : at_row t n -> read_count t = n /\ ts_complete (progress t) = (n =? length (rows_of t))%nat.
Proof. intros [_ Hp]. unfold read_count. rewrite Hp. simpl. split; [lia|done]. Qed.

Lemma emitted_done ts : Forall done ts -> emitted ts = all_rows ts.
Proof.
  induction 1 as [|t ts Ht _ IH]; [done|]. unfold emitted, all_rows in *. simpl. rewrite IH. f_equal.
  unfold read_rows. destruct (at_row_count _ _ Ht) as [-> _]. by rewrite take_ge.
Qed.

Lemma emitted_fresh ts : Forall fresh ts -> emitted ts = [].
Proof.
  induction 1 as [|t ts Ht _ IH]; [done|]. unfold emitted in *. simpl. rewrite IH, app_nil_r.
  unfold read_rows. by destruct (at_row_count _ _ Ht) as [-> _].
Qed.

Lemma flat_map_app' {A B} (f : A -> list B) l1 l2 : flat_map f (l1 ++ l2) = (flat_map f l1 ++ flat_map f l2)%list.
Proof. apply flat_map_app. Qed.

Lemma emitted_staged ts cur : staged ts cur -> exists rest, all_rows ts = (emitted ts ++ rest)%list.
Proof.
  intros (pre & post & -> & _ & Hpre & Hpost). unfold all_rows, emitted. rewrite !flat_map_app'.
  fold (emitted pre) (all_rows pre). rewrite emitted_done by done.
  destruct post as [|t post]; [exists []; by rewrite !app_nil_r|].
  destruct Hpost as [[n Hn] Hf]. simpl. fold (emitted post) (all_rows post).
  rewrite (emitted_fresh post Hf), app_nil_r. unfold read_rows.
  exists (map (tag t) (drop (read_count t) (rows_of t)) ++ all_rows post)%list.
  rewrite <-app_assoc, (app_assoc (map (tag t) _)), <-map_app, take_drop. done.
Qed.

Lemma insert_middle {A} (pre : list A) x y post :
  <[length pre := y]> (pre ++ x :: post)%list = (pre ++ y :: post)%list.
Proof. induction pre as [|z pre IH]; simpl; [done|]. by rewrite IH. Qed.

Lemma lookup_middle {A} (pre : list A) post : (pre ++ post)%list !! length pre = head post.
Proof. induction pre as [|z pre IH]; simpl; [by destruct post|done]. Qed.

Lemma rows_done_spec rows : forall p, 0 <= rows_processed p ->
  rows_processed p + Z.of_nat (length rows) <= u64_max ->
  rows_done p rows
  = {| ts_table := ts_table p; total_rows := total_rows p;
       rows_processed := rows_processed p + Z.of_nat (length rows);
       cursor_position := match last rows with Some r => Some (fst r) | None => cursor_position p end;
       ts_complete := ts_complete p |}.
Proof.
  induction rows as [|r rows IH]; intros p H0 Hp.
  - destruct p; simpl. f_equal. lia.
  - unfold rows_done in *. cbn [fold_left length] in *.
    assert (Hs : saturating_add (rows_processed p) 1 = rows_processed p + 1) by (unfold saturating_add; lia).
    rewrite IH; cbn [row_done rows_processed]; rewrite ?Hs; [|lia..].
    f_equal; [lia|]. destruct rows as [|r' rows]; [done|].
    change (last (r :: r' :: rows)) with (last (r' :: rows)).
    destruct (last (r' :: rows)) eqn:El; [done|by apply last_None in El].
Qed.

Lemma count_rows_fold {A} (rows : list A) : forall n, 0 <= n -> n + Z.of_nat (length rows) <= u64_max ->
  fold_left (fun n _ => saturating_add n 1) rows n = n + Z.of_nat (length rows).
Proof.
  induction rows as [|r rows IH]; intros n H0 Hn; simpl; [lia|]. simpl length in Hn.
  assert (Hs : saturating_add n 1 = n + 1) by (unfold saturating_add; lia).
  rewrite Hs, IH; lia.
Qed.

(** The rows a fetch returns move the table on by as many. *)
Lemma at_row_next t n limit rows : at_row t n -> rows = take limit (drop n (rows_of t)) -> rows <> [] ->
  Z.of_nat (length (rows_of t)) <= u64_max ->
  let p := rows_done (progress t) rows in
  let m := (n + length rows)%nat in
  (m <= length (rows_of t))%nat /\ total_rows p = Z.of_nat (length (rows_of t)) /\ rows_processed p = Z.of_nat m
  /\ at_row (with_progress (if total_rows p <=? rows_processed p then completed p else p) t) m.
Proof.
  intros [Hn Hp] Hrows Hne Hmax p m.
  assert (Hlen : (length rows <= length (rows_of t) - n)%nat)
    by (rewrite Hrows, length_take, length_drop; lia).
  assert (Hm : (m <= length (rows_of t))%nat) by (unfold m; lia).
  assert (Hcur : match last rows with Some r => Some (fst r) | None => cursor_position (progress t) end
                 = cursor_at t m).
  { destruct (last rows) as [r|] eqn:El; [|by apply last_None in El].
    assert (Hlim : (length rows <= limit)%nat) by (rewrite Hrows, length_take; lia).
    assert (Hpos : (0 < length rows)%nat) by (destruct rows; [done|simpl; lia]).
    assert (Hat : rows !! pred (length rows) = rows_of t !! (n + pred (length rows))%nat).
    { assert (Hi : (pred (length rows) < limit)%nat) by lia. revert Hi. generalize (pred (length rows)) as i.
      intros i Hi. by rewrite Hrows, lookup_take_lt, lookup_drop by lia. }
    rewrite last_lookup, Hat in El. unfold m. replace (n + length rows)%nat with (S (n + pred (length rows))) by lia.
    simpl. unfold rows_of in El. rewrite list_lookup_fmap in El.
    destruct (content (tss_schema t) (tss_table t) !! _) as [[c v]|]; [|done].
    simpl in El. by simplify_eq. }
  assert (Ep : p = {| ts_table := ts_table (progress t); total_rows := Z.of_nat (length (rows_of t));
     rows_processed := Z.of_nat m; cursor_position := cursor_at t m;
     ts_complete := (n =? length (rows_of t))%nat |}).
  { unfold p. rewrite rows_done_spec by (rewrite Hp; simpl; lia). rewrite Hcur. rewrite Hp at 2 3 4. simpl.
    f_equal. unfold m. lia. }
  clearbody p. subst p. simpl. split_and!; [done..|].
  split; [done|]. change (rows_of (with_progress ?q t)) with (rows_of t).
  destruct (Z.leb_spec (Z.of_nat (length (rows_of t))) (Z.of_nat m)) as [Hle|Hlt];
    cbn [with_progress progress completed ts_table total_rows rows_processed cursor_position ts_complete].
  - rewrite (proj2 (Nat.eqb_eq m _)) by lia. done.
  - rewrite !(proj2 (Nat.eqb_neq _ _)) by (destruct rows; [done|]; unfold m in *; simpl in *; lia). done.
Qed.

(** *** The loop *)

Record stage (h : SqlServerSnapshotHandle) : Prop := {
  sg_client : has_client h = true;
  sg_known : Forall known (h_tables h);
  sg_tables : staged (h_tables h) (current_table h);
  sg_count : emitted_rows h = Z.of_nat (length (emitted (h_tables h)));
  sg_max : Z.of_nat (length (all_rows (h_tables h))) <= u64_max;
}.

Lemma staged_next pre t post : Forall done pre -> done t -> Forall fresh post ->
  staged (pre ++ t :: post) (S (length pre)).
Proof.
  intros Hpre Ht Hpost. exists (pre ++ [t])%list, post. rewrite <-app_assoc, length_app. split_and!; [done|simpl; lia| |].
  - apply Forall_app. by rewrite Forall_singleton.
  - destruct Hpost; [done|]. split; [by exists 0%nat|done].
Qed.

Lemma take_own_length {A} limit (l : list A) : take (length (take limit l)) l = take limit l.
Proof.
  rewrite length_take. destruct (Nat.le_ge_cases limit (length l)).
  - by rewrite Nat.min_l by lia.
  - by rewrite Nat.min_r, !take_ge by lia.
Qed.

Lemma read_rows_grow t n rows limit t' : at_row t n -> rows = take limit (drop n (rows_of t)) ->
  rows_of t' = rows_of t -> (forall r, tag t' r = tag t r) -> at_row t' (n + length rows) ->
  read_rows t' = (read_rows t ++ map (tag t) rows)%list.
Proof.
  intros Ht Hrows Er Et Ht'. unfold read_rows. destruct (at_row_count _ _ Ht) as [-> _].
  destruct (at_row_count _ _ Ht') as [-> _]. rewrite Er, <-map_app.
  replace (take (n + length rows) (rows_of t)) with (take n (rows_of t) ++ rows)%list; [by apply map_ext|].
  rewrite <-take_take_drop. f_equal. by rewrite Hrows, take_own_length.
Qed.

Lemma loop_stage now req fuel : forall events h d out h' d', stage h ->
  chunk_loop fuel now req events h d = (Ok out, (h', d')) ->
  stage h' /\ all_rows (h_tables h') = all_rows (h_tables h)
  /\ (exists new, out = (events ++ new)%list
        /\ emitted (h_tables h') = (emitted (h_tables h) ++ map shown new)%list)
  /\ ((req - length events + (length (h_tables h) - current_table h) <= fuel)%nat ->
      (req <= length out)%nat \/ (length (h_tables h') <= current_table h')%nat).
Proof.
  induction fuel as [|fuel IH]; intros events h d out h' d' Hst E; cbn [chunk_loop] in E.
  { simplify_eq. split_and!; [done|done|exists []; by rewrite !app_nil_r|intros; lia]. }
  destruct (Nat.ltb_spec (length events) req) as [Hreq|Hreq]; cycle 1.
  { simplify_eq. split_and!; [done|done|exists []; by rewrite !app_nil_r|intros; lia]. }
  destruct Hst as [Hc Hk (pre & post & Ets & Hcur & Hpre & Hpost) Hn Hmax].
  rewrite Ets, <-Hcur, lookup_middle in E. destruct post as [|t post]; simpl in E.
  { simplify_eq. split_and!; [constructor; try done; by exists pre, []|done|exists []; by rewrite !app_nil_r|].
    rewrite Ets, app_nil_r. intros; lia. }
  destruct Hpost as [[n Ht] Hfresh]. destruct (at_row_count _ _ Ht) as [Hrc Hcomp].
  assert (Hsum : (length (h_tables h) = length pre + S (length post))%nat)
    by (rewrite Ets, length_app; simpl; lia).
  rewrite Hcomp in E. destruct (Nat.eqb_spec n (length (rows_of t))) as [Hfull|Hpart].
  { apply IH in E; cycle 1.
    { constructor; simpl; [done|by rewrite <-Ets| |by rewrite <-Ets|by rewrite <-Ets].
      apply staged_next; [done| |done]. unfold done. by rewrite <-Hfull. }
    simpl in E. rewrite <-Ets in E. destruct E as (H1 & H2 & H3 & H4). split_and!; [done..|]. intros Hf. apply H4. lia. }
  rewrite Hc in E.
  destruct (fetch_keyset_rows true t (cursor_position (progress t)) (req - length events) d) as [[rows| |] d1] eqn:Ef;
    [|done..].
  assert (Hkt : Forall known pre /\ known t /\ Forall known post)
    by (rewrite Ets, Forall_app, Forall_cons in Hk; tauto).
  destruct Hkt as (Hk1 & Hkt & Hk2).
  pose proof (fetch_after t n _ _ _ _ Hkt Ht Ef) as Hrows.
  assert (Hne : rows <> []).
  { intros ->. apply (f_equal length) in Hrows. rewrite length_take, length_drop in Hrows.
    destruct Ht as [Hle _]. simpl in Hrows. lia. }
  destruct rows as [|r0 rows0]; [done|]. set (rows := r0 :: rows0) in *.
  assert (Hmaxt : Z.of_nat (length (rows_of t)) <= u64_max).
  { rewrite Ets in Hmax. unfold all_rows in Hmax. rewrite flat_map_app' in Hmax. simpl in Hmax.
    rewrite !length_app, length_map in Hmax. lia. }
  destruct (at_row_next t n _ rows Ht Hrows Hne Hmaxt) as (Hm & Etot & Eproc & Hat).
  set (p := rows_done (progress t) rows) in *. clearbody p.
  set (t' := with_progress (if total_rows p <=? rows_processed p then completed p else p) t) in *.
  set (cur' := if total_rows p <=? rows_processed p then S (length pre) else length pre).
  set (events' := (events ++ map (fun r => row_event now h t (fst r) (snd r)) rows)%list) in E.
  set (n' := fold_left _ rows (emitted_rows h)) in E.
  assert (E' : chunk_loop fuel now req events' (with_tables (pre ++ t' :: post) cur' n' h) d1 = (Ok out, (h', d'))).
  { rewrite <-E. unfold t', cur'. destruct (total_rows p <=? rows_processed p); by rewrite insert_middle. }
  clear E Ef. assert (Hgrow : emitted (pre ++ t' :: post) = (emitted (h_tables h) ++ map (tag t) rows)%list).
  { rewrite Ets. unfold emitted. rewrite !flat_map_app'. simpl. fold (emitted post).
    rewrite (emitted_fresh post Hfresh), !app_nil_r, (read_rows_grow t n rows _ t' Ht Hrows eq_refl) by done.
    by rewrite app_assoc. }
  assert (Hall : all_rows (pre ++ t' :: post) = all_rows (h_tables h)).
  { rewrite Ets. unfold all_rows. by rewrite !flat_map_app'. }
  assert (Hn' : n' = Z.of_nat (length (emitted (pre ++ t' :: post)))).
  { unfold n'. rewrite Hgrow, length_app, length_map, count_rows_fold; [lia|lia|].
    assert (Hst' : staged (pre ++ t' :: post) (length pre))
      by (exists pre, (t' :: post); do 3 (split; [done|]); split; [by exists (n + length rows)%nat|done]).
    destruct (emitted_staged _ _ Hst') as [rest Hrest]. rewrite Hall, Hgrow in Hrest.
    apply (f_equal length) in Hrest. rewrite !length_app, length_map in Hrest. lia. }
  apply IH in E'; cycle 1.
  { constructor; simpl; [done|by rewrite Forall_app, Forall_cons| |done|by rewrite Hall].
    unfold cur'. destruct (Z.leb_spec (total_rows p) (rows_processed p)) as [Hle|Hlt].
    - apply staged_next; [done| |done]. unfold done. change (rows_of t') with (rows_of t).
      replace (length (rows_of t)) with (n + length rows)%nat by lia. done.
    - exists pre, (t' :: post). do 3 (split; [done|]). split; [by exists (n + length rows)%nat|done]. }
  simpl in E'. destruct E' as (H1 & H2 & (new & -> & H3) & H4). split_and!; [done|by rewrite H2| |].
  - exists (map (fun r => row_event now h t (fst r) (snd r)) rows ++ new)%list. unfold events'. split; [by rewrite app_assoc|].
    rewrite H3, Hgrow, map_app, <-app_assoc. f_equal. f_equal. rewrite map_map. by apply map_ext.
  - intros Hf. apply H4. unfold events', cur'. rewrite !length_app, length_map. simpl length.
    destruct (total_rows p <=? rows_processed p); lia.
Qed.

(** *** A sequence of chunks *)

Lemma done_complete ts : Forall done ts -> forallb (fun t => ts_complete (progress t)) ts = true.
Proof.
  induction 1 as [|t ts Ht _ IH]; simpl; [done|]. destruct (at_row_count _ _ Ht) as [_ ->].
  by rewrite Nat.eqb_refl.
Qed.

Lemma staged_rows ts cur : staged ts cur -> Forall (fun t => exists n, at_row t n) ts.
Proof.
  intros (pre & post & -> & _ & Hpre & Hpost). apply Forall_app. split.
  - eapply Forall_impl; [exact Hpre|]. intros t Ht. by eexists.
  - destruct post as [|t post]; [done|]. destruct Hpost as [Ht Hf]. constructor; [done|].
    eapply Forall_impl; [exact Hf|]. intros u Hu. by exists 0%nat.
Qed.

(** A handle is complete exactly when it has emitted every row. *)
Lemma complete_emitted ts cur : staged ts cur ->
  forallb (fun t => ts_complete (progress t)) ts = true <-> Forall done ts.
Proof.
  intros H. split; [|apply done_complete]. apply staged_rows in H.
  induction H as [|t ts [n Ht] _ IH]; simpl; [done|]. intros [Hc Hr]%andb_true_iff.
  constructor; [|by apply IH]. destruct (at_row_count _ _ Ht) as [_ E]. rewrite E in Hc.
  apply Nat.eqb_eq in Hc. unfold done. by rewrite <-Hc.
Qed.

Lemma incomplete_shorter ts : Forall (fun t => exists n, at_row t n) ts ->
  forallb (fun t => ts_complete (progress t)) ts = false -> (length (emitted ts) < length (all_rows ts))%nat.
Proof.
  assert (Hle : forall t n, at_row t n -> length (read_rows t) = n /\ (n <= length (rows_of t))%nat).
  { intros t n Ht. destruct (at_row_count _ _ Ht) as [E _]. destruct Ht as [Hn _]. unfold read_rows.
    rewrite E, length_map, length_take. lia. }
  induction 1 as [|t ts [n Ht] Hts IH]; simpl; [done|]. intros Hc. unfold emitted, all_rows in *. simpl.
  rewrite !length_app, length_map. destruct (Hle t n Ht) as [-> Hn].
  destruct (at_row_count _ _ Ht) as [_ E]. rewrite E in Hc.
  assert (Hrest : (length (flat_map read_rows ts) <= length (flat_map (fun t => map (tag t) (rows_of t)) ts))%nat).
  { clear -Hts Hle. induction Hts as [|u ts [m Hu] _ IH]; simpl; [done|]. rewrite !length_app, length_map.
    destruct (Hle u m Hu) as [-> ?]. lia. }
  destruct (Nat.eqb_spec n (length (rows_of t))); simpl in Hc; [specialize (IH Hc)|]; lia.
Qed.

Lemma shown_mark_last e : shown (mark_last e) = shown e.
Proof. done. Qed.

Lemma shown_mark_last_event es : map shown (mark_last_event es) = map shown es.
Proof.
  unfold mark_last_event. destruct (last es) as [e|] eqn:El; [|done].
  apply last_Some in El as [l ->]. rewrite length_app. simpl. rewrite Nat.add_1_r. simpl.
  rewrite take_app_length, !map_app. done.
Qed.

Lemma next_chunk_stage now size h d es h' d' : stage h ->
  next_sqlserver_snapshot_chunk now size (h, d) = (Ok es, (h', d')) ->
  stage h' /\ all_rows (h_tables h') = all_rows (h_tables h)
  /\ emitted (h_tables h') = (emitted (h_tables h) ++ map shown es)%list
  /\ (h_is_complete h' = true \/ es <> []).
Proof.
  intros Hst E. unfold next_sqlserver_snapshot_chunk in E. destruct (h_is_complete h) eqn:Ec.
  { simplify_eq. rewrite app_nil_r. split_and!; [done..|by left]. }
  set (req := match size with O => 1000%nat | _ => size end) in E.
  assert (Hreq : (0 < req)%nat) by (unfold req; destruct size; lia). clearbody req.
  destruct (chunk_loop _ now req [] h d) as [[out| |] [h1 d1]] eqn:El; [|done..].
  destruct (loop_stage now req _ [] h d out h1 d1 Hst El) as (H1 & H2 & (new & -> & H3) & H4). simpl in *.
  assert (Hprog : h_is_complete h1 = true \/ new <> []).
  { destruct (H4 ltac:(lia)) as [Hl|Hl]; [right; destruct new; [simpl in Hl; lia|done]|left].
    unfold h_is_complete. apply done_complete. destruct H1 as [_ _ (pre & post & Et & Hcur & Hpre & Hpost) _ _].
    rewrite Et, length_app in Hl. destruct post; [|simpl in Hl; lia]. by rewrite Et, app_nil_r. }
  assert (Hsync : forall h, stage h -> stage (sync_snapshot_tables h)) by (intros h0 [? ? ? ? ?]; by constructor).
  destruct new as [|e new].
  - injection E as <- <- <-. split_and!; [by apply Hsync|done|done|]. destruct Hprog; [by left|done].
  - injection E as <- <- <-. split_and!.
    + apply Hsync. destruct H1. by constructor.
    + done.
    + simpl. rewrite H3. f_equal. destruct (h_is_complete h1); [|done]. by rewrite shown_mark_last_event.
    + right. destruct (h_is_complete h1); [|done]. intros Hn. apply (f_equal (map shown)) in Hn.
      by rewrite shown_mark_last_event in Hn.
Qed.

Fixpoint chunks (sizes : list (Z * nat)) : M (SqlServerSnapshotHandle * D) (list Event) :=
  match sizes with
  | [] => mret []
  | (now, size) :: sizes' =>
      es ← next_sqlserver_snapshot_chunk now size;
      rest ← chunks sizes';
      mret (es ++ rest)%list
  end.

Lemma chunks_stage sizes : forall h d es h' d', stage h -> chunks sizes (h, d) = (Ok es, (h', d')) ->
  stage h' /\ all_rows (h_tables h') = all_rows (h_tables h)
  /\ emitted (h_tables h') = (emitted (h_tables h) ++ map shown es)%list
  /\ ((length (all_rows (h_tables h)) - length (emitted (h_tables h)) < length sizes)%nat ->
      h_is_complete h' = true).
Proof.
  induction sizes as [|[now size] sizes IH]; intros h d es h' d' Hst E; cbn [chunks] in E.
  - injection E as <- <- <-. rewrite app_nil_r. split_and!; [done..|simpl; lia].
  - apply bind_inv in E as (es1 & [h1 d1] & E1 & E). apply bind_inv in E as (es2 & [h2 d2] & E2 & E).
    injection E as <- <- <-. destruct (next_chunk_stage _ _ _ _ _ _ _ Hst E1) as (S1 & A1 & M1 & P1).
    destruct (IH _ _ _ _ _ S1 E2) as (S2 & A2 & M2 & P2). split_and!; [done|by rewrite A2| |].
    + by rewrite M2, M1, map_app, app_assoc.
    + intros Hn. simpl in Hn. destruct P1 as [Hc|Hne].
      * destruct (h_is_complete h2) eqn:E; [done|]. exfalso.
        pose proof (proj1 (complete_emitted _ _ (sg_tables _ S1)) Hc) as Hd.
        pose proof (incomplete_shorter _ (staged_rows _ _ (sg_tables _ S2)) E) as Hlt.
        apply emitted_done in Hd. rewrite M2, A2, <-Hd, length_app in Hlt. lia.
      * apply P2. destruct (emitted_staged _ _ (sg_tables _ S1)) as [rest Hr]. rewrite A1 in Hr |- *.
        apply (f_equal length) in Hr. rewrite M1, !length_app, length_map in *.
        destruct es1; [done|]. simpl in *. lia.
Qed.

Lemma sums_staged ts cur : staged ts cur ->
  fold_right Z.add 0 (map (fun t => rows_processed (progress t)) ts) = Z.of_nat (length (emitted ts))
  /\ fold_right Z.add 0 (map (fun t => total_rows (progress t)) ts) = Z.of_nat (length (all_rows ts)).
Proof.
  intros H%staged_rows. induction H as [|t ts [n [Hn Hp]] _ [IH1 IH2]]; simpl; [done|].
  unfold emitted, all_rows in *. simpl. rewrite IH1, IH2, !length_app. unfold read_rows, read_count.
  rewrite !length_map, length_take, Hp. simpl. split; lia.
Qed.


End Emission.

(** ** Resuming *)

Import SqlServerWindow.

Definition wf_progress (p : TableSnapshot) : Prop :=
  0 <= total_rows p <= u64_max /\ 0 <= rows_processed p <= u64_max.

(** The integers fit their types. *)
Record wf_handle (h : SqlServerSnapshotHandle) : Prop := {
  wh_lsn : lsn_range (snap_lsn_start (snapshot h));
  wh_chunk : 0 <= next_chunk_index h <= u32_max;
  wh_table : Z.of_nat (current_table h) <= u64_max;
  wh_tables : Forall (fun t => wf_progress (progress t)) (h_tables h);
}.

Lemma be_bytes_read w : forall n acc, 0 <= n < 256 ^ Z.of_nat w ->
  fold_left (fun acc b => acc * 256 + b) (be_bytes w n) acc = acc * 256 ^ Z.of_nat w + n.
Proof.
  induction w as [|w IH]; intros n acc Hn; cbn [be_bytes fold_left]; [simpl in *; lia|].
  destruct (high_byte w n Hn) as [Hb Hr]. rewrite IH by done. rewrite pow256_S.
  pose proof (Z.div_mod n (256 ^ Z.of_nat w)). pose proof (pow256_pos w). nia.
Qed.

Lemma be_bytes_bound w : forall n, 0 <= n < 256 ^ Z.of_nat w -> Forall (fun b => 0 <= b <= 255) (be_bytes w n).
Proof.
  induction w as [|w IH]; intros n Hn; cbn [be_bytes]; [constructor|].
  destruct (high_byte w n Hn) as [Hb Hr]. constructor; [lia|by apply IH].
Qed.

Lemma be_bytes_length w : forall n, length (be_bytes w n) = w.
Proof. induction w as [|w IH]; intros n; simpl; [done|]. by rewrite IH. Qed.

Lemma lsn_json_roundtrip l : lsn_range l -> lsn_of_json (normalize (lsn_json l)) = Some l.
Proof.
  intros Hl. unfold lsn_of_json, lsn_json. cbn [normalize as_array mbind option_bind]. rewrite map_map.
  change (fun x => normalize (jnat x)) with (fun x => jnat x).
  rewrite (traverse_map _ _ id).
  - rewrite map_id. cbn [mbind option_bind]. rewrite be_bytes_length. cbn iota.
    change (10 =? 10)%nat with true. cbn iota. f_equal. rewrite be_bytes_read by done. lia.
  - eapply Forall_impl; [apply be_bytes_bound; exact Hl|]. intros b Hb. by apply as_uint_jnat.
Qed.

Lemma lsn_json_exact l : lsn_range l -> exact (lsn_json l) = true.
Proof.
  intros Hl. cbn [lsn_json exact]. apply forallb_forall. intros v (b & <- & Hb)%in_map_iff.
  pose proof (be_bytes_bound 10 l Hl) as H. rewrite Forall_forall in H.
  specialize (H b (proj2 (list_elem_of_In _ _) Hb)). simpl. apply exact_jnat. unfold u64_max, u64_modulus. lia.
Qed.

Lemma table_snapshot_roundtrip p : wf_progress p ->
  table_snapshot_from_json (normalize (table_snapshot_json p)) = Some p.
Proof.
  intros [H1 H2]. destruct p as [t n r c d]; simpl in *. unfold table_snapshot_from_json, table_snapshot_json.
  destruct c as [c|]; cbn [normalize map fst snd ts_table total_rows rows_processed cursor_position ts_complete jopt jnat];
    obj_red; rewrite !as_uint_jnat by done; done.
Qed.

Lemma table_snapshot_exact p : wf_progress p -> exact (table_snapshot_json p) = true.
Proof.
  intros [H1 H2]. unfold table_snapshot_json, jnat. cbn [exact forallb snd].
  rewrite !exact_jnat by lia. by destruct (cursor_position p).
Qed.

Ltac snap_red :=
  lazy -[Z.to_N as_uint as_array u32_max u64_max traverse map lsn_of_json table_snapshot_json
         table_snapshot_from_json normalize Z.to_nat Z.of_nat progress snap_id
         snap_lsn_start snapshot current_table next_chunk_index h_tables].

Lemma checkpoint_state_roundtrip h : wf_handle h ->
  checkpoint_state_from_json (normalize (checkpoint_state_json (checkpoint_state h))) = Some (checkpoint_state h).
Proof.
  intros [H1 H2 H3 H4]. unfold checkpoint_state_from_json, checkpoint_state_json, checkpoint_state.
  cbn [cp_snapshot_id cp_lsn_start cp_current_table cp_next_chunk_index cp_tables].
  rewrite normalize_obj. cbn [map fst snd]. pose proof (lsn_json_roundtrip _ H1) as Hl.
  revert Hl. generalize (normalize (lsn_json (snap_lsn_start (snapshot h)))). intros v Hl.
  cbn [normalize jnat]. snap_red. rewrite Hl. cbn [mbind option_bind]. rewrite !as_uint_jnat by (done || lia).
  cbn [mbind option_bind as_array]. rewrite map_map, (traverse_map _ _ id).
  - rewrite map_id. cbn [mbind option_bind]. by rewrite Nat2Z.id.
  - apply Forall_map. eapply Forall_impl; [exact H4|]. intros t. apply table_snapshot_roundtrip.
Qed.

Lemma checkpoint_state_exact h : wf_handle h -> exact (checkpoint_state_json (checkpoint_state h)) = true.
Proof.
  intros [H1 H2 H3 H4]. unfold checkpoint_state_json, checkpoint_state.
  cbn [cp_snapshot_id cp_lsn_start cp_current_table cp_next_chunk_index cp_tables].
  cbn [exact forallb snd jnat]. change (forallb exact (map jnat ?x)) with (exact (JArr (map jnat x))).
  fold (lsn_json (snap_lsn_start (snapshot h))). rewrite lsn_json_exact by done.
  rewrite !exact_jnat by (unfold u32_max, u64_max, u64_modulus in *; lia). rewrite andb_true_r. cbn [andb].
  apply forallb_forall. intros v (p & <- & (t & <- & Ht)%in_map_iff)%in_map_iff.
  apply table_snapshot_exact. rewrite Forall_forall in H4. by apply H4, list_elem_of_In.
Qed.

Lemma zip_progress ts0 ts : Forall2 same_table ts0 ts ->
  zip_with with_progress (map progress ts) ts0 = ts.
Proof.
  induction 1 as [|a b ts0 ts (H1 & H2 & H3 & H4) _ IH]; simpl; [done|]. rewrite IH. f_equal.
  unfold with_progress. rewrite H1, H2, H3, H4. by destruct b.
Qed.

Lemma count_progress ps : forall n, 0 <= n -> Forall (fun p => 0 <= rows_processed p) ps ->
  n + fold_right Z.add 0 (map rows_processed ps) <= u64_max ->
  fold_left (fun n p => saturating_add n (rows_processed p)) ps n
  = n + fold_right Z.add 0 (map rows_processed ps).
Proof.
  induction ps as [|p ps IH]; intros n Hn Hp Hs; simpl in *; [lia|].
  inversion_clear Hp as [|? ? Hp0 Hps].
  assert (0 <= fold_right Z.add 0 (map rows_processed ps)) by (clear -Hps; induction Hps; simpl; lia).
  assert (saturating_add n (rows_processed p) = n + rows_processed p) as -> by (unfold saturating_add; lia).
  rewrite IH by (done || lia). lia.
Qed.

(** A snapshot resumes where it was checkpointed.  A handle started anew on the same
    tables and given the payload a checkpoint saved has the tables, the position in them, the
    chunk number, the counts and the identity of the handle that was checkpointed. *)
Theorem snapshot_resumes_where_checkpointed `{JC : JsonCodec} {JL : @JsonLaws JC} h h0 payload :
  wf_handle h -> Forall2 same_table (h_tables h0) (h_tables h) ->
  emitted_rows h = fold_right Z.add 0 (map (fun t => rows_processed (progress t)) (h_tables h)) ->
  emitted_rows h <= u64_max ->
  encode (snapshot_offset h) = Ok payload ->
  exists h1, resume_from_checkpoint_payload h0 payload = Ok h1
    /\ h_tables h1 = h_tables h /\ current_table h1 = current_table h
    /\ next_chunk_index h1 = next_chunk_index h /\ emitted_rows h1 = emitted_rows h
    /\ snap_lsn_start (snapshot h1) = snap_lsn_start (snapshot h) /\ snap_id (snapshot h1) = snap_id (snapshot h)
    /\ has_client h1 = has_client h0 /\ transaction_open h1 = transaction_open h0.
Proof.
  intros Hw Hs Hc Hm [= <-]. unfold resume_from_checkpoint_payload.
  rewrite parse_print by (by apply checkpoint_state_exact). cbn [mbind option_bind].
  rewrite checkpoint_state_roundtrip by done. cbn [checkpoint_state cp_tables].
  rewrite length_map, (Forall2_length _ _ _ Hs), Nat.eqb_refl. cbn [negb].
  eexists. split; [done|]. cbn [sync_snapshot_tables h_tables current_table next_chunk_index emitted_rows snapshot
    snap_lsn_start snap_id has_client transaction_open cp_lsn_start cp_snapshot_id cp_current_table cp_next_chunk_index].
  split_and!; try done; [by apply zip_progress|].
  assert (Hsum : fold_right Z.add 0 (map rows_processed (map progress (h_tables h))) = emitted_rows h)
    by (by rewrite map_map, Hc).
  rewrite count_progress; [lia|lia| |lia].
  apply Forall_map. eapply Forall_impl; [exact (wh_tables _ Hw)|]. intros t Ht. simpl. unfold wf_progress in Ht. lia.
Qed.

End SqlServerSnapshot.
