(* ===== verification/SqlServerIncremental.v ===== *)
(** * SqlServerIncremental: the incremental snapshot of a SQL Server

    Models [src/src/source/sqlserver/incremental_snapshot.rs]: the SQL Server half of the
    incremental snapshot driver, as an instance of the driver's backend class, and the live
    stream of [SqlServer] as an instance of its stream class.  What the driver persists
    between the two is the theorem at the end. *)

From S2P Require Import Prelude Errors CheckpointApi Strs Json Offsets Event Monad Driver SqlServer SqlServerSnapshot.

Module SqlServerIncremental.
Import SqlServer SqlServerSnapshot.

Local Open Scope string_scope.
Local Open Scope Z_scope.

(** ** The backend *)

(** The chunk connection: the snapshot's queries, the maximum LSN and the clock. *)
Class IncrementalClient (D : Type) := {
  max_lsn_row : M D (option string);
  clock : M D Z;
}.

Definition json_value_to_cursor_param (v : json) : Res SqlServerCursorParam :=
  match v with
  | JNull => Err (CheckpointError "sqlserver incremental snapshot cursor does not support NULL pk values")
  | JBool b => Ok (PBool b)
  | JNum n => match as_i64 n with Some k => Ok (PInt k) | None => Ok (PFloat n) end
  | JStr t => Ok (PText t)
  | _ => Err (CheckpointError "sqlserver incremental snapshot: only scalar pk values are supported")
  end.

Definition i32_max : Z := 2 ^ 31 - 1.

Section Backend.
Context `{JsonCodec} `{RawJson} {D : Type} `{SnapshotServer D} `{IncrementalClient D}.

Definition describe_table (table_ref : string) : M D Driver.SnapshotTable :=
  st ← of_res (parse_schema_table table_ref);
  let '(schema, name) := st in
  pk ← table_key_columns schema name;
  cols ← table_columns schema name;
  mret {| Driver.tbl_schema := schema; Driver.tbl_name := name;
          Driver.qualified := qualified_table_name schema name;
          Driver.pk_columns := filter_some pk; Driver.pk_types := [];
          Driver.columns := filter_some cols; Driver.tbl_condition := None |}.

Definition current_position : M D LSN :=
  found ← max_lsn_row;
  hex ← of_res (need "incremental snapshot: max LSN returned no row" found);
  of_res (lsn_hex_to_bytes hex).

Definition decode_incremental_row (t : Driver.SnapshotTable) (r : option string * option string)
    : Res Driver.ChunkRow :=
  cursor_json <-? need "incremental snapshot: missing cursor_json" (fst r);
  row_json <-? need "incremental snapshot: missing row_json" (snd r);
  cursor_object <-? match parse_json (list_byte_of_string cursor_json) with
                    | Some v => Ok v
                    | None => Err (SerializationError "incremental snapshot: cursor_json parse failed")
                    end;
  fields <-? match decode_row_json_as_text row_json with
             | Ok f => Ok f
             | Err _ => Err (SerializationError "incremental snapshot: row_json parse failed")
             | Panic => Panic
             end;
  let cursor := map (fun c => default JNull (get c cursor_object)) (Driver.pk_columns t) in
  if existsb (fun v => match v with JNull => true | _ => false end) cursor then
    Err (SourceError "incremental snapshot: NULL primary-key column")
  else Ok {| Driver.row_cursor := cursor; Driver.row := JObj (obj_of fields) |}.

Definition fetch_chunk (t : Driver.SnapshotTable) (cursor : option (list json)) (limit : nat)
    : M D (list Driver.ChunkRow) :=
  params ← of_res (match cursor with
                   | Some vs => ps <-? map_res json_value_to_cursor_param vs; Ok (Some ps)
                   | None => Ok None
                   end);
  rows ← chunk_rows
    {| cq_sql := build_snapshot_fetch_sql (Driver.qualified t) (Driver.pk_columns t) (Driver.columns t)
                   (S (length (default [] cursor))) (bool_decide (is_Some cursor)) (Driver.tbl_condition t);
       cq_params := params; cq_limit := Z.min (Z.of_nat limit) i32_max |};
  of_res (map_res (decode_incremental_row t) rows).

Definition offset_with_snapshot_state (inner : DynOffset) (state : IncrementalSnapshotState) : option DynOffset :=
  match encode inner with
  | Ok encoded =>
      o ← parse_json encoded ≫= sqlserver_from_json;
      Some (sqlserver_dyn (sqlserver_with_incremental_snapshot (Some state) o))
  | _ => None
  end.

(** The positions are ordered by the connector's comparison, and the bracket is the
    default, by position. *)
#[export] Instance SqlServerSnapshotBackend : Driver.Backend D LSN := {
  Driver.pos_ltb := fun a b => is_lt (compare_lsn a b);
  Driver.describe_table := describe_table;
  Driver.current_position := current_position;
  Driver.fetch_chunk := fetch_chunk;
  Driver.position_of_event := fun _ e => lsn_from_source_offset (Event.offset (Event.source e));
  Driver.event_in_bracket := fun _ _ position low high =>
    Driver.ordinal_bracket (fun a b => is_lt (compare_lsn a b)) position low high;
  Driver.offset_with_snapshot_state := fun _ => offset_with_snapshot_state;
  Driver.now_millis := clock;
}.

End Backend.

(** ** The stream *)

Section Stream.
Context `{JsonCodec} `{RawJson} {D : Type} `{CdcServer D}.
Variables (sip : string -> Z) (iteration : list CaptureInstanceMeta -> list CaptureInstanceMeta).
(** The clock and the deadline of a poll. *)
Variables (now : Z) (late : Z -> list bool).

(** The methods the handle does not implement are the trait's defaults. *)
#[export] Instance SqlServerStreamHandle : Driver.StreamHandle (Reader D) := {
  Driver.next_events := fun timeout_ms => next_events sip iteration now (late timeout_ms);
  Driver.position_offset := fun _ => None;
  Driver.incremental_snapshot_state := fun _ => None;
  Driver.resume_offset_for := fun _ _ => None;
  Driver.requeue_events := fun es => modify (requeue_events es);
  Driver.confirm_lsn := fun _ => mret tt;
}.

End Stream.

(** ** What is persisted *)

Section Persisted.
Context `{JC : JsonCodec} {JL : @JsonLaws JC} `{RJ : RawJson} {B D : Type}.
Context `{SB : SnapshotServer B} `{IB : IncrementalClient B} `{SV : CdcServer D}.
Variables (sip : string -> Z) (iteration : list CaptureInstanceMeta -> list CaptureInstanceMeta).
Variables (now : Z) (late : Z -> list bool).

#[local] Existing Instance SqlServerStreamHandle.

Definition inner_save {C} `{Checkpoint C} (d : Driver.Driver B (Reader D) LSN) (c : C) : Res unit * C :=
  save_position c (Driver.inner d).

(** Over SQL Server the driver never persists an incremental snapshot's progress.  The
    stream answers no position, so whatever has been emitted of the tables, a snapshot row
    is not persistable, and saving the position of a driver that holds nothing back saves
    the stream's own: an offset without progress, from which a restart finds none. *)
Theorem sqlserver_save_forgets_progress (d : Driver.Driver B (Reader D) LSN) :
  Driver.driver_position_offset (H0 := SqlServerSnapshotBackend)
    (H1 := SqlServerStreamHandle sip iteration now late) d = None
  /\ exists o, state_from_offset (Some o) = None
     /\ forall (C : Type) (HC : Checkpoint C) (store : C), Driver.deferred d = [] ->
        Driver.driver_save_position (H0 := SqlServerSnapshotBackend)
          (H1 := SqlServerStreamHandle sip iteration now late) inner_save d store
        = save o (events_polled (Driver.inner d)) store.
Proof.
  assert (Hnone : Driver.driver_position_offset (H0 := SqlServerSnapshotBackend)
    (H1 := SqlServerStreamHandle sip iteration now late) d = None)
    by (unfold Driver.driver_position_offset; by destruct (Driver.deferred d)).
  split; [done|]. eexists. split; cycle 1.
  - intros C HC store Hd. unfold Driver.driver_save_position. rewrite Hd, Hnone. reflexivity.
  - unfold state_from_offset. cbn. by rewrite parse_print.
Qed.

End Persisted.

End SqlServerIncremental.
