(* ===== verification/SqlServerDemo.v ===== *)
(** * SqlServerDemo: a SQL Server of two capture instances

    A server that obeys the laws of [SqlServerWindow], the sessions that instantiate its
    theorems, and runs that show what the stream does outside their hypotheses. *)

From Stdlib Require Import Sorted.
From S2P Require Import Prelude Errors CheckpointApi Strs Json Offsets Event Monad SqlServer SqlServerWindow SqlServerSnapshot SqlServerIncremental Driver.

Module SqlServerDemo.
Import SqlServer SqlServerWindow.

Local Open Scope string_scope.
Local Open Scope Z_scope.

#[local] Instance demo_codec : JsonCodec := Json.RefCodec.codec.
#[local] Instance demo_json : RawJson := fun text => Some [("id", text)].

(** How far the log is harvested, and the answers of the truncate query. *)
Record Bed := {
  bed_harvested : Z;
  bed_truncates : list (Res (list TruncateEventRow));
}.

(** Rows of a change table: LSN, sequence value, operation and the key's text. *)
Definition rows_a : list (Z * Z * Z * string) :=
  [(5, 1, 2, "1"); (5, 2, 3, "2"); (5, 2, 4, "2"); (7, 1, 1, "1")].
Definition rows_b : list (Z * Z * Z * string) := [(6, 1, 2, "9"); (7, 2, 2, "8")].

Definition rows_of (i : string) : list (Z * Z * Z * string) :=
  if String.eqb i "dbo_a" then rows_a else if String.eqb i "dbo_b" then rows_b else [].

Definition row_of (t : Z * Z * Z * string) : CdcRow :=
  let '(l, s, op, id) := t in
  {| col_start_lsn := Some (lsn_bytes_to_hex l); col_seqval := Some (lsn_bytes_to_hex s);
     col_operation := Some op; col_ts := Some 0; col_json := Some id |}.

Definition change_of (cols : list string) (t : Z * Z * Z * string) : SqlServerRawChange :=
  let '(l, s, op, id) := t in
  {| start_lsn_hex := lsn_bytes_to_hex l; change_seqval_hex := lsn_bytes_to_hex s;
     change_operation := op; ts_ms := 0;
     row := JObj (obj_of (map (fun c => (c, default JNull (obj_get c [("id", JStr id)]))) cols)) |}.

Definition captured (d : Bed) : Z := Z.max 0 (Z.min 9 (bed_harvested d)).

#[local] Instance demo_view : CdcView Bed := {
  harvested := captured;
  retained := fun _ _ => 1;
  log := fun i cols => map (change_of cols) (rows_of i);
}.

Definition ask {A} (v : A) : M Bed A := fun d => (Ok v, d).

Definition demo_poll (q : CdcPoll) : M Bed (string + list CdcRow) := fun d =>
  match lsn_hex_to_bytes_opt (poll_start_hex q), lsn_hex_to_bytes_opt (poll_end_hex q) with
  | Some s, Some e =>
      (Ok (inr (map row_of
         (take (poll_top q)
            (List.filter (fun t => visible s e (poll_cursor q) (change_of (poll_columns q) t))
               (rows_of (poll_instance q)))))), d)
  | _, _ => (Ok (inl "conversion failed"), d)
  end.

(** Each advance finds two more LSNs harvested. *)
Definition demo_advance (e : LSN) : M Bed (list (option string * option string)) := fun d =>
  let d' := {| bed_harvested := captured d + 2; bed_truncates := bed_truncates d |} in
  (Ok [(Some (lsn_bytes_to_hex (e + 1)), Some (lsn_bytes_to_hex (captured d')))], d').

Definition demo_truncates (_ _ : string) : M Bed (list TruncateEventRow) := fun d =>
  match bed_truncates d with
  | [] => (Ok [], d)
  | t :: rest => (t, {| bed_harvested := bed_harvested d; bed_truncates := rest |})
  end.

Definition meta_row (i t : string) : MetaRow :=
  {| mr_instance := Some i; mr_schema := Some "dbo"; mr_table := Some t;
     mr_min_lsn := Some (lsn_bytes_to_hex 1) |}.

#[local] Instance demo_server : CdcServer Bed := {
  connect_client := ask tt;
  query_metas := ask [meta_row "dbo_a" "a"; meta_row "dbo_b" "b"];
  query_captured_columns := fun _ => ask ["id"];
  query_primary_key := fun _ => ask ["id"];
  cdc_poll := demo_poll;
  query_min_lsn := fun _ => ask (Some (lsn_bytes_to_hex 1));
  query_advance := demo_advance;
  query_max_lsn := fun d => (Ok (Some (lsn_bytes_to_hex (captured d))), d);
  setup_truncates := fun _ => ask tt;
  query_truncates := demo_truncates;
  mark_truncates := fun _ _ => ask tt;
  cleanup_truncates := fun _ => ask tt;
}.

Definition good_row (t : Z * Z * Z * string) : bool :=
  let '(l, s, op, id) := t in
  (0 <=? l) && (l <? lsn_modulus) && (0 <=? s) && (s <? lsn_modulus) && (1 <=? op) && (op <=? 4)
  && match decode_value id with Ok (JStr id') => String.eqb id' id | _ => false end.

Lemma rows_good i : Forall (fun t => good_row t = true) (rows_of i).
Proof. unfold rows_of. repeat case_match; repeat constructor. Qed.

Lemma good_change cols t : good_row t = true -> wf_cursor (position (change_of cols t)).
Proof.
  destruct t as [[[l s] op] id]. unfold good_row. intros H. zbool.
  split; [|simpl; lia]. exists l, s. unfold lsn_range. split_and!; try done; lia.
Qed.

Lemma good_raw cols t : good_row t = true -> raw_change cols (row_of t) = Ok (change_of cols t).
Proof.
  destruct t as [[[l s] op] id]. unfold good_row. intros H. apply andb_true_iff in H as [_ H].
  unfold raw_change, row_of, change_of. cbn [col_start_lsn col_seqval col_operation col_json col_ts need res_bind default].
  unfold decode_row_json_as_text. cbn [raw_fields demo_json decode_fields].
  change (Datatypes.id id) with id. destruct (decode_value id) as [[]| |]; try done. apply String.eqb_eq in H as ->. done.
Qed.

Lemma good_raws cols l : Forall (fun t => good_row t = true) l ->
  raw_changes cols (map row_of l) = Ok (map (change_of cols) l).
Proof.
  induction 1 as [|t l Ht _ IH]; simpl; [done|]. rewrite (good_raw cols t Ht). simpl. by rewrite IH.
Qed.

Lemma filter_map_comm {A B} (f : A -> B) p l :
  List.filter p (map f l) = map f (List.filter (fun x => p (f x)) l).
Proof. induction l as [|x l IH]; simpl; [done|]. destruct (p (f x)); simpl; by rewrite IH. Qed.

Lemma sorted_rows i cols : StronglySorted (fun a b => rank a < rank b) (map (change_of cols) (rows_of i)).
Proof.
  unfold rows_of. repeat case_match; repeat constructor.
Qed.

#[local] Instance demo_laws : CdcLaws Bed.
Proof.
  assert (Hlater : forall d, later d d) by (intros d; apply later_refl).
  constructor.
  - intros d. simpl. unfold captured, lsn_modulus. lia.
  - intros i cols. simpl. apply Forall_map. eapply Forall_impl; [apply rows_good|]. intros t. apply good_change.
  - intros i cols. apply sorted_rows.
  - intros d res d' [= <- <-]. apply Hlater.
  - intros i d res d' [= <- <-]. split; [apply Hlater|]. intros v m [= <-] Hm. simpl.
    rewrite lsn_roundtrip_opt in Hm by done. simplify_eq. lia.
  - intros q d res d' E. simpl in E. unfold demo_poll in E.
    assert (d' = d) as -> by (by repeat case_match; simplify_eq). split; [apply Hlater|].
    intros s e Hs He Es Ee Hw. rewrite Es, Ee, !lsn_roundtrip_opt in E by done. injection E as <-.
    split; [|done]. intros rows cs [= <-] Ecs. rewrite good_raws in Ecs.
    + injection Ecs as <-. simpl. by rewrite filter_map_comm, <-firstn_map.
    + apply Forall_take, filter_forall, rows_good.
  - intros e d res d' [= <- <-]. split; [split; [simpl; unfold captured; simpl; lia|simpl; lia]|].
    intros rows [= <-] He. eexists _, _. split; [done|]. split; [|simpl; split; [|reflexivity]].
    + change (or_zero (Some ?x)) with x. apply lsn_roundtrip. unfold lsn_range, captured, lsn_modulus. lia.
    + unfold captured. lia.
Qed.

(** ** A session *)

Definition demo_config : SqlServerSourceConfig :=
  {| cdc_schema := "cdc"; table_include_list := []; table_exclude_list := [];
     capture_truncate_events := false |}.

Definition demo_meta (i t : string) : CaptureInstanceMeta :=
  {| capture_instance := i; meta_schema := "dbo"; meta_table := t; meta_primary_key := ["id"];
     captured_columns := ["id"]; capture_floor := 1 |}.

Definition demo_metas : list CaptureInstanceMeta := [demo_meta "dbo_a" "a"; demo_meta "dbo_b" "b"].

Definition demo_connection : Connection Bed :=
  {| conn_config := demo_config;
     conn_state := {| connected := true; heartbeat_task := true; snapshot_lsn_start := None;
                      stream_lsn_start := None |};
     conn_poll_interval_ms := 100; conn_max_events := 2;
     conn_db := {| bed_harvested := 5; bed_truncates := [] |} |}.

Definition demo_reader : Reader Bed :=
  match start_sqlserver_stream None demo_connection with
  | (Ok r, _) => r
  | _ => {| config := demo_config; stream := {| lsn_start := 0; lsn_end := 0; change_tables := [];
              poll_interval_ms := 0; stream_cursor := None; pending_cursor := None |};
            metas := []; events_polled := 0; requeued_events := []; max_events_per_poll := 0;
            pending_update_befores := ∅; window_buffer := []; db := conn_db demo_connection |}
  end.

Definition demo_sip : string -> Z := fun _ => 0.
Definition demo_iteration : list CaptureInstanceMeta -> list CaptureInstanceMeta := fun l => l.
Definition calls (n : nat) : list (Z * list bool) := replicate n (0, [false]).

Definition shown (e : Event.Event) : string * string * option json * option json :=
  (Event.table e, Event.offset (Event.source e), Event.before e, Event.after e).

Abbreviation demo_session := (session demo_sip demo_iteration).

Definition demo_seen (run : Res (list Event.Event) * Reader Bed) : list Event.Event :=
  match fst run with Ok es => es | _ => [] end.

Lemma demo_load d loaded d' : load_capture_metas_for_config demo_config false false d = (Ok loaded, d') ->
  loaded = demo_metas /\ d' = d.
Proof. vm_compute. intros E. by simplify_eq. Qed.

Lemma demo_floor i t : i = "dbo_a" \/ i = "dbo_b" -> wf_meta (demo_meta i t).
Proof.
  intros [->| ->]; (split; [|done]); simpl;
    repeat (apply Forall_cons; split; [vm_compute; discriminate|]); apply Forall_nil_2.
Qed.

Lemma demo_quiet : quiet_catalog demo_iteration demo_config demo_metas.
Proof.
  constructor; [|by apply (bool_decide_unpack _)|done|done|].
  - apply Forall_cons. split; [apply demo_floor; by left|]. apply Forall_singleton, demo_floor. by right.
  - intros d loaded d' [-> ->]%demo_load. split; [apply later_refl|]. by repeat constructor.
Qed.

Lemma demo_standing r : config r = demo_config -> metas r = demo_metas -> requeued_events r = [] ->
  max_events_per_poll r = 2%nat -> stream_cursor (stream r) = None ->
  0 <= lsn_start (stream r) <= 100 -> 0 <= lsn_end (stream r) <= captured (db r) ->
  standing demo_config demo_metas r.
Proof.
  intros H1 H2 H3 H4 H5 H6 H7. constructor; [done..|rewrite H4; lia|].
  constructor; [unfold lsn_range, lsn_modulus; lia|done|by rewrite H5].
Qed.

Lemma demo_reader_standing : standing demo_config demo_metas demo_reader.
Proof. apply demo_standing; vm_compute; try done; split; done. Qed.

(** Four polls of pages of two read the first window and the next. *)
Definition demo_run := demo_session (calls 4) demo_reader.

Lemma demo_run_ok : demo_session (calls 4) demo_reader = (Ok (demo_seen demo_run), snd demo_run).
Proof. vm_compute. reflexivity. Qed.


(** A crash after two polls, and a restart from the saved position. *)
Definition first_run := demo_session (calls 2) demo_reader.
Definition restarted : Res (Reader Bed) * Connection Bed :=
  start_sqlserver_stream (Some (saved_offset (snd first_run)))
    {| conn_config := demo_config; conn_state := conn_state demo_connection; conn_poll_interval_ms := 100;
       conn_max_events := 2; conn_db := db (snd first_run) |}.
Definition second_reader : Reader Bed := match fst restarted with Ok r => r | _ => demo_reader end.
Definition second_run := demo_session (calls 3) second_reader.

Definition second_connection : Connection Bed :=
  {| conn_config := demo_config; conn_state := conn_state demo_connection; conn_poll_interval_ms := 100;
     conn_max_events := 2; conn_db := db (snd first_run) |}.

Lemma first_run_ok : demo_session (calls 2) demo_reader = (Ok (demo_seen first_run), snd first_run).
Proof. vm_compute. reflexivity. Qed.

Lemma restarted_ok :
  start_sqlserver_stream (Some (saved_offset (snd first_run))) second_connection
  = (Ok second_reader, snd restarted).
Proof. vm_compute. reflexivity. Qed.

Lemma second_run_ok : demo_session (calls 3) second_reader = (Ok (demo_seen second_run), snd second_run).
Proof. vm_compute. reflexivity. Qed.

Lemma second_reader_standing : standing demo_config demo_metas second_reader.
Proof. apply demo_standing; vm_compute; try done; split; done. Qed.


(** A page that ends between the two images of an update leaves the first in memory only: a
    restart from the position saved there delivers the update without its before-image. *)
Definition split_run := demo_session (calls 1) demo_reader.
Definition split_restart : Res (Reader Bed) * Connection Bed :=
  start_sqlserver_stream (Some (saved_offset (snd split_run))) second_connection.
Definition split_reader : Reader Bed := match fst split_restart with Ok r => r | _ => demo_reader end.

Lemma restart_splits_update :
  map shown (demo_seen (demo_session (calls 1) (snd split_run)))
  = [("a", "0x00000000000000000005", Some (JObj [("id", JStr "2")]), Some (JObj [("id", JStr "2")]))]
  /\ map shown (demo_seen (demo_session (calls 1) split_reader))
     = [("a", "0x00000000000000000005", None, Some (JObj [("id", JStr "2")]));
        ("b", "0x00000000000000000006", None, Some (JObj [("id", JStr "9")]))].
Proof. vm_compute. split; reflexivity. Qed.

(** ** Truncates *)

(** A failing truncate query leaves the changes it follows in the buffer without the cursor
    that says where the read was cut: the next poll drains them and advances past the rows
    of the window that were not read. *)
Definition truncating_config : SqlServerSourceConfig :=
  {| cdc_schema := "cdc"; table_include_list := []; table_exclude_list := [];
     capture_truncate_events := true |}.

Definition failing_reader : Reader Bed :=
  {| config := truncating_config; stream := stream demo_reader; metas := demo_metas; events_polled := 0;
     requeued_events := []; max_events_per_poll := 1; pending_update_befores := ∅; window_buffer := [];
     db := {| bed_harvested := 5; bed_truncates := [Err (SourceError "truncate query failed")] |} |}.

Definition failed_poll := next_events demo_sip demo_iteration 0 [] failing_reader.
Definition poll_after := next_events demo_sip demo_iteration 0 [] (snd failed_poll).

Lemma failed_truncate_query_skips_changes :
  fst failed_poll = Err (SourceError "truncate query failed")
  /\ map shown (demo_seen poll_after) = [("a", "0x00000000000000000005", None, Some (JObj [("id", JStr "1")]))]
  /\ stream_cursor (stream (snd poll_after)) = None
  /\ lsn_start (stream (snd poll_after)) = 6.
Proof. vm_compute. repeat split. Qed.

(** A start at a position the capture job has not harvested clamps the window's end up to
    it; the first poll finds nothing there and advances past the position. *)
Definition ahead_offset : DynOffset :=
  generic_dyn {| Offsets.source := "sqlserver"; bytes := print_json (JStr (lsn_bytes_to_hex 6)) |}.
Definition ahead : Res (Reader Bed) * Connection Bed :=
  start_sqlserver_stream (Some ahead_offset) demo_connection.

Lemma unharvested_start_clamps_window :
  match fst ahead with
  | Ok r => (lsn_start (stream r), lsn_end (stream r), captured (db r)) = (6, 6, 5)
            /\ next_window (lsn_start (stream r)) (lsn_end (stream r)) 7 6 = (7, 6)
  | _ => False
  end.
Proof. vm_compute. repeat split. Qed.

(** ** Handoff *)

Definition with_schema (sc : option string) (e : Event.Event) : Event.Event :=
  {| Event.before := Event.before e; Event.after := Event.after e; Event.op := Event.op e;
     Event.source := Event.source e; Event.ts := Event.ts e; Event.schema := sc;
     Event.table := Event.table e; Event.primary_key := Event.primary_key e;
     Event.snapshot := Event.snapshot e; Event.transaction := Event.transaction e;
     Event.envelope_version := Event.envelope_version e;
     Event.before_is_key_only := Event.before_is_key_only e;
     Event.unavailable_columns := Event.unavailable_columns e;
     Event.before_unavailable_columns := Event.before_unavailable_columns e |}.

(** The handoff's deduplication ignores the schema.  The key it compares is made of the
    table's name and the key columns, so of two changes of equally named tables in different
    schemas with the same key, the first is dropped and counted as an overlap. *)
Theorem handoff_drops_other_schema `{JsonCodec} (e : Event.Event) (s1 s2 : option string) :
  sqlserver_event_pk_fingerprint e <> None ->
  dedup_overlap_events_by_pk [with_schema s1 e; with_schema s2 e] = ([with_schema s2 e], 1).
Proof.
  intros Hk. unfold dedup_overlap_events_by_pk. cbn [dedup_loop].
  change (sqlserver_event_pk_fingerprint (with_schema ?s e)) with (sqlserver_event_pk_fingerprint e).
  destruct (sqlserver_event_pk_fingerprint e) as [k|]; [|done].
  rewrite lookup_empty, lookup_insert. by rewrite decide_True.
Qed.

Definition a_row : Event.Event :=
  build_sqlserver_event demo_sip (demo_meta "dbo_a" "a") "0x05" "0x01" 0 Event.Insert None
    (Some (JObj [("id", JStr "1")])).

Lemma handoff_drops_other_schema_witness :
  dedup_overlap_events_by_pk [with_schema (Some "sales") a_row; with_schema (Some "audit") a_row]
  = ([with_schema (Some "audit") a_row], 1).
Proof. apply handoff_drops_other_schema. vm_compute. discriminate. Defined.

(** ** A snapshot of two tables *)


Definition key_text (n : Z) : string := string_of_list_byte (print_json (JArr [jnat n])).

Definition demo_content (schema table : string) : list (string * string) :=
  if String.eqb table "a" then [(key_text 1, "10"); (key_text 2, "20"); (key_text 3, "30")]
  else if String.eqb table "b" then [(key_text 1, "11"); (key_text 2, "21")]
  else [].

Definition demo_table (table : string) (total : Z) : SqlServerSnapshot.TableSnapshotState :=
  {| SqlServerSnapshot.progress := {| SqlServerSnapshot.ts_table := "dbo." +:+ table; SqlServerSnapshot.total_rows := total; SqlServerSnapshot.rows_processed := 0;
                      SqlServerSnapshot.cursor_position := None; SqlServerSnapshot.ts_complete := total =? 0 |};
     SqlServerSnapshot.tss_schema := "dbo"; SqlServerSnapshot.tss_table := table; SqlServerSnapshot.primary_key_columns := ["id"];
     SqlServerSnapshot.column_names := ["id"] |}.

Definition demo_catalog : list SqlServerSnapshot.TableSnapshotState := [demo_table "a" 3; demo_table "b" 2].

(** How many chunk queries succeed. *)
Definition Quota : Type := nat.

Definition first_after (params : option (list SqlServerSnapshot.SqlServerCursorParam)) : option nat :=
  match params with
  | None => Some O
  | Some [SqlServerSnapshot.PInt n] => if (1 <=? n) && (n <=? 3) then Some (Z.to_nat n) else None
  | _ => None
  end.

Definition demo_chunk (q : SqlServerSnapshot.ChunkQuery) : M Quota (list (option string * option string)) := fun d =>
  match d, first_after (SqlServerSnapshot.cq_params q) with
  | Datatypes.S d', Some i =>
      let hit table := String.eqb (SqlServerSnapshot.cq_sql q)
        (SqlServerSnapshot.cq_sql (SqlServerSnapshot.chunk_query (demo_table table 0) (SqlServerSnapshot.cq_params q) 0)) in
      let rows table := map (fun r => (Some (fst r), Some (snd r)))
        (take (Z.to_nat (SqlServerSnapshot.cq_limit q)) (drop i (demo_content "dbo" table))) in
      if hit "a" then (Ok (rows "a"), d')
      else if hit "b" then (Ok (rows "b"), d')
      else (Err (SourceError "unknown statement"), d')
  | _, _ => (Err (SourceError "connection lost"), d)
  end.

#[local] Instance demo_snapshot_server : SqlServerSnapshot.SnapshotServer Quota := {
  SqlServerSnapshot.open_client := fun d => (Ok tt, d);
  SqlServerSnapshot.run_statement := fun _ d => (Ok None, d);
  SqlServerSnapshot.table_columns := fun _ _ d => (Ok [Some "id"], d);
  SqlServerSnapshot.table_key_columns := fun _ _ d => (Ok [Some "id"], d);
  SqlServerSnapshot.count_rows := fun _ d => (Ok (Some 3), d);
  SqlServerSnapshot.chunk_rows := demo_chunk;
}.

Definition demo_handle : SqlServerSnapshot.SqlServerSnapshotHandle := SqlServerSnapshot.new_handle 5 "demo" demo_catalog false.

Lemma demo_known t : SqlServerSnapshot.known demo_catalog t ->
  SqlServerSnapshot.tss_schema t = "dbo" /\ (SqlServerSnapshot.tss_table t = "a" \/ SqlServerSnapshot.tss_table t = "b")
  /\ SqlServerSnapshot.primary_key_columns t = ["id"] /\ SqlServerSnapshot.column_names t = ["id"].
Proof.
  intros H. inversion H as [? ? (H1 & H2 & H3 & H4)|? ? H']; subst; [by repeat split; auto|].
  inversion H' as [? ? (H1 & H2 & H3 & H4)|? ? H'']; subst; [by repeat split; auto|]. inversion H''.
Qed.

#[local] Opaque key_text.

Lemma content_key schema table i c r : demo_content schema table !! i = Some (c, r) ->
  c = key_text 1 /\ i = 0%nat \/ c = key_text 2 /\ i = 1%nat \/ c = key_text 3 /\ i = 2%nat.
Proof.
  unfold demo_content. destruct (String.eqb table "a"); [|destruct (String.eqb table "b")];
    destruct i as [|[|[|i]]]; simpl; intros E; simplify_eq; auto.
Qed.

#[local] Transparent key_text.

Lemma key_params n : n = 1 \/ n = 2 \/ n = 3 -> SqlServerSnapshot.cursor_params ["id"] (key_text n) = Ok [SqlServerSnapshot.PInt n].
Proof. intros [->|[->| ->]]; vm_compute; reflexivity. Qed.

Lemma demo_first_after t params i : SqlServerSnapshot.known demo_catalog t -> SqlServerSnapshot.starts_at demo_content t params i ->
  first_after params = Some i.
Proof.
  intros (E1 & _ & E3 & _)%demo_known Hs. unfold SqlServerSnapshot.starts_at in Hs. rewrite E1, E3 in Hs.
  destruct i as [|i], params as [ps|]; try done. destruct Hs as (c & r & Hc & Hp).
  apply content_key in Hc as [[-> ->]|[[-> ->]|[-> ->]]]; rewrite key_params in Hp by auto;
    injection Hp as <-; done.
Qed.

Lemma demo_chunk_law t params limit i d rows d' :
  SqlServerSnapshot.known demo_catalog t -> SqlServerSnapshot.starts_at demo_content t params i ->
  SqlServerSnapshot.chunk_rows (SqlServerSnapshot.chunk_query t params limit) d = (Ok rows, d') ->
  rows = map (fun r => (Some (fst r), Some (snd r)))
           (take limit (drop i (demo_content (SqlServerSnapshot.tss_schema t) (SqlServerSnapshot.tss_table t)))).
Proof.
  intros Hk Hs E. pose proof (demo_first_after _ _ _ Hk Hs) as Hf. apply demo_known in Hk as (E1 & E2 & E3 & E4).
  cbn in E. unfold demo_chunk in E. cbn [SqlServerSnapshot.chunk_query SqlServerSnapshot.cq_params SqlServerSnapshot.cq_limit SqlServerSnapshot.cq_sql] in E.
  rewrite Hf, E1, E3, E4, Nat2Z.id in E. destruct d as [|d]; [done|].
  destruct E2 as [E2|E2]; rewrite E2 in *.
  - cbn [demo_table SqlServerSnapshot.tss_schema SqlServerSnapshot.tss_table SqlServerSnapshot.primary_key_columns SqlServerSnapshot.column_names] in E.
    rewrite String.eqb_refl in E. injection E as <- _. by rewrite E1.
  - cbn [demo_table SqlServerSnapshot.tss_schema SqlServerSnapshot.tss_table SqlServerSnapshot.primary_key_columns SqlServerSnapshot.column_names] in E.
    rewrite String.eqb_refl in E. rewrite E1.
    assert (Hab : forall k, String.eqb
      (SqlServerSnapshot.build_snapshot_fetch_sql (qualified_table_name "dbo" "b") ["id"] ["id"] k (bool_decide (is_Some params)) None)
      (SqlServerSnapshot.build_snapshot_fetch_sql (qualified_table_name "dbo" "a") ["id"] ["id"] k (bool_decide (is_Some params)) None)
      = false).
    { intros k. apply String.eqb_neq. unfold SqlServerSnapshot.build_snapshot_fetch_sql. intros H.
      apply append_inj_l, append_inj_l in H. vm_compute in H. done. }
    rewrite Hab in E. by injection E as <- _.
Qed.

Lemma demo_fresh t total : t = "a" /\ total = 3 \/ t = "b" /\ total = 2 -> SqlServerSnapshot.fresh demo_content (demo_table t total).
Proof. intros [[-> ->]|[-> ->]]; (split; [vm_compute; lia|vm_compute; reflexivity]). Qed.

Lemma demo_stage : SqlServerSnapshot.stage demo_content demo_catalog demo_handle.
Proof.
  assert (Hk : Forall (SqlServerSnapshot.known demo_catalog) demo_catalog).
  { apply Forall_cons. split; [by left|]. apply Forall_singleton. right. by left. }
  constructor; [done|exact Hk| |vm_compute; reflexivity|vm_compute; discriminate].
  exists [], demo_catalog. do 3 (split; [constructor || done|]). split.
  - exists 0%nat. apply demo_fresh. auto.
  - apply Forall_singleton, demo_fresh. auto.
Qed.

Definition demo_sizes : list (Z * nat) := replicate 6 (0, 2%nat).
Definition snapshot_run := SqlServerSnapshot.chunks demo_sizes (demo_handle, 100%nat : Quota).
Definition snapshot_events : list Event.Event := match fst snapshot_run with Ok es => es | _ => [] end.

Lemma snapshot_run_ok : SqlServerSnapshot.chunks demo_sizes (demo_handle, 100%nat : Quota)
  = (Ok snapshot_events, (fst (snd snapshot_run), snd (snd snapshot_run))).
Proof. vm_compute. reflexivity. Qed.


(** A checkpoint after the first chunk, resumed on a new handle. *)
Definition checkpointed : SqlServerSnapshot.SqlServerSnapshotHandle :=
  fst (snd (SqlServerSnapshot.chunks [(0, 2%nat)] (demo_handle, 100%nat : Quota))).
Definition new_demo_handle : SqlServerSnapshot.SqlServerSnapshotHandle := SqlServerSnapshot.new_handle 9 "again" demo_catalog true.
Definition demo_payload : list byte :=
  match encode (SqlServerSnapshot.snapshot_offset checkpointed) with Ok b => b | _ => [] end.

Lemma snapshot_resumes_where_checkpointed_witness :
  SqlServerSnapshot.emitted_rows checkpointed = 2 /\
  exists h1, SqlServerSnapshot.resume_from_checkpoint_payload new_demo_handle demo_payload = Ok h1
    /\ SqlServerSnapshot.h_tables h1 = SqlServerSnapshot.h_tables checkpointed /\ SqlServerSnapshot.current_table h1 = SqlServerSnapshot.current_table checkpointed
    /\ SqlServerSnapshot.next_chunk_index h1 = SqlServerSnapshot.next_chunk_index checkpointed
    /\ SqlServerSnapshot.emitted_rows h1 = SqlServerSnapshot.emitted_rows checkpointed
    /\ SqlServerSnapshot.snap_lsn_start (SqlServerSnapshot.snapshot h1) = SqlServerSnapshot.snap_lsn_start (SqlServerSnapshot.snapshot checkpointed)
    /\ SqlServerSnapshot.snap_id (SqlServerSnapshot.snapshot h1) = SqlServerSnapshot.snap_id (SqlServerSnapshot.snapshot checkpointed)
    /\ SqlServerSnapshot.has_client h1 = SqlServerSnapshot.has_client new_demo_handle
    /\ SqlServerSnapshot.transaction_open h1 = SqlServerSnapshot.transaction_open new_demo_handle.
Proof.
  split; [vm_compute; reflexivity|].
  apply (SqlServerSnapshot.snapshot_resumes_where_checkpointed (JL := Json.RefCodec.laws)); [| | | |reflexivity].
  - constructor; [vm_compute; split; [discriminate|reflexivity]|vm_compute; split; discriminate
                 |vm_compute; discriminate|].
    repeat (apply Forall_cons; split; [repeat split; vm_compute; discriminate|]); apply Forall_nil_2.
  - vm_compute. repeat constructor.
  - vm_compute. reflexivity.
  - vm_compute. discriminate.
Defined.

(** A failed query in the middle of a chunk: the rows of the chunk's earlier tables are
    counted as emitted and the cursor is past them, but the call returns the error alone; a
    caller that asks for the next chunk gets the rows after them. *)
Definition interrupted := SqlServerSnapshot.next_sqlserver_snapshot_chunk 0 5 (demo_handle, 1%nat : Quota).

Lemma failed_chunk_skips_its_rows :
  fst interrupted = Err (SourceError "connection lost")
  /\ SqlServerSnapshot.emitted_rows (fst (snd interrupted)) = 3
  /\ match SqlServerSnapshot.next_sqlserver_snapshot_chunk 0 5 (fst (snd interrupted), 100%nat : Quota) with
     | (Ok es, (h, d)) =>
         map SqlServerSnapshot.shown es = [("dbo", "b", JObj [("id", JStr "11")]); ("dbo", "b", JObj [("id", JStr "21")])]
         /\ fst (SqlServerSnapshot.finish_sqlserver_snapshot 0 (h, d)) = Ok 0
     | _ => False
     end.
Proof. vm_compute. repeat split. Qed.

(** Progress is restored by position in the list of tables: given in another order, a table
    takes over the progress of the one that stood in its place. *)
Definition swapped_handle : SqlServerSnapshot.SqlServerSnapshotHandle :=
  SqlServerSnapshot.new_handle 9 "again" [demo_table "b" 2; demo_table "a" 3] false.

Lemma resume_ignores_table_names :
  match SqlServerSnapshot.resume_from_checkpoint_payload swapped_handle demo_payload with
  | Ok h =>
      match SqlServerSnapshot.chunks (replicate 6 (0, 2%nat)) (h, 100%nat : Quota) with
      | (Ok es, (h', d')) =>
          map (fun e => snd (SqlServerSnapshot.shown e)) es
          = [JObj [("id", JStr "10")]; JObj [("id", JStr "20")]]
          /\ fst (SqlServerSnapshot.finish_sqlserver_snapshot 0 (h', d'))
             = Err (SourceError "sqlserver snapshot consistency check failed: not all rows were emitted")
      | _ => False
      end
  | _ => False
  end.
Proof. vm_compute. repeat split. Qed.

(** ** An incremental snapshot *)

#[local] Instance demo_incremental_client : SqlServerIncremental.IncrementalClient Quota := {
  SqlServerIncremental.max_lsn_row := fun d => (Ok (Some (lsn_bytes_to_hex 5)), d);
  SqlServerIncremental.clock := fun d => (Ok 0, d);
}.

(** A driver that has emitted two rows of a table. *)
Definition demo_driver : Driver.Driver.Driver Quota (Reader Bed) LSN :=
  {| Driver.Driver.backend := 100%nat; Driver.Driver.inner := demo_reader;
     Driver.Driver.tables :=
       [{| Driver.Driver.spec :=
             {| Driver.Driver.tbl_schema := "dbo"; Driver.Driver.tbl_name := "a";
                Driver.Driver.qualified := "[dbo].[a]"; Driver.Driver.pk_columns := ["id"];
                Driver.Driver.pk_types := []; Driver.Driver.columns := ["id"];
                Driver.Driver.tbl_condition := None |};
           Driver.Driver.pk_cursor := Some [jnat 2]; Driver.Driver.is_complete := false;
           Driver.Driver.chunks_emitted := 1; Driver.Driver.rows_emitted := 2 |}];
     Driver.Driver.phase := Driver.Driver.ChunkPrepare 0; Driver.Driver.chunk_size := 2;
     Driver.Driver.table_conditions := []; Driver.Driver.source_name := "sqlserver";
     Driver.Driver.snapshot_id := "demo"; Driver.Driver.events_emitted := 2;
     Driver.Driver.paused := false; Driver.Driver.generation := 0; Driver.Driver.stopped := false;
     Driver.Driver.deferred := [] |}.

Lemma sqlserver_save_forgets_progress_witness :
  Driver.Driver.driver_position_offset (H0 := SqlServerIncremental.SqlServerSnapshotBackend)
    (H1 := SqlServerIncremental.SqlServerStreamHandle demo_sip demo_iteration 0 (fun _ => [])) demo_driver = None
  /\ exists o, state_from_offset (Some o) = None
     /\ forall (C : Type) (HC : Checkpoint C) (store : C), Driver.Driver.deferred demo_driver = [] ->
        Driver.Driver.driver_save_position (H0 := SqlServerIncremental.SqlServerSnapshotBackend)
          (H1 := SqlServerIncremental.SqlServerStreamHandle demo_sip demo_iteration 0 (fun _ => []))
          SqlServerIncremental.inner_save demo_driver store
        = save o (events_polled (Driver.Driver.inner demo_driver)) store.
Proof.
  exact (SqlServerIncremental.sqlserver_save_forgets_progress (JL := Json.RefCodec.laws)
    demo_sip demo_iteration 0 (fun _ => []) demo_driver).
Defined.

End SqlServerDemo.
