(* ===== verification/Snowflake.v ===== *)
(** * Snowflake: the Snowflake source

    Models [src/src/source/snowflake.rs] with [sql.rs], [mapping.rs], [stream.rs] and
    [snapshot.rs] under [source/snowflake/]: the statements it sends, the events it makes of
    a [CHANGES] result, the windows of the stream, the chunks of the snapshot and the source
    that starts both.  The transport is the embedder's, in the code a trait and here a class
    of one query; the source, the stream and the snapshot share it, so each operation runs on
    its own state beside that of the executor. *)

From stdpp Require Import sorting.
From S2P Require Import Prelude Errors CheckpointApi Strs Json Offsets Glob Event Monad Driver PgParser Text Lifecycle MysqlStart.

Module Snowflake.

Local Open Scope string_scope.
Local Open Scope Z_scope.

(** ** Statements *)

(** [identifier.replace] of the quote by two, between quotes. *)
Definition quote_identifier (identifier : string) : string :=
  String PgParser.dquote (PgParser.double_quotes identifier +:+ String PgParser.dquote "").

Definition validate_identifier (value : string) : Res unit :=
  if is_empty value then Err (ConfigError "snowflake identifier must not be empty")
  else if (255 <? String.length value)%nat then
    Err (ConfigError "snowflake identifier exceeds the 255-character identifier limit")
  else if PgParser.has_control value then
    Err (ConfigError "snowflake identifier contains a control character")
  else Ok tt.

Definition qualified_name (database schema table : string) : string :=
  quote_identifier database +:+ "." +:+ quote_identifier schema +:+ "." +:+ quote_identifier table.

Definition current_epoch_nanos_statement : string :=
  "SELECT DATE_PART(EPOCH_NANOSECOND, CURRENT_TIMESTAMP())::VARCHAR AS NOW_NANOS".

Definition timestamp_expr (epoch_nanos : Z) : string :=
  "TO_TIMESTAMP_LTZ(" +:+ show epoch_nanos +:+ ", 9)".

Definition changes_statement (database schema table : string) (from_nanos to_nanos : Z)
    (append_only : bool) : string :=
  "SELECT * FROM " +:+ qualified_name database schema table +:+ " CHANGES(INFORMATION => "
  +:+ (if append_only then "APPEND_ONLY" else "DEFAULT") +:+ ") AT(TIMESTAMP => "
  +:+ timestamp_expr from_nanos +:+ ") END(TIMESTAMP => " +:+ timestamp_expr to_nanos +:+ ")".

Fixpoint double_apostrophes (s : string) : string :=
  match s with
  | "" => ""
  | String a s' =>
      if Ascii.eqb a "'" then String a (String a (double_apostrophes s'))
      else String a (double_apostrophes s')
  end.

Definition quote_literal (value : string) : string := "'" +:+ double_apostrophes value +:+ "'".

(** [slice.join(", ")] *)
Fixpoint comma_list (l : list string) : string :=
  match l with
  | [] => ""
  | [x] => x
  | x :: l' => x +:+ ", " +:+ comma_list l'
  end.

Definition snapshot_chunk_statement (database schema table : string) (at_nanos : Z)
    (primary_key : list string) (after : option (list string)) (chunk_size : nat) : string :=
  let columns := map quote_identifier primary_key in
  let predicate :=
    match after with
    | Some (v :: vs) =>
        " WHERE (" +:+ comma_list columns +:+ ") > (" +:+ comma_list (map quote_literal (v :: vs)) +:+ ")"
    | _ => ""
    end in
  "SELECT * FROM " +:+ qualified_name database schema table +:+ " AT(TIMESTAMP => "
  +:+ timestamp_expr at_nanos +:+ ")" +:+ predicate +:+ " ORDER BY " +:+ comma_list columns
  +:+ " LIMIT " +:+ show (Z.of_nat chunk_size).

(** ** Result sets *)

Definition METADATA_ACTION : string := "METADATA$ACTION".
Definition METADATA_ISUPDATE : string := "METADATA$ISUPDATE".
Definition METADATA_ROW_ID : string := "METADATA$ROW_ID".

Record SnowflakeResultSet := {
  columns : list string;
  rows : list (list (option string));
}.

Definition scalar (r : SnowflakeResultSet) : option string :=
  match rows r with [row] => mjoin (head row) | _ => None end.

Fixpoint position (name : string) (l : list string) : option nat :=
  match l with
  | [] => None
  | c :: l' => if String.eqb c name then Some 0%nat else S <$> position name l'
  end.

Definition column_index (r : SnowflakeResultSet) (name : string) : option nat := position name (columns r).

Record ChangeRow := {
  action : string;
  is_update : bool;
  row_id : string;
  payload : json;
}.

(** [str::to_ascii_uppercase] *)
Fixpoint to_ascii_uppercase (s : string) : string :=
  match s with "" => "" | String a s' => String (Text.upper_ascii a) (to_ascii_uppercase s') end.

(** [str::trim] *)
Definition trim_text (s : string) : string := Text.str (Text.strip (Text.chars s)).

Definition cell (v : option string) : json := match v with Some t => JStr t | None => JNull end.

(** The columns of a row from [index] on, but for those [skip] names. *)
Fixpoint row_fields (skip : nat -> bool) (index : nat) (cols : list string) (row : list (option string))
    : list (string * json) :=
  match cols, row with
  | c :: cols', v :: row' =>
      if skip index then row_fields skip (S index) cols' row'
      else (c, cell v) :: row_fields skip (S index) cols' row'
  | _, _ => []
  end.

Definition shown_true (v : option string) : bool :=
  match trim_text <$> v with
  | Some t => existsb (String.eqb t) ["true"; "TRUE"; "True"; "1"]
  | None => false
  end.

Definition parse_row (cols : list string) (action_at update_at row_id_at : nat) (row : list (option string))
    : Res ChangeRow :=
  if negb (length row =? length cols)%nat then
    Err (SourceError "snowflake CHANGES result has a row that does not match its columns")
  else
    match mjoin (row !! action_at) with
    | None => Err (SourceError "snowflake CHANGES result has a NULL METADATA$ACTION")
    | Some a =>
        Ok {| action := to_ascii_uppercase a;
              is_update := shown_true (mjoin (row !! update_at));
              row_id := default "" (mjoin (row !! row_id_at));
              payload := JObj (obj_of (row_fields
                (fun i => (i =? action_at) || (i =? update_at) || (i =? row_id_at))%nat 0 cols row)) |}
    end.

Definition missing {A} (i : option A) : Res A :=
  match i with
  | Some a => Ok a
  | None => Err (SourceError "snowflake CHANGES result has no change metadata column")
  end.

Definition parse_rows (r : SnowflakeResultSet) : Res (list ChangeRow) :=
  action_at <-? missing (column_index r METADATA_ACTION);
  update_at <-? missing (column_index r METADATA_ISUPDATE);
  row_id_at <-? missing (column_index r METADATA_ROW_ID);
  map_res (parse_row (columns r) action_at update_at row_id_at) (rows r).

(** ** Events of a window *)

(** The rows by their identity, and the identities in the order they came. *)
Definition group_rows (l : list ChangeRow) : gmap string (list ChangeRow) * list string :=
  fold_left (fun go row =>
    let '(grouped, order) := go in
    (<[row_id row := (default [] (grouped !! row_id row) ++ [row])%list]> grouped,
     if decide (is_Some (grouped !! row_id row)) then order else (order ++ [row_id row])%list))
    l (∅, []).

Definition str_le (a b : string) : Prop := String.compare a b <> Gt.

#[global] Instance str_le_dec a b : Decision (str_le a b).
Proof. unfold str_le. apply _. Defined.

Definition has_action (a : string) (row : ChangeRow) : bool := String.eqb (action row) a.

(** What the rows of one identity say: the image before, the image after, the operation. *)
Definition change_image (group : list ChangeRow) : Res (option json * option json * Event.Operation) :=
  if (length group =? 2)%nat && forallb is_update group then
    match List.find (has_action "DELETE") group, List.find (has_action "INSERT") group with
    | Some d, Some i => Ok (Some (payload d), Some (payload i), Event.Update)
    | _, _ => Err (SourceError "snowflake CHANGES result has an update that is not one DELETE and one INSERT")
    end
  else
    match group with
    | [row] =>
        if has_action "INSERT" row then Ok (None, Some (payload row), Event.Insert)
        else if has_action "DELETE" row then Ok (Some (payload row), None, Event.Delete)
        else Err (SourceError "snowflake CHANGES result has an action that is neither INSERT nor DELETE")
    | _ => Err (SourceError "snowflake CHANGES result has an unexpected number of rows for one identity")
    end.

Definition epoch_millis_from_nanos (nanos : Z) : Z := nanos / 1000000.

Definition change_event (source_name schema table : string) (primary_key : option (list string))
    (window_end_nanos : Z) (image : option json * option json * Event.Operation) : Event.Event :=
  let ts := epoch_millis_from_nanos window_end_nanos in
  let '(before, after, op) := image in
  {| Event.before := before; Event.after := after; Event.op := op;
     Event.source := {| Event.source_name := source_name; Event.offset := show window_end_nanos;
                        Event.timestamp := ts |};
     Event.ts := ts; Event.schema := Some schema; Event.table := table;
     Event.primary_key := primary_key; Event.snapshot := None; Event.transaction := None;
     Event.envelope_version := Event.EVENT_ENVELOPE_VERSION; Event.before_is_key_only := false;
     Event.unavailable_columns := []; Event.before_unavailable_columns := [] |}.

Definition events_from_changes (r : SnowflakeResultSet) (source_name schema table : string)
    (primary_key : option (list string)) (window_end_nanos : Z) : Res (list Event.Event) :=
  parsed <-? parse_rows r;
  let '(grouped, order) := group_rows parsed in
  map_res (fun id =>
    image <-? change_image (default [] (grouped !! id));
    Ok (change_event source_name schema table primary_key window_end_nanos image))
    (merge_sort str_le order).

Record SnapshotRowContext := {
  ctx_source_name : string;
  ctx_schema : string;
  ctx_table : string;
  ctx_primary_key : list string;
  ctx_at_nanos : Z;
  ctx_snapshot_id : string;
  ctx_chunk_index : Z;
  ctx_is_last_chunk : bool;
}.

Definition snapshot_event (c : SnapshotRowContext) (cols : list string) (row : list (option string))
    : Event.Event :=
  let ts := epoch_millis_from_nanos (ctx_at_nanos c) in
  {| Event.before := None; Event.after := Some (JObj (obj_of (row_fields (fun _ => false) 0 cols row)));
     Event.op := Event.Read;
     Event.source := {| Event.source_name := ctx_source_name c; Event.offset := show (ctx_at_nanos c);
                        Event.timestamp := ts |};
     Event.ts := ts; Event.schema := Some (ctx_schema c); Event.table := ctx_table c;
     Event.primary_key := Some (ctx_primary_key c);
     Event.snapshot := Some {| Event.snapshot_id := ctx_snapshot_id c;
                               Event.chunk_index := ctx_chunk_index c;
                               Event.is_last_chunk := ctx_is_last_chunk c |};
     Event.transaction := None; Event.envelope_version := Event.EVENT_ENVELOPE_VERSION;
     Event.before_is_key_only := false; Event.unavailable_columns := [];
     Event.before_unavailable_columns := [] |}.

Definition events_from_snapshot_rows (r : SnowflakeResultSet) (c : SnapshotRowContext)
    : Res (list Event.Event) :=
  map_res (fun row =>
    if negb (length row =? length (columns r))%nat then
      Err (SourceError "snowflake snapshot result has a row that does not match its columns")
    else Ok (snapshot_event c (columns r) row)) (rows r).

(** ** Configuration *)

Record SnowflakeSourceConfig := {
  cfg_database : string;
  cfg_schema : string;
  cfg_tables : list string;
  primary_keys : gmap string (list string);
  append_only : bool;
  poll_interval_ms : Z;
  max_events_per_poll : nat;
  snapshot_chunk_size : nat;
  table_include_list : list string;
  table_exclude_list : list string;
  cfg_source_name : string;
}.

Definition new_config (database schema : string) : SnowflakeSourceConfig :=
  {| cfg_database := database; cfg_schema := schema; cfg_tables := []; primary_keys := ∅;
     append_only := false; poll_interval_ms := 30000; max_events_per_poll := Z.to_nat 10000;
     snapshot_chunk_size := Z.to_nat 10000; table_include_list := []; table_exclude_list := [];
     cfg_source_name := "snowflake" |}.

(** The builder's setters. *)
Definition with_tables (ts : list string) (c : SnowflakeSourceConfig) : SnowflakeSourceConfig :=
  {| cfg_database := cfg_database c; cfg_schema := cfg_schema c; cfg_tables := ts;
     primary_keys := primary_keys c; append_only := append_only c;
     poll_interval_ms := poll_interval_ms c; max_events_per_poll := max_events_per_poll c;
     snapshot_chunk_size := snapshot_chunk_size c; table_include_list := table_include_list c;
     table_exclude_list := table_exclude_list c; cfg_source_name := cfg_source_name c |}.

Definition with_primary_key (t : string) (key : list string) (c : SnowflakeSourceConfig) : SnowflakeSourceConfig :=
  {| cfg_database := cfg_database c; cfg_schema := cfg_schema c; cfg_tables := cfg_tables c;
     primary_keys := <[t := key]> (primary_keys c); append_only := append_only c;
     poll_interval_ms := poll_interval_ms c; max_events_per_poll := max_events_per_poll c;
     snapshot_chunk_size := snapshot_chunk_size c; table_include_list := table_include_list c;
     table_exclude_list := table_exclude_list c; cfg_source_name := cfg_source_name c |}.

Definition with_append_only (b : bool) (c : SnowflakeSourceConfig) : SnowflakeSourceConfig :=
  {| cfg_database := cfg_database c; cfg_schema := cfg_schema c; cfg_tables := cfg_tables c;
     primary_keys := primary_keys c; append_only := b; poll_interval_ms := poll_interval_ms c;
     max_events_per_poll := max_events_per_poll c;
     snapshot_chunk_size := snapshot_chunk_size c; table_include_list := table_include_list c;
     table_exclude_list := table_exclude_list c; cfg_source_name := cfg_source_name c |}.

Definition with_poll_interval_ms (ms : Z) (c : SnowflakeSourceConfig) : SnowflakeSourceConfig :=
  {| cfg_database := cfg_database c; cfg_schema := cfg_schema c; cfg_tables := cfg_tables c;
     primary_keys := primary_keys c; append_only := append_only c; poll_interval_ms := ms;
     max_events_per_poll := max_events_per_poll c;
     snapshot_chunk_size := snapshot_chunk_size c; table_include_list := table_include_list c;
     table_exclude_list := table_exclude_list c; cfg_source_name := cfg_source_name c |}.

Fixpoint check_all {A} (f : A -> Res unit) (l : list A) : Res unit :=
  match l with [] => Ok tt | x :: l' => _ <-? f x; check_all f l' end.

Definition validate (c : SnowflakeSourceConfig) : Res unit :=
  _ <-? validate_identifier (cfg_database c);
  _ <-? validate_identifier (cfg_schema c);
  match cfg_tables c with
  | [] => Err (ConfigError "snowflake source needs at least one table in `tables`")
  | _ =>
      _ <-? check_all validate_identifier (cfg_tables c);
      _ <-? check_all (fun kv =>
              match snd kv with
              | [] => Err (ConfigError "snowflake primary key names no columns")
              | key => check_all validate_identifier key
              end) (map_to_list (primary_keys c));
      if poll_interval_ms c =? 0 then
        Err (ConfigError "snowflake poll_interval_ms must be greater than zero")
      else Ok tt
  end.

Definition selected_tables (c : SnowflakeSourceConfig) : list string :=
  List.filter (fun t => Glob.table_is_allowed (Some (cfg_schema c)) t (table_include_list c)
                          (table_exclude_list c)) (cfg_tables c).

(** ** Failures *)

Definition source_kind_as_str (k : SourceErrorKind) : string :=
  match k with
  | NetworkTransient => "network_transient" | AuthFailed => "auth_failed"
  | SchemaMismatch => "schema_mismatch" | SlotNotFound => "slot_not_found"
  | QuotaExceeded => "quota_exceeded" | Unknown => "unknown"
  end.

(** Rust's [Debug] of a list of strings, whose escapes depend on Unicode tables. *)
Class DebugText := debug_strings : list string -> string.

(** The [Display] of an error. *)
Definition error_text `{DebugText} (e : Error) : string :=
  match e with
  | SourceError m => "source error: " +:+ m
  | ClassifiedSourceError k m => "source error [" +:+ source_kind_as_str k +:+ "]: " +:+ m
  | Context c _ => c
  | CheckpointError m => "checkpoint error: " +:+ m
  | SchemaError m => "schema error: " +:+ m
  | ValidationError l => "validation error(s): " +:+ debug_strings l
  | ConfigError m => "configuration error: " +:+ m
  | IoError m => m
  | SerializationError m => "serialization error: " +:+ m
  | TimeoutError m => "timeout error: " +:+ m
  | Unrecoverable m => "unrecoverable error: " +:+ m
  | Backpressure m => "backpressure: " +:+ m
  | Aggregate _ d => d
  | StateError m => "state error: " +:+ m
  | TransformError m => "transform error: " +:+ m
  | NotImplemented m => "not implemented: " +:+ m
  | PostCommitConfirmFailed _ d =>
      "post-commit confirm failed (checkpoint is safe — replay is safe): " +:+ d
  end.

Definition out_of_retention (text : string) : bool :=
  contains_str "time travel" text || contains_str "out of retention" text
  || contains_str "data is not available" text || contains_str "beyond the retention" text.

Definition classify_window_error `{DebugText} (e : Error) : Error :=
  let text := lower (error_text e) in
  if out_of_retention text then
    SourceError ("snowflake refused a change window outside the table's time-travel retention: " +:+ error_text e)
  else if contains_str "change_tracking" text || contains_str "change tracking" text then
    SourceError ("snowflake refused a change window, change tracking must be enabled: " +:+ error_text e)
  else e.

(** ** The executor *)

(** [SnowflakeQueryExecutor]: a statement and its result set. *)
Class Executor (X : Type) := query : string -> M X SnowflakeResultSet.

Section Source.
Context `{DebugText} `{JsonCodec} {X : Type} `{Executor X}.

(** An operation of the executor, beside a state of its user's. *)
Definition on_executor {S A} (m : M X A) : M (S * X) A := fun s =>
  let '(r, x) := m (snd s) in (r, (fst s, x)).

Definition with_state {S} (f : S -> S) : M (S * X) unit := modify (fun s => (f (fst s), snd s)).
Definition of_state {S A} (f : S -> A) : M (S * X) A := gets (fun s => f (fst s)).

Definition server_now_nanos : M X Z :=
  result ← query current_epoch_nanos_statement;
  match scalar result with
  | None => throw (SourceError "snowflake did not return a single value for CURRENT_TIMESTAMP()")
  | Some raw =>
      match parse_u64 (trim_text raw) with
      | Some n => mret n
      | None => throw (SourceError "snowflake returned a current epoch nanosecond that is not an unsigned integer")
      end
  end.

(** ** The stream *)

Record SnowflakeStreamHandle := {
  config : SnowflakeSourceConfig;
  position_nanos : Z;
  tables : list string;
  events_polled : Z;
}.

Definition new_stream (c : SnowflakeSourceConfig) (start_nanos : Z) : Res SnowflakeStreamHandle :=
  match selected_tables c with
  | [] => Err (ConfigError "snowflake source has no tables to read")
  | ts => Ok {| config := c; position_nanos := start_nanos; tables := ts; events_polled := 0 |}
  end.

(** The window [(from, upper]] of every table, in their order. *)
Fixpoint read_window (c : SnowflakeSourceConfig) (from upper : Z) (ts : list string)
    : M X (list Event.Event) :=
  match ts with
  | [] => mret []
  | t :: ts' =>
      result ← map_err classify_window_error
        (query (changes_statement (cfg_database c) (cfg_schema c) t from upper (append_only c)));
      es ← of_res (events_from_changes result (cfg_source_name c) (cfg_schema c) t (primary_keys c !! t) upper);
      rest ← read_window c from upper ts';
      mret (es ++ rest)%list
  end.

Definition advance (upper : Z) (n : nat) (h : SnowflakeStreamHandle) : SnowflakeStreamHandle :=
  {| config := config h; position_nanos := upper; tables := tables h;
     events_polled := saturating_add (events_polled h) (Z.of_nat n) |}.

Definition next_events : M (SnowflakeStreamHandle * X) (list Event.Event) :=
  upper ← on_executor server_now_nanos;
  h ← of_state id;
  if upper <=? position_nanos h then mret []
  else
    es ← on_executor (read_window (config h) (position_nanos h) upper (tables h));
    with_state (advance upper (length es));;
    mret es.

Definition stream_offset (h : SnowflakeStreamHandle) : SnowflakeOffset :=
  {| window_end_nanos := position_nanos h; database := cfg_database (config h); schema := cfg_schema (config h) |}.

Definition save_position {C} `{Checkpoint C} (c : C) (h : SnowflakeStreamHandle) : Res unit * C :=
  save (snowflake_dyn (stream_offset h)) (events_polled h) c.

(** The methods the handle does not implement are the trait's defaults. *)
#[export] Instance SnowflakeStream_StreamHandle : Driver.StreamHandle (SnowflakeStreamHandle * X) := {
  Driver.next_events := fun _ => next_events;
  Driver.position_offset := fun s => Some (snowflake_dyn (stream_offset (fst s)));
  Driver.incremental_snapshot_state := fun _ => None;
  Driver.resume_offset_for := fun _ _ => None;
  Driver.requeue_events := fun _ => mret tt;
  Driver.confirm_lsn := fun _ => mret tt;
}.

(** ** The snapshot *)

Record SnowflakeSnapshotHandle := {
  snap_config : SnowflakeSourceConfig;
  at_nanos : Z;
  snap_id : string;
  remaining : list string;      (* a stack: the table being read is the last *)
  cursor : option (list string);
  chunk_index : Z;
}.

Definition new_snapshot (c : SnowflakeSourceConfig) (at_n : Z) (ts : list string)
    : Res SnowflakeSnapshotHandle :=
  _ <-? check_all (fun t =>
          match primary_keys c !! t with
          | Some (_ :: _) => Ok tt
          | _ => Err (ConfigError "snowflake snapshot needs the table's key columns declared")
          end) ts;
  Ok {| snap_config := c; at_nanos := at_n; snap_id := "snowflake-" +:+ show at_n;
        remaining := rev ts; cursor := None; chunk_index := 0 |}.

Definition snap_key_of (h : SnowflakeSnapshotHandle) (t : string) : list string :=
  default [] (primary_keys (snap_config h) !! t).

Definition with_cursor (r : list string) (c : option (list string)) (h : SnowflakeSnapshotHandle)
    : SnowflakeSnapshotHandle :=
  {| snap_config := snap_config h; at_nanos := at_nanos h; snap_id := snap_id h;
     remaining := r; cursor := c; chunk_index := chunk_index h |}.

Definition bump_chunk (h : SnowflakeSnapshotHandle) : SnowflakeSnapshotHandle :=
  {| snap_config := snap_config h; at_nanos := at_nanos h; snap_id := snap_id h;
     remaining := remaining h; cursor := cursor h;
     chunk_index := Driver.saturating_add_u32 (chunk_index h) 1 |}.

(** [remaining.pop()] and a fresh cursor. *)
Definition pop_table (h : SnowflakeSnapshotHandle) : SnowflakeSnapshotHandle :=
  with_cursor (removelast (remaining h)) None h.

Definition cursor_value (after : option object) (column : string) : Res string :=
  match m ← after; obj_get column m with
  | None => Err (SourceError "snowflake snapshot row does not contain a declared key column")
  | Some (JStr text) => Ok text
  | Some JNull => Err (SourceError "snowflake snapshot found NULL in a key column")
  | Some other => Ok (string_of_list_byte (print_json other))
  end.

Definition row_context (h : SnowflakeSnapshotHandle) (t : string) (last : bool) : SnapshotRowContext :=
  {| ctx_source_name := cfg_source_name (snap_config h); ctx_schema := cfg_schema (snap_config h);
     ctx_table := t; ctx_primary_key := snap_key_of h t; ctx_at_nanos := at_nanos h;
     ctx_snapshot_id := snap_id h; ctx_chunk_index := chunk_index h; ctx_is_last_chunk := last |}.

Definition chunk_query (h : SnowflakeSnapshotHandle) (t : string) (chunk_size : nat) : M X SnowflakeResultSet :=
  map_err classify_window_error
    (query (snapshot_chunk_statement (cfg_database (snap_config h)) (cfg_schema (snap_config h)) t
              (at_nanos h) (snap_key_of h t) (cursor h) chunk_size)).

(** The rest of a turn whose query answered rows. *)
Definition emit_chunk (chunk_size : nat) (t : string) (result : SnowflakeResultSet)
    : M (SnowflakeSnapshotHandle * X) (list Event.Event) :=
  h ← of_state id;
  let table_exhausted := (length (rows result) <? chunk_size)%nat in
  let is_last_chunk := table_exhausted && (length (remaining h) =? 1)%nat in
  es ← of_res (events_from_snapshot_rows result (row_context h t is_last_chunk));
  with_state bump_chunk;;
  match last es with
  | None => throw (SourceError "snowflake snapshot chunk produced no events")
  | Some e =>
      next_cursor ← of_res (map_res (cursor_value (Event.after e ≫= as_object)) (snap_key_of h t));
      with_state (with_cursor (remaining h) (Some next_cursor));;
      (if table_exhausted then with_state pop_table else mret tt);;
      mret es
  end.

(** A turn that finds a table empty takes it off the stack, so as many turns as there are
    tables are enough. *)
Fixpoint chunk_loop (fuel chunk_size : nat) : M (SnowflakeSnapshotHandle * X) (list Event.Event) :=
  h ← of_state id;
  match last (remaining h), fuel with
  | None, _ => mret []
  | Some _, O => of_res Panic
  | Some t, S fuel' =>
      result ← on_executor (chunk_query h t chunk_size);
      match rows result with
      | [] => with_state pop_table;; chunk_loop fuel' chunk_size
      | _ => emit_chunk chunk_size t result
      end
  end.

Definition next_chunk (chunk_size : nat) : M (SnowflakeSnapshotHandle * X) (list Event.Event) :=
  h ← of_state id;
  chunk_loop (length (remaining h)) (Nat.max chunk_size 1).

Definition snapshot_checkpoint {C} `{Checkpoint C} (committed : Z) (c : C) (h : SnowflakeSnapshotHandle)
    : Res unit * C :=
  save (snowflake_dyn {| window_end_nanos := at_nanos h; database := cfg_database (snap_config h);
                         schema := cfg_schema (snap_config h) |}) committed c.

(** [finish] answers the clock. *)
Definition finish (now : Z) : M (SnowflakeSnapshotHandle * X) Z := mret now.

(** ** The source *)

Record SnowflakeSource := {
  src_config : SnowflakeSourceConfig;
  snapshot_pin_nanos : option Z;
}.

Definition new_source (c : SnowflakeSourceConfig) : Res SnowflakeSource :=
  _ <-? validate c; Ok {| src_config := c; snapshot_pin_nanos := None |}.

Definition pin (n : Z) (s : SnowflakeSource) : SnowflakeSource :=
  {| src_config := src_config s; snapshot_pin_nanos := Some n |}.

Definition start_snapshot (requested : list string) : M (SnowflakeSource * X) SnowflakeSnapshotHandle :=
  at_n ← on_executor server_now_nanos;
  s ← of_state id;
  let selected := selected_tables (src_config s) in
  ts ← match requested with
       | [] => mret selected
       | _ => if forallb (fun t => bool_decide (t ∈ selected)) requested then mret requested
              else throw (ConfigError "snowflake snapshot requested for a table that is not available")
       end;
  h ← of_res (new_snapshot (src_config s) at_n ts);
  with_state (pin (at_nanos h));;
  mret h.

(** [SnowflakeOffset::from_bytes] *)
Definition offset_from_bytes (b : list byte) : Res SnowflakeOffset :=
  match parse_json b ≫= snowflake_from_json with
  | Some o => Ok o
  | None => Err (SerializationError "the bytes are not a Snowflake offset record")
  end.

Definition resume_position (c : SnowflakeSourceConfig) (o : DynOffset) : Res Z :=
  if negb (String.eqb (source_type o) "snowflake") then
    Err (CheckpointError "cannot resume a snowflake stream from another source's offset")
  else
    encoded <-? encode o;
    saved <-? offset_from_bytes encoded;
    if String.eqb (database saved) (cfg_database c) && String.eqb (schema saved) (cfg_schema c)
    then Ok (window_end_nanos saved)
    else Err (CheckpointError "checkpoint is for another snowflake database or schema").

Definition start_stream (resume_from : option DynOffset) : M (SnowflakeSource * X) SnowflakeStreamHandle :=
  s ← of_state id;
  start ← match resume_from, snapshot_pin_nanos s with
          | Some o, _ => of_res (resume_position (src_config s) o)
          | None, Some pinned => mret pinned
          | None, None => on_executor server_now_nanos
          end;
  of_res (new_stream (src_config s) start).

Definition perform_handoff : M (SnowflakeSource * X) MysqlStart.HandoffResult :=
  mret {| MysqlStart.snapshot_end_ts := None; MysqlStart.stream_start_ts := None;
          MysqlStart.overlap_events_dropped := None; MysqlStart.stream_watermark_gap := None |}.

Definition connect : M (SnowflakeSource * X) unit :=
  map_err (fun e => SourceError ("snowflake connectivity check failed: " +:+ error_text e))
    (on_executor server_now_nanos);;
  mret tt.

(** [close] has nothing to close. *)
Definition close : M (SnowflakeSource * X) unit := mret tt.

(** [ConnectorCapabilities::none()], as far as the runtime branches on it. *)
Definition capabilities : Lifecycle.ConnectorCapabilities :=
  {| Lifecycle.can_snapshot := false; Lifecycle.snapshot_checkpoint_resume := false;
     Lifecycle.can_handoff := false |}.

End Source.

End Snowflake.
