(* ===== verification/SnowflakeSync.v ===== *)
(** * SnowflakeSync: a sink that follows a Snowflake account

    What the windows and chunks of [Snowflake] add up to.  A warehouse is a history: a
    version of every table at every instant, each row under the identity Snowflake gives it.
    The laws say what a [CHANGES] window, a time-travel chunk and the server's clock answer,
    for the queries that succeed; any query may fail.  The theorems follow a sink that applies
    the write of each event, through the initial load and the windows after it. *)

From stdpp Require Import sorting.
From S2P Require Import Prelude Errors CheckpointApi Strs Json Offsets Glob Event Monad Driver PgParser Text Runtime Snowflake.

Module SnowflakeSync.
Import Snowflake.

Local Open Scope string_scope.
Local Open Scope Z_scope.
Local Open Scope list_scope.

Abbreviation Row := (list (option string)).
Abbreviation Version := (gmap string (list (option string))).

(** The object of a row. *)
Definition row_object (cols : list string) (r : Row) : object := obj_of (row_fields (fun _ => false) 0 cols r).

(** ** What a window reports *)

Definition metadata : list string := [METADATA_ACTION; METADATA_ISUPDATE; METADATA_ROW_ID].

Definition change_rows (id : string) (old new : option Row) : list (list (option string)) :=
  match old, new with
  | None, Some r => [r ++ [Some "INSERT"; Some "false"; Some id]]
  | Some r, None => [r ++ [Some "DELETE"; Some "false"; Some id]]
  | Some r, Some r' =>
      if decide (r = r') then []
      else [r ++ [Some "DELETE"; Some "true"; Some id]; r' ++ [Some "INSERT"; Some "true"; Some id]]
  | None, None => []
  end.

Definition identities (old new : Version) : list string := elements (dom old ∪ dom new).

(** The net effect of a window, its rows in any order. *)
Definition net_change (cols : list string) (old new : Version) (rs : SnowflakeResultSet) : Prop :=
  columns rs = cols ++ metadata /\
  rows rs ≡ₚ flat_map (fun id => change_rows id (old !! id) (new !! id)) (identities old new).

(** A table's columns, and rows that match them. *)
Definition rows_match (cols : list string) (v : Version) : Prop :=
  forall id r, v !! id = Some r -> length r = length cols.

Definition plain_columns (cols : list string) : Prop := NoDup (cols ++ metadata).

(** ** Reading a window *)

Lemma position_app c l m : c ∉ l -> position c (l ++ m) = Nat.add (length l) <$> position c m.
Proof.
  induction l as [|d l IH]; intros Hc; cbn; [by destruct (position c m)|].
  apply not_elem_of_cons in Hc as [Hne Hc]. destruct (String.eqb_spec d c); [congruence|].
  rewrite IH by done. by destruct (position c m).
Qed.

Lemma fields_skip_none skip i cols r :
  length r = length cols -> (forall j, (i <= j < i + length cols)%nat -> skip j = false) ->
  row_fields skip i cols r = row_fields (fun _ => false) 0 cols r.
Proof.
  intros Hl Hs. transitivity (row_fields (fun _ => false) i cols r).
  - revert i r Hl Hs. induction cols as [|c cols IH]; intros i [|v r] Hl Hs; cbn in *; try done.
    rewrite Hs by lia. f_equal. apply IH; [lia|]. intros j Hj. apply Hs. lia.
  - clear. generalize 0%nat as k. revert i r. induction cols as [|c cols IH]; intros i [|v r] k; cbn; try done.
    f_equal. apply IH.
Qed.

Lemma fields_app skip i cols cols' r r' : length r = length cols ->
  row_fields skip i (cols ++ cols') (r ++ r') =
  row_fields skip i cols r ++ row_fields skip (i + length cols) cols' r'.
Proof.
  revert i r. induction cols as [|c cols IH]; intros i [|v r] Hl; cbn in *; try done.
  { by rewrite Nat.add_0_r. }
  rewrite <- Nat.add_succ_comm. destruct (skip i); by rewrite IH by lia.
Qed.

Section Rows.
Variable cols : list string.
Hypothesis plain : plain_columns cols.

Lemma meta_fresh c : c ∈ metadata -> c ∉ cols.
Proof. intros Hm Hc. apply NoDup_app in plain as (_ & D & _). by apply (D c). Qed.

Lemma parse_change_row r a u id : length r = length cols ->
  parse_row (cols ++ metadata) (length cols + 0) (length cols + 1) (length cols + 2) (r ++ [Some a; u; Some id]) =
  Ok {| action := to_ascii_uppercase a; is_update := shown_true u; row_id := id; payload := JObj (row_object cols r) |}.
Proof.
  intros Hl. unfold parse_row. rewrite !length_app, Hl. cbn [length metadata]. rewrite Nat.eqb_refl. cbn [negb].
  rewrite !lookup_app_r by lia. rewrite Hl.
  replace (length cols + 0 - length cols)%nat with 0%nat by lia.
  replace (length cols + 1 - length cols)%nat with 1%nat by lia.
  replace (length cols + 2 - length cols)%nat with 2%nat by lia. cbn.
  do 3 f_equal. unfold row_object. f_equal. rewrite fields_app by done. cbn.
  rewrite !Nat.add_0_r, Nat.eqb_refl, (Nat.add_comm _ 1), (Nat.add_comm _ 2). cbn. rewrite !Nat.eqb_refl, !orb_true_r.
  rewrite app_nil_r. apply fields_skip_none; [done|]. intros j Hj.
  rewrite !orb_false_iff, !Nat.eqb_neq. lia.
Qed.

(** The rows of one identity, parsed. *)
Definition parsed_change (id : string) (old new : option Row) : list ChangeRow :=
  let row a u r := {| action := a; is_update := u; row_id := id; payload := JObj (row_object cols r) |} in
  match old, new with
  | None, Some r => [row "INSERT" false r]
  | Some r, None => [row "DELETE" false r]
  | Some r, Some r' => if decide (r = r') then [] else [row "DELETE" true r; row "INSERT" true r']
  | None, None => []
  end.

Lemma parse_change id old new :
  (forall r, old = Some r -> length r = length cols) -> (forall r, new = Some r -> length r = length cols) ->
  map_res (parse_row (cols ++ metadata) (length cols + 0) (length cols + 1) (length cols + 2)) (change_rows id old new) =
  Ok (parsed_change id old new).
Proof.
  intros Ho Hn. destruct old as [r|], new as [r'|]; cbn [change_rows parsed_change]; [case_decide; [done|]|..];
    cbn [map_res]; rewrite ?parse_change_row by auto; done.
Qed.

Definition of_id (id : string) (row : ChangeRow) : bool := String.eqb (row_id row) id.

Lemma parsed_of_id id id' old new :
  List.filter (of_id id) (parsed_change id' old new) = if decide (id' = id) then parsed_change id' old new else [].
Proof.
  destruct old as [r|], new as [r'|]; cbn; [destruct (decide (r = r'))|..]; cbn; unfold of_id; cbn;
    try (destruct (String.eqb_spec id' id)); by case_decide.
Qed.

Lemma parsed_filter id old new ids : NoDup ids -> id ∈ ids ->
  List.filter (of_id id) (flat_map (fun i => parsed_change i (old i) (new i)) ids) = parsed_change id (old id) (new id).
Proof.
  induction 1 as [|i ids Hi Hnd IH]; intros Hin; [by apply elem_of_nil in Hin|]. cbn.
  rewrite List.filter_app, parsed_of_id. apply elem_of_cons in Hin as [->|Hin].
  - rewrite decide_True by done. rewrite <- (app_nil_r (parsed_change i (old i) (new i))) at 2. f_equal.
    clear IH Hnd. induction ids as [|j ids IH]; [done|]. apply not_elem_of_cons in Hi as [Hne Hi].
    cbn. rewrite List.filter_app, parsed_of_id, decide_False by done. by apply IH.
  - rewrite decide_False by (by intros ->). by apply IH.
Qed.

(** What the rows of one identity say. *)
Definition image (old new : option Row) : option json * option json * Event.Operation :=
  (JObj ∘ row_object cols <$> old, JObj ∘ row_object cols <$> new,
   match old, new with None, _ => Event.Insert | _, None => Event.Delete | _, _ => Event.Update end).

Lemma image_of_group id old new group : old <> new -> group ≡ₚ parsed_change id old new ->
  change_image group = Ok (image old new).
Proof.
  intros Hne HP. destruct old as [r|], new as [r'|]; cbn in HP; try done.
  - rewrite decide_False in HP by congruence. symmetry in HP.
    apply Permutation_length_2_inv in HP as [-> | ->]; done.
  - symmetry in HP. apply Permutation_length_1_inv in HP as ->. done.
  - symmetry in HP. apply Permutation_length_1_inv in HP as ->. done.
Qed.

End Rows.

Lemma map_res_app {A B} (f : A -> Res B) l l' bs bs' :
  map_res f l = Ok bs -> map_res f l' = Ok bs' -> map_res f (l ++ l') = Ok (bs ++ bs').
Proof.
  revert bs. induction l as [|x l IH]; intros bs; cbn; [by intros [= <-]|].
  destruct (f x); [|done..]. cbn. destruct (map_res f l) as [ys| |]; [|done..]. intros [= <-] H'.
  by rewrite (IH ys) by done.
Qed.

Lemma map_res_flat {A B C} (f : B -> Res C) (a : A -> list B) (b : A -> list C) l :
  (forall x, x ∈ l -> map_res f (a x) = Ok (b x)) -> map_res f (flat_map a l) = Ok (flat_map b l).
Proof.
  induction l as [|x l IH]; intros Hl; [done|]. cbn. apply map_res_app; [apply Hl; by left|].
  apply IH. intros y Hy. apply Hl. by right.
Qed.

Lemma map_res_map {A B} (f : A -> Res B) (g : A -> B) l : (forall x, x ∈ l -> f x = Ok (g x)) ->
  map_res f l = Ok (map g l).
Proof.
  induction l as [|x l IH]; intros Hl; [done|]. cbn. rewrite Hl by (by left). cbn.
  rewrite IH; [done|]. intros y Hy. apply Hl. by right.
Qed.

Lemma map_res_perm {A B} (f : A -> Res B) l l' bs : l ≡ₚ l' -> map_res f l = Ok bs ->
  exists bs', map_res f l' = Ok bs' /\ bs ≡ₚ bs'.
Proof.
  intros HP. revert bs. induction HP as [|x l l' HP IH|x y l|l l' l'' H1 IH1 H2 IH2]; intros bs; cbn.
  - intros [= <-]. by exists [].
  - destruct (f x) as [b| |]; [|done..]. cbn. destruct (map_res f l) as [ys| |]; [|done..]. intros [= <-].
    destruct (IH ys) as (ys' & -> & P); [done|]. exists (b :: ys'). by rewrite P.
  - destruct (f y) as [b| |]; [|done..]. cbn. destruct (f x) as [b'| |]; [|done..]. cbn.
    destruct (map_res f l) as [ys| |]; [|done..]. intros [= <-]. eexists. split; [done|]. constructor.
  - intros Hb. destruct (IH1 bs Hb) as (bs1 & Hb1 & P1). destruct (IH2 bs1 Hb1) as (bs2 & Hb2 & P2).
    exists bs2. split; [done|]. by rewrite P1.
Qed.

Lemma filter_perm {A} (p : A -> bool) l l' : l ≡ₚ l' -> List.filter p l ≡ₚ List.filter p l'.
Proof.
  induction 1; cbn; repeat case_match; try done; [by constructor|by constructor|by etransitivity].
Qed.

#[global] Instance str_le_total : Total str_le.
Proof.
  intros a b. unfold str_le. rewrite (String.compare_antisym a b). destruct (String.compare b a); cbn; auto.
Qed.

#[global] Instance str_le_trans : Transitive str_le.
Proof.
  intros a b c. unfold str_le. intros H1 H2.
  destruct (String.compare a b) eqn:E1; [apply compare_eq_iff in E1 as ->; done| |done].
  destruct (String.compare b c) eqn:E2; [apply compare_eq_iff in E2 as <-; congruence| |done].
  by rewrite (compare_lt_trans a b c).
Qed.

Lemma group_spec l :
  (forall id, default [] (fst (group_rows l) !! id) = List.filter (of_id id) l) /\
  (forall id, is_Some (fst (group_rows l) !! id) <-> id ∈ snd (group_rows l)) /\
  NoDup (snd (group_rows l)) /\ (forall id, id ∈ snd (group_rows l) <-> exists row, row ∈ l /\ row_id row = id).
Proof.
  unfold group_rows. induction l as [|row l IH] using rev_ind; cbn.
  { split_and!; [done|intros id; rewrite lookup_empty, elem_of_nil; by split; [intros []|]|constructor|].
    intros id. split; [by intros ?%elem_of_nil|]. by intros (r & ?%elem_of_nil & _). }
  rewrite fold_left_app. destruct (fold_left _ l _) as [g o] eqn:E. cbn in *. destruct IH as (Hg & Hs & Hn & Ho).
  assert (Ho' : forall id, id ∈ (if decide (is_Some (g !! row_id row)) then o else o ++ [row_id row]) <->
                           id ∈ o \/ id = row_id row).
  { intros id. case_decide as Hd; [|by rewrite elem_of_app, list_elem_of_singleton].
    split; [by left|]. intros [?| ->]; [done|]. by apply Hs. }
  split_and!.
  - intros id. rewrite List.filter_app, <- Hg. cbn. unfold of_id at 1.
    destruct (String.eqb_spec (row_id row) id) as [<-|Hne].
    + by rewrite lookup_insert_eq.
    + rewrite lookup_insert_ne by done. by rewrite app_nil_r.
  - intros id. rewrite Ho', lookup_insert_is_Some'. rewrite Hs. split; intros [?|?]; auto.
  - case_decide as Hd; [done|]. apply NoDup_app. split_and!; [done| |apply NoDup_singleton].
    intros x Hx ->%list_elem_of_singleton. by apply Hd, Hs.
  - intros id. rewrite Ho', Ho. setoid_rewrite elem_of_app. setoid_rewrite list_elem_of_singleton.
    split; [intros [(r & ? & ?)| ->]; eauto|]. intros (r & [?| ->] & <-); eauto.
Qed.

(** The events of a window: one for each row that differs, in the order of the identities. *)
Lemma window_events cols rs sn sc t pk w old new : plain_columns cols -> rows_match cols old -> rows_match cols new ->
  net_change cols old new rs ->
  exists ids, events_from_changes rs sn sc t pk w =
      Ok (map (fun id => change_event sn sc t pk w (image cols (old !! id) (new !! id))) ids) /\
    NoDup ids /\ (forall id, id ∈ ids <-> old !! id <> new !! id) /\ StronglySorted str_le ids.
Proof.
  intros Hp Ho Hn (Hc & Hr).
  assert (Hparse : exists P, parse_rows rs = Ok P /\
            P ≡ₚ flat_map (fun i => parsed_change cols i (old !! i) (new !! i)) (identities old new)).
  { unfold parse_rows, column_index. rewrite Hc. rewrite !position_app by (apply meta_fresh; [done|set_solver]).
    cbn -[parse_row map_res].
    destruct (map_res_perm (parse_row (cols ++ metadata) (length cols + 0) (length cols + 1) (length cols + 2))
                _ _ (flat_map (fun i => parsed_change cols i (old !! i) (new !! i)) (identities old new))
                (symmetry Hr)) as (P & HP & Pm); [|exists P; split; [exact HP|by symmetry]].
    apply map_res_flat. intros id _. apply parse_change; intros r; [apply Ho|apply Hn]. }
  destruct Hparse as (P & EP & HP). unfold events_from_changes. rewrite EP. cbn [res_bind].
  destruct (group_spec P) as (Hg & _ & Hnd & Hin). destruct (group_rows P) as [g order]. cbn in *.
  assert (Hdiff : forall id, id ∈ order <-> old !! id <> new !! id).
  { intros id. rewrite Hin. setoid_rewrite HP. split.
    - intros (row & (i & Hi & Hrow)%list_elem_of_In%in_flat_map & <-).
      destruct (old !! i) as [r|] eqn:Eo, (new !! i) as [r'|] eqn:En; cbn in Hrow; try (case_decide; cbn in Hrow);
        repeat destruct Hrow as [<-|Hrow]; try done; cbn; rewrite ?Eo, ?En; congruence.
    - intros Hne. destruct (parsed_change cols id (old !! id) (new !! id)) as [|row rest] eqn:E.
      { destruct (old !! id) as [r|], (new !! id) as [r'|]; cbn in E; try done. case_decide; congruence. }
      exists row. split.
      + apply list_elem_of_In, in_flat_map. exists id. rewrite E. split; [|by left].
        apply list_elem_of_In. unfold identities. rewrite elem_of_elements, elem_of_union, !elem_of_dom.
        destruct (old !! id), (new !! id); try done; eauto.
      + assert (List.filter (of_id id) (parsed_change cols id (old !! id) (new !! id)) = row :: rest) as Hf
          by (by rewrite parsed_of_id, decide_True).
        assert (In row (row :: rest)) as Hi by by left. rewrite <- Hf in Hi. apply filter_In in Hi as [_ Hi].
        by apply String.eqb_eq in Hi. }
  exists (merge_sort str_le order). split_and!.
  - apply map_res_map. intros id Hid. rewrite merge_sort_Permutation in Hid. rewrite Hg.
    rewrite (image_of_group cols id (old !! id) (new !! id)); [done|by apply Hdiff|].
    rewrite <- (parsed_filter cols id (fun i => old !! i) (fun i => new !! i) (identities old new)).
    + by apply filter_perm.
    + apply NoDup_elements.
    + apply Hdiff in Hid. unfold identities. rewrite elem_of_elements, elem_of_union, !elem_of_dom.
      destruct (old !! id), (new !! id); try done; eauto.
  - by rewrite merge_sort_Permutation.
  - intros id. by rewrite merge_sort_Permutation.
  - apply StronglySorted_merge_sort; apply _.
Qed.

(** ** Applying events *)

Lemma obj_get_fold k l m : is_Some (obj_get k (fold_left (fun m kv => obj_insert (fst kv) (snd kv) m) l m)) <->
  k ∈ map fst l \/ is_Some (obj_get k m).
Proof.
  revert m. induction l as [|[c v] l IH]; intros m; cbn.
  { split; [by right|]. by intros [?%elem_of_nil|]. }
  rewrite IH, obj_get_insert, elem_of_cons. case_decide as Hk; [split; intros _; [left; by left|by right]|].
  split; [intros [?|?]|intros [[?|?]|?]]; auto; done.
Qed.

Lemma fields_names i cols r : length r = length cols -> map fst (row_fields (fun _ => false) i cols r) = cols.
Proof.
  revert i r. induction cols as [|c cols IH]; intros i [|v r] Hl; cbn in *; try done. f_equal. apply IH. lia.
Qed.

Lemma row_has_columns cols r c : length r = length cols -> c ∈ cols -> is_Some (obj_get c (row_object cols r)).
Proof. intros Hl Hc. unfold row_object, obj_of. apply obj_get_fold. left. by rewrite fields_names. Qed.

Section Sink.
Variables (cols keys : list string).

Definition row_key (r : Row) : option json := Event.key_of keys (row_object cols r).

(** The sink's table holds the rows of the version, each under its key. *)
Definition shows (T : Event.Table) (v : Version) : Prop := forall k o,
  T k = Some o <-> exists id r, v !! id = Some r /\ row_key r = Some k /\ o = row_object cols r.

(** Over a window, rows and keys stay together: of the rows of either version, two have one
    key when they are the same row. *)
Definition stable (old new : Version) : Prop := forall id1 id2 r1 r2,
  old !! id1 = Some r1 \/ new !! id1 = Some r1 -> old !! id2 = Some r2 \/ new !! id2 = Some r2 ->
  (row_key r1 = row_key r2 <-> id1 = id2).

Definition declared : Prop := keys <> [] /\ forall c, c ∈ keys -> c ∈ cols.

Lemma row_key_some r : declared -> length r = length cols -> is_Some (row_key r).
Proof.
  intros [Hk Hc] Hl. unfold row_key, Event.key_of. destruct keys as [|c ks] eqn:E; [done|]. rewrite <- E in *.
  apply fmap_is_Some, Event.collect_key_some, forallb_forall. intros d Hd%list_elem_of_In.
  apply contains_key_spec, row_has_columns; auto.
Qed.

Lemma apply_change sn sc t w old new r k T :
  declared -> match new with Some r' => r = r' | None => old = Some r end -> row_key r = Some k ->
  Event.apply_write (Event.row_write (change_event sn sc t (Some keys) w (image cols old new))) T =
  Event.put k (row_object cols <$> new) T.
Proof.
  intros [Hd _] Hr Hk. unfold row_key in Hk. destruct new as [r'|]; [subst r'|subst old].
  - unfold Event.row_write. destruct old as [r0|]; cbn -[Event.primary_key_values];
      rewrite (Event.primary_key_values_key_of _ keys (row_object cols r)) by done; by rewrite Hk.
  - unfold Event.row_write. cbn -[Event.primary_key_values].
    rewrite (Event.primary_key_values_key_of _ keys (row_object cols r)) by done. by rewrite Hk.
Qed.

Lemma put_shows T v new id k : 
  (forall id' r, v !! id' = Some r -> (row_key r = Some k <-> id' = id)) ->
  (forall r, new = Some r -> row_key r = Some k) -> shows T v ->
  shows (Event.put k (row_object cols <$> new) T) (partial_alter (fun _ => new) id v).
Proof.
  intros Hv Hn Hs k' o. unfold Event.put. case_decide as Hk.
  - subst k'. destruct new as [r|]; cbn; split.
    + intros [= <-]. exists id, r. rewrite lookup_partial_alter_eq. split_and!; auto.
    + intros (id' & r' & Hl & Hr & ->). destruct (decide (id' = id)) as [->|Hne].
      * rewrite lookup_partial_alter_eq in Hl. by injection Hl as ->.
      * rewrite lookup_partial_alter_ne in Hl by done. by apply (Hv _ _ Hl) in Hr.
    + done.
    + intros (id' & r' & Hl & Hr & ->). destruct (decide (id' = id)) as [->|Hne].
      * by rewrite lookup_partial_alter_eq in Hl.
      * rewrite lookup_partial_alter_ne in Hl by done. by apply (Hv _ _ Hl) in Hr.
  - rewrite (Hs k' o). split; intros (id' & r' & Hl & Hr & ->); exists id', r'; split_and!; try done.
    + rewrite lookup_partial_alter_ne; [done|]. intros <-. apply Hk.
      assert (row_key r' = Some k) by (by apply (Hv id r')). congruence.
    + destruct (decide (id' = id)) as [->|Hne].
      * rewrite lookup_partial_alter_eq in Hl. apply Hn in Hl. congruence.
      * by rewrite lookup_partial_alter_ne in Hl.
Qed.

Definition apply_all (es : list Event.Event) (T : Event.Table) : Event.Table :=
  fold_left (fun T e => Event.apply_write (Event.row_write e) T) es T.

Definition between_versions (old new v : Version) : Prop := forall id, v !! id = old !! id \/ v !! id = new !! id.

Lemma changes_applied sn sc t w old new ids : declared -> rows_match cols old -> rows_match cols new -> stable old new ->
  (forall id, id ∈ ids -> old !! id <> new !! id) -> forall T v, between_versions old new v -> shows T v ->
  shows (apply_all (map (fun id => change_event sn sc t (Some keys) w (image cols (old !! id) (new !! id))) ids) T)
    (fold_left (fun v id => partial_alter (fun _ => new !! id) id v) ids v).
Proof.
  intros Hd Ho Hn Hst. induction ids as [|id ids IH]; intros Hne T v Hb Hs; [done|].
  unfold apply_all. cbn [map fold_left].
  assert (exists r, (match new !! id with Some r' => r = r' | None => old !! id = Some r end) /\
                    (old !! id = Some r \/ new !! id = Some r)) as (r & Hr & Hheld).
  { specialize (Hne id (list_elem_of_here _ _)). destruct (new !! id) as [r|]; [by exists r; auto|].
    destruct (old !! id) as [r|]; [by exists r; auto|done]. }
  destruct (row_key_some r) as [k Hk]; [done|destruct Hheld; eauto|].
  rewrite (apply_change sn sc t w _ _ r k T Hd Hr Hk). apply IH.
  - intros i Hi. apply Hne. by right.
  - intros i. destruct (decide (i = id)) as [->|Hni]; [right; by rewrite lookup_partial_alter_eq|].
    rewrite lookup_partial_alter_ne by done. apply Hb.
  - apply put_shows; [| |done].
    + intros id' r' Hl. rewrite <- Hk. apply Hst; [|done]. destruct (Hb id') as [E|E]; rewrite E in Hl; auto.
    + intros r' E. rewrite E in Hr. by subst.
Qed.

Lemma alter_all new ids v id :
  fold_left (fun v id => partial_alter (fun _ => new !! id) id v) ids v !! id =
  if decide (id ∈ ids) then (new : Version) !! id else (v : Version) !! id.
Proof.
  revert v. induction ids as [|i ids IH]; intros v; cbn; [by rewrite decide_False by apply not_elem_of_nil|].
  rewrite IH. destruct (decide (id ∈ ids)) as [Hi|Hi]; [by rewrite decide_True by by right|].
  destruct (decide (id = i)) as [->|Hne].
  - by rewrite decide_True, lookup_partial_alter_eq by by left.
  - rewrite decide_False by (by intros [?|?]%elem_of_cons). by rewrite lookup_partial_alter_ne by done.
Qed.

(** Applying a window's events turns the version at its start into the one at its end. *)
Lemma window_shows rs sn sc t w old new T : plain_columns cols -> declared -> rows_match cols old -> rows_match cols new ->
  stable old new -> net_change cols old new rs -> shows T old ->
  exists es, events_from_changes rs sn sc t (Some keys) w = Ok es /\ Forall (fun e => Event.table e = t) es /\
    shows (apply_all es T) new.
Proof.
  intros Hp Hd Ho Hn Hst Hc Hs.
  destruct (window_events cols rs sn sc t (Some keys) w old new Hp Ho Hn Hc) as (ids & -> & _ & Hids & _).
  eexists. split_and!; [done| |].
  - apply Forall_forall. by intros e (id & <- & _)%list_elem_of_In%in_map_iff.
  - pose proof (changes_applied sn sc t w old new ids Hd Ho Hn Hst (fun id => proj1 (Hids id)) T old
                  (fun _ => or_introl eq_refl) Hs) as Hf.
    assert (E : fold_left (fun v id => partial_alter (fun _ => new !! id) id v) ids old = new); [|by rewrite E in Hf].
    apply map_eq. intros id. rewrite alter_all. case_decide as Hi; [done|].
    destruct (decide (old !! id = new !! id)); [done|]. by destruct Hi; apply Hids.
Qed.

End Sink.

(** ** A warehouse *)

(** The columns and the history of every table, and the rows of a version in the order of
    some key columns. *)
Class Warehouse := {
  table_columns : string -> list string;
  version : string -> Z -> Version;
  ordered : string -> Z -> list string -> list Row;
}.

Definition key_columns (c : SnowflakeSourceConfig) (t : string) : list string := default [] (primary_keys c !! t).

(** What the server answers about changes, when it answers.  The clock answers an instant that
    has passed; what has passed stays so; and for two instants that have passed, a [CHANGES]
    window is the net effect between the two versions. *)
Class ChangesLaws `{Warehouse} {X : Type} `{Executor X} (past : X -> Z -> Prop) (c : SnowflakeSourceConfig) : Prop := {
  columns_plain : forall t, t ∈ cfg_tables c -> plain_columns (table_columns t);
  version_rows : forall t n, t ∈ cfg_tables c -> rows_match (table_columns t) (version t n);
  clock_past : forall x x' rs raw n, query current_epoch_nanos_statement x = (Ok rs, x') ->
    scalar rs = Some raw -> parse_u64 (trim_text raw) = Some n -> past x' n;
  past_kept : forall s x n, past x n -> past (snd (query s x)) n;
  no_panic : forall s x, fst (query s x) <> Panic;
  changes_answer : forall t a b x rs x', t ∈ cfg_tables c -> past x a -> past x b -> a <= b ->
    query (changes_statement (cfg_database c) (cfg_schema c) t a b false) x = (Ok rs, x') ->
    net_change (table_columns t) (version t a) (version t b) rs;
}.

(** ** The stream *)

(** A sink of several tables. *)
Definition apply_events (es : list Event.Event) (T : string -> Event.Table) : string -> Event.Table :=
  fun t => apply_all (List.filter (fun e => String.eqb (Event.table e) t) es) (T t).

Lemma apply_events_app es es' T t : apply_events (es ++ es') T t = apply_events es' (apply_events es T) t.
Proof. unfold apply_events, apply_all. by rewrite List.filter_app, fold_left_app. Qed.

Lemma apply_same es T t : Forall (fun e => Event.table e = t) es -> apply_events es T t = apply_all es (T t).
Proof.
  intros Ht. unfold apply_events. f_equal. apply filter_all. eapply Forall_impl; [exact Ht|].
  intros e He. cbn. by apply String.eqb_eq.
Qed.

Lemma apply_other es T t (P : string -> Prop) : Forall (fun e => P (Event.table e)) es -> ~ P t ->
  apply_events es T t = T t.
Proof.
  intros Ht Hn. unfold apply_events. induction Ht as [|e es He _ IH]; [done|]. cbn.
  destruct (String.eqb_spec (Event.table e) t); [congruence|done].
Qed.

Section Stream.
Context `{DT : DebugText} `{JC : JsonCodec} `{WH : Warehouse} {X : Type} `{EX : Executor X}.
Context (past : X -> Z -> Prop) (c : SnowflakeSourceConfig) {CL : ChangesLaws past c}.

(** The version of a table the sink holds. *)
Definition holds (T : string -> Event.Table) (t : string) (n : Z) : Prop :=
  shows (table_columns t) (key_columns c t) (T t) (version t n).

Definition stable_window (t : string) (w : Z * Z) : Prop :=
  stable (table_columns t) (key_columns c t) (version t (fst w)) (version t (snd w)).

Definition keyed (t : string) : Prop := declared (table_columns t) (key_columns c t).

Lemma now_spec x r x' : server_now_nanos x = (r, x') ->
  r <> Panic /\ (forall n, r = Ok n -> past x' n) /\ (forall m, past x m -> past x' m).
Proof.
  unfold server_now_nanos. rewrite bind_eq.
  pose proof (fun m => past_kept (c := c) current_epoch_nanos_statement x m) as Hk.
  pose proof (no_panic (c := c) (past := past) current_epoch_nanos_statement x) as Hn.
  destruct (query current_epoch_nanos_statement x) as [[rs|e|] x1] eqn:Eq; cbn in Hk, Hn |- *; [|by intros [= <- <-]|done].
  destruct (scalar rs) as [raw|] eqn:Es; [|by intros [= <- <-]].
  destruct (parse_u64 (trim_text raw)) as [n|] eqn:Ep; intros [= <- <-]; [|done].
  split_and!; [done| |done]. intros ? [= <-]. by eapply (clock_past (c := c)).
Qed.

Lemma read_window_spec a b ts x r x' : append_only c = false -> NoDup ts ->
  (forall t, t ∈ ts -> t ∈ cfg_tables c /\ keyed t) -> a <= b -> past x a -> past x b ->
  read_window c a b ts x = (r, x') ->
  r <> Panic /\ (forall m, past x m -> past x' m) /\
  forall es T, r = Ok es -> (forall t, t ∈ ts -> stable_window t (a, b)) -> (forall t, t ∈ ts -> holds T t a) ->
    Forall (fun e => Event.table e ∈ ts) es /\ forall t, t ∈ ts -> holds (apply_events es T) t b.
Proof.
  intros Hao Hnd Hk Hab. revert r x x'. induction Hnd as [|t ts Ht Hnd IH]; intros r x x' Ha Hb; cbn [read_window].
  { intros [= <- <-]. split_and!; [done|done|]. intros es T [= <-] _ _. split; [constructor|]. by intros t ?%elem_of_nil. }
  destruct (Hk t) as [Hin Hkey]; [by left|]. rewrite bind_eq. unfold map_err. rewrite Hao.
  set (st := changes_statement _ _ _ _ _ _). pose proof (fun m => past_kept (c := c) st x m) as Hp.
  pose proof (no_panic (c := c) (past := past) st x) as Hn.
  destruct (query st x) as [[rs|e|] x1] eqn:Eq; cbn in Hp, Hn |- *; [|by intros [= <- <-]|done].
  pose proof (changes_answer (c := c) t a b x rs x1 Hin Ha Hb Hab Eq) as Hc.
  assert (Epk : primary_keys c !! t = Some (key_columns c t)).
  { destruct Hkey as [Hne _]. unfold key_columns in *. by destruct (primary_keys c !! t). }
  rewrite bind_of_res, Epk.
  destruct (window_events (table_columns t) rs (cfg_source_name c) (cfg_schema c) t (Some (key_columns c t)) b _ _
              (columns_plain (c := c) t Hin) (version_rows (c := c) t a Hin) (version_rows (c := c) t b Hin) Hc)
    as (ids & Ee & _). rewrite Ee. rewrite bind_eq.
  destruct (read_window c a b ts x1) as [r1 x2] eqn:Er.
  destruct (IH (fun t' Ht' => Hk t' (list_elem_of_further _ _ _ Ht')) r1 x1 x2) as (Hr1 & Hp1 & Hes1); auto.
  assert (Hnext : forall es1, r1 = Ok es1 -> forall es T,
    events_from_changes rs (cfg_source_name c) (cfg_schema c) t (Some (key_columns c t)) b = Ok es ->
    (forall t', t' ∈ t :: ts -> stable_window t' (a, b)) -> (forall t', t' ∈ t :: ts -> holds T t' a) ->
    Forall (fun e => Event.table e ∈ t :: ts) (es ++ es1) /\
    forall t', t' ∈ t :: ts -> holds (apply_events (es ++ es1) T) t' b).
  { intros es1 E1 es T Hes Hst Hh.
    destruct (window_shows (table_columns t) (key_columns c t) rs (cfg_source_name c) (cfg_schema c) t b _ _ (T t)
                (columns_plain (c := c) t Hin) Hkey (version_rows (c := c) t a Hin) (version_rows (c := c) t b Hin)
                (Hst t (list_elem_of_here _ _)) Hc (Hh t (list_elem_of_here _ _))) as (es0 & Hes0 & Htab & Hs).
    rewrite Hes in Hes0. injection Hes0 as <-.
    destruct (Hes1 es1 (apply_events es T) E1) as (Htab1 & Hh1).
    { intros t' Ht'. apply Hst. by right. }
    { intros t' Ht'. unfold holds. rewrite (apply_other es T t' (eq t)); [apply Hh; by right| |by intros ->].
      eapply Forall_impl; [exact Htab|]. by intros e <-. }
    split.
    - apply Forall_app. split; (eapply Forall_impl; [eassumption|]); intros e He; cbn in *; [subst; by left|by right].
    - intros t' Ht'. unfold holds. rewrite apply_events_app. apply elem_of_cons in Ht' as [->|Ht']; [|by apply Hh1].
      rewrite (apply_other es1 _ t (fun u => u ∈ ts)) by done. by rewrite apply_same. }
  destruct r1 as [es1|e|]; intros [= <- <-]; split_and!; try done; auto.
  intros es T [= <-] Hst Hh. by apply Hnext.
Qed.

(** Polls, whatever each answers: the events handed out, the windows they closed, and the
    state after them. *)
Fixpoint polls (n : nat) (s : SnowflakeStreamHandle * X)
    : list Event.Event * list (Z * Z) * (SnowflakeStreamHandle * X) :=
  match n with
  | O => ([], [], s)
  | S n' =>
      match next_events s with
      | (Ok es, s1) =>
          let '(es', ws, s') := polls n' s1 in
          (es ++ es', (position_nanos (fst s), position_nanos (fst s1)) :: ws, s')
      | (_, s1) => polls n' s1
      end
  end.

(** The handle reads this configuration's tables, from an instant that has passed. *)
Record follows (ts : list string) (s : SnowflakeStreamHandle * X) : Prop := {
  follows_config : config (fst s) = c;
  follows_tables : tables (fst s) = ts;
  follows_past : past (snd s) (position_nanos (fst s));
}.

Section Polls.
Variable ts : list string.
Hypotheses (whole : append_only c = false) (once : NoDup ts).
Hypothesis keyed_tables : forall t, t ∈ ts -> t ∈ cfg_tables c /\ keyed t.

Lemma poll_spec s r s' : follows ts s -> next_events s = (r, s') ->
  r <> Panic /\ follows ts s' /\
  match r with
  | Ok es => forall T, (forall t, t ∈ ts -> stable_window t (position_nanos (fst s), position_nanos (fst s'))) ->
      (forall t, t ∈ ts -> holds T t (position_nanos (fst s))) ->
      forall t, t ∈ ts -> holds (apply_events es T) t (position_nanos (fst s'))
  | _ => position_nanos (fst s') = position_nanos (fst s)
  end.
Proof.
  destruct s as [h x]. intros [Hc Ht Hp]. cbn in Hc, Ht, Hp. unfold next_events. rewrite bind_eq. unfold on_executor at 1.
  cbn [fst snd]. destruct (server_now_nanos x) as [r1 x1] eqn:En. destruct (now_spec _ _ _ En) as (Hn1 & Hn2 & Hn3).
  destruct r1 as [upper|e|]; [|intros [= <- <-]; split_and!; try done; split; by auto|done].
  rewrite bind_eq. cbn [of_state gets fst snd id]. destruct (upper <=? position_nanos h) eqn:Eu.
  { intros [= <- <-]. split_and!; [done|split; by auto|]. intros T _ Hh t Hin. by apply Hh. }
  apply Z.leb_gt in Eu. rewrite bind_eq. unfold on_executor. cbn [fst snd id].
  rewrite Hc, Ht. destruct (read_window c (position_nanos h) upper ts x1) as [r2 x2] eqn:Er.
  destruct (read_window_spec (position_nanos h) upper ts x1 r2 x2) as (Hr & Hk & Hes); auto; [lia|].
  destruct r2 as [es|e|]; [|intros [= <- <-]; split_and!; try done; split; by auto|done].
  rewrite bind_eq. intros [= <- <-]. cbn [fst snd]. split_and!; [done|split; by auto|].
  intros T Hst Hh t Hin. by apply (Hes es T).
Qed.

Lemma polls_follow n s es ws s' T : follows ts s -> polls n s = (es, ws, s') ->
  (forall t w, t ∈ ts -> w ∈ ws -> stable_window t w) -> (forall t, t ∈ ts -> holds T t (position_nanos (fst s))) ->
  follows ts s' /\ forall t, t ∈ ts -> holds (apply_events es T) t (position_nanos (fst s')).
Proof.
  revert s es ws T. induction n as [|n IH]; intros s es ws T Hf; cbn [polls].
  { intros [= <- <- <-] _ Hh. by split. }
  destruct (next_events s) as [r s1] eqn:En. destruct (poll_spec s r s1 Hf En) as (Hr & Hf1 & Hs).
  destruct r as [es0|e|]; [|intros Hp Hst Hh; eapply IH; try done; by rewrite Hs|done].
  destruct (polls n s1) as [[es1 ws1] s2] eqn:Ep. intros [= <- <- <-] Hst Hh.
  destruct (IH s1 es1 ws1 (apply_events es0 T) Hf1 Ep) as (Hf2 & Hh2).
  - intros t w Ht Hw. apply Hst; [done|by right].
  - intros t Ht. apply Hs; [|done..]. intros u Hu. apply Hst; [done|by left].
  - split; [done|]. intros t Ht. unfold holds. rewrite apply_events_app. by apply Hh2.
Qed.

End Polls.

End Stream.

(** ** The initial load *)

(** The text of a row's key, the cursor of the rows after it. *)
Definition key_text (cols keys : list string) (r : Row) : option (list string) :=
  mapM (fun k => obj_get k (row_object cols r) ≫= as_str) keys.

(** What the server answers to a chunk's query at an instant that has passed, when it answers:
    the first rows of that version in the order of the key, or those that follow the row whose
    key is the cursor. *)
Class ChunkLaws `{Warehouse} {X : Type} `{Executor X} (past : X -> Z -> Prop) (c : SnowflakeSourceConfig) : Prop := {
  ordered_rows : forall t n keys, ordered t n keys ≡ₚ map snd (map_to_list (version t n));
  first_rows : forall t n size x rs x', t ∈ cfg_tables c -> past x n ->
    query (snapshot_chunk_statement (cfg_database c) (cfg_schema c) t n (key_columns c t) None size) x = (Ok rs, x') ->
    columns rs = table_columns t /\ rows rs = take size (ordered t n (key_columns c t));
  following_rows : forall t n i r k size x rs x', t ∈ cfg_tables c -> past x n ->
    stable (table_columns t) (key_columns c t) (version t n) (version t n) ->
    ordered t n (key_columns c t) !! i = Some r -> key_text (table_columns t) (key_columns c t) r = Some k ->
    query (snapshot_chunk_statement (cfg_database c) (cfg_schema c) t n (key_columns c t) (Some k) size) x = (Ok rs, x') ->
    columns rs = table_columns t /\ rows rs = take size (drop (S i) (ordered t n (key_columns c t)));
}.

Lemma obj_get_elem k m v : obj_get k m = Some v -> (k, v) ∈ m.
Proof.
  induction m as [|[k' v'] m IH]; cbn; [done|]. destruct (String.eqb_spec k k') as [<-|].
  - intros [= ->]. by left.
  - intros Hg. right. by apply IH.
Qed.

Lemma row_values cols r k v : obj_get k (row_object cols r) = Some v -> v = JNull \/ exists s, v = JStr s.
Proof.
  intros Hg%obj_get_elem%obj_of_in. revert Hg. generalize 0%nat as i. revert r.
  induction cols as [|c cols IH]; intros [|x r] i; cbn; try by intros ?%elem_of_nil.
  intros [[= -> ->]|Hv]%elem_of_cons; [|by apply IH in Hv]. destruct x; cbn; eauto.
Qed.

Section Load.
Context `{DT : DebugText} `{JC : JsonCodec} `{WH : Warehouse} {X : Type} `{EX : Executor X}.
Context (past : X -> Z -> Prop) (c : SnowflakeSourceConfig) {CL : ChangesLaws past c} {KL : ChunkLaws past c}.
Variable n : Z.

Abbreviation rows_of t := (ordered t n (key_columns c t)).
Abbreviation text_of t := (key_text (table_columns t) (key_columns c t)).

Lemma cursor_text t r k : map_res (cursor_value (Some (row_object (table_columns t) r))) (key_columns c t) = Ok k ->
  text_of t r = Some k.
Proof.
  unfold key_text. revert k. induction (key_columns c t) as [|d ds IH]; intros k; cbn; [by intros [= <-]|].
  unfold cursor_value at 1. cbn. destruct (obj_get d (row_object (table_columns t) r)) as [v|] eqn:Eg; [|done].
  destruct (row_values _ _ _ _ Eg) as [->|[s ->]]; cbn; [done|].
  destruct (map_res _ ds) as [k'| |]; [|done..]. intros [= <-]. by rewrite (IH k').
Qed.

Lemma cursor_no_panic t r : map_res (cursor_value (Some (row_object (table_columns t) r))) (key_columns c t) <> Panic.
Proof.
  induction (key_columns c t) as [|d ds IH]; cbn; [done|]. unfold cursor_value at 1. cbn.
  destruct (obj_get d _) as [[]|]; cbn; try done; by destruct (map_res _ ds).
Qed.

(** The handle is before row [i] of the first of the tables [ts]. *)
Record reading (h : SnowflakeSnapshotHandle) (ts : list string) (i : nat) : Prop := {
  reading_config : snap_config h = c;
  reading_at : at_nanos h = n;
  reading_tables : remaining h = rev ts;
  reading_cursor : match ts, i with
    | [], _ => True
    | _, O => cursor h = None
    | t :: _, S j => exists r, rows_of t !! j = Some r /\ cursor h = text_of t r /\ is_Some (text_of t r)
    end;
}.

(** The rows still to come. *)
Definition pending (ts : list string) (i : nat) : list (string * Row) :=
  match ts with
  | [] => []
  | t :: ts' => map (pair t) (drop i (rows_of t)) ++ flat_map (fun u => map (pair u) (rows_of u)) ts'
  end.

Lemma pending_next t ts i : drop i (rows_of t) = [] -> pending (t :: ts) i = pending ts 0.
Proof. intros E. unfold pending at 1. rewrite E. by destruct ts as [|u ts]; [|cbn; rewrite drop_0]. Qed.

(** An event as a sink reads it, and what it is to be for a row. *)
Definition shown (e : Event.Event) :=
  (Event.table e, Event.op e, Event.primary_key e, Event.after e, Event.unavailable_columns e).
Definition expected (tr : string * Row) : string * Event.Operation * option (list string) * option json * list string :=
  (fst tr, Event.Read, Some (key_columns c (fst tr)), Some (JObj (row_object (table_columns (fst tr)) (snd tr))), []).

Lemma chunk_query_spec h t ts i size x r x' : reading h (t :: ts) i -> t ∈ cfg_tables c -> past x n ->
  stable_window c t (n, n) -> chunk_query h t size x = (r, x') ->
  r <> Panic /\ (forall m, past x m -> past x' m) /\
  forall rs, r = Ok rs -> columns rs = table_columns t /\ rows rs = take size (drop i (rows_of t)).
Proof.
  intros [Hc Ha Hr Hcur] Ht Hp Hu. unfold chunk_query, map_err. unfold snap_key_of. rewrite Hc, Ha.
  change (default [] (primary_keys c !! t)) with (key_columns c t).
  set (st := snapshot_chunk_statement _ _ _ _ _ _ _).
  pose proof (fun m => past_kept (c := c) st x m) as Hk. pose proof (no_panic (c := c) (past := past) st x) as Hn.
  destruct (query st x) as [[rs|e|] x1] eqn:Eq; cbn in Hk, Hn |- *; [|by intros [= <- <-]|done].
  intros [= <- <-]. split_and!; [done..|]. intros ? [= <-]. unfold st in Eq. destruct i as [|j].
  - rewrite Hcur in Eq. rewrite drop_0. by eapply first_rows.
  - destruct Hcur as (row & Hrow & Hcur & [k Hk']). rewrite Hcur, Hk' in Eq. by eapply following_rows.
Qed.

Lemma rows_of_version t r : r ∈ rows_of t <-> exists id, version t n !! id = Some r.
Proof.
  rewrite (ordered_rows (c := c) t n (key_columns c t)), list_elem_of_In, in_map_iff. split.
  - intros ([id r'] & <- & Hin%list_elem_of_In%elem_of_map_to_list). by exists id.
  - intros [id Hid]. exists (id, r). split; [done|]. by apply list_elem_of_In, elem_of_map_to_list.
Qed.

Lemma rows_of_length t r : t ∈ cfg_tables c -> r ∈ rows_of t -> length r = length (table_columns t).
Proof. intros Ht [id Hid]%rows_of_version. by apply (version_rows (c := c) t n Ht id). Qed.

Lemma same_row t r r' : stable_window c t (n, n) -> r ∈ rows_of t -> r' ∈ rows_of t ->
  row_key (table_columns t) (key_columns c t) r = row_key (table_columns t) (key_columns c t) r' -> r = r'.
Proof.
  intros Hst [id Hid]%rows_of_version [id' Hid']%rows_of_version E.
  apply (Hst id id' r r') in E; [|by left..]. subst id'. cbn in *. congruence.
Qed.

Definition chunk_rows (t : string) (i size : nat) : list Row := take size (drop i (rows_of t)).

Lemma chunk_events t i size ctx rs : t ∈ cfg_tables c -> columns rs = table_columns t -> rows rs = chunk_rows t i size ->
  events_from_snapshot_rows rs ctx = Ok (map (snapshot_event ctx (table_columns t)) (chunk_rows t i size)).
Proof.
  intros Ht Hcol Hrows. unfold events_from_snapshot_rows. rewrite Hcol, Hrows. apply map_res_map. intros r Hr.
  rewrite (rows_of_length t r Ht), Nat.eqb_refl; [done|].
  unfold chunk_rows in Hr. apply list_elem_of_In in Hr. apply list_elem_of_In.
  rewrite <- (take_drop i (rows_of t)), <- (take_drop size (drop i (rows_of t))). rewrite !in_app_iff. auto.
Qed.

(** Where a chunk of [k] rows leaves the handle. *)
Definition after_chunk (ts : list string) (i k : nat) (exhausted : bool) : list string * nat :=
  if exhausted then (tail ts, 0%nat) else (ts, (i + k)%nat).

Lemma split_pending t ts i size : 
  let R := chunk_rows t i size in let p := after_chunk (t :: ts) i (length R) (length R <? size)%nat in
  map (pair t) R ++ pending (fst p) (snd p) = pending (t :: ts) i.
Proof.
  cbn zeta. unfold after_chunk. destruct (Nat.ltb_spec (length (chunk_rows t i size)) size) as [Hs|Hs]; cbn [fst snd tail].
  - assert (E : chunk_rows t i size = drop i (rows_of t)).
    { unfold chunk_rows in *. rewrite length_take in Hs. apply take_ge. lia. }
    rewrite E. unfold pending at 2. f_equal. destruct ts as [|u ts]; [done|]. cbn. by rewrite drop_0.
  - unfold pending. rewrite app_assoc. f_equal. rewrite <- map_app. f_equal.
    unfold chunk_rows in *. rewrite length_take in *. rewrite Nat.min_l by lia.
    by rewrite <- drop_drop, take_drop.
Qed.

Lemma last_map {A B} (f : A -> B) l : last (map f l) = f <$> last l.
Proof. induction l as [|x [|y l] IH]; [done..|]. exact IH. Qed.

Lemma chunk_last t i size j row : last (chunk_rows t i size) = Some row ->
  (i + length (chunk_rows t i size))%nat = S j -> rows_of t !! j = Some row.
Proof.
  rewrite last_lookup. intros El Ej. pose proof (lookup_lt_Some _ _ _ El) as Hlt.
  unfold chunk_rows in *. pose proof (length_take (drop i (rows_of t)) size).
  rewrite lookup_take_lt, lookup_drop in El by lia. by replace j with (i + pred (length (take size (drop i (rows_of t)))))%nat by lia.
Qed.

Lemma emit_spec h t ts i size rs (x : X) r (s' : SnowflakeSnapshotHandle * X) : reading h (t :: ts) i -> t ∈ cfg_tables c ->
  columns rs = table_columns t -> rows rs = chunk_rows t i size -> chunk_rows t i size <> [] ->
  emit_chunk size t rs (h, x) = (r, s') ->
  r <> Panic /\ snd s' = x /\ exists ts' i', reading (fst s') ts' i' /\ ts' ⊆ t :: ts /\
  match r with
  | Ok es => map shown es ++ map expected (pending ts' i') = map expected (pending (t :: ts) i) /\ es <> []
  | _ => pending ts' i' = pending (t :: ts) i
  end.
Proof.
  intros [Hc Ha Hr Hcur] Ht Hcol Hrows Hne. unfold emit_chunk. rewrite bind_eq. cbn [of_state gets fst snd id].
  rewrite bind_of_res. erewrite chunk_events by done. rewrite bind_eq. cbn [with_state modify fst snd].
  rewrite last_map. destruct (last (chunk_rows t i size)) as [row|] eqn:El; [|by apply last_None in El].
  cbn [fmap option_fmap option_map]. rewrite bind_of_res. cbn [Event.after snapshot_event mbind option_bind as_object].
  unfold snap_key_of. rewrite Hc. change (default [] (primary_keys c !! t)) with (key_columns c t).
  pose proof (cursor_no_panic t row) as Hnp. fold (row_object (table_columns t) row).
  destruct (map_res _ (key_columns c t)) as [k|e|] eqn:Ek; [|intros [= <- <-]|done].
  - apply cursor_text in Ek. rewrite bind_eq. cbn [with_state modify fst snd]. rewrite bind_eq. rewrite Hrows.
    pose proof (split_pending t ts i size) as Hsp. cbn zeta in Hsp.
    set (es := map _ (chunk_rows t i size)).
    assert (Hshown : map shown es = map expected (map (pair t) (chunk_rows t i size))).
    { unfold es. rewrite !map_map. apply map_ext. intros r0. unfold shown, expected. cbn. unfold snap_key_of. by rewrite Hc. }
    assert (Hes : es <> []) by (unfold es; by destruct (chunk_rows t i size)).
    destruct (length (chunk_rows t i size) <? size)%nat; cbn [after_chunk fst snd tail] in Hsp;
      intros [= <- <-]; (split_and!; [done..|]).
    + exists ts, 0%nat. split_and!; [|by intros u Hu; right|by rewrite Hshown, <- map_app, Hsp|done].
      split; cbn; try done; [|by destruct ts]. rewrite Hr. cbn. by rewrite removelast_last.
    + exists (t :: ts), (i + length (chunk_rows t i size))%nat.
      split_and!; [|done|by rewrite Hshown, <- map_app, Hsp|done].
      split; cbn; try done. destruct (i + length (chunk_rows t i size))%nat as [|j] eqn:Ej.
      { destruct (chunk_rows t i size); [done|cbn in Ej; lia]. }
      exists row. split_and!; [by eapply chunk_last|done|by rewrite Ek].
  - split_and!; try done. exists (t :: ts), i. split_and!; [|done..]. by split.
Qed.

Section Tables.
Variable all : list string.
Hypothesis known : forall t, t ∈ all -> t ∈ cfg_tables c /\ keyed c t /\ stable_window c t (n, n).

Lemma chunk_loop_spec fuel size ts : (length ts <= fuel)%nat -> (1 <= size)%nat -> ts ⊆ all ->
  forall h i x r (s' : SnowflakeSnapshotHandle * X), reading h ts i -> past x n ->
  chunk_loop fuel size (h, x) = (r, s') ->
  r <> Panic /\ (forall m, past x m -> past (snd s') m) /\ exists ts' i', reading (fst s') ts' i' /\ ts' ⊆ all /\
  match r with
  | Ok es => map shown es ++ map expected (pending ts' i') = map expected (pending ts i) /\ (es = [] -> ts' = [])
  | _ => pending ts' i' = pending ts i
  end.
Proof.
  revert ts. induction fuel as [|fuel IH]; intros ts Hf Hs Hts h i x r s' Hread Hp;
    pose proof (reading_tables _ _ _ Hread) as Hrem; cbn [chunk_loop]; rewrite bind_eq; cbn [of_state gets fst snd id];
    rewrite Hrem; (destruct ts as [|t ts]; cbn [rev]; [cbn [last]|rewrite last_snoc]).
  1,3: intros [= <- <-]; split_and!; try done; by exists [], i.
  { cbn in Hf. lia. }
  assert (t ∈ all /\ ts ⊆ all) as [Hin Hts'] by (split; [|intros u Hu]; apply Hts; [by left|by right]).
  destruct (known t Hin) as (Ht & Hkey & Hst).
  rewrite bind_eq. unfold on_executor. cbn [fst snd].
  destruct (chunk_query h t size x) as [r1 x1] eqn:Eq.
  destruct (chunk_query_spec h t ts i size x r1 x1) as (Hr1 & Hk & Hrs); auto.
  destruct r1 as [rs|e|]; [|intros [= <- <-]; split_and!; try done; by exists (t :: ts), i|done].
  destruct (Hrs rs eq_refl) as [Hcol Hrows]. destruct (rows rs) as [|row rest] eqn:Erows.
  - symmetry in Hrows. rewrite bind_eq. cbn [with_state modify fst snd]. intros Hloop.
    assert (Hdrop : drop i (rows_of t) = []).
    { destruct (drop i (rows_of t)); [done|]. by destruct size; [lia|]. }
    destruct (IH ts ltac:(cbn in Hf; lia) Hs Hts' (pop_table h) 0%nat x1 r s') as (Hnp & Hk2 & Hex); auto.
    { destruct Hread as [? ? Hr _]. split; cbn; try done; [|by destruct ts]. rewrite Hr. cbn. by rewrite removelast_last. }
    rewrite (pending_next t ts i Hdrop). split_and!; auto.
  - intros Hem. destruct (emit_spec h t ts i size rs x1 r s') as (Hnp & <- & ts' & i' & Hread' & Hsub & Hres); auto.
    { by rewrite Erows. }
    { unfold chunk_rows. by rewrite <- Hrows. }
    split_and!; auto. exists ts', i'. split_and!; [done|by intros u Hu; apply Hts, Hsub|]. destruct r; [|done..].
    destruct Hres as [? Hne]. by split; [|intros ->].
Qed.

(** Chunks of any sizes, whatever each answers. *)
Fixpoint chunks (sizes : list nat) (s : SnowflakeSnapshotHandle * X)
    : list Event.Event * (SnowflakeSnapshotHandle * X) :=
  match sizes with
  | [] => ([], s)
  | size :: sizes' =>
      match next_chunk size s with
      | (Ok es, s1) => let '(es', s') := chunks sizes' s1 in (es ++ es', s')
      | (_, s1) => chunks sizes' s1
      end
  end.

Lemma chunks_spec sizes ts i h x es (s' : SnowflakeSnapshotHandle * X) : ts ⊆ all -> reading h ts i -> past x n ->
  chunks sizes (h, x) = (es, s') -> past (snd s') n /\ exists ts' i', reading (fst s') ts' i' /\ ts' ⊆ all /\
    map shown es ++ map expected (pending ts' i') = map expected (pending ts i).
Proof.
  revert ts i h x es. induction sizes as [|size sizes IH]; intros ts i h x es Hts Hr Hp; cbn [chunks].
  { intros [= <- <-]. split; [done|]. by exists ts, i. }
  destruct (next_chunk size (h, x)) as [r [h1 x1]] eqn:En. unfold next_chunk in En.
  rewrite bind_eq in En. cbn [of_state gets fst snd id] in En.
  destruct (chunk_loop_spec (length (remaining h)) (Nat.max size 1) ts ltac:(by rewrite (reading_tables _ _ _ Hr), length_rev)
    ltac:(lia) Hts h i x r (h1, x1) Hr Hp En) as (Hnp & Hk & ts1 & i1 & Hr1 & Hts1 & Hres). cbn in Hk, Hr1.
  destruct r as [es1|e|]; [|by rewrite <- Hres; apply IH; auto|done].
  destruct (chunks sizes (h1, x1)) as [es2 s2] eqn:Ec. intros [= <- <-].
  destruct (IH ts1 i1 h1 x1 es2 Hts1 Hr1 (Hk _ Hp) Ec) as (Hp2 & ts2 & i2 & Hr2 & Hts2 & E2).
  split; [done|]. exists ts2, i2. split_and!; [done..|]. rewrite map_app, <- app_assoc, E2. apply Hres.
Qed.

End Tables.

(** ** The sink after the load *)

Lemma apply_read e t r k T : keyed c t -> shown e = expected (t, r) -> row_key (table_columns t) (key_columns c t) r = Some k ->
  Event.apply_write (Event.row_write e) T = Event.put k (Some (row_object (table_columns t) r)) T.
Proof.
  intros _ [= Ht Ho Hpk Ha Hu] Hk. unfold Event.row_write. rewrite Ho, Ha, Hu.
  rewrite (Event.primary_key_values_key_of e (key_columns c t) (row_object (table_columns t) r));
    [|done|unfold Event.key_row; by rewrite Ho, Ha]. unfold row_key in Hk. by rewrite Hk.
Qed.

Definition no_rows : string -> Event.Table := fun _ _ => None.

Lemma load_applied (all : list string) (P : list (string * Row)) es : (forall t, t ∈ all -> t ∈ cfg_tables c /\ keyed c t /\ stable_window c t (n, n)) ->
  (forall t r, (t, r) ∈ P -> t ∈ all /\ r ∈ rows_of t) -> map shown es = map expected P ->
  forall t k o, apply_events es no_rows t k = Some o <->
    exists r, (t, r) ∈ P /\ row_key (table_columns t) (key_columns c t) r = Some k /\ o = row_object (table_columns t) r.
Proof.
  intros Hall. revert es. induction P as [|[u r] P IH] using rev_ind; intros es HP Hes t k o.
  { destruct es; [|done]. split; [done|]. by intros (r & ?%elem_of_nil & _). }
  rewrite map_app in Hes. destruct es as [|e es _] using rev_ind; [by destruct (map expected P)|].
  rewrite map_app in Hes. apply app_inj_tail in Hes as [Hes He].
  destruct (HP u r) as [Hu Hr]; [apply elem_of_app; right; by left|]. destruct (Hall u Hu) as (Hcfg & Hkey & Hst).
  destruct (row_key_some (table_columns u) (key_columns c u) r Hkey (rows_of_length u r Hcfg Hr)) as [k0 Hk0].
  assert (HP' : forall t r, (t, r) ∈ P -> t ∈ all /\ r ∈ rows_of t) by (intros; apply HP, elem_of_app; by left).
  specialize (IH es HP' Hes t k o). rewrite apply_events_app. unfold apply_events at 1. cbn [List.filter].
  assert (Etab : Event.table e = u) by (by injection He). rewrite Etab.
  destruct (String.eqb_spec u t) as [<-|Hne].
  - cbn [apply_all fold_left]. rewrite (apply_read e u r k0 _ Hkey He Hk0). unfold Event.put. case_decide as Hk.
    + subst k0. split.
      * intros [= <-]. exists r. split_and!; [apply elem_of_app; right; by left|done|done].
      * intros (r' & Hin & Hk' & ->). f_equal. f_equal.
        assert (Hr' : r' ∈ rows_of u) by (by apply (HP u)).
        apply (same_row u r r' Hst Hr Hr'). congruence.
    + rewrite IH. split; [intros (r' & Hin & ?); exists r'; split; [apply elem_of_app; by left|done]|].
      intros (r' & Hin & Hk' & ->). apply elem_of_app in Hin as [Hin|[= ->]%list_elem_of_singleton]; [by exists r'|congruence].
  - cbn [apply_all fold_left]. rewrite IH. split; [intros (r' & Hin & ?); exists r'; split; [apply elem_of_app; by left|done]|].
    intros (r' & Hin & Hk' & ->). apply elem_of_app in Hin as [Hin|[= -> ->]%list_elem_of_singleton]; [by exists r'|done].
Qed.

Lemma load_holds (all : list string) es : (forall t, t ∈ all -> t ∈ cfg_tables c /\ keyed c t /\ stable_window c t (n, n)) ->
  map shown es = map expected (pending all 0) -> forall t, t ∈ all -> holds c (apply_events es no_rows) t n.
Proof.
  intros Hall Hes t Ht k o.
  assert (HP : forall u r, (u, r) ∈ pending all 0 <-> u ∈ all /\ r ∈ rows_of u).
  { intros u r. transitivity ((u, r) ∈ flat_map (fun u => map (pair u) (rows_of u)) all).
    { destruct all; [done|]. cbn. by rewrite drop_0. }
    rewrite !list_elem_of_In, in_flat_map. setoid_rewrite in_map_iff. split.
    - by intros (u' & Hu & r' & [= -> ->] & Hr).
    - intros [Hu Hr]. exists u. split; [done|]. by exists r. }
  rewrite (load_applied all (pending all 0) es Hall (fun u r H => proj1 (HP u r) H) Hes). split.
  - intros (r & [_ Hr]%HP & Hk & ->). apply rows_of_version in Hr as [id Hr]. by exists id, r.
  - intros (id & r & Hr & Hk & ->). exists r. split_and!; [|done..]. apply HP. split; [done|].
    apply rows_of_version. by exists id.
Qed.

End Load.

(** ** Load and stream *)

Section Account.
Context `{DT : DebugText} `{JC : JsonCodec} `{WH : Warehouse} {X : Type} `{EX : Executor X}.
Context (past : X -> Z -> Prop) (c : SnowflakeSourceConfig) {CL : ChangesLaws past c} {KL : ChunkLaws past c}.

Lemma start_snapshot_spec s x h s1 x1 : src_config s = c -> start_snapshot [] (s, x) = (Ok h, (s1, x1)) ->
  reading c (at_nanos h) h (selected_tables c) 0 /\ past x1 (at_nanos h) /\
  src_config s1 = c /\ snapshot_pin_nanos s1 = Some (at_nanos h).
Proof.
  intros Hc. unfold start_snapshot. rewrite bind_eq. unfold on_executor. cbn [fst snd].
  destruct (server_now_nanos x) as [r x2] eqn:En. destruct (now_spec past c _ _ _ En) as (_ & Hp & _).
  destruct r as [at_n|e|]; [|done..]. cbn. rewrite bind_eq. cbn [of_state gets fst snd id]. rewrite bind_eq.
  cbn [mret M_ret fst snd]. rewrite bind_of_res, Hc. unfold new_snapshot.
  destruct (check_all _ (selected_tables c)); [|done..]. cbn. intros [= <- <- <-]. cbn. split_and!; [|by apply Hp|done..].
  split; cbn; try done. by destruct (selected_tables c).
Qed.

Lemma start_stream_spec s x st s1 x1 p : src_config s = c -> snapshot_pin_nanos s = Some p ->
  start_stream None (s, x) = (Ok st, (s1, x1)) ->
  config st = c /\ tables st = selected_tables c /\ position_nanos st = p /\ x1 = x.
Proof.
  intros Hc Hp. unfold start_stream. rewrite bind_eq. cbn [of_state gets fst snd id]. rewrite bind_eq, Hp, Hc.
  cbn [mret M_ret]. unfold of_res, new_stream. destruct (selected_tables c) eqn:E; [done|]. intros [= <- <- <-].
  done.
Qed.


End Account.

(** ** A key that moves to another row *)

Lemma sorted_before (R : string -> string -> Prop) l1 x l2 y : StronglySorted R (l1 ++ x :: l2) -> y ∈ l2 -> R x y.
Proof.
  induction l1 as [|z l1 IH]; cbn; intros [H HF]%StronglySorted_inv Hy; [|by apply IH].
  rewrite Forall_forall in HF. by apply HF.
Qed.

Lemma other_change cols keys sn sc t w old new id k T : declared cols keys -> rows_match cols old -> rows_match cols new ->
  old !! id <> new !! id -> (forall q, new !! id = Some q -> row_key cols keys q <> Some k) -> T k = None ->
  Event.apply_write (Event.row_write (change_event sn sc t (Some keys) w (image cols (old !! id) (new !! id)))) T k = None.
Proof.
  intros Hd Ho Hn Hne Hq HT. destruct (new !! id) as [q|] eqn:En.
  - destruct (row_key_some cols keys q Hd (Hn _ _ En)) as [kq Hkq].
    rewrite (apply_change cols keys sn sc t w (old !! id) (Some q) q kq T) by done. unfold Event.put. cbn.
    rewrite decide_False; [done|]. intros ->. by apply (Hq q).
  - destruct (old !! id) as [q|] eqn:Eo; [|done].
    destruct (row_key_some cols keys q Hd (Ho _ _ Eo)) as [kq Hkq].
    rewrite (apply_change cols keys sn sc t w (Some q) None q kq T) by done. unfold Event.put. cbn. by case_decide.
Qed.

(** C39: the events of a window are sorted by row identity, so a key that is deleted and
    inserted again inside one window is lost.  When the new row's identity sorts before the
    old one's, the insert is applied first and the delete of the old row takes the new row
    away: whatever the sink held, it has no row under the key the table has. *)
Theorem reinserted_key_is_deleted cols keys rs sn sc t w old new gone fresh r r' k :
  plain_columns cols -> declared cols keys -> rows_match cols old -> rows_match cols new ->
  net_change cols old new rs ->
  old !! gone = Some r -> new !! gone = None -> old !! fresh = None -> new !! fresh = Some r' ->
  row_key cols keys r = Some k -> row_key cols keys r' = Some k -> String.compare fresh gone = Lt ->
  (forall id r'', new !! id = Some r'' -> row_key cols keys r'' = Some k -> id = fresh) ->
  exists es, events_from_changes rs sn sc t (Some keys) w = Ok es /\ forall T, apply_all es T k = None.
Proof.
  intros Hp Hd Ho Hn Hc Hg Hg' Hf Hf' Hk Hk' Hlt Hu.
  destruct (window_events cols rs sn sc t (Some keys) w old new Hp Ho Hn Hc) as (ids & -> & _ & Hids & Hsort).
  eexists. split; [done|]. intros T.
  assert (gone ∈ ids) as (l1 & l2 & ->)%list_elem_of_split by (apply Hids; congruence).
  assert (Hl2 : forall id, id ∈ l2 -> id <> fresh).
  { intros id Hid ->. eapply sorted_before in Hsort; [|exact Hid]. apply Hsort. by rewrite String.compare_antisym, Hlt. }
  unfold apply_all. rewrite map_app, fold_left_app. cbn [map fold_left].
  rewrite (apply_change cols keys sn sc t w (old !! gone) (new !! gone) r k) by (rewrite ?Hg'; done). rewrite Hg'. cbn.
  match goal with |- fold_left _ _ ?T0 k = None => assert (HT : T0 k = None) by (unfold Event.put; by rewrite decide_True);
    revert HT; generalize T0 end.
  assert (Hne : forall id, id ∈ l2 -> old !! id <> new !! id) by (intros id Hid; apply Hids, elem_of_app; right; by right).
  clear Hids Hsort. induction l2 as [|id l2 IH]; intros T1 HT; [done|]. cbn [map fold_left].
  apply IH; [intros; apply Hl2; by right|intros; apply Hne; by right|].
  apply other_change; auto; [apply Hne; by left|]. intros q Eq Hq. apply (Hl2 id); [by left|]. by apply (Hu id q).
Qed.

(** ** Restarting under the runtime *)

(** [serde_json] reads a decimal integer as a number. *)
Class JsonNumbers `{JsonCodec} : Prop :=
  parse_number : forall n, 0 <= n <= u64_max ->
    parse_json (list_byte_of_string (show n)) = Some (JNum (PosInt (Z.to_N n))).

Lemma map_res_elem {A B} (f : A -> Res B) l bs b : map_res f l = Ok bs -> b ∈ bs -> exists x, f x = Ok b.
Proof.
  revert bs. induction l as [|x l IH]; intros bs; cbn; [by intros [= <-] ?%elem_of_nil|].
  destruct (f x) as [y| |] eqn:E; [|done..]. cbn. destruct (map_res f l) as [ys| |]; [|done..].
  intros [= <-] [->|Hb]%elem_of_cons; [by exists x|]. by apply (IH ys).
Qed.

Lemma window_event_source rs sn sc t pk w es e : events_from_changes rs sn sc t pk w = Ok es -> e ∈ es ->
  Event.source_name (Event.source e) = sn /\ Event.offset (Event.source e) = show w.
Proof.
  unfold events_from_changes. destruct (parse_rows rs) as [P| |]; [|done..]. cbn [res_bind].
  destruct (group_rows P) as [g o]. intros Hm He. destruct (map_res_elem _ _ _ _ Hm He) as [id Hid].
  destruct (change_image _) as [[[b a] op]| |]; [|done..]. by injection Hid as <-.
Qed.

(** C38: a stream driven by the runtime cannot be resumed.  The runtime saves the offset of an
    acknowledged event as it stands, for a source of the embedder's own: the digits of the
    window's end.  Starting the stream from that checkpoint reads it as an offset record and
    fails, in every state. *)
Theorem runtime_checkpoint_does_not_resume `{JC : JsonCodec} {JN : JsonNumbers} `{DebugText}
    {C SN X : Type} `{Executor X} (r : Runtime.CdcRuntime C SN (SnowflakeStreamHandle * X))
    rs c t pk w es e :
  Runtime.source (Runtime.config r) = Runtime.Disabled -> 0 <= w <= u64_max ->
  events_from_changes rs (cfg_source_name c) (cfg_schema c) t pk w = Ok es -> e ∈ es ->
  exists o, Runtime.build_checkpoint_offset r e = Ok o /\
    forall s x, exists err, start_stream (Some o) (s, x) = (Err err, (s, x)).
Proof.
  intros Hr Hw Hes He. destruct (window_event_source _ _ _ _ _ _ _ _ Hes He) as [Hs Ho].
  assert (Hro : Runtime.resume_offset_for r e = show w).
  { unfold Runtime.resume_offset_for. rewrite Ho. by destruct (Runtime.stream r). }
  unfold Runtime.build_checkpoint_offset. rewrite Hr, Hro. eexists. split; [done|]. intros s x.
  unfold start_stream. rewrite bind_eq. cbn [of_state gets fst snd id]. rewrite bind_of_res.
  unfold resume_position. cbn [source_type generic_dyn]. destruct (String.eqb _ "snowflake"); [|by eexists].
  cbn [negb encode generic_dyn res_bind Offsets.bytes]. unfold offset_from_bytes. rewrite parse_number by done. by eexists.
Qed.

(** A window whose start has left the retention is lost for good, and the error that says so
    is one the runtime retries. *)
Lemma retention_loss_is_retried `{DebugText} e : out_of_retention (lower (error_text e)) = true ->
  ErrorsModel.kind (classify_window_error e) = Transient.
Proof. intros E. unfold classify_window_error. by rewrite E. Qed.

End SnowflakeSync.
