(* ===== verification/SnowflakeDemo.v ===== *)
(** * SnowflakeDemo: a small account

    A server with one table, three instants and a query that fails, with proofs that it keeps
    the laws of [SnowflakeSync], and the runs over it. *)

From S2P Require Import Prelude Errors CheckpointApi Strs Json Offsets Event Monad Driver Runtime RuntimeDelivery Snowflake SnowflakeSync.

Module SnowflakeDemo.
Import Snowflake SnowflakeSync.

Local Open Scope string_scope.
Local Open Scope Z_scope.
Local Open Scope list_scope.

#[local] Instance demo_debug : DebugText := fun l => String.concat ", " l.
#[local] Existing Instance RefCodec.codec.

(** ** The account *)

Definition demo_config : SnowflakeSourceConfig :=
  {| cfg_database := "DB"; cfg_schema := "SC"; cfg_tables := ["ORDERS"];
     primary_keys := {[ "ORDERS" := ["ID"] ]}; append_only := false; poll_interval_ms := 1;
     max_events_per_poll := 10; snapshot_chunk_size := 10; table_include_list := [];
     table_exclude_list := []; cfg_source_name := "snowflake" |}.

Definition order_row (id name : string) : list (option string) := [Some id; Some name].

(** The rows at an instant under their identities, in the order of the key. *)
Definition rows_at (n : Z) : list (string * list (option string)) :=
  if n <? 10 then [("r1", order_row "1" "a"); ("r2", order_row "2" "b")]
  else if n <? 20 then [("r1", order_row "1" "z"); ("r3", order_row "3" "c")]
  else [("r1", order_row "1" "z"); ("r3", order_row "3" "c"); ("r0", order_row "4" "d")].

#[local] Instance demo_warehouse : Warehouse := {
  table_columns := fun _ => ["ID"; "NAME"];
  version := fun _ n => list_to_map (rows_at n);
  ordered := fun _ n _ => map snd (rows_at n);
}.

Definition instants : list Z := [5; 15; 25].

(** The queries so far decide what the clock shows, and the fifth fails. *)
Definition clock_at (x : nat) : Z := if (x <? 3)%nat then 5 else if (x <? 6)%nat then 15 else 25.

Definition change_answers : list (string * SnowflakeResultSet) :=
  flat_map (fun a => map (fun b =>
    (changes_statement "DB" "SC" "ORDERS" a b false,
     {| columns := ["ID"; "NAME"] ++ metadata;
        rows := flat_map (fun id => change_rows id (version "ORDERS" a !! id) (version "ORDERS" b !! id))
                  (identities (version "ORDERS" a) (version "ORDERS" b)) |})) instants) instants.

(** A chunk's statement up to its size. *)
Definition chunk_prefix (n : Z) (after : option (list string)) : string :=
  default "" (strip_suffix "0" (snapshot_chunk_statement "DB" "SC" "ORDERS" n ["ID"] after 0)).

Definition chunk_entries : list (string * list (list (option string))) :=
  flat_map (fun n =>
    (chunk_prefix n None, ordered "ORDERS" n ["ID"]) ::
    imap (fun i r => (chunk_prefix n (key_text ["ID"; "NAME"] ["ID"] r), drop (S i) (ordered "ORDERS" n ["ID"])))
      (ordered "ORDERS" n ["ID"])) instants.

Definition chunk_answers : list (string * SnowflakeResultSet) :=
  flat_map (fun e => map (fun k =>
    (fst e +:+ show (Z.of_nat k), {| columns := ["ID"; "NAME"]; rows := take k (snd e) |})) (seq 1 4)) chunk_entries.

Definition answer (s : string) : option SnowflakeResultSet :=
  snd <$> List.find (fun e => String.eqb (fst e) s) (change_answers ++ chunk_answers).

#[local] Instance demo_executor : Executor nat := fun s x =>
  (if (x =? 4)%nat then Err (SourceError "the warehouse is suspended")
   else if String.eqb s current_epoch_nanos_statement then
     Ok {| columns := ["NOW_NANOS"]; rows := [[Some (show (clock_at x))]] |}
   else match answer s with
        | Some rs => Ok rs
        | None => Err (SourceError "unknown statement")
        end, S x).

Definition demo_past (x : nat) (n : Z) : Prop := n ∈ instants.

(** ** The laws *)

Lemma instants_cases (P : Z -> Prop) : P 5 -> P 15 -> P 25 -> forall n, n ∈ instants -> P n.
Proof.
  intros H5 H15 H25 n Hn. unfold instants in Hn. repeat (apply elem_of_cons in Hn as [->|Hn]; [done|]).
  by apply elem_of_nil in Hn.
Qed.

Lemma rows_at_nodup n : NoDup (map fst (rows_at n)).
Proof. unfold rows_at. repeat case_match; apply (bool_decide_unpack _); by vm_compute. Qed.

Lemma rows_at_length n id r : (id, r) ∈ rows_at n -> length r = 2%nat.
Proof.
  unfold rows_at. repeat case_match; intros Hin;
    repeat (apply elem_of_cons in Hin as [[= -> ->]|Hin]; [done|]); by apply elem_of_nil in Hin.
Qed.

#[local] Instance demo_changes : ChangesLaws demo_past demo_config.
Proof.
  split.
  - intros t _. apply (bool_decide_unpack _). by vm_compute.
  - intros t n _ id r Hr. cbn in Hr. apply elem_of_list_to_map in Hr; [|apply rows_at_nodup]. by eapply rows_at_length.
  - intros x x' rs raw n. unfold query, demo_executor. destruct (x =? 4)%nat; [done|].
    rewrite String.eqb_refl. intros [= <- <-] [= <-]. unfold clock_at.
    destruct (x <? 3)%nat; [|destruct (x <? 6)%nat]; vm_compute; intros [= <-]; unfold demo_past, instants; set_solver.
  - done.
  - intros s x. unfold query, demo_executor. cbn [fst]. destruct (x =? 4)%nat; [done|].
    destruct (String.eqb s _); [done|]. by destruct (answer s).
  - intros t a b x rs x' Ht%list_elem_of_singleton Ha Hb _. subst t. unfold demo_past in Ha, Hb.
    unfold query, demo_executor. destruct (x =? 4)%nat; [done|]. intros Hq.
    assert (E : answer (changes_statement "DB" "SC" "ORDERS" a b false) =
                Some {| columns := ["ID"; "NAME"] ++ metadata;
                        rows := flat_map (fun id => change_rows id (version "ORDERS" a !! id) (version "ORDERS" b !! id))
                                  (identities (version "ORDERS" a) (version "ORDERS" b)) |}).
    { clear Hq. revert b Hb. revert a Ha. refine (instants_cases _ _ _ _); refine (instants_cases _ _ _ _); vm_compute; reflexivity. }
    cbn [cfg_database cfg_schema demo_config] in Hq. rewrite E in Hq.
    change (String.eqb _ current_epoch_nanos_statement) with false in Hq. injection Hq as <- _.
    by split.
Qed.

(** Two strings part before either ends. *)
Fixpoint part (a b : string) : bool :=
  match a, b with
  | String x a', String y b' => if Ascii.eqb x y then part a' b' else true
  | _, _ => false
  end.

Lemma part_apart a b u v : part a b = true -> a +:+ u <> b +:+ v.
Proof.
  revert b. induction a as [|x a IH]; intros [|y b]; cbn; try done.
  destruct (Ascii.eqb_spec x y) as [->|Hne]; intros Hp [= E]; [by apply (IH b)|done].
Qed.

(** The answers to statements that begin so are the first of these rows. *)
Definition only (p : string) (l : list (list (option string))) : bool :=
  part current_epoch_nanos_statement p &&
  forallb (fun e => part (fst e) p) change_answers &&
  forallb (fun e => part (fst e) p || bool_decide (e = (p, l))) chunk_entries.

Lemma show_size_inj k k' : show (Z.of_nat k) = show (Z.of_nat k') -> k = k'.
Proof.
  intros E. set (m := Z.max (Z.of_nat k) (Z.of_nat k')).
  pose proof (parse_show m (Z.of_nat k) ltac:(lia)) as H. rewrite E, parse_show in H by lia. injection H. lia.
Qed.

Lemma only_answer p l size x rs x' : only p l = true ->
  query (p +:+ show (Z.of_nat size)) x = (Ok rs, x') -> columns rs = ["ID"; "NAME"] /\ rows rs = take size l.
Proof.
  intros [[Hc Hch]%andb_prop Hen]%andb_prop. unfold query, demo_executor. destruct (x =? 4)%nat; [done|].
  destruct (String.eqb_spec (p +:+ show (Z.of_nat size)) current_epoch_nanos_statement) as [E|_].
  { rewrite <- (append_nil_r current_epoch_nanos_statement) in E. symmetry in E. by apply part_apart in E. }
  unfold answer. destruct (List.find _ _) as [[s rs0]|] eqn:Ef; [|done]. cbn. intros [= <- _].
  apply find_some in Ef as [Hin Hs%String.eqb_eq]. cbn in Hs. apply in_app_iff in Hin as [Hin|Hin].
  - rewrite forallb_forall in Hch. specialize (Hch _ Hin). cbn in Hch.
    rewrite <- (append_nil_r s) in Hs. by apply part_apart in Hs.
  - apply in_flat_map in Hin as ([p0 l0] & He & Hk). apply in_map_iff in Hk as (k & [= <- <-] & _). cbn in Hs.
    rewrite forallb_forall in Hen. specialize (Hen _ He). cbn in Hen. apply orb_prop in Hen as [Hp|Hp].
    + by apply part_apart in Hs.
    + apply bool_decide_eq_true in Hp. injection Hp as -> ->. apply append_inj_l, show_size_inj in Hs as <-. done.
Qed.

Lemma statement_split n after size :
  snapshot_chunk_statement "DB" "SC" "ORDERS" n ["ID"] after size = chunk_prefix n after +:+ show (Z.of_nat size).
Proof.
  assert (exists h, forall k, snapshot_chunk_statement "DB" "SC" "ORDERS" n ["ID"] after k = h +:+ show (Z.of_nat k)) as [h Hh].
  { eexists. intros k. unfold snapshot_chunk_statement. rewrite <- !append_assoc_r. reflexivity. }
  unfold chunk_prefix. rewrite (Hh 0%nat), Hh. change (show (Z.of_nat 0)) with "0". by rewrite strip_suffix_app.
Qed.

#[local] Instance demo_chunks : ChunkLaws demo_past demo_config.
Proof.
  split.
  - intros t n keys. cbn. apply fmap_Permutation. symmetry. apply map_to_list_to_map, rows_at_nodup.
  - intros t n size x rs x' Ht%list_elem_of_singleton Hn. subst t. change (key_columns demo_config "ORDERS") with ["ID"].
    cbn [cfg_database cfg_schema demo_config]. rewrite statement_split. apply only_answer.
    revert n Hn. refine (instants_cases _ _ _ _); vm_compute; reflexivity.
  - intros t n i r k size x rs x' Ht%list_elem_of_singleton Hn _. subst t.
    change (key_columns demo_config "ORDERS") with ["ID"]. cbn [cfg_database cfg_schema demo_config]. rewrite statement_split.
    intros Hi Hk. apply only_answer. revert n Hn i r k Hi Hk.
    refine (instants_cases _ _ _ _); intros [|[|[|i]]] r k Hi; vm_compute in Hi; try discriminate Hi;
      injection Hi as <-; intros Hk; vm_compute in Hk; injection Hk as <-; vm_compute; reflexivity.
Qed.

(** ** The runs *)

Definition stableb (cols keys : list string) (old new : list (string * list (option string))) : bool :=
  let l := old ++ new in
  forallb (fun p => forallb (fun q =>
    Bool.eqb (bool_decide (row_key cols keys (snd p) = row_key cols keys (snd q))) (bool_decide (fst p = fst q))) l) l.

Lemma stableb_stable cols keys old new : NoDup (map fst old) -> NoDup (map fst new) ->
  stableb cols keys old new = true -> stable cols keys (list_to_map old) (list_to_map new).
Proof.
  intros Ho Hn Hb id1 id2 r1 r2 H1 H2. unfold stableb in Hb.
  assert (Hin : forall id r, (list_to_map old : gmap string (list (option string))) !! id = Some r \/
                             (list_to_map new : gmap string (list (option string))) !! id = Some r -> In (id, r) (old ++ new)).
  { intros id r [Hr|Hr]; apply elem_of_list_to_map in Hr; try done; apply in_app_iff; rewrite <- !list_elem_of_In; auto. }
  rewrite forallb_forall in Hb. specialize (Hb _ (Hin _ _ H1)). rewrite forallb_forall in Hb. specialize (Hb _ (Hin _ _ H2)).
  apply Bool.eqb_prop in Hb. cbn in Hb.
  by rewrite <- (bool_decide_eq_true (row_key cols keys r1 = row_key cols keys r2)), Hb, bool_decide_eq_true.
Qed.

Lemma demo_stable t w : fst w ∈ instants -> snd w ∈ instants -> t ∈ selected_tables demo_config -> fst w <= snd w ->
  stable_window demo_config t w.
Proof.
  destruct w as [a b]. cbn [fst snd]. intros Ha Hb Ht. vm_compute in Ht. apply list_elem_of_singleton in Ht as ->.
  intros Hab. apply stableb_stable; [apply rows_at_nodup..|]. revert a Ha b Hb Hab.
  refine (instants_cases _ _ _ _); refine (instants_cases _ _ _ _); intros Hab; try lia; vm_compute; reflexivity.
Qed.

Lemma demo_declared : declared ["ID"; "NAME"] ["ID"].
Proof. split; [done|]. intros c ->%list_elem_of_singleton. by left. Qed.


(** The key of [r9] moves to [r1] inside the window. *)
Definition before_move : list (string * list (option string)) := [("r9", order_row "7" "old")].
Definition after_move : list (string * list (option string)) := [("r1", order_row "7" "new")].

Lemma reinserted_key_is_deleted_witness : exists es,
  events_from_changes {| columns := ["ID"; "NAME"] ++ metadata;
      rows := [[Some "7"; Some "old"; Some "DELETE"; Some "false"; Some "r9"];
               [Some "7"; Some "new"; Some "INSERT"; Some "false"; Some "r1"]] |}
    "snowflake" "SC" "ORDERS" (Some ["ID"]) 15 = Ok es /\
  forall T, apply_all es T (JObj [("ID", JStr "7")]) = None.
Proof.
  apply (reinserted_key_is_deleted ["ID"; "NAME"] ["ID"] _ "snowflake" "SC" "ORDERS" 15
           (list_to_map before_move) (list_to_map after_move) "r9" "r1" (order_row "7" "old") (order_row "7" "new")).
  - apply (bool_decide_unpack _). vm_compute. exact Logic.I.
  - apply demo_declared.
  - intros id r Hr. apply elem_of_list_to_map in Hr; [|apply NoDup_singleton].
    by apply list_elem_of_singleton in Hr as [= -> ->].
  - intros id r Hr. apply elem_of_list_to_map in Hr; [|apply NoDup_singleton].
    by apply list_elem_of_singleton in Hr as [= -> ->].
  - split; [reflexivity|]. apply (bool_decide_unpack _). vm_compute. exact Logic.I.
  - reflexivity.
  - reflexivity.
  - reflexivity.
  - reflexivity.
  - reflexivity.
  - reflexivity.
  - reflexivity.
  - intros id r Hr _. apply elem_of_list_to_map in Hr; [|apply NoDup_singleton].
    by apply list_elem_of_singleton in Hr as [= -> ->].
Defined.

(** A codec that knows numbers only. *)
Definition digits_codec : JsonCodec :=
  {| print_json := fun _ => []; print_pretty := fun _ => [];
     parse_json := fun b => (fun n => JNum (PosInt (Z.to_N n))) <$> parse_u64 (string_of_list_byte b) |}.

Lemma digits_numbers : @JsonNumbers digits_codec.
Proof.
  intros n Hn. cbn -[parse_u64 string_of_list_byte list_byte_of_string show]. rewrite string_of_list_byte_of_string. unfold parse_u64. by rewrite parse_show.
Qed.

(** The runtime a [Custom] source runs under, with nothing saved. *)
Definition demo_runtime : Runtime.CdcRuntime unit Empty_set (SnowflakeStreamHandle * nat) :=
  RuntimeDelivery.fresh (RuntimeDelivery.Demo.configured 2 true Runtime.Split) 0 tt
    ({| config := demo_config; position_nanos := 5; tables := ["ORDERS"]; events_polled := 0 |}, 0%nat).

Definition one_insert : SnowflakeResultSet :=
  {| columns := ["ID"; "NAME"] ++ metadata;
     rows := [[Some "7"; Some "new"; Some "INSERT"; Some "false"; Some "r1"]] |}.

Definition one_event : Event.Event :=
  change_event "snowflake" "SC" "ORDERS" (Some ["ID"]) 15 (image ["ID"; "NAME"] None (Some (order_row "7" "new"))).

#[local] Existing Instance digits_codec | 0.
#[local] Existing Instance digits_numbers.

Lemma runtime_checkpoint_does_not_resume_witness : exists o,
  events_from_changes one_insert "snowflake" "SC" "ORDERS" (Some ["ID"]) 15 = Ok [one_event] /\
  Runtime.build_checkpoint_offset demo_runtime one_event = Ok o /\
  forall s x, exists err, start_stream (X := nat) (Some o) (s, x) = (Err err, (s, x)).
Proof.
  destruct (runtime_checkpoint_does_not_resume
              demo_runtime one_insert demo_config "ORDERS" (Some ["ID"]) 15 [one_event] one_event) as (o & Ho & Hs).
  - reflexivity.
  - unfold u64_max, u64_modulus. lia.
  - vm_compute. reflexivity.
  - by left.
  - exists o. split; [vm_compute; reflexivity|]. by split.
Defined.

(** A table of two rows read in chunks of two: no event says it is of the last chunk. *)
Example full_chunk_is_not_marked :
  match start_snapshot [] ({| src_config := demo_config; snapshot_pin_nanos := None |}, 0%nat) with
  | (Ok h, (_, x)) =>
      let '(es, (h', _)) := chunks [2; 2]%nat (h, x) in
      remaining h' = [] /\ length es = 2%nat /\
      forallb (fun e => match Event.snapshot e with Some m => negb (Event.is_last_chunk m) | None => false end) es = true
  | _ => False
  end.
Proof. vm_compute. done. Qed.

End SnowflakeDemo.
